(* ===== verification/_CoqProject ===== *)
-Q . S2P
Prelude.v
DFA.v
Bytecode.v
BytecodeCompiler.v
BytecodeInterpreter.v
TransitionsCorrect.v
CodeLayout.v
CompilerCorrect.v
CompileLayout.v
InterpreterSteps.v
BytecodeCorrect.v
BytecodeClaims.v
RangeList.v
RangeListCorrect.v
HashSet.v
NFA.v
NFACorrect.v
NFAToDFA.v
SubsetCorrect.v
ConvertCorrect.v
ConvertClaims.v
Bits.v
Term.v
TermLanguage.v
Fragments.v
TermGraph.v
Actions.v
ActionsCorrect.v
SerializeCorrect.v
SerializeInvariant.v
SerializeClaims.v
Utf8.v
Utf8Correct.v
Utf8Claims.v
ContentExtension.v
ExtensionCorrect.v
ExtensionClaims.v
DocumentSheets.v
Minimizer.v
PartitionCorrect.v
GraphPartition.v
SingularRanges.v
TransitionTable.v
GraphOfDFA.v
SplitNodes.v
MinimizeCorrect.v
MinimizeClaims.v
Combiner.v
MergeCorrect.v
CombineClaims.v
Yarr.v
CombinedURLFilters.v
URLFilterParser.v
PrefixTree.v
YarrCorrect.v
FilterSyntax.v
FilterParserCorrect.v
FilterRun.v
FilterSimplify.v
FilterClaims.v
ProcessNFAs.v
TreeHeap.v
Skeleton.v
SubtreeSemantics.v
SubtreeDrawing.v
SubtreeLoop.v
ProcessCorrect.v
ProcessClaims.v
RuleListCompiler.v
LoweringCorrect.v
RulesCorrect.v
RuleListCorrect.v
RuleListClaims.v
LiteralParser.v
LiteralParserCorrect.v
LiteralGrammar.v
LiteralSound.v
RuleListParser.v
RuleTextClaims.v
LoadClaims.v
