(* ===== verification/Prelude.v ===== *)
(** * Content extensions, verified

    WebKit's content extensions (src/Source/WebCore/contentextensions) compile
    lists of rules - a regular expression over URLs, conditions on the load and
    the domain, an action - into bytecode, and decide with it what happens to
    every load.  This library models that pipeline, function by function, from
    the JSON text of the rules to the actions of a load, and proves it correct,
    part by part and as a whole.

    ** The program and its parts

    - Parsing: a JSON text becomes a value (LiteralParser of JavaScriptCore), and
      the value triggers and actions (ContentExtensionParser,
      ContentExtensionRule); a URL filter becomes a list of terms
      (yarr/YarrParser, URLFilterParser, Term).
    - Compilation (ContentExtensionCompiler): the actions are serialized into
      one vector of bytes; patterns with common prefixes share a tree, and the
      tree is drawn into NFAs (CombinedURLFilters, Term, NFA, ImmutableNFA); an
      NFA is converted to a DFA (NFAToDFA); DFAs are combined and minimized
      (DFACombiner, DFAMinimizer) and compiled to bytecode
      (DFABytecodeCompiler), which is handed to a client.
    - Run time: the bytecode of a compiled extension is interpreted on a URL
      (DFABytecodeInterpreter); a content extension keeps universal actions, a
      global style sheet and a domain cache (ContentExtension); the backend
      keeps the extensions and answers loads (ContentExtensionsBackend); the
      loader and the document keep the style sheets (DocumentLoader,
      ExtensionStyleSheets, ContentExtensionStyleSheet).

    ** What is modelled where

    - Prelude: vectors with checked access, machine integers as [Z] with the
      wrap-around written where the code converts, memory as bytes in either
      byte order ([Host]), the boolean and list automation.
    - DFA, Bytecode, BytecodeCompiler, BytecodeInterpreter: DFANode.h/.cpp,
      DFABytecode.h, DFABytecodeCompiler.h/.cpp, DFABytecodeInterpreter.h/.cpp.
      The proofs are in TransitionsCorrect (grouping of transitions),
      CodeLayout, CompilerCorrect and CompileLayout (where the code of every
      node is and what it says), InterpreterSteps and BytecodeCorrect (running
      it); BytecodeClaims states the theorems.
    - RangeList (MutableRange.h, MutableRangeList.h), NFA (NFA.h,
      ImmutableNFA.h, ImmutableNFANodeBuilder.h), NFAToDFA (NFAToDFA.cpp) over
      the hash set interface of HashSet; proofs in RangeListCorrect, NFACorrect,
      SubsetCorrect (closures and sets of nodes) and ConvertCorrect; theorems in
      ConvertClaims.
    - Bits and Term (Term.h, the bit counts of wtf/StdLibExtras.h); the languages
      of terms are in TermLanguage, the generation of graphs is proved in
      Fragments and TermGraph.
    - Actions (ContentExtensionActions.h, ContentExtensionRule.h/.cpp and
      [serializeActions] of ContentExtensionCompiler.cpp); ActionsCorrect is the
      encoding of one action, SerializeCorrect and SerializeInvariant the
      invariant of the loop over the rules; theorems in SerializeClaims.
    - Utf8 (wtf/unicode/UTF8.cpp, [String::utf8]), Utf8Correct, Utf8Claims.
    - ContentExtension (ContentExtension.cpp, ContentExtensionsBackend.cpp,
      ResourceLoadInfo.cpp), ExtensionCorrect, ExtensionClaims.
    - DocumentSheets (ContentExtensionStyleSheet.h/.cpp, and the parts of
      dom/ExtensionStyleSheets.h/.cpp and loader/DocumentLoader.h/.cpp for
      content extensions): the style sheets a load leaves in a document.
    - Minimizer (DFAMinimizer.cpp): its partitions are proved in
      PartitionCorrect, the bucket sorts and the transition table in
      SingularRanges, TransitionTable and GraphOfDFA, the refinement in
      GraphPartition and SplitNodes, the relocation of nodes and the whole in
      MinimizeCorrect; theorems in MinimizeClaims.
    - Combiner (DFACombiner.h/.cpp): MergeCorrect is the 64-bit signatures, the
      transitions of a pair of nodes and the invariant of the merger;
      CombineClaims the two loops of the combiner and the theorems.
    - Yarr (yarr/YarrParser.h), the regular expression parser for any delegate;
      YarrCorrect shows that it returns for delegates with the laws
      [DelegateLaws].  CombinedURLFilters (CombinedURLFilters.h/.cpp,
      CombinedFiltersAlphabet.h/.cpp) is the prefix tree as a heap of vertices,
      PrefixTree its invariant.  URLFilterParser (URLFilterParser.h/.cpp) is the
      delegate that collects terms; FilterParserCorrect shows its laws.
      FilterSyntax is the reference: filters as trees, how they are written and
      what they match; FilterRun parses what was written, FilterSimplify is the
      simplification of terms; theorems in FilterClaims.
    - ProcessNFAs ([processNFAs] of CombinedURLFilters.cpp): the tree is consumed
      round by round.  TreeHeap is the tree while edges are removed, Skeleton
      an NFA that is being drawn, SubtreeSemantics what its nodes stand for,
      SubtreeDrawing and SubtreeLoop the drawing of the subtrees of fixed
      length, ProcessCorrect the rounds; theorems in ProcessClaims.
    - RuleListCompiler ([compileRuleList] after parsing, of
      ContentExtensionCompiler.cpp, and ContentExtensionError.h): LoweringCorrect
      goes from a tree of filters to bytecode, RulesCorrect sorts the rules into
      trees and universal actions, RuleListCorrect puts them together; theorems
      in RuleListClaims.
    - LiteralParser (runtime/LiteralParser.h/.cpp in strict mode, [JSONParse] of
      runtime/JSONObject.cpp): LiteralParserCorrect shows that it returns,
      LiteralGrammar has the grammar of JSON and shows that its texts are read,
      LiteralSound that nothing else is.  RuleListParser
      (ContentExtensionParser.h/.cpp, the names of types of
      ResourceLoadInfo.cpp, and [compileRuleList] as a whole); theorems on both
      in RuleTextClaims.  LoadClaims goes from the text to the loads.

    A definition has the name of the function or class it models; helpers for
    loops and lambdas are mapped to the lines they come from.  State is passed
    explicitly, loops are structural or take fuel.  [None] is an abort: a failed
    [RELEASE_ASSERT], a checked access out of range, a read outside a buffer;
    plain [ASSERT]s are compiled out, and the theorems show what they state.
    Errors the code returns are values.

    ** What the theorems show

    - C1, the whole: a text that the parser accepts as a list of rules, with
      filters in the supported syntax and automata that fit the sizes, compiles;
      if its DFAs keep the terminator, the extension made of it gives a load
      with a domain exactly the actions of the rules that are in effect for it.
    - C2 and C7, compilation: a list of rules with filters in the supported
      syntax compiles, and if its DFAs keep the terminator the bytecode answers
      for the rules; a filter that is not accepted stops the compilation.  C40
      is a list of two rules that compiles and does not keep the terminator, so
      that a URL is not blocked.
    - C3 to C6, texts: the JSON parser accepts exactly the texts of its grammar,
      in which a semicolon may end the text; valid rules are read from each of
      their texts, what is read are valid rules, and errors are returned where
      they should be.
    - C8 to C12, bytecode: compiling a well-formed DFA succeeds, and interpreting
      the code of any number of DFAs that keep the terminator returns exactly
      the actions of the nodes the URL visits; grouping transitions, choosing a
      fallback and choosing jump sizes lose nothing - except a transition on the
      terminator to the fallback node (C12), which is why the terminator is
      asked to be kept.
    - C13 to C17, automata: merging ranges is pointwise, building a node keeps
      its transitions - except that moving a builder loses all its epsilon
      transitions (C15); epsilon closures are the reachable nodes
      and the DFA accepts the actions the NFA accepts.
    - C18 to C22, filters: a written filter becomes a pattern of the tree that is
      found in exactly the URLs it matches; the parsers return on every filter.
      The exceptions are filters bound to both ends that may be empty (C21) and
      escapes beyond ASCII in classes, which abort (C22).
    - C23 and C24, NFAs: the NFAs drawn from a tree without empty groups accept
      together exactly the patterns of the tree; the epsilon transition of an
      empty group can be lost when the stack of subtrees is moved (C24).
    - C25 to C27, actions: serialized actions are read back as written, every
      rule's location holds its action, and two rules are located in their order
      whenever both an ignore-previous-rules rule and another one are found from
      the one to the other.
    - C28 to C30, UTF-8: round trip, and canonical form of accepted input -
      except after two lead bytes (C30).
    - C31 to C35, run time: a load gets exactly the effective actions, the
      domain cache is not stale for a domain that is not null (C33 is the null
      domain) and filling it keeps the universal actions as created, the
      actions are applied completely, and the document gets the style sheets
      they ask for, each selector once.
    - C36 to C38, minimization: a minimized DFA has the outputs of the original
      and no two equivalent nodes, also after a conversion; the splitter loop
      uses every set of transitions.
    - C39, combination: the delivered DFAs, each minimal and all but the last
      large enough, report the actions of the added ones.

    ** Bounds and fuel

    Inputs are bounded where the code's integers are: bytecode and actions
    below 2^31 or 2^32 bytes, node counts below 2^32.  Fuel is always computed
    from the input and proved to be enough: the theorems state that a result
    is produced, not only what it is if there is one.  The interpreter's fuel is
    the length of the URL times the length of the bytecode, as the program
    counter grows between two characters; a scan over bytes takes the number of
    bytes; the conversion to a DFA takes the number of sets of NFA nodes; the
    minimizer's main loop takes the number of transitions of its table, the
    merger the number of pairs of nodes; the regular expression parser takes the
    length of what is left of the pattern; the JSON parser takes six rounds per
    character, the drawing of NFAs a bound from the weights of the vertices.
    The minimizer asks for 128 times the number of nodes below 2^31, as its
    table has signed positions; the merger stores the number of actions of a
    node in 16 bits, so its theorems bound the number of different actions by
    65535, which the limit of 50000 rules keeps.  The theorems on whole rule
    lists ask for these bounds of the automata the rules give
    ([rules_affordable], which is decidable and evaluated in the witnesses).  No
    bound is the condition that the DFAs keep the terminator ([terminator_kept]
    of a DFA, [rules_keep_terminator] of a list of rules): it excludes the defect
    of C12 and C40, is stated apart in C1, C2 and C8, and is evaluated too.  The
    order in which a hash map is iterated is always a parameter.

    ** Not modelled

    The other modes of the JSON parser (JSONP, literals of programs) and its
    error messages; how a number is written as a string, which is a parameter,
    as only the names of types are converted and no number is one; limits of the
    stack of JavaScript; the CSS engine, security origins, URL parsing and the
    loader, which are parameters; hash tables, which are an interface with an
    unspecified iteration order; debugging and memory accounting code; the rest
    of WebKit. *)

From stdpp Require Export base list option gmap numbers sorting.
From Stdlib Require Export ZArith Lia.

#[global] Open Scope Z_scope.

(** ** The development's own notations *)

Declare Scope ce_scope.
Delimit Scope ce_scope with ce.

(** ** Vectors

    [WTF::Vector::operator[]] checks its index and crashes when it is out of
    range (wtf/Vector.h, [at]); a crash is [None] everywhere in this library. *)

Definition vec_at {A} (v : list A) (i : Z) : option A :=
  if 0 <=? i then v !! Z.to_nat i else None.

Definition vec_set {A} (v : list A) (i : Z) (x : A) : option (list A) :=
  if (0 <=? i) && (i <? Z.of_nat (length v)) then Some (<[Z.to_nat i := x]> v) else None.

Abbreviation vlen v := (Z.of_nat (length v)).
Notation "v .[ i ]" := (vec_at v i) (at level 1, left associativity, format "v .[ i ]") : ce_scope.
#[global] Open Scope ce_scope.

(** ** Machine integers: values are [Z], the width is written at the place
    where the code converts or wraps. *)

Definition uwrap (w x : Z) : Z := x mod 2 ^ w.
Definition swrap (w x : Z) : Z := (x + 2 ^ (w - 1)) mod 2 ^ w - 2 ^ (w - 1).

Abbreviation u8 := (uwrap 8).
Abbreviation u16 := (uwrap 16).
Abbreviation u32 := (uwrap 32).
Abbreviation u64 := (uwrap 64).
Abbreviation s8 := (swrap 8).
Abbreviation s16 := (swrap 16).
Abbreviation s32 := (swrap 32).

Definition uint32_max : Z := 2 ^ 32 - 1.
Definition int32_max : Z := 2 ^ 31 - 1.

(** ** Integers in memory

    The bytecode is written and read through [reinterpret_cast], so the byte
    order is the host's.  The library is generic in it. *)

Class Host := { host_big_endian : bool }.

Fixpoint le_bytes (n : nat) (v : Z) : list Z :=
  match n with
  | O => []
  | S n => v mod 256 :: le_bytes n (v / 256)
  end.

Fixpoint le_value (l : list Z) : Z :=
  match l with
  | [] => 0
  | b :: l => b + 256 * le_value l
  end.

Section Memory.
Context `{Host}.

Definition to_bytes (n : nat) (v : Z) : list Z :=
  if host_big_endian then rev (le_bytes n v) else le_bytes n v.

Definition of_bytes (l : list Z) : Z :=
  le_value (if host_big_endian then rev l else l).

(** A read of [n] bytes at [index]; a read past the buffer is undefined. *)
Definition load (n : nat) (mem : list Z) (index : Z) : option Z :=
  if (0 <=? index) && (index + Z.of_nat n <=? vlen mem)
  then Some (of_bytes (take n (drop (Z.to_nat index) mem)))
  else None.

(** A write of [n] bytes at [index]. *)
Definition store (n : nat) (mem : list Z) (index v : Z) : option (list Z) :=
  if (0 <=? index) && (index + Z.of_nat n <=? vlen mem)
  then Some (take (Z.to_nat index) mem ++ to_bytes n v
               ++ drop (Z.to_nat index + n) mem)
  else None.
End Memory.

(** ** Automation *)

Create HintDb ce discriminated.
Create Rewrite HintDb ce.

(** Split every boolean test of the code into the arithmetic fact it decides. *)
Ltac case_bool :=
  match goal with
  | |- context [?a <=? ?b] => destruct (Z.leb_spec a b)
  | |- context [?a <? ?b] => destruct (Z.ltb_spec a b)
  | |- context [?a =? ?b] => destruct (Z.eqb_spec a b)
  | H : context [?a <=? ?b] |- _ => destruct (Z.leb_spec a b)
  | H : context [?a <? ?b] |- _ => destruct (Z.ltb_spec a b)
  | H : context [?a =? ?b] |- _ => destruct (Z.eqb_spec a b)
  end.

Ltac bool_cases := repeat (case_bool; cbn [andb orb negb] in *).

(** Turn boolean hypotheses into propositions. *)
Ltac bprop :=
  repeat match goal with
  | H : (_ && _) = true |- _ => apply andb_true_iff in H; destruct H
  | H : (_ && _) = false |- _ => apply andb_false_iff in H
  | H : (_ || _) = true |- _ => apply orb_true_iff in H
  | H : (_ || _) = false |- _ => apply orb_false_iff in H; destruct H
  | H : negb _ = true |- _ => apply negb_true_iff in H
  | H : negb _ = false |- _ => apply negb_false_iff in H
  | H : (_ =? _) = true |- _ => apply Z.eqb_eq in H
  | H : (_ =? _) = false |- _ => apply Z.eqb_neq in H
  | H : (_ <=? _) = true |- _ => apply Z.leb_le in H
  | H : (_ <=? _) = false |- _ => apply Z.leb_gt in H
  | H : (_ <? _) = true |- _ => apply Z.ltb_lt in H
  | H : (_ <? _) = false |- _ => apply Z.ltb_ge in H
  end.

(** ** Generic lemmas: vectors *)

Lemma vec_at_Some {A} (v : list A) i x :
  v.[i] = Some x <-> 0 <= i /\ v !! Z.to_nat i = Some x.
Proof. unfold vec_at. case_bool; [tauto|]. split; [done|]. intros []; lia. Qed.

Lemma vec_at_lt {A} (v : list A) i x : v.[i] = Some x -> 0 <= i < vlen v.
Proof. rewrite vec_at_Some. intros [? ?%lookup_lt_Some]. lia. Qed.

Lemma vec_at_is_Some {A} (v : list A) i : 0 <= i < vlen v -> exists x, v.[i] = Some x.
Proof.
  intros Hi. destruct (lookup_lt_is_Some_2 v (Z.to_nat i)) as [x Hx]; [lia|].
  exists x. apply vec_at_Some. split; [lia|done].
Qed.

Lemma vec_at_nat {A} (v : list A) (i : nat) : v.[Z.of_nat i] = v !! i.
Proof. unfold vec_at. case_bool; [by rewrite Nat2Z.id|lia]. Qed.

Lemma vec_set_Some {A} (v : list A) i x :
  0 <= i < vlen v -> vec_set v i x = Some (<[Z.to_nat i := x]> v).
Proof. intros. unfold vec_set. bool_cases; try done; lia. Qed.

Lemma vec_set_inv {A} (v v' : list A) i x :
  vec_set v i x = Some v' -> 0 <= i < vlen v /\ v' = <[Z.to_nat i := x]> v.
Proof. unfold vec_set. bool_cases; intros ?; simplify_eq; (split; [lia|done]). Qed.

Lemma vec_at_set {A} (v v' : list A) i j x :
  vec_set v i x = Some v' -> v'.[j] = if decide (i = j) then Some x else v.[j].
Proof.
  intros [Hi ->]%vec_set_inv. unfold vec_at. case_bool.
  - case_decide; subst.
    + rewrite list_lookup_insert_eq; [done|lia].
    + rewrite list_lookup_insert_ne; [done|lia].
  - case_decide; [lia|done].
Qed.

Lemma vec_set_length {A} (v v' : list A) i x : vec_set v i x = Some v' -> length v' = length v.
Proof. intros [_ ->]%vec_set_inv. apply length_insert. Qed.

Lemma vec_at_app_l {A} (v w : list A) i : i < vlen v -> (v ++ w).[i] = v.[i].
Proof. intros Hi. unfold vec_at. case_bool; [|done]. apply lookup_app_l. lia. Qed.

Lemma vec_at_app_r {A} (v w : list A) i : 0 <= i -> (v ++ w).[vlen v + i] = w.[i].
Proof.
  intros Hi. unfold vec_at. destruct (Z.leb_spec 0 (vlen v + i)); [|lia]. destruct (Z.leb_spec 0 i); [|lia].
  rewrite lookup_app_r by lia. f_equal. lia.
Qed.

Lemma vec_at_snoc {A} (v : list A) x : (v ++ [x]).[vlen v] = Some x.
Proof. rewrite <- (Z.add_0_r (vlen v)). by rewrite vec_at_app_r. Qed.

(** ** Generic lemmas: aborting computations *)

Lemma option_bind_Some {A B} (f : A -> option B) x : (Some x ≫= f) = f x.
Proof. reflexivity. Qed.

(** ** Generic lemmas: wrap-around *)

Lemma uwrap_small w x : 0 <= x < 2 ^ w -> uwrap w x = x.
Proof. apply Z.mod_small. Qed.

Lemma swrap_small w x : 0 < w -> - 2 ^ (w - 1) <= x < 2 ^ (w - 1) -> swrap w x = x.
Proof.
  intros Hw Hx. unfold swrap. rewrite Z.mod_small; [lia|].
  replace (2 ^ w) with (2 * 2 ^ (w - 1)); [lia|].
  rewrite <- Z.pow_succ_r; [f_equal; lia|lia].
Qed.

Lemma s8_small x : -128 <= x < 128 -> s8 x = x.
Proof. intros. by apply swrap_small. Qed.

Lemma s16_small x : -32768 <= x < 32768 -> s16 x = x.
Proof. intros. by apply swrap_small. Qed.

Lemma s32_small x : -2147483648 <= x < 2147483648 -> s32 x = x.
Proof. intros. by apply swrap_small. Qed.

Lemma u32_small x : 0 <= x < 4294967296 -> u32 x = x.
Proof. intros. by apply uwrap_small. Qed.

Lemma uwrap_range w x : 0 <= w -> 0 <= uwrap w x < 2 ^ w.
Proof. intros. apply Z.mod_pos_bound. by apply Z.pow_pos_nonneg. Qed.

Lemma uwrap_uwrap w x : uwrap w (uwrap w x) = uwrap w x.
Proof. apply Zmod_mod. Qed.

Lemma swrap_uwrap w x : 0 <= w -> swrap w (uwrap w x) = swrap w x.
Proof. intros. unfold swrap, uwrap. by rewrite Zplus_mod_idemp_l. Qed.

Lemma uwrap_swrap_add w x y : 0 < w -> uwrap w (x + swrap w y) = uwrap w (x + y).
Proof.
  intros. unfold swrap, uwrap.
  rewrite Z.add_sub_assoc, Zminus_mod, (Zplus_mod x), Zmod_mod, <- Zplus_mod, <- Zminus_mod.
  f_equal. lia.
Qed.

(** ** Generic lemmas: bytes *)

Lemma le_bytes_length n v : length (le_bytes n v) = n.
Proof. revert v. induction n; intros; simpl; auto. Qed.

Lemma le_value_bytes n v : le_value (le_bytes n v) = v mod 256 ^ Z.of_nat n.
Proof.
  revert v. induction n as [|n IH]; intros v; cbn [le_bytes le_value].
  - by rewrite Z.mod_1_r.
  - rewrite IH, Nat2Z.inj_succ, Z.pow_succ_r by lia.
    rewrite (Z.rem_mul_r v 256 (256 ^ Z.of_nat n)); [done|lia|].
    apply Z.pow_pos_nonneg; lia.
Qed.

Section MemoryLemmas.
Context `{Host}.

Lemma to_bytes_length n v : length (to_bytes n v) = n.
Proof. unfold to_bytes. destruct host_big_endian; rewrite ?length_rev; apply le_bytes_length. Qed.

Lemma of_to_bytes n v : of_bytes (to_bytes n v) = uwrap (8 * Z.of_nat n) v.
Proof.
  unfold of_bytes, to_bytes. destruct host_big_endian; rewrite ?rev_involutive, le_value_bytes;
    unfold uwrap; rewrite Z.pow_mul_r by lia; done.
Qed.

(** Reading back a field that was written. *)
Lemma load_field n pre v post mem :
  mem = pre ++ to_bytes n v ++ post ->
  load n mem (vlen pre) = Some (uwrap (8 * Z.of_nat n) v).
Proof.
  intros ->. unfold load. rewrite !length_app, to_bytes_length.
  bool_cases; try lia. rewrite Nat2Z.id, drop_app_length.
  rewrite take_app_length', of_to_bytes by (by rewrite to_bytes_length). done.
Qed.

(** Overwriting a field of the right size. *)
Lemma store_field n pre old v post :
  length old = n ->
  store n (pre ++ old ++ post) (vlen pre) v = Some (pre ++ to_bytes n v ++ post).
Proof.
  intros Hn. unfold store. rewrite !length_app.
  bool_cases; try lia. rewrite Nat2Z.id, take_app_length.
  do 3 f_equal. rewrite (assoc_L (++) pre), drop_app_length'; [done|].
  rewrite length_app. lia.
Qed.
End MemoryLemmas.

#[export] Hint Rewrite @length_app @to_bytes_length Nat2Z.inj_add : ce.
