(* ===== verification/DFA.v ===== *)
(** * The DFA (DFA.h, DFA.cpp, DFANode.h, DFANode.cpp) and ASCII case folding

    A [DFA] keeps its nodes' actions and transitions in shared vectors; a node
    owns a slice of each.  The transition vectors are read by position, so a
    node whose slice leaves the vectors has no meaning ([None], a crash). *)

From S2P Require Import Prelude.

(** ** ASCII (wtf/ASCIICType.h) *)

Module ASCII.

(** The generic template: set bit 5 of an upper-case letter. *)
Definition toASCIILower (c : Z) : Z :=
  Z.lor c (Z.shiftl (Z.b2z ((65 <=? c) && (c <=? 90))) 5).

Definition toASCIIUpper (c : Z) : Z :=
  Z.land c (Z.lnot (Z.shiftl (Z.b2z ((97 <=? c) && (c <=? 122))) 5)).

Definition isASCII (c : Z) : bool := Z.land c (Z.lnot 127) =? 0.

Definition isASCIIAlpha (c : Z) : bool :=
  (97 <=? Z.lor c 32) && (Z.lor c 32 <=? 122).

(** The table the [char] and [LChar] specializations index. *)
Definition asciiCaseFoldTable : list Z :=
  seqZ 0 65 ++ seqZ 97 26 ++ seqZ 91 165.

(** The specializations for [char] and [LChar]: the index is the byte. *)
Definition toASCIILowerChar (c : Z) : Z := default c (asciiCaseFoldTable.[u8 c]).

(** A property of the 128 ASCII characters can be checked by evaluation. *)
Lemma ascii_forall (P : Z -> bool) :
  forallb P (seqZ 0 128) = true -> forall c, 0 <= c <= 127 -> P c = true.
Proof.
  intros HP c Hc. rewrite forallb_forall in HP. apply HP, list_elem_of_In, elem_of_seqZ. lia.
Qed.

Lemma toASCIILower_spec c :
  0 <= c <= 127 -> toASCIILower c = if (65 <=? c) && (c <=? 90) then c + 32 else c.
Proof.
  intros Hc. apply Z.eqb_eq.
  apply (ascii_forall (fun c => toASCIILower c =? if (65 <=? c) && (c <=? 90) then c + 32 else c));
    [by vm_compute|done].
Qed.

Lemma toASCIILowerChar_spec c :
  0 <= c <= 127 -> toASCIILowerChar c = if (65 <=? c) && (c <=? 90) then c + 32 else c.
Proof.
  intros Hc. apply Z.eqb_eq.
  apply (ascii_forall (fun c => toASCIILowerChar c =? if (65 <=? c) && (c <=? 90) then c + 32 else c));
    [by vm_compute|done].
Qed.

End ASCII.
Export ASCII.

(** ** Data *)

Record CharRange := mkCharRange { range_first : Z; range_last : Z }.

Definition CharRange_size (r : CharRange) : Z := u32 (range_last r - range_first r + 1).

Record DFANode := mkDFANode {
  m_actionsStart : Z;
  m_transitionsStart : Z;
  m_actionsLength : Z;
  m_transitionsLength : Z;
  m_flags : Z
}.

Definition emptyDFANode : DFANode := mkDFANode 0 0 0 0 0.

Record DFA := mkDFA {
  dfa_nodes : list DFANode;
  dfa_actions : list Z;
  transitionRanges : list CharRange;
  transitionDestinations : list Z;
  dfa_root : Z
}.

(** [DFA::empty]: one node without actions or transitions. *)
Definition DFA_empty : DFA := mkDFA [emptyDFANode] [] [] [] 0.

(** A transition as an iterator presents it: its range and its target. *)
Definition transition : Type := CharRange * Z.

Section Node.
Variable dfa : DFA.

Definition IsKilled : Z := 1.
Definition isKilled (n : DFANode) : bool := negb (Z.land (m_flags n) IsKilled =? 0).
Definition hasActions (n : DFANode) : bool := negb (m_actionsLength n =? 0).

(** [DFANode::actions]. *)
Definition node_actions (n : DFANode) : option (list Z) :=
  mapM (fun i => (dfa_actions dfa).[i]) (seqZ (m_actionsStart n) (m_actionsLength n)).

(** [ConstRangeIterator] at a position. *)
Definition iterator_at (position : Z) : option transition :=
  r ← (transitionRanges dfa).[position];
  t ← (transitionDestinations dfa).[position];
  Some (r, t).

(** The transitions an [IterableConstRange] visits, in order. *)
Definition node_transitions (n : DFANode) : option (list transition) :=
  mapM iterator_at (seqZ (m_transitionsStart n) (m_transitionsLength n)).

(** [DFANode::containsTransition]. *)
Definition containsTransition (n : DFANode) (c : Z) : option bool :=
  rs ← mapM (fun i => (transitionRanges dfa).[i])
         (seqZ (m_transitionsStart n) (m_transitionsLength n));
  Some (existsb (fun r => (range_first r <=? c) && (c <=? range_last r)) rs).

(** The loop of [canUseFallbackTransition] after its first range. *)
Fixpoint fallback_loop (lastSeenCharacter : Z) (ts : list transition) : bool :=
  match ts with
  | [] => false
  | (r, _) :: ts =>
      if negb (range_first r =? lastSeenCharacter + 1) then false
      else if range_last r =? 127 then true
      else fallback_loop (range_last r) ts
  end.

Definition canUseFallback (ts : list transition) : bool :=
  match ts with
  | [] => false
  | (r, _) :: rest =>
      if range_first r =? 0
      then if range_last r =? 127 then true else fallback_loop (range_last r) rest
      else fallback_loop 0 ts
  end.

Definition canUseFallbackTransition (n : DFANode) : option bool :=
  ts ← node_transitions n; Some (canUseFallback ts).

(** The scoring loop of [bestFallbackTarget] over the histogram. *)
Fixpoint best_loop (histogram : gmap Z Z) (bestTarget bestTargetScore : Z)
    (ts : list transition) : Z :=
  match ts with
  | [] => bestTarget
  | (r, target) :: ts =>
      let rangeSize := CharRange_size r in
      let value := match histogram !! target with
                   | Some v => u32 (v + rangeSize)
                   | None => rangeSize
                   end in
      let histogram := <[target := value]> histogram in
      if bestTargetScore <? value
      then best_loop histogram target value ts
      else best_loop histogram bestTarget bestTargetScore ts
  end.

Definition bestFallback (ts : list transition) : option Z :=
  let ts := match ts with
            | (r, t) :: rest =>
                if (range_first r =? 0) && (range_last r =? 0) then rest else ts
            | [] => []
            end in
  match ts with
  | [] => None
  | (r, t) :: rest =>
      let score := if range_first r =? 0 then u32 (CharRange_size r - 1)
                   else CharRange_size r in
      Some (best_loop {[t := score]} t score rest)
  end.

Definition bestFallbackTarget (n : DFANode) : option Z :=
  ts ← node_transitions n; bestFallback ts.
End Node.

(** [DFANode::kill] on the node at [index]: poison its slices, then reset it. *)
Definition fill_from {A} (v : list A) (start len : Z) (x : A) : option (list A) :=
  foldl (fun v i => v ← v; vec_set v i x) (Some v) (seqZ start len).

Definition kill (dfa : DFA) (index : Z) : option DFA :=
  n ← (dfa_nodes dfa).[index];
  ranges ← fill_from (transitionRanges dfa) (m_transitionsStart n) (m_transitionsLength n)
             (mkCharRange (-1) (-1));
  dests ← fill_from (transitionDestinations dfa) (m_transitionsStart n) (m_transitionsLength n)
            uint32_max;
  acts ← fill_from (dfa_actions dfa) (m_actionsStart n) (m_actionsLength n) (2 ^ 64 - 1);
  nodes ← vec_set (dfa_nodes dfa) index (mkDFANode 0 0 0 0 IsKilled);
  Some (mkDFA nodes acts ranges dests (dfa_root dfa)).

(** [DFA::graphSize]. *)
Definition graphSize (dfa : DFA) : Z :=
  u32 (vlen (filter (fun n => isKilled n = false) (dfa_nodes dfa))).

(** ** What a DFA means

    The reference semantics every later stage is compared with: on a
    character a node moves to the target of the range that contains it. *)

Definition in_range (r : CharRange) (c : Z) : bool :=
  (range_first r <=? c) && (c <=? range_last r).

Fixpoint ts_step {D} (ts : list (CharRange * D)) (c : Z) : option D :=
  match ts with
  | [] => None
  | (r, t) :: ts => if in_range r c then Some t else ts_step ts c
  end.

Definition dfa_step (dfa : DFA) (index c : Z) : option Z :=
  n ← (dfa_nodes dfa).[index];
  ts ← node_transitions dfa n;
  ts_step ts c.

(** The node reached by reading [w], and its actions. *)
Fixpoint dfa_run (dfa : DFA) (index : Z) (w : list Z) : option Z :=
  match w with
  | [] => Some index
  | c :: w => t ← dfa_step dfa index c; dfa_run dfa t w
  end.

Definition dfa_output (dfa : DFA) (index : Z) (w : list Z) : option (list Z) :=
  t ← dfa_run dfa index w; n ← (dfa_nodes dfa).[t]; node_actions dfa n.

(** The nodes entered while reading [w], the start excluded. *)
Fixpoint dfa_trace (dfa : DFA) (index : Z) (w : list Z) : list Z :=
  match w with
  | [] => []
  | c :: w => match dfa_step dfa index c with
              | Some t => t :: dfa_trace dfa t w
              | None => []
              end
  end.

(** ** Well-formedness *)

(** Ranges of one node are ASCII, ordered and disjoint; [lo] bounds the next. *)
Fixpoint sorted_from {D} (lo : Z) (ts : list (CharRange * D)) : Prop :=
  match ts with
  | [] => True
  | (r, _) :: ts =>
      lo <= range_first r /\ range_first r <= range_last r /\ range_last r <= 127
      /\ sorted_from (range_last r + 1) ts
  end.

Definition live_target (dfa : DFA) (t : Z) : Prop :=
  exists n, (dfa_nodes dfa).[t] = Some n /\ isKilled n = false.

Record wf_node (dfa : DFA) (n : DFANode) : Prop := {
  wf_acts : exists acts, node_actions dfa n = Some acts /\ Forall (fun a => 0 <= a < 2 ^ 49) acts;
  wf_trans : exists ts, node_transitions dfa n = Some ts /\ sorted_from 0 ts
                        /\ Forall (fun t => live_target dfa (snd t)) ts
}.

Record wf_dfa (dfa : DFA) : Prop := {
  wf_root : live_target dfa (dfa_root dfa);
  wf_nodes : forall i n, (dfa_nodes dfa).[i] = Some n -> isKilled n = false -> wf_node dfa n
}.

(** ** Lookup in sorted ranges *)

Lemma ts_step_below {D} lo (ts : list (CharRange * D)) c : sorted_from lo ts -> c < lo -> ts_step ts c = None.
Proof.
  revert lo. induction ts as [|[r t] ts IH]; intros lo Hs Hc; simpl in *; [done|].
  destruct Hs as (?&?&?&Hs). unfold in_range. bool_cases; try lia.
  all: eapply IH; [done|lia].
Qed.

Lemma ts_step_elem {D} (ts : list (CharRange * D)) c t : ts_step ts c = Some t -> exists r, (r, t) ∈ ts /\ in_range r c = true.
Proof.
  induction ts as [|[r u] ts IH]; simpl; [done|]. destruct (in_range r c) eqn:E.
  - intros [= ->]. exists r. split; [constructor|done].
  - intros (r'&?&?)%IH. exists r'. split; [by constructor|done].
Qed.

Lemma ts_step_app {D} (l1 l2 : list (CharRange * D)) c :
  ts_step (l1 ++ l2) c = match ts_step l1 c with Some d => Some d | None => ts_step l2 c end.
Proof. induction l1 as [|[r d] l1 IH]; simpl; [done|]. by destruct (in_range r c). Qed.

(** The first character that may follow the ranges of a list. *)
Fixpoint top {D} (lo : Z) (l : list (CharRange * D)) : Z :=
  match l with [] => lo | (r, _) :: l => top (range_last r + 1) l end.

Lemma top_app {D} lo (l1 l2 : list (CharRange * D)) : top lo (l1 ++ l2) = top (top lo l1) l2.
Proof. revert lo. induction l1 as [|[r d] l1 IH]; intros lo; simpl; auto. Qed.

Lemma sorted_from_app {D} lo (l1 l2 : list (CharRange * D)) :
  sorted_from lo (l1 ++ l2) <-> sorted_from lo l1 /\ sorted_from (top lo l1) l2.
Proof.
  revert lo. induction l1 as [|[r d] l1 IH]; intros lo; simpl; [tauto|]. rewrite IH. tauto.
Qed.

Lemma sorted_from_mono {D} lo lo' (l : list (CharRange * D)) :
  sorted_from lo l -> lo' <= lo -> sorted_from lo' l.
Proof. destruct l as [|[r d] l]; simpl; [done|]. intuition lia. Qed.

Lemma top_ge {D} lo (l : list (CharRange * D)) : sorted_from lo l -> lo <= top lo l.
Proof.
  revert lo. induction l as [|[r d] l IH]; intros lo; simpl; [lia|]. intros (?&?&?&Hs).
  specialize (IH _ Hs). lia.
Qed.

Lemma ts_step_above {D} lo (l : list (CharRange * D)) c : sorted_from lo l -> top lo l <= c -> ts_step l c = None.
Proof.
  revert lo. induction l as [|[r d] l IH]; intros lo; simpl; [done|]. intros (?&?&?&Hs) Hc.
  pose proof (top_ge _ _ Hs). unfold in_range. destruct (Z.leb_spec c (range_last r)); [lia|].
  rewrite andb_false_r. by eapply IH.
Qed.

Lemma sorted_length {D} lo (l : list (CharRange * D)) : sorted_from lo l -> lo <= 128 -> vlen l <= 128 - lo.
Proof.
  revert lo. induction l as [|[r d] l IH]; intros lo; simpl; [lia|]. intros (?&?&?&Hs) Hlo.
  specialize (IH _ Hs ltac:(lia)). lia.
Qed.

(** A range of a sorted list is found by its first character. *)
Lemma ts_step_first {D} lo (l : list (CharRange * D)) r d :
  sorted_from lo l -> (r, d) ∈ l -> ts_step l (range_first r) = Some d.
Proof.
  revert lo. induction l as [|[r' d'] l IH]; intros lo Hs Hin; [by apply not_elem_of_nil in Hin|].
  simpl in Hs. destruct Hs as (Hlo & Hr & Hl & Hs). apply elem_of_cons in Hin as [[= <- <-]|Hin]; simpl.
  - unfold in_range. destruct (Z.leb_spec (range_first r) (range_first r)), (Z.leb_spec (range_first r) (range_last r)); try lia.
    done.
  - specialize (IH _ Hs Hin). destruct (in_range r' (range_first r)) eqn:E; [|done].
    unfold in_range in E. bprop. exfalso. rewrite (ts_step_below _ _ _ Hs) in IH; [done|lia].
Qed.

(** Sortedness can be checked by evaluation. *)
Fixpoint sorted_fromb {D} (lo : Z) (ts : list (CharRange * D)) : bool :=
  match ts with
  | [] => true
  | (r, _) :: ts => (lo <=? range_first r) && (range_first r <=? range_last r) && (range_last r <=? 127)
                    && sorted_fromb (range_last r + 1) ts
  end.

Lemma sorted_fromb_sound {D} lo (ts : list (CharRange * D)) : sorted_fromb lo ts = true -> sorted_from lo ts.
Proof.
  revert lo. induction ts as [|[r t] ts IH]; intros lo Hs; simpl in *; [done|]. bprop.
  split_and!; auto.
Qed.
