(* ===== verification/Bytecode.v ===== *)
(** * The DFA bytecode: instruction set (DFABytecode.h) and the grouping of a
    node's transitions into ranges and jump tables
    ([DFABytecodeCompiler::transitions])

    [None] is an abort: a failed [RELEASE_ASSERT], a checked vector access out
    of range, or a read outside a buffer.  [ASSERT]s are compiled out and are
    not modelled; the theorems show the facts they state. *)

From S2P Require Import Prelude DFA.

(** ** Instruction set *)

Inductive DFABytecodeInstruction :=
| CheckValueCaseInsensitive
| CheckValueCaseSensitive
| JumpTableCaseInsensitive
| JumpTableCaseSensitive
| CheckValueRangeCaseInsensitive
| CheckValueRangeCaseSensitive
| AppendAction
| AppendActionWithIfDomain
| TestFlagsAndAppendAction
| TestFlagsAndAppendActionWithIfDomain
| Terminate
| Jump.

Definition instruction_code (i : DFABytecodeInstruction) : Z :=
  match i with
  | CheckValueCaseInsensitive => 0
  | CheckValueCaseSensitive => 1
  | JumpTableCaseInsensitive => 2
  | JumpTableCaseSensitive => 3
  | CheckValueRangeCaseInsensitive => 4
  | CheckValueRangeCaseSensitive => 5
  | AppendAction => 6
  | AppendActionWithIfDomain => 7
  | TestFlagsAndAppendAction => 8
  | TestFlagsAndAppendActionWithIfDomain => 9
  | Terminate => 10
  | Jump => 11
  end.

(** A value of the enumeration that names no instruction is [None]. *)
Definition instruction_of_code (c : Z) : option DFABytecodeInstruction :=
  [CheckValueCaseInsensitive; CheckValueCaseSensitive; JumpTableCaseInsensitive;
   JumpTableCaseSensitive; CheckValueRangeCaseInsensitive; CheckValueRangeCaseSensitive;
   AppendAction; AppendActionWithIfDomain; TestFlagsAndAppendAction;
   TestFlagsAndAppendActionWithIfDomain; Terminate; Jump].[c].

Definition DFABytecodeInstructionMask : Z := 15.
Definition DFABytecodeJumpSizeMask : Z := 240.

Inductive DFABytecodeJumpSize := Int8 | Int16 | Int24 | Int32.

Definition jumpSize_code (s : DFABytecodeJumpSize) : Z :=
  match s with Int8 => 16 | Int16 => 32 | Int24 => 48 | Int32 => 64 end.

Definition jumpSize_of_code (c : Z) : option DFABytecodeJumpSize :=
  if c =? 16 then Some Int8 else if c =? 32 then Some Int16
  else if c =? 48 then Some Int24 else if c =? 64 then Some Int32 else None.

Definition Int24Max : Z := Z.shiftl 1 23 - 1.
Definition Int24Min : Z := - Z.shiftl 1 23.

Definition smallestPossibleJumpSize (longestPossibleJump : Z) : DFABytecodeJumpSize :=
  if (longestPossibleJump <=? 127) && (-128 <=? longestPossibleJump) then Int8
  else if (longestPossibleJump <=? 32767) && (-32768 <=? longestPossibleJump) then Int16
  else if (longestPossibleJump <=? Int24Max) && (Int24Min <=? longestPossibleJump) then Int24
  else Int32.

(** Instructions of variable size are not reached ([RELEASE_ASSERT]). *)
Definition instructionSizeWithArguments (i : DFABytecodeInstruction) : option Z :=
  match i with
  | CheckValueCaseSensitive | CheckValueCaseInsensitive | JumpTableCaseInsensitive
  | JumpTableCaseSensitive | CheckValueRangeCaseSensitive | CheckValueRangeCaseInsensitive
  | Jump => None
  | AppendAction | AppendActionWithIfDomain => Some (1 + 4)
  | TestFlagsAndAppendAction | TestFlagsAndAppendActionWithIfDomain => Some (1 + 2 + 4)
  | Terminate => Some 1
  end.

(** Action words (loader/ResourceLoadInfo.h): location, flags, if-domain bit. *)
Definition ResourceTypeMask : Z := 0x03FF.
Definition LoadTypeMask : Z := 0x0C00.
Definition ActionFlagMask : Z := 0x0000FFFF00000000.
Definition IfDomainFlag : Z := 0x0001000000000000.

(** [std::max] on the enumeration. *)
Definition jumpSize_max (a b : DFABytecodeJumpSize) : DFABytecodeJumpSize :=
  if jumpSize_code a <? jumpSize_code b then b else a.

(** ** Compiler data *)

Record Range := mkRange {
  r_min : Z; r_max : Z; r_destination : Z; r_caseSensitive : bool
}.

Record JumpTable := mkJumpTable {
  jt_min : Z; jt_max : Z; jt_caseSensitive : bool; jt_destinations : list Z
}.

Record Transitions := mkTransitions {
  jumpTables : list JumpTable;
  ranges : list Range;
  useFallbackTransition : bool;
  fallbackTransitionTarget : Z
}.

Record LinkRecord := mkLinkRecord {
  lr_jumpSize : DFABytecodeJumpSize;
  lr_longestPossibleJump : Z;
  lr_instructionLocation : Z;
  lr_jumpLocation : Z;
  lr_destinationNodeIndex : Z
}.

Definition noDestination : Z := uint32_max.

(** ** [DFABytecodeCompiler::transitions] *)

Section Ranges.

(** One transition painted over the 128 destinations. *)
Definition paint (d : list Z) (t : transition) : option (list Z) :=
  fill_from d (range_first (fst t)) (range_last (fst t) - range_first (fst t) + 1) (snd t).

Fixpoint paint_all (fallback : option Z) (d : list Z) (ts : list transition)
    : option (list Z) :=
  match ts with
  | [] => Some d
  | t :: ts =>
      if match fallback with Some f => f =? snd t | None => false end
      then paint_all fallback d ts
      else d ← paint d t; paint_all fallback d ts
  end.

(** The scan that groups equal destinations into ranges. *)
Record scan_state := mkScan {
  s_destinations : list Z;
  s_ranges : list Range;
  s_rangeMin : option Z (* [hasRangeMin] and [rangeMin] *)
}.

Definition dest_at (d : list Z) (i : Z) : Z := default noDestination (d.[i]).

(** Does every lower-case destination agree with the upper-case range? *)
Definition case_insensitive (d : list Z) (rangeMin rangeMax : Z) : bool :=
  (65 <=? rangeMin) && (rangeMax <=? 90) &&
  forallb (fun i => dest_at d rangeMin =? dest_at d (toASCIILowerChar i))
    (seqZ rangeMin (rangeMax - rangeMin + 1)).

(** Forget the lower-case destinations a case-insensitive range covers. *)
Definition erase_lower (d : list Z) (rangeMin rangeMax : Z) : list Z :=
  foldl (fun d i => <[Z.to_nat (toASCIILowerChar i) := noDestination]> d) d
    (seqZ rangeMin (rangeMax - rangeMin + 1)).

(** Close the range [rangeMin .. i - 1]. *)
Definition close_range (d : list Z) (rs : list Range) (rangeMin i : Z) : scan_state :=
  let rangeMax := i - 1 in
  let '(d', rs') :=
    if case_insensitive d rangeMin rangeMax
    then (erase_lower d rangeMin rangeMax,
          rs ++ [mkRange (toASCIILowerChar rangeMin) (toASCIILowerChar rangeMax)
                   (dest_at d rangeMin) false])
    else (d, rs ++ [mkRange rangeMin rangeMax (dest_at d rangeMin) true]) in
  mkScan d' rs' (if dest_at d' i =? noDestination then None else Some i).

Definition scan_step (s : scan_state) (i : Z) : scan_state :=
  match s_rangeMin s with
  | Some rangeMin =>
      if negb (dest_at (s_destinations s) i =? dest_at (s_destinations s) rangeMin)
      then close_range (s_destinations s) (s_ranges s) rangeMin i
      else s
  | None =>
      if negb (dest_at (s_destinations s) i =? noDestination)
      then mkScan (s_destinations s) (s_ranges s) (Some i)
      else s
  end.

Definition scan (d : list Z) : list Range :=
  let s := foldl scan_step (mkScan d [] None) (seqZ 0 128) in
  match s_rangeMin s with
  | Some rangeMin =>
      s_ranges s ++ [mkRange rangeMin 127 (dest_at (s_destinations s) rangeMin) true]
  | None => s_ranges s
  end.

(** [extractJumpTable]: the table of [ranges[firstRange..lastRange]] and the
    ranges without them. *)
Definition extractJumpTable (rs : list Range) (firstRange lastRange : nat)
    : option (JumpTable * list Range) :=
  f ← rs !! firstRange; l ← rs !! lastRange;
  let size := (lastRange - firstRange + 1)%nat in
  let sub := take size (drop firstRange rs) in
  Some (mkJumpTable (r_min f) (r_max l) (r_caseSensitive l) (map r_destination sub),
        take firstRange rs ++ drop (firstRange + size) rs).

(** The loop that looks for runs of adjacent one-character ranges. *)
Fixpoint table_loop (fuel : nat) (rs : list Range) (jts : list JumpTable)
    (rangePosition : nat) (base : option nat)
    : option (list JumpTable * list Range * option nat) :=
  match rs !! rangePosition with
  | None => Some (jts, rs, base)
  | Some range =>
      match fuel with
      | O => None
      | S fuel =>
          match base with
          | Some b =>
              baseRange ← rs !! b; prev ← rs !! (rangePosition - 1)%nat;
              if negb (r_min range =? r_max range)
                 || negb (Bool.eqb (r_caseSensitive baseRange) (r_caseSensitive range))
                 || negb (r_max prev + 1 =? r_min range)
              then
                if (1 <? rangePosition - b)%nat
                then '(jt, rs') ← extractJumpTable rs b (rangePosition - 1);
                     table_loop fuel rs' (jts ++ [jt]) (S b) None
                else table_loop fuel rs jts (S rangePosition) None
              else table_loop fuel rs jts (S rangePosition) base
          | None =>
              if r_min range =? r_max range
              then table_loop fuel rs jts (S rangePosition) (Some rangePosition)
              else table_loop fuel rs jts (S rangePosition) None
          end
      end
  end.

Definition extract_tables (rs : list Range) : option (list JumpTable * list Range) :=
  '(jts, rs, base) ← table_loop (length rs) rs [] 0 None;
  match base with
  | Some b =>
      if (1 <? length rs - b)%nat
      then '(jt, rs') ← extractJumpTable rs b (length rs - 1); Some (jts ++ [jt], rs')
      else Some (jts, rs)
  | None => Some (jts, rs)
  end.

Definition transitions (dfa : DFA) (node : DFANode) : option Transitions :=
  useFallback ← canUseFallbackTransition dfa node;
  target ← (if useFallback : bool then bestFallbackTarget dfa node else Some uint32_max);
  ts ← node_transitions dfa node;
  destinations ← paint_all (if useFallback then Some target else None)
                   (replicate 128 noDestination) ts;
  '(jts, rs) ← extract_tables (scan destinations);
  Some (mkTransitions jts rs useFallback target).
End Ranges.

#[global] Arguments scan : simpl never.
#[global] Arguments extract_tables : simpl never.
#[global] Arguments transitions : simpl never.
