(* ===== verification/BytecodeCompiler.v ===== *)
(** * The bytecode compiler (DFABytecodeCompiler.cpp)

    The compiler appends one block of instructions per live node, the root
    first, with zeroes in place of the jump distances; [m_linkRecords] remembers
    where they are, and [link] fills them in when every node has its offset. *)

From S2P Require Import Prelude DFA Bytecode.

Record Compiler := mkCompiler {
  m_bytecode : list Z;
  m_maxNodeStartOffsets : list Z;
  m_nodeStartOffsets : list Z;
  m_linkRecords : list LinkRecord
}.

Definition with_bytecode (st : Compiler) (bc : list Z) : Compiler :=
  mkCompiler bc (m_maxNodeStartOffsets st) (m_nodeStartOffsets st) (m_linkRecords st).
Definition with_nodeStart (st : Compiler) (offs : list Z) : Compiler :=
  mkCompiler (m_bytecode st) (m_maxNodeStartOffsets st) offs (m_linkRecords st).
Definition with_maxStart (st : Compiler) (offs : list Z) : Compiler :=
  mkCompiler (m_bytecode st) offs (m_nodeStartOffsets st) (m_linkRecords st).
Definition add_link (st : Compiler) (lr : LinkRecord) : Compiler :=
  mkCompiler (m_bytecode st) (m_maxNodeStartOffsets st) (m_nodeStartOffsets st)
    (m_linkRecords st ++ [lr]).

Section Compiler.
Context `{Host}.

(** [append<IntType>], by the size of the type. *)
Definition append (n : nat) (st : Compiler) (v : Z) : Compiler :=
  with_bytecode st (m_bytecode st ++ to_bytes n v).

Definition appendZeroes (st : Compiler) (jumpSize : DFABytecodeJumpSize) : Compiler :=
  match jumpSize with
  | Int8 => append 1 st 0
  | Int16 => append 2 st 0
  | Int24 => append 1 (append 2 st 0) 0
  | Int32 => append 4 st 0
  end.

(** [setBits<IntType>]: the range check is a [RELEASE_ASSERT]. *)
Definition setBits (n : nat) (bc : list Z) (index v : Z) : option (list Z) :=
  store n bc index v.

Definition appendActionBytecodeSize (action : Z) : Z :=
  if negb (Z.land action ActionFlagMask =? 0) then 1 + 2 + 4 else 1 + 4.

Definition emitAppendAction (st : Compiler) (action : Z) : Compiler :=
  if negb (Z.land action ActionFlagMask =? 0) then
    let st := append 1 st (instruction_code
                (if negb (Z.land action IfDomainFlag =? 0)
                 then TestFlagsAndAppendActionWithIfDomain
                 else TestFlagsAndAppendAction)) in
    let st := append 2 st (u16 (Z.shiftr action 32)) in
    append 4 st (u32 action)
  else
    let st := append 1 st (instruction_code
                (if negb (Z.land action IfDomainFlag =? 0)
                 then AppendActionWithIfDomain
                 else AppendAction)) in
    append 4 st (u32 action).

Definition longestPossibleJump (st : Compiler)
    (instructionLocation sourceNodeIndex destinationNodeIndex : Z) : option Z :=
  dst ← (m_nodeStartOffsets st).[destinationNodeIndex];
  if dst =? uint32_max then
    maxDst ← (m_maxNodeStartOffsets st).[destinationNodeIndex];
    maxSrc ← (m_maxNodeStartOffsets st).[sourceNodeIndex];
    src ← (m_nodeStartOffsets st).[sourceNodeIndex];
    Some (s32 (u32 (maxDst - maxSrc - (src - instructionLocation))))
  else Some (s32 (u32 (dst - instructionLocation))).

Definition emitJump (st : Compiler) (sourceNodeIndex destinationNodeIndex : Z)
    : option Compiler :=
  let instructionLocation := u32 (vlen (m_bytecode st)) in
  let jumpLocation := u32 (instructionLocation + 1) in
  distance ← longestPossibleJump st instructionLocation sourceNodeIndex destinationNodeIndex;
  let jumpSize := smallestPossibleJumpSize distance in
  let st := append 1 st (Z.lor (instruction_code Jump) (jumpSize_code jumpSize)) in
  let st := add_link st (mkLinkRecord jumpSize distance instructionLocation jumpLocation
                           destinationNodeIndex) in
  Some (appendZeroes st jumpSize).

Definition emitCheckValue (st : Compiler) (value sourceNodeIndex destinationNodeIndex : Z)
    (caseSensitive : bool) : option Compiler :=
  let instructionLocation := u32 (vlen (m_bytecode st)) in
  let jumpLocation := u32 (instructionLocation + 2) in
  distance ← longestPossibleJump st instructionLocation sourceNodeIndex destinationNodeIndex;
  let jumpSize := smallestPossibleJumpSize distance in
  let instruction := if caseSensitive then CheckValueCaseSensitive
                     else CheckValueCaseInsensitive in
  let st := append 1 st (Z.lor (instruction_code instruction) (jumpSize_code jumpSize)) in
  let st := append 1 st value in
  let st := add_link st (mkLinkRecord jumpSize distance instructionLocation jumpLocation
                           destinationNodeIndex) in
  Some (appendZeroes st jumpSize).

Definition emitCheckValueRange (st : Compiler)
    (lowValue highValue sourceNodeIndex destinationNodeIndex : Z)
    (caseSensitive : bool) : option Compiler :=
  let instructionLocation := u32 (vlen (m_bytecode st)) in
  let jumpLocation := u32 (instructionLocation + 3) in
  distance ← longestPossibleJump st instructionLocation sourceNodeIndex destinationNodeIndex;
  let jumpSize := smallestPossibleJumpSize distance in
  let instruction := if caseSensitive then CheckValueRangeCaseSensitive
                     else CheckValueRangeCaseInsensitive in
  let st := append 1 st (Z.lor (instruction_code instruction) (jumpSize_code jumpSize)) in
  let st := append 1 st lowValue in
  let st := append 1 st highValue in
  let st := add_link st (mkLinkRecord jumpSize distance instructionLocation jumpLocation
                           destinationNodeIndex) in
  Some (appendZeroes st jumpSize).

Definition emitTerminate (st : Compiler) : Compiler :=
  append 1 st (instruction_code Terminate).

(** Worst-case sizes. *)
Definition checkForJumpTableMaxBytecodeSize (jt : JumpTable) : Z :=
  1 + 2 * 1 + (jt_max jt - jt_min jt + 1) * 4.

Definition checkForRangeMaxBytecodeSize (r : Range) : Z :=
  if r_min r =? r_max r then 1 + 1 + 4 else 1 + 2 * 1 + 4.

Definition transitionsMaxSize (t : Transitions) : Z :=
  let size := foldl (fun s jt => s + checkForJumpTableMaxBytecodeSize jt) 0 (jumpTables t) in
  let size := foldl (fun s r => s + checkForRangeMaxBytecodeSize r) size (ranges t) in
  if useFallbackTransition t then size + (1 + 4) else size + 1.

(** The widest jump any entry of the table may need. *)
Fixpoint tableJumpSize (st : Compiler) (instructionLocation nodeIndex : Z)
    (jumpSize : DFABytecodeJumpSize) (dests : list Z) : option DFABytecodeJumpSize :=
  match dests with
  | [] => Some jumpSize
  | d :: dests =>
      distance ← longestPossibleJump st instructionLocation nodeIndex d;
      tableJumpSize st instructionLocation nodeIndex
        (jumpSize_max jumpSize (smallestPossibleJumpSize distance)) dests
  end.

Fixpoint emitTableEntries (st : Compiler) (instructionLocation nodeIndex : Z)
    (jumpSize : DFABytecodeJumpSize) (dests : list Z) : option Compiler :=
  match dests with
  | [] => Some st
  | d :: dests =>
      distance ← longestPossibleJump st instructionLocation nodeIndex d;
      let jumpLocation := u32 (vlen (m_bytecode st)) in
      let st := add_link st (mkLinkRecord jumpSize distance instructionLocation
                               jumpLocation d) in
      emitTableEntries (appendZeroes st jumpSize) instructionLocation nodeIndex jumpSize dests
  end.

Definition compileJumpTable (st : Compiler) (nodeIndex : Z) (jt : JumpTable)
    : option Compiler :=
  let instructionLocation := u32 (vlen (m_bytecode st)) in
  jumpSize ← tableJumpSize st instructionLocation nodeIndex Int8 (jt_destinations jt);
  let instruction := if jt_caseSensitive jt then JumpTableCaseSensitive
                     else JumpTableCaseInsensitive in
  let st := append 1 st (Z.lor (instruction_code instruction) (jumpSize_code jumpSize)) in
  let st := append 1 st (jt_min jt) in
  let st := append 1 st (jt_max jt) in
  emitTableEntries st instructionLocation nodeIndex jumpSize (jt_destinations jt).

Definition compileCheckForRange (st : Compiler) (nodeIndex : Z) (r : Range)
    : option Compiler :=
  if r_min r =? r_max r
  then emitCheckValue st (r_min r) nodeIndex (r_destination r) (r_caseSensitive r)
  else emitCheckValueRange st (r_min r) (r_max r) nodeIndex (r_destination r)
         (r_caseSensitive r).

(** Run an emitter over a list, left to right. *)
Fixpoint emit_each {A} (f : Compiler -> A -> option Compiler) (st : Compiler) (l : list A)
    : option Compiler :=
  match l with
  | [] => Some st
  | a :: l => st ← f st a; emit_each f st l
  end.

Variable m_dfa : DFA.

Definition nodeTransitionsMaxBytecodeSize (node : DFANode) : option Z :=
  t ← transitions m_dfa node; Some (u32 (transitionsMaxSize t)).

Definition compiledNodeMaxBytecodeSize (index : Z) : option Z :=
  node ← (dfa_nodes m_dfa).[index];
  if isKilled node then Some 0 else
  acts ← node_actions m_dfa node;
  tsize ← nodeTransitionsMaxBytecodeSize node;
  Some (u32 (foldl (fun s a => s + appendActionBytecodeSize a) 0 acts + tsize)).

Definition compileNodeTransitions (st : Compiler) (nodeIndex : Z) : option Compiler :=
  node ← (dfa_nodes m_dfa).[nodeIndex];
  t ← transitions m_dfa node;
  st ← emit_each (fun st jt => compileJumpTable st nodeIndex jt) st (jumpTables t);
  st ← emit_each (fun st r => compileCheckForRange st nodeIndex r) st (ranges t);
  if useFallbackTransition t
  then emitJump st nodeIndex (fallbackTransitionTarget t)
  else Some (emitTerminate st).

Definition compileNode (st : Compiler) (index : Z) (root : bool) : option Compiler :=
  node ← (dfa_nodes m_dfa).[index];
  if isKilled node then Some st else
  st ← (if root then Some st
        else offs ← vec_set (m_nodeStartOffsets st) index (u32 (vlen (m_bytecode st)));
             Some (with_nodeStart st offs));
  acts ← node_actions m_dfa node;
  let st := foldl emitAppendAction st acts in
  st ← (if root
        then offs ← vec_set (m_nodeStartOffsets st) index (u32 (vlen (m_bytecode st)));
             Some (with_nodeStart st offs)
        else Some st);
  compileNodeTransitions st index.

(** The worst-case start of every node: [offs] so far, the next free index. *)
Fixpoint maxOffsets_loop (offs : list Z) (nextIndex : Z) (indices : list Z) : option (list Z) :=
  match indices with
  | [] => Some offs
  | i :: indices =>
      if i =? dfa_root m_dfa then maxOffsets_loop offs nextIndex indices else
      offs ← vec_set offs i nextIndex;
      size ← compiledNodeMaxBytecodeSize i;
      maxOffsets_loop offs (u32 (nextIndex + size)) indices
  end.

Definition maxNodeStartOffsets : option (list Z) :=
  rootNode ← (dfa_nodes m_dfa).[dfa_root m_dfa];
  acts ← node_actions m_dfa rootNode;
  let rootActionsSize := foldl (fun s a => s + appendActionBytecodeSize a) 0 acts in
  offs ← vec_set (replicate (length (dfa_nodes m_dfa)) 0) (dfa_root m_dfa)
           (u32 (4 + rootActionsSize));
  rootSize ← compiledNodeMaxBytecodeSize (dfa_root m_dfa);
  maxOffsets_loop offs (u32 (4 + rootSize)) (seqZ 0 (vlen (dfa_nodes m_dfa))).

(** Fill in one jump; the [RELEASE_ASSERT]s of the link step are the tests. *)
Definition link_one (offs : list Z) (bc : list Z) (lr : LinkRecord) : option (list Z) :=
  destination ← offs.[lr_destinationNodeIndex lr];
  if negb (destination <? int32_max) then None else
  let distance := s32 (u32 (destination - lr_instructionLocation lr)) in
  match lr_jumpSize lr with
  | Int8 =>
      if negb (distance =? s8 distance) then None else
      setBits 1 bc (lr_jumpLocation lr) (s8 distance)
  | Int16 =>
      if negb (distance =? s16 distance) then None else
      setBits 2 bc (lr_jumpLocation lr) (s16 distance)
  | Int24 =>
      if negb ((Int24Min <=? distance) && (distance <=? Int24Max)) then None else
      bc ← setBits 2 bc (lr_jumpLocation lr) (u16 distance);
      setBits 1 bc (u32 (lr_jumpLocation lr + 2)) (s8 (Z.shiftr distance 16))
  | Int32 => setBits 4 bc (lr_jumpLocation lr) distance
  end.

Fixpoint link (offs : list Z) (bc : list Z) (lrs : list LinkRecord) : option (list Z) :=
  match lrs with
  | [] => Some bc
  | lr :: lrs => bc ← link_one offs bc lr; link offs bc lrs
  end.

(** [compile]: from the bytecode the vector already holds to the final one. *)
Definition compile (bytecode : list Z) : option (list Z) :=
  let startLocation := u32 (vlen bytecode) in
  let st := append 4 (mkCompiler bytecode [] [] []) 0 in
  let st := with_nodeStart st (replicate (length (dfa_nodes m_dfa)) uint32_max) in
  maxs ← maxNodeStartOffsets;
  let st := with_maxStart st maxs in
  st ← compileNode st (dfa_root m_dfa) true;
  st ← emit_each (fun st i => if i =? dfa_root m_dfa then Some st else compileNode st i false)
         st (seqZ 0 (vlen (dfa_nodes m_dfa)));
  bc ← link (m_nodeStartOffsets st) (m_bytecode st) (m_linkRecords st);
  setBits 4 bc startLocation (u32 (vlen bc - startLocation)).
End Compiler.
