(* ===== verification/BytecodeInterpreter.v ===== *)
(** * The bytecode interpreter (DFABytecodeInterpreter.cpp)

    The interpreter is a machine over a program counter, an index in the
    NUL-terminated URL and the set of actions found so far.  [step] executes
    one instruction; [exec] iterates it until the code leaves the current DFA
    ([goto nextDFA]). *)

From S2P Require Import Prelude DFA Bytecode.

Section Interpreter.
Context `{Host}.
Variable m_bytecode : list Z.
(** [m_domainActions]: null in [interpret], set by [interpretWithDomains]. *)
Variable m_domainActions : option (gset Z).

Definition getBits (n : nat) (index : Z) : option Z := load n m_bytecode index.

Definition getInstruction (index : Z) : option Z :=
  b ← getBits 1 index; Some (Z.land b DFABytecodeInstructionMask).

Definition jumpSizeInBytes (s : DFABytecodeJumpSize) : Z :=
  match s with Int8 => 1 | Int16 => 2 | Int24 => 2 + 1 | Int32 => 4 end.

(** A size that is none of the four is stopped by the [RELEASE_ASSERT]s of
    [jumpSizeInBytes] and [getJumpDistance]. *)
Definition getJumpSize (index : Z) : option DFABytecodeJumpSize :=
  b ← getBits 1 index; jumpSize_of_code (Z.land b DFABytecodeJumpSizeMask).

Definition getJumpDistance (index : Z) (jumpSize : DFABytecodeJumpSize) : option Z :=
  match jumpSize with
  | Int8 => b ← getBits 1 index; Some (s8 b)
  | Int16 => b ← getBits 2 index; Some (s16 b)
  | Int24 =>
      lo ← getBits 2 index;
      hi ← getBits 1 (index + 2);
      Some (Z.lor lo (Z.shiftl (s8 hi) 16))
  | Int32 => b ← getBits 4 index; Some (s32 b)
  end.

Definition matchesDomain (actionAndFlags : Z) (domainActions : gset Z) : bool :=
  let ifDomain := negb (Z.land actionAndFlags IfDomainFlag =? 0) in
  let domain := bool_decide (actionAndFlags ∈ domainActions) in
  Bool.eqb ifDomain domain.

(** Add an action unless the domain conditions exclude it. *)
Definition add_matching (action : Z) (actions : gset Z) : gset Z :=
  if match m_domainActions with
     | None => true
     | Some d => matchesDomain action d
     end
  then {[action]} ∪ actions else actions.

Definition interpretAppendAction (pc : Z) (actions : gset Z) (ifDomain : bool)
    : option (Z * gset Z) :=
  location ← getBits 4 (pc + 1);
  size ← instructionSizeWithArguments AppendAction;
  let action := Z.lor (if ifDomain then IfDomainFlag else 0) location in
  Some (u32 (pc + size), add_matching action actions).

Definition interpretTestFlagsAndAppendAction (pc flags : Z) (actions : gset Z)
    (ifDomain : bool) : option (Z * gset Z) :=
  flagsToCheck ← getBits 2 (pc + 1);
  size ← instructionSizeWithArguments TestFlagsAndAppendAction;
  let loadTypeFlags := Z.land flagsToCheck LoadTypeMask in
  let resourceTypeFlags := Z.land flagsToCheck ResourceTypeMask in
  let loadTypeMatches :=
    if negb (loadTypeFlags =? 0) then negb (Z.land loadTypeFlags flags =? 0) else true in
  let resourceTypeMatches :=
    if negb (resourceTypeFlags =? 0) then negb (Z.land resourceTypeFlags flags =? 0)
    else true in
  if loadTypeMatches && resourceTypeMatches then
    location ← getBits 4 (pc + 1 + 2);
    let actionAndFlags :=
      Z.lor (Z.lor (if ifDomain then IfDomainFlag else 0) (Z.shiftl flagsToCheck 32))
        location in
    Some (u32 (pc + size), add_matching actionAndFlags actions)
  else Some (u32 (pc + size), actions).

(** [url[i]] for a [CString]: its bytes, then the terminator. *)
Definition url_at (url : list Z) (i : Z) : option Z := (url ++ [0]).[i].

Record istate := mkI {
  programCounter : Z;
  urlIndex : Z;
  urlIndexIsAfterEndOfString : bool;
  i_actions : gset Z
}.

Inductive outcome :=
| Running (s : istate)
| NextDFA (actions : gset Z).

(** Take the jump whose distance is stored at [jumpLocation]. *)
Definition take_jump (s : istate) (jumpLocation : Z) (jumpSize : DFABytecodeJumpSize)
    (character : Z) : option outcome :=
  distance ← getJumpDistance jumpLocation jumpSize;
  Some (Running (mkI (u32 (programCounter s + distance)) (u32 (urlIndex s + 1))
                   ((character =? 0) || urlIndexIsAfterEndOfString s) (i_actions s))).

Definition advance (s : istate) (n : Z) : option outcome :=
  Some (Running (mkI (u32 (programCounter s + n)) (urlIndex s)
                   (urlIndexIsAfterEndOfString s) (i_actions s))).

(** The character an instruction tests. *)
Definition current_char (url : list Z) (s : istate) (caseSensitive : bool) : option Z :=
  c ← url_at url (urlIndex s);
  Some (if caseSensitive then c else toASCIILowerChar c).

Definition interpretCheckValue (url : list Z) (s : istate) (caseSensitive : bool)
    : option outcome :=
  character ← current_char url s caseSensitive;
  jumpSize ← getJumpSize (programCounter s);
  value ← getBits 1 (programCounter s + 1);
  if character =? value
  then take_jump s (u32 (programCounter s + 1 + 1)) jumpSize character
  else advance s (1 + 1 + jumpSizeInBytes jumpSize).

Definition interpretCheckValueRange (url : list Z) (s : istate) (caseSensitive : bool)
    : option outcome :=
  character ← current_char url s caseSensitive;
  jumpSize ← getJumpSize (programCounter s);
  low ← getBits 1 (programCounter s + 1);
  high ← getBits 1 (programCounter s + 1 + 1);
  if (low <=? character) && (character <=? high)
  then take_jump s (u32 (programCounter s + 1 + 2)) jumpSize character
  else advance s (1 + 2 + jumpSizeInBytes jumpSize).

(** [interpetJumpTable] *)
Definition interpretJumpTable (url : list Z) (s : istate) (caseSensitive : bool)
    : option outcome :=
  jumpSize ← getJumpSize (programCounter s);
  character ← current_char url s caseSensitive;
  firstCharacter ← getBits 1 (programCounter s + 1);
  lastCharacter ← getBits 1 (programCounter s + 1 + 1);
  if (firstCharacter <=? character) && (character <=? lastCharacter)
  then let startOffset := u32 (programCounter s + 1 + 2) in
       take_jump s
         (u32 (startOffset + (character - firstCharacter) * jumpSizeInBytes jumpSize))
         jumpSize character
  else advance s (1 + 2 + jumpSizeInBytes jumpSize * (lastCharacter - firstCharacter + 1)).

(** [url[urlIndex]] is read before [urlIndexIsAfterEndOfString] is tested. *)
Definition interpretJump (url : list Z) (s : istate) : option outcome :=
  character ← url_at url (urlIndex s);
  if (character =? 0) || urlIndexIsAfterEndOfString s then Some (NextDFA (i_actions s))
  else jumpSize ← getJumpSize (programCounter s);
       distance ← getJumpDistance (u32 (programCounter s + 1)) jumpSize;
       Some (Running (mkI (u32 (programCounter s + distance)) (u32 (urlIndex s + 1))
                        (urlIndexIsAfterEndOfString s) (i_actions s))).

Definition after_append (s : istate) (r : option (Z * gset Z)) : option outcome :=
  '(pc, actions) ← r;
  Some (Running (mkI pc (urlIndex s) (urlIndexIsAfterEndOfString s) actions)).

(** The checks refuse to run after the terminator was consumed. *)
Definition unless_after_end (s : istate) (k : option outcome) : option outcome :=
  if urlIndexIsAfterEndOfString s then Some (NextDFA (i_actions s)) else k.

(** The body of the interpreter's inner loop. *)
Definition step (url : list Z) (flags : Z) (s : istate) : option outcome :=
  code ← getInstruction (programCounter s);
  instruction ← instruction_of_code code;
  match instruction with
  | Terminate => Some (NextDFA (i_actions s))
  | CheckValueCaseSensitive => unless_after_end s (interpretCheckValue url s true)
  | CheckValueCaseInsensitive => unless_after_end s (interpretCheckValue url s false)
  | JumpTableCaseInsensitive => unless_after_end s (interpretJumpTable url s false)
  | JumpTableCaseSensitive => unless_after_end s (interpretJumpTable url s true)
  | CheckValueRangeCaseSensitive => unless_after_end s (interpretCheckValueRange url s true)
  | CheckValueRangeCaseInsensitive => unless_after_end s (interpretCheckValueRange url s false)
  | Jump => interpretJump url s
  | AppendAction =>
      after_append s (interpretAppendAction (programCounter s) (i_actions s) false)
  | AppendActionWithIfDomain =>
      after_append s (interpretAppendAction (programCounter s) (i_actions s) true)
  | TestFlagsAndAppendAction =>
      after_append s
        (interpretTestFlagsAndAppendAction (programCounter s) flags (i_actions s) false)
  | TestFlagsAndAppendActionWithIfDomain =>
      after_append s
        (interpretTestFlagsAndAppendAction (programCounter s) flags (i_actions s) true)
  end.

Fixpoint exec (fuel : nat) (url : list Z) (flags : Z) (s : istate) : option (gset Z) :=
  match fuel with
  | O => None
  | S fuel =>
      o ← step url flags s;
      match o with
      | Running s => exec fuel url flags s
      | NextDFA actions => Some actions
      end
  end.

(** Between two characters the program counter only grows, so no run of
    well-formed code is longer than this. *)
Definition exec_fuel (url : list Z) : nat := (length url + 2) * S (length m_bytecode).

(** The prologue of the first DFA: run the flagged root actions, skip the
    others. *)
Fixpoint skip_root_actions (fuel : nat) (dfaBytecodeLength flags pc : Z) (actions : gset Z)
    : option (Z * gset Z) :=
  match fuel with
  | O => None
  | S fuel =>
      if negb (pc <? dfaBytecodeLength) then Some (pc, actions) else
      code ← getInstruction pc;
      match instruction_of_code code with
      | Some AppendAction =>
          size ← instructionSizeWithArguments AppendAction;
          skip_root_actions fuel dfaBytecodeLength flags (u32 (pc + size)) actions
      | Some AppendActionWithIfDomain =>
          size ← instructionSizeWithArguments AppendActionWithIfDomain;
          skip_root_actions fuel dfaBytecodeLength flags (u32 (pc + size)) actions
      | Some TestFlagsAndAppendAction =>
          '(pc, actions) ← interpretTestFlagsAndAppendAction pc flags actions false;
          skip_root_actions fuel dfaBytecodeLength flags pc actions
      | Some TestFlagsAndAppendActionWithIfDomain =>
          '(pc, actions) ← interpretTestFlagsAndAppendAction pc flags actions true;
          skip_root_actions fuel dfaBytecodeLength flags pc actions
      | _ => Some (pc, actions)
      end
  end.

(** The outer loop of [interpret], one iteration per DFA. *)
Fixpoint interpret_loop (fuel : nat) (url : list Z) (flags pc : Z) (actions : gset Z)
    : option (gset Z) :=
  if negb (pc <? vlen m_bytecode) then Some actions else
  match fuel with
  | O => None
  | S fuel =>
      let dfaStart := pc in
      dfaBytecodeLength ← getBits 4 pc;
      let pc := u32 (pc + 4) in
      if dfaStart =? 0 then
        '(pc, actions) ← skip_root_actions (S (length m_bytecode)) dfaBytecodeLength flags
                           pc actions;
        if vlen m_bytecode <=? pc then Some actions else
        actions ← exec (exec_fuel url) url flags (mkI pc 0 false actions);
        interpret_loop fuel url flags (u32 (dfaStart + dfaBytecodeLength)) actions
      else
        actions ← exec (exec_fuel url) url flags (mkI pc 0 false actions);
        interpret_loop fuel url flags (u32 (dfaStart + dfaBytecodeLength)) actions
  end.

Definition interpret (url : list Z) (flags : Z) : option (gset Z) :=
  interpret_loop (length m_bytecode) url flags 0 ∅.

(** [actionsMatchingEverything]: the flagless actions of the first root. *)
Fixpoint everything_loop (fuel : nat) (dfaBytecodeLength pc : Z) (actions : gset Z)
    : option (gset Z) :=
  match fuel with
  | O => None
  | S fuel =>
      if negb (pc <? dfaBytecodeLength) then Some actions else
      code ← getInstruction pc;
      match instruction_of_code code with
      | Some AppendAction =>
          '(pc, actions) ← interpretAppendAction pc actions false;
          everything_loop fuel dfaBytecodeLength pc actions
      | Some AppendActionWithIfDomain =>
          '(pc, actions) ← interpretAppendAction pc actions true;
          everything_loop fuel dfaBytecodeLength pc actions
      | Some TestFlagsAndAppendAction =>
          size ← instructionSizeWithArguments TestFlagsAndAppendAction;
          everything_loop fuel dfaBytecodeLength (u32 (pc + size)) actions
      | Some TestFlagsAndAppendActionWithIfDomain =>
          size ← instructionSizeWithArguments TestFlagsAndAppendActionWithIfDomain;
          everything_loop fuel dfaBytecodeLength (u32 (pc + size)) actions
      | _ => Some actions
      end
  end.

Definition actionsMatchingEverything : option (gset Z) :=
  dfaBytecodeLength ← getBits 4 0;
  everything_loop (S (length m_bytecode)) dfaBytecodeLength 4 ∅.
End Interpreter.

(** [interpretWithDomains]: the same run with [m_domainActions] set. *)
Definition interpretWithDomains `{Host} (bytecode url : list Z) (flags : Z)
    (domainActions : gset Z) : option (gset Z) :=
  interpret bytecode (Some domainActions) url flags.
