(* ===== verification/TransitionsCorrect.v ===== *)
(** * Grouping transitions is faithful

    [DFABytecodeCompiler::transitions] turns the transitions of a node into
    jump tables, ranges (some of them case-insensitive) and a fallback.  This
    file proves that the groups say exactly what the node's transitions say:
    [transitions_spec]. *)

From S2P Require Import Prelude DFA Bytecode.

(** ** What the groups mean *)

(** The character a check compares, after case folding. *)
Definition folded (caseSensitive : bool) (c : Z) : Z :=
  if caseSensitive then c else toASCIILowerChar c.

Definition range_matches (r : Range) (c : Z) : Prop :=
  r_min r <= folded (r_caseSensitive r) c <= r_max r.

Definition table_target (jt : JumpTable) (c : Z) : option Z :=
  let c := folded (jt_caseSensitive jt) c in
  if (jt_min jt <=? c) && (c <=? jt_max jt) then (jt_destinations jt).[c - jt_min jt] else None.

(** Some group sends [c] to [d]. *)
Definition entry (jts : list JumpTable) (rs : list Range) (c d : Z) : Prop :=
  (exists r, r ∈ rs /\ range_matches r c /\ r_destination r = d)
  \/ (exists jt, jt ∈ jts /\ table_target jt c = Some d).

Definition wf_range (r : Range) : Prop := 0 <= r_min r <= r_max r /\ r_max r <= 127.

Definition wf_table (jt : JumpTable) : Prop :=
  0 <= jt_min jt <= jt_max jt /\ jt_max jt <= 127
  /\ vlen (jt_destinations jt) = jt_max jt - jt_min jt + 1.

(** ** Painting *)

Lemma fill_from_spec {A} (v : list A) s (n : nat) x :
  0 <= s -> s + Z.of_nat n <= vlen v ->
  exists v', fill_from v s (Z.of_nat n) x = Some v' /\ length v' = length v /\
    forall i, v'.[i] = if decide (s <= i < s + Z.of_nat n) then Some x else v.[i].
Proof.
  intros Hs. induction n as [|n IH]; intros Hn.
  - exists v. split_and!; [done|done|]. intros i. case_decide; [lia|done].
  - destruct IH as (v1 & Hv1 & Hl & Hat); [lia|].
    unfold fill_from in *. rewrite seqZ_S, foldl_snoc, Hv1. simpl.
    rewrite vec_set_Some by lia. eexists. split_and!; [done|by rewrite length_insert|].
    intros i. erewrite vec_at_set by (apply vec_set_Some; lia).
    rewrite Hat. repeat case_decide; try done; lia.
Qed.

Definition painted (fallback : option Z) (ts : list transition) (old : option Z) (c : Z) : option Z :=
  match ts_step ts c with
  | Some t => if decide (fallback = Some t) then old else Some t
  | None => old
  end.

Lemma paint_spec d t lo ts :
  length d = 128%nat -> sorted_from lo (t :: ts) -> 0 <= lo ->
  exists d', paint d t = Some d' /\ length d' = 128%nat /\
    forall i, d'.[i] = if in_range (fst t) i then Some (snd t) else d.[i].
Proof.
  destruct t as [r t]. simpl. intros Hd (?&?&?&_) Hlo. unfold paint. simpl.
  destruct (fill_from_spec d (range_first r) (Z.to_nat (range_last r - range_first r + 1)) t)
    as (d' & Hd' & Hl & Hat); [lia|lia|].
  rewrite Z2Nat.id in * by lia. exists d'. split_and!; [done|congruence|].
  intros i. rewrite Hat. unfold in_range. case_decide; bool_cases; try done; lia.
Qed.

Lemma paint_all_spec fallback ts d lo :
  length d = 128%nat -> sorted_from lo ts -> 0 <= lo ->
  exists d', paint_all fallback d ts = Some d' /\ length d' = 128%nat /\
    forall c, d'.[c] = painted fallback ts (d.[c]) c.
Proof.
  revert d lo. induction ts as [|[r t] ts IH]; intros d lo Hd Hs Hlo.
  { exists d. done. }
  assert (Hs' : sorted_from (range_last r + 1) ts) by apply Hs.
  assert (Hr : lo <= range_first r <= range_last r) by (simpl in Hs; lia).
  assert (Hrest : forall c, in_range r c = true -> ts_step ts c = None).
  { intros c Hc. eapply ts_step_below; [done|]. unfold in_range in Hc. bprop. lia. }
  unfold painted. cbn [paint_all ts_step snd].
  destruct (decide (fallback = Some t)) as [->|Hne].
  - rewrite Z.eqb_refl.
    destruct (IH d (range_last r + 1)) as (d' & -> & Hl & Hat); [done|done|lia|].
    exists d'. split_and!; [done|done|]. intros c. rewrite Hat. unfold painted.
    destruct (in_range r c) eqn:E; [|done]. rewrite Hrest by done.
    case_decide; [done|congruence].
  - destruct (match fallback with Some f => f =? t | None => false end) eqn:Ef.
    { destruct fallback; [|done]. bprop. congruence. }
    destruct (paint_spec d (r, t) lo ts) as (d1 & -> & Hl1 & Hat1); [done|done|lia|].
    destruct (IH d1 (range_last r + 1)) as (d' & Hp & Hl & Hat); [done|done|lia|].
    exists d'. split_and!; [done|done|]. intros c. rewrite Hat, Hat1. unfold painted. simpl.
    destruct (in_range r c) eqn:E; [|done]. rewrite Hrest by done.
    case_decide; [congruence|done].
Qed.

(** ** The fallback *)

Lemma fallback_loop_total last ts c :
  sorted_from (last + 1) ts -> fallback_loop last ts = true -> last < c <= 127 ->
  exists t, ts_step ts c = Some t.
Proof.
  revert last. induction ts as [|[r t] ts IH]; intros last Hs Hf Hc; simpl in *; [done|].
  destruct Hs as (?&?&?&Hs). unfold in_range.
  destruct (Z.eqb_spec (range_first r) (last + 1)) as [E|]; [|done]. simpl in Hf.
  destruct (Z.leb_spec (range_first r) c); [|lia]. simpl.
  destruct (Z.leb_spec c (range_last r)); [eauto|].
  destruct (Z.eqb_spec (range_last r) 127); [lia|]. eapply IH; [done|done|lia].
Qed.

(** A node that can use the fallback has a transition on every character but NUL. *)
Lemma canUseFallback_total ts c :
  sorted_from 0 ts -> canUseFallback ts = true -> 1 <= c <= 127 ->
  exists t, ts_step ts c = Some t.
Proof.
  destruct ts as [|[r t] ts]; [done|]. unfold canUseFallback.
  intros Hs Hf Hc. destruct (Z.eqb_spec (range_first r) 0) as [E|].
  - simpl in *. destruct Hs as (?&?&?&Hs). unfold in_range.
    destruct (Z.leb_spec (range_first r) c); [|lia].
    destruct (Z.leb_spec c (range_last r)); [eauto|]. simpl.
    destruct (Z.eqb_spec (range_last r) 127); [lia|]. eapply fallback_loop_total; [done|done|lia].
  - eapply (fallback_loop_total 0); [|done|lia]. simpl in *. split_and!; try lia. apply Hs.
Qed.

Lemma best_loop_elem h b s ts :
  best_loop h b s ts = b \/ exists r, (r, best_loop h b s ts) ∈ ts.
Proof.
  revert h b s. induction ts as [|[r t] ts IH]; intros h b s; simpl; [by left|].
  destruct (_ <? _).
  - edestruct IH as [->|[r' ?]]; right; [exists r|exists r']; constructor; done.
  - edestruct IH as [->|[r' ?]]; [by left|right; exists r'; by constructor].
Qed.

Lemma best_loop_cons_elem h s r t ts : exists r', (r', best_loop h t s ts) ∈ (r, t) :: ts.
Proof.
  destruct (best_loop_elem h t s ts) as [->|[r' ?]]; [exists r; left|exists r'; by right].
Qed.

(** The fallback target is one of the node's targets. *)
Lemma bestFallback_elem ts :
  canUseFallback ts = true -> exists t r, bestFallback ts = Some t /\ (r, t) ∈ ts.
Proof.
  destruct ts as [|[r t] ts]; [done|]. unfold canUseFallback, bestFallback. intros Hf.
  destruct ((range_first r =? 0) && (range_last r =? 0)) eqn:E; bprop.
  - rewrite H, H0 in Hf. simpl in Hf. destruct ts as [|[r' t'] ts]; [done|].
    eexists. edestruct best_loop_cons_elem as [r'' Hb]. exists r''.
    split; [reflexivity|]. right. exact Hb.
  - eexists. edestruct best_loop_cons_elem as [r'' Hb]. exists r''.
    split; [reflexivity|exact Hb].
Qed.

(** ** The scan *)

Definition covered (rs : list Range) (c : Z) : Prop := exists r, r ∈ rs /\ range_matches r c.

(** Every range is well formed and says only what [D] says. *)
Definition ranges_sound (D : Z -> Z) (rs : list Range) : Prop :=
  forall r, r ∈ rs -> wf_range r /\ r_destination r <> noDestination /\
    (exists c, 0 <= c <= 127 /\ range_matches r c) /\
    forall c, 0 <= c <= 127 -> range_matches r c -> D c = r_destination r.

(** The state of the scan before character [i]; [D] are the destinations it
    started from. *)
Record scan_inv (D : Z -> Z) (i : Z) (s : scan_state) : Prop := {
  scan_len : length (s_destinations s) = 128%nat;
  scan_sound : ranges_sound D (s_ranges s);
  scan_current : forall c, 0 <= c <= 127 ->
    dest_at (s_destinations s) c = D c
    \/ (dest_at (s_destinations s) c = noDestination /\ covered (s_ranges s) c);
  scan_covered : forall c, 0 <= c < i -> (forall m, s_rangeMin s = Some m -> c < m) ->
    D c <> noDestination -> covered (s_ranges s) c;
  scan_open : forall m, s_rangeMin s = Some m -> 0 <= m < i /\
    dest_at (s_destinations s) m <> noDestination /\
    forall c, m <= c < i -> dest_at (s_destinations s) c = dest_at (s_destinations s) m
}.

Lemma covered_app_l rs rs' c : covered rs c -> covered (rs ++ rs') c.
Proof. intros (r & ? & ?). exists r. split; [apply elem_of_app; by left|done]. Qed.

Lemma covered_snoc rs r c : range_matches r c -> covered (rs ++ [r]) c.
Proof. exists r. split; [apply elem_of_app; right; constructor|done]. Qed.

Lemma ranges_sound_snoc D rs r :
  ranges_sound D rs -> wf_range r -> r_destination r <> noDestination ->
  (exists c, 0 <= c <= 127 /\ range_matches r c) ->
  (forall c, 0 <= c <= 127 -> range_matches r c -> D c = r_destination r) ->
  ranges_sound D (rs ++ [r]).
Proof.
  intros Hs ???? r' [? | ->%list_elem_of_singleton]%elem_of_app; [by apply Hs|done].
Qed.

Lemma dest_at_insert d i c x :
  length d = 128%nat -> 0 <= i < 128 -> 0 <= c < 128 ->
  dest_at (<[Z.to_nat i := x]> d) c = if decide (i = c) then x else dest_at d c.
Proof.
  intros. unfold dest_at. erewrite vec_at_set by (apply vec_set_Some; lia).
  by case_decide.
Qed.

Lemma lower_upper c : 65 <= c <= 90 -> toASCIILowerChar c = c + 32.
Proof. intros. rewrite toASCIILowerChar_spec by lia. bool_cases; lia. Qed.

Lemma lower_other c : 0 <= c <= 127 -> ~ (65 <= c <= 90) -> toASCIILowerChar c = c.
Proof. intros. rewrite toASCIILowerChar_spec by lia. bool_cases; lia. Qed.

Lemma erase_lower_spec d m (n : nat) :
  length d = 128%nat -> 65 <= m -> m + Z.of_nat n <= 91 ->
  length (erase_lower d m (m + Z.of_nat n - 1)) = 128%nat /\
  forall c, 0 <= c <= 127 ->
    dest_at (erase_lower d m (m + Z.of_nat n - 1)) c =
    if decide (m + 32 <= c < m + 32 + Z.of_nat n) then noDestination else dest_at d c.
Proof.
  intros Hd Hm. unfold erase_lower.
  replace (m + Z.of_nat n - 1 - m + 1) with (Z.of_nat n) by lia.
  induction n as [|n IH]; intros Hn.
  { split; [done|]. intros. case_decide; [lia|done]. }
  destruct IH as [Hl Hat]; [lia|]. rewrite seqZ_S, foldl_snoc, lower_upper by lia.
  split; [by rewrite length_insert|]. intros c Hc.
  rewrite dest_at_insert by (done || lia). rewrite Hat by done.
  repeat case_decide; try done; lia.
Qed.

Lemma case_insensitive_spec d m M :
  case_insensitive d m M = true ->
  65 <= m /\ M <= 90 /\ forall c, m <= c <= M -> dest_at d (c + 32) = dest_at d m.
Proof.
  unfold case_insensitive. intros Hc. bprop. split_and!; [done|done|]. intros c Hc.
  rewrite forallb_forall in H0.
  specialize (H0 c). rewrite lower_upper in H0 by lia. symmetry. apply Z.eqb_eq, H0.
  apply list_elem_of_In, elem_of_seqZ. lia.
Qed.

(** The new range says what the open characters say. *)
Lemma open_sound D i s m c :
  scan_inv D i s -> s_rangeMin s = Some m -> i <= 128 -> m <= c < i ->
  D c = dest_at (s_destinations s) m.
Proof.
  intros [] Hm Hi Hc. destruct (scan_open0 m Hm) as (?&Hne&Heq).
  destruct (scan_current0 c) as [<-|[Hno _]]; [lia|by apply Heq|].
  rewrite Heq in Hno by lia. done.
Qed.

Lemma range_matches_sensitive m M d c : range_matches (mkRange m M d true) c <-> m <= c <= M.
Proof. done. Qed.

Lemma range_matches_folded m M d c :
  65 <= m <= M -> M <= 90 -> 0 <= c <= 127 ->
  range_matches (mkRange (toASCIILowerChar m) (toASCIILowerChar M) d false) c <->
  m <= c <= M \/ m + 32 <= c <= M + 32.
Proof.
  intros. unfold range_matches, folded. simpl. rewrite (lower_upper m), (lower_upper M) by lia.
  destruct (decide (65 <= c <= 90)); [rewrite lower_upper by lia|rewrite lower_other by lia]; lia.
Qed.

(** Closing a case-sensitive range. *)
Lemma close_sensitive_inv D i s m :
  scan_inv D i s -> s_rangeMin s = Some m -> 0 <= i < 128 ->
  let d := s_destinations s in
  let rs := s_ranges s ++ [mkRange m (i - 1) (dest_at d m) true] in
  scan_inv D (i + 1) (mkScan d rs (if dest_at d i =? noDestination then None else Some i)).
Proof.
  intros Hinv Hm Hi d rs. pose proof Hinv as []. destruct (scan_open0 m Hm) as (?&Hne&_).
  assert (Hd : forall c, m <= c < i -> D c = dest_at d m) by (intros; eapply open_sound; [exact Hinv|done|lia|lia]).
  assert (Hcov : forall c, 0 <= c < i -> D c <> noDestination -> covered rs c).
  { intros c Hc HD. destruct (decide (c < m)).
    - apply covered_app_l, scan_covered0; [lia| |done]. intros; simplify_eq; lia.
    - apply covered_snoc, range_matches_sensitive. lia. }
  split; cbn [s_destinations s_ranges s_rangeMin]; [done| | | |].
  - apply ranges_sound_snoc; [done|split; simpl; lia|done| |].
    { exists m. rewrite range_matches_sensitive. lia. }
    intros c Hc Hr%range_matches_sensitive. apply Hd. lia.
  - intros c Hc. destruct (scan_current0 c Hc) as [|[??]]; [by left|right].
    split; [done|by apply covered_app_l].
  - intros c Hc Hlt HD. destruct (decide (c = i)) as [->|]; [|apply Hcov; [lia|done]].
    destruct (Z.eqb_spec (dest_at d i) noDestination) as [E|].
    + destruct (scan_current0 i) as [E'|[_ ?]]; [lia| |by apply covered_app_l].
      exfalso. apply HD. etransitivity; [symmetry; exact E'|exact E].
    + specialize (Hlt i eq_refl). lia.
  - intros m'. case_bool; [done|]. intros [= <-]. split_and!; [lia|lia|done|].
    intros c Hc. f_equal. lia.
Qed.

(** Closing a case-insensitive range: the erased characters are covered. *)
Lemma close_insensitive_inv D i s m :
  scan_inv D i s -> s_rangeMin s = Some m -> 0 <= i < 128 ->
  case_insensitive (s_destinations s) m (i - 1) = true ->
  let d := erase_lower (s_destinations s) m (i - 1) in
  let rs := s_ranges s ++ [mkRange (toASCIILowerChar m) (toASCIILowerChar (i - 1))
                             (dest_at (s_destinations s) m) false] in
  scan_inv D (i + 1) (mkScan d rs (if dest_at d i =? noDestination then None else Some i)).
Proof.
  intros Hinv Hm Hi (Hm65 & Hi90 & Hlow)%case_insensitive_spec d rs.
  pose proof Hinv as []. destruct (scan_open0 m Hm) as (Hmi&Hne&_).
  destruct (erase_lower_spec (s_destinations s) m (Z.to_nat (i - m))) as [Hlen Hat];
    [done|lia|lia|].
  replace (m + Z.of_nat (Z.to_nat (i - m)) - 1) with (i - 1) in * by lia.
  rewrite Z2Nat.id in Hat by lia. fold d in Hlen, Hat.
  set (rnew := mkRange (toASCIILowerChar m) (toASCIILowerChar (i - 1)) _ false) in *.
  assert (Hmatch : forall c, 0 <= c <= 127 ->
    range_matches rnew c <-> m <= c <= i - 1 \/ m + 32 <= c <= i - 1 + 32).
  { intros c Hc. apply range_matches_folded; lia. }
  assert (Hd : forall c, m <= c < i -> D c = dest_at (s_destinations s) m)
    by (intros; eapply open_sound; [exact Hinv|done|lia|lia]).
  assert (Hcur : forall c, 0 <= c <= 127 -> dest_at d c = D c \/ dest_at d c = noDestination /\ covered rs c).
  { intros c Hc. rewrite Hat by done. case_decide.
    - right. split; [done|]. apply covered_snoc, Hmatch; lia.
    - destruct (scan_current0 c Hc) as [|[??]]; [by left|right].
      split; [done|by apply covered_app_l]. }
  split; cbn [s_destinations s_ranges s_rangeMin]; [done| |done| |].
  - apply ranges_sound_snoc; [done| |done| |].
    + unfold wf_range, rnew. simpl. rewrite (lower_upper m), (lower_upper (i - 1)) by lia. lia.
    + exists m. split; [lia|]. apply Hmatch; lia.
    + intros c Hc [Hr|Hr]%Hmatch; [apply Hd; lia| |done]. simpl.
      specialize (Hlow (c - 32)). replace (c - 32 + 32) with c in Hlow by lia.
      destruct (scan_current0 c Hc) as [<-|[Hno _]]; [apply Hlow; lia|].
      rewrite Hlow in Hno by lia. done.
  - intros c Hc Hlt HD. destruct (decide (c = i)) as [->|].
    + destruct (Z.eqb_spec (dest_at d i) noDestination) as [E|].
      * destruct (Hcur i) as [E'|[_ ?]]; [lia| |done]. exfalso. apply HD. etransitivity; [symmetry; exact E'|exact E].
      * specialize (Hlt i eq_refl). lia.
    + destruct (decide (c < m)).
      * apply covered_app_l, scan_covered0; [lia| |done]. intros; simplify_eq; lia.
      * apply covered_snoc, Hmatch; lia.
  - intros m'. case_bool; [done|]. intros [= <-]. split_and!; [lia|lia|done|].
    intros c Hc. f_equal. lia.
Qed.

Lemma scan_step_inv D i s :
  scan_inv D i s -> 0 <= i < 128 -> scan_inv D (i + 1) (scan_step s i).
Proof.
  intros Hinv Hi. unfold scan_step. destruct (s_rangeMin s) as [m|] eqn:Em.
  - destruct (Z.eqb_spec (dest_at (s_destinations s) i) (dest_at (s_destinations s) m)) as [E|E]; simpl.
    + destruct Hinv. split; try done.
      * intros c Hc Hlt. apply scan_covered0; [|done]. specialize (Hlt m Em).
        destruct (scan_open0 m Em). lia.
      * intros m' Hm'. simplify_eq. destruct (scan_open0 m Em) as (?&?&Heq).
        split_and!; [lia|lia|done|]. intros c Hc.
        destruct (decide (c = i)) as [->|]; [done|]. apply Heq. lia.
    + unfold close_range. destruct (case_insensitive _ _ _) eqn:Ec.
      * by apply close_insensitive_inv.
      * by apply close_sensitive_inv.
  - destruct Hinv. destruct (Z.eqb_spec (dest_at (s_destinations s) i) noDestination) as [E|E]; simpl.
    + split; try done; [|congruence]. intros c Hc _ HD.
      destruct (decide (c = i)) as [->|]; [|apply scan_covered0; [lia|congruence|done]].
      destruct (scan_current0 i) as [E'|[_ ?]]; [lia|congruence|done].
    + split; cbn [s_destinations s_ranges s_rangeMin]; try done.
      * intros c Hc Hlt HD. specialize (Hlt i eq_refl).
        apply scan_covered0; [lia|congruence|done].
      * intros m' [= <-]. split_and!; [lia|lia|done|]. intros c Hc. f_equal. lia.
Qed.

Lemma scan_loop_inv D d (n : nat) :
  length d = 128%nat -> (forall c, 0 <= c <= 127 -> dest_at d c = D c) -> (n <= 128)%nat ->
  scan_inv D (Z.of_nat n) (foldl scan_step (mkScan d [] None) (seqZ 0 (Z.of_nat n))).
Proof.
  intros Hd HD. induction n as [|n IH]; intros Hn.
  - split; simpl; [done| |by left; apply HD|lia|done]. intros r []%not_elem_of_nil.
  - rewrite seqZ_S, foldl_snoc. replace (Z.of_nat (S n)) with (Z.of_nat n + 1) by lia.
    apply scan_step_inv; [apply IH|]; lia.
Qed.

(** The ranges of the scan say exactly what the destinations say. *)
Lemma scan_spec d :
  length d = 128%nat ->
  ranges_sound (dest_at d) (scan d) /\
  forall c, 0 <= c <= 127 -> dest_at d c <> noDestination -> covered (scan d) c.
Proof.
  intros Hd. pose proof (scan_loop_inv (dest_at d) d 128 Hd (fun _ _ => eq_refl) ltac:(lia)) as Hinv.
  unfold scan. change (Z.of_nat 128) with 128 in Hinv.
  set (s := foldl scan_step _ _) in *. clearbody s. pose proof Hinv as [].
  destruct (s_rangeMin s) as [m|] eqn:Em.
  - destruct (scan_open0 m eq_refl) as (?&?&_).
    assert (Hopen : forall c, m <= c < 128 -> dest_at d c = dest_at (s_destinations s) m)
      by (intros; eapply open_sound; [exact Hinv|done|lia|lia]).
    split.
    + apply ranges_sound_snoc; [done|split; simpl; lia|done| |].
      { exists m. rewrite range_matches_sensitive. lia. }
      intros c Hc Hr%range_matches_sensitive. apply Hopen. lia.
    + intros c Hc HD. destruct (decide (c < m)).
      * apply covered_app_l, scan_covered0; [lia| |done]. intros; simplify_eq; lia.
      * apply covered_snoc, range_matches_sensitive. lia.
  - split; [done|]. intros c Hc HD. apply scan_covered0; [lia|congruence|done].
Qed.

(** ** Jump tables *)

(** [rs[b..e]] are one-character ranges for consecutive characters from [m0]. *)
Definition run (m0 : Z) (cs : bool) (rs : list Range) (b e : nat) : Prop :=
  forall k r, (b <= k <= e)%nat -> rs !! k = Some r ->
    r_min r = m0 + Z.of_nat (k - b) /\ r_max r = r_min r /\ r_caseSensitive r = cs.

Lemma entry_app jts rs1 rs2 c d :
  entry jts (rs1 ++ rs2) c d <-> entry jts rs1 c d \/ entry [] rs2 c d.
Proof. unfold entry. setoid_rewrite elem_of_app. setoid_rewrite elem_of_nil. naive_solver. Qed.

Lemma entry_tables jts jt rs c d :
  entry (jts ++ [jt]) rs c d <-> entry jts rs c d \/ table_target jt c = Some d.
Proof. unfold entry. setoid_rewrite elem_of_app. setoid_rewrite list_elem_of_singleton. naive_solver. Qed.

(** The table of a run answers like the ranges of the run. *)
Lemma table_of_run m0 cs sub c d :
  sub <> [] -> run m0 cs sub 0 (length sub - 1) ->
  table_target (mkJumpTable m0 (m0 + vlen sub - 1) cs (map r_destination sub)) c = Some d
  <-> entry [] sub c d.
Proof.
  intros Hne Hrun. unfold table_target, entry. cbn [jt_min jt_max jt_caseSensitive jt_destinations].
  set (c' := folded cs c). split.
  - intros Ht. left. case_match; [|done]. bprop.
    apply vec_at_Some in Ht as [_ Ht]. apply list_lookup_fmap_Some in Ht as (r & -> & Hr).
    pose proof (lookup_lt_Some _ _ _ Hr).
    destruct (Hrun (Z.to_nat (c' - m0)) r ltac:(lia) Hr) as (Hmin & Hmax & Hcs).
    exists r. split_and!; [by eapply list_elem_of_lookup_2| |done].
    unfold range_matches. rewrite Hcs. fold c'. lia.
  - intros [(r & [k Hr]%list_elem_of_lookup & Hm & <-)|(jt & []%not_elem_of_nil & _)].
    pose proof (lookup_lt_Some _ _ _ Hr). destruct (Hrun k r ltac:(lia) Hr) as (Hmin & Hmax & Hcs).
    unfold range_matches in Hm. rewrite Hcs in Hm. fold c' in Hm.
    bool_cases; try lia. apply vec_at_Some. split; [lia|].
    replace (Z.to_nat (c' - m0)) with k by lia. by rewrite list_lookup_fmap, Hr.
Qed.

Definition wf_groups (jts : list JumpTable) (rs : list Range) : Prop :=
  Forall wf_table jts /\ Forall wf_range rs.

(** The destinations the groups mention. *)
Definition group_dests (jts : list JumpTable) (rs : list Range) : list Z :=
  concat (map jt_destinations jts) ++ map r_destination rs.

(** Moving a run of ranges into a table changes nothing. *)
Lemma extractJumpTable_spec jts rs m0 cs b e :
  (b < e < length rs)%nat -> run m0 cs rs b e -> wf_groups jts rs ->
  exists jt rs', extractJumpTable rs b e = Some (jt, rs')
    /\ length rs' = (length rs - (e - b + 1))%nat
    /\ wf_groups (jts ++ [jt]) rs'
    /\ Permutation (group_dests (jts ++ [jt]) rs') (group_dests jts rs)
    /\ forall c d, entry (jts ++ [jt]) rs' c d <-> entry jts rs c d.
Proof.
  intros Hbe Hrun [Hjts Hrs]. set (n := (e - b + 1)%nat).
  destruct (lookup_lt_is_Some_2 rs b) as [f Hf]; [lia|].
  destruct (lookup_lt_is_Some_2 rs e) as [l Hl]; [lia|].
  destruct (Hrun b f ltac:(lia) Hf) as (Hfmin & Hfmax & _).
  destruct (Hrun e l ltac:(lia) Hl) as (Hlmin & Hlmax & Hlcs).
  assert (Hsplit : rs = take b rs ++ take n (drop b rs) ++ drop (b + n) rs).
  { by rewrite <- drop_drop, take_drop, take_drop. }
  set (sub := take n (drop b rs)) in *.
  assert (Hsub : length sub = n) by (unfold sub; rewrite length_take, length_drop; lia).
  assert (Hne : sub <> []) by (intros E; rewrite E in Hsub; unfold n in Hsub; simpl in Hsub; lia).
  assert (Hsubrun : run m0 cs sub 0 (length sub - 1)).
  { intros k r Hk Hr. unfold sub in Hr. rewrite lookup_take_lt, lookup_drop in Hr by lia.
    destruct (Hrun (b + k)%nat r ltac:(lia) Hr) as (-> & ? & ?). split_and!; [|done|done].
    f_equal. lia. }
  assert (Htab : table_target (mkJumpTable (r_min f) (r_max l) (r_caseSensitive l) (map r_destination sub))
    = table_target (mkJumpTable m0 (m0 + vlen sub - 1) cs (map r_destination sub))).
  { f_equal. f_equal; [lia|lia|done]. }
  unfold extractJumpTable. rewrite Hf, Hl. simpl. fold n. fold sub.
  eexists _, _. split; [reflexivity|]. split_and!.
  - rewrite length_app, length_take, length_drop. lia.
  - assert (wf_range f /\ wf_range l) as [[??] [??]] by (split; by eapply Forall_lookup_1).
    rewrite Hsplit in Hrs. apply Forall_app in Hrs as [? [_ ?]%Forall_app].
    split; [|by apply Forall_app]. apply Forall_app. split; [done|]. apply Forall_singleton.
    unfold wf_table. simpl. rewrite length_fmap. lia.
  - rewrite Hsplit at 3. unfold group_dests. rewrite !map_app, concat_app. simpl.
    rewrite app_nil_r, <- (assoc_L (++)). apply Permutation_app_head.
    rewrite !(assoc_L (++)). apply Permutation_app_tail, Permutation_app_comm.
  - intros c d. rewrite entry_tables, Htab, table_of_run by done.
    rewrite Hsplit at 3. rewrite !entry_app. tauto.
Qed.

(** The state of the search for runs: the open run is [rs[b .. pos - 1]]. *)
Definition base_ok (rs : list Range) (pos : nat) (base : option nat) : Prop :=
  (pos <= length rs)%nat /\
  forall b, base = Some b -> (b < pos)%nat /\ exists m0 cs, run m0 cs rs b (pos - 1).

Lemma run_one r rs b : rs !! b = Some r -> r_min r = r_max r -> run (r_min r) (r_caseSensitive r) rs b b.
Proof.
  intros Hr He k r' Hk Hr'. assert (k = b) as -> by lia. simplify_eq. split_and!; [lia|done|done].
Qed.

Lemma run_extend m0 cs rs b pos base prev range :
  (b < pos)%nat -> run m0 cs rs b (pos - 1) ->
  rs !! b = Some base -> rs !! (pos - 1)%nat = Some prev -> rs !! pos = Some range ->
  r_min range = r_max range -> r_caseSensitive base = r_caseSensitive range ->
  r_max prev + 1 = r_min range -> run m0 cs rs b pos.
Proof.
  intros Hb Hrun Hbase Hprev Hrange Hone Hcs Hadj k r Hk Hr.
  destruct (decide (k = pos)) as [->|]; [|apply Hrun; [lia|done]]. simplify_eq.
  destruct (Hrun b base ltac:(lia) Hbase) as (_&_&Hbcs).
  destruct (Hrun (pos - 1)%nat prev ltac:(lia) Hprev) as (?&?&?).
  split_and!; [lia|done|congruence].
Qed.

Lemma table_loop_spec fuel rs jts pos base :
  (length rs - pos <= fuel)%nat -> base_ok rs pos base -> wf_groups jts rs ->
  exists jts' rs' base', table_loop fuel rs jts pos base = Some (jts', rs', base')
    /\ base_ok rs' (length rs') base' /\ wf_groups jts' rs'
    /\ Permutation (group_dests jts' rs') (group_dests jts rs)
    /\ forall c d, entry jts' rs' c d <-> entry jts rs c d.
Proof.
  revert rs jts pos base. induction fuel as [|fuel IH]; intros rs jts pos base Hfuel [Hpos Hb] Hwf;
    cbn [table_loop]; (destruct (rs !! pos) as [range|] eqn:Hr;
      [pose proof (lookup_lt_Some _ _ _ Hr); try lia
      |apply lookup_ge_None in Hr; assert (pos = length rs) as -> by lia;
       eexists _, _, _; split_and!; done || (split; [lia|done])]).
  destruct base as [b|]; [destruct (Hb b eq_refl) as (Hbp & m0 & cs & Hrun)|]; cycle 1.
  { destruct (Z.eqb_spec (r_min range) (r_max range)) as [He|He]; (apply IH; [lia| |done]).
    - split; [lia|]. intros b' [= <-]. split; [lia|].
      eexists _, _. replace (S pos - 1)%nat with pos by lia. by apply run_one.
    - split; [lia|done]. }
  destruct (lookup_lt_is_Some_2 rs b) as [baseRange Hbase]; [lia|].
  destruct (lookup_lt_is_Some_2 rs (pos - 1)) as [prev Hprev]; [lia|].
  rewrite Hbase, Hprev. simpl. destruct (_ || _) eqn:Ec.
  - case_match; cycle 1.
    { apply IH; [lia| |done]. split; [lia|done]. }
    apply Nat.ltb_lt in H0.
    destruct (extractJumpTable_spec jts rs m0 cs b (pos - 1)) as (jt & rs' & -> & Hl & Hwf' & Hp & Hent);
      [lia|done|done|]. simpl.
    destruct (IH rs' (jts ++ [jt]) (S b) None) as (jts2 & rs2 & base2 & -> & ? & ? & Hp2 & Hent2);
      [lia|split; [lia|done]|done|].
    eexists _, _, _. split_and!; [done|done|done|by rewrite Hp2|].
    intros c d. by rewrite Hent2, Hent.
  - bprop. repeat match goal with E : Bool.eqb _ _ = true |- _ => apply eqb_prop in E end.
    apply IH; [lia| |done]. split; [lia|]. intros b' [= <-].
    split; [lia|]. exists m0, cs. replace (S pos - 1)%nat with pos by lia.
    eapply run_extend; [exact Hbp|exact Hrun|exact Hbase|exact Hprev|exact Hr|done..].
Qed.

Lemma extract_tables_spec rs :
  Forall wf_range rs ->
  exists jts rs', extract_tables rs = Some (jts, rs') /\ wf_groups jts rs'
    /\ Permutation (group_dests jts rs') (map r_destination rs)
    /\ forall c d, entry jts rs' c d <-> entry [] rs c d.
Proof.
  intros Hrs.
  destruct (table_loop_spec (length rs) rs [] 0 None)
    as (jts & rs' & base & Hl & [_ Hb] & Hwf & Hp & Hent); [lia|split; [lia|done]|by split|].
  unfold extract_tables. rewrite Hl. simpl. change (group_dests [] rs) with (map r_destination rs) in Hp.
  destruct base as [b|]; [|by eexists _, _].
  case_match; [|by eexists _, _]. apply Nat.ltb_lt in H.
  destruct (Hb b eq_refl) as (Hbl & m0 & cs & Hrun).
  destruct (extractJumpTable_spec jts rs' m0 cs b (length rs' - 1))
    as (jt & rs2 & -> & _ & Hwf' & Hp' & Hent'); [lia|done|done|]. simpl.
  eexists _, _. split_and!; [done|done|by rewrite Hp'|]. intros c d. by rewrite Hent', Hent.
Qed.

(** ** The theorem *)

(** What the code of a node does on [c]: the first table, then the first range
    that answers, then the fallback, which never consumes the terminator. *)
Fixpoint first_table (jts : list JumpTable) (c : Z) : option Z :=
  match jts with
  | [] => None
  | jt :: jts => match table_target jt c with Some d => Some d | None => first_table jts c end
  end.

Definition range_target (r : Range) (c : Z) : option Z :=
  let c := folded (r_caseSensitive r) c in
  if (r_min r <=? c) && (c <=? r_max r) then Some (r_destination r) else None.

Fixpoint first_range (rs : list Range) (c : Z) : option Z :=
  match rs with
  | [] => None
  | r :: rs => match range_target r c with Some d => Some d | None => first_range rs c end
  end.

Definition select (t : Transitions) (c : Z) : option Z :=
  match first_table (jumpTables t) c with
  | Some d => Some d
  | None =>
      match first_range (ranges t) c with
      | Some d => Some d
      | None => if useFallbackTransition t && negb (c =? 0)
                then Some (fallbackTransitionTarget t) else None
      end
  end.

Lemma range_target_Some r c d : range_target r c = Some d <-> range_matches r c /\ r_destination r = d.
Proof.
  unfold range_target, range_matches. bool_cases; split; try done; try (intros []; lia);
    try (intros [[? ?] ?]; lia); naive_solver lia.
Qed.

Lemma first_range_entry rs c d : first_range rs c = Some d -> entry [] rs c d.
Proof.
  induction rs as [|r rs IH]; simpl; [done|]. destruct (range_target r c) as [d'|] eqn:E.
  - intros [= ->]. apply range_target_Some in E as []. left. exists r. split_and!; [left|done|done].
  - intros [(r' & ? & ?)|(jt & []%not_elem_of_nil & _)]%IH. left. exists r'. split; [by right|done].
Qed.

Lemma first_range_None rs c d : first_range rs c = None -> ~ entry [] rs c d.
Proof.
  induction rs as [|r rs IH]; simpl; intros Hn [(r' & Hr' & Hm & Hd)|(jt & []%not_elem_of_nil & _)].
  { by apply not_elem_of_nil in Hr'. }
  destruct (range_target r c) eqn:E; [done|]. apply elem_of_cons in Hr' as [->|Hr'].
  - by rewrite (proj2 (range_target_Some r c d)) in E.
  - apply (IH Hn). left. by exists r'.
Qed.

Lemma first_table_entry jts c d : first_table jts c = Some d -> exists jt, jt ∈ jts /\ table_target jt c = Some d.
Proof.
  induction jts as [|jt jts IH]; simpl; [done|]. destruct (table_target jt c) eqn:E.
  - intros [= ->]. exists jt. split; [left|done].
  - intros (jt' & ? & ?)%IH. exists jt'. split; [by right|done].
Qed.

Lemma first_table_None jts c jt : first_table jts c = None -> jt ∈ jts -> table_target jt c = None.
Proof.
  induction jts as [|jt' jts IH]; simpl; [by intros _ ?%not_elem_of_nil|].
  destruct (table_target jt' c) eqn:E; [done|]. intros Hn [->|?]%elem_of_cons; auto.
Qed.

(** The order of the groups does not matter when they agree with a function. *)
Lemma select_entries t c (f : option Z) :
  (forall d, entry (jumpTables t) (ranges t) c d <-> f = Some d) ->
  select t c = match f with
               | Some d => Some d
               | None => if useFallbackTransition t && negb (c =? 0)
                         then Some (fallbackTransitionTarget t) else None
               end.
Proof.
  intros Hent. unfold select. destruct (first_table (jumpTables t) c) as [d|] eqn:Et.
  { apply first_table_entry in Et as (jt & ? & ?).
    rewrite (proj1 (Hent d)); [done|]. right. by exists jt. }
  destruct (first_range (ranges t) c) as [d|] eqn:Er.
  { apply first_range_entry in Er. rewrite (proj1 (Hent d)); [done|].
    destruct Er as [Er|(jt & []%not_elem_of_nil & _)]. by left. }
  destruct f as [d|]; [|done]. destruct (proj2 (Hent d) eq_refl) as [Hr|(jt & Hjt & Ht)].
  - exfalso. eapply first_range_None; [done|]. by left.
  - rewrite (first_table_None _ _ _ Et Hjt) in Ht. done.
Qed.

(** What the node's code can follow: every transition, except the terminator's
    when it goes where the fallback goes. *)
Definition code_step (ts : list transition) (c : Z) : option Z :=
  match ts_step ts c with
  | Some d => if canUseFallback ts && (c =? 0) && bool_decide (bestFallback ts = Some d)
              then None else Some d
  | None => None
  end.

Lemma ranges_entries (D : Z -> Z) rs c d :
  ranges_sound D rs -> (forall c, 0 <= c <= 127 -> D c <> noDestination -> covered rs c) ->
  0 <= c <= 127 -> entry [] rs c d <-> D c = d /\ d <> noDestination.
Proof.
  intros Hs Hc Hcr. split.
  - intros [(r & Hr & Hm & <-)|(jt & []%not_elem_of_nil & _)].
    destruct (Hs r Hr) as (_&?&_&Hd). split; [by apply Hd|done].
  - intros [<- Hne]. destruct (Hc c Hcr Hne) as (r & Hr & Hm). left.
    exists r. destruct (Hs r Hr) as (_&_&_&Hd). split_and!; [done|done|]. symmetry. by apply Hd.
Qed.

Lemma painted_dest fallback ts d' c :
  Forall (fun t => snd t <> noDestination) ts ->
  (d'.[c] = painted fallback ts ((replicate 128 noDestination).[c]) c) -> 0 <= c <= 127 ->
  forall d, (dest_at d' c = d /\ d <> noDestination) <-> (ts_step ts c = Some d /\ fallback <> Some d).
Proof.
  intros Hts Hat Hc d. unfold dest_at. rewrite Hat. unfold painted.
  assert ((replicate 128 noDestination).[c] = Some noDestination) as ->.
  { apply vec_at_Some. split; [lia|]. apply lookup_replicate_2. lia. }
  destruct (ts_step ts c) as [t|] eqn:E; [|naive_solver].
  apply ts_step_elem in E as (r & Hr & _). rewrite Forall_forall in Hts.
  specialize (Hts _ Hr). simpl in Hts. case_decide; naive_solver.
Qed.

(** The steps of [transitions], put together. *)
Lemma transitions_compose dfa n ts f d jts rs :
  node_transitions dfa n = Some ts ->
  (if canUseFallback ts then bestFallback ts else Some uint32_max) = Some f ->
  paint_all (if canUseFallback ts then Some f else None) (replicate 128 noDestination) ts = Some d ->
  extract_tables (scan d) = Some (jts, rs) ->
  transitions dfa n = Some (mkTransitions jts rs (canUseFallback ts) f).
Proof.
  intros Hts Hf Hp He. unfold transitions, canUseFallbackTransition, bestFallbackTarget.
  rewrite Hts. rewrite !option_bind_Some.
  rewrite Hf, !option_bind_Some, Hp, option_bind_Some, He. reflexivity.
Qed.

Theorem transitions_spec dfa n ts :
  node_transitions dfa n = Some ts -> sorted_from 0 ts ->
  Forall (fun t => 0 <= snd t < uint32_max) ts ->
  exists t, transitions dfa n = Some t
    /\ wf_groups (jumpTables t) (ranges t)
    /\ Forall (fun d => exists r, (r, d) ∈ ts) (group_dests (jumpTables t) (ranges t))
    /\ useFallbackTransition t = canUseFallback ts
    /\ (canUseFallback ts = true ->
        bestFallback ts = Some (fallbackTransitionTarget t)
        /\ exists r, (r, fallbackTransitionTarget t) ∈ ts)
    /\ forall c, 0 <= c <= 127 -> select t c = code_step ts c.
Proof.
  intros Hts Hs Hlive.
  assert (Hno : Forall (fun t => snd t <> noDestination) ts).
  { eapply Forall_impl; [done|]. unfold noDestination. lia. }
  assert (exists f, (if canUseFallback ts then bestFallback ts else Some uint32_max) = Some f
    /\ (canUseFallback ts = true -> bestFallback ts = Some f /\ exists r, (r, f) ∈ ts)) as (f & Hbest & Hf).
  { destruct (canUseFallback ts) eqn:E; [|by eexists].
    destruct (bestFallback_elem ts E) as (t & r & -> & ?). eauto. }
  remember (if canUseFallback ts then Some f else None) as fb eqn:Efb.
  destruct (paint_all_spec fb ts (replicate 128 noDestination) 0) as (d & Hpaint & Hl & Hat);
    [apply length_replicate|done|lia|].
  destruct (scan_spec d Hl) as [Hsound Hcov].
  assert (Hwf : Forall wf_range (scan d)).
  { apply Forall_forall. intros r Hr. by apply Hsound. }
  destruct (extract_tables_spec (scan d) Hwf) as (jts & rs & Hext & Hg & Hp & Hent).
  assert (Hsem : forall c, 0 <= c <= 127 -> forall x,
    entry jts rs c x <-> ts_step ts c = Some x /\ fb <> Some x).
  { intros c Hc x. rewrite Hent, (ranges_entries (dest_at d)) by done.
    by apply painted_dest. }
  rewrite Efb in Hpaint.
  exists (mkTransitions jts rs (canUseFallback ts) f). split; [by eapply transitions_compose|].
  cbn [jumpTables ranges useFallbackTransition fallbackTransitionTarget].
  split_and!; [done| |done|done|].
  - rewrite Hp. apply List.Forall_map, Forall_forall. intros r Hr.
    destruct (Hsound r Hr) as (_ & Hne & (c & Hc & Hm) & _).
    assert (He : entry jts rs c (r_destination r)) by (apply Hent; left; eauto).
    apply Hsem in He as [(r' & ? & _)%ts_step_elem _]; eauto.
  - intros c Hc. rewrite (select_entries _ c (x ← ts_step ts c; if decide (fb = Some x) then None else Some x)).
    + cbn [useFallbackTransition fallbackTransitionTarget]. rewrite Efb. unfold code_step.
      destruct (ts_step ts c) as [x|] eqn:E; simpl.
      * destruct (canUseFallback ts) eqn:Eu; simpl; [|done]. destruct (Hf eq_refl) as [-> _].
        repeat case_decide; repeat case_bool; repeat case_bool_decide; simpl; congruence.
      * destruct (canUseFallback ts) eqn:Eu; simpl; [|done].
        case_bool; simpl; [done|]. destruct (canUseFallback_total ts c) as [? ?]; [done|done|lia|congruence].
    + intros x. cbn [jumpTables ranges]. rewrite Hsem by done.
      clear -c x fb ts. destruct (ts_step ts c); simpl; [case_decide|]; intuition congruence.
Qed.
