(* ===== verification/CodeLayout.v ===== *)
(** * The layout of compiled code

    The compiler's byte vector, seen as a list of abstract instructions whose
    jumps name nodes.  [enc] gives the bytes of an instruction for any way of
    filling the jump fields; the unlinked code fills them with zeroes
    ([hole_zero]) and linking turns it into the code whose fields hold the
    distances ([hole_linked]): [link_code]. *)

From S2P Require Import Prelude DFA TransitionsCorrect Bytecode BytecodeCompiler BytecodeInterpreter.

(** * The fallback transition of a node (DFANode.cpp)

    [canUseFallbackTransition] decides whether every character of a URL has a
    transition, and [bestFallbackTarget] picks the target that most characters
    lead to, so that the code has the fewest explicit tests. *)

(** ** When a fallback can be used *)

Lemma fallback_loop_complete last ts :
  0 <= last < 127 -> sorted_from (last + 1) ts ->
  (forall c, last < c <= 127 -> is_Some (ts_step ts c)) -> fallback_loop last ts = true.
Proof.
  revert last. induction ts as [|[r t] ts IH]; intros last Hl Hs Hall; simpl in *.
  { destruct (Hall 127) as [? ?]; [lia|done]. }
  destruct Hs as (Hlo & Hr & Hhi & Hs).
  assert (range_first r = last + 1) as Hfirst.
  { destruct (Hall (last + 1)) as [x Hx]; [lia|]. unfold in_range in Hx.
    destruct (Z.leb_spec (range_first r) (last + 1)); [lia|]. simpl in Hx.
    rewrite (ts_step_below (range_last r + 1)) in Hx by (done || lia). done. }
  rewrite Hfirst, Z.eqb_refl. cbn [negb]. destruct (Z.eqb_spec (range_last r) 127); [done|].
  apply IH; [lia|done|]. intros c Hc. specialize (Hall c ltac:(lia)). unfold in_range in Hall.
  destruct (Z.leb_spec c (range_last r)); [lia|]. by rewrite andb_false_r in Hall.
Qed.

(** ** The best target *)

(** How many characters other than the terminator lead to [t]. *)
Definition range_chars (r : CharRange) : Z := range_last r - Z.max 1 (range_first r) + 1.

Fixpoint chars_to (ts : list transition) (t : Z) : Z :=
  match ts with
  | [] => 0
  | (r, t') :: ts => (if t' =? t then range_chars r else 0) + chars_to ts t
  end.

(** The histogram counts the characters seen, and the score is its maximum. *)
Record best_inv (W : Z -> Z) (lo : Z) (h : gmap Z Z) (best score : Z) : Prop := {
  bi_hist : forall t, default 0 (h !! t) = W t;
  bi_score : score = W best;
  bi_max : forall t, W t <= score;
  bi_range : forall t, 0 <= W t < lo
}.

Lemma best_loop_max ts : forall W lo h best score,
  best_inv W lo h best score -> 1 <= lo -> sorted_from lo ts ->
  forall t, W t + chars_to ts t
            <= W (best_loop h best score ts) + chars_to ts (best_loop h best score ts).
Proof.
  induction ts as [|[r t0] ts IH]; intros W lo h best score [Hh Hs Hm Hr] Hlo Hsorted t; simpl.
  { rewrite !Z.add_0_r. specialize (Hm t). lia. }
  simpl in Hsorted. destruct Hsorted as (? & ? & ? & Hsorted).
  assert (Hsize : CharRange_size r = range_chars r).
  { unfold CharRange_size, range_chars. rewrite u32_small by lia. lia. }
  set (value := match h !! t0 with Some v => _ | None => _ end).
  assert (Hv : value = W t0 + range_chars r).
  { unfold value. specialize (Hh t0). specialize (Hr t0). destruct (h !! t0) as [v|]; simpl in Hh; subst.
    - rewrite Hsize. apply u32_small. unfold range_chars. lia.
    - lia. }
  set (W' := fun t => W t + if t0 =? t then range_chars r else 0).
  assert (Hpos : 1 <= range_chars r) by (unfold range_chars; lia).
  assert (Hh' : forall t, default 0 (<[t0 := value]> h !! t) = W' t).
  { intros t'. unfold W'. destruct (Z.eqb_spec t0 t') as [->|].
    - rewrite lookup_insert_eq. done.
    - rewrite lookup_insert_ne by done. rewrite Hh. lia. }
  assert (Hr' : forall t, 0 <= W' t < range_last r + 1).
  { intros t'. unfold W', range_chars. specialize (Hr t'). destruct (t0 =? t'); lia. }
  enough (best_inv W' (range_last r + 1) (<[t0 := value]> h)
    (if score <? value then t0 else best) (if score <? value then value else score)) as Hinv.
  { specialize (IH W' _ _ _ _ Hinv ltac:(lia) Hsorted t). unfold W' in IH.
    destruct (score <? value); rewrite !Z.add_assoc; exact IH. }
  split; [done| | |done].
  - unfold W'. destruct (Z.ltb_spec score value).
    + rewrite Z.eqb_refl. lia.
    + destruct (Z.eqb_spec t0 best); subst; lia.
  - intros t'. unfold W'. specialize (Hm t'). destruct (Z.ltb_spec score value), (Z.eqb_spec t0 t'); subst; lia.
Qed.

Lemma best_start r t ts lo :
  sorted_from lo ((r, t) :: ts) -> 0 <= lo -> 1 <= range_chars r ->
  forall score, score = range_chars r ->
  forall t', chars_to ((r, t) :: ts) t' <= chars_to ((r, t) :: ts) (best_loop {[t := score]} t score ts).
Proof.
  intros Hs Hlo Hpos score -> t'. simpl in Hs. destruct Hs as (? & ? & ? & Hs). simpl.
  apply (best_loop_max ts (fun x => if t =? x then range_chars r else 0) (range_last r + 1)); [|lia|done].
  split.
  - intros x. destruct (Z.eqb_spec t x); subst; [by rewrite lookup_singleton_eq|by rewrite lookup_singleton_ne].
  - by rewrite Z.eqb_refl.
  - intros x. destruct (t =? x); lia.
  - intros x. unfold range_chars in *. destruct (t =? x); lia.
Qed.

(** ** The theorems *)

(** A node is given a fallback exactly when every character other than the
    terminator has a transition. *)
Theorem canUseFallback_iff ts :
  sorted_from 0 ts ->
  canUseFallback ts = true <-> forall c, 1 <= c <= 127 -> is_Some (ts_step ts c).
Proof.
  intros Hs. split; [intros Hf c Hc; by apply canUseFallback_total|].
  intros Hall. destruct ts as [|[r t] ts]; simpl in *; [by destruct (Hall 1); [lia|]|].
  destruct Hs as (Hlo & Hr & Hhi & Hs). destruct (Z.eqb_spec (range_first r) 0) as [E|Hne].
  - destruct (Z.eqb_spec (range_last r) 127); [done|]. apply fallback_loop_complete; [lia|done|].
    intros c Hc. specialize (Hall c ltac:(lia)). unfold in_range in Hall.
    destruct (Z.leb_spec c (range_last r)); [lia|]. by rewrite andb_false_r in Hall.
  - apply (fallback_loop_complete 0 ((r, t) :: ts)); [lia|simpl; split_and!; done || lia|].
    intros c Hc. apply Hall. lia.
Qed.

Lemma canUseFallback_iff_witness :
  canUseFallback [(mkCharRange 1 64, 3); (mkCharRange 65 127, 4)] = true
  <-> forall c, 1 <= c <= 127 -> is_Some (ts_step [(mkCharRange 1 64, 3); (mkCharRange 65 127, 4)] c).
Proof. apply canUseFallback_iff. simpl. lia. Defined.

(** The fallback target is one that most characters lead to, the
    terminator not counted. *)
Theorem bestFallback_optimal ts best :
  sorted_from 0 ts -> canUseFallback ts = true -> bestFallback ts = Some best ->
  forall t, chars_to ts t <= chars_to ts best.
Proof.
  intros Hs Hf Hbest t. destruct ts as [|[r t0] ts]; [done|]. unfold bestFallback in Hbest.
  pose proof Hs as Hs'. simpl in Hs. destruct Hs as (Hlo & Hr & Hhi & Hs).
  destruct ((range_first r =? 0) && (range_last r =? 0)) eqn:E; bprop.
  - destruct ts as [|[r1 t1] ts]; [done|]. injection Hbest as <-.
    assert (Hz : forall x, chars_to ((r, t0) :: (r1, t1) :: ts) x = chars_to ((r1, t1) :: ts) x).
    { intros x. simpl. unfold range_chars at 1. destruct (t0 =? x); lia. }
    rewrite !Hz. simpl in Hs. apply (best_start r1 t1 ts (range_last r + 1)); [done|lia|unfold range_chars; lia|].
    destruct (Z.eqb_spec (range_first r1) 0); [lia|]. unfold CharRange_size, range_chars. rewrite u32_small; lia.
  - injection Hbest as <-. apply (best_start r t0 ts 0); [done|lia|unfold range_chars; lia|].
    unfold CharRange_size, range_chars. destruct (Z.eqb_spec (range_first r) 0).
    + rewrite (u32_small (range_last r - range_first r + 1)) by lia. rewrite u32_small; lia.
    + rewrite u32_small; lia.
Qed.

Definition sample_transitions : list transition :=
  [(mkCharRange 0 0, 5); (mkCharRange 1 40, 3); (mkCharRange 41 100, 4); (mkCharRange 101 127, 3)].

Lemma bestFallback_optimal_witness : chars_to sample_transitions 4 <= chars_to sample_transitions 3.
Proof. apply bestFallback_optimal; [simpl; lia|reflexivity|reflexivity]. Defined.

(** ** Instructions *)

Inductive instr :=
| IAppend (action : Z)
| ICheck (caseSensitive : bool) (value dst : Z) (size : DFABytecodeJumpSize)
| ICheckRange (caseSensitive : bool) (low high dst : Z) (size : DFABytecodeJumpSize)
| ITable (caseSensitive : bool) (low high : Z) (dsts : list Z) (size : DFABytecodeJumpSize)
| IJump (dst : Z) (size : DFABytecodeJumpSize)
| ITerminate.

(** Does a signed field of this size hold the distance? *)
Definition fits (s : DFABytecodeJumpSize) (x : Z) : Prop :=
  match s with
  | Int8 => -128 <= x < 128
  | Int16 => -32768 <= x < 32768
  | Int24 => -8388608 <= x < 8388608
  | Int32 => -2147483648 <= x < 2147483648
  end.

(** The jump fields of an instruction: offset in it, destination, size. *)
Fixpoint table_fields (at_ : Z) (s : DFABytecodeJumpSize) (dsts : list Z)
    : list (Z * Z * DFABytecodeJumpSize) :=
  match dsts with
  | [] => []
  | d :: dsts => (at_, d, s) :: table_fields (at_ + jumpSizeInBytes s) s dsts
  end.

Definition fields (i : instr) : list (Z * Z * DFABytecodeJumpSize) :=
  match i with
  | IAppend _ | ITerminate => []
  | ICheck _ _ d s => [(2, d, s)]
  | ICheckRange _ _ _ d s => [(3, d, s)]
  | ITable _ _ _ ds s => table_fields 3 s ds
  | IJump d s => [(1, d, s)]
  end.

Definition action_instruction (action : Z) : DFABytecodeInstruction :=
  if negb (Z.land action ActionFlagMask =? 0) then
    if negb (Z.land action IfDomainFlag =? 0) then TestFlagsAndAppendActionWithIfDomain
    else TestFlagsAndAppendAction
  else if negb (Z.land action IfDomainFlag =? 0) then AppendActionWithIfDomain
  else AppendAction.

Definition op_byte (i : DFABytecodeInstruction) (s : DFABytecodeJumpSize) : Z :=
  Z.lor (instruction_code i) (jumpSize_code s).

Definition check_op (cs : bool) :=
  if cs then CheckValueCaseSensitive else CheckValueCaseInsensitive.
Definition range_op (cs : bool) :=
  if cs then CheckValueRangeCaseSensitive else CheckValueRangeCaseInsensitive.
Definition table_op (cs : bool) :=
  if cs then JumpTableCaseSensitive else JumpTableCaseInsensitive.

Section Layout.
Context `{Host}.

(** The bytes of the jump field of an instruction at [pos]. *)
Definition hole := Z -> Z -> DFABytecodeJumpSize -> list Z.

(** The part of an instruction before its jump fields. *)
Definition enc_head (i : instr) : list Z :=
  match i with
  | IAppend a =>
      to_bytes 1 (instruction_code (action_instruction a))
      ++ (if negb (Z.land a ActionFlagMask =? 0) then to_bytes 2 (u16 (Z.shiftr a 32)) else [])
      ++ to_bytes 4 (u32 a)
  | ICheck cs v _ s => to_bytes 1 (op_byte (check_op cs) s) ++ to_bytes 1 v
  | ICheckRange cs l h _ s => to_bytes 1 (op_byte (range_op cs) s) ++ to_bytes 1 l ++ to_bytes 1 h
  | ITable cs l h _ s => to_bytes 1 (op_byte (table_op cs) s) ++ to_bytes 1 l ++ to_bytes 1 h
  | IJump _ s => to_bytes 1 (op_byte Jump s)
  | ITerminate => to_bytes 1 (instruction_code Terminate)
  end.

Definition enc (h : hole) (pos : Z) (i : instr) : list Z :=
  enc_head i ++ concat (map (fun f => h pos (snd (fst f)) (snd f)) (fields i)).

Definition isize (i : instr) : Z :=
  vlen (enc_head i) + foldr Z.add 0 (map (fun f => jumpSizeInBytes (snd f)) (fields i)).

Fixpoint enc_list (h : hole) (pos : Z) (l : list instr) : list Z :=
  match l with
  | [] => []
  | i :: l => enc h pos i ++ enc_list h (pos + isize i) l
  end.

Fixpoint size_list (l : list instr) : Z :=
  match l with [] => 0 | i :: l => isize i + size_list l end.

Definition zeroes (s : DFABytecodeJumpSize) : list Z :=
  match s with
  | Int8 => to_bytes 1 0
  | Int16 => to_bytes 2 0
  | Int24 => to_bytes 2 0 ++ to_bytes 1 0
  | Int32 => to_bytes 4 0
  end.

Definition hole_zero : hole := fun _ _ s => zeroes s.

(** A distance in its field. *)
Definition distance_bytes (s : DFABytecodeJumpSize) (x : Z) : list Z :=
  match s with
  | Int8 => to_bytes 1 (s8 x)
  | Int16 => to_bytes 2 (s16 x)
  | Int24 => to_bytes 2 (u16 x) ++ to_bytes 1 (s8 (Z.shiftr x 16))
  | Int32 => to_bytes 4 x
  end.

Definition offset_of (offs : list Z) (dst : Z) : Z := default 0 (offs.[dst]).

Definition hole_linked (offs : list Z) : hole :=
  fun pos d s => distance_bytes s (offset_of offs d - pos).

(** What a link record says, its estimate aside. *)
Definition record_key (lr : LinkRecord) : DFABytecodeJumpSize * Z * Z * Z :=
  (lr_jumpSize lr, lr_instructionLocation lr, lr_jumpLocation lr, lr_destinationNodeIndex lr).

Definition instr_keys (pos : Z) (i : instr) : list (DFABytecodeJumpSize * Z * Z * Z) :=
  map (fun f => (snd f, pos, pos + fst (fst f), snd (fst f))) (fields i).

Fixpoint keys (pos : Z) (l : list instr) : list (DFABytecodeJumpSize * Z * Z * Z) :=
  match l with
  | [] => []
  | i :: l => instr_keys pos i ++ keys (pos + isize i) l
  end.

(** ** Sizes *)

Definition hole_sized (h : hole) : Prop := forall p d s, vlen (h p d s) = jumpSizeInBytes s.

Lemma zeroes_length s : vlen (zeroes s) = jumpSizeInBytes s.
Proof. destruct s; simpl; rewrite ?length_app, !to_bytes_length; done. Qed.

Lemma hole_zero_sized : hole_sized hole_zero.
Proof. intros p d s. apply zeroes_length. Qed.

Lemma distance_bytes_length s x : vlen (distance_bytes s x) = jumpSizeInBytes s.
Proof. destruct s; simpl; rewrite ?length_app, !to_bytes_length; done. Qed.

Lemma hole_linked_sized offs : hole_sized (hole_linked offs).
Proof. intros p d s. apply distance_bytes_length. Qed.

Lemma fields_bytes_length h (fs : list (Z * Z * DFABytecodeJumpSize)) pos :
  hole_sized h ->
  vlen (concat (map (fun f => h pos (snd (fst f)) (snd f)) fs))
  = foldr Z.add 0 (map (fun f => jumpSizeInBytes (snd f)) fs).
Proof.
  intros Hh. induction fs as [|f fs IH]; simpl; [done|].
  rewrite length_app, Nat2Z.inj_add, IH, Hh. done.
Qed.

Lemma enc_length h pos i : hole_sized h -> vlen (enc h pos i) = isize i.
Proof.
  intros Hh. unfold enc, isize. rewrite length_app, Nat2Z.inj_add, fields_bytes_length; done.
Qed.

Lemma enc_list_length h pos l : hole_sized h -> vlen (enc_list h pos l) = size_list l.
Proof.
  intros Hh. revert pos. induction l as [|i l IH]; intros pos; simpl; [done|].
  rewrite length_app, Nat2Z.inj_add, enc_length, IH; done.
Qed.

Lemma size_list_app l1 l2 : size_list (l1 ++ l2) = size_list l1 + size_list l2.
Proof. induction l1; simpl; lia. Qed.

Lemma enc_list_app h pos l1 l2 :
  enc_list h pos (l1 ++ l2) = enc_list h pos l1 ++ enc_list h (pos + size_list l1) l2.
Proof.
  revert pos. induction l1 as [|i l1 IH]; intros pos; simpl.
  - by rewrite Z.add_0_r.
  - rewrite IH, <- (assoc_L (++)). do 2 f_equal. f_equal. lia.
Qed.

Lemma keys_app pos l1 l2 : keys pos (l1 ++ l2) = keys pos l1 ++ keys (pos + size_list l1) l2.
Proof.
  revert pos. induction l1 as [|i l1 IH]; intros pos; simpl.
  - by rewrite Z.add_0_r.
  - rewrite IH, <- (assoc_L (++)). do 2 f_equal. f_equal. lia.
Qed.

Lemma isize_pos i : 1 <= isize i.
Proof.
  unfold isize. assert (0 <= foldr Z.add 0 (map (fun f => jumpSizeInBytes (snd f)) (fields i))).
  { induction (fields i) as [|[? []] ? IH]; simpl in *; lia. }
  assert (1 <= vlen (enc_head i)); [|lia].
  destruct i; simpl; rewrite ?length_app, !to_bytes_length; lia.
Qed.

Lemma size_list_nonneg l : 0 <= size_list l.
Proof. induction l as [|i l IH]; simpl; [done|]. pose proof (isize_pos i). lia. Qed.

(** ** Linking *)

(** The destination of a field is known and the field can hold the distance. *)
Definition field_ok (offs : list Z) (pos d : Z) (s : DFABytecodeJumpSize) : Prop :=
  exists o, offs.[d] = Some o /\ 0 <= o < 2 ^ 30 /\ fits s (o - pos).

Lemma record_key_inv lr s pos jl d :
  record_key lr = (s, pos, jl, d) ->
  lr_jumpSize lr = s /\ lr_instructionLocation lr = pos /\ lr_jumpLocation lr = jl
  /\ lr_destinationNodeIndex lr = d.
Proof. unfold record_key. by intros [= <- <- <- <-]. Qed.

Lemma s32_distance o pos : 0 <= o < 2 ^ 30 -> 0 <= pos < 2 ^ 30 -> s32 (u32 (o - pos)) = o - pos.
Proof. intros. rewrite swrap_uwrap by lia. apply s32_small. lia. Qed.

Lemma setBits_field n pre old v post :
  length old = n -> setBits n (pre ++ old ++ post) (vlen pre) v = Some (pre ++ to_bytes n v ++ post).
Proof. apply store_field. Qed.

(** One link record replaces one field of zeroes by its distance. *)
Lemma link_one_field offs pre post lr s pos d :
  record_key lr = (s, pos, vlen pre, d) -> 0 <= pos < 2 ^ 30 -> vlen pre < 2 ^ 30 ->
  field_ok offs pos d s ->
  link_one offs (pre ++ zeroes s ++ post) lr = Some (pre ++ hole_linked offs pos d s ++ post).
Proof.
  intros (<- & <- & Hjl & Hd)%record_key_inv Hpos Hpre (o & Ho & Hor & Hfits).
  unfold link_one, hole_linked, offset_of. rewrite Hd, Ho, Hjl. simpl default. rewrite option_bind_Some.
  destruct (Z.ltb_spec o int32_max); [|unfold int32_max in *; lia]. simpl negb. cbv iota.
  rewrite s32_distance by done. set (x := o - _) in *. clearbody x.
  destruct (lr_jumpSize lr); simpl in Hfits |- *.
  - rewrite (s8_small x) by lia. rewrite Z.eqb_refl. simpl.
    apply setBits_field, to_bytes_length.
  - rewrite (s16_small x) by lia. rewrite Z.eqb_refl. simpl.
    apply setBits_field, to_bytes_length.
  - change Int24Min with (-8388608). change Int24Max with 8388607.
    destruct (Z.leb_spec (-8388608) x); [|lia]. destruct (Z.leb_spec x 8388607); [|lia].
    cbn [andb negb]. rewrite <- (assoc_L (++)), setBits_field by apply to_bytes_length.
    rewrite option_bind_Some. rewrite u32_small by lia.
    rewrite (assoc_L (++) pre). replace (vlen pre + 2) with (vlen (pre ++ to_bytes 2 (u16 x))).
    + rewrite setBits_field by apply to_bytes_length. by rewrite <- !(assoc_L (++)).
    + rewrite length_app, to_bytes_length. lia.
  - apply setBits_field, to_bytes_length.
Qed.

(** The fields of an instruction follow its head without gaps. *)
Fixpoint consecutive (at_ : Z) (fs : list (Z * Z * DFABytecodeJumpSize)) : Prop :=
  match fs with
  | [] => True
  | f :: fs => fst (fst f) = at_ /\ consecutive (at_ + jumpSizeInBytes (snd f)) fs
  end.

Lemma table_fields_consecutive at_ s dsts : consecutive at_ (table_fields at_ s dsts).
Proof. revert at_. induction dsts; intros; simpl; auto. Qed.

Lemma fields_consecutive i : consecutive (vlen (enc_head i)) (fields i).
Proof.
  destruct i; simpl; rewrite ?length_app, ?to_bytes_length; simpl; auto.
  apply table_fields_consecutive.
Qed.

Definition fields_ok (offs : list Z) (pos : Z) (fs : list (Z * Z * DFABytecodeJumpSize)) : Prop :=
  Forall (fun f => field_ok offs pos (snd (fst f)) (snd f)) fs.

Lemma link_fields offs pos fs lrs pre post :
  consecutive (vlen pre - pos) fs ->
  map record_key lrs = map (fun f => (snd f, pos, pos + fst (fst f), snd (fst f))) fs ->
  0 <= pos < 2 ^ 30 ->
  vlen pre + foldr Z.add 0 (map (fun f => jumpSizeInBytes (snd f)) fs) < 2 ^ 30 ->
  fields_ok offs pos fs ->
  link offs (pre ++ concat (map (fun f => hole_zero pos (snd (fst f)) (snd f)) fs) ++ post) lrs
  = Some (pre ++ concat (map (fun f => hole_linked offs pos (snd (fst f)) (snd f)) fs) ++ post).
Proof.
  revert lrs pre. induction fs as [|[[a d] s] fs IH]; intros [|lr lrs] pre Hc Hk Hpos Hb Hok;
    simpl in Hk; try done.
  injection Hk as Hk1 Hk2 Hk3 Hk4 Hk. destruct Hc as [Ha Hc]. simpl in Ha, Hc, Hb.
  apply Forall_cons in Hok as [Hf Hok]. simpl in Hf.
  assert (0 <= foldr Z.add 0 (map (fun f : Z * Z * DFABytecodeJumpSize => jumpSizeInBytes (snd f)) fs)).
  { clear. induction fs as [|[? []] ? IH]; simpl in *; lia. }
  assert (1 <= jumpSizeInBytes s) by (destruct s; simpl; lia).
  cbn [link map concat fst snd]. rewrite <- (assoc_L (++)).
  change (hole_zero pos d s) with (zeroes s).
  rewrite (link_one_field offs pre _ lr s pos d); [|unfold record_key; rewrite Hk1, Hk2, Hk3, Hk4; do 2 f_equal; lia|done|lia|done].
  rewrite option_bind_Some, (assoc_L (++) pre).
  rewrite IH; [by rewrite <- !(assoc_L (++))| |done|done| |done];
    rewrite length_app, Nat2Z.inj_add, (hole_linked_sized offs).
  - by replace (vlen pre + jumpSizeInBytes s - pos) with (vlen pre - pos + jumpSizeInBytes s) by lia.
  - lia.
Qed.

Lemma link_app offs bc l1 l2 : link offs bc (l1 ++ l2) = (bc' ← link offs bc l1; link offs bc' l2).
Proof.
  revert bc. induction l1 as [|lr l1 IH]; intros bc; simpl; [done|].
  destruct (link_one offs bc lr); simpl; [apply IH|done].
Qed.

(** A property of every jump: position of its instruction, destination, size. *)
Fixpoint code_all (P : Z -> Z -> DFABytecodeJumpSize -> Prop) (pos : Z) (l : list instr) : Prop :=
  match l with
  | [] => True
  | i :: l => Forall (fun f => P pos (snd (fst f)) (snd f)) (fields i) /\ code_all P (pos + isize i) l
  end.

Lemma code_all_app P pos l1 l2 :
  code_all P pos (l1 ++ l2) <-> code_all P pos l1 /\ code_all P (pos + size_list l1) l2.
Proof.
  revert pos. induction l1 as [|i l1 IH]; intros pos; simpl.
  - rewrite Z.add_0_r. tauto.
  - rewrite IH, Z.add_assoc. tauto.
Qed.

Lemma code_all_impl (P Q : Z -> Z -> DFABytecodeJumpSize -> Prop) pos l :
  (forall p d s, pos <= p < pos + size_list l -> P p d s -> Q p d s) ->
  code_all P pos l -> code_all Q pos l.
Proof.
  revert pos. induction l as [|i l IH]; intros pos HPQ; simpl in *; [done|].
  pose proof (isize_pos i). pose proof (size_list_nonneg l). intros [Hi Hl]. split.
  - eapply Forall_impl; [exact Hi|]. intros f. apply HPQ. lia.
  - apply IH; [|done]. intros p d s Hp. apply HPQ. lia.
Qed.

Definition code_ok (offs : list Z) : Z -> list instr -> Prop := code_all (field_ok offs).

(** Linking fills in every jump and changes nothing else. *)
Lemma link_code offs l lrs pre post :
  map record_key lrs = keys (vlen pre) l -> vlen pre + size_list l < 2 ^ 30 ->
  code_ok offs (vlen pre) l ->
  link offs (pre ++ enc_list hole_zero (vlen pre) l ++ post) lrs
  = Some (pre ++ enc_list (hole_linked offs) (vlen pre) l ++ post).
Proof.
  revert lrs pre. induction l as [|i l IH]; intros lrs pre Hk Hb Hok.
  { apply fmap_nil_inv in Hk as ->. done. }
  simpl in Hk, Hb, Hok. destruct Hok as [Hf Hok].
  apply fmap_app_inv in Hk as (l1 & l2 & Hk1 & Hk2 & ->).
  pose proof (isize_pos i). pose proof (size_list_nonneg l).
  rewrite link_app. cbn [enc_list]. unfold enc at 1.
  rewrite <- !(assoc_L (++)), (assoc_L (++) pre).
  rewrite (link_fields offs (vlen pre) (fields i));
    [|rewrite length_app|done|lia|rewrite length_app; unfold isize in Hb|done].
  - rewrite option_bind_Some.
    rewrite <- (assoc_L (++) pre), (assoc_L (++) (enc_head i)).
    change (enc_head i ++ _) with (enc (hole_linked offs) (vlen pre) i).
    assert (Hl : vlen pre + isize i = vlen (pre ++ enc (hole_linked offs) (vlen pre) i)).
    { rewrite length_app, Nat2Z.inj_add, enc_length; [done|apply hole_linked_sized]. }
    rewrite (assoc_L (++) pre), Hl, IH; [|by rewrite <- Hl|lia|by rewrite <- Hl].
    rewrite <- Hl. cbn [enc_list]. by rewrite <- !(assoc_L (++)).
  - rewrite Nat2Z.inj_add. replace (vlen pre + vlen (enc_head i) - vlen pre) with (vlen (enc_head i)) by lia.
    apply fields_consecutive.
  - lia.
Qed.
End Layout.
