(* ===== verification/CompilerCorrect.v ===== *)
(** * The emitters of the compiler

    What each emitting function of [DFABytecodeCompiler] appends, as abstract
    instructions ([emits]), and that the jump size it chooses is large enough
    for every distance the estimate allows ([field_good]); composed up to the
    code of all the transitions of a node, [compileNodeTransitions_spec]. *)

From S2P Require Import Prelude DFA Bytecode BytecodeCompiler BytecodeInterpreter TransitionsCorrect CodeLayout.

(** ** The code of a node, jump sizes aside *)

Definition erase (i : instr) : instr :=
  match i with
  | IAppend a => IAppend a
  | ICheck cs v d _ => ICheck cs v d Int8
  | ICheckRange cs l h d _ => ICheckRange cs l h d Int8
  | ITable cs l h ds _ => ITable cs l h ds Int8
  | IJump d _ => IJump d Int8
  | ITerminate => ITerminate
  end.

Definition table_instr (jt : JumpTable) : instr :=
  ITable (jt_caseSensitive jt) (jt_min jt) (jt_max jt) (jt_destinations jt) Int8.

Definition range_instr (r : Range) : instr :=
  if r_min r =? r_max r
  then ICheck (r_caseSensitive r) (r_min r) (r_destination r) Int8
  else ICheckRange (r_caseSensitive r) (r_min r) (r_max r) (r_destination r) Int8.

Definition final_instr (t : Transitions) : instr :=
  if useFallbackTransition t then IJump (fallbackTransitionTarget t) Int8 else ITerminate.

Definition node_instrs (t : Transitions) : list instr :=
  map table_instr (jumpTables t) ++ map range_instr (ranges t) ++ [final_instr t].

(** The destinations an instruction may jump to. *)
Definition dests (i : instr) : list Z := map (fun f => snd (fst f)) (fields i).

(** ** Worst-case sizes, without wrap-around *)

Definition actions_size (acts : list Z) : Z := foldl (fun s a => s + appendActionBytecodeSize a) 0 acts.

Definition node_worst (dfa : DFA) (n : DFANode) : option Z :=
  if isKilled n then Some 0 else
  acts ← node_actions dfa n; t ← transitions dfa n; Some (actions_size acts + transitionsMaxSize t).

Definition worst_case_size (dfa : DFA) : option Z :=
  sizes ← mapM (node_worst dfa) (dfa_nodes dfa); Some (4 + foldr Z.add 0 sizes).

(** ** Emitting one instruction *)

Section Emit.
Context `{Host}.

(** [st'] is [st] with the unlinked code [l] appended. *)
Record emits (st : Compiler) (l : list instr) (st' : Compiler) : Prop := {
  emits_bc : m_bytecode st' = m_bytecode st ++ enc_list hole_zero (vlen (m_bytecode st)) l;
  emits_keys : map record_key (m_linkRecords st')
               = map record_key (m_linkRecords st) ++ keys (vlen (m_bytecode st)) l;
  emits_max : m_maxNodeStartOffsets st' = m_maxNodeStartOffsets st;
  emits_start : m_nodeStartOffsets st' = m_nodeStartOffsets st
}.

Lemma emits_nil st : emits st [] st.
Proof. split; simpl; by rewrite ?app_nil_r. Qed.

Lemma emits_length st l st' : emits st l st' -> vlen (m_bytecode st') = vlen (m_bytecode st) + size_list l.
Proof.
  intros []. rewrite emits_bc0, length_app, Nat2Z.inj_add, enc_list_length; [done|].
  apply hole_zero_sized.
Qed.

Lemma emits_app st1 l1 st2 l2 st3 : emits st1 l1 st2 -> emits st2 l2 st3 -> emits st1 (l1 ++ l2) st3.
Proof.
  intros H1 H2. pose proof (emits_length _ _ _ H1) as Hl. destruct H1, H2.
  split; [| |congruence|congruence].
  - rewrite emits_bc1, emits_bc0 at 1. by rewrite Hl, enc_list_app, (assoc_L (++)).
  - rewrite emits_keys1, emits_keys0, Hl, keys_app. by rewrite (assoc_L (++)).
Qed.

(** The state an append-only emitter produces, field by field. *)
Lemma appendZeroes_eq st s : appendZeroes st s = with_bytecode st (m_bytecode st ++ zeroes s).
Proof.
  destruct s; simpl; try done. unfold append, with_bytecode. simpl. by rewrite <- (assoc_L (++)).
Qed.

(** What the estimate knows about one jump from node [src] at [pos]: the
    destination is placed, or any distance up to the estimate fits. *)
Definition field_good (maxs offs : list Z) (src pos d : Z) (s : DFABytecodeJumpSize) : Prop :=
  exists o, offs.[d] = Some o /\
    ((o <> uint32_max /\ fits s (o - pos))
     \/ (o = uint32_max /\ exists md ms os,
           maxs.[d] = Some md /\ maxs.[src] = Some ms /\ offs.[src] = Some os
           /\ forall x, 0 <= x <= md - ms - (os - pos) -> fits s x)).

Definition code_good (maxs offs : list Z) (src : Z) : Z -> list instr -> Prop :=
  code_all (field_good maxs offs src).

Lemma smallest_fits x : -2147483648 <= x < 2147483648 -> fits (smallestPossibleJumpSize x) x.
Proof.
  unfold smallestPossibleJumpSize. change Int24Min with (-8388608). change Int24Max with 8388607.
  intros. bool_cases; simpl; lia.
Qed.

Lemma fits_between s L x : fits s L -> 0 <= x <= L -> fits s x.
Proof. destruct s; simpl; lia. Qed.

Lemma fits_max_l s1 s2 x : fits s1 x -> fits (jumpSize_max s1 s2) x.
Proof. destruct s1, s2; simpl; lia. Qed.

Lemma fits_max_r s1 s2 x : fits s2 x -> fits (jumpSize_max s1 s2) x.
Proof. destruct s1, s2; simpl; lia. Qed.

Lemma field_good_mono maxs offs src pos d s s' :
  (forall x, fits s x -> fits s' x) ->
  field_good maxs offs src pos d s -> field_good maxs offs src pos d s'.
Proof.
  intros Hs (o & Ho & [[? ?]|(? & md & ms & os & ? & ? & ? & Hf)]); exists o; (split; [done|]).
  - left. auto.
  - right. split; [done|]. exists md, ms, os. split_and!; auto.
Qed.

(** Offsets are unset or small. *)
Definition offsets_small (offs : list Z) : Prop :=
  Forall (fun o => o = uint32_max \/ 0 <= o < 2 ^ 30) offs.

Record ready (st : Compiler) (src : Z) : Prop := {
  ready_len : length (m_maxNodeStartOffsets st) = length (m_nodeStartOffsets st);
  ready_max : Forall (fun m => 0 <= m < 2 ^ 30) (m_maxNodeStartOffsets st);
  ready_offs : offsets_small (m_nodeStartOffsets st);
  ready_src : exists os, (m_nodeStartOffsets st).[src] = Some os /\ 0 <= os <= vlen (m_bytecode st)
                         /\ os < 2 ^ 30
}.

Lemma vec_at_Forall {A} (P : A -> Prop) v i x : Forall P v -> v.[i] = Some x -> P x.
Proof. intros Hv [_ Hx]%vec_at_Some. by eapply Forall_lookup_1. Qed.

(** The jump size the compiler picks is large enough. *)
Lemma longestPossibleJump_good st src d pos :
  ready st src -> 0 <= d < vlen (m_nodeStartOffsets st) -> vlen (m_bytecode st) <= pos < 2 ^ 30 ->
  exists L, longestPossibleJump st pos src d = Some L /\
    field_good (m_maxNodeStartOffsets st) (m_nodeStartOffsets st) src pos d (smallestPossibleJumpSize L).
Proof.
  intros [Hlen Hmax Hoffs (os & Hos & Hos1 & Hos2)] Hd Hpos. unfold longestPossibleJump.
  destruct (vec_at_is_Some (m_nodeStartOffsets st) d Hd) as [o Ho].
  rewrite Ho, option_bind_Some.
  destruct (Z.eqb_spec o uint32_max) as [->|Hne].
  - destruct (vec_at_is_Some (m_maxNodeStartOffsets st) d) as [md Hmd]; [lia|].
    destruct (vec_at_is_Some (m_maxNodeStartOffsets st) src) as [ms Hms].
    { apply vec_at_lt in Hos. lia. }
    rewrite Hmd, Hms, Hos, !option_bind_Some.
    pose proof (vec_at_Forall _ _ _ _ Hmax Hmd). pose proof (vec_at_Forall _ _ _ _ Hmax Hms).
    simpl in *. rewrite swrap_uwrap, s32_small by lia.
    eexists. split; [done|]. exists uint32_max. split; [done|]. right. split; [done|].
    exists md, ms, os. split_and!; try done. intros x Hx.
    eapply fits_between; [apply smallest_fits; lia|done].
  - pose proof (vec_at_Forall _ _ _ _ Hoffs Ho) as [?|?]; [done|].
    rewrite swrap_uwrap, s32_small by lia. eexists. split; [done|].
    exists o. split; [done|]. left. split; [done|]. apply smallest_fits. lia.
Qed.

(** ** The emitters *)

(** The jump fields of [i], emitted at [pos] for node [src], are good. *)
Definition instr_good (st : Compiler) (src pos : Z) (i : instr) : Prop :=
  Forall (fun f => field_good (m_maxNodeStartOffsets st) (m_nodeStartOffsets st) src pos
                     (snd (fst f)) (snd f)) (fields i).

Lemma keys_single pos i : keys pos [i] = instr_keys pos i.
Proof. simpl. by rewrite app_nil_r. Qed.

Lemma enc_list_single h pos i : enc_list h pos [i] = enc h pos i.
Proof. simpl. by rewrite app_nil_r. Qed.

Ltac emit_simpl :=
  split; rewrite ?enc_list_single, ?keys_single, ?appendZeroes_eq; unfold append, with_bytecode, add_link;
  cbn [m_bytecode m_linkRecords m_maxNodeStartOffsets m_nodeStartOffsets]; try done;
  [unfold enc; simpl; rewrite ?app_nil_r, <- ?(assoc_L (++)); done
  |rewrite map_app; unfold instr_keys; simpl; unfold record_key; simpl; rewrite ?u32_small by lia; done].

Lemma emitJump_spec st src d :
  ready st src -> 0 <= d < vlen (m_nodeStartOffsets st) -> vlen (m_bytecode st) + 5 < 2 ^ 30 ->
  exists s st', emitJump st src d = Some st' /\ emits st [IJump d s] st'
    /\ instr_good st src (vlen (m_bytecode st)) (IJump d s).
Proof.
  intros Hr Hd Hb. destruct (longestPossibleJump_good st src d (vlen (m_bytecode st)) Hr Hd)
    as (L & HL & Hg); [lia|]. unfold emitJump. rewrite !u32_small by lia.
  rewrite HL, option_bind_Some. eexists _, _. split_and!; [reflexivity| |by apply Forall_singleton].
  emit_simpl.
Qed.

Lemma emitCheckValue_spec st v src d cs :
  ready st src -> 0 <= d < vlen (m_nodeStartOffsets st) -> vlen (m_bytecode st) + 6 < 2 ^ 30 ->
  exists s st', emitCheckValue st v src d cs = Some st' /\ emits st [ICheck cs v d s] st'
    /\ instr_good st src (vlen (m_bytecode st)) (ICheck cs v d s).
Proof.
  intros Hr Hd Hb. destruct (longestPossibleJump_good st src d (vlen (m_bytecode st)) Hr Hd)
    as (L & HL & Hg); [lia|]. unfold emitCheckValue. rewrite !u32_small by lia.
  rewrite HL, option_bind_Some. eexists _, _. split_and!; [reflexivity| |by apply Forall_singleton].
  emit_simpl.
Qed.

Lemma emitCheckValueRange_spec st l h src d cs :
  ready st src -> 0 <= d < vlen (m_nodeStartOffsets st) -> vlen (m_bytecode st) + 7 < 2 ^ 30 ->
  exists s st', emitCheckValueRange st l h src d cs = Some st' /\ emits st [ICheckRange cs l h d s] st'
    /\ instr_good st src (vlen (m_bytecode st)) (ICheckRange cs l h d s).
Proof.
  intros Hr Hd Hb. destruct (longestPossibleJump_good st src d (vlen (m_bytecode st)) Hr Hd)
    as (L & HL & Hg); [lia|]. unfold emitCheckValueRange. rewrite !u32_small by lia.
  rewrite HL, option_bind_Some. eexists _, _. split_and!; [reflexivity| |by apply Forall_singleton].
  emit_simpl.
Qed.

(** Same offset vectors, same estimates. *)
Definition same_offsets (st st' : Compiler) : Prop :=
  m_maxNodeStartOffsets st' = m_maxNodeStartOffsets st
  /\ m_nodeStartOffsets st' = m_nodeStartOffsets st.

Lemma longestPossibleJump_same st st' pos src d :
  same_offsets st st' -> longestPossibleJump st' pos src d = longestPossibleJump st pos src d.
Proof. intros [Hm Hs]. unfold longestPossibleJump. by rewrite Hm, Hs. Qed.

Lemma tableJumpSize_spec st src pos s0 ds :
  ready st src -> Forall (fun d => 0 <= d < vlen (m_nodeStartOffsets st)) ds ->
  vlen (m_bytecode st) <= pos < 2 ^ 30 ->
  exists s, tableJumpSize st pos src s0 ds = Some s /\ (forall x, fits s0 x -> fits s x)
    /\ Forall (fun d => field_good (m_maxNodeStartOffsets st) (m_nodeStartOffsets st) src pos d s) ds.
Proof.
  intros Hr Hds Hpos. revert s0. induction Hds as [|d ds Hd Hds IH]; intros s0; simpl.
  { exists s0. split_and!; done. }
  destruct (longestPossibleJump_good st src d pos Hr Hd Hpos) as (L & -> & Hg). rewrite option_bind_Some.
  destruct (IH (jumpSize_max s0 (smallestPossibleJumpSize L))) as (s & -> & Hs & Hall).
  exists s. split_and!; [done| |].
  - intros x Hx. apply Hs, fits_max_l, Hx.
  - constructor; [|done]. eapply field_good_mono; [|exact Hg]. intros x Hx. apply Hs, fits_max_r, Hx.
Qed.

Lemma emitTableEntries_spec st0 st iloc src s ds :
  same_offsets st0 st -> Forall (fun d => is_Some (longestPossibleJump st0 iloc src d)) ds ->
  iloc <= vlen (m_bytecode st) -> vlen (m_bytecode st) + 4 * vlen ds < 2 ^ 30 ->
  exists st', emitTableEntries st iloc src s ds = Some st' /\ same_offsets st0 st'
    /\ m_bytecode st' = m_bytecode st ++ concat (map (fun f => hole_zero iloc (snd (fst f)) (snd f))
                          (table_fields (vlen (m_bytecode st) - iloc) s ds))
    /\ map record_key (m_linkRecords st') = map record_key (m_linkRecords st)
         ++ map (fun f => (snd f, iloc, iloc + fst (fst f), snd (fst f)))
              (table_fields (vlen (m_bytecode st) - iloc) s ds).
Proof.
  revert st. induction ds as [|d ds IH]; intros st Hsame Hds Hi Hb; simpl.
  { exists st. rewrite !app_nil_r. done. }
  apply Forall_cons in Hds as [[L HL] Hds].
  rewrite (longestPossibleJump_same st0), HL, option_bind_Some by done.
  rewrite appendZeroes_eq. set (st1 := with_bytecode _ _).
  assert (Hl1 : vlen (m_bytecode st1) = vlen (m_bytecode st) + jumpSizeInBytes s).
  { unfold st1. simpl. rewrite length_app, Nat2Z.inj_add, zeroes_length. done. }
  assert (1 <= jumpSizeInBytes s <= 4) by (destruct s; simpl; lia). simpl in Hb.
  destruct (IH st1) as (st' & -> & Hsame' & Hbc & Hk); [done|done|lia|lia|].
  exists st'. split_and!; [done|done| |].
  - rewrite Hbc, Hl1. unfold st1 at 1. simpl. rewrite <- (assoc_L (++)). do 4 f_equal. f_equal. lia.
  - rewrite Hk, Hl1. unfold st1 at 1. simpl. rewrite map_app, <- (assoc_L (++)). simpl.
    unfold record_key at 2. simpl. rewrite u32_small by lia. repeat f_equal; lia.
Qed.

Lemma compileJumpTable_spec st src jt :
  ready st src -> Forall (fun d => 0 <= d < vlen (m_nodeStartOffsets st)) (jt_destinations jt) ->
  vlen (m_bytecode st) + 3 + 4 * vlen (jt_destinations jt) < 2 ^ 30 ->
  exists i st', compileJumpTable st src jt = Some st' /\ emits st [i] st'
    /\ erase i = table_instr jt /\ instr_good st src (vlen (m_bytecode st)) i.
Proof.
  intros Hr Hds Hb. unfold compileJumpTable. rewrite u32_small by lia.
  destruct (tableJumpSize_spec st src (vlen (m_bytecode st)) Int8 (jt_destinations jt))
    as (s & -> & _ & Hgood); [done|done|lia|]. rewrite option_bind_Some.
  set (st3 := append 1 _ (jt_max jt)).
  assert (Hl3 : vlen (m_bytecode st3) = vlen (m_bytecode st) + 3).
  { unfold st3, append, with_bytecode. simpl. rewrite !length_app, !to_bytes_length. lia. }
  destruct (emitTableEntries_spec st st3 (vlen (m_bytecode st)) src s (jt_destinations jt))
    as (st' & -> & [Hm Hs] & Hbc & Hk); [done| |lia|lia|].
  { eapply Forall_impl; [exact Hds|]. intros d Hd.
    destruct (longestPossibleJump_good st src d (vlen (m_bytecode st)) Hr Hd) as (L & -> & _); [lia|done]. }
  rewrite Hl3 in Hbc, Hk. replace (vlen (m_bytecode st) + 3 - vlen (m_bytecode st)) with 3 in Hbc, Hk by lia.
  exists (ITable (jt_caseSensitive jt) (jt_min jt) (jt_max jt) (jt_destinations jt) s), st'.
  split_and!; [done| |done|].
  - split; [| |done|done].
    + rewrite Hbc, enc_list_single. unfold st3, enc, append, with_bytecode. simpl.
      rewrite <- !(assoc_L (++)). by destruct (jt_caseSensitive jt).
    + by rewrite Hk, keys_single.
  - unfold instr_good. cbn [fields]. generalize 3. revert Hgood. clear.
    induction 1; intros z; simpl; constructor; auto.
Qed.

Lemma compileCheckForRange_spec st src r :
  ready st src -> 0 <= r_destination r < vlen (m_nodeStartOffsets st) ->
  vlen (m_bytecode st) + checkForRangeMaxBytecodeSize r < 2 ^ 30 ->
  exists i st', compileCheckForRange st src r = Some st' /\ emits st [i] st'
    /\ erase i = range_instr r /\ instr_good st src (vlen (m_bytecode st)) i.
Proof.
  intros Hr Hd Hb. unfold compileCheckForRange, range_instr, checkForRangeMaxBytecodeSize in *.
  destruct (r_min r =? r_max r).
  - destruct (emitCheckValue_spec st (r_min r) src (r_destination r) (r_caseSensitive r))
      as (s & st' & ? & ? & ?); [done|done|lia|]. eexists _, _. split_and!; done.
  - destruct (emitCheckValueRange_spec st (r_min r) (r_max r) src (r_destination r) (r_caseSensitive r))
      as (s & st' & ? & ? & ?); [done|done|lia|]. eexists _, _. split_and!; done.
Qed.

(** ** Sequences of emitters *)

(** The size of an instruction with four-byte jumps. *)
Definition wsize (i : instr) : Z := vlen (enc_head i) + 4 * vlen (fields i).
Definition wsize_list (l : list instr) : Z := foldr Z.add 0 (map wsize l).

Lemma table_fields_length at_ s ds : length (table_fields at_ s ds) = length ds.
Proof. revert at_. induction ds; intros; simpl; auto. Qed.

Lemma isize_worst i : isize i <= wsize (erase i).
Proof.
  unfold isize, wsize.
  assert (vlen (enc_head (erase i)) = vlen (enc_head i)) as ->.
  { destruct i; simpl; rewrite ?length_app, ?to_bytes_length; done. }
  assert (length (fields (erase i)) = length (fields i)) as ->.
  { destruct i; simpl; rewrite ?table_fields_length; done. }
  assert (foldr Z.add 0 (map (fun f => jumpSizeInBytes (snd f)) (fields i)) <= 4 * vlen (fields i)); [|lia].
  induction (fields i) as [|[? []] fs IH]; simpl in *; lia.
Qed.

Lemma size_list_worst l l' : map erase l = l' -> size_list l <= wsize_list l'.
Proof.
  intros <-. unfold wsize_list. induction l as [|i l IH]; simpl; [done|].
  pose proof (isize_worst i). lia.
Qed.

Lemma wsize_nonneg i : 0 <= wsize i.
Proof. unfold wsize. lia. Qed.

Lemma wsize_list_nonneg l : 0 <= wsize_list l.
Proof. unfold wsize_list. induction l as [|i l IH]; simpl; [done|]. pose proof (wsize_nonneg i). lia. Qed.

Lemma wsize_list_cons i l : wsize_list (i :: l) = wsize i + wsize_list l.
Proof. done. Qed.

Lemma wsize_list_app l1 l2 : wsize_list (l1 ++ l2) = wsize_list l1 + wsize_list l2.
Proof. unfold wsize_list. induction l1; simpl; lia. Qed.

Lemma ready_emits st l st' src : ready st src -> emits st l st' -> ready st' src.
Proof.
  intros [] He. pose proof (emits_length _ _ _ He) as Hl. pose proof (size_list_nonneg l).
  destruct He. split; rewrite ?emits_max0, ?emits_start0; try done.
  destruct ready_src0 as (os & ? & ? & ?). exists os. split_and!; try done; lia.
Qed.

(** [emit_each] of a correct emitter is correct. *)
Lemma emit_each_spec {A} (f : Compiler -> A -> option Compiler) (g : A -> instr) (ok : A -> Prop)
    (N : nat) src l st :
  (forall st a, ready st src -> length (m_nodeStartOffsets st) = N -> ok a ->
     vlen (m_bytecode st) + wsize (g a) < 2 ^ 30 ->
     exists i st', f st a = Some st' /\ emits st [i] st' /\ erase i = g a
       /\ instr_good st src (vlen (m_bytecode st)) i) ->
  ready st src -> length (m_nodeStartOffsets st) = N -> Forall ok l ->
  vlen (m_bytecode st) + wsize_list (map g l) < 2 ^ 30 ->
  exists code st', emit_each f st l = Some st' /\ emits st code st' /\ map erase code = map g l
    /\ code_good (m_maxNodeStartOffsets st) (m_nodeStartOffsets st) src (vlen (m_bytecode st)) code.
Proof.
  intros Hf Hr HN Hok. revert st Hr HN. induction Hok as [|a l Ha Hok IH]; intros st Hr HN Hb.
  { exists [], st. split_and!; [done|apply emits_nil|done|done]. }
  rewrite map_cons, wsize_list_cons in Hb. pose proof (wsize_list_nonneg (map g l)).
  destruct (Hf st a) as (i & st1 & Hfa & He & Herase & Hg); [done|done|done|lia|].
  pose proof (emits_length _ _ _ He) as Hl. simpl in Hl. rewrite Z.add_0_r in Hl.
  pose proof (isize_worst i) as Hw. rewrite Herase in Hw.
  destruct (IH st1) as (code & st' & Hea & He' & Hmap & Hg');
    [by eapply ready_emits|by rewrite (emits_start _ _ _ He)|lia|].
  exists (i :: code), st'. split_and!.
  - simpl. by rewrite Hfa, option_bind_Some.
  - by apply (emits_app st [i] st1 code).
  - simpl. by rewrite Herase, Hmap.
  - simpl. split; [done|]. rewrite (emits_max _ _ _ He), (emits_start _ _ _ He), Hl in Hg'. done.
Qed.

(** ** The transitions of a node *)

Lemma wsize_final t : wsize_list [final_instr t] = if useFallbackTransition t then 5 else 1.
Proof.
  unfold final_instr, wsize_list, wsize.
  destruct (useFallbackTransition t); simpl; rewrite to_bytes_length; done.
Qed.

Lemma transitionsMaxSize_wsize t :
  Forall wf_table (jumpTables t) -> transitionsMaxSize t = wsize_list (node_instrs t).
Proof.
  intros Hwf. unfold transitionsMaxSize, node_instrs. rewrite !wsize_list_app.
  assert (Hr : forall rs z, foldl (fun s r => s + checkForRangeMaxBytecodeSize r) z rs
    = z + wsize_list (map range_instr rs)).
  { induction rs as [|r rs IH]; intros z; simpl; [unfold wsize_list; simpl; lia|].
    rewrite IH, wsize_list_cons.
    assert (checkForRangeMaxBytecodeSize r = wsize (range_instr r)) as ->; [|lia].
    unfold checkForRangeMaxBytecodeSize, range_instr, wsize.
    case_bool; simpl; rewrite ?length_app, ?to_bytes_length; lia. }
  assert (Hj : forall z, foldl (fun s jt => s + checkForJumpTableMaxBytecodeSize jt) z (jumpTables t)
    = z + wsize_list (map table_instr (jumpTables t))).
  { induction Hwf as [|jt jts (?&?&Hlen) Hwf IH]; intros z; simpl; [unfold wsize_list; simpl; lia|].
    rewrite IH, wsize_list_cons.
    assert (checkForJumpTableMaxBytecodeSize jt = wsize (table_instr jt)) as ->; [|lia].
    unfold checkForJumpTableMaxBytecodeSize, wsize. simpl.
    rewrite table_fields_length, ?length_app, ?to_bytes_length. lia. }
  rewrite Hr, Hj, wsize_final. destruct (useFallbackTransition t); lia.
Qed.

Definition dests_ok (N : nat) (t : Transitions) : Prop :=
  Forall (fun jt => Forall (fun d => 0 <= d < Z.of_nat N) (jt_destinations jt)) (jumpTables t)
  /\ Forall (fun r => 0 <= r_destination r < Z.of_nat N) (ranges t)
  /\ (useFallbackTransition t = true -> 0 <= fallbackTransitionTarget t < Z.of_nat N).

Lemma compileNodeTransitions_spec dfa st src n t :
  (dfa_nodes dfa).[src] = Some n -> transitions dfa n = Some t ->
  ready st src -> dests_ok (length (m_nodeStartOffsets st)) t ->
  vlen (m_bytecode st) + wsize_list (node_instrs t) < 2 ^ 30 ->
  exists code st', compileNodeTransitions dfa st src = Some st' /\ emits st code st'
    /\ map erase code = node_instrs t
    /\ code_good (m_maxNodeStartOffsets st) (m_nodeStartOffsets st) src (vlen (m_bytecode st)) code.
Proof.
  intros Hn Ht Hr (Hjd & Hrd & Hfd) Hb. unfold compileNodeTransitions.
  rewrite Hn, option_bind_Some, Ht, option_bind_Some.
  unfold node_instrs in Hb. rewrite !wsize_list_app in Hb.
  pose proof (wsize_list_nonneg (map range_instr (ranges t))).
  pose proof (wsize_list_nonneg [final_instr t]).
  set (N := length (m_nodeStartOffsets st)) in *.
  destruct (emit_each_spec (fun st jt => compileJumpTable st src jt) table_instr
    (fun jt => Forall (fun d => 0 <= d < Z.of_nat N) (jt_destinations jt)) N src (jumpTables t) st)
    as (c1 & st1 & -> & He1 & Hm1 & Hg1); [|done|done|done|lia|].
  { intros st1 jt Hr1 HN Hok Hb1. apply compileJumpTable_spec; [done|by rewrite HN|].
    unfold wsize in Hb1. simpl in Hb1.
    rewrite table_fields_length, ?length_app, ?to_bytes_length in Hb1. lia. }
  rewrite option_bind_Some. pose proof (emits_length _ _ _ He1) as Hl1.
  pose proof (size_list_worst _ _ Hm1). pose proof (ready_emits _ _ _ _ Hr He1) as Hr1.
  destruct (emit_each_spec (fun st r => compileCheckForRange st src r) range_instr
    (fun r => 0 <= r_destination r < Z.of_nat N) N src (ranges t) st1)
    as (c2 & st2 & -> & He2 & Hm2 & Hg2); [|done|by rewrite (emits_start _ _ _ He1)|done|lia|].
  { intros st2 r Hr2 HN Hok Hb2. apply compileCheckForRange_spec; [done|by rewrite HN|].
    revert Hb2. unfold checkForRangeMaxBytecodeSize, range_instr, wsize.
    case_bool; simpl; rewrite ?length_app, ?to_bytes_length; lia. }
  rewrite option_bind_Some. pose proof (emits_length _ _ _ He2) as Hl2.
  pose proof (size_list_worst _ _ Hm2). pose proof (ready_emits _ _ _ _ Hr1 He2) as Hr2.
  pose proof (emits_app _ _ _ _ _ He1 He2) as He12.
  rewrite (emits_max _ _ _ He1), (emits_start _ _ _ He1), Hl1 in Hg2.
  assert (Hfin : exists i st3, (if useFallbackTransition t then emitJump st2 src (fallbackTransitionTarget t)
      else Some (emitTerminate st2)) = Some st3 /\ emits st2 [i] st3 /\ erase i = final_instr t
      /\ instr_good st2 src (vlen (m_bytecode st2)) i).
  { unfold final_instr. destruct (useFallbackTransition t) eqn:Eu.
    - destruct (emitJump_spec st2 src (fallbackTransitionTarget t)) as (s & st3 & ? & ? & ?);
        [done|rewrite (emits_start _ _ _ He12); by apply Hfd| |eexists _, _; split_and!; done].
      rewrite wsize_final, Eu in Hb. lia.
    - exists ITerminate. eexists. split_and!; [done| |done|constructor].
      split; simpl; unfold enc; simpl; by rewrite ?app_nil_r. }
  destruct Hfin as (i & st3 & -> & He3 & Hei & Hgi).
  exists (c1 ++ c2 ++ [i]), st3. split_and!; [done| | |].
  - rewrite (assoc_L (++)). by eapply emits_app.
  - rewrite !map_app. simpl. by rewrite Hm1, Hm2, Hei.
  - unfold code_good. rewrite !code_all_app. split_and!; [done|done|]. simpl. split; [|done].
    unfold instr_good in Hgi. rewrite (emits_max _ _ _ He12), (emits_start _ _ _ He12), Hl2, Hl1 in Hgi. done.
Qed.

(** ** The actions of a node *)

Lemma emitAppendAction_emits st a : emits st [IAppend a] (emitAppendAction st a).
Proof.
  unfold emitAppendAction. split; [| |by destruct (negb _)|by destruct (negb _)].
  - rewrite enc_list_single. unfold enc, enc_head, action_instruction, append, with_bytecode. simpl.
    destruct (negb (Z.land a ActionFlagMask =? 0)), (negb (Z.land a IfDomainFlag =? 0)); simpl;
      by rewrite ?app_nil_r, <- ?(assoc_L (++)).
  - rewrite keys_single. simpl. rewrite app_nil_r. by destruct (negb _).
Qed.

Lemma emitActions_emits st acts : emits st (map IAppend acts) (foldl emitAppendAction st acts).
Proof.
  revert st. induction acts as [|a acts IH]; intros st; simpl; [apply emits_nil|].
  apply (emits_app st [IAppend a] (emitAppendAction st a)); [apply emitAppendAction_emits|apply IH].
Qed.

Lemma size_list_actions acts : size_list (map IAppend acts) = actions_size acts.
Proof.
  unfold actions_size. assert (forall z, z + size_list (map IAppend acts)
    = foldl (fun s a => s + appendActionBytecodeSize a) z acts) as Hz; [|by rewrite <- Hz].
  induction acts as [|a acts IH]; intros z; simpl; [lia|]. rewrite <- IH, Z.add_assoc. do 2 f_equal.
  unfold isize, appendActionBytecodeSize. simpl. rewrite !length_app, !to_bytes_length.
  destruct (negb _); rewrite ?to_bytes_length; simpl; lia.
Qed.

Lemma code_all_actions P pos acts : code_all P pos (map IAppend acts).
Proof. revert pos. induction acts; intros pos; simpl; auto. Qed.

Lemma actions_size_nonneg acts : 0 <= actions_size acts.
Proof. rewrite <- size_list_actions. apply size_list_nonneg. Qed.

Lemma code_all_dests (P : Z -> Prop) pos l :
  Forall P (concat (map dests l)) -> code_all (fun _ d _ => P d) pos l.
Proof.
  revert pos. induction l as [|i l IH]; intros pos; simpl; [done|].
  rewrite Forall_app. intros [Hi Hl]. split; [|by apply IH].
  unfold dests in Hi. by rewrite List.Forall_map in Hi.
Qed.

Lemma code_all_and P Q pos l :
  code_all P pos l -> code_all Q pos l -> code_all (fun p d s => P p d s /\ Q p d s) pos l.
Proof.
  revert pos. induction l as [|i l IH]; intros pos; simpl; [done|].
  intros [? ?] [? ?]. split; [by apply Forall_and|by apply IH].
Qed.
End Emit.
