(* ===== verification/CompileLayout.v ===== *)
(** * The compiler lays out the code of every live node

    [compile_layout]: on a well-formed DFA whose worst-case code is smaller
    than 1 GiB the compiler succeeds -- no [RELEASE_ASSERT] fails, every jump
    fits the size chosen for it before its distance was known -- and the
    bytecode is the linked code of the nodes, each at its recorded offset. *)

From S2P Require Import Prelude DFA Bytecode BytecodeCompiler BytecodeInterpreter TransitionsCorrect CodeLayout CompilerCorrect.

(** ** What a well-formed node compiles to *)

Section NodeFacts.
Context `{Host} (dfa : DFA).
Hypothesis Hwf : wf_dfa dfa.
Hypothesis Hsize : vlen (dfa_nodes dfa) < uint32_max.

Record node_facts (n : DFANode) (acts : list Z) (ts : list transition) (t : Transitions) : Prop := {
  nf_acts : node_actions dfa n = Some acts;
  nf_acts_bound : Forall (fun a => 0 <= a < 2 ^ 49) acts;
  nf_ts : node_transitions dfa n = Some ts;
  nf_sorted : sorted_from 0 ts;
  nf_live : Forall (fun t => live_target dfa (snd t)) ts;
  nf_t : transitions dfa n = Some t;
  nf_tables : Forall wf_table (jumpTables t);
  nf_ranges : Forall wf_range (ranges t);
  nf_dests : Forall (live_target dfa) (concat (map dests (node_instrs t)));
  nf_fallback : useFallbackTransition t = canUseFallback ts;
  nf_select : forall c, 0 <= c <= 127 -> select t c = code_step ts c
}.

Lemma live_target_lt d : live_target dfa d -> 0 <= d < vlen (dfa_nodes dfa).
Proof. intros (n & Hn & _). by apply vec_at_lt in Hn. Qed.

Lemma dests_table s at_ ds : map (fun f => snd (fst f)) (table_fields at_ s ds) = ds.
Proof. revert at_. induction ds as [|d ds IH]; intros at_; simpl; [done|]. by rewrite IH. Qed.

Lemma dests_erase i : dests (erase i) = dests i.
Proof. unfold dests. destruct i; simpl; rewrite ?dests_table; done. Qed.

Lemma dests_node_instrs t :
  concat (map dests (node_instrs t))
  = group_dests (jumpTables t) (ranges t)
    ++ (if useFallbackTransition t then [fallbackTransitionTarget t] else []).
Proof.
  unfold node_instrs, group_dests. rewrite !map_app, !concat_app, !map_map, <- (assoc_L (++)).
  f_equal; [f_equal; apply map_ext; intros jt; unfold dests; simpl; apply dests_table|].
  f_equal.
  - induction (ranges t) as [|r rs IH]; simpl; [done|]. rewrite IH.
    unfold range_instr, dests. case_bool; done.
  - unfold final_instr. destruct (useFallbackTransition t); done.
Qed.

Lemma node_facts_ex i n :
  (dfa_nodes dfa).[i] = Some n -> isKilled n = false -> exists acts ts t, node_facts n acts ts t.
Proof.
  intros Hn Hk. destruct (wf_nodes _ Hwf i n Hn Hk) as [(acts & Ha & Hab) (ts & Hts & Hs & Hl)].
  destruct (transitions_spec dfa n ts Hts Hs) as (t & Ht & [Htab Hrng] & Hd & Hu & Hf & Hsel).
  { eapply Forall_impl; [exact Hl|]. intros tr Htr%live_target_lt. lia. }
  exists acts, ts, t. split; try done.
  assert (He : forall d, (exists r, (r, d) ∈ ts) -> live_target dfa d).
  { intros d (r & Hr). rewrite Forall_forall in Hl. apply (Hl _ Hr). }
  rewrite dests_node_instrs. apply Forall_app. split.
  - eapply Forall_impl; [exact Hd|]. exact He.
  - rewrite Hu. destruct (canUseFallback ts) eqn:E; [|constructor].
    constructor; [|constructor]. apply He, Hf. done.
Qed.

Lemma node_facts_dests n acts ts t : node_facts n acts ts t -> dests_ok (length (dfa_nodes dfa)) t.
Proof.
  intros []. rewrite dests_node_instrs in nf_dests0. unfold group_dests in nf_dests0.
  rewrite !Forall_app, Forall_concat, List.Forall_map in nf_dests0. destruct nf_dests0 as [[Hj Hr] Hf].
  split_and!.
  - eapply Forall_impl; [exact Hj|]. intros jt Hjt. eapply Forall_impl; [exact Hjt|]. apply live_target_lt.
  - rewrite List.Forall_map in Hr. eapply Forall_impl; [exact Hr|]. intros r. apply live_target_lt.
  - intros Hu. rewrite Hu, Forall_singleton in Hf. exact (live_target_lt _ Hf).
Qed.

Lemma node_facts_worst n acts ts t :
  node_facts n acts ts t -> isKilled n = false ->
  node_worst dfa n = Some (actions_size acts + wsize_list (node_instrs t)).
Proof.
  intros [] Hk. unfold node_worst. rewrite Hk, nf_acts0, option_bind_Some, nf_t0, option_bind_Some.
  by rewrite transitionsMaxSize_wsize.
Qed.
End NodeFacts.

(** ** The state between two nodes *)

Section Loop.
Context `{Host} (dfa : DFA) (M : list Z).
Hypothesis Hwf : wf_dfa dfa.
Hypothesis Hsize : vlen (dfa_nodes dfa) < uint32_max.
Hypothesis HMlen : length M = length (dfa_nodes dfa).
Hypothesis HMsmall : Forall (fun m => 0 <= m < 2 ^ 30) M.

(** A jump emitted from a node that starts at or before it, towards a live
    node, in a field that is large enough. *)
Definition jump_inv (offs : list Z) (p d : Z) (s : DFABytecodeJumpSize) : Prop :=
  live_target dfa d /\ exists src os, offs.[src] = Some os /\ os <> uint32_max /\ os <= p
                                     /\ field_good M offs src p d s.

(** [next] is the worst-case end of the code written so far. *)
Record cinv (st : Compiler) (code : list instr) (next : Z) : Prop := {
  ci_bc : m_bytecode st = to_bytes 4 0 ++ enc_list hole_zero 4 code;
  ci_keys : map record_key (m_linkRecords st) = keys 4 code;
  ci_max : m_maxNodeStartOffsets st = M;
  ci_len : length (m_nodeStartOffsets st) = length (dfa_nodes dfa);
  ci_small : offsets_small (m_nodeStartOffsets st);
  ci_end : vlen (m_bytecode st) <= next;
  ci_slack : forall i o, (m_nodeStartOffsets st).[i] = Some o -> o <> uint32_max ->
    o <= vlen (m_bytecode st)
    /\ exists m, M.[i] = Some m /\ vlen (m_bytecode st) - o <= next - m;
  ci_jumps : code_all (jump_inv (m_nodeStartOffsets st)) 4 code
}.

Lemma cinv_length st code next : cinv st code next -> vlen (m_bytecode st) = 4 + size_list code.
Proof.
  intros []. rewrite ci_bc0, length_app, Nat2Z.inj_add, to_bytes_length, enc_list_length; [done|].
  apply hole_zero_sized.
Qed.

(** Appending code no longer than its estimate. *)
Lemma cinv_emits st code next l st' w :
  cinv st code next -> emits st l st' -> size_list l <= w ->
  code_all (jump_inv (m_nodeStartOffsets st)) (vlen (m_bytecode st)) l ->
  cinv st' (code ++ l) (next + w).
Proof.
  intros Hc He Hw Hl. pose proof (cinv_length _ _ _ Hc) as Hlen.
  pose proof (emits_length _ _ _ He) as Hlen'. pose proof (size_list_nonneg l).
  destruct Hc, He. split; rewrite ?emits_start; try done.
  - rewrite emits_bc, ci_bc0 at 1. rewrite Hlen, enc_list_app. by rewrite (assoc_L (++)).
  - by rewrite emits_keys, ci_keys0, Hlen, keys_app.
  - by rewrite emits_max.
  - lia.
  - intros i o Ho Hne. destruct (ci_slack0 i o Ho Hne) as (? & m & ? & ?).
    split; [lia|]. exists m. split; [done|lia].
  - apply code_all_app. split; [done|]. by rewrite <- Hlen.
Qed.

Lemma jump_inv_place offs offs' i next b p d s :
  vec_set offs i b = Some offs' -> offs.[i] = Some uint32_max -> b <> uint32_max ->
  M.[i] = Some next ->
  (forall j o, offs.[j] = Some o -> o <> uint32_max -> exists m, M.[j] = Some m /\ b - o <= next - m) ->
  p <= b -> jump_inv offs p d s -> jump_inv offs' p d s.
Proof.
  intros Hset Hi Hb HMi Hslack Hp [Hd (src & os & Hos & Hne & Hosp & Hg)].
  assert (src <> i) by congruence. split; [done|]. exists src, os.
  pose proof (vec_at_set _ _ i src _ Hset) as Hsrc. rewrite decide_False in Hsrc by done.
  split_and!; [by rewrite Hsrc|done|done|].
  destruct Hg as (o & Ho & Hg). unfold field_good.
  rewrite (vec_at_set _ _ _ _ _ Hset). case_decide as Hid; subst.
  - eexists. split; [done|]. left. split; [done|].
    rewrite Hi in Ho. injection Ho as <-. destruct Hg as [[? _]|(_ & md & ms & os' & Hmd & Hms & Hos' & Hf)]; [done|].
    destruct (Hslack src os Hos Hne) as (m & Hm & Hle).
    simplify_eq. apply Hf. lia.
  - exists o. split; [done|]. destruct Hg as [?|(? & md & ms & os' & ? & ? & ? & ?)]; [by left|].
    right. split; [done|]. exists md, ms, os'. rewrite Hsrc. split_and!; done.
Qed.

(** Recording where a node starts. *)
Lemma cinv_place st code next i :
  cinv st code next -> M.[i] = Some next -> (m_nodeStartOffsets st).[i] = Some uint32_max ->
  next < 2 ^ 30 ->
  exists offs', vec_set (m_nodeStartOffsets st) i (u32 (vlen (m_bytecode st))) = Some offs'
    /\ cinv (with_nodeStart st offs') code next.
Proof.
  intros Hc HMi Hi Hb. pose proof (cinv_length _ _ _ Hc) as Hlen.
  pose proof (ci_end _ _ _ Hc). rewrite u32_small by lia. pose proof (vec_at_lt _ _ _ Hi).
  destruct (vec_set (m_nodeStartOffsets st) i (vlen (m_bytecode st))) as [offs'|] eqn:Hset;
    [|rewrite vec_set_Some in Hset by lia; done].
  exists offs'. split; [done|]. pose proof (fun j => vec_at_set _ _ i j _ Hset) as Hat.
  destruct Hc. split; simpl; try done.
  - by rewrite (vec_set_length _ _ _ _ Hset).
  - apply vec_set_inv in Hset as [_ ->]. apply Forall_insert; [done|]. right. lia.
  - intros j o. rewrite Hat. case_decide; [|apply ci_slack0].
    intros [= <-] _. subst. split; [lia|]. exists next. split; [done|lia].
  - eapply code_all_impl; [|done]. intros p d s Hp. eapply jump_inv_place; [done|done| |done| |].
    + unfold uint32_max. lia.
    + intros j o Ho Hne. destruct (ci_slack0 j o Ho Hne) as (_ & m & ? & ?). eauto.
    + lia.
Qed.

(** ** One node *)

Lemma cinv_actions st code next acts :
  cinv st code next ->
  cinv (foldl emitAppendAction st acts) (code ++ map IAppend acts) (next + actions_size acts).
Proof.
  intros Hc. eapply cinv_emits; [done|apply emitActions_emits| |apply code_all_actions].
  by rewrite size_list_actions.
Qed.

Lemma cinv_ready st code next src os :
  cinv st code next -> (m_nodeStartOffsets st).[src] = Some os -> os <> uint32_max -> ready st src.
Proof.
  intros [] Hos Hne. split; rewrite ?ci_max0; [congruence|done|done|].
  exists os. destruct (ci_slack0 src os Hos Hne) as [? _].
  destruct (vec_at_Forall _ _ _ _ ci_small0 Hos) as [?|?]; [done|]. simpl in *. split_and!; [done|lia..].
Qed.

Lemma cinv_transitions st code next src n acts ts t os :
  cinv st code next -> (dfa_nodes dfa).[src] = Some n -> node_facts dfa n acts ts t ->
  (m_nodeStartOffsets st).[src] = Some os -> os <> uint32_max ->
  next + wsize_list (node_instrs t) < 2 ^ 30 ->
  exists body st', compileNodeTransitions dfa st src = Some st'
    /\ map erase body = node_instrs t
    /\ m_nodeStartOffsets st' = m_nodeStartOffsets st
    /\ cinv st' (code ++ body) (next + wsize_list (node_instrs t)).
Proof.
  intros Hc Hn Hnf Hos Hne Hb. pose proof (ci_end _ _ _ Hc).
  destruct (compileNodeTransitions_spec dfa st src n t Hn) as (body & st' & Hcomp & He & Hm & Hg).
  { apply (nf_t _ _ _ _ _ Hnf). }
  { by eapply cinv_ready. }
  { rewrite (ci_len _ _ _ Hc). by eapply node_facts_dests. }
  { lia. }
  exists body, st'. split_and!; [done|done|apply (emits_start _ _ _ He)|].
  eapply cinv_emits; [done|done|by apply size_list_worst|].
  assert (Hd : code_all (fun _ d _ => live_target dfa d) (vlen (m_bytecode st)) body).
  { apply code_all_dests. pose proof (nf_dests _ _ _ _ _ Hnf) as Hd. rewrite <- Hm, map_map in Hd.
    by rewrite (map_ext _ dests) in Hd by apply dests_erase. }
  eapply code_all_impl; [|exact (code_all_and _ _ _ _ Hd Hg)].
  intros p d s Hp [Hl Hf]. split; [done|]. exists src, os. split_and!; [done|done| |].
  - destruct (ci_slack _ _ _ Hc src os Hos Hne). lia.
  - by rewrite (ci_max _ _ _ Hc) in Hf.
Qed.

(** The code of node [i] is in [code] and its offset is recorded: for the
    root, behind its actions. *)
Definition placed (code : list instr) (offs : list Z) (i : Z) : Prop :=
  forall n, (dfa_nodes dfa).[i] = Some n -> isKilled n = false ->
  exists pre acts ts t body post,
    node_facts dfa n acts ts t /\ map erase body = node_instrs t
    /\ code = pre ++ map IAppend acts ++ body ++ post
    /\ offs.[i] = Some (4 + size_list pre + if i =? dfa_root dfa then actions_size acts else 0)
    /\ (i = dfa_root dfa -> pre = []).

Lemma placed_mono code code' offs offs' i :
  placed code offs i -> (forall o, offs.[i] = Some o -> o < 2 ^ 30 -> offs'.[i] = Some o) ->
  4 + size_list code < 2 ^ 30 -> placed (code ++ code') offs' i.
Proof using Type.
  clear HMlen. intros Hp Ho Hb n Hn Hk. destruct (Hp n Hn Hk) as (pre & acts & ts & t & body & post & ? & ? & -> & Hi & ?).
  exists pre, acts, ts, t, body, (post ++ code'). split_and!; try done.
  - by rewrite <- !(assoc_L (++)).
  - apply Ho; [done|]. rewrite !size_list_app, size_list_actions in Hb.
    pose proof (size_list_nonneg body). pose proof (size_list_nonneg post).
    pose proof (actions_size_nonneg acts). destruct (i =? dfa_root dfa); lia.
Qed.

(** [compileNode] places its node and moves no other. *)
Definition places (st st' : Compiler) (code blk : list instr) (i : Z) : Prop :=
  placed (code ++ blk) (m_nodeStartOffsets st') i
  /\ forall j, j <> i -> (m_nodeStartOffsets st').[j] = (m_nodeStartOffsets st).[j].

Lemma compileNode_spec st code next i n w :
  cinv st code next -> M.[i] = Some next -> (m_nodeStartOffsets st).[i] = Some uint32_max ->
  i <> dfa_root dfa -> (dfa_nodes dfa).[i] = Some n -> isKilled n = false ->
  node_worst dfa n = Some w -> next + w < 2 ^ 30 ->
  exists st' blk, compileNode dfa st i false = Some st' /\ cinv st' (code ++ blk) (next + w)
    /\ places st st' code blk i.
Proof.
  intros Hc HM Hi Hroot Hn Hk Hw Hb. unfold compileNode. rewrite Hn, option_bind_Some, Hk.
  destruct (node_facts_ex dfa Hwf Hsize i n Hn Hk) as (acts & ts & t & Hnf).
  rewrite (node_facts_worst _ _ _ _ _ Hnf Hk) in Hw. injection Hw as <-.
  pose proof (actions_size_nonneg acts). pose proof (wsize_list_nonneg (node_instrs t)).
  pose proof (cinv_length _ _ _ Hc) as Hlen.
  destruct (cinv_place st code next i Hc HM Hi) as (offs & Hset & Hc1); [lia|].
  rewrite Hset, !option_bind_Some, (nf_acts _ _ _ _ _ Hnf), option_bind_Some.
  cbv beta iota zeta. rewrite option_bind_Some.
  pose proof (ci_end _ _ _ Hc). rewrite u32_small in Hset by lia.
  apply (cinv_actions _ _ _ acts) in Hc1. pose proof (vec_at_set _ _ i i _ Hset) as Hat.
  rewrite decide_True in Hat by done.
  pose proof (emits_start _ _ _ (emitActions_emits (with_nodeStart st offs) acts)) as Hst.
  destruct (cinv_transitions _ _ _ i n acts ts t (vlen (m_bytecode st)) Hc1 Hn Hnf)
    as (body & st' & -> & Hm & Hst' & Hc2); [by rewrite Hst|unfold uint32_max; lia|lia|].
  exists st', (map IAppend acts ++ body). rewrite Hst in Hst'. split_and!; [done| |split].
  - by rewrite (assoc_L (++)), Z.add_assoc.
  - intros n' Hn' _. simplify_eq. exists code, acts, ts, t, body, [].
    rewrite app_nil_r, Hst'. split_and!; try done. simpl. rewrite Hat.
    destruct (Z.eqb_spec i (dfa_root dfa)); [done|]. f_equal. lia.
  - intros j Hj. rewrite Hst'. simpl. rewrite (vec_at_set _ _ _ _ _ Hset). by case_decide.
Qed.

Lemma compileRoot_spec st next n acts ts t :
  cinv st [] next -> M.[dfa_root dfa] = Some (next + actions_size acts) ->
  (m_nodeStartOffsets st).[dfa_root dfa] = Some uint32_max ->
  (dfa_nodes dfa).[dfa_root dfa] = Some n -> isKilled n = false ->
  node_facts dfa n acts ts t -> next + (actions_size acts + wsize_list (node_instrs t)) < 2 ^ 30 ->
  exists st' blk, compileNode dfa st (dfa_root dfa) true = Some st'
    /\ cinv st' blk (next + (actions_size acts + wsize_list (node_instrs t)))
    /\ places st st' [] blk (dfa_root dfa).
Proof.
  intros Hc HM Hi Hn Hk Hnf Hb. unfold compileNode. rewrite Hn, option_bind_Some, Hk.
  rewrite option_bind_Some, (nf_acts _ _ _ _ _ Hnf), option_bind_Some. cbv beta iota zeta.
  pose proof (actions_size_nonneg acts). pose proof (wsize_list_nonneg (node_instrs t)).
  apply (cinv_actions _ _ _ acts) in Hc. simpl in Hc.
  pose proof (emits_start _ _ _ (emitActions_emits st acts)) as Hst.
  pose proof (cinv_length _ _ _ Hc) as Hlen. rewrite size_list_actions in Hlen.
  rewrite <- Hst in Hi. destruct (cinv_place _ _ _ _ Hc HM Hi) as (offs & Hset & Hc1); [lia|].
  rewrite Hset, !option_bind_Some. pose proof (ci_end _ _ _ Hc). rewrite u32_small in Hset by lia.
  pose proof (vec_at_set _ _ _ (dfa_root dfa) _ Hset) as Hat. rewrite decide_True in Hat by done.
  destruct (cinv_transitions _ _ _ (dfa_root dfa) n acts ts t (4 + actions_size acts) Hc1 Hn Hnf)
    as (body & st' & -> & Hm & Hst' & Hc2); [simpl; by rewrite Hat, Hlen|unfold uint32_max; lia|lia|].
  exists st', (map IAppend acts ++ body). split_and!; [done|by rewrite Z.add_assoc|split].
  - intros n' Hn' _. simplify_eq. exists [], acts, ts, t, body, [].
    rewrite app_nil_r, Hst'. split_and!; try done. simpl. rewrite Hat, Z.eqb_refl. f_equal. lia.
  - intros j Hj. rewrite Hst'. simpl. rewrite (vec_at_set _ _ _ _ _ Hset). case_decide; [congruence|].
    by rewrite Hst.
Qed.
End Loop.

(** ** Worst-case offsets *)

Section Schedule.
Context `{Host} (dfa : DFA) (ws : list Z).
Hypothesis Hwf : wf_dfa dfa.
Hypothesis Hsize : vlen (dfa_nodes dfa) < uint32_max.
Hypothesis Hws : mapM (node_worst dfa) (dfa_nodes dfa) = Some ws.

Definition weight (i : Z) : Z := default 0 (ws.[i]).

(** The worst-case size of the nodes of a list, the root excluded. *)
Fixpoint rest (idxs : list Z) : Z :=
  match idxs with
  | [] => 0
  | i :: idxs => (if i =? dfa_root dfa then 0 else weight i) + rest idxs
  end.

(** Each node starts, at worst, where the previous ones end at worst. *)
Fixpoint schedule (M : list Z) (next : Z) (idxs : list Z) : Prop :=
  match idxs with
  | [] => True
  | i :: idxs => if i =? dfa_root dfa then schedule M next idxs
                 else M.[i] = Some next /\ schedule M (next + weight i) idxs
  end.

Lemma ws_length : length ws = length (dfa_nodes dfa).
Proof. symmetry. by eapply length_mapM. Qed.

Lemma weight_node i n : (dfa_nodes dfa).[i] = Some n -> node_worst dfa n = Some (weight i).
Proof.
  intros [Hi Hn]%vec_at_Some. apply mapM_Some in Hws.
  destruct (Forall2_lookup_l _ _ _ _ _ Hws Hn) as (w & Hw & Hnw).
  unfold weight. assert (ws.[i] = Some w) as -> by (by apply vec_at_Some). done.
Qed.

Lemma weight_nonneg i : 0 <= i < vlen (dfa_nodes dfa) -> 0 <= weight i.
Proof.
  intros Hi. destruct (vec_at_is_Some _ _ Hi) as [n Hn]. pose proof (weight_node i n Hn) as Hw.
  destruct (isKilled n) eqn:Hk.
  - unfold node_worst in Hw. rewrite Hk in Hw. by injection Hw as <-.
  - destruct (node_facts_ex dfa Hwf Hsize i n Hn Hk) as (acts & ts & t & Hnf).
    rewrite (node_facts_worst _ _ _ _ _ Hnf Hk) in Hw. injection Hw as <-.
    pose proof (actions_size_nonneg acts). pose proof (wsize_list_nonneg (node_instrs t)). lia.
Qed.

Lemma rest_nonneg idxs : Forall (fun i => 0 <= i < vlen (dfa_nodes dfa)) idxs -> 0 <= rest idxs.
Proof.
  induction 1 as [|i idxs Hi _ IH]; simpl; [done|]. pose proof (weight_nonneg i Hi).
  destruct (i =? dfa_root dfa); lia.
Qed.

Lemma rest_total idxs : NoDup idxs -> dfa_root dfa ∈ idxs ->
  weight (dfa_root dfa) + rest idxs = foldr Z.add 0 (map weight idxs).
Proof.
  assert (Hout : forall l, dfa_root dfa ∉ l -> rest l = foldr Z.add 0 (map weight l)).
  { induction l as [|i l IH]; simpl; [done|]. rewrite not_elem_of_cons. intros [? ?].
    destruct (Z.eqb_spec i (dfa_root dfa)); [congruence|]. rewrite IH by done. done. }
  induction 1 as [|i idxs Hi Hnd IH]; intros Hin; [by apply not_elem_of_nil in Hin|]. simpl.
  destruct (Z.eqb_spec i (dfa_root dfa)) as [->|Hne].
  - by rewrite Hout.
  - apply elem_of_cons in Hin as [?|Hin]; [congruence|]. specialize (IH Hin). lia.
Qed.

Lemma rest_all : dfa_root dfa ∈ seqZ 0 (vlen (dfa_nodes dfa)) ->
  weight (dfa_root dfa) + rest (seqZ 0 (vlen (dfa_nodes dfa))) = foldr Z.add 0 ws.
Proof.
  intros Hin. rewrite rest_total; [|apply NoDup_seqZ|done]. f_equal.
  apply list_eq. intros k. rewrite <- ws_length.
  change (map weight ?l !! k) with ((weight <$> l) !! k). rewrite list_lookup_fmap.
  destruct (decide (k < length ws)%nat) as [Hk|Hk].
  - rewrite lookup_seqZ_lt, Z.add_0_l by lia. unfold weight. cbn. rewrite vec_at_nat.
    by destruct (lookup_lt_is_Some_2 ws k Hk) as [x ->].
  - rewrite lookup_seqZ_ge by lia. symmetry. apply lookup_ge_None. lia.
Qed.

Lemma compiledNodeMax_spec i :
  0 <= i < vlen (dfa_nodes dfa) -> weight i < 2 ^ 30 ->
  compiledNodeMaxBytecodeSize dfa i = Some (weight i).
Proof.
  intros Hi Hb. destruct (vec_at_is_Some _ _ Hi) as [n Hn]. pose proof (weight_node i n Hn) as Hw.
  unfold compiledNodeMaxBytecodeSize, nodeTransitionsMaxBytecodeSize. rewrite Hn, option_bind_Some.
  destruct (isKilled n) eqn:Hk; [unfold node_worst in Hw; by rewrite Hk in Hw|].
  destruct (node_facts_ex dfa Hwf Hsize i n Hn Hk) as (acts & ts & t & Hnf).
  rewrite (node_facts_worst _ _ _ _ _ Hnf Hk) in Hw. injection Hw as Hw.
  rewrite (nf_acts _ _ _ _ _ Hnf), option_bind_Some, (nf_t _ _ _ _ _ Hnf), !option_bind_Some.
  pose proof (actions_size_nonneg acts). pose proof (wsize_list_nonneg (node_instrs t)).
  rewrite transitionsMaxSize_wsize by apply (nf_tables _ _ _ _ _ Hnf). fold (actions_size acts).
  rewrite (u32_small (wsize_list _)) by lia. rewrite u32_small by lia. by rewrite Hw.
Qed.

Lemma maxOffsets_loop_spec idxs offs next :
  NoDup idxs -> Forall (fun i => 0 <= i < vlen (dfa_nodes dfa)) idxs ->
  length offs = length (dfa_nodes dfa) -> Forall (fun m => 0 <= m < 2 ^ 30) offs ->
  0 <= next -> next + rest idxs < 2 ^ 30 ->
  exists M, maxOffsets_loop dfa offs next idxs = Some M
    /\ length M = length (dfa_nodes dfa) /\ Forall (fun m => 0 <= m < 2 ^ 30) M
    /\ (forall j, j ∉ idxs \/ j = dfa_root dfa -> M.[j] = offs.[j]) /\ schedule M next idxs.
Proof.
  intros Hnd. revert offs next. induction Hnd as [|i idxs Hi Hnd IH]; intros offs next Hr Hlen Hs Hn Hb; simpl.
  { exists offs. split_and!; done. }
  apply Forall_cons in Hr as [Hir Hr]. simpl in Hb. pose proof (rest_nonneg idxs Hr).
  destruct (Z.eqb_spec i (dfa_root dfa)) as [->|Hne].
  { destruct (IH offs next) as (M & -> & ? & ? & HM & ?); [done..|].
    exists M. split_and!; try done. intros j Hj. apply HM. set_solver. }
  pose proof (weight_nonneg i Hir).
  destruct (vec_set offs i next) as [offs'|] eqn:Hset; [|rewrite vec_set_Some in Hset by lia; done].
  rewrite option_bind_Some, compiledNodeMax_spec, option_bind_Some, u32_small by (done || lia).
  destruct (IH offs' (next + weight i)) as (M & -> & ? & ? & HM & ?);
    [done|by rewrite (vec_set_length _ _ _ _ Hset)| |lia|lia|].
  { apply vec_set_inv in Hset as [_ ->]. apply Forall_insert; [done|]. lia. }
  exists M. split_and!; try done.
  - intros j Hj. rewrite HM by set_solver. rewrite (vec_at_set _ _ _ _ _ Hset).
    case_decide; [set_solver|done].
  - rewrite HM by (by left). rewrite (vec_at_set _ _ _ _ _ Hset). by case_decide.
Qed.
End Schedule.

(** ** The whole compilation *)

(** The bytecode is a header with its length and the linked code of the nodes. *)
Record layout `{Host} (dfa : DFA) (bc offs : list Z) (code : list instr) : Prop := {
  lay_bc : bc = to_bytes 4 (vlen bc) ++ enc_list (hole_linked offs) 4 code;
  lay_len : vlen bc = 4 + size_list code;
  lay_small : vlen bc < 2 ^ 30;
  lay_ok : code_ok offs 4 code;
  lay_live : code_all (fun _ d _ => live_target dfa d) 4 code;
  lay_placed : forall i, placed dfa code offs i
}.

Section Compile.
Context `{Host} (dfa : DFA) (ws : list Z).
Hypothesis Hwf : wf_dfa dfa.
Hypothesis Hsize : vlen (dfa_nodes dfa) < uint32_max.
Hypothesis Hws : mapM (node_worst dfa) (dfa_nodes dfa) = Some ws.

Lemma not_elem_widen (i j r : Z) idxs : j <> i -> j ∉ idxs \/ j = r -> j ∉ i :: idxs \/ j = r.
Proof. rewrite not_elem_of_cons. tauto. Qed.

Lemma compile_loop M idxs st code next :
  length M = length (dfa_nodes dfa) -> Forall (fun m => 0 <= m < 2 ^ 30) M ->
  NoDup idxs -> Forall (fun i => 0 <= i < vlen (dfa_nodes dfa)) idxs ->
  cinv dfa M st code next -> schedule dfa ws M next idxs -> next + rest dfa ws idxs < 2 ^ 30 ->
  (forall i, i ∈ idxs -> i <> dfa_root dfa -> (m_nodeStartOffsets st).[i] = Some uint32_max) ->
  (forall i, i ∉ idxs \/ i = dfa_root dfa -> placed dfa code (m_nodeStartOffsets st) i) ->
  exists st' code', emit_each (fun st i => if i =? dfa_root dfa then Some st else compileNode dfa st i false)
      st idxs = Some st'
    /\ cinv dfa M st' code' (next + rest dfa ws idxs)
    /\ forall i, placed dfa code' (m_nodeStartOffsets st') i.
Proof.
  intros HMl HMs Hnd. revert st code next.
  induction Hnd as [|i idxs Hi Hnd IH]; intros st code next Hr Hc Hsch Hb Hun Hpl; simpl.
  { exists st, code. rewrite Z.add_0_r. split_and!; [done..|]. intros i. apply Hpl. left. apply not_elem_of_nil. }
  apply Forall_cons in Hr as [Hir Hr]. simpl in Hsch, Hb.
  destruct (Z.eqb_spec i (dfa_root dfa)) as [->|Hne].
  { rewrite option_bind_Some. apply (IH st code); try done.
    - intros j Hj. apply Hun. by constructor.
    - intros j Hj. apply Hpl. destruct (decide (j = dfa_root dfa)); [by right|by apply not_elem_widen]. }
  destruct Hsch as [HMi Hsch]. destruct (vec_at_is_Some _ _ Hir) as [n Hn].
  pose proof (weight_node dfa ws Hws i n Hn) as Hw.
  pose proof (rest_nonneg dfa ws Hwf Hsize Hws idxs Hr). pose proof (weight_nonneg dfa ws Hwf Hsize Hws i Hir).
  rewrite Z.add_assoc in Hb |- *. pose proof (cinv_length _ _ _ _ _ Hc). pose proof (ci_end _ _ _ _ _ Hc).
  destruct (isKilled n) eqn:Hk.
  - assert (compileNode dfa st i false = Some st) as ->
      by (unfold compileNode; by rewrite Hn, option_bind_Some, Hk).
    rewrite option_bind_Some.
    unfold node_worst in Hw. rewrite Hk in Hw. injection Hw as Hw. rewrite <- Hw, Z.add_0_r in Hsch, Hb |- *.
    apply (IH st code); try done.
    + intros j Hj. apply Hun. by constructor.
    + intros j Hj. destruct (decide (j = i)) as [->|]; [|by apply Hpl, not_elem_widen].
      intros n' Hn' Hk'. congruence.
  - destruct (compileNode_spec dfa M Hwf Hsize HMl HMs st code next i n (weight ws i))
      as (st1 & blk & -> & Hc1 & Hp1 & Hother); try done; [by apply Hun; [constructor|]|lia|].
    rewrite option_bind_Some. apply (IH st1 (code ++ blk)); try done.
    + intros j Hj Hjr. rewrite Hother; [apply Hun; [by constructor|done]|]. by intros ->.
    + intros j Hj. destruct (decide (j = i)) as [->|Hji]; [done|].
      eapply placed_mono; [by apply Hpl, not_elem_widen|intros o Ho _; by rewrite Hother|lia].
Qed.

Lemma cinv_linked M st code next :
  cinv dfa M st code next -> next < 2 ^ 30 -> (forall i, placed dfa code (m_nodeStartOffsets st) i) ->
  code_ok (m_nodeStartOffsets st) 4 code /\ code_all (fun _ d _ => live_target dfa d) 4 code.
Proof.
  intros Hc Hb Hp. pose proof (ci_end _ _ _ _ _ Hc). pose proof (cinv_length _ _ _ _ _ Hc).
  split; (eapply code_all_impl; [|apply (ci_jumps _ _ _ _ _ Hc)]); [|by intros p d s _ [? _]].
  intros p d s _ [(n & Hn & Hk) (src & os & _ & _ & _ & o & Ho & Hg)].
  destruct (Hp d n Hn Hk) as (pre & acts & ts & t & body & post & _ & _ & Hcode & Hd & _).
  assert (o < 2 ^ 30 /\ 0 <= o) as [? ?].
  { rewrite Ho in Hd. injection Hd as ->. rewrite Hcode, !size_list_app, size_list_actions in *.
    pose proof (actions_size_nonneg acts). pose proof (size_list_nonneg pre).
    pose proof (size_list_nonneg body). pose proof (size_list_nonneg post).
    destruct (d =? dfa_root dfa); lia. }
  exists o. split_and!; [done|lia|done|]. destruct Hg as [[_ ?]|[-> _]]; [done|unfold uint32_max in *; lia].
Qed.

Lemma seqZ_range n : Forall (fun i => 0 <= i < n) (seqZ 0 n).
Proof. apply Forall_forall. intros i Hi%elem_of_seqZ. lia. Qed.

Lemma total_nonneg : 4 + foldr Z.add 0 ws < 2 ^ 30 ->
  0 <= weight ws (dfa_root dfa) /\ 0 <= rest dfa ws (seqZ 0 (vlen (dfa_nodes dfa)))
  /\ 4 + weight ws (dfa_root dfa) + rest dfa ws (seqZ 0 (vlen (dfa_nodes dfa))) = 4 + foldr Z.add 0 ws.
Proof.
  intros Hb. pose proof (live_target_lt dfa _ (wf_root _ Hwf)) as Hr. split_and!.
  - by apply (weight_nonneg dfa ws).
  - apply rest_nonneg; try done. apply seqZ_range.
  - rewrite <- (rest_all dfa ws Hws); [lia|]. apply elem_of_seqZ. lia.
Qed.

(** The estimates: the root behind its actions, then the other nodes. *)
Lemma maxNodeStartOffsets_spec n acts ts t :
  4 + foldr Z.add 0 ws < 2 ^ 30 -> (dfa_nodes dfa).[dfa_root dfa] = Some n -> isKilled n = false ->
  node_facts dfa n acts ts t ->
  exists M, maxNodeStartOffsets dfa = Some M
    /\ length M = length (dfa_nodes dfa) /\ Forall (fun m => 0 <= m < 2 ^ 30) M
    /\ M.[dfa_root dfa] = Some (4 + actions_size acts)
    /\ schedule dfa ws M (4 + weight ws (dfa_root dfa)) (seqZ 0 (vlen (dfa_nodes dfa))).
Proof.
  intros Hb Hn Hk Hnf. destruct (total_nonneg Hb) as (Hw & Hrest & Htotal).
  pose proof (vec_at_lt _ _ _ Hn) as Hr. pose proof (weight_node dfa ws Hws _ n Hn) as Hwn.
  rewrite (node_facts_worst _ _ _ _ _ Hnf Hk) in Hwn. injection Hwn as Hwn.
  pose proof (actions_size_nonneg acts). pose proof (wsize_list_nonneg (node_instrs t)).
  unfold maxNodeStartOffsets. rewrite Hn, option_bind_Some, (nf_acts _ _ _ _ _ Hnf), option_bind_Some.
  cbv zeta. fold (actions_size acts). rewrite (u32_small (4 + actions_size acts)) by lia.
  destruct (vec_set (replicate (length (dfa_nodes dfa)) 0) (dfa_root dfa) (4 + actions_size acts))
    as [offs|] eqn:Hset; [|by rewrite vec_set_Some in Hset by (rewrite length_replicate; lia)].
  rewrite option_bind_Some, (compiledNodeMax_spec dfa ws Hwf Hsize Hws), option_bind_Some by (done || lia).
  rewrite u32_small by lia.
  destruct (maxOffsets_loop_spec dfa ws Hwf Hsize Hws (seqZ 0 (vlen (dfa_nodes dfa))) offs
    (4 + weight ws (dfa_root dfa))) as (M & -> & ? & ? & HM & ?);
    [apply NoDup_seqZ|apply seqZ_range| | |lia|lia|].
  - by rewrite (vec_set_length _ _ _ _ Hset), length_replicate.
  - apply vec_set_inv in Hset as [_ ->]. apply Forall_insert; [|lia]. by apply Forall_replicate.
  - exists M. split_and!; try done. rewrite HM by (by right).
    rewrite (vec_at_set _ _ _ _ _ Hset). by case_decide.
Qed.

Lemma cinv_initial M :
  length M = length (dfa_nodes dfa) ->
  cinv dfa M (mkCompiler (to_bytes 4 0) M (replicate (length (dfa_nodes dfa)) uint32_max) []) [] 4.
Proof.
  intros. split; simpl; try done.
  - by rewrite app_nil_r.
  - by rewrite length_replicate.
  - apply Forall_replicate. by left.
  - by rewrite to_bytes_length.
  - intros i o Hi Hne. apply vec_at_Some in Hi as [_ [? _]%lookup_replicate_1]. done.
Qed.

Lemma compile_layout :
  4 + foldr Z.add 0 ws < 2 ^ 30 ->
  exists bc offs code, compile dfa [] = Some bc /\ layout dfa bc offs code
    /\ vlen bc <= 4 + foldr Z.add 0 ws.
Proof.
  intros Hb. destruct (total_nonneg Hb) as (Hw & Hrest & Htotal).
  destruct (wf_root _ Hwf) as (n & Hn & Hk). pose proof (vec_at_lt _ _ _ Hn) as Hr.
  destruct (node_facts_ex dfa Hwf Hsize _ n Hn Hk) as (acts & ts & t & Hnf).
  destruct (maxNodeStartOffsets_spec n acts ts t Hb Hn Hk Hnf) as (M & HM & HMl & HMs & HMr & Hsch).
  pose proof (weight_node dfa ws Hws _ n Hn) as Hwn.
  rewrite (node_facts_worst _ _ _ _ _ Hnf Hk) in Hwn. injection Hwn as Hwn.
  pose proof (cinv_initial M HMl) as Hc0. unfold compile. rewrite HM, option_bind_Some. cbv zeta.
  unfold append, with_nodeStart, with_maxStart, with_bytecode.
  cbn [m_bytecode m_maxNodeStartOffsets m_nodeStartOffsets m_linkRecords app length].
  set (st0 := mkCompiler _ _ _ _) in *.
  assert (Hst0 : forall i, 0 <= i < vlen (dfa_nodes dfa) -> (m_nodeStartOffsets st0).[i] = Some uint32_max).
  { intros i Hi. apply vec_at_Some. split; [lia|]. apply lookup_replicate_2. lia. }
  destruct (compileRoot_spec dfa M HMl HMs st0 4 n acts ts t) as (st1 & blk & -> & Hc1 & Hp1 & Hother);
    try done; [by apply Hst0|lia|].
  rewrite option_bind_Some. rewrite Hwn in Hc1.
  destruct (compile_loop M (seqZ 0 (vlen (dfa_nodes dfa))) st1 blk (4 + weight ws (dfa_root dfa)))
    as (st2 & code & -> & Hc2 & Hp2); try done; [apply NoDup_seqZ|apply seqZ_range|lia| | |].
  { intros i Hi%elem_of_seqZ Hne. rewrite Hother by done. apply Hst0. lia. }
  { intros i [Hi| ->]; [|done]. intros n' Hn'%vec_at_lt. rewrite elem_of_seqZ in Hi. lia. }
  rewrite option_bind_Some. destruct (cinv_linked _ _ _ _ Hc2) as [Hok Hlive]; [lia|done|].
  pose proof (cinv_length _ _ _ _ _ Hc2) as Hlen. pose proof (ci_end _ _ _ _ _ Hc2) as Hend.
  pose proof (link_code (m_nodeStartOffsets st2) code (m_linkRecords st2) (to_bytes 4 0) []) as Hlink.
  rewrite to_bytes_length, !app_nil_r in Hlink. rewrite (ci_bc _ _ _ _ _ Hc2).
  change (Z.of_nat 4) with 4 in Hlink.
  rewrite Hlink, option_bind_Some; [|apply (ci_keys _ _ _ _ _ Hc2)|lia|done].
  set (bc := to_bytes 4 0 ++ enc_list (hole_linked _) 4 code).
  assert (Hbc : vlen bc = 4 + size_list code).
  { unfold bc. rewrite length_app, Nat2Z.inj_add, to_bytes_length, enc_list_length; [done|].
    apply hole_linked_sized. }
  change (u32 (Z.of_nat 0)) with 0. rewrite Z.sub_0_r, u32_small by lia.
  exists (to_bytes 4 (vlen bc) ++ enc_list (hole_linked (m_nodeStartOffsets st2)) 4 code),
    (m_nodeStartOffsets st2), code.
  assert (Hlen' : forall v, vlen (to_bytes 4 v ++ enc_list (hole_linked (m_nodeStartOffsets st2)) 4 code)
    = 4 + size_list code).
  { intros v. rewrite length_app, Nat2Z.inj_add, to_bytes_length, enc_list_length; [done|].
    apply hole_linked_sized. }
  split_and!.
  - exact (setBits_field 4 [] (to_bytes 4 0) _ _ (to_bytes_length _ _)).
  - split; rewrite ?Hlen'; try done; [by rewrite Hbc|lia].
  - rewrite Hlen'. lia.
Qed.
End Compile.
