(* ===== verification/InterpreterSteps.v ===== *)
(** * One step of the interpreter on compiled code

    The bytes the compiler writes for an instruction, executed by [step]:
    decoding of op codes, jump distances and action words, and what each
    instruction does to the machine. *)

From S2P Require Import Prelude DFA Bytecode BytecodeCompiler BytecodeInterpreter TransitionsCorrect CodeLayout.

(** ** Decoding *)

Section Decode.
Context `{Host}.

Lemma load_at n mem pre x v post idx :
  mem = pre ++ x ++ to_bytes n v ++ post -> idx = vlen pre + vlen x ->
  load n mem idx = Some (uwrap (8 * Z.of_nat n) v).
Proof.
  intros -> ->. replace (vlen pre + vlen x) with (vlen (pre ++ x)) by (rewrite length_app; lia).
  by eapply load_field; rewrite <- (assoc_L (++)).
Qed.

Lemma op_byte_range i s : 0 <= op_byte i s < 256.
Proof. destruct i, s; by vm_compute. Qed.

Lemma op_instruction i s :
  instruction_of_code (Z.land (op_byte i s) DFABytecodeInstructionMask) = Some i.
Proof. by destruct i, s. Qed.

Lemma op_jumpSize i s : jumpSize_of_code (Z.land (op_byte i s) DFABytecodeJumpSizeMask) = Some s.
Proof. by destruct i, s. Qed.

Lemma instruction_code_decode i :
  instruction_of_code (Z.land (u8 (instruction_code i)) DFABytecodeInstructionMask) = Some i.
Proof. by destruct i. Qed.

(** A 24-bit distance is stored as its low half and its sign byte. *)
Lemma int24_join x : fits Int24 x -> Z.lor (u16 x) (Z.shiftl (Z.shiftr x 16) 16) = x.
Proof.
  intros _. unfold uwrap. apply Z.bits_inj'. intros n Hn. rewrite Z.lor_spec.
  destruct (Z.lt_ge_cases n 16).
  - by rewrite Z.mod_pow2_bits_low, Z.shiftl_spec_low, orb_false_r by lia.
  - rewrite Z.mod_pow2_bits_high, Z.shiftl_spec, Z.shiftr_spec by lia. simpl. f_equal. lia.
Qed.

Lemma swrap_of_uwrap w v : 0 <= w -> swrap w (uwrap w (swrap w v)) = swrap w v.
Proof.
  intros Hw. rewrite swrap_uwrap by done. unfold swrap. rewrite Z.sub_add, Z.mod_mod; [done|].
  by apply Z.pow_nonzero.
Qed.

(** The interpreter reads back the distance the linker stored. *)
Lemma getJumpDistance_bytes mem pre post s x :
  mem = pre ++ distance_bytes s x ++ post -> fits s x ->
  getJumpDistance mem (vlen pre) s = Some x.
Proof.
  intros Hm Hf. unfold getJumpDistance, getBits. destruct s; cbn [distance_bytes] in Hm.
  - rewrite (load_field _ _ _ _ _ Hm), option_bind_Some. change (8 * Z.of_nat 1) with 8.
    simpl in Hf. by rewrite swrap_of_uwrap, s8_small.
  - rewrite (load_field _ _ _ _ _ Hm), option_bind_Some. change (8 * Z.of_nat 2) with 16.
    simpl in Hf. by rewrite swrap_of_uwrap, s16_small.
  - rewrite <- (assoc_L (++)) in Hm. rewrite (load_field _ _ _ _ _ Hm), option_bind_Some.
    rewrite (load_at 1 mem pre (to_bytes 2 (u16 x)) (s8 (Z.shiftr x 16)) post);
      [|done|by rewrite to_bytes_length].
    rewrite option_bind_Some. change (8 * Z.of_nat 2) with 16. change (8 * Z.of_nat 1) with 8.
    rewrite swrap_of_uwrap by done. simpl in Hf.
    rewrite s8_small; [|rewrite Z.shiftr_div_pow2 by done; 
      split; [apply Z.div_le_lower_bound|apply Z.div_lt_upper_bound]; lia].
    f_equal. etransitivity; [|by apply (int24_join x)]. f_equal.
    unfold uwrap. by rewrite Z.mod_mod.
  - rewrite (load_field _ _ _ _ _ Hm), option_bind_Some. change (8 * Z.of_nat 4) with 32.
    simpl in Hf. rewrite swrap_uwrap by done. by rewrite s32_small.
Qed.
End Decode.

(** ** Action words *)

(** The flag test of [interpretTestFlagsAndAppendAction]. *)
Definition flags_match (a flags : Z) : bool :=
  let flagsToCheck := u16 (Z.shiftr a 32) in
  let loadTypeFlags := Z.land flagsToCheck LoadTypeMask in
  let resourceTypeFlags := Z.land flagsToCheck ResourceTypeMask in
  (if negb (loadTypeFlags =? 0) then negb (Z.land loadTypeFlags flags =? 0) else true)
  && (if negb (resourceTypeFlags =? 0) then negb (Z.land resourceTypeFlags flags =? 0) else true).

Definition has_flags (a : Z) : bool := negb (Z.land a ActionFlagMask =? 0).
Definition has_domain (a : Z) : bool := negb (Z.land a IfDomainFlag =? 0).

(** What one action of a visited node does to the result. *)
Definition run_action (doms : option (gset Z)) (flags : Z) (actions : gset Z) (a : Z) : gset Z :=
  if flags_match a flags then add_matching doms a actions else actions.

Lemma ActionFlagMask_shift : ActionFlagMask = Z.shiftl (Z.ones 16) 32.
Proof. done. Qed.

Lemma IfDomainFlag_pow : IfDomainFlag = 2 ^ 48.
Proof. done. Qed.

Lemma has_domain_testbit a : has_domain a = Z.testbit a 48.
Proof.
  unfold has_domain. rewrite IfDomainFlag_pow, Z.land_comm.
  destruct (Z.testbit a 48) eqn:E.
  - apply negb_true_iff, Z.eqb_neq. intros H0%(f_equal (fun x => Z.testbit x 48)).
    by rewrite Z.land_spec, Z.pow2_bits_true, E in H0.
  - apply negb_false_iff, Z.eqb_eq, Z.bits_inj'. intros n Hn.
    rewrite Z.land_spec, Z.bits_0, Z.pow2_bits_eqb by done.
    destruct (Z.eqb_spec 48 n) as [<-|]; [by rewrite E|done].
Qed.

Lemma has_flags_field a : has_flags a = negb (u16 (Z.shiftr a 32) =? 0).
Proof.
  unfold has_flags. f_equal. rewrite ActionFlagMask_shift.
  assert (Z.land a (Z.shiftl (Z.ones 16) 32) = Z.shiftl (u16 (Z.shiftr a 32)) 32) as ->.
  { unfold uwrap. rewrite <- Z.land_ones by done. apply Z.bits_inj'. intros n Hn.
    rewrite Z.land_spec. destruct (Z.lt_ge_cases n 32).
    - by rewrite !Z.shiftl_spec_low, andb_false_r.
    - rewrite !Z.shiftl_spec, Z.land_spec, Z.shiftr_spec by lia. do 2 f_equal. lia. }
  rewrite Z.shiftl_mul_pow2 by done. change (2 ^ 32) with 4294967296.
  case_bool; case_bool; lia || done.
Qed.

(** An action word is its domain bit, its flags and its location. *)
Lemma action_join a : 0 <= a < 2 ^ 49 ->
  Z.lor (Z.lor (if has_domain a then IfDomainFlag else 0) (Z.shiftl (u16 (Z.shiftr a 32)) 32)) (u32 a) = a.
Proof.
  intros Ha. rewrite has_domain_testbit, IfDomainFlag_pow. unfold uwrap.
  apply Z.bits_inj'. intros n Hn. rewrite !Z.lor_spec.
  assert (Hd : Z.testbit (if Z.testbit a 48 then 2 ^ 48 else 0) n = Z.testbit a 48 && (48 =? n)).
  { destruct (Z.testbit a 48); [by rewrite Z.pow2_bits_eqb|by rewrite Z.bits_0]. }
  rewrite Hd. destruct (Z.lt_ge_cases n 32).
  - rewrite Z.shiftl_spec_low, Z.mod_pow2_bits_low by lia.
    destruct (Z.eqb_spec 48 n); [lia|]. by rewrite andb_false_r.
  - rewrite (Z.mod_pow2_bits_high a 32), Z.shiftl_spec by lia.
    destruct (Z.lt_ge_cases n 48).
    + rewrite Z.mod_pow2_bits_low, Z.shiftr_spec by lia. destruct (Z.eqb_spec 48 n); [lia|].
      rewrite andb_false_r, orb_false_r. simpl. f_equal. lia.
    + rewrite Z.mod_pow2_bits_high by lia. rewrite !orb_false_r.
      destruct (Z.eqb_spec 48 n) as [<-|]; [by rewrite andb_true_r|].
      rewrite andb_false_r. symmetry. destruct (Z.eq_dec a 0) as [->|]; [apply Z.bits_0|].
      apply Z.bits_above_log2; [lia|]. apply Z.log2_lt_pow2; [lia|].
      eapply Z.lt_le_trans; [apply Ha|]. apply Z.pow_le_mono_r; lia.
Qed.

Lemma flags_match_none a flags : has_flags a = false -> flags_match a flags = true.
Proof.
  rewrite has_flags_field. intros Hf%negb_false_iff%Z.eqb_eq. unfold flags_match. by rewrite Hf.
Qed.

(** ** Steps

    [base] is where the DFA's bytecode starts in the interpreted buffer;
    positions and offsets inside the DFA are relative to it. *)

Section Steps.
Context `{Host} (mem : list Z) (doms : option (gset Z)) (url : list Z) (flags : Z).
Context (base : Z) (offs : list Z).
Hypothesis Hmem : vlen mem < 2 ^ 31.
Hypothesis Hbase : 0 <= base.

(** The linked code [l] is at position [p] of the DFA. *)
Definition at_code (p : Z) (l : list instr) : Prop :=
  exists pre post, mem = pre ++ enc_list (hole_linked offs) p l ++ post
    /\ vlen pre = base + p /\ code_ok offs p l /\ 0 <= p
    /\ base + p + size_list l <= vlen mem.

Lemma at_code_app p l1 l2 : at_code p (l1 ++ l2) -> at_code p l1 /\ at_code (p + size_list l1) l2.
Proof.
  intros (pre & post & Hm & Hp & Hok & Hp0 & Hb). unfold code_ok in Hok.
  rewrite enc_list_app in Hm. rewrite code_all_app in Hok. rewrite size_list_app in Hb.
  pose proof (size_list_nonneg l1). pose proof (size_list_nonneg l2).
  split.
  - exists pre, (enc_list (hole_linked offs) (p + size_list l1) l2 ++ post).
    rewrite <- (assoc_L (++)) in Hm. split_and!; tauto || lia.
  - exists (pre ++ enc_list (hole_linked offs) p l1), post.
    rewrite length_app, Nat2Z.inj_add, enc_list_length by apply hole_linked_sized.
    rewrite <- !(assoc_L (++)). rewrite <- (assoc_L (++)) in Hm. split_and!; tauto || lia.
Qed.

Lemma at_code_cons p i l : at_code p (i :: l) -> at_code p [i] /\ at_code (p + isize i) l.
Proof.
  intros [? Hl]%(at_code_app p [i] l). simpl in Hl. rewrite Z.add_0_r in Hl. done.
Qed.

(** Bytes of the instruction at [p]. *)
Lemma at_code_load p i n x v y :
  at_code p [i] -> enc (hole_linked offs) p i = x ++ to_bytes n v ++ y ->
  load n mem (base + p + vlen x) = Some (uwrap (8 * Z.of_nat n) v).
Proof.
  intros (pre & post & Hm & Hp & _) He. simpl in Hm. rewrite He, app_nil_r in Hm.
  rewrite <- !(assoc_L (++)) in Hm. by eapply load_at; [exact Hm|lia].
Qed.

Lemma at_code_distance p i x d s y :
  at_code p [i] -> enc (hole_linked offs) p i = x ++ hole_linked offs p d s ++ y ->
  field_ok offs p d s ->
  exists o, offs.[d] = Some o /\ getJumpDistance mem (base + p + vlen x) s = Some (o - p)
    /\ 0 <= o < 2 ^ 30.
Proof.
  intros (pre & post & Hm & Hp & _) He (o & Ho & Hr & Hf). simpl in Hm. rewrite He, app_nil_r in Hm.
  exists o. split; [done|]. split; [|done].
  assert (base + p + vlen x = vlen (pre ++ x)) as -> by (rewrite length_app; lia).
  eapply getJumpDistance_bytes; [|done].
  unfold hole_linked, offset_of in Hm. rewrite Ho in Hm. simpl in Hm.
  rewrite Hm, <- !(assoc_L (++)). done.
Qed.

Lemma at_code_bound p i : at_code p [i] -> 0 <= p /\ base + p + isize i < 2 ^ 31.
Proof. intros (_ & _ & _ & _ & _ & ? & Hb). simpl in Hb. lia. Qed.

Lemma at_code_fields p i : at_code p [i] -> fields_ok offs p (fields i).
Proof. intros (_ & _ & _ & _ & Hok & _). apply Hok. Qed.

Abbreviation run p k af A := (step mem doms url flags (mkI (base + p) k af A)).

(** The first byte selects the instruction. *)
Lemma fetch p i b :
  at_code p [i] -> (exists y, enc_head i = to_bytes 1 b ++ y) -> 0 <= b < 256 ->
  getInstruction mem (base + p) = Some (Z.land b DFABytecodeInstructionMask)
  /\ getJumpSize mem (base + p) = jumpSize_of_code (Z.land b DFABytecodeJumpSizeMask).
Proof.
  intros Hat [y Hy] Hb. unfold getInstruction, getJumpSize, getBits.
  pose proof (at_code_load p i 1 [] b (y ++ concat (map (fun f => hole_linked offs p (snd (fst f)) (snd f))
    (fields i))) Hat) as Hl. rewrite Z.add_0_r in Hl. rewrite Hl.
  - rewrite !option_bind_Some. change (8 * Z.of_nat 1) with 8. by rewrite uwrap_small.
  - unfold enc. rewrite Hy. by rewrite <- (assoc_L (++)).
Qed.

Lemma step_terminate p k af A : at_code p [ITerminate] -> run p k af A = Some (NextDFA A).
Proof.
  intros Hat. destruct (fetch p ITerminate 10 Hat) as [Hf _]; [exists []; by rewrite app_nil_r|lia|].
  unfold step. cbn [programCounter i_actions]. by rewrite Hf, option_bind_Some.
Qed.

Lemma instruction_code_range i : 0 <= instruction_code i < 256.
Proof. destruct i; simpl; lia. Qed.

Lemma fetch_append p a :
  at_code p [IAppend a] ->
  exists c, getInstruction mem (base + p) = Some c /\ instruction_of_code c = Some (action_instruction a).
Proof.
  intros Hat. pose proof (instruction_code_range (action_instruction a)) as Hr.
  destruct (fetch p _ (instruction_code (action_instruction a)) Hat) as [Hf _]; [by eexists|done|].
  eexists. split; [exact Hf|]. pose proof (instruction_code_decode (action_instruction a)) as Hd.
  by rewrite uwrap_small in Hd.
Qed.

Lemma isize_append a : isize (IAppend a) = if has_flags a then 7 else 5.
Proof.
  unfold isize, enc_head. fold (has_flags a). destruct (has_flags a); simpl;
    by rewrite ?length_app, !to_bytes_length.
Qed.

Lemma append_plain p a A :
  at_code p [IAppend a] -> 0 <= a < 2 ^ 49 -> has_flags a = false ->
  interpretAppendAction mem doms (base + p) A (has_domain a)
  = Some (base + (p + isize (IAppend a)), run_action doms flags A a).
Proof.
  intros Hat Ha Hf. destruct (at_code_bound _ _ Hat) as [Hp Hb].
  pose proof (isize_append a) as Hi. rewrite Hf in Hi.
  rewrite Hi in *. unfold interpretAppendAction, getBits, run_action.
  pose proof (at_code_load p _ 4 (to_bytes 1 (instruction_code (action_instruction a))) (u32 a) [] Hat) as Hl.
  rewrite to_bytes_length in Hl. change (Z.of_nat 1) with 1 in Hl. rewrite Hl.
  - rewrite option_bind_Some. cbn [instructionSizeWithArguments]. rewrite option_bind_Some.
    rewrite u32_small by lia. rewrite flags_match_none by done. change (8 * Z.of_nat 4) with 32.
    rewrite uwrap_uwrap. pose proof (action_join a Ha) as Hj. pose proof Hf as Hz. rewrite has_flags_field in Hz.
    apply negb_false_iff, Z.eqb_eq in Hz. rewrite Hz, Z.shiftl_0_l, Z.lor_0_r in Hj. rewrite Hj.
    do 2 f_equal. lia.
  - unfold enc, enc_head. fold (has_flags a). rewrite Hf. simpl. by rewrite !app_nil_r.
Qed.

Lemma append_flags p a A :
  at_code p [IAppend a] -> 0 <= a < 2 ^ 49 -> has_flags a = true ->
  interpretTestFlagsAndAppendAction mem doms (base + p) flags A (has_domain a)
  = Some (base + (p + isize (IAppend a)), run_action doms flags A a).
Proof.
  intros Hat Ha Hf. destruct (at_code_bound _ _ Hat) as [Hp Hb].
  pose proof (isize_append a) as Hi. rewrite Hf in Hi.
  rewrite Hi in *. set (op := to_bytes 1 (instruction_code (action_instruction a))).
  assert (He : enc (hole_linked offs) p (IAppend a) = op ++ to_bytes 2 (u16 (Z.shiftr a 32)) ++ to_bytes 4 (u32 a)).
  { unfold enc, enc_head. fold (has_flags a). rewrite Hf. simpl. by rewrite !app_nil_r. }
  pose proof (at_code_load p _ 2 op (u16 (Z.shiftr a 32)) (to_bytes 4 (u32 a)) Hat He) as H2.
  pose proof (at_code_load p _ 4 (op ++ to_bytes 2 (u16 (Z.shiftr a 32))) (u32 a) [] Hat) as H4.
  rewrite app_nil_r, <- (assoc_L (++)) in H4. specialize (H4 He). unfold op in H2, H4.
  rewrite to_bytes_length in H2. rewrite length_app, !to_bytes_length in H4. unfold interpretTestFlagsAndAppendAction, getBits.
  change (Z.of_nat 1) with 1 in H2. rewrite H2, option_bind_Some. cbn [instructionSizeWithArguments].
  rewrite option_bind_Some. change (8 * Z.of_nat 2) with 16. rewrite uwrap_uwrap.
  rewrite u32_small by lia. replace (base + p + 1 + 2) with (base + p + Z.of_nat (1 + 2)) by lia.
  rewrite H4, option_bind_Some. change (8 * Z.of_nat 4) with 32. rewrite uwrap_uwrap.
  rewrite (action_join a Ha). unfold run_action. replace (base + p + (1 + 2 + 4)) with (base + (p + 7)) by lia.
  unfold flags_match. destruct (_ && _); done.
Qed.

Lemma step_append p a k af A :
  at_code p [IAppend a] -> 0 <= a < 2 ^ 49 ->
  run p k af A = Some (Running (mkI (base + (p + isize (IAppend a))) k af (run_action doms flags A a))).
Proof.
  intros Hat Ha. destruct (fetch_append _ _ Hat) as (c & Hc & Hd).
  unfold step. cbn [programCounter i_actions]. rewrite Hc, option_bind_Some, Hd, option_bind_Some.
  pose proof (append_plain p a A Hat Ha) as Hp. pose proof (append_flags p a A Hat Ha) as Hfl.
  unfold action_instruction. fold (has_flags a) (has_domain a).
  destruct (has_flags a); [specialize (Hfl eq_refl)|specialize (Hp eq_refl)];
    (destruct (has_domain a); unfold after_append; cbn [urlIndex urlIndexIsAfterEndOfString];
     [by rewrite Hfl || rewrite Hp|by rewrite Hfl || rewrite Hp]).
Qed.

Lemma fetch_op p i op s :
  at_code p [i] -> (exists y, enc_head i = to_bytes 1 (op_byte op s) ++ y) ->
  exists c, getInstruction mem (base + p) = Some c /\ instruction_of_code c = Some op
    /\ getJumpSize mem (base + p) = Some s.
Proof.
  intros Hat Hy. destruct (fetch p i (op_byte op s) Hat Hy (op_byte_range op s)) as [Hf Hs].
  eexists. split_and!; [exact Hf|apply op_instruction|]. by rewrite Hs, op_jumpSize.
Qed.

(** Where a taken jump leads. *)
Definition landed (k c : Z) (A : gset Z) (d : Z) (o : outcome) : Prop :=
  exists off, offs.[d] = Some off /\ o = Running (mkI (base + off) (k + 1) (c =? 0) A).

Lemma folded_zero cs c : 0 <= c <= 127 -> (folded cs c =? 0) = (c =? 0).
Proof.
  intros Hc. unfold folded. destruct cs; [done|]. rewrite toASCIILowerChar_spec by done. bool_cases; lia || done.
Qed.

Lemma folded_range cs c : 0 <= c <= 127 -> 0 <= folded cs c <= 127.
Proof.
  intros Hc. unfold folded. destruct cs; [done|]. rewrite toASCIILowerChar_spec by done. bool_cases; lia.
Qed.

Hypothesis Hroom : base + 2 ^ 30 < 2 ^ 32.

Lemma take_jump_landed p i x d s y k c A :
  at_code p [i] -> enc (hole_linked offs) p i = x ++ hole_linked offs p d s ++ y ->
  field_ok offs p d s -> 0 <= k < 2 ^ 31 ->
  exists o, take_jump mem (mkI (base + p) k false A) (base + p + vlen x) s c = Some o
    /\ landed k c A d o.
Proof.
  intros Hat He Hok Hk. destruct (at_code_distance _ _ _ _ _ _ Hat He Hok) as (o & Ho & Hj & Hr).
  unfold take_jump. rewrite Hj, option_bind_Some. eexists. split; [reflexivity|].
  exists o. split; [done|]. cbn [programCounter urlIndex urlIndexIsAfterEndOfString i_actions].
  replace (base + p + (o - p)) with (base + o) by lia. rewrite !u32_small, orb_false_r by lia. done.
Qed.

Context (k c : Z) (Hk : 0 <= k < 2 ^ 31) (Hurl : url_at url k = Some c) (Hc : 0 <= c <= 127).

Lemma current_char_folded pc A cs : current_char url (mkI pc k false A) cs = Some (folded cs c).
Proof. unfold current_char. cbn [urlIndex]. by rewrite Hurl, option_bind_Some. Qed.

Lemma isize_check cs v d s : isize (ICheck cs v d s) = 1 + 1 + jumpSizeInBytes s.
Proof. unfold isize. simpl. rewrite length_app, !to_bytes_length. lia. Qed.

Lemma isize_range cs l h d s : isize (ICheckRange cs l h d s) = 1 + 2 + jumpSizeInBytes s.
Proof. unfold isize. simpl. rewrite !length_app, !to_bytes_length. lia. Qed.

Lemma isize_table cs l h ds s : isize (ITable cs l h ds s) = 1 + 2 + jumpSizeInBytes s * vlen ds.
Proof.
  unfold isize. simpl. rewrite !length_app, !to_bytes_length.
  assert (forall z, foldr Z.add 0 (map (fun f => jumpSizeInBytes (snd f)) (table_fields z s ds))
    = jumpSizeInBytes s * vlen ds) as ->; [|lia].
  induction ds as [|d ds IH]; intros z; simpl; [lia|]. rewrite IH. lia.
Qed.

Lemma advance_next p n A i :
  at_code p [i] -> isize i = n ->
  advance (mkI (base + p) k false A) n = Some (Running (mkI (base + (p + isize i)) k false A)).
Proof.
  intros Hat <-. destruct (at_code_bound _ _ Hat). pose proof (isize_pos i). unfold advance.
  cbn [programCounter urlIndex urlIndexIsAfterEndOfString i_actions]. rewrite u32_small by lia.
  by rewrite Z.add_assoc.
Qed.

Lemma byte_small v : 0 <= v <= 127 -> uwrap (8 * Z.of_nat 1) v = v.
Proof. intros. change (8 * Z.of_nat 1) with 8. apply uwrap_small. lia. Qed.

Lemma step_check p cs v d s A :
  at_code p [ICheck cs v d s] -> 0 <= v <= 127 ->
  exists o, run p k false A = Some o /\
    if folded cs c =? v then landed k c A d o
    else o = Running (mkI (base + (p + isize (ICheck cs v d s))) k false A).
Proof.
  intros Hat Hv. destruct (fetch_op p _ (check_op cs) s Hat) as (op & Hop & Hd & Hs); [by eexists|].
  destruct (at_code_bound _ _ Hat) as [Hp Hb]. rewrite isize_check in Hb.
  assert (0 <= jumpSizeInBytes s) by (destruct s; simpl; lia).
  assert (Hstep : run p k false A = interpretCheckValue mem url (mkI (base + p) k false A) cs).
  { unfold step. cbn [programCounter]. rewrite Hop, option_bind_Some, Hd, option_bind_Some.
    destruct cs; done. }
  rewrite Hstep. unfold interpretCheckValue. cbn [programCounter].
  rewrite current_char_folded, option_bind_Some, Hs, option_bind_Some. unfold getBits.
  pose proof (at_code_load p _ 1 (to_bytes 1 (op_byte (check_op cs) s)) v
    (hole_linked offs p d s) Hat) as Hl. rewrite to_bytes_length, byte_small in Hl by done.
  change (Z.of_nat 1) with 1 in Hl. rewrite Hl, option_bind_Some;
    [|unfold enc; simpl; by rewrite app_nil_r, <- (assoc_L (++))].
  destruct (folded cs c =? v) eqn:E.
  - rewrite u32_small by lia.
    destruct (take_jump_landed p _ (to_bytes 1 (op_byte (check_op cs) s) ++ to_bytes 1 v) d s [] k (folded cs c) A Hat)
      as (o & Ho & Hland); [|exact (Forall_inv (at_code_fields p _ Hat))|done|].
    { unfold enc. simpl. by rewrite !app_nil_r. }
    rewrite length_app, !to_bytes_length in Ho. exists o. split.
    + rewrite <- Ho. f_equal. lia.
    + unfold landed in *. by rewrite folded_zero in Hland.
  - eexists. split; [|reflexivity]. apply advance_next; [done|]. apply isize_check.
Qed.

Lemma step_range p cs l h d s A :
  at_code p [ICheckRange cs l h d s] -> 0 <= l <= 127 -> 0 <= h <= 127 ->
  exists o, run p k false A = Some o /\
    if (l <=? folded cs c) && (folded cs c <=? h) then landed k c A d o
    else o = Running (mkI (base + (p + isize (ICheckRange cs l h d s))) k false A).
Proof.
  intros Hat Hlow Hh. destruct (fetch_op p _ (range_op cs) s Hat) as (op & Hop & Hd & Hs); [by eexists|].
  destruct (at_code_bound _ _ Hat) as [Hp Hb]. rewrite isize_range in Hb.
  assert (0 <= jumpSizeInBytes s) by (destruct s; simpl; lia).
  assert (Hstep : run p k false A = interpretCheckValueRange mem url (mkI (base + p) k false A) cs).
  { unfold step. cbn [programCounter]. rewrite Hop, option_bind_Some, Hd, option_bind_Some.
    destruct cs; done. }
  set (o1 := to_bytes 1 (op_byte (range_op cs) s)).
  assert (He : enc (hole_linked offs) p (ICheckRange cs l h d s)
    = o1 ++ to_bytes 1 l ++ to_bytes 1 h ++ hole_linked offs p d s ++ []).
  { unfold enc. simpl. by rewrite <- !(assoc_L (++)). }
  pose proof (at_code_load p _ 1 o1 l _ Hat He) as H1.
  pose proof (at_code_load p _ 1 (o1 ++ to_bytes 1 l) h (hole_linked offs p d s ++ []) Hat) as H2.
  rewrite <- (assoc_L (++)) in H2. specialize (H2 He).
  rewrite ?length_app, byte_small in H1 by done. rewrite length_app, byte_small in H2 by done.
  unfold o1 in H1, H2. rewrite !to_bytes_length in H1. rewrite !to_bytes_length in H2.
  rewrite Hstep. unfold interpretCheckValueRange. cbn [programCounter].
  rewrite current_char_folded, option_bind_Some, Hs, option_bind_Some. unfold getBits.
  change (Z.of_nat 1) with 1 in H1. rewrite H1, option_bind_Some.
  replace (base + p + 1 + 1) with (base + p + Z.of_nat (1 + 1)) by lia. rewrite H2, option_bind_Some.
  destruct (_ && _) eqn:E.
  - rewrite u32_small by lia.
    destruct (take_jump_landed p _ (o1 ++ to_bytes 1 l ++ to_bytes 1 h) d s [] k (folded cs c) A Hat)
      as (o & Ho & Hland); [|exact (Forall_inv (at_code_fields p _ Hat))|done|].
    { rewrite He. by rewrite <- !(assoc_L (++)). }
    unfold o1 in Ho. rewrite !length_app, !to_bytes_length in Ho. exists o. split.
    + rewrite <- Ho. f_equal. lia.
    + unfold landed in *. by rewrite folded_zero in Hland.
  - eexists. split; [|reflexivity]. apply advance_next; [done|]. apply isize_range.
Qed.

(** The entry of a jump table for one of its characters. *)
Lemma table_entry at_ s ds (j : nat) d p :
  ds !! j = Some d ->
  exists x y, concat (map (fun f => hole_linked offs p (snd (fst f)) (snd f)) (table_fields at_ s ds))
      = x ++ hole_linked offs p d s ++ y
    /\ vlen x = Z.of_nat j * jumpSizeInBytes s.
Proof.
  revert at_ j. induction ds as [|d' ds IH]; intros at_ [|j] Hj; simplify_eq; simpl in *; simplify_eq.
  - by eexists [], _.
  - destruct (IH (at_ + jumpSizeInBytes s) j Hj) as (x & y & -> & Hx).
    exists (hole_linked offs p d' s ++ x), y. split; [by rewrite <- (assoc_L (++))|].
    rewrite length_app, Nat2Z.inj_add, (hole_linked_sized offs), Hx. lia.
Qed.

Lemma table_fields_ok at_ s ds d p :
  fields_ok offs p (table_fields at_ s ds) -> d ∈ ds -> field_ok offs p d s.
Proof.
  revert at_. induction ds as [|d' ds IH]; intros at_ Hf Hd; [by apply not_elem_of_nil in Hd|].
  apply Forall_cons in Hf as [Hd' Hf]. apply elem_of_cons in Hd as [->|Hd]; [done|]. by eapply IH.
Qed.

Lemma step_table p cs l h ds s A :
  at_code p [ITable cs l h ds s] -> 0 <= l <= h -> h <= 127 -> vlen ds = h - l + 1 ->
  exists o, run p k false A = Some o /\
    match (if (l <=? folded cs c) && (folded cs c <=? h) then ds.[folded cs c - l] else None) with
    | Some d => landed k c A d o
    | None => o = Running (mkI (base + (p + isize (ITable cs l h ds s))) k false A)
    end.
Proof.
  intros Hat Hlow Hh Hds. destruct (fetch_op p _ (table_op cs) s Hat) as (op & Hop & Hd & Hs); [by eexists|].
  destruct (at_code_bound _ _ Hat) as [Hp Hb]. rewrite isize_table in Hb.
  assert (1 <= jumpSizeInBytes s <= 4) by (destruct s; simpl; lia).
  assert (Hstep : run p k false A = interpretJumpTable mem url (mkI (base + p) k false A) cs).
  { unfold step. cbn [programCounter]. rewrite Hop, option_bind_Some, Hd, option_bind_Some.
    destruct cs; done. }
  set (o1 := to_bytes 1 (op_byte (table_op cs) s)).
  set (tl := concat (map (fun f => hole_linked offs p (snd (fst f)) (snd f)) (table_fields 3 s ds))).
  assert (He : enc (hole_linked offs) p (ITable cs l h ds s) = o1 ++ to_bytes 1 l ++ to_bytes 1 h ++ tl).
  { unfold enc. cbn [enc_head fields]. by rewrite <- !(assoc_L (++)). }
  pose proof (at_code_load p _ 1 o1 l _ Hat He) as H1.
  pose proof (at_code_load p _ 1 (o1 ++ to_bytes 1 l) h tl Hat) as H2.
  rewrite <- (assoc_L (++)) in H2. specialize (H2 He).
  rewrite byte_small in H1 by lia. rewrite length_app, byte_small in H2 by lia.
  unfold o1 in H1, H2. rewrite !to_bytes_length in H1. rewrite !to_bytes_length in H2.
  rewrite Hstep. unfold interpretJumpTable. cbn [programCounter].
  rewrite Hs, option_bind_Some, current_char_folded, option_bind_Some. unfold getBits.
  change (Z.of_nat 1) with 1 in H1. rewrite H1, option_bind_Some.
  replace (base + p + 1 + 1) with (base + p + Z.of_nat (1 + 1)) by lia. rewrite H2, option_bind_Some.
  destruct (_ && _) eqn:E; bprop.
  - destruct (vec_at_is_Some ds (folded cs c - l)) as [d Hdd]; [lia|]. rewrite Hdd.
    apply vec_at_Some in Hdd as [_ Hdd]. destruct (table_entry 3 s ds _ d p Hdd) as (x & y & Ht & Hx).
    destruct (take_jump_landed p _ (o1 ++ to_bytes 1 l ++ to_bytes 1 h ++ x) d s y k (folded cs c) A Hat)
      as (o & Ho & Hland); [| |done|].
    { rewrite He. fold tl in Ht. rewrite Ht. by rewrite <- !(assoc_L (++)). }
    { eapply table_fields_ok; [exact (at_code_fields p _ Hat)|]. by eapply list_elem_of_lookup_2. }
    unfold o1 in Ho. rewrite !length_app, !to_bytes_length, !Nat2Z.inj_add, Hx in Ho.
    rewrite Z2Nat.id in Ho by lia.
    exists o. split.
    + rewrite <- Ho. rewrite (u32_small (base + p + 1 + 2)) by lia.
      assert (0 <= (folded cs c - l) * jumpSizeInBytes s <= jumpSizeInBytes s * vlen ds) by nia.
      rewrite u32_small by lia. f_equal. lia.
    + unfold landed in *. by rewrite folded_zero in Hland.
  - eexists. split; [|reflexivity]. apply advance_next; [done|]. rewrite isize_table. lia.
Qed.

Lemma step_jump p d s A :
  at_code p [IJump d s] ->
  exists o, run p k false A = Some o /\ if c =? 0 then o = NextDFA A else landed k c A d o.
Proof.
  intros Hat. destruct (fetch_op p _ Jump s Hat) as (op & Hop & Hd & Hs); [exists []; by rewrite app_nil_r|].
  destruct (at_code_bound _ _ Hat) as [Hp Hb]. unfold isize in Hb. simpl in Hb. rewrite to_bytes_length in Hb.
  assert (1 <= jumpSizeInBytes s <= 4) by (destruct s; simpl; lia).
  unfold step. cbn [programCounter]. rewrite Hop, option_bind_Some, Hd, option_bind_Some.
  unfold interpretJump. cbn [urlIndex urlIndexIsAfterEndOfString programCounter i_actions].
  rewrite Hurl, option_bind_Some, orb_false_r. destruct (c =? 0) eqn:E; [by eexists|].
  rewrite Hs, option_bind_Some, (u32_small (base + p + 1)) by lia.
  destruct (at_code_distance p _ (to_bytes 1 (op_byte Jump s)) d s [] Hat) as (o & Ho & Hj & Hr);
    [done|exact (Forall_inv (at_code_fields p _ Hat))|].
  rewrite to_bytes_length in Hj. change (Z.of_nat 1) with 1 in Hj. rewrite Hj, option_bind_Some.
  eexists. split; [reflexivity|]. exists o. split; [done|].
  replace (base + p + (o - p)) with (base + o) by lia. rewrite !u32_small by lia. by rewrite E.
Qed.

(** After the terminator was consumed, a test ends the run of this DFA. *)
Lemma step_after_end p i k' A :
  at_code p [i] -> (forall a, i <> IAppend a) -> (forall d s, i <> IJump d s) ->
  run p k' true A = Some (NextDFA A).
Proof.
  intros Hat Ha Hj. destruct i as [a|cs v d s|cs l h d s|cs l h ds s|d s|];
    [by destruct (Ha a)| | | |by destruct (Hj d s)|].
  - destruct (fetch_op p _ (check_op cs) s Hat) as (op & Hop & Hd & _); [by eexists|].
    unfold step. cbn [programCounter]. rewrite Hop, option_bind_Some, Hd. by destruct cs.
  - destruct (fetch_op p _ (range_op cs) s Hat) as (op & Hop & Hd & _); [by eexists|].
    unfold step. cbn [programCounter]. rewrite Hop, option_bind_Some, Hd. by destruct cs.
  - destruct (fetch_op p _ (table_op cs) s Hat) as (op & Hop & Hd & _); [by eexists|].
    unfold step. cbn [programCounter]. rewrite Hop, option_bind_Some, Hd. by destruct cs.
  - by apply step_terminate.
Qed.
End Steps.
