(* ===== verification/BytecodeCorrect.v ===== *)
(** * Compiled bytecode runs like the DFA

    The interpreter on the bytecode of one or more DFAs collects exactly the
    actions of the nodes the DFAs visit on the URL and its terminator, those
    excluded by flags or domain conditions aside. *)

From S2P Require Import Prelude DFA Bytecode BytecodeCompiler BytecodeInterpreter TransitionsCorrect CodeLayout CompilerCorrect CompileLayout InterpreterSteps.

(** ** The reference semantics *)

Section Reference.
Context (doms : option (gset Z)) (flags : Z) (dfa : DFA).

Definition actions_at (i : Z) : list Z := default [] (n ← (dfa_nodes dfa).[i]; node_actions dfa n).

(** Actions run on entering a node: those of the root run only at the start. *)
Definition entry_actions (i : Z) : list Z := if i =? dfa_root dfa then [] else actions_at i.

Definition visit (A : gset Z) (i : Z) : gset Z := foldl (run_action doms flags) A (entry_actions i).

(** At the start of the first DFA only the flagged actions of the root run;
    the others are what [actionsMatchingEverything] returns. *)
Definition run_flagged (A : gset Z) (a : Z) : gset Z :=
  if has_flags a then run_action doms flags A a else A.

Definition dfa_result (first : bool) (url : list Z) (A : gset Z) : gset Z :=
  foldl visit (foldl (if first then run_flagged else run_action doms flags) A (actions_at (dfa_root dfa)))
    (dfa_trace dfa (dfa_root dfa) (url ++ [0])).

(** The terminator never leads to a node whose code can start with a jump. *)
Definition eol_safe : Prop :=
  forall i d n ts, dfa_step dfa i 0 = Some d -> (dfa_nodes dfa).[d] = Some n ->
    node_transitions dfa n = Some ts -> canUseFallback ts = false.

(** No node uses the target of its terminator as its fallback. *)
Definition nul_explicit : Prop :=
  forall i n ts d, (dfa_nodes dfa).[i] = Some n -> isKilled n = false ->
    node_transitions dfa n = Some ts -> canUseFallback ts = true ->
    bestFallback ts = Some d -> ts_step ts 0 <> Some d.
End Reference.

(** ** Runs *)

Section Runs.
Context `{Host} (mem : list Z) (doms : option (gset Z)) (url : list Z) (flags : Z).

(** [n] steps lead from one state to the other. *)
Definition leads (n : nat) (s s' : istate) : Prop :=
  forall fuel, exec mem doms (n + fuel) url flags s = exec mem doms fuel url flags s'.

(** The run of the DFA ends within [n] steps. *)
Definition stops (n : nat) (s : istate) (A : gset Z) : Prop :=
  forall fuel, (n <= fuel)%nat -> exec mem doms fuel url flags s = Some A.

Lemma leads_refl s : leads 0 s s.
Proof. done. Qed.

Lemma leads_step s s' : step mem doms url flags s = Some (Running s') -> leads 1 s s'.
Proof. intros Hs fuel. simpl. by rewrite Hs. Qed.

Lemma stops_step s A : step mem doms url flags s = Some (NextDFA A) -> stops 1 s A.
Proof. intros Hs [|fuel] Hf; [lia|]. simpl. by rewrite Hs. Qed.

Lemma leads_trans n1 n2 s1 s2 s3 : leads n1 s1 s2 -> leads n2 s2 s3 -> leads (n1 + n2) s1 s3.
Proof. intros H1 H2 fuel. by rewrite <- Nat.add_assoc, H1, H2. Qed.

Lemma leads_stops n1 n2 s1 s2 A : leads n1 s1 s2 -> stops n2 s2 A -> stops (n1 + n2) s1 A.
Proof.
  intros H1 H2 fuel Hf. replace fuel with (n1 + (fuel - n1))%nat by lia. rewrite H1. apply H2. lia.
Qed.

Lemma stops_mono n n' s A : stops n s A -> (n <= n')%nat -> stops n' s A.
Proof. intros Hs Hn fuel Hf. apply Hs. lia. Qed.
End Runs.

(** ** The code of a node *)

Section Node.
Context `{Host} (mem : list Z) (doms : option (gset Z)) (url : list Z) (flags : Z).
Context (base : Z) (offs : list Z).
Hypothesis Hmem : vlen mem < 2 ^ 31.
Hypothesis Hbase : 0 <= base.
Hypothesis Hroom : base + 2 ^ 30 < 2 ^ 32.

Abbreviation leads' := (leads mem doms url flags).
Abbreviation stops' := (stops mem doms url flags).
Abbreviation at_code' := (at_code mem base offs).

Lemma run_actions p acts k af A :
  at_code' p (map IAppend acts) -> Forall (fun a => 0 <= a < 2 ^ 49) acts ->
  leads' (length acts) (mkI (base + p) k af A)
    (mkI (base + (p + size_list (map IAppend acts))) k af (foldl (run_action doms flags) A acts)).
Proof.
  intros Hat Hok. revert p A Hat. induction Hok as [|a acts Ha Hok IH]; intros p A Hat; simpl.
  { rewrite Z.add_0_r. apply leads_refl. }
  apply at_code_cons in Hat as [Hat Hat']; [|done..].
  apply (leads_trans _ _ _ _ 1) with (s2 := mkI (base + (p + isize (IAppend a))) k af (run_action doms flags A a)).
  - apply leads_step. by apply (step_append mem doms url flags base offs).
  - specialize (IH (p + isize (IAppend a)) (run_action doms flags A a) Hat').
    rewrite <- Z.add_assoc in IH. exact IH.
Qed.

Context (k c : Z) (Hk : 0 <= k < 2 ^ 31) (Hurl : url_at url k = Some c) (Hc : 0 <= c <= 127).

(** The state after a jump to [d]. *)
Definition jumps (n : nat) (s : istate) (A : gset Z) (d : Z) : Prop :=
  exists m off, (m <= n)%nat /\ offs.[d] = Some off
    /\ leads' m s (mkI (base + off) (k + 1) (c =? 0) A).

Lemma jumps_landed p A d o :
  step mem doms url flags (mkI (base + p) k false A) = Some o -> landed base offs k c A d o ->
  jumps 1 (mkI (base + p) k false A) A d.
Proof. intros Hs (off & Ho & ->). exists 1%nat, off. split_and!; [done|done|]. by apply leads_step. Qed.

Lemma jumps_after n1 n2 s s' A d : leads' n1 s s' -> jumps n2 s' A d -> jumps (n1 + n2) s A d.
Proof.
  intros Hl (m & off & Hm & Ho & Hl'). exists (n1 + m)%nat, off. split_and!; [lia|done|]. by eapply leads_trans.
Qed.

Lemma jumps_mono n n' s A d : jumps n s A d -> (n <= n')%nat -> jumps n' s A d.
Proof. intros (m & off & ? & ? & ?) ?. exists m, off. split_and!; [lia|done..]. Qed.

(** A sequence of tests: the first that accepts the character jumps. *)
Definition tests (n : nat) (p p' : Z) (A : gset Z) (target : option Z) : Prop :=
  match target with
  | Some d => jumps n (mkI (base + p) k false A) A d
  | None => leads' n (mkI (base + p) k false A) (mkI (base + p') k false A)
  end.

Lemma tests_cons n p p1 p2 A t1 t2 :
  tests 1 p p1 A t1 -> tests n p1 p2 A t2 ->
  tests (S n) p p2 A (match t1 with Some d => Some d | None => t2 end).
Proof.
  destruct t1 as [d|]; simpl; intros H1 H2; [by eapply jumps_mono; [done|lia]|].
  destruct t2 as [d|]; simpl in *; [by eapply (jumps_after 1)|by eapply (leads_trans _ _ _ _ 1)].
Qed.

Lemma run_table i jt p A :
  erase i = table_instr jt -> wf_table jt -> at_code' p [i] -> tests 1 p (p + isize i) A (table_target jt c).
Proof.
  intros He (Hlo & Hhi & Hlen) Hat. destruct i; simplify_eq. injection He as -> -> -> ->.
  destruct (step_table mem doms url flags base offs Hmem Hbase Hroom k c Hk Hurl Hc p _ _ _ _ _ A Hat)
    as (o & Ho & Hres); [done..|].
  match type of Hres with match ?x with _ => _ end => change x with (table_target jt c) in Hres end.
  unfold tests. destruct (table_target jt c) as [d|]; [by eapply jumps_landed|]. subst o. by apply leads_step.
Qed.

Lemma run_range i r p A :
  erase i = range_instr r -> wf_range r -> at_code' p [i] -> tests 1 p (p + isize i) A (range_target r c).
Proof.
  intros He [Hlo Hhi] Hat. unfold range_instr in He. unfold range_target, tests. cbv zeta.
  destruct (Z.eqb_spec (r_min r) (r_max r)) as [Heq|Hne]; destruct i; simplify_eq;
    injection He; intros; subst.
  - destruct (step_check mem doms url flags base offs Hmem Hbase Hroom k c Hk Hurl Hc p _ _ _ _ A Hat)
      as (o & Ho & Hres); [lia|].
    destruct (Z.eqb_spec (folded (r_caseSensitive r) c) (r_min r)); bool_cases; try lia;
      (by eapply jumps_landed) || (subst o; by apply leads_step).
  - destruct (step_range mem doms url flags base offs Hmem Hbase Hroom k c Hk Hurl Hc p _ _ _ _ _ A Hat)
      as (o & Ho & Hres); [lia..|].
    destruct (_ && _); [by eapply jumps_landed|]. subst o. by apply leads_step.
Qed.

Lemma run_tables jts l p A :
  map erase l = map table_instr jts -> Forall wf_table jts -> at_code' p l ->
  tests (length l) p (p + size_list l) A (first_table jts c).
Proof.
  intros He Hwf. revert l p He. induction Hwf as [|jt jts Hjt Hwf IH]; intros [|i l] p He Hat; try done; simpl.
  { rewrite Z.add_0_r. apply leads_refl. }
  injection He as Hi Hl. apply at_code_cons in Hat as [Hi' Hat]; [|done..].
  eapply tests_cons; [by apply run_table|]. rewrite Z.add_assoc. by apply IH.
Qed.

Lemma run_ranges rs l p A :
  map erase l = map range_instr rs -> Forall wf_range rs -> at_code' p l ->
  tests (length l) p (p + size_list l) A (first_range rs c).
Proof.
  intros He Hwf. revert l p He. induction Hwf as [|r rs Hr Hwf IH]; intros [|i l] p He Hat; try done; simpl.
  { rewrite Z.add_0_r. apply leads_refl. }
  injection He as Hi Hl. apply at_code_cons in Hat as [Hi' Hat]; [|done..].
  eapply tests_cons; [by apply run_range|]. rewrite Z.add_assoc. by apply IH.
Qed.

(** The transitions of a node do what [select] says. *)
Lemma run_body t body p A :
  map erase body = node_instrs t -> Forall wf_table (jumpTables t) -> Forall wf_range (ranges t) ->
  at_code' p body ->
  match select t c with
  | Some d => jumps (length body) (mkI (base + p) k false A) A d
  | None => stops' (length body) (mkI (base + p) k false A) A
  end.
Proof.
  intros He Hjt Hr Hat. unfold node_instrs in He.
  apply map_eq_app in He as (l1 & l' & -> & He1 & He'). apply map_eq_app in He' as (l2 & l3 & -> & He2 & He3).
  apply at_code_app in Hat as [Hat1 Hat]; [|done..]. apply at_code_app in Hat as [Hat2 Hat3]; [|done..].
  pose proof (run_tables _ _ _ A He1 Hjt Hat1) as H1. pose proof (run_ranges _ _ _ A He2 Hr Hat2) as H2.
  rewrite !length_app. unfold select. destruct (first_table (jumpTables t) c) as [d|]; simpl in H1.
  { eapply jumps_mono; [done|lia]. }
  destruct (first_range (ranges t) c) as [d|]; simpl in H2.
  { eapply jumps_mono; [by eapply jumps_after|lia]. }
  destruct l3 as [|i [|]]; simplify_eq; injection He3 as Hi. simpl in Hat3 |- *.
  pose proof (leads_trans _ _ _ _ _ _ _ _ _ H1 H2) as H12. rewrite Nat.add_assoc.
  unfold final_instr in Hi. destruct (useFallbackTransition t); destruct i; simplify_eq; simpl.
  - destruct (step_jump mem doms url flags base offs Hmem Hbase k c Hk Hurl Hc _ _ _ A Hat3) as (o & Ho & Hres).
    injection Hi as ->. destruct (c =? 0) eqn:Ec; simpl.
    + subst o. eapply leads_stops; [done|]. by apply stops_step.
    + eapply jumps_after; [done|]. by eapply jumps_landed.
  - eapply leads_stops; [done|]. apply stops_step. by apply (step_terminate mem doms url flags base offs).
Qed.
End Node.

(** ** One DFA *)

Section Trace.
Context `{Host} (mem : list Z) (doms : option (gset Z)) (url : list Z) (flags : Z).
Context (dfa : DFA) (bc offs : list Z) (code : list instr) (before after : list Z).
Hypothesis Hlay : layout dfa bc offs code.
Hypothesis Hcat : mem = before ++ bc ++ after.
Hypothesis Hmem : vlen mem < 2 ^ 31.
Hypothesis Hchars : Forall (fun c => 1 <= c <= 127) url.
Hypothesis Hlong : vlen url + 2 < 2 ^ 31.
Hypothesis Heol : eol_safe dfa.
Hypothesis Hnul : nul_explicit dfa.
Hypothesis Hroot : live_target dfa (dfa_root dfa).

Abbreviation base := (vlen before).
Abbreviation leads' := (leads mem doms url flags).
Abbreviation stops' := (stops mem doms url flags).
Abbreviation at_code' := (at_code mem base offs).

Lemma room : base + 2 ^ 30 < 2 ^ 32.
Proof. rewrite Hcat, length_app in Hmem. lia. Qed.

Lemma at_code_start : at_code' 4 code.
Proof.
  destruct Hlay. exists (before ++ to_bytes 4 (vlen bc)), after. split_and!.
  - rewrite Hcat, lay_bc at 1. by rewrite <- !(assoc_L (++)).
  - rewrite length_app, to_bytes_length. lia.
  - done.
  - lia.
  - rewrite Hcat, !length_app. lia.
Qed.

Lemma length_code l p : at_code' p l -> (length l <= length mem)%nat.
Proof.
  intros (_ & _ & _ & _ & _ & Hp & Hb). assert (vlen l <= size_list l); [|lia].
  clear. induction l as [|i l IH]; simpl; [done|]. pose proof (isize_pos i). lia.
Qed.

(** What the layout says about the entry of a live node. *)
Lemma node_entry d :
  live_target dfa d ->
  exists n ts t body off, (dfa_nodes dfa).[d] = Some n /\ isKilled n = false
    /\ node_facts dfa n (actions_at dfa d) ts t /\ map erase body = node_instrs t
    /\ offs.[d] = Some off
    /\ at_code' off (map IAppend (entry_actions dfa d) ++ body).
Proof.
  intros (n & Hn & Hk).
  destruct (lay_placed _ _ _ _ Hlay d n Hn Hk) as (pre & acts & ts & t & body & post & Hnf & Hm & Hcode & Ho & _).
  assert (actions_at dfa d = acts) as Hacts.
  { unfold actions_at. by rewrite Hn, option_bind_Some, (nf_acts _ _ _ _ _ Hnf). }
  pose proof at_code_start as Hat. rewrite Hcode in Hat. apply at_code_app in Hat as [_ Hat].
  eexists n, ts, t, body, _. rewrite Hacts. split_and!; try done.
  unfold entry_actions. rewrite Hacts. rewrite (assoc_L (++)) in Hat. destruct (d =? dfa_root dfa).
  - apply at_code_app in Hat as [Hat _]. apply at_code_app in Hat as [_ Hat].
    by rewrite size_list_actions in Hat.
  - apply at_code_app in Hat as [Hat _]. by rewrite Z.add_0_r.
Qed.

Lemma code_step_explicit n ts c i :
  (dfa_nodes dfa).[i] = Some n -> isKilled n = false -> node_transitions dfa n = Some ts ->
  code_step ts c = ts_step ts c.
Proof.
  intros Hn Hk Hts. unfold code_step. destruct (ts_step ts c) as [d|] eqn:E; [|done].
  destruct (canUseFallback ts) eqn:Ef; [|done]. destruct (Z.eqb_spec c 0) as [->|]; [|done]. simpl.
  case_bool_decide as Hb; [|done]. by destruct (Hnul i n ts d Hn Hk Hts Ef Hb).
Qed.

Lemma suffix_char pre c w :
  url ++ [0] = pre ++ c :: w -> url_at url (vlen pre) = Some c /\ 0 <= vlen pre < 2 ^ 31
    /\ 0 <= c <= 127 /\ (c =? 0) = bool_decide (w = []).
Proof.
  intros Hw. split_and!.
  - unfold url_at. rewrite vec_at_nat, Hw, lookup_app_r, Nat.sub_diag by lia. done.
  - lia.
  - apply (f_equal length) in Hw. rewrite !length_app in Hw. simpl in Hw. lia.
  - assert (c ∈ url ++ [0]) as Hin by (rewrite Hw; set_solver).
    apply elem_of_app in Hin as [Hin|Hin%list_elem_of_singleton]; [|lia].
    rewrite Forall_forall in Hchars. specialize (Hchars c Hin). simpl in Hchars. lia.
  - assert (c ∈ url ++ [0]) as Hin by (rewrite Hw; set_solver).
    apply elem_of_app in Hin as [Hin|Hin%list_elem_of_singleton]; [|lia].
    rewrite Forall_forall in Hchars. specialize (Hchars c Hin). simpl in Hchars. lia.
  - destruct w as [|c' w _] using rev_ind.
    + apply app_inj_tail in Hw as [_ <-]. done.
    + rewrite bool_decide_eq_false_2 by (by destruct w). rewrite app_comm_cons, (assoc_L (++)) in Hw.
      apply app_inj_tail in Hw as [Hw _]. rewrite Hw in Hchars.
      apply Forall_app in Hchars as [_ Hc%Forall_cons]. destruct Hc as [? _]. apply Z.eqb_neq. lia.
Qed.

Lemma body_head t body :
  map erase body = node_instrs t -> useFallbackTransition t = false ->
  exists i l, body = i :: l /\ (forall a, i <> IAppend a) /\ (forall d s, i <> IJump d s).
Proof.
  unfold node_instrs, final_instr. intros He Hu. rewrite Hu in He.
  destruct body as [|i l]; [by destruct (jumpTables t), (ranges t)|]. exists i, l. split; [done|].
  assert (Hi : (exists jt, erase i = table_instr jt) \/ (exists r, erase i = range_instr r) \/ erase i = ITerminate).
  { destruct (jumpTables t); [destruct (ranges t)|]; simpl in He; injection He; eauto. }
  split; intros *; intros ->; destruct Hi as [[? Hi]|[[r Hi]|Hi]]; try discriminate Hi;
    unfold range_instr in Hi; destruct (_ =? _); discriminate Hi.
Qed.

Lemma dfa_step_ts d n ts c :
  (dfa_nodes dfa).[d] = Some n -> node_transitions dfa n = Some ts -> dfa_step dfa d c = ts_step ts c.
Proof. intros Hn Hts. unfold dfa_step. by rewrite Hn, option_bind_Some, Hts. Qed.

Lemma ts_step_live n acts ts t c d : node_facts dfa n acts ts t -> ts_step ts c = Some d -> live_target dfa d.
Proof.
  intros Hnf (r & Hr & _)%ts_step_elem. pose proof (nf_live _ _ _ _ _ Hnf) as Hl.
  rewrite Forall_forall in Hl. apply (Hl _ Hr).
Qed.

Lemma entry_actions_bound d n ts t :
  node_facts dfa n (actions_at dfa d) ts t -> Forall (fun a => 0 <= a < 2 ^ 49) (entry_actions dfa d).
Proof. intros []. unfold entry_actions. by destruct (_ =? _). Qed.

(** The actions in front of some code, then the code. *)
Lemma run_block acts body p k af A :
  at_code' p (map IAppend acts ++ body) -> Forall (fun a => 0 <= a < 2 ^ 49) acts ->
  leads' (length acts) (mkI (base + p) k af A)
    (mkI (base + (p + size_list (map IAppend acts))) k af (foldl (run_action doms flags) A acts))
  /\ at_code' (p + size_list (map IAppend acts)) body.
Proof.
  intros Hat Hb. apply at_code_app in Hat as [Hat Hat']. split; [|done].
  apply (run_actions mem doms url flags base offs); done || lia.
Qed.

(** From a position of the DFA with the node's transitions after some actions. *)
Lemma run_node acts body p n t ts d k c A :
  at_code' p (map IAppend acts ++ body) -> Forall (fun a => 0 <= a < 2 ^ 49) acts ->
  (dfa_nodes dfa).[d] = Some n -> isKilled n = false -> node_facts dfa n (actions_at dfa d) ts t ->
  map erase body = node_instrs t ->
  url_at url k = Some c -> 0 <= k < 2 ^ 31 -> 0 <= c <= 127 ->
  let A' := foldl (run_action doms flags) A acts in
  match dfa_step dfa d c with
  | Some d' => jumps mem doms url flags base offs k c (length mem) (mkI (base + p) k false A) A' d'
  | None => stops' (length mem) (mkI (base + p) k false A) A'
  end.
Proof.
  intros Hat Hb Hn Hk Hnf Hm Hurl Hk0 Hc. cbv zeta. pose proof (length_code _ _ Hat) as Hlen.
  rewrite length_app, length_map in Hlen. destruct (run_block _ _ _ k false A Hat Hb) as [Hl Hat'].
  rewrite (dfa_step_ts d n ts c Hn (nf_ts _ _ _ _ _ Hnf)).
  rewrite <- (code_step_explicit n ts c d Hn Hk (nf_ts _ _ _ _ _ Hnf)), <- (nf_select _ _ _ _ _ Hnf c Hc).
  pose proof (run_body mem doms url flags base offs Hmem ltac:(lia) room k c Hk0 Hurl Hc t body _
    (foldl (run_action doms flags) A acts) Hm (nf_tables _ _ _ _ _ Hnf) (nf_ranges _ _ _ _ _ Hnf) Hat') as Hrun.
  destruct (select t c) as [d'|].
  - eapply jumps_mono; [by eapply jumps_after|lia].
  - eapply stops_mono; [by eapply leads_stops|lia].
Qed.

Lemma run_trace w : forall pre d off A,
  url ++ [0] = pre ++ w -> live_target dfa d -> offs.[d] = Some off ->
  (w = [] -> exists i, dfa_step dfa i 0 = Some d) ->
  stops' (S (length w) * S (length mem)) (mkI (base + off) (vlen pre) (bool_decide (w = [])) A)
    (foldl (visit doms flags dfa) (visit doms flags dfa A d) (dfa_trace dfa d w)).
Proof.
  induction w as [|c w IH]; intros pre d off A Hw Hlive Hoff Hend.
  - destruct (node_entry d Hlive) as (n & ts & t & body & off' & Hn & Hk & Hnf & Hm & Hoff' & Hat).
    rewrite Hoff in Hoff'. injection Hoff' as <-. destruct (Hend eq_refl) as [i Hi].
    rewrite bool_decide_eq_true_2 by done.
    destruct (run_block _ _ _ (vlen pre) true A Hat (entry_actions_bound d _ _ _ Hnf)) as [Hl Hat'].
    pose proof (Heol i d n ts Hi Hn (nf_ts _ _ _ _ _ Hnf)) as Hcan.
    rewrite <- (nf_fallback _ _ _ _ _ Hnf) in Hcan. destruct (body_head t body Hm Hcan) as (i0 & l & -> & Ha & Hj).
    pose proof (length_code _ _ Hat) as Hlen. rewrite length_app, length_map in Hlen. simpl in Hlen.
    eapply stops_mono; [eapply leads_stops; [exact Hl|apply stops_step]|simpl; lia].
    apply at_code_cons in Hat' as [Hat' _]. by apply (step_after_end mem doms url flags base offs _ i0).
  - destruct (node_entry d Hlive) as (n & ts & t & body & off' & Hn & Hk & Hnf & Hm & Hoff' & Hat).
    rewrite Hoff in Hoff'. injection Hoff' as <-. destruct (suffix_char pre c w Hw) as (Hurl & Hk0 & Hc & Hc0).
    rewrite bool_decide_eq_false_2 by done.
    pose proof (run_node _ _ _ n t ts d (vlen pre) c A Hat (entry_actions_bound d _ _ _ Hnf) Hn Hk Hnf Hm Hurl Hk0 Hc)
      as Hrun. simpl in Hrun. fold (visit doms flags dfa A d) in Hrun. cbn [dfa_trace].
    destruct (dfa_step dfa d c) as [d'|] eqn:Hstep; [|eapply stops_mono; [done|simpl; lia]].
    destruct Hrun as (m & off' & Hm' & Hoff' & Hl). cbn [foldl].
    assert (live_target dfa d') as Hlive'.
    { rewrite (dfa_step_ts d n ts c Hn (nf_ts _ _ _ _ _ Hnf)) in Hstep. by eapply ts_step_live. }
    eapply stops_mono; [eapply leads_stops; [exact Hl|]|].
    + rewrite Hc0. replace (vlen pre + 1) with (vlen (pre ++ [c])) by (rewrite length_app; simpl; lia).
      apply IH; try done; [by rewrite <- (assoc_L (++))|].
      intros ->. rewrite bool_decide_eq_true_2 in Hc0 by done. apply Z.eqb_eq in Hc0 as ->. eauto.
    + simpl. lia.
Qed.

(** The code of the root: its actions, then its transitions. *)
Lemma root_code :
  exists n ts t body, (dfa_nodes dfa).[dfa_root dfa] = Some n /\ isKilled n = false
    /\ node_facts dfa n (actions_at dfa (dfa_root dfa)) ts t /\ map erase body = node_instrs t
    /\ at_code' 4 (map IAppend (actions_at dfa (dfa_root dfa)) ++ body)
    /\ 4 + size_list (map IAppend (actions_at dfa (dfa_root dfa))) < vlen bc.
Proof.
  destruct Hroot as (n & Hn & Hk).
  destruct (lay_placed _ _ _ _ Hlay _ n Hn Hk) as (pre & acts & ts & t & body & post & Hnf & Hm & Hcode & _ & Hpre).
  assert (actions_at dfa (dfa_root dfa) = acts) as Hacts.
  { unfold actions_at. by rewrite Hn, option_bind_Some, (nf_acts _ _ _ _ _ Hnf). }
  rewrite Hpre in Hcode by done. exists n, ts, t, body. rewrite Hacts. split_and!; try done.
  - pose proof at_code_start as Hat. rewrite Hcode in Hat. simpl in Hat.
    rewrite (assoc_L (++)) in Hat. by apply at_code_app in Hat as [Hat _].
  - rewrite (lay_len _ _ _ _ Hlay), Hcode, !size_list_app. pose proof (size_list_nonneg post).
    unfold node_instrs in Hm. destruct body as [|i body]; [by destruct (jumpTables t), (ranges t)|]. simpl.
    pose proof (isize_pos i). pose proof (size_list_nonneg body). lia.
Qed.

Lemma run_root acts p n ts t body A :
  (dfa_nodes dfa).[dfa_root dfa] = Some n -> isKilled n = false ->
  node_facts dfa n (actions_at dfa (dfa_root dfa)) ts t -> map erase body = node_instrs t ->
  at_code' p (map IAppend acts ++ body) -> Forall (fun a => 0 <= a < 2 ^ 49) acts ->
  exec mem doms (exec_fuel mem url) url flags (mkI (base + p) 0 false A)
  = Some (foldl (visit doms flags dfa) (foldl (run_action doms flags) A acts)
            (dfa_trace dfa (dfa_root dfa) (url ++ [0]))).
Proof.
  intros Hn Hk Hnf Hm Hat Hb. destruct (url ++ [0]) as [|c w] eqn:Hw; [by destruct url|].
  destruct (suffix_char [] c w Hw) as (Hurl & Hk0 & Hc & Hc0). cbn [length] in Hurl, Hk0. change (Z.of_nat 0) with 0 in *.
  pose proof (run_node _ _ _ n t ts _ 0 c A Hat Hb Hn Hk Hnf Hm Hurl Hk0 Hc) as Hrun. simpl in Hrun. cbn [dfa_trace].
  assert (S (length w) = S (length url)) as Hlen.
  { apply (f_equal length) in Hw. rewrite length_app in Hw. simpl in Hw. lia. }
  destruct (dfa_step dfa (dfa_root dfa) c) as [d|] eqn:Hstep; [|apply Hrun; unfold exec_fuel; simpl; lia].
  destruct Hrun as (m & off & Hm' & Hoff & Hl). cbn [foldl].
  apply (leads_stops _ _ _ _ m (S (length w) * S (length mem)) _ _ _ Hl); [|unfold exec_fuel; nia].
  rewrite Hc0. apply (run_trace w [c]); try done.
  - rewrite (dfa_step_ts _ n ts c Hn (nf_ts _ _ _ _ _ Hnf)) in Hstep. by eapply ts_step_live.
  - intros ->. rewrite bool_decide_eq_true_2 in Hc0 by done. apply Z.eqb_eq in Hc0 as ->. eauto.
Qed.

(** A DFA that is not the first runs its root's actions too. *)
Lemma run_rest A :
  exec mem doms (exec_fuel mem url) url flags (mkI (base + 4) 0 false A)
  = Some (dfa_result doms flags dfa false url A).
Proof.
  destruct root_code as (n & ts & t & body & Hn & Hk & Hnf & Hm & Hat & _).
  by eapply run_root, (nf_acts_bound _ _ _ _ _ Hnf).
Qed.

(** The first instruction of a node's transitions is no action. *)
Lemma body_fetch t body p :
  map erase body = node_instrs t -> at_code' p body ->
  base + p < vlen mem /\ exists c op, getInstruction mem (base + p) = Some c
    /\ instruction_of_code c = Some op
    /\ op <> AppendAction /\ op <> AppendActionWithIfDomain
    /\ op <> TestFlagsAndAppendAction /\ op <> TestFlagsAndAppendActionWithIfDomain.
Proof.
  intros Hm Hat.
  assert (exists i l, body = i :: l /\ forall a, i <> IAppend a) as (i & l & -> & Hi).
  { unfold node_instrs in Hm. destruct body as [|i l]; [by destruct (jumpTables t), (ranges t)|].
    exists i, l. split; [done|]. intros a ->. unfold final_instr, range_instr in Hm.
    destruct (jumpTables t); [destruct (ranges t) as [|r rs]|]; simpl in Hm;
      [destruct (useFallbackTransition t)|destruct (r_min r =? r_max r)|]; discriminate Hm. }
  apply at_code_cons in Hat as [Hat _].
  split; [destruct Hat as (_ & _ & _ & _ & _ & _ & Hb); simpl in Hb; pose proof (isize_pos i); lia|].
  destruct i as [a|cs v d s|cs lo h d s|cs lo h ds s|d s|]; [by destruct (Hi a)|..].
  - destruct (fetch_op mem base offs p _ (check_op cs) s Hat) as (c & ? & ? & _); [by eexists|].
    exists c, (check_op cs). destruct cs; split_and!; done.
  - destruct (fetch_op mem base offs p _ (range_op cs) s Hat) as (c & ? & ? & _); [by eexists|].
    exists c, (range_op cs). destruct cs; split_and!; done.
  - destruct (fetch_op mem base offs p _ (table_op cs) s Hat) as (c & ? & ? & _); [by eexists|].
    exists c, (table_op cs). destruct cs; split_and!; done.
  - destruct (fetch_op mem base offs p _ Jump s Hat) as (c & ? & ? & _); [exists []; by rewrite app_nil_r|].
    exists c, Jump. split_and!; done.
  - destruct (fetch mem base offs p ITerminate 10 Hat) as [Hf _]; [exists []; by rewrite app_nil_r|lia|].
    exists 10, Terminate. split_and!; done.
Qed.

(** The prologue of the first DFA. *)
Lemma skip_root_spec fuel len acts t body p A :
  at_code' p (map IAppend acts ++ body) -> Forall (fun a => 0 <= a < 2 ^ 49) acts ->
  map erase body = node_instrs t -> base + p + size_list (map IAppend acts) < len ->
  (length acts < fuel)%nat ->
  skip_root_actions mem doms fuel len flags (base + p) A
  = Some (base + (p + size_list (map IAppend acts)), foldl (run_flagged doms flags) A acts).
Proof.
  intros Hat Hb Hm. revert fuel p A Hat.
  induction Hb as [|a acts Ha Hb IH]; intros [|fuel] p A Hat Hlen Hf; simpl in Hf; try lia; cbn [skip_root_actions].
  - simpl in *. destruct (Z.ltb_spec (base + p) len); [|lia]. cbn [negb].
    destruct (body_fetch t body p Hm Hat) as (_ & c & op & -> & Hop & ? & ? & ? & ?).
    rewrite option_bind_Some, Hop, Z.add_0_r. destruct op; congruence.
  - cbn [map app] in Hat. apply at_code_cons in Hat as [Hat Hat']. cbn [map size_list foldl] in *.
    pose proof (size_list_nonneg (map IAppend acts)). pose proof (isize_pos (IAppend a)).
    destruct (Z.ltb_spec (base + p) len); [|lia]. cbn [negb].
    destruct (fetch_append mem base offs p a Hat) as (c & -> & Hop). rewrite option_bind_Some, Hop.
    specialize (IH fuel (p + isize (IAppend a)) (run_flagged doms flags A a) Hat' ltac:(lia) ltac:(lia)).
    rewrite <- Z.add_assoc in IH. rewrite <- IH. destruct (at_code_bound mem base offs Hmem _ _ Hat).
    pose proof (append_flags mem doms flags base offs Hmem ltac:(lia) p a A Hat Ha) as Hfl.
    pose proof (isize_append a) as Hsz.
    unfold action_instruction, run_flagged in *. fold (has_flags a) (has_domain a) in *.
    destruct (has_flags a).
    + specialize (Hfl eq_refl). by destruct (has_domain a); rewrite Hfl, option_bind_Some.
    + destruct (has_domain a); cbn [instructionSizeWithArguments]; rewrite option_bind_Some, u32_small by lia;
        f_equal; lia.
Qed.

(** What [actionsMatchingEverything] collects: the flagless actions. *)
Definition run_flagless (A : gset Z) (a : Z) : gset Z :=
  if has_flags a then A else run_action doms flags A a.

Lemma everything_spec fuel len acts t body p A :
  at_code' p (map IAppend acts ++ body) -> Forall (fun a => 0 <= a < 2 ^ 49) acts ->
  map erase body = node_instrs t -> base + p + size_list (map IAppend acts) < len ->
  (length acts < fuel)%nat ->
  everything_loop mem doms fuel len (base + p) A = Some (foldl run_flagless A acts).
Proof.
  intros Hat Hb Hm. revert fuel p A Hat.
  induction Hb as [|a acts Ha Hb IH]; intros [|fuel] p A Hat Hlen Hf; simpl in Hf; try lia; cbn [everything_loop].
  - simpl in *. destruct (Z.ltb_spec (base + p) len); [|lia]. cbn [negb].
    destruct (body_fetch t body p Hm Hat) as (_ & c & op & -> & Hop & ? & ? & ? & ?).
    rewrite option_bind_Some, Hop. destruct op; congruence.
  - cbn [map app] in Hat. apply at_code_cons in Hat as [Hat Hat']. cbn [map size_list foldl] in *.
    pose proof (size_list_nonneg (map IAppend acts)). pose proof (isize_pos (IAppend a)).
    destruct (Z.ltb_spec (base + p) len); [|lia]. cbn [negb].
    destruct (fetch_append mem base offs p a Hat) as (c & -> & Hop). rewrite option_bind_Some, Hop.
    specialize (IH fuel (p + isize (IAppend a)) (run_flagless A a) Hat' ltac:(lia) ltac:(lia)).
    rewrite <- IH. destruct (at_code_bound mem base offs Hmem _ _ Hat).
    pose proof (append_plain mem doms flags base offs Hmem ltac:(lia) p a A Hat Ha) as Hfl.
    pose proof (isize_append a) as Hsz.
    unfold action_instruction, run_flagless in *. fold (has_flags a) (has_domain a) in *.
    destruct (has_flags a).
    + destruct (has_domain a); cbn [instructionSizeWithArguments]; rewrite option_bind_Some, u32_small by lia;
        f_equal; lia.
    + specialize (Hfl eq_refl). by destruct (has_domain a); rewrite Hfl, option_bind_Some.
Qed.

Lemma length_actions body p : at_code' p (map IAppend (actions_at dfa (dfa_root dfa)) ++ body) ->
  (length (actions_at dfa (dfa_root dfa)) < S (length mem))%nat.
Proof. intros Hat%length_code. rewrite length_app, length_map in Hat. lia. Qed.

(** The first DFA: the prologue, then the transitions of the root. *)
Lemma run_first A :
  before = [] ->
  exists pc A', skip_root_actions mem doms (S (length mem)) (vlen bc) flags (0 + 4) A = Some (pc, A')
    /\ pc < vlen mem
    /\ exec mem doms (exec_fuel mem url) url flags (mkI pc 0 false A')
       = Some (dfa_result doms flags dfa true url A).
Proof.
  intros Hb. destruct root_code as (n & ts & t & body & Hn & Hk & Hnf & Hm & Hat & Hlt).
  pose proof (nf_acts_bound _ _ _ _ _ Hnf) as Hacts.
  pose proof (skip_root_spec (S (length mem)) (vlen bc) _ t body 4 A Hat Hacts Hm) as Hskip.
  assert (base = 0) as Hb0 by (by rewrite Hb). rewrite Hb0 in Hskip.
  specialize (Hskip ltac:(lia) (length_actions _ _ Hat)). rewrite Hskip.
  eexists _, _. split; [reflexivity|].
  assert (vlen bc <= vlen mem) by (rewrite Hcat, !length_app; lia). split; [lia|].
  pose proof (at_code_app _ _ _ _ _ _ Hat) as [_ Hat'].
  pose proof (run_root [] _ n ts t body (foldl (run_flagged doms flags) A (actions_at dfa (dfa_root dfa)))
    Hn Hk Hnf Hm Hat' ltac:(constructor)) as Hrun. rewrite Hb0 in Hrun. exact Hrun.
Qed.

Lemma everything_first :
  before = [] ->
  everything_loop mem doms (S (length mem)) (vlen bc) 4 ∅
  = Some (foldl run_flagless ∅ (actions_at dfa (dfa_root dfa))).
Proof.
  intros Hb. destruct root_code as (n & ts & t & body & Hn & Hk & Hnf & Hm & Hat & Hlt).
  pose proof (everything_spec (S (length mem)) (vlen bc) _ t body 4 ∅ Hat (nf_acts_bound _ _ _ _ _ Hnf) Hm) as He.
  assert (base = 0) as Hb0 by (by rewrite Hb). rewrite Hb0 in He.
  apply He; [lia|by eapply length_actions].
Qed.
End Trace.

(** ** Several DFAs *)

(** What the compiler needs to know about a DFA to compile it. *)
Record compilable (dfa : DFA) : Prop := {
  cp_wf : wf_dfa dfa;
  cp_nodes : vlen (dfa_nodes dfa) < uint32_max;
  cp_size : exists size, worst_case_size dfa = Some size /\ size < 2 ^ 30
}.

(** What its bytecode needs to read the terminator of a URL like the DFA.  This
    is no bound: the compiler loses the transition on the terminator where
    [nul_explicit] fails, and the interpreter reads behind the terminator where
    [eol_safe] fails. *)
Record terminator_kept (dfa : DFA) : Prop := {
  tk_eol : eol_safe dfa;
  tk_nul : nul_explicit dfa
}.

Section Interpret.
Context `{Host} (doms : option (gset Z)) (url : list Z) (flags : Z).

Lemma compilable_layout dfa bc :
  compilable dfa -> compile dfa [] = Some bc -> exists offs code, layout dfa bc offs code.
Proof.
  intros [Hwf Hn (size & Hs & Hb)] Hc. unfold worst_case_size in Hs.
  destruct (mapM (node_worst dfa) (dfa_nodes dfa)) as [ws|] eqn:Hws; [|done].
  rewrite option_bind_Some in Hs. injection Hs as <-.
  destruct (compile_layout dfa ws Hwf Hn Hws Hb) as (bc' & offs & code & Hc' & Hlay & _).
  rewrite Hc in Hc'. injection Hc' as <-. eauto.
Qed.

Lemma layout_header mem before after dfa bc offs code :
  layout dfa bc offs code -> mem = before ++ bc ++ after -> load 4 mem (vlen before) = Some (vlen bc).
Proof.
  intros [] ->. rewrite (load_field 4 before (vlen bc) (enc_list (hole_linked offs) 4 code ++ after)).
  - change (8 * Z.of_nat 4) with 32. by rewrite u32_small by lia.
  - rewrite lay_bc at 1. by rewrite <- (assoc_L (++)).
Qed.

Lemma actionsMatchingEverything_compiled dfa dfas bcs :
  Forall2 (fun dfa bc => compile dfa [] = Some bc) (dfa :: dfas) bcs -> compilable dfa ->
  vlen (concat bcs) < 2 ^ 31 ->
  actionsMatchingEverything (concat bcs) doms
  = Some (foldl (run_flagless doms flags) ∅ (actions_at dfa (dfa_root dfa))).
Proof.
  intros Hcomp Hok Hmem. apply Forall2_cons_inv_l in Hcomp as (bc & bcs' & Hc & _ & ->).
  destruct (compilable_layout dfa bc Hok Hc) as (offs & code & Hlay). unfold actionsMatchingEverything, getBits.
  pose proof (layout_header (bc ++ concat bcs') [] (concat bcs') _ _ _ _ Hlay eq_refl) as Hhead.
  change (vlen []) with 0 in Hhead. cbn [concat] in *. rewrite Hhead, option_bind_Some.
  apply (everything_first _ doms url flags dfa bc offs code [] (concat bcs')); try done.
  apply (wf_root _ (cp_wf _ Hok)).
Qed.

Hypothesis Hchars : Forall (fun c => 1 <= c <= 127) url.
Hypothesis Hlong : vlen url + 2 < 2 ^ 31.

(** The DFAs behind the first. *)
Lemma interpret_rest mem dfas bcs :
  Forall2 (fun dfa bc => compile dfa [] = Some bc) dfas bcs -> Forall compilable dfas -> Forall terminator_kept dfas -> vlen mem < 2 ^ 31 ->
  forall before fuel A, mem = before ++ concat bcs -> 0 < vlen before -> (length dfas <= fuel)%nat ->
  interpret_loop mem doms fuel url flags (vlen before) A
  = Some (foldl (fun A dfa => dfa_result doms flags dfa false url A) A dfas).
Proof.
  intros Hcomp Hok Hkept Hmem. induction Hcomp as [|dfa bc dfas bcs Hc Hcs IH]; intros before fuel A Hm Hbefore Hfuel.
  { simpl in Hm. rewrite app_nil_r in Hm. subst. destruct fuel; simpl; by rewrite Z.ltb_irrefl. }
  apply Forall_cons in Hok as [Hok Hoks], Hkept as [[Heol Hnul] Hkept]. simpl in Hm, Hfuel. destruct fuel as [|fuel]; [lia|].
  destruct (compilable_layout dfa bc Hok Hc) as (offs & code & Hlay).
  pose proof (lay_len _ _ _ _ Hlay). pose proof (size_list_nonneg code).
  assert (vlen before + vlen bc <= vlen mem) by (rewrite Hm, !length_app; lia).
  cbn [interpret_loop]. destruct (Z.ltb_spec (vlen before) (vlen mem)); [|lia]. cbn [negb]. unfold getBits.
  rewrite (layout_header _ _ _ _ _ _ _ Hlay Hm), option_bind_Some.
  destruct (Z.eqb_spec (vlen before) 0); [lia|]. rewrite (u32_small (vlen before + 4)) by lia.
  destruct Hok. rewrite (run_rest mem doms url flags dfa bc offs code before (concat bcs)), option_bind_Some
    by (done || apply (wf_root _ cp_wf0)).
  rewrite u32_small by lia. cbn [foldl].
  replace (vlen before + vlen bc) with (vlen (before ++ bc)) by (rewrite length_app; lia).
  apply IH; [done|done|by rewrite <- (assoc_L (++))|rewrite length_app; lia|lia].
Qed.

Definition interpret_result (dfas : list DFA) : gset Z :=
  match dfas with
  | [] => ∅
  | dfa :: dfas => foldl (fun A dfa => dfa_result doms flags dfa false url A)
                     (dfa_result doms flags dfa true url ∅) dfas
  end.

Lemma compiled_length dfas bcs :
  Forall2 (fun dfa bc => compile dfa [] = Some bc) dfas bcs -> Forall compilable dfas ->
  (length dfas <= length (concat bcs))%nat.
Proof.
  induction 1 as [|dfa bc dfas bcs Hc Hcs IH]; intros Hok; simpl; [done|].
  apply Forall_cons in Hok as [Hok Hoks]. destruct (compilable_layout dfa bc Hok Hc) as (offs & code & Hlay).
  pose proof (lay_len _ _ _ _ Hlay). pose proof (size_list_nonneg code). rewrite length_app. specialize (IH Hoks). lia.
Qed.

Lemma interpret_compiled dfas bcs :
  Forall2 (fun dfa bc => compile dfa [] = Some bc) dfas bcs -> Forall compilable dfas -> Forall terminator_kept dfas ->
  vlen (concat bcs) < 2 ^ 31 ->
  interpret (concat bcs) doms url flags = Some (interpret_result dfas).
Proof.
  intros Hcomp Hok Hkept Hmem. pose proof (compiled_length _ _ Hcomp Hok) as Hfuel. unfold interpret.
  destruct Hcomp as [|dfa bc dfas bcs Hc Hcs]; [done|].
  apply Forall_cons in Hok as [Hok Hoks], Hkept as [[Heol Hnul] Hkept]. destruct (compilable_layout dfa bc Hok Hc) as (offs & code & Hlay).
  cbn [concat map] in *. set (mem := bc ++ concat bcs) in *.
  pose proof (lay_len _ _ _ _ Hlay). pose proof (size_list_nonneg code).
  assert (Hm : mem = [] ++ bc ++ concat bcs) by done.
  assert (vlen bc <= vlen mem) by (unfold mem; rewrite length_app; lia).
  simpl in Hfuel. destruct (length mem) as [|fuel] eqn:Hfe; [lia|]. cbn [interpret_loop]. rewrite Hfe.
  destruct (Z.ltb_spec 0 (Z.of_nat (S fuel))); [|lia]. cbn [negb]. unfold getBits.
  pose proof (layout_header mem [] (concat bcs) _ _ _ _ Hlay Hm) as Hhead. change (vlen []) with 0 in Hhead.
  rewrite Hhead, option_bind_Some. cbn [Z.eqb]. change (u32 (0 + 4)) with (0 + 4).
  pose proof Hok as []. pose proof (wf_root _ cp_wf0) as Hroot.
  destruct (run_first mem doms url flags dfa bc offs code [] (concat bcs)) with (A := ∅ : gset Z)
    as (pc & A' & Hskip & Hpc & Hrun); try done; [lia|]. rewrite Hfe in Hskip, Hpc.
  rewrite Hskip, option_bind_Some. destruct (Z.leb_spec (Z.of_nat (S fuel)) pc); [lia|].
  rewrite Hrun, option_bind_Some, Z.add_0_l, u32_small by lia.
  apply (interpret_rest mem dfas bcs); try done; [by rewrite Hfe|lia|lia].
Qed.
End Interpret.
