(* ===== verification/BytecodeClaims.v ===== *)
(** * What the bytecode back end guarantees

    The theorems about the compiler and the interpreter, in terms of the DFA
    and of the actions of a request; and the inputs on which the code departs
    from them. *)

From S2P Require Import Prelude DFA Bytecode BytecodeCompiler BytecodeInterpreter TransitionsCorrect CodeLayout CompilerCorrect CompileLayout InterpreterSteps BytecodeCorrect.

(** ** Sets of actions *)

(** The action is not excluded by its flags or by the domains of the page. *)
Definition applies (doms : option (gset Z)) (flags a : Z) : bool :=
  flags_match a flags && match doms with None => true | Some d => matchesDomain a d end.

Section Members.
Context (doms : option (gset Z)) (flags : Z).

Lemma elem_of_run_action A a x :
  x ∈ run_action doms flags A a <-> x ∈ A \/ (x = a /\ applies doms flags a = true).
Proof.
  unfold run_action, applies, add_matching. destruct (flags_match a flags); simpl; [|naive_solver].
  destruct doms as [d|]; [destruct (matchesDomain a d)|]; set_solver.
Qed.

Lemma elem_of_foldl_actions {B} (f : gset Z -> B -> gset Z) (P : B -> Z -> Prop) :
  (forall A b x, x ∈ f A b <-> x ∈ A \/ P b x) ->
  forall l A x, x ∈ foldl f A l <-> x ∈ A \/ exists b, b ∈ l /\ P b x.
Proof.
  intros Hf. induction l as [|b l IH]; intros A x; simpl.
  - split; [by left|]. by intros [?|(b & []%not_elem_of_nil & _)].
  - rewrite IH, Hf. setoid_rewrite elem_of_cons. naive_solver.
Qed.

Lemma elem_of_run_actions A l x :
  x ∈ foldl (run_action doms flags) A l <-> x ∈ A \/ (x ∈ l /\ applies doms flags x = true).
Proof.
  rewrite (elem_of_foldl_actions _ (fun a x => x = a /\ applies doms flags a = true));
    [|intros; apply elem_of_run_action]. naive_solver.
Qed.

Lemma elem_of_run_flagged A l x :
  x ∈ foldl (run_flagged doms flags) A l
  <-> x ∈ A \/ (x ∈ l /\ has_flags x = true /\ applies doms flags x = true).
Proof.
  rewrite (elem_of_foldl_actions _ (fun a x => x = a /\ has_flags a = true /\ applies doms flags a = true));
    [naive_solver|]. intros A' a y. unfold run_flagged. destruct (has_flags a); [|naive_solver].
  rewrite elem_of_run_action. naive_solver.
Qed.

Lemma elem_of_run_flagless A l x :
  x ∈ foldl (run_flagless doms flags) A l
  <-> x ∈ A \/ (x ∈ l /\ has_flags x = false /\ applies doms flags x = true).
Proof.
  rewrite (elem_of_foldl_actions _ (fun a x => x = a /\ has_flags a = false /\ applies doms flags a = true));
    [naive_solver|]. intros A' a y. unfold run_flagless. destruct (has_flags a); [naive_solver|].
  rewrite elem_of_run_action. naive_solver.
Qed.

Lemma elem_of_visit dfa A i x :
  x ∈ visit doms flags dfa A i
  <-> x ∈ A \/ (i <> dfa_root dfa /\ x ∈ actions_at dfa i /\ applies doms flags x = true).
Proof.
  unfold visit, entry_actions. rewrite elem_of_run_actions. destruct (Z.eqb_spec i (dfa_root dfa)).
  - rewrite elem_of_nil. naive_solver.
  - naive_solver.
Qed.

(** The actions one DFA contributes. *)
Definition contributes (first : bool) (dfa : DFA) (url : list Z) (x : Z) : Prop :=
  (exists i, i ∈ dfa_trace dfa (dfa_root dfa) (url ++ [0]) /\ i <> dfa_root dfa /\ x ∈ actions_at dfa i)
  \/ (x ∈ actions_at dfa (dfa_root dfa) /\ (first = true -> has_flags x = true)).

Lemma elem_of_dfa_result first dfa url A x :
  x ∈ dfa_result doms flags dfa first url A
  <-> x ∈ A \/ (applies doms flags x = true /\ contributes first dfa url x).
Proof.
  unfold dfa_result, contributes.
  rewrite (elem_of_foldl_actions _ (fun i x => i <> dfa_root dfa /\ x ∈ actions_at dfa i
    /\ applies doms flags x = true)) by (intros; apply elem_of_visit).
  destruct first; [rewrite elem_of_run_flagged|rewrite elem_of_run_actions]; naive_solver.
Qed.

Lemma elem_of_interpret_result url dfas x :
  x ∈ interpret_result doms url flags dfas
  <-> applies doms flags x = true
      /\ exists k dfa, dfas !! k = Some dfa /\ contributes (k =? 0)%nat dfa url x.
Proof.
  destruct dfas as [|dfa dfas]; simpl.
  { split; [set_solver|]. by intros (_ & k & dfa & ? & _). }
  rewrite (elem_of_foldl_actions _ (fun dfa x => applies doms flags x = true /\ contributes false dfa url x))
    by (intros; apply elem_of_dfa_result).
  rewrite elem_of_dfa_result, elem_of_empty. split.
  - intros [[[]|(Ha & Hc)]|(d & [k Hk]%list_elem_of_lookup & Ha & Hc)]; (split; [done|]).
    + by exists 0%nat, dfa.
    + by exists (S k), d.
  - intros (Ha & [|k] & d & Hk & Hc); simplify_eq/=; [left; by right|right].
    exists d. split; [by eapply list_elem_of_lookup_2|done].
Qed.
End Members.

(** ** Checking the hypotheses on a concrete DFA *)

Section Checker.
Context (dfa : DFA).

Definition live_targetb (t : Z) : bool :=
  match (dfa_nodes dfa).[t] with Some n => negb (isKilled n) | None => false end.

Definition node_okb (n : DFANode) : bool :=
  isKilled n ||
  match node_actions dfa n, node_transitions dfa n with
  | Some acts, Some ts =>
      forallb (fun a => (0 <=? a) && (a <? 2 ^ 49)) acts && sorted_fromb 0 ts
      && forallb (fun t => live_targetb (snd t)) ts
  | _, _ => false
  end.

Definition eol_okb (n : DFANode) : bool :=
  match ts ← node_transitions dfa n; d ← ts_step ts 0; n' ← (dfa_nodes dfa).[d]; node_transitions dfa n' with
  | Some ts' => negb (canUseFallback ts')
  | None => true
  end.

Definition nul_okb (n : DFANode) : bool :=
  isKilled n ||
  match node_transitions dfa n with
  | Some ts => negb (canUseFallback ts && bool_decide (is_Some (bestFallback ts)) && bool_decide (ts_step ts 0 = bestFallback ts))
  | None => true
  end.

Definition terminator_keptb : bool := forallb eol_okb (dfa_nodes dfa) && forallb nul_okb (dfa_nodes dfa).

Definition compilableb : bool :=
  live_targetb (dfa_root dfa) && forallb node_okb (dfa_nodes dfa)
  && (vlen (dfa_nodes dfa) <? uint32_max)
  && match worst_case_size dfa with Some s => s <? 2 ^ 30 | None => false end.

Lemma live_targetb_sound t : live_targetb t = true -> live_target dfa t.
Proof.
  unfold live_targetb. intros Ht. destruct ((dfa_nodes dfa).[t]) as [n|] eqn:E; [|done].
  exists n. by apply negb_true_iff in Ht.
Qed.

Lemma forallb_nodes f i n : forallb f (dfa_nodes dfa) = true -> (dfa_nodes dfa).[i] = Some n -> f n = true.
Proof.
  rewrite forallb_forall. intros Hf [_ Hn]%vec_at_Some. apply Hf, list_elem_of_In. by eapply list_elem_of_lookup_2.
Qed.

Lemma compilableb_sound : compilableb = true -> compilable dfa.
Proof.
  unfold compilableb. intros Hc. bprop. split.
  - split; [by apply live_targetb_sound|]. intros i n Hn Hk.
    pose proof (forallb_nodes node_okb i n ltac:(done) Hn) as Hok. unfold node_okb in Hok. rewrite Hk in Hok. simpl in Hok.
    destruct (node_actions dfa n) as [acts|] eqn:Ea; [|done].
    destruct (node_transitions dfa n) as [ts|] eqn:Et; [|done]. bprop.
    split; [exists acts|exists ts]; split_and!; try done.
    + apply Forall_forall. intros a Ha%list_elem_of_In. rewrite forallb_forall in *.
      match goal with H : forall x, _ -> (0 <=? x) && _ = true |- _ => specialize (H a Ha) end. bprop. lia.
    + by apply sorted_fromb_sound.
    + apply Forall_forall. intros t Ht%list_elem_of_In. apply live_targetb_sound.
      match goal with H : forallb (fun t => live_targetb _) _ = true |- _ => rewrite forallb_forall in H; by apply H end.
  - done.
  - destruct (worst_case_size dfa) as [s|]; [|done]. bprop. eauto.
Qed.

Lemma terminator_keptb_sound : terminator_keptb = true -> terminator_kept dfa.
Proof.
  unfold terminator_keptb. intros Hc. bprop. split.
  - intros i d n ts Hstep Hn Hts. unfold dfa_step in Hstep.
    destruct ((dfa_nodes dfa).[i]) as [n0|] eqn:E0; [|done]. rewrite option_bind_Some in Hstep.
    pose proof (forallb_nodes eol_okb i n0 ltac:(done) E0) as Hok. unfold eol_okb in Hok.
    destruct (node_transitions dfa n0) as [ts0|] eqn:Ets0; [|done]. rewrite option_bind_Some in Hstep.
    rewrite option_bind_Some, Hstep, option_bind_Some, Hn, option_bind_Some, Hts in Hok. by apply negb_true_iff.
  - intros i n ts d Hn Hk Hts Hf Hbest Hstep.
    pose proof (forallb_nodes nul_okb i n ltac:(done) Hn) as Hok. unfold nul_okb in Hok. rewrite Hk, Hts in Hok.
    simpl in Hok. rewrite Hf, Hbest, Hstep in Hok.
    by rewrite !bool_decide_eq_true_2 in Hok by done.
Qed.
End Checker.

(** ** Concrete machines *)

(** The host of the examples. *)
#[local] Instance little_endian_host : Host := {| host_big_endian := false |}.

(** A root with a flagless and a flagged action; "a" or "A" leads to a node
    that loops on every character and accepts at the end; a killed node. *)
Definition sample_dfa : DFA :=
  mkDFA [mkDFANode 0 0 2 2 0; mkDFANode 2 2 1 2 0; mkDFANode 3 0 1 0 0; mkDFANode 0 0 0 0 IsKilled]
    [7; Z.shiftl 4 32 + 9; 3; IfDomainFlag + 11]
    [mkCharRange 65 65; mkCharRange 97 97; mkCharRange 0 0; mkCharRange 1 127] [1; 1; 2; 1] 0.

Definition sample_bytecode : list Z := default [] (compile sample_dfa []).

Lemma sample_compiles : compile sample_dfa [] = Some sample_bytecode.
Proof. by vm_compute. Qed.

Lemma sample_compilable : compilable sample_dfa.
Proof. apply compilableb_sound. by vm_compute. Qed.

Lemma sample_kept : terminator_kept sample_dfa.
Proof. apply terminator_keptb_sound. by vm_compute. Qed.

(** ** The theorems *)



(** C9: the compiler succeeds on every well-formed DFA whose worst-case code
    is smaller than 1 GiB: no [RELEASE_ASSERT] fails, in particular every jump
    fits the size that was chosen for it before its distance was known; the
    code is no longer than the worst case and its header holds its length. *)
Theorem compile_succeeds `{Host} dfa size :
  wf_dfa dfa -> vlen (dfa_nodes dfa) < uint32_max -> worst_case_size dfa = Some size -> size < 2 ^ 30 ->
  exists bc, compile dfa [] = Some bc /\ vlen bc <= size /\ load 4 bc 0 = Some (vlen bc).
Proof.
  intros Hwf Hn Hs Hb. unfold worst_case_size in Hs.
  destruct (mapM (node_worst dfa) (dfa_nodes dfa)) as [ws|] eqn:Hws; [|done].
  rewrite option_bind_Some in Hs. injection Hs as <-.
  destruct (compile_layout dfa ws Hwf Hn Hws Hb) as (bc & offs & code & Hc & Hlay & Hle).
  exists bc. split_and!; [done..|]. apply (layout_header bc [] [] dfa bc offs code Hlay). by rewrite app_nil_r.
Qed.

Lemma compile_succeeds_witness :
  exists bc, compile sample_dfa [] = Some bc /\ vlen bc <= 45 /\ load 4 bc 0 = Some (vlen bc).
Proof.
  apply (compile_succeeds sample_dfa 45); [apply (cp_wf _ sample_compilable)|by vm_compute..].
Defined.

(** C10: [actionsMatchingEverything] returns exactly the flagless actions of the
    first DFA's root that the domain condition accepts. *)
Theorem actionsMatchingEverything_correct `{Host} doms dfa dfas bcs :
  Forall2 (fun dfa bc => compile dfa [] = Some bc) (dfa :: dfas) bcs -> compilable dfa ->
  vlen (concat bcs) < 2 ^ 31 ->
  exists A, actionsMatchingEverything (concat bcs) doms = Some A
    /\ forall x, x ∈ A <-> x ∈ actions_at dfa (dfa_root dfa) /\ has_flags x = false
                          /\ applies doms 0 x = true.
Proof.
  intros Hcomp Hok Hmem. eexists. split.
  - by apply (actionsMatchingEverything_compiled doms [] 0 dfa dfas bcs).
  - intros x. rewrite elem_of_run_flagless, elem_of_empty. tauto.
Qed.

Lemma actionsMatchingEverything_correct_witness :
  exists A, actionsMatchingEverything (concat [sample_bytecode]) None = Some A
    /\ forall x, x ∈ A <-> x ∈ actions_at sample_dfa (dfa_root sample_dfa) /\ has_flags x = false
                          /\ applies None 0 x = true.
Proof.
  apply (actionsMatchingEverything_correct None sample_dfa [] [sample_bytecode]).
  - by repeat constructor.
  - apply sample_compilable.
  - by vm_compute.
Defined.

(** C11: grouping the transitions of a node into jump tables, case-insensitive
    ranges and a fallback loses nothing: trying the groups in the order of the
    code selects, for every character of a URL, the target of the range that
    contains it; the same holds for the terminator when the node has no
    fallback or the terminator's target is not the fallback. *)
Theorem transitions_equivalent dfa n ts :
  node_transitions dfa n = Some ts -> sorted_from 0 ts -> Forall (fun t => 0 <= snd t < uint32_max) ts ->
  exists t, transitions dfa n = Some t
    /\ (forall c, 1 <= c <= 127 -> select t c = ts_step ts c)
    /\ (canUseFallback ts = false \/ ts_step ts 0 <> bestFallback ts -> select t 0 = ts_step ts 0).
Proof.
  intros Hts Hs Hd. destruct (transitions_spec dfa n ts Hts Hs Hd) as (t & Ht & _ & _ & _ & _ & Hsel).
  exists t. split; [done|]. split.
  - intros c Hc. rewrite Hsel by lia. unfold code_step. destruct (ts_step ts c); [|done].
    destruct (Z.eqb_spec c 0); [lia|]. by rewrite andb_false_r.
  - intros Hor. rewrite Hsel by lia. unfold code_step. destruct (ts_step ts 0) as [d|]; [|done].
    destruct Hor as [-> | Hne]; [done|]. rewrite bool_decide_eq_false_2 by congruence. by rewrite andb_false_r.
Qed.

Lemma transitions_equivalent_witness :
  exists t, transitions sample_dfa (mkDFANode 2 2 1 2 0) = Some t
    /\ (forall c, 1 <= c <= 127 -> select t c = ts_step [(mkCharRange 0 0, 2); (mkCharRange 1 127, 1)] c)
    /\ (canUseFallback [(mkCharRange 0 0, 2); (mkCharRange 1 127, 1)] = false
        \/ ts_step [(mkCharRange 0 0, 2); (mkCharRange 1 127, 1)] 0
           <> bestFallback [(mkCharRange 0 0, 2); (mkCharRange 1 127, 1)] ->
        select t 0 = ts_step [(mkCharRange 0 0, 2); (mkCharRange 1 127, 1)] 0).
Proof.
  apply (transitions_equivalent sample_dfa (mkDFANode 2 2 1 2 0)).
  - reflexivity.
  - simpl. lia.
  - repeat constructor; simpl; unfold uint32_max; lia.
Defined.

(** Linking and decoding are inverse: after [link_one] has filled a field
    of zeroes that can hold the distance, the interpreter reads back, at the
    recorded place, the distance from the instruction to the destination. *)
Theorem link_one_roundtrip `{Host} offs pre post lr o :
  lr_jumpLocation lr = vlen pre -> vlen pre < 2 ^ 30 -> 0 <= lr_instructionLocation lr < 2 ^ 30 ->
  offs.[lr_destinationNodeIndex lr] = Some o -> 0 <= o < 2 ^ 30 ->
  fits (lr_jumpSize lr) (o - lr_instructionLocation lr) ->
  exists bc, link_one offs (pre ++ zeroes (lr_jumpSize lr) ++ post) lr = Some bc
    /\ getJumpDistance bc (lr_jumpLocation lr) (lr_jumpSize lr) = Some (o - lr_instructionLocation lr).
Proof.
  intros Hjl Hpre Hil Ho Hr Hf. eexists. split.
  - apply (link_one_field offs pre post lr (lr_jumpSize lr) (lr_instructionLocation lr) (lr_destinationNodeIndex lr));
      [unfold record_key; by rewrite Hjl|done|done|by exists o].
  - rewrite Hjl. eapply getJumpDistance_bytes; [|done]. unfold hole_linked, offset_of. by rewrite Ho.
Qed.

Lemma link_one_roundtrip_witness :
  exists bc, link_one [100000; 3] ([49; 48] ++ zeroes Int24 ++ [10]) (mkLinkRecord Int24 0 1 2 0) = Some bc
    /\ getJumpDistance bc 2 Int24 = Some (100000 - 1).
Proof.
  apply (link_one_roundtrip [100000; 3] [49; 48] [10] (mkLinkRecord Int24 0 1 2 0) 100000);
    simpl; done || lia.
Defined.

(** For every 32-bit distance the jump size holds the distance, and no
    smaller size does. *)
Theorem smallestPossibleJumpSize_optimal x :
  -2147483648 <= x < 2147483648 ->
  fits (smallestPossibleJumpSize x) x
  /\ forall s, fits s x -> jumpSizeInBytes (smallestPossibleJumpSize x) <= jumpSizeInBytes s.
Proof.
  intros Hx. split; [by apply smallest_fits|]. intros s Hs. revert Hs.
  unfold smallestPossibleJumpSize. change Int24Min with (-8388608). change Int24Max with 8388607.
  destruct s; simpl; bool_cases; simpl; lia.
Qed.

Lemma smallestPossibleJumpSize_optimal_witness :
  fits Int24 (-40000)
  /\ forall s, fits s (-40000) -> jumpSizeInBytes Int24 <= jumpSizeInBytes s.
Proof. apply (smallestPossibleJumpSize_optimal (-40000)). lia. Defined.

(** The code of an action, executed right behind what was compiled before,
    advances to the end of the code and adds exactly the compiled action word
    (location, flags and if-domain bit), if the request's flags and domains
    accept it. *)
Theorem emitAppendAction_roundtrip `{Host} st a doms url flags k af A :
  0 <= a < 2 ^ 49 -> vlen (m_bytecode st) + 7 < 2 ^ 31 ->
  step (m_bytecode (emitAppendAction st a)) doms url flags (mkI (vlen (m_bytecode st)) k af A)
  = Some (Running (mkI (vlen (m_bytecode (emitAppendAction st a))) k af
                     (if applies doms flags a then {[a]} ∪ A else A))).
Proof.
  intros Ha Hb. pose proof (emitAppendAction_emits st a) as He. pose proof (emits_length _ _ _ He) as Hl.
  destruct He as [Hbc _ _ _]. simpl in Hl, Hbc. pose proof (isize_append a) as Hi.
  set (mem := m_bytecode (emitAppendAction st a)) in *.
  assert (Hat : at_code mem 0 [] (vlen (m_bytecode st)) [IAppend a]).
  { exists (m_bytecode st), []. simpl. unfold code_ok. simpl. split_and!; [|done|constructor|done|lia|lia].
    rewrite Hbc. unfold enc. simpl. by rewrite !app_nil_r. }
  pose proof (step_append mem doms url flags 0 []) as Hstep.
  specialize (Hstep ltac:(destruct (has_flags a); lia) ltac:(lia) _ a k af A Hat Ha). rewrite !Z.add_0_l in Hstep.
  rewrite Hstep. do 3 f_equal; [lia|]. unfold run_action, applies, add_matching. destruct (flags_match a flags); [|done].
  simpl. by destruct doms as [d|]; [destruct (matchesDomain a d)|].
Qed.

Definition sample_state : Compiler := mkCompiler [1; 2; 3] [] [] [].
Definition sample_action : Z := Z.shiftl 4 32 + 9.

Lemma emitAppendAction_roundtrip_witness :
  step (m_bytecode (emitAppendAction sample_state sample_action)) None [97] 4
    (mkI (vlen (m_bytecode sample_state)) 0 false ∅)
  = Some (Running (mkI (vlen (m_bytecode (emitAppendAction sample_state sample_action))) 0 false
                     (if applies None 4 sample_action then {[sample_action]} ∪ ∅ else ∅))).
Proof.
  apply (emitAppendAction_roundtrip sample_state sample_action None [97] 4 0 false ∅);
    [split; vm_compute; done|vm_compute; done].
Defined.

(** A node that the terminator and every other character leave for the same
    node: rules such as "a$" and "a." with one action, minimized. *)
Definition nul_fallback_dfa : DFA :=
  mkDFA [mkDFANode 0 0 0 1 0; mkDFANode 0 1 0 2 0; mkDFANode 0 3 1 0 0] [5]
    [mkCharRange 97 97; mkCharRange 0 0; mkCharRange 1 127] [1; 2; 2] 0.


(** Had the terminator led to a node that starts with a jump, the jump would
    have read the byte behind it: this is what [eol_safe] excludes. *)
Definition eol_jump_dfa : DFA :=
  mkDFA [mkDFANode 0 0 0 1 0; mkDFANode 0 1 0 1 0] [] [mkCharRange 0 0; mkCharRange 1 127] [1; 1] 0.

Lemma jump_after_terminator : (bc ← compile eol_jump_dfa []; interpret bc None [] 0) = None.
Proof. by vm_compute. Qed.
