(* ===== verification/RangeList.v ===== *)
(** * Range lists (MutableRange.h, MutableRangeList.h)

    A range list keeps its ranges in a vector and chains them in the order of
    their characters: a range holds the index of the next, zero marks the end,
    and the first range is always at index zero.  [extend] merges another
    sorted sequence of ranges into the list and splits ranges where they
    overlap.

    Characters are [char]s between 0 and 127, so sums and differences of
    characters stay inside an [int]. *)

From S2P Require Import Prelude DFA.

(** ** Data *)

Record MutableRange (D : Type) := mkMutableRange {
  mr_data : D;
  nextRangeIndex : Z;
  mr_first : Z;
  mr_last : Z
}.
Arguments mkMutableRange {D}.
Arguments mr_data {D}.
Arguments nextRangeIndex {D}.
Arguments mr_first {D}.
Arguments mr_last {D}.

Definition with_next {D} (r : MutableRange D) (n : Z) : MutableRange D :=
  mkMutableRange (mr_data r) n (mr_first r) (mr_last r).
Definition with_first {D} (r : MutableRange D) (c : Z) : MutableRange D :=
  mkMutableRange (mr_data r) (nextRangeIndex r) c (mr_last r).
Definition with_data {D} (r : MutableRange D) (d : D) : MutableRange D :=
  mkMutableRange d (nextRangeIndex r) (mr_first r) (mr_last r).

(** The [DataConverter] argument of [extend]: how data of the other sequence
    becomes data of the list, or is added to it. *)
Class DataConverter (B D : Type) := {
  convert : B -> D;
  extend_data : D -> B -> D
}.

Section MutableRangeList.
Context {B D : Type} `{DataConverter B D}.

Definition appendRange (m_ranges : list (MutableRange D)) (lastRangeIndex first last : Z) (data : D)
    : option (list (MutableRange D) * Z) :=
  let newRangeIndex := u32 (vlen m_ranges) in
  let m_ranges := m_ranges ++ [mkMutableRange data 0 first last] in
  if newRangeIndex =? 0 then Some (m_ranges, 0) else
  r ← m_ranges.[lastRangeIndex];
  m_ranges ← vec_set m_ranges lastRangeIndex (with_next r newRangeIndex);
  Some (m_ranges, newRangeIndex).

(** The two indices are reference parameters: the new ones are returned. *)
Definition insertBetween (m_ranges : list (MutableRange D)) (leftRangeIndex rightRangeIndex first last : Z)
    (data : D) : option (list (MutableRange D) * Z * Z) :=
  if rightRangeIndex =? 0 then
    let movedRangeIndex := u32 (vlen m_ranges) in
    r ← m_ranges.[0];
    m_ranges ← vec_set (m_ranges ++ [r]) 0 (mkMutableRange data movedRangeIndex first last);
    Some (m_ranges, 0, movedRangeIndex)
  else
    let newRangeIndex := u32 (vlen m_ranges) in
    let m_ranges := m_ranges ++ [mkMutableRange data rightRangeIndex first last] in
    l ← m_ranges.[leftRangeIndex];
    m_ranges ← vec_set m_ranges leftRangeIndex (with_next l newRangeIndex);
    Some (m_ranges, newRangeIndex, rightRangeIndex).

Fixpoint initialize_loop (m_ranges : list (MutableRange D)) (loopCounter : Z) (others : list (CharRange * B))
    : list (MutableRange D) :=
  match others with
  | [] => m_ranges
  | (r, o) :: others =>
      initialize_loop (m_ranges ++ [mkMutableRange (convert o) (loopCounter + 1) (range_first r) (range_last r)])
        (loopCounter + 1) others
  end.

Definition initializeFrom (m_ranges : list (MutableRange D)) (others : list (CharRange * B))
    : option (list (MutableRange D)) :=
  let m_ranges := initialize_loop m_ranges 0 others in
  if bool_decide (m_ranges = []) then Some m_ranges else
  r ← m_ranges.[vlen m_ranges - 1];
  vec_set m_ranges (vlen m_ranges - 1) (with_next r 0).

(** The variables of the merging loop. *)
Record extend_state := mkExtend {
  x_ranges : list (MutableRange D);
  lastSelfRangeIndex : Z;
  selfRangeIndex : Z;
  reachedSelfEnd : bool;
  otherRangeOffset : Z;
  otherIterator : list (CharRange * B)
}.

(** The part of an iteration that makes both ranges start together. *)
Definition align (v : list (MutableRange D)) (last self offset : Z) (r : CharRange) (o : B)
    (a : MutableRange D) : option (list (MutableRange D) * Z * Z * Z) :=
  let first := range_first r + offset in
  if mr_first a <? first then
    v ← vec_set v self (with_first a first);
    '(v, last, self) ← insertBetween v last self (mr_first a) (first - 1) (mr_data a);
    Some (v, last, self, offset)
  else if first <? mr_first a then
    '(v, last, self) ← insertBetween v last self first (mr_first a - 1) (convert o);
    a ← v.[self];
    Some (v, last, self, mr_first a - range_first r)
  else Some (v, last, self, offset).

(** The part after it: merge the intersection. *)
Definition merge_aligned (v : list (MutableRange D)) (last self offset : Z) (r : CharRange) (o : B)
    (rest : list (CharRange * B)) : option extend_state :=
  a ← v.[self];
  if mr_last a =? range_last r then
    v ← vec_set v self (with_data a (extend_data (mr_data a) o));
    Some (mkExtend v self (nextRangeIndex a) (nextRangeIndex a =? 0) 0 rest)
  else if range_last r <? mr_last a then
    v ← vec_set v self (with_first a (range_last r + 1));
    '(v, last, self) ← insertBetween v last self (mr_first a) (range_last r) (extend_data (mr_data a) o);
    Some (mkExtend v last self false 0 rest)
  else
    v ← vec_set v self (with_data a (extend_data (mr_data a) o));
    Some (mkExtend v self (nextRangeIndex a) (nextRangeIndex a =? 0)
            (mr_last a - range_first r + 1) ((r, o) :: rest)).

(** One iteration of the loop of [extend]. *)
Definition extend_step (s : extend_state) : option extend_state :=
  match otherIterator s with
  | [] => None
  | (r, o) :: rest =>
      let v := x_ranges s in
      let first := range_first r + otherRangeOffset s in
      a ← v.[selfRangeIndex s];
      if mr_last a <? first then
        Some (mkExtend v (selfRangeIndex s) (nextRangeIndex a) (nextRangeIndex a =? 0)
                (otherRangeOffset s) (otherIterator s))
      else if range_last r <? mr_first a then
        '(v, last, self) ← insertBetween v (lastSelfRangeIndex s) (selfRangeIndex s) first (range_last r) (convert o);
        Some (mkExtend v last self false 0 rest)
      else
        '(v, last, self, offset) ←
          align v (lastSelfRangeIndex s) (selfRangeIndex s) (otherRangeOffset s) r o a;
        merge_aligned v last self offset r o rest
  end.

(** The [do ... while]: every iteration consumes a range of one side. *)
Fixpoint extend_loop (fuel : nat) (s : extend_state) : option extend_state :=
  match fuel with
  | O => None
  | S fuel =>
      s ← extend_step s;
      if reachedSelfEnd s || bool_decide (length (otherIterator s) = O) then Some s else extend_loop fuel s
  end.

Fixpoint append_rest (m_ranges : list (MutableRange D)) (lastRangeIndex offset : Z) (others : list (CharRange * B))
    : option (list (MutableRange D)) :=
  match others with
  | [] => Some m_ranges
  | (r, o) :: others =>
      '(m_ranges, lastRangeIndex) ← appendRange m_ranges lastRangeIndex (range_first r + offset) (range_last r) (convert o);
      append_rest m_ranges lastRangeIndex 0 others
  end.

Definition extend (m_ranges : list (MutableRange D)) (others : list (CharRange * B))
    : option (list (MutableRange D)) :=
  match others, m_ranges with
  | [], _ => Some m_ranges
  | _ :: _, [] => initializeFrom m_ranges others
  | _ :: _, _ :: _ =>
      s ← extend_loop (length m_ranges + length others) (mkExtend m_ranges 0 0 false 0 others);
      append_rest (x_ranges s) (lastSelfRangeIndex s) (otherRangeOffset s) (otherIterator s)
  end.
End MutableRangeList.

(** [ConstIterator]: the ranges in the order of the chain. *)
Definition range_of {D} (r : MutableRange D) : CharRange * D := (mkCharRange (mr_first r) (mr_last r), mr_data r).

Fixpoint iterate {D} (fuel : nat) (m_ranges : list (MutableRange D)) (index : Z) : option (list (CharRange * D)) :=
  match fuel with
  | O => None
  | S fuel =>
      r ← m_ranges.[index];
      if nextRangeIndex r =? 0 then Some [range_of r] else
      rs ← iterate fuel m_ranges (nextRangeIndex r);
      Some (range_of r :: rs)
  end.

Definition range_list {D} (m_ranges : list (MutableRange D)) : option (list (CharRange * D)) :=
  match m_ranges with [] => Some [] | _ => iterate (length m_ranges) m_ranges 0 end.
