(* ===== verification/RangeListCorrect.v ===== *)
(** * Merging range lists is pointwise

    [extend_correct]: merging a sorted sequence into a well-formed range list
    never aborts, keeps the chain well formed and sorted, and gives every
    character the data of both sides: the lists are maps from characters, and
    [extend] is their pointwise merge. *)

From S2P Require Import Prelude DFA RangeList.

(** ** Chains *)

Section Chains.
Context {D : Type}.
Implicit Types (v : list (MutableRange D)) (p : list Z) (es : list (CharRange * D)).

(** The indices [p] chain the ranges [es]; the last one points to [nxt]. *)
Fixpoint seg v p (nxt : Z) es : Prop :=
  match p, es with
  | [], [] => True
  | i :: p, e :: es =>
      (exists r, v.[i] = Some r /\ range_of r = e /\ nextRangeIndex r = default nxt (head p)) /\ seg v p nxt es
  | _, _ => False
  end.

Lemma seg_length v p nxt es : seg v p nxt es -> length p = length es.
Proof. revert es. induction p as [|i p IH]; intros [|e es]; simpl; try done. intros [_ ?]. f_equal. auto. Qed.

Lemma seg_app v p1 p2 nxt e1 e2 :
  length p1 = length e1 ->
  seg v (p1 ++ p2) nxt (e1 ++ e2) <-> seg v p1 (default nxt (head p2)) e1 /\ seg v p2 nxt e2.
Proof.
  revert e1. induction p1 as [|i p1 IH]; intros [|e e1] Hl; simpl in *; try done; [tauto|].
  rewrite IH by lia. assert (default nxt (head (p1 ++ p2)) = default (default nxt (head p2)) (head p1)) as ->.
  { by destruct p1. } tauto.
Qed.

(** Only the chained elements matter. *)
Lemma seg_frame v v' p nxt es : seg v p nxt es -> (forall i, i ∈ p -> v'.[i] = v.[i]) -> seg v' p nxt es.
Proof.
  revert es. induction p as [|i p IH]; intros [|e es]; simpl; try done. intros [(r & ? & ? & ?) ?] Hv. split.
  - exists r. rewrite Hv by set_solver. done.
  - apply IH; [done|]. intros j Hj. apply Hv. set_solver.
Qed.

(** The end of a chain can be redirected. *)
Lemma seg_redirect v v' p i nxt nxt' es :
  seg v (p ++ [i]) nxt es -> i ∉ p -> (forall j, j ∈ p -> v'.[j] = v.[j]) ->
  (exists r, v.[i] = Some r /\ v'.[i] = Some (with_next r nxt')) -> seg v' (p ++ [i]) nxt' es.
Proof.
  intros Hs Hi Hv (r & Hr & Hr'). pose proof (seg_length _ _ _ _ Hs) as Hl.
  rewrite length_app in Hl. simpl in Hl. destruct es as [|e es _] using rev_ind; [simpl in Hl; lia|].
  rewrite length_app in Hl. simpl in Hl.
  rewrite seg_app in Hs |- * by lia. destruct Hs as [H1 H2]. split.
  - by eapply seg_frame.
  - simpl in *. split; [|done]. destruct H2 as [(r' & ? & ? & ?) _]. simplify_eq. by eexists.
Qed.

(** A well-formed list: the chain starts at zero, visits every element of the
    vector once, and its ranges are sorted. *)
Record chain v p es : Prop := {
  ch_seg : seg v p 0 es;
  ch_head : head p = Some 0;
  ch_pos : Forall (fun i => 0 < i) (tail p);
  ch_nodup : NoDup p;
  ch_all : length p = length v
}.

Definition wf_ranges v es : Prop :=
  sorted_from 0 es /\ ((v = [] /\ es = []) \/ exists p, chain v p es).

Lemma seg_lookup_lt v p nxt es i : seg v p nxt es -> i ∈ p -> 0 <= i < vlen v.
Proof.
  revert es. induction p as [|j p IH]; intros [|e es]; simpl; try done; [by intros _ ?%not_elem_of_nil|].
  intros [(r & Hr & _) Hs] [->|Hi]%elem_of_cons; [by apply vec_at_lt in Hr|by eapply IH].
Qed.

(** Iterating follows the chain. *)
Lemma iterate_seg v p es i fuel :
  seg v (i :: p) 0 es -> Forall (fun i => 0 < i) p -> (length p < fuel)%nat -> iterate fuel v i = Some es.
Proof.
  revert i es fuel. induction p as [|j p IH]; intros i [|e es] [|fuel] Hs Hp Hf; simpl in Hf; try lia; try done;
    destruct Hs as [(r & Hr & He & Hn) Hs]; cbn [iterate]; rewrite Hr, option_bind_Some, Hn; simpl.
  - destruct es; [|done]. by rewrite He.
  - apply Forall_cons in Hp as [Hj Hp]. destruct (Z.eqb_spec j 0); [lia|].
    rewrite (IH j es) by (done || lia). by rewrite option_bind_Some, He.
Qed.

Lemma range_list_wf v es : wf_ranges v es -> range_list v = Some es.
Proof.
  intros [_ [[-> ->]|(p & [Hs Hh Hpos Hnd Hall])]]; [done|].
  destruct p as [|i p]; [done|]. simpl in Hh. injection Hh as ->. unfold range_list.
  destruct v as [|r v]; [done|]. apply (iterate_seg _ p); [done|done|]. simpl in Hall |- *. lia.
Qed.
End Chains.

(** ** Inserting between two ranges *)

Section Insert.
Context {D : Type}.
Implicit Types (v : list (MutableRange D)) (p : list Z) (es : list (CharRange * D)).

(** A chain split in front of the current range; [last] is the index of the
    range in front of it, if there is one. *)
Record zip v (last : Z) pl pr el er : Prop := {
  z_chain : chain v (pl ++ pr) (el ++ er);
  z_len : length pl = length el;
  z_last : pl = [] \/ exists p, pl = p ++ [last]
}.

Lemma zip_lt v last pl pr el er i : zip v last pl pr el er -> i ∈ pl ++ pr -> 0 <= i < vlen v.
Proof. intros [[Hs _ _ _ _] _ _] Hi. by eapply seg_lookup_lt. Qed.

Lemma zip_first v last pl self pr el er :
  zip v last pl (self :: pr) el er -> (self = 0 <-> pl = []).
Proof.
  intros [[_ Hh Hp _ _] _ _]. destruct pl as [|i pl]; simpl in *; [naive_solver|]. split; [|done]. intros ->.
  apply Forall_app in Hp as [_ Hp%Forall_cons]. lia.
Qed.

(** In front of the first range: the new range takes its place at index zero. *)
Lemma insertBetween_front v last pl pr el er f l d :
  zip v last pl (0 :: pr) el er -> vlen v < 2 ^ 32 - 1 ->
  exists v' last' self' pl', insertBetween v last 0 f l d = Some (v', last', self')
    /\ zip v' last' pl' (self' :: pr) (el ++ [(mkCharRange f l, d)]) er.
Proof.
  intros Hz Hv. pose proof (zip_first _ _ _ _ _ _ _ Hz) as Hfirst. pose proof (fun i => zip_lt _ _ _ _ _ _ i Hz) as Hlt.
  unfold insertBetween. rewrite u32_small by lia. cbn [Z.eqb].
  rewrite (proj1 Hfirst eq_refl) in *. destruct Hz as [[Hs Hh Hp Hnd Hall] Hlen _].
  destruct el; [|done]. simpl in *. destruct er as [|e er]; [done|]. destruct Hs as [(r0 & Hr0 & He & Hn) Hs].
  rewrite Hr0, option_bind_Some. apply NoDup_cons in Hnd as [H0 Hnd].
  destruct (vec_set (v ++ [r0]) 0 _) as [v'|] eqn:Hset;
    [|rewrite vec_set_Some in Hset by (rewrite length_app; simpl; lia); done].
  rewrite option_bind_Some. exists v', 0, (vlen v), [0]. split; [done|].
  pose proof (fun j => vec_at_set _ _ 0 j _ Hset) as Hat.
  assert (Hn0 : 0 < vlen v) by (apply vec_at_lt in Hr0; lia).
  split; [|done|right; by exists []]. split.
  + simpl. split; [eexists; rewrite (Hat 0); by case_decide|]. split.
    * exists r0. rewrite Hat. case_decide; [lia|]. by rewrite vec_at_snoc.
    * eapply seg_frame; [exact Hs|]. intros j Hj. pose proof (Hlt j ltac:(set_solver)).
      rewrite Hat. case_decide; [by subst|]. rewrite vec_at_app_l; [done|lia].
  + done.
  + simpl. by constructor.
  + apply NoDup_cons. split; [intros [?|?]%elem_of_cons; [lia|done]|].
    apply NoDup_cons. split; [|done]. intros Hin. pose proof (Hlt (vlen v) ltac:(set_solver)). lia.
  + apply vec_set_length in Hset. rewrite Hset, (length_app v). simpl. lia.
Qed.

Lemma insertBetween_middle v last self pl pr el er f l d :
  zip v last pl (self :: pr) el er -> vlen v < 2 ^ 32 - 1 -> self <> 0 ->
  exists v' last' self' pl', insertBetween v last self f l d = Some (v', last', self')
    /\ zip v' last' pl' (self' :: pr) (el ++ [(mkCharRange f l, d)]) er.
Proof.
  intros Hz Hv Hne. pose proof (zip_first _ _ _ _ _ _ _ Hz) as Hfirst. pose proof (fun i => zip_lt _ _ _ _ _ _ i Hz) as Hlt.
  unfold insertBetween. rewrite u32_small by lia. destruct (Z.eqb_spec self 0) as [?|_]; [done|].
  assert (pl <> []) as Hpl by tauto. destruct Hz as [[Hs Hh Hp Hnd Hall] Hlen Hlast].
  destruct Hlast as [?|[p ->]]; [done|]. rewrite seg_app in Hs by done. destruct Hs as [Hs1 Hs2].
  assert (exists rl, v.[last] = Some rl) as [rl Hrl].
  { apply vec_at_is_Some, Hlt. set_solver. }
  pose proof (vec_at_lt _ _ _ Hrl) as Hll. rewrite vec_at_app_l, Hrl, option_bind_Some by lia.
  destruct (vec_set (v ++ [_]) last _) as [v'|] eqn:Hset;
    [|rewrite vec_set_Some in Hset by (rewrite length_app; simpl; lia); done].
  rewrite option_bind_Some. exists v', (vlen v), self, ((p ++ [last]) ++ [vlen v]). split; [done|].
  pose proof (fun j => vec_at_set _ _ last j _ Hset) as Hat.
  assert (Hnew : v'.[vlen v] = Some (mkMutableRange d self f l)).
  { rewrite Hat. case_decide; [lia|]. by rewrite vec_at_snoc. }
  assert (Hold : forall j, j ∈ (p ++ [last]) ++ self :: pr -> j <> last -> v'.[j] = v.[j]).
  { intros j Hj Hjl. pose proof (Hlt j Hj). rewrite Hat. case_decide; [congruence|].
    by rewrite vec_at_app_l by lia. }
  apply NoDup_app in Hnd as (Hnd1 & Hdisj & Hnd2). apply NoDup_app in Hnd1 as (Hndp & Hdl & _).
  assert (Hlp : last ∉ p) by (intros Hin; apply (Hdl last Hin); by constructor).
  split; [|rewrite !length_app in *; simpl in *; lia|right; eexists; done]. split.
  + rewrite <- (assoc_L (++) el). rewrite <- (assoc_L (++) (p ++ [last])). rewrite seg_app by done. split.
    * simpl. eapply (seg_redirect v); [exact Hs1|done| |].
      { intros j Hj. apply Hold; [set_solver|]. by intros ->. }
      exists rl. split; [done|]. rewrite Hat. case_decide; [|done]. by simpl.
    * simpl. split; [eexists; split_and!; [exact Hnew|done|done]|].
      change (seg v' (self :: pr) 0 er). eapply seg_frame; [exact Hs2|]. intros j Hj. apply Hold; [set_solver|]. intros ->.
      apply (Hdisj last); set_solver.
  + by destruct p.
  + assert (Hn0 : 0 < vlen v) by lia. rewrite <- (assoc_L (++) (p ++ [last])). simpl.
    destruct p as [|i0 p]; simpl in *; [by apply Forall_cons|].
    apply Forall_app in Hp as [? ?]. apply Forall_app. split; [done|]. by apply Forall_cons.
  + rewrite <- (assoc_L (++)). apply NoDup_app. split_and!.
    * apply NoDup_app. split_and!; [done|done|apply NoDup_singleton].
    * intros j Hj [->|Hj']%elem_of_cons; [pose proof (Hlt (vlen v) ltac:(set_solver)); lia|by apply (Hdisj j)].
    * apply NoDup_cons. split; [|done]. intros Hin. pose proof (Hlt (vlen v) ltac:(set_solver)). lia.
  + apply vec_set_length in Hset. rewrite Hset, !length_app in *. simpl in *. lia.
Qed.

Lemma insertBetween_spec v last self pl pr el er f l d :
  zip v last pl (self :: pr) el er -> vlen v < 2 ^ 32 - 1 ->
  exists v' last' self' pl', insertBetween v last self f l d = Some (v', last', self')
    /\ zip v' last' pl' (self' :: pr) (el ++ [(mkCharRange f l, d)]) er.
Proof.
  intros Hz Hv. destruct (Z.eq_dec self 0) as [->|Hne]; [by eapply insertBetween_front|by eapply insertBetween_middle].
Qed.

(** Replacing the data or the bounds of the current range. *)
Lemma zip_update v last self pl pr el e er a a' :
  zip v last pl (self :: pr) el (e :: er) -> v.[self] = Some a -> nextRangeIndex a' = nextRangeIndex a ->
  exists v', vec_set v self a' = Some v' /\ zip v' last pl (self :: pr) el (range_of a' :: er)
    /\ v'.[self] = Some a'.
Proof.
  intros Hz Ha Hn. pose proof (vec_at_lt _ _ _ Ha) as Hlt.
  destruct (vec_set v self a') as [v'|] eqn:Hset; [|rewrite vec_set_Some in Hset by lia; done].
  pose proof (fun j => vec_at_set _ _ self j _ Hset) as Hat.
  exists v'. split; [done|]. split; [|rewrite Hat; by case_decide].
  destruct Hz as [[Hs Hh Hp Hnd Hall] Hlen Hlast]. split; [|done|done].
  split; [|done|done|done|by rewrite (vec_set_length _ _ _ _ Hset)].
  rewrite seg_app in Hs |- * by done. destruct Hs as [Hs1 Hs2]. apply NoDup_app in Hnd as (_ & Hdisj & Hnd2).
  apply NoDup_cons in Hnd2 as [Hself _]. split.
  - eapply seg_frame; [exact Hs1|]. intros j Hj. rewrite Hat. case_decide; [|done]. subst.
    destruct (Hdisj j Hj). by constructor.
  - simpl in *. destruct Hs2 as [(r & Hr & _ & Hnext) Hs2]. simplify_eq. split.
    + exists a'. rewrite Hat. case_decide; [|done]. split_and!; [done..|congruence].
    + eapply seg_frame; [exact Hs2|]. intros j Hj. rewrite Hat. case_decide; [|done]. by subst.
Qed.

(** Moving on to the next range. *)
Lemma zip_advance v last self pl pr el e er a :
  zip v last pl (self :: pr) el (e :: er) -> v.[self] = Some a ->
  range_of a = e /\ nextRangeIndex a = default 0 (head pr) /\ zip v self (pl ++ [self]) pr (el ++ [e]) er
  /\ Forall (fun i => 0 < i) pr.
Proof.
  intros [[Hs Hh Hp Hnd Hall] Hlen Hlast] Ha. pose proof Hs as Hs'. rewrite seg_app in Hs by done.
  destruct Hs as [_ [(r & Hr & He & Hn) _]]. simplify_eq. split_and!; [done|done| |].
  - split; [|rewrite !length_app; simpl; lia|right; by eexists]. rewrite <- !(assoc_L (++)). by split.
  - destruct pl; simpl in Hp; [done|]. by apply Forall_app in Hp as [_ [_ ?]%Forall_cons].
Qed.
End Insert.

(** ** What a merge means *)

Section Merge.
Context {B D : Type} `{DataConverter B D}.
Implicit Types (es el er : list (CharRange * D)) (os : list (CharRange * B)).

(** The data of a character after the merge. *)
Definition pmerge (x : option D) (y : option B) : option D :=
  match y with
  | None => x
  | Some o => Some (match x with Some d => extend_data d o | None => convert o end)
  end.

(** The ranges [el] are final, [er] and [os] are still to be merged, and
    together they denote [T]. *)
Definition denotes (T : Z -> option D) el er os : Prop :=
  sorted_from 0 (el ++ er) /\ sorted_from (top 0 el) os
  /\ forall c, T c = pmerge (ts_step (el ++ er) c) (ts_step os c).

Ltac lookup_none :=
  repeat match goal with
  | Hs : sorted_from ?lo ?l |- context [ts_step ?l ?c] => rewrite (ts_step_below lo l c Hs) by lia
  end.

Ltac merge_step el :=
  intros (Hs & Ho & HT); intros;
  rewrite sorted_from_app in Hs; destruct Hs as [Hel Her]; simpl in Her, Ho;
  destruct Her as (?&?&?&Her); destruct Ho as (?&?&?&Ho);
  pose proof (top_ge _ _ Hel);
  split; [rewrite <- (assoc_L (++)), sorted_from_app; split; [done|]; simpl; done || (split_and!; done || lia)|];
  split; [rewrite top_app; simpl; done || (eapply sorted_from_mono; [done|lia]) || (split_and!; done || lia)|];
  intros ch; rewrite HT, <- (assoc_L (++)), !ts_step_app; destruct (ts_step el ch) eqn:E;
  [destruct (Z.lt_ge_cases ch (top 0 el)); [|rewrite (ts_step_above 0 el ch Hel) in E; [done|lia]]|];
  simpl; unfold in_range; simpl; bool_cases; try lia; simpl; lookup_none; try done.

Lemma denotes_skip T el er os A d O o :
  denotes T el ((A, d) :: er) ((O, o) :: os) -> range_last A < range_first O ->
  denotes T (el ++ [(A, d)]) er ((O, o) :: os).
Proof. merge_step el. Qed.

Lemma denotes_insert T el er os A d O o :
  denotes T el ((A, d) :: er) ((O, o) :: os) -> range_last O < range_first A ->
  denotes T (el ++ [(mkCharRange (range_first O) (range_last O), convert o)]) ((A, d) :: er) os.
Proof. merge_step el. Qed.

Lemma denotes_split T el er os A d O o :
  denotes T el ((A, d) :: er) ((O, o) :: os) -> range_first A < range_first O <= range_last A ->
  denotes T (el ++ [(mkCharRange (range_first A) (range_first O - 1), d)])
    ((mkCharRange (range_first O) (range_last A), d) :: er) ((O, o) :: os).
Proof. merge_step el. Qed.

Lemma denotes_left T el er os A d O o :
  denotes T el ((A, d) :: er) ((O, o) :: os) -> range_first O < range_first A <= range_last O ->
  denotes T (el ++ [(mkCharRange (range_first O) (range_first A - 1), convert o)]) ((A, d) :: er)
    ((mkCharRange (range_first A) (range_last O), o) :: os).
Proof. merge_step el. Qed.

Lemma denotes_equal T el er os A d O o :
  denotes T el ((A, d) :: er) ((O, o) :: os) -> range_first A = range_first O -> range_last A = range_last O ->
  denotes T (el ++ [(A, extend_data d o)]) er os.
Proof. merge_step el. Qed.

Lemma denotes_bigger T el er os A d O o :
  denotes T el ((A, d) :: er) ((O, o) :: os) -> range_first A = range_first O -> range_last O < range_last A ->
  denotes T (el ++ [(mkCharRange (range_first A) (range_last O), extend_data d o)])
    ((mkCharRange (range_last O + 1) (range_last A), d) :: er) os.
Proof. merge_step el. Qed.

Lemma denotes_smaller T el er os A d O o :
  denotes T el ((A, d) :: er) ((O, o) :: os) -> range_first A = range_first O -> range_last A < range_last O ->
  denotes T (el ++ [(A, extend_data d o)]) er ((mkCharRange (range_last A + 1) (range_last O), o) :: os).
Proof. merge_step el. Qed.
End Merge.

(** ** The merging loop *)

Section Loop.
Context {B D : Type} `{DataConverter B D}.
Implicit Types (v : list (MutableRange D)) (s : @extend_state B D).

Lemma zip_current v last self pl pr el er :
  zip v last pl (self :: pr) el er -> exists a er', v.[self] = Some a /\ er = range_of a :: er'.
Proof.
  intros [[Hs _ _ _ _] Hlen _]. rewrite seg_app in Hs by done. destruct Hs as [_ Hs].
  destruct er as [|e er]; [done|]. destruct Hs as [(r & Hr & <- & _) _]. eauto.
Qed.

(** The ranges are disjoint ranges of characters, so there are few of them. *)
Lemma zip_small v last pl pr el er : zip v last pl pr el er -> sorted_from 0 (el ++ er) -> vlen v <= 128.
Proof.
  intros [[Hs _ _ _ Hall] _ _] Hsort. pose proof (seg_length _ _ _ _ Hs). pose proof (sorted_length 0 _ Hsort). lia.
Qed.

(** What is left of the other sequence. *)
Definition effective (offset : Z) (os : list (CharRange * B)) : list (CharRange * B) :=
  match os with
  | [] => []
  | (r, o) :: os => (mkCharRange (range_first r + offset) (range_last r), o) :: os
  end.

Lemma effective_0 os : effective 0 os = os.
Proof. destruct os as [|[[f l] o] os]; simpl; [done|]. by rewrite Z.add_0_r. Qed.

Record einv (T : Z -> option D) s pl pr el er : Prop := {
  ei_zip : zip (x_ranges s) (lastSelfRangeIndex s) pl pr el er;
  ei_reached : if reachedSelfEnd s then pr = [] else exists pr', pr = selfRangeIndex s :: pr';
  ei_denotes : denotes T el er (effective (otherRangeOffset s) (otherIterator s))
}.

(** The next range, or the end of the chain. *)
Lemma next_reached (pr : list Z) n : Forall (fun i => 0 < i) pr -> n = default 0 (head pr) ->
  if n =? 0 then pr = [] else exists pr', pr = n :: pr'.
Proof.
  intros Hp ->. destruct pr as [|i pr]; simpl; [done|]. apply Forall_cons in Hp as [? _].
  destruct (Z.eqb_spec i 0); [lia|eauto].
Qed.

(** Both ranges start together after [align]. *)
Lemma align_spec T v last self offset r o rest pl pr el er a :
  zip v last pl (self :: pr) el (range_of a :: er) -> v.[self] = Some a ->
  denotes T el (range_of a :: er) (effective offset ((r, o) :: rest)) ->
  range_first r + offset <= mr_last a -> mr_first a <= range_last r ->
  exists v' last' self' offset' pl' el' a', align v last self offset r o a = Some (v', last', self', offset')
    /\ zip v' last' pl' (self' :: pr) el' (range_of a' :: er) /\ v'.[self'] = Some a'
    /\ denotes T el' (range_of a' :: er) (effective offset' ((r, o) :: rest))
    /\ mr_first a' = range_first r + offset'.
Proof.
  intros Hz Ha Hd Hle1 Hle2. pose proof Hd as (Hsort & _ & _). pose proof (zip_small _ _ _ _ _ _ Hz Hsort) as Hsmall.
  unfold align. destruct (Z.ltb_spec (mr_first a) (range_first r + offset)).
  - destruct (zip_update _ _ _ _ _ _ _ _ _ (with_first a (range_first r + offset)) Hz Ha eq_refl) as (v1 & -> & Hz1 & Ha1).
    rewrite option_bind_Some. pose proof Hz1 as [[_ _ _ _ Hall1] _ _]. pose proof Hz as [[_ _ _ _ Hall] _ _].
    destruct (insertBetween_spec v1 last self pl pr el _ (mr_first a) (range_first r + offset - 1) (mr_data a) Hz1)
      as (v2 & last2 & self2 & pl2 & -> & Hz2); [lia|]. rewrite option_bind_Some.
    destruct (zip_current _ _ _ _ _ _ _ Hz2) as (a2 & er2 & Ha2 & Heq). injection Heq as He1 He2 He3 Her.
    exists v2, last2, self2, offset, pl2. eexists. exists a2. split; [done|]. rewrite <- Her in *.
    assert (range_of a2 = range_of (with_first a (range_first r + offset))) as ->.
    { unfold range_of. simpl in *. congruence. }
    split_and!; [done|done| |by simpl in *].
    pose proof (denotes_split T el er rest (mkCharRange (mr_first a) (mr_last a)) (mr_data a) _ o Hd) as Hs. simpl in Hs. apply Hs. lia.
  - destruct (Z.ltb_spec (range_first r + offset) (mr_first a)).
    + destruct (insertBetween_spec v last self pl pr el _ (range_first r + offset) (mr_first a - 1) (convert o) Hz)
        as (v2 & last2 & self2 & pl2 & -> & Hz2); [lia|]. rewrite option_bind_Some.
      destruct (zip_current _ _ _ _ _ _ _ Hz2) as (a2 & er2 & Ha2 & Heq). rewrite Ha2, option_bind_Some.
      injection Heq as He1 He2 He3 Her. exists v2, last2, self2, (mr_first a2 - range_first r), pl2. eexists. exists a2.
      split; [done|]. assert (range_of a2 = range_of a) as -> by (unfold range_of; congruence).
      split_and!; [done|done| |lia].
      pose proof (denotes_left T el er rest (mkCharRange (mr_first a) (mr_last a)) (mr_data a) _ o Hd) as Hs. simpl in Hs.
      cbn [effective]. replace (range_first r + (mr_first a2 - range_first r)) with (mr_first a) by lia. apply Hs. lia.
    + exists v, last, self, offset, pl, el, a. split_and!; done || lia.
Qed.

(** How much of both sides is left. *)
Definition left_over (pr : list Z) s : nat := length pr + length (otherIterator s).

Lemma merge_aligned_spec T v last self offset r o rest pl pr el er a :
  zip v last pl (self :: pr) el (range_of a :: er) -> v.[self] = Some a ->
  denotes T el (range_of a :: er) (effective offset ((r, o) :: rest)) ->
  mr_first a = range_first r + offset ->
  exists s' pl' pr' el' er', merge_aligned v last self offset r o rest = Some s'
    /\ einv T s' pl' pr' el' er' /\ (left_over pr' s' < S (length pr) + S (length rest))%nat.
Proof.
  intros Hz Ha Hd Hfirst. pose proof Hd as (Hsort & _ & _). pose proof (zip_small _ _ _ _ _ _ Hz Hsort) as Hsmall.
  unfold merge_aligned. rewrite Ha, option_bind_Some.
  pose proof (zip_update _ _ _ _ _ _ _ _ _ (with_data a (extend_data (mr_data a) o)) Hz Ha eq_refl) as (v1 & Hset1 & Hz1 & Ha1).
  destruct (zip_advance _ _ _ _ _ _ _ _ _ Hz1 Ha1) as (_ & Hn & Hz1' & Hpos). simpl nextRangeIndex in Hn.
  destruct (Z.eqb_spec (mr_last a) (range_last r)).
  - rewrite Hset1, option_bind_Some. eexists. exists (pl ++ [self]), pr. do 2 eexists. split; [reflexivity|].
    split; [split|unfold left_over; simpl; lia]; simpl; [exact Hz1'|by apply next_reached|].
    rewrite effective_0. apply (denotes_equal _ _ _ _ _ _ _ _ Hd); simpl; done.
  - destruct (Z.ltb_spec (range_last r) (mr_last a)).
    + destruct (zip_update _ _ _ _ _ _ _ _ _ (with_first a (range_last r + 1)) Hz Ha eq_refl) as (v2 & -> & Hz2 & Ha2).
      rewrite option_bind_Some. pose proof Hz2 as [[_ _ _ _ Hall2] _ _]. pose proof Hz as [[_ _ _ _ Hall] _ _].
      destruct (insertBetween_spec v2 last self pl pr el _ (mr_first a) (range_last r) (extend_data (mr_data a) o) Hz2)
        as (v3 & last3 & self3 & pl3 & -> & Hz3); [lia|]. rewrite option_bind_Some.
      eexists. exists pl3, (self3 :: pr). do 2 eexists. split; [reflexivity|].
      split; [split|unfold left_over; simpl; lia]; simpl; [exact Hz3|eauto|].
      rewrite effective_0. apply (denotes_bigger _ _ _ _ _ _ _ _ Hd); simpl; done.
    + rewrite Hset1, option_bind_Some. eexists. exists (pl ++ [self]), pr. do 2 eexists. split; [reflexivity|].
      split; [split|unfold left_over; simpl; lia]; simpl; [exact Hz1'|by apply next_reached|].
      replace (range_first r + (mr_last a - range_first r + 1)) with (mr_last a + 1) by lia.
      apply (denotes_smaller _ _ _ _ _ _ _ _ Hd); simpl; lia.
Qed.

(** An iteration keeps the meaning and consumes a range. *)
Lemma extend_step_spec T s pl pr el er :
  einv T s pl pr el er -> reachedSelfEnd s = false -> otherIterator s <> [] ->
  exists s' pl' pr' el' er', extend_step s = Some s' /\ einv T s' pl' pr' el' er'
    /\ (left_over pr' s' < left_over pr s)%nat.
Proof.
  intros [Hz Hreach Hd] Hr Hos. rewrite Hr in Hreach. destruct Hreach as [pr' ->].
  unfold extend_step, left_over. destruct (otherIterator s) as [|[r o] rest] eqn:Eos; [done|].
  destruct (zip_current _ _ _ _ _ _ _ Hz) as (a & er' & Ha & ->). rewrite Ha, option_bind_Some.
  pose proof Hd as (Hsort & _ & _). pose proof (zip_small _ _ _ _ _ _ Hz Hsort) as Hsmall.
  destruct (Z.ltb_spec (mr_last a) (range_first r + otherRangeOffset s)).
  { destruct (zip_advance _ _ _ _ _ _ _ _ _ Hz Ha) as (_ & Hn & Hz' & Hpos).
    eexists. exists (pl ++ [selfRangeIndex s]), pr'. do 2 eexists. split; [reflexivity|].
    split; [split|simpl; lia]; simpl; [exact Hz'|by apply next_reached|].
    apply (denotes_skip _ _ _ _ _ _ _ _ Hd). simpl. lia. }
  destruct (Z.ltb_spec (range_last r) (mr_first a)).
  { destruct (insertBetween_spec _ _ _ _ _ _ _ (range_first r + otherRangeOffset s) (range_last r) (convert o) Hz)
      as (v1 & last1 & self1 & pl1 & -> & Hz1); [lia|]. rewrite option_bind_Some.
    eexists. exists pl1, (self1 :: pr'). do 2 eexists. split; [reflexivity|].
    split; [split|simpl; lia]; simpl; [exact Hz1|eauto|].
    rewrite effective_0. apply (denotes_insert _ _ _ _ _ _ _ _ Hd). simpl. lia. }
  destruct (align_spec T _ _ _ _ r o rest _ _ _ _ _ Hz Ha Hd)
    as (v1 & last1 & self1 & offset1 & pl1 & el1 & a1 & -> & Hz1 & Ha1 & Hd1 & Hf1); [done|done|].
  rewrite option_bind_Some. destruct (merge_aligned_spec T _ _ _ _ r o rest _ _ _ _ _ Hz1 Ha1 Hd1 Hf1)
    as (s' & pl' & pr'' & el' & er'' & Hm & Hinv & Hlt).
  exists s', pl', pr'', el', er''. split_and!; [done|done|]. unfold left_over in Hlt. simpl. lia.
Qed.

Lemma extend_loop_spec T fuel : forall s pl pr el er,
  einv T s pl pr el er -> reachedSelfEnd s = false -> otherIterator s <> [] -> (left_over pr s <= fuel)%nat ->
  exists s' pl' pr' el' er', extend_loop fuel s = Some s' /\ einv T s' pl' pr' el' er'
    /\ (pr' = [] \/ otherIterator s' = []).
Proof.
  induction fuel as [|fuel IH]; intros s pl pr el er Hinv Hr Hos Hf.
  { unfold left_over in Hf. destruct (otherIterator s); [done|]. simpl in Hf. lia. }
  destruct (extend_step_spec T s pl pr el er Hinv Hr Hos) as (s' & pl' & pr' & el' & er' & Hs & Hinv' & Hlt).
  cbn [extend_loop]. rewrite Hs, option_bind_Some. pose proof (ei_reached _ _ _ _ _ _ Hinv') as Hreach.
  destruct (reachedSelfEnd s') eqn:Er; [exists s', pl', pr', el', er'; split_and!; auto|]. simpl.
  case_bool_decide as Hend.
  - exists s', pl', pr', el', er'. split_and!; [done|done|]. right. by apply nil_length_inv.
  - eapply IH; [done|done| |lia]. by intros Hn; rewrite Hn in Hend.
Qed.
End Loop.

(** ** The whole merge *)

Section Extend.
Context {B D : Type} `{DataConverter B D}.
Implicit Types (v : list (MutableRange D)) (os : list (CharRange * B)).

Lemma appendRange_spec v p last es f l d :
  chain v (p ++ [last]) es -> vlen v < 2 ^ 32 - 1 ->
  exists v', appendRange v last f l d = Some (v', vlen v)
    /\ chain v' ((p ++ [last]) ++ [vlen v]) (es ++ [(mkCharRange f l, d)]).
Proof.
  intros [Hs Hh Hp Hnd Hall] Hv. pose proof (fun i => seg_lookup_lt _ _ _ _ i Hs) as Hlt.
  assert (exists rl, v.[last] = Some rl) as [rl Hrl] by (apply vec_at_is_Some, Hlt; set_solver).
  pose proof (vec_at_lt _ _ _ Hrl) as Hll. unfold appendRange. rewrite u32_small by lia.
  destruct (Z.eqb_spec (vlen v) 0); [lia|]. rewrite vec_at_app_l, Hrl, option_bind_Some by lia.
  destruct (vec_set (v ++ [_]) last _) as [v'|] eqn:Hset;
    [|rewrite vec_set_Some in Hset by (rewrite length_app; simpl; lia); done].
  rewrite option_bind_Some. exists v'. split; [done|]. pose proof (fun j => vec_at_set _ _ last j _ Hset) as Hat.
  apply NoDup_app in Hnd as Hnd'. destruct Hnd' as (_ & Hdl & _).
  assert (Hlp : last ∉ p) by (intros Hin; apply (Hdl last Hin); by constructor).
  assert (Hnew : vlen v ∉ p ++ [last]) by (intros Hin%Hlt; lia).
  split.
  - pose proof (seg_length _ _ _ _ Hs). rewrite seg_app by done. split.
    + simpl. eapply (seg_redirect v); [exact Hs|done| |].
      { intros j Hj. rewrite Hat. case_decide; [by subst|]. apply vec_at_app_l. pose proof (Hlt j ltac:(set_solver)). lia. }
      exists rl. split; [done|]. rewrite Hat. by case_decide.
    + simpl. split; [|done]. eexists. rewrite Hat. case_decide; [lia|]. by rewrite vec_at_snoc.
  - by destruct p.
  - destruct p; simpl in *; [repeat constructor; lia|]. rewrite Forall_app. split; [done|]. repeat constructor. lia.
  - apply NoDup_app. split_and!; [done| |apply NoDup_singleton]. intros j Hj ->%list_elem_of_singleton. done.
  - apply vec_set_length in Hset. rewrite Hset, !length_app in *. simpl in *. lia.
Qed.

Lemma denotes_append T (el : list (CharRange * D)) os O o :
  denotes T el [] ((O, o) :: os) ->
  denotes T (el ++ [(mkCharRange (range_first O) (range_last O), convert o)]) [] os.
Proof.
  intros (Hs & Ho & HT). rewrite app_nil_r in Hs. simpl in Ho. destruct Ho as (?&?&?&Ho). split_and!.
  - rewrite app_nil_r, sorted_from_app. simpl. split_and!; done || lia.
  - by rewrite top_app.
  - intros c. rewrite HT, !app_nil_r, ts_step_app. destruct (ts_step el c) eqn:E; simpl; unfold in_range; simpl.
    + destruct (Z.lt_ge_cases c (top 0 el)); [|rewrite (ts_step_above 0 el c Hs) in E by lia; done].
      destruct (Z.leb_spec (range_first O) c); [lia|]. done.
    + destruct (Z.leb_spec (range_first O) c), (Z.leb_spec c (range_last O)); simpl; try done.
      by rewrite (ts_step_below (range_last O + 1) os c) by (done || lia).
Qed.

Lemma append_rest_spec T os : forall v p last el offset,
  chain v (p ++ [last]) el -> denotes T el [] (effective offset os) ->
  exists v' es, append_rest v last offset os = Some v' /\ wf_ranges v' es /\ forall c, ts_step es c = T c.
Proof.
  induction os as [|[r o] os IH]; intros v p last el offset Hc Hd.
  - exists v, el. split; [done|]. destruct Hd as (Hs & _ & HT). rewrite app_nil_r in *. split.
    + split; [done|]. right. eauto.
    + intros c. by rewrite HT.
  - pose proof Hc as [Hseg _ _ _ Hall]. pose proof Hd as (Hsort & _ & _). rewrite app_nil_r in Hsort.
    pose proof (seg_length _ _ _ _ Hseg). pose proof (sorted_length 0 _ Hsort).
    destruct (appendRange_spec v p last el (range_first r + offset) (range_last r) (convert o) Hc)
      as (v' & Ha & Hc'); [lia|]. cbn [append_rest]. rewrite Ha, option_bind_Some.
    eapply IH; [exact Hc'|]. rewrite effective_0. by apply (denotes_append _ _ _ (mkCharRange _ _)).
Qed.

(** Copying a sequence into an empty list. *)
Definition converted os : list (CharRange * D) := map (fun t => (fst t, convert (snd t))) os.

Lemma ts_step_converted os c : ts_step (converted os) c = convert <$> ts_step os c.
Proof. induction os as [|[r o] os IH]; simpl; [done|]. by destruct (in_range r c). Qed.

Lemma sorted_converted lo os : sorted_from lo os -> sorted_from lo (converted os).
Proof. revert lo. induction os as [|[r o] os IH]; intros lo; simpl; [done|]. naive_solver. Qed.

Lemma initialize_loop_spec os : forall v,
  exists w, initialize_loop v (vlen v) os = v ++ w /\ length w = length os
    /\ seg (v ++ w) (seqZ (vlen v) (vlen os)) (vlen v + vlen os) (converted os).
Proof.
  induction os as [|[r o] os IH]; intros v; simpl.
  { exists []. rewrite app_nil_r. split_and!; done. }
  set (x := mkMutableRange _ _ _ _).
  destruct (IH (v ++ [x])) as (w & Hw & Hl & Hs). rewrite length_app in Hw, Hs. simpl in Hw, Hs.
  replace (vlen v + 1) with (Z.of_nat (length v + 1)) by lia.
  exists (x :: w). rewrite Hw, <- (assoc_L (++)). split_and!; [done|simpl; lia|].
  rewrite <- (assoc_L (++)) in Hs. simpl in Hs.
  rewrite seqZ_cons by lia. replace (Z.succ (vlen v)) with (Z.of_nat (length v + 1)) by lia.
  replace (Z.pred (Z.of_nat (S (length os)))) with (vlen os) by lia.
  replace (vlen v + Z.of_nat (S (length os))) with (Z.of_nat (length v + 1) + vlen os) by lia.
  cbn [seg]. split; [|exact Hs]. exists x. split_and!.
  - rewrite <- (Z.add_0_r (vlen v)), vec_at_app_r by lia. done.
  - unfold range_of. simpl. by destruct r.
  - simpl. destruct os; simpl; [lia|]. rewrite seqZ_cons by lia. simpl. lia.
Qed.

Lemma initializeFrom_spec os :
  os <> [] -> sorted_from 0 os ->
  exists v', initializeFrom [] os = Some v' /\ wf_ranges v' (converted os).
Proof.
  intros Hne Hs. destruct (initialize_loop_spec os []) as (w & Hw & Hl & Hseg).
  change (vlen []) with 0 in Hw, Hseg. cbn [app] in Hw, Hseg. unfold initializeFrom. rewrite Hw.
  assert (0 < vlen os) by (destruct os; simpl; [done|lia]).
  rewrite bool_decide_eq_false_2 by (intros ->; simpl in Hl; lia).
  destruct (vec_at_is_Some w (vlen w - 1)) as [r Hr]; [lia|]. rewrite Hr, option_bind_Some.
  destruct (vec_set w (vlen w - 1) (with_next r 0)) as [v'|] eqn:Hset; [|rewrite vec_set_Some in Hset by lia; done].
  exists v'. split; [done|]. split; [by apply sorted_converted|]. right. exists (seqZ 0 (vlen os)).
  assert (Hsplit : seqZ 0 (vlen os) = seqZ 0 (vlen os - 1) ++ [vlen os - 1]).
  { replace (vlen os) with ((vlen os - 1) + 1) at 1 by lia. rewrite seqZ_app by lia. f_equal. }
  pose proof (fun j => vec_at_set _ _ _ j _ Hset) as Hat. split.
  - rewrite Hsplit in Hseg |- *. eapply seg_redirect; [exact Hseg| | |].
    + rewrite elem_of_seqZ. lia.
    + intros j Hj%elem_of_seqZ. rewrite Hat. case_decide; [lia|done].
    + replace (vlen os - 1) with (vlen w - 1) by lia. exists r. split; [done|]. rewrite Hat. by case_decide.
  - rewrite seqZ_cons by lia. done.
  - rewrite seqZ_cons by lia. simpl. apply Forall_forall. intros j Hj%elem_of_seqZ. lia.
  - apply NoDup_seqZ.
  - rewrite length_seqZ, (vec_set_length _ _ _ _ Hset). lia.
Qed.

Lemma extend_spec v es os :
  wf_ranges v es -> sorted_from 0 os ->
  exists v' es', extend v os = Some v' /\ wf_ranges v' es'
    /\ forall c, ts_step es' c = pmerge (ts_step es c) (ts_step os c).
Proof.
  intros [Hsort Hch] Hos. destruct os as [|x os]; [exists v, es; split_and!; [by destruct v|done|done]|].
  destruct Hch as [[-> ->]|[p Hch]].
  { destruct (initializeFrom_spec (x :: os)) as (v' & Hi & Hw'); [done|done|].
    exists v', (converted (x :: os)). split_and!; [exact Hi|done|]. intros c. rewrite ts_step_converted. simpl.
    by destruct (ts_step (x :: os) c). }
  pose proof Hch as [Hseg Hhead _ _ Hall]. destruct p as [|i p]; [done|]. injection Hhead as ->.
  destruct v as [|a v]; [done|]. cbn [extend]. set (s0 := mkExtend _ _ _ _ _ _).
  assert (Hinv : einv (fun c => pmerge (ts_step es c) (ts_step (x :: os) c)) s0 [] (0 :: p) [] es).
  { split; [split; [done|done|by left]|simpl; eauto|].
    change (effective _ _) with (effective 0 (x :: os)). rewrite effective_0. done. }
  destruct (extend_loop_spec _ (length (a :: v) + length (x :: os)) s0 _ _ _ _ Hinv) as (s & pl & pr & el & er & -> & Hs & Hend);
    [done|done|unfold left_over; simpl in *; lia|]. rewrite option_bind_Some.
  destruct Hs as [Hz _ Hd]. destruct (decide (otherIterator s = [])) as [Hnil|Hnil].
  - rewrite Hnil in Hd |- *. exists (x_ranges s), (el ++ er). destruct Hd as (Hs' & _ & HT). split_and!; [done| |].
    + split; [done|]. right. eexists. apply Hz.
    + intros c. by rewrite HT.
  - destruct Hend as [->|?]; [|done]. destruct Hz as [Hc Hlen Hlast]. rewrite app_nil_r in Hc.
    pose proof (seg_length _ _ _ _ (ch_seg _ _ _ Hc)) as Hl. rewrite length_app in Hl.
    destruct er; [|simpl in Hl; lia]. rewrite app_nil_r in Hc.
    destruct Hlast as [->|[p' ->]]; [by destruct Hc|]. eapply append_rest_spec; done.
Qed.
End Extend.

(** ** The list as a map from characters *)

(** C13: merging a sorted sequence of ranges into a well-formed range list
    succeeds (no index is out of bounds, the loop ends within the combined
    number of ranges), keeps the list well formed, and is the pointwise merge:
    after it the iterator gives every character the data of the two sides
    combined by the converter, whatever the overlaps. *)
Theorem extend_pointwise {B D} `{DataConverter B D} (v : list (MutableRange D)) es (others : list (CharRange * B)) :
  wf_ranges v es -> sorted_from 0 others ->
  exists v' es', extend v others = Some v' /\ wf_ranges v' es' /\ range_list v' = Some es' /\ sorted_from 0 es'
    /\ forall c, ts_step es' c = pmerge (ts_step es c) (ts_step others c).
Proof.
  intros Hv Ho. destruct (extend_spec v es others Hv Ho) as (v' & es' & He & Hwf & Hpt).
  exists v', es'. pose proof (range_list_wf _ _ Hwf). destruct Hwf. done.
Qed.

Module RangeListExample.
(** Lists of numbers, extended by one number. *)
#[export] Instance snoc_converter : DataConverter Z (list Z) := {
  convert o := [o];
  extend_data d o := d ++ [o]
}.

Definition a_to_z : list (MutableRange (list Z)) := [mkMutableRange [1] 0 97 122].
Definition overlapping : list (CharRange * Z) := [(mkCharRange 90 99, 2); (mkCharRange 120 127, 3)].

Example extend_example :
  (extend a_to_z overlapping ≫= range_list)
  = Some [(mkCharRange 90 96, [2]); (mkCharRange 97 99, [1; 2]); (mkCharRange 100 119, [1]);
          (mkCharRange 120 122, [1; 3]); (mkCharRange 123 127, [3])].
Proof. vm_compute. reflexivity. Qed.

Lemma extend_pointwise_witness :
  exists v' es', extend a_to_z overlapping = Some v' /\ wf_ranges v' es' /\ range_list v' = Some es'
    /\ sorted_from 0 es'
    /\ forall c, ts_step es' c = pmerge (ts_step [(mkCharRange 97 122, [1])] c) (ts_step overlapping c).
Proof.
  apply (extend_pointwise a_to_z [(mkCharRange 97 122, [1])] overlapping).
  - split; [simpl; lia|]. right. exists [0]. split.
    + simpl. split; [|done]. by eexists.
    + done.
    + apply List.Forall_nil.
    + apply NoDup_singleton.
    + done.
  - simpl. lia.
Defined.
End RangeListExample.
