(* ===== verification/HashSet.v ===== *)
(** * Hash sets of numbers (wtf/HashSet.h): the interface the automata use

    The NFA and DFA builders keep node numbers and actions in [HashSet]s and
    iterate over them.  The order of an iteration depends on the table (its
    capacity, its hash function, the history of insertions), so it is left
    open: a client gets the elements, each once, in some order.  Two values of
    the key type stand for empty and deleted buckets and are no keys. *)

From S2P Require Import Prelude.

Class HashSet (T : Type) := {
  hs_empty : T;
  hs_add : T -> Z -> T;
  hs_iter : T -> list Z;
  (** Keys are the numbers below this bound. *)
  hs_bound : Z
}.

(** [HashSet::contains], and [AddResult::isNewEntry] of an [add]. *)
Definition hs_contains `{HashSet T} (s : T) (k : Z) : bool := bool_decide (k ∈ hs_iter s).
Definition isNewEntry `{HashSet T} (s : T) (k : Z) : bool := negb (hs_contains s k).

(** [HashSet::add(begin, end)]. *)
Definition hs_add_all `{HashSet T} (s : T) (ks : list Z) : T := foldl hs_add s ks.

Definition hs_key `{HashSet T} (k : Z) : Prop := 0 <= k < hs_bound.

Class HashSetLaws (T : Type) `{HashSet T} := {
  hs_iter_empty : hs_iter hs_empty = [];
  hs_iter_nodup s : NoDup (hs_iter s);
  hs_iter_add s k x : hs_key k -> x ∈ hs_iter (hs_add s k) <-> x = k \/ x ∈ hs_iter s
}.

Section Facts.
Context `{HashSetLaws T}.

Lemma elem_of_hs_empty x : x ∉ hs_iter (hs_empty : T).
Proof. rewrite hs_iter_empty. apply not_elem_of_nil. Qed.

Lemma elem_of_hs_add_all (s : T) ks x :
  Forall hs_key ks -> x ∈ hs_iter (hs_add_all s ks) <-> x ∈ ks \/ x ∈ hs_iter s.
Proof.
  unfold hs_add_all. intros Hk. revert s. induction Hk as [|k ks Hk Hks IH]; intros s; simpl.
  - rewrite elem_of_nil. tauto.
  - rewrite IH, hs_iter_add, elem_of_cons by done. tauto.
Qed.

Lemma hs_contains_spec (s : T) k : hs_contains s k = true <-> k ∈ hs_iter s.
Proof. apply bool_decide_eq_true. Qed.

Lemma isNewEntry_true (s : T) k : isNewEntry s k = true <-> k ∉ hs_iter s.
Proof. unfold isNewEntry. rewrite negb_true_iff. apply bool_decide_eq_false. Qed.

Lemma isNewEntry_false (s : T) k : isNewEntry s k = false <-> k ∈ hs_iter s.
Proof. unfold isNewEntry. rewrite negb_false_iff. apply bool_decide_eq_true. Qed.
End Facts.

(** ** An instance: elements in the order of their insertion *)

Module InsertionOrder.
Record OrderedSet := mkOrderedSet { elements_of : list Z }.

#[export] Instance ordered_set : HashSet OrderedSet := {
  hs_empty := mkOrderedSet [];
  hs_add s k := if decide (k ∈ elements_of s) then s else mkOrderedSet (elements_of s ++ [k]);
  hs_iter s := remove_dups (elements_of s);
  hs_bound := 2 ^ 32 - 2
}.

#[export] Instance ordered_set_laws : HashSetLaws OrderedSet.
Proof.
  split.
  - done.
  - intros s. apply NoDup_remove_dups.
  - intros s k x _. simpl. rewrite !elem_of_remove_dups. case_decide; [naive_solver|].
    simpl. rewrite elem_of_app, list_elem_of_singleton. tauto.
Qed.
End InsertionOrder.
