(* ===== verification/NFA.v ===== *)
(** * The NFA and its node builder (ImmutableNFA.h, ImmutableNFANodeBuilder.h)

    An NFA keeps the transitions, targets, epsilon targets and actions of all
    its nodes in shared vectors.  A node is filled in through a builder: it
    collects transitions, epsilon transitions and actions in a range list and
    in hash sets, and appends them to the vectors when it is finalized (by its
    destructor, or when another builder is assigned to it). *)

From S2P Require Import Prelude DFA RangeList HashSet.

(** ** Data *)

Record ImmutableRange := mkImmutableRange {
  targetStart : Z;
  targetEnd : Z;
  ir_first : Z;
  ir_last : Z
}.

Record ImmutableNFANode := mkImmutableNFANode {
  rangesStart : Z;
  rangesEnd : Z;
  epsilonTransitionTargetsStart : Z;
  epsilonTransitionTargetsEnd : Z;
  actionStart : Z;
  actionEnd : Z
}.

Definition emptyNFANode : ImmutableNFANode := mkImmutableNFANode 0 0 0 0 0 0.

Record NFA := mkNFA {
  nfa_nodes : list ImmutableNFANode;
  nfa_transitions : list ImmutableRange;
  nfa_targets : list Z;
  epsilonTransitionsTargets : list Z;
  nfa_actions : list Z
}.

Definition emptyNFA : NFA := mkNFA [] [] [] [] [].

(** A slice of one of the vectors. *)
Definition slice {A} (v : list A) (start end_ : Z) : option (list A) :=
  mapM (fun i => v.[i]) (seqZ start (end_ - start)).

(** [ConstRangeIterator]: the range and its [IterableConstTargets]. *)
Definition nfa_range_at (nfa : NFA) (position : Z) : option (CharRange * list Z) :=
  r ← (nfa_transitions nfa).[position];
  targets ← slice (nfa_targets nfa) (targetStart r) (targetEnd r);
  Some (mkCharRange (ir_first r) (ir_last r), targets).

Definition transitionsForNode (nfa : NFA) (nodeId : Z) : option (list (CharRange * list Z)) :=
  node ← (nfa_nodes nfa).[nodeId];
  mapM (nfa_range_at nfa) (seqZ (rangesStart node) (rangesEnd node - rangesStart node)).

(** The epsilon targets and the actions of a node, as its users read them. *)
Definition epsilonTargets (nfa : NFA) (nodeId : Z) : option (list Z) :=
  node ← (nfa_nodes nfa).[nodeId];
  slice (epsilonTransitionsTargets nfa) (epsilonTransitionTargetsStart node) (epsilonTransitionTargetsEnd node).

Definition nodeActions (nfa : NFA) (nodeId : Z) : option (list Z) :=
  node ← (nfa_nodes nfa).[nodeId];
  slice (nfa_actions nfa) (actionStart node) (actionEnd node).

Definition nfa_root (nfa : NFA) : option Z :=
  if bool_decide (nfa_nodes nfa = []) then None else Some 0.

(** ** The builder *)

Section Builder.
Context {NS AS : Type} `{HashSet NS} `{HashSet AS}.

Record NodeBuilder := mkNodeBuilder {
  m_isValid : bool;
  m_ranges : list (MutableRange NS);
  m_epsilonTransitionTargets : NS;
  nb_actions : AS;
  m_nodeId : Z;
  m_finalized : bool
}.

(** The constructors: without an NFA, and with one. *)
Definition defaultBuilder : NodeBuilder := mkNodeBuilder false [] hs_empty hs_empty 0 true.

Definition newBuilder (nfa : NFA) : NFA * NodeBuilder :=
  (mkNFA (nfa_nodes nfa ++ [emptyNFANode]) (nfa_transitions nfa) (nfa_targets nfa)
     (epsilonTransitionsTargets nfa) (nfa_actions nfa),
   mkNodeBuilder true [] hs_empty hs_empty (u32 (vlen (nfa_nodes nfa))) false).

(** The move constructor.  The epsilon targets are initialized from the member
    under construction itself, not from the other builder's.  Formally that
    read is undefined; the move constructor of the hash table starts with an
    empty table and swaps it with its argument, here with itself, so the table
    of the new builder is empty. *)
Definition moveConstruct (other : NodeBuilder) : NodeBuilder :=
  mkNodeBuilder (m_isValid other) (m_ranges other) hs_empty (nb_actions other) (m_nodeId other)
    (m_finalized other).

(** What the move constructor leaves behind: no NFA, no ranges, no actions, and
    nothing to finalize. *)
Definition movedFrom (other : NodeBuilder) : NodeBuilder :=
  mkNodeBuilder false [] (m_epsilonTransitionTargets other) hs_empty (m_nodeId other) true.

(** The converter of [addTransition]. *)
#[export] Instance target_converter : DataConverter Z NS := {
  convert target := hs_add hs_empty target;
  extend_data targets target := hs_add targets target
}.

Definition with_ranges (b : NodeBuilder) (v : list (MutableRange NS)) : NodeBuilder :=
  mkNodeBuilder (m_isValid b) v (m_epsilonTransitionTargets b) (nb_actions b) (m_nodeId b) (m_finalized b).

(** [addTransition]: a range list is extended with a sequence of one range. *)
Definition addTransition (b : NodeBuilder) (first last targetNodeId : Z) : option NodeBuilder :=
  v ← extend (m_ranges b) [(mkCharRange first last, targetNodeId)];
  Some (with_ranges b v).

Definition addEpsilonTransition (b : NodeBuilder) (targetNodeId : Z) : NodeBuilder :=
  mkNodeBuilder (m_isValid b) (m_ranges b) (hs_add (m_epsilonTransitionTargets b) targetNodeId) (nb_actions b)
    (m_nodeId b) (m_finalized b).

Definition setActions (b : NodeBuilder) (actions : list Z) : NodeBuilder :=
  mkNodeBuilder (m_isValid b) (m_ranges b) (m_epsilonTransitionTargets b) (hs_add_all (nb_actions b) actions)
    (m_nodeId b) (m_finalized b).

(** Finalization writes the node's slices; the node itself is a reference into
    the vector of nodes. *)
Definition sinkActions (nfa : NFA) (b : NodeBuilder) (node : ImmutableNFANode) : NFA * ImmutableNFANode :=
  let actions := nfa_actions nfa ++ hs_iter (nb_actions b) in
  (mkNFA (nfa_nodes nfa) (nfa_transitions nfa) (nfa_targets nfa) (epsilonTransitionsTargets nfa) actions,
   mkImmutableNFANode (rangesStart node) (rangesEnd node) (epsilonTransitionTargetsStart node)
     (epsilonTransitionTargetsEnd node) (u32 (vlen (nfa_actions nfa))) (u32 (vlen actions))).

Definition sinkEpsilonTransitions (nfa : NFA) (b : NodeBuilder) (node : ImmutableNFANode)
    : NFA * ImmutableNFANode :=
  let targets := epsilonTransitionsTargets nfa ++ hs_iter (m_epsilonTransitionTargets b) in
  (mkNFA (nfa_nodes nfa) (nfa_transitions nfa) (nfa_targets nfa) targets (nfa_actions nfa),
   mkImmutableNFANode (rangesStart node) (rangesEnd node) (u32 (vlen (epsilonTransitionsTargets nfa)))
     (u32 (vlen targets)) (actionStart node) (actionEnd node)).

Fixpoint sink_ranges (transitions : list ImmutableRange) (targets : list Z) (ranges : list (CharRange * NS))
    : list ImmutableRange * list Z :=
  match ranges with
  | [] => (transitions, targets)
  | (r, data) :: ranges =>
      let targets' := targets ++ hs_iter data in
      sink_ranges (transitions ++ [mkImmutableRange (u32 (vlen targets)) (u32 (vlen targets'))
                                     (range_first r) (range_last r)])
        targets' ranges
  end.

Definition sinkTransitions (nfa : NFA) (b : NodeBuilder) (node : ImmutableNFANode)
    : option (NFA * ImmutableNFANode) :=
  ranges ← range_list (m_ranges b);
  let '(transitions, targets) := sink_ranges (nfa_transitions nfa) (nfa_targets nfa) ranges in
  Some (mkNFA (nfa_nodes nfa) transitions targets (epsilonTransitionsTargets nfa) (nfa_actions nfa),
        mkImmutableNFANode (u32 (vlen (nfa_transitions nfa))) (u32 (vlen transitions))
          (epsilonTransitionTargetsStart node) (epsilonTransitionTargetsEnd node)
          (actionStart node) (actionEnd node)).

Definition finalize (nfa : NFA) (b : NodeBuilder) : option NFA :=
  node ← (nfa_nodes nfa).[m_nodeId b];
  let '(nfa, node) := sinkActions nfa b node in
  let '(nfa, node) := sinkEpsilonTransitions nfa b node in
  '(nfa, node) ← sinkTransitions nfa b node;
  nodes ← vec_set (nfa_nodes nfa) (m_nodeId b) node;
  Some (mkNFA nodes (nfa_transitions nfa) (nfa_targets nfa) (epsilonTransitionsTargets nfa) (nfa_actions nfa)).

(** The destructor. *)
Definition destroyBuilder (nfa : NFA) (b : NodeBuilder) : option NFA :=
  if m_finalized b then Some nfa else finalize nfa b.

(** Move assignment: finalize the old content, then take over the other one. *)
Definition moveAssign (nfa : NFA) (b other : NodeBuilder) : option (NFA * NodeBuilder) :=
  nfa ← destroyBuilder nfa b;
  Some (nfa, other).
End Builder.

Arguments NodeBuilder : clear implicits.
