(* ===== verification/NFACorrect.v ===== *)
(** * What the node builder writes

    The edges of a builder are the transitions and epsilon transitions added
    to it; finalizing it gives its node exactly these edges and actions and
    leaves the other nodes alone. *)

From S2P Require Import Prelude DFA RangeList RangeListCorrect HashSet NFA.

(** ** Slices *)

Lemma mapM_app_ext {A B} (f g : A -> option B) l r :
  mapM f l = Some r -> (forall x y, x ∈ l -> f x = Some y -> g x = Some y) -> mapM g l = Some r.
Proof.
  rewrite !mapM_Some. intros Hf Hg. revert Hg. induction Hf; intros Hg; constructor.
  - apply Hg; [by constructor|done].
  - apply IHHf. intros z w Hz. apply Hg. by constructor.
Qed.

Lemma vec_at_app_Some {A} (v w : list A) i x : v.[i] = Some x -> (v ++ w).[i] = Some x.
Proof. intros Hx. rewrite vec_at_app_l; [done|]. apply vec_at_lt in Hx. lia. Qed.

Lemma slice_app {A} (v w : list A) s e l : slice v s e = Some l -> slice (v ++ w) s e = Some l.
Proof. intros Hl. eapply mapM_app_ext; [exact Hl|]. intros i y _. apply vec_at_app_Some. Qed.

Lemma mapM_seqZ_snoc {A} (v w : list A) (z : list A) :
  mapM (fun i => (v ++ w ++ z).[i]) (seqZ (vlen v) (vlen w)) = Some w.
Proof.
  revert v. induction w as [|x w IH]; intros v; simpl; [done|].
  rewrite seqZ_cons by lia. cbn [mapM]. rewrite <- (Z.add_0_r (vlen v)) at 1. rewrite vec_at_app_r by lia. simpl.
  specialize (IH (v ++ [x])). rewrite length_app, <- (assoc_L (++)) in IH. simpl in IH.
  replace (Z.succ (vlen v)) with (Z.of_nat (length v + 1)) by lia.
  replace (Z.pred (Z.of_nat (S (length w)))) with (vlen w) by lia. by rewrite IH.
Qed.

Lemma slice_end {A} (v w : list A) : slice (v ++ w) (vlen v) (vlen (v ++ w)) = Some w.
Proof.
  unfold slice. rewrite length_app. replace (Z.of_nat (length v + length w) - vlen v) with (vlen w) by lia.
  pose proof (mapM_seqZ_snoc v w []) as Hm. by rewrite app_nil_r in Hm.
Qed.

Lemma slice_empty {A} (v : list A) s : slice v s s = Some [].
Proof. unfold slice. by rewrite Z.sub_diag. Qed.

(** ** Edges *)

(** A step of the NFA: a character, or an epsilon transition. *)
Definition edge (nfa : NFA) (i : Z) (l : option Z) (j : Z) : Prop :=
  match l with
  | None => exists ts, epsilonTargets nfa i = Some ts /\ j ∈ ts
  | Some c => exists rs ts, transitionsForNode nfa i = Some rs /\ ts_step rs c = Some ts /\ j ∈ ts
  end.

Definition accepts (nfa : NFA) (i a : Z) : Prop := exists acts, nodeActions nfa i = Some acts /\ a ∈ acts.

(** Every node's slices lie in the vectors, its ranges are sorted. *)
Record wf_nfa (nfa : NFA) : Prop := {
  wn_trans : forall i, 0 <= i < vlen (nfa_nodes nfa) ->
    exists rs, transitionsForNode nfa i = Some rs /\ sorted_from 0 rs;
  wn_eps : forall i, 0 <= i < vlen (nfa_nodes nfa) -> is_Some (epsilonTargets nfa i);
  wn_acts : forall i, 0 <= i < vlen (nfa_nodes nfa) -> is_Some (nodeActions nfa i)
}.

(** The vectors can be indexed by 32-bit numbers. *)
Record nfa_small (nfa : NFA) : Prop := {
  ns_nodes : vlen (nfa_nodes nfa) < 2 ^ 32;
  ns_trans : vlen (nfa_transitions nfa) < 2 ^ 32;
  ns_targets : vlen (nfa_targets nfa) < 2 ^ 32;
  ns_eps : vlen (epsilonTransitionsTargets nfa) < 2 ^ 32;
  ns_acts : vlen (nfa_actions nfa) < 2 ^ 32
}.

(** The same nodes read the same slices in longer vectors. *)
Record extends (nfa nfa' : NFA) : Prop := {
  ex_nodes : exists w, nfa_nodes nfa' = nfa_nodes nfa ++ w;
  ex_trans : exists w, nfa_transitions nfa' = nfa_transitions nfa ++ w;
  ex_targets : exists w, nfa_targets nfa' = nfa_targets nfa ++ w;
  ex_eps : exists w, epsilonTransitionsTargets nfa' = epsilonTransitionsTargets nfa ++ w;
  ex_acts : exists w, nfa_actions nfa' = nfa_actions nfa ++ w
}.

(** The node [i] reads the same in both. *)
Definition same_node (nfa nfa' : NFA) (i : Z) : Prop :=
  transitionsForNode nfa' i = transitionsForNode nfa i /\ epsilonTargets nfa' i = epsilonTargets nfa i
  /\ nodeActions nfa' i = nodeActions nfa i.

Lemma nfa_range_at_app nfa nfa' p x :
  (exists w, nfa_transitions nfa' = nfa_transitions nfa ++ w) -> (exists w, nfa_targets nfa' = nfa_targets nfa ++ w) ->
  nfa_range_at nfa p = Some x -> nfa_range_at nfa' p = Some x.
Proof.
  intros [w1 Hw1] [w2 Hw2]. unfold nfa_range_at. rewrite Hw1, Hw2.
  destruct ((nfa_transitions nfa).[p]) as [r|] eqn:Er; [|done]. rewrite (vec_at_app_Some _ _ _ _ Er), !option_bind_Some.
  destruct (slice (nfa_targets nfa) _ _) as [ts|] eqn:Es; [|done]. by rewrite (slice_app _ _ _ _ _ Es).
Qed.

(** Longer vectors do not change a node that is kept. *)
Lemma same_node_app nfa nfa' i :
  wf_nfa nfa -> 0 <= i < vlen (nfa_nodes nfa) -> (nfa_nodes nfa').[i] = (nfa_nodes nfa).[i] ->
  (exists w, nfa_transitions nfa' = nfa_transitions nfa ++ w) -> (exists w, nfa_targets nfa' = nfa_targets nfa ++ w) ->
  (exists w, epsilonTransitionsTargets nfa' = epsilonTransitionsTargets nfa ++ w) ->
  (exists w, nfa_actions nfa' = nfa_actions nfa ++ w) -> same_node nfa nfa' i.
Proof.
  intros [Ht He Ha] Hi Hn Hw1 Hw2 [w3 Hw3] [w4 Hw4]. destruct (Ht i Hi) as (rs & Hrs & _). destruct (He i Hi) as [es Hes].
  destruct (Ha i Hi) as [acts Hacts]. unfold same_node. rewrite Hrs, Hes, Hacts.
  unfold transitionsForNode, epsilonTargets, nodeActions in *. rewrite Hn.
  destruct ((nfa_nodes nfa).[i]) as [n|]; [|done]. rewrite option_bind_Some in *. rewrite Hw3, Hw4. split_and!.
  - eapply mapM_app_ext; [exact Hrs|]. intros p x _. by apply nfa_range_at_app.
  - by apply slice_app.
  - by apply slice_app.
Qed.

Lemma same_node_edge nfa nfa' i l j : same_node nfa nfa' i -> edge nfa' i l j <-> edge nfa i l j.
Proof. intros (Ht & He & _). unfold edge. by rewrite Ht, He. Qed.

(** ** The builder *)

Section BuilderSpec.
Context {NS AS : Type} `{HashSetLaws NS} `{HashSetLaws AS}.
Abbreviation builder := (NodeBuilder NS AS).
Implicit Types b : builder.

Record wf_builder b : Prop := {
  wb_valid : m_isValid b = true;
  wb_live : m_finalized b = false;
  wb_ranges : exists es, wf_ranges (m_ranges b) es
}.

(** The edges added to a builder so far. *)
Definition bedge b (l : option Z) (j : Z) : Prop :=
  match l with
  | None => j ∈ hs_iter (m_epsilonTransitionTargets b)
  | Some c => exists es T, range_list (m_ranges b) = Some es /\ ts_step es c = Some T /\ j ∈ hs_iter T
  end.

Definition baccepts b (a : Z) : Prop := a ∈ hs_iter (nb_actions b).

Lemma addTransition_spec b first last t :
  wf_builder b -> 0 <= first <= last -> last <= 127 -> hs_key (T := NS) t ->
  exists b', addTransition b first last t = Some b' /\ wf_builder b' /\ m_nodeId b' = m_nodeId b
    /\ (forall l j, bedge b' l j <-> bedge b l j \/ exists c, l = Some c /\ first <= c <= last /\ j = t)
    /\ forall a, baccepts b' a <-> baccepts b a.
Proof.
  intros [Hv Hl [es Hes]] Hfl Hlast Hk. unfold addTransition.
  destruct (extend_spec (m_ranges b) es [(mkCharRange first last, t)] Hes) as (v & es' & -> & Hwf & Hpt).
  { simpl. lia. }
  rewrite option_bind_Some. exists (with_ranges b v). split_and!; [done|split; [done|done|eauto]|done| |done].
  intros [c|] j; simpl; [|split; [by left|by intros [?|(c & ? & _)]]].
  rewrite (range_list_wf _ _ Hes), (range_list_wf _ _ Hwf).
  specialize (Hpt c). simpl in Hpt. unfold in_range in Hpt. simpl in Hpt. split.
  - intros (es0 & T & [= <-] & HT & Hj). rewrite HT in Hpt.
    destruct (Z.leb_spec first c), (Z.leb_spec c last); simpl in Hpt; try (left; by exists es, T).
    destruct (ts_step es c) as [T0|] eqn:E; injection Hpt as ->.
    + apply hs_iter_add in Hj as [->|Hj]; [|left; by exists es, T0|done]. right. eauto.
    + apply hs_iter_add in Hj as [->|Hj]; [|by apply elem_of_hs_empty in Hj|done]. right. eauto.
  - intros [(es0 & T & [= <-] & HT & Hj)|(c' & [= <-] & Hc & ->)].
    + rewrite HT in Hpt. destruct (Z.leb_spec first c), (Z.leb_spec c last); simpl in Hpt;
        try (exists es', T; done). eexists es', _. split_and!; [done|exact Hpt|]. apply hs_iter_add; [done|]. by right.
    + destruct (Z.leb_spec first c); [|lia]. destruct (Z.leb_spec c last); [|lia]. simpl in Hpt.
      eexists es', _. split_and!; [done|exact Hpt|].
      destruct (ts_step es c); apply hs_iter_add; try done; by left.
Qed.

Lemma addEpsilonTransition_spec b t :
  wf_builder b -> hs_key (T := NS) t ->
  wf_builder (addEpsilonTransition b t) /\ m_nodeId (addEpsilonTransition b t) = m_nodeId b
  /\ (forall l j, bedge (addEpsilonTransition b t) l j <-> bedge b l j \/ (l = None /\ j = t))
  /\ forall a, baccepts (addEpsilonTransition b t) a <-> baccepts b a.
Proof.
  intros [Hv Hl Hr] Hk. split_and!; [done|done| |done].
  intros [c|] j; simpl; [naive_solver|]. rewrite hs_iter_add by done. naive_solver.
Qed.

Lemma setActions_spec b acts :
  wf_builder b -> Forall (hs_key (T := AS)) acts ->
  wf_builder (setActions b acts) /\ m_nodeId (setActions b acts) = m_nodeId b
  /\ (forall l j, bedge (setActions b acts) l j <-> bedge b l j)
  /\ forall a, baccepts (setActions b acts) a <-> a ∈ acts \/ baccepts b a.
Proof.
  intros [Hv Hl Hr] Hk. split_and!; [done|done|done|]. intros a. unfold baccepts. simpl.
  by rewrite elem_of_hs_add_all.
Qed.

(** ** Creating and finalizing nodes *)

Lemma newBuilder_spec nfa :
  wf_nfa nfa -> vlen (nfa_nodes nfa) + 1 < 2 ^ 32 ->
  let '(nfa', b) := newBuilder (NS := NS) (AS := AS) nfa in
  wf_nfa nfa' /\ wf_builder b /\ m_nodeId b = vlen (nfa_nodes nfa)
  /\ vlen (nfa_nodes nfa') = vlen (nfa_nodes nfa) + 1 /\ extends nfa nfa'
  /\ (forall i, 0 <= i < vlen (nfa_nodes nfa) -> same_node nfa nfa' i)
  /\ (forall l j, ~ bedge b l j) /\ (forall a, ~ baccepts b a).
Proof.
  intros Hwf Hb. unfold newBuilder. set (nfa' := mkNFA _ _ _ _ _). cbv zeta.
  assert (Hl : vlen (nfa_nodes nfa') = vlen (nfa_nodes nfa) + 1) by (simpl; rewrite length_app; simpl; lia).
  assert (Hsame : forall i, 0 <= i < vlen (nfa_nodes nfa) -> same_node nfa nfa' i).
  { intros i Hi. apply same_node_app; try done; try (by exists []; rewrite app_nil_r). simpl.
    apply vec_at_app_l. lia. }
  assert (Hnew : (nfa_nodes nfa').[vlen (nfa_nodes nfa)] = Some emptyNFANode) by apply vec_at_snoc.
  assert (Hcases : forall i, 0 <= i < vlen (nfa_nodes nfa') -> 0 <= i < vlen (nfa_nodes nfa) \/ i = vlen (nfa_nodes nfa))
    by (intros; lia).
  split_and!.
  - destruct Hwf as [Ht He Ha]. split; intros i [Hi| ->]%Hcases.
    + destruct (Hsame i Hi) as (-> & _ & _). auto.
    + exists []. split; [|done]. unfold transitionsForNode. by rewrite Hnew.
    + destruct (Hsame i Hi) as (_ & -> & _). auto.
    + unfold epsilonTargets. rewrite Hnew. simpl. by eexists.
    + destruct (Hsame i Hi) as (_ & _ & ->). auto.
    + unfold nodeActions. rewrite Hnew. simpl. by eexists.
  - split; [done|done|]. exists []. split; [done|]. by left.
  - simpl. apply u32_small. lia.
  - done.
  - split; simpl; (by eexists) || (exists []; by rewrite app_nil_r).
  - done.
  - intros [c|] j; simpl; [intros (es & T & [= <-] & ? & _); done|apply elem_of_hs_empty].
  - intros a. apply elem_of_hs_empty.
Qed.

(** The ranges of a node as its users read them. *)
Definition read_ranges (es : list (CharRange * NS)) : list (CharRange * list Z) :=
  map (fun t => (fst t, hs_iter (snd t))) es.

Lemma sink_ranges_spec es : forall trs tgs,
  exists R W, sink_ranges trs tgs es = (trs ++ R, tgs ++ W) /\ length R = length es
    /\ (vlen (tgs ++ W) < 2 ^ 32 -> forall nodes eps acts,
        mapM (nfa_range_at (mkNFA nodes (trs ++ R) (tgs ++ W) eps acts)) (seqZ (vlen trs) (vlen R))
        = Some (read_ranges es)).
Proof.
  induction es as [|[r data] es IH]; intros trs tgs; simpl.
  { exists [], []. rewrite !app_nil_r. done. }
  set (x := mkImmutableRange _ _ _ _).
  destruct (IH (trs ++ [x]) (tgs ++ hs_iter data)) as (R & W & -> & HR & Hread).
  exists (x :: R), (hs_iter data ++ W). rewrite <- !(assoc_L (++)) in *. simpl in *. split_and!; [done|lia|].
  intros Hsmall nodes eps acts. specialize (Hread Hsmall nodes eps acts).
  rewrite !length_app in *. simpl in *.
  rewrite seqZ_cons by lia. cbn [mapM]. replace (Z.succ (vlen trs)) with (Z.of_nat (length trs + 1)) by lia.
  replace (Z.pred (Z.of_nat (S (length R)))) with (vlen R) by lia. rewrite Hread.
  unfold nfa_range_at at 1. cbn [nfa_transitions nfa_targets].
  rewrite <- (Z.add_0_r (vlen trs)) at 1. rewrite vec_at_app_r by lia. cbn [vec_at]. simpl.
  rewrite !u32_small by (rewrite ?length_app; lia).
  pose proof (slice_end tgs (hs_iter data)) as Hs. apply (slice_app _ W) in Hs. rewrite <- (assoc_L (++)) in Hs.
  rewrite Hs. simpl. by destruct r.
Qed.

Lemma ts_step_read es c : ts_step (read_ranges es) c = hs_iter <$> ts_step es c.
Proof. induction es as [|[r d] es IH]; simpl; [done|]. by destruct (in_range r c). Qed.

Lemma sorted_read lo es : sorted_from lo es -> sorted_from lo (read_ranges es).
Proof. revert lo. induction es as [|[r d] es IH]; intros lo; simpl; [done|]. naive_solver. Qed.

(** The vectors after finalization. *)
Record sunk (nfa nfa' : NFA) b : Prop := {
  sk_nodes : length (nfa_nodes nfa') = length (nfa_nodes nfa);
  sk_other : forall i, i <> m_nodeId b -> (nfa_nodes nfa').[i] = (nfa_nodes nfa).[i];
  sk_trans : exists w, nfa_transitions nfa' = nfa_transitions nfa ++ w;
  sk_targets : exists w, nfa_targets nfa' = nfa_targets nfa ++ w;
  sk_eps : exists w, epsilonTransitionsTargets nfa' = epsilonTransitionsTargets nfa ++ w;
  sk_acts : exists w, nfa_actions nfa' = nfa_actions nfa ++ w
}.

Lemma finalize_sinks nfa b es :
  0 <= m_nodeId b < vlen (nfa_nodes nfa) -> wf_ranges (m_ranges b) es ->
  exists nfa', finalize nfa b = Some nfa' /\ sunk nfa nfa' b
    /\ (nfa_small nfa' ->
        transitionsForNode nfa' (m_nodeId b) = Some (read_ranges es)
        /\ epsilonTargets nfa' (m_nodeId b) = Some (hs_iter (m_epsilonTransitionTargets b))
        /\ nodeActions nfa' (m_nodeId b) = Some (hs_iter (nb_actions b))).
Proof.
  intros Hid Hes. unfold finalize, sinkTransitions, sinkActions, sinkEpsilonTransitions.
  destruct (vec_at_is_Some _ _ Hid) as [n Hn]. rewrite Hn, option_bind_Some. cbn [nfa_transitions nfa_targets nfa_nodes
    epsilonTransitionsTargets nfa_actions]. rewrite (range_list_wf _ _ Hes), option_bind_Some.
  destruct (sink_ranges_spec es (nfa_transitions nfa) (nfa_targets nfa)) as (R & W & -> & HR & Hread).
  rewrite option_bind_Some. cbn [nfa_nodes nfa_transitions nfa_targets epsilonTransitionsTargets nfa_actions
    epsilonTransitionTargetsStart epsilonTransitionTargetsEnd actionStart actionEnd].
  set (node := mkImmutableNFANode _ _ _ _ _ _).
  destruct (vec_set (nfa_nodes nfa) (m_nodeId b) node) as [nodes|] eqn:Hset; [|rewrite vec_set_Some in Hset by lia; done].
  rewrite option_bind_Some. eexists. split; [reflexivity|]. split.
  - split; cbn [nfa_nodes nfa_transitions nfa_targets epsilonTransitionsTargets nfa_actions]; try (by eexists).
    + by apply vec_set_length in Hset.
    + intros i Hi. rewrite (vec_at_set _ _ _ _ _ Hset). case_decide; [congruence|done].
  - intros [Hs1 Hs2 Hs3 Hs4 Hs5]. cbn [nfa_nodes nfa_transitions nfa_targets epsilonTransitionsTargets nfa_actions] in *.
    unfold transitionsForNode, epsilonTargets, nodeActions. cbn [nfa_nodes epsilonTransitionsTargets nfa_actions].
    assert (nodes.[m_nodeId b] = Some node) as -> by (rewrite (vec_at_set _ _ _ _ _ Hset); by case_decide).
    rewrite !option_bind_Some. unfold node. cbn [rangesStart rangesEnd epsilonTransitionTargetsStart
      epsilonTransitionTargetsEnd actionStart actionEnd].
    rewrite !u32_small by (rewrite ?length_app in *; lia). split_and!; [|apply slice_end|apply slice_end].
    rewrite <- (Hread Hs3 nodes (epsilonTransitionsTargets nfa ++ hs_iter (m_epsilonTransitionTargets b))
      (nfa_actions nfa ++ hs_iter (nb_actions b))). f_equal. f_equal. rewrite length_app. lia.
Qed.

Lemma sunk_same nfa nfa' b i :
  wf_nfa nfa -> sunk nfa nfa' b -> 0 <= i < vlen (nfa_nodes nfa) -> i <> m_nodeId b -> same_node nfa nfa' i.
Proof. intros Hwf [] Hi Hne. apply same_node_app; auto. Qed.

Lemma finalize_spec nfa b :
  wf_nfa nfa -> wf_builder b -> 0 <= m_nodeId b < vlen (nfa_nodes nfa) ->
  exists nfa', finalize nfa b = Some nfa' /\ sunk nfa nfa' b
    /\ (nfa_small nfa' ->
        wf_nfa nfa' /\ (forall l j, edge nfa' (m_nodeId b) l j <-> bedge b l j)
        /\ forall a, accepts nfa' (m_nodeId b) a <-> baccepts b a).
Proof.
  intros Hwf [Hv Hl [es Hes]] Hid. destruct (finalize_sinks nfa b es Hid Hes) as (nfa' & Hf & Hsk & Hread).
  exists nfa'. split; [done|]. split; [done|]. intros Hsmall. destruct (Hread Hsmall) as (Ht & He & Ha).
  pose proof (fun i Hi Hne => sunk_same nfa nfa' b i Hwf Hsk Hi Hne) as Hsame. pose proof (sk_nodes _ _ _ Hsk) as Hn.
  destruct Hes as [Hsort Hch]. pose proof (range_list_wf (m_ranges b) es (conj Hsort Hch)) as Hlist.
  split_and!.
  - destruct Hwf as [Wt We Wa]. split; intros i Hi; rewrite Hn in Hi; destruct (Z.eq_dec i (m_nodeId b)) as [->|Hne].
    + exists (read_ranges es). split; [done|by apply sorted_read].
    + destruct (Hsame i Hi Hne) as (-> & _ & _). auto.
    + by rewrite He.
    + destruct (Hsame i Hi Hne) as (_ & -> & _). auto.
    + by rewrite Ha.
    + destruct (Hsame i Hi Hne) as (_ & _ & ->). auto.
  - intros [c|] j; simpl; rewrite ?Ht, ?He, ?Hlist.
    + split.
      * intros (rs & ts & [= <-] & Hts & Hj). rewrite ts_step_read in Hts. destruct (ts_step es c) as [T|] eqn:E; [|done].
        injection Hts as <-. eauto.
      * intros (es0 & T & [= <-] & HT & Hj). eexists _, _. rewrite ts_step_read, HT. done.
    + split; [by intros (ts & [= <-] & ?)|eauto].
  - intros a. unfold accepts. rewrite Ha. split; [by intros (ts & [= <-] & ?)|eauto].
Qed.
End BuilderSpec.

(** ** Building one node *)

(** What a client asks of a builder. *)
Inductive build_op :=
| Transition (first last target : Z)
| Epsilon (target : Z)
| Actions (actions : list Z).

Definition op_edge (o : build_op) (l : option Z) (j : Z) : Prop :=
  match o with
  | Transition first last t => exists c, l = Some c /\ first <= c <= last /\ j = t
  | Epsilon t => l = None /\ j = t
  | Actions _ => False
  end.

Definition op_accepts (o : build_op) (a : Z) : Prop :=
  match o with Actions acts => a ∈ acts | _ => False end.

Section BuildNode.
Context (NS AS : Type) `{HashSetLaws NS} `{HashSetLaws AS}.

Definition build_step (b : NodeBuilder NS AS) (o : build_op) : option (NodeBuilder NS AS) :=
  match o with
  | Transition first last t => addTransition b first last t
  | Epsilon t => Some (addEpsilonTransition b t)
  | Actions acts => Some (setActions b acts)
  end.

Fixpoint build_steps (b : NodeBuilder NS AS) (ops : list build_op) : option (NodeBuilder NS AS) :=
  match ops with
  | [] => Some b
  | o :: ops => b ← build_step b o; build_steps b ops
  end.

(** A builder in a scope of its own: created, used, destroyed. *)
Definition build_node (nfa : NFA) (ops : list build_op) : option NFA :=
  let '(nfa, b) := newBuilder nfa in
  b ← build_steps b ops;
  destroyBuilder nfa b.

Definition valid_op (o : build_op) : Prop :=
  match o with
  | Transition first last t => 0 <= first <= last /\ last <= 127 /\ hs_key (T := NS) t
  | Epsilon t => hs_key (T := NS) t
  | Actions acts => Forall (hs_key (T := AS)) acts
  end.

Lemma build_step_spec (b : NodeBuilder NS AS) o :
  wf_builder b -> valid_op o ->
  exists b', build_step b o = Some b' /\ wf_builder b' /\ m_nodeId b' = m_nodeId b
    /\ (forall l j, bedge b' l j <-> bedge b l j \/ op_edge o l j)
    /\ forall a, baccepts b' a <-> baccepts b a \/ op_accepts o a.
Proof.
  intros Hb. destruct o as [f l t|t|acts]; simpl.
  - intros (Hfl & Hl & Hk). destruct (addTransition_spec b f l t Hb Hfl Hl Hk) as (b' & ? & ? & ? & ? & Ha).
    exists b'. split_and!; try done. intros a. rewrite Ha. tauto.
  - intros Hk. destruct (addEpsilonTransition_spec b t Hb Hk) as (? & ? & ? & Ha).
    eexists. split_and!; try done. intros a. rewrite Ha. tauto.
  - intros Hk. destruct (setActions_spec b acts Hb Hk) as (? & ? & He & Ha).
    eexists. split_and!; try done; intros; [rewrite He|rewrite Ha]; tauto.
Qed.

Lemma build_steps_spec ops : forall (b : NodeBuilder NS AS),
  wf_builder b -> Forall valid_op ops ->
  exists b', build_steps b ops = Some b' /\ wf_builder b' /\ m_nodeId b' = m_nodeId b
    /\ (forall l j, bedge b' l j <-> bedge b l j \/ exists o, o ∈ ops /\ op_edge o l j)
    /\ forall a, baccepts b' a <-> baccepts b a \/ exists o, o ∈ ops /\ op_accepts o a.
Proof.
  induction ops as [|o ops IH]; intros b Hb Hv; simpl.
  { exists b. split_and!; try done; intros; split; [by left|by intros [?|(o & ?%not_elem_of_nil & _)]| |];
      [by left|by intros [?|(o & ?%not_elem_of_nil & _)]]. }
  apply Forall_cons in Hv as [Ho Hv]. destruct (build_step_spec b o Hb Ho) as (b1 & -> & Hb1 & Hid1 & He1 & Ha1). rewrite option_bind_Some.
  destruct (IH b1 Hb1 Hv) as (b2 & -> & Hb2 & Hid2 & He2 & Ha2). exists b2.
  split_and!; [done|done|congruence| |].
  - intros l j. rewrite He2, He1. setoid_rewrite elem_of_cons. naive_solver.
  - intros a. rewrite Ha2, Ha1. setoid_rewrite elem_of_cons. naive_solver.
Qed.

(** The new node gets what the builder has. *)
Lemma destroy_new nfa nfa1 (b : NodeBuilder NS AS) :
  wf_nfa nfa1 -> wf_builder b -> m_nodeId b = vlen (nfa_nodes nfa) -> vlen (nfa_nodes nfa1) = vlen (nfa_nodes nfa) + 1 ->
  (forall i, 0 <= i < vlen (nfa_nodes nfa) -> same_node nfa nfa1 i) ->
  exists nfa', destroyBuilder nfa1 b = Some nfa' /\ vlen (nfa_nodes nfa') = vlen (nfa_nodes nfa) + 1
    /\ (nfa_small nfa' ->
        wf_nfa nfa' /\ (forall i, 0 <= i < vlen (nfa_nodes nfa) -> same_node nfa nfa' i)
        /\ (forall l j, edge nfa' (vlen (nfa_nodes nfa)) l j <-> bedge b l j)
        /\ forall a, accepts nfa' (vlen (nfa_nodes nfa)) a <-> baccepts b a).
Proof.
  intros Hwf1 Hb Hid Hlen Hsame. unfold destroyBuilder. rewrite (wb_live _ Hb). destruct (finalize_spec nfa1 b Hwf1 Hb) as (nfa' & -> & Hsk & Hfin); [lia|].
  exists nfa'. split; [done|]. split; [rewrite (sk_nodes _ _ _ Hsk); lia|]. intros Hsmall.
  destruct (Hfin Hsmall) as (Hwf' & Hedge & Hacc). rewrite Hid in Hedge, Hacc. split_and!; [done| |done|done].
  intros i Hi. destruct (Hsame i Hi) as (S1 & S2 & S3). unfold same_node. rewrite <- S1, <- S2, <- S3.
  apply (sunk_same nfa1 nfa' b); [done|done|lia|]. rewrite Hid. lia.
Qed.

(** C14: a node built through a builder in any order of calls has exactly the
    edges and the actions that were added, the other nodes keep theirs, and
    the NFA stays well formed, provided the shared vectors stay below the
    32-bit indices that the nodes store. *)
Theorem build_node_correct (nfa : NFA) ops :
  wf_nfa nfa -> vlen (nfa_nodes nfa) + 1 < 2 ^ 32 -> Forall valid_op ops ->
  exists nfa', build_node nfa ops = Some nfa' /\ vlen (nfa_nodes nfa') = vlen (nfa_nodes nfa) + 1
    /\ (nfa_small nfa' ->
        wf_nfa nfa' /\ (forall i, 0 <= i < vlen (nfa_nodes nfa) -> same_node nfa nfa' i)
        /\ (forall l j, edge nfa' (vlen (nfa_nodes nfa)) l j <-> exists o, o ∈ ops /\ op_edge o l j)
        /\ forall a, accepts nfa' (vlen (nfa_nodes nfa)) a <-> exists o, o ∈ ops /\ op_accepts o a).
Proof.
  intros Hwf Hb Hv. unfold build_node. pose proof (newBuilder_spec (NS := NS) (AS := AS) nfa Hwf Hb) as Hnew.
  destruct (newBuilder nfa) as [nfa1 b]. destruct Hnew as (Hwf1 & Hb1 & Hid & Hlen & _ & Hsame & Hnoe & Hnoa).
  destruct (build_steps_spec ops b Hb1 Hv) as (b2 & -> & Hb2 & Hid2 & He & Ha). rewrite option_bind_Some.
  destruct (destroy_new nfa nfa1 b2) as (nfa' & -> & Hl & Hfin); [done|done|congruence|done|done|].
  exists nfa'. split; [done|]. split; [done|]. intros Hsmall. destruct (Hfin Hsmall) as (Hwf' & Hs & Hedge & Hacc). split_and!; [done|done| |].
  - intros l j. rewrite Hedge, He. specialize (Hnoe l j). tauto.
  - intros a. rewrite Hacc, Ha. specialize (Hnoa a). tauto.
Qed.

(** ** Moving a builder *)

(** A builder that is used, moved by its move constructor, and used again; the
    one it is moved from is destroyed first. *)
Definition build_moved (nfa : NFA) (before after : list build_op) : option NFA :=
  let '(nfa, b) := newBuilder nfa in
  b ← build_steps b before;
  nfa ← destroyBuilder nfa (movedFrom b);
  b ← build_steps (moveConstruct b) after;
  destroyBuilder nfa b.

Lemma moveConstruct_spec (b : NodeBuilder NS AS) :
  wf_builder b ->
  wf_builder (moveConstruct b) /\ (forall l j, bedge (moveConstruct b) l j <-> bedge b l j /\ l <> None)
  /\ forall a, baccepts (moveConstruct b) a <-> baccepts b a.
Proof.
  intros [Hv Hl Hr]. split; [done|]. split; [|done]. intros [c|] j; cbn [bedge moveConstruct m_ranges m_epsilonTransitionTargets]; [naive_solver|].
  split; [by intros ?%elem_of_hs_empty|naive_solver].
Qed.

(** C15: whatever was added to a builder before it is moved by its move
    constructor, and whatever is added after, the node has every transition on
    a character and every action that was added, but of the epsilon transitions
    only those that were added after the move: the ones from before are lost,
    all of them.  The move constructor initializes its table of epsilon targets
    from itself. *)
Theorem moveConstruct_loses_epsilon (nfa : NFA) before after :
  wf_nfa nfa -> vlen (nfa_nodes nfa) + 1 < 2 ^ 32 -> Forall valid_op before -> Forall valid_op after ->
  exists nfa', build_moved nfa before after = Some nfa' /\ vlen (nfa_nodes nfa') = vlen (nfa_nodes nfa) + 1
    /\ (nfa_small nfa' ->
        wf_nfa nfa' /\ (forall i, 0 <= i < vlen (nfa_nodes nfa) -> same_node nfa nfa' i)
        /\ (forall c j, edge nfa' (vlen (nfa_nodes nfa)) (Some c) j <-> exists o, o ∈ before ++ after /\ op_edge o (Some c) j)
        /\ (forall j, edge nfa' (vlen (nfa_nodes nfa)) None j <-> Epsilon j ∈ after)
        /\ forall a, accepts nfa' (vlen (nfa_nodes nfa)) a <-> exists o, o ∈ before ++ after /\ op_accepts o a).
Proof.
  intros Hwf Hb Hv Hv'. unfold build_moved. pose proof (newBuilder_spec (NS := NS) (AS := AS) nfa Hwf Hb) as Hnew.
  destruct (newBuilder nfa) as [nfa1 b]. destruct Hnew as (Hwf1 & Hb1 & Hid & Hlen & _ & Hsame & Hnoe & Hnoa).
  destruct (build_steps_spec before b Hb1 Hv) as (b2 & -> & Hb2 & Hid2 & He & Ha). rewrite option_bind_Some. cbn [destroyBuilder movedFrom m_finalized]. rewrite option_bind_Some.
  destruct (moveConstruct_spec b2 Hb2) as (Hb3 & He3 & Ha3). destruct (build_steps_spec after (moveConstruct b2) Hb3 Hv') as (b4 & -> & Hb4 & Hid4 & He4 & Ha4). rewrite option_bind_Some.
  destruct (destroy_new nfa nfa1 b4) as (nfa' & -> & Hl & Hfin); [done|done|rewrite Hid4; cbn; congruence|done|done|].
  exists nfa'. split; [done|]. split; [done|]. intros Hsmall. destruct (Hfin Hsmall) as (Hwf' & Hs & Hedge & Hacc). setoid_rewrite elem_of_app. split_and!; [done|done|..].
  - intros c j. rewrite Hedge, He4, He3, He. specialize (Hnoe (Some c) j). naive_solver.
  - intros j. rewrite Hedge, He4, He3. split; [|intros Ho; right; by exists (Epsilon j)]. intros [[_ ?]|([] & Ho & Hop)]; cbn in *; naive_solver.
  - intros a. rewrite Hacc, Ha4, Ha3, Ha. specialize (Hnoa a). naive_solver.
Qed.
End BuildNode.

Module NFABuilderExample.
Import InsertionOrder.

Definition some_ops : list build_op :=
  [Transition 97 122 0; Epsilon 3; Transition 100 110 2; Actions [7; 9]; Epsilon 0].

Lemma build_node_correct_witness :
  exists nfa', build_node OrderedSet OrderedSet emptyNFA some_ops = Some nfa'
    /\ vlen (nfa_nodes nfa') = vlen (nfa_nodes emptyNFA) + 1
    /\ (nfa_small nfa' ->
        wf_nfa nfa' /\ (forall i, 0 <= i < vlen (nfa_nodes emptyNFA) -> same_node emptyNFA nfa' i)
        /\ (forall l j, edge nfa' (vlen (nfa_nodes emptyNFA)) l j <-> exists o, o ∈ some_ops /\ op_edge o l j)
        /\ forall a, accepts nfa' (vlen (nfa_nodes emptyNFA)) a <-> exists o, o ∈ some_ops /\ op_accepts o a).
Proof.
  apply (build_node_correct OrderedSet OrderedSet emptyNFA some_ops).
  - split; simpl; lia.
  - done.
  - unfold some_ops. repeat apply List.Forall_cons; try apply List.Forall_nil; cbn [valid_op];
      repeat apply List.Forall_cons; try apply List.Forall_nil; unfold hs_key; simpl; lia.
Defined.

(** Two of the three epsilon transitions are added before the move. *)
Lemma moveConstruct_loses_epsilon_witness :
  exists nfa', build_moved OrderedSet OrderedSet emptyNFA some_ops [Epsilon 5] = Some nfa' /\ vlen (nfa_nodes nfa') = 1
    /\ forall j, edge nfa' 0 None j <-> Epsilon j ∈ [Epsilon 5].
Proof.
  destruct (moveConstruct_loses_epsilon OrderedSet OrderedSet emptyNFA some_ops [Epsilon 5]) as (nfa' & Hb & Hl & Hn).
  - split; simpl; lia.
  - done.
  - unfold some_ops. repeat apply List.Forall_cons; try apply List.Forall_nil; cbn [valid_op];
      repeat apply List.Forall_cons; try apply List.Forall_nil; unfold hs_key; simpl; lia.
  - apply List.Forall_cons; [|apply List.Forall_nil]. unfold valid_op, hs_key. simpl. lia.
  - exists nfa'. split; [exact Hb|]. split; [exact Hl|]. apply Hn. vm_compute in Hb. injection Hb as <-. split; vm_compute; done.
Defined.
End NFABuilderExample.
