(* ===== verification/NFAToDFA.v ===== *)
(** * From the NFA to a DFA (NFAToDFA.cpp)

    The subset construction: the epsilon closure of every node is computed
    first, then sets of NFA nodes become DFA nodes.  A table keeps the sets
    seen so far with the DFA node each stands for, a stack keeps the ones
    whose transitions are still to be computed. *)

From S2P Require Import Prelude DFA RangeList HashSet NFA.

(** Vectors used as stacks ([append], [takeLast]) are lists with the last
    element first. *)

(** A loop that runs at most [2 ^ n] iterations and stops at the first result. *)
Fixpoint repeat_pow2 {A R} (step : A -> A + R) (n : nat) (s : A) : A + R :=
  match n with
  | O => step s
  | S n => match repeat_pow2 step n s with
           | inl s => repeat_pow2 step n s
           | inr r => inr r
           end
  end.

Section NFAToDFA.
Context {NS AS : Type} `{HashSet NS} `{HashSet AS}.

(** ** Epsilon closures *)

(** The loop over the epsilon targets of one node. *)
Fixpoint closure_targets (closure : NS) (unprocessedNodes output targets : list Z) : NS * list Z * list Z :=
  match targets with
  | [] => (closure, unprocessedNodes, output)
  | t :: targets =>
      if isNewEntry closure t
      then closure_targets (hs_add closure t) (t :: unprocessedNodes) (output ++ [t]) targets
      else closure_targets (hs_add closure t) unprocessedNodes output targets
  end.

Fixpoint closure_loop (fuel : nat) (nfa : NFA) (closure : NS) (unprocessedNodes output : list Z)
    : option (list Z) :=
  match fuel, unprocessedNodes with
  | S fuel, unprocessedNodeId :: unprocessedNodes =>
      targets ← epsilonTargets nfa unprocessedNodeId;
      let '(closure, unprocessedNodes, output) := closure_targets closure unprocessedNodes output targets in
      match unprocessedNodes with
      | [] => Some output
      | _ => closure_loop fuel nfa closure unprocessedNodes output
      end
  | _, _ => None
  end.

(** Every node is taken from the stack at most once. *)
Definition epsilonClosureExcludingSelf (nfa : NFA) (nodeId : Z) : option (list Z) :=
  closure_loop (length (nfa_nodes nfa)) nfa (hs_add hs_empty nodeId) [nodeId] [].

Definition resolveEpsilonClosures (nfa : NFA) : option (NFA * list (list Z)) :=
  nfaNodeClosures ← mapM (epsilonClosureExcludingSelf nfa) (seqZ 0 (vlen (nfa_nodes nfa)));
  Some (mkNFA (nfa_nodes nfa) (nfa_transitions nfa) (nfa_targets nfa) [] (nfa_actions nfa), nfaNodeClosures).

Definition extendSetWithClosure (nfaNodeClosures : list (list Z)) (nodeId : Z) (set : NS) : option NS :=
  nodeClosure ← nfaNodeClosures.[nodeId];
  Some (hs_add_all set nodeClosure).

(** ** Combined transitions *)

(** [DataConverterWithEpsilonClosure].  [createCombinedTransition] checks the
    targets, so the closures are always found here. *)
Section Converter.
Variable nfaNodeclosures : list (list Z).

Definition nodeClosure (nodeId : Z) : list Z := default [] (nfaNodeclosures.[nodeId]).

Definition convert_targets (iterable : list Z) : NS :=
  foldl (fun result nodeId => hs_add_all (hs_add result nodeId) (nodeClosure nodeId)) hs_empty iterable.

Definition extend_targets (destination : NS) (iterable : list Z) : NS :=
  foldl (fun destination nodeId =>
           if isNewEntry destination nodeId
           then hs_add_all (hs_add destination nodeId) (nodeClosure nodeId)
           else hs_add destination nodeId) destination iterable.

Definition closure_converter : DataConverter (list Z) NS :=
  {| convert := convert_targets; extend_data := extend_targets |}.

(** A target without an entry in the closures is an access out of bounds
    when its range is merged. *)
Definition targets_in_bounds (rs : list (CharRange * list Z)) : bool :=
  forallb (fun r => forallb (fun t => (0 <=? t) && (t <? vlen nfaNodeclosures)) (snd r)) rs.

Fixpoint combine_loop (nfa : NFA) (combinedRangeList : list (MutableRange NS)) (buffer : list Z)
    : option (list (MutableRange NS)) :=
  match buffer with
  | [] => Some combinedRangeList
  | nodeId :: buffer =>
      transitions ← transitionsForNode nfa nodeId;
      if targets_in_bounds transitions then
        combinedRangeList ← extend (H := closure_converter) combinedRangeList transitions;
        combine_loop nfa combinedRangeList buffer
      else None
  end.

Definition createCombinedTransition (nfa : NFA) (sourceNodeSet : list Z) : option (list (MutableRange NS)) :=
  combine_loop nfa [] sourceNodeSet.
End Converter.

(** ** The table of node sets *)

(** [UniqueNodeIdSetImpl]: the numbers of the set in a buffer, and its node. *)
Record UniqueNodeIdSet := mkUniqueNodeIdSet { us_buffer : list Z; m_dfaNodeId : Z }.

(** [UniqueNodeIdSet::operator==(const NodeIdSet&)]. *)
Definition unique_equal (u : UniqueNodeIdSet) (other : NS) : bool :=
  if negb (vlen (us_buffer u) =? vlen (hs_iter other)) then false
  else forallb (hs_contains other) (us_buffer u).

(** The actions of a set of nodes, in one hash set. *)
Fixpoint collect_actions (nfa : NFA) (actions : AS) (nodes : list Z) : option AS :=
  match nodes with
  | [] => Some actions
  | nfaNodeId :: nodes =>
      acts ← nodeActions nfa nfaNodeId;
      collect_actions nfa (hs_add_all actions acts) nodes
  end.

(** [NodeIdSetToUniqueNodeIdSetTranslator::translate]. *)
Definition translate (nfa : NFA) (dfa : DFA) (nodeIdSet : NS) : option (DFA * UniqueNodeIdSet) :=
  actions ← collect_actions nfa hs_empty (hs_iter nodeIdSet);
  let actionsStart := u32 (vlen (dfa_actions dfa)) in
  let dfaActions := dfa_actions dfa ++ hs_iter actions in
  let actionsEnd := u32 (vlen dfaActions) in
  let actionsLength := u32 (actionsEnd - actionsStart) in
  if actionsLength <=? 65535 then
    let newDFANode := mkDFANode actionsStart 0 (u16 actionsLength) 0 0 in
    let dfaNodeId := u32 (vlen (dfa_nodes dfa)) in
    Some (mkDFA (dfa_nodes dfa ++ [newDFANode]) dfaActions (transitionRanges dfa) (transitionDestinations dfa)
            (dfa_root dfa),
          mkUniqueNodeIdSet (hs_iter nodeIdSet) dfaNodeId)
  else None.

(** What the main loop changes. *)
Record convert_state := mkConvert {
  cv_dfa : DFA;
  uniqueNodeIdSetTable : list UniqueNodeIdSet;
  unprocessedSets : list UniqueNodeIdSet
}.

Definition getOrCreateDFANode (nfa : NFA) (s : convert_state) (nfaNodeSet : NS) : option (convert_state * Z) :=
  match List.find (fun u => unique_equal u nfaNodeSet) (uniqueNodeIdSetTable s) with
  | Some u => Some (s, m_dfaNodeId u)
  | None =>
      '(dfa, u) ← translate nfa (cv_dfa s) nfaNodeSet;
      Some (mkConvert dfa (uniqueNodeIdSetTable s ++ [u]) (u :: unprocessedSets s), m_dfaNodeId u)
  end.

(** ** The conversion *)

Definition append_transition (dfa : DFA) (r : CharRange) (target : Z) : DFA :=
  mkDFA (dfa_nodes dfa) (dfa_actions dfa) (transitionRanges dfa ++ [r]) (transitionDestinations dfa ++ [target])
    (dfa_root dfa).

(** The loop over the combined ranges. *)
Fixpoint ranges_loop (nfa : NFA) (s : convert_state) (ranges : list (CharRange * NS)) : option convert_state :=
  match ranges with
  | [] => Some s
  | (r, data) :: ranges =>
      '(s, targetNodeId) ← getOrCreateDFANode nfa s data;
      ranges_loop nfa (mkConvert (append_transition (cv_dfa s) r targetNodeId) (uniqueNodeIdSetTable s)
                         (unprocessedSets s)) ranges
  end.

(** [DFANode::setTransitions] on the node [index]; the argument is a
    [uint8_t] by then. *)
Definition setTransitions (dfa : DFA) (index start length_ : Z) : option DFA :=
  n ← (dfa_nodes dfa).[index];
  nodes ← vec_set (dfa_nodes dfa) index
            (mkDFANode (m_actionsStart n) start (m_actionsLength n) (u8 length_) (m_flags n));
  Some (mkDFA nodes (dfa_actions dfa) (transitionRanges dfa) (transitionDestinations dfa) (dfa_root dfa)).

(** The set on top of the stack gets its transitions. *)
Definition process_set (nfa : NFA) (nfaNodeClosures : list (list Z)) (s : convert_state) : option convert_state :=
  match unprocessedSets s with
  | [] => None
  | u :: unprocessedNodes =>
      combinedRangeList ← createCombinedTransition nfaNodeClosures nfa (us_buffer u);
      ranges ← range_list combinedRangeList;
      let transitionsStart := u32 (vlen (transitionRanges (cv_dfa s))) in
      s ← ranges_loop nfa (mkConvert (cv_dfa s) (uniqueNodeIdSetTable s) unprocessedNodes) ranges;
      let transitionsEnd := u32 (vlen (transitionRanges (cv_dfa s))) in
      let transitionsLength := u32 (transitionsEnd - transitionsStart) in
      dfa ← setTransitions (cv_dfa s) (m_dfaNodeId u) transitionsStart transitionsLength;
      Some (mkConvert dfa (uniqueNodeIdSetTable s) (unprocessedSets s))
  end.

(** One turn of the [do ... while]: the next state, or the result. *)
Definition convert_step (nfa : NFA) (nfaNodeClosures : list (list Z)) (s : convert_state)
    : convert_state + option DFA :=
  match process_set nfa nfaNodeClosures s with
  | None => inr None
  | Some s => match unprocessedSets s with
              | [] => inr (Some (cv_dfa s))
              | _ => inl s
              end
  end.

(** Node numbers have 32 bits: no more than [2 ^ 32] sets are processed. *)
Definition convert_loop (nfa : NFA) (nfaNodeClosures : list (list Z)) (s : convert_state) : option DFA :=
  match repeat_pow2 (convert_step nfa nfaNodeClosures) 32 s with
  | inr r => r
  | inl _ => None
  end.

(** [NFAToDFA::convert]: the DFA, and the NFA without its epsilon targets. *)
Definition convertNFA (nfa : NFA) : option (DFA * NFA) :=
  '(nfa, nfaNodeClosures) ← resolveEpsilonClosures nfa;
  root ← nfa_root nfa;
  initialSet ← extendSetWithClosure nfaNodeClosures root (hs_add hs_empty root);
  '(dfa, u) ← translate nfa (mkDFA [] [] [] [] 0) initialSet;
  dfa ← convert_loop nfa nfaNodeClosures (mkConvert dfa [u] [u]);
  Some (dfa, nfa).
End NFAToDFA.
