(* ===== verification/SubsetCorrect.v ===== *)
(** * The subset construction is correct

    Paths of the NFA, the sets of nodes they lead to, and the invariant of the
    conversion: every set in the table is the set of nodes some text leads to,
    and the DFA node of a processed set has, on every character, a transition
    to the node of the successor set. *)

From stdpp Require Import relations gmap.
From S2P Require Import Prelude DFA RangeList HashSet NFA NFACorrect NFAToDFA RangeListCorrect.

(** * Epsilon closures are reflexive-transitive closures

    [epsilonClosureExcludingSelf] terminates within one turn per node and
    returns, each once, the other nodes that epsilon transitions reach. *)

(** Edges lead to nodes of the graph. *)
Definition live_nfa (nfa : NFA) : Prop := forall i l j, edge nfa i l j -> 0 <= j < vlen (nfa_nodes nfa).

Definition eps (nfa : NFA) (i j : Z) : Prop := edge nfa i None j.

Section Closure.
Context {NS : Type} `{HashSetLaws NS} (nfa : NFA).
Hypothesis Hwf : wf_nfa nfa.
Hypothesis Hlive : live_nfa nfa.
Hypothesis Hkeys : vlen (nfa_nodes nfa) <= hs_bound (T := NS).

Abbreviation nodes := (vlen (nfa_nodes nfa)).

Definition is_node (i : Z) : Prop := 0 <= i < nodes.

Lemma is_node_key i : is_node i -> hs_key (T := NS) i.
Proof. unfold is_node, hs_key. lia. Qed.

(** Distinct nodes are no more than the graph has. *)
Lemma nodes_pigeonhole l : NoDup l -> Forall is_node l -> (length l <= length (nfa_nodes nfa))%nat.
Proof.
  intros Hnd Hl. rewrite <- (Nat2Z.id (length (nfa_nodes nfa))), <- (length_seqZ 0 nodes).
  apply submseteq_length, NoDup_submseteq; [done|]. intros x Hx. rewrite Forall_forall in Hl.
  apply elem_of_seqZ. specialize (Hl x Hx). unfold is_node in Hl. lia.
Qed.

Lemma closure_targets_spec ts : forall (C : NS) un out,
  Forall is_node ts ->
  exists C' new, closure_targets C un out ts = (C', rev new ++ un, out ++ new)
    /\ (forall x, x ∈ hs_iter C' <-> x ∈ hs_iter C \/ x ∈ ts)
    /\ NoDup new /\ (forall x, x ∈ new <-> x ∈ ts /\ x ∉ hs_iter C).
Proof.
  induction ts as [|t ts IH]; intros C un out Hts; simpl.
  { exists C, []. rewrite app_nil_r. split_and!; [done| |by constructor|]; intros x; rewrite elem_of_nil; tauto. }
  apply Forall_cons in Hts as [Ht Hts]. apply is_node_key in Ht.
  destruct (isNewEntry C t) eqn:E; [apply isNewEntry_true in E|apply isNewEntry_false in E].
  - destruct (IH (hs_add C t) (t :: un) (out ++ [t]) Hts) as (C' & new & -> & HC & Hnd & Hnew).
    exists C', (t :: new). simpl. rewrite <- !(assoc_L (++)). split_and!; [done| | |].
    + intros x. rewrite HC, hs_iter_add, elem_of_cons by done. tauto.
    + constructor; [|done]. rewrite Hnew, hs_iter_add by done. tauto.
    + intros x. rewrite !elem_of_cons, Hnew, hs_iter_add by done. destruct (decide (x = t)); naive_solver.
  - destruct (IH (hs_add C t) un out Hts) as (C' & new & -> & HC & Hnd & Hnew).
    exists C', new. split_and!; [done| |done|].
    + intros x. rewrite HC, hs_iter_add, elem_of_cons by done. naive_solver.
    + intros x. rewrite Hnew, hs_iter_add, elem_of_cons by done. naive_solver.
Qed.

(** What holds when the loop is entered again. *)
Record closure_inv (i : Z) (C : NS) (un out done_ : list Z) : Prop := {
  ci_set : forall x, x ∈ hs_iter C <-> x = i \/ x ∈ out;
  ci_nodup : NoDup (i :: out);
  ci_split : (un ++ done_) ≡ₚ (i :: out);
  ci_reach : forall x, x ∈ hs_iter C -> rtc (eps nfa) i x;
  ci_done : forall x y, x ∈ done_ -> eps nfa x y -> y ∈ hs_iter C
}.

Lemma closure_reach i C un out dn x y :
  closure_inv i C un out dn -> x ∈ un ++ dn -> eps nfa x y -> rtc (eps nfa) i y.
Proof.
  intros [Hset _ Hsp Hr _] Hx Hy. eapply rtc_r; [|exact Hy]. apply Hr, Hset.
  rewrite <- elem_of_cons, <- Hsp. done.
Qed.

Lemma inv_nodes i C un out dn : is_node i -> closure_inv i C un out dn -> Forall is_node (un ++ dn).
Proof.
  intros Hi [Hset _ Hsp Hr _]. rewrite Hsp. rewrite Forall_forall. intros x Hx.
  assert (Hr' : rtc (eps nfa) i x) by (apply Hr, Hset; by apply elem_of_cons).
  destruct (rtc_inv_r _ _ Hr') as [<-|(y & _ & Hy)]; [done|]. by apply (Hlive y None).
Qed.

Lemma closure_inv_step i C u un out dn ts C' new :
  closure_inv i C (u :: un) out dn -> epsilonTargets nfa u = Some ts ->
  (forall x, x ∈ hs_iter C' <-> x ∈ hs_iter C \/ x ∈ ts) -> NoDup new ->
  (forall x, x ∈ new <-> x ∈ ts /\ x ∉ hs_iter C) ->
  closure_inv i C' (rev new ++ un) (out ++ new) (u :: dn).
Proof.
  intros Hinv Hts HC Hnd Hnew. pose proof Hinv as [Hset Hn Hsp Hr Hd].
  assert (Hstep : forall x, x ∈ ts -> eps nfa u x) by (intros x Hx; by exists ts).
  split.
  - intros x. rewrite HC, elem_of_app, Hnew, Hset. destruct (decide (x = i \/ x ∈ out)); tauto.
  - rewrite app_comm_cons, NoDup_app. split_and!; [done| |done]. intros x Hx Hx'. apply Hnew in Hx' as [_ Hx'].
    apply Hx', Hset. by apply elem_of_cons.
  - rewrite app_comm_cons, <- Hsp. rewrite <- (Permutation_rev new), (comm (++) _ new), <- (assoc (++)).
    apply Permutation_app_head. simpl. by rewrite Permutation_middle.
  - intros x [Hx|Hx]%HC; [by apply Hr|]. eapply closure_reach; [exact Hinv|by left|by apply Hstep].
  - intros x y [->|Hx]%elem_of_cons Hy; apply HC; [right|left; by eapply Hd].
    destruct Hy as (ts' & Hts' & Hy). congruence.
Qed.

Lemma closure_loop_spec i : is_node i -> forall fuel C un out dn,
  closure_inv i C un out dn -> un <> [] -> (length (nfa_nodes nfa) <= fuel + length dn)%nat ->
  exists out', closure_loop fuel nfa C un out = Some out' /\ NoDup (i :: out')
    /\ forall x, x = i \/ x ∈ out' <-> rtc (eps nfa) i x.
Proof.
  intros Hi. induction fuel as [|fuel IH]; intros C un out dn Hinv Hun Hf.
  { pose proof Hinv as [_ Hn Hsp _ _]. pose proof (inv_nodes _ _ _ _ _ Hi Hinv) as Hall. rewrite <- Hsp in Hn.
    apply nodes_pigeonhole in Hall; [|done]. rewrite length_app in Hall.
    destruct un; [done|]. simpl in *. lia. }
  destruct un as [|u un]; [done|]. cbn [closure_loop].
  assert (Hu : is_node u).
  { pose proof (inv_nodes _ _ _ _ _ Hi Hinv) as Hall. rewrite Forall_forall in Hall. apply Hall. by left. }
  destruct (wn_eps _ Hwf u Hu) as [ts Hts]. rewrite Hts, option_bind_Some.
  destruct (closure_targets_spec ts C un out) as (C' & new & -> & HC & Hnd & Hnew).
  { rewrite Forall_forall. intros x Hx. apply (Hlive u None x). by exists ts. }
  pose proof (closure_inv_step _ _ _ _ _ _ _ _ _ Hinv Hts HC Hnd Hnew) as Hinv'.
  destruct (rev new ++ un) as [|u' un'] eqn:E.
  - exists (out ++ new). pose proof Hinv' as [Hset Hn Hsp Hr Hd]. split_and!; [done|done|].
    intros x. split; [intros Hx; by apply Hr, Hset|]. intros Hx.
    enough (x ∈ hs_iter C') by by apply Hset. revert x Hx. apply rtc_ind_r; [apply Hset; by left|].
    intros y z _ Hz IHy. apply (Hd y); [|done]. rewrite app_nil_l in Hsp. rewrite Hsp. apply elem_of_cons. by apply Hset.
  - rewrite <- E in Hinv' |- *. eapply (IH _ _ _ (u :: dn)); [exact Hinv'|by rewrite E|]. simpl in *. lia.
Qed.

Lemma epsilonClosureExcludingSelf_spec i :
  is_node i ->
  exists out, epsilonClosureExcludingSelf (NS := NS) nfa i = Some out /\ NoDup (i :: out)
    /\ forall x, x = i \/ x ∈ out <-> rtc (eps nfa) i x.
Proof.
  intros Hi. apply (closure_loop_spec i Hi _ _ _ _ []).
  - pose proof (hs_iter_add (T := NS) hs_empty i) as Hadd. setoid_rewrite hs_iter_empty in Hadd. split.
    + intros x. rewrite Hadd by by apply is_node_key. done.
    + apply NoDup_singleton.
    + done.
    + intros x Hx. rewrite Hadd in Hx by by apply is_node_key. destruct Hx as [->|Hx%not_elem_of_nil]; done.
    + by intros x y ?%not_elem_of_nil.
  - done.
  - simpl. lia.
Qed.

(** ** All closures *)

Definition is_closure (i : Z) (out : list Z) : Prop :=
  NoDup (i :: out) /\ forall x, x = i \/ x ∈ out <-> rtc (eps nfa) i x.

Definition without_epsilons : NFA :=
  mkNFA (nfa_nodes nfa) (nfa_transitions nfa) (nfa_targets nfa) [] (nfa_actions nfa).

Lemma resolveEpsilonClosures_spec :
  exists closures, resolveEpsilonClosures (NS := NS) nfa = Some (without_epsilons, closures)
    /\ length closures = length (nfa_nodes nfa)
    /\ forall i, is_node i -> exists out, closures.[i] = Some out /\ is_closure i out.
Proof.
  unfold resolveEpsilonClosures.
  destruct (mapM_is_Some_2 (epsilonClosureExcludingSelf (NS := NS) nfa) (seqZ 0 nodes)) as [cs Hcs].
  { rewrite Forall_forall. intros i Hi%elem_of_seqZ. destruct (epsilonClosureExcludingSelf_spec i) as (out & He & _);
      [unfold is_node; lia|by exists out]. }
  rewrite Hcs, option_bind_Some. exists cs. split; [done|]. apply mapM_Some in Hcs.
  pose proof (Forall2_length _ _ _ Hcs) as Hlen. rewrite length_seqZ in Hlen. split; [lia|]. intros i Hi. unfold is_node in Hi.
  assert (Hl : seqZ 0 nodes !! Z.to_nat i = Some i) by (apply lookup_seqZ; lia).
  destruct (Forall2_lookup_l _ _ _ _ _ Hcs Hl) as (out & Hout & He). exists out. split.
  - apply vec_at_Some. split; [lia|done].
  - destruct (epsilonClosureExcludingSelf_spec i Hi) as (out' & He' & Hc). rewrite He in He'. by injection He' as <-.
Qed.
End Closure.

(** ** Paths *)

Inductive nfa_path (nfa : NFA) : Z -> list Z -> Z -> Prop :=
| path_nil i : nfa_path nfa i [] i
| path_eps i k w j : edge nfa i None k -> nfa_path nfa k w j -> nfa_path nfa i w j
| path_char i c k w j : edge nfa i (Some c) k -> nfa_path nfa k w j -> nfa_path nfa i (c :: w) j.

Lemma path_of_eps nfa i j : rtc (eps nfa) i j -> nfa_path nfa i [] j.
Proof. induction 1 as [|i k j Hik _ IH]; [constructor|by eapply path_eps]. Qed.

Lemma path_app nfa i w k v j : nfa_path nfa i w k -> nfa_path nfa k v j -> nfa_path nfa i (w ++ v) j.
Proof. induction 1; intros; simpl; [done|eapply path_eps; eauto|eapply path_char; eauto]. Qed.

Lemma path_nil_inv nfa i j : nfa_path nfa i [] j <-> rtc (eps nfa) i j.
Proof.
  split; [|apply path_of_eps]. intros Hp. remember [] as w. induction Hp; [done| |done].
  eapply rtc_l; [done|auto].
Qed.

Lemma path_snoc_inv nfa i w c j :
  nfa_path nfa i (w ++ [c]) j <-> exists k k', nfa_path nfa i w k /\ edge nfa k (Some c) k' /\ rtc (eps nfa) k' j.
Proof.
  split.
  - intros Hp. remember (w ++ [c]) as v. revert w Heqv. induction Hp as [i|i k v j Hik _ IH|i c' k v j Hik Hkj IH]; intros w Hv.
    + by destruct w.
    + destruct (IH w Hv) as (k1 & k2 & ? & ? & ?). exists k1, k2. split; [by eapply path_eps|done].
    + destruct w as [|c'' w]; simpl in Hv; injection Hv as -> ->.
      * exists i, k. split; [constructor|]. split; [done|by apply path_nil_inv].
      * destruct (IH w eq_refl) as (k1 & k2 & ? & ? & ?). exists k1, k2. split; [by eapply path_char|done].
  - intros (k & k' & Hw & He & Hr). eapply path_app; [exact Hw|]. eapply path_char; [exact He|by apply path_of_eps].
Qed.

(** The nodes a text leads to from the root, and the number of such sets. *)
Definition leads_to (nfa : NFA) (w : list Z) (j : Z) : Prop := nfa_path nfa 0 w j.

(** The actions of the nodes a text leads to. *)
Definition nfa_accepts (nfa : NFA) (w : list Z) (a : Z) : Prop := exists j, leads_to nfa w j /\ accepts nfa j a.

Lemma leads_to_node nfa w x : live_nfa nfa -> 0 < vlen (nfa_nodes nfa) -> leads_to nfa w x -> is_node nfa x.
Proof.
  intros Hlive Hroot. unfold leads_to. assert (Hn : is_node nfa 0) by (unfold is_node; lia). revert Hn. generalize 0.
  intros i Hn Hp. induction Hp as [i|i k w j Hik _ IH|i c k w j Hik _ IH]; [done|..]; apply IH; by eapply Hlive.
Qed.

Definition reached_set (nfa : NFA) (X : gset Z) : Prop := exists w, forall x, x ∈ X <-> leads_to nfa w x.

Definition state_sets_bounded (nfa : NFA) (K : Z) : Prop :=
  forall l : list (gset Z), NoDup l -> Forall (reached_set nfa) l -> vlen l <= K.

(** The successors of a set, closed under epsilon transitions. *)
Definition successor (nfa : NFA) (X : list Z) (c j : Z) : Prop :=
  exists i k, i ∈ X /\ edge nfa i (Some c) k /\ rtc (eps nfa) k j.

Lemma leads_to_snoc nfa w c j X :
  (forall x, x ∈ X <-> leads_to nfa w x) -> leads_to nfa (w ++ [c]) j <-> successor nfa X c j.
Proof. intros HX. unfold leads_to, successor. rewrite path_snoc_inv. setoid_rewrite HX. naive_solver. Qed.

(** ** A bounded loop returns *)

Lemma repeat_pow2_spec {A R} (step : A -> A + R) (I : nat -> A -> Prop) (Q : R -> Prop) :
  (forall m s, I m s -> match step s with inl s' => exists m', (m = S m')%nat /\ I m' s' | inr r => Q r end) ->
  forall n m s, I m s ->
  match repeat_pow2 step n s with
  | inl s' => exists m', (m = 2 ^ n + m')%nat /\ I m' s'
  | inr r => Q r
  end.
Proof.
  intros Hstep. induction n as [|n IH]; intros m s HI; cbn [repeat_pow2].
  { specialize (Hstep m s HI). destruct (step s); [|done]. destruct Hstep as (m' & -> & ?). by exists m'. }
  pose proof (IH m s HI) as H1. destruct (repeat_pow2 step n s) as [s1|r]; [|done]. destruct H1 as (m1 & -> & H1).
  specialize (IH m1 s1 H1). destruct (repeat_pow2 step n s1) as [s2|r]; [|done]. destruct IH as (m2 & -> & H2).
  exists m2. split; [|done]. simpl. lia.
Qed.

(** ** Merging the transitions of a set *)

Section Combine.
Context {NS : Type} `{HashSetLaws NS} (nfa : NFA) (closures : list (list Z)).
Hypothesis Hwf : wf_nfa nfa.
Hypothesis Hlive : live_nfa nfa.
Hypothesis Hkeys : vlen (nfa_nodes nfa) <= hs_bound (T := NS).
Hypothesis Hlen : length closures = length (nfa_nodes nfa).
Hypothesis Hcl : forall i, is_node nfa i -> exists out, closures.[i] = Some out /\ is_closure nfa i out.

Lemma nodeClosure_spec i :
  is_node nfa i -> forall x, x = i \/ x ∈ nodeClosure closures i <-> rtc (eps nfa) i x.
Proof. intros Hi x. destruct (Hcl i Hi) as (out & Hout & _ & Hx). unfold nodeClosure. rewrite Hout. apply Hx. Qed.

Lemma eps_node i x : is_node nfa i -> rtc (eps nfa) i x -> is_node nfa x.
Proof. intros Hi Hr. destruct (rtc_inv_r _ _ Hr) as [<-|(y & _ & Hy)]; [done|]. by apply (Hlive y None). Qed.

Lemma nodeClosure_keys i : is_node nfa i -> Forall (hs_key (T := NS)) (nodeClosure closures i).
Proof.
  intros Hi. rewrite Forall_forall. intros x Hx. apply (is_node_key nfa); [done|]. apply (eps_node i); [done|].
  apply (nodeClosure_spec i Hi). by right.
Qed.

Lemma add_closure (d : NS) i x :
  is_node nfa i ->
  x ∈ hs_iter (hs_add_all (hs_add d i) (nodeClosure closures i)) <-> x ∈ hs_iter d \/ rtc (eps nfa) i x.
Proof.
  intros Hi. rewrite elem_of_hs_add_all, hs_iter_add, <- (nodeClosure_spec i Hi).
  - tauto.
  - by apply (is_node_key nfa).
  - by apply nodeClosure_keys.
Qed.

(** Sets that are closed under epsilon transitions. *)
Definition eps_closed (d : NS) : Prop := forall x y, x ∈ hs_iter d -> rtc (eps nfa) x y -> y ∈ hs_iter d.

Definition reach_from (ts : list Z) (x : Z) : Prop := exists t, t ∈ ts /\ rtc (eps nfa) t x.

Lemma reach_from_cons t ts x : reach_from (t :: ts) x <-> rtc (eps nfa) t x \/ reach_from ts x.
Proof. unfold reach_from. setoid_rewrite elem_of_cons. naive_solver. Qed.

Lemma reach_from_nil x : ~ reach_from [] x.
Proof. intros (t & ?%not_elem_of_nil & _). done. Qed.

Lemma convert_targets_acc ts : forall d : NS,
  Forall (is_node nfa) ts -> forall x,
  x ∈ hs_iter (foldl (fun result nodeId => hs_add_all (hs_add result nodeId) (nodeClosure closures nodeId)) d ts)
  <-> x ∈ hs_iter d \/ reach_from ts x.
Proof.
  induction ts as [|t ts IH]; intros d Hts x; simpl.
  - pose proof (reach_from_nil x). tauto.
  - apply Forall_cons in Hts as [Ht Hts]. rewrite IH, add_closure, reach_from_cons by done. tauto.
Qed.

Lemma convert_targets_spec ts x :
  Forall (is_node nfa) ts -> x ∈ hs_iter (convert_targets (NS := NS) closures ts) <-> reach_from ts x.
Proof.
  intros Hts. unfold convert_targets. rewrite convert_targets_acc by done.
  pose proof (elem_of_hs_empty (T := NS) x). tauto.
Qed.

(** A target that is in the destination already brought its closure along. *)
Lemma extend_targets_spec ts : forall d : NS,
  Forall (is_node nfa) ts -> eps_closed d ->
  forall x, x ∈ hs_iter (extend_targets closures d ts) <-> x ∈ hs_iter d \/ reach_from ts x.
Proof.
  induction ts as [|t ts IH]; intros d Hts Hd x; simpl.
  { pose proof (reach_from_nil x). tauto. }
  apply Forall_cons in Hts as [Ht Hts]. destruct (isNewEntry d t) eqn:E.
  - fold (extend_targets closures (hs_add_all (hs_add d t) (nodeClosure closures t)) ts).
    rewrite IH, add_closure, reach_from_cons; [tauto|done|done|].
    intros y z. rewrite !add_closure by done. intros [Hy|Hy] Hz; [left; by eapply Hd|right; by etrans].
  - apply isNewEntry_false in E. fold (extend_targets closures (hs_add d t) ts).
    assert (Hadd : forall y, y ∈ hs_iter (hs_add d t) <-> y ∈ hs_iter d).
    { intros y. rewrite hs_iter_add by by apply (is_node_key nfa). naive_solver. }
    rewrite IH, Hadd, reach_from_cons; [|done|].
    + split; [tauto|]. intros [?|[Hx|?]]; [by left| |by right]. left. by eapply Hd.
    + intros y z. rewrite !Hadd. apply Hd.
Qed.

(** The list gives every character the set [X c]. *)
Definition covers (es : list (CharRange * NS)) (X : Z -> Z -> Prop) : Prop :=
  forall c, match ts_step es c with
            | Some d => forall x, x ∈ hs_iter d <-> X c x
            | None => forall x, ~ X c x
            end.

Lemma successor_closed X c x y : successor nfa X c x -> rtc (eps nfa) x y -> successor nfa X c y.
Proof. intros (i & k & ? & ? & ?) Hy. exists i, k. split; [done|]. split; [done|by etrans]. Qed.

Lemma successor_snoc X n c x :
  successor nfa (X ++ [n]) c x <-> successor nfa X c x \/ exists k, edge nfa n (Some c) k /\ rtc (eps nfa) k x.
Proof.
  unfold successor. setoid_rewrite elem_of_app. setoid_rewrite list_elem_of_singleton. split.
  - intros (i & k & [Hi| ->] & He & Hr); [left|right]; eauto.
  - intros [(i & k & ? & ? & ?)|(k & ? & ?)]; eauto 10.
Qed.

Lemma transitions_targets n rs r ts :
  transitionsForNode nfa n = Some rs -> sorted_from 0 rs -> (r, ts) ∈ rs -> Forall (is_node nfa) ts.
Proof.
  intros Hrs Hsort Hin. rewrite Forall_forall. intros t Ht. apply (Hlive n (Some (range_first r))).
  exists rs, ts. split; [done|]. split; [by eapply ts_step_first|done].
Qed.

Lemma targets_in_bounds_true n rs :
  transitionsForNode nfa n = Some rs -> sorted_from 0 rs -> targets_in_bounds closures rs = true.
Proof.
  intros Hrs Hs. apply forallb_forall. intros [r ts] Hin%list_elem_of_In. apply forallb_forall. intros t Ht%list_elem_of_In.
  pose proof (transitions_targets n rs r ts Hrs Hs Hin) as Hts. rewrite Forall_forall in Hts. specialize (Hts t Ht).
  unfold is_node in Hts. simpl. rewrite Hlen. bool_cases; lia || done.
Qed.

Lemma covers_extend X n es es' rs :
  covers es (successor nfa X) -> transitionsForNode nfa n = Some rs -> sorted_from 0 rs ->
  (forall c, ts_step es' c = pmerge (H := closure_converter closures) (ts_step es c) (ts_step rs c)) ->
  covers es' (successor nfa (X ++ [n])).
Proof.
  intros Hes Hrs Hs Hpt c. rewrite Hpt. specialize (Hes c).
  assert (Hstep : forall ts, ts_step rs c = Some ts ->
    Forall (is_node nfa) ts /\ forall x, reach_from ts x <-> exists k, edge nfa n (Some c) k /\ rtc (eps nfa) k x).
  { intros ts Hts. destruct (ts_step_elem _ _ _ Hts) as (r & Hin & _). split; [by eapply transitions_targets|].
    intros x. unfold reach_from. split; [intros (t & ? & ?); exists t; split; [by exists rs, ts|done]|].
    intros (k & (rs' & ts' & ? & ? & ?) & ?). exists k. split; [congruence|done]. }
  destruct (ts_step rs c) as [ts|] eqn:Ets.
  - destruct (Hstep ts eq_refl) as [Hts Hreach]. destruct (ts_step es c) as [d|]; simpl.
    + intros x. rewrite extend_targets_spec, successor_snoc, Hes, Hreach; [done|done|].
      intros y z. rewrite !Hes. apply successor_closed.
    + intros x. rewrite convert_targets_spec, successor_snoc, Hreach by done. specialize (Hes x). tauto.
  - assert (Hno : forall x, ~ exists k, edge nfa n (Some c) k /\ rtc (eps nfa) k x).
    { intros x (k & (rs' & ts' & ? & ? & ?) & _). congruence. }
    destruct (ts_step es c); simpl; intros x; rewrite successor_snoc; specialize (Hes x); specialize (Hno x); tauto.
Qed.

Lemma combine_loop_spec buf : forall X v es,
  wf_ranges v es -> covers es (successor nfa X) -> Forall (is_node nfa) buf ->
  exists v' es', combine_loop closures (without_epsilons nfa) v buf = Some v' /\ wf_ranges v' es'
    /\ covers es' (successor nfa (X ++ buf)).
Proof.
  induction buf as [|n buf IH]; intros X v es Hv Hes Hbuf; cbn [combine_loop].
  { exists v, es. by rewrite app_nil_r. }
  apply Forall_cons in Hbuf as [Hn Hbuf]. destruct (wn_trans _ Hwf n Hn) as (rs & Hrs & Hs).
  change (transitionsForNode (without_epsilons nfa) n) with (transitionsForNode nfa n).
  rewrite Hrs, option_bind_Some, (targets_in_bounds_true n rs) by done.
  destruct (extend_spec (H := closure_converter closures) v es rs Hv Hs) as (v' & es' & -> & Hwf' & Hpt).
  rewrite option_bind_Some. destruct (IH (X ++ [n]) v' es' Hwf') as (v2 & es2 & ? & ? & Hc).
  - by eapply covers_extend.
  - done.
  - exists v2, es2. rewrite <- (assoc_L (++)) in Hc. done.
Qed.

Lemma createCombinedTransition_spec buf :
  Forall (is_node nfa) buf ->
  exists v es, createCombinedTransition (NS := NS) closures (without_epsilons nfa) buf = Some v /\ wf_ranges v es
    /\ covers es (successor nfa buf).
Proof.
  intros Hbuf. apply (combine_loop_spec buf [] [] []); [split; [done|by left]| |done].
  intros c x (i & k & ?%not_elem_of_nil & _). done.
Qed.
End Combine.
