(* ===== verification/ConvertCorrect.v ===== *)
(** * The conversion loop

    The invariant of [NFAToDFA::convert] and its preservation by
    [getOrCreateDFANode], the loop over the combined ranges and
    [setTransitions]; the resulting DFA accepts what the NFA accepts. *)

From stdpp Require Import relations gmap.
From S2P Require Import Prelude DFA RangeList RangeListCorrect HashSet NFA NFACorrect NFAToDFA SubsetCorrect.

(** Running the DFA from a node reaches one that accepts. *)
Definition dfa_accepts (dfa : DFA) (index a : Z) : Prop :=
  exists n acts, (dfa_nodes dfa).[index] = Some n /\ node_actions dfa n = Some acts /\ a ∈ acts.

(** The language in terms of the outputs. *)
Lemma accepts_output dfa w a :
  (exists t, dfa_run dfa (dfa_root dfa) w = Some t /\ dfa_accepts dfa t a) <-> exists acts, dfa_output dfa (dfa_root dfa) w = Some acts /\ a ∈ acts.
Proof.
  unfold dfa_output, dfa_accepts. split.
  - intros (t & -> & n & acts & Hn & Ha & Hin). exists acts. by rewrite option_bind_Some, Hn, option_bind_Some.
  - intros (acts & Ho & Hin). destruct (dfa_run dfa (dfa_root dfa) w) as [t|]; [|done]. rewrite option_bind_Some in Ho. exists t. split; [done|].
    destruct ((dfa_nodes dfa).[t]) as [n|] eqn:Hn; [|done]. rewrite option_bind_Some in Ho. by exists n, acts.
Qed.

(** ** Growing vectors keep the slices of a node *)

Lemma mapM_vec_app {A} (v w : list A) l r :
  mapM (fun i => v.[i]) l = Some r -> mapM (fun i => (v ++ w).[i]) l = Some r.
Proof. intros Hr. eapply mapM_app_ext; [exact Hr|]. intros i y _. apply vec_at_app_Some. Qed.

Section Grow.
Variables dfa dfa' : DFA.
Hypothesis Hacts : exists w, dfa_actions dfa' = dfa_actions dfa ++ w.
Hypothesis Hranges : exists w, transitionRanges dfa' = transitionRanges dfa ++ w.
Hypothesis Hdests : exists w, transitionDestinations dfa' = transitionDestinations dfa ++ w.

Lemma node_actions_grow n acts : node_actions dfa n = Some acts -> node_actions dfa' n = Some acts.
Proof. destruct Hacts as [w Hw]. unfold node_actions. rewrite Hw. apply mapM_vec_app. Qed.

Lemma node_transitions_grow n ts : node_transitions dfa n = Some ts -> node_transitions dfa' n = Some ts.
Proof.
  destruct Hranges as [w1 Hw1], Hdests as [w2 Hw2]. intros Hts. eapply mapM_app_ext; [exact Hts|].
  intros p x _. unfold iterator_at. rewrite Hw1, Hw2.
  destruct ((transitionRanges dfa).[p]) as [r|] eqn:E1; [|done]. rewrite (vec_at_app_Some _ _ _ _ E1), !option_bind_Some.
  destruct ((transitionDestinations dfa).[p]) as [t|] eqn:E2; [|done]. by rewrite (vec_at_app_Some _ _ _ _ E2).
Qed.
End Grow.

(** ** Transitions appended at the end

    They read back with their targets. *)
Lemma iterator_slice dfa (R1 R2 : list CharRange) (T1 T2 : list Z) :
  transitionRanges dfa = R1 ++ R2 -> transitionDestinations dfa = T1 ++ T2 -> length R1 = length T1 ->
  length R2 = length T2 -> mapM (iterator_at dfa) (seqZ (vlen R1) (vlen R2)) = Some (List.combine R2 T2).
Proof.
  intros HR HT Hl1 Hl2. revert R1 T1 T2 HR HT Hl1 Hl2. induction R2 as [|r R2 IH]; intros R1 T1 [|t T2] HR HT Hl1 Hl2; try done.
  rewrite length_cons, seqZ_cons by lia. cbn [mapM List.combine].
  assert (iterator_at dfa (vlen R1) = Some (r, t)) as ->.
  { unfold iterator_at. rewrite HR, HT. rewrite <- (Z.add_0_r (vlen R1)) at 1. rewrite vec_at_app_r by lia. simpl.
    rewrite Hl1, <- (Z.add_0_r (vlen T1)). by rewrite vec_at_app_r. }
  specialize (IH (R1 ++ [r]) (T1 ++ [t]) T2). rewrite <- !(assoc_L (++)), !length_app in IH. simpl in *.
  specialize (IH HR HT ltac:(lia) ltac:(lia)).
  replace (Z.succ (vlen R1)) with (Z.of_nat (length R1 + 1)) by lia.
  replace (Z.pred (Z.of_nat (S (length R2)))) with (vlen R2) by lia. by rewrite IH.
Qed.

Lemma sorted_combine {D} lo (es : list (CharRange * D)) (tgts : list Z) :
  length es = length tgts -> sorted_from lo es -> sorted_from lo (List.combine (map fst es) tgts).
Proof.
  revert lo tgts. induction es as [|[r d] es IH]; intros lo [|t tgts] Hl Hs; simpl in *; try done.
  destruct Hs as (?&?&?&Hs). split_and!; auto.
Qed.

Lemma ts_step_combine {D} (P : CharRange * D -> Z -> Prop) (es : list (CharRange * D)) (tgts : list Z) c :
  Forall2 P es tgts ->
  match ts_step (List.combine (map fst es) tgts) c with
  | Some t => exists r d, ts_step es c = Some d /\ P (r, d) t
  | None => ts_step es c = None
  end.
Proof.
  intros Hp. induction Hp as [|[r d] t es tgts HP Hall IH]; simpl; [done|]. destruct (in_range r c); [|done]. eauto.
Qed.

(** The actions of the nodes are in the vector of actions. *)
Lemma nodeActions_sub nfa i acts : nodeActions nfa i = Some acts -> forall a, a ∈ acts -> a ∈ nfa_actions nfa.
Proof.
  unfold nodeActions. destruct ((nfa_nodes nfa).[i]); [|done]. rewrite option_bind_Some. intros Hs a Ha.
  apply mapM_Some in Hs. apply list_elem_of_lookup in Ha as [k Hk].
  destruct (Forall2_lookup_r _ _ _ _ _ Hs Hk) as (p & _ & Hp). apply vec_at_Some in Hp as [_ Hp].
  by eapply list_elem_of_lookup_2.
Qed.

Lemma accepts_sub nfa i a : accepts nfa i a -> a ∈ nfa_actions nfa.
Proof. intros (acts & Ha & Hin). by eapply nodeActions_sub. Qed.

Section Convert.
Context {NS AS : Type} `{HashSetLaws NS} `{HashSetLaws AS} (nfa : NFA) (closures : list (list Z)) (U : list Z) (K : Z).
Hypothesis Hwf : wf_nfa nfa.
Hypothesis Hlive : live_nfa nfa.
Hypothesis Hkeys : vlen (nfa_nodes nfa) <= hs_bound (T := NS).
Hypothesis Hlen : length closures = length (nfa_nodes nfa).
Hypothesis Hcl : forall i, is_node nfa i -> exists out, closures.[i] = Some out /\ is_closure nfa i out.
Hypothesis Hin_U : forall w a, nfa_accepts nfa w a -> a ∈ U.
Hypothesis Hakeys : Forall (hs_key (T := AS)) U.
Hypothesis Hroot : 0 < vlen (nfa_nodes nfa).
Hypothesis HK : state_sets_bounded nfa K.
Hypothesis HK1 : K * 128 < 2 ^ 32.
Hypothesis HK2 : K * vlen U < 2 ^ 32.
Hypothesis Hacts : vlen U <= 65535.

Abbreviation A := (vlen U).
Abbreviation nfa0 := (without_epsilons nfa).

(** ** Sets of nodes *)

Definition set_of (u : UniqueNodeIdSet) : gset Z := list_to_set (us_buffer u).

Definition accepts_any (X : list Z) (a : Z) : Prop := exists i, i ∈ X /\ accepts nfa i a.

Lemma unique_equal_spec u (d : NS) :
  NoDup (us_buffer u) -> unique_equal u d = true <-> forall x, x ∈ us_buffer u <-> x ∈ hs_iter d.
Proof.
  intros Hnd. unfold unique_equal. pose proof (hs_iter_nodup d) as Hnd'. split.
  - destruct (Z.eqb_spec (vlen (us_buffer u)) (vlen (hs_iter d))) as [Hl|]; [simpl|done].
    rewrite forallb_forall. intros Hin.
    assert (Hsub : us_buffer u ⊆+ hs_iter d).
    { apply NoDup_submseteq; [done|]. intros x Hx. apply hs_contains_spec, Hin. by apply list_elem_of_In. }
    intros x. assert (Hp : us_buffer u ≡ₚ hs_iter d) by (apply submseteq_length_Permutation; [done|lia]). by rewrite Hp.
  - intros Hx. assert (Hp : us_buffer u ≡ₚ hs_iter d) by (apply NoDup_Permutation; done).
    rewrite Hp, Z.eqb_refl. simpl. apply forallb_forall. intros x Hin%list_elem_of_In. by apply hs_contains_spec, Hx.
Qed.

(** ** Actions of a set *)

Lemma accepts_any_cons i X a : accepts_any (i :: X) a <-> accepts nfa i a \/ accepts_any X a.
Proof. unfold accepts_any. setoid_rewrite elem_of_cons. naive_solver. Qed.

Lemma collect_actions_spec X : forall acts : AS,
  Forall (fun i => exists w, leads_to nfa w i) X ->
  exists acts', collect_actions nfa0 acts X = Some acts'
    /\ forall a, a ∈ hs_iter acts' <-> a ∈ hs_iter acts \/ accepts_any X a.
Proof.
  induction X as [|i X IH]; intros acts HX; cbn [collect_actions].
  { exists acts. split; [done|]. intros a. split; [by left|]. intros [?|(i & ?%not_elem_of_nil & _)]; done. }
  apply Forall_cons in HX as [[w Hw] HX]. destruct (wn_acts _ Hwf i (leads_to_node nfa w i Hlive Hroot Hw)) as [l Hl].
  change (nodeActions nfa0 i) with (nodeActions nfa i). rewrite Hl, option_bind_Some.
  destruct (IH (hs_add_all acts l) HX) as (acts' & -> & Hin). exists acts'. split; [done|]. intros a.
  rewrite Hin, elem_of_hs_add_all, accepts_any_cons.
  - unfold accepts. rewrite Hl. naive_solver.
  - rewrite Forall_forall in Hakeys |- *. intros x Hx. apply Hakeys, (Hin_U w). exists i. split; [done|by exists l].
Qed.

(** ** The invariant *)

(** The node of a set carries the set's actions. *)
Definition node_ok (dfa : DFA) (u : UniqueNodeIdSet) (n : DFANode) : Prop :=
  (dfa_nodes dfa).[m_dfaNodeId u] = Some n /\ m_flags n = 0
  /\ exists acts, node_actions dfa n = Some acts /\ forall a, a ∈ acts <-> accepts_any (us_buffer u) a.

Record table_inv (s : convert_state) : Prop := {
  ti_len : length (uniqueNodeIdSetTable s) = length (dfa_nodes (cv_dfa s));
  ti_ids : forall u, u ∈ uniqueNodeIdSetTable s -> (uniqueNodeIdSetTable s).[m_dfaNodeId u] = Some u;
  ti_nodup : NoDup (map set_of (uniqueNodeIdSetTable s));
  ti_reached : forall u, u ∈ uniqueNodeIdSetTable s -> NoDup (us_buffer u) /\ reached_set nfa (set_of u);
  ti_nodes : forall u, u ∈ uniqueNodeIdSetTable s -> exists n, node_ok (cv_dfa s) u n;
  ti_acts : vlen (dfa_actions (cv_dfa s)) <= A * vlen (uniqueNodeIdSetTable s);
  ti_root : dfa_root (cv_dfa s) = 0
}.

Lemma table_bound s : table_inv s -> vlen (uniqueNodeIdSetTable s) <= K.
Proof.
  intros [_ _ Hnd Hr _ _ _]. rewrite <- (length_map set_of). apply HK; [done|]. apply Forall_fmap, Forall_forall.
  intros u Hu. by apply Hr.
Qed.

(** The node of a processed set moves to the nodes of the successor sets. *)
Definition processed (s : convert_state) (u : UniqueNodeIdSet) : Prop :=
  exists n ts, (dfa_nodes (cv_dfa s)).[m_dfaNodeId u] = Some n /\ node_transitions (cv_dfa s) n = Some ts
    /\ sorted_from 0 ts
    /\ Forall (fun t => exists u', (uniqueNodeIdSetTable s).[snd t] = Some u') ts
    /\ forall c, match ts_step ts c with
                 | Some t => exists u', (uniqueNodeIdSetTable s).[t] = Some u'
                     /\ forall x, x ∈ us_buffer u' <-> successor nfa (us_buffer u) c x
                 | None => forall x, ~ successor nfa (us_buffer u) c x
                 end.

(** What one turn adds. *)
Record grows (s s' : convert_state) (new : list UniqueNodeIdSet) : Prop := {
  gr_table : uniqueNodeIdSetTable s' = uniqueNodeIdSetTable s ++ new;
  gr_stack : unprocessedSets s' = rev new ++ unprocessedSets s;
  gr_nodes : exists w, dfa_nodes (cv_dfa s') = dfa_nodes (cv_dfa s) ++ w;
  gr_acts : exists w, dfa_actions (cv_dfa s') = dfa_actions (cv_dfa s) ++ w;
  gr_ranges : exists w, transitionRanges (cv_dfa s') = transitionRanges (cv_dfa s) ++ w;
  gr_dests : exists w, transitionDestinations (cv_dfa s') = transitionDestinations (cv_dfa s) ++ w
}.

Lemma processed_grows s s' new u : grows s s' new -> processed s u -> processed s' u.
Proof.
  intros [Ht _ [w Hn] _ Hr Hd] (n & ts & Hnode & Hts & Hsort & Hall & Hc). exists n, ts. rewrite Hn, Ht. split_and!.
  - by apply vec_at_app_Some.
  - by eapply node_transitions_grow.
  - done.
  - eapply Forall_impl; [exact Hall|]. intros t (u' & Hu'). exists u'. by apply vec_at_app_Some.
  - intros c. specialize (Hc c). destruct (ts_step ts c); [|done]. destruct Hc as (u' & Hu' & Hx). exists u'.
    split; [by apply vec_at_app_Some|done].
Qed.

(** ** Creating a node *)

Lemma actions_length (acts : AS) X :
  (forall a, a ∈ hs_iter acts <-> accepts_any X a) -> (exists w, forall x, x ∈ X <-> leads_to nfa w x) -> vlen (hs_iter acts) <= A.
Proof.
  intros Ha [w Hw]. apply Nat2Z.inj_le, submseteq_length, NoDup_submseteq; [apply hs_iter_nodup|].
  intros a Hin. apply Ha in Hin as (i & Hx & Hi). apply (Hin_U w). exists i. split; [by apply Hw|done].
Qed.

(** The set [d] is what a text leads to. *)
Definition reached (d : NS) : Prop := exists w, forall x, x ∈ hs_iter d <-> leads_to nfa w x.

Lemma translate_spec s (d : NS) :
  table_inv s -> reached d -> (forall u, u ∈ uniqueNodeIdSetTable s -> unique_equal u d = false) ->
  vlen (uniqueNodeIdSetTable s) + 1 <= K ->
  exists dfa u, translate (AS := AS) nfa0 (cv_dfa s) d = Some (dfa, u) /\ us_buffer u = hs_iter d
    /\ m_dfaNodeId u = vlen (uniqueNodeIdSetTable s)
    /\ (exists n, dfa_nodes dfa = dfa_nodes (cv_dfa s) ++ [n] /\ node_ok dfa u n)
    /\ (exists w, dfa_actions dfa = dfa_actions (cv_dfa s) ++ w /\ vlen w <= A)
    /\ transitionRanges dfa = transitionRanges (cv_dfa s)
    /\ transitionDestinations dfa = transitionDestinations (cv_dfa s) /\ dfa_root dfa = dfa_root (cv_dfa s).
Proof.
  intros Hinv (w & Hw) Hnew HK'. unfold translate.
  destruct (collect_actions_spec (hs_iter d) (hs_empty : AS)) as (acts & -> & Hacts').
  { rewrite Forall_forall. intros x Hx. exists w. by apply Hw. }
  rewrite option_bind_Some.
  assert (Ha : forall a, a ∈ hs_iter acts <-> accepts_any (hs_iter d) a).
  { intros a. rewrite Hacts'. pose proof (elem_of_hs_empty (T := AS) a). tauto. }
  pose proof (actions_length _ _ Ha (ex_intro _ w Hw)) as Hl. destruct Hinv as [Hlen' _ _ _ _ Hacts0 _].
  assert (Hsz : vlen (dfa_actions (cv_dfa s)) + vlen (hs_iter acts) < 2 ^ 32) by nia.
  assert (HAK : vlen (uniqueNodeIdSetTable s) < 2 ^ 32) by lia.
  rewrite (u32_small (vlen (dfa_actions (cv_dfa s)))) by lia. rewrite length_app.
  rewrite (u32_small (Z.of_nat _)) by lia. rewrite (u32_small (Z.of_nat _ - _)) by lia.
  set (len := Z.of_nat _ - _). assert (len = vlen (hs_iter acts)) as -> by lia.
  destruct (Z.leb_spec (vlen (hs_iter acts)) 65535); [|lia]. rewrite <- Hlen'. rewrite (u32_small (vlen (uniqueNodeIdSetTable s))) by lia.
  rewrite uwrap_small by lia. eexists _, _. split; [reflexivity|]. split; [done|]. split; [done|]. split_and!; try done.
  - eexists. split; [reflexivity|]. split; [|split; [done|]]; simpl.
    + rewrite Hlen'. apply vec_at_snoc.
    + exists (hs_iter acts). split; [|exact Ha]. unfold node_actions. simpl.
      pose proof (mapM_seqZ_snoc (dfa_actions (cv_dfa s)) (hs_iter acts) []) as Hm. by rewrite app_nil_r in Hm.
  - exists (hs_iter acts). done.
Qed.

Lemma node_ok_grow dfa dfa' u n :
  (exists w, dfa_nodes dfa' = dfa_nodes dfa ++ w) -> (exists w, dfa_actions dfa' = dfa_actions dfa ++ w) ->
  node_ok dfa u n -> node_ok dfa' u n.
Proof.
  intros [w Hw] Ha (Hn & Hf & acts & Hacts' & Hin). split; [rewrite Hw; by apply vec_at_app_Some|]. split; [done|].
  exists acts. split; [|done]. by eapply node_actions_grow.
Qed.

Lemma table_inv_add s dfa u (d : NS) n :
  table_inv s -> reached d -> (forall u, u ∈ uniqueNodeIdSetTable s -> unique_equal u d = false) ->
  us_buffer u = hs_iter d -> m_dfaNodeId u = vlen (uniqueNodeIdSetTable s) ->
  dfa_nodes dfa = dfa_nodes (cv_dfa s) ++ [n] -> node_ok dfa u n ->
  (exists w, dfa_actions dfa = dfa_actions (cv_dfa s) ++ w /\ vlen w <= A) -> dfa_root dfa = dfa_root (cv_dfa s) ->
  table_inv (mkConvert dfa (uniqueNodeIdSetTable s ++ [u]) (u :: unprocessedSets s)).
Proof.
  intros Hinv (w & Hw) Hnew Hu Hid Hn Hok (wa & Hwa & Hla) Hrt. pose proof Hinv as [Hlen' Hids Hnd Hr Hnodes Ha Hroot'].
  assert (Hin : forall v, v ∈ uniqueNodeIdSetTable s ++ [u] -> v ∈ uniqueNodeIdSetTable s \/ v = u)
    by (intros v; rewrite elem_of_app, list_elem_of_singleton; done).
  assert (Hset : forall x, x ∈ set_of u <-> x ∈ hs_iter d) by (intros x; unfold set_of; by rewrite elem_of_list_to_set, Hu).
  split; cbn [uniqueNodeIdSetTable cv_dfa].
  - rewrite Hn, !length_app, Hlen'. done.
  - intros v [Hv| ->]%Hin; [apply vec_at_app_Some; auto|]. rewrite Hid. apply vec_at_snoc.
  - rewrite map_app. apply NoDup_app. split_and!; [done| |apply NoDup_singleton].
    intros X HX HX'%list_elem_of_singleton. subst X. apply list_elem_of_fmap in HX as (v & Heq & Hv).
    destruct (Hr v Hv) as [Hndv _]. specialize (Hnew v Hv).
    apply not_true_iff_false in Hnew. apply Hnew, unique_equal_spec; [done|]. intros x.
    rewrite <- Hset, Heq. unfold set_of. by rewrite elem_of_list_to_set.
  - intros v [Hv| ->]%Hin; [by apply Hr|]. rewrite Hu. split; [apply hs_iter_nodup|]. exists w. intros x. by rewrite Hset.
  - intros v [Hv| ->]%Hin; [|by exists n]. destruct (Hnodes v Hv) as (n' & Hn'). exists n'.
    eapply node_ok_grow; [by eexists| |exact Hn']. by exists wa.
  - rewrite Hwa, !length_app. simpl. nia.
  - congruence.
Qed.

Lemma getOrCreateDFANode_spec s (d : NS) :
  table_inv s -> reached d ->
  exists s' t new u, getOrCreateDFANode (AS := AS) nfa0 s d = Some (s', t) /\ table_inv s' /\ grows s s' new
    /\ (uniqueNodeIdSetTable s').[t] = Some u /\ (forall x, x ∈ us_buffer u <-> x ∈ hs_iter d)
    /\ transitionRanges (cv_dfa s') = transitionRanges (cv_dfa s)
    /\ transitionDestinations (cv_dfa s') = transitionDestinations (cv_dfa s).
Proof.
  intros Hinv Hd. unfold getOrCreateDFANode. destruct (List.find _ _) as [u|] eqn:Ef.
  - apply List.find_some in Ef as [Hu%list_elem_of_In Heq]. exists s, (m_dfaNodeId u), [], u.
    pose proof Hinv as [_ Hids _ Hr _ _ _]. split; [done|]. split; [done|]. split.
    { split; rewrite ?app_nil_r; try done; exists []; by rewrite app_nil_r. }
    split; [auto|]. split; [|done]. apply unique_equal_spec; [by apply Hr|done].
  - assert (Hnew : forall u, u ∈ uniqueNodeIdSetTable s -> unique_equal u d = false).
    { intros u Hu. by apply (List.find_none _ _ Ef), list_elem_of_In. }
    assert (Hfit : vlen (uniqueNodeIdSetTable s) + 1 <= K).
    { pose proof Hinv as [_ _ Hnd Hr _ _ _]. destruct Hd as (w & Hw).
      pose proof (HK (list_to_set (hs_iter d) :: map set_of (uniqueNodeIdSetTable s))) as Hb.
      rewrite length_cons, length_map in Hb. ospecialize (Hb _ _); [| |lia].
      - constructor; [|done]. intros (v & Heq & Hv)%list_elem_of_fmap. destruct (Hr v Hv) as [Hndv _].
        specialize (Hnew v Hv). apply not_true_iff_false in Hnew. apply Hnew, unique_equal_spec; [done|]. intros x.
        rewrite set_eq in Heq. specialize (Heq x). unfold set_of in Heq. rewrite !elem_of_list_to_set in Heq. done.
      - constructor; [exists w; intros x; by rewrite elem_of_list_to_set|]. apply Forall_fmap, Forall_forall.
        intros v Hv. by apply Hr. }
    destruct (translate_spec s d Hinv Hd Hnew Hfit) as (dfa & u & -> & Hu & Hid & (n & Hn & Hok) & Ha & Hr & Hds & Hrt).
    rewrite option_bind_Some. eexists _, _, [u], u. split; [reflexivity|].
    split; [by eapply table_inv_add|]. split; [|split; [|split; [by intros x; rewrite Hu|done]]].
    + split; cbn [uniqueNodeIdSetTable unprocessedSets cv_dfa]; try done.
      * by exists [n].
      * destruct Ha as (wa & ? & _). by exists wa.
      * exists []. by rewrite app_nil_r.
      * exists []. by rewrite app_nil_r.
    + cbn [uniqueNodeIdSetTable]. rewrite Hid. apply vec_at_snoc.
Qed.

(** ** The transitions of a set *)

Lemma grows_refl s : grows s s [].
Proof. split; rewrite ?app_nil_r; try done; exists []; by rewrite app_nil_r. Qed.

Lemma grows_trans s1 s2 s3 n1 n2 : grows s1 s2 n1 -> grows s2 s3 n2 -> grows s1 s3 (n1 ++ n2).
Proof.
  intros [T1 U1 [w1 W1] [a1 A1] [r1 R1] [d1 D1]] [T2 U2 [w2 W2] [a2 A2] [r2 R2] [d2 D2]].
  split.
  - by rewrite T2, T1, (assoc_L (++)).
  - by rewrite U2, U1, rev_app_distr, (assoc_L (++)).
  - exists (w1 ++ w2). by rewrite W2, W1, (assoc_L (++)).
  - exists (a1 ++ a2). by rewrite A2, A1, (assoc_L (++)).
  - exists (r1 ++ r2). by rewrite R2, R1, (assoc_L (++)).
  - exists (d1 ++ d2). by rewrite D2, D1, (assoc_L (++)).
Qed.

Definition with_transition (s : convert_state) (r : CharRange) (t : Z) : convert_state :=
  mkConvert (append_transition (cv_dfa s) r t) (uniqueNodeIdSetTable s) (unprocessedSets s).

Lemma with_transition_inv s r t : table_inv s -> table_inv (with_transition s r t) /\ grows s (with_transition s r t) [].
Proof.
  intros [H1' H2' H3' H4' H5' H6' H7']. split; split; simpl; rewrite ?app_nil_r; try done; try (exists []; by rewrite app_nil_r); by eexists.
Qed.

(** A range of the combined list becomes a transition to the node of its set. *)
Definition leads_to_set (s : convert_state) (e : CharRange * NS) (t : Z) : Prop :=
  exists u, (uniqueNodeIdSetTable s).[t] = Some u /\ forall x, x ∈ us_buffer u <-> x ∈ hs_iter (snd e).

Lemma leads_to_set_grows s s' new e t : grows s s' new -> leads_to_set s e t -> leads_to_set s' e t.
Proof. intros Hg (u & Hu & Hx). exists u. split; [|done]. rewrite (gr_table _ _ _ Hg). by apply vec_at_app_Some. Qed.

Lemma ranges_loop_spec es : forall s,
  table_inv s -> Forall (fun e => reached (snd e)) es ->
  exists s' new tgts, ranges_loop (AS := AS) nfa0 s es = Some s' /\ table_inv s' /\ grows s s' new
    /\ transitionRanges (cv_dfa s') = transitionRanges (cv_dfa s) ++ map fst es
    /\ transitionDestinations (cv_dfa s') = transitionDestinations (cv_dfa s) ++ tgts
    /\ Forall2 (leads_to_set s') es tgts.
Proof.
  induction es as [|[r d] es IH]; intros s Hinv Hes; cbn [ranges_loop].
  { exists s, [], []. simpl. rewrite !app_nil_r. split_and!; [done|done|apply grows_refl|done|done|constructor]. }
  apply Forall_cons in Hes as [Hd Hes].
  destruct (getOrCreateDFANode_spec s d Hinv Hd) as (s1 & t & n1 & u & -> & Hinv1 & Hg1 & Hu & Hx & Hr1 & Hd1).
  rewrite option_bind_Some. fold (with_transition s1 r t).
  destruct (with_transition_inv s1 r t Hinv1) as [Hinv2 Hg2].
  destruct (IH (with_transition s1 r t) Hinv2 Hes) as (s3 & n3 & tgts & -> & Hinv3 & Hg3 & Hr3 & Hd3 & Hall).
  exists s3, (n1 ++ [] ++ n3), (t :: tgts). split; [done|]. split; [done|].
  split; [eapply grows_trans; [done|by eapply grows_trans]|]. split; [|split].
  - rewrite Hr3. simpl. by rewrite Hr1, <- (assoc_L (++)).
  - rewrite Hd3. simpl. by rewrite Hd1, <- (assoc_L (++)).
  - constructor; [|done]. eapply leads_to_set_grows; [exact Hg3|]. by exists u.
Qed.

Lemma setTransitions_spec s u n start len :
  table_inv s -> u ∈ uniqueNodeIdSetTable s -> (dfa_nodes (cv_dfa s)).[m_dfaNodeId u] = Some n -> 0 <= len < 256 ->
  exists dfa, setTransitions (cv_dfa s) (m_dfaNodeId u) start len = Some dfa
    /\ table_inv (mkConvert dfa (uniqueNodeIdSetTable s) (unprocessedSets s))
    /\ transitionRanges dfa = transitionRanges (cv_dfa s) /\ transitionDestinations dfa = transitionDestinations (cv_dfa s)
    /\ (dfa_nodes dfa).[m_dfaNodeId u] = Some (mkDFANode (m_actionsStart n) start (m_actionsLength n) len (m_flags n))
    /\ forall i, i <> m_dfaNodeId u -> (dfa_nodes dfa).[i] = (dfa_nodes (cv_dfa s)).[i].
Proof.
  intros [T1 T2 T3 T4 T5 T6 T7] Hu Hn Hl. unfold setTransitions. rewrite Hn, option_bind_Some, (uwrap_small 8) by lia.
  set (n' := mkDFANode _ _ _ _ _). destruct (vec_set (dfa_nodes (cv_dfa s)) (m_dfaNodeId u) n') as [nodes|] eqn:Hset.
  2: { rewrite vec_set_Some in Hset; [done|]. by apply vec_at_lt in Hn. }
  rewrite option_bind_Some. eexists. split; [reflexivity|]. cbn [dfa_nodes transitionRanges transitionDestinations].
  split; [|split_and!; try done; intros; rewrite (vec_at_set _ _ _ _ _ Hset); by case_decide].
  split; cbn [uniqueNodeIdSetTable cv_dfa dfa_nodes dfa_actions dfa_root]; try done.
  - by rewrite (vec_set_length _ _ _ _ Hset).
  - intros v Hv. destruct (T5 v Hv) as (nv & Hnv & Hf & Hacts'). unfold node_ok. cbn [dfa_nodes].
    rewrite (vec_at_set _ _ _ _ _ Hset). case_decide as Hid; [|by exists nv]. exists n'. split; [done|].
    rewrite <- Hid, Hn in Hnv. injection Hnv as <-. done.
Qed.

(** ** A turn of the loop *)

Record conv_inv (s : convert_state) (dn : list UniqueNodeIdSet) : Prop := {
  cv_table : table_inv s;
  cv_split : unprocessedSets s ++ dn ≡ₚ uniqueNodeIdSetTable s;
  cv_done : Forall (processed s) dn;
  cv_len : length (transitionRanges (cv_dfa s)) = length (transitionDestinations (cv_dfa s));
  cv_size : vlen (transitionRanges (cv_dfa s)) <= 128 * vlen dn;
  cv_first : exists u, (uniqueNodeIdSetTable s).[0] = Some u /\ forall x, x ∈ us_buffer u <-> leads_to nfa [] x
}.

Lemma table_NoDup s : table_inv s -> NoDup (uniqueNodeIdSetTable s).
Proof. intros [_ _ Hnd _ _ _ _]. by eapply NoDup_fmap_1. Qed.

Lemma table_lookup s t u :
  table_inv s -> (uniqueNodeIdSetTable s).[t] = Some u -> m_dfaNodeId u = t /\ u ∈ uniqueNodeIdSetTable s.
Proof.
  intros Htab Hu. assert (Hin : u ∈ uniqueNodeIdSetTable s).
  { apply vec_at_Some in Hu as [_ Hu]. by eapply list_elem_of_lookup_2. }
  split; [|done]. pose proof (ti_ids _ Htab u Hin) as Hid. pose proof (table_NoDup _ Htab) as Hnd.
  apply vec_at_Some in Hid as [? Hid], Hu as [? Hu]. pose proof (NoDup_lookup _ _ _ _ Hnd Hid Hu). lia.
Qed.

Lemma reached_buffer s u : table_inv s -> u ∈ uniqueNodeIdSetTable s ->
  exists w, forall x, x ∈ us_buffer u <-> leads_to nfa w x.
Proof.
  intros [_ _ _ Hr _ _ _] Hu. destruct (Hr u Hu) as [_ (w & Hw)]. exists w. intros x. rewrite <- Hw.
  unfold set_of. by rewrite elem_of_list_to_set.
Qed.

Lemma covers_reached u (es : list (CharRange * NS)) w :
  (forall x, x ∈ us_buffer u <-> leads_to nfa w x) -> sorted_from 0 es -> covers es (successor nfa (us_buffer u)) ->
  Forall (fun e => reached (snd e)) es.
Proof.
  intros Hw Hs Hc. rewrite Forall_forall. intros [r d] Hin. exists (w ++ [range_first r]). intros x.
  rewrite (leads_to_snoc _ _ _ _ _ Hw). specialize (Hc (range_first r)). rewrite (ts_step_first _ _ _ _ Hs Hin) in Hc.
  apply Hc.
Qed.

(** The node of the set just written. *)
Lemma written_processed s s' u n (es : list (CharRange * NS)) tgts R T :
  sorted_from 0 es -> covers es (successor nfa (us_buffer u)) -> Forall2 (leads_to_set s') es tgts ->
  (dfa_nodes (cv_dfa s)).[m_dfaNodeId u] = Some (mkDFANode (m_actionsStart n) (vlen R) (m_actionsLength n) (vlen es) (m_flags n)) ->
  transitionRanges (cv_dfa s) = R ++ map fst es -> transitionDestinations (cv_dfa s) = T ++ tgts ->
  length R = length T -> uniqueNodeIdSetTable s' = uniqueNodeIdSetTable s ->
  processed s u.
Proof.
  intros Hs Hc Hall Hn HR HT Hl Htab. pose proof (Forall2_length _ _ _ Hall) as Hlen2.
  eexists _, (List.combine (map fst es) tgts). split; [exact Hn|]. split; [|split; [by apply sorted_combine|split]].
  - unfold node_transitions. simpl. rewrite <- (length_map fst es). eapply iterator_slice; [done|done|done|].
    by rewrite length_map.
  - rewrite <- Htab. clear Hc Hs Hn HR HT Hlen2. induction Hall as [|e t es tgts (v & Hv & _) Hall IH]; constructor; eauto.
  - intros c. pose proof (ts_step_combine _ _ _ c Hall) as Hst. specialize (Hc c).
    destruct (ts_step (List.combine (map fst es) tgts) c) as [t|].
    + destruct Hst as (r & d & Hd & v & Hv & Hx). rewrite Hd in Hc. exists v. split; [by rewrite <- Htab|]. intros x.
      rewrite Hx. apply Hc.
    + by rewrite Hst in Hc.
Qed.

Lemma process_set_spec s u un dn :
  conv_inv s dn -> unprocessedSets s = u :: un ->
  exists s', process_set (NS := NS) (AS := AS) nfa0 closures s = Some s' /\ conv_inv s' (u :: dn).
Proof.
  intros [Hinv Hsp Hdn Hl Hsz Hfirst] Hun. unfold process_set. rewrite Hun. rewrite Hun in Hsp.
  assert (Hu : u ∈ uniqueNodeIdSetTable s) by (rewrite <- Hsp; by left).
  destruct (reached_buffer s u Hinv Hu) as (w & Hw).
  destruct (createCombinedTransition_spec (NS := NS) nfa closures Hwf Hlive Hkeys Hlen Hcl (us_buffer u)) as (v & es & -> & Hv & Hcov).
  { rewrite Forall_forall. intros x Hx. eapply leads_to_node; [done|done|]. by apply Hw. }
  rewrite option_bind_Some, (range_list_wf _ _ Hv), option_bind_Some. destruct Hv as [Hsort _].
  assert (Hinv0 : table_inv (mkConvert (cv_dfa s) (uniqueNodeIdSetTable s) un)) by (destruct Hinv; split; done).
  destruct (ranges_loop_spec es _ Hinv0 (covers_reached u es w Hw Hsort Hcov)) as (s1 & new & tgts & -> & Hinv1 & Hg & Hr1 & Hd1 & Hall).
  rewrite option_bind_Some. cbn [cv_dfa] in *. pose proof (sorted_length _ _ Hsort ltac:(lia)) as Hes.
  assert (Hfit : 128 * (vlen dn + 1) < 2 ^ 32).
  { pose proof (table_bound s Hinv) as Hb. apply Permutation_length in Hsp. rewrite length_app in Hsp. simpl in Hsp. lia. }
  rewrite Hr1, length_app, length_map. rewrite (u32_small (vlen (transitionRanges (cv_dfa s)))) by lia.
  rewrite (u32_small (Z.of_nat _)) by lia. rewrite (u32_small (Z.of_nat _ - _)) by lia. set (len := Z.of_nat _ - _).
  assert (len = vlen es) as -> by lia.
  assert (Hu1 : u ∈ uniqueNodeIdSetTable s1) by (rewrite (gr_table _ _ _ Hg); apply elem_of_app; by left).
  destruct (ti_nodes _ Hinv1 u Hu1) as (n & Hn & _).
  destruct (setTransitions_spec s1 u n (vlen (transitionRanges (cv_dfa s))) (vlen es) Hinv1 Hu1 Hn) as
    (dfa & -> & Hinv2 & Hr2 & Hd2 & Hn2 & Hother); [lia|].
  rewrite option_bind_Some. eexists. split; [reflexivity|]. pose proof (Forall2_length _ _ _ Hall) as Hlt.
  set (s2 := mkConvert dfa (uniqueNodeIdSetTable s1) (unprocessedSets s1)) in *. split.
  - done.
  - cbn [unprocessedSets uniqueNodeIdSetTable s2]. rewrite (gr_stack _ _ _ Hg), (gr_table _ _ _ Hg). simpl.
    rewrite <- Hsp, <- (Permutation_rev new), <- (assoc_L (++)), (comm (++) new).
    apply Permutation_app_tail. simpl. by rewrite Permutation_middle.
  - constructor.
    + eapply (written_processed s2 s1); try done.
      * cbn [cv_dfa s2]. by rewrite Hr2.
      * cbn [cv_dfa s2]. by rewrite Hd2.
    + rewrite Forall_forall in Hdn |- *. intros x Hx.
      assert (Hps : processed s1 x).
      { eapply (processed_grows (mkConvert (cv_dfa s) (uniqueNodeIdSetTable s) un)); [exact Hg|]. by apply Hdn. }
      destruct Hps as (nx & ts & Hnx & Hts & Hrest). exists nx, ts. cbn [s2 cv_dfa uniqueNodeIdSetTable]. split.
      * rewrite Hother; [done|]. intros Heq. pose proof (table_NoDup s Hinv) as Hnd. rewrite <- Hsp in Hnd.
        assert (Hxt : x ∈ uniqueNodeIdSetTable s) by (rewrite <- Hsp; by apply elem_of_app; right).
        pose proof (ti_ids _ Hinv _ Hxt) as E1. pose proof (ti_ids _ Hinv _ Hu) as E2. rewrite Heq, E2 in E1.
        injection E1 as <-. apply NoDup_cons in Hnd as [Hnin _]. apply Hnin, elem_of_app. by right.
      * split; [|done]. eapply node_transitions_grow; [| |exact Hts]; exists []; by rewrite ?Hr2, ?Hd2, app_nil_r.
  - cbn [cv_dfa s2]. rewrite Hr2, Hd2, Hr1, Hd1, !length_app, length_map. lia.
  - cbn [cv_dfa s2]. rewrite Hr2, Hr1, !length_app, length_map. simpl. lia.
  - destruct Hfirst as (u0 & Hu0 & Hx). exists u0. cbn [uniqueNodeIdSetTable s2]. rewrite (gr_table _ _ _ Hg).
    split; [by apply vec_at_app_Some|done].
Qed.

(** ** The whole loop *)

Definition finished (dfa : DFA) : Prop := exists s dn, conv_inv s dn /\ unprocessedSets s = [] /\ dfa = cv_dfa s.

Lemma convert_loop_spec s u un :
  conv_inv s [] -> unprocessedSets s = u :: un ->
  exists dfa, convert_loop (NS := NS) (AS := AS) nfa0 closures s = Some dfa /\ finished dfa.
Proof.
  intros Hinv Hun. unfold convert_loop.
  pose (I := fun (m : nat) s => exists dn u un, conv_inv s dn /\ unprocessedSets s = u :: un /\ Z.of_nat m + vlen dn = K).
  pose (Q := fun r => exists dfa, r = Some dfa /\ finished dfa).
  pose proof (repeat_pow2_spec (convert_step (NS := NS) (AS := AS) nfa0 closures) I Q) as Hrep.
  assert (Hroom : forall s dn u un, conv_inv s dn -> unprocessedSets s = u :: un -> vlen dn < K).
  { intros s0 dn u0 un0 Hi He. pose proof (table_bound _ (cv_table _ _ Hi)) as Hb. pose proof (cv_split _ _ Hi) as Hp.
    apply Permutation_length in Hp. rewrite He, length_app in Hp. simpl in Hp. lia. }
  ospecialize (Hrep _ 32%nat (Z.to_nat K) s _).
  - intros m s0 (dn & u0 & un0 & Hi & He & Hm). unfold convert_step.
    destruct (process_set_spec s0 u0 un0 dn Hi He) as (s1 & -> & Hi1).
    destruct (unprocessedSets s1) as [|u1 un1] eqn:E1.
    + exists (cv_dfa s1). split; [done|]. by exists s1, (u0 :: dn).
    + specialize (Hroom _ _ _ _ Hi He). exists (pred m). split; [lia|]. exists (u0 :: dn), u1, un1.
      split; [done|]. split; [done|]. simpl. lia.
  - exists [], u, un. specialize (Hroom _ _ _ _ Hinv Hun). split; [done|]. split; [done|]. simpl in *. lia.
  - destruct (repeat_pow2 _ 32 s) as [s'|r]; [exfalso|done]. destruct Hrep as (m' & Hm & _).
    apply (f_equal Z.of_nat) in Hm. rewrite Nat2Z.inj_add, Nat2Z.inj_pow in Hm. change (Z.of_nat 2 ^ Z.of_nat 32) with (2 ^ 32) in Hm.
    lia.
Qed.

(** The conversion after the closures are resolved. *)
Lemma convert_from_root out :
  closures.[0] = Some out ->
  exists dfa, ('(dfa, u) ← translate (AS := AS) nfa0 (mkDFA [] [] [] [] 0) (hs_add_all (hs_add (hs_empty : NS) 0) out);
               convert_loop (NS := NS) (AS := AS) nfa0 closures (mkConvert dfa [u] [u])) = Some dfa /\ finished dfa.
Proof.
  intros Hout. set (d := hs_add_all (hs_add hs_empty 0) out).
  assert (Hd : forall x, x ∈ hs_iter d <-> leads_to nfa [] x).
  { intros x. pose proof (add_closure (NS := NS) nfa closures Hlive Hkeys Hcl hs_empty 0 x) as Hadd.
    unfold nodeClosure in Hadd. rewrite Hout in Hadd. unfold leads_to. rewrite path_nil_inv. unfold d.
    rewrite Hadd by (unfold is_node; lia). pose proof (elem_of_hs_empty (T := NS) x). tauto. }
  set (s0 := mkConvert (mkDFA [] [] [] [] 0) [] []).
  assert (Hs0 : table_inv s0).
  { split; simpl; try done; try (by intros u ?%not_elem_of_nil); [by constructor|lia]. }
  assert (Hfit : vlen (uniqueNodeIdSetTable s0) + 1 <= K).
  { pose proof (HK [list_to_set (hs_iter d)]) as Hb1. simpl in *. apply Hb1; [apply NoDup_singleton|].
    constructor; [|constructor]. exists []. intros x. by rewrite elem_of_list_to_set. }
  assert (Hnew : forall u, u ∈ uniqueNodeIdSetTable s0 -> unique_equal u d = false) by (by intros u ?%not_elem_of_nil).
  assert (Hrd : reached d) by (by exists []). change (mkDFA [] [] [] [] 0) with (cv_dfa s0).
  destruct (translate_spec s0 d Hs0 Hrd Hnew Hfit) as (dfa & u & -> & Hu & Hid & (n & Hn & Hok) & Hact & Hr & Hds & Hrt).
  rewrite option_bind_Some. assert (Hs1 : table_inv (mkConvert dfa [u] [u])) by by eapply (table_inv_add s0 dfa u d n).
  apply (convert_loop_spec _ u []); [|done]. split; cbn [cv_dfa unprocessedSets uniqueNodeIdSetTable]; try done.
  - by rewrite Hr, Hds.
  - rewrite Hr. simpl. lia.
  - exists u. split; [done|]. intros x. rewrite Hu. apply Hd.
Qed.

(** ** The result *)

Lemma dfa_run_snoc dfa w c : forall i, dfa_run dfa i (w ++ [c]) = dfa_run dfa i w ≫= fun t => dfa_step dfa t c.
Proof.
  induction w as [|c' w IH]; intros i; simpl.
  - by destruct (dfa_step dfa i c).
  - destruct (dfa_step dfa i c') as [t|]; [|done]. by rewrite !option_bind_Some.
Qed.

Lemma finished_run s dn w :
  conv_inv s dn -> unprocessedSets s = [] ->
  match dfa_run (cv_dfa s) 0 w with
  | Some t => exists u, (uniqueNodeIdSetTable s).[t] = Some u /\ forall x, x ∈ us_buffer u <-> leads_to nfa w x
  | None => forall x, ~ leads_to nfa w x
  end.
Proof.
  intros Hinv Hun. pose proof Hinv as [Htab Hsp Hdn _ _ Hfirst]. rewrite Hun in Hsp. simpl in Hsp. rewrite Hsp in Hdn.
  induction w as [|c w IH] using rev_ind; [done|]. rewrite dfa_run_snoc.
  destruct (dfa_run (cv_dfa s) 0 w) as [t|]; simpl.
  - destruct IH as (u & Hu & Hx). destruct (table_lookup s t u Htab Hu) as [Hid Hin].
    rewrite Forall_forall in Hdn. destruct (Hdn u Hin) as (n & ts & Hn & Hts & _ & _ & Hc).
    rewrite Hid in Hn. unfold dfa_step. rewrite Hn, option_bind_Some, Hts, option_bind_Some. specialize (Hc c).
    destruct (ts_step ts c) as [t'|].
    + destruct Hc as (u' & Hu' & Hx'). exists u'. split; [done|]. intros x. rewrite Hx'. symmetry. by apply leads_to_snoc.
    + intros x Hl. apply (Hc x). by apply (leads_to_snoc nfa w).
  - intros x (k & k' & Hk & _)%path_snoc_inv. by apply (IH k).
Qed.

(** The DFA accepts, after every text, the actions the NFA accepts. *)
Definition same_language (dfa : DFA) : Prop :=
  forall w a, (exists t, dfa_run dfa (dfa_root dfa) w = Some t /\ dfa_accepts dfa t a)
    <-> exists j, leads_to nfa w j /\ accepts nfa j a.

Lemma finished_language dfa : finished dfa -> same_language dfa.
Proof.
  intros (s & dn & Hinv & Hun & ->) w a. rewrite (ti_root _ (cv_table _ _ Hinv)).
  pose proof (finished_run s dn w Hinv Hun) as Hrun. pose proof Hinv as [Htab _ _ _ _ _].
  assert (Hacc : forall t u, (uniqueNodeIdSetTable s).[t] = Some u -> dfa_accepts (cv_dfa s) t a <-> accepts_any (us_buffer u) a).
  { intros t u Hu. destruct (table_lookup s t u Htab Hu) as [<- Hin].
    destruct (ti_nodes _ Htab u Hin) as (n & Hn & _ & acts & Ha & Hiff).
    rewrite <- Hiff. unfold dfa_accepts. rewrite Hn. split; [|by eauto].
    intros (n' & acts' & [= <-] & Ha' & Hin'). congruence. }
  destruct (dfa_run (cv_dfa s) 0 w) as [t|].
  - destruct Hrun as (u & Hu & Hx). split.
    + intros (t' & [= <-] & Ht). apply (Hacc t u Hu) in Ht as (i & Hi & Ha). exists i. split; [by apply Hx|done].
    + intros (j & Hj & Ha). exists t. split; [done|]. apply (Hacc t u Hu). exists j. split; [by apply Hx|done].
  - split; [by intros (t & ? & _)|]. intros (j & Hj & _). by apply Hrun in Hj.
Qed.

Lemma finished_wf dfa :
  Forall (fun a => 0 <= a < 2 ^ 49) U -> finished dfa -> wf_dfa dfa /\ vlen (dfa_nodes dfa) <= K.
Proof.
  intros Hb (s & dn & Hinv & Hun & ->). pose proof Hinv as [Htab Hsp Hdn _ _ Hfirst]. rewrite Hun in Hsp. simpl in Hsp.
  rewrite Hsp in Hdn. rewrite Forall_forall in Hdn. rewrite Forall_forall in Hb. pose proof (table_bound _ Htab) as HbK.
  pose proof (fun t u => table_lookup s t u Htab) as Hnode.
  assert (Hlivet : forall t u, (uniqueNodeIdSetTable s).[t] = Some u -> live_target (cv_dfa s) t).
  { intros t u Hu. destruct (Hnode t u Hu) as [<- Hin]. destruct (ti_nodes _ Htab u Hin) as (n & Hn & Hf & _).
    exists n. split; [done|]. unfold isKilled. by rewrite Hf. }
  split; [|rewrite <- (ti_len _ Htab); lia]. split.
  - rewrite (ti_root _ Htab). destruct Hfirst as (u0 & Hu0 & _). by eapply Hlivet.
  - intros i n Hn _. destruct (vec_at_is_Some (uniqueNodeIdSetTable s) i) as [u Hu].
    { rewrite (ti_len _ Htab). by eapply vec_at_lt. }
    destruct (Hnode i u Hu) as [<- Hin]. split.
    + destruct (ti_nodes _ Htab u Hin) as (n' & Hn' & _ & acts & Ha & Hiff). rewrite Hn in Hn'. injection Hn' as <-.
      exists acts. split; [done|]. rewrite Forall_forall. intros a Hina. apply Hiff in Hina as (j & Hju & Hj).
      destruct (ti_reached _ Htab u Hin) as [_ [w Hw]]. apply Hb, (Hin_U w). exists j. split; [|done]. apply Hw. unfold set_of. by apply elem_of_list_to_set.
    + destruct (Hdn u Hin) as (n' & ts & Hn' & Hts & Hs & Hall & _). rewrite Hn in Hn'. injection Hn' as <-.
      exists ts. split; [done|]. split; [done|]. eapply Forall_impl; [exact Hall|]. intros t (u' & Hu'). by eapply Hlivet.
Qed.

Lemma finished_actions dfa i a : finished dfa -> dfa_accepts dfa i a -> a ∈ U.
Proof.
  intros (s & dn & Hinv & Hun & ->) (n & acts & Hn & Ha & Hin). pose proof Hinv as [Htab _ _ _ _ _].
  destruct (vec_at_is_Some (uniqueNodeIdSetTable s) i) as [u Hu]; [rewrite (ti_len _ Htab); by eapply vec_at_lt|].
  destruct (table_lookup s i u Htab Hu) as [<- Hu']. destruct (ti_nodes _ Htab u Hu') as (n' & Hn' & _ & acts' & Ha' & Hiff).
  rewrite Hn in Hn'. injection Hn' as <-. rewrite Ha in Ha'. injection Ha' as <-. apply Hiff in Hin as (j & Hj & Hacc).
  destruct (ti_reached _ Htab u Hu') as [_ [w Hw]]. apply (Hin_U w). exists j. split; [|done]. apply Hw. unfold set_of. by apply elem_of_list_to_set.
Qed.

Lemma finished_sizes dfa : finished dfa -> vlen (transitionRanges dfa) <= 128 * K /\ vlen (dfa_actions dfa) <= A * K.
Proof.
  intros (s & dn & Hinv & Hun & ->). pose proof Hinv as [Htab Hsp _ _ Hsize _]. rewrite Hun in Hsp. simpl in Hsp.
  pose proof (table_bound _ Htab) as HbK. apply Permutation_length in Hsp. pose proof (ti_acts _ Htab). split; nia.
Qed.
End Convert.
