(* ===== verification/ConvertClaims.v ===== *)
(** * What the conversion to a DFA guarantees

    The theorems on epsilon closures and on [NFAToDFA::convert], with a checker
    for their hypotheses and a sample NFA made through the node builder. *)

From stdpp Require Import relations gmap.
From S2P Require Import Prelude DFA RangeList RangeListCorrect HashSet NFA NFACorrect NFAToDFA SubsetCorrect ConvertCorrect.

(** ** The number of state sets *)

(** All sets of numbers below [n]. *)
Fixpoint all_sets (n : nat) : list (gset Z) :=
  match n with
  | O => [∅]
  | S n => all_sets n ++ map (fun X => {[Z.of_nat n]} ∪ X) (all_sets n)
  end.

Lemma all_sets_length n : vlen (all_sets n) = 2 ^ Z.of_nat n.
Proof.
  induction n as [|n IH]; [done|]. cbn [all_sets]. rewrite length_app, length_map, Nat2Z.inj_succ, Z.pow_succ_r by lia. lia.
Qed.

Lemma elem_of_all_sets n : forall X : gset Z, (forall x, x ∈ X -> 0 <= x < Z.of_nat n) -> X ∈ all_sets n.
Proof.
  induction n as [|n IH]; intros X HX; cbn [all_sets].
  - apply list_elem_of_singleton. apply set_eq. intros x. rewrite elem_of_empty. split; [|done].
    intros Hx. specialize (HX x Hx). lia.
  - apply elem_of_app. destruct (decide (Z.of_nat n ∈ X)) as [Hn|Hn].
    + right. apply list_elem_of_fmap. exists (X ∖ {[Z.of_nat n]}). split.
      * apply set_eq. intros x. rewrite elem_of_union, elem_of_difference, elem_of_singleton.
        destruct (decide (x = Z.of_nat n)); naive_solver.
      * apply IH. intros x [Hx Hne]%elem_of_difference. rewrite elem_of_singleton in Hne. specialize (HX x Hx). lia.
    + left. apply IH. intros x Hx. pose proof (HX x Hx). destruct (decide (x = Z.of_nat n)); [congruence|lia].
Qed.

Lemma state_sets_pow2 nfa :
  live_nfa nfa -> 0 < vlen (nfa_nodes nfa) -> state_sets_bounded nfa (2 ^ vlen (nfa_nodes nfa)).
Proof.
  intros Hlive Hroot l Hnd Hl. rewrite <- all_sets_length. apply Nat2Z.inj_le, submseteq_length, NoDup_submseteq; [done|].
  intros X HX. rewrite Forall_forall in Hl. destruct (Hl X HX) as (w & Hw). apply elem_of_all_sets. intros x Hx.
  apply Hw in Hx. by apply (leads_to_node nfa w).
Qed.

(** ** The hypotheses *)

(** The NFA is well formed and what its conversion stores fits 32 bits: [K]
    bounds the number of its state sets, [U] holds the actions it accepts. *)
Record convertible (NS AS : Type) `{HashSet NS} `{HashSet AS} (nfa : NFA) (U : list Z) (K : Z) : Prop := {
  cn_wf : wf_nfa nfa;
  cn_live : live_nfa nfa;
  cn_root : 0 < vlen (nfa_nodes nfa);
  cn_keys : vlen (nfa_nodes nfa) <= hs_bound (T := NS);
  cn_accepts : forall w a, nfa_accepts nfa w a -> a ∈ U;
  cn_akeys : Forall (hs_key (T := AS)) U;
  cn_sets : state_sets_bounded nfa K;
  cn_ranges : K * 128 < 2 ^ 32;
  cn_actions : K * vlen U < 2 ^ 32;
  cn_node_actions : vlen U <= 65535
}.

(** A check by evaluation, with the bound [2 ^ nodes]. *)
Definition nfa_node_okb (nfa : NFA) (i : Z) : bool :=
  match transitionsForNode nfa i, epsilonTargets nfa i, nodeActions nfa i with
  | Some rs, Some es, Some _ =>
      sorted_fromb 0 rs
      && forallb (fun r => forallb (fun t => (0 <=? t) && (t <? vlen (nfa_nodes nfa))) (snd r)) rs
      && forallb (fun t => (0 <=? t) && (t <? vlen (nfa_nodes nfa))) es
  | _, _, _ => false
  end.

Definition nfa_okb (nfa : NFA) : bool := forallb (nfa_node_okb nfa) (seqZ 0 (vlen (nfa_nodes nfa))).

Lemma nfa_okb_sound nfa : nfa_okb nfa = true -> wf_nfa nfa /\ live_nfa nfa.
Proof.
  intros Hok. assert (Hnode : forall i, 0 <= i < vlen (nfa_nodes nfa) -> nfa_node_okb nfa i = true).
  { intros i Hi. unfold nfa_okb in Hok. rewrite forallb_forall in Hok. apply Hok, list_elem_of_In, elem_of_seqZ. lia. }
  unfold nfa_node_okb in Hnode. split.
  - split; intros i Hi; specialize (Hnode i Hi); destruct (transitionsForNode nfa i) as [rs|]; try done;
      destruct (epsilonTargets nfa i) as [es|]; try done; destruct (nodeActions nfa i); try done.
    exists rs. bprop. split; [done|]. by apply sorted_fromb_sound.
  - intros i l j He. assert (Hi : 0 <= i < vlen (nfa_nodes nfa)).
    { destruct l as [c|]; simpl in He.
      - destruct He as (rs & ts & Hrs & _). unfold transitionsForNode in Hrs.
        destruct ((nfa_nodes nfa).[i]) eqn:E; [|done]. by apply vec_at_lt in E.
      - destruct He as (ts & Hts & _). unfold epsilonTargets in Hts.
        destruct ((nfa_nodes nfa).[i]) eqn:E; [|done]. by apply vec_at_lt in E. }
    specialize (Hnode i Hi). destruct l as [c|]; simpl in He.
    + destruct He as (rs & ts & Hrs & Hts & Hj). rewrite Hrs in Hnode. destruct (epsilonTargets nfa i); [|done].
      destruct (nodeActions nfa i); [|done]. bprop. destruct (ts_step_elem _ _ _ Hts) as (r & Hin & _).
      match goal with H : forallb (fun r => forallb _ (snd r)) rs = true |- _ => rewrite forallb_forall in H;
        specialize (H _ (proj1 (list_elem_of_In _ _) Hin)); rewrite forallb_forall in H;
        specialize (H _ (proj1 (list_elem_of_In _ _) Hj)) end. bprop. lia.
    + destruct He as (ts & Hts & Hj). rewrite Hts in Hnode. destruct (transitionsForNode nfa i); [|done].
      destruct (nodeActions nfa i); [|done]. bprop.
      match goal with H : forallb (fun t => _) ts = true |- _ => rewrite forallb_forall in H;
        specialize (H _ (proj1 (list_elem_of_In _ _) Hj)) end. bprop. lia.
Qed.

(** ** The conversion *)

(** The result, with the sizes of its vectors. *)
Lemma convertNFA_full (NS AS : Type) `{HashSetLaws NS} `{HashSetLaws AS} (nfa : NFA) (U : list Z) (K : Z) :
  convertible NS AS nfa U K ->
  exists dfa, convertNFA (NS := NS) (AS := AS) nfa = Some (dfa, without_epsilons nfa) /\ same_language nfa dfa
    /\ (Forall (fun a => 0 <= a < 2 ^ 49) U -> wf_dfa dfa /\ vlen (dfa_nodes dfa) <= K)
    /\ vlen (transitionRanges dfa) <= 128 * K /\ vlen (dfa_actions dfa) <= vlen U * K
    /\ forall i a, dfa_accepts dfa i a -> a ∈ U.
Proof.
  intros [Hwf Hlive Hroot Hkeys Hin Hak HK HK1 HK2 Ha]. unfold convertNFA.
  destruct (resolveEpsilonClosures_spec (NS := NS) nfa Hwf Hlive Hkeys) as (closures & -> & Hlen & Hcl).
  rewrite option_bind_Some. unfold nfa_root. rewrite bool_decide_eq_false_2; [|simpl; by destruct (nfa_nodes nfa)].
  rewrite option_bind_Some. unfold extendSetWithClosure. destruct (Hcl 0) as (out & Hout & _); [unfold is_node; lia|].
  rewrite Hout, option_bind_Some, option_bind_Some.
  assert (Hconv : exists dfa, ('(dfa, u) ← translate (AS := AS) (without_epsilons nfa) (mkDFA [] [] [] [] 0)
      (hs_add_all (hs_add (hs_empty : NS) 0) out);
    convert_loop (NS := NS) (AS := AS) (without_epsilons nfa) closures (mkConvert dfa [u] [u])) = Some dfa
    /\ finished nfa U dfa) by (by eapply convert_from_root).
  destruct Hconv as (dfa & Hc & Hfin). exists dfa. split; [|split; [by eapply finished_language|split; [intros Hb; by eapply finished_wf|]]].
  - destruct (translate _ _ _) as [[dfa0 u]|]; [|done]. rewrite option_bind_Some in Hc. rewrite option_bind_Some. by rewrite Hc.
  - split; [by eapply finished_sizes|]. split; [by eapply finished_sizes|]. intros i a. by eapply finished_actions.
Qed.

Lemma convertNFA_spec (NS AS : Type) `{HashSetLaws NS} `{HashSetLaws AS} (nfa : NFA) (U : list Z) (K : Z) :
  convertible NS AS nfa U K -> Forall (fun a => 0 <= a < 2 ^ 49) U ->
  exists dfa, convertNFA (NS := NS) (AS := AS) nfa = Some (dfa, without_epsilons nfa) /\ wf_dfa dfa
    /\ vlen (dfa_nodes dfa) <= K /\ same_language nfa dfa.
Proof.
  intros Hc Hb. destruct (convertNFA_full NS AS nfa U K Hc) as (dfa & He & Hl & Hwf & _). exists dfa. destruct (Hwf Hb). done.
Qed.

(** ** The theorems *)

(** C16: the closure computation of a node returns within one turn of its
    loop per node of the graph, and the nodes it returns are the ones that
    epsilon transitions reach, without the node itself and without repetition. *)
Theorem epsilonClosure_correct (NS : Type) `{HashSetLaws NS} (nfa : NFA) (i : Z) :
  wf_nfa nfa -> live_nfa nfa -> vlen (nfa_nodes nfa) <= hs_bound (T := NS) -> 0 <= i < vlen (nfa_nodes nfa) ->
  exists out, epsilonClosureExcludingSelf (NS := NS) nfa i = Some out /\ NoDup out
    /\ forall x, x ∈ out <-> rtc (eps nfa) i x /\ x <> i.
Proof.
  intros Hwf Hlive Hk Hi. destruct (epsilonClosureExcludingSelf_spec (NS := NS) nfa Hwf Hlive Hk i Hi) as (out & He & Hnd & Hx).
  apply NoDup_cons in Hnd as [Hni Hnd]. exists out. split_and!; [done|done|]. intros x. rewrite <- Hx.
  split; [intros Hin; split; [by right|congruence]|]. by intros [[->|?] ?].
Qed.

(** C17: the conversion succeeds on every convertible NFA, and the DFA it
    returns is well formed, has at most one node per state set, and accepts
    after every text exactly the actions of the NFA nodes the text leads to,
    through characters and epsilon transitions, from the root. *)
Theorem convertNFA_correct (NS AS : Type) `{HashSetLaws NS} `{HashSetLaws AS} (nfa : NFA) (U : list Z) (K : Z) :
  convertible NS AS nfa U K -> Forall (fun a => 0 <= a < 2 ^ 49) U ->
  exists dfa, convertNFA (NS := NS) (AS := AS) nfa = Some (dfa, without_epsilons nfa) /\ wf_dfa dfa
    /\ vlen (dfa_nodes dfa) <= K /\ same_language nfa dfa.
Proof. apply (convertNFA_spec NS AS nfa U K). Qed.

(** ** A sample *)

Module ConvertExample.
Import InsertionOrder.

(** "ab*" as the graph generator would build it: the root moves to node 1 on
    "a", node 1 to the accepting node 3 over node 2's loop on "b". *)
Definition sample_nfa : NFA :=
  default emptyNFA
    (foldl (fun nfa ops => nfa ← nfa; build_node OrderedSet OrderedSet nfa ops) (Some emptyNFA)
       [[Transition 97 97 1]; [Epsilon 2]; [Transition 98 98 2; Epsilon 3]; [Actions [7]]]).

Lemma sample_convertible : convertible OrderedSet OrderedSet sample_nfa [7] 16.
Proof.
  assert (Hok : nfa_okb sample_nfa = true) by by vm_compute. apply nfa_okb_sound in Hok as [Hwf Hlive].
  assert (Hn : vlen (nfa_nodes sample_nfa) = 4) by by vm_compute.
  assert (Ha : nfa_actions sample_nfa = [7]) by by vm_compute.
  apply Build_convertible; rewrite ?Hn, ?Ha.
  - exact Hwf.
  - exact Hlive.
  - lia.
  - vm_compute. congruence.
  - intros w a (j & _ & Hj). apply accepts_sub in Hj. by rewrite Ha in Hj.
  - apply List.Forall_cons; [|apply List.Forall_nil]. split; vm_compute; congruence.
  - pose proof (state_sets_pow2 sample_nfa Hlive) as Hp. rewrite Hn in Hp. apply Hp. lia.
  - lia.
  - simpl. lia.
  - simpl. lia.
Qed.

Lemma epsilonClosure_correct_witness :
  exists out, epsilonClosureExcludingSelf (NS := OrderedSet) sample_nfa 1 = Some out /\ NoDup out
    /\ forall x, x ∈ out <-> rtc (eps sample_nfa) 1 x /\ x <> 1.
Proof.
  assert (Hok : nfa_okb sample_nfa = true) by by vm_compute. apply nfa_okb_sound in Hok as [Hwf Hlive].
  apply (epsilonClosure_correct OrderedSet sample_nfa 1 Hwf Hlive).
  - vm_compute. congruence.
  - assert (Hn : vlen (nfa_nodes sample_nfa) = 4) by by vm_compute. rewrite Hn. lia.
Defined.

Lemma convertNFA_correct_witness :
  exists dfa, convertNFA (NS := OrderedSet) (AS := OrderedSet) sample_nfa = Some (dfa, without_epsilons sample_nfa)
    /\ wf_dfa dfa /\ vlen (dfa_nodes dfa) <= 16 /\ same_language sample_nfa dfa.
Proof.
  apply (convertNFA_correct OrderedSet OrderedSet sample_nfa [7] 16 sample_convertible).
  apply List.Forall_cons; [lia|apply List.Forall_nil].
Defined.

(** The DFA of the sample: three nodes, "a" enters the accepting part. *)
Example convert_sample :
  (fun r => (dfa_nodes (fst r), transitionRanges (fst r), transitionDestinations (fst r)))
  <$> convertNFA (NS := OrderedSet) (AS := OrderedSet) sample_nfa
  = Some ([mkDFANode 0 0 0 1 0; mkDFANode 0 1 1 1 0; mkDFANode 1 2 1 1 0],
          [mkCharRange 97 97; mkCharRange 98 98; mkCharRange 98 98], [1; 2; 2]).
Proof. vm_compute. reflexivity. Qed.
End ConvertExample.
