(* ===== verification/Bits.v ===== *)
(** * Counting bits (wtf/StdLibExtras.h)

    The parallel bit count of [WTF::bitCount] equals the number of bits set. *)

From Stdlib Require Import Btauto.
From S2P Require Import Prelude.

(** ** The code *)

Definition bitCount32 (bits : Z) : Z :=
  let bits := u32 (bits - Z.land (Z.shiftr bits 1) 0x55555555) in
  let bits := u32 (Z.land bits 0x33333333 + Z.land (Z.shiftr bits 2) 0x33333333) in
  Z.shiftr (u32 (Z.land (u32 (bits + Z.shiftr bits 4)) 0xF0F0F0F * 0x1010101)) 24.

Definition bitCount64 (bits : Z) : Z := bitCount32 (u32 bits) + bitCount32 (u32 (Z.shiftr bits 32)).

(** ** The specification *)

Definition bits_set (n : nat) (x : Z) : list nat := List.filter (fun i => Z.testbit x (Z.of_nat i)) (seq 0 n).
Definition popcount (n : nat) (x : Z) : Z := Z.of_nat (length (bits_set n x)).

(** ** Words as bytes *)

Lemma byte_land h l m n :
  0 <= l < 256 -> 0 <= n < 256 -> Z.land (256 * h + l) (256 * m + n) = 256 * Z.land h m + Z.land l n.
Proof.
  intros Hl Hn. set (A := 256 * h + l). set (B := 256 * m + n).
  assert (Hd : Z.land A B / 2 ^ 8 = Z.land (A / 2 ^ 8) (B / 2 ^ 8)).
  { rewrite <- !Z.shiftr_div_pow2 by lia. apply Z.shiftr_land. }
  assert (Hm : Z.land A B mod 2 ^ 8 = Z.land (A mod 2 ^ 8) (B mod 2 ^ 8)).
  { rewrite <- !Z.land_ones by lia. apply Z.bits_inj. intros i. rewrite !Z.land_spec. btauto. }
  rewrite (Z.div_mod (Z.land A B) (2 ^ 8)) by lia. rewrite Hd, Hm. unfold A, B.
  rewrite (Z.mul_comm 256 h), (Z.mul_comm 256 m). change (2 ^ 8) with 256.
  rewrite !Z.div_add_l, !(Z.div_small _ 256), !Z.add_0_r by lia.
  rewrite (Z.add_comm (h * 256)), (Z.add_comm (m * 256)), !Z_mod_plus_full, !Z.mod_small by lia. lia.
Qed.

(** A property of the 256 bytes can be checked by evaluation. *)
Lemma byte_forall (P : Z -> bool) : forallb P (seqZ 0 256) = true -> forall b, 0 <= b < 256 -> P b = true.
Proof. intros HP b Hb. rewrite forallb_forall in HP. apply HP, list_elem_of_In, elem_of_seqZ. lia. Qed.

Definition step1 (b : Z) : Z := b - Z.land (Z.shiftr b 1) 0x55.
Definition step2 (b : Z) : Z := Z.land b 0x33 + Z.land (Z.shiftr b 2) 0x33.
Definition nibbles (b : Z) : Z := b mod 16 + b / 16.

Definition byte_okb (b : Z) : bool :=
  let s1 := step1 b in
  let s2 := step2 s1 in
  (0 <=? Z.land (Z.shiftr b 1) 0x55) && (Z.land (Z.shiftr b 1) 0x55 <=? b)
  && (0 <=? s1) && (s1 <? 256) && (0 <=? s2) && (s2 <? 256) && (s2 mod 16 <=? 4) && (s2 / 16 <=? 4)
  && (nibbles s2 =? popcount 8 b).

Lemma byte_ok b : 0 <= b < 256 -> byte_okb b = true.
Proof. apply (byte_forall byte_okb). by vm_compute. Qed.

(** A byte of a shifted word holds low bits of the byte above; the masks drop them. *)
Definition drops (k n : Z) : Prop := k = 1 /\ n = 0x55 \/ k = 2 /\ n = 0x33.

Lemma byte_shift_land k n r l :
  drops k n -> 0 <= l < 256 -> 0 <= r < 2 ^ k -> Z.land (r * 2 ^ (8 - k) + l / 2 ^ k) n = Z.land (Z.shiftr l k) n.
Proof.
  intros Hk Hl Hr. rewrite Z.shiftr_div_pow2 by (destruct Hk as [[-> _]|[-> _]]; lia). apply Z.eqb_eq.
  destruct Hk as [[-> ->]|[-> ->]].
  - apply (byte_forall (fun l => forallb (fun r => Z.land (r * 2 ^ (8 - 1) + l / 2 ^ 1) 85 =? Z.land (l / 2 ^ 1) 85) [0; 1])) in Hl;
      [|by vm_compute]. rewrite forallb_forall in Hl. apply Hl. simpl. assert (r = 0 \/ r = 1) by lia. naive_solver.
  - apply (byte_forall (fun l => forallb (fun r => Z.land (r * 2 ^ (8 - 2) + l / 2 ^ 2) 51 =? Z.land (l / 2 ^ 2) 51) [0; 1; 2; 3])) in Hl;
      [|by vm_compute]. rewrite forallb_forall in Hl. apply Hl. simpl. assert (r = 0 \/ r = 1 \/ r = 2 \/ r = 3) by lia. naive_solver.
Qed.

Lemma byte_shift k h l :
  0 <= k <= 8 -> (256 * h + l) / 2 ^ k = 256 * (h / 2 ^ k) + (h mod 2 ^ k * 2 ^ (8 - k) + l / 2 ^ k).
Proof.
  intros Hk. assert (Hp : 0 < 2 ^ k) by (apply Z.pow_pos_nonneg; lia).
  assert (H256 : 256 = 2 ^ k * 2 ^ (8 - k)) by (rewrite <- Z.pow_add_r by lia; by replace (k + (8 - k)) with 8 by lia).
  replace (256 * h + l) with (2 ^ (8 - k) * h * 2 ^ k + l) by (rewrite H256; ring).
  rewrite Z.div_add_l by lia. rewrite (Z.div_mod h (2 ^ k)) at 1 by lia. rewrite H256 at 1. ring.
Qed.

Lemma byte_mask k n h l M :
  drops k n -> 0 <= l < 256 -> 0 <= h ->
  Z.land (Z.shiftr (256 * h + l) k) (256 * M + n) = 256 * Z.land (Z.shiftr h k) M + Z.land (Z.shiftr l k) n.
Proof.
  intros Hk Hl Hh. assert (Hk' : 0 < k <= 2 /\ 0 <= n < 256) by (destruct Hk as [[-> ->]|[-> ->]]; lia).
  assert (Hr : 0 <= h mod 2 ^ k < 2 ^ k) by (apply Z.mod_pos_bound, Z.pow_pos_nonneg; lia).
  rewrite !Z.shiftr_div_pow2, byte_shift by lia.
  rewrite byte_land; [|destruct Hk as [[-> _]|[-> _]]|lia].
  - f_equal. rewrite byte_shift_land by done. by rewrite Z.shiftr_div_pow2 by lia.
  - change (2 ^ (8 - 1)) with 128. change (2 ^ 1) with 2 in *. Z.to_euclidean_division_equations. lia.
  - change (2 ^ (8 - 2)) with 64. change (2 ^ 2) with 4 in *. Z.to_euclidean_division_equations. lia.
Qed.

(** ** The three steps on four bytes *)

Definition word (a b c d : Z) : Z := 256 * (256 * (256 * d + c) + b) + a.

Definition is_byte (x : Z) : Prop := 0 <= x < 256.

Lemma word_bytes x : 0 <= x < 2 ^ 32 ->
  exists a b c d, x = word a b c d /\ is_byte a /\ is_byte b /\ is_byte c /\ is_byte d.
Proof.
  intros Hx. exists (x mod 256), (x / 256 mod 256), (x / 256 / 256 mod 256), (x / 256 / 256 / 256). unfold word, is_byte.
  pose proof (Z.div_mod x 256). pose proof (Z.div_mod (x / 256) 256). pose proof (Z.div_mod (x / 256 / 256) 256).
  pose proof (Z.mod_pos_bound x 256). pose proof (Z.mod_pos_bound (x / 256) 256). pose proof (Z.mod_pos_bound (x / 256 / 256) 256).
  lia.
Qed.

Lemma word_shift_mask k n a b c d :
  drops k n -> is_byte a -> is_byte b -> is_byte c -> is_byte d ->
  Z.land (Z.shiftr (word a b c d) k) (word n n n n)
  = word (Z.land (Z.shiftr a k) n) (Z.land (Z.shiftr b k) n) (Z.land (Z.shiftr c k) n) (Z.land (Z.shiftr d k) n).
Proof. unfold is_byte, word. intros. rewrite !byte_mask by (done || lia). done. Qed.

Lemma word_mask n a b c d :
  is_byte n -> is_byte a -> is_byte b -> is_byte c -> is_byte d ->
  Z.land (word a b c d) (word n n n n) = word (Z.land a n) (Z.land b n) (Z.land c n) (Z.land d n).
Proof. unfold is_byte, word. intros. rewrite !byte_land by (done || lia). done. Qed.

Lemma word_small a b c d : is_byte a -> is_byte b -> is_byte c -> is_byte d -> u32 (word a b c d) = word a b c d.
Proof. unfold is_byte, word. intros. apply u32_small. lia. Qed.

Lemma word_step1 a b c d :
  is_byte a -> is_byte b -> is_byte c -> is_byte d ->
  u32 (word a b c d - Z.land (Z.shiftr (word a b c d) 1) 0x55555555) = word (step1 a) (step1 b) (step1 c) (step1 d).
Proof.
  intros Ha Hb Hc Hd. change 0x55555555 with (word 0x55 0x55 0x55 0x55). rewrite word_shift_mask by (done || by left).
  replace (word a b c d - _) with (word (step1 a) (step1 b) (step1 c) (step1 d)) by (unfold word, step1; ring).
  pose proof (byte_ok a Ha) as Oa. pose proof (byte_ok b Hb) as Ob. pose proof (byte_ok c Hc) as Oc. pose proof (byte_ok d Hd) as Od.
  unfold byte_okb in *. bprop. apply word_small; unfold is_byte; lia.
Qed.

Lemma word_step2 a b c d :
  is_byte a -> is_byte b -> is_byte c -> is_byte d ->
  is_byte (step2 a) -> is_byte (step2 b) -> is_byte (step2 c) -> is_byte (step2 d) ->
  u32 (Z.land (word a b c d) 0x33333333 + Z.land (Z.shiftr (word a b c d) 2) 0x33333333)
  = word (step2 a) (step2 b) (step2 c) (step2 d).
Proof.
  intros. change 0x33333333 with (word 0x33 0x33 0x33 0x33). rewrite word_shift_mask by (done || by right).
  rewrite word_mask by (done || (unfold is_byte; lia)).
  match goal with |- u32 ?x = _ => replace x with (word (step2 a) (step2 b) (step2 c) (step2 d)) by (unfold word, step2; ring) end.
  by apply word_small.
Qed.

(** A byte of two numbers below five. *)
Definition pair_byte (x : Z) : Prop := is_byte x /\ x mod 16 <= 4 /\ x / 16 <= 4.

Lemma nibble_mask h l M s :
  0 <= h -> pair_byte l -> 0 <= s <= 4 ->
  Z.land (256 * h + (16 * s + (l + l / 16))) (256 * M + 15) = 256 * Z.land h M + nibbles l.
Proof.
  intros Hh (Hl & Hm & Hd) Hs. unfold is_byte in Hl. pose proof (Z.div_mod l 16). pose proof (Z.mod_pos_bound l 16).
  pose proof (Z.div_pos l 16). rewrite byte_land by lia. f_equal. change 15 with (Z.ones 4). rewrite Z.land_ones by lia.
  unfold nibbles. change (2 ^ 4) with 16. symmetry. apply (Z.mod_unique _ _ (s + l / 16)); lia.
Qed.

Lemma word_step3 a b c d :
  pair_byte a -> pair_byte b -> pair_byte c -> pair_byte d ->
  Z.land (u32 (word a b c d + Z.shiftr (word a b c d) 4)) 0xF0F0F0F = word (nibbles a) (nibbles b) (nibbles c) (nibbles d).
Proof.
  intros Ha Hb Hc Hd. pose proof Ha as (Ha1 & Ha2 & Ha3). pose proof Hb as (Hb1 & Hb2 & Hb3).
  pose proof Hc as (Hc1 & Hc2 & Hc3). pose proof Hd as (Hd1 & Hd2 & Hd3). unfold is_byte in *.
  pose proof (Z.mod_pos_bound b 16). pose proof (Z.mod_pos_bound c 16). pose proof (Z.mod_pos_bound d 16).
  pose proof (Z.div_pos a 16). pose proof (Z.div_pos b 16). pose proof (Z.div_pos c 16). pose proof (Z.div_pos d 16).
  pose proof (Z.div_mod a 16). pose proof (Z.div_mod b 16). pose proof (Z.div_mod c 16). pose proof (Z.div_mod d 16).
  rewrite Z.shiftr_div_pow2 by lia. unfold word at 2. rewrite !byte_shift by lia. change (2 ^ (8 - 4)) with 16. change (2 ^ 4) with 16.
  set (hb := (256 * (256 * d + c) + b) mod 16). assert (hb = b mod 16) as ->.
  { unfold hb. replace (256 * (256 * d + c) + b) with (b + (16 * (256 * d + c)) * 16) by ring. apply Z_mod_plus_full. }
  set (hc := (256 * d + c) mod 16). assert (hc = c mod 16) as ->.
  { unfold hc. replace (256 * d + c) with (c + (16 * d) * 16) by ring. apply Z_mod_plus_full. }
  match goal with |- Z.land (u32 ?x) _ = _ => replace x with
    (256 * (256 * (256 * (16 * 0 + (d + d / 16)) + (16 * (d mod 16) + (c + c / 16))) + (16 * (c mod 16) + (b + b / 16)))
     + (16 * (b mod 16) + (a + a / 16))) by (unfold word; ring) end.
  rewrite u32_small by lia. change 0xF0F0F0F with (256 * (256 * (256 * 15 + 15) + 15) + 15).
  rewrite !nibble_mask by (done || lia). pose proof (nibble_mask 0 d 0 0 ltac:(lia) Hd ltac:(lia)) as Hlast.
  rewrite Z.mul_0_r, !Z.add_0_l in Hlast. rewrite Z.mul_0_r, Z.add_0_l, Hlast. unfold word. simpl. done.
Qed.

Lemma word_sum a b c d :
  0 <= a <= 8 -> 0 <= b <= 8 -> 0 <= c <= 8 -> 0 <= d <= 8 -> Z.shiftr (u32 (word a b c d * 0x1010101)) 24 = a + b + c + d.
Proof.
  intros. unfold uwrap.
  rewrite <- (Z.mod_unique (word a b c d * 0x1010101) (2 ^ 32) ((b + c + d) + 256 * (c + d) + 65536 * d)
    (2 ^ 24 * (a + b + c + d) + 2 ^ 16 * (a + b + c) + 2 ^ 8 * (a + b) + a)) by (unfold word; lia).
  rewrite Z.shiftr_div_pow2 by lia. symmetry. apply (Z.div_unique _ _ _ (2 ^ 16 * (a + b + c) + 2 ^ 8 * (a + b) + a)); lia.
Qed.

Lemma step2_pair x : is_byte x -> pair_byte (step2 (step1 x)) /\ is_byte (step1 x).
Proof. intros Hx. pose proof (byte_ok x Hx) as Hok. unfold byte_okb in Hok. bprop. unfold pair_byte, is_byte. lia. Qed.

Lemma byte_popcount x : is_byte x -> nibbles (step2 (step1 x)) = popcount 8 x.
Proof. intros Hx. pose proof (byte_ok x Hx) as Hok. unfold byte_okb in Hok. bprop. done. Qed.

Lemma popcount_bound n x : 0 <= popcount n x <= Z.of_nat n.
Proof.
  unfold popcount, bits_set. pose proof (List.filter_length_le (fun i => Z.testbit x (Z.of_nat i)) (seq 0 n)) as Hl.
  rewrite length_seq in Hl. lia.
Qed.

(** ** Counting by bytes *)

Lemma testbit_low h l i : 0 <= i < 8 -> Z.testbit (256 * h + l) i = Z.testbit l i.
Proof.
  intros Hi. rewrite <- (Z.mod_pow2_bits_low (256 * h + l) 8), <- (Z.mod_pow2_bits_low l 8) by lia. f_equal.
  change (2 ^ 8) with 256. rewrite Z.add_comm, Z.mul_comm. apply Z_mod_plus_full.
Qed.

Lemma testbit_high h l i : 0 <= l < 256 -> 0 <= i -> Z.testbit (256 * h + l) (8 + i) = Z.testbit h i.
Proof.
  intros Hl Hi. rewrite (Z.add_comm 8), <- Z.div_pow2_bits by lia. f_equal. change (2 ^ 8) with 256.
  rewrite Z.mul_comm, Z.div_add_l, Z.div_small by lia. lia.
Qed.

Lemma filter_seq_shift f k n : forall j,
  length (List.filter f (seq (k + j) n)) = length (List.filter (fun i => f (k + i)%nat) (seq j n)).
Proof.
  induction n as [|n IH]; intros j; [done|]. simpl. rewrite <- Nat.add_succ_r, <- (Nat.add_0_r (S j)).
  specialize (IH (S j)). rewrite Nat.add_0_r. destruct (f (k + j)%nat); simpl; by rewrite IH.
Qed.

Lemma popcount_byte n h l : is_byte l -> popcount (8 + n) (256 * h + l) = popcount 8 l + popcount n h.
Proof.
  intros Hl. unfold popcount, bits_set. rewrite seq_app, List.filter_app, length_app, Nat2Z.inj_add. f_equal; f_equal.
  - f_equal. apply List.filter_ext_in. intros i Hi%list_elem_of_In%elem_of_seq. apply testbit_low. lia.
  - rewrite (filter_seq_shift _ 8 n 0). f_equal. apply List.filter_ext_in. intros i _.
    rewrite Nat2Z.inj_add. apply testbit_high; [done|lia].
Qed.

Lemma bitCount32_spec x : 0 <= x < 2 ^ 32 -> bitCount32 x = popcount 32 x.
Proof.
  intros Hx. destruct (word_bytes x Hx) as (a & b & c & d & -> & Ha & Hb & Hc & Hd).
  destruct (step2_pair a Ha) as [Pa Sa], (step2_pair b Hb) as [Pb Sb], (step2_pair c Hc) as [Pc Sc], (step2_pair d Hd) as [Pd Sd].
  unfold bitCount32. rewrite word_step1, word_step2 by (done || apply Pa || apply Pb || apply Pc || apply Pd).
  rewrite word_step3, !byte_popcount by done. pose proof (popcount_bound 8). rewrite word_sum by done.
  unfold word. change 32%nat with (8 + (8 + (8 + 8)))%nat. rewrite !popcount_byte by done. lia.
Qed.

(** A word is its two halves. *)
Lemma popcount_halves x : popcount 64 x = popcount 32 (u32 x) + popcount 32 (u32 (Z.shiftr x 32)).
Proof.
  unfold popcount, bits_set. change 64%nat with (32 + 32)%nat. rewrite seq_app, List.filter_app, length_app, Nat2Z.inj_add.
  f_equal; f_equal.
  - f_equal. apply List.filter_ext_in. intros i Hi%list_elem_of_In%elem_of_seq. unfold uwrap.
    by rewrite Z.mod_pow2_bits_low by lia.
  - rewrite (filter_seq_shift _ 32 32 0). f_equal. apply List.filter_ext_in. intros i Hi%list_elem_of_In%elem_of_seq.
    unfold uwrap. rewrite Z.mod_pow2_bits_low, Z.shiftr_spec by lia. f_equal. lia.
Qed.

Lemma bitCount64_spec x : bitCount64 x = popcount 64 x.
Proof.
  unfold bitCount64. pose proof (uwrap_range 32). rewrite !bitCount32_spec by (apply uwrap_range; lia).
  by rewrite popcount_halves.
Qed.

(** Joining two fields. *)
Lemma lor_add a b k : 0 <= k -> 0 <= b < 2 ^ k -> Z.lor (Z.shiftl a k) b = a * 2 ^ k + b.
Proof.
  intros Hk Hb. rewrite <- Z.add_nocarry_lor; [by rewrite Z.shiftl_mul_pow2|]. apply Z.bits_inj_0. intros i. rewrite Z.land_spec.
  destruct (decide (i < k)) as [Hi|Hi].
  - destruct (decide (0 <= i)); [by rewrite Z.shiftl_spec_low|]. by rewrite Z.testbit_neg_r by lia.
  - destruct (decide (b = 0)) as [->|]; [by rewrite Z.testbit_0_l, andb_false_r|]. rewrite (Z.bits_above_log2 b i), andb_false_r; [done|lia|]. apply Z.log2_lt_pow2; [lia|]. eapply Z.lt_le_trans; [apply Hb|]. apply Z.pow_le_mono_r; lia.
Qed.
