(* ===== verification/Term.v ===== *)
(** * Terms of a URL filter (Term.h)

    A term is a character set or a group of terms, with a quantifier.  It is
    turned into a piece of NFA between a source node, whose builder is passed
    in, and a destination node. *)

From S2P Require Import Prelude Bits DFA RangeList HashSet NFA.

(** ** Data *)

Inductive AtomQuantifier := One | ZeroOrOne | ZeroOrMore | OneOrMore.

#[export] Instance AtomQuantifier_eq_dec : EqDecision AtomQuantifier.
Proof. solve_decision. Defined.

(** The code of an [enum class] value. *)
Definition quantifier_code (q : AtomQuantifier) : Z :=
  match q with One => 0 | ZeroOrOne => 1 | ZeroOrMore => 2 | OneOrMore => 3 end.

(** A character set: 128 bits in two 64-bit words. *)
Record CharacterSet := mkCharacterSet { m_inverted : bool; m_characters0 : Z; m_characters1 : Z }.

#[export] Instance CharacterSet_eq_dec : EqDecision CharacterSet.
Proof. solve_decision. Defined.

Inductive Term :=
| EmptyTerm (m_quantifier : AtomQuantifier)
| CharacterSetTerm (m_quantifier : AtomQuantifier) (characterSet : CharacterSet)
| GroupTerm (m_quantifier : AtomQuantifier) (terms : list Term).

(** ** Character sets *)

Definition emptyCharacterSet : CharacterSet := mkCharacterSet false 0 0.

(** [set] and [get] assert that the character is ASCII. *)
Definition cs_set (cs : CharacterSet) (character : Z) : option CharacterSet :=
  if (0 <=? character) && (character <? 128) then
    Some (if character / 64 =? 0
          then mkCharacterSet (m_inverted cs) (Z.lor (m_characters0 cs) (Z.shiftl 1 (character mod 64))) (m_characters1 cs)
          else mkCharacterSet (m_inverted cs) (m_characters0 cs) (Z.lor (m_characters1 cs) (Z.shiftl 1 (character mod 64))))
  else None.

Definition cs_get (cs : CharacterSet) (character : Z) : option bool :=
  if (0 <=? character) && (character <? 128) then
    Some (negb (Z.land (if character / 64 =? 0 then m_characters0 cs else m_characters1 cs)
                  (Z.shiftl 1 (character mod 64)) =? 0))
  else None.

Definition cs_invert (cs : CharacterSet) : CharacterSet := mkCharacterSet true (m_characters0 cs) (m_characters1 cs).

Definition cs_bitCount (cs : CharacterSet) : Z := bitCount64 (m_characters0 cs) + bitCount64 (m_characters1 cs).

Definition cs_equal (cs other : CharacterSet) : bool :=
  eqb (m_inverted other) (m_inverted cs) && (m_characters0 other =? m_characters0 cs)
  && (m_characters1 other =? m_characters1 cs).

(** ** Constructors and mutators *)

Definition m_quantifier (t : Term) : AtomQuantifier :=
  match t with EmptyTerm q | CharacterSetTerm q _ | GroupTerm q _ => q end.

Definition isValid (t : Term) : bool := match t with EmptyTerm _ => false | _ => true end.

Definition addCharacter (t : Term) (character : Z) (isCaseSensitive : bool) : option Term :=
  match t with
  | CharacterSetTerm q cs =>
      if isCaseSensitive || negb (isASCIIAlpha character)
      then cs ← cs_set cs character; Some (CharacterSetTerm q cs)
      else cs ← cs_set cs (toASCIIUpper character);
           cs ← cs_set cs (toASCIILower character);
           Some (CharacterSetTerm q cs)
  | _ => Some t
  end.

Definition characterTerm (character : Z) (isCaseSensitive : bool) : option Term :=
  addCharacter (CharacterSetTerm One emptyCharacterSet) character isCaseSensitive.

Definition universalTransition : option Term :=
  cs ← foldl (fun cs i => cs ← cs; cs_set cs i) (Some emptyCharacterSet) (seqZ 1 127);
  Some (CharacterSetTerm One cs).

Definition characterSetTerm (isInverted : bool) : Term :=
  CharacterSetTerm One (if isInverted then cs_invert emptyCharacterSet else emptyCharacterSet).

Definition groupTerm : Term := GroupTerm One [].

Definition endOfLineAssertionTerm : option Term :=
  cs ← cs_set emptyCharacterSet 0;
  Some (CharacterSetTerm One cs).

Definition extendGroupSubpattern (t term : Term) : Term :=
  match t with
  | GroupTerm q terms => GroupTerm q (terms ++ [term])
  | _ => t
  end.

Definition quantify (t : Term) (quantifier : AtomQuantifier) : Term :=
  match t with
  | EmptyTerm _ => EmptyTerm quantifier
  | CharacterSetTerm _ cs => CharacterSetTerm quantifier cs
  | GroupTerm _ terms => GroupTerm quantifier terms
  end.

(** ** Queries

    The loops over the terms of a group take the recursive call as an
    argument. *)

Definition isEndOfLineAssertion (t : Term) : bool :=
  match t with
  | CharacterSetTerm _ cs => (cs_bitCount cs =? 1) && default false (cs_get cs 0)
  | _ => false
  end.

Fixpoint matchesAtLeastOneCharacter (t : Term) : bool :=
  match m_quantifier t with
  | ZeroOrOne | ZeroOrMore => false
  | _ =>
      if isEndOfLineAssertion t then false
      else match t with
           | GroupTerm _ terms => existsb matchesAtLeastOneCharacter terms
           | _ => true
           end
  end.

Fixpoint isUniversalTransition (t : Term) : bool :=
  match t with
  | EmptyTerm _ => false
  | CharacterSetTerm _ cs =>
      (m_inverted cs && (cs_bitCount cs =? 0))
      || (negb (m_inverted cs) && (cs_bitCount cs =? 127) && negb (default false (cs_get cs 0)))
  | GroupTerm _ terms => match terms with [t] => isUniversalTransition t | _ => false end
  end.

Fixpoint isKnownToMatchAnyString (t : Term) : bool :=
  match t with
  | EmptyTerm _ => false
  | CharacterSetTerm q cs => isUniversalTransition t && bool_decide (q = ZeroOrMore)
  | GroupTerm q terms =>
      match terms with
      | [firstTermInGroup] =>
          if isKnownToMatchAnyString firstTermInGroup then true
          else if isUniversalTransition firstTermInGroup then
            if decide (q = ZeroOrMore) then true
            else if decide (q = ZeroOrOne /\ m_quantifier firstTermInGroup = OneOrMore) then true
            else if decide (q = OneOrMore /\ m_quantifier firstTermInGroup = ZeroOrOne) then true
            else false
          else false
      | _ => false
      end
  end.

Fixpoint hasFixedLength (t : Term) : bool :=
  match t with
  | EmptyTerm _ => false
  | CharacterSetTerm q _ => bool_decide (q = One)
  | GroupTerm q terms => if decide (q = One) then forallb hasFixedLength terms else false
  end.

(** [operator==], for the prefix tree. *)
Fixpoint term_equal (t other : Term) : bool :=
  match t, other with
  | EmptyTerm q, EmptyTerm q' => bool_decide (q' = q)
  | CharacterSetTerm q cs, CharacterSetTerm q' cs' => bool_decide (q' = q) && cs_equal cs cs'
  | GroupTerm q terms, GroupTerm q' terms' =>
      bool_decide (q' = q) &&
      (fix vectors_equal (a b : list Term) : bool :=
         match a, b with
         | [], [] => true
         | x :: a, y :: b => term_equal x y && vectors_equal a b
         | _, _ => false
         end) terms terms'
  | _, _ => false
  end.

(** ** The graph of a term *)

Section Graph.
Context {NS AS : Type} `{HashSet NS} `{HashSet AS}.
Abbreviation builder := (NodeBuilder NS AS).

(** What draws a graph from a source to a destination. *)
Definition generator : Type := NFA -> builder -> Z -> option (NFA * builder).

(** [while (i < 128 && p(i)) ++i]. *)
Fixpoint skip_while (fuel : nat) (p : Z -> bool) (i : Z) : Z :=
  match fuel with
  | O => i
  | S fuel => if (i <? 128) && p i then skip_while fuel p (i + 1) else i
  end.

(** The [while (true)] over the runs of characters in the set. *)
Fixpoint runs_loop (fuel : nat) (in_set : Z -> bool) (i : Z) (source : builder) (destination : Z) : option builder :=
  match fuel with
  | O => None
  | S fuel =>
      let i := skip_while 128 (fun i => negb (in_set i)) i in
      if i =? 128 then Some source else
      let start := i in
      let i := skip_while 128 in_set (i + 1) in
      source ← addTransition source start (i - 1) destination;
      runs_loop fuel in_set i source destination
  end.

Definition generateCharacterSet (cs : CharacterSet) (source : builder) (destination : Z) : option builder :=
  if negb (m_inverted cs)
  then runs_loop 129 (fun i => default false (cs_get cs i)) 0 source destination
  else runs_loop 129 (fun i => negb (default false (cs_get cs i))) 1 source destination.

(** [generateGraph(NFA&, source, destination)] for an atom with a quantifier.
    The builders of the repeated part are destroyed at the end of its scope,
    the last one first. *)
Definition repeated (atom : generator) (nfa : NFA) (source : builder) (destination : Z) (optional : bool)
    : option (NFA * builder) :=
  let '(nfa, repeatStart) := newBuilder (NS := NS) (AS := AS) nfa in
  let source := addEpsilonTransition source (m_nodeId repeatStart) in
  let '(nfa, repeatEnd) := newBuilder (NS := NS) (AS := AS) nfa in
  '(nfa, repeatStart) ← atom nfa repeatStart (m_nodeId repeatEnd);
  let repeatEnd := addEpsilonTransition repeatEnd (m_nodeId repeatStart) in
  let repeatEnd := addEpsilonTransition repeatEnd destination in
  let source := if optional then addEpsilonTransition source destination else source in
  nfa ← destroyBuilder nfa repeatEnd;
  nfa ← destroyBuilder nfa repeatStart;
  Some (nfa, source).

Definition quantified (atom : generator) (q : AtomQuantifier) : generator :=
  fun nfa source destination =>
  match q with
  | One => atom nfa source destination
  | ZeroOrOne =>
      '(nfa, source) ← atom nfa source destination;
      Some (nfa, addEpsilonTransition source destination)
  | ZeroOrMore => repeated atom nfa source destination true
  | OneOrMore => repeated atom nfa source destination false
  end.

(** [generateGraph(NFA&, source, finalActions)]: to a new node, whose builder
    is returned. *)
Definition to_new_end (g : generator) (nfa : NFA) (source : builder) (finalActions : list Z)
    : option (NFA * builder * builder) :=
  let '(nfa, newEnd) := newBuilder (NS := NS) (AS := AS) nfa in
  '(nfa, source) ← g nfa source (m_nodeId newEnd);
  Some (nfa, source, setActions newEnd finalActions).

(** The terms of a group after its first one, from [lastTarget]. *)
Fixpoint chain_terms (gs : list generator) (nfa : NFA) (lastTarget : builder) (destination : Z) : option NFA :=
  match gs with
  | [] => None
  | [g] =>
      '(nfa, lastTarget) ← g nfa lastTarget destination;
      destroyBuilder nfa lastTarget
  | g :: gs =>
      '(nfa, lastTarget, newNode) ← to_new_end g nfa lastTarget [];
      '(nfa, lastTarget) ← moveAssign nfa lastTarget newNode;
      chain_terms gs nfa lastTarget destination
  end.

Definition generateGroup (gs : list generator) : generator :=
  fun nfa source destination =>
  match gs with
  | [] => Some (nfa, addEpsilonTransition source destination)
  | [g] => g nfa source destination
  | g :: gs =>
      '(nfa, source, lastTarget) ← to_new_end g nfa source [];
      nfa ← chain_terms gs nfa lastTarget destination;
      Some (nfa, source)
  end.

Fixpoint generateSubgraphForAtom (t : Term) : generator :=
  match t with
  | EmptyTerm _ => fun nfa source destination => Some (nfa, addEpsilonTransition source destination)
  | CharacterSetTerm _ cs =>
      fun nfa source destination =>
      source ← generateCharacterSet cs source destination;
      Some (nfa, source)
  | GroupTerm _ terms =>
      generateGroup (map (fun t => quantified (generateSubgraphForAtom t) (m_quantifier t)) terms)
  end.

Definition generateGraph (t : Term) : generator := quantified (generateSubgraphForAtom t) (m_quantifier t).

Definition generateGraphWithActions (t : Term) (nfa : NFA) (source : builder) (finalActions : list Z)
    : option (NFA * builder * builder) :=
  to_new_end (generateGraph t) nfa source finalActions.
End Graph.

Arguments generator : clear implicits.
