(* ===== verification/TermLanguage.v ===== *)
(** * What a term matches

    The reference semantics of terms, as sets of texts, and the soundness of
    the questions the compiler asks about a term. *)

From S2P Require Import Prelude Bits DFA RangeList HashSet NFA Term.

(** ** Languages *)

Definition lang : Type := list Z -> Prop.

Definition lang_eps : lang := fun w => w = [].
Definition lang_app (L1 L2 : lang) : lang := fun w => exists u v, w = u ++ v /\ L1 u /\ L2 v.

Inductive lang_star (L : lang) : lang :=
| star_nil : lang_star L []
| star_app u v : L u -> lang_star L v -> lang_star L (u ++ v).

Definition lang_plus (L : lang) : lang := lang_app L (lang_star L).

Definition lang_quantified (q : AtomQuantifier) (L : lang) : lang := fun w =>
  match q with
  | One => L w
  | ZeroOrOne => L w \/ w = []
  | ZeroOrMore => lang_star L w
  | OneOrMore => lang_plus L w
  end.

Fixpoint lang_sequence (Ls : list lang) : lang :=
  match Ls with
  | [] => lang_eps
  | L :: Ls => lang_app L (lang_sequence Ls)
  end.

(** ** Terms

    The terminator of a URL is the character zero; an inverted set never
    contains it. *)

Definition cs_bit (cs : CharacterSet) (c : Z) : bool :=
  Z.testbit (if c / 64 =? 0 then m_characters0 cs else m_characters1 cs) (c mod 64).

Definition cs_matches (cs : CharacterSet) (c : Z) : Prop :=
  if m_inverted cs then 1 <= c < 128 /\ cs_bit cs c = false else 0 <= c < 128 /\ cs_bit cs c = true.

Fixpoint atom_lang (t : Term) : lang :=
  match t with
  | EmptyTerm _ => lang_eps
  | CharacterSetTerm _ cs => fun w => exists c, w = [c] /\ cs_matches cs c
  | GroupTerm _ terms => lang_sequence (map (fun t => lang_quantified (m_quantifier t) (atom_lang t)) terms)
  end.

Definition term_lang (t : Term) : lang := lang_quantified (m_quantifier t) (atom_lang t).

(** The language of a sequence of terms. *)
Definition seq_lang (ts : list Term) : lang := lang_sequence (map term_lang ts).

Lemma seq_lang_app ts ts' w : seq_lang (ts ++ ts') w <-> lang_app (seq_lang ts) (seq_lang ts') w.
Proof.
  revert w. unfold seq_lang. induction ts as [|t ts IH]; intros w; cbn [app map lang_sequence].
  - split; [intros Hw; by exists [], w|]. by intros (u & v & -> & -> & Hv).
  - split.
    + intros (u & v & -> & Hu & (v1 & v2 & -> & H1 & H2)%IH). exists (u ++ v1), v2. split; [by rewrite (assoc_L (++))|]. split; [by exists u, v1|done].
    + intros (u & v & -> & (u1 & u2 & -> & H1 & H2) & Hv). exists u1, (u2 ++ v). split; [by rewrite (assoc_L (++))|]. split; [done|]. apply IH. by exists u2, v.
Qed.

(** Induction on terms, with the terms of a group. *)
Lemma Term_ind' (P : Term -> Prop) :
  (forall q, P (EmptyTerm q)) -> (forall q cs, P (CharacterSetTerm q cs)) ->
  (forall q ts, Forall P ts -> P (GroupTerm q ts)) -> forall t, P t.
Proof.
  intros He Hc Hg. fix IH 1. intros [q|q cs|q ts]; [apply He|apply Hc|apply Hg].
  induction ts as [|t ts IHts]; constructor; [apply IH|exact IHts].
Qed.

(** ** Character sets *)

Lemma land_bit x i : 0 <= i -> negb (Z.land x (Z.shiftl 1 i) =? 0) = Z.testbit x i.
Proof.
  intros Hi. rewrite Z.shiftl_1_l. destruct (Z.testbit x i) eqn:E.
  - apply negb_true_iff, Z.eqb_neq. intros H0.
    assert (Z.testbit (Z.land x (2 ^ i)) i = true) as Hb by (rewrite Z.land_spec, Z.pow2_bits_true, E by lia; done).
    rewrite H0, Z.testbit_0_l in Hb. done.
  - apply negb_false_iff, Z.eqb_eq, Z.bits_inj_0. intros j. rewrite Z.land_spec. destruct (decide (j = i)) as [->|].
    + by rewrite E.
    + rewrite Z.pow2_bits_false by lia. apply andb_false_r.
Qed.

Lemma cs_get_bit cs c : 0 <= c < 128 -> cs_get cs c = Some (cs_bit cs c).
Proof.
  intros Hc. unfold cs_get, cs_bit. destruct (Z.leb_spec 0 c); [|lia]. destruct (Z.ltb_spec c 128); [|lia]. simpl.
  by rewrite land_bit by (apply Z.mod_pos_bound; lia).
Qed.

Lemma cs_set_spec cs c : 0 <= c < 128 ->
  exists cs', cs_set cs c = Some cs' /\ m_inverted cs' = m_inverted cs
    /\ forall d, 0 <= d < 128 -> cs_bit cs' d = (c =? d) || cs_bit cs d.
Proof.
  intros Hc. unfold cs_set. destruct (Z.leb_spec 0 c); [|lia]. destruct (Z.ltb_spec c 128); [|lia]. simpl.
  pose proof (Z.mod_pos_bound c 64 ltac:(lia)) as Hm. pose proof (Z.div_mod c 64 ltac:(lia)) as Hdm.
  eexists. split; [reflexivity|]. split; [by destruct (c / 64 =? 0)|]. intros d Hd.
  pose proof (Z.mod_pos_bound d 64 ltac:(lia)) as Hm'. pose proof (Z.div_mod d 64 ltac:(lia)) as Hdm'. unfold cs_bit.
  assert (Hbit : forall x, Z.testbit (Z.lor x (Z.shiftl 1 (c mod 64))) (d mod 64) = (c mod 64 =? d mod 64) || Z.testbit x (d mod 64)).
  { intros x. rewrite Z.lor_spec, Z.shiftl_1_l, Z.pow2_bits_eqb by lia. apply orb_comm. }
  destruct (Z.eqb_spec (c / 64) 0), (Z.eqb_spec (d / 64) 0); simpl; rewrite ?Hbit; try done;
    destruct (Z.eqb_spec c d); try (subst; congruence); destruct (Z.eqb_spec (c mod 64) (d mod 64)); try done; try congruence; lia.
Qed.

(** The number of characters in a set, by the code's count. *)
Definition members (p : Z -> bool) : list Z := List.filter p (seqZ 0 128).

Lemma word_popcount (p : Z -> bool) k x : 0 <= k ->
  (forall i, 0 <= i < 64 -> p (k + i) = Z.testbit x i) -> popcount 64 x = vlen (List.filter p (seqZ k 64)).
Proof.
  intros Hk Hp. unfold popcount, bits_set. f_equal. unfold seqZ. change (Z.to_nat 64) with 64%nat.
  assert (Hg : forall n j, Z.of_nat j + Z.of_nat n <= 64 ->
    length (List.filter (fun i => Z.testbit x (Z.of_nat i)) (seq j n))
    = length (List.filter p ((fun i : nat => Z.of_nat i + k) <$> seq j n))).
  { induction n as [|n IH]; intros j Hj; [done|]. simpl. rewrite (Z.add_comm _ k), Hp by lia.
    specialize (IH (S j) ltac:(lia)). destruct (Z.testbit x (Z.of_nat j)); simpl; rewrite IH; done. }
  apply (Hg 64%nat 0%nat). simpl. lia.
Qed.

Lemma cs_bitCount_spec cs : cs_bitCount cs = vlen (members (cs_bit cs)).
Proof.
  unfold cs_bitCount, members. rewrite !bitCount64_spec. change (seqZ 0 128) with (seqZ 0 64 ++ seqZ 64 64).
  rewrite List.filter_app, length_app, Nat2Z.inj_add. f_equal; apply word_popcount; try lia; intros i Hi; unfold cs_bit.
  - rewrite Z.add_0_l, Z.div_small, Z.mod_small by lia. done.
  - replace (64 + i) with (i + 1 * 64) by lia. rewrite Z.div_add, Z_mod_plus_full, Z.div_small, Z.mod_small by lia. done.
Qed.

Lemma elem_of_members p c : c ∈ members p <-> 0 <= c < 128 /\ p c = true.
Proof. unfold members. rewrite list_elem_of_In, List.filter_In, <- list_elem_of_In, elem_of_seqZ. split; intros []; split; try done; lia. Qed.

Lemma NoDup_members p : NoDup (members p).
Proof. unfold members. apply NoDup_ListNoDup, List.NoDup_filter, NoDup_ListNoDup, NoDup_seqZ. Qed.

Lemma no_members p : vlen (members p) = 0 -> forall c, 0 <= c < 128 -> p c = false.
Proof.
  intros Hl c Hc. destruct (p c) eqn:E; [|done]. assert (Hin : c ∈ members p) by by apply elem_of_members.
  destruct (members p); [by apply not_elem_of_nil in Hin|]. simpl in Hl. lia.
Qed.

Lemma all_but_zero p : vlen (members p) = 127 -> p 0 = false -> forall c, 1 <= c < 128 -> p c = true.
Proof.
  intros Hl H0 c Hc. destruct (p c) eqn:E; [done|]. exfalso.
  assert (Hsub : members p ⊆+ List.filter (fun x => negb (x =? c)) (seqZ 1 127)).
  { apply NoDup_submseteq; [apply NoDup_members|]. intros x [Hx Hpx]%elem_of_members.
    apply list_elem_of_In, List.filter_In. split; [apply list_elem_of_In, elem_of_seqZ|].
    - destruct (decide (x = 0)); [congruence|lia].
    - apply negb_true_iff, Z.eqb_neq. congruence. }
  apply submseteq_length in Hsub.
  assert (Hlt : vlen (c :: List.filter (fun x => negb (x =? c)) (seqZ 1 127)) <= vlen (seqZ 1 127)).
  { apply Nat2Z.inj_le, submseteq_length, NoDup_submseteq.
    - constructor; [|apply NoDup_ListNoDup, List.NoDup_filter, NoDup_ListNoDup, NoDup_seqZ].
      rewrite list_elem_of_In, List.filter_In. intros [_ Hn]. by rewrite Z.eqb_refl in Hn.
    - intros x [->|Hx]%elem_of_cons; [apply elem_of_seqZ; lia|]. apply list_elem_of_In in Hx. apply List.filter_In in Hx as [Hx _].
      by apply list_elem_of_In. }
  rewrite length_seqZ, length_cons in Hlt. revert Hsub Hlt Hl. generalize (List.filter (fun x => negb (x =? c)) (seqZ 1 127)).
  generalize (members p). intros m l. lia.
Qed.

(** ** The questions about a term *)

#[local] Opaque cs_bitCount cs_get cs_bit members.

Lemma quantified_incl q (L : lang) w : L w -> lang_quantified q L w.
Proof.
  intros HL. destruct q; simpl; [done|by left| |].
  - rewrite <- (app_nil_r w). constructor; [done|constructor].
  - exists w, []. rewrite app_nil_r. split_and!; [done|done|constructor].
Qed.

Lemma star_chars (L : lang) (P : Z -> Prop) w :
  (forall c, P c -> L [c]) -> Forall P w -> lang_star L w.
Proof. intros HL. induction 1 as [|c w Hc _ IH]; [constructor|]. apply (star_app L [c] w); auto. Qed.

Lemma group_single q t w : atom_lang (GroupTerm q [t]) w <-> term_lang t w.
Proof.
  simpl. unfold term_lang. split.
  - intros (u & v & -> & Hu & ->). by rewrite app_nil_r.
  - intros Hw. exists w, []. by rewrite app_nil_r.
Qed.

(** Characters of a text, the terminator excluded. *)
Definition text_char (c : Z) : Prop := 1 <= c < 128.

Lemma isUniversalTransition_sound t :
  isUniversalTransition t = true -> forall c, text_char c -> atom_lang t [c].
Proof.
  induction t as [q|q cs|q ts IH] using Term_ind'; simpl; [done| |].
  - rewrite cs_get_bit, cs_bitCount_spec by lia. simpl. intros Hu c Hc. exists c. split; [done|]. unfold cs_matches, text_char in *.
    destruct (m_inverted cs); simpl in Hu; rewrite ?orb_false_r in Hu; bprop; (split; [lia|]).
    + by apply no_members; [|lia].
    + by apply all_but_zero.
  - destruct ts as [|t [|]]; try done. apply Forall_cons in IH as [IH _]. intros Hu c Hc.
    apply (group_single q). apply quantified_incl. by apply IH.
Qed.

Lemma isKnownToMatchAnyString_sound t :
  isKnownToMatchAnyString t = true -> forall w, Forall text_char w -> term_lang t w.
Proof.
  induction t as [q|q cs|q ts IH] using Term_ind'; cbn [isKnownToMatchAnyString]; [done| |].
  - intros Hk w Hw. bprop. match goal with H : bool_decide _ = true |- _ => apply bool_decide_eq_true in H as -> end.
    unfold term_lang. simpl m_quantifier. apply (star_chars _ text_char); [|done]. by apply isUniversalTransition_sound.
  - destruct ts as [|t [|]]; try done. apply Forall_cons in IH as [IH _]. intros Hk w Hw.
    assert (Hg : forall v, term_lang t v -> atom_lang (GroupTerm q [t]) v) by (intros; by apply group_single).
    unfold term_lang at 1. simpl m_quantifier. revert Hg. generalize (atom_lang (GroupTerm q [t])). intros L Hg.
    destruct (isKnownToMatchAnyString t); [apply quantified_incl; auto|].
    destruct (isUniversalTransition t) eqn:Hu; [|done].
    pose proof (isUniversalTransition_sound t Hu) as Hchar.
    assert (HL : forall c, text_char c -> L [c]) by (intros c Hc; apply Hg, quantified_incl; auto).
    case_decide; [subst; by apply (star_chars _ text_char)|].
    case_decide as Hq; [destruct Hq as [-> Hq]|case_decide as Hq'; [destruct Hq' as [-> Hq']|done]]; simpl.
    + destruct w as [|c w]; [by right|left]. apply Hg. unfold term_lang. rewrite Hq. apply Forall_cons in Hw as [Hc Hw].
      exists [c], w. split_and!; [done|auto|]. by apply (star_chars _ text_char).
    + destruct w as [|c w].
      * exists [], []. split_and!; [done| |constructor]. apply Hg. unfold term_lang. rewrite Hq'. by right.
      * apply Forall_cons in Hw as [Hc Hw]. exists [c], w. split_and!; [done|auto|]. by apply (star_chars _ text_char).
Qed.

Lemma hasFixedLength_sound t :
  hasFixedLength t = true -> exists n, forall w, term_lang t w -> length w = n.
Proof.
  induction t as [q|q cs|q ts IH] using Term_ind'; simpl; [done| |].
  - intros ->%bool_decide_eq_true. exists 1%nat. by intros w (c & -> & _).
  - destruct (decide (q = One)) as [->|]; [|done]. intros Hts. unfold term_lang. simpl.
    induction IH as [|t ts Ht _ IHts]; [by exists 0%nat; intros w ->|]. simpl in Hts. bprop.
    destruct Ht as (n & Hn); [done|]. destruct IHts as (m & Hm); [done|]. exists (n + m)%nat. simpl.
    intros w (u & v & -> & Hu & Hv). by rewrite length_app, (Hn u Hu), (Hm v Hv).
Qed.

(** Only the end-of-line assertion contains the terminator. *)
Fixpoint eol_pure (t : Term) : Prop :=
  match t with
  | EmptyTerm _ => False
  | CharacterSetTerm _ cs => cs_bit cs 0 = true -> m_inverted cs = false /\ cs_bitCount cs = 1
  | GroupTerm _ terms => foldr (fun t others => eol_pure t /\ others) True terms
  end.

Lemma matchesAtLeastOneCharacter_sound t :
  eol_pure t -> matchesAtLeastOneCharacter t = true -> forall w, term_lang t w -> exists c, c ∈ w /\ c <> 0.
Proof.
  assert (Hq : forall t, (forall w, atom_lang t w -> exists c, c ∈ w /\ c <> 0) ->
    match m_quantifier t with ZeroOrOne | ZeroOrMore => False | _ => True end ->
    forall w, term_lang t w -> exists c, c ∈ w /\ c <> 0).
  { intros t0 Ha Hqu w. unfold term_lang. destruct (m_quantifier t0); try done; simpl; [apply Ha|].
    intros (u & v & -> & Hu & _). destruct (Ha u Hu) as (c & ? & ?). exists c. split; [|done]. apply elem_of_app. by left. }
  induction t as [q|q cs|q ts IH] using Term_ind'; simpl; [done| |].
  - intros Hp Hm. apply Hq; [|by destruct q]. simpl. intros w (c & -> & Hc). exists c. split; [by left|]. intros ->.
    rewrite cs_get_bit in Hm by lia. unfold cs_matches in Hc. simpl in Hm.
    destruct (m_inverted cs) eqn:Ei; [lia|]. destruct Hc as [_ Hc]. destruct (Hp Hc) as [_ Hb]. rewrite Hb, Hc in Hm. by destruct q.
  - intros Hp Hm. apply Hq; [|by destruct q].
    assert (He : existsb matchesAtLeastOneCharacter ts = true) by by destruct q. clear Hm Hq.
    simpl. induction IH as [|t ts Ht _ IHts]; [done|]. simpl in Hp. destruct Hp as [Hpt Hpts]. simpl in He |- *.
    intros w (u & v & -> & Hu & Hv). apply orb_true_iff in He as [He|He].
    + destruct (Ht Hpt He u Hu) as (c & ? & ?). exists c. split; [apply elem_of_app; by left|done].
    + destruct (IHts Hpts He v Hv) as (c & ? & ?). exists c. split; [apply elem_of_app; by right|done].
Qed.

(** ** Groups with terms *)

Fixpoint no_empty_group (t : Term) : Prop :=
  match t with
  | GroupTerm _ ts => ts <> [] /\ foldr (fun t others => no_empty_group t /\ others) True ts
  | _ => True
  end.
