(* ===== verification/Fragments.v ===== *)
(** * Pieces of graphs and their languages

    A fragment leads from a source, which has the edges [S] into it, over the
    interior nodes [n .. n' - 1] with the edges [E], to a destination.  The
    constructions for sequences and repetitions, as pure facts on graphs. *)

From S2P Require Import Prelude Bits DFA RangeList HashSet NFA Term TermLanguage.

Definition out_edges : Type := option Z -> Z -> Prop.
Definition graph : Type := Z -> option Z -> Z -> Prop.

Definition cons_opt (l : option Z) (w : list Z) : list Z :=
  match l with Some c => c :: w | None => w end.

Lemma cons_opt_app l u v : cons_opt l u ++ v = cons_opt l (u ++ v).
Proof. by destruct l. Qed.

Inductive gpath (E : graph) : Z -> list Z -> Z -> Prop :=
| gpath_nil i : gpath E i [] i
| gpath_step i l k w j : E i l k -> gpath E k w j -> gpath E i (cons_opt l w) j.

Lemma gpath_app E i u k v j : gpath E i u k -> gpath E k v j -> gpath E i (u ++ v) j.
Proof. induction 1; intros; simpl; [done|]. rewrite cons_opt_app. eapply gpath_step; eauto. Qed.

Lemma gpath_mono (E E' : graph) i w j : (forall i l k, E i l k -> E' i l k) -> gpath E i w j -> gpath E' i w j.
Proof. intros HE. induction 1; [constructor|eapply gpath_step; eauto]. Qed.

(** Texts that lead from a node with the edges [S] to [d]. *)
Definition frag_lang (S : out_edges) (E : graph) (d : Z) : lang :=
  fun w => exists l k v, S l k /\ gpath E k v d /\ w = cons_opt l v.

Record fragment (n n' d : Z) (S : out_edges) (E : graph) (L : lang) : Prop := {
  fr_range : n <= n';
  fr_dest : ~ (n <= d < n');
  fr_src : forall l k, S l k -> k = d \/ n <= k < n';
  fr_int : forall i l k, E i l k -> n <= i < n' /\ (k = d \/ n <= k < n');
  fr_lang : forall w, frag_lang S E d w <-> L w
}.

Lemma fragment_ext n n' d S E L L' : (forall w, L w <-> L' w) -> fragment n n' d S E L -> fragment n n' d S E L'.
Proof. intros HL []. split; try done. intros w. by rewrite <- HL. Qed.

(** Nothing leaves the destination. *)
Lemma gpath_from_dest n n' d S E L w j : fragment n n' d S E L -> gpath E d w j -> w = [] /\ j = d.
Proof.
  intros HF Hp. inversion Hp as [|? l k v ? He]; subst; [done|]. apply (fr_int _ _ _ _ _ _ HF) in He as [He _].
  by apply (fr_dest _ _ _ _ _ _ HF) in He.
Qed.

(** ** One step *)

Definition no_edges : graph := fun _ _ _ => False.

Lemma gpath_no_edges i w j : gpath no_edges i w j -> w = [] /\ j = i.
Proof. intros Hp. inversion Hp as [|? ? ? ? ? He]; subst; [done|by destruct He]. Qed.

Lemma fragment_eps n d : ~ (n <= d < n) -> fragment n n d (fun l k => l = None /\ k = d) no_edges lang_eps.
Proof.
  intros Hd. split; [lia|done|by intros l k [_ ->]; left|by intros i l k []|]. intros w. split.
  - intros (l & k & v & [-> ->] & Hp & ->). by apply gpath_no_edges in Hp as [-> _].
  - intros ->. exists None, d, []. split_and!; try done. constructor.
Qed.

Lemma fragment_chars n d (P : Z -> Prop) :
  fragment n n d (fun l k => exists c, l = Some c /\ P c /\ k = d) no_edges (fun w => exists c, w = [c] /\ P c).
Proof.
  split; [lia|lia|by intros l k (c & _ & _ & ->); left|by intros i l k []|]. intros w. split.
  - intros (l & k & v & (c & -> & Hc & ->) & Hp & ->). apply gpath_no_edges in Hp as [-> _]. by exists c.
  - intros (c & -> & Hc). exists (Some c), d, []. split_and!; [by exists c|constructor|done].
Qed.

Lemma fragment_optional n n' d S E L :
  fragment n n' d S E L -> fragment n n' d (fun l k => S l k \/ (l = None /\ k = d)) E (lang_quantified ZeroOrOne L).
Proof.
  intros HF. pose proof HF as [Hr Hd Hs Hi Hl]. split; try done.
  - intros l k [HS|[_ ->]]; [by eapply Hs|by left].
  - intros w. simpl. rewrite <- Hl. split.
    + intros (l & k & v & [HS|[-> ->]] & Hp & ->); [left; by exists l, k, v|right].
      by apply (gpath_from_dest _ _ _ _ _ _ _ _ HF) in Hp as [-> _].
    + intros [(l & k & v & HS & Hp & ->)| ->]; [exists l, k, v; auto|]. exists None, d, [].
      split_and!; [by right|constructor|done].
Qed.

(** ** Two fragments in a row, over the node [n] *)

Section Sequence.
Variables (n n1 n2 d : Z) (S1 S2 : out_edges) (E1 E2 : graph) (L1 L2 : lang).
Hypothesis F1 : fragment (n + 1) n1 n S1 E1 L1.
Hypothesis F2 : fragment n1 n2 d S2 E2 L2.
Hypothesis Hd : d < n.

Definition sequence_graph : graph := fun i l k => E1 i l k \/ (i = n /\ S2 l k) \/ E2 i l k.

Lemma sequence_from_middle w j : gpath sequence_graph n w j -> j = d -> L2 w.
Proof.
  destruct F1 as [R1 D1 Sr1 I1 G1], F2 as [R2 D2 Sr2 I2 G2].
  assert (H2 : forall i w j, gpath sequence_graph i w j -> j = d -> (n1 <= i < n2 \/ i = d) -> gpath E2 i w d).
  { clear w j. intros i v j Hp. induction Hp as [i|i l k v j He _ IH]; intros Hj Hi; [subst; constructor|].
    destruct He as [He|[[-> He]|He]].
    - apply I1 in He as [? _]. lia.
    - lia.
    - eapply gpath_step; [exact He|]. apply IH; [done|]. apply I2 in He as [_ [?|?]]; auto. }
  intros Hp Hj. apply G2. inversion Hp as [|? l k v ? He Hk]; subst; [lia|].
  destruct He as [He|[[_ He]|He]]; [apply I1 in He as [? _]; lia| |apply I2 in He as [? _]; lia].
  exists l, k, v. split_and!; [done| |done]. eapply H2; [exact Hk|done|]. apply Sr2 in He as [?|?]; auto.
Qed.

Lemma sequence_from_first i w j :
  gpath sequence_graph i w j -> j = d -> n + 1 <= i < n1 -> exists u v, w = u ++ v /\ gpath E1 i u n /\ L2 v.
Proof.
  destruct F1 as [R1 D1 Sr1 I1 G1], F2 as [R2 D2 Sr2 I2 G2].
  intros Hp. induction Hp as [i|i l k w j He Hk IH]; intros Hj Hi; [lia|].
  destruct He as [He|[[-> He]|He]]; [|lia|apply I2 in He as [? _]; lia].
  pose proof He as [_ [->|Hk']]%I1.
  - exists (cons_opt l []), w. rewrite cons_opt_app. split_and!; [done| |].
    + eapply gpath_step; [exact He|constructor].
    + by eapply sequence_from_middle.
  - destruct (IH Hj Hk') as (u & v & -> & Hu & Hv). exists (cons_opt l u), v. rewrite cons_opt_app.
    split_and!; [done|by eapply gpath_step|done].
Qed.

Lemma fragment_sequence : fragment n n2 d S1 sequence_graph (lang_app L1 L2).
Proof.
  pose proof F1 as [R1 D1 Sr1 I1 G1]. pose proof F2 as [R2 D2 Sr2 I2 G2]. split.
  - lia.
  - lia.
  - intros l k [->|?]%Sr1; right; lia.
  - intros i l k [He|[[-> He]|He]].
    + apply I1 in He as [? [->|?]]; (split; [lia|right; lia]).
    + apply Sr2 in He as [->|?]; (split; [lia|]); [by left|right; lia].
    + apply I2 in He as [? [->|?]]; (split; [lia|]); [by left|right; lia].
  - intros w. split.
    + intros (l & k & v & HS & Hp & ->). pose proof HS as [->|Hk]%Sr1.
      * exists (cons_opt l []), v. rewrite cons_opt_app. split_and!; [done| |by eapply sequence_from_middle].
        apply G1. exists l, n, []. split_and!; [done|constructor|done].
      * destruct (sequence_from_first k v d Hp eq_refl Hk) as (u & v' & -> & Hu & Hv).
        exists (cons_opt l u), v'. rewrite cons_opt_app. split_and!; [done| |done]. apply G1. by exists l, k, u.
    + intros (u & v & -> & (l & k & u' & HS & Hp & ->)%G1 & (l2 & k2 & v' & HS2 & Hp2 & ->)%G2).
      exists l, k, (u' ++ cons_opt l2 v'). rewrite cons_opt_app. split_and!; [done| |done].
      eapply gpath_app; [eapply gpath_mono; [|exact Hp]; by left|].
      eapply gpath_step; [right; left; by split|]. eapply gpath_mono; [|exact Hp2]. by right; right.
Qed.
End Sequence.

(** ** Repetition between the nodes [n] and [n + 1] *)

Section Repeat.
Variables (n n' d : Z) (S1 : out_edges) (E1 : graph) (L : lang) (optional : bool).
Hypothesis F1 : fragment (n + 2) n' (n + 1) S1 E1 L.
Hypothesis Hd : d < n.

Definition repeat_graph : graph := fun i l k =>
  (i = n /\ S1 l k) \/ (i = n + 1 /\ l = None /\ (k = n \/ k = d)) \/ E1 i l k.

Definition repeat_source : out_edges := fun l k => l = None /\ (k = n \/ (optional = true /\ k = d)).

Lemma repeat_path i w j :
  gpath repeat_graph i w j -> j = d ->
  (i = n -> lang_plus L w) /\ (i = n + 1 -> lang_star L w)
  /\ (n + 2 <= i < n' -> exists u v, w = u ++ v /\ gpath E1 i u (n + 1) /\ lang_star L v).
Proof.
  destruct F1 as [R1 D1 Sr1 I1 G1]. intros Hp. induction Hp as [i|i l k w j He Hk IH]; intros Hj; [lia|].
  destruct (IH Hj) as (IHn & IHe & IHi). destruct He as [[-> He]|[(-> & -> & Hk')|He]]; split_and!; try lia.
  - intros _. pose proof He as [->|Hk']%Sr1.
    + exists (cons_opt l []), w. rewrite cons_opt_app. split_and!; [done| |auto]. apply G1.
      exists l, (n + 1), []. split_and!; [done|constructor|done].
    + destruct (IHi Hk') as (u & v & -> & Hu & Hv). exists (cons_opt l u), v. rewrite cons_opt_app.
      split_and!; [done| |done]. apply G1. by exists l, k, u.
  - intros _. simpl. destruct Hk' as [->| ->].
    + destruct (IHn eq_refl) as (u & v & -> & Hu & Hv). by constructor.
    + inversion Hk as [|? ? ? ? ? He]; subst; [constructor|]. exfalso.
      destruct He as [[? _]|[[? _]|He]]; [lia|lia|]. apply I1 in He as [? _]. lia.
  - intros ->. apply I1 in He as [? _]. lia.
  - intros ->. apply I1 in He as [? _]. lia.
  - intros _. pose proof He as [_ [->|Hk']]%I1.
    + exists (cons_opt l []), w. rewrite cons_opt_app. split_and!; [done| |auto]. eapply gpath_step; [exact He|constructor].
    + destruct (IHi Hk') as (u & v & -> & Hu & Hv). exists (cons_opt l u), v. rewrite cons_opt_app.
      split_and!; [done|by eapply gpath_step|done].
Qed.

Lemma repeat_once u : L u -> gpath repeat_graph n u (n + 1).
Proof.
  intros (l & k & v & HS & Hp & ->)%(fr_lang _ _ _ _ _ _ F1). eapply gpath_step; [by left|].
  eapply gpath_mono; [|exact Hp]. by right; right.
Qed.

Lemma repeat_star v : lang_star L v -> gpath repeat_graph (n + 1) v d.
Proof.
  induction 1 as [|u v Hu _ IH].
  - apply (gpath_step _ _ None d); [right; left; auto|constructor].
  - apply (gpath_step _ _ None n); [right; left; auto|]. eapply gpath_app; [by apply repeat_once|done].
Qed.

Lemma fragment_repeat :
  fragment n n' d repeat_source repeat_graph (lang_quantified (if optional then ZeroOrMore else OneOrMore) L).
Proof.
  pose proof F1 as [R1 D1 Sr1 I1 G1]. split.
  - lia.
  - lia.
  - intros l k [_ [->|[_ ->]]]; [right; lia|by left].
  - intros i l k [[-> He]|[(-> & _ & [->| ->])|He]].
    + apply Sr1 in He as [->|?]; (split; [lia|right; lia]).
    + split; [lia|right; lia].
    + split; [lia|by left].
    + apply I1 in He as [? [->|?]]; (split; [lia|right; lia]).
  - intros w. split.
    + intros (l & k & v & [-> [->|[Ho ->]]] & Hp & ->); simpl.
      * destruct (repeat_path n v d Hp eq_refl) as (Hplus & _). specialize (Hplus eq_refl).
        destruct optional; simpl; [|done]. destruct Hplus as (u & v' & -> & Hu & Hv). by constructor.
      * rewrite Ho. inversion Hp as [|? ? ? ? ? He]; subst; [constructor|]. exfalso.
        destruct He as [[? _]|[[? _]|He]]; [lia|lia|]. apply I1 in He as [? _]. lia.
    + intros Hw. assert (Hcase : lang_plus L w \/ (optional = true /\ w = [])).
      { destruct optional; simpl in Hw; [|by left]. destruct Hw as [|u v Hu Hv]; [by right|left]. by exists u, v. }
      destruct Hcase as [(u & v & -> & Hu & Hv)|[Ho ->]].
      * exists None, n, (u ++ v). split_and!; [split; auto| |done]. eapply gpath_app; [by apply repeat_once|by apply repeat_star].
      * exists None, d, []. split_and!; [split; auto|constructor|done].
Qed.
End Repeat.
