(* ===== verification/TermGraph.v ===== *)
(** * The graph of a term is a fragment with the term's language

    [generateGraph] adds nodes at the end of the NFA and edges to the source's
    builder; together they form a fragment from the source to the destination
    whose language is the term's. *)

From stdpp Require Import relations.
From S2P Require Import Prelude Bits DFA RangeList RangeListCorrect HashSet NFA NFACorrect Term TermLanguage Fragments NFAToDFA SubsetCorrect.

(** ** NFAs that grow *)

Record nfa_le (nfa nfa' : NFA) : Prop := {
  le_nodes : vlen (nfa_nodes nfa) <= vlen (nfa_nodes nfa');
  le_trans : vlen (nfa_transitions nfa) <= vlen (nfa_transitions nfa');
  le_targets : vlen (nfa_targets nfa) <= vlen (nfa_targets nfa');
  le_eps : vlen (epsilonTransitionsTargets nfa) <= vlen (epsilonTransitionsTargets nfa');
  le_acts : vlen (nfa_actions nfa) <= vlen (nfa_actions nfa')
}.

#[export] Instance nfa_le_refl : Reflexive nfa_le.
Proof. intros nfa. split; lia. Qed.

#[export] Instance nfa_le_trans : Transitive nfa_le.
Proof. intros x y z [] []. split; lia. Qed.

Lemma nfa_le_small nfa nfa' : nfa_le nfa nfa' -> nfa_small nfa' -> nfa_small nfa.
Proof. intros [] []. split; lia. Qed.

Abbreviation nnodes nfa := (vlen (nfa_nodes nfa)).

(** The nodes [n .. n' - 1] have the edges [E] and no actions. *)
Definition interior (nfa : NFA) (n n' : Z) (E : graph) : Prop :=
  forall i, n <= i < n' -> (forall l j, edge nfa i l j <-> E i l j) /\ forall a, ~ accepts nfa i a.

Lemma same_node_accepts nfa nfa' i a : same_node nfa nfa' i -> accepts nfa' i a <-> accepts nfa i a.
Proof. intros (_ & _ & Ha). unfold accepts. by rewrite Ha. Qed.

Lemma same_node_trans nfa1 nfa2 nfa3 i : same_node nfa1 nfa2 i -> same_node nfa2 nfa3 i -> same_node nfa1 nfa3 i.
Proof. unfold same_node. intros (?&?&?) (?&?&?). split_and!; congruence. Qed.

Lemma interior_same nfa nfa' n n' E :
  (forall i, n <= i < n' -> same_node nfa nfa' i) -> interior nfa n n' E -> interior nfa' n n' E.
Proof.
  intros Hs HE i Hi. destruct (HE i Hi) as [He Ha]. specialize (Hs i Hi). split.
  - intros l j. rewrite (same_node_edge _ _ _ _ _ Hs). apply He.
  - intros a. rewrite (same_node_accepts _ _ _ _ Hs). apply Ha.
Qed.

Section Draws.
Context {NS AS : Type} `{HashSetLaws NS} `{HashSetLaws AS}.
Abbreviation builder := (NodeBuilder NS AS).
Implicit Types (b : builder) (g : generator NS AS).

(** The numbers of the nodes are keys. *)
Definition room (nfa : NFA) (cost : Z) : Prop :=
  0 <= cost /\ nnodes nfa + cost <= hs_bound (T := NS) /\ nnodes nfa + cost < 2 ^ 32.

Lemma room_le nfa cost cost' : 0 <= cost' <= cost -> room nfa cost -> room nfa cost'.
Proof. unfold room. lia. Qed.

Lemma room_key nfa cost i : room nfa cost -> 0 <= i < nnodes nfa -> hs_key (T := NS) i.
Proof. unfold room, hs_key. lia. Qed.

(** ** Builders come and go *)

Lemma newBuilder_any nfa :
  room nfa 1 ->
  let '(nfa', b) := newBuilder (NS := NS) (AS := AS) nfa in
  wf_builder b /\ m_nodeId b = nnodes nfa /\ nnodes nfa' = nnodes nfa + 1 /\ nfa_le nfa nfa'
  /\ (forall l j, ~ bedge b l j) /\ (forall a, ~ baccepts b a)
  /\ (wf_nfa nfa -> wf_nfa nfa' /\ forall i, 0 <= i < nnodes nfa -> same_node nfa nfa' i)
  /\ (forall l j, ~ edge nfa' (nnodes nfa) l j) /\ (forall a, ~ accepts nfa' (nnodes nfa) a).
Proof.
  intros (_ & _ & Hb). unfold newBuilder. set (nfa' := mkNFA _ _ _ _ _). cbv zeta.
  assert (Hl : nnodes nfa' = nnodes nfa + 1) by (simpl; rewrite length_app; simpl; lia).
  split_and!.
  - split; [done|done|]. exists []. split; [done|]. by left.
  - simpl. apply u32_small. lia.
  - done.
  - split; simpl; rewrite ?length_app; lia.
  - intros [c|] j; simpl; [intros (es & T & [= <-] & ? & _); done|apply elem_of_hs_empty].
  - intros a. apply elem_of_hs_empty.
  - intros Hwf. pose proof (newBuilder_spec (NS := NS) (AS := AS) nfa Hwf Hb) as (? & _ & _ & _ & _ & ? & _). done.
  - assert (Hnew : (nfa_nodes nfa').[nnodes nfa] = Some emptyNFANode) by apply vec_at_snoc.
    intros [c|] j; simpl; unfold transitionsForNode, epsilonTargets; rewrite Hnew.
    + intros (rs & ts & [= <-] & ? & _). done.
    + intros (ts & [= <-] & Hj). by apply not_elem_of_nil in Hj.
  - intros a (acts & Ha & Hin). assert (Hnew : (nfa_nodes nfa').[nnodes nfa] = Some emptyNFANode) by apply vec_at_snoc.
    unfold nodeActions in Ha. rewrite Hnew in Ha. injection Ha as <-. by apply not_elem_of_nil in Hin.
Qed.

Lemma destroyBuilder_any nfa b :
  wf_builder b -> 0 <= m_nodeId b < nnodes nfa ->
  exists nfa', destroyBuilder nfa b = Some nfa' /\ nnodes nfa' = nnodes nfa /\ nfa_le nfa nfa'
    /\ (nfa_small nfa' -> wf_nfa nfa ->
        wf_nfa nfa' /\ (forall i, 0 <= i < nnodes nfa -> i <> m_nodeId b -> same_node nfa nfa' i)
        /\ (forall l j, edge nfa' (m_nodeId b) l j <-> bedge b l j)
        /\ forall a, accepts nfa' (m_nodeId b) a <-> baccepts b a).
Proof.
  intros Hb Hid. pose proof Hb as [Hv Hl [es Hes]]. unfold destroyBuilder. rewrite Hl.
  destruct (finalize_sinks nfa b es Hid Hes) as (nfa' & Hf & Hsk & _). rewrite Hf. exists nfa'. split; [done|].
  split; [by rewrite (sk_nodes _ _ _ Hsk)|]. split.
  { destruct Hsk as [Hn _ [w1 Hw1] [w2 Hw2] [w3 Hw3] [w4 Hw4]]. split; rewrite ?Hn, ?Hw1, ?Hw2, ?Hw3, ?Hw4, ?length_app; lia. }
  intros Hsmall Hwf. destruct (finalize_spec nfa b Hwf Hb Hid) as (nfa2 & Hf2 & Hsk2 & Hsem). rewrite Hf in Hf2.
  injection Hf2 as <-. destruct (Hsem Hsmall) as (? & ? & ?). split_and!; try done.
  intros i Hi Hne. by eapply sunk_same.
Qed.

(** ** What a generator promises *)

(** It adds [cost] nodes and a fragment of language [L] from the source. *)
Record drawn (nfa nfa' : NFA) b b' (d : Z) (L : lang) : Prop := {
  dr_wf : wf_nfa nfa';
  dr_same : forall i, 0 <= i < nnodes nfa -> same_node nfa nfa' i;
  dr_frag : exists S E, fragment (nnodes nfa) (nnodes nfa') d S E L
    /\ interior nfa' (nnodes nfa) (nnodes nfa') E /\ forall l j, bedge b' l j <-> bedge b l j \/ S l j
}.

Definition draws g (cost : Z) (L : lang) : Prop :=
  forall nfa b d, wf_builder b -> 0 <= m_nodeId b < nnodes nfa -> 0 <= d < nnodes nfa -> room nfa cost ->
  exists nfa' b', g nfa b d = Some (nfa', b') /\ wf_builder b' /\ m_nodeId b' = m_nodeId b
    /\ (forall a, baccepts b' a <-> baccepts b a)
    /\ nnodes nfa' = nnodes nfa + cost /\ nfa_le nfa nfa'
    /\ (nfa_small nfa' -> wf_nfa nfa -> drawn nfa nfa' b b' d L).

Lemma draws_ext g cost L L' : (forall w, L w <-> L' w) -> draws g cost L -> draws g cost L'.
Proof.
  intros HL Hg nfa b d Hb Hid Hd Hroom. destruct (Hg nfa b d Hb Hid Hd Hroom) as (nfa' & b' & ? & ? & ? & ? & ? & ? & Hsem).
  exists nfa', b'. do 6 (split; [done|]). intros Hs Hwf. destruct (Hsem Hs Hwf) as [? ? (S & E & HF & HI & HB)].
  split; [done|done|]. exists S, E. split_and!; [by eapply fragment_ext|done|done].
Qed.

(** Nothing but edges from the source to the destination. *)
Lemma drawn_edges nfa b b' d S L :
  wf_nfa nfa -> fragment (nnodes nfa) (nnodes nfa) d S no_edges L ->
  (forall l j, bedge b' l j <-> bedge b l j \/ S l j) -> drawn nfa nfa b b' d L.
Proof.
  intros Hwf HF HB. split; [done|done|]. exists S, no_edges. split_and!; [done|intros i Hi; lia|done].
Qed.

Lemma draws_eps : draws (fun nfa b d => Some (nfa, addEpsilonTransition b d)) 0 lang_eps.
Proof.
  intros nfa b d Hb Hid Hd Hroom. destruct (addEpsilonTransition_spec b d Hb) as (Hb' & Hid' & He & Ha); [by eapply room_key|].
  eexists _, _. split; [reflexivity|]. split; [done|]. split; [done|]. split; [done|]. split; [lia|]. split; [done|].
  intros _ Hwf. eapply drawn_edges; [done|apply fragment_eps; lia|]. intros l j. rewrite He. done.
Qed.

(** ** Character sets *)

Lemma skip_while_spec p fuel : forall i, 0 <= i <= 128 -> 128 - i <= Z.of_nat fuel ->
  let j := skip_while fuel p i in
  i <= j <= 128 /\ (forall c, i <= c < j -> p c = true) /\ (j < 128 -> p j = false).
Proof.
  induction fuel as [|fuel IH]; intros i Hi Hf; simpl; [split_and!; lia|].
  destruct (Z.ltb_spec i 128); simpl; [|split_and!; lia]. destruct (p i) eqn:Ep; [|split_and!; [lia|lia|lia|done]].
  destruct (IH (i + 1)) as (? & Hin & ?); [lia|lia|]. split_and!; [lia|lia| |done].
  intros c Hc. destruct (decide (c = i)) as [->|]; [done|apply Hin; lia].
Qed.

Lemma runs_loop_spec p d fuel : forall i b, wf_builder b -> hs_key (T := NS) d -> 0 <= i <= 128 -> 128 - i < Z.of_nat fuel ->
  exists b', runs_loop fuel p i b d = Some b' /\ wf_builder b' /\ m_nodeId b' = m_nodeId b
    /\ (forall a, baccepts b' a <-> baccepts b a)
    /\ forall l j, bedge b' l j <-> bedge b l j \/ exists c, l = Some c /\ (i <= c < 128 /\ p c = true) /\ j = d.
Proof.
  induction fuel as [|fuel IH]; intros i b Hb Hk Hi Hf; [lia|]. cbn [runs_loop].
  pose proof (skip_while_spec (fun c => negb (p c)) 128 i Hi ltac:(lia)) as (Hs & Hout & Hstop).
  set (s := skip_while 128 (fun c => negb (p c)) i) in *.
  assert (Hno : forall c, i <= c < s -> p c = false) by (intros c Hc; apply negb_true_iff, Hout; lia).
  destruct (Z.eqb_spec s 128) as [E|Hne].
  { exists b. split_and!; try done. intros l j. split; [by left|]. intros [?|(c & _ & [Hc Hp] & _)]; [done|].
    rewrite Hno in Hp by lia. done. }
  assert (Hps : p s = true) by (apply negb_false_iff, Hstop; lia).
  pose proof (skip_while_spec p 128 (s + 1) ltac:(lia) ltac:(lia)) as (He & Hin & Hend).
  set (e := skip_while 128 p (s + 1)) in *.
  assert (Hrun : forall c, s <= c < e -> p c = true).
  { intros c Hc. destruct (decide (c = s)) as [->|]; [done|apply Hin; lia]. }
  destruct (addTransition_spec b s (e - 1) d Hb ltac:(lia) ltac:(lia) Hk) as (b1 & -> & Hb1 & Hid1 & He1 & Ha1).
  rewrite option_bind_Some. destruct (IH e b1 Hb1 Hk ltac:(lia) ltac:(lia)) as (b2 & -> & Hb2 & Hid2 & Ha2 & He2).
  exists b2. split_and!; [done|done|congruence|intros a; by rewrite Ha2, Ha1|]. intros l j. rewrite He2, He1. split.
  - intros [[?|(c & -> & Hc & ->)]|(c & -> & [Hc Hp] & ->)]; [by left|right..]; exists c; (split; [done|]); (split; [|done]).
    + split; [lia|apply Hrun; lia].
    + split; [lia|done].
  - intros [?|(c & -> & [Hc Hp] & ->)]; [by left; left|]. destruct (decide (c < e)) as [Hce|].
    + left. right. exists c. split; [done|]. split; [|done]. destruct (decide (c < s)); [|lia].
      rewrite Hno in Hp by lia. done.
    + right. exists c. split; [done|]. split; [|done]. split; [lia|done].
Qed.

Lemma get_bit cs c : 0 <= c < 128 -> default false (cs_get cs c) = cs_bit cs c.
Proof. intros Hc. by rewrite cs_get_bit. Qed.

Lemma draws_characterSet cs :
  draws (fun nfa b d => b ← generateCharacterSet cs b d; Some (nfa, b)) 0 (fun w => exists c, w = [c] /\ cs_matches cs c).
Proof.
  intros nfa b d Hb Hid Hd Hroom. assert (Hk : hs_key (T := NS) d) by by eapply room_key. unfold generateCharacterSet.
  assert (Hrun : exists b', (if negb (m_inverted cs) then runs_loop 129 (fun i => default false (cs_get cs i)) 0 b d
      else runs_loop 129 (fun i => negb (default false (cs_get cs i))) 1 b d) = Some b'
    /\ wf_builder b' /\ m_nodeId b' = m_nodeId b /\ (forall a, baccepts b' a <-> baccepts b a)
    /\ forall l j, bedge b' l j <-> bedge b l j \/ exists c, l = Some c /\ cs_matches cs c /\ j = d).
  { unfold cs_matches. destruct (m_inverted cs); cbn [negb].
    - destruct (runs_loop_spec (fun i => negb (default false (cs_get cs i))) d 129 1 b Hb Hk ltac:(lia) ltac:(lia)) as (b' & Hr & Hb' & Hid' & Ha' & He).
      exists b'. split; [exact Hr|]. clear Hr. split; [done|]. split; [done|]. split; [done|]. intros l j. rewrite He.
      split; (intros [?|(c & -> & [Hc Hp] & ->)]; [by left|right]); exists c; (split; [done|]); (split; [|done]); (split; [done|]).
      + rewrite get_bit in Hp by lia. by apply negb_true_iff.
      + rewrite get_bit by lia. by rewrite Hp.
    - destruct (runs_loop_spec (fun i => default false (cs_get cs i)) d 129 0 b Hb Hk ltac:(lia) ltac:(lia)) as (b' & Hr & Hb' & Hid' & Ha' & He).
      exists b'. split; [exact Hr|]. clear Hr. split; [done|]. split; [done|]. split; [done|]. intros l j. rewrite He.
      split; (intros [?|(c & -> & [Hc Hp] & ->)]; [by left|right]); exists c; (split; [done|]); (split; [|done]); (split; [done|]).
      + by rewrite get_bit in Hp by lia.
      + by rewrite get_bit by lia. }
  destruct Hrun as (b' & -> & Hb' & Hid' & Ha' & He). rewrite option_bind_Some. exists nfa, b'.
  split; [done|]. split; [done|]. split; [done|]. split; [done|]. split; [lia|]. split; [done|].
  intros _ Hwf. eapply drawn_edges; [done|apply (fragment_chars _ _ (cs_matches cs))|]. done.
Qed.

(** ** Quantifiers *)

Lemma draws_optional g cost L : draws g cost L -> draws (quantified g ZeroOrOne) cost (lang_quantified ZeroOrOne L).
Proof.
  intros Hg nfa b d Hb Hid Hd Hroom. destruct (Hg nfa b d Hb Hid Hd Hroom) as (nfa' & b1 & Hgen & Hb1 & Hid1 & Ha1 & Hn & Hle & Hsem).
  cbn [quantified]. rewrite Hgen, option_bind_Some.
  destruct (addEpsilonTransition_spec b1 d Hb1) as (Hb2 & Hid2 & He2 & Ha2); [by eapply room_key|].
  eexists _, _. split; [reflexivity|]. split; [done|]. split; [congruence|]. split; [intros a; by rewrite Ha2|].
  split; [done|]. split; [done|]. intros Hs Hwf. destruct (Hsem Hs Hwf) as [? ? (S & E & HF & HI & HB)].
  split; [done|done|]. eexists _, E. split; [by apply fragment_optional|]. split; [done|].
  intros l j. rewrite He2, HB. tauto.
Qed.

(** The edges of the node that closes a repetition. *)
Lemma repeatEnd_spec b s d :
  wf_builder b -> (forall l j, ~ bedge b l j) -> (forall a, ~ baccepts b a) -> hs_key (T := NS) s -> hs_key (T := NS) d ->
  let b' := addEpsilonTransition (addEpsilonTransition b s) d in
  wf_builder b' /\ m_nodeId b' = m_nodeId b /\ (forall l j, bedge b' l j <-> l = None /\ (j = s \/ j = d))
  /\ forall a, ~ baccepts b' a.
Proof.
  intros Hb Hno Hnoa Hs Hd. destruct (addEpsilonTransition_spec b s Hb Hs) as (Hb1 & Hid1 & He1 & Ha1).
  destruct (addEpsilonTransition_spec _ d Hb1 Hd) as (Hb2 & Hid2 & He2 & Ha2). cbv zeta. split_and!; [done|congruence| |].
  - intros l j. rewrite He2, He1. specialize (Hno l j). naive_solver.
  - intros a. rewrite Ha2, Ha1. apply Hnoa.
Qed.

Lemma repeatSource_spec b s d (optional : bool) :
  wf_builder b -> hs_key (T := NS) s -> hs_key (T := NS) d ->
  let b1 := addEpsilonTransition b s in
  let b' := if optional then addEpsilonTransition b1 d else b1 in
  wf_builder b' /\ m_nodeId b' = m_nodeId b
  /\ (forall l j, bedge b' l j <-> bedge b l j \/ (l = None /\ (j = s \/ (optional = true /\ j = d))))
  /\ forall a, baccepts b' a <-> baccepts b a.
Proof.
  intros Hb Hs Hd. destruct (addEpsilonTransition_spec b s Hb Hs) as (Hb1 & Hid1 & He1 & Ha1). cbv zeta.
  destruct optional.
  - destruct (addEpsilonTransition_spec _ d Hb1 Hd) as (Hb2 & Hid2 & He2 & Ha2). split_and!; [done|congruence| |].
    + intros l j. rewrite He2, He1. naive_solver.
    + intros a. by rewrite Ha2, Ha1.
  - split_and!; [done|done| |done]. intros l j. rewrite He1. naive_solver.
Qed.

Lemma draws_repeated g cost L optional :
  0 <= cost -> draws g cost L ->
  draws (fun nfa b d => repeated g nfa b d optional) (cost + 2) (lang_quantified (if optional then ZeroOrMore else OneOrMore) L).
Proof.
  intros Hc Hg nfa b d Hb Hid Hd Hroom. unfold repeated. cbv zeta. pose proof Hroom as (_ & Hr1 & Hr2).
  pose proof (newBuilder_any nfa ltac:(unfold room; lia)) as HA. destruct (newBuilder (NS := NS) (AS := AS) nfa) as [nfa1 b1].
  destruct HA as (Hb1 & Hid1 & Hn1 & Hle1 & Hno1 & Hnoa1 & Hsem1 & _).
  pose proof (newBuilder_any nfa1 ltac:(unfold room; lia)) as HB. destruct (newBuilder (NS := NS) (AS := AS) nfa1) as [nfa2 b2].
  destruct HB as (Hb2 & Hid2 & Hn2 & Hle2 & Hno2 & Hnoa2 & Hsem2 & _).
  destruct (Hg nfa2 b1 (m_nodeId b2) Hb1 ltac:(lia) ltac:(lia) ltac:(unfold room; lia)) as
    (nfa3 & b3 & -> & Hb3 & Hid3 & Ha3 & Hn3 & Hle3 & Hsem3).
  rewrite option_bind_Some, Hid1, Hid3, Hid1.
  assert (Hks : hs_key (T := NS) (nnodes nfa)) by (unfold hs_key; lia).
  assert (Hkd : hs_key (T := NS) d) by (unfold hs_key; lia).
  destruct (repeatEnd_spec b2 (nnodes nfa) d Hb2 Hno2 Hnoa2 Hks Hkd) as (Hb4 & Hid4 & He4 & Ha4).
  set (b4 := addEpsilonTransition (addEpsilonTransition b2 (nnodes nfa)) d) in *.
  destruct (repeatSource_spec b (nnodes nfa) d optional Hb Hks Hkd) as (Hb5 & Hid5 & He5 & Ha5).
  set (b5 := if optional then _ else _) in *.
  destruct (destroyBuilder_any nfa3 b4 Hb4 ltac:(lia)) as (nfa4 & -> & Hn4 & Hle4 & Hsem4). rewrite option_bind_Some.
  destruct (destroyBuilder_any nfa4 b3 Hb3 ltac:(lia)) as (nfa5 & -> & Hn5 & Hle5 & Hsem5). rewrite option_bind_Some.
  exists nfa5, b5. split; [done|]. split; [done|]. split; [done|]. split; [done|]. split; [lia|].
  split; [etrans; [exact Hle1|]; etrans; [exact Hle2|]; etrans; [exact Hle3|]; by etrans|]. intros Hs Hwf.
  destruct (Hsem1 Hwf) as [Hwf1 Hsame1]. destruct (Hsem2 Hwf1) as [Hwf2 Hsame2].
  assert (Hs4 : nfa_small nfa4) by by eapply nfa_le_small. assert (Hs3 : nfa_small nfa3) by by eapply nfa_le_small.
  destruct (Hsem3 Hs3 Hwf2) as [Hwf3 Hsame3 (S1 & E1 & HF1 & HI1 & HB1)].
  destruct (Hsem4 Hs4 Hwf3) as (Hwf4 & Hsame4 & Hedge4 & Hacc4). destruct (Hsem5 Hs Hwf4) as (Hwf5 & Hsame5 & Hedge5 & Hacc5).
  rewrite Hid4 in Hedge4, Hacc4, Hsame4. rewrite Hid3, Hid1 in Hedge5, Hacc5, Hsame5.
  replace (m_nodeId b2) with (nnodes nfa + 1) in * by lia. replace (nnodes nfa2) with (nnodes nfa + 2) in * by lia.
  split; [done| |].
  - intros i Hi. eapply same_node_trans; [apply Hsame1; lia|]. eapply same_node_trans; [apply Hsame2; lia|].
    eapply same_node_trans; [apply Hsame3; lia|]. eapply same_node_trans; [apply Hsame4; lia|apply Hsame5; lia].
  - exists (repeat_source (nnodes nfa) d optional), (repeat_graph (nnodes nfa) d S1 E1).
    replace (nnodes nfa5) with (nnodes nfa3) by lia. split; [apply fragment_repeat; [done|lia]|]. split; [|intros l j; rewrite He5; done].
    pose proof HF1 as [_ _ _ HI _]. intros i Hi. unfold repeat_graph.
    assert (Hcase : i = nnodes nfa \/ i = nnodes nfa + 1 \/ nnodes nfa + 2 <= i < nnodes nfa3) by lia.
    destruct Hcase as [->|[->|Hi']].
    + split.
      * intros l j. rewrite Hedge5, HB1. specialize (Hno1 l j). split; [naive_solver|].
        intros [[_ ?]|[[? _]|He]]; [by right|lia|]. apply HI in He as [? _]. lia.
      * intros a. rewrite Hacc5, Ha3. apply Hnoa1.
    + pose proof (Hsame5 (nnodes nfa + 1) ltac:(lia) ltac:(lia)) as Hsm. split.
      * intros l j. rewrite (same_node_edge _ _ _ _ _ Hsm), Hedge4, He4. split; [intros [-> ?]; by right; left|].
        intros [[? _]|[(_ & ? & ?)|He]]; [lia|done|]. apply HI in He as [? _]. lia.
      * intros a. rewrite (same_node_accepts _ _ _ _ Hsm), Hacc4. apply Ha4.
    + assert (Hsm : same_node nfa3 nfa5 i) by (eapply same_node_trans; [apply Hsame4; lia|apply Hsame5; lia]).
      destruct (HI1 i Hi') as [He Ha]. split.
      * intros l j. rewrite (same_node_edge _ _ _ _ _ Hsm), He. split; [by right; right|].
        intros [[? _]|[[? _]|?]]; [lia|lia|done].
      * intros a. rewrite (same_node_accepts _ _ _ _ Hsm). apply Ha.
Qed.

(** The number of nodes a quantifier adds. *)
Definition quantified_cost (q : AtomQuantifier) (cost : Z) : Z :=
  match q with One | ZeroOrOne => cost | _ => cost + 2 end.

Lemma draws_quantified g q cost L : 0 <= cost -> draws g cost L -> draws (quantified g q) (quantified_cost q cost) (lang_quantified q L).
Proof.
  intros Hc Hg. destruct q.
  - exact Hg.
  - by apply draws_optional.
  - by apply (draws_repeated g cost L true).
  - by apply (draws_repeated g cost L false).
Qed.

(** ** Groups *)

Lemma to_new_end_spec g cost L nfa b acts :
  0 <= cost -> draws g cost L -> wf_builder b -> 0 <= m_nodeId b < nnodes nfa -> room nfa (cost + 1) ->
  Forall (hs_key (T := AS)) acts ->
  exists nfa' b' e, to_new_end g nfa b acts = Some (nfa', b', e) /\ wf_builder b' /\ m_nodeId b' = m_nodeId b
    /\ (forall a, baccepts b' a <-> baccepts b a) /\ wf_builder e /\ m_nodeId e = nnodes nfa
    /\ (forall l j, ~ bedge e l j) /\ (forall a, baccepts e a <-> a ∈ acts)
    /\ nnodes nfa' = nnodes nfa + (cost + 1) /\ nfa_le nfa nfa'
    /\ (nfa_small nfa' -> wf_nfa nfa ->
        wf_nfa nfa' /\ (forall i, 0 <= i < nnodes nfa -> same_node nfa nfa' i)
        /\ (forall l j, ~ edge nfa' (nnodes nfa) l j) /\ (forall a, ~ accepts nfa' (nnodes nfa) a)
        /\ exists S E, fragment (nnodes nfa + 1) (nnodes nfa') (nnodes nfa) S E L
          /\ interior nfa' (nnodes nfa + 1) (nnodes nfa') E /\ forall l j, bedge b' l j <-> bedge b l j \/ S l j).
Proof.
  intros Hc Hg Hb Hid (_ & Hr1 & Hr2) Hacts. unfold to_new_end.
  pose proof (newBuilder_any nfa ltac:(unfold room; lia)) as HA. destruct (newBuilder (NS := NS) (AS := AS) nfa) as [nfa1 e].
  destruct HA as (He & Hide & Hn1 & Hle1 & Hno & Hnoa & Hsem1 & Hnone & Hnonea).
  destruct (Hg nfa1 b (m_nodeId e) Hb ltac:(lia) ltac:(lia) ltac:(unfold room; lia)) as
    (nfa2 & b2 & -> & Hb2 & Hid2 & Ha2 & Hn2 & Hle2 & Hsem2). rewrite option_bind_Some.
  destruct (setActions_spec e acts He Hacts) as (He' & Hide' & Hee & Hea).
  exists nfa2, b2, (setActions e acts). split; [done|]. split; [done|]. split; [done|]. split; [done|]. split; [done|].
  split; [congruence|]. split; [intros l j; by rewrite Hee|]. split.
  { intros a. rewrite Hea. specialize (Hnoa a). tauto. }
  split; [lia|]. split; [by etrans|]. intros Hs Hwf. destruct (Hsem1 Hwf) as [Hwf1 Hsame1].
  destruct (Hsem2 Hs Hwf1) as [Hwf2 Hsame2 (S & E & HF & HI & HB)]. rewrite Hn1, Hide in *. split; [done|].
  assert (Hnew : same_node nfa1 nfa2 (nnodes nfa)) by (apply Hsame2; lia). split_and!.
  - intros i Hi. eapply same_node_trans; [apply Hsame1; lia|apply Hsame2; lia].
  - intros l j. by rewrite (same_node_edge _ _ _ _ _ Hnew).
  - intros a. by rewrite (same_node_accepts _ _ _ _ Hnew).
  - by exists S, E.
Qed.

(** The rest of a group, from its last target: the node of [b] is finished. *)
Record chained (nfa nfa' : NFA) b (d : Z) (L : lang) : Prop := {
  ch_wf : wf_nfa nfa';
  ch_same : forall i, 0 <= i < nnodes nfa -> i <> m_nodeId b -> same_node nfa nfa' i;
  ch_accepts : forall a, accepts nfa' (m_nodeId b) a <-> baccepts b a;
  ch_frag : exists S E, fragment (nnodes nfa) (nnodes nfa') d S E L
    /\ interior nfa' (nnodes nfa) (nnodes nfa') E /\ forall l j, edge nfa' (m_nodeId b) l j <-> bedge b l j \/ S l j
}.

Definition chains (gs : list (generator NS AS)) (cost : Z) (L : lang) : Prop :=
  forall nfa b d, wf_builder b -> 0 <= m_nodeId b < nnodes nfa -> 0 <= d < nnodes nfa -> room nfa cost ->
  exists nfa', chain_terms gs nfa b d = Some nfa' /\ nnodes nfa' = nnodes nfa + cost /\ nfa_le nfa nfa'
    /\ (nfa_small nfa' -> wf_nfa nfa -> chained nfa nfa' b d L).

Lemma chains_last g cost L : 0 <= cost -> draws g cost L -> chains [g] cost L.
Proof.
  intros Hc Hg nfa b d Hb Hid Hd Hroom. cbn [chain_terms].
  destruct (Hg nfa b d Hb Hid Hd Hroom) as (nfa1 & b1 & -> & Hb1 & Hid1 & Ha1 & Hn1 & Hle1 & Hsem1). rewrite option_bind_Some.
  destruct (destroyBuilder_any nfa1 b1 Hb1 ltac:(lia)) as (nfa2 & -> & Hn2 & Hle2 & Hsem2). exists nfa2.
  split; [done|]. split; [lia|]. split; [by etrans|]. intros Hs Hwf.
  assert (Hs1 : nfa_small nfa1) by by eapply nfa_le_small. destruct (Hsem1 Hs1 Hwf) as [Hwf1 Hsame1 (S & E & HF & HI & HB)].
  destruct (Hsem2 Hs Hwf1) as (Hwf2 & Hsame2 & Hedge & Hacc). rewrite Hid1 in *. split; [done| | |].
  - intros i Hi Hni. eapply same_node_trans; [apply Hsame1; lia|apply Hsame2; lia].
  - intros a. by rewrite Hacc.
  - exists S, E. replace (nnodes nfa2) with (nnodes nfa1) by lia. split; [done|]. split.
    + eapply interior_same; [|exact HI]. intros i Hi. apply Hsame2; lia.
    + intros l j. by rewrite Hedge.
Qed.

(** An interior made of a first piece, the node between, and the rest. *)
Lemma interior_sequence nfa n n1 n2 d S1 S2 E1 E2 L1 L2 :
  fragment (n + 1) n1 n S1 E1 L1 -> fragment n1 n2 d S2 E2 L2 ->
  interior nfa (n + 1) n1 E1 -> interior nfa n1 n2 E2 -> (forall l j, edge nfa n l j <-> S2 l j) ->
  (forall a, ~ accepts nfa n a) -> interior nfa n n2 (sequence_graph n S2 E1 E2).
Proof.
  intros [R1 _ _ I1 _] [R2 _ _ I2 _] H1' H2' He Ha i Hi. unfold sequence_graph.
  assert (Hcase : i = n \/ n + 1 <= i < n1 \/ n1 <= i < n2) by lia. destruct Hcase as [->|[Hi'|Hi']].
  - split; [|done]. intros l j. rewrite He. split; [auto|]. intros [H3|[[_ ?]|H3]]; [|done|].
    + apply I1 in H3 as [? _]. lia.
    + apply I2 in H3 as [? _]. lia.
  - destruct (H1' i Hi') as [He1 Ha1]. split; [|done]. intros l j. rewrite He1. split; [auto|].
    intros [?|[[? _]|H3]]; [done|lia|]. apply I2 in H3 as [? _]. lia.
  - destruct (H2' i Hi') as [He2 Ha2]. split; [|done]. intros l j. rewrite He2. split; [auto|].
    intros [H3|[[? _]|?]]; [|lia|done]. apply I1 in H3 as [? _]. lia.
Qed.

Lemma chains_cons g gs cost1 cost2 L1 L2 :
  gs <> [] -> 0 <= cost1 -> 0 <= cost2 -> draws g cost1 L1 -> chains gs cost2 L2 ->
  chains (g :: gs) (cost1 + 1 + cost2) (lang_app L1 L2).
Proof.
  intros Hne Hc1 Hc2 Hg Hgs nfa b d Hb Hid Hd (_ & Hr1 & Hr2). destruct gs as [|g2 gs]; [done|].
  change (chain_terms (g :: g2 :: gs) nfa b d) with
    ('(nfa, lastTarget, newNode) ← to_new_end g nfa b [];
     '(nfa, lastTarget) ← moveAssign nfa lastTarget newNode;
     chain_terms (g2 :: gs) nfa lastTarget d).
  destruct (to_new_end_spec g cost1 L1 nfa b [] Hc1 Hg Hb Hid) as
    (nfa1 & b1 & e & -> & Hb1 & Hid1 & Ha1 & He & Hide & Hnoe & Hacce & Hn1 & Hle1 & Hsem1); [unfold room; lia|constructor|].
  rewrite option_bind_Some. unfold moveAssign.
  destruct (destroyBuilder_any nfa1 b1 Hb1 ltac:(lia)) as (nfa2 & -> & Hn2 & Hle2 & Hsem2). rewrite !option_bind_Some.
  destruct (Hgs nfa2 e d He ltac:(lia) ltac:(lia) ltac:(unfold room; lia)) as (nfa3 & -> & Hn3 & Hle3 & Hsem3).
  exists nfa3. split; [done|]. split; [lia|]. split; [etrans; [exact Hle1|by etrans]|]. intros Hs Hwf.
  assert (Hs2 : nfa_small nfa2) by by eapply nfa_le_small. assert (Hs1 : nfa_small nfa1) by by eapply nfa_le_small.
  destruct (Hsem1 Hs1 Hwf) as (Hwf1 & Hsame1 & _ & _ & S1 & E1 & HF1 & HI1 & HB1).
  destruct (Hsem2 Hs2 Hwf1) as (Hwf2 & Hsame2 & Hedge2 & Hacc2). rewrite Hid1 in Hsame2, Hedge2, Hacc2.
  destruct (Hsem3 Hs Hwf2) as [Hwf3 Hsame3 Hacc3 (S2 & E2 & HF2 & HI2 & HB2)]. rewrite Hide in Hsame3, Hacc3, HB2.
  rewrite Hn2 in HF2, HI2. assert (Hb3 : same_node nfa2 nfa3 (m_nodeId b)) by (apply Hsame3; lia). split; [done| | |].
  - intros i Hi Hni. eapply same_node_trans; [apply Hsame1; lia|]. eapply same_node_trans; [apply Hsame2; lia|apply Hsame3; lia].
  - intros a. by rewrite (same_node_accepts _ _ _ _ Hb3), Hacc2.
  - exists S1, (sequence_graph (nnodes nfa) S2 E1 E2). split; [eapply fragment_sequence; [done|done|lia]|]. split.
    + eapply interior_sequence; [done|done| |done| |].
      * eapply interior_same; [|exact HI1]. intros i Hi. eapply same_node_trans; [apply Hsame2; lia|apply Hsame3; lia].
      * intros l j. rewrite HB2. specialize (Hnoe l j). tauto.
      * intros a. rewrite Hacc3, Hacce. apply not_elem_of_nil.
    + intros l j. by rewrite (same_node_edge _ _ _ _ _ Hb3), Hedge2.
Qed.

Lemma chains_ext gs cost L L' : (forall w, L w <-> L' w) -> chains gs cost L -> chains gs cost L'.
Proof.
  intros HL Hg nfa b d Hb Hid Hd Hroom. destruct (Hg nfa b d Hb Hid Hd Hroom) as (nfa' & ? & ? & ? & Hsem).
  exists nfa'. split; [done|]. split; [done|]. split; [done|]. intros Hs Hwf.
  destruct (Hsem Hs Hwf) as [? ? ? (S & E & HF & HI & HB)]. split; [done|done|done|].
  exists S, E. split; [by eapply fragment_ext|done].
Qed.

Lemma lang_app_eps L w : L w <-> lang_app L lang_eps w.
Proof.
  split; [intros Hw; exists w, []; by rewrite app_nil_r|]. intros (u & v & -> & Hu & ->). by rewrite app_nil_r.
Qed.

(** The number of nodes of a group: one between each two terms. *)
Fixpoint group_cost (costs : list Z) : Z :=
  match costs with
  | [] => 0
  | [c] => c
  | c :: costs => c + 1 + group_cost costs
  end.

Lemma group_cost_nonneg costs : Forall (fun c => 0 <= c) costs -> 0 <= group_cost costs.
Proof. induction 1 as [|c costs Hc _ IH]; simpl; [lia|]. destruct costs; lia. Qed.

(** Generators with their costs and languages. *)
Inductive all_draw : list (generator NS AS) -> list Z -> list lang -> Prop :=
| all_draw_nil : all_draw [] [] []
| all_draw_cons g gs c cs L Ls : 0 <= c -> draws g c L -> all_draw gs cs Ls -> all_draw (g :: gs) (c :: cs) (L :: Ls).

Lemma all_draw_cost gs cs Ls : all_draw gs cs Ls -> 0 <= group_cost cs.
Proof. intros Ha. apply group_cost_nonneg. by induction Ha; constructor. Qed.

Lemma chains_all gs cs Ls : all_draw gs cs Ls -> gs <> [] -> chains gs (group_cost cs) (lang_sequence Ls).
Proof.
  induction 1 as [|g gs c cs L Ls Hc Hg Hall IH]; [done|]. intros _. destruct Hall as [|g2 gs c2 cs L2 Ls Hc2 Hg2 Hall].
  - eapply chains_ext; [|by apply chains_last]. intros w. apply lang_app_eps.
  - change (group_cost (c :: c2 :: cs)) with (c + 1 + group_cost (c2 :: cs)). apply chains_cons; try done.
    + by eapply all_draw_cost, all_draw_cons.
    + by apply IH.
Qed.

Lemma draws_group gs cs Ls : all_draw gs cs Ls -> draws (generateGroup gs) (group_cost cs) (lang_sequence Ls).
Proof.
  intros Hall. destruct Hall as [|g gs c cs L Ls Hc Hg Hall]; [apply draws_eps|].
  destruct gs as [|g2 gs].
  { inversion Hall; subst. eapply draws_ext; [|exact Hg]. intros w. apply lang_app_eps. }
  pose proof (chains_all _ _ _ Hall ltac:(done)) as Hch. pose proof (all_draw_cost _ _ _ Hall) as Hcost.
  assert (group_cost (c :: cs) = c + 1 + group_cost cs) as -> by (by inversion Hall).
  clear Hall. revert Hch Hcost. generalize (group_cost cs) as cost2. intros cost2 Hch Hcost nfa b d Hb Hid Hd (_ & Hr1 & Hr2).
  change (generateGroup (g :: g2 :: gs) nfa b d) with
    ('(nfa, source, lastTarget) ← to_new_end g nfa b [];
     nfa ← chain_terms (g2 :: gs) nfa lastTarget d;
     Some (nfa, source)).
  destruct (to_new_end_spec g c L nfa b [] Hc Hg Hb Hid) as
    (nfa1 & b1 & e & -> & Hb1 & Hid1 & Ha1 & He & Hide & Hnoe & Hacce & Hn1 & Hle1 & Hsem1); [unfold room; lia|constructor|].
  rewrite option_bind_Some.
  destruct (Hch nfa1 e d He ltac:(lia) ltac:(lia) ltac:(unfold room; lia)) as (nfa2 & -> & Hn2 & Hle2 & Hsem2).
  rewrite option_bind_Some. exists nfa2, b1. split; [done|]. split; [done|]. split; [done|]. split; [done|].
  split; [lia|]. split; [by etrans|]. intros Hs Hwf. assert (Hs1 : nfa_small nfa1) by by eapply nfa_le_small.
  destruct (Hsem1 Hs1 Hwf) as (Hwf1 & Hsame1 & _ & _ & S1 & E1 & HF1 & HI1 & HB1).
  destruct (Hsem2 Hs Hwf1) as [Hwf2 Hsame2 Hacc2 (S2 & E2 & HF2 & HI2 & HB2)]. rewrite Hide in Hsame2, Hacc2, HB2.
  split; [done| |].
  - intros i Hi. eapply same_node_trans; [apply Hsame1; lia|apply Hsame2; lia].
  - exists S1, (sequence_graph (nnodes nfa) S2 E1 E2). split; [eapply fragment_sequence; [done|done|lia]|]. split; [|done].
    eapply interior_sequence; [done|done| |done| |].
    + eapply interior_same; [|exact HI1]. intros i Hi. apply Hsame2; lia.
    + intros l j. rewrite HB2. specialize (Hnoe l j). tauto.
    + intros a. rewrite Hacc2, Hacce. apply not_elem_of_nil.
Qed.

(** ** Terms *)

Fixpoint atom_nodes (t : Term) : Z :=
  match t with
  | EmptyTerm _ | CharacterSetTerm _ _ => 0
  | GroupTerm _ terms => group_cost (map (fun t => quantified_cost (m_quantifier t) (atom_nodes t)) terms)
  end.

Definition term_nodes (t : Term) : Z := quantified_cost (m_quantifier t) (atom_nodes t).

Lemma quantified_cost_nonneg q c : 0 <= c -> 0 <= quantified_cost q c.
Proof. destruct q; simpl; lia. Qed.

Lemma draws_atom t : 0 <= atom_nodes t /\ draws (generateSubgraphForAtom t) (atom_nodes t) (atom_lang t).
Proof.
  induction t as [q|q cs|q ts IH] using Term_ind'.
  - split; [simpl; lia|apply draws_eps].
  - split; [simpl; lia|apply draws_characterSet].
  - assert (Hall : all_draw (map (fun t => quantified (generateSubgraphForAtom t) (m_quantifier t)) ts)
      (map (fun t => quantified_cost (m_quantifier t) (atom_nodes t)) ts)
      (map (fun t => lang_quantified (m_quantifier t) (atom_lang t)) ts)).
    { induction IH as [|t ts [Hc Ht] _ IHts]; simpl; constructor; [by apply quantified_cost_nonneg|by apply draws_quantified|done]. }
    split; [by eapply all_draw_cost|by apply draws_group].
Qed.

Lemma draws_term t : 0 <= term_nodes t /\ draws (generateGraph t) (term_nodes t) (term_lang t).
Proof. destruct (draws_atom t) as [Hc Ht]. split; [by apply quantified_cost_nonneg|by apply draws_quantified]. Qed.
End Draws.

Lemma term_nodes_nonneg t : 0 <= term_nodes t.
Proof.
  apply quantified_cost_nonneg. induction t as [q|q cs|q ts IH] using Term_ind'; simpl; [lia|lia|].
  apply group_cost_nonneg. induction IH; simpl; constructor; [by apply quantified_cost_nonneg|done].
Qed.

(** * Paths of NFAs and of graphs *)

Lemma nfa_path_gpath nfa i w j : nfa_path nfa i w j <-> gpath (edge nfa) i w j.
Proof.
  split.
  - induction 1 as [|i k w j He _ IH|i c k w j He _ IH]; [constructor| |].
    + by apply (gpath_step _ i None k).
    + by apply (gpath_step _ i (Some c) k).
  - induction 1 as [|i [c|] k w j He _ IH]; [constructor|by eapply path_char|by eapply path_eps].
Qed.

Lemma gpath_ext (E E' : graph) i w j : (forall i l k, E i l k <-> E' i l k) -> gpath E i w j <-> gpath E' i w j.
Proof. intros HE. split; apply gpath_mono; intros; by apply HE. Qed.

Lemma edge_source nfa i l j : edge nfa i l j -> 0 <= i < nnodes nfa.
Proof.
  destruct l as [c|]; simpl.
  - intros (rs & ts & Hrs & _). unfold transitionsForNode in Hrs. destruct ((nfa_nodes nfa).[i]) eqn:E; [|done]. by apply vec_at_lt in E.
  - intros (ts & Hts & _). unfold epsilonTargets in Hts. destruct ((nfa_nodes nfa).[i]) eqn:E; [|done]. by apply vec_at_lt in E.
Qed.

Lemma accepts_node nfa i a : accepts nfa i a -> 0 <= i < nnodes nfa.
Proof. intros (acts & Ha & _). unfold nodeActions in Ha. destruct ((nfa_nodes nfa).[i]) eqn:E; [|done]. by apply vec_at_lt in E. Qed.

(** * What is guaranteed for terms *)

(** The parallel bit count of a 64-bit word is the number of its bits
    that are set. *)
Theorem bitCount64_popcount (bits : Z) : bitCount64 bits = popcount 64 bits.
Proof. apply bitCount64_spec. Qed.

(** A term that is known to match any string does match every text
    without a terminator. *)
Theorem isKnownToMatchAnyString_correct (t : Term) (w : list Z) :
  isKnownToMatchAnyString t = true -> Forall text_char w -> term_lang t w.
Proof. intros Hk. by apply isKnownToMatchAnyString_sound. Qed.

(** All the texts a term of fixed length matches have the same length. *)
Theorem hasFixedLength_correct (t : Term) (w w' : list Z) :
  hasFixedLength t = true -> term_lang t w -> term_lang t w' -> length w = length w'.
Proof. intros (n & Hn)%hasFixedLength_sound Hw Hw'. by rewrite (Hn w Hw), (Hn w' Hw'). Qed.

(** When a term is said to match at least one character, every text it
    matches contains a character other than the terminator, provided only the
    end-of-line assertion contains the terminator. *)
Theorem matchesAtLeastOneCharacter_correct (t : Term) (w : list Z) :
  eol_pure t -> matchesAtLeastOneCharacter t = true -> term_lang t w -> exists c, c ∈ w /\ c <> 0.
Proof. intros Hp Hm. by apply matchesAtLeastOneCharacter_sound. Qed.

(** ** Samples *)

Module TermExample.
Definition dot_star : Term := quantify (default groupTerm universalTransition) ZeroOrMore.

Lemma isKnownToMatchAnyString_correct_witness : term_lang dot_star [104; 105].
Proof.
  apply (isKnownToMatchAnyString_correct dot_star [104; 105]).
  - vm_compute. reflexivity.
  - repeat apply List.Forall_cons; try apply List.Forall_nil; split; lia.
Defined.

(** The set of "." and "/". *)
Definition dot_or_slash : Term := CharacterSetTerm One (mkCharacterSet false (Z.shiftl 3 46) 0).

Lemma dot_or_slash_matches c : c = 46 \/ c = 47 -> term_lang dot_or_slash [c].
Proof. intros Hc. exists c. split; [done|]. destruct Hc as [->| ->]; (split; [lia|vm_compute; reflexivity]). Qed.

Lemma hasFixedLength_correct_witness : length [46] = length [47].
Proof.
  apply (hasFixedLength_correct dot_or_slash [46] [47]).
  - vm_compute. reflexivity.
  - apply dot_or_slash_matches. by left.
  - apply dot_or_slash_matches. by right.
Defined.

Lemma matchesAtLeastOneCharacter_correct_witness : exists c, c ∈ [46] /\ c <> 0.
Proof.
  apply (matchesAtLeastOneCharacter_correct dot_or_slash [46]).
  - intros Hb. vm_compute in Hb. discriminate Hb.
  - vm_compute. reflexivity.
  - apply dot_or_slash_matches. by left.
Defined.
End TermExample.
