(* ===== verification/Actions.v ===== *)
(** * Rules, actions and their serialized form (ContentExtensionActions.h,
      ContentExtensionRule.h, ContentExtensionRule.cpp,
      ContentExtensionCompiler.cpp)

    The actions of a rule list are written into one vector of bytes; a rule is
    then represented by the location of its action.  Rules whose actions have
    the same effect share a location: block and block-cookies actions with the
    same flags, and the selectors of rules with the same trigger.  Only an
    ignore-previous-rules action separates what comes before it from what
    comes after it. *)

From S2P Require Import Prelude.

(** ** Strings

    A WTF string stores its characters in 8 or in 16 bits; the serialized form
    depends on it. *)

Record WString := mkWString { is8Bit : bool; characters : list Z }.

#[export] Instance WString_eq_dec : EqDecision WString.
Proof. solve_decision. Defined.

(** [StringBuilder], as far as the selectors are combined with it: 8-bit
    characters keep the width of the builder, 16-bit characters widen it unless
    it is a single Latin-1 character; the first string is retained as it is. *)
Definition append8 (b : WString) (cs : list Z) : WString := mkWString (is8Bit b) (characters b ++ cs).

Definition append16 (b : WString) (cs : list Z) : WString :=
  match cs with
  | [] => b
  | c :: rest =>
      if is8Bit b && bool_decide (rest = []) && (c <=? 255) then append8 b cs
      else mkWString false (characters b ++ cs)
  end.

Definition builder_append (b s : WString) : WString :=
  match characters b, characters s with
  | _, [] => b
  | [], _ => s
  | _, cs => if is8Bit s then append8 b cs else append16 b cs
  end.

Definition comma : WString := mkWString true [44].

(** ** Actions and rules *)

Inductive ActionType :=
| BlockLoad | BlockCookies | CSSDisplayNoneSelector | CSSDisplayNoneStyleSheet | IgnorePreviousRules | InvalidAction.

#[export] Instance ActionType_eq_dec : EqDecision ActionType.
Proof. solve_decision. Defined.

Definition ActionType_code (t : ActionType) : Z :=
  match t with
  | BlockLoad => 0 | BlockCookies => 1 | CSSDisplayNoneSelector => 2 | CSSDisplayNoneStyleSheet => 3
  | IgnorePreviousRules => 4 | InvalidAction => 5
  end.

(** The cast of a byte: other values are no enumerators. *)
Definition ActionType_of (code : Z) : option ActionType :=
  List.find (fun t => ActionType_code t =? code)
    [BlockLoad; BlockCookies; CSSDisplayNoneSelector; CSSDisplayNoneStyleSheet; IgnorePreviousRules; InvalidAction].

Definition emptyWString : WString := mkWString true [].

Record Action := mkActionFor {
  extensionIdentifier : WString;
  action_type : ActionType;
  actionID : Z;
  stringArgument : WString
}.

(** The constructors; the identifier of the extension is set later. *)
Definition mkAction : ActionType -> Z -> WString -> Action := mkActionFor emptyWString.

Definition setExtensionIdentifier (a : Action) (identifier : WString) : Action :=
  mkActionFor identifier (action_type a) (actionID a) (stringArgument a).

Inductive DomainCondition := NoDomain | IfDomain | UnlessDomain.

#[export] Instance DomainCondition_eq_dec : EqDecision DomainCondition.
Proof. solve_decision. Defined.

Record Trigger := mkTrigger {
  urlFilter : WString;
  urlFilterIsCaseSensitive : bool;
  trigger_flags : Z;
  domains : list WString;
  domainCondition : DomainCondition
}.

#[export] Instance Trigger_eq_dec : EqDecision Trigger.
Proof. solve_decision. Defined.

(** Strings compare by their characters, so triggers do. *)
Definition same_characters (a b : WString) : bool := bool_decide (characters a = characters b).

Definition Trigger_equal (a b : Trigger) : bool :=
  same_characters (urlFilter a) (urlFilter b)
  && eqb (urlFilterIsCaseSensitive a) (urlFilterIsCaseSensitive b)
  && (trigger_flags a =? trigger_flags b)
  && bool_decide (map characters (domains a) = map characters (domains b))
  && bool_decide (domainCondition a = domainCondition b).

Record ContentExtensionRule := mkRule { trigger : Trigger; action : Action }.

Section Serialization.
Context `{Host}.

(** ** Reading *)

(** The fields of a serialized selector: type, length, width. *)
Definition headerLength : Z := 1 + 4 + 1.

Definition read_characters (size : nat) (actions : list Z) (start count : Z) : option (list Z) :=
  mapM (fun i => load size actions (start + i * Z.of_nat size)) (seqZ 0 count).

Definition deserialize (actions : list Z) (actionsLength location : Z) : option Action :=
  if location <? actionsLength then
    code ← actions.[location];
    type ← ActionType_of code;
    match type with
    | BlockCookies | BlockLoad | IgnorePreviousRules => Some (mkAction type location emptyWString)
    | CSSDisplayNoneSelector =>
        let stringStartIndex := u32 (location + headerLength) in
        if stringStartIndex <=? actionsLength then
          selectorLength ← load 4 actions (location + 1);
          wide ← actions.[location + 1 + 4];
          let size := if negb (wide =? 0) then 2%nat else 1%nat in
          if stringStartIndex + selectorLength * Z.of_nat size <=? actionsLength then
            cs ← read_characters size actions stringStartIndex selectorLength;
            Some (mkAction CSSDisplayNoneSelector location (mkWString (wide =? 0) cs))
          else None
        else None
    | CSSDisplayNoneStyleSheet | InvalidAction => None
    end
  else None.

Definition deserializeType (actions : list Z) (actionsLength location : Z) : option ActionType :=
  if location <? actionsLength then
    code ← actions.[location];
    type ← ActionType_of code;
    match type with
    | BlockCookies | BlockLoad | IgnorePreviousRules | CSSDisplayNoneSelector => Some type
    | CSSDisplayNoneStyleSheet | InvalidAction => None
    end
  else None.

Definition serializedLength (actions : list Z) (actionsLength location : Z) : option Z :=
  if location <? actionsLength then
    code ← actions.[location];
    type ← ActionType_of code;
    match type with
    | BlockCookies | BlockLoad | IgnorePreviousRules => Some 1
    | CSSDisplayNoneSelector =>
        let stringStartIndex := u32 (location + headerLength) in
        if stringStartIndex <=? actionsLength then
          selectorLength ← load 4 actions (location + 1);
          wide ← actions.[location + 1 + 4];
          Some (u32 (headerLength + selectorLength * (if negb (wide =? 0) then 2 else 1)))
        else None
    | CSSDisplayNoneStyleSheet | InvalidAction => None
    end
  else None.

(** ** Writing *)

(** The loop that writes 16-bit characters. *)
Fixpoint write_wide (actions : list Z) (position : Z) (cs : list Z) : option (list Z) :=
  match cs with
  | [] => Some actions
  | c :: cs => actions ← store 2 actions position c; write_wide actions (position + 2) cs
  end.

Definition serializeSelector (actions : list Z) (selector : WString) : option (list Z) :=
  let actions := actions ++ [ActionType_code CSSDisplayNoneSelector] in
  let selectorLength := u32 (vlen (characters selector)) in
  let actions := actions ++ replicate 4 0 in
  actions ← store 4 actions (vlen actions - 4) selectorLength;
  let actions := actions ++ [Z.b2z (negb (is8Bit selector))] in
  if negb (is8Bit selector) then
    let startIndex := vlen actions in
    write_wide (actions ++ replicate (2 * length (characters selector)) 0) startIndex (characters selector)
  else Some (actions ++ characters selector).

Record PendingDisplayNoneActions := mkPending { selectors : list WString; clientLocations : list Z }.

(** A hash map from triggers: its slots; a slot is found by the triggers' equality. *)
Definition PendingMap : Type := list (Trigger * PendingDisplayNoneActions).

(** [add], then append to the slot's two vectors. *)
Fixpoint add_pending (m : PendingMap) (t : Trigger) (selector : WString) (client : Z) : PendingMap :=
  match m with
  | [] => [(t, mkPending [selector] [client])]
  | (t', p) :: m =>
      if Trigger_equal t' t
      then (t', mkPending (selectors p ++ [selector]) (clientLocations p ++ [client])) :: m
      else (t', p) :: add_pending m t selector client
  end.

Fixpoint combine_loop_selectors (b : WString) (i : Z) (l : list WString) : WString :=
  match l with
  | [] => b
  | s :: l => combine_loop_selectors (builder_append (if negb (i =? 0) then builder_append b comma else b) s) (i + 1) l
  end.

Definition combinedSelectors (l : list WString) : WString := combine_loop_selectors emptyWString 0 l.

Definition set_locations (actionLocations : list Z) (clients : list Z) (location : Z) : option (list Z) :=
  foldl (fun locs client => locs ← locs; vec_set locs client location) (Some actionLocations) clients.

Fixpoint resolve_loop (actions actionLocations : list Z) (slots : PendingMap) : option (list Z * list Z) :=
  match slots with
  | [] => Some (actions, actionLocations)
  | (_, p) :: slots =>
      let actionLocation := u32 (vlen actions) in
      actions ← serializeSelector actions (combinedSelectors (selectors p));
      actionLocations ← set_locations actionLocations (clientLocations p) actionLocation;
      resolve_loop actions actionLocations slots
  end.

(** The order in which a hash map is iterated. *)
Variable iteration_order : PendingMap -> PendingMap.

Definition resolvePendingDisplayNoneActions (actions actionLocations : list Z) (m : PendingMap)
    : option (list Z * list Z * PendingMap) :=
  '(actions, actionLocations) ← resolve_loop actions actionLocations (iteration_order m);
  Some (actions, actionLocations, []).

(** The variables of [serializeActions]. *)
Record serialize_state := mkSerialize {
  ss_actions : list Z;
  ss_locations : list Z;
  blockActionsMap : gmap Z Z;
  blockCookiesActionsMap : gmap Z Z;
  cssDisplayNoneActionsMap : PendingMap;
  ignorePreviousRuleActionsMap : gmap Z Z
}.

(** Find the action for the flags, or append one byte for it. *)
Definition find_or_append (actions : list Z) (m : gmap Z Z) (flags : Z) (type : ActionType) : list Z * gmap Z Z * Z :=
  match m !! flags with
  | Some location => (actions, m, location)
  | None =>
      let location := u32 (vlen actions) in
      (actions ++ [ActionType_code type], <[flags := location]> m, location)
  end.

(** The maps an action type invalidates. *)
Definition before_rule (s : serialize_state) (type : ActionType) : option serialize_state :=
  if decide (type = IgnorePreviousRules) then
    '(actions, locations, _) ←
      resolvePendingDisplayNoneActions (ss_actions s) (ss_locations s) (cssDisplayNoneActionsMap s);
    Some (mkSerialize actions locations ∅ ∅ [] (ignorePreviousRuleActionsMap s))
  else Some (mkSerialize (ss_actions s) (ss_locations s) (blockActionsMap s) (blockCookiesActionsMap s)
               (cssDisplayNoneActionsMap s) ∅).

Definition add_location (s : serialize_state) (actions : list Z) (block cookies : gmap Z Z) (css : PendingMap)
    (ignore : gmap Z Z) (location : Z) : serialize_state :=
  mkSerialize actions (ss_locations s ++ [location]) block cookies css ignore.

Definition serialize_rule (s : serialize_state) (rule : ContentExtensionRule) : option serialize_state :=
  let type := action_type (action rule) in
  let flags := trigger_flags (trigger rule) in
  if decide (type = CSSDisplayNoneStyleSheet \/ type = InvalidAction) then None else
  s ← before_rule s type;
  let '(mkSerialize actions locations block cookies css ignore) := s in
  if negb (bool_decide (domains (trigger rule) = [])) then
    let location := u32 (vlen actions) in
    actions ← (if decide (type = CSSDisplayNoneSelector)
               then serializeSelector actions (stringArgument (action rule))
               else Some (actions ++ [ActionType_code type]));
    Some (add_location s actions block cookies css ignore location)
  else
    match type with
    | IgnorePreviousRules =>
        let '(actions, ignore, location) := find_or_append actions ignore flags type in
        Some (add_location s actions block cookies css ignore location)
    | CSSDisplayNoneSelector =>
        let css := add_pending css (trigger rule) (stringArgument (action rule)) (vlen locations) in
        Some (add_location s actions block cookies css ignore uint32_max)
    | BlockLoad =>
        let '(actions, block, location) := find_or_append actions block flags type in
        Some (add_location s actions block cookies css ignore location)
    | BlockCookies =>
        let '(actions, cookies, location) := find_or_append actions cookies flags type in
        Some (add_location s actions block cookies css ignore location)
    | CSSDisplayNoneStyleSheet | InvalidAction => None
    end.

Fixpoint serialize_loop (s : serialize_state) (ruleList : list ContentExtensionRule) : option serialize_state :=
  match ruleList with
  | [] => Some s
  | rule :: ruleList => s ← serialize_rule s rule; serialize_loop s ruleList
  end.

(** The bytes, and the location of every rule's action. *)
Definition serializeActions (ruleList : list ContentExtensionRule) : option (list Z * list Z) :=
  s ← serialize_loop (mkSerialize [] [] ∅ ∅ [] ∅) ruleList;
  '(actions, locations, _) ←
    resolvePendingDisplayNoneActions (ss_actions s) (ss_locations s) (cssDisplayNoneActionsMap s);
  Some (actions, locations).
End Serialization.
