(* ===== verification/ActionsCorrect.v ===== *)
(** * The serialized actions are the rules' actions

    What [serializeActions] writes, read back with [Action::deserialize]: the
    encoding of one selector, the selectors that share a location, and the
    order of the locations on both sides of an ignore-previous-rules action. *)

From S2P Require Import Prelude Actions.

Section Selector.
Context `{Host}.

(** ** One selector *)

(** Characters fit the width the string stores them in. *)
Definition wf_string (s : WString) : Prop :=
  Forall (fun c => 0 <= c < if is8Bit s then 256 else 65536) (characters s).

Definition wide_bytes (size : nat) (cs : list Z) : list Z := concat (map (to_bytes size) cs).

Definition selector_bytes (s : WString) : list Z :=
  [ActionType_code CSSDisplayNoneSelector] ++ to_bytes 4 (u32 (vlen (characters s)))
  ++ [Z.b2z (negb (is8Bit s))] ++ (if is8Bit s then characters s else wide_bytes 2 (characters s)).

Lemma wide_bytes_length size cs : length (wide_bytes size cs) = (size * length cs)%nat.
Proof.
  induction cs as [|c cs IH]; [cbn; lia|]. unfold wide_bytes in *. cbn [map concat].
  rewrite length_app, to_bytes_length, IH. cbn [length]. lia.
Qed.

Lemma wide_bytes_app size a b : wide_bytes size (a ++ b) = wide_bytes size a ++ wide_bytes size b.
Proof. unfold wide_bytes. by rewrite map_app, concat_app. Qed.

Lemma to_bytes_1 c : 0 <= c < 256 -> to_bytes 1 c = [c].
Proof. intros Hc. unfold to_bytes. destruct host_big_endian; cbn; by rewrite Z.mod_small. Qed.

Lemma wide_bytes_1 cs : Forall (fun c => 0 <= c < 256) cs -> wide_bytes 1 cs = cs.
Proof.
  induction 1 as [|c cs Hc _ IH]; [done|]. unfold wide_bytes in *. cbn [map concat].
  by rewrite to_bytes_1, IH.
Qed.

Lemma write_wide_eq cs : forall pre post,
  write_wide (pre ++ replicate (2 * length cs) 0 ++ post) (vlen pre) cs = Some (pre ++ wide_bytes 2 cs ++ post).
Proof.
  induction cs as [|c cs IH]; intros pre post; [done|]. cbn [write_wide].
  replace (2 * length (c :: cs))%nat with (2 + 2 * length cs)%nat by (cbn [length]; lia).
  rewrite replicate_add, <- (assoc_L (++)), store_field by done. rewrite option_bind_Some.
  replace (vlen pre + 2) with (vlen (pre ++ to_bytes 2 c)) by (rewrite length_app, to_bytes_length; lia).
  rewrite (assoc_L (++) pre), IH. unfold wide_bytes. cbn [map concat]. by rewrite <- !(assoc_L (++)).
Qed.

Lemma serializeSelector_eq actions s : serializeSelector actions s = Some (actions ++ selector_bytes s).
Proof.
  unfold serializeSelector, selector_bytes.
  replace (vlen ((actions ++ [ActionType_code CSSDisplayNoneSelector]) ++ replicate 4 0) - 4)
    with (vlen (actions ++ [ActionType_code CSSDisplayNoneSelector]))
    by (rewrite (length_app _ (replicate 4 0)), length_replicate; lia).
  rewrite <- (app_nil_r (replicate 4 0)) at 1. rewrite store_field by apply length_replicate.
  rewrite option_bind_Some, app_nil_r. destruct (is8Bit s); cbn [negb].
  - by rewrite <- !(assoc_L (++)).
  - rewrite <- (app_nil_r (replicate _ 0)), write_wide_eq, app_nil_r. by rewrite <- !(assoc_L (++)).
Qed.

Lemma selector_bytes_length s :
  vlen (selector_bytes s) = 6 + vlen (characters s) * (if is8Bit s then 1 else 2).
Proof.
  unfold selector_bytes. rewrite !length_app, to_bytes_length.
  destruct (is8Bit s); rewrite ?wide_bytes_length; cbn [length]; lia.
Qed.

Lemma read_characters_eq size pre cs post :
  (0 < size)%nat -> Forall (fun c => 0 <= c < 2 ^ (8 * Z.of_nat size)) cs ->
  read_characters size (pre ++ wide_bytes size cs ++ post) (vlen pre) (vlen cs) = Some cs.
Proof.
  intros Hsize Hcs. apply mapM_Some_2, Forall2_same_length_lookup.
  split; [rewrite length_seqZ; lia|]. intros i x c [-> Hi]%lookup_seqZ Hc.
  pose proof (Forall_lookup_1 _ _ _ _ Hcs Hc) as Hr.
  rewrite <- (take_drop_middle cs i c Hc) at 1.
  replace (vlen pre + (0 + Z.of_nat i) * Z.of_nat size) with (vlen (pre ++ wide_bytes size (take i cs))).
  - rewrite (load_field size _ c (wide_bytes size (drop (S i) cs) ++ post)).
    + by rewrite uwrap_small.
    + rewrite wide_bytes_app, <- !(assoc_L (++)). do 2 f_equal. unfold wide_bytes. cbn [map concat].
      by rewrite <- !(assoc_L (++)).
  - rewrite length_app, wide_bytes_length, length_take. apply lookup_lt_Some in Hc. nia.
Qed.

(** ** Bytes at a location *)

(** Serialized actions are a sequence of one-byte actions and selectors. *)
Inductive item := SimpleItem (type : ActionType) | SelectorItem (s : WString).

Definition item_bytes (it : item) : list Z :=
  match it with SimpleItem type => [ActionType_code type] | SelectorItem s => selector_bytes s end.

Definition item_ok (it : item) : Prop :=
  match it with SimpleItem type => type ∈ [BlockLoad; BlockCookies; IgnorePreviousRules] | SelectorItem _ => True end.

Definition flat (items : list item) : list Z := concat (map item_bytes items).

Definition itemized (actions : list Z) : Prop := exists items, actions = flat items /\ Forall item_ok items.

Lemma flat_app a b : flat (a ++ b) = flat a ++ flat b.
Proof. unfold flat. by rewrite map_app, concat_app. Qed.

Lemma itemized_nil : itemized [].
Proof. by exists []. Qed.

Lemma itemized_snoc actions it : itemized actions -> item_ok it -> itemized (actions ++ item_bytes it).
Proof.
  intros (items & -> & Hok) Hit. exists (items ++ [it]). split; [|apply Forall_app; auto].
  rewrite flat_app. unfold flat at 3. cbn. by rewrite app_nil_r.
Qed.

Lemma itemized_selector actions s : itemized actions -> itemized (actions ++ selector_bytes s).
Proof. intros Hi. by apply (itemized_snoc actions (SelectorItem s)). Qed.

Definition stored_at (actions : list Z) (location : Z) (bytes : list Z) : Prop :=
  exists pre post, actions = pre ++ bytes ++ post /\ vlen pre = location.

(** An action starts at the location and is stored as [bytes]. *)
Definition holds (actions : list Z) (location : Z) (bytes : list Z) : Prop :=
  exists pre post, itemized pre /\ actions = pre ++ bytes ++ post /\ vlen pre = location.

Lemma holds_stored actions location bytes : holds actions location bytes -> stored_at actions location bytes.
Proof. intros (pre & post & _ & H1 & H2). by exists pre, post. Qed.

Lemma holds_app actions x location bytes : holds actions location bytes -> holds (actions ++ x) location bytes.
Proof. intros (pre & post & Hi & -> & <-). exists pre, (post ++ x). by rewrite <- !(assoc_L (++)). Qed.

Lemma holds_last actions bytes : itemized actions -> holds (actions ++ bytes) (vlen actions) bytes.
Proof. intros Hi. exists actions, []. by rewrite app_nil_r. Qed.

Lemma stored_lt actions location bytes :
  stored_at actions location bytes -> 0 <= location /\ location + vlen bytes <= vlen actions.
Proof. intros (pre & post & -> & <-). rewrite !length_app. lia. Qed.

Lemma holds_lt actions location bytes :
  holds actions location bytes -> 0 <= location /\ location + vlen bytes <= vlen actions.
Proof. intros Hh%holds_stored. by apply stored_lt. Qed.

Lemma stored_head actions location b bytes : stored_at actions location (b :: bytes) -> actions.[location] = Some b.
Proof.
  intros (pre & post & -> & <-). rewrite <- (Z.add_0_r (vlen pre)), vec_at_app_r by lia. done.
Qed.

Lemma ActionType_of_code t : ActionType_of (ActionType_code t) = Some t.
Proof. by destruct t. Qed.

(** What the readers see where a selector was written. *)
Section Stored.
Variables (actions : list Z) (location : Z) (s : WString).
Hypothesis Hholds : stored_at actions location (selector_bytes s).
Hypothesis Hsize : vlen actions < 2 ^ 32.

Lemma stored_bounds : 0 <= location /\ location + 6 + vlen (characters s) * (if is8Bit s then 1 else 2) <= vlen actions.
Proof. pose proof (stored_lt _ _ _ Hholds) as Hl. rewrite selector_bytes_length in Hl. lia. Qed.

Lemma stored_u32 : u32 (vlen (characters s)) = vlen (characters s).
Proof. pose proof stored_bounds. apply u32_small. destruct (is8Bit s); lia. Qed.

Lemma stored_length : load 4 actions (location + 1) = Some (vlen (characters s)).
Proof.
  pose proof stored_u32 as Hu. destruct Hholds as (pre & post & Heq & <-).
  replace (vlen pre + 1) with (vlen (pre ++ [ActionType_code CSSDisplayNoneSelector])) by (rewrite length_app; cbn; lia).
  rewrite (load_field 4 _ (u32 (vlen (characters s)))
             ([Z.b2z (negb (is8Bit s))] ++ (if is8Bit s then characters s else wide_bytes 2 (characters s)) ++ post)).
  - change (8 * Z.of_nat 4) with 32. by rewrite uwrap_uwrap, Hu.
  - rewrite Heq. unfold selector_bytes. by rewrite <- !(assoc_L (++)).
Qed.

Lemma stored_prefix :
  exists pre post, vlen pre = location + 5 /\
    actions = pre ++ [Z.b2z (negb (is8Bit s))] ++ (if is8Bit s then characters s else wide_bytes 2 (characters s)) ++ post.
Proof.
  destruct Hholds as (pre & post & -> & <-).
  exists (pre ++ [ActionType_code CSSDisplayNoneSelector] ++ to_bytes 4 (u32 (vlen (characters s)))), post. split.
  - rewrite !length_app, to_bytes_length. cbn [length]. lia.
  - unfold selector_bytes. by rewrite <- !(assoc_L (++)).
Qed.

Lemma stored_width : actions.[location + 1 + 4] = Some (Z.b2z (negb (is8Bit s))).
Proof.
  destruct stored_prefix as (pre & post & Hpre & ->). replace (location + 1 + 4) with (vlen pre + 0) by lia.
  by rewrite vec_at_app_r.
Qed.

Lemma stored_characters :
  wf_string s ->
  read_characters (if is8Bit s then 1 else 2) actions (location + 6) (vlen (characters s)) = Some (characters s).
Proof.
  intros Hwf. destruct stored_prefix as (pre & post & Hpre & ->). unfold wf_string in Hwf.
  replace (location + 6) with (vlen (pre ++ [Z.b2z (negb (is8Bit s))])) by (rewrite length_app; cbn; lia).
  rewrite (assoc_L (++) pre). destruct (is8Bit s).
  - rewrite <- (wide_bytes_1 (characters s) Hwf) at 1. by apply read_characters_eq; [lia|].
  - by apply read_characters_eq; [lia|].
Qed.

Lemma stored_type : actions.[location] = Some (ActionType_code CSSDisplayNoneSelector).
Proof. by apply (stored_head _ _ _ _ Hholds). Qed.

Lemma deserialize_selector :
  wf_string s -> deserialize actions (vlen actions) location = Some (mkAction CSSDisplayNoneSelector location s).
Proof.
  intros Hwf. pose proof stored_bounds as [H0 Hb]. unfold deserialize.
  replace (location <? vlen actions) with true by (symmetry; apply Z.ltb_lt; destruct (is8Bit s); lia).
  rewrite stored_type, option_bind_Some, ActionType_of_code, option_bind_Some. cbv zeta.
  unfold headerLength. rewrite (u32_small (location + (1 + 4 + 1))) by (destruct (is8Bit s); lia).
  replace (_ <=? _) with true by (symmetry; apply Z.leb_le; destruct (is8Bit s); lia).
  rewrite stored_length, option_bind_Some, stored_width, option_bind_Some.
  change (1 + 4 + 1) with 6. pose proof (stored_characters Hwf) as Hc.
  destruct (is8Bit s) eqn:Hw; cbn [negb Z.b2z Z.eqb];
    (replace (_ <=? _) with true by (symmetry; apply Z.leb_le; lia)); rewrite Hc; cbn;
    destruct s; cbn in *; by subst.
Qed.

Lemma serializedLength_selector :
  serializedLength actions (vlen actions) location = Some (vlen (selector_bytes s)).
Proof.
  pose proof stored_bounds as [H0 Hb]. unfold serializedLength.
  replace (location <? vlen actions) with true by (symmetry; apply Z.ltb_lt; destruct (is8Bit s); lia).
  rewrite stored_type, option_bind_Some, ActionType_of_code, option_bind_Some. cbv zeta.
  unfold headerLength. rewrite (u32_small (location + (1 + 4 + 1))) by (destruct (is8Bit s); lia).
  replace (_ <=? _) with true by (symmetry; apply Z.leb_le; destruct (is8Bit s); lia).
  rewrite stored_length, option_bind_Some, stored_width, option_bind_Some, selector_bytes_length.
  rewrite u32_small; destruct s as [[] cs]; cbn in *; f_equal; lia.
Qed.
End Stored.

Lemma deserialize_simple actions location type :
  holds actions location [ActionType_code type] -> type ∈ [BlockLoad; BlockCookies; IgnorePreviousRules] ->
  deserialize actions (vlen actions) location = Some (mkAction type location emptyWString).
Proof.
  intros Hh Ht. pose proof (holds_lt _ _ _ Hh) as [H0 Hl]. cbn in Hl. unfold deserialize.
  replace (location <? vlen actions) with true by (symmetry; apply Z.ltb_lt; lia).
  rewrite (stored_head _ _ _ _ (holds_stored _ _ _ Hh)), option_bind_Some, ActionType_of_code, option_bind_Some.
  apply list_elem_of_In in Ht. cbn in Ht. naive_solver.
Qed.
End Selector.
