(* ===== verification/SerializeCorrect.v ===== *)
(** * [serializeActions]: what is at the location of each rule

    The invariant of the loop over the rules.  Rules after the last
    ignore-previous-rules action form the current segment; a selector without
    domains waits in the pending map until its segment ends, every other rule
    has its final location when it has been visited. *)

From S2P Require Import Prelude Actions ActionsCorrect.

(** ** Combined selectors *)

Fixpoint join_comma (l : list (list Z)) : list Z :=
  match l with
  | [] => []
  | [cs] => cs
  | cs :: l => cs ++ [44] ++ join_comma l
  end.

Lemma builder_append_characters b s : characters (builder_append b s) = characters b ++ characters s.
Proof.
  unfold builder_append, append16, append8.
  destruct (characters b) eqn:Hb, (characters s) eqn:Hs; rewrite ?Hb, ?Hs, ?app_nil_r; try done.
  repeat case_match; done.
Qed.

Lemma combine_loop_characters l : forall b i, 0 < i ->
  characters (combine_loop_selectors b i l) = characters b ++ concat (map (fun s => 44 :: characters s) l).
Proof.
  induction l as [|s l IH]; intros b i Hi; cbn [combine_loop_selectors map concat]; [by rewrite app_nil_r|].
  rewrite (proj2 (Z.eqb_neq i 0)) by lia. cbn [negb]. rewrite IH, !builder_append_characters by lia.
  by rewrite <- !(assoc_L (++)).
Qed.

Lemma join_comma_concat cs l : join_comma (cs :: l) = cs ++ concat (map (cons 44) l).
Proof.
  revert cs. induction l as [|c l IH]; intros cs; [cbn; by rewrite app_nil_r|].
  change (join_comma (cs :: c :: l)) with (cs ++ [44] ++ join_comma (c :: l)). by rewrite IH.
Qed.

Lemma combinedSelectors_characters l : characters (combinedSelectors l) = join_comma (map characters l).
Proof.
  destruct l as [|s l]; [done|]. unfold combinedSelectors. cbn [combine_loop_selectors Z.eqb negb].
  rewrite combine_loop_characters, builder_append_characters by lia. cbn [map].
  rewrite join_comma_concat. f_equal. by rewrite map_map.
Qed.

Lemma wf_widen cs : Forall (fun c => 0 <= c < 256) cs -> Forall (fun c => 0 <= c < 65536) cs.
Proof. intros Hcs. apply (Forall_impl _ _ _ Hcs). cbn. lia. Qed.

Lemma builder_append_wf b s : wf_string b -> wf_string s -> wf_string (builder_append b s).
Proof.
  unfold wf_string, builder_append, append16, append8. intros Hb Hs.
  destruct (characters b) as [|b0 bs] eqn:Eb; [destruct (characters s) eqn:Es; rewrite ?Eb, ?Es; auto|].
  destruct (characters s) as [|s0 ss] eqn:Es; [by rewrite Eb|].
  destruct (is8Bit b) eqn:Wb, (is8Bit s) eqn:Ws; cbn [andb is8Bit characters];
    try (apply Forall_app; split; by auto using wf_widen).
  case_bool_decide as Hss; cbn [andb]; [|cbn [is8Bit characters]; apply Forall_app; by auto using wf_widen].
  case_bool; cbn [is8Bit characters]; apply Forall_app; (split; [by auto using wf_widen|]); [|done].
  subst ss. inversion_clear Hs. constructor; [lia|constructor].
Qed.

Lemma combine_loop_wf l : forall b i, wf_string b -> Forall wf_string l -> wf_string (combine_loop_selectors b i l).
Proof.
  assert (Hc : wf_string comma) by (constructor; [cbn; lia|constructor]).
  induction l as [|s l IH]; intros b i Hb Hl; cbn [combine_loop_selectors]; [done|].
  inversion Hl; subst. apply IH; [|done]. apply builder_append_wf; [|done]. case_match; [by apply builder_append_wf|done].
Qed.

Lemma combinedSelectors_wf l : Forall wf_string l -> wf_string (combinedSelectors l).
Proof. apply combine_loop_wf. constructor. Qed.

(** ** Triggers *)

Lemma Trigger_equal_spec a b :
  Trigger_equal a b = true <->
  characters (urlFilter a) = characters (urlFilter b) /\
  urlFilterIsCaseSensitive a = urlFilterIsCaseSensitive b /\
  trigger_flags a = trigger_flags b /\
  map characters (domains a) = map characters (domains b) /\
  domainCondition a = domainCondition b.
Proof.
  unfold Trigger_equal, same_characters. rewrite !andb_true_iff, !bool_decide_eq_true, eqb_true_iff, Z.eqb_eq. tauto.
Qed.

Lemma Trigger_equal_refl a : Trigger_equal a a = true.
Proof. rewrite Trigger_equal_spec. tauto. Qed.

Lemma Trigger_equal_sym a b : Trigger_equal a b = true -> Trigger_equal b a = true.
Proof. rewrite !Trigger_equal_spec. intuition congruence. Qed.

Lemma Trigger_equal_trans a b c : Trigger_equal a b = true -> Trigger_equal b c = true -> Trigger_equal a c = true.
Proof. rewrite !Trigger_equal_spec. intuition congruence. Qed.

Create HintDb trigger.
#[export] Hint Resolve Trigger_equal_refl : trigger.
#[export] Hint Immediate Trigger_equal_sym : trigger.

(** ** Segments and groups *)

Definition is_ignore (r : ContentExtensionRule) : bool := bool_decide (action_type (action r) = IgnorePreviousRules).

(** The selectors that wait: those of rules without domains. *)
Definition waits (r : ContentExtensionRule) : bool :=
  bool_decide (action_type (action r) = CSSDisplayNoneSelector) && bool_decide (domains (trigger r) = []).

Definition selector_of (r : ContentExtensionRule) : WString := stringArgument (action r).

Definition segment_step (seg : list ContentExtensionRule) (r : ContentExtensionRule) : list ContentExtensionRule :=
  if is_ignore r then [] else seg ++ [r].

Definition last_segment (l : list ContentExtensionRule) : list ContentExtensionRule := foldl segment_step [] l.

Lemma last_segment_snoc l r : last_segment (l ++ [r]) = if is_ignore r then [] else last_segment l ++ [r].
Proof. unfold last_segment. by rewrite foldl_app. Qed.

(** Before the last segment there is nothing or an ignore-previous-rules rule. *)
Definition opens (before : list ContentExtensionRule) : Prop :=
  before = [] \/ exists b r, before = b ++ [r] /\ is_ignore r = true.

Lemma last_segment_split l : exists before, l = before ++ last_segment l /\ opens before.
Proof.
  induction l as [|r l IH] using rev_ind; [exists []; split; [done|by left]|].
  destruct IH as (before & Hl & Ho). rewrite last_segment_snoc. destruct (is_ignore r) eqn:Hr.
  - exists (l ++ [r]). rewrite app_nil_r. split; [done|]. right. eauto.
  - exists before. split; [|done]. rewrite Hl at 1. by rewrite (assoc_L (++)).
Qed.

Lemma last_segment_not_ignore l : Forall (fun r => is_ignore r = false) (last_segment l).
Proof.
  induction l as [|r l IH] using rev_ind; [constructor|]. rewrite last_segment_snoc.
  destruct (is_ignore r) eqn:Hr; [constructor|]. apply Forall_app; auto.
Qed.

(** The rules of a segment that share the location of a rule with trigger [t]. *)
Definition shares (t : Trigger) (r : ContentExtensionRule) : bool := waits r && Trigger_equal t (trigger r).

Definition group (t : Trigger) (seg : list ContentExtensionRule) : list ContentExtensionRule :=
  List.filter (shares t) seg.

Lemma group_app t a b : group t (a ++ b) = group t a ++ group t b.
Proof. apply List.filter_app. Qed.

(** The rules of a list that share, with their index from [start]. *)
Definition group_clients (start : Z) (t : Trigger) (seg : list ContentExtensionRule) : list Z :=
  map fst (List.filter (fun ir => shares t ir.2) (zip (seqZ start (vlen seg)) seg)).

Lemma seqZ_snoc start (n : nat) : seqZ start (Z.of_nat (S n)) = seqZ start (Z.of_nat n) ++ [start + Z.of_nat n].
Proof.
  rewrite Nat2Z.inj_succ, <- Z.add_1_r, seqZ_app by lia. by f_equal.
Qed.

Lemma zip_snoc_seqZ start (seg : list ContentExtensionRule) r :
  zip (seqZ start (vlen (seg ++ [r]))) (seg ++ [r]) = zip (seqZ start (vlen seg)) seg ++ [(start + vlen seg, r)].
Proof.
  rewrite length_app. replace (length seg + length [r])%nat with (S (length seg)) by (cbn; lia).
  rewrite seqZ_snoc, zip_with_app; [done|]. rewrite length_seqZ. lia.
Qed.

Lemma group_clients_snoc start t seg r :
  group_clients start t (seg ++ [r]) =
  group_clients start t seg ++ (if shares t r then [start + vlen seg] else []).
Proof.
  unfold group_clients. rewrite zip_snoc_seqZ, List.filter_app, map_app. f_equal. cbn. by destruct (shares t r).
Qed.

Lemma elem_of_group_clients start t seg i :
  i ∈ group_clients start t seg <->
  exists k r, i = start + Z.of_nat k /\ seg !! k = Some r /\ shares t r = true.
Proof.
  induction seg as [|r seg IH] using rev_ind.
  { split; [by intros ?%elem_of_nil|]. intros (k & r & _ & Hk & _). done. }
  rewrite group_clients_snoc, elem_of_app, IH. split.
  - intros [(k & r' & -> & Hk & Hs)|Hi].
    + exists k, r'. split_and!; [done|by apply lookup_app_l_Some|done].
    + destruct (shares t r) eqn:Hs; [|by apply elem_of_nil in Hi]. apply list_elem_of_singleton in Hi as ->.
      exists (length seg), r. split_and!; [done|by apply list_lookup_middle|done].
  - intros (k & r' & -> & Hk & Hs). apply lookup_app_Some in Hk as [Hk|[Hle Hk]]; [left; eauto|right].
    apply list_lookup_singleton_Some in Hk as [Hk ->]. rewrite Hs. apply list_elem_of_singleton. lia.
Qed.

(** ** The pending map *)

Definition known (keys : list Trigger) (r : ContentExtensionRule) : bool :=
  existsb (fun k => Trigger_equal k (trigger r)) keys.

(** The triggers of the slots, in the order of their first rule. *)
Definition keys_of (seg : list ContentExtensionRule) : list Trigger :=
  foldl (fun keys r => if waits r && negb (known keys r) then keys ++ [trigger r] else keys) [] seg.

Lemma keys_of_snoc seg r :
  keys_of (seg ++ [r]) = if waits r && negb (known (keys_of seg) r) then keys_of seg ++ [trigger r] else keys_of seg.
Proof. unfold keys_of. by rewrite foldl_app. Qed.

Definition slot (start : Z) (seg : list ContentExtensionRule) (t : Trigger) : Trigger * PendingDisplayNoneActions :=
  (t, mkPending (map selector_of (group t seg)) (group_clients start t seg)).

(** What the map holds when [seg] has been visited, [start] being the index of its first rule. *)
Definition pending_of (start : Z) (seg : list ContentExtensionRule) : PendingMap :=
  map (slot start seg) (keys_of seg).

Definition distinct_keys (keys : list Trigger) : Prop :=
  List.ForallOrdPairs (fun a b => Trigger_equal a b = false) keys.

Lemma known_spec keys r : known keys r = true <-> exists k, k ∈ keys /\ Trigger_equal k (trigger r) = true.
Proof.
  unfold known. rewrite existsb_exists. split; intros (k & Hk & E); exists k; split; try done; by apply list_elem_of_In.
Qed.

Lemma keys_of_known seg r : r ∈ seg -> waits r = true -> known (keys_of seg) r = true.
Proof.
  induction seg as [|r' seg IH] using rev_ind; [by intros ?%elem_of_nil|].
  rewrite elem_of_app, list_elem_of_singleton, keys_of_snoc. intros Hr Hw.
  destruct (waits r' && negb (known (keys_of seg) r')) eqn:E.
  - apply known_spec. destruct Hr as [Hr| ->].
    + destruct (proj1 (known_spec _ _) (IH Hr Hw)) as (k & Hk & Ek). exists k. split; [|done]. apply elem_of_app. by left.
    + exists (trigger r'). split; [apply elem_of_app; right; by apply list_elem_of_singleton|auto with trigger].
  - destruct Hr as [Hr| ->]; [auto|]. rewrite Hw in E. by destruct (known (keys_of seg) r').
Qed.

Lemma distinct_keys_snoc keys t :
  distinct_keys keys -> (forall k, k ∈ keys -> Trigger_equal k t = false) -> distinct_keys (keys ++ [t]).
Proof.
  unfold distinct_keys. induction 1 as [|k keys Hk Hkeys IH]; intros Ht; cbn; [by repeat constructor|].
  constructor.
  - apply List.Forall_app. split; [done|]. constructor; [|constructor]. apply Ht. left.
  - apply IH. intros k' Hk'. apply Ht. by right.
Qed.

Lemma keys_of_distinct seg : distinct_keys (keys_of seg).
Proof.
  induction seg as [|r seg IH] using rev_ind; [constructor|]. rewrite keys_of_snoc.
  destruct (waits r && negb (known (keys_of seg) r)) eqn:E; [|done]. bprop.
  apply distinct_keys_snoc; [done|]. intros k Hk. apply not_true_is_false. intros Ek.
  assert (known (keys_of seg) r = true) by (apply known_spec; eauto). congruence.
Qed.

Lemma slot_snoc_other start seg r k :
  shares k r = false -> slot start (seg ++ [r]) k = slot start seg k.
Proof.
  intros Hs. unfold slot. rewrite group_app, group_clients_snoc. unfold group at 2. cbn. rewrite Hs.
  by rewrite !app_nil_r.
Qed.

Lemma slot_snoc_shared start seg r k :
  shares k r = true ->
  slot start (seg ++ [r]) k =
  (k, mkPending (map selector_of (group k seg) ++ [selector_of r]) (group_clients start k seg ++ [start + vlen seg])).
Proof.
  intros Hs. unfold slot. rewrite group_app, group_clients_snoc. unfold group at 2. cbn. rewrite Hs.
  by rewrite map_app.
Qed.

Lemma add_pending_slots start seg r keys :
  distinct_keys keys -> waits r = true ->
  add_pending (map (slot start seg) keys) (trigger r) (selector_of r) (start + vlen seg) =
  map (slot start (seg ++ [r])) keys
  ++ (if known keys r then [] else [(trigger r, mkPending [selector_of r] [start + vlen seg])]).
Proof.
  intros Hk Hw. induction Hk as [|k keys Hk Hkeys IH]; [done|].
  cbn [map add_pending]. unfold slot at 1. cbn [known existsb].
  destruct (Trigger_equal k (trigger r)) eqn:E; cbn [orb].
  - rewrite slot_snoc_shared by (unfold shares; by rewrite Hw). rewrite app_nil_r. cbn. f_equal.
    apply map_ext_in. intros k' Hk'. symmetry. apply slot_snoc_other. unfold shares. rewrite Hw. cbn.
    rewrite List.Forall_forall in Hk. specialize (Hk _ Hk'). apply not_true_is_false. intros E'.
    assert (Trigger_equal k k' = true) by eauto using Trigger_equal_trans, Trigger_equal_sym. congruence.
  - rewrite slot_snoc_other by (unfold shares; by rewrite E, andb_false_r). cbn. f_equal. apply IH.
Qed.

Lemma group_unknown seg r : waits r = true -> known (keys_of seg) r = false -> group (trigger r) seg = [].
Proof.
  intros Hw Hk. destruct (group (trigger r) seg) as [|r' g] eqn:E; [done|exfalso].
  assert (Hin : In r' (group (trigger r) seg)) by (rewrite E; by left).
  unfold group in Hin. apply filter_In in Hin as [Hin Hs]. unfold shares in Hs. bprop.
  pose proof (keys_of_known seg r' (proj2 (list_elem_of_In _ _) Hin) ltac:(done)) as (k & Hkin & Ek)%known_spec.
  assert (known (keys_of seg) r = true); [|congruence]. apply known_spec. exists k. split; [done|].
  eauto using Trigger_equal_trans, Trigger_equal_sym.
Qed.

Lemma group_clients_nil start t seg : group t seg = [] -> group_clients start t seg = [].
Proof.
  intros Hg. destruct (group_clients start t seg) as [|i l] eqn:E; [done|exfalso].
  assert (Hi : i ∈ group_clients start t seg) by (rewrite E; left).
  apply elem_of_group_clients in Hi as (k & r & _ & Hk & Hs).
  assert (Hin : In r (group t seg)); [|by rewrite Hg in Hin].
  apply filter_In. split; [|done]. apply list_elem_of_In. by eapply list_elem_of_lookup_2.
Qed.

Lemma add_pending_eq start seg r :
  waits r = true ->
  add_pending (pending_of start seg) (trigger r) (selector_of r) (start + vlen seg) = pending_of start (seg ++ [r]).
Proof.
  intros Hw. unfold pending_of. rewrite add_pending_slots by (done || apply keys_of_distinct).
  rewrite keys_of_snoc, Hw. cbn [andb]. destruct (known (keys_of seg) r) eqn:Hk; cbn [negb]; [by rewrite app_nil_r|].
  rewrite map_app. f_equal. cbn. rewrite slot_snoc_shared by (unfold shares; rewrite Hw; apply Trigger_equal_refl).
  pose proof (group_unknown _ _ Hw Hk) as Hg. by rewrite (group_clients_nil _ _ _ Hg), Hg.
Qed.

Lemma pending_of_skip start seg r : waits r = false -> pending_of start (seg ++ [r]) = pending_of start seg.
Proof.
  intros Hw. unfold pending_of. rewrite keys_of_snoc, Hw. cbn [andb]. apply map_ext. intros k.
  apply slot_snoc_other. unfold shares. by rewrite Hw.
Qed.
