(* ===== verification/SerializeInvariant.v ===== *)
(** * The invariant of [serializeActions]

    Every rule has its final location or waits in the pending map; locations
    on both sides of an ignore-previous-rules rule are ordered as the rules. *)

From S2P Require Import Prelude Actions ActionsCorrect SerializeCorrect.

Section Invariant.
Context `{Host}.
Variable iteration_order : PendingMap -> PendingMap.
Hypothesis iteration_order_perm : forall m, iteration_order m ≡ₚ m.

(** ** Resolving the pending map *)

Lemma set_locations_spec clients location : forall locs,
  (forall c, c ∈ clients -> 0 <= c < vlen locs) ->
  exists locs', set_locations locs clients location = Some locs' /\ length locs' = length locs /\
    forall i, locs' !! i = if decide (Z.of_nat i ∈ clients /\ (i < length locs)%nat) then Some location else locs !! i.
Proof.
  unfold set_locations. induction clients as [|c clients IH]; intros locs Hin; cbn [foldl].
  - exists locs. split_and!; [done|done|]. intros i. case_decide as Hd; [|done]. destruct Hd as [?%elem_of_nil _]. done.
  - assert (Hc : 0 <= c < vlen locs) by (apply Hin; left).
    rewrite option_bind_Some, vec_set_Some by done.
    destruct (IH (<[Z.to_nat c := location]> locs)) as (locs' & -> & Hl & Hi).
    { intros c' Hc'. rewrite length_insert. apply Hin. by right. }
    rewrite length_insert in Hl. exists locs'. split_and!; [done|done|]. intros i. rewrite Hi, length_insert.
    destruct (decide (Z.of_nat i = c)) as [<-|Hne].
    + rewrite Nat2Z.id. rewrite (decide_True (P := Z.of_nat i ∈ _ :: _ /\ _)) by (split; [left|lia]).
      case_decide; [done|]. rewrite list_lookup_insert_eq; [done|lia].
    + rewrite list_lookup_insert_ne by lia. apply decide_ext. rewrite elem_of_cons. tauto.
Qed.

(** What a resolved slot wrote. *)
Definition resolved (actions : list Z) (from location : Z) (p : PendingDisplayNoneActions) : Prop :=
  vlen actions < 2 ^ 32 ->
  from <= location /\ holds actions location (selector_bytes (combinedSelectors (selectors p))).

Lemma resolved_app actions x from location p :
  resolved actions from location p -> resolved (actions ++ x) from location p.
Proof.
  intros Hr Hl. rewrite length_app in Hl. destruct (Hr ltac:(lia)). split; [done|]. by apply holds_app.
Qed.

Lemma resolved_from actions from from' location p :
  from' <= from -> resolved actions from location p -> resolved actions from' location p.
Proof. intros ? Hr Hl. destruct (Hr Hl). split; [lia|done]. Qed.

Lemma resolve_loop_spec slots : forall actions locs,
  itemized actions -> (forall t p c, (t, p) ∈ slots -> c ∈ clientLocations p -> 0 <= c < vlen locs) ->
  exists x locs', resolve_loop actions locs slots = Some (actions ++ x, locs') /\ itemized (actions ++ x) /\ length locs' = length locs /\
    forall i l, locs' !! i = Some l ->
      (locs !! i = Some l /\ forall t p, (t, p) ∈ slots -> Z.of_nat i ∉ clientLocations p) \/
      (exists t p, (t, p) ∈ slots /\ Z.of_nat i ∈ clientLocations p /\ resolved (actions ++ x) (vlen actions) l p).
Proof.
  induction slots as [|[t p] slots IH]; intros actions locs Hit Hin; cbn [resolve_loop].
  - exists [], locs. rewrite app_nil_r. split_and!; [done|done|done|]. intros i l Hi. left. split; [done|].
    intros ? ? ?%elem_of_nil. done.
  - rewrite serializeSelector_eq, option_bind_Some.
    destruct (set_locations_spec (clientLocations p) (u32 (vlen actions)) locs) as (locs1 & -> & Hl1 & Hi1).
    { intros c. apply (Hin t). left. }
    rewrite option_bind_Some.
    destruct (IH (actions ++ selector_bytes (combinedSelectors (selectors p))) locs1) as (x & locs' & -> & Hit' & Hl & Hi);
      [by apply itemized_selector| |].
    { intros t' p' c Hp Hc. rewrite Hl1. apply (Hin t' p'); [by right|done]. }
    rewrite <- (assoc_L (++)) in *. eexists _, locs'. split_and!; [done|done|congruence|]. intros i l Hil.
    destruct (Hi i l Hil) as [[H1 Hno]|(t' & p' & Hp & Hc & Hr)].
    + rewrite Hi1 in H1. case_decide as Hd.
      * injection H1 as <-. right. exists t, p. split_and!; [left|tauto|]. intros Hsize.
        rewrite length_app in Hsize. rewrite u32_small by lia. split; [lia|].
        rewrite (assoc_L (++)). by apply holds_app, holds_last.
      * left. split; [done|]. intros t' p' [[= -> ->]|Hp]%elem_of_cons; [|by eapply Hno].
        intros Hc. apply Hd. split; [done|]. by apply lookup_lt_Some in H1.
    + right. exists t', p'. split_and!; [by right|done|]. eapply resolved_from; [|exact Hr]. rewrite length_app. lia.
Qed.

(** ** The invariant *)

(** A later rule has closed the segment. *)
Definition closes_strict (after : list ContentExtensionRule) : Prop :=
  exists r a, after = r :: a /\ is_ignore r = true.

Definition closes (after : list ContentExtensionRule) : Prop := after = [] \/ closes_strict after.

(** The selector stored for rule [r], the [i]-th of [rules]: its own, or the
    combination of those of its segment with the same trigger. *)
Definition stored_selector (C : list ContentExtensionRule -> Prop) (rules : list ContentExtensionRule) (i : nat)
    (r : ContentExtensionRule) (sel : WString) : Prop :=
  if bool_decide (domains (trigger r) = []) then
    exists before seg after, rules = before ++ seg ++ after /\ opens before /\ C after /\
      Forall (fun r => is_ignore r = false) seg /\ (length before <= i < length before + length seg)%nat /\
      sel = combinedSelectors (map selector_of (group (trigger r) seg))
  else sel = selector_of r.

Definition placed (C : list ContentExtensionRule -> Prop) (actions : list Z) (rules : list ContentExtensionRule)
    (i : nat) (r : ContentExtensionRule) (location : Z) : Prop :=
  if decide (action_type (action r) = CSSDisplayNoneSelector)
  then exists sel, holds actions location (selector_bytes sel) /\ stored_selector C rules i r sel
  else holds actions location [ActionType_code (action_type (action r))].

Definition waiting (start : nat) (i : nat) (r : ContentExtensionRule) : Prop := waits r = true /\ (start <= i)%nat.

Record serialized (C : list ContentExtensionRule -> Prop) (start : nat) (rules : list ContentExtensionRule)
    (s : serialize_state) : Prop := mkSerialized {
  sz_items : itemized (ss_actions s);
  sz_length : length (ss_locations s) = length rules;
  sz_start : (start <= length rules)%nat;
  sz_segment : Forall (fun r => is_ignore r = false) (drop start rules);
  sz_pending : cssDisplayNoneActionsMap s = pending_of (Z.of_nat start) (drop start rules);
  sz_placed : forall i r l, rules !! i = Some r -> ss_locations s !! i = Some l -> ~ waiting start i r ->
    placed C (ss_actions s) rules i r l;
  sz_order : forall i j ri rj li lj, (i < j)%nat -> rules !! i = Some ri -> rules !! j = Some rj ->
    ss_locations s !! i = Some li -> ss_locations s !! j = Some lj -> is_ignore ri <> is_ignore rj ->
    ~ waiting start i ri -> ~ waiting start j rj -> li < lj;
  sz_block : forall f l, blockActionsMap s !! f = Some l -> holds (ss_actions s) l [ActionType_code BlockLoad] /\
    forall i r li, rules !! i = Some r -> ss_locations s !! i = Some li -> is_ignore r = true -> li < l;
  sz_cookies : forall f l, blockCookiesActionsMap s !! f = Some l ->
    holds (ss_actions s) l [ActionType_code BlockCookies] /\
    forall i r li, rules !! i = Some r -> ss_locations s !! i = Some li -> is_ignore r = true -> li < l;
  sz_ignore : forall f l, ignorePreviousRuleActionsMap s !! f = Some l -> drop start rules = [] /\
    holds (ss_actions s) l [ActionType_code IgnorePreviousRules] /\
    forall i r li, rules !! i = Some r -> ss_locations s !! i = Some li -> is_ignore r = false -> li < l
}.

Lemma waits_not_ignore r : waits r = true -> is_ignore r = false.
Proof. unfold waits, is_ignore. rewrite andb_true_iff, !bool_decide_eq_true, bool_decide_eq_false. intros [-> _]. done. Qed.

Lemma placed_lt C actions rules i r l : placed C actions rules i r l -> 0 <= l < vlen actions.
Proof.
  unfold placed. case_decide.
  - intros (sel & Hh%holds_lt & _). rewrite selector_bytes_length in Hh. destruct (is8Bit sel); lia.
  - intros Hh%holds_lt. cbn [length] in Hh. lia.
Qed.

Lemma placed_app C C' actions x rules y i r l :
  (forall after, C after -> C' (after ++ y)) ->
  placed C actions rules i r l -> placed C' (actions ++ x) (rules ++ y) i r l.
Proof.
  intros HC. unfold placed. case_decide; [|by apply holds_app].
  intros (sel & Hh & Hs). exists sel. split; [by apply holds_app|]. unfold stored_selector in *.
  case_bool_decide; [|done]. destruct Hs as (before & seg & after & -> & Ho & Hc & Hseg & Hi & ->).
  exists before, seg, (after ++ y). rewrite <- !(assoc_L (++)). split_and!; auto; lia.
Qed.

(** ** One more rule *)

Section Step.
Variables (C : list ContentExtensionRule -> Prop) (start : nat) (rules : list ContentExtensionRule) (s : serialize_state).
Hypothesis Hs : serialized C start rules s.

Lemma location_of i r : rules !! i = Some r -> exists l, ss_locations s !! i = Some l.
Proof. intros Hi%lookup_lt_Some. apply lookup_lt_is_Some_2. by rewrite (sz_length _ _ _ _ Hs). Qed.

Lemma ignore_not_waiting i r : is_ignore r = true -> ~ waiting start i r.
Proof. intros Hr [Hw%waits_not_ignore _]. congruence. Qed.

Lemma lookup_snoc_cases {A} (l : list A) a i x :
  (l ++ [a]) !! i = Some x -> (l !! i = Some x /\ (i < length l)%nat) \/ (i = length l /\ x = a).
Proof.
  intros [Hi|[Hle Hi]]%lookup_app_Some; [left; split; [done|by eapply lookup_lt_Some]|right].
  apply list_lookup_singleton_Some in Hi as [? ->]. split; [lia|done].
Qed.

(** A rule that gets its location at once. *)
Section Place.
Variables (start' : nat) (r : ContentExtensionRule) (location : Z) (x : list Z) (s' : serialize_state).
Hypothesis Hactions : ss_actions s' = ss_actions s ++ x.
Hypothesis Hitems : itemized (ss_actions s').
Hypothesis Hlocations : ss_locations s' = ss_locations s ++ [location].
Hypothesis HC : forall after, C after -> closes_strict (after ++ [r]).
Hypothesis Hstart : if is_ignore r then start = length rules /\ start' = S (length rules) else start' = start.
Hypothesis Hpending : cssDisplayNoneActionsMap s' = pending_of (Z.of_nat start') (drop start' (rules ++ [r])).
Hypothesis Hwaits : waits r = false.
Hypothesis Hplaced : placed closes_strict (ss_actions s') (rules ++ [r]) (length rules) r location.
Hypothesis Hfresh : forall i ri li, rules !! i = Some ri -> ss_locations s !! i = Some li ->
  is_ignore ri <> is_ignore r -> ~ waiting start i ri -> li < location.
Hypothesis Hblock : forall f l, blockActionsMap s' !! f = Some l -> is_ignore r = false /\
  (blockActionsMap s !! f = Some l \/ l = location /\ holds (ss_actions s') l [ActionType_code BlockLoad]).
Hypothesis Hcookies : forall f l, blockCookiesActionsMap s' !! f = Some l -> is_ignore r = false /\
  (blockCookiesActionsMap s !! f = Some l \/ l = location /\ holds (ss_actions s') l [ActionType_code BlockCookies]).
Hypothesis Hignore : forall f l, ignorePreviousRuleActionsMap s' !! f = Some l -> is_ignore r = true /\
  (ignorePreviousRuleActionsMap s !! f = Some l \/ l = location /\ holds (ss_actions s') l [ActionType_code IgnorePreviousRules]).

Lemma place_waiting i ri : (i < length rules)%nat -> ~ waiting start' i ri -> ~ waiting start i ri.
Proof. intros Hi Hn [Hw Hle]. apply Hn. split; [done|]. destruct (is_ignore r); lia. Qed.

Lemma place_segment : Forall (fun r => is_ignore r = false) (drop start' (rules ++ [r])).
Proof.
  destruct (is_ignore r) eqn:Hr.
  - rewrite drop_ge; [constructor|]. rewrite length_app. cbn. lia.
  - pose proof (sz_start _ _ _ _ Hs). subst start'. rewrite drop_app_le by done. apply Forall_app.
    split; [apply (sz_segment _ _ _ _ Hs)|by constructor].
Qed.

(** The entry of the map for block actions is above every ignore-previous-rules rule, the other way around for [ignore]. *)
Lemma place_above l :
  (forall i ri li, rules !! i = Some ri -> ss_locations s !! i = Some li -> is_ignore ri = negb (is_ignore r) -> li < l) ->
  forall i ri li, (rules ++ [r]) !! i = Some ri -> (ss_locations s ++ [location]) !! i = Some li ->
    is_ignore ri = negb (is_ignore r) -> li < l.
Proof.
  intros Hold i ri li Hi Hl Hg. apply lookup_snoc_cases in Hi as [[Hi Hlt]|[-> ->]]; [|by destruct (is_ignore r)].
  rewrite lookup_app_l in Hl by (rewrite (sz_length _ _ _ _ Hs); done). eauto.
Qed.

Lemma place_fresh i ri li :
  rules !! i = Some ri -> ss_locations s !! i = Some li -> is_ignore ri = negb (is_ignore r) -> li < location.
Proof.
  intros Hi Hl Hg. eapply Hfresh; [done|done|by rewrite Hg; destruct (is_ignore r)|].
  destruct (is_ignore r) eqn:Hr; cbn in Hg.
  - destruct Hstart as [-> _]. intros [_ Hle]. apply lookup_lt_Some in Hi. lia.
  - by apply ignore_not_waiting.
Qed.

Lemma place_serialized : serialized closes_strict start' (rules ++ [r]) s'.
Proof.
  pose proof (sz_length _ _ _ _ Hs) as Hlen. pose proof (sz_start _ _ _ _ Hs) as Hst.
  assert (Hold : forall i l, (i < length rules)%nat -> ss_locations s' !! i = Some l -> ss_locations s !! i = Some l).
  { intros i l Hi. rewrite Hlocations, lookup_app_l; [done|lia]. }
  assert (Hnew : forall l, ss_locations s' !! length rules = Some l -> l = location).
  { intros l. rewrite Hlocations, <- Hlen, list_lookup_middle by done. congruence. }
  split.
  - done.
  - rewrite Hlocations, !length_app. cbn. lia.
  - rewrite length_app. cbn. destruct (is_ignore r); lia.
  - apply place_segment.
  - done.
  - intros i ri l [[Hi Hlt]|[-> ->]]%lookup_snoc_cases Hl Hw; [|by rewrite (Hnew _ Hl)].
    rewrite Hactions. eapply placed_app; [done|]. apply (sz_placed _ _ _ _ Hs); [done|by apply Hold|].
    by eapply place_waiting.
  - intros i j ri rj li lj Hij [[Hi Hlt]|[-> ->]]%lookup_snoc_cases Hj Hli Hlj Hne Hwi Hwj;
      [|apply lookup_lt_Some in Hj; rewrite length_app in Hj; cbn in Hj; lia].
    apply lookup_snoc_cases in Hj as [[Hj Hltj]|[-> ->]].
    + eapply (sz_order _ _ _ _ Hs i j); eauto using place_waiting.
    + rewrite (Hnew _ Hlj). eapply Hfresh; eauto using place_waiting.
  - intros f l [Hr [Hf|[-> Hh]]]%Hblock; rewrite Hlocations.
    + destruct (sz_block _ _ _ _ Hs f l Hf) as [Hh Hb]. rewrite Hactions. split; [by apply holds_app|].
      intros. eapply place_above; eauto; rewrite Hr; cbn; eauto.
    + split; [done|]. intros. eapply place_above; eauto using place_fresh; by rewrite Hr.
  - intros f l [Hr [Hf|[-> Hh]]]%Hcookies; rewrite Hlocations.
    + destruct (sz_cookies _ _ _ _ Hs f l Hf) as [Hh Hb]. rewrite Hactions. split; [by apply holds_app|].
      intros. eapply place_above; eauto; rewrite Hr; cbn; eauto.
    + split; [done|]. intros. eapply place_above; eauto using place_fresh; by rewrite Hr.
  - intros f l [Hr Hf]%Hignore; rewrite Hlocations. split.
    { rewrite Hr in Hstart. rewrite drop_ge; [done|]. rewrite length_app. cbn. lia. }
    destruct Hf as [Hf|[-> Hh]].
    + destruct (sz_ignore _ _ _ _ Hs f l Hf) as (_ & Hh & Hb). rewrite Hactions. split; [by apply holds_app|].
      intros. eapply place_above; eauto; rewrite Hr; cbn; eauto.
    + split; [done|]. intros. eapply place_above; eauto using place_fresh; by rewrite Hr.
Qed.
End Place.

(** A rule that waits. *)
Lemma wait_serialized r s' :
  C = closes_strict ->
  ss_actions s' = ss_actions s -> ss_locations s' = ss_locations s ++ [uint32_max] ->
  blockActionsMap s' = blockActionsMap s -> blockCookiesActionsMap s' = blockCookiesActionsMap s ->
  ignorePreviousRuleActionsMap s' = ∅ ->
  cssDisplayNoneActionsMap s' = pending_of (Z.of_nat start) (drop start (rules ++ [r])) ->
  waits r = true -> serialized closes_strict start (rules ++ [r]) s'.
Proof.
  intros -> Hact Hloc Hb Hc Hg Hp Hw. pose proof (sz_length _ _ _ _ Hs) as Hlen. pose proof (sz_start _ _ _ _ Hs) as Hst.
  assert (Hold : forall i l, (i < length rules)%nat -> ss_locations s' !! i = Some l -> ss_locations s !! i = Some l).
  { intros i l Hi. rewrite Hloc, lookup_app_l; [done|lia]. }
  assert (Hnew : waiting start (length rules) r) by (split; [done|lia]).
  assert (Hmap : forall l, (forall i r li, rules !! i = Some r -> ss_locations s !! i = Some li -> is_ignore r = true -> li < l) ->
            forall i r0 li, (rules ++ [r]) !! i = Some r0 -> ss_locations s' !! i = Some li -> is_ignore r0 = true -> li < l).
  { intros l Hl i r0 li [[Hi Hlt]|[-> ->]]%lookup_snoc_cases Hli Hr0; [eauto|]. apply waits_not_ignore in Hw. congruence. }
  split.
  - rewrite Hact. apply (sz_items _ _ _ _ Hs).
  - rewrite Hloc, !length_app. cbn. lia.
  - rewrite length_app. lia.
  - rewrite drop_app_le by done. apply Forall_app. split; [apply (sz_segment _ _ _ _ Hs)|].
    constructor; [by apply waits_not_ignore|constructor].
  - done.
  - intros i ri l [[Hi Hlt]|[-> ->]]%lookup_snoc_cases Hl Hn; [|done].
    rewrite Hact, <- (app_nil_r (ss_actions s)). apply (placed_app closes_strict).
    + intros after (r0 & a & -> & Hr0). by exists r0, (a ++ [r]).
    + apply (sz_placed _ _ _ _ Hs); auto.
  - intros i j ri rj li lj Hij [[Hi Hlt]|[-> ->]]%lookup_snoc_cases Hj Hli Hlj Hne Hwi Hwj; [|done].
    apply lookup_snoc_cases in Hj as [[Hj Hltj]|[-> ->]]; [|done]. eapply (sz_order _ _ _ _ Hs i j); eauto.
  - intros f l. rewrite Hb, Hact. intros Hf. destruct (sz_block _ _ _ _ Hs f l Hf) as [Hh Ha]. split; [done|eauto].
  - intros f l. rewrite Hc, Hact. intros Hf. destruct (sz_cookies _ _ _ _ Hs f l Hf) as [Hh Ha]. split; [done|eauto].
  - intros f l. rewrite Hg. by rewrite lookup_empty.
Qed.

Lemma forget_ignore_serialized :
  serialized C start rules (mkSerialize (ss_actions s) (ss_locations s) (blockActionsMap s) (blockCookiesActionsMap s)
                              (cssDisplayNoneActionsMap s) ∅).
Proof. destruct Hs. by split. Qed.
End Step.

(** ** The end of a segment *)

Lemma slots_in_range start seg t p c :
  (t, p) ∈ pending_of (Z.of_nat start) seg -> c ∈ clientLocations p ->
  exists k r, c = Z.of_nat (start + k) /\ seg !! k = Some r /\ shares t r = true.
Proof.
  intros Hp Hc. apply list_elem_of_In, in_map_iff in Hp as (t' & [= <- <-] & _). cbn in Hc.
  apply elem_of_group_clients in Hc as (k & r & -> & Hk & Hr). exists k, r. split_and!; [lia|done|done].
Qed.

Lemma waiting_has_slot start seg k r :
  seg !! k = Some r -> waits r = true ->
  exists t p, (t, p) ∈ pending_of (Z.of_nat start) seg /\ Z.of_nat (start + k) ∈ clientLocations p.
Proof.
  intros Hk Hw. destruct (proj1 (known_spec _ _) (keys_of_known seg r (list_elem_of_lookup_2 _ _ _ Hk) Hw)) as (t & Ht & E).
  eexists _, _. split; [apply list_elem_of_In, in_map_iff; exists t; split; [done|by apply list_elem_of_In]|]. cbn.
  apply elem_of_group_clients. exists k, r. split_and!; [lia|done|]. unfold shares. by rewrite Hw.
Qed.

Lemma group_cong t t' seg : Trigger_equal t t' = true -> group t seg = group t' seg.
Proof.
  intros E. apply filter_ext. intros r. unfold shares. f_equal. apply eq_true_iff_eq.
  split; eauto using Trigger_equal_trans, Trigger_equal_sym.
Qed.

Lemma slot_selectors start seg t p r :
  (t, p) ∈ pending_of start seg -> shares t r = true -> selectors p = map selector_of (group (trigger r) seg).
Proof.
  intros Hp Hr. apply list_elem_of_In, in_map_iff in Hp as (t' & [= <- <-] & _). cbn. f_equal.
  apply group_cong. unfold shares in Hr. by bprop.
Qed.

Section Resolve.
Variables (start : nat) (rules : list ContentExtensionRule) (s : serialize_state).
Hypothesis Hs : serialized closes_strict start rules s.
Hypothesis Hopens : opens (take start rules).

Lemma resolve_total : exists x locs,
  resolvePendingDisplayNoneActions iteration_order (ss_actions s) (ss_locations s) (cssDisplayNoneActionsMap s)
    = Some (ss_actions s ++ x, locs, []) /\ itemized (ss_actions s ++ x) /\
  length locs = length rules /\
  forall i l, locs !! i = Some l ->
    (ss_locations s !! i = Some l /\ forall r, rules !! i = Some r -> ~ waiting start i r) \/
    (exists r, rules !! i = Some r /\ waiting start i r /\
      (vlen (ss_actions s ++ x) < 2 ^ 32 -> vlen (ss_actions s) <= l /\
       holds (ss_actions s ++ x) l (selector_bytes (combinedSelectors (map selector_of (group (trigger r) (drop start rules))))))).
Proof.
  pose proof (sz_length _ _ _ _ Hs) as Hlen. pose proof (sz_pending _ _ _ _ Hs) as Hp.
  assert (Hin : forall t p, (t, p) ∈ iteration_order (cssDisplayNoneActionsMap s) <->
                            (t, p) ∈ pending_of (Z.of_nat start) (drop start rules)).
  { intros t p. by rewrite iteration_order_perm, Hp. }
  destruct (resolve_loop_spec (iteration_order (cssDisplayNoneActionsMap s)) (ss_actions s) (ss_locations s))
    as (x & locs & Hr & Hit & Hl & Hi); [apply (sz_items _ _ _ _ Hs)| |].
  { intros t p c Htp Hc. apply Hin in Htp. destruct (slots_in_range _ _ _ _ _ Htp Hc) as (k & r & -> & Hk & _).
    apply lookup_lt_Some in Hk. rewrite length_drop in Hk. lia. }
  exists x, locs. unfold resolvePendingDisplayNoneActions. rewrite Hr, option_bind_Some.
  split_and!; [done|done|congruence|]. intros i l Hil. destruct (Hi i l Hil) as [[H1 Hno]|(t & p & Htp & Hc & Hres)].
  - left. split; [done|]. intros r Hri [Hw Hle].
    destruct (waiting_has_slot start (drop start rules) (i - start) r) as (t & p & Htp & Hc).
    { rewrite lookup_drop. replace (start + (i - start))%nat with i by lia. done. } { done. }
    apply (Hno t p); [by apply Hin|]. by replace (start + (i - start))%nat with i in Hc by lia.
  - right. apply Hin in Htp. destruct (slots_in_range _ _ _ _ _ Htp Hc) as (k & r & Hik & Hk & Hr').
    apply Nat2Z.inj in Hik as ->. exists r. rewrite lookup_drop in Hk. split_and!; [done|split; [|lia]|].
    + unfold shares in Hr'. by bprop.
    + intros Hsize. rewrite <- (slot_selectors _ _ _ _ _ Htp Hr'). auto.
Qed.

Lemma resolve_serialized actions locs m :
  resolvePendingDisplayNoneActions iteration_order (ss_actions s) (ss_locations s) (cssDisplayNoneActionsMap s)
    = Some (actions, locs, m) ->
  vlen actions < 2 ^ 32 ->
  serialized closes (length rules) rules (mkSerialize actions locs ∅ ∅ [] (ignorePreviousRuleActionsMap s)).
Proof.
  intros Heq Hsize. destruct resolve_total as (x & locs' & E & Hit & Hlen & Hi). rewrite E in Heq. injection Heq as <- <- <-.
  pose proof (sz_length _ _ _ _ Hs) as Hlen'. pose proof (sz_start _ _ _ _ Hs) as Hst.
  assert (Hnow : forall i r l, rules !! i = Some r -> locs' !! i = Some l -> ~ waiting start i r -> ss_locations s !! i = Some l).
  { intros i r l Hr Hl Hw. destruct (Hi i l Hl) as [[? _]|(r' & Hr' & Hw' & _)]; [done|]. congruence. }
  assert (Hhigh : forall i r l, rules !! i = Some r -> locs' !! i = Some l -> waiting start i r -> vlen (ss_actions s) <= l).
  { intros i r l Hr Hl Hw. destruct (Hi i l Hl) as [[_ Hn]|(r' & Hr' & Hw' & Hx)]; [by destruct (Hn r Hr)|]. by apply Hx. }
  split; cbn [ss_actions ss_locations blockActionsMap blockCookiesActionsMap cssDisplayNoneActionsMap ignorePreviousRuleActionsMap].
  - done.
  - done.
  - done.
  - rewrite drop_all. constructor.
  - by rewrite drop_all.
  - intros i r l Hr Hl _. destruct (Hi i l Hl) as [[Hold Hn]|(r' & Hr' & [Hw Hle] & Hx)].
    + rewrite <- (app_nil_r rules). eapply placed_app; [|apply (sz_placed _ _ _ _ Hs); eauto].
      intros after Ha. right. by rewrite app_nil_r.
    + simplify_eq. destruct (Hx Hsize) as [_ Hh]. unfold placed, stored_selector.
      unfold waits in Hw. apply andb_true_iff in Hw as [Hc Hd]. rewrite Hd.
      rewrite decide_True by (by apply bool_decide_eq_true in Hc). eexists. split; [exact Hh|].
      exists (take start rules), (drop start rules), []. rewrite app_nil_r, take_drop.
      split_and!; [done|done|by left|apply (sz_segment _ _ _ _ Hs)|..|done]; rewrite length_take, ?length_drop;
        apply lookup_lt_Some in Hr; lia.
  - intros i j ri rj li lj Hij Hri Hrj Hli Hlj Hne _ _.
    destruct (decide (waiting start i ri)) as [Hwi|Hwi].
    { exfalso. apply Hne. rewrite (waits_not_ignore ri) by apply Hwi. symmetry.
      apply (Forall_lookup_1 _ _ (j - start)%nat _ (sz_segment _ _ _ _ Hs)). rewrite lookup_drop.
      destruct Hwi. by replace (start + (j - start))%nat with j by lia. }
    destruct (decide (waiting start j rj)) as [Hwj|Hwj].
    + pose proof (Hhigh _ _ _ Hrj Hlj Hwj). pose proof (sz_placed _ _ _ _ Hs i ri li Hri ltac:(eauto) Hwi) as Hp.
      apply placed_lt in Hp. lia.
    + eapply (sz_order _ _ _ _ Hs i j); eauto.
  - intros f l. by rewrite lookup_empty.
  - intros f l. by rewrite lookup_empty.
  - intros f l Hf. destruct (sz_ignore _ _ _ _ Hs f l Hf) as (Hd & Hh & Hb). split; [apply drop_all|].
    split; [by apply holds_app|]. intros i r li Hr Hli Hg. eapply Hb; eauto. eapply Hnow; eauto.
    intros [_ Hle]. apply lookup_lt_Some in Hr. apply (f_equal length) in Hd. rewrite length_drop in Hd. cbn in Hd. lia.
Qed.
End Resolve.
End Invariant.
