(* ===== verification/SerializeClaims.v ===== *)
(** * Claims: serialized actions

    [serializeActions] never aborts on rules the parser produces; the action
    read back at the location of a rule is the rule's action; locations keep
    the order that an ignore-previous-rules action relies on. *)

From S2P Require Import Prelude Actions ActionsCorrect SerializeCorrect SerializeInvariant.

Section Steps.
Context `{Host}.
Variable iteration_order : PendingMap -> PendingMap.
Hypothesis iteration_order_perm : forall m, iteration_order m ≡ₚ m.

(** The action types a rule can have. *)
Definition serializable (r : ContentExtensionRule) : Prop :=
  action_type (action r) ∈ [BlockLoad; BlockCookies; CSSDisplayNoneSelector; IgnorePreviousRules].

Lemma serializable_not r :
  serializable r -> ~ (action_type (action r) = CSSDisplayNoneStyleSheet \/ action_type (action r) = InvalidAction).
Proof. unfold serializable. rewrite !elem_of_cons, elem_of_nil. intuition congruence. Qed.

Lemma find_or_append_cases actions m flags type :
  (exists l, m !! flags = Some l /\ find_or_append actions m flags type = (actions, m, l)) \/
  (m !! flags = None /\ find_or_append actions m flags type =
     (actions ++ [ActionType_code type], <[flags := u32 (vlen actions)]> m, u32 (vlen actions))).
Proof. unfold find_or_append. destruct (m !! flags) as [l|] eqn:E; [left; eauto|right; done]. Qed.

(** ** A state the loop can be in *)

Definition loop_inv (rules : list ContentExtensionRule) (s : serialize_state) : Prop :=
  exists start, serialized closes_strict start rules s /\ opens (take start rules).

(** The state a rule is added to. *)
Definition ready (rules : list ContentExtensionRule) (r : ContentExtensionRule) (s : serialize_state) : Prop :=
  if is_ignore r
  then serialized closes (length rules) rules s /\ blockActionsMap s = ∅ /\ blockCookiesActionsMap s = ∅
       /\ cssDisplayNoneActionsMap s = []
  else exists start, serialized closes_strict start rules s /\ opens (take start rules)
       /\ ignorePreviousRuleActionsMap s = ∅.

Lemma before_rule_ready rules r s s' :
  loop_inv rules s -> before_rule iteration_order s (action_type (action r)) = Some s' ->
  vlen (ss_actions s') < 2 ^ 32 -> ready rules r s'.
Proof.
  intros (start & Hs & Ho) Heq Hsize. unfold before_rule in Heq. unfold ready, is_ignore.
  rewrite bool_decide_decide. destruct (decide _) as [Ht|Ht]; cbn.
  - destruct (resolvePendingDisplayNoneActions _ _ _ _) as [[[actions locs] m]|] eqn:E; [|done].
    injection Heq as <-. split_and!; try done. by eapply resolve_serialized.
  - injection Heq as <-. exists start. split_and!; [by apply forget_ignore_serialized|done|done].
Qed.

(** A rule that gets a location at once, in both situations of [ready]. *)
Lemma place_ready rules r s s' location x :
  ready rules r s -> itemized (ss_actions s') ->
  ss_actions s' = ss_actions s ++ x -> ss_locations s' = ss_locations s ++ [location] ->
  cssDisplayNoneActionsMap s' = cssDisplayNoneActionsMap s -> waits r = false ->
  placed closes_strict (ss_actions s') (rules ++ [r]) (length rules) r location ->
  location = vlen (ss_actions s) \/
    (exists f, if is_ignore r then ignorePreviousRuleActionsMap s !! f = Some location
               else blockActionsMap s !! f = Some location \/ blockCookiesActionsMap s !! f = Some location) ->
  (forall f l, blockActionsMap s' !! f = Some l -> blockActionsMap s !! f = Some l \/
     is_ignore r = false /\ l = location /\ holds (ss_actions s') l [ActionType_code BlockLoad]) ->
  (forall f l, blockCookiesActionsMap s' !! f = Some l -> blockCookiesActionsMap s !! f = Some l \/
     is_ignore r = false /\ l = location /\ holds (ss_actions s') l [ActionType_code BlockCookies]) ->
  (forall f l, ignorePreviousRuleActionsMap s' !! f = Some l -> ignorePreviousRuleActionsMap s !! f = Some l \/
     is_ignore r = true /\ l = location /\ holds (ss_actions s') l [ActionType_code IgnorePreviousRules]) ->
  loop_inv (rules ++ [r]) s'.
Proof.
  intros Hready Hit Ha Hl Hcss Hw Hp Hloc Hb Hc Hg. unfold ready in Hready.
  destruct (is_ignore r) eqn:Hr.
  - destruct Hready as (Hs & Hb0 & Hc0 & Hp0). exists (S (length rules)). split.
    + eapply (place_serialized closes (length rules) rules s Hs); rewrite ?Hr; eauto.
      * intros after [->|(r0 & a & -> & Hr0)]; [by exists r, []|by exists r0, (a ++ [r])].
      * rewrite Hcss, Hp0, drop_ge; [done|]. rewrite length_app. cbn. lia.
      * intros i ri li Hi Hli Hne Hn. destruct Hloc as [->|(f & Hf)].
        -- eapply placed_lt, (sz_placed _ _ _ _ Hs); eauto.
        -- destruct (sz_ignore _ _ _ _ Hs f location Hf) as (_ & _ & Hall). eapply Hall; eauto.
           by destruct (is_ignore ri).
      * intros f l Hf. destruct (Hb f l Hf) as [E|[? _]]; [|done]. by rewrite Hb0, lookup_empty in E.
      * intros f l Hf. destruct (Hc f l Hf) as [E|[? _]]; [|done]. by rewrite Hc0, lookup_empty in E.
      * intros f l Hf. split; [done|]. destruct (Hg f l Hf) as [E|(_ & -> & Hh)]; auto.
    + right. rewrite firstn_all2 by (rewrite length_app; cbn; lia). eauto.
  - destruct Hready as (start & Hs & Ho & Hg0). pose proof (sz_start _ _ _ _ Hs) as Hst. exists start. split.
    + eapply (place_serialized closes_strict start rules s Hs); rewrite ?Hr; eauto.
      * intros after (r0 & a & -> & Hr0). by exists r0, (a ++ [r]).
      * rewrite Hcss, (sz_pending _ _ _ _ Hs), drop_app_le by done. by rewrite pending_of_skip.
      * intros i ri li Hi Hli Hne Hn. destruct Hloc as [->|(f & [Hf|Hf])].
        -- eapply placed_lt, (sz_placed _ _ _ _ Hs); eauto.
        -- destruct (sz_block _ _ _ _ Hs f location Hf) as [_ Hall]. eapply Hall; eauto. by destruct (is_ignore ri).
        -- destruct (sz_cookies _ _ _ _ Hs f location Hf) as [_ Hall]. eapply Hall; eauto. by destruct (is_ignore ri).
      * intros f l Hf. split; [done|]. destruct (Hb f l Hf) as [E|(_ & -> & Hh)]; auto.
      * intros f l Hf. split; [done|]. destruct (Hc f l Hf) as [E|(_ & -> & Hh)]; auto.
      * intros f l Hf. destruct (Hg f l Hf) as [E|[? _]]; [|done]. by rewrite Hg0, lookup_empty in E.
    + by rewrite take_app_le.
Qed.

Lemma ready_ignore_holds rules r s f l :
  ready rules r s -> is_ignore r = true -> ignorePreviousRuleActionsMap s !! f = Some l ->
  holds (ss_actions s) l [ActionType_code IgnorePreviousRules].
Proof. unfold ready. intros Hready Hr Hf. rewrite Hr in Hready. destruct Hready as (Hs & _). by apply (sz_ignore _ _ _ _ Hs f l Hf). Qed.

Lemma ready_serialized rules r s : ready rules r s -> exists C start, serialized C start rules s.
Proof. unfold ready. destruct (is_ignore r); [intros (Hs & _)|intros (start & Hs & _)]; eauto. Qed.

Lemma ready_items rules r s : ready rules r s -> itemized (ss_actions s).
Proof. intros (C & start & Hs)%ready_serialized. apply (sz_items _ _ _ _ Hs). Qed.

Lemma itemized_rule actions r :
  itemized actions -> serializable r ->
  itemized (actions ++ if decide (action_type (action r) = CSSDisplayNoneSelector) then selector_bytes (selector_of r)
                       else [ActionType_code (action_type (action r))]).
Proof.
  intros Hi Hr. case_decide; [by apply itemized_selector|]. apply (itemized_snoc _ (SimpleItem _)); [done|].
  unfold serializable in Hr. rewrite !elem_of_cons, elem_of_nil in Hr. cbn. rewrite !elem_of_cons. tauto.
Qed.

Lemma itemized_found actions m flags type :
  itemized actions -> type ∈ [BlockLoad; BlockCookies; IgnorePreviousRules] ->
  itemized (fst (fst (find_or_append actions m flags type))).
Proof.
  intros Hi Ht. destruct (find_or_append_cases actions m flags type) as [(l & _ & ->)|[_ ->]]; [done|].
  by apply (itemized_snoc _ (SimpleItem type)).
Qed.

Lemma placed_simple rules r s location :
  action_type (action r) <> CSSDisplayNoneSelector ->
  holds (ss_actions s) location [ActionType_code (action_type (action r))] ->
  placed closes_strict (ss_actions s) (rules ++ [r]) (length rules) r location.
Proof. intros Ht Hh. unfold placed. by rewrite decide_False. Qed.

(** A rule with domains: pushed at the end. *)
Lemma push_ready rules r s x :
  ready rules r s -> serializable r -> domains (trigger r) <> [] ->
  x = (if decide (action_type (action r) = CSSDisplayNoneSelector) then selector_bytes (selector_of r)
       else [ActionType_code (action_type (action r))]) ->
  loop_inv (rules ++ [r])
    (add_location s (ss_actions s ++ x) (blockActionsMap s) (blockCookiesActionsMap s) (cssDisplayNoneActionsMap s)
       (ignorePreviousRuleActionsMap s) (vlen (ss_actions s))).
Proof.
  intros Hready Hr Hd ->. pose proof (ready_items _ _ _ Hready) as Hit. eapply place_ready; eauto; cbn.
  - by apply itemized_rule.
  - unfold waits. rewrite (bool_decide_eq_false_2 (domains _ = [])) by done. apply andb_false_r.
  - unfold placed. case_decide as Ht; [|by apply holds_last].
    exists (selector_of r). split; [by apply holds_last|]. unfold stored_selector. by rewrite bool_decide_eq_false_2.
Qed.

(** A rule whose action is shared between rules with the same flags. *)
Section Shared.
Variables (rules : list ContentExtensionRule) (r : ContentExtensionRule) (s : serialize_state) (actions : list Z)
  (m' : gmap Z Z) (location : Z).
Hypothesis Hready : ready rules r s.
Hypothesis Hsize : vlen actions < 2 ^ 32.

Let flags := trigger_flags (trigger r).
Let type := action_type (action r).

Lemma shared_waits : type <> CSSDisplayNoneSelector -> waits r = false.
Proof. intros Ht. unfold waits. subst type. by rewrite bool_decide_eq_false_2. Qed.

Lemma shared_cases m :
  find_or_append (ss_actions s) m flags type = (actions, m', location) ->
  (forall l, m !! flags = Some l -> holds (ss_actions s) l [ActionType_code type]) ->
  type ∈ [BlockLoad; BlockCookies; IgnorePreviousRules] ->
  exists x, actions = ss_actions s ++ x /\ itemized actions /\ holds actions location [ActionType_code type] /\
    (location = vlen (ss_actions s) \/ m !! flags = Some location) /\
    forall f l, m' !! f = Some l -> m !! f = Some l \/ l = location /\ holds actions l [ActionType_code type].
Proof.
  intros Heq Hold Ht. pose proof (itemized_found _ m flags type (ready_items _ _ _ Hready) Ht) as Hit.
  destruct (find_or_append_cases (ss_actions s) m flags type) as [(l & Hl & E)|[Hn E]];
    rewrite E in Heq, Hit; injection Heq as <- <- <-.
  - exists []. rewrite app_nil_r. split_and!; auto.
  - exists [ActionType_code type]. rewrite length_app in Hsize. rewrite u32_small by lia.
    assert (Hh : holds (ss_actions s ++ [ActionType_code type]) (vlen (ss_actions s)) [ActionType_code type])
      by (eapply holds_last, ready_items; done).
    split_and!; [done|done|done|by left|]. intros f l.
    rewrite lookup_insert. case_decide; [intros [= <-]; auto|auto].
Qed.

Lemma shared_block :
  type = BlockLoad -> find_or_append (ss_actions s) (blockActionsMap s) flags type = (actions, m', location) ->
  loop_inv (rules ++ [r]) (add_location s actions m' (blockCookiesActionsMap s) (cssDisplayNoneActionsMap s)
    (ignorePreviousRuleActionsMap s) location).
Proof.
  intros Ht Heq. destruct (ready_serialized _ _ _ Hready) as (C & start & Hs).
  assert (Hr : is_ignore r = false) by (unfold is_ignore; subst type; by rewrite Ht).
  destruct (shared_cases (blockActionsMap s) Heq) as (x & -> & Hit & Hh & Hl & Hm); [|rewrite Ht; set_solver|].
  { intros l Hl. rewrite Ht. apply (sz_block _ _ _ _ Hs _ _ Hl). }
  eapply place_ready; eauto; cbn; rewrite ?Hr.
  - apply shared_waits. by rewrite Ht.
  - apply (placed_simple rules r (mkSerialize _ [] ∅ ∅ [] ∅)); [subst type; congruence|done].
  - destruct Hl as [->|Hl]; [by left|right]. exists flags. by left.
  - intros f l Hf. destruct (Hm f l Hf) as [?|[-> Hx]]; [by left|right]. by rewrite Ht in Hx.
Qed.

Lemma shared_cookies :
  type = BlockCookies -> find_or_append (ss_actions s) (blockCookiesActionsMap s) flags type = (actions, m', location) ->
  loop_inv (rules ++ [r]) (add_location s actions (blockActionsMap s) m' (cssDisplayNoneActionsMap s)
    (ignorePreviousRuleActionsMap s) location).
Proof.
  intros Ht Heq. destruct (ready_serialized _ _ _ Hready) as (C & start & Hs).
  assert (Hr : is_ignore r = false) by (unfold is_ignore; subst type; by rewrite Ht).
  destruct (shared_cases (blockCookiesActionsMap s) Heq) as (x & -> & Hit & Hh & Hl & Hm); [|rewrite Ht; set_solver|].
  { intros l Hl. rewrite Ht. apply (sz_cookies _ _ _ _ Hs _ _ Hl). }
  eapply place_ready; eauto; cbn; rewrite ?Hr.
  - apply shared_waits. by rewrite Ht.
  - apply (placed_simple rules r (mkSerialize _ [] ∅ ∅ [] ∅)); [subst type; congruence|done].
  - destruct Hl as [->|Hl]; [by left|right]. exists flags. by right.
  - intros f l Hf. destruct (Hm f l Hf) as [?|[-> Hx]]; [by left|right]. by rewrite Ht in Hx.
Qed.

Lemma shared_ignore :
  type = IgnorePreviousRules ->
  find_or_append (ss_actions s) (ignorePreviousRuleActionsMap s) flags type = (actions, m', location) ->
  loop_inv (rules ++ [r]) (add_location s actions (blockActionsMap s) (blockCookiesActionsMap s)
    (cssDisplayNoneActionsMap s) m' location).
Proof.
  intros Ht Heq. assert (Hr : is_ignore r = true) by (unfold is_ignore; subst type; by rewrite Ht).
  destruct (shared_cases (ignorePreviousRuleActionsMap s) Heq) as (x & -> & Hit & Hh & Hl & Hm); [|rewrite Ht; set_solver|].
  { intros l Hl. rewrite Ht. by eapply ready_ignore_holds. }
  eapply place_ready; eauto; cbn; rewrite ?Hr.
  - apply shared_waits. by rewrite Ht.
  - apply (placed_simple rules r (mkSerialize _ [] ∅ ∅ [] ∅)); [subst type; congruence|done].
  - destruct Hl as [->|Hl]; [by left|right]. by exists flags.
  - intros f l Hf. destruct (Hm f l Hf) as [?|[-> Hx]]; [by left|right]. by rewrite Ht in Hx.
Qed.
End Shared.

Lemma wait_ready rules r s :
  ready rules r s -> waits r = true ->
  loop_inv (rules ++ [r])
    (add_location s (ss_actions s) (blockActionsMap s) (blockCookiesActionsMap s)
       (add_pending (cssDisplayNoneActionsMap s) (trigger r) (selector_of r) (vlen (ss_locations s)))
       (ignorePreviousRuleActionsMap s) uint32_max).
Proof.
  unfold ready. intros Hready Hw. rewrite (waits_not_ignore _ Hw) in Hready. destruct Hready as (start & Hs & Ho & Hg).
  pose proof (sz_start _ _ _ _ Hs) as Hst. exists start. split; [|by rewrite take_app_le].
  eapply wait_serialized; eauto. cbn. rewrite drop_app_le, <- add_pending_eq by done.
  rewrite (sz_pending _ _ _ _ Hs), (sz_length _ _ _ _ Hs). f_equal. rewrite length_drop. lia.
Qed.

(** ** The loop never aborts *)

Definition clients_ok (s : serialize_state) : Prop :=
  itemized (ss_actions s) /\ forall t p c, (t, p) ∈ cssDisplayNoneActionsMap s -> c ∈ clientLocations p -> 0 <= c < vlen (ss_locations s).

Lemma add_pending_clients m t sel client (n : Z) :
  0 <= client < n -> (forall t' p c, (t', p) ∈ m -> c ∈ clientLocations p -> 0 <= c < n) ->
  forall t' p c, (t', p) ∈ add_pending m t sel client -> c ∈ clientLocations p -> 0 <= c < n.
Proof.
  intros Hn. induction m as [|[t0 p0] m IH]; intros Hm t' p c; cbn [add_pending].
  - intros [= -> ->]%list_elem_of_singleton Hc%list_elem_of_singleton. lia.
  - assert (Hm' : forall t' p c, (t', p) ∈ m -> c ∈ clientLocations p -> 0 <= c < n).
    { intros t1 p1 c1 H1. eapply Hm. by right. }
    destruct (Trigger_equal t0 t); intros [[= -> ->]|Hin]%elem_of_cons; try (by eauto).
    + cbn. rewrite elem_of_app, list_elem_of_singleton. intros [Hc|Hc]; [eapply Hm; [left|done]|lia].
    + eapply Hm. left.
Qed.

Lemma before_rule_total s type :
  clients_ok s -> exists s1 x, before_rule iteration_order s type = Some s1 /\ ss_actions s1 = ss_actions s ++ x /\ clients_ok s1.
Proof.
  intros Hc. unfold before_rule. case_decide.
  - destruct (resolve_loop_spec (iteration_order (cssDisplayNoneActionsMap s)) (ss_actions s) (ss_locations s))
      as (x & locs & Hr & Hit & _); [apply Hc| |].
    { intros t p c. rewrite iteration_order_perm. apply Hc. }
    unfold resolvePendingDisplayNoneActions. rewrite Hr, !option_bind_Some.
    eexists _, x. split_and!; [done|done|]. split; [done|]. intros t p c Hin. by apply elem_of_nil in Hin.
  - eexists _, []. rewrite app_nil_r. split_and!; [done|done|]. exact Hc.
Qed.

Lemma clients_ok_add s actions block cookies ignore location :
  itemized actions -> clients_ok s ->
  clients_ok (add_location s actions block cookies (cssDisplayNoneActionsMap s) ignore location).
Proof.
  intros Hi [_ Hc]. split; [done|]. intros t p c Hp Hin. cbn in *. rewrite length_app. specialize (Hc t p c Hp Hin). lia.
Qed.

Lemma find_or_append_grows actions m flags type :
  exists x, fst (fst (find_or_append actions m flags type)) = actions ++ x.
Proof.
  destruct (find_or_append_cases actions m flags type) as [(l & _ & ->)|[_ ->]]; cbn; [|by eexists].
  exists []. by rewrite app_nil_r.
Qed.

Lemma serialize_rule_step s r :
  clients_ok s -> serializable r ->
  exists s' x, serialize_rule iteration_order s r = Some s' /\ ss_actions s' = ss_actions s ++ x /\ clients_ok s' /\
    forall rules, vlen (ss_actions s') < 2 ^ 32 -> loop_inv rules s -> loop_inv (rules ++ [r]) s'.
Proof.
  intros Hc Hser. pose proof (serializable_not _ Hser) as Ht. unfold serialize_rule. rewrite decide_False by done.
  destruct (before_rule_total s (action_type (action r)) Hc) as (s1 & x & Hb & Ha & Hc1).
  rewrite Hb, option_bind_Some.
  assert (Hready : forall rules y, vlen (ss_actions s1 ++ y) < 2 ^ 32 -> loop_inv rules s -> ready rules r s1).
  { intros rules y Hy Hi. rewrite length_app in Hy. eapply before_rule_ready; eauto. lia. }
  pose proof (proj1 Hc1) as Hit. destruct s1 as [actions locs block cookies css ignore]. cbn in Ha, Hit, Hready |- *.
  case_bool_decide as Hd; cbn [negb].
  - destruct (action_type (action r)) eqn:Et; [| | |exfalso; tauto| |exfalso; tauto].
    + destruct (find_or_append actions block _ BlockLoad) as [[actions' block'] location] eqn:E.
      destruct (find_or_append_grows actions block (trigger_flags (trigger r)) BlockLoad) as [y Hy]. rewrite E in Hy. cbn in Hy.
      pose proof (itemized_found actions block (trigger_flags (trigger r)) BlockLoad Hit ltac:(set_solver)) as Hit'. rewrite E in Hit'.
      eexists _, (x ++ y). split_and!; [done|cbn; by rewrite Hy, Ha, (assoc_L (++))|by apply (clients_ok_add _ _ _ _ _ _ Hit' Hc1)|].
      intros rules Hsize Hi. cbn in Hsize. apply (shared_block rules r _ _ _ _ (Hready rules y ltac:(by rewrite <- Hy) Hi)); cbn; auto.
      by rewrite Et.
    + destruct (find_or_append actions cookies _ BlockCookies) as [[actions' cookies'] location] eqn:E.
      destruct (find_or_append_grows actions cookies (trigger_flags (trigger r)) BlockCookies) as [y Hy]. rewrite E in Hy. cbn in Hy.
      pose proof (itemized_found actions cookies (trigger_flags (trigger r)) BlockCookies Hit ltac:(set_solver)) as Hit'. rewrite E in Hit'.
      eexists _, (x ++ y). split_and!; [done|cbn; by rewrite Hy, Ha, (assoc_L (++))|by apply (clients_ok_add _ _ _ _ _ _ Hit' Hc1)|].
      intros rules Hsize Hi. cbn in Hsize. apply (shared_cookies rules r _ _ _ _ (Hready rules y ltac:(by rewrite <- Hy) Hi)); cbn; auto.
      by rewrite Et.
    + eexists _, x. split_and!; [done|done| |].
      * split; [done|]. intros t p c. cbn. rewrite length_app. cbn. apply add_pending_clients; [lia|].
        intros t' p' c' Hp Hin. pose proof (proj2 Hc1 t' p' c' Hp Hin) as Hr. cbn in Hr. lia.
      * intros rules Hsize Hi. cbn in Hsize. apply (wait_ready rules r _ (Hready rules [] ltac:(by rewrite app_nil_r) Hi)).
        unfold waits. rewrite Et. by rewrite !bool_decide_eq_true_2.
    + destruct (find_or_append actions ignore _ IgnorePreviousRules) as [[actions' ignore'] location] eqn:E.
      destruct (find_or_append_grows actions ignore (trigger_flags (trigger r)) IgnorePreviousRules) as [y Hy]. rewrite E in Hy. cbn in Hy.
      pose proof (itemized_found actions ignore (trigger_flags (trigger r)) IgnorePreviousRules Hit ltac:(set_solver)) as Hit'. rewrite E in Hit'.
      eexists _, (x ++ y). split_and!; [done|cbn; by rewrite Hy, Ha, (assoc_L (++))|by apply (clients_ok_add _ _ _ _ _ _ Hit' Hc1)|].
      intros rules Hsize Hi. cbn in Hsize. apply (shared_ignore rules r _ _ _ _ (Hready rules y ltac:(by rewrite <- Hy) Hi)); cbn; auto.
      by rewrite Et.
  - pose (y := if decide (action_type (action r) = CSSDisplayNoneSelector) then selector_bytes (selector_of r)
               else [ActionType_code (action_type (action r))]).
    exists (add_location (mkSerialize actions locs block cookies css ignore) (actions ++ y) block cookies css ignore
              (u32 (vlen actions))), (x ++ y).
    split_and!.
    + unfold y. case_decide; [by rewrite serializeSelector_eq|done].
    + cbn. by rewrite Ha, (assoc_L (++)).
    + apply (clients_ok_add _ _ _ _ _ _ (itemized_rule _ _ Hit Hser) Hc1).
    + intros rules Hsize Hi. cbn in Hsize. pose proof (Hready rules y Hsize Hi) as Hrd.
      rewrite length_app in Hsize. rewrite u32_small by lia. by apply (push_ready rules r _ y Hrd Hser).
Qed.

Lemma serialize_loop_total ruleList : forall s,
  clients_ok s -> Forall serializable ruleList ->
  exists s' x, serialize_loop iteration_order s ruleList = Some s' /\ ss_actions s' = ss_actions s ++ x /\ clients_ok s' /\
    forall rules, vlen (ss_actions s') < 2 ^ 32 -> loop_inv rules s -> loop_inv (rules ++ ruleList) s'.
Proof.
  induction ruleList as [|r ruleList IH]; intros s Hc Hf; cbn [serialize_loop].
  - exists s, []. rewrite app_nil_r. split_and!; auto. intros rules _. by rewrite app_nil_r.
  - inversion Hf; subst. destruct (serialize_rule_step s r Hc ltac:(done)) as (s1 & x & -> & Ha & Hc1 & Hi1).
    rewrite option_bind_Some. destruct (IH s1 Hc1 ltac:(done)) as (s' & y & -> & Ha' & Hc' & Hi').
    exists s', (x ++ y). split_and!; [done|by rewrite Ha', Ha, (assoc_L (++))|done|].
    intros rules Hsize Hi. rewrite cons_middle, (assoc_L (++)). apply Hi'; [done|]. apply Hi1; [|done].
    rewrite Ha', length_app in Hsize. lia.
Qed.

Lemma loop_inv_start : loop_inv [] (mkSerialize [] [] ∅ ∅ [] ∅).
Proof.
  exists 0%nat. split; [|by left]. split; cbn; try (done || apply itemized_nil); intros *; try (by rewrite lookup_empty); try (by rewrite lookup_nil).
Qed.

(** Everything about the result, in the terms of the invariant. *)
Lemma serializeActions_serialized rules :
  Forall serializable rules ->
  exists actions locs, serializeActions iteration_order rules = Some (actions, locs) /\
    (vlen actions < 2 ^ 32 ->
     serialized closes (length rules) rules (mkSerialize actions locs ∅ ∅ [] ∅)).
Proof.
  intros Hf. unfold serializeActions.
  destruct (serialize_loop_total rules (mkSerialize [] [] ∅ ∅ [] ∅)) as (s & x & -> & _ & Hc & Hinv); [|done|].
  { split; [apply itemized_nil|]. intros t p c Hin. by apply elem_of_nil in Hin. }
  rewrite option_bind_Some. specialize (Hinv []). cbn [app] in Hinv.
  destruct (resolve_loop_spec (iteration_order (cssDisplayNoneActionsMap s)) (ss_actions s) (ss_locations s))
    as (y & locs & Hr & _ & Hl & _); [apply Hc| |].
  { intros t p c. rewrite iteration_order_perm. apply Hc. }
  unfold resolvePendingDisplayNoneActions at 1. rewrite Hr, !option_bind_Some.
  eexists _, locs. split; [done|].
  intros Hsize.
  destruct (Hinv ltac:(rewrite length_app in Hsize; lia) loop_inv_start) as (start & Hs & Ho).
  eapply (forget_ignore_serialized closes (length rules) rules (mkSerialize _ locs ∅ ∅ [] _)).
  eapply (resolve_serialized iteration_order iteration_order_perm start rules s Hs Ho); [|done].
  unfold resolvePendingDisplayNoneActions. by rewrite Hr.
Qed.
End Steps.

(** ** What the location of a rule holds *)

(** The stretch of rules between two ignore-previous-rules rules that contains the [i]-th. *)
Definition segment_of (rules : list ContentExtensionRule) (i : nat) (seg : list ContentExtensionRule) : Prop :=
  exists before after, rules = before ++ seg ++ after /\ opens before /\ closes after /\
    Forall (fun r => is_ignore r = false) seg /\ (length before <= i < length before + length seg)%nat.

Section Claims.
Context `{Host}.
Variable iteration_order : PendingMap -> PendingMap.
Hypothesis iteration_order_perm : forall m, iteration_order m ≡ₚ m.

Lemma group_wf t seg : Forall (fun r => wf_string (selector_of r)) seg -> Forall wf_string (map selector_of (group t seg)).
Proof.
  rewrite !Forall_forall. intros Hseg s Hs. apply list_elem_of_In, in_map_iff in Hs as (r & <- & Hr).
  apply filter_In in Hr as [Hr _]. apply Hseg. by apply list_elem_of_In.
Qed.

Lemma stored_selector_wf C rules i r sel :
  Forall (fun r => wf_string (selector_of r)) rules -> rules !! i = Some r -> stored_selector C rules i r sel -> wf_string sel.
Proof.
  intros Hwf Hi. unfold stored_selector. case_bool_decide.
  - intros (before & seg & after & -> & _ & _ & _ & _ & ->). apply combinedSelectors_wf, group_wf.
    rewrite !Forall_app in Hwf. tauto.
  - intros ->. apply (Forall_lookup_1 _ _ _ _ Hwf Hi).
Qed.

Lemma placed_deserialize actions rules i r l :
  vlen actions < 2 ^ 32 -> Forall (fun r => wf_string (selector_of r)) rules -> rules !! i = Some r -> serializable r ->
  placed closes actions rules i r l ->
  exists s, deserialize actions (vlen actions) l = Some (mkAction (action_type (action r)) l s) /\
    if decide (action_type (action r) = CSSDisplayNoneSelector) then stored_selector closes rules i r s else s = emptyWString.
Proof.
  intros Hsize Hwf Hi Hr. unfold placed. case_decide as Ht.
  - rewrite Ht. intros (sel & Hh & Hsel). exists sel. split; [|done].
    apply deserialize_selector; [by apply holds_stored|done|]. by eapply stored_selector_wf.
  - intros Hh. exists emptyWString. split; [|done]. apply deserialize_simple; [done|].
    unfold serializable in Hr. rewrite !elem_of_cons, elem_of_nil in Hr. rewrite !elem_of_cons. tauto.
Qed.

(** C25: a selector written by [serializeSelector] after any bytes, with any bytes
    after it, is read back by [Action::deserialize] with its characters and
    its width, and [Action::serializedLength] is the number of bytes written,
    for 8-bit and 16-bit strings and both byte orders. *)
Theorem selector_roundtrip actions s post :
  wf_string s -> vlen actions + 6 + 2 * vlen (characters s) + vlen post < 2 ^ 32 ->
  exists actions', serializeSelector actions s = Some actions' /\
    deserialize (actions' ++ post) (vlen (actions' ++ post)) (vlen actions)
      = Some (mkAction CSSDisplayNoneSelector (vlen actions) s) /\
    serializedLength (actions' ++ post) (vlen (actions' ++ post)) (vlen actions)
      = Some (vlen actions' - vlen actions).
Proof.
  intros Hwf Hsize. rewrite serializeSelector_eq. eexists. split; [done|].
  assert (Hh : stored_at ((actions ++ selector_bytes s) ++ post) (vlen actions) (selector_bytes s))
    by (exists actions, post; by rewrite <- (assoc_L (++))).
  assert (Hl : vlen ((actions ++ selector_bytes s) ++ post) < 2 ^ 32).
  { rewrite !length_app. pose proof (selector_bytes_length s). destruct (is8Bit s); lia. }
  split; [by apply deserialize_selector|]. rewrite (serializedLength_selector _ _ _ Hh Hl). f_equal. rewrite length_app. lia.
Qed.

(** C26: [serializeActions] succeeds on every list of rules with the four action
    types a rule can have; when the bytes fit 32-bit locations there is one
    location per rule, and deserializing there gives an action of the rule's
    type.  For a selector with domains it is the rule's own selector; without
    domains it is the comma-separated list of the selectors of all rules with
    an equal trigger between the surrounding ignore-previous-rules rules,
    whatever the iteration order of the pending hash map. *)
Theorem serializeActions_correct rules :
  Forall serializable rules -> Forall (fun r => wf_string (selector_of r)) rules ->
  exists actions locs, serializeActions iteration_order rules = Some (actions, locs) /\
    (vlen actions < 2 ^ 32 -> length locs = length rules /\
      forall i r l, rules !! i = Some r -> locs !! i = Some l ->
        exists s, deserialize actions (vlen actions) l = Some (mkAction (action_type (action r)) l s) /\
          (action_type (action r) = CSSDisplayNoneSelector ->
           if bool_decide (domains (trigger r) = [])
           then exists seg, segment_of rules i seg /\
                  characters s = join_comma (map (fun r => characters (selector_of r)) (group (trigger r) seg))
           else s = selector_of r)).
Proof.
  intros Hser Hwf. destruct (serializeActions_serialized iteration_order iteration_order_perm rules Hser)
    as (actions & locs & -> & Hs). exists actions, locs. split; [done|]. intros Hsize. specialize (Hs Hsize).
  split; [apply (sz_length _ _ _ _ Hs)|]. intros i r l Hi Hl.
  destruct (placed_deserialize actions rules i r l Hsize Hwf Hi (Forall_lookup_1 _ _ _ _ Hser Hi)) as (s & Hd & Hcase).
  { apply (sz_placed _ _ _ _ Hs i r l Hi Hl). intros [_ Hle]. apply lookup_lt_Some in Hi. lia. }
  exists s. split; [done|]. intros Ht. rewrite decide_True in Hcase by done. unfold stored_selector in Hcase.
  case_bool_decide; [|done]. destruct Hcase as (before & seg & after & Heq & Ho & Hc & Hseg & Hb & ->).
  exists seg. split; [exists before, after; split_and!; tauto|]. by rewrite combinedSelectors_characters, map_map.
Qed.

(** Two rules of which exactly one is an ignore-previous-rules rule. *)
Lemma mixed_order rules actions locs i j ri rj li lj :
  Forall serializable rules -> serializeActions iteration_order rules = Some (actions, locs) -> vlen actions < 2 ^ 32 ->
  (i < j)%nat -> rules !! i = Some ri -> rules !! j = Some rj -> locs !! i = Some li -> locs !! j = Some lj ->
  (action_type (action ri) = IgnorePreviousRules <-> action_type (action rj) <> IgnorePreviousRules) ->
  li < lj.
Proof.
  intros Hser Heq Hsize Hij Hi Hj Hli Hlj Hne.
  destruct (serializeActions_serialized iteration_order iteration_order_perm rules Hser) as (a & l & E & Hs).
  rewrite E in Heq. injection Heq as -> ->.
  eapply (sz_order _ _ _ _ (Hs Hsize) i j); eauto.
  - unfold is_ignore. do 2 case_bool_decide; intuition congruence.
  - intros [_ Hle]. apply lookup_lt_Some in Hi. lia.
  - intros [_ Hle]. apply lookup_lt_Some in Hj. lia.
Qed.

(** C27: if the rules from one rule to a later one, both included, have an
    ignore-previous-rules rule among them and a rule that is none, the earlier
    rule has the smaller location.  So sorting matched actions by location keeps
    every action that is no ignore-previous-rules action on its side of every
    one that is, although locations are shared and selectors are written late.
    Nothing is said of two rules with only ignore-previous-rules rules, or none
    of them, between: those can share a location or be out of order. *)
Theorem serializeActions_order rules actions locs i k j ri rk rj li lj :
  Forall serializable rules -> serializeActions iteration_order rules = Some (actions, locs) -> vlen actions < 2 ^ 32 ->
  (i < j)%nat -> (i <= k <= j)%nat -> rules !! i = Some ri -> rules !! k = Some rk -> rules !! j = Some rj ->
  (action_type (action ri) = IgnorePreviousRules <-> action_type (action rk) <> IgnorePreviousRules) ->
  locs !! i = Some li -> locs !! j = Some lj ->
  li < lj.
Proof.
  intros Hser Heq Hsize Hij Hk Hi Hrk Hj Hne Hli Hlj. assert (k <> i) by (intros ->; rewrite Hi in Hrk; injection Hrk as ->; tauto).
  destruct (decide (k = j)) as [->|]; [rewrite Hj in Hrk; injection Hrk as ->; by eapply (mixed_order rules actions locs i j)|].
  destruct (decide (action_type (action rk) = action_type (action rj) \/ (action_type (action rk) <> IgnorePreviousRules /\ action_type (action rj) <> IgnorePreviousRules))) as [Hs|Hs].
  { eapply (mixed_order rules actions locs i j); eauto. intuition congruence. }
  destruct (serializeActions_serialized iteration_order iteration_order_perm rules Hser) as (a & l & E & Hz). rewrite E in Heq. injection Heq as -> ->.
  destruct (lookup_lt_is_Some_2 locs k) as [lk Hlk]; [pose proof (sz_length _ _ _ _ (Hz Hsize)) as Hl; cbn in Hl; rewrite Hl; by eapply lookup_lt_Some|].
  transitivity lk; [eapply (mixed_order rules actions locs i k)|eapply (mixed_order rules actions locs k j)]; eauto; try lia.
  destruct (decide (action_type (action rk) = IgnorePreviousRules)), (decide (action_type (action rj) = IgnorePreviousRules)); intuition congruence.
Qed.
End Claims.

(** ** Witnesses *)

Module SerializeExample.

Definition host : Host := {| host_big_endian := false |}.

Definition str (cs : list Z) : WString := mkWString true cs.

Definition rule (type : ActionType) (filter : Z) (flags : Z) (sel : list Z) : ContentExtensionRule :=
  mkRule (mkTrigger (str [filter]) false flags [] NoDomain) (mkAction type uint32_max (str sel)).

Definition rules : list ContentExtensionRule :=
  [rule CSSDisplayNoneSelector 97 0 [65]; rule BlockLoad 98 3 []; rule CSSDisplayNoneSelector 97 0 [66; 67];
   rule IgnorePreviousRules 99 0 []; rule BlockLoad 98 3 []; rule CSSDisplayNoneSelector 97 0 [68]].

Lemma reverse_perm (m : PendingMap) : reverse m ≡ₚ m.
Proof. apply reverse_Permutation. Qed.

Lemma selector_roundtrip_witness :
  exists actions', serializeSelector (H := host) [7; 8] (mkWString false [256; 65]) = Some actions' /\
    deserialize (H := host) (actions' ++ [9]) (vlen (actions' ++ [9])) 2
      = Some (mkAction CSSDisplayNoneSelector 2 (mkWString false [256; 65])) /\
    serializedLength (H := host) (actions' ++ [9]) (vlen (actions' ++ [9])) 2 = Some (vlen actions' - 2).
Proof.
  apply (selector_roundtrip (H := host) [7; 8] (mkWString false [256; 65]) [9]).
  - constructor; [cbn; lia|]. constructor; [cbn; lia|constructor].
  - cbn. lia.
Defined.

Lemma rules_serializable : Forall serializable rules.
Proof. unfold serializable. repeat (apply Forall_cons; split; [cbn; set_solver|]). apply Forall_nil. done. Qed.

Lemma rules_wf : Forall (fun r => wf_string (selector_of r)) rules.
Proof.
  repeat (apply Forall_cons; split; [unfold wf_string; cbn; repeat (apply Forall_cons; split; [lia|]); apply Forall_nil; done|]).
  apply Forall_nil. done.
Qed.

Lemma serializeActions_correct_witness :
  exists actions locs, serializeActions (H := host) reverse rules = Some (actions, locs) /\
    (vlen actions < 2 ^ 32 -> length locs = length rules /\
      forall i r l, rules !! i = Some r -> locs !! i = Some l ->
        exists s, deserialize (H := host) actions (vlen actions) l = Some (mkAction (action_type (action r)) l s) /\
          (action_type (action r) = CSSDisplayNoneSelector ->
           if bool_decide (domains (trigger r) = [])
           then exists seg, segment_of rules i seg /\
                  characters s = join_comma (map (fun r => characters (selector_of r)) (group (trigger r) seg))
           else s = selector_of r)).
Proof. exact (serializeActions_correct (H := host) reverse reverse_perm rules rules_serializable rules_wf). Defined.

Lemma serializeActions_order_witness :
  exists actions locs, serializeActions (H := host) reverse rules = Some (actions, locs) /\ 1 < 11.
Proof.
  eexists _, _. split; [vm_compute; reflexivity|].
  eapply (serializeActions_order (H := host) reverse reverse_perm rules _ _ 2 3 3).
  - apply rules_serializable.
  - vm_compute. reflexivity.
  - vm_compute. reflexivity.
  - lia.
  - lia.
  - reflexivity.
  - reflexivity.
  - reflexivity.
  - cbn. split; done.
  - reflexivity.
  - reflexivity.
Defined.

(** Four rules that ignore previous rules: the last one shares a location, before the ones between. *)
Definition ignore_rule (flags : Z) : ContentExtensionRule := mkRule (mkTrigger (str [97]) true flags [] NoDomain) (mkAction IgnorePreviousRules uint32_max emptyWString).

Example ignore_rules_out_of_order : snd <$> serializeActions (H := host) reverse (map ignore_rule [1; 2; 3; 1]) = Some [0; 1; 2; 0].
Proof. by vm_compute. Qed.
End SerializeExample.

(** * Rules with domains have locations of their own

    The actions of rules with domains are never shared or written late, so
    their locations grow with the rules. *)

Section Distinct.
Context `{Host}.
Variable iteration_order : PendingMap -> PendingMap.
Hypothesis iteration_order_perm : forall m, iteration_order m ≡ₚ m.

Definition with_domains (rules : list ContentExtensionRule) (i : nat) : Prop := exists r, rules !! i = Some r /\ domains (trigger r) <> [].

(** Only rules without domains wait for a location; the others have one below the end of the bytes. *)
Record distinct_inv (rules : list ContentExtensionRule) (s : serialize_state) : Prop := {
  di_clients : clients_ok s;
  di_length : length (ss_locations s) = length rules;
  di_waiting : forall t p c, (t, p) ∈ cssDisplayNoneActionsMap s -> c ∈ clientLocations p -> ~ with_domains rules (Z.to_nat c);
  di_below : forall i l, with_domains rules i -> ss_locations s !! i = Some l -> l < vlen (ss_actions s);
  di_grow : forall i j li lj, (i < j)%nat -> with_domains rules i -> with_domains rules j -> ss_locations s !! i = Some li -> ss_locations s !! j = Some lj -> li < lj
}.

Lemma with_domains_app rules r i : with_domains (rules ++ [r]) i <-> with_domains rules i \/ (i = length rules /\ domains (trigger r) <> []).
Proof.
  unfold with_domains. setoid_rewrite lookup_app_Some. setoid_rewrite list_lookup_singleton_Some. split.
  - intros (r' & [Hr|(Hl & Hi & <-)] & Hd); [left; by exists r'|right]. split; [lia|done].
  - intros [(r' & Hr & Hd)|[-> Hd]]; [exists r'; tauto|]. exists r. split; [right; split; [lia|]; split; [lia|done]|done].
Qed.

Lemma with_domains_lt rules i : with_domains rules i -> (i < length rules)%nat.
Proof. intros (r & Hr & _). by eapply lookup_lt_Some. Qed.

Lemma lookup_snoc_inv {A} (l : list A) x i y : (l ++ [x]) !! i = Some y -> l !! i = Some y \/ (i = length l /\ y = x).
Proof. rewrite lookup_app_Some, list_lookup_singleton_Some. intros [?|(Hl & Hi & <-)]; [by left|right]. split; [lia|done]. Qed.

(** Resolving moves no rule with domains. *)
Lemma resolve_distinct rules s actions locs m ignore block cookies :
  distinct_inv rules s -> resolvePendingDisplayNoneActions iteration_order (ss_actions s) (ss_locations s) (cssDisplayNoneActionsMap s) = Some (actions, locs, m) ->
  (exists x, actions = ss_actions s ++ x) /\ distinct_inv rules (mkSerialize actions locs block cookies [] ignore).
Proof.
  intros [Hc Hlen Hw Hb Hg] Hr. unfold resolvePendingDisplayNoneActions in Hr.
  destruct (resolve_loop_spec (iteration_order (cssDisplayNoneActionsMap s)) (ss_actions s) (ss_locations s)) as (x & locs' & Hres & Hit & Hl & Hi); [apply Hc| |].
  { intros t p c. rewrite iteration_order_perm. apply Hc. }
  rewrite Hres, option_bind_Some in Hr. injection Hr as <- <- _. split; [by eexists|].
  assert (Hsame : forall i l, with_domains rules i -> locs' !! i = Some l -> ss_locations s !! i = Some l).
  { intros i l Hd Hil. destruct (Hi i l Hil) as [[? _]|(t & p & Htp & Hcl & _)]; [done|]. exfalso. rewrite iteration_order_perm in Htp. apply (Hw t p _ Htp Hcl). by rewrite Nat2Z.id. }
  split; cbn.
  - split; [done|]. intros t p c Hin. by apply not_elem_of_nil in Hin.
  - congruence.
  - intros t p c Hin. by apply not_elem_of_nil in Hin.
  - intros i l Hd Hil. rewrite length_app. specialize (Hb i l Hd (Hsame i l Hd Hil)). lia.
  - intros i j li lj Hij Hdi Hdj Hli Hlj. eapply (Hg i j); eauto.
Qed.

Lemma before_distinct rules s type s1 :
  distinct_inv rules s -> before_rule iteration_order s type = Some s1 -> (exists x, ss_actions s1 = ss_actions s ++ x) /\ distinct_inv rules s1.
Proof.
  intros Hi. unfold before_rule. case_decide.
  - destruct (resolvePendingDisplayNoneActions _ _ _ _) as [[[actions locs] m]|] eqn:E; [|done]. rewrite option_bind_Some. intros [= <-]. by eapply resolve_distinct.
  - intros [= <-]. split; [exists []; by rewrite app_nil_r|]. destruct Hi as [[? ?] ? ? ? ?]. by split.
Qed.

(** A rule without domains gets any location, a rule with domains the end of the bytes. *)
Lemma push_distinct rules s r actions block cookies css ignore location x :
  distinct_inv rules s -> actions = ss_actions s ++ x -> itemized actions ->
  (domains (trigger r) <> [] -> location = vlen (ss_actions s) /\ x <> []) ->
  (forall t p c, (t, p) ∈ css -> c ∈ clientLocations p -> 0 <= c < vlen (ss_locations s) + 1 /\ ~ with_domains (rules ++ [r]) (Z.to_nat c)) ->
  distinct_inv (rules ++ [r]) (add_location s actions block cookies css ignore location).
Proof.
  intros [Hc Hlen Hw Hb Hg] -> Hit Hloc Hcss. unfold add_location. split; cbn.
  - split; [done|]. cbn. intros t p c Htp Hcl. rewrite length_app. cbn. specialize (Hcss t p c Htp Hcl). lia.
  - rewrite !length_app, Hlen. done.
  - intros t p c Htp Hcl. by apply (Hcss t p c Htp Hcl).
  - intros i l [Hd|[-> Hd]]%with_domains_app [Hl|[Hi ->]]%lookup_snoc_inv; rewrite length_app.
    + specialize (Hb i l Hd Hl). lia.
    + apply with_domains_lt in Hd. lia.
    + apply lookup_lt_Some in Hl. lia.
    + destruct (Hloc Hd) as [-> Hx]. destruct x; [done|]. cbn. lia.
  - intros i j li lj Hij [Hdi|[-> Hdi]]%with_domains_app [Hdj|[-> Hdj]]%with_domains_app [Hli|[Hi ->]]%lookup_snoc_inv [Hlj|[Hj ->]]%lookup_snoc_inv;
      try pose proof (with_domains_lt _ _ Hdi); try pose proof (with_domains_lt _ _ Hdj); try pose proof (lookup_lt_Some _ _ _ Hli); try pose proof (lookup_lt_Some _ _ _ Hlj); try lia.
    + eapply (Hg i j); eauto.
    + destruct (Hloc Hdj) as [-> _]. by apply (Hb i).
Qed.

(** Adding a client to the map of selectors. *)
Lemma add_pending_distinct m t sel client (P : Z -> Prop) :
  P client -> (forall t' p c, (t', p) ∈ m -> c ∈ clientLocations p -> P c) -> forall t' p c, (t', p) ∈ add_pending m t sel client -> c ∈ clientLocations p -> P c.
Proof.
  intros Hn. induction m as [|[t0 p0] m IH]; intros Hm t' p c; cbn [add_pending].
  - intros [= -> ->]%list_elem_of_singleton Hc%list_elem_of_singleton. by subst.
  - assert (Hm' : forall t' p c, (t', p) ∈ m -> c ∈ clientLocations p -> P c) by (intros t1 p1 c1 Hin; apply (Hm t1); by right).
    destruct (Trigger_equal t0 t); intros [[= -> ->]|Hin]%elem_of_cons.
    + cbn. intros [Hc|Hc%list_elem_of_singleton]%elem_of_app; [|by subst]. apply (Hm t0 p0 c); [by left|done].
    + intros Hc. by apply (Hm' t' p c).
    + intros Hc. eapply Hm; [by left|exact Hc].
    + intros Hc. by apply (IH Hm' t' p c).
Qed.

Lemma serialize_rule_distinct rules s r s' :
  distinct_inv rules s -> serializable r -> serialize_rule iteration_order s r = Some s' -> vlen (ss_actions s') < 2 ^ 32 -> distinct_inv (rules ++ [r]) s'.
Proof.
  intros Hi Hser. destruct (serialize_rule_step iteration_order iteration_order_perm s r (di_clients _ _ Hi) Hser) as (s2 & z & Hs2 & _ & [Hit _] & _).
  rewrite Hs2. intros [= <-] Hsize. revert Hs2. unfold serialize_rule. rewrite decide_False by (by apply serializable_not).
  destruct (before_rule iteration_order s (action_type (action r))) as [s1|] eqn:Hb; [|done]. rewrite option_bind_Some. destruct (before_distinct _ _ _ _ Hi Hb) as [_ Hi1].
  destruct s1 as [actions locs block cookies css ignore] eqn:Es1. rewrite <- Es1 in *.
  assert (Hcss : forall t p c, (t, p) ∈ css -> c ∈ clientLocations p -> 0 <= c < vlen (ss_locations s1) + 1 /\ ~ with_domains (rules ++ [r]) (Z.to_nat c)).
  { intros t p c Htp Hcl. assert (Htp' : (t, p) ∈ cssDisplayNoneActionsMap s1) by by subst. pose proof (proj2 (di_clients _ _ Hi1) t p c Htp' Hcl) as Hr. split; [lia|].
    intros [Hd|[Hc _]]%with_domains_app; [by apply (di_waiting _ _ Hi1 t p c Htp' Hcl)|]. rewrite (di_length _ _ Hi1) in Hr. lia. }
  case_bool_decide as Hd; cbn [negb].
  - assert (Hshared : forall m type mk, (forall a m' l, mk (a, m', l) = add_location s1 a (blockActionsMap (mk (a, m', l))) (blockCookiesActionsMap (mk (a, m', l))) css (ignorePreviousRuleActionsMap (mk (a, m', l))) l) ->
      mk (find_or_append actions m (trigger_flags (trigger r)) type) = s2 -> distinct_inv (rules ++ [r]) s2).
    { intros m type mk Hmk <-. destruct (find_or_append actions m (trigger_flags (trigger r)) type) as [[a m'] l] eqn:Ef. destruct (find_or_append_grows actions m (trigger_flags (trigger r)) type) as [x Hx].
      rewrite Ef in Hx. cbn in Hx. rewrite Hmk in *. eapply push_distinct; [done| |done|done|done]. subst. done. }
    destruct (action_type (action r)) eqn:Et; try done.
    + destruct (find_or_append actions block _ BlockLoad) as [[a m] l] eqn:Ef. intros [= E]. apply (Hshared block BlockLoad (fun '(a, m, l) => add_location s1 a m cookies css ignore l)); [done|by rewrite Ef].
    + destruct (find_or_append actions cookies _ BlockCookies) as [[a m] l] eqn:Ef. intros [= E]. apply (Hshared cookies BlockCookies (fun '(a, m, l) => add_location s1 a block m css ignore l)); [done|by rewrite Ef].
    + intros [= <-]. eapply push_distinct; [done|subst; symmetry; apply app_nil_r|done|done|]. apply add_pending_distinct; [|done].
      assert (Hll : vlen locs = vlen rules) by (rewrite <- (di_length _ _ Hi1); by subst). split; [subst; cbn; lia|]. rewrite Hll, Nat2Z.id.
      intros [Hw%with_domains_lt|[_ Hw]]%with_domains_app; [lia|done].
    + destruct (find_or_append actions ignore _ IgnorePreviousRules) as [[a m] l] eqn:Ef. intros [= E]. apply (Hshared ignore IgnorePreviousRules (fun '(a, m, l) => add_location s1 a block cookies css m l)); [done|by rewrite Ef].
  - assert (Ha : ss_actions s1 = actions) by by subst.
    destruct (if decide _ then _ else _) as [a|] eqn:Ea; [|done]. rewrite option_bind_Some. intros [= <-]. cbn in Hsize, Hit.
    assert (Hgrow : exists x, a = actions ++ x /\ x <> []).
    { destruct (decide _); [|injection Ea as <-; by eexists]. rewrite serializeSelector_eq in Ea. injection Ea as <-. eexists. split; [done|]. by unfold selector_bytes. }
    destruct Hgrow as (x & -> & Hx). rewrite length_app in Hsize. eapply push_distinct; [done|by rewrite Ha|done| |done]. intros _. rewrite Ha, u32_small by lia. done.
Qed.

Lemma serialize_loop_distinct ruleList : forall rules s s',
  distinct_inv rules s -> Forall serializable ruleList -> serialize_loop iteration_order s ruleList = Some s' -> vlen (ss_actions s') < 2 ^ 32 -> distinct_inv (rules ++ ruleList) s'.
Proof.
  induction ruleList as [|r ruleList IH]; intros rules s s' Hi Hf Hs Hsize; cbn [serialize_loop] in Hs; [injection Hs as <-; by rewrite app_nil_r|].
  apply Forall_cons in Hf as [Hr Hf]. destruct (serialize_rule iteration_order s r) as [s1|] eqn:E; [|done]. rewrite option_bind_Some in Hs.
  destruct (serialize_rule_step iteration_order iteration_order_perm s r (di_clients _ _ Hi) Hr) as (s2 & z & Hs2 & _ & Hc & _). rewrite E in Hs2. injection Hs2 as <-.
  destruct (serialize_loop_total iteration_order iteration_order_perm ruleList s1 Hc Hf) as (s3 & x & Hs3 & Ha & _). rewrite Hs in Hs3. injection Hs3 as <-. rewrite Ha, length_app in Hsize.
  rewrite cons_middle, (assoc_L (++)). apply (IH (rules ++ [r]) s1); [|done|done|rewrite Ha, length_app; lia]. apply (serialize_rule_distinct rules s); [done|done|done|lia].
Qed.

(** The locations of rules with domains grow with the rules. *)
Lemma serializeActions_distinct rules actions locs i j li lj :
  Forall serializable rules -> serializeActions iteration_order rules = Some (actions, locs) -> vlen actions < 2 ^ 32 ->
  (i < j)%nat -> with_domains rules i -> with_domains rules j -> locs !! i = Some li -> locs !! j = Some lj -> li < lj.
Proof.
  intros Hser Hs Hsize. unfold serializeActions in Hs. destruct (serialize_loop iteration_order _ rules) as [s|] eqn:El; [|done]. rewrite option_bind_Some in Hs.
  destruct (resolvePendingDisplayNoneActions _ _ _ _) as [[[a l] m]|] eqn:Er; [|done]. rewrite option_bind_Some in Hs. injection Hs as -> ->.
  assert (Hstart : distinct_inv [] (mkSerialize [] [] ∅ ∅ [] ∅)).
  { split; cbn; [split; [apply itemized_nil|cbn; intros t p c Hin; by apply not_elem_of_nil in Hin]|done|intros t p c Hin; by apply not_elem_of_nil in Hin|..]; intros *; by intros ?%with_domains_lt || by intros ? ?%with_domains_lt. }
  assert (Hbound : vlen (ss_actions s) < 2 ^ 32).
  { destruct (serialize_loop_total iteration_order iteration_order_perm rules (mkSerialize [] [] ∅ ∅ [] ∅)) as (s2 & x & Hs2 & _ & Hc & _); [split; [apply itemized_nil|intros t p c Hin; by apply not_elem_of_nil in Hin]|done|].
    rewrite El in Hs2. injection Hs2 as <-. unfold resolvePendingDisplayNoneActions in Er.
    destruct (resolve_loop_spec (iteration_order (cssDisplayNoneActionsMap s)) (ss_actions s) (ss_locations s)) as (y & l' & Hr & _); [apply Hc|intros t p c; rewrite iteration_order_perm; apply Hc|].
    rewrite Hr, option_bind_Some in Er. injection Er as <- _ _. rewrite length_app in Hsize. lia. }
  pose proof (serialize_loop_distinct rules [] _ s Hstart Hser El Hbound) as Hi. destruct (resolve_distinct rules s actions locs m ∅ ∅ ∅ Hi Er) as [_ Hd].
  apply (di_grow _ _ Hd).
Qed.
End Distinct.
