(* ===== verification/Utf8.v ===== *)
(** * UTF-8 (wtf/unicode/UTF8.cpp, and [String::utf8] of wtf/text)

    URLs and domains reach the bytecode interpreter as UTF-8.  A conversion
    reads from a source and writes to a buffer; it is modelled by the units
    still to be read and the number of units the buffer still has room for, and
    returns the result code, the unread source and what it wrote. *)

From S2P Require Import Prelude Actions.

Inductive ConversionResult := conversionOK | sourceExhausted | targetExhausted | sourceIllegal.

#[export] Instance ConversionResult_eq_dec : EqDecision ConversionResult.
Proof. solve_decision. Defined.

Definition conversion : Type := ConversionResult * list Z * list Z.

(** A read of the buffer the callers have checked to be inside of it, or of the
    terminator of a C string. *)
Definition unit_at (source : list Z) (i : nat) : Z := default 0 (source !! i).

Definition isASCII (c : Z) : bool := Z.land c (Z.lnot 127) =? 0.

(** ** Sequences *)

Definition inlineUTF8SequenceLengthNonASCII (b0 : Z) : nat :=
  if negb (Z.land b0 0xC0 =? 0xC0) then 0
  else if Z.land b0 0xE0 =? 0xC0 then 2
  else if Z.land b0 0xF0 =? 0xE0 then 3
  else if Z.land b0 0xF8 =? 0xF0 then 4
  else 0.

Definition inlineUTF8SequenceLength (b0 : Z) : nat :=
  if isASCII b0 then 1 else inlineUTF8SequenceLengthNonASCII b0.

Definition decodeUTF8Sequence (sequence : list Z) : Z :=
  let b0 := unit_at sequence 0 in
  let length := inlineUTF8SequenceLength b0 in
  if (length =? 0)%nat then -1 else
  let b1 := unit_at sequence 1 in
  if (length =? 1)%nat then (if negb (b1 =? 0) then -1 else b0) else
  if negb (Z.land b1 0xC0 =? 0x80) then -1 else
  let b2 := unit_at sequence 2 in
  if (length =? 2)%nat then
    (if negb (b2 =? 0) then -1 else
     let c := Z.lor (Z.shiftl (Z.land b0 0x1F) 6) (Z.land b1 0x3F) in
     if c <? 0x80 then -1 else c) else
  if negb (Z.land b2 0xC0 =? 0x80) then -1 else
  let b3 := unit_at sequence 3 in
  if (length =? 3)%nat then
    (if negb (b3 =? 0) then -1 else
     let c := Z.lor (Z.lor (Z.shiftl (Z.land b0 0xF) 12) (Z.shiftl (Z.land b1 0x3F) 6)) (Z.land b2 0x3F) in
     if c <? 0x800 then -1 else
     if (0xD800 <=? c) && (c <=? 0xDFFF) then -1 else c) else
  if negb (Z.land b3 0xC0 =? 0x80) then -1 else
  let b4 := unit_at sequence 4 in
  if (length =? 4)%nat then
    (if negb (b4 =? 0) then -1 else
     let c := Z.lor (Z.lor (Z.lor (Z.shiftl (Z.land b0 0x7) 18) (Z.shiftl (Z.land b1 0x3F) 12))
                (Z.shiftl (Z.land b2 0x3F) 6)) (Z.land b3 0x3F) in
     if (c <? 0x10000) || (0x10FFFF <? c) then -1 else c) else -1.

(** ** Writing *)

Definition firstByteMark : list Z := [0x00; 0x00; 0xC0; 0xE0; 0xF0; 0xF8; 0xFC].
Definition byteMask : Z := 0xBF.
Definition byteMark : Z := 0x80.
Definition replacementCharacter : Z := 0xFFFD.

(** The switch that falls through: [k] bytes are still to be written, backwards. *)
Fixpoint put_bytes (k : nat) (mark ch : Z) (written : list Z) : list Z :=
  match k with
  | O => written
  | S O => u8 (Z.lor ch mark) :: written
  | S k => put_bytes k mark (Z.shiftr ch 6) (u8 (Z.land (Z.lor ch byteMark) byteMask) :: written)
  end.

Definition write_bytes (bytesToWrite : nat) (ch : Z) : list Z :=
  put_bytes bytesToWrite (unit_at firstByteMark bytesToWrite) ch [].

(** Write one character if there is room and go on with [continue], or back up. *)
Definition write_character (source : list Z) (room : Z) (bytesToWrite : nat) (ch : Z) (continue : Z -> conversion)
    : conversion :=
  if room <? Z.of_nat bytesToWrite then (targetExhausted, source, []) else
  let '(result, source, target) := continue (room - Z.of_nat bytesToWrite) in
  (result, source, write_bytes bytesToWrite ch ++ target).

Fixpoint convertLatin1ToUTF8 (source : list Z) (room : Z) : conversion :=
  match source with
  | [] => (conversionOK, [], [])
  | ch :: rest => write_character source room (if ch <? 0x80 then 1 else 2) ch (convertLatin1ToUTF8 rest)
  end.

Definition is_high_surrogate (ch : Z) : bool := (0xD800 <=? ch) && (ch <=? 0xDBFF).
Definition is_low_surrogate (ch : Z) : bool := (0xDC00 <=? ch) && (ch <=? 0xDFFF).

(** The length of a character's sequence, and the character that is written. *)
Definition bytes_needed (ch : Z) : nat * Z :=
  if ch <? 0x80 then (1%nat, ch)
  else if ch <? 0x800 then (2%nat, ch)
  else if ch <? 0x10000 then (3%nat, ch)
  else if ch <? 0x110000 then (4%nat, ch)
  else (3%nat, replacementCharacter).

Fixpoint convertUTF16ToUTF8 (strict : bool) (source : list Z) (room : Z) : conversion :=
  match source with
  | [] => (conversionOK, [], [])
  | ch :: rest =>
      let write ch continue := let '(bytesToWrite, ch) := bytes_needed ch in write_character source room bytesToWrite ch continue in
      if is_high_surrogate ch then
        match rest with
        | ch2 :: rest2 =>
            if is_low_surrogate ch2
            then write (Z.shiftl (ch - 0xD800) 10 + (ch2 - 0xDC00) + 0x0010000) (convertUTF16ToUTF8 strict rest2)
            else if strict then (sourceIllegal, source, [])
            else write ch (convertUTF16ToUTF8 strict rest)
        | [] => (sourceExhausted, source, [])
        end
      else if strict && is_low_surrogate ch then (sourceIllegal, source, [])
      else write ch (convertUTF16ToUTF8 strict rest)
  end.

(** ** Reading *)

Definition in_trail (a : Z) : bool := negb ((a <? 0x80) || (0xBF <? a)).

Definition isLegalUTF8 (source : list Z) (length : nat) : bool :=
  let b0 := unit_at source 0 in
  let case1 := negb ((0x80 <=? b0) && (b0 <? 0xC2)) && negb (0xF4 <? b0) in
  let case2 :=
    let a := unit_at source 1 in
    negb (0xBF <? a)
    && negb (if b0 =? 0xE0 then a <? 0xA0 else if b0 =? 0xED then 0x9F <? a
             else if b0 =? 0xF0 then a <? 0x90 else if b0 =? 0xF4 then 0x8F <? a else a <? 0x80)
    && case1 in
  let case3 := in_trail (unit_at source 2) && case2 in
  let case4 := in_trail (unit_at source 3) && case3 in
  match length with
  | 4%nat => case4
  | 3%nat => case3
  | 2%nat => case2
  | 1%nat => case1
  | _ => false
  end.

Definition offsetsFromUTF8 : list Z := [0x00000000; 0x00003080; 0x000E2080; 0x03C82080; s32 0xFA082080; s32 0x82082080].

Definition readUTF8Sequence (sequence : list Z) (length : nat) : Z :=
  foldl (fun character b => Z.shiftl character 6 + b) 0 (take length sequence) - unit_at offsetsFromUTF8 (length - 1).

Definition U_IS_BMP (c : Z) : bool := u32 c <=? 0xffff.
Definition U_IS_SURROGATE (c : Z) : bool := Z.land c 0xfffff800 =? 0xd800.
Definition U_IS_SUPPLEMENTARY (c : Z) : bool := u32 (c - 0x10000) <=? 0xfffff.
Definition U16_LEAD (c : Z) : Z := u16 (Z.shiftr c 10 + 0xd7c0).
Definition U16_TRAIL (c : Z) : Z := u16 (Z.lor (Z.land c 0x3ff) 0xdc00).

(** The result, the unread source, what was written and [orAllData]. *)
Fixpoint utf8_to_utf16_loop (fuel : nat) (strict : bool) (source : list Z) (room orAllData : Z)
    : option (ConversionResult * list Z * list Z * Z) :=
  match source with
  | [] => Some (conversionOK, [], [], orAllData)
  | b0 :: _ =>
      match fuel with
      | O => None
      | S fuel =>
          let utf8SequenceLength := inlineUTF8SequenceLength b0 in
          if vlen source <? Z.of_nat utf8SequenceLength then Some (sourceExhausted, source, [], orAllData) else
          if negb (isLegalUTF8 source utf8SequenceLength) then Some (sourceIllegal, source, [], orAllData) else
          let character := readUTF8Sequence source utf8SequenceLength in
          let rest := drop utf8SequenceLength source in
          let put units orAllData :=
            '(result, source, target, orAllData) ←
              utf8_to_utf16_loop fuel strict rest (room - vlen units) orAllData;
            Some (result, source, units ++ target, orAllData) in
          if room <=? 0 then Some (targetExhausted, source, [], orAllData) else
          if U_IS_BMP character then
            if U_IS_SURROGATE character then
              if strict then Some (sourceIllegal, source, [], orAllData)
              else put [replacementCharacter] (Z.lor orAllData replacementCharacter)
            else put [u16 character] (Z.lor orAllData (u16 character))
          else if U_IS_SUPPLEMENTARY character then
            if room <=? 1 then Some (targetExhausted, source, [], orAllData)
            else put [U16_LEAD character; U16_TRAIL character] 0xffff
          else if strict then Some (sourceIllegal, source, [], orAllData)
          else put [replacementCharacter] (Z.lor orAllData replacementCharacter)
      end
  end.

(** Every round of the loop consumes a unit.  The last component is [sourceAllASCII]. *)
Definition convertUTF8ToUTF16 (strict : bool) (source : list Z) (room : Z) : option (ConversionResult * list Z * list Z * bool) :=
  '(result, source, target, orAllData) ← utf8_to_utf16_loop (length source) strict source room 0;
  Some (result, source, target, Z.land orAllData (Z.lnot 0x7f) =? 0).

(** ** Strings *)

Inductive ConversionMode := LenientConversion | StrictConversion | StrictConversionReplacingUnpairedSurrogatesWithFFFD.

Definition putUTF8Triple (ch : Z) : list Z :=
  [u8 (Z.lor (Z.land (Z.shiftr ch 12) 0x0F) 0xE0); u8 (Z.lor (Z.land (Z.shiftr ch 6) 0x3F) 0x80);
   u8 (Z.lor (Z.land ch 0x3F) 0x80)].

(** The loop that replaces unpaired surrogates; every round of it but the last
    skips one. *)
Fixpoint replacing_loop (fuel : nat) (characters : list Z) (room : Z) : option (list Z) :=
  match characters with
  | [] => Some []
  | _ =>
      match fuel with
      | O => None
      | S fuel =>
          let '(result, characters, written) := convertUTF16ToUTF8 true characters room in
          let room := room - vlen written in
          if decide (result = conversionOK)
          then rest ← replacing_loop fuel characters room; Some (written ++ rest)
          else rest ← replacing_loop fuel (drop 1 characters) (room - 3);
               Some (written ++ putUTF8Triple replacementCharacter ++ rest)
      end
  end.

(** [None] is the failure the function returns. *)
Definition utf8Impl (characters : list Z) (bufferSize : Z) (mode : ConversionMode) : option (list Z) :=
  match mode with
  | StrictConversionReplacingUnpairedSurrogatesWithFFFD => replacing_loop (length characters) characters bufferSize
  | _ =>
      let strict := match mode with StrictConversion => true | _ => false end in
      let '(result, characters, written) := convertUTF16ToUTF8 strict characters bufferSize in
      match result with
      | sourceIllegal => None
      | sourceExhausted => if strict then None else Some (written ++ putUTF8Triple (unit_at characters 0))
      | _ => Some written
      end
  end.

(** The bytes of a [CString]; [None] is the null string. *)
Definition utf8ForRange (s : WString) (offset len : Z) (mode : ConversionMode) : option (list Z) :=
  let cs := take (Z.to_nat len) (drop (Z.to_nat offset) (characters s)) in
  if len =? 0 then Some []
  else if uint32_max / 3 <? len then None
  else if is8Bit s then let '(_, _, written) := convertLatin1ToUTF8 cs (len * 3) in Some written
  else utf8Impl cs (len * 3) mode.

(** [String::utf8] of a string that may be null. *)
Definition utf8 (s : option WString) : option (list Z) :=
  match s with
  | None => Some []
  | Some s => utf8ForRange s 0 (vlen (characters s)) LenientConversion
  end.
