(* ===== verification/Utf8Correct.v ===== *)
(** * The UTF-8 conversions are correct

    A text is a list of Unicode scalar values; [units] and [encode] are its
    UTF-16 and UTF-8 forms by the definition of the encodings. *)

From S2P Require Import Prelude Actions Utf8.

(** Divisions by constants in [lia]. *)
#[local] Ltac Zify.zify_post_hook ::= Z.to_euclidean_division_equations.

(** ** Reference encodings *)

Definition scalar (c : Z) : Prop := 0 <= c < 0xD800 \/ 0xE000 <= c < 0x110000.

Definition units (c : Z) : list Z :=
  if c <? 0x10000 then [c] else [0xD800 + (c - 0x10000) / 1024; 0xDC00 + (c - 0x10000) mod 1024].

Definition encode (c : Z) : list Z :=
  if c <? 0x80 then [c]
  else if c <? 0x800 then [0xC0 + c / 64; 0x80 + c mod 64]
  else if c <? 0x10000 then [0xE0 + c / 4096; 0x80 + c / 64 mod 64; 0x80 + c mod 64]
  else [0xF0 + c / 262144; 0x80 + c / 4096 mod 64; 0x80 + c / 64 mod 64; 0x80 + c mod 64].

Definition utf16_text (text : list Z) : list Z := concat (map units text).
Definition utf8_text (text : list Z) : list Z := concat (map encode text).

Lemma utf16_text_cons c text : utf16_text (c :: text) = units c ++ utf16_text text.
Proof. done. Qed.

Lemma utf8_text_cons c text : utf8_text (c :: text) = encode c ++ utf8_text text.
Proof. done. Qed.

Lemma utf8_text_app a b : utf8_text (a ++ b) = utf8_text a ++ utf8_text b.
Proof. unfold utf8_text. by rewrite map_app, concat_app. Qed.

(** ** Bytes *)

(** Facts about all bytes, by computation. *)
Lemma byte_cases (P : Z -> bool) (n : Z) : forallb P (seqZ 0 n) = true -> forall b, 0 <= b < n -> P b = true.
Proof. intros Hall b Hb. rewrite forallb_forall in Hall. apply Hall, list_elem_of_In, elem_of_seqZ. lia. Qed.

Ltac by_bytes n :=
  let b := fresh "b" in let Hb := fresh "Hb" in
  intros b Hb; match goal with |- ?P => apply (bool_decide_eq_true_1 P) end; revert b Hb; apply (byte_cases _ n); vm_compute; reflexivity.

Lemma sequence_length b : 0 <= b < 256 ->
  inlineUTF8SequenceLength b =
  if b <? 128 then 1%nat else if b <? 192 then 0%nat else if b <? 224 then 2%nat
  else if b <? 240 then 3%nat else if b <? 248 then 4%nat else 0%nat.
Proof. revert b. by_bytes 256. Qed.

Lemma trail_byte_64 b : 0 <= b < 64 -> Z.lor b byteMark = 0x80 + b.
Proof. revert b. by_bytes 64. Qed.

Lemma lead_byte_2 b : 0 <= b < 32 -> u8 (Z.lor b 0xC0) = 0xC0 + b.
Proof. revert b. by_bytes 32. Qed.

Lemma lead_byte_3 b : 0 <= b < 16 -> u8 (Z.lor b 0xE0) = 0xE0 + b.
Proof. revert b. by_bytes 16. Qed.

Lemma lead_byte_4 b : 0 <= b < 8 -> u8 (Z.lor b 0xF0) = 0xF0 + b.
Proof. revert b. by_bytes 8. Qed.

Lemma land_63 ch : Z.land ch 0x3F = ch mod 64.
Proof. change 0x3F with (Z.ones 6). by rewrite Z.land_ones. Qed.

Lemma trail_byte ch : 0 <= ch -> u8 (Z.land (Z.lor ch byteMark) byteMask) = 0x80 + ch mod 64.
Proof.
  intros Hch. replace (Z.land (Z.lor ch byteMark) byteMask) with (Z.lor (Z.land ch 0x3F) byteMark).
  - rewrite land_63. pose proof (Z.mod_pos_bound ch 64 eq_refl). rewrite trail_byte_64 by done.
    apply uwrap_small. lia.
  - apply Z.bits_inj'. intros n Hn. rewrite Z.lor_spec, !Z.land_spec, Z.lor_spec.
    destruct (decide (n < 8)) as [Hlt|Hge].
    + assert (n = 0 \/ n = 1 \/ n = 2 \/ n = 3 \/ n = 4 \/ n = 5 \/ n = 6 \/ n = 7) as Hc by lia.
      destruct Hc as [->|[->|[->|[->|[->|[->|[->| ->]]]]]]]; match goal with |- context [Z.testbit ch ?k] => destruct (Z.testbit ch k) end; reflexivity.
    + rewrite (Z.bits_above_log2 0x3F n), (Z.bits_above_log2 byteMark n), (Z.bits_above_log2 byteMask n)
        by (unfold byteMark, byteMask; cbn; lia).
      by rewrite !andb_false_r.
Qed.

Lemma shiftr_6 ch : Z.shiftr ch 6 = ch / 64.
Proof. by rewrite Z.shiftr_div_pow2. Qed.

Lemma write_bytes_encode ch : 0 <= ch < 0x110000 -> write_bytes (bytes_needed ch).1 (bytes_needed ch).2 = encode ch.
Proof.
  intros Hch. unfold bytes_needed, encode, write_bytes. repeat case_bool; cbn [fst snd put_bytes unit_at]; try lia.
  - change (unit_at firstByteMark 1) with 0. rewrite Z.lor_0_r. unfold uwrap. rewrite Z.mod_small by lia. done.
  - change (unit_at firstByteMark 2) with 0xC0. rewrite shiftr_6, lead_byte_2, trail_byte by lia. done.
  - change (unit_at firstByteMark 3) with 0xE0. rewrite !shiftr_6, !trail_byte, Z.div_div, lead_byte_3 by lia. done.
  - change (unit_at firstByteMark 4) with 0xF0.
    rewrite !shiftr_6, !trail_byte, !Z.div_div by lia. cbn [Z.mul Pos.mul]. rewrite lead_byte_4 by lia. done.
Qed.

Lemma bytes_needed_length ch : 0 <= ch < 0x110000 -> length (encode ch) = (bytes_needed ch).1.
Proof. intros Hch. unfold encode, bytes_needed. by repeat case_bool; try lia. Qed.

Lemma encode_length ch : (1 <= length (encode ch) <= 4)%nat.
Proof. unfold encode. repeat case_bool; cbn; lia. Qed.

(** A character takes at most three bytes for each of its units. *)
Lemma encode_units ch : (length (encode ch) <= 3 * length (units ch))%nat.
Proof. unfold encode, units. repeat case_bool; cbn; lia. Qed.

(** ** UTF-16 to UTF-8 *)

Lemma write_scalar source room ch continue :
  0 <= ch < 0x110000 -> vlen (encode ch) <= room ->
  (let '(bytesToWrite, c) := bytes_needed ch in write_character source room bytesToWrite c continue) =
  (let '(r, s, t) := continue (room - vlen (encode ch)) in (r, s, encode ch ++ t)).
Proof.
  intros Hch Hroom. pose proof (bytes_needed_length ch Hch) as Hl. pose proof (write_bytes_encode ch Hch) as Hw.
  destruct (bytes_needed ch) as [n c]. cbn [fst snd] in Hl, Hw. unfold write_character. rewrite Hw, <- Hl.
  by rewrite (proj2 (Z.ltb_ge _ _)).
Qed.

Lemma convert_scalar strict c tail room :
  scalar c -> vlen (encode c) <= room ->
  convertUTF16ToUTF8 strict (units c ++ tail) room =
  let '(r, s, t) := convertUTF16ToUTF8 strict tail (room - vlen (encode c)) in (r, s, encode c ++ t).
Proof.
  intros Hc Hroom. unfold units. destruct (Z.ltb_spec c 0x10000) as [Hlt|Hge]; cbn [app convertUTF16ToUTF8]; cbv zeta.
  - replace (is_high_surrogate c) with false by (symmetry; unfold is_high_surrogate, scalar in *; apply andb_false_iff; lia).
    replace (is_low_surrogate c) with false by (symmetry; unfold is_low_surrogate, scalar in *; apply andb_false_iff; lia).
    rewrite andb_false_r. apply write_scalar; [unfold scalar in Hc; lia|done].
  - pose proof (Z.mod_pos_bound (c - 0x10000) 1024 eq_refl). unfold scalar in Hc.
    replace (is_high_surrogate _) with true by (symmetry; unfold is_high_surrogate; apply andb_true_iff; lia).
    replace (is_low_surrogate _) with true by (symmetry; unfold is_low_surrogate; apply andb_true_iff; lia).
    replace (Z.shiftl _ 10 + _ + _) with c.
    + apply write_scalar; [lia|done].
    + rewrite Z.shiftl_mul_pow2 by lia. pose proof (Z.div_mod (c - 0x10000) 1024). lia.
Qed.

Lemma convert_text strict text : forall tail room,
  Forall scalar text -> vlen (utf8_text text) <= room ->
  convertUTF16ToUTF8 strict (utf16_text text ++ tail) room =
  let '(r, s, t) := convertUTF16ToUTF8 strict tail (room - vlen (utf8_text text)) in (r, s, utf8_text text ++ t).
Proof.
  induction text as [|c text IH]; intros tail room Hs Hroom.
  - cbn [utf16_text utf8_text map concat app length] in *. rewrite Z.sub_0_r. by destruct (convertUTF16ToUTF8 strict tail room) as [[] ?].
  - inversion Hs as [|? ? Hc Hs']; subst. rewrite utf16_text_cons, utf8_text_cons in *. rewrite length_app in *.
    rewrite <- (assoc_L (++)), convert_scalar, IH by (done || lia).
    replace (room - vlen (encode c) - vlen (utf8_text text)) with (room - Z.of_nat (length (encode c) + length (utf8_text text))) by lia.
    destruct (convertUTF16ToUTF8 strict tail _) as [[r s] t]. by rewrite (assoc_L (++)).
Qed.

Lemma utf8_text_room text : vlen (utf8_text text) <= 3 * vlen (utf16_text text).
Proof.
  induction text as [|c text IH]; [done|]. rewrite utf16_text_cons, utf8_text_cons, !length_app.
  pose proof (encode_units c). lia.
Qed.

(** What stops a strict conversion: a surrogate that is not part of a pair. *)
Definition unpaired (cs : list Z) : bool :=
  match cs with
  | [] => false
  | ch :: rest =>
      if is_high_surrogate ch then match rest with ch2 :: _ => negb (is_low_surrogate ch2) | [] => true end
      else is_low_surrogate ch
  end.

Definition code_units (cs : list Z) : Prop := Forall (fun c => 0 <= c < 65536) cs.

(** Any sequence of units is a text up to its first unpaired surrogate. *)
Lemma utf16_split cs : code_units cs -> exists text tail,
  cs = utf16_text text ++ tail /\ Forall scalar text /\ (tail = [] \/ unpaired tail = true).
Proof.
  assert (Hn : forall n cs, (length cs <= n)%nat -> code_units cs -> exists text tail,
    cs = utf16_text text ++ tail /\ Forall scalar text /\ (tail = [] \/ unpaired tail = true)).
  { clear cs. induction n as [|n IH]; intros cs Hl Hcs; destruct cs as [|c cs].
    1, 3: exists [], []; by auto. 1: cbn in Hl; lia.
    destruct (unpaired (c :: cs)) eqn:Hu; [exists [], (c :: cs); by auto|].
    inversion Hcs as [|? ? Hc Hcs']; subst. cbn [unpaired] in Hu. destruct (is_high_surrogate c) eqn:Hh.
    - destruct cs as [|c2 cs]; [done|]. bprop. inversion Hcs' as [|? ? Hc2 Hcs'']; subst.
      destruct (IH cs) as (text & tail & -> & Ht & Hu'); [cbn in Hl; lia|done|].
      unfold is_high_surrogate, is_low_surrogate in *. bprop.
      exists (0x10000 + (c - 0xD800) * 1024 + (c2 - 0xDC00) :: text), tail. rewrite utf16_text_cons.
      split_and!; [|constructor; [right; lia|done]|done]. rewrite <- (assoc_L (++)). unfold units.
      rewrite (proj2 (Z.ltb_ge _ _)) by lia. cbn [app]. do 2 f_equal; [|f_equal].
      + replace (_ - 0x10000) with ((c - 0xD800) * 1024 + (c2 - 0xDC00)) by lia. rewrite Z.div_add_l, Z.div_small by lia. lia.
      + replace (_ - 0x10000) with ((c2 - 0xDC00) + (c - 0xD800) * 1024) by lia. rewrite Z.mod_add, Z.mod_small by lia. lia.
    - destruct (IH cs) as (text & tail & -> & Ht & Hu'); [cbn in Hl; lia|done|].
      exists (c :: text), tail. rewrite utf16_text_cons.
      unfold is_high_surrogate, is_low_surrogate in *. apply andb_false_iff in Hh, Hu.
      split_and!; [|constructor; [unfold scalar; bool_cases; lia|done]|done]. unfold units.
      rewrite (proj2 (Z.ltb_lt _ _)) by lia. done. }
  eauto.
Qed.

Lemma convert_unpaired cs room : unpaired cs = true -> exists r, r <> conversionOK /\ r <> targetExhausted /\ convertUTF16ToUTF8 true cs room = (r, cs, []).
Proof.
  destruct cs as [|ch rest]; [done|]. cbn [unpaired convertUTF16ToUTF8]. cbv zeta.
  destruct (is_high_surrogate ch); [destruct rest as [|ch2 rest]|]; intros Hu.
  - by exists sourceExhausted.
  - bprop. rewrite Hu. by exists sourceIllegal.
  - rewrite Hu. by exists sourceIllegal.
Qed.

(** Strict conversion of any units: the longest text is converted. *)
Lemma convert_strict text tail room :
  Forall scalar text -> tail = [] \/ unpaired tail = true -> 3 * vlen (utf16_text text ++ tail) <= room ->
  exists r, convertUTF16ToUTF8 true (utf16_text text ++ tail) room = (r, tail, utf8_text text)
    /\ (r = conversionOK <-> tail = []) /\ r <> targetExhausted.
Proof.
  intros Ht Htail Hroom. pose proof (utf8_text_room text). rewrite length_app in Hroom. rewrite convert_text by (done || lia).
  destruct Htail as [->|Hu].
  - exists conversionOK. cbn. by rewrite app_nil_r.
  - destruct (convert_unpaired tail (room - vlen (utf8_text text)) Hu) as (r & Hr & Hr' & ->).
    exists r. rewrite app_nil_r. split_and!; [done|split; [done|intros ->; done]|done].
Qed.
