(* ===== verification/Utf8Claims.v ===== *)
(** * Claims: UTF-8

    Reading what was written, the canonical form of accepted input, and the
    treatment of unpaired surrogates. *)

From S2P Require Import Prelude Actions Utf8 Utf8Correct.

#[local] Ltac Zify.zify_post_hook ::= Z.to_euclidean_division_equations.

(** ** Reading one character *)

Definition bytes (l : list Z) : Prop := Forall (fun b => 0 <= b < 256) l.

Lemma encode_head c tail : scalar c ->
  exists b0 rest, encode c ++ tail = b0 :: rest /\ 0 <= b0 < 256 /\ inlineUTF8SequenceLength b0 = length (encode c).
Proof.
  unfold scalar. intros Hc. unfold encode. repeat case_bool; cbn [app]; eexists _, _; (split; [done|]);
    (split; [lia|]); rewrite sequence_length by lia; cbn [length]; repeat case_bool; lia.
Qed.

Lemma encode_read c tail : scalar c -> readUTF8Sequence (encode c ++ tail) (length (encode c)) = c.
Proof.
  unfold scalar, readUTF8Sequence. intros Hc. rewrite take_app_length.
  unfold encode. repeat case_bool; cbn [foldl length Nat.sub unit_at offsetsFromUTF8 lookup list_lookup default id];
    rewrite ?Z.shiftl_mul_pow2 by lia; lia.
Qed.

(** What the checks of [isLegalUTF8] say: after the lead bytes 0xED and 0xF4
    the second byte is only compared with its upper bound. *)
Section Legal.
#[local] Ltac Zify.zify_post_hook ::= idtac.

Ltac legal :=
  unfold isLegalUTF8, in_trail; cbv zeta; cbn [unit_at lookup list_lookup default id]; intros ?;
  repeat (case_bool; cbn [andb negb orb]; try lia);
  first [split; [intros _; lia|intros _; reflexivity] | split; [discriminate|intros ?; exfalso; lia]].

Lemma legal_1 b0 r : 0 <= b0 < 128 -> isLegalUTF8 (b0 :: r) 1 = true <-> True.
Proof. legal. Qed.

Lemma legal_2 b0 b1 r : 192 <= b0 < 224 -> isLegalUTF8 (b0 :: b1 :: r) 2 = true <-> 194 <= b0 /\ 128 <= b1 <= 191.
Proof. legal. Qed.

Lemma legal_3 b0 b1 b2 r : 224 <= b0 < 240 -> isLegalUTF8 (b0 :: b1 :: b2 :: r) 3 = true <->
  b1 <= 191 /\ 128 <= b2 <= 191 /\ (b0 = 224 -> 160 <= b1) /\ (b0 = 237 -> b1 <= 159) /\ (b0 <> 237 -> 128 <= b1).
Proof. legal. Qed.

Lemma legal_4 b0 b1 b2 b3 r : 240 <= b0 < 248 -> isLegalUTF8 (b0 :: b1 :: b2 :: b3 :: r) 4 = true <->
  b0 <= 244 /\ b1 <= 191 /\ 128 <= b2 <= 191 /\ 128 <= b3 <= 191 /\ (b0 = 240 -> 144 <= b1) /\ (b0 = 244 -> b1 <= 143)
  /\ (b0 <> 244 -> 128 <= b1).
Proof. legal. Qed.
End Legal.

Lemma encode_legal c tail : scalar c -> isLegalUTF8 (encode c ++ tail) (length (encode c)) = true.
Proof.
  unfold scalar. intros Hc. unfold encode. repeat case_bool; cbn [app length].
  - apply legal_1; [lia|done].
  - apply legal_2; lia.
  - apply legal_3; lia.
  - apply legal_4; lia.
Qed.

(** The check that is missing: 0xED and 0xF4 are followed by a continuation byte. *)
Definition second_ok (source : list Z) : Prop :=
  forall i b b', source !! i = Some b -> b = 0xED \/ b = 0xF4 -> source !! S i = Some b' -> 0x80 <= b'.

Lemma second_ok_head b0 b1 rest : second_ok (b0 :: b1 :: rest) -> b0 = 0xED \/ b0 = 0xF4 -> 0x80 <= b1.
Proof. intros Hs Hb. by apply (Hs 0%nat b0 b1). Qed.

Lemma second_ok_drop n source : second_ok source -> second_ok (drop n source).
Proof. intros Hs i b b'. rewrite !lookup_drop, Nat.add_succ_r. apply Hs. Qed.

(** With it, accepted sequences are exactly the encodings of scalar values. *)
Lemma legal_encode source b0 rest :
  source = b0 :: rest -> bytes source -> second_ok source -> (inlineUTF8SequenceLength b0 <= length source)%nat ->
  isLegalUTF8 source (inlineUTF8SequenceLength b0) = true ->
  exists c, scalar c /\ source = encode c ++ drop (inlineUTF8SequenceLength b0) source
            /\ length (encode c) = inlineUTF8SequenceLength b0.
Proof.
  intros -> Hb Hok Hn. inversion Hb as [|? ? Hb0 Hr]; subst. rewrite sequence_length in * by done.
  destruct (Z.ltb_spec b0 128); [|destruct (Z.ltb_spec b0 192); [done|destruct (Z.ltb_spec b0 224);
    [|destruct (Z.ltb_spec b0 240); [|destruct (Z.ltb_spec b0 248); [|done]]]]]; cbn [length] in Hn.
  - intros _. exists b0. unfold encode. rewrite (proj2 (Z.ltb_lt b0 0x80)) by done. split; [left; lia|]. done.
  - destruct rest as [|b1 rest]; [cbn in Hn; lia|]. intros Hl%legal_2; [|lia].
    exists ((b0 - 192) * 64 + (b1 - 128)). unfold encode, scalar.
    rewrite (proj2 (Z.ltb_ge _ 0x80)), (proj2 (Z.ltb_lt _ 0x800)) by lia.
    split; [lia|]. split; [|done]. cbn [app drop]. repeat f_equal; lia.
  - destruct rest as [|b1 [|b2 rest]]; [cbn in Hn; lia..|]. intros Hl%legal_3; [|lia]. pose proof (second_ok_head _ _ _ Hok).
    exists ((b0 - 224) * 4096 + (b1 - 128) * 64 + (b2 - 128)). unfold encode, scalar.
    rewrite (proj2 (Z.ltb_ge _ 0x80)), (proj2 (Z.ltb_ge _ 0x800)), (proj2 (Z.ltb_lt _ 0x10000)) by lia.
    split; [lia|]. split; [|done]. cbn [app drop]. repeat f_equal; lia.
  - destruct rest as [|b1 [|b2 [|b3 rest]]]; [cbn in Hn; lia..|]. intros Hl%legal_4; [|lia]. pose proof (second_ok_head _ _ _ Hok).
    exists ((b0 - 240) * 262144 + (b1 - 128) * 4096 + (b2 - 128) * 64 + (b3 - 128)). unfold encode, scalar.
    rewrite (proj2 (Z.ltb_ge _ 0x80)), (proj2 (Z.ltb_ge _ 0x800)), (proj2 (Z.ltb_ge _ 0x10000)) by lia.
    split; [lia|]. split; [|done]. cbn [app drop]. repeat f_equal; lia.
Qed.

(** ** Reading a text *)

Lemma surrogate_spec b : 0 <= b < 65536 -> U_IS_SURROGATE b = (0xD800 <=? b) && (b <=? 0xDFFF).
Proof.
  intros Hb. unfold U_IS_SURROGATE. change 0xfffff800 with (Z.ldiff (Z.ones 32) (Z.ones 11)).
  replace (Z.land b (Z.ldiff (Z.ones 32) (Z.ones 11))) with (Z.ldiff (Z.land b (Z.ones 32)) (Z.ones 11)).
  - rewrite Z.land_ones, Z.mod_small, Z.ldiff_ones_r, Z.shiftl_mul_pow2, Z.shiftr_div_pow2 by lia.
    change (2 ^ 11) with 2048. bool_cases; try done; lia.
  - apply Z.bits_inj'. intros n Hn. rewrite !Z.land_spec, !Z.ldiff_spec, Z.land_spec.
    by destruct (Z.testbit b n), (Z.testbit (Z.ones 32) n), (Z.testbit (Z.ones 11) n).
Qed.

Lemma trail_lor b : 0 <= b < 1024 -> Z.lor b 0xdc00 = 0xDC00 + b.
Proof. revert b. by_bytes 1024. Qed.

Lemma units_supplementary c : 0x10000 <= c < 0x110000 -> units c = [U16_LEAD c; U16_TRAIL c].
Proof.
  intros Hc. unfold units, U16_LEAD, U16_TRAIL. rewrite (proj2 (Z.ltb_ge c _)) by lia.
  rewrite Z.shiftr_div_pow2 by lia. change 0x3ff with (Z.ones 10). rewrite Z.land_ones by lia.
  change (2 ^ 10) with 1024. rewrite trail_lor by lia. rewrite !uwrap_small by lia. f_equal; [lia|f_equal; lia].
Qed.

Lemma decode_step fuel strict c tail room o :
  scalar c -> vlen (units c) <= room -> exists o',
  utf8_to_utf16_loop (S fuel) strict (encode c ++ tail) room o =
  '(r, s, t, o') ← utf8_to_utf16_loop fuel strict tail (room - vlen (units c)) o'; Some (r, s, units c ++ t, o').
Proof.
  intros Hc Hroom. pose proof (encode_legal c tail Hc) as Hl. pose proof (encode_read c tail Hc) as Hr.
  assert (Hd : drop (length (encode c)) (encode c ++ tail) = tail) by apply drop_app_length.
  assert (Hlen : vlen (encode c) <= vlen (encode c ++ tail)) by (rewrite length_app; lia).
  destruct (encode_head c tail Hc) as (b0 & rest & E & _ & Hn). rewrite E in *. cbn [utf8_to_utf16_loop].
  rewrite Hn, Hl, Hr, Hd. cbv zeta. rewrite (proj2 (Z.ltb_ge _ _)) by done. cbn [negb].
  assert (H1 : 1 <= vlen (units c)) by (unfold units; case_bool; cbn; lia).
  rewrite (proj2 (Z.leb_gt room 0)) by lia. unfold scalar in Hc. unfold U_IS_BMP, U_IS_SUPPLEMENTARY.
  rewrite (uwrap_small 32 c) by lia. destruct (Z.leb_spec c 0xffff).
  - rewrite surrogate_spec by lia. replace ((0xD800 <=? c) && (c <=? 0xDFFF)) with false by (symmetry; apply andb_false_iff; lia).
    assert (Hu : units c = [c]) by (unfold units; by rewrite (proj2 (Z.ltb_lt c 0x10000)) by lia).
    rewrite Hu, (uwrap_small 16 c) by lia. by eexists.
  - rewrite (uwrap_small 32 (c - 0x10000)) by lia. rewrite (proj2 (Z.leb_le _ 0xfffff)) by lia.
    pose proof (units_supplementary c ltac:(lia)) as Hu. rewrite Hu in *. cbn [length] in Hroom.
    rewrite (proj2 (Z.leb_gt room 1)) by lia. by eexists.
Qed.

Lemma decode_text strict text : forall fuel room o,
  Forall scalar text -> (length (utf8_text text) <= fuel)%nat -> vlen (utf16_text text) <= room ->
  exists o', utf8_to_utf16_loop fuel strict (utf8_text text) room o = Some (conversionOK, [], utf16_text text, o').
Proof.
  induction text as [|c text IH]; intros fuel room o Hs Hf Hr.
  - exists o. by destruct fuel.
  - inversion Hs; subst. rewrite utf8_text_cons, utf16_text_cons, length_app in *. pose proof (encode_length c).
    destruct fuel as [|fuel]; [lia|].
    destruct (decode_step fuel strict c (utf8_text text) room o) as [o1 ->]; [done|lia|].
    destruct (IH fuel (room - vlen (units c)) o1) as [o2 ->]; [done|lia|lia|]. by exists o2.
Qed.

(** Strict decoding that succeeds has decoded a text. *)
Lemma decode_accepts : forall fuel source room o target o',
  bytes source -> second_ok source ->
  utf8_to_utf16_loop fuel true source room o = Some (conversionOK, [], target, o') ->
  exists text, Forall scalar text /\ source = utf8_text text /\ target = utf16_text text.
Proof.
  induction fuel as [|fuel IH]; intros source room o target o' Hb Hok; destruct source as [|b0 rest].
  1, 3: intros [= <- _]; by exists [].
  1: done.
  pose proof (legal_encode (b0 :: rest) b0 rest eq_refl Hb Hok) as Hle.
  destruct (Z.ltb_spec (vlen (b0 :: rest)) (Z.of_nat (inlineUTF8SequenceLength b0))) as [Hlt|Hge].
  { cbn [utf8_to_utf16_loop]. rewrite (proj2 (Z.ltb_lt _ _)) by done. done. }
  destruct (isLegalUTF8 (b0 :: rest) (inlineUTF8SequenceLength b0)) eqn:Hlegal.
  2:{ cbn [utf8_to_utf16_loop]. rewrite (proj2 (Z.ltb_ge _ _)) by done. by rewrite Hlegal. }
  destruct (Hle ltac:(lia) eq_refl) as (c & Hc & Hsrc & Hlen). set (tail := drop (inlineUTF8SequenceLength b0) (b0 :: rest)) in *.
  rewrite Hsrc. intros Heq. destruct (Z.leb_spec (vlen (units c)) room) as [Hroom|Hroom].
  - destruct (decode_step fuel true c tail room o Hc Hroom) as [o1 E]. rewrite E in Heq.
    destruct (utf8_to_utf16_loop fuel true tail _ o1) as [[[[r s] t] o2]|] eqn:E2; [|done].
    injection Heq as -> -> <- <-. apply IH in E2 as (text & Ht & -> & ->).
    + exists (c :: text). split_and!; [by constructor|done|done].
    + unfold tail. unfold bytes. by apply Forall_drop.
    + by apply second_ok_drop.
  - exfalso. revert Heq. pose proof (encode_read c tail Hc) as Hr. pose proof (encode_legal c tail Hc) as Hl'.
    rewrite <- Hsrc in Hr, Hl' |- *. rewrite Hlen in Hr, Hl'. cbn [utf8_to_utf16_loop]. cbv zeta.
    rewrite (proj2 (Z.ltb_ge _ _)) by done. rewrite Hlegal, Hr. cbn [negb]. unfold scalar in Hc.
    case_bool; [done|]. unfold units in Hroom. unfold U_IS_BMP, U_IS_SUPPLEMENTARY. rewrite (uwrap_small 32 c) by lia.
    destruct (Z.ltb_spec c 0x10000); cbn [length] in Hroom; [lia|].
    rewrite (proj2 (Z.leb_gt c _)) by lia. rewrite (uwrap_small 32 (c - 0x10000)), (proj2 (Z.leb_le _ 0xfffff)) by lia.
    by rewrite (proj2 (Z.leb_le room 1)) by lia.
Qed.

(** ** Latin-1 and ASCII *)

Lemma convertLatin1_eq cs : forall room, bytes cs -> 2 * vlen cs <= room ->
  convertLatin1ToUTF8 cs room = (conversionOK, [], utf8_text cs).
Proof.
  induction cs as [|c cs IH]; intros room Hb Hr; [done|]. inversion Hb as [|? ? Hc Hcs]; subst.
  cbn [length] in Hr. cbn [convertLatin1ToUTF8]. unfold write_character.
  pose proof (write_bytes_encode c ltac:(lia)) as Hw. unfold bytes_needed in Hw. rewrite utf8_text_cons, <- Hw.
  destruct (Z.ltb_spec c 0x80); cbn [fst snd];
    rewrite ?(proj2 (Z.ltb_lt c 0x800)), (proj2 (Z.ltb_ge room _)), IH by (done || lia); done.
Qed.

Lemma ascii_text cs : Forall (fun c => 0 <= c < 128) cs -> utf8_text cs = cs /\ utf16_text cs = cs /\ Forall scalar cs.
Proof.
  induction 1 as [|c cs Hc _ (IH1 & IH2 & IH3)]; [by repeat split|]. rewrite utf8_text_cons, utf16_text_cons, IH1, IH2.
  unfold encode, units. rewrite (proj2 (Z.ltb_lt c 0x80)), (proj2 (Z.ltb_lt c 0x10000)) by lia.
  split_and!; [done|done|]. constructor; [left; lia|done].
Qed.

(** The URL and the domain of a request are ASCII: the interpreter reads their characters. *)
Lemma utf8_ascii s :
  Forall (fun c => 0 <= c < 128) (characters s) -> vlen (characters s) <= uint32_max / 3 ->
  utf8 (Some s) = Some (characters s).
Proof.
  intros Ha Hl. unfold utf8, utf8ForRange. cbv zeta. rewrite drop_0, firstn_all2 by lia.
  destruct (ascii_text _ Ha) as (H8 & H16 & Hs).
  destruct (Z.eqb_spec (vlen (characters s)) 0) as [H0|H0]; [by destruct (characters s)|].
  rewrite (proj2 (Z.ltb_ge _ _)) by done. destruct (is8Bit s).
  - rewrite convertLatin1_eq by (try lia; apply (Forall_impl _ _ _ Ha); cbn; lia). by rewrite H8.
  - unfold utf8Impl. rewrite <- (app_nil_r (characters s)) at 1. rewrite <- H16 at 1.
    rewrite convert_text by (rewrite ?H8; done || lia). cbn. by rewrite app_nil_r, H8.
Qed.

(** ** Replacing unpaired surrogates *)

Fixpoint lossy_scalars (cs : list Z) : list Z :=
  match cs with
  | [] => []
  | ch :: rest =>
      if is_high_surrogate ch then
        match rest with
        | ch2 :: rest2 =>
            if is_low_surrogate ch2
            then 0x10000 + (ch - 0xD800) * 1024 + (ch2 - 0xDC00) :: lossy_scalars rest2
            else replacementCharacter :: lossy_scalars rest
        | [] => [replacementCharacter]
        end
      else if is_low_surrogate ch then replacementCharacter :: lossy_scalars rest
      else ch :: lossy_scalars rest
  end.

Lemma lossy_text text tail : Forall scalar text -> lossy_scalars (utf16_text text ++ tail) = text ++ lossy_scalars tail.
Proof.
  induction 1 as [|c text Hc _ IH]; [done|]. rewrite utf16_text_cons, <- (assoc_L (++)). unfold units, scalar in *.
  destruct (Z.ltb_spec c 0x10000); cbn [app lossy_scalars].
  - replace (is_high_surrogate c) with false by (symmetry; unfold is_high_surrogate; apply andb_false_iff; lia).
    replace (is_low_surrogate c) with false by (symmetry; unfold is_low_surrogate; apply andb_false_iff; lia).
    by rewrite IH.
  - replace (is_high_surrogate _) with true by (symmetry; unfold is_high_surrogate; apply andb_true_iff; lia).
    replace (is_low_surrogate _) with true by (symmetry; unfold is_low_surrogate; apply andb_true_iff; lia).
    rewrite IH. f_equal. lia.
Qed.

Lemma lossy_unpaired cs : unpaired cs = true -> lossy_scalars cs = replacementCharacter :: lossy_scalars (drop 1 cs).
Proof.
  destruct cs as [|ch rest]; [done|]. cbn [unpaired lossy_scalars drop].
  destruct (is_high_surrogate ch); [destruct rest as [|ch2 rest]; [done|]|]; intros Hu; bprop; by rewrite Hu.
Qed.

Lemma replacing_loop_eq : forall fuel cs room,
  (length cs <= fuel)%nat -> code_units cs -> 3 * vlen cs <= room ->
  replacing_loop fuel cs room = Some (utf8_text (lossy_scalars cs)).
Proof.
  induction fuel as [|fuel IH]; intros cs room Hf Hcs Hr; [destruct cs; [done|cbn in Hf; lia]|].
  destruct cs as [|c cs]; [done|]. set (all := c :: cs) in *.
  destruct (utf16_split all Hcs) as (text & tail & E & Ht & Htail).
  destruct (convert_strict text tail room Ht Htail ltac:(by rewrite <- E)) as (r & Hconv & Hok & _).
  rewrite <- E in Hconv. unfold all. cbn [replacing_loop]. fold all. rewrite Hconv, E, lossy_text by done.
  pose proof (utf8_text_room text) as Hroom. pose proof (f_equal length E) as Hlen. rewrite length_app in Hlen.
  rewrite utf8_text_app.
  case_decide as Hd.
  - apply Hok in Hd as ->. by destruct fuel.
  - destruct Htail as [->|Hu]; [by destruct Hd; apply Hok|]. rewrite (lossy_unpaired _ Hu).
    assert (Hpos : (1 <= length tail)%nat) by (destruct tail; [done|cbn; lia]).
    rewrite IH.
    + by rewrite utf8_text_cons.
    + rewrite length_drop. lia.
    + apply Forall_drop. unfold code_units in Hcs. rewrite E in Hcs. by apply Forall_app in Hcs as [_ ?].
    + rewrite length_drop. lia.
Qed.

(** ** The theorems *)

(** C28: strict conversion of any UTF-16 units into a buffer of three bytes per unit
    never runs out of room: it writes the UTF-8 form of the longest prefix
    that is a text, stops exactly at the first unpaired surrogate, reports
    success exactly when there is none, and reading the bytes back gives the
    units of the prefix again. *)
Theorem utf16_utf8_roundtrip cs :
  code_units cs ->
  exists text tail r b, cs = utf16_text text ++ tail /\ Forall scalar text /\
    convertUTF16ToUTF8 true cs (3 * vlen cs) = (r, tail, utf8_text text) /\ r <> targetExhausted /\
    (r = conversionOK <-> tail = []) /\ (tail = [] \/ unpaired tail = true) /\
    convertUTF8ToUTF16 true (utf8_text text) (vlen (utf16_text text)) = Some (conversionOK, [], utf16_text text, b).
Proof.
  intros Hcs. destruct (utf16_split cs Hcs) as (text & tail & -> & Ht & Htail).
  destruct (convert_strict text tail _ Ht Htail (Z.le_refl _)) as (r & Hconv & Hok & Hroom).
  destruct (decode_text true text (length (utf8_text text)) (vlen (utf16_text text)) 0 Ht (le_n _) (Z.le_refl _)) as [o Hd].
  exists text, tail, r. unfold convertUTF8ToUTF16. rewrite Hd, option_bind_Some. eexists. split_and!; try done; by apply Hok.
Qed.

Lemma utf16_utf8_roundtrip_witness :
  exists text tail r b, [65; 0xD83D; 0xDE00; 0xD800; 66] = utf16_text text ++ tail /\ Forall scalar text /\
    convertUTF16ToUTF8 true [65; 0xD83D; 0xDE00; 0xD800; 66] 15 = (r, tail, utf8_text text) /\ r <> targetExhausted /\
    (r = conversionOK <-> tail = []) /\ (tail = [] \/ unpaired tail = true) /\
    convertUTF8ToUTF16 true (utf8_text text) (vlen (utf16_text text)) = Some (conversionOK, [], utf16_text text, b).
Proof.
  apply (utf16_utf8_roundtrip [65; 0xD83D; 0xDE00; 0xD800; 66]). unfold code_units.
  repeat (apply Forall_cons; split; [lia|]). by apply Forall_nil.
Defined.

(** C29: bytes that strict decoding accepts, and in which 0xED and 0xF4 are
    followed by a continuation byte, are the UTF-8 form of the text that was
    decoded: no overlong form, no surrogate, nothing above U+10FFFF. *)
Theorem accepted_utf8_canonical source room target b :
  bytes source -> second_ok source ->
  convertUTF8ToUTF16 true source room = Some (conversionOK, [], target, b) ->
  exists text, Forall scalar text /\ source = utf8_text text /\ target = utf16_text text.
Proof.
  intros Hb Hok. unfold convertUTF8ToUTF16.
  destruct (utf8_to_utf16_loop (length source) true source room 0) as [[[[r s] t] o]|] eqn:E; [|done].
  cbn. intros [= -> -> -> _]. by eapply decode_accepts.
Qed.

Lemma accepted_utf8_canonical_witness :
  exists text, Forall scalar text /\ [65; 0xE2; 0x82; 0xAC] = utf8_text text /\ [65; 0x20AC] = utf16_text text.
Proof.
  apply (accepted_utf8_canonical [65; 0xE2; 0x82; 0xAC] 5 [65; 0x20AC] false).
  - unfold bytes. repeat (apply Forall_cons; split; [lia|]). by apply Forall_nil.
  - intros i b b' Hi Hb. exfalso.
    do 4 (destruct i as [|i]; [cbn in Hi; injection Hi as <-; lia|]). by destruct i.
  - reflexivity.
Defined.

(** C30: [isLegalUTF8] does not check the lower bound of the second byte after 0xED
    and 0xF4: with any byte below 0x80 there the sequence is accepted, and
    strict decoding turns the ill-formed bytes ED 41 80 into U+C040, although
    the sequence decoder of the same file rejects them. *)
Theorem illformed_utf8_accepted b1 b2 b3 :
  0 <= b1 < 0x80 /\ 0x80 <= b2 <= 0xBF /\ 0x80 <= b3 <= 0xBF ->
  isLegalUTF8 [0xED; b1; b2] 3 = true /\ isLegalUTF8 [0xF4; b1; b2; b3] 4 = true /\
  convertUTF8ToUTF16 true [0xED; 0x41; 0x80] 1 = Some (conversionOK, [], [0xC040], false) /\
  decodeUTF8Sequence [0xED; 0x41; 0x80] = -1.
Proof. intros Hb. split_and!; [apply legal_3; lia|apply legal_4; lia|reflexivity|reflexivity]. Qed.

Lemma illformed_utf8_accepted_witness :
  isLegalUTF8 [0xED; 0x41; 0x80] 3 = true /\ isLegalUTF8 [0xF4; 0x41; 0x80; 0x80] 4 = true /\
  convertUTF8ToUTF16 true [0xED; 0x41; 0x80] 1 = Some (conversionOK, [], [0xC040], false) /\
  decodeUTF8Sequence [0xED; 0x41; 0x80] = -1.
Proof. apply (illformed_utf8_accepted 0x41 0x80 0x80). lia. Defined.

(** The mode that replaces unpaired surrogates always succeeds in a buffer of
    three bytes per unit and writes the UTF-8 form of the text in which every
    unpaired surrogate is U+FFFD. *)
Theorem utf8Impl_replacing cs :
  code_units cs ->
  utf8Impl cs (3 * vlen cs) StrictConversionReplacingUnpairedSurrogatesWithFFFD = Some (utf8_text (lossy_scalars cs)).
Proof. intros Hcs. by apply replacing_loop_eq. Qed.

Lemma utf8Impl_replacing_witness :
  utf8Impl [0xDC00; 65; 0xD800] 9 StrictConversionReplacingUnpairedSurrogatesWithFFFD
  = Some (utf8_text [0xFFFD; 65; 0xFFFD]).
Proof.
  apply (utf8Impl_replacing [0xDC00; 65; 0xD800]). unfold code_units.
  repeat (apply Forall_cons; split; [lia|]). by apply Forall_nil.
Defined.
