(* ===== verification/ContentExtension.v ===== *)
(** * Extensions at run time (ContentExtension.cpp, ContentExtensionsBackend.cpp,
      ContentExtensionStyleSheet.cpp, ResourceLoadInfo.cpp)

    A compiled extension is four byte vectors.  A content extension adds the
    universal actions, computed when it is created, and a cache for the domain
    of the last request; the backend keeps the extensions by identifier and
    answers which actions apply to a load.

    Strings that can be null are options.  [None] results are aborts. *)

From stdpp Require Import sorting gmap.
From S2P Require Import Prelude DFA Bytecode BytecodeInterpreter Actions Utf8.

(** ** Loads *)

Inductive ResourceType :=
| Type_Invalid | Type_Document | Type_Image | Type_StyleSheet | Type_Script | Type_Font | Type_Raw
| Type_SVGDocument | Type_Media | Type_PlugInStream | Type_Popup.

Definition ResourceType_code (t : ResourceType) : Z :=
  match t with
  | Type_Invalid => 0x0000 | Type_Document => 0x0001 | Type_Image => 0x0002 | Type_StyleSheet => 0x0004
  | Type_Script => 0x0008 | Type_Font => 0x0010 | Type_Raw => 0x0020 | Type_SVGDocument => 0x0040
  | Type_Media => 0x0080 | Type_PlugInStream => 0x0100 | Type_Popup => 0x0200
  end.

#[export] Instance ResourceType_eq_dec : EqDecision ResourceType.
Proof. solve_decision. Defined.

Inductive LoadType := Load_Invalid | FirstParty | ThirdParty.

Definition LoadType_code (t : LoadType) : Z :=
  match t with Load_Invalid => 0x0000 | FirstParty => 0x0400 | ThirdParty => 0x0800 end.

(** What the code asks of a URL; the host of a null URL is a null string. *)
Record URL := mkURL { url_string : WString; protocolIsData : bool; host : option WString }.

Record ResourceLoadInfo := mkLoad { resourceURL : URL; mainDocumentURL : URL; load_type : ResourceType }.

Section Flags.
(** [SecurityOrigin::canAccess] of the origins of two URLs. *)
Variable canAccess : URL -> URL -> bool.

Definition isThirdParty (info : ResourceLoadInfo) : bool := negb (canAccess (mainDocumentURL info) (resourceURL info)).

Definition getResourceFlags (info : ResourceLoadInfo) : Z :=
  Z.lor (Z.lor 0 (ResourceType_code (load_type info)))
    (if isThirdParty info then LoadType_code ThirdParty else LoadType_code FirstParty).
End Flags.

(** ** Compiled extensions *)

Record CompiledContentExtension := mkCompiled {
  cc_actions : list Z;
  filtersWithoutDomainsBytecode : list Z;
  filtersWithDomainsBytecode : list Z;
  domainFiltersBytecode : list Z
}.

Definition displayNoneCSSRule : WString :=
  mkWString true [100; 105; 115; 112; 108; 97; 121; 58; 110; 111; 110; 101; 32; 33; 105; 109; 112; 111; 114; 116; 97; 110; 116; 59].

Definition openBrace : WString := mkWString true [123].
Definition closeBrace : WString := mkWString true [125].

Section Runtime.
Context `{Host}.
(** The style sheets of the CSS engine, and its parser. *)
Context {StyleSheet : Type} (parseString : WString -> option StyleSheet).
Variable canAccess : URL -> URL -> bool.
(** The order in which a hash set of actions is iterated. *)
Variable iterate : gset Z -> list Z.

(** ** Content extensions *)

Record ContentExtension := mkExtension {
  m_identifier : WString;
  m_compiledExtension : CompiledContentExtension;
  m_globalDisplayNoneStyleSheet : option StyleSheet;
  m_cachedDomain : option WString;
  m_cachedDomainActions : gset Z;
  m_cachedUniversalDomainActions : list Z;
  m_universalActionsWithoutDomains : list Z;
  m_universalActionsWithDomains : list Z
}.

Fixpoint first_ignore_loop (fuel : nat) (actions : list Z) (actionsLength currentActionIndex : Z) : option Z :=
  if negb (currentActionIndex <? actionsLength) then Some uint32_max else
  match fuel with
  | O => None
  | S fuel =>
      type ← deserializeType actions actionsLength currentActionIndex;
      if decide (type = IgnorePreviousRules) then Some currentActionIndex else
      length ← serializedLength actions actionsLength currentActionIndex;
      first_ignore_loop fuel actions actionsLength (u32 (currentActionIndex + length))
  end.

(** Every action takes a byte, so the bytes bound the rounds. *)
Definition findFirstIgnorePreviousRules (c : CompiledContentExtension) : option Z :=
  first_ignore_loop (length (cc_actions c)) (cc_actions c) (vlen (cc_actions c)) 0.

Definition inGlobalDisplayNoneStyleSheet (actions : list Z) (firstIgnorePreviousRules location : Z) : option bool :=
  if location <? firstIgnorePreviousRules then
    type ← deserializeType actions (vlen actions) location;
    Some (bool_decide (type = CSSDisplayNoneSelector))
  else Some false.

Fixpoint global_css (actions : list Z) (firstIgnorePreviousRules : Z) (css : WString) (locations : list Z) : option WString :=
  match locations with
  | [] => Some css
  | location :: locations =>
      inGlobal ← inGlobalDisplayNoneStyleSheet actions firstIgnorePreviousRules location;
      if inGlobal : bool then
        let css := if bool_decide (characters css = []) then css else builder_append css comma in
        action ← deserialize actions (vlen actions) location;
        global_css actions firstIgnorePreviousRules (builder_append css (stringArgument action)) locations
      else global_css actions firstIgnorePreviousRules css locations
  end.

Fixpoint removeAllMatching (test : Z -> option bool) (locations : list Z) : option (list Z) :=
  match locations with
  | [] => Some []
  | location :: locations =>
      matched ← test location;
      rest ← removeAllMatching test locations;
      Some (if matched : bool then rest else location :: rest)
  end.

(** The style sheet, and the universal actions that stay. *)
Definition compileGlobalDisplayNoneStyleSheet (c : CompiledContentExtension) (universal : list Z)
    : option (option StyleSheet * list Z) :=
  firstIgnorePreviousRules ← findFirstIgnorePreviousRules c;
  css ← global_css (cc_actions c) firstIgnorePreviousRules emptyWString universal;
  if bool_decide (characters css = []) then Some (None, universal) else
  let css := builder_append (builder_append (builder_append css openBrace) displayNoneCSSRule) closeBrace in
  universal ← removeAllMatching (inGlobalDisplayNoneStyleSheet (cc_actions c) firstIgnorePreviousRules) universal;
  Some (parseString css, universal).

Definition createExtension (identifier : WString) (c : CompiledContentExtension) : option ContentExtension :=
  withoutDomains ← actionsMatchingEverything (filtersWithoutDomainsBytecode c) None;
  withDomains ← actionsMatchingEverything (filtersWithDomainsBytecode c) None;
  '(sheet, universal) ← compileGlobalDisplayNoneStyleSheet c (map u32 (iterate withoutDomains));
  Some (mkExtension identifier c sheet None ∅ [] universal (iterate withDomains)).

(** A null string equals only a null string. *)
Definition same_domain (a b : option WString) : bool :=
  match a, b with
  | None, None => true
  | Some a, Some b => same_characters a b
  | _, _ => false
  end.

Definition allLoadTypesAndResourceTypes : Z := Z.lor LoadTypeMask ResourceTypeMask.

(** Universal actions whose domain condition holds. *)
Definition matching_universal (domainActions : gset Z) (universal : list Z) : list Z :=
  map u32 (List.filter (fun action =>
    eqb (negb (Z.land action IfDomainFlag =? 0)) (bool_decide (action ∈ domainActions))) universal).

Definition populateDomainCacheIfNeeded (e : ContentExtension) (domain : option WString) : option ContentExtension :=
  if same_domain (m_cachedDomain e) domain then Some e else
  domainBytes ← utf8 domain;
  domainActions ← interpret (domainFiltersBytecode (m_compiledExtension e)) None domainBytes allLoadTypesAndResourceTypes;
  Some (mkExtension (m_identifier e) (m_compiledExtension e) (m_globalDisplayNoneStyleSheet e) domain domainActions
          (matching_universal domainActions (m_universalActionsWithDomains e))
          (m_universalActionsWithoutDomains e) (m_universalActionsWithDomains e)).

Definition cachedDomainActions (e : ContentExtension) (domain : option WString) : option (ContentExtension * gset Z) :=
  e ← populateDomainCacheIfNeeded e domain;
  Some (e, m_cachedDomainActions e).

Definition universalActionsWithDomains (e : ContentExtension) (domain : option WString)
    : option (ContentExtension * list Z) :=
  e ← populateDomainCacheIfNeeded e domain;
  Some (e, m_cachedUniversalDomainActions e).

(** ** The backend *)

(** The loop from the last location to the first, until an ignore-previous-rules action. *)
Fixpoint collect_actions (actions : list Z) (identifier : WString) (locations : list Z) (finalActions : list Action)
    : option (list Action * bool) :=
  match locations with
  | [] => Some (finalActions, false)
  | location :: locations =>
      action ← deserialize actions (vlen actions) location;
      let action := setExtensionIdentifier action identifier in
      if decide (action_type action = IgnorePreviousRules) then Some (finalActions, true)
      else collect_actions actions identifier locations (finalActions ++ [action])
  end.

Definition sorted_locations (withoutDomains withDomains : gset Z) (universalWithoutDomains universalWithDomains : list Z)
    : list Z :=
  merge_sort Z.le (map u32 (iterate withoutDomains) ++ map u32 (iterate withDomains)
                   ++ universalWithoutDomains ++ universalWithDomains).

(** The body of the loop over the extensions. *)
Definition actionsOfExtension (e : ContentExtension) (urlCString : list Z) (flags : Z) (domain : option WString)
    (finalActions : list Action) : option (ContentExtension * list Action) :=
  let c := m_compiledExtension e in
  withoutDomains ← interpret (filtersWithoutDomainsBytecode c) None urlCString flags;
  '(e, domainActions) ← cachedDomainActions e domain;
  withDomains ← interpretWithDomains (filtersWithDomainsBytecode c) urlCString flags domainActions;
  '(e, universalWithDomains) ← universalActionsWithDomains e domain;
  let locations := sorted_locations withoutDomains withDomains (m_universalActionsWithoutDomains e) universalWithDomains in
  '(finalActions, sawIgnorePreviousRules) ← collect_actions (cc_actions c) (m_identifier e) (reverse locations) finalActions;
  Some (e, if sawIgnorePreviousRules : bool then finalActions
           else finalActions ++ [setExtensionIdentifier (mkAction CSSDisplayNoneStyleSheet uint32_max (m_identifier e))
                                   (m_identifier e)]).

(** The extensions by the characters of their identifier. *)
Definition Backend : Type := gmap (list Z) ContentExtension.

(** The order in which the map is iterated. *)
Variable identifiers : Backend -> list (list Z).

Definition removeContentExtension (b : Backend) (identifier : WString) : Backend := delete (characters identifier) b.

Definition removeAllContentExtensions (b : Backend) : Backend := ∅.

Definition addContentExtension (b : Backend) (identifier : WString) (compiled : option CompiledContentExtension)
    : option Backend :=
  if bool_decide (characters identifier = []) then Some b else
  match compiled with
  | None => Some (removeContentExtension b identifier)
  | Some c => e ← createExtension identifier c; Some (<[characters identifier := e]> b)
  end.

Fixpoint actions_loop (b : Backend) (ids : list (list Z)) (urlCString : list Z) (flags : Z) (domain : option WString)
    (finalActions : list Action) : option (Backend * list Action) :=
  match ids with
  | [] => Some (b, finalActions)
  | id :: ids =>
      e ← b !! id;
      '(e, finalActions) ← actionsOfExtension e urlCString flags domain finalActions;
      actions_loop (<[id := e]> b) ids urlCString flags domain finalActions
  end.

(** The caches of the extensions change, so the backend is returned as well. *)
Definition actionsForResourceLoad (b : Backend) (info : ResourceLoadInfo) : option (Backend * list Action) :=
  if protocolIsData (resourceURL info) then Some (b, []) else
  urlCString ← utf8 (Some (url_string (resourceURL info)));
  actions_loop b (identifiers b) urlCString (getResourceFlags canAccess info) (host (mainDocumentURL info)) [].

Definition globalDisplayNoneStyleSheet (b : Backend) (identifier : WString) : option StyleSheet :=
  e ← b !! characters identifier; m_globalDisplayNoneStyleSheet e.

(** ** Applying the actions to a load *)

(** What the code asks of the frame of the initiating loader: whether it has a
    document, whether it is the main frame, the URL of the main document. *)
Record Frame := mkFrame { has_document : bool; isMainFrame : bool; main_document : option URL }.

(** The calls made for the actions, in their order. *)
Inductive effect :=
| SetAllowCookies (allowed : bool)
| AddPendingDisplayNoneSelector (identifier selector : WString) (selectorID : Z)
| AddDisplayNoneSelector (identifier selector : WString) (selectorID : Z)
| AddPendingSheet (identifier : WString) (sheet : StyleSheet)
| MaybeAddSheet (identifier : WString) (sheet : StyleSheet)
| AddConsoleMessage
| ClearRequest.

Definition nullURL : URL := mkURL emptyWString false None.

(** The document the main document's URL is taken from. *)
Definition mainDocumentURL_for (frame : option Frame) (isLoadingMainResource : bool) (request : URL) (type : ResourceType) : URL :=
  match frame with
  | None => nullURL
  | Some frame =>
      if isLoadingMainResource && isMainFrame frame && bool_decide (type = Type_Document) then request
      else default nullURL (main_document frame)
  end.

Definition apply_action (b : Backend) (type : ResourceType) (currentDocument : bool) (action : Action)
    : option (bool * list effect) :=
  match action_type action with
  | BlockLoad => Some (true, [])
  | BlockCookies => Some (false, [SetAllowCookies false])
  | CSSDisplayNoneSelector =>
      Some (false,
        if bool_decide (type = Type_Document)
        then [AddPendingDisplayNoneSelector (extensionIdentifier action) (stringArgument action) (actionID action)]
        else if currentDocument
        then [AddDisplayNoneSelector (extensionIdentifier action) (stringArgument action) (actionID action)] else [])
  | CSSDisplayNoneStyleSheet =>
      Some (false,
        match globalDisplayNoneStyleSheet b (stringArgument action) with
        | Some sheet =>
            if bool_decide (type = Type_Document) then [AddPendingSheet (stringArgument action) sheet]
            else if currentDocument then [MaybeAddSheet (stringArgument action) sheet] else []
        | None => []
        end)
  | IgnorePreviousRules | InvalidAction => None
  end.

Fixpoint apply_actions (b : Backend) (type : ResourceType) (currentDocument willBlockLoad : bool) (actions : list Action)
    : option (bool * list effect) :=
  match actions with
  | [] => Some (willBlockLoad, [])
  | action :: actions =>
      '(block, effects) ← apply_action b type currentDocument action;
      '(willBlockLoad, rest) ← apply_actions b type currentDocument (willBlockLoad || block) actions;
      Some (willBlockLoad, effects ++ rest)
  end.

Definition processContentExtensionRulesForLoad (b : Backend) (request : URL) (type : ResourceType)
    (frame : option Frame) (isLoadingMainResource : bool) : option (Backend * list effect) :=
  let currentDocument := match frame with Some frame => has_document frame | None => false end in
  '(b, actions) ← actionsForResourceLoad b (mkLoad request (mainDocumentURL_for frame isLoadingMainResource request type) type);
  '(willBlockLoad, effects) ← apply_actions b type currentDocument false actions;
  Some (b, effects ++ (if willBlockLoad : bool
                       then (if currentDocument then [AddConsoleMessage] else []) ++ [ClearRequest] else [])).
End Runtime.

Arguments ContentExtension : clear implicits.
Arguments Backend : clear implicits.
