(* ===== verification/ExtensionCorrect.v ===== *)
(** * Extensions at run time: scanning the actions, the global style sheet, the walk over matched actions *)

From stdpp Require Import sorting gmap.
From S2P Require Import Prelude DFA Bytecode BytecodeInterpreter Actions ActionsCorrect Utf8 ContentExtension.

Section Scan.
Context `{Host}.

(** ** The first ignore-previous-rules action *)

Definition item_type (it : item) : ActionType :=
  match it with SimpleItem type => type | SelectorItem _ => CSSDisplayNoneSelector end.

Lemma item_bytes_cons it : exists rest, item_bytes it = ActionType_code (item_type it) :: rest.
Proof. destruct it as [type|s]; by eexists. Qed.

Lemma stored_item_lt actions l it : stored_at actions l (item_bytes it) -> 0 <= l < vlen actions.
Proof. intros Hs%stored_lt. destruct (item_bytes_cons it) as [rest E]. rewrite E in Hs. cbn [length] in Hs. lia. Qed.

Lemma stored_item_type actions l it :
  stored_at actions l (item_bytes it) -> item_ok it -> deserializeType actions (vlen actions) l = Some (item_type it).
Proof.
  intros Hs Hok. pose proof (stored_item_lt _ _ _ Hs). unfold deserializeType.
  rewrite (proj2 (Z.ltb_lt _ _)) by lia. destruct (item_bytes_cons it) as [rest E]. rewrite E in Hs.
  rewrite (stored_head _ _ _ _ Hs), option_bind_Some, ActionType_of_code, option_bind_Some.
  destruct it as [type|s]; cbn in Hok |- *; [|done]. rewrite !elem_of_cons, elem_of_nil in Hok. naive_solver.
Qed.

Lemma stored_item_length actions l it :
  stored_at actions l (item_bytes it) -> item_ok it -> vlen actions < 2 ^ 32 ->
  serializedLength actions (vlen actions) l = Some (vlen (item_bytes it)).
Proof.
  intros Hs Hok Hsize. destruct it as [type|s]; [|by apply serializedLength_selector].
  pose proof (stored_item_lt _ _ _ Hs). unfold serializedLength. rewrite (proj2 (Z.ltb_lt _ _)) by lia. cbn in Hs.
  rewrite (stored_head _ _ _ _ Hs), option_bind_Some, ActionType_of_code, option_bind_Some.
  cbn in Hok. rewrite !elem_of_cons, elem_of_nil in Hok. naive_solver.
Qed.

Definition ignoring (it : item) : Prop := item_type it = IgnorePreviousRules.

Lemma flat_cons it items : flat (it :: items) = item_bytes it ++ flat items.
Proof. done. Qed.

Lemma stored_between actions pre it post :
  actions = flat pre ++ item_bytes it ++ post -> stored_at actions (vlen (flat pre)) (item_bytes it).
Proof. intros ->. by exists (flat pre), post. Qed.

(** Scanning a stretch of actions: stop at the first that ignores, or get past it. *)
Lemma scan_items actions items : forall done rest fuel,
  actions = flat done ++ flat items ++ rest -> Forall item_ok items -> vlen actions < 2 ^ 32 ->
  (exists a it b, items = a ++ it :: b /\ ignoring it /\ Forall (fun it => ~ ignoring it) a /\
     first_ignore_loop (length items + fuel) actions (vlen actions) (vlen (flat done)) = Some (vlen (flat (done ++ a)))) \/
  (Forall (fun it => ~ ignoring it) items /\
     first_ignore_loop (length items + fuel) actions (vlen actions) (vlen (flat done)) =
     first_ignore_loop fuel actions (vlen actions) (vlen (flat (done ++ items)))).
Proof.
  induction items as [|it items IH]; intros done rest fuel Heq Hok Hsize; [right; by rewrite app_nil_r|].
  inversion Hok as [|? ? Hit Hok']; subst x l. rewrite flat_cons, <- (assoc_L (++)) in Heq.
  pose proof (stored_between _ _ _ _ Heq) as Hst. pose proof (stored_item_lt _ _ _ Hst) as Hlt.
  cbn [length Nat.add first_ignore_loop]. rewrite (proj2 (Z.ltb_lt _ _)) by lia. cbn [negb].
  rewrite (stored_item_type _ _ _ Hst Hit), option_bind_Some. case_decide as Hd.
  - left. exists [], it, items. rewrite app_nil_r. split_and!; [done|done|constructor|done].
  - rewrite (stored_item_length _ _ _ Hst Hit Hsize), option_bind_Some.
    assert (Hnext : u32 (vlen (flat done) + vlen (item_bytes it)) = vlen (flat (done ++ [it]))).
    { rewrite flat_app, length_app. unfold flat at 3. cbn [map concat]. rewrite app_nil_r. rewrite u32_small; [lia|].
      apply stored_lt in Hst. lia. }
    rewrite Hnext. destruct (IH (done ++ [it]) rest fuel) as [(a & it' & b & -> & Hi & Ha & E)|[Ha E]]; [|done|done| |].
    + rewrite flat_app, <- (assoc_L (++)). unfold flat at 2. cbn [map concat]. by rewrite app_nil_r.
    + left. exists (it :: a), it', b. rewrite E, <- (assoc_L (++)). split_and!; [done|done|by constructor|done].
    + right. rewrite E, <- (assoc_L (++)). split; [by constructor|done].
Qed.

Lemma flat_length items : (length items <= length (flat items))%nat.
Proof.
  induction items as [|it items IH]; [done|]. rewrite flat_cons, length_app. destruct (item_bytes_cons it) as [r ->].
  cbn [length]. lia.
Qed.

Lemma scan_done fuel actions : first_ignore_loop fuel actions (vlen actions) (vlen actions) = Some uint32_max.
Proof. destruct fuel; cbn [first_ignore_loop]; by rewrite Z.ltb_irrefl. Qed.

Lemma scan_stop fuel actions items post :
  actions = flat items ++ [ActionType_code IgnorePreviousRules] ++ post -> (length actions - length items <= fuel)%nat ->
  first_ignore_loop fuel actions (vlen actions) (vlen (flat items)) = Some (vlen (flat items)).
Proof.
  intros Heq Hf. pose proof (stored_between actions items (SimpleItem IgnorePreviousRules) post Heq) as Hst.
  pose proof (stored_item_lt _ _ _ Hst). pose proof (flat_length items). destruct fuel as [|fuel]; [lia|].
  cbn [first_ignore_loop]. rewrite (proj2 (Z.ltb_lt _ _)) by lia. cbn [negb].
  rewrite (stored_item_type _ _ _ Hst), option_bind_Some by (cbn; set_solver). by rewrite decide_True.
Qed.

(** What [findFirstIgnorePreviousRules] returns on well-formed bytes. *)
Lemma findFirst_spec c :
  itemized (cc_actions c) -> vlen (cc_actions c) < 2 ^ 32 ->
  exists f, findFirstIgnorePreviousRules c = Some f /\
    (forall l, holds (cc_actions c) l [ActionType_code IgnorePreviousRules] -> f <= l) /\
    (f = uint32_max \/ holds (cc_actions c) f [ActionType_code IgnorePreviousRules]).
Proof.
  intros (items & Heq & Hok) Hsize. unfold findFirstIgnorePreviousRules. set (actions := cc_actions c) in *.
  assert (Hgo : forall items rest, actions = flat items ++ rest -> Forall item_ok items -> exists fuel,
            (exists a it b, items = a ++ it :: b /\ ignoring it /\ Forall (fun it => ~ ignoring it) a /\
               first_ignore_loop (length actions) actions (vlen actions) 0 = Some (vlen (flat a))) \/
            (Forall (fun it => ~ ignoring it) items /\
               first_ignore_loop (length actions) actions (vlen actions) 0 = first_ignore_loop fuel actions (vlen actions) (vlen (flat items))
               /\ (length actions - length items <= fuel)%nat)).
  { intros its rest E Hits. exists (length actions - length its)%nat. pose proof (flat_length its).
    assert (Hle : (length its <= length actions)%nat) by (rewrite E, length_app; lia).
    destruct (scan_items actions its [] rest (length actions - length its) E Hits Hsize) as [(a & it & b & ? & ? & ? & Es)|[Ha Es]];
      cbn [app flat map concat length] in Es; replace (length its + (length actions - length its))%nat with (length actions) in Es by lia.
    - left. exists a, it, b. auto.
    - right. auto. }
  destruct (Hgo items [] ltac:(by rewrite app_nil_r) Hok) as (fuel & [(a & it & b & -> & Hi & Ha & E)|(Ha & E & _)]).
  - exists (vlen (flat a)). split; [done|]. apply Forall_app in Hok as [Hoka Hokb]. inversion Hokb as [|? ? Hit _]; subst.
    assert (Hcode : item_bytes it = [ActionType_code IgnorePreviousRules]).
    { unfold ignoring in Hi. destruct it as [type|s]; cbn in *; [by rewrite Hi|done]. }
    split.
    + intros l (pre & post & (its & -> & Hits) & Heq' & <-).
      destruct (Hgo its _ Heq' Hits) as (fuel' & [(a' & it' & b' & -> & _ & _ & E')|(Ha' & E' & Hf)]).
      * rewrite E in E'. injection E' as ->. rewrite flat_app, length_app. lia.
      * rewrite E', (scan_stop _ _ _ _ Heq' Hf) in E. injection E as ->. lia.
    + right. exists (flat a), (flat b). rewrite <- Hcode. split_and!; [by exists a| |done].
      rewrite Heq, flat_app. by rewrite flat_cons.
  - exists uint32_max. rewrite E, <- Heq, scan_done. split_and!; [done| |by left].
    intros l (pre & post & (its & -> & Hits) & Heq' & <-). exfalso.
    destruct (Hgo its _ Heq' Hits) as (fuel' & [(a' & it' & b' & -> & _ & _ & E')|(Ha' & E' & Hf)]).
    + rewrite E, <- Heq, scan_done in E'. injection E' as E'. pose proof (f_equal length Heq') as Hl.
      rewrite flat_app, !length_app in Hl. unfold uint32_max in E'. cbn [length] in Hl. lia.
    + rewrite E, <- Heq, scan_done, (scan_stop _ _ _ _ Heq' Hf) in E'. injection E' as E'.
      pose proof (f_equal length Heq') as Hl. rewrite !length_app in Hl. unfold uint32_max in E'. cbn [length] in Hl. lia.
Qed.
End Scan.

(** ** The walk over the matched actions *)

Section Walk.
Context `{Host}.
Variables (actions : list Z) (identifier : WString).

Definition item_string (it : item) : WString := match it with SimpleItem _ => emptyWString | SelectorItem s => s end.

Definition item_wf (it : item) : Prop := match it with SimpleItem _ => True | SelectorItem s => wf_string s end.

(** An action starts at the location. *)
Definition located (l : Z) : Prop := exists it, item_ok it /\ item_wf it /\ holds actions l (item_bytes it).

Definition ignores_at (l : Z) : Prop := deserializeType actions (vlen actions) l = Some IgnorePreviousRules.

(** The action at a location, with the identifier of its extension. *)
Definition action_at (l : Z) : Action :=
  setExtensionIdentifier (default (mkAction InvalidAction l emptyWString) (deserialize actions (vlen actions) l)) identifier.

Hypothesis Hsize : vlen actions < 2 ^ 32.

Lemma deserialize_item l it :
  item_ok it -> item_wf it -> holds actions l (item_bytes it) ->
  deserialize actions (vlen actions) l = Some (mkAction (item_type it) l (item_string it)) /\
  deserializeType actions (vlen actions) l = Some (item_type it).
Proof.
  intros Hok Hwf Hh. split; [|by apply stored_item_type; [apply holds_stored|]].
  destruct it as [type|s]; [by apply deserialize_simple|apply deserialize_selector; [by apply holds_stored|done|done]].
Qed.

Lemma located_action l : located l -> exists type s,
  deserialize actions (vlen actions) l = Some (mkAction type l s) /\ deserializeType actions (vlen actions) l = Some type /\
  action_at l = setExtensionIdentifier (mkAction type l s) identifier /\ type <> InvalidAction /\ type <> CSSDisplayNoneStyleSheet.
Proof.
  intros (it & Hok & Hwf & Hh). destruct (deserialize_item l it Hok Hwf Hh) as [Hd Ht].
  exists (item_type it), (item_string it). unfold action_at. rewrite Hd. split_and!; try done;
    destruct it as [type|s]; cbn in *; rewrite ?elem_of_cons, ?elem_of_nil in Hok; naive_solver.
Qed.

Lemma located_ignores l : located l -> ignores_at l -> holds actions l [ActionType_code IgnorePreviousRules].
Proof.
  intros (it & Hok & Hwf & Hh) Hi. destruct (deserialize_item l it Hok Hwf Hh) as [_ Ht].
  unfold ignores_at in Hi. rewrite Ht in Hi. injection Hi as Hi. destruct it as [type|s]; cbn in *; [by subst|done].
Qed.

#[global] Instance ignores_at_dec l : Decision (ignores_at l).
Proof. unfold ignores_at. apply _. Defined.

(** The walk keeps the actions up to the first that ignores. *)
Lemma collect_spec ls : forall acc, Forall located ls -> exists kept rest saw,
  ls = kept ++ rest /\ Forall (fun l => ~ ignores_at l) kept /\
  ((rest = [] /\ saw = false) \/ (exists l rest', rest = l :: rest' /\ ignores_at l /\ saw = true)) /\
  collect_actions actions identifier ls acc = Some (acc ++ map action_at kept, saw).
Proof.
  induction ls as [|l ls IH]; intros acc Hl; cbn [collect_actions].
  - exists [], [], false. split; [done|]. split; [by apply Forall_nil|]. split; [by left|]. cbn. by rewrite app_nil_r.
  - inversion Hl as [|? ? Hl1 Hls]; subst. destruct (located_action l Hl1) as (type & s & Hd & Ht & Ha & _).
    rewrite Hd, option_bind_Some. cbv zeta. rewrite <- Ha.
    assert (Hty : action_type (action_at l) = type) by (by rewrite Ha). rewrite Hty. case_decide as Hi.
    + exists [], (l :: ls), true. split; [done|]. split; [by apply Forall_nil|].
      split; [|cbn; by rewrite app_nil_r]. right. exists l, ls. split_and!; [done| |done]. unfold ignores_at. by rewrite Ht, Hi.
    + destruct (IH (acc ++ [action_at l]) Hls) as (kept & rest & saw & -> & Hk & Hr & ->).
      exists (l :: kept), rest, saw. split_and!; [done| |done|by rewrite <- (assoc_L (++))].
      constructor; [|done]. unfold ignores_at. rewrite Ht. congruence.
Qed.

(** In a sorted list those are the actions above every one that ignores. *)
Definition effective (L : list Z) (l : Z) : Prop := l ∈ L /\ forall l', l' ∈ L -> ignores_at l' -> l' < l.

Lemma collect_sorted L acc :
  Forall located L -> exists kept saw,
  collect_actions actions identifier (reverse (merge_sort Z.le L)) acc = Some (acc ++ map action_at kept, saw) /\
  (forall l, l ∈ kept <-> effective L l) /\ (saw = true <-> exists l, l ∈ L /\ ignores_at l).
Proof.
  intros HL. set (S := merge_sort Z.le L).
  assert (HS : forall l, l ∈ S <-> l ∈ L) by (intros l; unfold S; by rewrite merge_sort_Permutation).
  assert (Hsorted : StronglySorted Z.le S) by (apply StronglySorted_merge_sort; apply _).
  destruct (collect_spec (reverse S) acc) as (kept & rest & saw & Heq & Hk & Hr & ->).
  { apply Forall_reverse. unfold S. by rewrite merge_sort_Permutation. }
  exists kept, saw. split; [done|].
  assert (HSeq : S = reverse rest ++ reverse kept) by (by rewrite <- reverse_app, <- Heq, reverse_involutive).
  assert (Hin : forall l, l ∈ L <-> l ∈ kept \/ l ∈ rest).
  { intros l. rewrite <- HS, HSeq, elem_of_app, !elem_of_reverse. tauto. }
  rewrite HSeq in Hsorted. rewrite Forall_forall in Hk.
  split.
  - intros l. unfold effective. split.
    + intros Hl. split; [apply Hin; by left|]. intros l' Hl' Hi.
      apply Hin in Hl' as [Hl'|Hl']; [by destruct (Hk _ Hl')|].
      assert (l' <= l) by (apply (StronglySorted_app_1_elem_of _ _ _ l' l Hsorted); by apply elem_of_reverse).
      destruct (decide (l' = l)) as [->|]; [by destruct (Hk _ Hl)|lia].
    + intros [Hl Habove]. apply Hin in Hl as [Hl|Hl]; [done|exfalso].
      destruct Hr as [[-> _]|(l0 & rest' & -> & Hi & _)]; [by apply elem_of_nil in Hl|].
      assert (l0 < l) by (apply Habove; [apply Hin; right; left|done]).
      apply elem_of_cons in Hl as [->|Hl]; [lia|]. apply StronglySorted_app_1_l in Hsorted. rewrite reverse_cons in Hsorted.
      assert (l <= l0); [|lia]. apply (StronglySorted_app_1_elem_of _ _ _ l l0 Hsorted); [by apply elem_of_reverse|].
      by apply list_elem_of_singleton.
  - destruct Hr as [[-> ->]|(l0 & rest' & -> & Hi & ->)].
    + split; [done|]. intros (l & [Hl|Hl]%Hin & Hi); [by destruct (Hk _ Hl)|by apply elem_of_nil in Hl].
    + split; [|done]. intros _. exists l0. split; [apply Hin; right; left|done].
Qed.
End Walk.

(** Every item of well-formed bytes is at a location. *)
Lemma located_item `{Host} items k it :
  items !! k = Some it -> Forall item_ok items -> Forall item_wf items -> located (flat items) (vlen (flat (take k items))).
Proof.
  intros Hk Hok Hwf. exists it. split_and!; [apply (Forall_lookup_1 _ _ _ _ Hok Hk)|apply (Forall_lookup_1 _ _ _ _ Hwf Hk)|].
  exists (flat (take k items)), (flat (drop (S k) items)). split_and!; [|by rewrite <- flat_cons, <- flat_app, take_drop_middle|done].
  exists (take k items). split; [done|]. by apply Forall_take.
Qed.
