(* ===== verification/ExtensionClaims.v ===== *)
(** * Claims: extensions at run time

    The global style sheet changes nothing but the way actions are delivered;
    the domain cache is never stale; the actions of a load are applied without
    reaching the assertions for impossible actions. *)

From stdpp Require Import sorting gmap.
From S2P Require Import Prelude DFA Bytecode BytecodeCompiler BytecodeInterpreter Actions ActionsCorrect Utf8 Utf8Correct Utf8Claims ContentExtension ExtensionCorrect.

Section Claims.
Context `{Host} {StyleSheet : Type}.
Variable parseString : WString -> option StyleSheet.
Variable canAccess : URL -> URL -> bool.
Variable iterate : gset Z -> list Z.
Variable identifiers : Backend StyleSheet -> list (list Z).

Abbreviation Ext := (ContentExtension StyleSheet).

(** ** The global style sheet *)

(** The action at a location is a selector. *)
Definition selects_at (actions : list Z) (l : Z) : Prop := deserializeType actions (vlen actions) l = Some CSSDisplayNoneSelector.

Lemma selects_not_ignores actions l : selects_at actions l -> ~ ignores_at actions l.
Proof. unfold selects_at, ignores_at. congruence. Qed.

Section Sheet.
Variable c : CompiledContentExtension.
Hypothesis Hitems : itemized (cc_actions c).
Hypothesis Hsize : vlen (cc_actions c) < 2 ^ 32.

Lemma inGlobal_total f l :
  located (cc_actions c) l -> exists b, inGlobalDisplayNoneStyleSheet (cc_actions c) f l = Some b /\
    (b = true -> l < f /\ selects_at (cc_actions c) l).
Proof.
  intros Hl. unfold inGlobalDisplayNoneStyleSheet. destruct (Z.ltb_spec l f); [|by exists false].
  destruct (located_action _ emptyWString Hsize l Hl) as (type & s & _ & Ht & _). rewrite Ht, option_bind_Some.
  eexists. split; [done|]. intros Hb%bool_decide_eq_true. split; [done|]. unfold selects_at. by rewrite Ht, Hb.
Qed.

Lemma global_css_total f ls : forall css, Forall (located (cc_actions c)) ls -> exists r, global_css (cc_actions c) f css ls = Some r.
Proof.
  induction ls as [|l ls IH]; intros css Hl; cbn [global_css]; [by eexists|]. inversion Hl as [|? ? Hl1 Hls]; subst.
  destruct (inGlobal_total f l Hl1) as ([] & -> & _); rewrite option_bind_Some; [|by apply IH].
  destruct (located_action _ emptyWString Hsize l Hl1) as (type & s & -> & _). rewrite option_bind_Some. by apply IH.
Qed.

Lemma removeAllMatching_spec f ls : Forall (located (cc_actions c)) ls -> exists r,
  removeAllMatching (inGlobalDisplayNoneStyleSheet (cc_actions c) f) ls = Some r /\
  (forall l, l ∈ r -> l ∈ ls) /\
  (forall l, l ∈ ls -> l ∉ r -> l < f /\ selects_at (cc_actions c) l).
Proof.
  induction ls as [|l ls IH]; intros Hl; cbn [removeAllMatching]; [by exists []|]. inversion Hl as [|? ? Hl1 Hls]; subst.
  destruct (inGlobal_total f l Hl1) as (b & -> & Hb). rewrite option_bind_Some.
  destruct (IH Hls) as (r & -> & Hsub & Hrem). rewrite option_bind_Some. eexists. split; [done|]. split.
  - intros l'. destruct b; rewrite ?elem_of_cons; naive_solver.
  - intros l' [->|Hl']%elem_of_cons Hn; [destruct b; [by apply Hb|destruct Hn; left]|].
    apply Hrem; [done|]. destruct b; [done|]. intros Hr. apply Hn. by right.
Qed.

(** What is taken out of the universal actions lies before every action that ignores, and is a selector. *)
Lemma compileGlobal_spec universal :
  Forall (located (cc_actions c)) universal -> exists sheet rest,
  compileGlobalDisplayNoneStyleSheet parseString c universal = Some (sheet, rest) /\
  (forall l, l ∈ rest -> l ∈ universal) /\
  (forall l, l ∈ universal -> l ∉ rest -> selects_at (cc_actions c) l /\
     forall l', located (cc_actions c) l' -> ignores_at (cc_actions c) l' -> l < l').
Proof.
  intros Hl. unfold compileGlobalDisplayNoneStyleSheet.
  destruct (findFirst_spec c Hitems Hsize) as (f & -> & Hmin & _). rewrite option_bind_Some.
  destruct (global_css_total f universal emptyWString Hl) as (css & ->). rewrite option_bind_Some.
  case_bool_decide; [exists None, universal; split_and!; naive_solver|]. cbv zeta.
  destruct (removeAllMatching_spec f universal Hl) as (rest & -> & Hsub & Hrem). rewrite option_bind_Some.
  eexists _, rest. split_and!; [done|done|]. intros l Hlu Hn. destruct (Hrem l Hlu Hn) as [Hlt Hi]. split; [done|].
  intros l' Hl' Hi'. specialize (Hmin l' (located_ignores _ Hsize l' Hl' Hi')). lia.
Qed.
End Sheet.

(** ** The state of an extension *)

(** The cache holds nothing, or what the filters say about the cached domain. *)
Definition cache_ok (e : Ext) : Prop :=
  (m_cachedDomain e = None /\ m_cachedDomainActions e = ∅ /\ m_cachedUniversalDomainActions e = []) \/
  exists domainBytes, utf8 (m_cachedDomain e) = Some domainBytes /\
    interpret (domainFiltersBytecode (m_compiledExtension e)) None domainBytes allLoadTypesAndResourceTypes
      = Some (m_cachedDomainActions e) /\
    m_cachedUniversalDomainActions e = matching_universal (m_cachedDomainActions e) (m_universalActionsWithDomains e).

(** An extension that was created and then only used. *)
Record extension_ok (e : Ext) : Prop := mkExtensionOk {
  eo_created : exists e0, createExtension parseString iterate (m_identifier e) (m_compiledExtension e) = Some e0 /\
    m_globalDisplayNoneStyleSheet e = m_globalDisplayNoneStyleSheet e0 /\
    m_universalActionsWithoutDomains e = m_universalActionsWithoutDomains e0 /\
    m_universalActionsWithDomains e = m_universalActionsWithDomains e0;
  eo_cache : cache_ok e
}.

Lemma createExtension_ok id c e : createExtension parseString iterate id c = Some e ->
  extension_ok e /\ m_identifier e = id /\ m_compiledExtension e = c /\ m_cachedDomain e = None.
Proof.
  intros Hc. assert (Hc' := Hc). unfold createExtension in Hc.
  destruct (actionsMatchingEverything (filtersWithoutDomainsBytecode c) None) as [A|]; [|done].
  destruct (actionsMatchingEverything (filtersWithDomainsBytecode c) None) as [B|]; [|done]. rewrite !option_bind_Some in Hc.
  destruct (compileGlobalDisplayNoneStyleSheet parseString c (map u32 (iterate A))) as [[sheet rest]|] eqn:E; [|done].
  cbn in Hc. injection Hc as <-. split_and!; try done. split; [|by left]. cbn. eexists. split_and!; [exact Hc'|done..].
Qed.

Lemma utf8_same_characters a b : wf_string a -> wf_string b -> same_characters a b = true -> utf8 (Some a) = utf8 (Some b).
Proof.
  assert (Hmixed : forall cs, bytes cs -> utf8 (Some (mkWString true cs)) = utf8 (Some (mkWString false cs))).
  { intros cs Hb. unfold utf8, utf8ForRange. cbn [characters is8Bit]. cbv zeta. rewrite drop_0, firstn_all2 by lia.
    case_bool; [done|]. case_bool; [done|]. rewrite convertLatin1_eq by (done || lia).
    assert (Ht : utf16_text cs = cs /\ Forall scalar cs).
    { clear -Hb. induction Hb as [|c cs Hc _ [IH1 IH2]]; [by split|]. rewrite utf16_text_cons, IH1. unfold units.
      rewrite (proj2 (Z.ltb_lt c 0x10000)) by lia. split; [done|]. constructor; [left; lia|done]. }
    destruct Ht as [Ht Hs]. pose proof (utf8_text_room cs) as Hr. rewrite Ht in Hr.
    unfold utf8Impl. rewrite <- (app_nil_r cs) at 2. rewrite <- Ht at 2. rewrite convert_text by (done || lia).
    cbn. by rewrite app_nil_r. }
  unfold wf_string. destruct a as [wa ca], b as [wb cb]. cbn [is8Bit characters]. intros Ha Hb E%bool_decide_eq_true.
  cbn in E. subst cb. destruct wa, wb; [done|by apply Hmixed|symmetry; by apply Hmixed|done].
Qed.

(** ** Populating the cache *)

Lemma same_domain_refl d : same_domain d d = true.
Proof. destruct d; [by apply bool_decide_eq_true|done]. Qed.

Lemma populate_cases (e e' : Ext) d : populateDomainCacheIfNeeded e d = Some e' ->
  (same_domain (m_cachedDomain e) d = true /\ e' = e) \/
  (exists domainBytes domainActions, utf8 d = Some domainBytes /\
    interpret (domainFiltersBytecode (m_compiledExtension e)) None domainBytes allLoadTypesAndResourceTypes = Some domainActions /\
    e' = mkExtension (m_identifier e) (m_compiledExtension e) (m_globalDisplayNoneStyleSheet e) d domainActions
          (matching_universal domainActions (m_universalActionsWithDomains e))
          (m_universalActionsWithoutDomains e) (m_universalActionsWithDomains e)).
Proof.
  unfold populateDomainCacheIfNeeded. destruct (same_domain (m_cachedDomain e) d) eqn:Hd; [intros [= <-]; by left|].
  intros Hp. right. destruct (utf8 d) as [bs|]; [|done]. rewrite option_bind_Some in Hp.
  destruct (interpret _ None bs _) as [D|] eqn:HD; [|done]. rewrite option_bind_Some in Hp. injection Hp as <-. eauto.
Qed.

Lemma populate_ok (e e' : Ext) d : extension_ok e -> populateDomainCacheIfNeeded e d = Some e' ->
  extension_ok e' /\ m_identifier e' = m_identifier e /\ m_compiledExtension e' = m_compiledExtension e /\
  m_universalActionsWithoutDomains e' = m_universalActionsWithoutDomains e /\
  m_globalDisplayNoneStyleSheet e' = m_globalDisplayNoneStyleSheet e /\
  same_domain (m_cachedDomain e') d = true.
Proof.
  intros [(e0 & He0 & Hg & Hu & Hd) Hc] [[Hs ->]|(bs & D & Hbs & HD & ->)]%populate_cases.
  - split_and!; try done. split; [by exists e0|done].
  - cbn. split_and!; try done; [|apply same_domain_refl]. split; cbn; [by exists e0|]. right. by exists bs.
Qed.

Lemma populate_again (e e' : Ext) d : populateDomainCacheIfNeeded e d = Some e' -> populateDomainCacheIfNeeded e' d = Some e'.
Proof.
  intros [[Hs ->]|(bs & D & Hbs & HD & ->)]%populate_cases; unfold populateDomainCacheIfNeeded; [by rewrite Hs|].
  cbn [m_cachedDomain]. by rewrite same_domain_refl.
Qed.

(** ** The actions of one extension *)

Definition sheet_action (e : Ext) : Action :=
  setExtensionIdentifier (mkAction CSSDisplayNoneStyleSheet uint32_max (m_identifier e)) (m_identifier e).

Lemma actionsOfExtension_eq (e e1 : Ext) url flags d A B acc :
  interpret (filtersWithoutDomainsBytecode (m_compiledExtension e)) None url flags = Some A ->
  populateDomainCacheIfNeeded e d = Some e1 ->
  interpretWithDomains (filtersWithDomainsBytecode (m_compiledExtension e)) url flags (m_cachedDomainActions e1) = Some B ->
  actionsOfExtension iterate e url flags d acc =
  '(finalActions, saw) ← collect_actions (cc_actions (m_compiledExtension e)) (m_identifier e1)
     (reverse (sorted_locations iterate A B (m_universalActionsWithoutDomains e1) (m_cachedUniversalDomainActions e1))) acc;
  Some (e1, if saw : bool then finalActions else finalActions ++ [sheet_action e1]).
Proof.
  intros HA Hp HB. unfold actionsOfExtension. cbv zeta. rewrite HA, option_bind_Some.
  unfold cachedDomainActions. rewrite Hp, !option_bind_Some, HB, option_bind_Some.
  unfold universalActionsWithDomains. by rewrite (populate_again _ _ _ Hp), !option_bind_Some.
Qed.

Lemma extension_universal (e : Ext) W :
  extension_ok e -> itemized (cc_actions (m_compiledExtension e)) -> vlen (cc_actions (m_compiledExtension e)) < 2 ^ 32 ->
  actionsMatchingEverything (filtersWithoutDomainsBytecode (m_compiledExtension e)) None = Some W ->
  Forall (located (cc_actions (m_compiledExtension e))) (map u32 (iterate W)) ->
  (forall l, l ∈ m_universalActionsWithoutDomains e -> l ∈ map u32 (iterate W)) /\
  (forall l, l ∈ map u32 (iterate W) -> l ∉ m_universalActionsWithoutDomains e ->
     selects_at (cc_actions (m_compiledExtension e)) l /\
     forall l', located (cc_actions (m_compiledExtension e)) l' -> ignores_at (cc_actions (m_compiledExtension e)) l' -> l < l').
Proof.
  intros [(e0 & He0 & _ & -> & _) _] Hit Hsize HW Hl. unfold createExtension in He0. rewrite HW, option_bind_Some in He0.
  destruct (actionsMatchingEverything (filtersWithDomainsBytecode _) None) as [D|]; [|done]. rewrite option_bind_Some in He0.
  destruct (compileGlobal_spec _ Hit Hsize (map u32 (iterate W)) Hl) as (sheet & rest & E & Hsub & Hrem).
  rewrite E in He0. cbn in He0. injection He0 as <-. cbn. auto.
Qed.

Lemma action_at_inj actions id l l' :
  vlen actions < 2 ^ 32 -> located actions l -> located actions l' -> action_at actions id l = action_at actions id l' -> l = l'.
Proof.
  intros Hsize Hl Hl' Heq.
  destruct (located_action _ id Hsize l Hl) as (t & s & _ & _ & Ha & _).
  destruct (located_action _ id Hsize l' Hl') as (t' & s' & _ & _ & Ha' & _).
  rewrite Ha, Ha' in Heq. by injection Heq.
Qed.

(** Moving locations below everything that ignores does not change what is effective, as long as they are
    delivered exactly when nothing ignores. *)
Lemma effective_moved actions (L L' : list Z) (moved : Z -> Prop) (saw : bool) l :
  (forall l, l ∈ L -> located actions l) -> (forall l, l ∈ L' -> l ∈ L) -> (forall l, moved l -> l ∈ L) ->
  (forall l, l ∈ L -> l ∉ L' -> moved l) ->
  (forall l, moved l -> ~ ignores_at actions l /\ forall l', located actions l' -> ignores_at actions l' -> l < l') ->
  (saw = true <-> exists l, l ∈ L' /\ ignores_at actions l) ->
  effective actions L l <-> effective actions L' l \/ (moved l /\ saw = false).
Proof.
  intros HL HLL Hmoved Hlost Hbelow Hsaw. unfold effective.
  assert (Hsame : forall l, ignores_at actions l -> l ∈ L -> l ∈ L').
  { intros l0 Hi Hl. destruct (decide (l0 ∈ L')) as [|Hn]; [done|]. by destruct (Hbelow l0 (Hlost l0 Hl Hn)). }
  split.
  - intros [Hl Habove]. destruct (decide (l ∈ L')) as [Hl'|Hn]; [left; split; [done|]; intros; apply Habove; auto|right].
    split; [by apply Hlost|]. apply not_true_is_false. intros (l' & Hl' & Hi)%Hsaw.
    destruct (Hbelow l (Hlost l Hl Hn)) as [_ Hlt]. specialize (Hlt l' (HL _ (HLL _ Hl')) Hi).
    specialize (Habove l' (HLL _ Hl') Hi). lia.
  - intros [[Hl Habove]|(Hm & Hs)].
    + split; [auto|]. intros l' Hl' Hi. apply Habove; auto.
    + split; [auto|]. intros l' Hl' Hi. exfalso. assert (saw = true) by (apply Hsaw; eauto). congruence.
Qed.

(** What the final list contains. *)
Lemma delivered actions (e : Ext) kept (saw : bool) :
  vlen actions < 2 ^ 32 -> (forall l, l ∈ kept -> located actions l) ->
  let acts := if saw then map (action_at actions (m_identifier e)) kept
              else map (action_at actions (m_identifier e)) kept ++ [sheet_action e] in
  (forall l, located actions l -> action_at actions (m_identifier e) l ∈ acts <-> l ∈ kept) /\
  (sheet_action e ∈ acts <-> saw = false).
Proof.
  intros Hsize Hk acts.
  assert (Hno : forall l, located actions l -> action_at actions (m_identifier e) l <> sheet_action e).
  { intros l Hl Heq. destruct (located_action _ (m_identifier e) Hsize l Hl) as (t & s & _ & _ & Ha & _ & Hns).
    rewrite Ha in Heq. by injection Heq. }
  assert (Hmap : forall l, located actions l -> action_at actions (m_identifier e) l ∈ map (action_at actions (m_identifier e)) kept <-> l ∈ kept).
  { intros l Hl. rewrite list_elem_of_In, in_map_iff. split; [|intros Hin; exists l; by rewrite <- list_elem_of_In].
    intros (l' & Heq & Hl'%list_elem_of_In). by apply action_at_inj in Heq as ->; auto. }
  unfold acts. destruct saw.
  - split; [done|]. split; [|done]. rewrite list_elem_of_In, in_map_iff. intros (l & Heq & Hl%list_elem_of_In). by destruct (Hno l (Hk l Hl)).
  - split; [|rewrite elem_of_app, list_elem_of_singleton; tauto]. intros l Hl.
    rewrite elem_of_app, list_elem_of_singleton, Hmap by done. pose proof (Hno l Hl). tauto.
Qed.

(** The actions of one extension: the effective locations, some of them in the style sheet. *)
Lemma actionsOfExtension_spec (e e1 : Ext) url flags d A B W :
  extension_ok e -> itemized (cc_actions (m_compiledExtension e)) -> vlen (cc_actions (m_compiledExtension e)) < 2 ^ 32 ->
  interpret (filtersWithoutDomainsBytecode (m_compiledExtension e)) None url flags = Some A ->
  populateDomainCacheIfNeeded e d = Some e1 ->
  interpretWithDomains (filtersWithDomainsBytecode (m_compiledExtension e)) url flags (m_cachedDomainActions e1) = Some B ->
  actionsMatchingEverything (filtersWithoutDomainsBytecode (m_compiledExtension e)) None = Some W ->
  let actions := cc_actions (m_compiledExtension e) in
  let L := map u32 (iterate A) ++ map u32 (iterate B) ++ map u32 (iterate W) ++ m_cachedUniversalDomainActions e1 in
  Forall (located actions) L ->
  exists acts, actionsOfExtension iterate e url flags d [] = Some (e1, acts) /\
    (forall l, located actions l ->
      (effective actions L l <->
       action_at actions (m_identifier e) l ∈ acts \/
       (l ∈ map u32 (iterate W) /\ l ∉ m_universalActionsWithoutDomains e /\ sheet_action e ∈ acts))) /\
    (forall a, a ∈ acts -> a = sheet_action e \/ exists l, l ∈ L /\ a = action_at actions (m_identifier e) l) /\
    (forall l, l ∈ map u32 (iterate W) -> l ∉ m_universalActionsWithoutDomains e -> selects_at actions l).
Proof.
  intros Hok Hit Hsize HA Hp HB HW actions L HL.
  destruct (populate_ok _ _ _ Hok Hp) as (_ & Hid & _ & Hu & _ & _).
  assert (HLW : Forall (located actions) (map u32 (iterate W))) by (unfold L in HL; rewrite !Forall_app in HL; tauto).
  destruct (extension_universal e W Hok Hit Hsize HW HLW) as [Hsub Hrem]. fold actions in Hrem.
  rewrite (actionsOfExtension_eq _ _ _ _ _ _ _ _ HA Hp HB), Hid, Hu. fold actions.
  assert (Hse : sheet_action e1 = sheet_action e) by (unfold sheet_action; by rewrite Hid). rewrite Hse.
  unfold sorted_locations. set (L' := _ ++ _ ++ m_universalActionsWithoutDomains e ++ _).
  rewrite Forall_forall in HL.
  assert (HLL : forall l, l ∈ L' -> l ∈ L) by (intros l; unfold L, L'; rewrite !elem_of_app; pose proof (Hsub l); tauto).
  assert (HL' : Forall (located actions) L') by (rewrite Forall_forall; auto).
  destruct (collect_sorted actions (m_identifier e) Hsize L' [] HL') as (kept & saw & -> & Hkept & Hsaw).
  rewrite option_bind_Some. eexists. split; [done|]. cbn [app]. split_and!.
  3: { intros l Hl Hn. by apply Hrem. }
  2: { intros a Ha. assert (Hk : a ∈ map (action_at actions (m_identifier e)) kept \/ a = sheet_action e) by (destruct saw; [by left|]; by rewrite elem_of_app, list_elem_of_singleton in Ha).
       destruct Hk as [(l & -> & [Hl _]%Hkept)%list_elem_of_fmap_1| ->]; [right; exists l; auto|by left]. }
  intros l Hloc.
  destruct (delivered actions e kept saw Hsize) as [Hin Hsheet].
  { intros l' [Hl' _]%Hkept. auto. }
  rewrite (Hin l Hloc), Hsheet, Hkept.
  rewrite (effective_moved actions L L' (fun l => l ∈ map u32 (iterate W) /\ l ∉ m_universalActionsWithoutDomains e) saw l); try done.
  - tauto.
  - intros l' [HlW _]. unfold L. rewrite !elem_of_app. auto.
  - intros l'. unfold L, L'. rewrite !elem_of_app. tauto.
  - intros l' [HlW Hln]. destruct (Hrem l' HlW Hln) as [Hs Hb]. split; [by apply selects_not_ignores|done].
Qed.

(** C31: what a load gets from one extension is exactly the matched actions above the
    last matched ignore-previous-rules action, although the universal
    selectors were moved into a style sheet when the extension was created: a
    matched location is effective if and only if its action is in the result,
    or it was moved and the style sheet is in the result. *)
Theorem actionsOfExtension_correct (e e1 : Ext) url flags d A B W :
  extension_ok e -> itemized (cc_actions (m_compiledExtension e)) -> vlen (cc_actions (m_compiledExtension e)) < 2 ^ 32 ->
  interpret (filtersWithoutDomainsBytecode (m_compiledExtension e)) None url flags = Some A ->
  populateDomainCacheIfNeeded e d = Some e1 ->
  interpretWithDomains (filtersWithDomainsBytecode (m_compiledExtension e)) url flags (m_cachedDomainActions e1) = Some B ->
  actionsMatchingEverything (filtersWithoutDomainsBytecode (m_compiledExtension e)) None = Some W ->
  let actions := cc_actions (m_compiledExtension e) in
  let L := map u32 (iterate A) ++ map u32 (iterate B) ++ map u32 (iterate W) ++ m_cachedUniversalDomainActions e1 in
  Forall (located actions) L ->
  exists acts, actionsOfExtension iterate e url flags d [] = Some (e1, acts) /\
    forall l, located actions l ->
      (effective actions L l <->
       action_at actions (m_identifier e) l ∈ acts \/
       (l ∈ map u32 (iterate W) /\ l ∉ m_universalActionsWithoutDomains e /\ sheet_action e ∈ acts)).
Proof.
  intros Hok Hit Hsize HA Hp HB HW actions L HL. destruct (actionsOfExtension_spec e e1 url flags d A B W Hok Hit Hsize HA Hp HB HW HL) as (acts & Ha & Hl & _). by exists acts.
Qed.

(** ** The backend as a state machine *)

Inductive backend_step : Backend StyleSheet -> Backend StyleSheet -> Prop :=
| step_add b id compiled b' : addContentExtension parseString iterate b id compiled = Some b' -> backend_step b b'
| step_remove b id : backend_step b (removeContentExtension b id)
| step_removeAll b : backend_step b (removeAllContentExtensions b)
| step_load b info b' acts : actionsForResourceLoad canAccess iterate identifiers b info = Some (b', acts) -> backend_step b b'
| step_process b request type frame loading b' effects :
    processContentExtensionRulesForLoad canAccess iterate identifiers b request type frame loading = Some (b', effects) ->
    backend_step b b'.

Inductive reachable : Backend StyleSheet -> Prop :=
| reachable_empty : reachable ∅
| reachable_step b b' : reachable b -> backend_step b b' -> reachable b'.

Definition backend_ok (b : Backend StyleSheet) : Prop :=
  forall id e, b !! id = Some e -> extension_ok e /\ characters (m_identifier e) = id.

Lemma backend_ok_insert (b : Backend StyleSheet) id e :
  backend_ok b -> extension_ok e -> characters (m_identifier e) = id -> backend_ok (<[id := e]> b).
Proof.
  unfold backend_ok. unfold Backend in b |- *. intros Hb He Hid id' e'. rewrite lookup_insert.
  case_decide; [intros [= <-]; by subst|apply Hb].
Qed.

Lemma backend_ok_remove (b : Backend StyleSheet) id : backend_ok b -> backend_ok (removeContentExtension b id).
Proof.
  unfold backend_ok, removeContentExtension. unfold Backend in b |- *. intros Hb id' e'. rewrite lookup_delete_Some.
  intros [_ He]. by apply Hb.
Qed.

Lemma backend_ok_empty : backend_ok (∅ : gmap _ _).
Proof. intros id e. unfold Backend. by rewrite lookup_empty. Qed.

Lemma actionsOfExtension_inv (e e' : Ext) url flags d acc acts :
  actionsOfExtension iterate e url flags d acc = Some (e', acts) -> populateDomainCacheIfNeeded e d = Some e'.
Proof.
  unfold actionsOfExtension. cbv zeta. destruct (interpret _ None url flags) as [A|]; [|done]. rewrite option_bind_Some.
  unfold cachedDomainActions. destruct (populateDomainCacheIfNeeded e d) as [e1|] eqn:Hp; [|done]. rewrite !option_bind_Some.
  destruct (interpretWithDomains _ url flags _) as [B|]; [|done]. rewrite option_bind_Some.
  unfold universalActionsWithDomains. rewrite (populate_again _ _ _ Hp), !option_bind_Some.
  destruct (collect_actions _ _ _ acc) as [[final saw]|]; [|done]. rewrite option_bind_Some. by intros [= -> _].
Qed.

Lemma actions_loop_ok ids : forall (b b' : Backend StyleSheet) url flags d acc acts,
  backend_ok b -> actions_loop iterate b ids url flags d acc = Some (b', acts) -> backend_ok b'.
Proof.
  induction ids as [|id ids IH]; intros b b' url flags d acc acts Hb; cbn [actions_loop]; [by intros [= <- _]|].
  destruct (b !! id) as [e|] eqn:He; [|done]. rewrite option_bind_Some.
  destruct (actionsOfExtension iterate e url flags d acc) as [[e' acc']|] eqn:Ha; [|done]. rewrite option_bind_Some.
  destruct (Hb id e He) as [Hok Hid]. apply actionsOfExtension_inv in Ha.
  destruct (populate_ok _ _ _ Hok Ha) as (Hok' & Hid' & _). apply IH. apply backend_ok_insert; [done|done|congruence].
Qed.

Lemma actionsForResourceLoad_ok (b b' : Backend StyleSheet) info acts :
  backend_ok b -> actionsForResourceLoad canAccess iterate identifiers b info = Some (b', acts) -> backend_ok b'.
Proof.
  intros Hb. unfold actionsForResourceLoad. destruct (protocolIsData _); [by intros [= <- _]|].
  destruct (utf8 _) as [url|]; [|done]. rewrite option_bind_Some. by apply actions_loop_ok.
Qed.

Lemma backend_step_ok b b' : backend_ok b -> backend_step b b' -> backend_ok b'.
Proof.
  intros Hb Hs. revert Hb.
  destruct Hs as [b1 id compiled b2 Ha|b1 id|b1|b1 info b2 acts Ha|b1 request type frame loading b2 effects Ha]; intros Hb.
  - unfold addContentExtension in Ha. case_bool_decide; [by injection Ha as <-|]. destruct compiled as [c|].
    + destruct (createExtension parseString iterate id c) as [e|] eqn:Hc; [|done]. rewrite option_bind_Some in Ha.
      injection Ha as <-. destruct (createExtension_ok _ _ _ Hc) as (He & Hid & _ & _).
      apply backend_ok_insert; [done|done|by rewrite Hid].
    + injection Ha as <-. by apply backend_ok_remove.
  - by apply backend_ok_remove.
  - apply backend_ok_empty.
  - by eapply actionsForResourceLoad_ok.
  - unfold processContentExtensionRulesForLoad in Ha. cbv zeta in Ha.
    destruct (actionsForResourceLoad _ _ _ _ _) as [[b3 acts]|] eqn:Hl; [|done]. rewrite option_bind_Some in Ha.
    destruct (apply_actions _ _ _ _ acts) as [[block effs]|]; [|done]. rewrite option_bind_Some in Ha. injection Ha as <- _.
    by eapply actionsForResourceLoad_ok.
Qed.

Lemma populate_fresh (e e' : Ext) d :
  extension_ok e -> populateDomainCacheIfNeeded e (Some d) = Some e' ->
  wf_string d -> (forall d', m_cachedDomain e = Some d' -> wf_string d') ->
  exists domainBytes, utf8 (Some d) = Some domainBytes /\
    interpret (domainFiltersBytecode (m_compiledExtension e)) None domainBytes allLoadTypesAndResourceTypes
      = Some (m_cachedDomainActions e') /\
    m_cachedUniversalDomainActions e' = matching_universal (m_cachedDomainActions e') (m_universalActionsWithDomains e).
Proof.
  intros [_ Hc] Hp Hd Hd'. apply populate_cases in Hp as [[Hs ->]|(bs & D & Hbs & HD & ->)]; [|by exists bs].
  destruct (m_cachedDomain e) as [d0|] eqn:Ed; [|done]. cbn in Hs.
  destruct Hc as [(? & _)|(bs & Hbs & HD & HU)]; [congruence|]. exists bs. rewrite Ed in Hbs.
  rewrite <- (utf8_same_characters d0 d) by auto. done.
Qed.

(** What a cache fill leaves alone. *)
Definition as_created (e e0 : Ext) : Prop :=
  m_identifier e = m_identifier e0 /\ m_compiledExtension e = m_compiledExtension e0
  /\ m_globalDisplayNoneStyleSheet e = m_globalDisplayNoneStyleSheet e0
  /\ m_universalActionsWithoutDomains e = m_universalActionsWithoutDomains e0
  /\ m_universalActionsWithDomains e = m_universalActionsWithDomains e0.

Lemma populate_as_created (e e' e0 : Ext) d : populateDomainCacheIfNeeded e d = Some e' -> as_created e e0 -> as_created e' e0.
Proof. intros [[_ ->]|(bs & D & _ & _ & ->)]%populate_cases; done. Qed.

Lemma extension_as_created (e : Ext) :
  extension_ok e -> exists e0, createExtension parseString iterate (m_identifier e) (m_compiledExtension e) = Some e0 /\ as_created e e0.
Proof.
  intros [(e0 & He0 & Hg & Hu & Hv) _]. exists e0. split; [done|]. unfold createExtension in He0.
  destruct (actionsMatchingEverything (filtersWithoutDomainsBytecode _) None) as [A|]; [|done].
  destruct (actionsMatchingEverything (filtersWithDomainsBytecode _) None) as [B|]; [|done]. rewrite !option_bind_Some in He0.
  destruct (compileGlobalDisplayNoneStyleSheet _ _ _) as [[sheet rest]|]; [|done]. rewrite option_bind_Some in He0.
  injection He0 as <-. done.
Qed.

(** C32: in every state of the backend reachable by adding and removing extensions
    and by loads, an extension is stored under its own identifier.  Its style
    sheet and its two lists of universal actions are those computed when it was
    created, also after its domain cache is filled again.  Asked for a non-null
    domain, its cache is not stale, whatever was asked before: it has what the
    domain filters say about that domain, and of the universal actions with
    domains, as created, those whose condition holds.  (A null domain is the
    exception: it is not evaluated as long as no domain is cached.) *)
Theorem domain_cache_invariant b id (e e' : Ext) d :
  reachable b -> b !! id = Some e -> populateDomainCacheIfNeeded e (Some d) = Some e' ->
  wf_string d -> (forall d', m_cachedDomain e = Some d' -> wf_string d') ->
  characters (m_identifier e) = id /\
  exists e0, createExtension parseString iterate (m_identifier e) (m_compiledExtension e) = Some e0 /\
    as_created e e0 /\ as_created e' e0 /\
    exists domainBytes, utf8 (Some d) = Some domainBytes /\
      interpret (domainFiltersBytecode (m_compiledExtension e)) None domainBytes allLoadTypesAndResourceTypes
        = Some (m_cachedDomainActions e') /\
      m_cachedUniversalDomainActions e' = matching_universal (m_cachedDomainActions e') (m_universalActionsWithDomains e0).
Proof.
  intros Hr He Hp Hd Hd'. assert (Hb : backend_ok b).
  { clear -Hr. induction Hr as [|b b' _ IH Hs]; [apply backend_ok_empty|by eapply backend_step_ok]. }
  destruct (Hb id e He) as [Hok Hid]. destruct (extension_as_created e Hok) as (e0 & He0 & Hc). split; [done|]. exists e0.
  split; [done|]. split; [done|]. split; [by eapply populate_as_created|].
  destruct Hc as (_ & _ & _ & _ & <-). by apply populate_fresh.
Qed.

(** C33: a new extension asked for a null domain, the host of a null main document
    URL, never evaluates its domain filters: it has no universal action with
    a domain condition to apply, not even those of unless-domain rules. *)
Theorem null_domain_not_evaluated id c (e : Ext) :
  createExtension parseString iterate id c = Some e ->
  universalActionsWithDomains e None = Some (e, []) /\ cachedDomainActions e None = Some (e, ∅).
Proof.
  intros Hc. unfold createExtension in Hc.
  destruct (actionsMatchingEverything (filtersWithoutDomainsBytecode c) None) as [A|]; [|done].
  destruct (actionsMatchingEverything (filtersWithDomainsBytecode c) None) as [B|]; [|done]. rewrite !option_bind_Some in Hc.
  destruct (compileGlobalDisplayNoneStyleSheet _ _ _) as [[sheet rest]|]; [|done]. rewrite option_bind_Some in Hc.
  injection Hc as <-. done.
Qed.

(** ** Applying the actions *)

(** The action types [processContentExtensionRulesForLoad] handles. *)
Definition applicable (a : Action) : Prop := action_type a <> IgnorePreviousRules /\ action_type a <> InvalidAction.

Lemma deserialize_valid actions len l a : deserialize actions len l = Some a -> action_type a <> InvalidAction.
Proof.
  unfold deserialize. destruct (Z.ltb_spec l len); [|done]. destruct (actions.[l]) as [code|]; [|done]. rewrite option_bind_Some.
  destruct (ActionType_of code) as [type|]; [|done]. rewrite option_bind_Some.
  destruct type; try done; try (intros [= <-]; done). destruct (Z.leb_spec (u32 (l + headerLength)) len); [|done].
  destruct (load 4 actions (l + 1)) as [n|]; [|done]. rewrite option_bind_Some.
  destruct (actions.[l + 1 + 4]) as [w|]; [|done]. rewrite option_bind_Some. cbv zeta. case_match; [|done].
  destruct (read_characters _ _ _ _) as [cs|]; [|done]. rewrite option_bind_Some. intros [= <-]. done.
Qed.

Lemma collect_applicable actions id ls : forall acc final saw,
  Forall applicable acc -> collect_actions actions id ls acc = Some (final, saw) -> Forall applicable final.
Proof.
  induction ls as [|l ls IH]; intros acc final saw Hacc; cbn [collect_actions]; [by intros [= <- _]|].
  destruct (deserialize actions (vlen actions) l) as [a|] eqn:Hd; [|done]. rewrite option_bind_Some. cbv zeta.
  case_decide as Hi; [by intros [= <- _]|]. apply IH. apply Forall_app. split; [done|]. constructor; [|constructor].
  split; [done|]. cbn. by eapply deserialize_valid.
Qed.

Lemma actions_loop_applicable ids : forall (b b' : Backend StyleSheet) url flags d acc acts,
  Forall applicable acc -> actions_loop iterate b ids url flags d acc = Some (b', acts) -> Forall applicable acts.
Proof.
  induction ids as [|id ids IH]; intros b b' url flags d acc acts Hacc; cbn [actions_loop]; [by intros [= _ <-]|].
  destruct (b !! id) as [e|]; [|done]. rewrite option_bind_Some.
  destruct (actionsOfExtension iterate e url flags d acc) as [[e' acc']|] eqn:Ha; [|done]. rewrite option_bind_Some.
  apply IH. unfold actionsOfExtension in Ha. cbv zeta in Ha.
  destruct (interpret _ None url flags) as [A|]; [|done]. rewrite option_bind_Some in Ha.
  destruct (cachedDomainActions e d) as [[e1 D]|]; [|done]. rewrite option_bind_Some in Ha.
  destruct (interpretWithDomains _ url flags D) as [B|]; [|done]. rewrite option_bind_Some in Ha.
  destruct (universalActionsWithDomains e1 d) as [[e2 U]|]; [|done]. rewrite option_bind_Some in Ha.
  destruct (collect_actions _ _ _ acc) as [[final saw]|] eqn:Hc; [|done]. rewrite option_bind_Some in Ha. injection Ha as _ <-.
  apply collect_applicable in Hc; [|done]. destruct saw; [done|]. apply Forall_app. split; [done|]. by constructor.
Qed.

Lemma actionsForResourceLoad_applicable (b b' : Backend StyleSheet) info acts : actionsForResourceLoad canAccess iterate identifiers b info = Some (b', acts) -> Forall applicable acts.
Proof.
  unfold actionsForResourceLoad. destruct (protocolIsData _); [intros [= _ <-]; constructor|].
  destruct (utf8 _) as [url|]; [|done]. rewrite option_bind_Some. apply actions_loop_applicable. constructor.
Qed.

Lemma apply_actions_spec (b : Backend StyleSheet) type doc acts : forall will,
  Forall applicable acts -> exists effects,
  apply_actions b type doc will acts = Some (will || existsb (fun a => bool_decide (action_type a = BlockLoad)) acts, effects) /\
  (SetAllowCookies false ∈ effects <-> exists a, a ∈ acts /\ action_type a = BlockCookies) /\ ClearRequest ∉ effects.
Proof.
  induction acts as [|a acts IH]; intros will Hf; cbn [apply_actions existsb].
  - exists []. rewrite orb_false_r. split_and!; [done| |by apply not_elem_of_nil].
    split; [by intros ?%elem_of_nil|]. intros (a & ?%elem_of_nil & _). done.
  - inversion Hf as [|? ? [Hi Hv] Hf']; subst.
    assert (Ha : exists effs, apply_action b type doc a = Some (bool_decide (action_type a = BlockLoad), effs) /\
              (SetAllowCookies false ∈ effs <-> action_type a = BlockCookies) /\ ClearRequest ∉ effs).
    { unfold apply_action. destruct (action_type a) eqn:Et; try done; eexists; (split; [done|]);
        repeat case_match; set_solver. }
    destruct Ha as (effs & -> & Hc & Hn). rewrite option_bind_Some.
    destruct (IH (will || bool_decide (action_type a = BlockLoad)) Hf') as (rest & -> & Hc' & Hn'). rewrite option_bind_Some.
    exists (effs ++ rest). rewrite orb_assoc. split_and!; [done| |by rewrite elem_of_app; tauto].
    rewrite elem_of_app, Hc, Hc'. setoid_rewrite elem_of_cons. naive_solver.
Qed.

(** C34: once the actions of a load are known they are applied without reaching the
    assertions for impossible actions; the request is cleared if and only if
    some action blocks the load, and cookies are disallowed if and only if
    some action blocks them. *)
Theorem processContentExtensionRulesForLoad_correct (b b' : Backend StyleSheet) request type frame loading acts :
  actionsForResourceLoad canAccess iterate identifiers b
    (mkLoad request (mainDocumentURL_for frame loading request type) type) = Some (b', acts) ->
  exists effects, processContentExtensionRulesForLoad canAccess iterate identifiers b request type frame loading = Some (b', effects) /\
    (ClearRequest ∈ effects <-> exists a, a ∈ acts /\ action_type a = BlockLoad) /\
    (SetAllowCookies false ∈ effects <-> exists a, a ∈ acts /\ action_type a = BlockCookies).
Proof.
  intros Hl. unfold processContentExtensionRulesForLoad. cbv zeta. rewrite Hl, option_bind_Some.
  pose proof (actionsForResourceLoad_applicable b b' _ acts Hl) as Hf.
  set (doc := match frame with Some frame => has_document frame | None => false end).
  destruct (apply_actions_spec b' type doc acts false Hf) as (effects & -> & Hc & Hn). rewrite option_bind_Some. cbn [orb].
  eexists. split; [done|].
  assert (Hb : existsb (fun a => bool_decide (action_type a = BlockLoad)) acts = true <-> exists a, a ∈ acts /\ action_type a = BlockLoad).
  { rewrite existsb_exists. setoid_rewrite <- list_elem_of_In. by setoid_rewrite bool_decide_eq_true. }
  rewrite <- Hb, <- Hc, !elem_of_app. destruct (existsb _ acts), doc; set_solver.
Qed.
End Claims.

(** ** Witnesses *)

Module ExtensionExample.

#[local] Instance host : Host := {| host_big_endian := false |}.

(** A selector that matches everything, a block action, an ignore-previous-rules
    action, and a cookie action for an unless-domain rule that matches everything. *)
Definition items : list item :=
  [SelectorItem (mkWString true [97]); SimpleItem BlockLoad; SimpleItem IgnorePreviousRules; SimpleItem BlockCookies].

Definition without_dfa : DFA := mkDFA [mkDFANode 0 0 1 1 0; mkDFANode 1 1 1 0 0] [0; 7] [mkCharRange 120 120] [1] 0.
Definition with_dfa : DFA := mkDFA [mkDFANode 0 0 1 0 0] [9] [] [] 0.
Definition domain_dfa : DFA := mkDFA [mkDFANode 0 0 0 0 0] [] [] [] 0.

Definition compiled : CompiledContentExtension :=
  mkCompiled (flat items) (default [] (compile without_dfa [])) (default [] (compile with_dfa []))
    (default [] (compile domain_dfa [])).

(** A CSS engine that keeps the text. *)
Definition parse (css : WString) : option WString := Some css.
Definition same_origin (a b : URL) : bool := true.
Definition order (s : gset Z) : list Z := elements s.
Definition ids (b : Backend WString) : list (list Z) := map fst (map_to_list (b : gmap (list Z) (ContentExtension WString))).

Definition id : WString := mkWString true [101].
Definition extension : ContentExtension WString :=
  default (mkExtension id compiled None None ∅ [] [] []) (createExtension parse order id compiled).

Lemma created : createExtension parse order id compiled = Some extension.
Proof. vm_compute. reflexivity. Qed.

Definition domain : WString := mkWString true [100].
Definition url : list Z := [120].
Definition visited : ContentExtension WString := default extension (populateDomainCacheIfNeeded extension (Some domain)).

Lemma visited_eq : populateDomainCacheIfNeeded extension (Some domain) = Some visited.
Proof. vm_compute. reflexivity. Qed.

Lemma items_ok : Forall item_ok items.
Proof. unfold items. repeat (apply Forall_cons; split; [cbn; try done; set_solver|]). by apply Forall_nil. Qed.

Lemma items_wf : Forall item_wf items.
Proof.
  apply List.Forall_cons; [|by repeat apply List.Forall_cons]. apply List.Forall_cons; [cbn; lia|]. apply List.Forall_nil.
Qed.

Lemma located_all : Forall (located (cc_actions compiled)) [7; 0; 9].
Proof.
  change (cc_actions compiled) with (flat items).
  change [7; 0; 9] with (map (fun k => vlen (flat (take k items))) [1; 0; 3]%nat).
  repeat (apply List.Forall_cons; [by eapply located_item; [reflexivity|exact items_ok|exact items_wf]|]). apply List.Forall_nil.
Qed.

Lemma extension_is_ok : extension_ok parse order extension.
Proof. apply (createExtension_ok _ _ _ _ _ created). Qed.

Definition matched : list Z :=
  map u32 (order {[7]}) ++ map u32 (order ∅) ++ map u32 (order {[0]}) ++ m_cachedUniversalDomainActions visited.

Lemma matched_eq : matched = [7; 0; 9] /\ m_compiledExtension extension = compiled.
Proof. vm_compute. by split. Qed.

Lemma actionsOfExtension_correct_witness :
  exists acts, actionsOfExtension order extension url 1 (Some domain) [] = Some (visited, acts) /\
    forall l, located (cc_actions (m_compiledExtension extension)) l ->
      (effective (cc_actions (m_compiledExtension extension)) matched l <->
       action_at (cc_actions (m_compiledExtension extension)) (m_identifier extension) l ∈ acts \/
       (l ∈ map u32 (order {[0]}) /\ l ∉ m_universalActionsWithoutDomains extension /\ sheet_action extension ∈ acts)).
Proof.
  apply (actionsOfExtension_correct parse order extension visited url 1 (Some domain) {[7]} ∅ {[0]}).
  - exact extension_is_ok.
  - destruct matched_eq as [_ ->]. exists items. split; [reflexivity|exact items_ok].
  - vm_compute. reflexivity.
  - vm_compute. reflexivity.
  - exact visited_eq.
  - vm_compute. reflexivity.
  - vm_compute. reflexivity.
  - fold matched. destruct matched_eq as [-> ->]. exact located_all.
Defined.

Lemma null_domain_not_evaluated_witness :
  universalActionsWithDomains extension None = Some (extension, []) /\ cachedDomainActions extension None = Some (extension, ∅).
Proof. exact (null_domain_not_evaluated parse order id compiled extension created). Defined.

(** The same question after another domain was cached: the unless-domain action applies. *)
Lemma null_domain_later :
  option_map snd (universalActionsWithDomains visited None) = Some [9].
Proof. vm_compute. reflexivity. Qed.

Definition backend : Backend WString := <[characters id := extension]> (∅ : gmap (list Z) (ContentExtension WString)).

Lemma backend_reachable : reachable parse same_origin order ids backend.
Proof.
  eapply reachable_step; [apply reachable_empty|]. eapply (step_add _ _ _ _ _ id (Some compiled)).
  unfold addContentExtension. rewrite bool_decide_eq_false_2 by done. by rewrite created.
Qed.

Lemma domain_cache_invariant_witness :
  characters (m_identifier extension) = [101] /\
  exists e0, createExtension parse order (m_identifier extension) (m_compiledExtension extension) = Some e0 /\
    as_created extension e0 /\ as_created visited e0 /\
    exists domainBytes, utf8 (Some domain) = Some domainBytes /\
      interpret (domainFiltersBytecode (m_compiledExtension extension)) None domainBytes allLoadTypesAndResourceTypes
        = Some (m_cachedDomainActions visited) /\
      m_cachedUniversalDomainActions visited = matching_universal (m_cachedDomainActions visited) (m_universalActionsWithDomains e0).
Proof.
  apply (domain_cache_invariant parse same_origin order ids backend [101] extension visited domain).
  - exact backend_reachable.
  - unfold backend, Backend. by rewrite lookup_insert_eq.
  - exact visited_eq.
  - unfold wf_string. cbn. apply Forall_cons. split; [lia|]. by apply Forall_nil.
  - intros d'. vm_compute. discriminate.
Defined.

Definition page : URL := mkURL (mkWString true [120]) false (Some domain).

Lemma processContentExtensionRulesForLoad_correct_witness :
  exists b' acts effects,
    actionsForResourceLoad same_origin order ids backend (mkLoad page page Type_Document) = Some (b', acts) /\
    processContentExtensionRulesForLoad same_origin order ids backend page Type_Document (Some (mkFrame true true None)) true
      = Some (b', effects) /\
    (ClearRequest ∈ effects <-> exists a, a ∈ acts /\ action_type a = BlockLoad) /\
    (SetAllowCookies false ∈ effects <-> exists a, a ∈ acts /\ action_type a = BlockCookies).
Proof.
  destruct (actionsForResourceLoad same_origin order ids backend (mkLoad page page Type_Document)) as [[b' acts]|] eqn:E;
    [|by vm_compute in E].
  destruct (processContentExtensionRulesForLoad_correct same_origin order ids backend b' page Type_Document
              (Some (mkFrame true true None)) true acts E) as (effects & He).
  exists b', acts, effects. split; [reflexivity|exact He].
Defined.
End ExtensionExample.
