(* ===== verification/DocumentSheets.v ===== *)
(** * The style sheets of a document (ContentExtensionStyleSheet.h/.cpp, the content extension parts of
      dom/ExtensionStyleSheets.h/.cpp and loader/DocumentLoader.h/.cpp)

    What happens to the calls that are made for the actions of a load.  The
    sheets of a document are objects that are shared: the list of user style
    sheets refers to sheets that get more rules later, so they are kept in a
    heap.  A sheet is what its parser was given; the CSS engine is not modelled.

    While the main resource of a document is loaded, the calls are collected in
    the loader and made when the first data arrive.  A hash map is iterated in
    some order, which is a parameter. *)

From stdpp Require Import gmap.
From S2P Require Import Prelude Actions Utf8 ContentExtension ExtensionCorrect ExtensionClaims.

(** ** The state *)

(** The contents of a sheet: the texts parsed into it, or contents it shares with an extension. *)
Inductive StyleSheetContents (StyleSheet : Type) := Parsed (texts : list WString) | Shared (sheet : StyleSheet).
Arguments Parsed {StyleSheet}.
Arguments Shared {StyleSheet}.

(** The sheet and the identifiers of the selectors in it. *)
Record ContentExtensionStyleSheet := mkSelectorSheet { m_styleSheet : nat; m_addedSelectorIDs : gset Z }.

Record ExtensionStyleSheets (StyleSheet : Type) := mkSheets {
  heap : list (StyleSheetContents StyleSheet);
  m_userStyleSheets : list nat;
  m_contentExtensionSheets : gmap (list Z) nat;
  m_contentExtensionSelectorSheets : gmap (list Z) ContentExtensionStyleSheet;
  m_styleResolverChangedTimer : bool
}.
Arguments mkSheets {StyleSheet}.
Arguments heap {StyleSheet}.
Arguments m_userStyleSheets {StyleSheet}.
Arguments m_contentExtensionSheets {StyleSheet}.
Arguments m_contentExtensionSelectorSheets {StyleSheet}.
Arguments m_styleResolverChangedTimer {StyleSheet}.

Record DocumentLoader (StyleSheet : Type) := mkLoader {
  m_pendingNamedContentExtensionStyleSheets : gmap (list Z) StyleSheet;
  m_pendingContentExtensionDisplayNoneSelectors : gmap (list Z) (list (WString * Z))
}.
Arguments mkLoader {StyleSheet}.
Arguments m_pendingNamedContentExtensionStyleSheets {StyleSheet}.
Arguments m_pendingContentExtensionDisplayNoneSelectors {StyleSheet}.

Section Sheets.
Context {StyleSheet : Type}.

Abbreviation Sheets := (ExtensionStyleSheets StyleSheet).
Abbreviation Loader := (DocumentLoader StyleSheet).

(** ** Operations *)

(** The hash table of identifiers has two values for its own use. *)
Definition maxSelectorID : Z := 4294967294.

Definition selectorRule (selector : WString) : WString := builder_append (builder_append (builder_append selector openBrace) displayNoneCSSRule) closeBrace.

(** [StyleSheetContents::parseString]: the rules are appended. *)
Definition parseInto (h : list (StyleSheetContents StyleSheet)) (sheet : nat) (css : WString) : list (StyleSheetContents StyleSheet) :=
  match h !! sheet with
  | Some (Parsed texts) => <[sheet := Parsed (texts ++ [css])]> h
  | _ => h
  end.

(** [ContentExtensionStyleSheet::addDisplayNoneSelector]. *)
Definition sheet_addDisplayNoneSelector (h : list (StyleSheetContents StyleSheet)) (s : ContentExtensionStyleSheet) (selector : WString) (selectorID : Z)
    : option (list (StyleSheetContents StyleSheet) * ContentExtensionStyleSheet) :=
  if negb (selectorID <? maxSelectorID) then None
  else if bool_decide (selectorID ∈ m_addedSelectorIDs s) then Some (h, s)
  else Some (parseInto h (m_styleSheet s) (selectorRule selector), mkSelectorSheet (m_styleSheet s) ({[selectorID]} ∪ m_addedSelectorIDs s)).

(** [ExtensionStyleSheets::addDisplayNoneSelector]: a sheet is created for the first selector. *)
Definition addDisplayNoneSelector (identifier : list Z) (selector : WString) (selectorID : Z) (d : Sheets) : option Sheets :=
  let '(h, user, s) :=
    match m_contentExtensionSelectorSheets d !! identifier with
    | Some s => (heap d, m_userStyleSheets d, s)
    | None => (heap d ++ [Parsed []], m_userStyleSheets d ++ [length (heap d)], mkSelectorSheet (length (heap d)) ∅)
    end in
  '(h, s) ← sheet_addDisplayNoneSelector h s selector selectorID;
  Some (mkSheets h user (m_contentExtensionSheets d) (<[identifier := s]> (m_contentExtensionSelectorSheets d)) true).

Definition maybeAddContentExtensionSheet (identifier : list Z) (sheet : StyleSheet) (d : Sheets) : Sheets :=
  match m_contentExtensionSheets d !! identifier with
  | Some _ => d
  | None =>
      mkSheets (heap d ++ [Shared sheet]) (m_userStyleSheets d ++ [length (heap d)])
        (<[identifier := length (heap d)]> (m_contentExtensionSheets d)) (m_contentExtensionSelectorSheets d) true
  end.

Definition addPendingContentExtensionSheet (identifier : list Z) (sheet : StyleSheet) (l : Loader) : Loader :=
  mkLoader (<[identifier := sheet]> (m_pendingNamedContentExtensionStyleSheets l)) (m_pendingContentExtensionDisplayNoneSelectors l).

Definition addPendingContentExtensionDisplayNoneSelector (identifier : list Z) (selector : WString) (selectorID : Z) (l : Loader) : Loader :=
  let selectors := default [] (m_pendingContentExtensionDisplayNoneSelectors l !! identifier) in
  mkLoader (m_pendingNamedContentExtensionStyleSheets l)
    (<[identifier := selectors ++ [(selector, selectorID)]]> (m_pendingContentExtensionDisplayNoneSelectors l)).

(** How the maps of the loader are iterated. *)
Variable order : forall V, gmap (list Z) V -> list (list Z * V).

Fixpoint add_sheets (sheets : list (list Z * StyleSheet)) (d : Sheets) : Sheets :=
  match sheets with
  | [] => d
  | (identifier, sheet) :: sheets => add_sheets sheets (maybeAddContentExtensionSheet identifier sheet d)
  end.

Fixpoint add_selectors (identifier : list Z) (selectors : list (WString * Z)) (d : Sheets) : option Sheets :=
  match selectors with
  | [] => Some d
  | (selector, selectorID) :: selectors =>
      d ← addDisplayNoneSelector identifier selector selectorID d;
      add_selectors identifier selectors d
  end.

Fixpoint add_all_selectors (entries : list (list Z * list (WString * Z))) (d : Sheets) : option Sheets :=
  match entries with
  | [] => Some d
  | (identifier, selectors) :: entries =>
      d ← add_selectors identifier selectors d;
      add_all_selectors entries d
  end.

(** The part of [DocumentLoader::commitData] for content extensions. *)
Definition commitData (l : Loader) (d : Sheets) : option (Loader * Sheets) :=
  let d := add_sheets (order _ (m_pendingNamedContentExtensionStyleSheets l)) d in
  d ← add_all_selectors (order _ (m_pendingContentExtensionDisplayNoneSelectors l)) d;
  Some (mkLoader ∅ ∅, d).

(** A call that was made for an action. *)
Definition run_effect (e : effect) (l : Loader) (d : Sheets) : option (Loader * Sheets) :=
  match e with
  | AddPendingDisplayNoneSelector identifier selector selectorID => Some (addPendingContentExtensionDisplayNoneSelector (characters identifier) selector selectorID l, d)
  | AddDisplayNoneSelector identifier selector selectorID => d ← addDisplayNoneSelector (characters identifier) selector selectorID d; Some (l, d)
  | AddPendingSheet identifier sheet => Some (addPendingContentExtensionSheet (characters identifier) sheet l, d)
  | MaybeAddSheet identifier sheet => Some (l, maybeAddContentExtensionSheet (characters identifier) sheet d)
  | SetAllowCookies _ | AddConsoleMessage | ClearRequest => Some (l, d)
  end.

Fixpoint run_effects (es : list effect) (l : Loader) (d : Sheets) : option (Loader * Sheets) :=
  match es with
  | [] => Some (l, d)
  | e :: es => '(l, d) ← run_effect e l d; run_effects es l d
  end.

(** ** What a document should have *)

(** The first selector with each identifier. *)
Fixpoint first_by_ID (seen : gset Z) (selectors : list (WString * Z)) : list WString :=
  match selectors with
  | [] => []
  | (selector, selectorID) :: selectors =>
      if bool_decide (selectorID ∈ seen) then first_by_ID seen selectors else selector :: first_by_ID ({[selectorID]} ∪ seen) selectors
  end.

(** The selectors and sheets of an extension in the calls, those for the document and those for the loader. *)
Definition selector_call (pending : bool) (identifier : list Z) (e : effect (StyleSheet := StyleSheet)) : option (WString * Z) :=
  match e with
  | AddPendingDisplayNoneSelector i selector selectorID => if pending && bool_decide (characters i = identifier) then Some (selector, selectorID) else None
  | AddDisplayNoneSelector i selector selectorID => if negb pending && bool_decide (characters i = identifier) then Some (selector, selectorID) else None
  | _ => None
  end.

Definition sheet_call (pending : bool) (identifier : list Z) (e : effect (StyleSheet := StyleSheet)) : option StyleSheet :=
  match e with
  | AddPendingSheet i sheet => if pending && bool_decide (characters i = identifier) then Some sheet else None
  | MaybeAddSheet i sheet => if negb pending && bool_decide (characters i = identifier) then Some sheet else None
  | _ => None
  end.

Definition small_ID (e : effect (StyleSheet := StyleSheet)) : Prop :=
  match e with
  | AddPendingDisplayNoneSelector _ _ selectorID | AddDisplayNoneSelector _ _ selectorID => selectorID < maxSelectorID
  | _ => True
  end.

Definition or_else {A : Type} (o o' : option A) : option A := match o with Some a => Some a | None => o' end.

(** ** The invariant *)

Section History.
(** The document before any extension had an effect. *)
Variable d0 : Sheets.
Abbreviation base := (length (heap d0)).

(** The sheets of the document, given what was added: selectors and sheets by extension. *)
Record sheets_ok (D : list Z -> list (WString * Z)) (S : list Z -> option StyleSheet) (d : Sheets) : Prop := {
  so_heap : exists added, heap d = heap d0 ++ added /\ m_userStyleSheets d = m_userStyleSheets d0 ++ seq base (length added);
  so_selectors : forall id, match m_contentExtensionSelectorSheets d !! id with
    | None => D id = []
    | Some s => (base <= m_styleSheet s)%nat /\ heap d !! m_styleSheet s = Some (Parsed (map selectorRule (first_by_ID ∅ (D id)))) /\ m_addedSelectorIDs s = list_to_set (map snd (D id))
    end;
  so_sheets : forall id, match m_contentExtensionSheets d !! id with
    | None => S id = None
    | Some r => (base <= r)%nat /\ exists sheet, S id = Some sheet /\ heap d !! r = Some (Shared sheet)
    end;
  so_distinct : forall id id' s s', m_contentExtensionSelectorSheets d !! id = Some s -> m_contentExtensionSelectorSheets d !! id' = Some s' -> m_styleSheet s = m_styleSheet s' -> id = id';
  so_distinct' : forall id id' r, m_contentExtensionSheets d !! id = Some r -> m_contentExtensionSheets d !! id' = Some r -> id = id';
  so_all : forall r, (base <= r < length (heap d))%nat ->
    (exists id s, m_contentExtensionSelectorSheets d !! id = Some s /\ m_styleSheet s = r) \/ exists id, m_contentExtensionSheets d !! id = Some r
}.

Lemma sheets_ok_ext D D' S S' d : (forall id, D id = D' id) -> (forall id, S id = S' id) -> sheets_ok D S d -> sheets_ok D' S' d.
Proof.
  intros HD HS [H1 H2 H3 H4 H5 H6]. split; try done.
  - intros id. specialize (H2 id). by rewrite HD in H2.
  - intros id. specialize (H3 id). by rewrite HS in H3.
Qed.

Lemma sheets_ok_start : m_contentExtensionSheets d0 = ∅ -> m_contentExtensionSelectorSheets d0 = ∅ -> sheets_ok (fun _ => []) (fun _ => None) d0.
Proof.
  intros H1 H2. split.
  - exists []. by rewrite !app_nil_r.
  - intros id. by rewrite H2, lookup_empty.
  - intros id. by rewrite H1, lookup_empty.
  - intros id id' s s'. by rewrite H2, lookup_empty.
  - intros id id' r. by rewrite H1, lookup_empty.
  - intros r Hr. lia.
Qed.

Lemma first_by_ID_snoc selectors selector selectorID : forall seen, first_by_ID seen (selectors ++ [(selector, selectorID)])
  = first_by_ID seen selectors ++ (if bool_decide (selectorID ∈ seen ∪ list_to_set (map snd selectors)) then [] else [selector]).
Proof.
  induction selectors as [|[s i] selectors IH]; intros seen; cbn [app first_by_ID map snd list_to_set].
  - replace (seen ∪ ∅) with seen by set_solver. by destruct (bool_decide _).
  - change (list_to_set (i :: map snd selectors)) with ({[i]} ∪ list_to_set (map snd selectors) : gset Z). rewrite (union_assoc_L seen). case_bool_decide; rewrite IH.
    + by replace (seen ∪ {[i]}) with seen by set_solver.
    + cbn [app]. by replace (seen ∪ {[i]}) with ({[i]} ∪ seen) by set_solver.
Qed.

Lemma heap_bound D S d s id : sheets_ok D S d -> m_contentExtensionSelectorSheets d !! id = Some s -> (m_styleSheet s < length (heap d))%nat.
Proof. intros Hok Hs. pose proof (so_selectors _ _ _ Hok id) as H. rewrite Hs in H. destruct H as (_ & H & _). by eapply lookup_lt_Some. Qed.

Lemma sheet_bound D S d r id : sheets_ok D S d -> m_contentExtensionSheets d !! id = Some r -> (r < length (heap d))%nat.
Proof. intros Hok Hs. pose proof (so_sheets _ _ _ Hok id) as H. rewrite Hs in H. destruct H as (_ & sheet & _ & H). by eapply lookup_lt_Some. Qed.

(** A sheet for an extension that has none. *)
Lemma create_ok D S d id : sheets_ok D S d -> m_contentExtensionSelectorSheets d !! id = None ->
  sheets_ok D S (mkSheets (heap d ++ [Parsed []]) (m_userStyleSheets d ++ [length (heap d)]) (m_contentExtensionSheets d)
    (<[id := mkSelectorSheet (length (heap d)) ∅]> (m_contentExtensionSelectorSheets d)) true).
Proof.
  intros Hok Hid. destruct (so_heap _ _ _ Hok) as (added & Hh & Hu). split; cbn [heap m_userStyleSheets m_contentExtensionSheets m_contentExtensionSelectorSheets].
  - exists (added ++ [Parsed []]). rewrite Hu, Hh, <- !(assoc_L (++)), !length_app, seq_app. done.
  - intros i. rewrite lookup_insert. case_decide as Hi; [subst i|].
    + pose proof (so_selectors _ _ _ Hok id) as H. rewrite Hid in H. rewrite H. cbn. split; [rewrite Hh, length_app; lia|]. split; [|done]. by rewrite lookup_app_r, Nat.sub_diag by lia.
    + pose proof (so_selectors _ _ _ Hok i) as H. destruct (m_contentExtensionSelectorSheets d !! i) as [s|]; [|done]. destruct H as (? & ? & ?). split; [done|]. split; [|done]. by apply lookup_app_l_Some.
  - intros i. pose proof (so_sheets _ _ _ Hok i) as H. destruct (m_contentExtensionSheets d !! i) as [r|]; [|done]. destruct H as (? & sheet & ? & ?). split; [done|]. exists sheet. split; [done|]. by apply lookup_app_l_Some.
  - intros i i' s s'. rewrite !lookup_insert. case_decide; case_decide; subst; try done.
    + intros [= <-] Hs' Heq. pose proof (heap_bound _ _ _ _ _ Hok Hs'). cbn in Heq. lia.
    + intros Hs [= <-] Heq. pose proof (heap_bound _ _ _ _ _ Hok Hs). cbn in Heq. lia.
    + apply (so_distinct _ _ _ Hok).
  - apply (so_distinct' _ _ _ Hok).
  - intros r Hr. rewrite length_app in Hr. cbn in Hr. destruct (decide (r = length (heap d))) as [->|Hne]; [left; eexists id, _; by rewrite lookup_insert, decide_True|].
    destruct (so_all _ _ _ Hok r) as [(i & s & Hs & Hsr)|Hr']; [lia| |by right]. left. exists i, s. rewrite lookup_insert. case_decide; [subst; congruence|done].
Qed.

(** A selector for an extension that has a sheet. *)
Lemma add_ok D S d id s selector selectorID t : sheets_ok D S d -> m_contentExtensionSelectorSheets d !! id = Some s -> selectorID < maxSelectorID ->
  exists h s', sheet_addDisplayNoneSelector (heap d) s selector selectorID = Some (h, s')
    /\ sheets_ok (fun i => if decide (i = id) then D i ++ [(selector, selectorID)] else D i) S (mkSheets h (m_userStyleSheets d) (m_contentExtensionSheets d) (<[id := s']> (m_contentExtensionSelectorSheets d)) t).
Proof.
  intros Hok Hs Hid. pose proof (so_selectors _ _ _ Hok id) as Hsel. rewrite Hs in Hsel. destruct Hsel as (Hb & Hheap & Hids). pose proof (heap_bound _ _ _ _ _ Hok Hs) as Hlt.
  set (texts := map selectorRule (first_by_ID ∅ (D id ++ [(selector, selectorID)]))). set (ids := list_to_set (map snd (D id ++ [(selector, selectorID)])) : gset Z).
  assert (Hids' : ids = {[selectorID]} ∪ list_to_set (map snd (D id))) by (unfold ids; rewrite map_app, list_to_set_app_L; cbn; set_solver).
  assert (Hadd : sheet_addDisplayNoneSelector (heap d) s selector selectorID = Some (<[m_styleSheet s := Parsed texts]> (heap d), mkSelectorSheet (m_styleSheet s) ids)).
  { unfold sheet_addDisplayNoneSelector. rewrite (proj2 (Z.ltb_lt _ _) Hid). cbn [negb]. unfold texts. rewrite first_by_ID_snoc. replace (∅ ∪ list_to_set (map snd (D id))) with (m_addedSelectorIDs s) by (rewrite Hids; set_solver). case_bool_decide as Hin.
    - rewrite app_nil_r, list_insert_id by done. destruct s as [r ids0]. cbn in Hids, Hin |- *. subst ids0. assert (E : ids = list_to_set (map snd (D id))) by (rewrite Hids'; set_solver). by rewrite E.
    - unfold parseInto. rewrite Hheap, map_app, Hids', Hids. done. }
  exists (<[m_styleSheet s := Parsed texts]> (heap d)), (mkSelectorSheet (m_styleSheet s) ids). split; [exact Hadd|]. clear Hadd.
  destruct (so_heap _ _ _ Hok) as (added & Hh & Hu). split; cbn [heap m_userStyleSheets m_contentExtensionSheets m_contentExtensionSelectorSheets].
  - exists (<[(m_styleSheet s - base)%nat := Parsed texts]> added). split; [by rewrite Hh, insert_app_r_alt by lia|]. by rewrite length_insert.
  - intros i. rewrite lookup_insert. destruct (decide (id = i)) as [<-|Hi].
    + rewrite decide_True by done. cbn. split; [done|]. split; [|done]. by apply list_lookup_insert_eq.
    + rewrite decide_False by done. pose proof (so_selectors _ _ _ Hok i) as H. destruct (m_contentExtensionSelectorSheets d !! i) as [s'|] eqn:Hs'; [|done]. destruct H as (? & ? & ?). split; [done|]. split; [|done].
      rewrite list_lookup_insert_ne; [done|]. intros Heq. by apply Hi, (so_distinct _ _ _ Hok id i s s').
  - intros i. pose proof (so_sheets _ _ _ Hok i) as H. destruct (m_contentExtensionSheets d !! i) as [r|]; [|done]. destruct H as (? & sheet & ? & Hr). split; [done|]. exists sheet. split; [done|]. rewrite list_lookup_insert_ne; [done|]. intros <-. congruence.
  - intros i i' s1 s2. rewrite !lookup_insert. intros H1 H2 Heq. apply (so_distinct _ _ _ Hok i i' (if decide (id = i) then s else s1) (if decide (id = i') then s else s2)); repeat case_decide; subst; try done; by simplify_eq.
  - apply (so_distinct' _ _ _ Hok).
  - intros r Hr. rewrite length_insert in Hr. destruct (so_all _ _ _ Hok r Hr) as [(i & s' & Hs' & Hsr)|Hr']; [|by right]. left. destruct (decide (id = i)) as [<-|Hi].
    + eexists id, _. rewrite lookup_insert, decide_True by done. split; [done|]. cbn. by simplify_eq.
    + exists i, s'. by rewrite lookup_insert, decide_False.
Qed.

Lemma addDisplayNoneSelector_ok D S d id selector selectorID : sheets_ok D S d -> selectorID < maxSelectorID ->
  exists d', addDisplayNoneSelector id selector selectorID d = Some d' /\ sheets_ok (fun i => if decide (i = id) then D i ++ [(selector, selectorID)] else D i) S d'
    /\ (forall i, m_contentExtensionSelectorSheets d' !! i = None <-> i <> id /\ m_contentExtensionSelectorSheets d !! i = None).
Proof.
  intros Hok Hid. unfold addDisplayNoneSelector. destruct (m_contentExtensionSelectorSheets d !! id) as [s|] eqn:Hs.
  - destruct (add_ok D S d id s selector selectorID true Hok Hs Hid) as (h & s' & Hadd & Hok'). rewrite Hadd, option_bind_Some. eexists. split; [done|]. split; [done|]. intros i. cbn. rewrite lookup_insert_None. naive_solver.
  - destruct (add_ok D S _ id (mkSelectorSheet (length (heap d)) ∅) selector selectorID true (create_ok D S d id Hok Hs)) as (h & s' & Hadd & Hok'); [cbn; by rewrite lookup_insert, decide_True|done|].
    cbn [heap] in Hadd. rewrite Hadd, option_bind_Some. cbn [m_contentExtensionSelectorSheets m_contentExtensionSheets m_userStyleSheets] in Hok'. rewrite insert_insert, decide_True in Hok' by done. eexists. split; [done|]. split; [done|]. intros i. cbn. rewrite lookup_insert_None. naive_solver.
Qed.

Lemma maybeAdd_ok D S d id sheet : sheets_ok D S d -> sheets_ok D (fun i => if decide (i = id) then or_else (S i) (Some sheet) else S i) (maybeAddContentExtensionSheet id sheet d).
Proof.
  intros Hok. unfold maybeAddContentExtensionSheet. pose proof (so_sheets _ _ _ Hok id) as Hid. destruct (m_contentExtensionSheets d !! id) as [r|] eqn:Hr.
  - destruct Hid as (_ & sh & Hsh & _). apply (sheets_ok_ext D D S _ d); [done| |done]. intros i. case_decide; [subst|done]. by rewrite Hsh.
  - destruct (so_heap _ _ _ Hok) as (added & Hh & Hu). split; cbn [heap m_userStyleSheets m_contentExtensionSheets m_contentExtensionSelectorSheets].
    + exists (added ++ [Shared sheet]). rewrite Hu, Hh, <- !(assoc_L (++)), !length_app, seq_app. done.
    + intros i. pose proof (so_selectors _ _ _ Hok i) as H. destruct (m_contentExtensionSelectorSheets d !! i) as [s|]; [|done]. destruct H as (? & ? & ?). split; [done|]. split; [|done]. by apply lookup_app_l_Some.
    + intros i. rewrite lookup_insert. destruct (decide (id = i)) as [<-|Hi].
      * rewrite decide_True by done. rewrite Hid. split; [rewrite Hh, length_app; lia|]. exists sheet. split; [done|]. by rewrite lookup_app_r, Nat.sub_diag by lia.
      * rewrite decide_False by done. pose proof (so_sheets _ _ _ Hok i) as H. destruct (m_contentExtensionSheets d !! i) as [r|]; [|done]. destruct H as (? & sh & ? & ?). split; [done|]. exists sh. split; [done|]. by apply lookup_app_l_Some.
    + apply (so_distinct _ _ _ Hok).
    + intros i i' r. rewrite !lookup_insert. case_decide; case_decide; subst; try done.
      * intros [= <-] H'. pose proof (sheet_bound _ _ _ _ _ Hok H'). lia.
      * intros H' [= <-]. pose proof (sheet_bound _ _ _ _ _ Hok H'). lia.
      * apply (so_distinct' _ _ _ Hok).
    + intros r Hr'. rewrite length_app in Hr'. cbn in Hr'. destruct (decide (r = length (heap d))) as [->|Hne]; [right; exists id; by rewrite lookup_insert, decide_True|].
      destruct (so_all _ _ _ Hok r) as [?|(i & Hi)]; [lia|by left|]. right. exists i. rewrite lookup_insert. case_decide; [subst; congruence|done].
Qed.

(** Extensions without selectors have no sheet for them. *)
Definition document_ok (D : list Z -> list (WString * Z)) (S : list Z -> option StyleSheet) (d : Sheets) : Prop :=
  sheets_ok D S d /\ forall id, m_contentExtensionSelectorSheets d !! id = None <-> D id = [].

Lemma document_ok_ext D D' S S' d : (forall id, D id = D' id) -> (forall id, S id = S' id) -> document_ok D S d -> document_ok D' S' d.
Proof. intros HD HS [Hok Hn]. split; [by apply (sheets_ok_ext D D' S S')|]. intros id. by rewrite <- HD. Qed.

Lemma document_selector D S d id selector selectorID : document_ok D S d -> selectorID < maxSelectorID ->
  exists d', addDisplayNoneSelector id selector selectorID d = Some d' /\ document_ok (fun i => if decide (i = id) then D i ++ [(selector, selectorID)] else D i) S d'.
Proof.
  intros [Hok Hn] Hid. destruct (addDisplayNoneSelector_ok D S d id selector selectorID Hok Hid) as (d' & Hd' & Hok' & Hn'). exists d'. split; [done|]. split; [done|]. intros i. rewrite Hn', Hn. case_decide; [|naive_solver].
  split; [naive_solver|]. intros Hnil. by apply app_eq_nil in Hnil as [_ ?].
Qed.

Lemma document_sheet D S d id sheet : document_ok D S d -> document_ok D (fun i => if decide (i = id) then or_else (S i) (Some sheet) else S i) (maybeAddContentExtensionSheet id sheet d).
Proof. intros [Hok Hn]. split; [by apply maybeAdd_ok|]. intros i. rewrite <- Hn. unfold maybeAddContentExtensionSheet. by destruct (m_contentExtensionSheets d !! id). Qed.

(** ** Committing *)

(** The values of a key in a list of entries. *)
Definition values_of {V : Type} (id : list Z) (entries : list (list Z * V)) : list V := omap (fun e => if decide (fst e = id) then Some (snd e) else None) entries.

Lemma values_of_unique {V} id (o : option V) (entries : list (list Z * V)) : NoDup entries.*1 -> (forall v, (id, v) ∈ entries <-> o = Some v) -> values_of id entries = match o with Some v => [v] | None => [] end.
Proof.
  revert o. induction entries as [|[k v] entries IH]; intros o Hnd Ho; cbn.
  - destruct o as [v|]; [|done]. pose proof (proj2 (Ho v) eq_refl) as Hin. by apply elem_of_nil in Hin.
  - cbn in Hnd. apply NoDup_cons in Hnd as [Hk Hnd]. case_decide as Hki; [subst k|].
    + rewrite (proj1 (Ho v)) by set_solver. f_equal. unfold values_of in IH. rewrite (IH None Hnd); [done|]. intros v'. split; [|done]. intros Hin. destruct Hk. by apply (list_elem_of_fmap_2 fst) in Hin.
    + apply IH; [done|]. intros v'. rewrite <- Ho, elem_of_cons. naive_solver.
Qed.

Lemma add_selectors_ok id selectors : forall D S d, document_ok D S d -> Forall (fun x => snd x < maxSelectorID) selectors ->
  exists d', add_selectors id selectors d = Some d' /\ document_ok (fun i => if decide (i = id) then D i ++ selectors else D i) S d'.
Proof.
  induction selectors as [|[selector selectorID] selectors IH]; intros D S d Hok Hall; cbn [add_selectors].
  - exists d. split; [done|]. apply (document_ok_ext D _ S _ d); try done. intros i. case_decide; [by rewrite app_nil_r|done].
  - apply Forall_cons in Hall as [Hid Hall]. destruct (document_selector D S d id selector selectorID Hok Hid) as (d1 & -> & Hok1). rewrite option_bind_Some.
    destruct (IH _ _ _ Hok1 Hall) as (d' & Hd' & Hok'). exists d'. split; [done|]. eapply document_ok_ext; [|done|exact Hok']. intros i. cbn. case_decide; [by rewrite <- (assoc_L (++))|done].
Qed.

Lemma add_all_selectors_ok entries : forall D S d, document_ok D S d -> Forall (fun e => Forall (fun x => snd x < maxSelectorID) (snd e)) entries ->
  exists d', add_all_selectors entries d = Some d' /\ document_ok (fun i => D i ++ concat (values_of i entries)) S d'.
Proof.
  induction entries as [|[id selectors] entries IH]; intros D S d Hok Hall; cbn [add_all_selectors].
  - exists d. split; [done|]. apply (document_ok_ext D _ S _ d); try done. intros i. cbn. by rewrite app_nil_r.
  - apply Forall_cons in Hall as [Hids Hall]. destruct (add_selectors_ok id selectors D S d Hok Hids) as (d1 & -> & Hok1). rewrite option_bind_Some.
    destruct (IH _ _ _ Hok1 Hall) as (d' & Hd' & Hok'). exists d'. split; [done|]. eapply document_ok_ext; [|done|exact Hok']. intros i. cbn. destruct (decide (i = id)) as [->|Hi]; [by rewrite decide_True, <- (assoc_L (++))|]. by rewrite decide_False.
Qed.

Lemma add_sheets_ok entries : forall D S d, document_ok D S d -> document_ok D (fun i => or_else (S i) (head (values_of i entries))) (add_sheets entries d).
Proof.
  induction entries as [|[id sheet] entries IH]; intros D S d Hok; cbn [add_sheets].
  - apply (document_ok_ext D _ S _ d); try done. intros i. cbn. by destruct (S i).
  - eapply document_ok_ext; [done| |apply IH, document_sheet, Hok]. intros i. cbn. destruct (decide (i = id)) as [->|Hi]; [rewrite decide_True by done; by destruct (S id)|]. by rewrite decide_False.
Qed.

Section Order.
Hypothesis order_perm : forall V m, order V m ≡ₚ map_to_list m.

Lemma values_of_order {V} (m : gmap (list Z) V) id : values_of id (order V m) = match m !! id with Some v => [v] | None => [] end.
Proof.
  apply values_of_unique.
  - rewrite (order_perm V m). apply NoDup_fst_map_to_list.
  - intros v. rewrite (order_perm V m). apply elem_of_map_to_list.
Qed.

(** What the loader has collected. *)
Record loader_ok (P : list Z -> list (WString * Z)) (Q : list Z -> option StyleSheet) (l : Loader) : Prop := {
  lo_selectors : forall id, default [] (m_pendingContentExtensionDisplayNoneSelectors l !! id) = P id;
  lo_sheets : forall id, m_pendingNamedContentExtensionStyleSheets l !! id = Q id;
  lo_small : forall id, Forall (fun x => snd x < maxSelectorID) (P id)
}.

Lemma commitData_ok D S P Q l d : document_ok D S d -> loader_ok P Q l ->
  exists d', commitData l d = Some (mkLoader ∅ ∅, d') /\ document_ok (fun i => D i ++ P i) (fun i => or_else (S i) (Q i)) d'.
Proof.
  intros Hd [Hp Hq Hs]. unfold commitData. cbv zeta. pose proof (add_sheets_ok (order _ (m_pendingNamedContentExtensionStyleSheets l)) D S d Hd) as Hd1.
  destruct (add_all_selectors_ok (order _ (m_pendingContentExtensionDisplayNoneSelectors l)) _ _ _ Hd1) as (d' & -> & Hd').
  - apply Forall_forall. intros [id selectors] Hin. rewrite (order_perm _ _), elem_of_map_to_list in Hin. cbn. specialize (Hp id). rewrite Hin in Hp. cbn in Hp. rewrite Hp. apply Hs.
  - rewrite option_bind_Some. exists d'. split; [done|]. eapply document_ok_ext; [| |exact Hd']; intros i; cbn; rewrite values_of_order.
    + rewrite <- Hp. destruct (m_pendingContentExtensionDisplayNoneSelectors l !! i); cbn; by rewrite ?app_nil_r.
    + rewrite Hq. by destruct (Q i).
Qed.

(** ** The calls *)

Lemma run_effect_ok D S P Q e l d : document_ok D S d -> loader_ok P Q l -> small_ID e ->
  exists l' d', run_effect e l d = Some (l', d')
    /\ document_ok (fun i => D i ++ option_list (selector_call false i e)) (fun i => or_else (S i) (sheet_call false i e)) d'
    /\ loader_ok (fun i => P i ++ option_list (selector_call true i e)) (fun i => or_else (sheet_call true i e) (Q i)) l'.
Proof.
  intros Hd Hl Hsmall. assert (Hd0 : document_ok (fun i => D i ++ []) (fun i => or_else (S i) None) d) by (eapply document_ok_ext; [| |exact Hd]; intros i; [by rewrite app_nil_r|by destruct (S i)]).
  assert (Hl0 : loader_ok (fun i => P i ++ []) Q l) by (destruct Hl as [H1 H2 H3]; split; [intros i; by rewrite app_nil_r|done|intros i; by rewrite app_nil_r]).
  destruct e as [allowed|i selector selectorID|i selector selectorID|i sheet|i sheet| |]; cbn [run_effect]; try (by exists l, d).
  - eexists _, d. split; [done|]. split; [done|]. destruct Hl as [Hp Hq Hs]. split; cbn; [|done|].
    + intros id. rewrite lookup_insert. destruct (decide (characters i = id)) as [<-|Hne]; [by rewrite bool_decide_eq_true_2, Hp|]. by rewrite bool_decide_eq_false_2, app_nil_r.
    + intros id. apply Forall_app. split; [done|]. case_bool_decide; cbn; [|constructor]. by constructor; [|constructor].
  - destruct (document_selector D S d (characters i) selector selectorID Hd Hsmall) as (d' & -> & Hd'). rewrite option_bind_Some. exists l, d'. split; [done|]. split; [|done]. eapply document_ok_ext; [| |exact Hd']; intros id; cbn.
    + case_decide as Hi; [by rewrite bool_decide_eq_true_2|]. by rewrite bool_decide_eq_false_2, app_nil_r.
    + by destruct (S id).
  - eexists _, d. split; [done|]. split; [done|]. destruct Hl as [Hp Hq Hs]. split; cbn; [intros id; by rewrite app_nil_r| |intros id; by rewrite app_nil_r].
    intros id. rewrite lookup_insert. case_decide as Hi; [by rewrite bool_decide_eq_true_2|]. by rewrite bool_decide_eq_false_2.
  - exists l. eexists. split; [done|]. split; [|done]. eapply document_ok_ext; [| |apply document_sheet, Hd]; intros id; cbn; [by rewrite app_nil_r|].
    case_decide as Hi; [by rewrite bool_decide_eq_true_2|]. rewrite bool_decide_eq_false_2 by done. by destruct (S id).
Qed.

Lemma run_effects_ok es : forall D S P Q l d, document_ok D S d -> loader_ok P Q l -> Forall small_ID es ->
  exists l' d', run_effects es l d = Some (l', d')
    /\ document_ok (fun i => D i ++ omap (selector_call false i) es) (fun i => or_else (S i) (head (omap (sheet_call false i) es))) d'
    /\ loader_ok (fun i => P i ++ omap (selector_call true i) es) (fun i => or_else (last (omap (sheet_call true i) es)) (Q i)) l'.
Proof.
  induction es as [|e es IH]; intros D S P Q l d Hd Hl Hs; cbn [run_effects].
  - exists l, d. split; [done|]. split; [eapply document_ok_ext; [| |exact Hd]; intros i; cbn; [by rewrite app_nil_r|by destruct (S i)]|]. destruct Hl as [H1 H2 H3]. split; [intros i; cbn; by rewrite app_nil_r|done|intros i; cbn; by rewrite app_nil_r].
  - apply Forall_cons in Hs as [He Hs]. destruct (run_effect_ok D S P Q e l d Hd Hl He) as (l1 & d1 & -> & Hd1 & Hl1). rewrite option_bind_Some. destruct (IH _ _ _ _ l1 d1 Hd1 Hl1 Hs) as (l' & d' & Hr & Hd' & Hl').
    exists l', d'. split; [done|]. split.
    + eapply document_ok_ext; [| |exact Hd']; intros i; cbn; [destruct (selector_call false i e); cbn; by rewrite ?app_nil_r, <- ?(assoc_L (++))|]. destruct (S i), (sheet_call false i e); done.
    + destruct Hl' as [H1 H2 H3]. split.
      * intros id. rewrite H1. cbn. destruct (selector_call true id e); cbn; by rewrite ?app_nil_r, <- ?(assoc_L (++)).
      * intros id. rewrite H2. cbn. destruct (sheet_call true id e) as [x|]; [|done]. rewrite last_cons. by destruct (last _).
      * intros id. specialize (H3 id). cbn in *. destruct (selector_call true id e); cbn in *; by rewrite ?app_nil_r, <- ?(assoc_L (++)) in H3.
Qed.
End Order.
End History.
End Sheets.

(** ** The sheets after a load *)

(** The selectors that the actions hide for an extension, with their identifiers. *)
Definition selector_action (id : list Z) (a : Action) : option (WString * Z) :=
  if bool_decide (action_type a = CSSDisplayNoneSelector) && bool_decide (characters (extensionIdentifier a) = id) then Some (stringArgument a, actionID a) else None.

(** The actions ask for the global style sheet of the extension. *)
Definition asks_for_sheet (id : list Z) (a : Action) : bool := bool_decide (action_type a = CSSDisplayNoneStyleSheet) && bool_decide (characters (stringArgument a) = id).

Definition small_selector (a : Action) : Prop := action_type a = CSSDisplayNoneSelector -> actionID a < maxSelectorID.

Definition global_sheet {StyleSheet : Type} (b : Backend StyleSheet) (id : list Z) : option StyleSheet := e ← b !! id; m_globalDisplayNoneStyleSheet e.

Section Load.
Context `{Host} {StyleSheet : Type}.
Abbreviation call := (effect (StyleSheet := StyleSheet)).

(** The calls for actions: all for the loader, or all for the document. *)
Record calls_of (b : Backend StyleSheet) (pending : bool) (acts : list Action) (es : list call) : Prop := {
  co_small : Forall small_ID es;
  co_selectors : forall id, omap (selector_call pending id) es = omap (selector_action id) acts /\ omap (selector_call (negb pending) id) es = [];
  co_sheets : forall id sheet, sheet ∈ omap (sheet_call pending id) es <-> (exists a, a ∈ acts /\ asks_for_sheet id a = true) /\ global_sheet b id = Some sheet;
  co_others : forall id, omap (sheet_call (negb pending) id) es = []
}.

Lemma calls_of_nil b pending es : (forall e id, e ∈ es -> small_ID e /\ selector_call pending id e = None /\ selector_call (negb pending) id e = None /\ sheet_call pending id e = None /\ sheet_call (negb pending) id e = None) ->
  calls_of b pending [] es.
Proof.
  intros He. assert (Hnone : forall A (f : call -> option A), (forall e, e ∈ es -> f e = None) -> omap f es = []).
  { clear He. intros A f Hf. induction es as [|e es IH]; [done|]. cbn. rewrite Hf by set_solver. apply IH. set_solver. }
  split.
  - apply Forall_forall. intros e Hin. by destruct (He e [] Hin).
  - intros id. split; apply Hnone; intros e Hin; by destruct (He e id Hin) as (_ & ? & ? & _).
  - intros id sheet. rewrite Hnone; [|intros e Hin; by destruct (He e id Hin) as (_ & _ & _ & ? & _)]. set_solver.
  - intros id. apply Hnone. intros e Hin. by destruct (He e id Hin) as (_ & _ & _ & _ & ?).
Qed.

Lemma calls_of_app b pending acts acts' es es' : calls_of b pending acts es -> calls_of b pending acts' es' -> calls_of b pending (acts ++ acts') (es ++ es').
Proof.
  intros [H1 H2 H3 H4] [K1 K2 K3 K4]. split.
  - by apply Forall_app.
  - intros id. rewrite !omap_app. destruct (H2 id) as [-> ->], (K2 id) as [-> ->]. done.
  - intros id sheet. rewrite omap_app, elem_of_app, H3, K3. set_solver.
  - intros id. by rewrite omap_app, H4, K4.
Qed.

Lemma selector_action_other id a : action_type a <> CSSDisplayNoneSelector -> selector_action id a = None.
Proof. intros Ha. unfold selector_action. by rewrite bool_decide_eq_false_2. Qed.

Lemma asks_for_sheet_other id a : action_type a <> CSSDisplayNoneStyleSheet -> asks_for_sheet id a = false.
Proof. intros Ha. unfold asks_for_sheet. by rewrite bool_decide_eq_false_2. Qed.

(** Calls that have nothing to do with style sheets. *)
Lemma calls_of_other b pending a es : action_type a <> CSSDisplayNoneSelector -> action_type a <> CSSDisplayNoneStyleSheet -> calls_of b pending [] es -> calls_of b pending [a] es.
Proof.
  intros H1 H2 [K1 K2 K3 K4]. split; [done| | |done].
  - intros id. cbn. rewrite selector_action_other by done. apply K2.
  - intros id sheet. rewrite K3. split; [intros [(x & Hx & _) _]; by apply elem_of_nil in Hx|]. intros [(x & Hx%list_elem_of_singleton & Hs) _]. subst x. by rewrite asks_for_sheet_other in Hs.
Qed.

Lemma calls_of_selector b (pending : bool) a es : action_type a = CSSDisplayNoneSelector -> small_selector a ->
  es = [(if pending then AddPendingDisplayNoneSelector else AddDisplayNoneSelector) (extensionIdentifier a) (stringArgument a) (actionID a)] -> calls_of b pending [a] es.
Proof.
  intros Et Hs ->. assert (Hsel : forall id, selector_action id a = if bool_decide (characters (extensionIdentifier a) = id) then Some (stringArgument a, actionID a) else None) by (intros id; unfold selector_action; by rewrite bool_decide_eq_true_2).
  assert (Hno : forall id (sheet : StyleSheet), sheet ∈ [] <-> (exists x, x ∈ [a] /\ asks_for_sheet id x = true) /\ global_sheet b id = Some sheet).
  { intros id sheet. split; [by intros ?%elem_of_nil|]. intros [(x & Hx%list_elem_of_singleton & Hx') _]. subst x. by rewrite asks_for_sheet_other in Hx' by congruence. }
  specialize (Hs Et). destruct pending; split; cbn; try done; try (by constructor; [|constructor]); intros id; rewrite Hsel; by case_bool_decide.
Qed.

Lemma calls_of_sheet b (pending : bool) a es : action_type a = CSSDisplayNoneStyleSheet ->
  es = match globalDisplayNoneStyleSheet b (stringArgument a) with
       | Some sheet => [(if pending then AddPendingSheet else MaybeAddSheet) (stringArgument a) sheet]
       | None => []
       end -> calls_of b pending [a] es.
Proof.
  intros Et ->. assert (Hsel : forall id, selector_action id a = None) by (intros id; apply selector_action_other; congruence).
  assert (Hs : forall id (sheet : StyleSheet), (exists x, x ∈ [a] /\ asks_for_sheet id x = true) /\ global_sheet b id = Some sheet <-> characters (stringArgument a) = id /\ globalDisplayNoneStyleSheet b (stringArgument a) = Some sheet).
  { intros id sheet. unfold asks_for_sheet. split.
    - intros [(x & Hx%list_elem_of_singleton & Hx') Hg]. subst x. apply andb_true_iff in Hx' as [_ Hid%bool_decide_eq_true]. by subst id.
    - intros [<- Hg]. split; [|done]. exists a. split; [set_solver|]. by rewrite Et, !bool_decide_eq_true_2. }
  destruct (globalDisplayNoneStyleSheet b (stringArgument a)) as [sheet|] eqn:Eg; destruct pending; split; cbn; try done; try (intros id; by rewrite Hsel); try (by constructor; [|constructor]); try (by constructor).
  all: intros id sheet'; rewrite Hs; try case_bool_decide; set_solver.
Qed.

Lemma apply_action_calls b type a : applicable a -> small_selector a ->
  exists block es, apply_action b type true a = Some (block, es) /\ calls_of b (bool_decide (type = Type_Document)) [a] es.
Proof.
  intros [Hi Hv] Hs. unfold apply_action. destruct (action_type a) eqn:Et; try done; eexists _, _; (split; [reflexivity|]).
  - apply calls_of_other; [congruence..|]. apply calls_of_nil. intros e id Hin. by apply elem_of_nil in Hin.
  - apply calls_of_other; [congruence..|]. apply calls_of_nil. intros e id Hin%list_elem_of_singleton. by subst.
  - apply calls_of_selector; [done|done|]. by case_bool_decide.
  - apply calls_of_sheet; [done|]. destruct (globalDisplayNoneStyleSheet b (stringArgument a)); [by case_bool_decide|done].
Qed.

Lemma apply_actions_calls b type acts : Forall applicable acts -> Forall small_selector acts -> forall will,
  exists block es, apply_actions b type true will acts = Some (block, es) /\ calls_of b (bool_decide (type = Type_Document)) acts es.
Proof.
  intros Ha Hs. induction acts as [|a acts IH]; intros will; cbn [apply_actions].
  - eexists _, []. split; [done|]. apply calls_of_nil. intros e id Hin. by apply elem_of_nil in Hin.
  - apply Forall_cons in Ha as [Ha Has], Hs as [Hs Hss]. destruct (apply_action_calls b type a Ha Hs) as (block & es & -> & Hc). rewrite option_bind_Some.
    destruct (IH Has Hss (will || block)) as (block' & es' & -> & Hc'). rewrite option_bind_Some. eexists _, _. split; [done|]. by apply (calls_of_app b _ [a] acts).
Qed.

(** ** Claim *)

Variable canAccess : URL -> URL -> bool.
Variable iterate : gset Z -> list Z.
Variable identifiers : Backend StyleSheet -> list (list Z).
Variable order : forall V, gmap (list Z) V -> list (list Z * V).
Hypothesis order_perm : forall V m, order V m ≡ₚ map_to_list m.

Lemma head_calls (b : Backend StyleSheet) (pending : bool) acts es id : calls_of b pending acts es ->
  or_else (head (omap (sheet_call false id) es)) (or_else (last (omap (sheet_call true id) es)) None) = if existsb (asks_for_sheet id) acts then global_sheet b id else None.
Proof.
  intros [_ _ Hs Hn]. specialize (Hs id). specialize (Hn id). set (l := omap (sheet_call pending id) es).
  assert (Hex : existsb (asks_for_sheet id) acts = true <-> exists a, a ∈ acts /\ asks_for_sheet id a = true) by (rewrite existsb_exists; by setoid_rewrite <- list_elem_of_In).
  assert (Hany : forall o, (forall x, o = Some x -> x ∈ l) -> (o = None -> l = []) -> o = if existsb (asks_for_sheet id) acts then global_sheet b id else None).
  { intros o Hin Hnil. destruct o as [x|].
    - specialize (Hin x eq_refl). apply Hs in Hin as [He%Hex Hg]. by rewrite He.
    - specialize (Hnil eq_refl). destruct (existsb _ acts) eqn:E; [|done]. destruct (global_sheet b id) as [x|] eqn:Eg; [|done]. assert (Hx : x ∈ l) by (apply Hs; by rewrite <- Hex). rewrite Hnil in Hx. by apply elem_of_nil in Hx. }
  destruct pending; cbn [negb] in Hn; rewrite Hn; cbn [head last or_else].
  - fold l. rewrite <- (Hany (last l)); [by destruct (last l)|intros x Hx; by apply last_Some_elem_of|by intros ?%last_None].
  - fold l. rewrite <- (Hany (head l)); [by destruct (head l)|intros x Hx; by apply head_Some_elem_of|by intros ?%head_None].
Qed.

(** C35: after a load that has a document, and once the loader has committed
    what was pending, the document has the style sheets its actions ask for,
    in addition to what it had: the selectors of each extension are in one
    sheet, each identifier once and the first one first, and the global sheet of
    an extension is there once if some action asks for it; no other sheet is
    added.  It makes no difference whether the load was that of the document
    itself, which waits for the first data, or of a part of it. *)
Theorem load_sheets_correct (b b' : Backend StyleSheet) request type f loading acts d0 d D S :
  actionsForResourceLoad canAccess iterate identifiers b (mkLoad request (mainDocumentURL_for (Some f) loading request type) type) = Some (b', acts) ->
  has_document f = true -> Forall small_selector acts -> document_ok d0 D S d ->
  exists es l1 d1 d2, processContentExtensionRulesForLoad canAccess iterate identifiers b request type (Some f) loading = Some (b', es)
    /\ run_effects es (mkLoader ∅ ∅) d = Some (l1, d1) /\ commitData order l1 d1 = Some (mkLoader ∅ ∅, d2)
    /\ document_ok d0 (fun id => D id ++ omap (selector_action id) acts) (fun id => or_else (S id) (if existsb (asks_for_sheet id) acts then global_sheet b' id else None)) d2.
Proof.
  intros Ha Hdoc Hsmall Hd. pose proof (actionsForResourceLoad_applicable canAccess iterate identifiers b b' _ acts Ha) as Happ.
  destruct (apply_actions_calls b' type acts Happ Hsmall false) as (block & es & Hes & Hc). unfold processContentExtensionRulesForLoad. cbv zeta. rewrite Ha, option_bind_Some, Hdoc, Hes, option_bind_Some.
  set (more := if block then _ else _). assert (Hc' : calls_of b' (bool_decide (type = Type_Document)) acts (es ++ more)).
  { rewrite <- (app_nil_r acts). apply calls_of_app; [done|]. apply calls_of_nil. intros e id Hin. unfold more in Hin. destruct block; set_solver. }
  destruct (run_effects_ok d0 (es ++ more) D S (fun _ => []) (fun _ => None) (mkLoader ∅ ∅) d Hd) as (l1 & d1 & Hr & Hd1 & Hl1); [|apply Hc'|].
  { split; intros id; cbn; by rewrite ?lookup_empty. }
  destruct (commitData_ok order d0 order_perm _ _ _ _ l1 d1 Hd1 Hl1) as (d2 & Hcommit & Hd2). exists (es ++ more), l1, d1, d2. split; [done|]. split; [done|]. split; [done|].
  eapply document_ok_ext; [| |exact Hd2]; intros id; cbn [app].
  - rewrite <- (assoc_L (++)). f_equal. destruct (co_selectors _ _ _ _ Hc' id) as [Hy Hn]. destruct (bool_decide (type = Type_Document)); cbn [negb] in *; by rewrite Hy, Hn, ?app_nil_r.
  - rewrite <- (head_calls b' _ acts (es ++ more) id Hc'). by destruct (S id).
Qed.
End Load.

(** ** Witness *)

Module SheetsExample.
Import ExtensionExample.

#[local] Existing Instance host.

(** A map in the order of its representation. *)
Definition in_order (V : Type) (m : gmap (list Z) V) : list (list Z * V) := map_to_list m.

Definition answer : Backend WString * list Action := default (backend, []) (actionsForResourceLoad same_origin order ids backend (mkLoad page page Type_Document)).

(** A document with a user style sheet of its own. *)
Definition document : ExtensionStyleSheets WString := mkSheets [Parsed []] [O] ∅ ∅ false.

Lemma answer_small : Forall small_selector answer.2.
Proof.
  assert (Hall : forallb (fun a => negb (bool_decide (action_type a = CSSDisplayNoneSelector)) || (actionID a <? maxSelectorID)) answer.2 = true) by (by vm_compute).
  rewrite forallb_forall in Hall. apply Forall_forall. intros a Ha%list_elem_of_In Hs. specialize (Hall a Ha). rewrite bool_decide_eq_true_2 in Hall by done. by apply Z.ltb_lt.
Qed.

Lemma load_sheets_correct_witness :
  exists es l1 d1 d2, processContentExtensionRulesForLoad same_origin order ids backend page Type_Document (Some (mkFrame true true None)) true = Some (answer.1, es)
    /\ run_effects es (mkLoader ∅ ∅) document = Some (l1, d1) /\ commitData in_order l1 d1 = Some (mkLoader ∅ ∅, d2)
    /\ document_ok document (fun id => [] ++ omap (selector_action id) answer.2) (fun id => or_else None (if existsb (asks_for_sheet id) answer.2 then global_sheet answer.1 id else None)) d2.
Proof.
  apply (load_sheets_correct same_origin order ids in_order (fun V m => Permutation_refl _) backend answer.1 page Type_Document (mkFrame true true None) true answer.2 document document (fun _ => []) (fun _ => None)).
  - vm_compute. reflexivity.
  - reflexivity.
  - exact answer_small.
  - split; [apply sheets_ok_start; reflexivity|]. intros i. cbn. by rewrite lookup_empty.
Defined.
End SheetsExample.
