(* ===== verification/Minimizer.v ===== *)
(** * Minimizing a DFA (DFAMinimizer.cpp)

    Partition refinement: nodes are split by their actions first, then by the
    transitions into known sets.  The transitions themselves are partitioned by
    label and target set; every set of transitions is used once as a splitter.
    Both partitions use the same data structure, in which the elements of a set
    are contiguous and the marked ones come first.

    Vectors check their indices, so every access may abort ([None]). *)

From S2P Require Import Prelude DFA RangeList.

(** Loops over a sequence. *)
Definition foldM {A S} (f : S -> A -> option S) (s : S) (l : list A) : option S :=
  foldl (fun s a => s ← s; f s a) (Some s) l.

(** ** Partitions *)

Record SetDescriptor := mkSet { set_start : Z; set_size : Z; markedCount : Z }.

Definition indexAfterMarkedElements (d : SetDescriptor) : Z := u32 (set_start d + markedCount d).
Definition set_end (d : SetDescriptor) : Z := u32 (set_start d + set_size d).

Record Partition := mkPartition {
  m_sets : list SetDescriptor;
  m_partitionedElements : list Z;
  m_elementPositionInPartitionedNodes : list Z;
  m_elementToSetMap : list Z;
  m_setsMarkedInCurrentGeneration : list Z
}.

Definition emptyPartition : Partition := mkPartition [] [] [] [] [].

Definition initialize (size : Z) : Partition :=
  if size =? 0 then emptyPartition
  else mkPartition [mkSet 0 size 0] (seqZ 0 size) (seqZ 0 size) (replicate (Z.to_nat size) 0) [].

(** [Vector::resize] on a vector that only grows; the new elements are zero here. *)
Definition resize (v : list Z) (n : Z) : list Z := v ++ replicate (Z.to_nat n - length v) 0.

Definition reserveUninitializedCapacity (p : Partition) (elementCount : Z) : Partition :=
  mkPartition (m_sets p) (resize (m_partitionedElements p) elementCount)
    (resize (m_elementPositionInPartitionedNodes p) elementCount) (resize (m_elementToSetMap p) elementCount)
    (m_setsMarkedInCurrentGeneration p).

Definition addSetUnchecked (p : Partition) (start size : Z) : Partition :=
  mkPartition (m_sets p ++ [mkSet start size 0]) (m_partitionedElements p) (m_elementPositionInPartitionedNodes p)
    (m_elementToSetMap p) (m_setsMarkedInCurrentGeneration p).

Definition setElementUnchecked (p : Partition) (elementIndex positionInPartition setIndex : Z) : option Partition :=
  elements ← vec_set (m_partitionedElements p) positionInPartition elementIndex;
  positions ← vec_set (m_elementPositionInPartitionedNodes p) elementIndex positionInPartition;
  toSet ← vec_set (m_elementToSetMap p) elementIndex setIndex;
  Some (mkPartition (m_sets p) elements positions toSet (m_setsMarkedInCurrentGeneration p)).

Definition startOffsetOfSet (p : Partition) (setIndex : Z) : option Z := set_start <$> (m_sets p).[setIndex].

Definition markElementInCurrentGeneration (p : Partition) (elementIndex : Z) : option Partition :=
  setIndex ← (m_elementToSetMap p).[elementIndex];
  d ← (m_sets p).[setIndex];
  elementPosition ← (m_elementPositionInPartitionedNodes p).[elementIndex];
  let firstUnmarkedPosition := indexAfterMarkedElements d in
  firstUnmarkedElement ← (m_partitionedElements p).[firstUnmarkedPosition];
  elements ← vec_set (m_partitionedElements p) firstUnmarkedPosition elementIndex;
  elements ← vec_set elements elementPosition firstUnmarkedElement;
  positions ← vec_set (m_elementPositionInPartitionedNodes p) elementIndex firstUnmarkedPosition;
  positions ← vec_set positions firstUnmarkedElement elementPosition;
  let marked := if markedCount d =? 0 then m_setsMarkedInCurrentGeneration p ++ [setIndex]
                else m_setsMarkedInCurrentGeneration p in
  sets ← vec_set (m_sets p) setIndex (mkSet (set_start d) (set_size d) (u32 (markedCount d + 1)));
  Some (mkPartition sets elements positions (m_elementToSetMap p) marked).

(** The loop that moves the elements of a new set to it. *)
Definition relabel (elements toSet : list Z) (newSet : SetDescriptor) (newSetIndex : Z) : option (list Z) :=
  foldM (fun toSet i => element ← elements.[i]; vec_set toSet element newSetIndex) toSet
    (seqZ (set_start newSet) (set_end newSet - set_start newSet)).

(** Refine one marked set; the index of the new set, if it was split. *)
Definition refine_set (p : Partition) (setIndex : Z) : option (Partition * option Z) :=
  d ← (m_sets p).[setIndex];
  if markedCount d =? set_size d then
    sets ← vec_set (m_sets p) setIndex (mkSet (set_start d) (set_size d) 0);
    Some (mkPartition sets (m_partitionedElements p) (m_elementPositionInPartitionedNodes p) (m_elementToSetMap p)
            (m_setsMarkedInCurrentGeneration p), None)
  else
    let newSetIsMarkedSet := u32 (markedCount d * 2) <=? set_size d in
    let newSet := if newSetIsMarkedSet then mkSet (set_start d) (markedCount d) 0
                  else mkSet (u32 (set_start d + markedCount d)) (u32 (set_size d - markedCount d)) 0 in
    let start := if newSetIsMarkedSet then u32 (set_start d + markedCount d) else set_start d in
    sets ← vec_set (m_sets p) setIndex (mkSet start (u32 (set_size d - set_size newSet)) 0);
    let newSetIndex := u32 (vlen sets) in
    toSet ← relabel (m_partitionedElements p) (m_elementToSetMap p) newSet newSetIndex;
    Some (mkPartition (sets ++ [newSet]) (m_partitionedElements p) (m_elementPositionInPartitionedNodes p) toSet
            (m_setsMarkedInCurrentGeneration p), Some newSetIndex).

(** [function] is called with the index of every new set; it reads the partition and changes other state. *)
Section Refine.
Context {S : Type} (function : Partition -> S -> Z -> option S).

Definition refine_one (ps : Partition * S) (setIndex : Z) : option (Partition * S) :=
  '(p, new) ← refine_set (fst ps) setIndex;
  match new with
  | None => Some (p, snd ps)
  | Some newSetIndex => s ← function p (snd ps) newSetIndex; Some (p, s)
  end.

Definition refineGeneration (p : Partition) (s : S) : option (Partition * S) :=
  '(p, s) ← foldM refine_one (p, s) (m_setsMarkedInCurrentGeneration p);
  Some (mkPartition (m_sets p) (m_partitionedElements p) (m_elementPositionInPartitionedNodes p) (m_elementToSetMap p) [], s).
End Refine.

(** [iterateSet]: the elements of a set, in order. *)
Definition set_elements (p : Partition) (setIndex : Z) : option (list Z) :=
  d ← (m_sets p).[setIndex];
  mapM (fun i => (m_partitionedElements p).[i]) (seqZ (set_start d) (set_end d - set_start d)).

Definition setIndexOf (p : Partition) (elementIndex : Z) : option Z := (m_elementToSetMap p).[elementIndex].

Definition firstElementInSet (p : Partition) (setIndex : Z) : option Z :=
  d ← (m_sets p).[setIndex]; (m_partitionedElements p).[set_start d].

(** ** Intersections with the singular ranges *)

(** Skip to the singular range that starts at a character; [rest] is what the index has not passed. *)
Fixpoint skip_to (firstCharacter index : Z) (rest : list Z) : Z * list Z :=
  match rest with
  | [] => (index, [])
  | f :: rest' => if negb (f =? firstCharacter) then skip_to firstCharacter (index + 1) rest' else (index, rest)
  end.

(** The further singular ranges inside of a transition. *)
Fixpoint covered (lastCharacter index : Z) (rest : list Z) : list Z * Z * list Z :=
  match rest with
  | [] => ([], index, [])
  | f :: rest' =>
      if f <=? lastCharacter
      then let '(l, index', rest'') := covered lastCharacter (index + 1) rest' in (index :: l, index', rest'')
      else ([], index, rest)
  end.

(** The calls of [intersectionHandler]: the index of a singular range and the transition. *)
Fixpoint intersections (index : Z) (rest : list Z) (transitions : list transition) : list (Z * transition) :=
  match transitions with
  | [] => []
  | t :: transitions =>
      let '(index, rest) := skip_to (range_first (fst t)) index rest in
      let '(more, index', rest') := covered (range_last (fst t)) (index + 1) (tail rest) in
      map (fun i => (i, t)) (index :: more) ++ intersections index' rest' transitions
  end.

Definition iterateIntersections (singularTransitionsFirsts : list Z) (transitions : list transition) : list (Z * transition) :=
  intersections 0 singularTransitionsFirsts transitions.

(** ** The partitions of a graph *)

Record FullGraphPartition := mkFull {
  m_flattenedTransitionsStartOffsetPerNode : list Z;
  m_flattenedTransitionsSizePerNode : list Z;
  m_flattenedTransitions : list Z;
  m_nodePartition : Partition;
  m_transitionPartition : Partition;
  m_nextTransitionSetToProcess : Z
}.

#[export] Instance CounterConverter : DataConverter Z Z := {
  convert _ := 1;
  extend_data destination _ := u32 (destination + 1)
}.

(** The transitions of a node that is not killed. *)
Definition live_transitions (dfa : DFA) (n : DFANode) : option (list transition) :=
  if isKilled n then Some [] else node_transitions dfa n.

Definition singular_transitions (dfa : DFA) : option (list (CharRange * Z)) :=
  ranges ← foldM (fun ranges n =>
             if isKilled n then Some ranges else ts ← node_transitions dfa n; extend ranges ts) [] (dfa_nodes dfa);
  range_list ranges.

Definition increment (v : list Z) (i : Z) : option (list Z) := x ← v.[i]; vec_set v i (u32 (x + 1)).

(** A set of transitions for every singular range. *)
Definition add_transition_sets (singular : list (CharRange * Z)) : Partition * Z :=
  foldl (fun pa t => (addSetUnchecked (fst pa) (snd pa) (snd t), u32 (snd pa + snd t))) (emptyPartition, 0) singular.

(** The calls of the handler for all nodes, with the node they come from. *)
Definition all_intersections (dfa : DFA) (firsts : list Z) : option (list (Z * (Z * transition))) :=
  calls ← mapM (fun p => ts ← live_transitions dfa (snd p); Some (map (fun c => (fst p, c)) (iterateIntersections firsts ts)))
            (zip (seqZ 0 (vlen (dfa_nodes dfa))) (dfa_nodes dfa));
  Some (concat calls).

Definition count_incoming (nodes : Z) (calls : list (Z * (Z * transition))) : option (list Z) :=
  foldM (fun counts c => increment counts (snd (snd (snd c)))) (replicate (Z.to_nat nodes) 0) calls.

(** The start of every bucket, and the end of the last. *)
Fixpoint accumulate (transitionAccumulator : Z) (counts : list Z) : list Z * Z :=
  match counts with
  | [] => ([], transitionAccumulator)
  | c :: counts => let '(starts, total) := accumulate (u32 (transitionAccumulator + c)) counts in (transitionAccumulator :: starts, total)
  end.

(** The variables of the loop that fills the transition table. *)
Record fill_state := mkFill {
  fill_sizes : list Z;
  fill_transitions : list Z;
  fill_partition : Partition;
  transitionPerRangeOffset : list Z
}.

Definition fill_one (starts : list Z) (s : fill_state) (c : Z * (Z * transition)) : option fill_state :=
  let '(i, (singularTransitionIndex, t)) := c in
  let targetNodeIndex := snd t in
  start ← starts.[targetNodeIndex];
  offset ← (fill_sizes s).[targetNodeIndex];
  let positionInFlattenedTransitions := u32 (start + offset) in
  transitions ← vec_set (fill_transitions s) positionInFlattenedTransitions i;
  inRangeOffset ← (transitionPerRangeOffset s).[singularTransitionIndex];
  setStart ← startOffsetOfSet (fill_partition s) singularTransitionIndex;
  offsets ← increment (transitionPerRangeOffset s) singularTransitionIndex;
  partition ← setElementUnchecked (fill_partition s) positionInFlattenedTransitions (u32 (setStart + inRangeOffset))
                singularTransitionIndex;
  sizes ← increment (fill_sizes s) targetNodeIndex;
  Some (mkFill sizes transitions partition offsets).

Definition createFullGraphPartition (dfa : DFA) : option FullGraphPartition :=
  let size := vlen (dfa_nodes dfa) in
  singular ← singular_transitions dfa;
  let '(transitionPartition, _) := add_transition_sets singular in
  calls ← all_intersections dfa (map (fun t => range_first (fst t)) singular);
  counts ← count_incoming size calls;
  let '(starts, flattenedTransitionsSize) := accumulate 0 counts in
  let transitionPartition := reserveUninitializedCapacity transitionPartition flattenedTransitionsSize in
  s ← foldM (fill_one starts)
        (mkFill (replicate (Z.to_nat size) 0) (replicate (Z.to_nat flattenedTransitionsSize) 0) transitionPartition
           (replicate (length (m_sets transitionPartition)) 0)) calls;
  Some (mkFull starts (fill_sizes s) (fill_transitions s) (initialize size) (fill_partition s) 0).

Definition with_partitions (g : FullGraphPartition) (nodes transitions : Partition) (next : Z) : FullGraphPartition :=
  mkFull (m_flattenedTransitionsStartOffsetPerNode g) (m_flattenedTransitionsSizePerNode g) (m_flattenedTransitions g)
    nodes transitions next.

Definition markNode (g : FullGraphPartition) (nodeIndex : Z) : option FullGraphPartition :=
  p ← markElementInCurrentGeneration (m_nodePartition g) nodeIndex;
  Some (with_partitions g p (m_transitionPartition g) (m_nextTransitionSetToProcess g)).

(** The transitions into a node. *)
Definition incoming (g : FullGraphPartition) (nodeIndex : Z) : option (list Z) :=
  start ← (m_flattenedTransitionsStartOffsetPerNode g).[nodeIndex];
  size ← (m_flattenedTransitionsSizePerNode g).[nodeIndex];
  Some (map (fun i => u32 (start + i)) (seqZ 0 size)).

(** The function [refinePartitions] gives to [refineGeneration]: split the transitions by the new set. *)
Definition split_incoming (g : FullGraphPartition) (nodes transitions : Partition) (smallestSetIndex : Z) : option Partition :=
  elements ← set_elements nodes smallestSetIndex;
  transitions ← foldM (fun transitions nodeIndex =>
                  ts ← incoming g nodeIndex; foldM markElementInCurrentGeneration transitions ts) transitions elements;
  '(transitions, _) ← refineGeneration (fun _ (u : unit) _ => Some u) transitions tt;
  Some transitions.

Definition refinePartitions (g : FullGraphPartition) : option FullGraphPartition :=
  '(nodes, transitions) ← refineGeneration (split_incoming g) (m_nodePartition g) (m_transitionPartition g);
  Some (with_partitions g nodes transitions (m_nextTransitionSetToProcess g)).

(** Use one set of transitions as a splitter. *)
Definition process_splitter (g : FullGraphPartition) : option FullGraphPartition :=
  transitions ← set_elements (m_transitionPartition g) (m_nextTransitionSetToProcess g);
  g ← foldM (fun g transitionIndex =>
        sourceNodeIndex ← (m_flattenedTransitions g).[transitionIndex]; markNode g sourceNodeIndex) g transitions;
  g ← refinePartitions g;
  Some (with_partitions g (m_nodePartition g) (m_transitionPartition g) (u32 (m_nextTransitionSetToProcess g + 1))).

(** Every round uses one set up, and there are at most as many sets as transitions. *)
Fixpoint split_loop (fuel : nat) (g : FullGraphPartition) : option FullGraphPartition :=
  if m_nextTransitionSetToProcess g <? vlen (m_sets (m_transitionPartition g)) then
    match fuel with
    | O => None
    | S fuel => g ← process_splitter g; split_loop fuel g
    end
  else Some g.

Definition splitByUniqueTransitions (g : FullGraphPartition) : option FullGraphPartition :=
  split_loop (length (m_flattenedTransitions g)) g.

Definition nodeReplacement (g : FullGraphPartition) (nodeIndex : Z) : option Z :=
  setIndex ← setIndexOf (m_nodePartition g) nodeIndex;
  firstElementInSet (m_nodePartition g) setIndex.

(** ** Minimizing *)

(** [HashMap::add] with an [ActionKey], which compares the actions themselves. *)
Fixpoint add_final_state (finalStates : list (list Z * list Z)) (actions : list Z) (i : Z) : list (list Z * list Z) :=
  match finalStates with
  | [] => [(actions, [i])]
  | (actions', nodes) :: rest =>
      if bool_decide (actions' = actions) then (actions', nodes ++ [i]) :: rest
      else (actions', nodes) :: add_final_state rest actions i
  end.

Definition final_states (dfa : DFA) : option (list (list Z * list Z)) :=
  foldM (fun finalStates p =>
    if hasActions (snd p) then actions ← node_actions dfa (snd p); Some (add_final_state finalStates actions (fst p))
    else Some finalStates) [] (zip (seqZ 0 (vlen (dfa_nodes dfa))) (dfa_nodes dfa)).

(** Kill the nodes that are replaced, and remember by which. *)
Definition relocate (g : FullGraphPartition) (s : DFA * list Z) (i : Z) : option (DFA * list Z) :=
  replacement ← nodeReplacement g i;
  if negb (i =? replacement) then
    relocation ← vec_set (snd s) i replacement;
    dfa ← kill (fst s) i;
    Some (dfa, relocation)
  else Some s.

(** [RangeIterator::resetTarget] for the transitions of a node. *)
Definition retarget (relocation : list Z) (destinations : list Z) (n : DFANode) : option (list Z) :=
  if isKilled n then Some destinations else
  foldM (fun destinations position =>
    target ← destinations.[position];
    relocatedTarget ← relocation.[target];
    if negb (target =? relocatedTarget) then vec_set destinations position relocatedTarget else Some destinations)
    destinations (seqZ (m_transitionsStart n) (m_transitionsLength n)).

Section Minimize.
(** The order in which the hash map of final states is iterated. *)
Variable iteration_order : list (list Z * list Z) -> list (list Z * list Z).

Definition minimize (dfa : DFA) : option DFA :=
  g ← createFullGraphPartition dfa;
  finalStates ← final_states dfa;
  g ← foldM (fun g slot => g ← foldM markNode g (snd slot); refinePartitions g) g (iteration_order finalStates);
  g ← splitByUniqueTransitions g;
  let indices := seqZ 0 (vlen (dfa_nodes dfa)) in
  '(dfa, relocation) ← foldM (relocate g) (dfa, indices) indices;
  root ← relocation.[dfa_root dfa];
  destinations ← foldM (retarget relocation) (transitionDestinations dfa) (dfa_nodes dfa);
  Some (mkDFA (dfa_nodes dfa) (dfa_actions dfa) (transitionRanges dfa) destinations root).
End Minimize.
