(* ===== verification/PartitionCorrect.v ===== *)
(** * The partition data structure of the minimizer

    Elements of a set are contiguous in the vector of elements, the marked ones
    first; the other vectors are inverse maps.  Marking an element and refining
    the marked sets keep this, and refine the partition by the marks. *)

From S2P Require Import Prelude DFA RangeList Minimizer.

(** ** Well-formed partitions *)

(** The set of an element. *)
Abbreviation cls p x := ((m_elementToSetMap p).[x]).

(** Two vectors that are inverse to each other. *)
Definition inverse (positions elements : list Z) : Prop :=
  forall x pos, positions.[x] = Some pos <-> elements.[pos] = Some x.

(** [n] elements. *)
Record wf_partition (n : Z) (p : Partition) : Prop := mkWf {
  wp_elements : vlen (m_partitionedElements p) = n;
  wp_positions : vlen (m_elementPositionInPartitionedNodes p) = n;
  wp_map : vlen (m_elementToSetMap p) = n;
  wp_inverse : inverse (m_elementPositionInPartitionedNodes p) (m_partitionedElements p);
  wp_set : forall s d, (m_sets p).[s] = Some d ->
    0 <= set_start d /\ 0 < set_size d /\ 0 <= markedCount d <= set_size d /\ set_start d + set_size d <= n;
  wp_class : forall x s pos, (m_elementPositionInPartitionedNodes p).[x] = Some pos ->
    (cls p x = Some s <-> exists d, (m_sets p).[s] = Some d /\ set_start d <= pos < set_start d + set_size d)
}.

(** An element is marked when it is among the first of its set. *)
Definition marked (p : Partition) (x : Z) : Prop :=
  exists s d pos, cls p x = Some s /\ (m_sets p).[s] = Some d /\
    (m_elementPositionInPartitionedNodes p).[x] = Some pos /\ pos < set_start d + markedCount d.

(** The sets with marked elements are those listed, once. *)
Definition marked_sets (p : Partition) (l : list Z) : Prop :=
  NoDup l /\ forall s, s ∈ l <-> exists d, (m_sets p).[s] = Some d /\ 0 < markedCount d.

Section Facts.
Variables (n : Z) (p : Partition).
Hypothesis Hwf : wf_partition n p.

Lemma position_of x : 0 <= x < n -> exists pos, (m_elementPositionInPartitionedNodes p).[x] = Some pos /\ 0 <= pos < n.
Proof.
  intros Hx. destruct (vec_at_is_Some (m_elementPositionInPartitionedNodes p) x) as [pos Hpos].
  { by rewrite (wp_positions _ _ Hwf). }
  exists pos. split; [done|]. pose proof (vec_at_lt _ _ _ (proj1 (wp_inverse _ _ Hwf _ _) Hpos)) as Hl. by rewrite (wp_elements _ _ Hwf) in Hl.
Qed.

Lemma element_of pos : 0 <= pos < n -> exists x, (m_partitionedElements p).[pos] = Some x /\
  (m_elementPositionInPartitionedNodes p).[x] = Some pos /\ 0 <= x < n.
Proof.
  intros Hpos. destruct (vec_at_is_Some (m_partitionedElements p) pos) as [x Hx]; [by rewrite (wp_elements _ _ Hwf)|].
  pose proof (proj2 (wp_inverse _ _ Hwf _ _) Hx) as Hp. exists x. split_and!; [done|done|..];
    apply vec_at_lt in Hp; rewrite (wp_positions _ _ Hwf) in Hp; lia.
Qed.

Lemma class_of x : 0 <= x < n -> exists s d pos, cls p x = Some s /\ (m_sets p).[s] = Some d /\
  (m_elementPositionInPartitionedNodes p).[x] = Some pos /\ set_start d <= pos < set_start d + set_size d /\ 0 <= pos < n.
Proof.
  intros Hx. destruct (position_of x Hx) as (pos & Hpos & Hr).
  destruct (vec_at_is_Some (m_elementToSetMap p) x) as [s Hs]; [by rewrite (wp_map _ _ Hwf)|].
  destruct (proj1 (wp_class _ _ Hwf x s pos Hpos) Hs) as (d & Hd & Hin). exists s, d, pos. done.
Qed.

Lemma class_lt x s : cls p x = Some s -> 0 <= x < n /\ 0 <= s < vlen (m_sets p).
Proof.
  intros Hc. pose proof (vec_at_lt _ _ _ Hc) as Hx. rewrite (wp_map _ _ Hwf) in Hx.
  destruct (class_of x Hx) as (s' & d & pos & Hc' & Hd & _). rewrite Hc in Hc'. injection Hc' as <-.
  split; [done|]. by apply vec_at_lt in Hd.
Qed.

(** The elements of a set. *)
Lemma set_member s d : (m_sets p).[s] = Some d -> exists x, cls p x = Some s /\ (m_partitionedElements p).[set_start d] = Some x.
Proof.
  intros Hd. destruct (wp_set _ _ Hwf s d Hd) as (H0 & H1 & H2 & H3).
  destruct (element_of (set_start d)) as (x & Hx & Hpos & _); [lia|]. exists x. split; [|done].
  apply (wp_class _ _ Hwf x s _ Hpos). exists d. split; [done|lia].
Qed.

Lemma sets_bound : vlen (m_sets p) <= n.
Proof.
  destruct (Z_le_gt_dec 0 n) as [H0|H0]; cycle 1.
  { destruct (m_sets p) as [|d l] eqn:E; [pose proof (wp_elements _ _ Hwf); lia|].
    destruct (wp_set _ _ Hwf 0 d) as (? & ? & ? & ?); [by rewrite E|lia]. }
  set (starts := map set_start (m_sets p)).
  assert (Hnd : List.NoDup starts).
  { apply NoDup_ListNoDup, NoDup_alt. intros i j st Hi Hj. unfold starts in Hi, Hj.
    rewrite list_lookup_fmap in Hi, Hj. apply fmap_Some in Hi as (di & Hi & ->). apply fmap_Some in Hj as (dj & Hj & Heq).
    rewrite <- vec_at_nat in Hi, Hj. destruct (set_member _ _ Hi) as (x & Hx & Ex). destruct (set_member _ _ Hj) as (y & Hy & Ey).
    rewrite <- Heq, Ex in Ey. injection Ey as <-. rewrite Hx in Hy. injection Hy as Hy. lia. }
  assert (Hincl : incl starts (seqZ 0 n)).
  { intros st Hst. apply in_map_iff in Hst as (d & <- & Hd). apply list_elem_of_In, list_elem_of_lookup in Hd as [i Hi].
    rewrite <- vec_at_nat in Hi. destruct (wp_set _ _ Hwf _ _ Hi) as (? & ? & ? & ?). apply list_elem_of_In, elem_of_seqZ. lia. }
  pose proof (NoDup_incl_length Hnd Hincl) as Hl. unfold starts in Hl. rewrite length_map, length_seqZ in Hl. lia.
Qed.

Lemma marked_class x s d pos :
  cls p x = Some s -> (m_sets p).[s] = Some d -> (m_elementPositionInPartitionedNodes p).[x] = Some pos ->
  (marked p x <-> pos < set_start d + markedCount d).
Proof.
  intros Hs Hd Hpos. split; [|intros; by exists s, d, pos].
  intros (s' & d' & pos' & Hs' & Hd' & Hpos' & Hlt). congruence.
Qed.

#[export] Instance marked_dec x : Decision (marked p x).
Proof.
  destruct (cls p x) as [s|] eqn:Hs; [|right; intros (? & ? & ? & ? & _); congruence].
  destruct ((m_sets p).[s]) as [d|] eqn:Hd; [|right; intros (? & ? & ? & ? & ? & _); congruence].
  destruct ((m_elementPositionInPartitionedNodes p).[x]) as [pos|] eqn:Hpos; [|right; intros (? & ? & ? & ? & ? & ? & _); congruence].
  destruct (decide (pos < set_start d + markedCount d)); [left; by exists s, d, pos|right].
  intros (s' & d' & pos' & Hs' & Hd' & Hpos' & Hlt). congruence.
Defined.
End Facts.

(** ** Initialization *)

Lemma vec_at_seqZ n i x : (seqZ 0 n).[i] = Some x <-> 0 <= i < n /\ x = i.
Proof.
  rewrite vec_at_Some, lookup_seqZ. split; [intros (? & -> & ?); split; lia|intros [? ->]; split_and!; lia].
Qed.

Lemma vec_at_replicate {A} (k : nat) (a : A) i x : (replicate k a).[i] = Some x <-> 0 <= i < Z.of_nat k /\ x = a.
Proof.
  rewrite vec_at_Some, lookup_replicate. split; [intros (? & -> & ?); split; [lia|done]|intros [? ->]; split_and!; [lia|done|lia]].
Qed.

Lemma initialize_wf n : 0 < n -> wf_partition n (initialize n) /\ marked_sets (initialize n) [] /\
  (forall x, 0 <= x < n -> cls (initialize n) x = Some 0) /\ (forall x, ~ marked (initialize n) x).
Proof.
  intros Hn. unfold initialize. rewrite (proj2 (Z.eqb_neq n 0)) by lia.
  assert (Hset : forall s d, [mkSet 0 n 0].[s] = Some d -> s = 0 /\ d = mkSet 0 n 0).
  { intros s d Hs. pose proof (vec_at_lt _ _ _ Hs) as Hl. cbn in Hl. assert (s = 0) as -> by lia. by injection Hs as <-. }
  split; [|split; [|split]]; cbn.
  - split; cbn.
    + rewrite length_seqZ. lia.
    + rewrite length_seqZ. lia.
    + rewrite length_replicate. lia.
    + intros x pos. rewrite !vec_at_seqZ. intuition congruence.
    + intros s d [-> ->]%Hset. cbn. lia.
    + intros x s pos [Hx ->]%vec_at_seqZ. rewrite vec_at_replicate. split.
      * intros [_ ->]. exists (mkSet 0 n 0). cbn. split; [done|lia].
      * intros (d & [-> ->]%Hset & _). split; [lia|done].
  - split; [constructor|]. intros s. rewrite elem_of_nil. split; [done|]. intros (d & [-> ->]%Hset & Hm). cbn in Hm. lia.
  - intros x Hx. apply vec_at_replicate. split; [lia|done].
  - intros x (s & d & pos & _ & [-> ->]%Hset & [Hx ->]%vec_at_seqZ & Hlt). cbn in Hlt. lia.
Qed.

(** ** Marking *)

(** The two elements whose positions are exchanged. *)
Lemma swap_inverse (P E : list Z) e pos fe first :
  inverse P E -> P.[e] = Some pos -> E.[first] = Some fe ->
  exists E1 E2 P1 P2, vec_set E first e = Some E1 /\ vec_set E1 pos fe = Some E2 /\
    vec_set P e first = Some P1 /\ vec_set P1 fe pos = Some P2 /\
    inverse P2 E2 /\ vlen E2 = vlen E /\ vlen P2 = vlen P /\
    forall x, P2.[x] = if decide (x = e) then Some first else if decide (x = fe) then Some pos else P.[x].
Proof.
  intros Hinv He Hf. pose proof (proj1 (Hinv _ _) He) as He'. pose proof (proj2 (Hinv _ _) Hf) as Hf'.
  pose proof (vec_at_lt _ _ _ He). pose proof (vec_at_lt _ _ _ Hf). pose proof (vec_at_lt _ _ _ He'). pose proof (vec_at_lt _ _ _ Hf').
  destruct (vec_set E first e) as [E1|] eqn:HE1; [|rewrite vec_set_Some in HE1; [done|lia]].
  pose proof (vec_set_length _ _ _ _ HE1).
  destruct (vec_set E1 pos fe) as [E2|] eqn:HE2; [|rewrite vec_set_Some in HE2; [done|lia]].
  pose proof (vec_set_length _ _ _ _ HE2).
  destruct (vec_set P e first) as [P1|] eqn:HP1; [|rewrite vec_set_Some in HP1; [done|lia]].
  pose proof (vec_set_length _ _ _ _ HP1).
  destruct (vec_set P1 fe pos) as [P2|] eqn:HP2; [|rewrite vec_set_Some in HP2; [done|lia]].
  pose proof (vec_set_length _ _ _ _ HP2).
  assert (Hef : fe = e -> first = pos) by (intros ->; congruence).
  assert (HP : forall x, P2.[x] = if decide (x = e) then Some first else if decide (x = fe) then Some pos else P.[x]).
  { intros x. rewrite (vec_at_set _ _ _ _ _ HP2), (vec_at_set _ _ _ _ _ HP1). repeat case_decide; subst; try done. by rewrite Hef. }
  exists E1, E2, P1, P2. split_and!; try done; [|lia|lia].
  intros x q. rewrite HP, (vec_at_set _ _ _ _ _ HE2), (vec_at_set _ _ _ _ _ HE1).
  repeat case_decide; subst; try done; try (rewrite Hinv; done); split; intros E'; simplify_eq; try done;
    try (rewrite Hef in * by done); try done; exfalso; apply Hinv in E'; congruence.
Qed.

Lemma wf_swap n p P2 E2 :
  wf_partition n p -> inverse P2 E2 -> vlen P2 = n -> vlen E2 = n ->
  (forall x q, P2.[x] = Some q -> exists x0, (m_elementPositionInPartitionedNodes p).[x0] = Some q /\ cls p x0 = cls p x) ->
  wf_partition n (mkPartition (m_sets p) E2 P2 (m_elementToSetMap p) (m_setsMarkedInCurrentGeneration p)).
Proof.
  intros Hwf Hinv HP HE Hcls. split; cbn; try done; [apply (wp_map _ _ Hwf)|apply (wp_set _ _ Hwf)|].
  intros x s q Hq. destruct (Hcls x q Hq) as (x0 & Hx0 & <-). by apply (wp_class _ _ Hwf).
Qed.

(** The counter of a set changes. *)
Lemma wf_count n p s d k sets l :
  wf_partition n p -> (m_sets p).[s] = Some d -> 0 <= k <= set_size d ->
  vec_set (m_sets p) s (mkSet (set_start d) (set_size d) k) = Some sets ->
  wf_partition n (mkPartition sets (m_partitionedElements p) (m_elementPositionInPartitionedNodes p) (m_elementToSetMap p) l).
Proof.
  intros Hwf Hd Hk HS. destruct (wp_set _ _ Hwf s d Hd) as (H0 & H1 & _ & H3).
  split; cbn; [apply Hwf|apply Hwf|apply Hwf|apply Hwf|..].
  - intros s' d'. rewrite (vec_at_set _ _ _ _ _ HS). case_decide; [intros [= <-]; cbn; lia|apply (wp_set _ _ Hwf)].
  - intros x s' q Hq. rewrite (wp_class _ _ Hwf x s' q Hq), (vec_at_set _ _ _ _ _ HS). case_decide; subst; [|done].
    rewrite Hd. split; intros (d0 & [= <-] & Hi); eexists; (split; [done|]); cbn in *; lia.
Qed.

(** Which elements are marked after a counter changed. *)
Lemma marked_count n p s d k sets l x :
  wf_partition n p -> (m_sets p).[s] = Some d -> 0 <= x < n ->
  vec_set (m_sets p) s (mkSet (set_start d) (set_size d) k) = Some sets ->
  marked (mkPartition sets (m_partitionedElements p) (m_elementPositionInPartitionedNodes p) (m_elementToSetMap p) l) x <->
  if decide (cls p x = Some s) then exists pos, (m_elementPositionInPartitionedNodes p).[x] = Some pos /\ pos < set_start d + k
  else marked p x.
Proof.
  intros Hwf Hd Hx HS. unfold marked at 1. cbn. case_decide as Hc.
  - split.
    + intros (s' & d' & pos & Hs' & Hd' & Hpos & Hlt). exists pos. split; [done|]. assert (s' = s) as -> by congruence.
      rewrite (vec_at_set _ _ _ _ _ HS), decide_True in Hd' by done. injection Hd' as <-. done.
    + intros (pos & Hpos & Hlt). exists s, (mkSet (set_start d) (set_size d) k), pos.
      rewrite (vec_at_set _ _ _ _ _ HS), decide_True by done. done.
  - split; intros (s' & d' & pos & Hs' & Hd' & Hr); exists s', d', pos; (split; [done|]);
      rewrite (vec_at_set _ _ _ _ _ HS), decide_False in * by congruence; done.
Qed.

Section Mark.
Variables (n : Z) (p : Partition) (e : Z).
Hypothesis Hwf : wf_partition n p.
Hypothesis Hn : n < 2 ^ 31.
Hypothesis He : 0 <= e < n.
Hypothesis Hunmarked : ~ marked p e.

Lemma marked_sets_mark s d sets l :
  (m_sets p).[s] = Some d -> 0 <= markedCount d ->
  vec_set (m_sets p) s (mkSet (set_start d) (set_size d) (markedCount d + 1)) = Some sets ->
  marked_sets p l -> forall p', m_sets p' = sets -> marked_sets p' (if markedCount d =? 0 then l ++ [s] else l).
Proof.
  intros Hd Hk HS [Hnd Hms] p' <-.
  assert (Hin' : forall s', (exists d', (m_sets p').[s'] = Some d' /\ 0 < markedCount d') <-> s' = s \/ s' ∈ l).
  { intros s'. rewrite Hms, (vec_at_set _ _ _ _ _ HS). case_decide; subst.
    - split; [by left|]. intros _. eexists. split; [done|]. cbn. lia.
    - split; [by right|]. intros [?|?]; [congruence|done]. }
  assert (Hs : s ∈ l <-> 0 < markedCount d).
  { rewrite Hms. split; [intros (d' & ? & ?); congruence|eauto]. }
  split.
  - case_bool; [|done]. apply NoDup_app. split_and!; [done| |by apply NoDup_singleton].
    intros s' Hs' ->%list_elem_of_singleton. apply Hs in Hs'. lia.
  - intros s'. rewrite Hin'. case_bool.
    + rewrite elem_of_app, list_elem_of_singleton. tauto.
    + split; [by right|]. intros [->|?]; [|done]. apply Hs. lia.
Qed.

Lemma mark_spec : exists p', markElementInCurrentGeneration p e = Some p' /\ wf_partition n p' /\
  m_elementToSetMap p' = m_elementToSetMap p /\ length (m_sets p') = length (m_sets p) /\
  (forall x, 0 <= x < n -> (marked p' x <-> marked p x \/ x = e)) /\
  (marked_sets p (m_setsMarkedInCurrentGeneration p) -> marked_sets p' (m_setsMarkedInCurrentGeneration p')).
Proof.
  destruct (class_of n p Hwf e He) as (s & d & pos & Hs & Hd & Hpos & Hin & Hposn).
  destruct (wp_set _ _ Hwf s d Hd) as (H0 & H1 & H2 & H3).
  assert (Hge : set_start d + markedCount d <= pos).
  { apply Z.nlt_ge. intros Hlt. apply Hunmarked. by exists s, d, pos. }
  unfold markElementInCurrentGeneration. rewrite Hs, option_bind_Some, Hd, option_bind_Some, Hpos, option_bind_Some. cbv zeta.
  unfold indexAfterMarkedElements. rewrite (u32_small (set_start d + markedCount d)), (u32_small (markedCount d + 1)) by lia.
  remember (set_start d + markedCount d) as first eqn:Hfirst.
  destruct (element_of n p Hwf first) as (fe & Hfe & Hfpos & Hfen); [lia|].
  rewrite Hfe, option_bind_Some.
  destruct (swap_inverse _ _ e pos fe first (wp_inverse _ _ Hwf) Hpos Hfe)
    as (E1 & E2 & P1 & P2 & HE1 & HE2 & HP1 & HP2 & Hinv & HlE & HlP & HP).
  rewrite HE1, option_bind_Some, HE2, option_bind_Some, HP1, option_bind_Some, HP2, option_bind_Some.
  destruct (vec_set (m_sets p) s (mkSet (set_start d) (set_size d) (markedCount d + 1))) as [S2|] eqn:HS2;
    [|rewrite vec_set_Some in HS2; [done|by apply vec_at_lt in Hd]].
  rewrite option_bind_Some. eexists. split; [done|].
  assert (Hfs : cls p fe = Some s) by (apply (wp_class _ _ Hwf fe s first Hfpos); exists d; split; [done|lia]).
  assert (Hwf' : wf_partition n (mkPartition (m_sets p) E2 P2 (m_elementToSetMap p) (m_setsMarkedInCurrentGeneration p))).
  { apply wf_swap; [done|done|rewrite HlP; apply Hwf|rewrite HlE; apply Hwf|].
    intros x q. rewrite HP. repeat case_decide; subst; intros E; simplify_eq; eexists; (split; [done|]); congruence. }
  split; [|split; [done|split; [by apply (vec_set_length _ _ _ _ HS2)|split]]].
  - apply (wf_count n _ s d (markedCount d + 1) S2 _ Hwf'); [done|lia|done].
  - intros x Hx. cbn [m_setsMarkedInCurrentGeneration].
    rewrite (marked_count n _ s d (markedCount d + 1) S2 _ x Hwf' Hd Hx HS2). cbn. rewrite HP.
    destruct (class_of n p Hwf x Hx) as (s1 & d1 & q1 & Hs1 & Hd1 & Hq1 & Hin1 & _).
    rewrite (marked_class p x s1 d1 q1 Hs1 Hd1 Hq1).
    repeat case_decide; subst; simplify_eq.
    + split; [by right|]. intros _. eexists. split; [done|lia].
    + assert (pos <> set_start d + markedCount d) by (intros ->; apply (wp_inverse _ _ Hwf) in Hpos; congruence).
      split; [intros (? & [= <-] & ?); lia|intros [?|?]; [lia|done]].
    + assert (q1 <> set_start d + markedCount d) by (intros ->; apply (wp_inverse _ _ Hwf) in Hq1; congruence).
      rewrite Hq1. split; [intros (? & [= <-] & ?); lia|intros [?|?]; [|done]]. eexists. split; [done|lia].
    + unfold marked. cbn. rewrite Hs1, HP. split.
      * intros (s' & d' & q & [= <-] & Hd' & Hq & Hlt). rewrite !decide_False in Hq by (intros ->; congruence).
        left. congruence.
      * intros [Hlt| ->]; [|congruence]. exists s1, d1, q1. rewrite !decide_False by (intros ->; congruence). done.
  - intros Hms. apply (marked_sets_mark s d S2); [done|lia|done|done|done].
Qed.
End Mark.

(** ** Reading sets *)

Lemma foldM_nil {A S} (f : S -> A -> option S) s : foldM f s [] = Some s.
Proof. done. Qed.

Lemma foldM_None {A S} (f : S -> A -> option S) l : foldl (fun s a => s ← s; f s a) None l = None.
Proof. induction l as [|a l IH]; [done|exact IH]. Qed.

Lemma foldM_cons {A S} (f : S -> A -> option S) s a l : foldM f s (a :: l) = (s' ← f s a; foldM f s' l).
Proof. unfold foldM. cbn. destruct (f s a); cbn; [done|apply foldM_None]. Qed.

Lemma foldM_app {A S} (f : S -> A -> option S) s l1 l2 : foldM f s (l1 ++ l2) = (s' ← foldM f s l1; foldM f s' l2).
Proof.
  revert s. induction l1 as [|a l1 IH]; intros s; [done|]. cbn [app]. rewrite !foldM_cons. destruct (f s a); cbn; [apply IH|done].
Qed.

(** A loop that keeps an invariant does not abort. *)
Lemma foldM_inv {A S} (f : S -> A -> option S) (I : S -> list A -> Prop) :
  (forall s a l, I s (a :: l) -> exists s', f s a = Some s' /\ I s' l) ->
  forall l s, I s l -> exists s', foldM f s l = Some s' /\ I s' [].
Proof.
  intros Hstep l. induction l as [|a l IH]; intros s Hs; [by exists s|].
  destruct (Hstep s a l Hs) as (s' & Hf & Hs'). rewrite foldM_cons, Hf. cbn. by apply IH.
Qed.

Lemma set_elements_spec n p s d :
  wf_partition n p -> n < 2 ^ 31 -> (m_sets p).[s] = Some d ->
  exists l, set_elements p s = Some l /\ NoDup l /\ forall x, x ∈ l <-> cls p x = Some s.
Proof.
  intros Hwf Hn Hd. destruct (wp_set _ _ Hwf s d Hd) as (H0 & H1 & H2 & H3).
  unfold set_elements, set_end. rewrite Hd, option_bind_Some, u32_small by lia.
  replace (set_start d + set_size d - set_start d) with (set_size d) by lia.
  destruct (mapM (fun i => (m_partitionedElements p).[i]) (seqZ (set_start d) (set_size d))) as [l|] eqn:Hl.
  - apply mapM_Some_1 in Hl. exists l. split; [done|].
    assert (Hx : forall i x, l !! i = Some x -> (m_elementPositionInPartitionedNodes p).[x] = Some (set_start d + Z.of_nat i) /\ Z.of_nat i < set_size d).
    { intros i x Hi. destruct (Forall2_lookup_r _ _ _ _ _ Hl Hi) as (q & Hq & Hx). apply lookup_seqZ in Hq as [-> Hq].
      split; [by apply (wp_inverse _ _ Hwf)|done]. }
    split.
    + apply NoDup_alt. intros i j x Hi%Hx Hj%Hx. destruct Hi as [Hi _], Hj as [Hj _]. rewrite Hi in Hj. injection Hj as Hj. lia.
    + intros x. split.
      * intros [i Hi]%list_elem_of_lookup. apply Hx in Hi as [Hi Hlt]. apply (wp_class _ _ Hwf x s _ Hi). exists d. split; [done|lia].
      * intros Hc. pose proof (class_lt n p Hwf x s Hc) as [Hxn _]. destruct (position_of n p Hwf x Hxn) as (pos & Hpos & _).
        destruct (proj1 (wp_class _ _ Hwf x s pos Hpos) Hc) as (d' & Hd' & Hin). rewrite Hd in Hd'. injection Hd' as <-.
        assert (Hq : seqZ (set_start d) (set_size d) !! Z.to_nat (pos - set_start d) = Some pos) by (apply lookup_seqZ; lia).
        destruct (Forall2_lookup_l _ _ _ _ _ Hl Hq) as (x' & Hx' & Hp). apply (wp_inverse _ _ Hwf) in Hpos.
        assert (x' = x) as -> by congruence. by eapply list_elem_of_lookup_2.
  - exfalso. apply mapM_None, Exists_exists in Hl as (i & Hi & HN). apply elem_of_seqZ in Hi.
    destruct (element_of n p Hwf i) as (x & Hx & _); [lia|congruence].
Qed.

(** ** Splitting a set *)

Lemma relabel_spec n p (k : Z) T ps :
  wf_partition n p -> vlen T = n -> Forall (fun i => 0 <= i < n) ps ->
  exists T', foldM (fun T i => element ← (m_partitionedElements p).[i]; vec_set T element k) T ps = Some T' /\ vlen T' = n /\
    forall x pos, (m_elementPositionInPartitionedNodes p).[x] = Some pos -> T'.[x] = if decide (pos ∈ ps) then Some k else T.[x].
Proof.
  intros Hwf. revert T. induction ps as [|i ps IH]; intros T HT Hi.
  { exists T. split_and!; [done|done|]. intros x pos _. rewrite decide_False; [done|by apply not_elem_of_nil]. }
  apply Forall_cons in Hi as [Hi His]. destruct (element_of n p Hwf i Hi) as (e & He & Hep & Hen).
  rewrite foldM_cons, He, option_bind_Some, vec_set_Some by lia. cbn.
  destruct (IH (<[Z.to_nat e:=k]> T)) as (T' & HF & HT' & Hcls); [by rewrite length_insert|done|].
  exists T'. split_and!; [done|done|]. intros x pos Hpos. rewrite (Hcls x pos Hpos).
  assert (Hset : vec_set T e k = Some (<[Z.to_nat e:=k]> T)) by (apply vec_set_Some; lia).
  rewrite (vec_at_set _ _ _ x _ Hset). destruct (decide (pos ∈ ps)) as [Hin|Hin].
  - rewrite decide_True; [done|by right].
  - case_decide; subst.
    + rewrite decide_True; [done|]. assert (pos = i) as -> by congruence. by left.
    + rewrite decide_False; [done|]. intros [->|?]%elem_of_cons; [|done]. apply (wp_inverse _ _ Hwf) in Hpos. congruence.
Qed.

(** The new set takes a part of the positions of a set. *)
Lemma wf_split n p s d a len b len2 sets T' l :
  wf_partition n p -> (m_sets p).[s] = Some d -> 0 < len -> 0 < len2 -> len + len2 = set_size d ->
  (a = set_start d /\ b = a + len \/ b = set_start d /\ a = b + len2) ->
  vec_set (m_sets p) s (mkSet b len2 0) = Some sets -> vlen T' = n ->
  (forall x pos, (m_elementPositionInPartitionedNodes p).[x] = Some pos ->
     T'.[x] = if decide (a <= pos < a + len) then Some (vlen (m_sets p)) else cls p x) ->
  wf_partition n (mkPartition (sets ++ [mkSet a len 0]) (m_partitionedElements p) (m_elementPositionInPartitionedNodes p) T' l).
Proof.
  intros Hwf Hd Hlen Hlen2 Hsum Hab HS HT Hcls. destruct (wp_set _ _ Hwf s d Hd) as (H0 & H1 & H2 & H3).
  pose proof (vec_at_lt _ _ _ Hd) as Hs. pose proof (vec_set_length _ _ _ _ HS) as Hl.
  assert (Hsets : forall s' d', (sets ++ [mkSet a len 0]).[s'] = Some d' <->
            s' = vlen (m_sets p) /\ d' = mkSet a len 0 \/ s' = s /\ d' = mkSet b len2 0 \/ s' <> s /\ (m_sets p).[s'] = Some d').
  { intros s' d'. destruct (decide (s' = vlen (m_sets p))) as [->|Hne].
    - rewrite <- Hl at 1. rewrite vec_at_snoc. split; [intros [= <-]; by left|]. intros [[_ ->]|[[? _]|[_ E]]]; [done|lia|].
      apply vec_at_lt in E. lia.
    - destruct (Z_lt_ge_dec s' (vlen (m_sets p))) as [Hlt|Hge].
      + rewrite vec_at_app_l by lia. rewrite (vec_at_set _ _ _ _ _ HS). case_decide; subst.
        * split; [intros [= <-]; tauto|]. intros [[? _]|[[_ ->]|[? _]]]; [lia|done|done].
        * split; [intros ?; right; right; done|]. intros [[? _]|[[? _]|[_ ?]]]; [lia|congruence|done].
      + split.
        * intros E%vec_at_lt. rewrite length_app in E. cbn in E. lia.
        * intros [[? _]|[[? _]|[_ E]]]; [lia|lia|]. apply vec_at_lt in E. lia. }
  split; cbn; [apply Hwf|apply Hwf|done|apply Hwf|..].
  - intros s' d'. rewrite Hsets. intros [[-> ->]|[[-> ->]|[_ Hd']]]; cbn; [lia|lia|by apply (wp_set _ _ Hwf s' d')].
  - intros x s' pos Hpos. rewrite (Hcls x pos Hpos). pose proof (wp_class _ _ Hwf x) as Hc. case_decide as Hp.
    + assert (Hx : cls p x = Some s) by (apply (Hc s pos Hpos); exists d; split; [done|lia]). split.
      * intros [= <-]. exists (mkSet a len 0). rewrite Hsets. cbn. tauto.
      * intros (d' & Hd' & Hin). apply Hsets in Hd' as [[-> ->]|[[-> ->]|[Hne Hd']]]; cbn in Hin; [done|lia|].
        assert (cls p x = Some s') by (apply (Hc s' pos Hpos); by exists d'). congruence.
    + rewrite (Hc s' pos Hpos). split.
      * intros (d' & Hd' & Hin). destruct (decide (s' = s)) as [->|Hne]; [|exists d'; rewrite Hsets; tauto].
        rewrite Hd in Hd'. injection Hd' as <-. exists (mkSet b len2 0). rewrite Hsets. cbn. split; [tauto|lia].
      * intros (d' & Hd' & Hin). apply Hsets in Hd' as [[-> ->]|[[-> ->]|[Hne Hd']]]; cbn in Hin; [done|exists d; split; [done|lia]|by exists d'].
Qed.

(** What refining one set does: the marked and the other elements of the set are separated. *)
Record refined_set (n : Z) (p : Partition) (s : Z) (p' : Partition) (o : option Z) : Prop := mkRefinedSet {
  rs_wf : wf_partition n p';
  rs_same : forall x y, 0 <= x < n -> 0 <= y < n ->
    (cls p' x = cls p' y <-> cls p x = cls p y /\ (cls p x = Some s -> (marked p x <-> marked p y)));
  rs_class : forall x, 0 <= x < n -> cls p' x = cls p x \/ cls p x = Some s /\ o = Some (vlen (m_sets p)) /\ cls p' x = o;
  rs_marked : forall x, 0 <= x < n -> (marked p' x <-> marked p x /\ cls p x <> Some s);
  rs_sets : forall l, marked_sets p (s :: l) -> marked_sets p' l;
  rs_new : match o with
           | None => vlen (m_sets p') = vlen (m_sets p)
           | Some k => k = vlen (m_sets p) /\ vlen (m_sets p') = k + 1
           end
}.

Section RefineSet.
Variables (n : Z) (p : Partition) (s : Z) (d : SetDescriptor).
Hypothesis Hwf : wf_partition n p.
Hypothesis Hn : n < 2 ^ 31.
Hypothesis Hd : (m_sets p).[s] = Some d.

(** Every element of the set is marked. *)
Lemma refine_set_whole :
  markedCount d = set_size d ->
  exists p', refine_set p s = Some (p', None) /\ refined_set n p s p' None.
Proof.
  intros Hall. destruct (wp_set _ _ Hwf s d Hd) as (H0 & H1 & H2 & H3).
  unfold refine_set. rewrite Hd, option_bind_Some, (proj2 (Z.eqb_eq _ _) Hall).
  destruct (vec_set (m_sets p) s (mkSet (set_start d) (set_size d) 0)) as [S2|] eqn:HS2;
    [|rewrite vec_set_Some in HS2; [done|by apply vec_at_lt in Hd]].
  rewrite option_bind_Some. eexists. split; [done|].
  assert (Hmk : forall x, 0 <= x < n -> cls p x = Some s -> marked p x).
  { intros x Hx Hc. destruct (class_of n p Hwf x Hx) as (s' & d' & pos & Hs' & Hd' & Hpos & Hin & _). assert (s' = s) as -> by congruence.
    exists s, d', pos. split_and!; [done..|]. rewrite Hd in Hd'. injection Hd' as <-. lia. }
  split; cbn [m_elementToSetMap m_sets].
  - apply (wf_count n p s d 0); [done..|lia|done].
  - intros x y Hx Hy. split; [|by intros []]. intros E. split; [done|]. intros Hc. split; intros _; apply Hmk; congruence.
  - by left.
  - intros x Hx. rewrite (marked_count n p s d 0 S2 _ x Hwf Hd Hx HS2). case_decide as Hc; [|tauto]. split; [|tauto].
    intros (pos & Hpos & Hlt). exfalso. destruct (proj1 (wp_class _ _ Hwf x s pos Hpos) Hc) as (d' & Hd' & Hin).
    rewrite Hd in Hd'. injection Hd' as <-. lia.
  - intros l [Hnd Hms]. apply NoDup_cons in Hnd as [Hsl Hnd]. split; [done|]. intros s'. cbn. rewrite (vec_at_set _ _ _ _ _ HS2).
    case_decide; subst; [|rewrite <- Hms, elem_of_cons; split; [tauto|intros [?|?]; [congruence|done]]].
    split; [done|]. intros (d' & [= <-] & Hlt). cbn in Hlt. lia.
  - by rewrite (vec_set_length _ _ _ _ HS2).
Qed.

(** The descriptor of the set and of the new set. *)
Lemma refine_set_part a len b len2 newIsMarked sets T' l0 :
  0 < len -> 0 < len2 -> len + len2 = set_size d ->
  (newIsMarked = true /\ a = set_start d /\ b = a + len /\ len = markedCount d \/
   newIsMarked = false /\ b = set_start d /\ a = b + len2 /\ len2 = markedCount d) ->
  vec_set (m_sets p) s (mkSet b len2 0) = Some sets -> vlen T' = n ->
  (forall x pos, (m_elementPositionInPartitionedNodes p).[x] = Some pos ->
     T'.[x] = if decide (a <= pos < a + len) then Some (vlen (m_sets p)) else cls p x) ->
  refined_set n p s (mkPartition (sets ++ [mkSet a len 0]) (m_partitionedElements p) (m_elementPositionInPartitionedNodes p) T' l0)
    (Some (vlen (m_sets p))).
Proof.
  intros Hlen Hlen2 Hsum Hab HS HT Hcls. set (k := vlen (m_sets p)) in *.
  assert (Hwf' : wf_partition n (mkPartition (sets ++ [mkSet a len 0]) (m_partitionedElements p) (m_elementPositionInPartitionedNodes p) T' l0)).
  { apply (wf_split n p s d a len b len2); try done. destruct Hab as [(_ & ? & ? & _)|(_ & ? & ? & _)]; [left|right]; done. }
  assert (Hc : forall x, 0 <= x < n -> T'.[x] = if decide (cls p x = Some s /\ (marked p x <-> newIsMarked = true)) then Some k else cls p x).
  { intros x Hx. destruct (class_of n p Hwf x Hx) as (s' & d' & pos & Hs' & Hd' & Hpos & Hin & _).
    rewrite (Hcls x pos Hpos). apply decide_ext. rewrite (marked_class p x s' d' pos Hs' Hd' Hpos), Hs'. split.
    - intros Hp. assert (Hx' : cls p x = Some s) by (apply (wp_class _ _ Hwf x s pos Hpos); exists d; split; [done|lia]).
      rewrite Hs' in Hx'. injection Hx' as ->. rewrite Hd in Hd'. injection Hd' as <-. split; [done|].
      destruct Hab as [(-> & Hab)|(-> & Hab)]; split; try done; lia.
    - intros [[= ->] Hm]. rewrite Hd in Hd'. injection Hd' as <-. destruct Hab as [(-> & Hab)|(-> & Hab)].
      + destruct Hm as [_ Hm]. specialize (Hm eq_refl). lia.
      + destruct Hm as [Hm _]. destruct (Z_lt_ge_dec pos (set_start d + markedCount d)) as [Hlt|]; [specialize (Hm Hlt); done|lia]. }
  assert (Hk : forall x, 0 <= x < n -> cls p x <> Some k).
  { intros x Hx Hk. apply (class_lt n p Hwf) in Hk as [_ Hk]. lia. }
  assert (Hold : forall s', s' <> s -> s' < k -> (sets ++ [mkSet a len 0]).[s'] = (m_sets p).[s']).
  { intros s' Hne Hlt. rewrite vec_at_app_l by (rewrite (vec_set_length _ _ _ _ HS); done).
    by rewrite (vec_at_set _ _ _ _ _ HS), decide_False. }
  assert (Hnone : forall s' d', (sets ++ [mkSet a len 0]).[s'] = Some d' -> 0 < markedCount d' -> s' <> s /\ s' < k).
  { intros s' d' Hs' Hm. pose proof (vec_at_lt _ _ _ Hs') as Hl. rewrite length_app, (vec_set_length _ _ _ _ HS) in Hl. cbn in Hl.
    destruct (decide (s' = k)) as [->|].
    - unfold k in Hs'. rewrite <- (vec_set_length _ _ _ _ HS), vec_at_snoc in Hs'. injection Hs' as <-. cbn in Hm. lia.
    - split; [|unfold k; lia]. intros ->. rewrite vec_at_app_l in Hs' by (rewrite (vec_set_length _ _ _ _ HS); lia).
      rewrite (vec_at_set _ _ _ _ _ HS), decide_True in Hs' by done. injection Hs' as <-. cbn in Hm. lia. }
  split; cbn [m_elementToSetMap m_sets].
  - done.
  - intros x y Hx Hy. pose proof (Hk x Hx). pose proof (Hk y Hy). rewrite (Hc x Hx), (Hc y Hy).
    assert (Hm : forall z, (cls p z = Some s /\ (marked p z <-> newIsMarked = true)) \/ cls p z <> Some s \/
              (cls p z = Some s /\ ~ (marked p z <-> newIsMarked = true) /\ (marked p z <-> newIsMarked = false))).
    { intros z. destruct (decide (cls p z = Some s)); [|tauto]. destruct (decide (marked p z)), newIsMarked; naive_solver. }
    destruct (Hm x) as [Hx'|[Hx'|Hx']], (Hm y) as [Hy'|[Hy'|Hy']]; repeat case_decide; try tauto; split; try tauto; intuition congruence.
  - intros x Hx. rewrite (Hc x Hx). destruct (decide (_ /\ _)); [right; tauto|by left].
  - intros x Hx. split.
    + intros (s' & d' & pos & Hs' & Hd' & Hpos & Hlt). cbn in Hs', Hd', Hpos.
      destruct (proj1 (wp_class _ _ Hwf' x s' pos Hpos) Hs') as (d2 & Hd2 & Hin). cbn in Hd2. rewrite Hd' in Hd2. injection Hd2 as <-.
      destruct (Hnone s' d' Hd') as [Hne Hlt']; [lia|]. rewrite (Hc x Hx) in Hs'. case_decide; [injection Hs' as <-; lia|].
      rewrite Hold in Hd' by done. split; [by exists s', d', pos|congruence].
    + intros [(s' & d' & pos & Hs' & Hd' & Hpos & Hlt) Hne]. exists s', d', pos. cbn.
      rewrite (Hc x Hx), decide_False by tauto. rewrite Hold; [done|congruence|]. apply vec_at_lt in Hd'. unfold k; lia.
  - intros l [Hnd Hms]. apply NoDup_cons in Hnd as [Hsl Hnd]. split; [done|]. intros s'. cbn. split.
    + intros Hin. destruct (proj1 (Hms s')) as (d' & Hd' & Hm); [by right|]. exists d'. rewrite Hold; [done|congruence|].
      apply vec_at_lt in Hd'. unfold k; lia.
    + intros (d' & Hd' & Hm). destruct (Hnone s' d' Hd' Hm) as [Hne Hlt]. rewrite Hold in Hd' by done.
      assert (s' ∈ s :: l) as [?|?]%elem_of_cons by (apply Hms; by exists d'); [congruence|done].
  - split; [done|]. rewrite length_app, (vec_set_length _ _ _ _ HS). cbn. unfold k. lia.
Qed.

Lemma refine_set_spec :
  0 < markedCount d -> vlen (m_sets p) <= n ->
  exists p' o, refine_set p s = Some (p', o) /\ refined_set n p s p' o.
Proof.
  intros Hm Hk. destruct (decide (markedCount d = set_size d)) as [Hall|Hnot].
  { destruct (refine_set_whole Hall) as (p' & H1 & H2). by exists p', None. }
  destruct (wp_set _ _ Hwf s d Hd) as (H0 & H1 & H2 & H3).
  unfold refine_set. rewrite Hd, option_bind_Some, (proj2 (Z.eqb_neq _ _) Hnot).
  rewrite (u32_small (markedCount d * 2)), !(u32_small (set_start d + markedCount d)), (u32_small (set_size d - markedCount d)) by lia.
  set (b := markedCount d * 2 <=? set_size d). cbv zeta.
  replace (if b then mkSet (set_start d) (markedCount d) 0 else mkSet (set_start d + markedCount d) (set_size d - markedCount d) 0)
    with (mkSet (if b then set_start d else set_start d + markedCount d) (if b then markedCount d else set_size d - markedCount d) 0)
    by (by destruct b).
  unfold relabel, set_end. cbn [set_start set_size].
  rewrite (u32_small (set_size d - _)), (u32_small ((if b then _ else _) + _)) by (destruct b; lia).
  destruct (vec_set (m_sets p) s _) as [S2|] eqn:HS2; [|rewrite vec_set_Some in HS2; [done|by apply vec_at_lt in Hd]].
  rewrite option_bind_Some, (vec_set_length _ _ _ _ HS2), (u32_small (vlen (m_sets p))) by lia. rewrite Z.add_simpl_l.
  destruct (relabel_spec n p (vlen (m_sets p)) (m_elementToSetMap p)
    (seqZ (if b then set_start d else set_start d + markedCount d) (if b then markedCount d else set_size d - markedCount d)) Hwf (wp_map _ _ Hwf))
    as (T' & HT & HlT & Hcls).
  { apply Forall_forall. intros i Hi. apply elem_of_seqZ in Hi. destruct b; lia. }
  rewrite HT, option_bind_Some. do 2 eexists. split; [reflexivity|].
  eapply (refine_set_part _ _ _ _ b); [..|exact HS2|exact HlT|].
  - destruct b; lia.
  - destruct b; lia.
  - destruct b; lia.
  - destruct b; [left|right]; split; [done|lia|done|lia].
  - intros x pos Hpos. rewrite (Hcls x pos Hpos). apply decide_ext. apply elem_of_seqZ.
Qed.
End RefineSet.

(** ** Refining a generation *)

Definition with_marks (p : Partition) (l : list Z) : Partition :=
  mkPartition (m_sets p) (m_partitionedElements p) (m_elementPositionInPartitionedNodes p) (m_elementToSetMap p) l.

Lemma wf_with_marks n p l : wf_partition n p -> wf_partition n (with_marks p l).
Proof. intros []. by split. Qed.

Lemma unmarked n p : wf_partition n p -> marked_sets p [] -> forall x, ~ marked p x.
Proof.
  intros Hwf [_ Hms] x (s & d & pos & Hs & Hd & Hpos & Hlt).
  destruct (proj1 (wp_class _ _ Hwf x s pos Hpos) Hs) as (d' & Hd' & Hin). rewrite Hd in Hd'. injection Hd' as <-.
  assert (s ∈ []) as []%elem_of_nil. apply Hms. exists d. split; [done|lia].
Qed.

(** Two elements cannot be told apart by their sets and marks. *)
Definition alike (p : Partition) (x y : Z) : Prop := cls p x = cls p y /\ (marked p x <-> marked p y).

Lemma alike_refined n p s p' o x y :
  refined_set n p s p' o -> 0 <= x < n -> 0 <= y < n -> (alike p' x y <-> alike p x y).
Proof.
  intros Hr Hx Hy. unfold alike. rewrite (rs_same _ _ _ _ _ Hr x y Hx Hy), (rs_marked _ _ _ _ _ Hr x Hx), (rs_marked _ _ _ _ _ Hr y Hy).
  destruct (decide (cls p x = Some s)), (decide (cls p y = Some s)); intuition congruence.
Qed.

(** A quiet partition has no marks, and knows it. *)
Record quiet (n : Z) (p : Partition) : Prop := mkQuiet {
  q_wf : wf_partition n p;
  q_sets : marked_sets p [];
  q_list : m_setsMarkedInCurrentGeneration p = []
}.

(** The sets of [p'] refine those of [p]; old indices keep a part of their set. *)
Record refinement (n : Z) (same : Z -> Z -> Prop) (p p' : Partition) : Prop := mkRefinement {
  rf_same : forall x y, 0 <= x < n -> 0 <= y < n -> (cls p' x = cls p' y <-> same x y);
  rf_class : forall x, 0 <= x < n -> cls p' x = cls p x \/ exists k, cls p' x = Some k /\ vlen (m_sets p) <= k;
  rf_length : vlen (m_sets p) <= vlen (m_sets p')
}.

Section Generation.
Context {S : Type} (function : Partition -> S -> Z -> option S) (J : Partition -> S -> Prop) (n : Z).
Hypothesis Hn : n < 2 ^ 31.
Hypothesis Jstep : forall p s p' o st, J p st -> wf_partition n p -> refined_set n p s p' o ->
  match o with None => J p' st | Some k => exists st', function p' st k = Some st' /\ J p' st' end.
Hypothesis Jmarks : forall p st l, J p st -> J (with_marks p l) st.

Lemma refineGeneration_spec p st :
  wf_partition n p -> marked_sets p (m_setsMarkedInCurrentGeneration p) -> J p st ->
  exists p' st', refineGeneration function p st = Some (p', st') /\ quiet n p' /\ refinement n (alike p) p p' /\ J p' st'.
Proof.
  intros Hwf Hms HJ. set (I := fun (qs : Partition * S) l => wf_partition n (fst qs) /\ marked_sets (fst qs) l /\ J (fst qs) (snd qs) /\
    refinement n (fun x y => cls (fst qs) x = cls (fst qs) y) p (fst qs) /\
    forall x y, 0 <= x < n -> 0 <= y < n -> (alike (fst qs) x y <-> alike p x y)).
  destruct (foldM_inv (refine_one function) I) with (l := m_setsMarkedInCurrentGeneration p) (s := (p, st)) as ([p' st'] & Hf & HI).
  - intros [q sq] s l (Hq & Hqm & HJq & Hrf & Halike). cbn [fst snd] in *. unfold refine_one. cbn [fst snd].
    destruct (proj1 (proj2 Hqm s)) as (d & Hd & Hm); [by left|].
    destruct (refine_set_spec n q s d Hq Hn Hd Hm (sets_bound n q Hq)) as (q' & o & -> & Hr).
    rewrite option_bind_Some. specialize (Jstep q s q' o sq HJq Hq Hr).
    assert (Hrf' : refinement n (fun x y => cls q' x = cls q' y) p q').
    { split; [done| |].
      - intros x Hx. destruct (rs_class _ _ _ _ _ Hr x Hx) as [->|(_ & -> & ->)]; [by apply (rf_class _ _ _ _ Hrf)|].
        right. eexists. split; [done|]. apply (rf_length _ _ _ _ Hrf).
      - pose proof (rf_length _ _ _ _ Hrf). pose proof (rs_new _ _ _ _ _ Hr). destruct o; lia. }
    assert (Halike' : forall x y, 0 <= x < n -> 0 <= y < n -> (alike q' x y <-> alike p x y)).
    { intros x y Hx Hy. rewrite (alike_refined _ _ _ _ _ x y Hr Hx Hy). auto. }
    pose proof (rs_wf _ _ _ _ _ Hr). pose proof (rs_sets _ _ _ _ _ Hr l Hqm).
    destruct o as [k|]; [destruct Jstep as (st' & -> & HJ')|]; eexists; (split; [reflexivity|]); done.
  - split_and!; try done. split; cbn; [done|by left|lia].
  - destruct HI as (Hwf' & Hms' & HJ' & Hrf & Halike). cbn [fst snd] in *. unfold refineGeneration. rewrite Hf, option_bind_Some.
    exists (with_marks p' []), st'. split_and!; [done| |split|by apply Jmarks].
    + split; [by apply wf_with_marks|done|done].
    + intros x y Hx Hy. cbn. rewrite <- Halike by done. unfold alike. pose proof (unmarked n p' Hwf' Hms' x). pose proof (unmarked n p' Hwf' Hms' y). tauto.
    + apply (rf_class _ _ _ _ Hrf).
    + apply (rf_length _ _ _ _ Hrf).
Qed.
End Generation.

(** ** Marking several elements *)

Lemma mark_all_spec n p l :
  wf_partition n p -> n < 2 ^ 31 -> marked_sets p (m_setsMarkedInCurrentGeneration p) ->
  NoDup l -> (forall x, x ∈ l -> 0 <= x < n /\ ~ marked p x) ->
  exists p', foldM markElementInCurrentGeneration p l = Some p' /\ wf_partition n p' /\
    marked_sets p' (m_setsMarkedInCurrentGeneration p') /\ m_elementToSetMap p' = m_elementToSetMap p /\
    length (m_sets p') = length (m_sets p) /\ forall x, 0 <= x < n -> (marked p' x <-> marked p x \/ x ∈ l).
Proof.
  intros Hwf Hn Hms Hnd Hl. revert p Hwf Hms Hl. induction Hnd as [|e l Hel Hnd IH]; intros p Hwf Hms Hl.
  { exists p. split_and!; try done. intros x Hx. rewrite elem_of_nil. tauto. }
  destruct (Hl e) as [He Hue]; [by left|].
  destruct (mark_spec n p e Hwf Hn He Hue) as (p1 & Hp1 & Hwf1 & Hmap1 & Hlen1 & Hm1 & Hms1).
  destruct (IH p1 Hwf1 (Hms1 Hms)) as (p' & Hp' & Hwf' & Hms' & Hmap' & Hlen' & Hm').
  { intros x Hx. destruct (Hl x) as [Hxn Hux]; [by right|]. split; [done|]. rewrite (Hm1 x Hxn). intros [?| ->]; done. }
  exists p'. rewrite foldM_cons, Hp1. split_and!; [done|done|done|congruence|congruence|].
  intros x Hx. rewrite (Hm' x Hx), (Hm1 x Hx), elem_of_cons. tauto.
Qed.
