(* ===== verification/GraphPartition.v ===== *)
(** * Refining the partitions of a graph

    The two partitions of a graph are refined together: whenever a set of nodes
    is split, the transitions are split by whether they lead into the new set.
    The proofs are about an abstract table of transitions; the table the
    minimizer builds from a DFA is shown to be one elsewhere. *)

From S2P Require Import Prelude DFA RangeList Minimizer PartitionCorrect.

(** ** A table of transitions

    [N] transitions between [n] nodes; a node has one transition per label. *)

Class Graph := mkGraph {
  nodes_count : Z;
  transitions_count : Z;
  source : Z -> Z;
  target : Z -> Z;
  label : Z -> Z
}.

Section Graph.
Context {G : Graph}.
Abbreviation n := nodes_count.
Abbreviation N := transitions_count.

Record represents (g : FullGraphPartition) : Prop := mkRepresents {
  rp_source : forall t, 0 <= t < N -> (m_flattenedTransitions g).[t] = Some (source t) /\ 0 <= source t < n /\ 0 <= target t < n;
  rp_incoming : forall y, 0 <= y < n ->
    exists l, incoming g y = Some l /\ NoDup l /\ forall t, t ∈ l <-> 0 <= t < N /\ target t = y;
  rp_length : vlen (m_flattenedTransitions g) = N;
  rp_deterministic : forall t t', 0 <= t < N -> 0 <= t' < N -> source t = source t' -> label t = label t' -> t = t'
}.

(** Transitions of one set have the same label and lead into one set. *)
Definition cords (nodes transitions : Partition) : Prop :=
  forall t t', 0 <= t < N -> 0 <= t' < N -> cls transitions t = cls transitions t' ->
    label t = label t' /\ cls nodes (target t) = cls nodes (target t').

(** Nothing related by [R] is separated. *)
Definition coarse (R : Z -> Z -> Prop) (nodes transitions : Partition) : Prop :=
  (forall x y, 0 <= x < n -> 0 <= y < n -> R x y -> alike nodes x y) /\
  (forall t t', 0 <= t < N -> 0 <= t' < N -> label t = label t' -> R (target t) (target t') -> cls transitions t = cls transitions t').

(** The sets only get more: an old index keeps a part of its set. *)
Definition grown (transitions transitions' : Partition) : Prop :=
  vlen (m_sets transitions) <= vlen (m_sets transitions') /\
  forall t, 0 <= t < N -> cls transitions' t = cls transitions t \/ exists k, cls transitions' t = Some k /\ vlen (m_sets transitions) <= k.

Section Split.
Variables (g : FullGraphPartition) (R : Z -> Z -> Prop) (transitions0 : Partition).
Hypothesis Hg : represents g.
Hypothesis Hn : n < 2 ^ 31.
Hypothesis HN : N < 2 ^ 31.

(** Marking the transitions into the nodes of a set. *)
Lemma mark_incoming transitions elements :
  quiet N transitions -> NoDup elements -> (forall y, y ∈ elements -> 0 <= y < n) ->
  exists transitions', foldM (fun transitions nodeIndex =>
      ts ← incoming g nodeIndex; foldM markElementInCurrentGeneration transitions ts) transitions elements = Some transitions' /\
    wf_partition N transitions' /\ marked_sets transitions' (m_setsMarkedInCurrentGeneration transitions') /\
    m_elementToSetMap transitions' = m_elementToSetMap transitions /\ length (m_sets transitions') = length (m_sets transitions) /\
    forall t, 0 <= t < N -> (marked transitions' t <-> target t ∈ elements).
Proof.
  intros [Hwf Hms Hlist] Hnd Hel.
  set (I := fun q rest => NoDup rest /\ rest ⊆ elements /\ wf_partition N q /\ marked_sets q (m_setsMarkedInCurrentGeneration q) /\
    m_elementToSetMap q = m_elementToSetMap transitions /\ length (m_sets q) = length (m_sets transitions) /\
    forall t, 0 <= t < N -> (marked q t <-> target t ∈ elements /\ target t ∉ rest)).
  match goal with |- context [foldM ?f _ _] => destruct (foldM_inv f I) with (l := elements) (s := transitions) as (q & Hf & HI) end.
  - intros q y rest (Hndr & Hsub & Hwfq & Hmsq & Hmap & Hlen & Hmk). apply NoDup_cons in Hndr as [Hy Hndr].
    destruct (rp_incoming g Hg y) as (l & -> & Hndl & Hl); [apply Hel, Hsub; by left|]. rewrite option_bind_Some.
    destruct (mark_all_spec N q l Hwfq HN Hmsq Hndl) as (q' & Hq' & Hwf' & Hms' & Hmap' & Hlen' & Hmk').
    { intros t [Ht <-]%Hl. split; [done|]. rewrite Hmk by done. intros [_ Hnot]. apply Hnot. by left. }
    exists q'. split; [done|]. split_and!; try congruence; [set_solver|].
    intros t Ht. rewrite (Hmk' t Ht), (Hmk t Ht), Hl, not_elem_of_cons. split.
    + intros [[? [? ?]]|[_ <-]]; [done|]. split; [apply Hsub; by left|done].
    + intros [? ?]. destruct (decide (target t = y)); tauto.
  - split_and!; try done; [by rewrite Hlist|]. intros t Ht. pose proof (unmarked N transitions Hwf Hms t). tauto.
  - destruct HI as (_ & _ & Hwf' & Hms' & Hmap & Hlen & Hmk). exists q. split_and!; try done.
    intros t Ht. rewrite (Hmk t Ht). split; [tauto|]. intros ?. split; [done|]. apply not_elem_of_nil.
Qed.

Lemma ignore_spec transitions :
  wf_partition N transitions -> marked_sets transitions (m_setsMarkedInCurrentGeneration transitions) ->
  exists transitions', refineGeneration (fun _ (u : unit) _ => Some u) transitions tt = Some (transitions', tt) /\
    quiet N transitions' /\ refinement N (alike transitions) transitions transitions'.
Proof.
  intros Hwf Hms.
  destruct (refineGeneration_spec (fun _ (u : unit) _ => Some u) (fun _ _ => True) N HN) with (p := transitions) (st := tt)
    as (p' & [] & H1 & H2 & H3 & _); try done.
  - intros p s p' o st _ _ _. destruct o; [by exists st|done].
  - by exists p'.
Qed.

(** What holds between the splits of two sets of nodes. *)
Definition between (nodes transitions : Partition) : Prop :=
  quiet N transitions /\ cords nodes transitions /\ coarse R nodes transitions /\ grown transitions0 transitions.

Lemma split_incoming_spec nodes s nodes' k transitions :
  between nodes transitions -> wf_partition n nodes -> refined_set n nodes s nodes' (Some k) ->
  exists transitions', split_incoming g nodes' transitions k = Some transitions' /\ between nodes' transitions'.
Proof.
  intros (Hq & Hcords & [Hc1 Hc2] & [Hg1 Hg2]) Hwfn Hr. unfold split_incoming.
  pose proof (rs_wf _ _ _ _ _ Hr) as Hwf'. destruct (rs_new _ _ _ _ _ Hr) as [Hk Hlen].
  destruct (vec_at_is_Some (m_sets nodes') k) as [d Hd]; [lia|].
  destruct (set_elements_spec n nodes' k d Hwf' Hn Hd) as (elements & -> & Hnd & Hel). rewrite option_bind_Some.
  destruct (mark_incoming transitions elements Hq Hnd) as (q & -> & Hwfq & Hmsq & Hmap & Hlenq & Hmk).
  { intros y Hy%Hel. exact (proj1 (class_lt n nodes' Hwf' y k Hy)). }
  rewrite option_bind_Some. destruct (ignore_spec q Hwfq Hmsq) as (q' & -> & Hquiet & Hrf).
  rewrite option_bind_Some. exists q'. split; [done|].
  assert (Hsame : forall t t', 0 <= t < N -> 0 <= t' < N -> (cls q' t = cls q' t' <-> cls transitions t = cls transitions t' /\
            (cls nodes' (target t) = Some k <-> cls nodes' (target t') = Some k))).
  { intros t t' Ht Ht'. rewrite (rf_same _ _ _ _ Hrf t t' Ht Ht'). unfold alike. rewrite Hmap, (Hmk t Ht), (Hmk t' Ht'), !Hel. done. }
  split; [done|split; [|split; [split|split]]].
  - intros t t' Ht Ht' E. apply Hsame in E as [E Ek]; [|done..]. destruct (Hcords t t' Ht Ht' E) as [Hl Hc]. split; [done|].
    destruct (rp_source g Hg t Ht) as (_ & _ & Hy), (rp_source g Hg t' Ht') as (_ & _ & Hy').
    destruct (rs_class _ _ _ _ _ Hr _ Hy) as [E1|(_ & _ & E1)], (rs_class _ _ _ _ _ Hr _ Hy') as [E2|(_ & _ & E2)].
    + congruence.
    + rewrite E2. by apply Ek.
    + rewrite E1. symmetry. by apply Ek.
    + congruence.
  - intros x y Hx Hy HR. apply (alike_refined _ _ _ _ _ x y Hr Hx Hy). auto.
  - intros t t' Ht Ht' Hl HR. apply Hsame; [done..|]. split; [by apply Hc2|].
    destruct (rp_source g Hg t Ht) as (_ & _ & Hy), (rp_source g Hg t' Ht') as (_ & _ & Hy').
    destruct (proj2 (alike_refined _ _ _ _ _ _ _ Hr Hy Hy') (Hc1 _ _ Hy Hy' HR)) as [E _]. by rewrite E.
  - pose proof (rf_length _ _ _ _ Hrf). lia.
  - intros t Ht. destruct (rf_class _ _ _ _ Hrf t Ht) as [E|(k' & E & Hk')].
    + rewrite E, Hmap. by apply Hg2.
    + right. exists k'. split; [done|lia].
Qed.

Lemma between_step nodes s nodes' o transitions :
  between nodes transitions -> wf_partition n nodes -> refined_set n nodes s nodes' o ->
  match o with
  | None => between nodes' transitions
  | Some k => exists transitions', split_incoming g nodes' transitions k = Some transitions' /\ between nodes' transitions'
  end.
Proof.
  intros Hb Hwf Hr. destruct o as [k|]; [by eapply split_incoming_spec|].
  destruct Hb as (Hq & Hcords & [Hc1 Hc2] & Hgrown). split; [done|split; [|split; [split|done]]]; [| |done].
  - intros t t' Ht Ht' E. destruct (Hcords t t' Ht Ht' E) as [Hl Hc]. split; [done|].
    destruct (rp_source g Hg t Ht) as (_ & _ & Hy), (rp_source g Hg t' Ht') as (_ & _ & Hy').
    destruct (rs_class _ _ _ _ _ Hr _ Hy) as [->|(_ & ? & _)]; [|done].
    by destruct (rs_class _ _ _ _ _ Hr _ Hy') as [->|(_ & ? & _)].
  - intros x y Hx Hy HR. apply (alike_refined _ _ _ _ _ x y Hr Hx Hy). auto.
Qed.
End Split.

(** ** Splitting by a set of nodes *)

(** The state between two refinements. *)
Record settled (R : Z -> Z -> Prop) (g : FullGraphPartition) : Prop := mkSettled {
  st_represents : represents g;
  st_nodes : quiet n (m_nodePartition g);
  st_transitions : quiet N (m_transitionPartition g);
  st_cords : cords (m_nodePartition g) (m_transitionPartition g);
  st_coarse : coarse R (m_nodePartition g) (m_transitionPartition g)
}.

Lemma represents_with g nodes transitions next : represents g -> represents (with_partitions g nodes transitions next).
Proof. intros []. by split. Qed.

Lemma markNode_all g l :
  foldM markNode g l = p ← foldM markElementInCurrentGeneration (m_nodePartition g) l;
                       Some (with_partitions g p (m_transitionPartition g) (m_nextTransitionSetToProcess g)).
Proof.
  revert g. induction l as [|x l IH]; intros g; [by destruct g|]. rewrite !foldM_cons.
  change (markNode g x) with (p ← markElementInCurrentGeneration (m_nodePartition g) x;
    Some (with_partitions g p (m_transitionPartition g) (m_nextTransitionSetToProcess g))).
  destruct (markElementInCurrentGeneration (m_nodePartition g) x); [|done]. cbn. by rewrite IH.
Qed.

Section Refine.
Variable R : Z -> Z -> Prop.
Hypothesis Hn : n < 2 ^ 31.
Hypothesis HN : N < 2 ^ 31.

(** The sets of [g'] are those of [g], split by [P]. *)
Record split_by (P : Z -> Prop) (g g' : FullGraphPartition) : Prop := mkSplitBy {
  sb_settled : settled R g';
  sb_same : forall x y, 0 <= x < n -> 0 <= y < n ->
    (cls (m_nodePartition g') x = cls (m_nodePartition g') y <-> cls (m_nodePartition g) x = cls (m_nodePartition g) y /\ (P x <-> P y));
  sb_grown : grown (m_transitionPartition g) (m_transitionPartition g');
  sb_next : m_nextTransitionSetToProcess g' = m_nextTransitionSetToProcess g;
  sb_flattened : m_flattenedTransitions g' = m_flattenedTransitions g
}.

Lemma mark_and_refine g l :
  settled R g -> NoDup l -> (forall x, x ∈ l -> 0 <= x < n) ->
  (forall x y, 0 <= x < n -> 0 <= y < n -> R x y -> (x ∈ l <-> y ∈ l)) ->
  exists g1 g', foldM markNode g l = Some g1 /\ refinePartitions g1 = Some g' /\ split_by (.∈ l) g g'.
Proof.
  intros [Hrep Hqn Hqt Hcords [Hc1 Hc2]] Hnd Hl HR. destruct Hqn as [Hwf Hms Hlist].
  pose proof (unmarked n _ Hwf Hms) as Hno.
  destruct (mark_all_spec n (m_nodePartition g) l Hwf Hn) as (p1 & Hp1 & Hwf1 & Hms1 & Hmap1 & Hlen1 & Hmk1); [by rewrite Hlist|done|auto|].
  rewrite markNode_all, Hp1, option_bind_Some. set (g1 := with_partitions g p1 _ _). exists g1. unfold refinePartitions.
  change (m_nodePartition g1) with p1. change (m_transitionPartition g1) with (m_transitionPartition g).
  assert (Hrep1 : represents g1) by by apply represents_with.
  assert (Halike : forall x y, 0 <= x < n -> 0 <= y < n ->
            (alike p1 x y <-> cls (m_nodePartition g) x = cls (m_nodePartition g) y /\ (x ∈ l <-> y ∈ l))).
  { intros x y Hx Hy. unfold alike. rewrite Hmap1, (Hmk1 x Hx), (Hmk1 y Hy). pose proof (Hno x). pose proof (Hno y). tauto. }
  destruct (refineGeneration_spec (split_incoming g1) (between R (m_transitionPartition g)) n Hn) with (p := p1) (st := m_transitionPartition g)
    as (nodes' & transitions' & Href & Hquiet & Hrf & Hb).
  - intros p s p' o st Hb Hwfp Hr. exact (between_step g1 R _ Hrep1 Hn HN p s p' o st Hb Hwfp Hr).
  - intros p st k (H1 & H2 & H3 & H4). done.
  - done.
  - done.
  - split; [done|split; [|split; [split|]]].
    + intros t t' Ht Ht' E. rewrite Hmap1. by apply Hcords.
    + intros x y Hx Hy HRxy. apply Halike; [done..|]. split; [by apply Hc1|by apply HR].
    + done.
    + split; [lia|by left].
  - rewrite Href, option_bind_Some. eexists. split_and!; [done|done|]. destruct Hb as (Hqt' & Hcords' & Hcoarse' & Hgrown').
    split; try done; [split; try done; by apply represents_with|].
    intros x y Hx Hy. cbn. rewrite (rf_same _ _ _ _ Hrf x y Hx Hy). auto.
Qed.

(** ** The main loop *)

(** Nodes of one set agree on the sets of transitions that were used as splitters. *)
Definition used (g : FullGraphPartition) : Prop :=
  forall x y t c, 0 <= x < n -> 0 <= y < n -> cls (m_nodePartition g) x = cls (m_nodePartition g) y ->
    0 <= t < N -> source t = x -> cls (m_transitionPartition g) t = Some c -> c < m_nextTransitionSetToProcess g ->
    exists t' c', 0 <= t' < N /\ source t' = y /\ label t' = label t /\ cls (m_transitionPartition g) t' = Some c' /\
      (c' = c \/ m_nextTransitionSetToProcess g <= c').

(** [R] is respected by the transitions. *)
Hypothesis HR : forall x y t, 0 <= x < n -> 0 <= y < n -> R x y -> 0 <= t < N -> source t = x ->
  exists t', 0 <= t' < N /\ source t' = y /\ label t' = label t /\ R (target t) (target t').
Hypothesis HRsym : forall x y, R x y -> R y x.

(** The sources of one set of transitions are distinct. *)
Lemma splitter_sources g transitions :
  settled R g -> NoDup transitions ->
  (forall t, t ∈ transitions <-> cls (m_transitionPartition g) t = Some (m_nextTransitionSetToProcess g)) ->
  NoDup (map source transitions) /\ (forall t, t ∈ transitions -> 0 <= t < N) /\
  (forall x, x ∈ map source transitions <-> exists t, 0 <= t < N /\ source t = x /\ cls (m_transitionPartition g) t = Some (m_nextTransitionSetToProcess g)).
Proof.
  intros Hst Hnd Hel. pose proof (q_wf _ _ (st_transitions _ _ Hst)) as Hwf.
  assert (Hran : forall t, t ∈ transitions -> 0 <= t < N) by (intros t Ht%Hel; exact (proj1 (class_lt N _ Hwf _ _ Ht))).
  split; [|split; [done|]].
  - apply NoDup_fmap_2_strong; [|done]. intros t t' Ht Ht' E. apply (rp_deterministic g (st_represents _ _ Hst)); auto.
    apply (st_cords _ _ Hst); auto. rewrite (proj1 (Hel t) Ht). symmetry. by apply Hel.
  - intros x. rewrite list_elem_of_fmap. split.
    + intros (t & -> & Ht). exists t. split_and!; [by apply Hran..|done|by apply Hel].
    + intros (t & Ht & <- & Hc). exists t. split; [done|by apply Hel].
Qed.

(** Marking the sources. *)
Lemma mark_sources g transitions :
  represents g -> (forall t, t ∈ transitions -> 0 <= t < N) ->
  foldM (fun g transitionIndex => sourceNodeIndex ← (m_flattenedTransitions g).[transitionIndex]; markNode g sourceNodeIndex) g transitions =
  foldM markNode g (map source transitions).
Proof.
  revert g. induction transitions as [|t transitions IH]; intros g Hrep Hran; [done|]. cbn [map]. rewrite !foldM_cons.
  destruct (rp_source g Hrep t) as (-> & _); [apply Hran; by left|]. rewrite option_bind_Some.
  destruct (markNode g (source t)) as [g'|] eqn:Hg'; [|done]. cbn. apply IH; [|intros t' Ht'; apply Hran; by right].
  unfold markNode in Hg'. destruct (markElementInCurrentGeneration _ _); [|done]. injection Hg' as <-. by apply represents_with.
Qed.

(** The next set of transitions becomes a used one. *)
Lemma used_step g g' :
  settled R g -> used g -> 0 <= m_nextTransitionSetToProcess g < vlen (m_sets (m_transitionPartition g)) ->
  split_by (fun x => exists t, 0 <= t < N /\ source t = x /\ cls (m_transitionPartition g) t = Some (m_nextTransitionSetToProcess g)) g g' ->
  used (with_partitions g' (m_nodePartition g') (m_transitionPartition g') (m_nextTransitionSetToProcess g + 1)).
Proof.
  intros Hst Hused Hnext Hsb x y t c Hx Hy E Ht Hsrc Hc Hlt. cbn in *.
  destruct (sb_grown _ _ _ Hsb) as [Hlen Hgrown].
  assert (Hkeep : forall t' c', 0 <= t' < N -> cls (m_transitionPartition g) t' = Some c' -> exists c'', cls (m_transitionPartition g') t' = Some c'' /\
            (c'' = c' \/ m_nextTransitionSetToProcess g + 1 <= c'')).
  { intros t' c' Ht' Hc'. destruct (Hgrown t' Ht') as [E'|(k & E' & Hk)]; [exists c'; split; [congruence|by left]|exists k; split; [done|lia]]. }
  assert (Hc0 : cls (m_transitionPartition g) t = Some c).
  { destruct (Hgrown t Ht) as [<-|(k & E' & Hk)]; [done|]. rewrite Hc in E'. injection E' as ->. lia. }
  apply (sb_same _ _ _ Hsb x y Hx Hy) in E as [E HE].
  destruct (decide (c = m_nextTransitionSetToProcess g)) as [->|Hne].
  - destruct (proj1 HE) as (t' & Ht' & Hsrc' & Hc'); [by exists t|].
    destruct (Hkeep t' _ Ht' Hc') as (c'' & Hc'' & Hor). exists t', c''. split; [done|]. split_and!; try done.
    apply (st_cords _ _ Hst); [done..|congruence].
  - destruct (Hused x y t c Hx Hy E Ht Hsrc Hc0) as (t' & c' & Ht' & Hsrc' & Hl & Hc' & Hor); [lia|].
    destruct (Hkeep t' c' Ht' Hc') as (c'' & Hc'' & Hor'). exists t', c''. split; [done|]. split_and!; try done.
    destruct Hor as [->|Hge]; [done|]. destruct (decide (c' = m_nextTransitionSetToProcess g)) as [->|]; [|lia].
    exfalso. destruct (proj2 HE) as (t2 & Ht2 & Hsrc2 & Hc2); [by exists t'|].
    assert (t2 = t) as ->; [|congruence]. apply (rp_deterministic g (st_represents _ _ Hst)); [done..|congruence|].
    rewrite <- Hl. apply (st_cords _ _ Hst); [done..|congruence].
Qed.

Lemma process_splitter_spec g :
  settled R g -> used g -> 0 <= m_nextTransitionSetToProcess g < vlen (m_sets (m_transitionPartition g)) ->
  exists g', process_splitter g = Some g' /\ settled R g' /\ used g' /\
    m_nextTransitionSetToProcess g' = m_nextTransitionSetToProcess g + 1 /\
    vlen (m_sets (m_transitionPartition g)) <= vlen (m_sets (m_transitionPartition g')) /\
    m_flattenedTransitions g' = m_flattenedTransitions g /\
    (forall x y, 0 <= x < n -> 0 <= y < n -> cls (m_nodePartition g') x = cls (m_nodePartition g') y -> cls (m_nodePartition g) x = cls (m_nodePartition g) y).
Proof.
  intros Hst Hused Hnext. pose proof (q_wf _ _ (st_transitions _ _ Hst)) as Hwf.
  destruct (vec_at_is_Some (m_sets (m_transitionPartition g)) (m_nextTransitionSetToProcess g) Hnext) as [d Hd].
  destruct (set_elements_spec N _ _ d Hwf HN Hd) as (ts & Hts & Hnd & Hel). unfold process_splitter. rewrite Hts, option_bind_Some.
  destruct (splitter_sources g ts Hst Hnd Hel) as (Hnds & Hran & Hsrc).
  rewrite (mark_sources g ts (st_represents _ _ Hst) Hran).
  destruct (mark_and_refine g (map source ts) Hst Hnds) as (g1 & g2 & -> & Hg2 & Hsb).
  - intros x (t & Ht & <- & _)%Hsrc. apply (rp_source g (st_represents _ _ Hst) t Ht).
  - assert (Hhalf : forall x y, 0 <= x < n -> 0 <= y < n -> R x y -> x ∈ map source ts -> y ∈ map source ts).
    { intros x y Hx Hy HRxy (t & Ht & Hst' & Hc)%Hsrc. destruct (HR x y t Hx Hy HRxy Ht Hst') as (t' & Ht' & Hs' & Hl & HRt).
      apply Hsrc. exists t'. split; [done|]. split; [done|]. rewrite <- Hc. symmetry. by apply (st_coarse _ _ Hst). }
    intros x y Hx Hy HRxy. split; apply Hhalf; auto.
  - rewrite option_bind_Some, Hg2, option_bind_Some, (sb_next _ _ _ Hsb).
    pose proof (sets_bound N _ Hwf). rewrite u32_small by lia.
    eexists. split; [done|]. destruct (sb_settled _ _ _ Hsb). split; [split; [by apply represents_with|done..]|].
    split; [|split_and!; [done|apply (sb_grown _ _ _ Hsb)|apply (sb_flattened _ _ _ Hsb)|]].
    + apply used_step; [done..|]. destruct Hsb as [H1 H2 H3 H4 H5]. split; [done| |done|done|done].
      intros x y Hx Hy. rewrite (H2 x y Hx Hy), !Hsrc. done.
    + intros x y Hx Hy E. by apply (sb_same _ _ _ Hsb x y Hx Hy) in E as [E _].
Qed.

(** When every set is used, nodes of one set have the same transitions into the same sets. *)
Definition stable (g : FullGraphPartition) : Prop :=
  forall x y t, 0 <= x < n -> 0 <= y < n -> cls (m_nodePartition g) x = cls (m_nodePartition g) y -> 0 <= t < N -> source t = x ->
    exists t', 0 <= t' < N /\ source t' = y /\ label t' = label t /\ cls (m_nodePartition g) (target t) = cls (m_nodePartition g) (target t').

Lemma split_loop_spec fuel g :
  settled R g -> used g -> 0 <= m_nextTransitionSetToProcess g <= vlen (m_sets (m_transitionPartition g)) ->
  N - m_nextTransitionSetToProcess g <= Z.of_nat fuel ->
  exists g', split_loop fuel g = Some g' /\ settled R g' /\ stable g' /\
    m_nextTransitionSetToProcess g' = vlen (m_sets (m_transitionPartition g')) /\
    (forall x y, 0 <= x < n -> 0 <= y < n -> cls (m_nodePartition g') x = cls (m_nodePartition g') y -> cls (m_nodePartition g) x = cls (m_nodePartition g) y).
Proof.
  revert g. induction fuel as [|fuel IH]; intros g Hst Hused Hnext Hf.
  all: pose proof (q_wf _ _ (st_transitions _ _ Hst)) as Hwf; pose proof (sets_bound N _ Hwf); cbn [split_loop].
  all: destruct (Z.ltb_spec (m_nextTransitionSetToProcess g) (vlen (m_sets (m_transitionPartition g)))) as [Hlt|Hge]; [try lia|].
  2: { destruct (process_splitter_spec g Hst Hused) as (g1 & -> & Hst1 & Hused1 & Hn1 & Hm1 & _ & Hfine); [lia|]. rewrite option_bind_Some.
       destruct (IH g1) as (g' & Hg' & Hst' & Hstable & Hlast & Hfine'); [done|done|lia|lia|]. exists g'. split_and!; auto. }
  all: exists g; split; [done|split; [done|split; [|split; [lia|done]]]]; intros x y t Hx Hy E Ht Hsrc.
  all: destruct (class_of N _ Hwf t Ht) as (c & _ & _ & Hc & _); pose proof (proj2 (class_lt N _ Hwf t c Hc)) as Hcl.
  all: destruct (Hused x y t c Hx Hy E Ht Hsrc Hc) as (t' & c' & Ht' & Hsrc' & Hl & Hc' & Hor); [lia|].
  all: pose proof (proj2 (class_lt N _ Hwf t' c' Hc')) as Hcl'; destruct Hor as [->|?]; [|lia].
  all: exists t'; (split; [done|]); split_and!; try done; apply (st_cords _ _ Hst); [done..|congruence].
Qed.
End Refine.
End Graph.
