(* ===== verification/SingularRanges.v ===== *)
(** * The singular ranges of a DFA

    The minimizer merges the transitions of all nodes into one list of ranges.
    Every transition is a union of ranges of this list, the counter of a range
    is the number of transitions that cover it, and [iterateIntersections]
    visits exactly the ranges a transition covers. *)

From S2P Require Import Prelude DFA RangeList RangeListCorrect Minimizer PartitionCorrect.

(** * Range lists do not look at their data

    [extend] only moves the data of ranges around: running it on images of the
    data gives the image of the result.  So a run that counts can be compared
    with a run that collects. *)

Section Natural.
Context {B D B' D' : Type} `{H : DataConverter B D} `{H' : DataConverter B' D'}.
Variables (f : D -> D') (h : B -> B').
Hypothesis Hconvert : forall b, f (convert b) = convert (h b).
Hypothesis Hextend : forall d b, f (extend_data d b) = extend_data (f d) (h b).

Definition map_range (r : MutableRange D) : MutableRange D' :=
  mkMutableRange (f (mr_data r)) (nextRangeIndex r) (mr_first r) (mr_last r).
Definition map_other (t : CharRange * B) : CharRange * B' := (fst t, h (snd t)).
Definition map_state (s : extend_state (B := B) (D := D)) : extend_state (B := B') (D := D') :=
  mkExtend (map map_range (x_ranges s)) (lastSelfRangeIndex s) (selfRangeIndex s) (reachedSelfEnd s) (otherRangeOffset s)
    (map map_other (otherIterator s)).

Lemma vec_at_map {X Y} (u : X -> Y) v i : (map u v).[i] = u <$> v.[i].
Proof. unfold vec_at. case_bool; [apply list_lookup_fmap|done]. Qed.

Lemma vec_set_map {X Y} (u : X -> Y) v i x : vec_set (map u v) i (u x) = map u <$> vec_set v i x.
Proof. unfold vec_set. rewrite length_map. destruct (_ && _); [|done]. cbn. f_equal. symmetry. apply list_fmap_insert. Qed.

Lemma map_snoc {X Y} (u : X -> Y) v x : map u v ++ [u x] = map u (v ++ [x]).
Proof. by rewrite map_app. Qed.

(** Follow both runs to the next access of a vector. *)
Ltac both x :=
  match goal with
  | |- context [(map map_range ?v).[?i]] => rewrite (vec_at_map map_range v i); destruct (v.[i]) as [x|]; cbn; [|done]
  end.

Ltac both_set v' r :=
  match goal with
  | |- context [vec_set (map map_range ?v) ?i ?x] =>
      change x with (map_range r); rewrite (vec_set_map map_range v i r); destruct (vec_set v i r) as [v'|]; cbn; [|done]
  end.

Lemma appendRange_natural v last a b d :
  appendRange (map map_range v) last a b (f d) = prod_map (map map_range) id <$> appendRange v last a b d.
Proof.
  unfold appendRange. rewrite length_map. change (mkMutableRange (f d) 0 a b) with (map_range (mkMutableRange d 0 a b)). rewrite map_snoc.
  case_bool; [done|]. both r. by both_set v' (with_next r (u32 (vlen v))).
Qed.

Definition map_insert (t : list (MutableRange D) * Z * Z) : list (MutableRange D') * Z * Z := (map map_range (fst (fst t)), snd (fst t), snd t).

Lemma insertBetween_natural v left_ right_ a b d :
  insertBetween (map map_range v) left_ right_ a b (f d) = map_insert <$> insertBetween v left_ right_ a b d.
Proof.
  unfold insertBetween. rewrite length_map. case_bool.
  - both r. rewrite map_snoc. by both_set v' (mkMutableRange d (u32 (vlen v)) a b).
  - change (mkMutableRange (f d) right_ a b) with (map_range (mkMutableRange d right_ a b)). rewrite map_snoc.
    both r. by both_set v' (with_next r (u32 (vlen v))).
Qed.

Lemma initialize_loop_natural os : forall v k,
  initialize_loop (map map_range v) k (map map_other os) = map map_range (initialize_loop v k os).
Proof.
  induction os as [|[r o] os IH]; intros v k; [done|]. cbn. rewrite <- Hconvert, <- IH. f_equal.
  by rewrite map_app.
Qed.

Lemma initializeFrom_natural v os : initializeFrom (map map_range v) (map map_other os) = map map_range <$> initializeFrom v os.
Proof.
  unfold initializeFrom. rewrite initialize_loop_natural. set (w := initialize_loop v 0 os).
  rewrite length_map, (bool_decide_ext (map map_range w = []) (w = [])); [|split; [apply map_eq_nil|by intros ->]].
  case_bool_decide; [done|]. both r. by both_set v' (with_next r 0).
Qed.

Definition map_align (t : list (MutableRange D) * Z * Z * Z) : list (MutableRange D') * Z * Z * Z := (map_insert (fst t), snd t).

Lemma align_natural v last self offset r o a :
  align (map map_range v) last self offset r (h o) (map_range a) = map_align <$> align v last self offset r o a.
Proof.
  unfold align. cbn [mr_first mr_data map_range]. case_bool; [|case_bool; [|done]].
  - both_set v' (with_first a (range_first r + offset)). rewrite insertBetween_natural.
    by destruct (insertBetween v' _ _ _ _ _) as [[[? ?] ?]|].
  - rewrite <- Hconvert, insertBetween_natural. destruct (insertBetween v _ _ _ _ _) as [[[w l] s]|]; cbn; [|done].
    by both b.
Qed.

Lemma merge_aligned_natural v last self offset r o rest :
  merge_aligned (map map_range v) last self offset r (h o) (map map_other rest) = map_state <$> merge_aligned v last self offset r o rest.
Proof.
  unfold merge_aligned. both a. destruct (mr_last a =? range_last r); [|destruct (range_last r <? mr_last a)].
  - rewrite <- Hextend. by both_set v' (with_data a (extend_data (mr_data a) o)).
  - both_set v' (with_first a (range_last r + 1)). rewrite <- Hextend, insertBetween_natural.
    by destruct (insertBetween v' _ _ _ _ _) as [[[? ?] ?]|].
  - rewrite <- Hextend. by both_set v' (with_data a (extend_data (mr_data a) o)).
Qed.

Lemma extend_step_natural s : extend_step (map_state s) = map_state <$> extend_step s.
Proof.
  unfold extend_step. destruct s as [v last self reached offset os]. cbn. destruct os as [|[r o] rest]; [done|]. cbn.
  both a. case_bool; [done|case_bool].
  - rewrite <- Hconvert, insertBetween_natural. by destruct (insertBetween v _ _ _ _ _) as [[[? ?] ?]|].
  - change (mkMutableRange _ _ _ _) with (map_range a). rewrite align_natural.
    destruct (align v _ _ _ _ _ _) as [[[[w l] s] off]|]; cbn; [|done]. apply merge_aligned_natural.
Qed.

Lemma extend_loop_natural fuel : forall s, extend_loop fuel (map_state s) = map_state <$> extend_loop fuel s.
Proof.
  induction fuel as [|fuel IH]; intros s; [done|]. cbn [extend_loop]. rewrite extend_step_natural.
  destruct (extend_step s) as [s'|]; cbn; [|done]. rewrite length_map. destruct (_ || _); [done|apply IH].
Qed.

Lemma append_rest_natural os : forall v last offset,
  append_rest (map map_range v) last offset (map map_other os) = map map_range <$> append_rest v last offset os.
Proof.
  induction os as [|[r o] os IH]; intros v last offset; [done|]. cbn. rewrite <- Hconvert, appendRange_natural.
  destruct (appendRange v _ _ _ _) as [[w l]|]; cbn; [apply IH|done].
Qed.

Lemma extend_natural v os : extend (map map_range v) (map map_other os) = map map_range <$> extend v os.
Proof.
  unfold extend. destruct os as [|o os]; [by destruct v|]. destruct v as [|a v]; [apply (initializeFrom_natural [] (o :: os))|].
  change (mkExtend (map map_range (a :: v)) 0 0 false 0 (map map_other (o :: os))) with (map_state (mkExtend (a :: v) 0 0 false 0 (o :: os))).
  cbn [map]. rewrite !length_cons, !length_map. change (map_other o :: map map_other os) with (map map_other (o :: os)).
  change (map_range a :: map map_range v) with (map map_range (a :: v)).
  change (mkExtend (map map_range (a :: v)) 0 0 false 0 (map map_other (o :: os))) with (map_state (mkExtend (a :: v) 0 0 false 0 (o :: os))).
  rewrite extend_loop_natural. destruct (extend_loop _ _) as [s|]; cbn; [apply append_rest_natural|done].
Qed.

Definition map_entry (t : CharRange * D) : CharRange * D' := (fst t, f (snd t)).

Lemma iterate_natural fuel : forall v i, iterate fuel (map map_range v) i = map map_entry <$> iterate fuel v i.
Proof.
  induction fuel as [|fuel IH]; intros v i; [done|]. cbn [iterate]. both r. case_bool; [done|]. rewrite IH.
  by destruct (iterate fuel v (nextRangeIndex r)).
Qed.

Lemma range_list_natural v : range_list (map map_range v) = map map_entry <$> range_list v.
Proof.
  destruct v as [|a v]; [done|]. unfold range_list. cbn [map]. rewrite length_cons, length_map. apply (iterate_natural _ (a :: v)).
Qed.
End Natural.

(** ** The transitions that cover a character *)

Definition tagged (ts : list transition) : list (CharRange * transition) := map (fun t => (fst t, t)) ts.

(** The transition of a node on a character. *)
Definition covering (ts : list transition) (c : Z) : option transition := ts_step (tagged ts) c.

Definition cover (tss : list (list transition)) (c : Z) : list transition := omap (fun ts => covering ts c) tss.

(** Collect the transitions instead of counting them. *)
Definition collector : DataConverter transition (list transition) :=
  Build_DataConverter _ _ (fun t => [t]) (fun d t => d ++ [t]).

Lemma sorted_tagged lo ts : sorted_from lo ts -> sorted_from lo (tagged ts).
Proof. revert lo. induction ts as [|[r t] ts IH]; intros lo; [done|]. cbn. intros (?&?&?&?). auto. Qed.

Lemma covering_elem ts c t : covering ts c = Some t -> t ∈ ts /\ in_range (fst t) c = true.
Proof.
  intros (r & Hr & Hc)%ts_step_elem. apply list_elem_of_fmap in Hr as (t' & [= -> ->] & Ht). done.
Qed.

Lemma ts_step_in {D} lo (l : list (CharRange * D)) r d c :
  sorted_from lo l -> (r, d) ∈ l -> in_range r c = true -> ts_step l c = Some d.
Proof.
  revert lo. induction l as [|[r' d'] l IH]; intros lo Hs Hin Hc; [by apply not_elem_of_nil in Hin|].
  simpl in Hs. destruct Hs as (Hlo & Hr & Hl & Hs). apply elem_of_cons in Hin as [[= <- <-]|Hin]; simpl; [by rewrite Hc|].
  specialize (IH _ Hs Hin Hc). destruct (in_range r' c) eqn:E; [|done].
  unfold in_range in E. bprop. exfalso. rewrite (ts_step_below _ _ _ Hs) in IH; [done|lia].
Qed.

Lemma covering_in lo ts t c : sorted_from lo ts -> t ∈ ts -> in_range (fst t) c = true -> covering ts c = Some t.
Proof.
  intros Hs Ht Hc. apply (ts_step_in lo _ (fst t)); [by apply sorted_tagged| |done]. apply list_elem_of_fmap. by exists t.
Qed.

Lemma ts_step_covering ts c : ts_step ts c = snd <$> covering ts c.
Proof. unfold covering. induction ts as [|[r t] ts IH]; [done|]. cbn. by destruct (in_range r c). Qed.

Lemma cover_elem tss c t : t ∈ cover tss c <-> exists ts, ts ∈ tss /\ covering ts c = Some t.
Proof. apply list_elem_of_omap. Qed.

(** ** Merging the transitions of all nodes *)

(** The data collected before, and the transitions collected now. *)
Definition collected (x : option (list transition)) (l : list transition) : option (list transition) :=
  match x, l with None, [] => None | None, l => Some l | Some d, l => Some (d ++ l) end.

Lemma collect_transitions_spec tss : forall v es,
  wf_ranges v es -> Forall (sorted_from 0) tss ->
  exists v' es', foldM (fun v ts => extend (H := collector) v (tagged ts)) v tss = Some v' /\ wf_ranges v' es' /\
    forall c, ts_step es' c = collected (ts_step es c) (cover tss c).
Proof.
  induction tss as [|ts tss IH]; intros v es Hv Hs.
  { exists v, es. split_and!; [done|done|]. intros c. cbn. destruct (ts_step es c); cbn; by rewrite ?app_nil_r. }
  apply Forall_cons in Hs as [Hts Hs].
  destruct (extend_spec (H := collector) v es (tagged ts) Hv (sorted_tagged 0 ts Hts)) as (v1 & es1 & He & Hv1 & Hpt).
  destruct (IH v1 es1 Hv1 Hs) as (v' & es' & Hf & Hv' & Hpt'). exists v', es'. rewrite foldM_cons, He, option_bind_Some.
  split_and!; [done|done|]. intros c. rewrite Hpt', Hpt. unfold cover, covering. cbn [omap list_omap].
  destruct (ts_step (tagged ts) c) as [t|]; cbn; [|done]. destruct (ts_step es c) as [d|]; cbn; [|done]. by rewrite <- (assoc_L (++)).
Qed.

Definition count_entry (t : CharRange * list transition) : CharRange * Z := (fst t, u32 (vlen (snd t))).

(** The list the constructor of [FullGraphPartition] builds. *)
Lemma singular_spec dfa tss :
  Forall2 (fun n ts => isKilled n = false /\ node_transitions dfa n = Some ts) (dfa_nodes dfa) tss -> Forall (sorted_from 0) tss ->
  exists es, singular_transitions dfa = Some (map count_entry es) /\ sorted_from 0 es /\
    forall c, ts_step es c = match cover tss c with [] => None | l => Some l end.
Proof.
  intros Hn Hs. destruct (collect_transitions_spec tss [] []) as (v & es & Hf & Hv & Hpt); [split; [done|by left]|done|].
  exists es. unfold singular_transitions.
  set (f := fun d : list transition => u32 (vlen d)).
  assert (Hloop : forall nodes w, Forall2 (fun n ts => isKilled n = false /\ node_transitions dfa n = Some ts) nodes tss ->
    foldM (fun ranges n => if isKilled n then Some ranges else ts ← node_transitions dfa n; extend ranges ts) (map (map_range f) w) nodes =
    map (map_range f) <$> foldM (fun v ts => extend (H := collector) v (tagged ts)) w tss).
  { clear Hf Hv Hpt Hn Hs. induction tss as [|ts tss IH]; intros nodes w Hn; inversion Hn as [|n ts' nodes' tss' [Hk Hts] Hn' Hnn]; subst; [done|].
    rewrite !foldM_cons, Hk, Hts, option_bind_Some.
    pose proof (extend_natural (H := collector) (H' := CounterConverter) f snd) as Hnat.
    rewrite <- (map_id ts) at 1. replace (map (fun x => x) ts) with (map (map_other snd) (tagged ts))
      by (unfold tagged; rewrite map_map; apply map_ext; by intros []).
    rewrite Hnat; [|done|].
    - destruct (extend w (tagged ts)); cbn; [by apply IH|done].
    - intros d b. unfold f. cbn. rewrite length_app. cbn. unfold uwrap. rewrite Zplus_mod_idemp_l. f_equal. lia. }
  rewrite (Hloop _ [] Hn : foldM _ [] _ = _), Hf. cbn. rewrite range_list_natural, (range_list_wf _ _ Hv). split; [done|].
  split; [apply Hv|]. intros c. rewrite Hpt. cbn. by destruct (cover tss c).
Qed.

(** ** Transitions are unions of singular ranges *)

Section Ranges.
Variables (tss : list (list transition)) (es : list (CharRange * list transition)).
Hypothesis Htss : Forall (sorted_from 0) tss.
Hypothesis Hes : sorted_from 0 es.
Hypothesis Hcover : forall c, ts_step es c = match cover tss c with [] => None | l => Some l end.

Lemma range_cover r d c : (r, d) ∈ es -> in_range r c = true -> cover tss c = d /\ d <> [].
Proof.
  intros Hin Hc. pose proof (ts_step_in 0 es r d c Hes Hin Hc) as Hs. rewrite Hcover in Hs.
  destruct (cover tss c); [done|]. injection Hs as <-. done.
Qed.

(** A range that meets a transition is inside of it. *)
Lemma range_inside r d ts t c c' :
  (r, d) ∈ es -> ts ∈ tss -> t ∈ ts -> in_range r c = true -> in_range (fst t) c = true -> in_range r c' = true -> in_range (fst t) c' = true.
Proof.
  intros Hin Hts Ht Hc Htc Hc'. pose proof (proj1 (Forall_forall _ _) Htss) as Hall. pose proof (Hall ts Hts) as Hsort.
  destruct (range_cover r d c Hin Hc) as [Hd _], (range_cover r d c' Hin Hc') as [Hd' _].
  assert (Htd : t ∈ cover tss c') by (rewrite Hd', <- Hd; apply cover_elem; exists ts; split; [done|by apply (covering_in 0)]).
  apply cover_elem in Htd as (ts' & _ & Ht'). by apply covering_elem in Ht' as [_ ?].
Qed.

Lemma range_exists ts t c : ts ∈ tss -> t ∈ ts -> in_range (fst t) c = true -> exists r d, (r, d) ∈ es /\ in_range r c = true.
Proof.
  intros Hts Ht Hc. pose proof (proj1 (Forall_forall _ _) Htss) as Hall.
  assert (Htd : t ∈ cover tss c) by (apply cover_elem; exists ts; split; [done|by apply (covering_in 0); [apply Hall|..]]).
  pose proof (Hcover c) as Hs. destruct (cover tss c) as [|t' l]; [by apply not_elem_of_nil in Htd|].
  apply ts_step_elem in Hs as (r & Hr & ?). by exists r, (t' :: l).
Qed.

Lemma sorted_elem {D} lo (l : list (CharRange * D)) r d :
  sorted_from lo l -> (r, d) ∈ l -> lo <= range_first r /\ range_first r <= range_last r /\ range_last r <= 127.
Proof.
  revert lo. induction l as [|[r' d'] l IH]; intros lo Hs Hin; [by apply not_elem_of_nil in Hin|].
  simpl in Hs. destruct Hs as (Hlo & Hr & Hl & Hs). apply elem_of_cons in Hin as [[= <- <-]|Hin]; [lia|].
  specialize (IH _ Hs Hin). lia.
Qed.

Lemma in_range_spec r c : in_range r c = true <-> range_first r <= c <= range_last r.
Proof. unfold in_range. rewrite andb_true_iff, !Z.leb_le. done. Qed.

Lemma range_starts ts t : ts ∈ tss -> t ∈ ts -> exists r d, (r, d) ∈ es /\ range_first r = range_first (fst t).
Proof.
  intros Hts Ht. pose proof (proj1 (Forall_forall _ _) Htss) as Hall. destruct t as [rt tt]. destruct (sorted_elem 0 ts rt tt (Hall ts Hts) Ht) as (_ & Hr & _).
  destruct (range_exists ts (rt, tt) (range_first rt) Hts Ht) as (r & d & Hin & Hc); [apply in_range_spec; cbn; lia|].
  exists r, d. split; [done|]. destruct (sorted_elem 0 es r d Hes Hin) as (_ & Hr' & _).
  assert (Hf : in_range rt (range_first r) = true).
  { apply (range_inside r d ts (rt, tt) (range_first rt)); try done; apply in_range_spec; cbn; lia. }
  apply in_range_spec in Hf, Hc. cbn. lia.
Qed.
End Ranges.

(** ** The intersections of a transition *)

Lemma skip_to_spec c pre post : forall index, c ∉ pre -> skip_to c index (pre ++ c :: post) = (index + vlen pre, c :: post).
Proof.
  induction pre as [|x pre IH]; intros index Hc; cbn.
  - rewrite Z.eqb_refl. cbn. f_equal. lia.
  - apply not_elem_of_cons in Hc as [Hne Hc]. rewrite (proj2 (Z.eqb_neq x c)) by done. cbn. rewrite IH by done. f_equal. lia.
Qed.

Lemma covered_spec last mid post : forall index,
  Forall (fun f => f <= last) mid -> (match post with [] => True | f :: _ => last < f end) ->
  covered last index (mid ++ post) = (seqZ index (vlen mid), index + vlen mid, post).
Proof.
  induction mid as [|x mid IH]; intros index Hm Hp.
  - destruct post as [|f post]; cbn; [by rewrite Z.add_0_r|]. rewrite (proj2 (Z.leb_gt f last)) by done. by rewrite Z.add_0_r.
  - apply Forall_cons in Hm as [Hx Hm]. cbn [app covered]. rewrite (proj2 (Z.leb_le x last)) by done. rewrite (IH (index + 1)) by done.
    rewrite (seqZ_cons index) by (cbn; lia). cbn [length]. replace (Z.pred (Z.of_nat (S (length mid)))) with (vlen mid) by lia.
    replace (index + Z.of_nat (S (length mid))) with (index + 1 + vlen mid) by lia. done.
Qed.

Lemma split_at_last {D} (last : Z) (l : list (CharRange * D)) : exists mid post, l = mid ++ post /\
  Forall (fun e => range_first (fst e) <= last) mid /\ match post with [] => True | e :: _ => last < range_first (fst e) end.
Proof.
  induction l as [|e l (mid & post & -> & Hm & Hp)]; [by exists [], []|].
  destruct (Z_le_gt_dec (range_first (fst e)) last).
  - exists (e :: mid), post. split_and!; [done|by constructor|done].
  - exists [], (e :: mid ++ post). split_and!; [done|done|lia].
Qed.

Lemma sorted_firsts {D} lo (l : list (CharRange * D)) e : sorted_from lo l -> e ∈ l -> lo <= range_first (fst e).
Proof. destruct e as [r d]. intros Hs He. exact (proj1 (sorted_elem lo l r d Hs He)). Qed.

(** The first characters of a list that is cut at an element. *)
Lemma sorted_cut {D} lo (l1 l2 : list (CharRange * D)) e e' :
  sorted_from lo (l1 ++ e :: l2) -> (e' ∈ l1 -> range_first (fst e') < range_first (fst e)) /\ (e' ∈ l2 -> range_first (fst e) < range_first (fst e')).
Proof.
  intros Hs. apply sorted_from_app in Hs as [Hs1 Hs2]. destruct e as [r d]. simpl in Hs2. destruct Hs2 as (Htop & Hr & Hl & Hs2). split.
  - intros Hin. cbn. enough (range_first (fst e') < top lo l1) by lia. clear -Hs1 Hin. revert lo Hs1.
    induction l1 as [|[r1 d1] l1 IH]; intros lo Hs; [by apply not_elem_of_nil in Hin|]. simpl in Hs. destruct Hs as (? & ? & ? & Hs). simpl.
    apply elem_of_cons in Hin as [->|Hin]; [|by apply IH]. pose proof (top_ge _ _ Hs). cbn. lia.
  - intros Hin. pose proof (sorted_firsts _ _ _ Hs2 Hin). cbn in *. lia.
Qed.

(** A vector cut into three parts. *)
Lemma vec_at_cut {A} (pre mid post : list A) j e :
  (pre ++ mid ++ post).[j] = Some e <->
  (j < vlen pre /\ pre.[j] = Some e) \/ (vlen pre <= j < vlen pre + vlen mid /\ mid.[j - vlen pre] = Some e) \/
  (vlen pre + vlen mid <= j /\ post.[j - vlen pre - vlen mid] = Some e).
Proof.
  destruct (Z_lt_ge_dec j (vlen pre)) as [H|H]; [rewrite vec_at_app_l by done; split; [tauto|intros [[_ ?]|[[? _]|[? _]]]; [done|lia|lia]]|].
  replace j with (vlen pre + (j - vlen pre)) at 1 by lia. rewrite vec_at_app_r by lia.
  destruct (Z_lt_ge_dec j (vlen pre + vlen mid)) as [H'|H'].
  - rewrite vec_at_app_l by lia. split; [intros ?; right; left; split; [lia|done]|intros [[? _]|[[_ ?]|[? _]]]; [lia|done|lia]].
  - replace (j - vlen pre) with (vlen mid + (j - vlen pre - vlen mid)) at 1 by lia. rewrite vec_at_app_r by lia.
    split; [intros ?; right; right; split; [lia|done]|intros [[? _]|[[? _]|[_ ?]]]; [lia|lia|done]].
Qed.

Lemma vec_at_elem {A} (v : list A) i e : v.[i] = Some e -> e ∈ v.
Proof. intros [_ H]%vec_at_Some. by eapply list_elem_of_lookup_2. Qed.

Abbreviation firsts l := (map (fun e => range_first (fst e)) l).

(** One transition: its first range is found, and the ranges it covers are contiguous. *)
Lemma intersections_step {D} lo lo' index (esr : list (CharRange * D)) t ts :
  sorted_from lo esr -> sorted_from lo' (t :: ts) -> (exists e, e ∈ esr /\ range_first (fst e) = range_first (fst t)) ->
  exists pre mid post, esr = pre ++ mid ++ post /\ mid <> [] /\
    intersections index (firsts esr) (t :: ts) =
      map (fun i => (i, t)) (seqZ (index + vlen pre) (vlen mid)) ++ intersections (index + vlen pre + vlen mid) (firsts post) ts /\
    (forall e, e ∈ pre -> range_first (fst e) < range_first (fst t)) /\ (forall e, e ∈ mid -> in_range (fst t) (range_first (fst e)) = true) /\
    (forall e, e ∈ post -> range_last (fst t) < range_first (fst e)).
Proof.
  intros Hes Hts (e0 & He0 & Hf). apply list_elem_of_split in He0 as (pre & post0 & ->).
  destruct (split_at_last (range_last (fst t)) post0) as (mid & post & -> & Hmid & Hpost). destruct t as [rt tt]. cbn in *.
  destruct Hts as (_ & Hrt & _ & _). exists pre, (e0 :: mid), post. split; [done|]. split; [done|].
  assert (Hpre : forall e, e ∈ pre -> range_first (fst e) < range_first rt).
  { intros e He. rewrite <- Hf. by apply (sorted_cut lo pre (mid ++ post) e0 e). }
  split; [|split; [done|split]].
  - rewrite map_app. cbn [map app]. rewrite Hf, skip_to_spec; [|intros (e & E & He)%list_elem_of_fmap; specialize (Hpre e He); lia].
    cbn [tail]. rewrite map_app, covered_spec.
    + rewrite !length_map, (seqZ_cons (index + vlen pre) (vlen (e0 :: mid))) by (cbn; lia). cbn [length map app].
      replace (Z.pred (Z.of_nat (S (length mid)))) with (vlen mid) by lia.
      replace (index + vlen pre + Z.of_nat (S (length mid))) with (index + vlen pre + 1 + vlen mid) by lia. done.
    + by apply Forall_map.
    + by destruct post.
  - intros e [->|He]%elem_of_cons; apply in_range_spec; [lia|]. rewrite Forall_forall in Hmid. specialize (Hmid e He).
    pose proof (proj2 (sorted_cut lo pre (mid ++ post) e0 e Hes) ltac:(apply elem_of_app; by left)). lia.
  - intros e He. destruct post as [|p post]; [by apply not_elem_of_nil in He|]. apply elem_of_cons in He as [->|He]; [done|].
    assert (Hes' : sorted_from lo ((pre ++ e0 :: mid) ++ p :: post)) by (by rewrite <- (assoc_L (++))).
    pose proof (proj2 (sorted_cut lo _ _ p e Hes') He). lia.
Qed.

Lemma intersections_spec {D} ts : forall lo lo' index (esr : list (CharRange * D)),
  sorted_from lo esr -> sorted_from lo' ts ->
  (forall t, t ∈ ts -> exists e, e ∈ esr /\ range_first (fst e) = range_first (fst t)) ->
  (forall a t, (a, t) ∈ intersections index (firsts esr) ts <->
     t ∈ ts /\ exists e, esr.[a - index] = Some e /\ in_range (fst t) (range_first (fst e)) = true) /\
  NoDup (map fst (intersections index (firsts esr) ts)).
Proof.
  induction ts as [|t ts IH]; intros lo lo' index esr Hes Hts Hstart.
  { cbn [intersections]. split; [|constructor]. intros a t. rewrite !elem_of_nil. tauto. }
  destruct (intersections_step lo lo' index esr t ts Hes Hts) as (pre & mid & post & -> & Hne & -> & Hpre & Hmid & Hpost); [apply Hstart; by left|].
  destruct t as [rt tt]. pose proof Hts as (_ & Hrt & _ & Hts'). cbn [fst] in *.
  assert (Hpost_sorted : sorted_from (top lo (pre ++ mid)) post) by (apply sorted_from_app; by rewrite <- (assoc_L (++))).
  destruct (IH _ _ (index + vlen pre + vlen mid) post Hpost_sorted Hts') as [Hin Hnd].
  { intros t Ht. destruct (Hstart t) as (e & He & Hf); [by right|]. exists e. split; [|done].
    pose proof (sorted_firsts _ _ _ Hts' Ht) as Hlt. rewrite !elem_of_app in He. destruct He as [He|[He|He]]; [|
      |done]; exfalso; [specialize (Hpre e He); lia|specialize (Hmid e He); apply in_range_spec in Hmid; lia]. }
  split.
  - intros a t. rewrite elem_of_app, Hin, elem_of_cons, list_elem_of_fmap. split.
    + intros [(i & [= -> ->] & Hi)|(Ht & e & He & Hr)].
      * apply elem_of_seqZ in Hi. split; [by left|]. destruct (vec_at_is_Some mid (i - index - vlen pre)) as [e He]; [lia|].
        exists e. split; [apply vec_at_cut; right; left; split; [lia|done]|]. apply Hmid. by eapply vec_at_elem.
      * split; [by right|]. exists e. split; [|done]. apply vec_at_cut. right. right. pose proof (vec_at_lt _ _ _ He).
        split; [lia|]. rewrite <- He. f_equal. lia.
    + intros (Ht & e & He & Hr). apply in_range_spec in Hr. apply vec_at_cut in He as [[_ He]|[[Hlt He]|[Hge He]]].
      * exfalso. pose proof (Hpre e (vec_at_elem _ _ _ He)). destruct Ht as [->|Ht]; [cbn in Hr; lia|].
        pose proof (sorted_firsts _ _ _ Hts' Ht). lia.
      * destruct Ht as [->|Ht]; [left; exists a; split; [done|]; apply elem_of_seqZ; lia|].
        exfalso. pose proof (Hmid e (vec_at_elem _ _ _ He)) as Hm. apply in_range_spec in Hm. pose proof (sorted_firsts _ _ _ Hts' Ht). lia.
      * destruct Ht as [->|Ht]; [pose proof (Hpost e (vec_at_elem _ _ _ He)); cbn in Hr; lia|].
        right. split; [done|]. exists e. split; [|by apply in_range_spec]. rewrite <- He. f_equal. lia.
  - rewrite map_app, map_map. cbn [fst]. rewrite map_id. apply NoDup_app. split; [apply NoDup_seqZ|split; [|done]].
    intros a Ha%elem_of_seqZ ((a' & t) & -> & Hat)%list_elem_of_fmap. apply Hin in Hat as (_ & e & He & _). apply vec_at_lt in He. cbn in Ha. lia.
Qed.
