(* ===== verification/TransitionTable.v ===== *)
(** * The table of transitions

    The constructor of [FullGraphPartition] visits, for every node, the
    singular ranges its transitions cover, and sorts these visits twice: by
    target node, for the table of incoming transitions, and by singular range,
    for the first partition of the transitions. *)

From S2P Require Import Prelude DFA RangeList Minimizer PartitionCorrect RangeListCorrect GraphPartition SingularRanges.

(** * Sorting into buckets

    The minimizer counts the keys of a list, turns the counts into the start
    of a bucket for every key, and places every element at the next free
    position of its bucket.  The positions are a permutation, and the bucket of
    a key holds exactly the elements with this key. *)

(** ** Tables: vectors given by a function *)

Definition tab {A} (m : Z) (f : Z -> A) : list A := map f (seqZ 0 m).

Lemma tab_length {A} m (f : Z -> A) : 0 <= m -> vlen (tab m f) = m.
Proof. intros. unfold tab. rewrite length_map, length_seqZ. lia. Qed.

Lemma tab_at {A} m (f : Z -> A) i : 0 <= i < m -> (tab m f).[i] = Some (f i).
Proof. intros Hi. apply vec_at_Some. split; [lia|]. unfold tab. rewrite list_lookup_fmap, (proj2 (lookup_seqZ _ _ _ i)) by lia. done. Qed.

Lemma tab_ext {A} m (f g : Z -> A) : (forall i, 0 <= i < m -> f i = g i) -> tab m f = tab m g.
Proof. intros H. apply map_ext_in. intros i Hi%list_elem_of_In%elem_of_seqZ. apply H. lia. Qed.

Lemma tab_ext_vec {A} m (v : list A) f : vlen v = m -> (forall i, 0 <= i < m -> v.[i] = Some (f i)) -> v = tab m f.
Proof.
  intros Hl H. apply list_eq. intros i. rewrite <- !vec_at_nat. destruct (Z_lt_ge_dec (Z.of_nat i) m) as [Hi|Hi].
  - rewrite H, tab_at by lia. done.
  - destruct (v.[Z.of_nat i]) eqn:E1; [apply vec_at_lt in E1; lia|].
    destruct ((tab m f).[Z.of_nat i]) eqn:E2; [apply vec_at_lt in E2; rewrite tab_length in E2; lia|done].
Qed.

Lemma tab_set {A} m (f : Z -> A) i x : 0 <= i < m -> vec_set (tab m f) i x = Some (tab m (fun j => if decide (i = j) then x else f j)).
Proof.
  intros Hi. pose proof (tab_length m f ltac:(lia)) as Hl.
  destruct (vec_set (tab m f) i x) as [v|] eqn:E; [|rewrite vec_set_Some in E; [done|lia]]. f_equal. apply tab_ext_vec.
  - by rewrite (vec_set_length _ _ _ _ E).
  - intros j Hj. rewrite (vec_at_set _ _ _ _ _ E). case_decide; [done|by apply tab_at].
Qed.

Lemma tab_const {A} m (x : A) : replicate (Z.to_nat m) x = tab m (fun _ => x).
Proof.
  unfold tab. destruct (Z_le_gt_dec 0 m) as [H|H].
  - apply tab_ext_vec; [rewrite length_replicate; lia|]. intros i Hi. apply vec_at_replicate. split; [lia|done].
  - rewrite seqZ_nil by lia. by replace (Z.to_nat m) with O by lia.
Qed.

(** ** Counting keys *)

Definition occ (y : Z) (ks : list Z) : Z := vlen (filter (fun k => k = y) ks).
Definition below (y : Z) (ks : list Z) : Z := vlen (filter (fun k => k < y) ks).

Lemma occ_nil y : occ y [] = 0.
Proof. done. Qed.

Lemma occ_cons y k ks : occ y (k :: ks) = (if decide (k = y) then 1 else 0) + occ y ks.
Proof. unfold occ. rewrite filter_cons. case_decide; cbn; lia. Qed.

Lemma occ_app y l1 l2 : occ y (l1 ++ l2) = occ y l1 + occ y l2.
Proof. unfold occ. rewrite filter_app, length_app. lia. Qed.

Lemma occ_snoc y ks k : occ y (ks ++ [k]) = occ y ks + if decide (k = y) then 1 else 0.
Proof. rewrite occ_app, occ_cons. rewrite occ_nil. lia. Qed.

Lemma occ_range y ks : 0 <= occ y ks <= vlen ks.
Proof. unfold occ. pose proof (length_filter (fun k => k = y) ks). lia. Qed.

Lemma below_step y ks : below (y + 1) ks = below y ks + occ y ks.
Proof.
  induction ks as [|k ks IH]; [done|]. unfold below, occ in *. rewrite !filter_cons. repeat case_decide; cbn; lia.
Qed.

Lemma below_mono y y' ks : y <= y' -> below y ks <= below y' ks.
Proof.
  intros Hy. induction ks as [|k ks IH]; [done|]. unfold below in *. rewrite !filter_cons. repeat case_decide; cbn; lia.
Qed.

Lemma below_range y ks : 0 <= below y ks <= vlen ks.
Proof. unfold below. pose proof (length_filter (fun k => k < y) ks). lia. Qed.

Lemma below_none y ks : Forall (fun k => y <= k) ks -> below y ks = 0.
Proof. induction 1 as [|k ks Hk Hks IH]; [done|]. unfold below in *. rewrite filter_cons. case_decide; [lia|done]. Qed.

Lemma below_all y ks : Forall (fun k => k < y) ks -> below y ks = vlen ks.
Proof. induction 1 as [|k ks Hk Hks IH]; [done|]. unfold below in *. rewrite filter_cons. case_decide; [cbn; lia|done]. Qed.

Lemma occ_take_mono y ks i j : (i <= j)%nat -> occ y (take i ks) <= occ y (take j ks).
Proof.
  intros Hij. rewrite <- (take_drop i (take j ks)). rewrite take_take, Nat.min_l by lia. rewrite occ_app. pose proof (occ_range y (drop i (take j ks))). lia.
Qed.

(** ** Positions *)

Section Rank.
Variable ks : list Z.

Definition rank (i : nat) : Z := below (ks !!! i) ks + occ (ks !!! i) (take i ks).

Lemma occ_take_lt i k : ks !! i = Some k -> occ k (take i ks) < occ k ks.
Proof.
  intros Hi. rewrite <- (take_drop_middle ks i k Hi) at 2. rewrite occ_app, occ_cons, decide_True by done.
  pose proof (occ_range k (drop (S i) ks)). lia.
Qed.

(** The bucket of the key, and only it, holds the position. *)
Lemma rank_bucket i k y : ks !! i = Some k -> (below y ks <= rank i < below y ks + occ y ks <-> y = k).
Proof.
  intros Hi. unfold rank. rewrite (list_lookup_total_correct _ _ _ Hi). pose proof (occ_take_lt i k Hi). pose proof (occ_range k (take i ks)).
  split; [|intros ->; lia]. intros Hr. destruct (Z.lt_trichotomy y k) as [Hlt|[->|Hgt]]; [|done|]; exfalso.
  - pose proof (below_mono (y + 1) k ks ltac:(lia)). rewrite below_step in *. lia.
  - pose proof (below_mono (k + 1) y ks ltac:(lia)). rewrite below_step in *. lia.
Qed.

Lemma rank_range i k : ks !! i = Some k -> 0 <= rank i < vlen ks.
Proof.
  intros Hi. pose proof (proj2 (rank_bucket i k k Hi) eq_refl). pose proof (below_range k ks). pose proof (below_range (k + 1) ks).
  rewrite below_step in *. lia.
Qed.

Lemma rank_inj i j k k' : ks !! i = Some k -> ks !! j = Some k' -> rank i = rank j -> i = j.
Proof.
  intros Hi Hj E. assert (k = k') as <-.
  { symmetry. symmetry. apply (rank_bucket j k' k Hj). rewrite <- E. by apply (rank_bucket i k k Hi). }
  revert E. unfold rank. rewrite (list_lookup_total_correct _ _ _ Hi), (list_lookup_total_correct _ _ _ Hj). intros E.
  assert (Hlt : forall a b, ks !! a = Some k -> (a < b)%nat -> occ k (take a ks) < occ k (take b ks)).
  { intros a b Ha Hab. pose proof (occ_take_mono k ks (S a) b ltac:(lia)) as Hm. rewrite (take_S_r _ _ _ Ha), occ_snoc, decide_True in Hm by done. lia. }
  destruct (Nat.lt_trichotomy i j) as [H|[H|H]]; [pose proof (Hlt i j Hi H); lia|done|pose proof (Hlt j i Hj H); lia].
Qed.

Lemma rank_surj p : 0 <= p < vlen ks -> exists i k, ks !! i = Some k /\ rank i = p.
Proof.
  intros Hp. assert (Hin : In p (map rank (seq 0 (length ks)))).
  { assert (Hincl : incl (map rank (seq 0 (length ks))) (seqZ 0 (vlen ks))).
    { intros q (i & <- & Hi%in_seq)%in_map_iff. destruct (lookup_lt_is_Some_2 ks i) as [k Hk]; [lia|].
      apply list_elem_of_In, elem_of_seqZ. pose proof (rank_range i k Hk). lia. }
    eapply (NoDup_length_incl (l := map rank (seq 0 (length ks)))); [| |exact Hincl|].
    - apply NoDup_ListNoDup, NoDup_fmap_2_strong; [|apply NoDup_seq]. intros i j Hi%elem_of_seq Hj%elem_of_seq E.
      destruct (lookup_lt_is_Some_2 ks i) as [k Hk]; [lia|]. destruct (lookup_lt_is_Some_2 ks j) as [k' Hk']; [lia|]. by eapply rank_inj.
    - rewrite length_map, length_seq, length_seqZ. lia.
    - apply list_elem_of_In, elem_of_seqZ. lia. }
  apply in_map_iff in Hin as (i & <- & Hi%in_seq). destruct (lookup_lt_is_Some_2 ks i) as [k Hk]; [lia|]. eauto.
Qed.
End Rank.

(** A visit: the source, the singular range and the transition. *)
Abbreviation visit := (Z * (Z * transition))%type.
Definition visit_source (c : visit) : Z := fst c.
Definition visit_label (c : visit) : Z := fst (snd c).
Definition visit_target (c : visit) : Z := snd (snd (snd c)).

Definition no_visit : visit := (0, (0, (mkCharRange 0 0, 0))).

(** ** Counters *)

Lemma increment_tab m f y :
  0 <= y < m -> 0 <= f y < 2 ^ 32 - 1 -> increment (tab m f) y = Some (tab m (fun j => f j + if decide (y = j) then 1 else 0)).
Proof.
  intros Hy Hf. unfold increment. rewrite tab_at, option_bind_Some, tab_set by done. f_equal. apply tab_ext.
  intros j Hj. case_decide; subst; [apply u32_small; lia|lia].
Qed.

Lemma count_spec {C} (key : C -> Z) m l : forall f,
  (forall c, c ∈ l -> 0 <= key c < m) -> (forall y, 0 <= f y) -> (forall y, f y + vlen l < 2 ^ 32) ->
  foldM (fun v c => increment v (key c)) (tab m f) l = Some (tab m (fun y => f y + occ y (map key l))).
Proof.
  induction l as [|c l IH]; intros f Hk H0 Hb.
  { rewrite foldM_nil. f_equal. apply tab_ext. intros. cbn [map]. rewrite occ_nil. lia. }
  cbn in Hb. rewrite foldM_cons, increment_tab; [|apply Hk; by left|pose proof (H0 (key c)); pose proof (Hb (key c)); lia].
  rewrite option_bind_Some, IH; [| |intros y; pose proof (H0 y); case_decide; lia|intros y; specialize (Hb y); case_decide; lia].
  - f_equal. apply tab_ext. intros y Hy. cbn [map]. rewrite occ_cons. repeat case_decide; lia.
  - intros c' Hc'. apply Hk. by right.
Qed.

(** ** The starts of the buckets *)

Lemma accumulate_spec ks len : forall y,
  vlen ks < 2 ^ 32 -> 0 <= len ->
  accumulate (below y ks) (map (fun y => occ y ks) (seqZ y len)) = (map (fun y => below y ks) (seqZ y len), below (y + len) ks).
Proof.
  intros y Hks Hlen. revert y. pattern len. apply natlike_ind; [| |done]; clear len Hlen.
  - intros y. cbn. by rewrite Z.add_0_r.
  - intros len Hlen IH y. rewrite seqZ_cons, Z.pred_succ by lia. cbn. rewrite <- below_step, u32_small.
    + rewrite IH. do 2 f_equal. lia.
    + pose proof (below_range (y + 1) ks). lia.
Qed.

(** Every singular range gets a set of the size of its bucket. *)
Lemma add_transition_sets_spec ks (singular : list (CharRange * Z)) :
  vlen ks < 2 ^ 32 -> map snd singular = map (fun a => occ a ks) (seqZ 0 (vlen singular)) -> Forall (fun k => 0 <= k) ks ->
  fst (add_transition_sets singular) =
    mkPartition (tab (vlen singular) (fun a => mkSet (below a ks) (occ a ks) 0)) [] [] [] [].
Proof.
  intros Hks Hsnd Hpos. unfold add_transition_sets.
  assert (H : forall (s : list (CharRange * Z)) y p, map snd s = map (fun a => occ a ks) (seqZ y (vlen s)) ->
    fst (foldl (fun pa t => (addSetUnchecked (fst pa) (snd pa) (snd t), u32 (snd pa + snd t))) (p, below y ks) s) =
    mkPartition (m_sets p ++ map (fun a => mkSet (below a ks) (occ a ks) 0) (seqZ y (vlen s))) (m_partitionedElements p)
      (m_elementPositionInPartitionedNodes p) (m_elementToSetMap p) (m_setsMarkedInCurrentGeneration p)).
  { induction s as [|t s IH]; intros y p Hs.
    - cbn. rewrite app_nil_r. by destruct p.
    - cbn [length] in *. rewrite seqZ_cons in Hs |- * by lia. cbn [map foldl fst snd] in *. injection Hs as Ht Hs.
      replace (Z.pred (Z.of_nat (S (length s)))) with (vlen s) in * by lia. rewrite Ht, <- below_step.
      rewrite u32_small by (pose proof (below_range (y + 1) ks); lia). rewrite IH by done. cbn. by rewrite <- (assoc_L (++)). }
  pose proof (H singular 0 emptyPartition Hsnd) as E. by rewrite (below_none 0 ks Hpos) in E.
Qed.

(** ** Filling the table *)

Section Fill.
Variables (n m : Z) (visits : list visit).
Abbreviation N := (vlen visits).
Abbreviation targets := (map visit_target visits).
Abbreviation labels := (map visit_label visits).
Abbreviation position j := (rank targets j).
Abbreviation place j := (rank labels j).
Hypothesis HN : N < 2 ^ 31.
Hypothesis Htargets : forall c, c ∈ visits -> 0 <= visit_target c < n.
Hypothesis Hlabels : forall c, c ∈ visits -> 0 <= visit_label c < m.

Definition buckets : list SetDescriptor := tab m (fun a => mkSet (below a labels) (occ a labels) 0).

(** The entry of a visit that was processed. *)
Definition filled (s : fill_state) (j : nat) (c : visit) : Prop :=
  (fill_transitions s).[position j] = Some (visit_source c) /\
  (m_partitionedElements (fill_partition s)).[place j] = Some (position j) /\
  (m_elementPositionInPartitionedNodes (fill_partition s)).[position j] = Some (place j) /\
  (m_elementToSetMap (fill_partition s)).[position j] = Some (visit_label c).

Record fill_inv (s : fill_state) (processed : list visit) : Prop := mkFillInv {
  fi_sizes : fill_sizes s = tab n (fun y => occ y (map visit_target processed));
  fi_offsets : transitionPerRangeOffset s = tab m (fun a => occ a (map visit_label processed));
  fi_sets : m_sets (fill_partition s) = buckets;
  fi_marks : m_setsMarkedInCurrentGeneration (fill_partition s) = [];
  fi_transitions : vlen (fill_transitions s) = N;
  fi_elements : vlen (m_partitionedElements (fill_partition s)) = N;
  fi_positions : vlen (m_elementPositionInPartitionedNodes (fill_partition s)) = N;
  fi_map : vlen (m_elementToSetMap (fill_partition s)) = N;
  fi_filled : forall j c, processed !! j = Some c -> filled s j c
}.

Section Visit.
Variables (processed rest : list visit) (c : visit).
Hypothesis Hvisits : visits = processed ++ c :: rest.
Abbreviation j := (length processed).

Lemma visit_at : visits !! j = Some c.
Proof. by rewrite Hvisits, list_lookup_middle. Qed.

Lemma key_at (key : visit -> Z) : map key visits !! j = Some (key c) /\ take j (map key visits) = map key processed.
Proof.
  split; [by rewrite list_lookup_fmap, visit_at|]. rewrite Hvisits, map_app, take_app_length'; [done|]. by rewrite length_map.
Qed.

Lemma rank_at (key : visit -> Z) : rank (map key visits) j = below (key c) (map key visits) + occ (key c) (map key processed).
Proof. destruct (key_at key) as [Hk Ht]. unfold rank. by rewrite (list_lookup_total_correct _ _ _ Hk), Ht. Qed.

Lemma rank_at_range (key : visit -> Z) : 0 <= rank (map key visits) j < N.
Proof. rewrite <- (length_map key visits). by eapply rank_range, key_at. Qed.

Lemma rank_at_ne (key : visit -> Z) i c' : processed !! i = Some c' -> rank (map key visits) i <> rank (map key visits) j.
Proof.
  intros Hi E. pose proof (lookup_lt_Some _ _ _ Hi). assert (Hi' : map key visits !! i = Some (key c')).
  { rewrite list_lookup_fmap, Hvisits, lookup_app_l by done. by rewrite Hi. }
  pose proof (rank_inj _ _ _ _ _ Hi' (proj1 (key_at key)) E). lia.
Qed.

Lemma fill_one_spec s :
  fill_inv s processed -> exists s', fill_one (tab n (fun y => below y targets)) s c = Some s' /\ fill_inv s' (processed ++ [c]).
Proof.
  intros [Hsizes Hoffsets Hsets Hmarks Hlt Hle Hlp Hlm Hfilled].
  assert (Hin : c ∈ visits) by (rewrite Hvisits; apply elem_of_app; right; by left).
  pose proof (Htargets c Hin) as Ht. pose proof (Hlabels c Hin) as Hl. pose proof (rank_at visit_target) as Hp. pose proof (rank_at visit_label) as Hq.
  pose proof (rank_at_range visit_target) as Hpr. pose proof (rank_at_range visit_label) as Hqr.
  assert (Hlen : vlen processed < N) by (rewrite Hvisits, length_app; cbn; lia).
  assert (Hocc : forall key y, 0 <= occ y (map key processed) < 2 ^ 32 - 1).
  { intros key y. pose proof (occ_range y (map key processed)) as Ho. rewrite length_map in Ho. lia. }
  replace (fill_one _ s c) with (fill_one (tab n (fun y => below y targets)) s (visit_source c, (visit_label c, snd (snd c)))) by (by destruct c as [? []]).
  unfold fill_one. change (snd (snd (snd c))) with (visit_target c). rewrite tab_at, option_bind_Some by done. rewrite Hsizes, tab_at, option_bind_Some by done.
  rewrite <- Hp, (u32_small (position j)) by lia.
  destruct (vec_set (fill_transitions s) (position j) (visit_source c)) as [F'|] eqn:HF; [|rewrite vec_set_Some in HF; [done|lia]]. rewrite option_bind_Some.
  rewrite Hoffsets, tab_at, option_bind_Some by done. unfold startOffsetOfSet. rewrite Hsets.
  assert (Hstart : set_start <$> buckets.[visit_label c] = Some (below (visit_label c) labels)) by (unfold buckets; by rewrite tab_at).
  rewrite Hstart, option_bind_Some, (increment_tab m) by auto.
  rewrite option_bind_Some, <- Hq, (u32_small (place j)) by lia. unfold setElementUnchecked.
  destruct (vec_set (m_partitionedElements (fill_partition s)) (place j) (position j)) as [E'|] eqn:HE; [|rewrite vec_set_Some in HE; [done|lia]].
  destruct (vec_set (m_elementPositionInPartitionedNodes (fill_partition s)) (position j) (place j)) as [P'|] eqn:HP; [|rewrite vec_set_Some in HP; [done|lia]].
  destruct (vec_set (m_elementToSetMap (fill_partition s)) (position j) (visit_label c)) as [T'|] eqn:HT; [|rewrite vec_set_Some in HT; [done|lia]].
  rewrite !option_bind_Some, increment_tab by auto.
  rewrite option_bind_Some. eexists. split; [done|].
  split; cbn [fill_sizes fill_transitions fill_partition transitionPerRangeOffset m_sets m_partitionedElements m_elementPositionInPartitionedNodes
    m_elementToSetMap m_setsMarkedInCurrentGeneration]; try done.
  - apply tab_ext. intros y Hy. rewrite map_app. cbn [map]. by rewrite occ_snoc.
  - apply tab_ext. intros y Hy. rewrite map_app. cbn [map]. by rewrite occ_snoc.
  - by rewrite (vec_set_length _ _ _ _ HF).
  - by rewrite (vec_set_length _ _ _ _ HE).
  - by rewrite (vec_set_length _ _ _ _ HP).
  - by rewrite (vec_set_length _ _ _ _ HT).
  - intros k c' Hk. unfold filled. cbn. rewrite (vec_at_set _ _ _ _ _ HF), (vec_at_set _ _ _ _ _ HE), (vec_at_set _ _ _ _ _ HP), (vec_at_set _ _ _ _ _ HT).
    apply lookup_app_Some in Hk as [Hk|[Hge Hk]].
    + pose proof (rank_at_ne visit_target k c' Hk). pose proof (rank_at_ne visit_label k c' Hk). rewrite !decide_False by congruence. by apply Hfilled.
    + apply list_lookup_singleton_Some in Hk as [Hk <-]. assert (k = j) as -> by lia. by rewrite !decide_True.
Qed.
End Visit.

(** All visits are processed. *)
Definition fill_start : fill_state :=
  mkFill (replicate (Z.to_nat n) 0) (replicate (Z.to_nat N) 0) (reserveUninitializedCapacity (mkPartition buckets [] [] [] []) N)
    (replicate (length buckets) 0).

Lemma fill_spec : 0 <= m ->
  exists s, foldM (fill_one (tab n (fun y => below y targets))) fill_start visits = Some s /\ fill_inv s visits.
Proof.
  intros Hm. destruct (foldM_inv (fill_one (tab n (fun y => below y targets))) (fun s rest => exists processed, visits = processed ++ rest /\ fill_inv s processed))
    with (l := visits) (s := fill_start) as (s & Hf & processed & Hp & Hs).
  - intros s c rest (processed & Hp & Hs). destruct (fill_one_spec processed rest c Hp s Hs) as (s' & Hs' & Hinv).
    exists s'. split; [done|]. exists (processed ++ [c]). by rewrite <- (assoc_L (++)).
  - exists []. split; [done|]. split; cbn; rewrite ?length_app, ?length_replicate; cbn; try lia; try done.
    + apply tab_const.
    + rewrite <- (Nat2Z.id (length buckets)). unfold buckets. rewrite tab_length, tab_const by done. done.
  - exists s. split; [done|]. rewrite app_nil_r in Hp. by subst.
Qed.

(** The visit whose entry in the table is [t]. *)
Definition index_of (t : Z) : nat :=
  default O (fst <$> list_find (fun p => p = t) (map (fun j => position j) (seq 0 (length visits)))).

Definition visit_of (t : Z) : visit := default no_visit (visits !! index_of t).

Lemma rank_position_inj i j c c' : visits !! i = Some c -> visits !! j = Some c' -> position i = position j -> i = j.
Proof.
  intros Hi Hj. apply (rank_inj targets i j (visit_target c) (visit_target c')); by rewrite list_lookup_fmap, ?Hi, ?Hj.
Qed.

Lemma index_of_position j c : visits !! j = Some c -> index_of (position j) = j.
Proof.
  intros Hj. unfold index_of. destruct (list_find _ _) as [[i p]|] eqn:Hf; cbn.
  - apply list_find_Some in Hf as (Hi & -> & _). rewrite list_lookup_fmap in Hi. apply fmap_Some in Hi as (i' & Hi & E).
    apply lookup_seq in Hi as [-> Hlt]. destruct (lookup_lt_is_Some_2 visits i) as [c' Hc']; [lia|]. symmetry. eapply rank_position_inj; eauto.
  - exfalso. apply list_find_None in Hf. rewrite Forall_forall in Hf. apply (Hf (position j)); [|done].
    apply list_elem_of_fmap. exists j. split; [done|]. apply elem_of_seq. apply lookup_lt_Some in Hj. lia.
Qed.

Lemma visit_of_spec t : 0 <= t < N -> exists j, visits !! j = Some (visit_of t) /\ position j = t.
Proof.
  intros Ht. destruct (rank_surj targets t) as (j & k & Hj & <-); [by rewrite length_map|].
  rewrite list_lookup_fmap in Hj. apply fmap_Some in Hj as (c & Hc & _). exists j. split; [|done].
  unfold visit_of. by rewrite (index_of_position j c Hc), Hc.
Qed.

Lemma visit_of_position j c : visits !! j = Some c -> visit_of (position j) = c /\ 0 <= position j < N.
Proof.
  intros Hj. split; [unfold visit_of; by rewrite (index_of_position j c Hj), Hj|].
  rewrite <- (length_map visit_target visits). eapply rank_range. by rewrite list_lookup_fmap, Hj.
Qed.

(** The graph of the visits. *)
Definition table_graph : Graph :=
  mkGraph n N (fun t => visit_source (visit_of t)) (fun t => visit_target (visit_of t)) (fun t => visit_label (visit_of t)).

Hypothesis Hsources : forall c, c ∈ visits -> 0 <= visit_source c < n.
Hypothesis Hunique : NoDup (map (fun c => (visit_source c, visit_label c)) visits).

Lemma bucket_position t y : 0 <= t < N -> (below y targets <= t < below y targets + occ y targets <-> visit_target (visit_of t) = y).
Proof.
  intros Ht. destruct (visit_of_spec t Ht) as (j & Hj & <-). rewrite (rank_bucket targets j (visit_target (visit_of (position j))) y); [done|].
  by rewrite list_lookup_fmap, Hj.
Qed.

Lemma table_represents s nodes transitions :
  fill_inv s visits ->
  represents (G := table_graph) (mkFull (tab n (fun y => below y targets)) (fill_sizes s) (fill_transitions s) nodes transitions 0).
Proof.
  intros Hs. split; cbn.
  - intros t Ht. destruct (visit_of_spec t Ht) as (j & Hj & Hp). destruct (fi_filled _ _ Hs j _ Hj) as (Hf & _).
    assert (Hin : visit_of t ∈ visits) by (by eapply list_elem_of_lookup_2). rewrite <- Hp at 1. auto.
  - intros y Hy. unfold incoming. cbn. rewrite (fi_sizes _ _ Hs), !tab_at, !option_bind_Some by done. eexists. split; [done|].
    pose proof (below_range y targets). pose proof (occ_range y targets). pose proof (below_range (y + 1) targets) as Hb. rewrite below_step in Hb.
    rewrite !length_map in *.
    assert (Hu : forall i, i ∈ seqZ 0 (occ y targets) -> u32 (below y targets + i) = below y targets + i).
    { intros i Hi%elem_of_seqZ. apply u32_small. lia. }
    split.
    + apply NoDup_fmap_2_strong; [|apply NoDup_seqZ]. intros i i' Hi Hi' E. rewrite !Hu in E by done. lia.
    + intros t. rewrite list_elem_of_fmap. split.
      * intros (i & -> & Hi). rewrite Hu by done. apply elem_of_seqZ in Hi. split; [lia|]. apply bucket_position; lia.
      * intros [Ht Hy']. apply bucket_position in Hy'; [|done]. exists (t - below y targets).
        assert (Hin : t - below y targets ∈ seqZ 0 (occ y targets)) by (apply elem_of_seqZ; lia). split; [rewrite Hu by done; lia|done].
  - apply (fi_transitions _ _ Hs).
  - intros t t' Ht Ht' Es El. destruct (visit_of_spec t Ht) as (j & Hj & <-), (visit_of_spec t' Ht') as (j' & Hj' & <-). f_equal.
    apply (NoDup_lookup _ j j' (visit_source (visit_of (position j)), visit_label (visit_of (position j))) Hunique);
      rewrite list_lookup_fmap, ?Hj, ?Hj'; cbn; congruence.
Qed.

(** The first partition of the transitions: by label. *)
Hypothesis Hoccurs : forall a, 0 <= a < m -> 0 < occ a labels.
Hypothesis Hm : 0 <= m.

Lemma buckets_at a d : buckets.[a] = Some d <-> 0 <= a < m /\ d = mkSet (below a labels) (occ a labels) 0.
Proof.
  unfold buckets. split.
  - intros Hd. pose proof (vec_at_lt _ _ _ Hd) as Ha. rewrite tab_length in Ha by done. rewrite tab_at in Hd by done. split; congruence.
  - intros [Ha ->]. by rewrite tab_at.
Qed.

Lemma table_partition s :
  fill_inv s visits -> quiet N (fill_partition s) /\ forall t, 0 <= t < N -> cls (fill_partition s) t = Some (visit_label (visit_of t)).
Proof.
  intros Hs. assert (Hcls : forall t, 0 <= t < N -> cls (fill_partition s) t = Some (visit_label (visit_of t))).
  { intros t Ht. destruct (visit_of_spec t Ht) as (j & Hj & <-). by destruct (fi_filled _ _ Hs j _ Hj) as (_ & _ & _ & ?). }
  split; [|done]. split.
  - split; [apply Hs|apply Hs|apply Hs|..].
    + intros x q. split; intros Hx; pose proof (vec_at_lt _ _ _ Hx) as Hr.
      * rewrite (fi_positions _ _ Hs) in Hr. destruct (visit_of_spec x Hr) as (j & Hj & E). rewrite <- E in Hx |- *.
        destruct (fi_filled _ _ Hs j _ Hj) as (_ & HE & HP & _). congruence.
      * rewrite (fi_elements _ _ Hs) in Hr. destruct (rank_surj labels q) as (j & k & Hj & <-); [by rewrite length_map|].
        rewrite list_lookup_fmap in Hj. apply fmap_Some in Hj as (c & Hc & _). destruct (fi_filled _ _ Hs j _ Hc) as (_ & HE & HP & _). congruence.
    + intros a d. rewrite (fi_sets _ _ Hs). intros [Ha ->]%buckets_at. cbn. pose proof (Hoccurs a Ha). pose proof (below_range a labels).
      pose proof (below_range (a + 1) labels) as Hb. rewrite below_step, length_map in Hb. lia.
    + intros x a q Hx. pose proof (vec_at_lt _ _ _ Hx) as Hr. rewrite (fi_positions _ _ Hs) in Hr. destruct (visit_of_spec x Hr) as (j & Hj & E).
      destruct (fi_filled _ _ Hs j _ Hj) as (_ & _ & HP & _). rewrite E, Hx in HP. injection HP as ->. rewrite (Hcls x Hr), (fi_sets _ _ Hs).
      assert (Hk : labels !! j = Some (visit_label (visit_of x))) by (by rewrite list_lookup_fmap, Hj). split.
      * intros [= <-]. exists (mkSet (below (visit_label (visit_of x)) labels) (occ (visit_label (visit_of x)) labels) 0). split.
        -- apply buckets_at. split; [|done]. apply Hlabels. by eapply list_elem_of_lookup_2.
        -- cbn. by apply (rank_bucket labels j _ _ Hk).
      * intros (d & [Ha ->]%buckets_at & Hin). cbn in Hin. f_equal. symmetry. by apply (rank_bucket labels j _ _ Hk).
  - split; [constructor|]. intros a. rewrite elem_of_nil, (fi_sets _ _ Hs). split; [done|]. intros (d & [Ha ->]%buckets_at & Hlt). cbn in Hlt. lia.
  - apply (fi_marks _ _ Hs).
Qed.
End Fill.
