(* ===== verification/GraphOfDFA.v ===== *)
(** * The graph the minimizer builds from a DFA

    The table of transitions represents the DFA: a node has a transition with
    the label of a singular range exactly when it moves on the characters of
    the range, and to the same node. *)

From S2P Require Import Prelude DFA RangeList RangeListCorrect SingularRanges Minimizer PartitionCorrect GraphPartition TransitionTable.

Lemma vec_at_cons {A} (x : A) v i : (x :: v).[i] = if decide (i = 0) then Some x else v.[i - 1].
Proof.
  case_decide; [by subst|]. unfold vec_at. repeat case_bool; try lia; [|done]. by replace (Z.to_nat i) with (S (Z.to_nat (i - 1))) by lia.
Qed.

(** ** The visits of all nodes *)

Section Visits.
Variable fs : list Z.

Fixpoint visits_from (i : Z) (tss : list (list transition)) : list visit :=
  match tss with
  | [] => []
  | ts :: tss => map (fun c => (i, c)) (iterateIntersections fs ts) ++ visits_from (i + 1) tss
  end.

Lemma all_intersections_spec dfa tss :
  Forall2 (fun n ts => isKilled n = false /\ node_transitions dfa n = Some ts) (dfa_nodes dfa) tss ->
  all_intersections dfa fs = Some (visits_from 0 tss).
Proof.
  intros H. unfold all_intersections. enough (Hgen : forall nodes i, Forall2 (fun n ts => isKilled n = false /\ node_transitions dfa n = Some ts) nodes tss ->
    exists calls, mapM (fun p => ts ← live_transitions dfa (snd p); Some (map (fun c => (fst p, c)) (iterateIntersections fs ts)))
      (zip_with pair (seqZ i (vlen nodes)) nodes) = Some calls /\ concat calls = visits_from i tss).
  { destruct (Hgen _ 0 H) as (calls & -> & E). cbn. by rewrite E. }
  clear H. induction tss as [|ts tss IH]; intros nodes i Hn; inversion Hn as [|n ts' nodes' tss' [Hk Hts] Hn' Hnn]; subst; [by exists []|].
  destruct (IH nodes' (i + 1) Hn') as (calls & Hc & E). cbn [length]. rewrite seqZ_cons by lia.
  replace (Z.pred (Z.of_nat (S (length nodes')))) with (vlen nodes') by lia. cbn [zip_with mapM fst snd].
  assert (Hl : live_transitions dfa n = Some ts) by (unfold live_transitions; by rewrite Hk).
  rewrite Hl, !option_bind_Some. exists (map (fun c => (i, c)) (iterateIntersections fs ts) :: calls).
  unfold Z.succ. rewrite Hc. cbn. by rewrite E.
Qed.

Lemma visits_elem tss : forall i0 c,
  c ∈ visits_from i0 tss <-> exists ts, tss.[visit_source c - i0] = Some ts /\ snd c ∈ iterateIntersections fs ts.
Proof.
  induction tss as [|ts tss IH]; intros i0 c; cbn [visits_from].
  - rewrite elem_of_nil. split; [done|]. intros (ts & Hts & _). apply vec_at_lt in Hts. cbn in Hts. lia.
  - rewrite elem_of_app, list_elem_of_fmap, IH. setoid_rewrite vec_at_cons. split.
    + intros [(c' & -> & Hc)|(ts' & Hts' & Hc)].
      * exists ts. cbn. by rewrite Z.sub_diag.
      * exists ts'. split; [|done]. pose proof (vec_at_lt _ _ _ Hts'). rewrite decide_False by lia. rewrite <- Hts'. f_equal. lia.
    + intros (ts' & Hts' & Hc). case_decide.
      * left. injection Hts' as <-. exists (snd c). split; [|done]. unfold visit_source in *. destruct c. cbn in *. f_equal. lia.
      * right. exists ts'. split; [|done]. rewrite <- Hts'. f_equal. lia.
Qed.

Lemma visits_unique tss : forall i0, (forall ts, ts ∈ tss -> NoDup (map fst (iterateIntersections fs ts))) ->
  NoDup (map (fun c => (visit_source c, visit_label c)) (visits_from i0 tss)).
Proof.
  induction tss as [|ts tss IH]; intros i0 Hnd; cbn [visits_from]; [constructor|]. rewrite map_app, map_map. cbn. apply NoDup_app. split; [|split].
  - match goal with |- NoDup ?l => replace l with (map (pair i0) (map fst (iterateIntersections fs ts))) by (by rewrite map_map) end.
    apply (NoDup_fmap_2 (pair i0)), Hnd. by left.
  - intros x (c & -> & Hc)%list_elem_of_fmap (c' & E & Hc')%list_elem_of_fmap. apply visits_elem in Hc' as (ts' & Hts' & _).
    apply vec_at_lt in Hts'. injection E as E _. lia.
  - apply IH. intros ts' Hts'. apply Hnd. by right.
Qed.

(** The visits with one label: one for every node that has a transition there. *)
Lemma visits_count a (has : list transition -> option transition) tss : forall i0,
  (forall ts, ts ∈ tss -> NoDup (map fst (iterateIntersections fs ts)) /\ (a ∈ map fst (iterateIntersections fs ts) <-> is_Some (has ts))) ->
  occ a (map visit_label (visits_from i0 tss)) = vlen (omap has tss).
Proof.
  induction tss as [|ts tss IH]; intros i0 Hts; [done|]. cbn [visits_from omap list_omap]. rewrite map_app, occ_app, IH, map_map by (intros ts' ?; apply Hts; by right).
  destruct (Hts ts) as [Hnd Hin]; [by left|]. change (map (fun c => visit_label (i0, c)) (iterateIntersections fs ts)) with (map fst (iterateIntersections fs ts)).
  assert (Hocc : forall l, NoDup l -> occ a l = if decide (a ∈ l) then 1 else 0).
  { induction 1 as [|x l Hx Hl IHl]; [done|]. rewrite occ_cons, IHl. repeat case_decide; subst; try done; set_solver. }
  rewrite (Hocc _ Hnd). destruct (has ts) as [t|]; case_decide as Hd.
  - cbn. lia.
  - exfalso. apply Hd, Hin. by eexists.
  - apply Hin in Hd as [? ?]. done.
  - done.
Qed.

Lemma visits_length k tss : forall i0, (forall ts, ts ∈ tss -> vlen (iterateIntersections fs ts) <= k) -> vlen (visits_from i0 tss) <= k * vlen tss.
Proof.
  induction tss as [|ts tss IH]; intros i0 Hk; cbn [visits_from length]; [lia|]. rewrite length_app, length_map.
  pose proof (Hk ts ltac:(by left)). pose proof (IH (i0 + 1) ltac:(intros; apply Hk; by right)). lia.
Qed.
End Visits.

(** ** The partitions of a DFA *)

(** Which characters a label stands for. *)
Definition stands_for (es : list (CharRange * list transition)) (a c : Z) : Prop := exists e, es.[a] = Some e /\ in_range (fst e) c = true.

(** The graph has the transitions of the nodes. *)
Record graph_of (G : Graph) (on : Z -> Z -> Prop) (tss : list (list transition)) : Prop := mkGraphOf {
  go_nodes : nodes_count = vlen tss;
  go_transitions : 0 <= transitions_count < 2 ^ 31;
  go_sound : forall t c ts, 0 <= t < transitions_count -> on (label t) c -> tss.[source t] = Some ts -> ts_step ts c = Some (target t);
  go_complete : forall x ts c y, tss.[x] = Some ts -> ts_step ts c = Some y -> exists t, 0 <= t < transitions_count /\ source t = x /\ on (label t) c;
  go_inhabited : forall t, 0 <= t < transitions_count -> exists c, on (label t) c;
  go_functional : forall a a' c, on a c -> on a' c -> a = a'
}.

Lemma sorted_disjoint {D} lo (l : list (CharRange * D)) i j e e' c :
  sorted_from lo l -> l !! i = Some e -> l !! j = Some e' -> in_range (fst e) c = true -> in_range (fst e') c = true -> i = j.
Proof.
  intros Hs Hi Hj Hc Hc'. apply in_range_spec in Hc, Hc'. revert lo i j Hs Hi Hj. induction l as [|[r d] l IH]; intros lo i j Hs Hi Hj; [done|].
  simpl in Hs. destruct Hs as (_ & _ & _ & Hs). destruct i as [|i], j as [|j]; simplify_eq/=; [done| | |f_equal; by eapply IH].
  - apply list_elem_of_lookup_2, (sorted_firsts _ _ _ Hs) in Hj. lia.
  - apply list_elem_of_lookup_2, (sorted_firsts _ _ _ Hs) in Hi. lia.
Qed.

Section OfDFA.
Variables (dfa : DFA) (tss : list (list transition)) (es : list (CharRange * list transition)).
Abbreviation n := (vlen tss).
Abbreviation fs := (firsts es).
Abbreviation visits := (visits_from (firsts es) 0 tss).
Hypothesis Hnodes : Forall2 (fun n ts => isKilled n = false /\ node_transitions dfa n = Some ts) (dfa_nodes dfa) tss.
Hypothesis Htss : Forall (sorted_from 0) tss.
Hypothesis Htargets : forall ts t, ts ∈ tss -> t ∈ ts -> 0 <= snd t < n.
Hypothesis Hbound : 128 * n < 2 ^ 31.
Hypothesis Hes : sorted_from 0 es.
Hypothesis Hcover : forall c, ts_step es c = match cover tss c with [] => None | l => Some l end.

Lemma intersections_of ts : ts ∈ tss ->
  (forall a t, (a, t) ∈ iterateIntersections fs ts <-> t ∈ ts /\ exists e, es.[a] = Some e /\ in_range (fst t) (range_first (fst e)) = true) /\
  NoDup (map fst (iterateIntersections fs ts)).
Proof.
  intros Hts. pose proof (proj1 (Forall_forall _ _) Htss ts Hts) as Hs.
  destruct (intersections_spec ts 0 0 0 es Hes Hs) as [Hin Hnd].
  - intros t Ht. destruct (range_starts tss es Htss Hes Hcover ts t Hts Ht) as (r & d & Hr & Hf). by exists (r, d).
  - split; [|done]. intros a t. unfold iterateIntersections. rewrite Hin. by rewrite Z.sub_0_r.
Qed.

Lemma visit_elem c : c ∈ visits <-> exists ts, tss.[visit_source c] = Some ts /\ snd (snd c) ∈ ts /\
  exists e, es.[visit_label c] = Some e /\ in_range (fst (snd (snd c))) (range_first (fst e)) = true.
Proof.
  rewrite visits_elem, Z.sub_0_r. split; intros (ts & Hts & Hc); exists ts; (split; [done|]);
    destruct c as [i [a t]]; by apply (proj1 (intersections_of ts (vec_at_elem _ _ _ Hts))).
Qed.

Lemma intersections_length ts : ts ∈ tss -> vlen (iterateIntersections fs ts) <= 128.
Proof.
  intros Hts. destruct (intersections_of ts Hts) as [Hin Hnd]. pose proof (sorted_length 0 es Hes ltac:(lia)) as Hl.
  assert (Hincl : incl (map fst (iterateIntersections fs ts)) (seqZ 0 (vlen es))).
  { intros a ([a' t] & <- & Ha)%in_map_iff. apply list_elem_of_In, Hin in Ha as (_ & e & He & _). apply vec_at_lt in He.
    apply list_elem_of_In, elem_of_seqZ. cbn. lia. }
  apply NoDup_ListNoDup in Hnd. pose proof (NoDup_incl_length Hnd Hincl) as Hle. rewrite length_map, length_seqZ in Hle. lia.
Qed.

Lemma visits_bound : vlen visits < 2 ^ 31.
Proof. pose proof (visits_length fs 128 tss 0 intersections_length). lia. Qed.

Lemma visits_in_range c : c ∈ visits -> 0 <= visit_source c < n /\ 0 <= visit_target c < n /\ 0 <= visit_label c < vlen es.
Proof.
  intros (ts & Hts & Ht & e & He & _)%visit_elem. split; [by apply vec_at_lt in Hts|]. split; [|by apply vec_at_lt in He].
  apply (Htargets ts); [by eapply vec_at_elem|done].
Qed.

Lemma visits_functional : NoDup (map (fun c => (visit_source c, visit_label c)) visits).
Proof. apply visits_unique. intros ts Hts. by apply intersections_of. Qed.

(** The counter of a singular range is the size of its bucket. *)
Lemma visits_occ a r d : es.[a] = Some (r, d) -> occ a (map visit_label visits) = vlen d /\ d <> [].
Proof.
  intros He. pose proof (vec_at_elem _ _ _ He) as Hin. destruct (sorted_elem 0 es r d Hes Hin) as (_ & Hr & _).
  destruct (range_cover tss es Hes Hcover r d (range_first r) Hin) as [Hd Hne]; [apply in_range_spec; lia|]. split; [|done].
  rewrite (visits_count fs a (fun ts => covering ts (range_first r))); [by rewrite <- Hd|].
  intros ts Hts. destruct (intersections_of ts Hts) as [Hi Hnd]. split; [done|]. pose proof (proj1 (Forall_forall _ _) Htss ts Hts) as Hs.
  rewrite list_elem_of_fmap. split.
  - intros ([a' t] & E & Ht). cbn in E. subst a'. apply Hi in Ht as (Ht & e & He' & Hc). rewrite He in He'. injection He' as <-.
    exists t. by apply (covering_in 0).
  - intros [t Ht]. apply covering_elem in Ht as [Ht Hc]. exists (a, t). split; [done|]. apply Hi. split; [done|]. by exists (r, d).
Qed.

Lemma graph_of_visits : graph_of (table_graph n visits) (stands_for es) tss.
Proof.
  split; cbn.
  - done.
  - pose proof visits_bound. lia.
  - intros t c ts Ht (e & He & Hc) Hts. destruct (visit_of_spec visits t Ht) as (j & Hj & _).
    apply list_elem_of_lookup_2, visit_elem in Hj as (ts' & Hts' & Hin & [r d] & He' & Hf). cbn in Hts, He. rewrite He in He'. injection He' as ->.
    rewrite Hts in Hts'. injection Hts' as <-. pose proof (vec_at_elem _ _ _ He) as Hr. pose proof (vec_at_elem _ _ _ Hts) as Htss'.
    destruct (sorted_elem 0 es r d Hes Hr) as (_ & Hrr & _).
    pose proof (range_inside tss es Htss Hes Hcover r d ts (snd (snd (visit_of visits t))) (range_first r) c Hr Htss' Hin) as Hins.
    apply (ts_step_in 0 ts (fst (snd (snd (visit_of visits t))))); [by apply (proj1 (Forall_forall _ _) Htss)| |].
    + unfold visit_target. by destruct (snd (snd (visit_of visits t))).
    + apply Hins; [apply in_range_spec; lia|done|done].
  - intros x ts c y Hts Hc. rewrite ts_step_covering in Hc. apply fmap_Some in Hc as (tr & Htr & ->).
    apply covering_elem in Htr as [Htr Hc]. pose proof (vec_at_elem _ _ _ Hts) as Htss'.
    destruct (range_exists tss es Htss Hcover ts tr c Htss' Htr Hc) as (r & d & Hr & Hrc). destruct (sorted_elem 0 es r d Hes Hr) as (_ & Hrr & _).
    pose proof (range_inside tss es Htss Hes Hcover r d ts tr c (range_first r) Hr Htss' Htr Hrc Hc) as Hf.
    apply list_elem_of_lookup in Hr as [a Ha]. rewrite <- vec_at_nat in Ha.
    assert (Hv : (x, (Z.of_nat a, tr)) ∈ visits).
    { apply visit_elem. exists ts. split; [done|]. split; [done|]. exists (r, d). split; [done|]. apply Hf, in_range_spec. lia. }
    apply list_elem_of_lookup in Hv as [j Hj]. destruct (visit_of_position visits j _ Hj) as [E Hp]. exists (rank (map visit_target visits) j).
    rewrite E. split; [done|]. split; [done|]. by exists (r, d).
  - intros t Ht. destruct (visit_of_spec visits t Ht) as (j & Hj & _).
    apply list_elem_of_lookup_2, visit_elem in Hj as (ts' & Hts' & Hin & [r d] & He' & Hf). exists (range_first r), (r, d). split; [done|].
    destruct (sorted_elem 0 es r d Hes (vec_at_elem _ _ _ He')) as (_ & Hrr & _). apply in_range_spec. cbn. lia.
  - intros a a' c (e & He & Hc) (e' & He' & Hc'). pose proof (vec_at_lt _ _ _ He). pose proof (vec_at_lt _ _ _ He').
    apply vec_at_Some in He as [_ He], He' as [_ He']. pose proof (sorted_disjoint 0 es _ _ e e' c Hes He He' Hc Hc'). lia.
Qed.

Lemma singular_counts : map snd (map count_entry es) = map (fun a => occ a (map visit_label visits)) (seqZ 0 (vlen (map count_entry es))).
Proof.
  rewrite map_map, length_map. change (map ?f (seqZ 0 ?m)) with (tab m f). apply tab_ext_vec; [by rewrite length_map|].
  intros a Ha. rewrite vec_at_map. destruct (vec_at_is_Some es a Ha) as [[r d] He]. rewrite He. cbn.
  destruct (visits_occ a r d He) as [<- _]. f_equal. apply u32_small. pose proof visits_bound.
  pose proof (occ_range a (map visit_label visits)) as Ho. rewrite length_map in Ho. lia.
Qed.

(** The parts of the state after the constructor. *)
Record constructed (G : Graph) (g : FullGraphPartition) : Prop := mkConstructed {
  cs_represents : represents g;
  cs_nodes : m_nodePartition g = initialize nodes_count;
  cs_transitions : quiet transitions_count (m_transitionPartition g);
  cs_labels : forall t, 0 <= t < transitions_count -> cls (m_transitionPartition g) t = Some (label t);
  cs_next : m_nextTransitionSetToProcess g = 0
}.

Lemma create_spec : singular_transitions dfa = Some (map count_entry es) ->
  exists g, createFullGraphPartition dfa = Some g /\ constructed (table_graph n visits) g.
Proof.
  intros Hsing. unfold createFullGraphPartition. rewrite Hsing, option_bind_Some.
  pose proof visits_bound as HN. pose proof visits_in_range as Hran.
  assert (Hpos : forall key, (forall c, c ∈ visits -> 0 <= key c) -> Forall (fun k => 0 <= k) (map key visits)).
  { intros key Hk. apply Forall_forall. intros k (c & -> & Hc)%list_elem_of_fmap. auto. }
  pose proof (add_transition_sets_spec (map visit_label visits) (map count_entry es)) as Hadd. rewrite length_map in Hadd.
  destruct (add_transition_sets (map count_entry es)) as [tp acc]. cbn [fst] in Hadd. rewrite Hadd; [|lia|exact singular_counts|apply Hpos; by apply Hran].
  rewrite map_map. change (map (fun x => range_first (fst (count_entry x))) es) with fs. rewrite (all_intersections_spec fs dfa tss Hnodes), option_bind_Some.
  rewrite (Forall2_length _ _ _ Hnodes).
  assert (Hcount : count_incoming n visits = Some (map (fun y => occ y (map visit_target visits)) (seqZ 0 n))).
  { unfold count_incoming. rewrite tab_const. apply (count_spec visit_target n visits (fun _ => 0)); [intros c Hc; by apply Hran|lia|intros; lia]. }
  rewrite Hcount, option_bind_Some.
  pose proof (accumulate_spec (map visit_target visits) n 0 ltac:(rewrite length_map; lia) ltac:(lia)) as Hacc.
  rewrite (below_none 0) in Hacc by (apply Hpos; by apply Hran). rewrite Hacc, Z.add_0_l, (below_all n), length_map.
  2: { apply Forall_forall. intros k (c & -> & Hc)%list_elem_of_fmap. by apply Hran. }
  change (map (fun y => below y (map visit_target visits)) (seqZ 0 n)) with (tab n (fun y => below y (map visit_target visits))).
  destruct (fill_spec n (vlen es) visits HN) as (s & Hs & Hinv); [intros; by apply Hran|intros; by apply Hran|lia|].
  rewrite (length_map count_entry es).
  match goal with |- context [foldM (fill_one _) ?s0 _] => change s0 with (fill_start n (vlen es) visits) end. rewrite Hs, option_bind_Some. eexists. split; [done|].
  destruct (table_partition n (vlen es) visits) with (s := s) as [Hq Hc]; try done; [intros; by apply Hran|..|lia|].
  { intros a Ha. destruct (vec_at_is_Some es a Ha) as [[r d] He]. destruct (visits_occ a r d He) as [-> Hne]. destruct d; [done|cbn; lia]. }
  split; cbn; try done. apply (table_represents n (vlen es)); try done; [intros; by apply Hran|intros; by apply Hran|apply visits_functional].
Qed.
End OfDFA.

(** The whole constructor. *)
Lemma createFullGraphPartition_spec dfa tss :
  Forall2 (fun n ts => isKilled n = false /\ node_transitions dfa n = Some ts) (dfa_nodes dfa) tss -> Forall (sorted_from 0) tss ->
  (forall ts t, ts ∈ tss -> t ∈ ts -> 0 <= snd t < vlen tss) -> 128 * vlen tss < 2 ^ 31 ->
  exists G on g, createFullGraphPartition dfa = Some g /\ graph_of G on tss /\ constructed G g.
Proof.
  intros Hn Hs Ht Hb. destruct (singular_spec dfa tss Hn Hs) as (es & Hsing & Hes & Hcover).
  destruct (create_spec dfa tss es Hn Hs Ht Hb Hes Hcover Hsing) as (g & Hg & Hc).
  exists (table_graph (vlen tss) (visits_from (firsts es) 0 tss)), (stands_for es), g. split; [done|]. split; [|done].
  by apply graph_of_visits.
Qed.
