(* ===== verification/SplitNodes.v ===== *)
(** * The final partition of the nodes

    After the groups of final states and all sets of transitions have been
    used, two nodes are in one set exactly when every text leads them to the
    same actions. *)

From S2P Require Import Prelude DFA RangeList RangeListCorrect SingularRanges Minimizer PartitionCorrect GraphPartition TransitionTable GraphOfDFA.

(** * Splitting the nodes

    The minimizer groups the final states by their actions, splits the nodes by
    these groups and then by the transitions.  Afterwards two nodes are in one
    set exactly when no text tells them apart. *)

(** ** Groups of final states *)

Section Groups.
Variables (dfa : DFA).
Abbreviation output i := (n ← (dfa_nodes dfa).[i]; node_actions dfa n).

(** The groups of the nodes below [k]. *)
Record groups (k : Z) (fss : list (list Z * list Z)) : Prop := mkGroups {
  gr_keys : NoDup (map fst fss);
  gr_nodup : forall key l, (key, l) ∈ fss -> NoDup l;
  gr_sound : forall key l i, (key, l) ∈ fss -> i ∈ l -> 0 <= i < k /\ output i = Some key /\ key <> [];
  gr_complete : forall key i, 0 <= i < k -> output i = Some key -> key <> [] -> exists l, (key, l) ∈ fss /\ i ∈ l
}.

Lemma add_keys fss key i : map fst (add_final_state fss key i) = map fst fss \/ map fst (add_final_state fss key i) = map fst fss ++ [key] /\ key ∉ map fst fss.
Proof.
  induction fss as [|[key' l] fss IH]; cbn; [right; split; [done|apply not_elem_of_nil]|].
  case_bool_decide; subst; cbn; [by left|]. destruct IH as [->|[-> Hn]]; [by left|right]. split; [done|]. apply not_elem_of_cons. done.
Qed.

Lemma add_elem fss key i key' l' : NoDup (map fst fss) ->
  ((key', l') ∈ add_final_state fss key i <->
   (key' <> key /\ (key', l') ∈ fss) \/ key' = key /\ ((exists l, (key, l) ∈ fss /\ l' = l ++ [i]) \/ key ∉ map fst fss /\ l' = [i])).
Proof.
  induction fss as [|[k1 l1] fss IH]; intros Hnd; cbn.
  - rewrite list_elem_of_singleton. split.
    + intros [= -> ->]. right. split; [done|]. right. split; [apply not_elem_of_nil|done].
    + intros [[_ []%elem_of_nil]|[-> [(l & []%elem_of_nil & _)|[_ ->]]]]. done.
  - apply NoDup_cons in Hnd as [Hk1 Hnd]. specialize (IH Hnd).
    assert (Hkeys : forall l, (k1, l) ∉ fss) by (intros l Hl; apply Hk1, list_elem_of_fmap; by exists (k1, l)).
    case_bool_decide as E; subst; rewrite elem_of_cons.
    + setoid_rewrite elem_of_cons. split.
      * intros [[= -> ->]|Hin]; [right; split; [done|]; left; exists l1; split; [by left|done]|].
        left. split; [|by right]. intros ->. by apply Hkeys in Hin.
      * intros [[Hne [[= -> ->]|Hin]]|[-> [(l & [[= ->]|Hin] & ->)|[Hn _]]]]; [done|by right|by left|by apply Hkeys in Hin|].
        exfalso. apply Hn. by left.
    + setoid_rewrite elem_of_cons. rewrite IH. split.
      * intros [[= -> ->]|[[? ?]|[-> [(l & ? & ->)|[? ->]]]]]; [by left; split; [|left]|tauto|right; split; [done|left; eauto]|].
        right. split; [done|]. right. split; [|done]. intros [?|?]; [congruence|done].
      * intros [[Hne [?|?]]|[-> [(l & [[= ? ?]|?] & ->)|[? ->]]]]; [by left|tauto|congruence|right; right; split; [done|left; eauto]|tauto].
Qed.

Lemma add_groups fss k key : 0 <= k -> groups k fss -> output k = Some key -> key <> [] -> groups (k + 1) (add_final_state fss key k).
Proof.
  intros Hk [Hkeys Hnd Hs Hc] Ho Hne. split.
  - destruct (add_keys fss key k) as [->|[-> Hn]]; [done|]. apply NoDup_app. split; [done|]. split; [|apply NoDup_singleton].
    by intros x Hx ->%list_elem_of_singleton.
  - intros key' l [[_ Hin]|[-> [(l0 & Hin & ->)|[_ ->]]]]%(add_elem _ _ _ _ _ Hkeys); [by eapply Hnd| |apply NoDup_singleton].
    apply NoDup_app. split; [by eapply Hnd|]. split; [|apply NoDup_singleton].
    intros i Hi ->%list_elem_of_singleton. destruct (Hs _ _ _ Hin Hi) as [? _]. lia.
  - intros key' l i [[_ Hin]|[-> [(l0 & Hin & ->)|[_ ->]]]]%(add_elem _ _ _ _ _ Hkeys) Hi.
    + destruct (Hs _ _ _ Hin Hi) as (? & ? & ?). split; [lia|done].
    + apply elem_of_app in Hi as [Hi| ->%list_elem_of_singleton]; [destruct (Hs _ _ _ Hin Hi) as (? & ? & ?); split; [lia|done]|split; [lia|done]].
    + apply list_elem_of_singleton in Hi as ->. split; [lia|done].
  - intros key' i Hi Ho' Hne'. setoid_rewrite (add_elem _ _ _ _ _ Hkeys). destruct (decide (i = k)) as [->|Hik].
    + assert (key' = key) as -> by congruence. destruct (decide (key ∈ map fst fss)) as [Hin|Hin].
      * apply list_elem_of_fmap in Hin as ([k1 l] & -> & Hin). exists (l ++ [k]). cbn in *. split; [right; split; [done|]; left; eauto|].
        apply elem_of_app. right. by left.
      * exists [k]. split; [tauto|by left].
    + destruct (Hc key' i) as (l & Hl & Hil); [lia|done|done|]. destruct (decide (key' = key)) as [->|Hkk].
      * exists (l ++ [k]). split; [right; split; [done|]; left; eauto|]. apply elem_of_app. by left.
      * exists l. tauto.
Qed.

Lemma skip_groups fss k : groups k fss -> output k = Some [] -> groups (k + 1) fss.
Proof.
  intros [Hkeys Hnd Hs Hc] Ho. split; try done.
  - intros key l i Hin Hi. destruct (Hs key l i Hin Hi) as (? & ? & ?). split; [lia|done].
  - intros key i Hi Ho' Hne. apply Hc; [|done|done]. destruct (decide (i = k)) as [->|]; [congruence|lia].
Qed.

Hypothesis Hwf : forall n, n ∈ dfa_nodes dfa -> 0 <= m_actionsLength n /\ is_Some (node_actions dfa n).

Lemma final_states_spec : exists fss, final_states dfa = Some fss /\ groups (vlen (dfa_nodes dfa)) fss.
Proof.
  unfold final_states. set (f := fun (finalStates : list (list Z * list Z)) (p : Z * DFANode) => _).
  assert (Hgen : forall post pre fss, dfa_nodes dfa = pre ++ post -> groups (vlen pre) fss ->
    exists fss', foldM f fss (zip_with pair (seqZ (vlen pre) (vlen post)) post) = Some fss' /\ groups (vlen (dfa_nodes dfa)) fss').
  { induction post as [|n post IH]; intros pre fss E Hg; [exists fss; split; [done|]; by rewrite E, app_nil_r|].
    cbn [length]. rewrite seqZ_cons by lia. replace (Z.pred (Z.of_nat (S (length post)))) with (vlen post) by lia. cbn [zip_with].
    assert (Hn : (dfa_nodes dfa).[vlen pre] = Some n) by (rewrite E, <- (Z.add_0_r (vlen pre)); by rewrite vec_at_app_r).
    destruct (Hwf n) as [Hlen [acts Hacts]]; [rewrite E; apply elem_of_app; right; by left|].
    assert (Ho : output (vlen pre) = Some acts) by (by rewrite Hn).
    replace (Z.succ (vlen pre)) with (vlen (pre ++ [n])) by (rewrite length_app; cbn; lia).
    assert (Hnext : exists fss1, f fss (vlen pre, n) = Some fss1 /\ groups (vlen (pre ++ [n])) fss1).
    { replace (vlen (pre ++ [n])) with (vlen pre + 1) by (rewrite length_app; cbn; lia). unfold f. cbn [fst snd]. unfold hasActions.
      pose proof (length_mapM _ _ _ Hacts) as Hl. rewrite length_seqZ in Hl. case_bool; cbn.
      - exists fss. split; [done|]. apply skip_groups; [done|]. rewrite Ho. destruct acts; [done|cbn in Hl; lia].
      - rewrite Hacts, option_bind_Some. eexists. split; [done|]. apply add_groups; [lia|done|done|]. intros ->. cbn in Hl. lia. }
    destruct Hnext as (fss1 & Hf & Hg1). rewrite foldM_cons, Hf, option_bind_Some. apply IH; [by rewrite <- (assoc_L (++))|done]. }
  apply (Hgen (dfa_nodes dfa) []); [done|]. split; [constructor| | |]; try by intros ? ? []%elem_of_nil.
  - by intros ? ? ? []%elem_of_nil.
  - intros key i Hi. cbn in Hi. lia.
Qed.
End Groups.

(** No text tells two nodes apart. *)
Definition equivalent (dfa : DFA) (x y : Z) : Prop := forall w, dfa_output dfa x w = dfa_output dfa y w.

(** Two slices of a vector that share no position. *)
Definition disjoint (start len start' len' : Z) : Prop := forall i, start <= i < start + len -> ~ start' <= i < start' + len'.

(** The DFAs the minimizer is applied to: nodes own their slices, and none was killed before. *)
Record minimizable (dfa : DFA) : Prop := mkMinimizable {
  mz_wf : wf_dfa dfa;
  mz_live : forall i n, (dfa_nodes dfa).[i] = Some n -> isKilled n = false;
  mz_unsigned : forall i n, (dfa_nodes dfa).[i] = Some n -> 0 <= m_actionsLength n;
  mz_transitions : forall i j n n', (dfa_nodes dfa).[i] = Some n -> (dfa_nodes dfa).[j] = Some n' -> i <> j ->
    disjoint (m_transitionsStart n) (m_transitionsLength n) (m_transitionsStart n') (m_transitionsLength n');
  mz_actions : forall i j n n', (dfa_nodes dfa).[i] = Some n -> (dfa_nodes dfa).[j] = Some n' -> i <> j ->
    disjoint (m_actionsStart n) (m_actionsLength n) (m_actionsStart n') (m_actionsLength n');
  mz_small : 128 * vlen (dfa_nodes dfa) < 2 ^ 31
}.

(** ** The nodes with their transitions *)

Section Nodes.
Variable dfa : DFA.
Hypothesis Hmz : minimizable dfa.

Lemma transitions_of : exists tss,
  Forall2 (fun n ts => isKilled n = false /\ node_transitions dfa n = Some ts) (dfa_nodes dfa) tss /\ Forall (sorted_from 0) tss /\
  (forall ts t, ts ∈ tss -> t ∈ ts -> 0 <= snd t < vlen tss).
Proof.
  assert (Hnode : forall n, n ∈ dfa_nodes dfa -> isKilled n = false /\ wf_node dfa n).
  { intros n [i Hi]%list_elem_of_lookup. rewrite <- vec_at_nat in Hi. pose proof (mz_live _ Hmz _ _ Hi). split; [done|].
    by eapply (wf_nodes _ (mz_wf _ Hmz)). }
  destruct (mapM (node_transitions dfa) (dfa_nodes dfa)) as [tss|] eqn:E.
  - apply mapM_Some_1 in E. pose proof (Forall2_length _ _ _ E) as Hl.
    assert (Hts : forall ts, ts ∈ tss -> sorted_from 0 ts /\ forall t, t ∈ ts -> 0 <= snd t < vlen tss).
    { intros ts [i Hi]%list_elem_of_lookup. destruct (Forall2_lookup_r _ _ _ _ _ E Hi) as (n & Hn & Hts).
      destruct (Hnode n) as [_ [_ (ts' & Hts' & Hs & Hlive)]]; [by eapply list_elem_of_lookup_2|].
      rewrite Hts in Hts'. injection Hts' as <-. split; [done|]. intros t Ht. rewrite Forall_forall in Hlive.
      destruct (Hlive t Ht) as (n' & Hn' & _). apply vec_at_lt in Hn'. lia. }
    exists tss. split; [|split; [apply Forall_forall; intros; by apply Hts|intros; by eapply Hts]].
    apply Forall2_same_length_lookup_2; [done|]. intros i n ts Hn Hi. destruct (Forall2_lookup_l _ _ _ _ _ E Hn) as (ts' & Hi' & Hts').
    simplify_eq. split; [|done]. apply Hnode. by eapply list_elem_of_lookup_2.
  - exfalso. apply mapM_None, Exists_exists in E as (n & Hn & HN). destruct (Hnode n Hn) as [_ [_ (ts & Hts & _)]]. congruence.
Qed.

Lemma actions_of i : 0 <= i < vlen (dfa_nodes dfa) -> exists acts, dfa_output dfa i [] = Some acts.
Proof.
  intros Hi. destruct (vec_at_is_Some _ _ Hi) as [n Hn]. destruct (wf_nodes _ (mz_wf _ Hmz) i n Hn (mz_live _ Hmz i n Hn)) as [(acts & Ha & _) _].
  exists acts. unfold dfa_output. cbn. by rewrite Hn.
Qed.

Variable tss : list (list transition).
Hypothesis Hnodes : Forall2 (fun n ts => isKilled n = false /\ node_transitions dfa n = Some ts) (dfa_nodes dfa) tss.
Hypothesis Htargets : forall ts t, ts ∈ tss -> t ∈ ts -> 0 <= snd t < vlen tss.

Lemma step_of x c : dfa_step dfa x c = ts ← tss.[x]; ts_step ts c.
Proof.
  unfold dfa_step. destruct ((dfa_nodes dfa).[x]) as [n|] eqn:Hn; cbn.
  - pose proof (vec_at_lt _ _ _ Hn). apply vec_at_Some in Hn as [_ Hn]. destruct (Forall2_lookup_l _ _ _ _ _ Hnodes Hn) as (ts & Hts & _ & ->).
    assert (Hx : tss.[x] = Some ts) by (apply vec_at_Some; split; [lia|done]). by rewrite Hx.
  - destruct (tss.[x]) as [ts|] eqn:Hx; [|done]. apply vec_at_lt in Hx. rewrite <- (Forall2_length _ _ _ Hnodes) in Hx.
    destruct (vec_at_is_Some _ _ Hx) as [n Hn']. congruence.
Qed.

Lemma step_target_range x c y : dfa_step dfa x c = Some y -> 0 <= y < vlen (dfa_nodes dfa).
Proof.
  rewrite step_of. destruct (tss.[x]) as [ts|] eqn:Hx; cbn; [|done]. intros (r & Hr & _)%ts_step_elem.
  rewrite (Forall2_length _ _ _ Hnodes). apply (Htargets ts (r, y)); [by eapply vec_at_elem|done].
Qed.

Lemma output_cons x c w : dfa_output dfa x (c :: w) = y ← dfa_step dfa x c; dfa_output dfa y w.
Proof. unfold dfa_output. cbn. by destruct (dfa_step dfa x c). Qed.

(** ** The relation the refinement respects *)

Variables (G : Graph) (on : Z -> Z -> Prop).
Hypothesis HG : graph_of G on tss.
Abbreviation n := nodes_count.
Abbreviation N := transitions_count.

Lemma nodes_range x : 0 <= x < n <-> 0 <= x < vlen (dfa_nodes dfa).
Proof. rewrite (go_nodes _ _ _ HG), (Forall2_length _ _ _ Hnodes). done. Qed.

(** A transition of the table is a step of the DFA on the characters of its label. *)
Lemma step_transition t c : 0 <= t < N -> 0 <= source t < n -> on (label t) c -> dfa_step dfa (source t) c = Some (target t).
Proof.
  intros Ht Hs Hc. rewrite step_of. rewrite (go_nodes _ _ _ HG) in Hs. destruct (vec_at_is_Some tss (source t) Hs) as [ts Hts].
  rewrite Hts. cbn. by apply (go_sound _ _ _ HG).
Qed.

Lemma step_complete x c y : dfa_step dfa x c = Some y -> exists t, 0 <= t < N /\ source t = x /\ on (label t) c.
Proof.
  rewrite step_of. destruct (tss.[x]) as [ts|] eqn:Hx; cbn; [|done]. intros Hc. by eapply (go_complete _ _ _ HG).
Qed.

Lemma equivalent_transition x y t :
  0 <= x < n -> 0 <= y < n -> equivalent dfa x y -> 0 <= t < N -> source t = x ->
  exists t', 0 <= t' < N /\ source t' = y /\ label t' = label t /\ equivalent dfa (target t) (target t').
Proof.
  intros Hx Hy He Ht <-. destruct (go_inhabited _ _ _ HG t Ht) as [c Hc]. pose proof (step_transition t c Ht Hx Hc) as Hstep.
  destruct (actions_of (target t) (step_target_range _ _ _ Hstep)) as [acts Ha].
  pose proof (He [c]) as H1. rewrite !output_cons, Hstep, option_bind_Some, Ha in H1.
  destruct (dfa_step dfa y c) as [y'|] eqn:Hy'; [|done]. destruct (step_complete y c y' Hy') as (t' & Ht' & <- & Hc').
  exists t'. pose proof (go_functional _ _ _ HG _ _ _ Hc' Hc) as El. split; [done|]. split; [done|]. split; [done|].
  pose proof (step_transition t' c Ht' Hy Hc') as Hstep'. intros w. pose proof (He (c :: w)) as Hw. by rewrite !output_cons, Hstep, Hstep' in Hw.
Qed.

(** Nodes of one set of a stable partition step into one set. *)
Lemma stable_step g x y c x' :
  represents g -> stable g -> 0 <= x < n -> 0 <= y < n -> cls (m_nodePartition g) x = cls (m_nodePartition g) y -> dfa_step dfa x c = Some x' ->
  exists y', dfa_step dfa y c = Some y' /\ 0 <= x' < n /\ 0 <= y' < n /\ cls (m_nodePartition g) x' = cls (m_nodePartition g) y'.
Proof.
  intros Hrep Hst Hx Hy E Hstep. destruct (step_complete x c x' Hstep) as (t & Ht & <- & Hc).
  pose proof (step_transition t c Ht Hx Hc) as Hstep1. assert (x' = target t) as -> by congruence.
  destruct (Hst (source t) y t Hx Hy E Ht eq_refl) as (t' & Ht' & <- & El & Ecls). exists (target t').
  rewrite <- El in Hc. pose proof (step_transition t' c Ht' Hy Hc).
  by destruct (rp_source g Hrep t Ht) as (_ & _ & ?), (rp_source g Hrep t' Ht') as (_ & _ & ?).
Qed.

(** A stable partition that separates nodes by actions only identifies equivalent nodes. *)
Lemma stable_equivalent g :
  represents g -> stable g ->
  (forall x y, 0 <= x < n -> 0 <= y < n -> cls (m_nodePartition g) x = cls (m_nodePartition g) y -> dfa_output dfa x [] = dfa_output dfa y []) ->
  forall x y, 0 <= x < n -> 0 <= y < n -> cls (m_nodePartition g) x = cls (m_nodePartition g) y -> equivalent dfa x y.
Proof.
  intros Hrep Hst Hact x y Hx Hy E w. revert x y Hx Hy E. induction w as [|c w IH]; intros x y Hx Hy E; [by apply Hact|]. rewrite !output_cons.
  destruct (dfa_step dfa x c) as [x'|] eqn:Hsx.
  - destruct (stable_step g x y c x' Hrep Hst Hx Hy E Hsx) as (y' & -> & Hx' & Hy' & E'). cbn. by apply IH.
  - destruct (dfa_step dfa y c) as [y'|] eqn:Hsy; [|done].
    destruct (stable_step g y x c y' Hrep Hst Hy Hx (eq_sym E) Hsy) as (x' & Hx' & _). congruence.
Qed.
End Nodes.

(** ** Splitting *)

Section SplitAll.
Variable dfa : DFA.
Hypothesis Hmz : minimizable dfa.
Variables (tss : list (list transition)) (G : Graph) (on : Z -> Z -> Prop).
Hypothesis Hnodes : Forall2 (fun n ts => isKilled n = false /\ node_transitions dfa n = Some ts) (dfa_nodes dfa) tss.
Hypothesis Htargets : forall ts t, ts ∈ tss -> t ∈ ts -> 0 <= snd t < vlen tss.
Hypothesis HG : graph_of G on tss.
Abbreviation n := nodes_count.
Abbreviation N := transitions_count.
Abbreviation R := (equivalent dfa).

Lemma nodes_small : n < 2 ^ 31.
Proof. rewrite (go_nodes _ _ _ HG), <- (Forall2_length _ _ _ Hnodes). pose proof (mz_small _ Hmz). lia. Qed.

Lemma constructed_settled g : constructed G g -> 0 < n -> settled R g /\ used g.
Proof.
  intros [Hrep Hinit Hq Hlab Hnext] Hn. destruct (initialize_wf n Hn) as (Hwf & Hms & Hcls & Hno). rewrite <- Hinit in *.
  assert (Hcl : forall x, 0 <= x < n -> cls (m_nodePartition g) x = Some 0) by done. split.
  - split; [done| |done| |].
    + split; [done|done|]. rewrite Hinit. unfold initialize. by case_bool.
    + intros t t' Ht Ht' E. rewrite (Hlab t Ht), (Hlab t' Ht') in E. injection E as E. split; [done|].
      destruct (rp_source g Hrep t Ht) as (_ & _ & ?), (rp_source g Hrep t' Ht') as (_ & _ & ?). by rewrite !Hcl.
    + split.
      * intros x y Hx Hy _. split; [by rewrite !Hcl|]. pose proof (Hno x). pose proof (Hno y). tauto.
      * intros t t' Ht Ht' E _. by rewrite (Hlab t Ht), (Hlab t' Ht'), E.
  - intros x y t c _ _ _ Ht _ Hc Hlt. rewrite Hnext in Hlt. pose proof (proj2 (class_lt N _ (q_wf _ _ Hq) t c Hc)). lia.
Qed.

Lemma final_split slots : forall g,
  settled R g -> (forall slot, slot ∈ slots -> NoDup (snd slot) /\ (forall x, x ∈ snd slot -> 0 <= x < n) /\
    forall x y, 0 <= x < n -> 0 <= y < n -> R x y -> (x ∈ snd slot <-> y ∈ snd slot)) ->
  exists g', foldM (fun g (slot : list Z * list Z) => g ← foldM markNode g (snd slot); refinePartitions g) g slots = Some g' /\ settled R g' /\
    m_nextTransitionSetToProcess g' = m_nextTransitionSetToProcess g /\ m_flattenedTransitions g' = m_flattenedTransitions g /\
    forall x y, 0 <= x < n -> 0 <= y < n -> cls (m_nodePartition g') x = cls (m_nodePartition g') y ->
      cls (m_nodePartition g) x = cls (m_nodePartition g) y /\ forall slot, slot ∈ slots -> (x ∈ snd slot <-> y ∈ snd slot).
Proof.
  induction slots as [|slot slots IH]; intros g Hst Hslots.
  { exists g. split_and!; try done. intros x y _ _ E. split; [done|]. by intros slot []%elem_of_nil. }
  destruct (Hslots slot) as (Hnd & Hran & HR); [by left|].
  destruct (mark_and_refine R nodes_small (proj2 (go_transitions _ _ _ HG)) g (snd slot) Hst Hnd Hran HR) as (g1 & g2 & Hg1 & Hg2 & Hsb).
  destruct (IH g2 (sb_settled _ _ _ _ Hsb)) as (g' & Hg' & Hst' & Hnext & Hflat & Hfine); [intros s Hs; apply Hslots; by right|].
  exists g'. rewrite foldM_cons, Hg1, option_bind_Some, Hg2, option_bind_Some. split; [done|]. split; [done|].
  split; [by rewrite Hnext, (sb_next _ _ _ _ Hsb)|]. split; [by rewrite Hflat, (sb_flattened _ _ _ _ Hsb)|].
  intros x y Hx Hy E. destruct (Hfine x y Hx Hy E) as [E2 Hs2]. apply (sb_same _ _ _ _ Hsb x y Hx Hy) in E2 as [E1 Hs1].
  split; [done|]. intros s [->|Hs]%elem_of_cons; [done|by apply Hs2].
Qed.

Lemma split_all g fss (order : list (list Z * list Z) -> list (list Z * list Z)) :
  constructed G g -> 0 < n -> groups dfa n fss -> (forall l, order l ≡ₚ l) ->
  exists g1 g2, foldM (fun g (slot : list Z * list Z) => g ← foldM markNode g (snd slot); refinePartitions g) g (order fss) = Some g1 /\
    splitByUniqueTransitions g1 = Some g2 /\ quiet n (m_nodePartition g2) /\
    forall x y, 0 <= x < n -> 0 <= y < n -> (cls (m_nodePartition g2) x = cls (m_nodePartition g2) y <-> R x y).
Proof.
  intros Hc Hn [Hkeys Hnd Hs Hcomp] Hperm. destruct (constructed_settled g Hc Hn) as [Hst Hused0].
  assert (Hout : forall key l x, (key, l) ∈ fss -> 0 <= x < n -> (x ∈ l <-> dfa_output dfa x [] = Some key /\ key <> [])).
  { intros key l x Hin Hx. split; [intros Hxl; destruct (Hs key l x Hin Hxl) as (_ & ? & ?); by split|].
    intros [Ho Hne]. destruct (Hcomp key x Hx Ho Hne) as (l' & Hin' & Hxl). assert (l' = l) as ->; [|done].
    apply list_elem_of_lookup in Hin as [i Hi], Hin' as [j Hj]. assert (i = j) as ->; [|congruence].
    apply (NoDup_lookup _ i j key Hkeys); by rewrite list_lookup_fmap, ?Hi, ?Hj. }
  destruct (final_split (order fss) g Hst) as (g1 & Hg1 & Hst1 & Hnext1 & Hflat1 & Hfine1).
  { intros [key l] Hslot. rewrite Hperm in Hslot. cbn. split; [by eapply Hnd|]. split; [intros x Hx; by eapply Hs|].
    intros x y Hx Hy HR. rewrite (Hout key l x Hslot Hx), (Hout key l y Hslot Hy), (HR []). done. }
  assert (Hnext0 : m_nextTransitionSetToProcess g1 = 0) by (rewrite Hnext1; apply (cs_next _ _ Hc)).
  assert (Hused1 : used g1).
  { intros x y t c _ _ _ Ht _ Hct Hlt. pose proof (proj2 (class_lt N _ (q_wf _ _ (st_transitions _ _ Hst1)) t c Hct)). lia. }
  destruct (split_loop_spec R nodes_small (proj2 (go_transitions _ _ _ HG))) with (fuel := length (m_flattenedTransitions g1)) (g := g1)
    as (g2 & Hg2 & Hst2 & Hstable & _ & Hfine2); try done;
    [|intros x y HR w; symmetry; apply HR|lia|rewrite Hnext0, (rp_length g1 (st_represents _ _ Hst1)); lia|].
  { intros x y t Hx Hy HR Ht Hsrc. by apply (equivalent_transition dfa Hmz tss Hnodes Htargets G on HG x y t). }
  exists g1, g2. split; [done|]. split; [done|]. split; [apply (st_nodes _ _ Hst2)|]. intros x y Hx Hy. split.
  - apply (stable_equivalent dfa tss Hnodes G on HG g2 (st_represents _ _ Hst2) Hstable); [|done|done].
    intros x' y' Hx' Hy' E. apply Hfine2, Hfine1 in E as [_ E]; [|done..].
    destruct (actions_of dfa Hmz x' (proj1 (nodes_range dfa tss Hnodes G on HG x') Hx')) as [ax Hax].
    destruct (actions_of dfa Hmz y' (proj1 (nodes_range dfa tss Hnodes G on HG y') Hy')) as [ay Hay].
    assert (Hhalf : forall x y ax, 0 <= x < n -> 0 <= y < n -> dfa_output dfa x [] = Some ax -> ax <> [] ->
              (forall slot, slot ∈ order fss -> (x ∈ snd slot <-> y ∈ snd slot)) -> dfa_output dfa y [] = Some ax).
    { intros x0 y0 a Hx0 Hy0 Ha Hne HE. destruct (Hcomp a x0 Hx0 Ha Hne) as (l & Hin & Hxl).
      assert (Hal : (a, l) ∈ order fss) by (by rewrite Hperm). pose proof (proj1 (HE (a, l) Hal) Hxl) as Hyl. cbn in Hyl. by apply (Hout a l y0 Hin Hy0) in Hyl as [? _]. }
    destruct (decide (ax = [])) as [->|Hne]; [|rewrite Hax; symmetry; by apply (Hhalf x' y')].
    destruct (decide (ay = [])) as [->|Hne]; [congruence|]. rewrite Hay. apply (Hhalf y' x'); try done. intros slot Hslot. symmetry. by apply E.
  - intros HR. by apply (st_coarse _ _ Hst2).
Qed.
End SplitAll.
