(* ===== verification/MinimizeCorrect.v ===== *)
(** * The minimized DFA

    The composition of the steps of [DFAMinimizer::minimize]. *)

From S2P Require Import Prelude DFA RangeList RangeListCorrect SingularRanges Minimizer PartitionCorrect GraphPartition TransitionTable GraphOfDFA SplitNodes.

(** * Removing the replaced nodes

    Every set of nodes is replaced by its first node: the others are killed,
    their slices are overwritten, and the transitions of the nodes that stay are
    redirected.  Since nodes own their slices, the nodes that stay keep their
    actions and their ranges. *)

(** ** The first node of a set *)

Lemma nodeReplacement_spec n g :
  quiet n (m_nodePartition g) ->
  exists rep, forall x, 0 <= x < n -> nodeReplacement g x = Some (rep x) /\ 0 <= rep x < n /\
    cls (m_nodePartition g) (rep x) = cls (m_nodePartition g) x /\
    forall y, 0 <= y < n -> cls (m_nodePartition g) x = cls (m_nodePartition g) y -> rep x = rep y.
Proof.
  intros Hq. pose proof (q_wf _ _ Hq) as Hwf. exists (fun x => default 0 (nodeReplacement g x)). intros x Hx.
  destruct (class_of n _ Hwf x Hx) as (s & d & pos & Hs & Hd & _). destruct (set_member n _ Hwf s d Hd) as (r & Hr & He).
  assert (E : nodeReplacement g x = Some r) by (unfold nodeReplacement, setIndexOf, firstElementInSet; by rewrite Hs, option_bind_Some, Hd).
  rewrite E. cbn. split; [done|]. split; [by apply (class_lt n _ Hwf r s)|]. split; [by rewrite Hr, Hs|].
  intros y Hy Ey. unfold nodeReplacement, setIndexOf, firstElementInSet. by rewrite <- Ey, Hs, option_bind_Some, Hd, option_bind_Some, He.
Qed.

(** ** Killing a node *)

Lemma fill_slice_spec {A} (v : list A) start len x :
  (forall i, start <= i < start + len -> 0 <= i < vlen v) ->
  exists v', fill_from v start len x = Some v' /\ vlen v' = vlen v /\
    forall i, v'.[i] = if decide (start <= i < start + len) then Some x else v.[i].
Proof.
  intros Hr. change (fill_from v start len x) with (foldM (fun v i => vec_set v i x) v (seqZ start len)).
  assert (Hgen : forall l w, vlen w = vlen v -> (forall i, i ∈ l -> 0 <= i < vlen v) ->
    exists w', foldM (fun v i => vec_set v i x) w l = Some w' /\ vlen w' = vlen v /\ forall i, w'.[i] = if decide (i ∈ l) then Some x else w.[i]).
  { induction l as [|j l IH]; intros w Hw Hl; [exists w; split_and!; [done|done|]; intros i; by rewrite decide_False by apply not_elem_of_nil|].
    destruct (vec_set w j x) as [w1|] eqn:E; [|rewrite vec_set_Some in E; [done|rewrite Hw; apply Hl; by left]].
    destruct (IH w1) as (w' & Hf & Hlen & Hat); [by rewrite (vec_set_length _ _ _ _ E)|intros i Hi; apply Hl; by right|].
    exists w'. rewrite foldM_cons, E, option_bind_Some. split_and!; [done|done|]. intros i. rewrite Hat, (vec_at_set _ _ _ _ _ E).
    destruct (decide (i ∈ l)); [by rewrite decide_True by (by right)|]. destruct (decide (j = i)) as [->|].
    - by rewrite decide_True by (by left).
    - rewrite decide_False; [done|]. intros [?|?]%elem_of_cons; congruence. }
  destruct (Hgen (seqZ start len) v) as (w' & Hf & Hlen & Hat); [done|intros i Hi%elem_of_seqZ; apply Hr; lia|].
  exists w'. split_and!; [done|done|]. intros i. rewrite Hat. apply decide_ext. apply elem_of_seqZ.
Qed.

(** A killed node. *)
Definition killed : DFANode := mkDFANode 0 0 0 0 IsKilled.

(** The slices of a node are inside of the vectors. *)
Definition owns (dfa : DFA) (n : DFANode) : Prop :=
  (forall i, m_transitionsStart n <= i < m_transitionsStart n + m_transitionsLength n ->
     0 <= i < vlen (transitionRanges dfa) /\ 0 <= i < vlen (transitionDestinations dfa)) /\
  (forall i, m_actionsStart n <= i < m_actionsStart n + m_actionsLength n -> 0 <= i < vlen (dfa_actions dfa)).

Lemma wf_owns dfa n : wf_node dfa n -> owns dfa n.
Proof.
  intros [(acts & Ha & _) (ts & Hts & _)]. apply mapM_Some_1 in Ha, Hts. split.
  - intros i Hi. assert (Hin : i ∈ seqZ (m_transitionsStart n) (m_transitionsLength n)) by (apply elem_of_seqZ; lia).
    apply list_elem_of_lookup in Hin as [k Hk]. destruct (Forall2_lookup_l _ _ _ _ _ Hts Hk) as (t & _ & Ht). unfold iterator_at in Ht.
    destruct ((transitionRanges dfa).[i]) eqn:E1; [|done]. destruct ((transitionDestinations dfa).[i]) eqn:E2; [|done].
    apply vec_at_lt in E1, E2. done.
  - intros i Hi. assert (Hin : i ∈ seqZ (m_actionsStart n) (m_actionsLength n)) by (apply elem_of_seqZ; lia).
    apply list_elem_of_lookup in Hin as [k Hk]. destruct (Forall2_lookup_l _ _ _ _ _ Ha Hk) as (a & _ & Ea). by apply vec_at_lt in Ea.
Qed.

(** Two DFAs agree on the slices of a node. *)
Definition agree (dfa dfa' : DFA) (n : DFANode) : Prop :=
  (forall i, m_transitionsStart n <= i < m_transitionsStart n + m_transitionsLength n ->
     (transitionRanges dfa').[i] = (transitionRanges dfa).[i] /\ (transitionDestinations dfa').[i] = (transitionDestinations dfa).[i]) /\
  (forall i, m_actionsStart n <= i < m_actionsStart n + m_actionsLength n -> (dfa_actions dfa').[i] = (dfa_actions dfa).[i]).

Definition same_sizes (dfa dfa' : DFA) : Prop :=
  vlen (transitionRanges dfa') = vlen (transitionRanges dfa) /\ vlen (transitionDestinations dfa') = vlen (transitionDestinations dfa) /\
  vlen (dfa_actions dfa') = vlen (dfa_actions dfa) /\ dfa_root dfa' = dfa_root dfa.

Lemma kill_spec dfa i n :
  (dfa_nodes dfa).[i] = Some n -> owns dfa n ->
  exists dfa', kill dfa i = Some dfa' /\ same_sizes dfa dfa' /\
    (forall j, (dfa_nodes dfa').[j] = if decide (i = j) then Some killed else (dfa_nodes dfa).[j]) /\
    vlen (dfa_nodes dfa') = vlen (dfa_nodes dfa) /\
    forall m, disjoint (m_transitionsStart m) (m_transitionsLength m) (m_transitionsStart n) (m_transitionsLength n) ->
      disjoint (m_actionsStart m) (m_actionsLength m) (m_actionsStart n) (m_actionsLength n) -> agree dfa dfa' m.
Proof.
  intros Hn [Ht Ha]. unfold kill. rewrite Hn, option_bind_Some.
  destruct (fill_slice_spec (transitionRanges dfa) (m_transitionsStart n) (m_transitionsLength n) (mkCharRange (-1) (-1))) as (r & -> & Hlr & Hr); [intros; by apply Ht|].
  destruct (fill_slice_spec (transitionDestinations dfa) (m_transitionsStart n) (m_transitionsLength n) uint32_max) as (t & Et & Hlt & Hta); [intros; by apply Ht|].
  destruct (fill_slice_spec (dfa_actions dfa) (m_actionsStart n) (m_actionsLength n) (2 ^ 64 - 1)) as (a & Ea & Hla & Haa); [done|].
  rewrite option_bind_Some, Et, option_bind_Some, Ea, option_bind_Some.
  destruct (vec_set (dfa_nodes dfa) i killed) as [ns|] eqn:E; [|rewrite vec_set_Some in E; [done|by apply vec_at_lt in Hn]].
  unfold killed in E. rewrite E, option_bind_Some. eexists. split; [done|]. split; [done|]. split; [|split].
  - intros j. by apply (vec_at_set _ _ _ _ _ E).
  - cbn. by rewrite (vec_set_length _ _ _ _ E).
  - intros m Hd1 Hd2. split; cbn; [intros j Hj; specialize (Hd1 j Hj)|intros j Hj; specialize (Hd2 j Hj)].
    + by rewrite Hr, Hta, !decide_False by done.
    + by rewrite Haa, decide_False by done.
Qed.

Lemma agree_trans d1 d2 d3 m : agree d1 d2 m -> agree d2 d3 m -> agree d1 d3 m.
Proof.
  intros [Ht Ha] [Ht' Ha']. split.
  - intros i Hi. destruct (Ht i Hi) as [<- <-]. by apply Ht'.
  - intros i Hi. rewrite <- (Ha i Hi). by apply Ha'.
Qed.

Lemma same_sizes_trans d1 d2 d3 : same_sizes d1 d2 -> same_sizes d2 d3 -> same_sizes d1 d3.
Proof. unfold same_sizes. intuition congruence. Qed.

Lemma owns_sizes dfa dfa' n : same_sizes dfa dfa' -> owns dfa n -> owns dfa' n.
Proof. intros (E1 & E2 & E3 & _) [Ht Ha]. split; rewrite ?E1, ?E2, ?E3; done. Qed.

(** ** Replacing all nodes *)

Section Replace.
Variables (dfa : DFA) (g : FullGraphPartition) (rep : Z -> Z).
Abbreviation n := (vlen (dfa_nodes dfa)).
Hypothesis Hmz : minimizable dfa.
Hypothesis Hrep : forall x, 0 <= x < n -> nodeReplacement g x = Some (rep x) /\ 0 <= rep x < n.
Hypothesis Hidem : forall x, 0 <= x < n -> rep (rep x) = rep x.

(** The state after the nodes below [k]. *)
Record replaced (k : Z) (d : DFA) : Prop := mkReplaced {
  re_sizes : same_sizes dfa d;
  re_nodes : forall j, (dfa_nodes d).[j] = if decide (0 <= j < k /\ rep j <> j) then Some killed else (dfa_nodes dfa).[j];
  re_length : vlen (dfa_nodes d) = n;
  re_agree : forall j m, (dfa_nodes dfa).[j] = Some m -> ~ (0 <= j < k /\ rep j <> j) -> agree dfa d m
}.

Lemma relocate_spec k d :
  0 <= k < n -> replaced k d ->
  exists d', relocate g (d, tab n (fun j => if decide (j < k) then rep j else j)) k = Some (d', tab n (fun j => if decide (j < k + 1) then rep j else j)) /\
    replaced (k + 1) d'.
Proof.
  intros Hk [Hsz Hns Hlen Hag]. destruct (Hrep k Hk) as [Er _]. unfold relocate. rewrite Er, option_bind_Some. cbn [fst snd].
  destruct (Z.eqb_spec k (rep k)) as [Heq|Hne]; cbn [negb].
  - exists d. split.
    + do 2 f_equal. apply tab_ext. intros j Hj. repeat case_decide; try lia. by replace j with k by lia.
    + split; [done| |done|].
      * intros j. rewrite Hns. apply decide_ext. split; [intros [? ?]; split; [lia|done]|]. intros [Hj Hr]. split; [|done].
        destruct (decide (j = k)) as [->|]; [congruence|lia].
      * intros j m Hm Hnot. apply (Hag j m Hm). intros [Hj Hr]. apply Hnot. split; [lia|done].
  - rewrite tab_set, option_bind_Some by done.
    destruct (vec_at_is_Some (dfa_nodes dfa) k Hk) as [m Hm].
    assert (Hmd : (dfa_nodes d).[k] = Some m) by (rewrite Hns, decide_False by lia; done).
    pose proof (wf_owns dfa m (wf_nodes _ (mz_wf _ Hmz) k m Hm (mz_live _ Hmz k m Hm))) as Hown.
    destruct (kill_spec d k m Hmd (owns_sizes _ _ _ Hsz Hown)) as (d' & -> & Hsz' & Hns' & Hlen' & Hag'). rewrite option_bind_Some.
    exists d'. split; [do 2 f_equal; apply tab_ext; intros j Hj; repeat case_decide; subst; try lia; done|].
    split; [by eapply same_sizes_trans| |by rewrite Hlen'|].
    + intros j. rewrite Hns'. destruct (decide (k = j)) as [<-|Hkj]; [by rewrite decide_True by (split; [lia|congruence])|].
      rewrite Hns. apply decide_ext. split; intros [? ?]; (split; [lia|done]).
    + intros j m' Hm' Hnot. assert (Hkj : j <> k) by (intros ->; apply Hnot; split; [lia|congruence]).
      eapply agree_trans; [apply (Hag j m' Hm'); intros [? ?]; apply Hnot; split; [lia|done]|].
      apply Hag'; [by eapply (mz_transitions _ Hmz)|by eapply (mz_actions _ Hmz)].
Qed.

Lemma relocate_all :
  exists d, foldM (relocate g) (dfa, seqZ 0 n) (seqZ 0 n) = Some (d, tab n rep) /\ replaced n d.
Proof.
  set (I := fun (s : DFA * list Z) rest => exists k, 0 <= k <= n /\ rest = seqZ k (n - k) /\
    snd s = tab n (fun j => if decide (j < k) then rep j else j) /\ replaced k (fst s)).
  destruct (foldM_inv (relocate g) I) with (l := seqZ 0 n) (s := (dfa, seqZ 0 n)) as ([d rel] & Hf & k & Hk & Hrest & Hrel & Hd).
  - intros [d rel] i rest (k & Hk & Hrest & Hrel & Hd). cbn [fst snd] in *. subst rel.
    destruct (Z_lt_ge_dec k n) as [Hlt|]; [|rewrite seqZ_nil in Hrest; [done|lia]].
    rewrite seqZ_cons in Hrest by lia. injection Hrest as -> ->.
    destruct (relocate_spec k d ltac:(lia) Hd) as (d' & Hd' & Hr'). eexists. split; [done|]. exists (k + 1). cbn.
    split; [lia|]. split; [f_equal; lia|done].
  - exists 0. split; [lia|]. split; [by rewrite Z.sub_0_r|]. split.
    + cbn. apply tab_ext_vec; [rewrite length_seqZ; lia|]. intros i Hi. rewrite decide_False by lia. apply vec_at_seqZ. done.
    + split; [done| |done|done]. intros j. cbn. by rewrite decide_False by lia.
  - exists d. cbn [fst snd] in *. assert (k = n) as ->.
    { destruct (Z_lt_ge_dec k n); [|lia]. rewrite seqZ_cons in Hrest by lia. done. }
    split; [|done]. rewrite Hf, Hrel. do 2 f_equal. apply tab_ext. intros j Hj. by rewrite decide_True by lia.
Qed.
End Replace.

(** ** Redirecting the transitions *)

Section Retarget.
Variables (n : Z) (rep : Z -> Z) (D0 : list Z).
Hypothesis Hran : forall x, 0 <= x < n -> 0 <= rep x < n.
Hypothesis Hidem : forall x, 0 <= x < n -> rep (rep x) = rep x.

(** The destinations after the positions in [P] were visited. *)
Definition retargeted (P : Z -> Prop) (dests : list Z) : Prop :=
  vlen dests = vlen D0 /\ forall p t, D0.[p] = Some t -> 0 <= t < n -> dests.[p] = Some (rep t) \/ dests.[p] = Some t /\ ~ P p.

(** The body of the loop. *)
Abbreviation redirect := (fun destinations position =>
    target ← destinations.[position];
    relocatedTarget ← (tab n rep).[target];
    if negb (target =? relocatedTarget) then vec_set destinations position relocatedTarget else Some destinations).

Lemma redirect_spec P dests p t :
  retargeted P dests -> D0.[p] = Some t -> 0 <= t < n ->
  exists dests', redirect dests p = Some dests' /\ retargeted (fun q => q = p \/ P q) dests'.
Proof.
  intros [Hlen Hd] Hp Ht. pose proof (Hran t Ht) as Hrt.
  assert (Hcur : exists u, dests.[p] = Some u /\ 0 <= u < n /\ rep u = rep t).
  { destruct (Hd p t Hp Ht) as [E|[E _]]; [exists (rep t); auto|exists t; auto]. }
  destruct Hcur as (u & Hu & Hur & Er). rewrite Hu, option_bind_Some, tab_at, option_bind_Some, Er by done.
  destruct (Z.eqb_spec u (rep t)) as [->|Hne]; cbn [negb].
  - exists dests. split; [done|]. split; [done|]. intros q tq Hq Htq. destruct (Hd q tq Hq Htq) as [E|[E HnP]]; [by left|].
    destruct (decide (q = p)) as [->|]; [left; congruence|right; split; [done|tauto]].
  - destruct (vec_set dests p (rep t)) as [dests'|] eqn:E; [|rewrite vec_set_Some in E; [done|by apply vec_at_lt in Hu]].
    exists dests'. split; [done|]. split; [by rewrite (vec_set_length _ _ _ _ E)|]. intros q tq Hq Htq. rewrite (vec_at_set _ _ _ _ _ E).
    case_decide; [left; congruence|]. destruct (Hd q tq Hq Htq) as [?|[? ?]]; [by left|right; split; [done|]]. intros [?|?]; [congruence|done].
Qed.

Lemma redirect_all ps : forall P dests,
  retargeted P dests -> (forall p, p ∈ ps -> exists t, D0.[p] = Some t /\ 0 <= t < n) ->
  exists dests', foldM redirect dests ps = Some dests' /\ retargeted (fun q => q ∈ ps \/ P q) dests'.
Proof.
  induction ps as [|p ps IH]; intros P dests Hd Hps.
  { exists dests. split; [done|]. destruct Hd as [Hl Hd]. split; [done|]. intros q t Hq Ht. destruct (Hd q t Hq Ht) as [?|[? ?]]; [by left|].
    right. split; [done|]. intros [[]%elem_of_nil|?]; done. }
  destruct (Hps p) as (t & Hp & Ht); [by left|]. destruct (redirect_spec P dests p t Hd Hp Ht) as (d1 & Hd1 & Hr1).
  destruct (IH _ d1 Hr1) as (d2 & Hd2 & [Hl2 Hr2]); [intros q Hq; apply Hps; by right|].
  exists d2. rewrite foldM_cons, Hd1, option_bind_Some. split; [done|]. split; [done|]. intros q tq Hq Htq.
  destruct (Hr2 q tq Hq Htq) as [?|[? ?]]; [by left|right; split; [done|]]. rewrite elem_of_cons. tauto.
Qed.

(** All nodes that stay. *)
Lemma retarget_all nodes : forall P dests,
  retargeted P dests ->
  (forall m p, m ∈ nodes -> isKilled m = false -> m_transitionsStart m <= p < m_transitionsStart m + m_transitionsLength m ->
     exists t, D0.[p] = Some t /\ 0 <= t < n) ->
  exists dests', foldM (retarget (tab n rep)) dests nodes = Some dests' /\
    retargeted (fun p => (exists m, m ∈ nodes /\ isKilled m = false /\ m_transitionsStart m <= p < m_transitionsStart m + m_transitionsLength m) \/ P p) dests'.
Proof.
  induction nodes as [|m nodes IH]; intros P dests Hd Hn.
  { exists dests. split; [done|]. destruct Hd as [Hl Hd]. split; [done|]. intros q t Hq Ht. destruct (Hd q t Hq Ht) as [?|[? ?]]; [by left|].
    right. split; [done|]. intros [(m & []%elem_of_nil & _)|?]; done. }
  assert (Hone : exists d1, retarget (tab n rep) dests m = Some d1 /\
    retargeted (fun p => (isKilled m = false /\ m_transitionsStart m <= p < m_transitionsStart m + m_transitionsLength m) \/ P p) d1).
  { unfold retarget. destruct (isKilled m) eqn:Hk.
    - exists dests. split; [done|]. destruct Hd as [Hl Hd]. split; [done|]. intros q t Hq Ht. destruct (Hd q t Hq Ht) as [?|[? ?]]; [by left|].
      right. split; [done|]. intros [[? _]|?]; done.
    - destruct (redirect_all (seqZ (m_transitionsStart m) (m_transitionsLength m)) P dests Hd) as (d1 & Hd1 & [Hl1 Hr1]).
      + intros p Hp%elem_of_seqZ. apply (Hn m p); [by left|done|lia].
      + exists d1. split; [done|]. split; [done|]. intros q t Hq Ht. destruct (Hr1 q t Hq Ht) as [?|[? Hno]]; [by left|].
        right. split; [done|]. intros [[_ ?]|?]; apply Hno; [left; apply elem_of_seqZ; lia|by right]. }
  destruct Hone as (d1 & Hd1 & Hr1).
  destruct (IH _ d1 Hr1) as (d2 & Hd2 & [Hl2 Hr2]); [intros m' p Hm'; apply Hn; by right|].
  exists d2. rewrite foldM_cons, Hd1, option_bind_Some. split; [done|]. split; [done|]. intros q tq Hq Htq.
  destruct (Hr2 q tq Hq Htq) as [?|[? Hno]]; [by left|right; split; [done|]]. intros [(m' & [->|Hm']%elem_of_cons & Hk & Hin)|HP]; apply Hno;
    [right; left; done|left; by exists m'|right; by right].
Qed.
End Retarget.

(** ** The shape of the result *)

(** [rep] chooses a node of every class of equivalent nodes. *)
Record representatives (dfa : DFA) (rep : Z -> Z) : Prop := mkRepresentatives {
  rr_range : forall x, 0 <= x < vlen (dfa_nodes dfa) -> 0 <= rep x < vlen (dfa_nodes dfa);
  rr_equivalent : forall x, 0 <= x < vlen (dfa_nodes dfa) -> equivalent dfa (rep x) x;
  rr_unique : forall x y, 0 <= x < vlen (dfa_nodes dfa) -> 0 <= y < vlen (dfa_nodes dfa) -> equivalent dfa x y -> rep x = rep y
}.

Lemma rr_idem dfa rep x : representatives dfa rep -> 0 <= x < vlen (dfa_nodes dfa) -> rep (rep x) = rep x.
Proof. intros [Hr He Hu] Hx. apply Hu; auto. Qed.

(** The nodes that are not chosen are killed, the others lead to chosen nodes. *)
Record reduced (dfa : DFA) (rep : Z -> Z) (dfa' : DFA) : Prop := mkReduced {
  rd_length : vlen (dfa_nodes dfa') = vlen (dfa_nodes dfa);
  rd_killed : forall x, 0 <= x < vlen (dfa_nodes dfa) -> rep x <> x -> (dfa_nodes dfa').[x] = Some killed;
  rd_kept : forall x m, (dfa_nodes dfa).[x] = Some m -> rep x = x -> (dfa_nodes dfa').[x] = Some m /\
    node_actions dfa' m = node_actions dfa m /\ node_transitions dfa' m = map (fun t => (fst t, rep (snd t))) <$> node_transitions dfa m;
  rd_root : dfa_root dfa' = rep (dfa_root dfa)
}.

Lemma mapM_image {A B} (f f' : A -> option B) (h : B -> B) l r :
  mapM f l = Some r -> (forall x y, x ∈ l -> f x = Some y -> f' x = Some (h y)) -> mapM f' l = Some (map h r).
Proof.
  intros Hf Hh. apply mapM_Some_1 in Hf. apply mapM_Some_2. induction Hf as [|x y l r Hxy Hf IH]; [constructor|]. constructor.
  - apply Hh; [by left|done].
  - apply IH. intros x' y' Hx'. apply Hh. by right.
Qed.

Section Minimized.
Variables (dfa : DFA) (order : list (list Z * list Z) -> list (list Z * list Z)).
Hypothesis Hmz : minimizable dfa.
Hypothesis Horder : forall l, order l ≡ₚ l.
Abbreviation n := (vlen (dfa_nodes dfa)).

Lemma target_range x m p :
  (dfa_nodes dfa).[x] = Some m -> m_transitionsStart m <= p < m_transitionsStart m + m_transitionsLength m ->
  exists r u, (transitionRanges dfa).[p] = Some r /\ (transitionDestinations dfa).[p] = Some u /\ 0 <= u < n.
Proof.
  intros Hm Hp. destruct (wf_nodes _ (mz_wf _ Hmz) x m Hm (mz_live _ Hmz x m Hm)) as [_ (ts & Hts & _ & Hlive)].
  apply mapM_Some_1 in Hts. assert (Hin : p ∈ seqZ (m_transitionsStart m) (m_transitionsLength m)) by (apply elem_of_seqZ; lia).
  apply list_elem_of_lookup in Hin as [k Hk]. destruct (Forall2_lookup_l _ _ _ _ _ Hts Hk) as (tr & Htr & Hit). unfold iterator_at in Hit.
  destruct ((transitionRanges dfa).[p]) as [r|]; [|done]. destruct ((transitionDestinations dfa).[p]) as [u|]; [|done]. injection Hit as <-.
  exists r, u. split; [done|]. split; [done|]. rewrite Forall_forall in Hlive. destruct (Hlive (r, u)) as (m' & Hm' & _); [by eapply list_elem_of_lookup_2|].
  by apply vec_at_lt in Hm'.
Qed.

Lemma minimize_reduced : exists rep dfa', minimize order dfa = Some dfa' /\ representatives dfa rep /\ reduced dfa rep dfa'.
Proof.
  destruct (transitions_of dfa Hmz) as (tss & Hnodes & Hsorted & Htargets). pose proof (Forall2_length _ _ _ Hnodes) as Hlen.
  destruct (createFullGraphPartition_spec dfa tss Hnodes Hsorted Htargets) as (G & on & g & Hg & HG & Hcons); [rewrite <- Hlen; apply (mz_small _ Hmz)|].
  assert (Hnn : nodes_count = n) by (by rewrite (go_nodes _ _ _ HG), Hlen).
  destruct (final_states_spec dfa) as (fss & Hfss & Hgroups).
  { intros m [i Hi]%list_elem_of_lookup. rewrite <- vec_at_nat in Hi. split; [by eapply (mz_unsigned _ Hmz)|].
    destruct (wf_nodes _ (mz_wf _ Hmz) _ m Hi (mz_live _ Hmz _ m Hi)) as [(acts & Ha & _) _]. by exists acts. }
  assert (Hroot : 0 <= dfa_root dfa < n) by (destruct (wf_root _ (mz_wf _ Hmz)) as (m & Hm & _); by apply vec_at_lt in Hm).
  rewrite <- Hnn in Hgroups.
  destruct (split_all dfa Hmz tss G on Hnodes Htargets HG g fss order Hcons) as (g1 & g2 & Hg1 & Hg2 & Hq & Heq); [lia|done|done|].
  rewrite Hnn in Hq, Heq. destruct (nodeReplacement_spec n g2 Hq) as (rep & Hrep).
  assert (Hreps : representatives dfa rep).
  { split.
    - intros x Hx. by apply Hrep.
    - intros x Hx. destruct (Hrep x Hx) as (_ & Hr & E & _). by apply Heq.
    - intros x y Hx Hy HR. apply Hrep; [done|done|]. by apply Heq. }
  assert (Hidem : forall x, 0 <= x < n -> rep (rep x) = rep x) by (intros x Hx; by apply (rr_idem dfa)).
  destruct (relocate_all dfa g2 rep Hmz) as (d & Hd & Hrd); [intros x Hx; by split; apply Hrep|].
  assert (Hkept : forall m, m ∈ dfa_nodes d -> isKilled m = false -> exists x, (dfa_nodes dfa).[x] = Some m /\ rep x = x).
  { intros m [i Hi]%list_elem_of_lookup Hk. rewrite <- vec_at_nat, (re_nodes _ _ _ _ Hrd) in Hi. case_decide as Hc; [injection Hi as <-; done|].
    exists (Z.of_nat i). split; [done|]. destruct (decide (rep (Z.of_nat i) = Z.of_nat i)); [done|]. exfalso. apply Hc. split; [|done]. by apply vec_at_lt in Hi. }
  assert (Hagree : forall x m, (dfa_nodes dfa).[x] = Some m -> rep x = x -> agree dfa d m).
  { intros x m Hm Hx. apply (re_agree _ _ _ _ Hrd x m Hm). intros [_ ?]. done. }
  destruct (retarget_all n rep (transitionDestinations d) (rr_range _ _ Hreps) Hidem (dfa_nodes d) (fun _ => False) (transitionDestinations d)) as (dests & Hdests & [_ Hret]).
  { split; [done|]. intros p t Hp Ht. right. tauto. }
  { intros m p Hm Hk Hp. destruct (Hkept m Hm Hk) as (x & Hx & Hr). destruct (target_range x m p Hx Hp) as (r & u & _ & Hu & Hur).
    exists u. split; [|done]. destruct (proj1 (Hagree x m Hx Hr) p Hp) as [_ ->]. done. }
  exists rep. eexists. split; [|split; [done|]].
  - unfold minimize. rewrite Hg, option_bind_Some, Hfss, option_bind_Some, Hg1, option_bind_Some, Hg2, option_bind_Some, Hd, option_bind_Some.
    assert (Er : dfa_root d = dfa_root dfa) by (by destruct (re_sizes _ _ _ _ Hrd) as (_ & _ & _ & ->)).
    rewrite Er, tab_at, option_bind_Some, Hdests, option_bind_Some by done. reflexivity.
  - split; cbn [dfa_nodes dfa_root].
    + apply (re_length _ _ _ _ Hrd).
    + intros x Hx Hne. rewrite (re_nodes _ _ _ _ Hrd), decide_True by done. done.
    + intros x m Hm Hx. assert (Hm' : (dfa_nodes d).[x] = Some m) by (rewrite (re_nodes _ _ _ _ Hrd), decide_False by tauto; done).
      split; [done|]. destruct (Hagree x m Hm Hx) as [Ht Ha]. pose proof (mz_live _ Hmz x m Hm) as Hlive.
      destruct (wf_nodes _ (mz_wf _ Hmz) x m Hm Hlive) as [(acts & Hacts & _) (ts & Hts & _)]. split.
      * rewrite Hacts. rewrite <- (map_id acts). eapply mapM_image; [exact Hacts|]. intros i y Hi%elem_of_seqZ Hy. cbn. rewrite Ha by lia. done.
      * rewrite Hts. cbn. eapply mapM_image; [exact Hts|]. intros p y Hp%elem_of_seqZ Hy. unfold iterator_at in *. cbn.
        assert (Hp' : m_transitionsStart m <= p < m_transitionsStart m + m_transitionsLength m) by lia.
        destruct (Ht p Hp') as [Er Ed]. destruct (target_range x m p Hm Hp') as (r & u & Hr & Hu & Hur). rewrite Hr, Hu in Hy. injection Hy as <-.
        rewrite Er, Hr. cbn. rewrite Hu in Ed. destruct (Hret p u Ed Hur) as [->|[_ Hno]]; [done|]. exfalso. apply Hno. left. exists m.
        split; [by eapply vec_at_elem|done].
    + done.
Qed.
End Minimized.

(** ** What the result computes *)

Section Reduced.
Variables (dfa : DFA) (rep : Z -> Z) (dfa' : DFA).
Abbreviation n := (vlen (dfa_nodes dfa)).
Hypothesis Hmz : minimizable dfa.
Hypothesis Hreps : representatives dfa rep.
Hypothesis Hred : reduced dfa rep dfa'.

Lemma ts_step_image (ts : list transition) c : ts_step (map (fun t => (fst t, rep (snd t))) ts) c = rep <$> ts_step ts c.
Proof. induction ts as [|[r t] ts IH]; [done|]. cbn. by destruct (in_range r c). Qed.

Lemma sorted_image lo (ts : list transition) : sorted_from lo ts -> sorted_from lo (map (fun t => (fst t, rep (snd t))) ts).
Proof. revert lo. induction ts as [|[r t] ts IH]; intros lo; [done|]. cbn. intros (?&?&?&?). auto. Qed.

Lemma reduced_step x c : 0 <= x < n -> rep x = x -> dfa_step dfa' x c = rep <$> dfa_step dfa x c.
Proof.
  intros Hx Er. destruct (vec_at_is_Some _ _ Hx) as [m Hm]. destruct (rd_kept _ _ _ Hred x m Hm Er) as (Hm' & _ & Hts).
  unfold dfa_step. rewrite Hm, Hm', !option_bind_Some, Hts. destruct (node_transitions dfa m) as [ts|]; [|done]. cbn. apply ts_step_image.
Qed.

Lemma step_in_range x c y : dfa_step dfa x c = Some y -> 0 <= y < n.
Proof. destruct (transitions_of dfa Hmz) as (tss & Hnodes & _ & Htargets). by apply (step_target_range dfa tss). Qed.

Lemma reduced_output w : forall x, 0 <= x < n -> rep x = x -> dfa_output dfa' x w = dfa_output dfa x w.
Proof.
  induction w as [|c w IH]; intros x Hx Er.
  - destruct (vec_at_is_Some _ _ Hx) as [m Hm]. destruct (rd_kept _ _ _ Hred x m Hm Er) as (Hm' & Ha & _).
    unfold dfa_output. cbn. by rewrite Hm, Hm'.
  - rewrite !output_cons, (reduced_step x c Hx Er). destruct (dfa_step dfa x c) as [y|] eqn:Hy; [|done]. cbn [fmap option_fmap option_map].
    pose proof (step_in_range x c y Hy) as Hyr. change (rep <$> Some y) with (Some (rep y)). rewrite !option_bind_Some.
    rewrite IH; [by apply (rr_equivalent _ _ Hreps)|by apply (rr_range _ _ Hreps)|by apply (rr_idem dfa)].
Qed.

(** A node of the result that was not killed was chosen. *)
Lemma live_kept x m : (dfa_nodes dfa').[x] = Some m -> isKilled m = false -> 0 <= x < n /\ rep x = x /\ (dfa_nodes dfa).[x] = Some m.
Proof.
  intros Hm Hk. pose proof (vec_at_lt _ _ _ Hm) as Hx. rewrite (rd_length _ _ _ Hred) in Hx. split; [done|].
  destruct (decide (rep x = x)) as [Er|Hne].
  - split; [done|]. destruct (vec_at_is_Some _ _ Hx) as [m0 Hm0]. destruct (rd_kept _ _ _ Hred x m0 Hm0 Er) as (Hm' & _). congruence.
  - rewrite (rd_killed _ _ _ Hred x Hx Hne) in Hm. injection Hm as <-. done.
Qed.

Lemma kept_live x : 0 <= x < n -> live_target dfa' (rep x).
Proof.
  intros Hx. pose proof (rr_range _ _ Hreps x Hx) as Hr. destruct (vec_at_is_Some _ _ Hr) as [m Hm].
  exists m. split; [|by apply (mz_live _ Hmz (rep x))]. apply (rd_kept _ _ _ Hred (rep x) m Hm). by apply (rr_idem dfa).
Qed.

Lemma reduced_wf : wf_dfa dfa'.
Proof.
  split.
  - rewrite (rd_root _ _ _ Hred). apply kept_live. destruct (wf_root _ (mz_wf _ Hmz)) as (m & Hm & _). by apply vec_at_lt in Hm.
  - intros x m Hm' Hk. destruct (live_kept x m Hm' Hk) as (Hx & Er & Hm). destruct (rd_kept _ _ _ Hred x m Hm Er) as (_ & Ha & Hts).
    destruct (wf_nodes _ (mz_wf _ Hmz) x m Hm Hk) as [(acts & Hacts & Hb) (ts & Ets & Hs & Hl)]. rewrite Hacts in Ha. rewrite Ets in Hts.
    split; [by exists acts|]. eexists. split; [exact Hts|]. split; [by apply sorted_image|]. apply Forall_map, Forall_forall. intros t Ht.
    rewrite Forall_forall in Hl. destruct (Hl t Ht) as (m' & Hm2 & _). cbn. apply kept_live. by apply vec_at_lt in Hm2.
Qed.

(** Two nodes that no text tells apart are the same node. *)
Lemma reduced_minimal x y :
  live_target dfa' x -> live_target dfa' y -> (forall w, dfa_output dfa' x w = dfa_output dfa' y w) -> x = y.
Proof.
  intros (nx & Hnx & Hkx) (ny & Hny & Hky) He.
  destruct (live_kept x nx Hnx Hkx) as (Hx & Ex & _), (live_kept y ny Hny Hky) as (Hy & Ey & _).
  rewrite <- Ex, <- Ey. apply (rr_unique _ _ Hreps); [done|done|]. intros w. by rewrite <- !reduced_output by done.
Qed.

Lemma reduced_language w : dfa_output dfa' (dfa_root dfa') w = dfa_output dfa (dfa_root dfa) w.
Proof.
  assert (Hroot : 0 <= dfa_root dfa < n) by (destruct (wf_root _ (mz_wf _ Hmz)) as (m & Hm & _); by apply vec_at_lt in Hm).
  rewrite (rd_root _ _ _ Hred), reduced_output; [by apply (rr_equivalent _ _ Hreps)|by apply (rr_range _ _ Hreps)|by apply (rr_idem dfa)].
Qed.
End Reduced.
