(* ===== verification/MinimizeClaims.v ===== *)
(** * What the minimizer guarantees

    The theorems on [DFAMinimizer::minimize], on the partitions it refines and
    on its composition with the conversion of an NFA, with their witnesses. *)

From stdpp Require Import relations gmap.
From S2P Require Import Prelude DFA RangeList RangeListCorrect HashSet NFA NFACorrect NFAToDFA SubsetCorrect SplitNodes SingularRanges ConvertCorrect ConvertClaims Minimizer PartitionCorrect GraphPartition TransitionTable GraphOfDFA MinimizeCorrect.

(** * The slices of a converted DFA

    The conversion appends the actions and the transitions of its nodes to the
    vectors of the DFA, so every node owns its slices and none is killed. *)

(** The slice of transitions of every node ends before [T]. *)
Record owned (T : Z) (dfa : DFA) : Prop := mkOwned {
  ow_bound : 0 <= T <= vlen (transitionRanges dfa);
  ow_flags : forall i n, (dfa_nodes dfa).[i] = Some n -> m_flags n = 0;
  ow_actions : forall i n, (dfa_nodes dfa).[i] = Some n ->
    0 <= m_actionsStart n /\ 0 <= m_actionsLength n /\ m_actionsStart n + m_actionsLength n <= vlen (dfa_actions dfa);
  ow_transitions : forall i n, (dfa_nodes dfa).[i] = Some n -> m_transitionsStart n + m_transitionsLength n <= T;
  ow_disjoint : forall i j n n', (dfa_nodes dfa).[i] = Some n -> (dfa_nodes dfa).[j] = Some n' -> i <> j ->
    disjoint (m_transitionsStart n) (m_transitionsLength n) (m_transitionsStart n') (m_transitionsLength n') /\
    disjoint (m_actionsStart n) (m_actionsLength n) (m_actionsStart n') (m_actionsLength n')
}.

(** Vectors only grow. *)
Definition larger (dfa dfa' : DFA) : Prop :=
  vlen (transitionRanges dfa) <= vlen (transitionRanges dfa') /\ vlen (dfa_actions dfa) <= vlen (dfa_actions dfa').

Definition sizes_fit (dfa : DFA) : Prop := vlen (transitionRanges dfa) < 2 ^ 32 /\ vlen (dfa_actions dfa) < 2 ^ 32.

Lemma larger_fits dfa dfa' : larger dfa dfa' -> sizes_fit dfa' -> sizes_fit dfa.
Proof. unfold larger, sizes_fit. lia. Qed.

Lemma vec_at_snoc_inv {A} (v : list A) x i y : (v ++ [x]).[i] = Some y -> v.[i] = Some y \/ i = vlen v /\ y = x.
Proof.
  intros Hi. pose proof (vec_at_lt _ _ _ Hi) as Hl. rewrite length_app in Hl. cbn in Hl. destruct (decide (i = vlen v)) as [->|].
  - rewrite vec_at_snoc in Hi. right. split; congruence.
  - rewrite vec_at_app_l in Hi by lia. by left.
Qed.

(** ** The steps of both builders of DFAs *)

(** A node without transitions and with new actions. *)
Lemma owned_add_node T dfa acts :
  owned T dfa ->
  owned T (mkDFA (dfa_nodes dfa ++ [mkDFANode (vlen (dfa_actions dfa)) 0 (vlen acts) 0 0]) (dfa_actions dfa ++ acts) (transitionRanges dfa)
             (transitionDestinations dfa) (dfa_root dfa)).
Proof.
  intros [HT Hfl Ha Ht Hd]. split; cbn.
  - done.
  - intros i n [Hn|[_ ->]]%vec_at_snoc_inv; [by eapply Hfl|done].
  - intros i n [Hn|[_ ->]]%vec_at_snoc_inv; [destruct (Ha i n Hn); rewrite length_app; lia|cbn; rewrite length_app; lia].
  - intros i n [Hn|[_ ->]]%vec_at_snoc_inv; [by eapply Ht|cbn; lia].
  - intros i j n n' Hi Hj Hij. apply vec_at_snoc_inv in Hi as [Hi|[-> ->]], Hj as [Hj|[-> ->]]; [by eapply Hd| | |done].
    + destruct (Ha i n Hi) as (? & ? & ?). split; intros k Hk; cbn; lia.
    + destruct (Ha j n' Hj) as (? & ? & ?). split; intros k Hk; cbn in *; lia.
Qed.

Lemma owned_append_transition T dfa r t : owned T dfa -> owned T (append_transition dfa r t).
Proof. intros [HT Hfl Ha Ht Hd]. split; cbn; try done. rewrite length_app. lia. Qed.

(** The transitions of a node are the last ones. *)
Lemma owned_setTransitions T dfa index len dfa' :
  owned T dfa -> 0 <= len -> T + len <= vlen (transitionRanges dfa) -> setTransitions dfa index T len = Some dfa' ->
  owned (vlen (transitionRanges dfa')) dfa'.
Proof.
  intros [HT Hfl Ha Ht Hd] Hlen Hend. unfold setTransitions. destruct ((dfa_nodes dfa).[index]) as [n|] eqn:Hn; [|done]. rewrite option_bind_Some.
  destruct (vec_set _ _ _) as [nodes|] eqn:Hset; [|done]. rewrite option_bind_Some. intros [= <-].
  assert (Hu8 : 0 <= u8 len <= len) by (unfold uwrap; split; [by apply Z.mod_pos_bound|apply Z.mod_le; lia]).
  assert (Hat : forall i m, nodes.[i] = Some m -> i = index /\ m = mkDFANode (m_actionsStart n) T (m_actionsLength n) (u8 len) (m_flags n) \/
            i <> index /\ (dfa_nodes dfa).[i] = Some m).
  { intros i m. rewrite (vec_at_set _ _ _ _ _ Hset). case_decide; [intros [= <-]; by left|right; split; [congruence|done]]. }
  split; cbn [dfa_nodes transitionRanges dfa_actions].
  - lia.
  - intros i m [[-> ->]|[_ Hm]]%Hat; [by apply (Hfl _ _ Hn)|by eapply Hfl].
  - intros i m [[-> ->]|[_ Hm]]%Hat; [by apply (Ha _ _ Hn)|by eapply Ha].
  - intros i m [[-> ->]|[_ Hm]]%Hat; [cbn; lia|]. specialize (Ht i m Hm). lia.
  - intros i j m m' Hi Hj Hij. apply Hat in Hi as [[-> ->]|[Hi Hm]], Hj as [[-> ->]|[Hj Hm']]; cbn.
    + done.
    + split; [|by apply (Hd _ _ _ _ Hn Hm' Hij)]. specialize (Ht j m' Hm'). intros k Hk. lia.
    + split; [|by apply (Hd _ _ _ _ Hm Hn Hij)]. specialize (Ht i m Hm). intros k Hk. lia.
    + by apply (Hd i j).
Qed.

(** Such a DFA can be minimized. *)
Lemma owned_minimizable T dfa : wf_dfa dfa -> owned T dfa -> 128 * vlen (dfa_nodes dfa) < 2 ^ 31 -> minimizable dfa.
Proof.
  intros Hw [HT Hfl Hact Htr Hd] Hn. split.
  - done.
  - intros i n Hi. unfold isKilled. by rewrite (Hfl i n Hi).
  - intros i n Hi. by destruct (Hact i n Hi) as (_ & ? & _).
  - intros i j n n' Hi Hj Hij. by apply (Hd i j).
  - intros i j n n' Hi Hj Hij. by apply (Hd i j).
  - done.
Qed.

(** ** The conversion of an NFA *)

Section Owned.
Context {NS AS : Type} `{HashSet NS} `{HashSet AS} (nfa : NFA).

Lemma translate_owned dfa (d : NS) dfa' u T :
  translate (AS := AS) nfa dfa d = Some (dfa', u) -> larger dfa dfa' /\ (sizes_fit dfa' -> owned T dfa -> owned T dfa').
Proof.
  unfold translate. destruct (collect_actions nfa hs_empty (hs_iter d)) as [acts|]; [|done]. rewrite option_bind_Some.
  case_bool; [|done]. intros [= <- _]. cbn. split; [split; cbn; [done|rewrite length_app; lia]|].
  intros [_ Hf] Ho. cbn in *. rewrite length_app in *. rewrite (u32_small (vlen (dfa_actions dfa))) in * by lia.
  rewrite (u32_small (Z.of_nat (length (dfa_actions dfa) + _))) in * by lia.
  rewrite (u32_small (_ - _)) in * by lia. rewrite uwrap_small by lia.
  replace (Z.of_nat (length (dfa_actions dfa) + length (hs_iter acts)) - vlen (dfa_actions dfa)) with (vlen (hs_iter acts)) by lia.
  by apply owned_add_node.
Qed.

Lemma getOrCreate_owned s (d : NS) s' t T :
  getOrCreateDFANode (AS := AS) nfa s d = Some (s', t) ->
  larger (cv_dfa s) (cv_dfa s') /\ (sizes_fit (cv_dfa s') -> owned T (cv_dfa s) -> owned T (cv_dfa s')).
Proof.
  unfold getOrCreateDFANode. destruct (List.find _ _); [intros [= <- _]; split; [split; lia|done]|].
  destruct (translate nfa (cv_dfa s) d) as [[dfa' u']|] eqn:E; [|done]. rewrite option_bind_Some. intros [= <- _]. by eapply translate_owned.
Qed.

Lemma ranges_loop_owned T es : forall s s',
  ranges_loop (NS := NS) (AS := AS) nfa s es = Some s' ->
  larger (cv_dfa s) (cv_dfa s') /\ (sizes_fit (cv_dfa s') -> owned T (cv_dfa s) -> owned T (cv_dfa s')).
Proof.
  induction es as [|[r d] es IH]; intros s s' Hs; cbn [ranges_loop] in Hs; [injection Hs as <-; split; [split; lia|done]|].
  destruct (getOrCreateDFANode nfa s d) as [[s1 t]|] eqn:E; [|done]. rewrite option_bind_Some in Hs.
  destruct (getOrCreate_owned s d s1 t T E) as [[Hl1 Hl1'] Ho1]. destruct (IH _ _ Hs) as [[Hl2 Hl2'] Ho2]. cbn in *. rewrite length_app in *. cbn in *.
  split; [split; lia|]. intros Hf Ho. apply Ho2; [done|]. apply owned_append_transition, Ho1; [unfold sizes_fit in *; lia|done].
Qed.

Lemma process_set_owned closures s s' :
  process_set (NS := NS) (AS := AS) nfa closures s = Some s' ->
  larger (cv_dfa s) (cv_dfa s') /\
  (sizes_fit (cv_dfa s') -> owned (vlen (transitionRanges (cv_dfa s))) (cv_dfa s) -> owned (vlen (transitionRanges (cv_dfa s'))) (cv_dfa s')).
Proof.
  unfold process_set. destruct (unprocessedSets s) as [|u un]; [done|]. destruct (createCombinedTransition _ _ _) as [rl|]; [|done].
  rewrite option_bind_Some. destruct (range_list rl) as [es|]; [|done]. rewrite option_bind_Some.
  destruct (ranges_loop _ _ es) as [s1|] eqn:E; [|done]. rewrite option_bind_Some.
  destruct (ranges_loop_owned (vlen (transitionRanges (cv_dfa s))) es _ s1 E) as [[Hl1 Hl2] Ho1]. cbn in Hl1, Hl2, Ho1.
  destruct (setTransitions _ _ _ _) as [dfa'|] eqn:Hset; [|done]. rewrite option_bind_Some. intros [= <-]. cbn.
  assert (Hsame : transitionRanges dfa' = transitionRanges (cv_dfa s1) /\ dfa_actions dfa' = dfa_actions (cv_dfa s1)).
  { unfold setTransitions in Hset. destruct ((dfa_nodes (cv_dfa s1)).[m_dfaNodeId u]); [|done]. rewrite option_bind_Some in Hset.
    destruct (vec_set _ _ _); [|done]. rewrite option_bind_Some in Hset. by injection Hset as <-. }
  destruct Hsame as [E1 E2]. split; [unfold larger; by rewrite E1, E2|]. intros [Hf1 Hf2] Ho. rewrite E1 in Hf1. rewrite E2 in Hf2.
  set (T := vlen (transitionRanges (cv_dfa s))) in *. set (T' := vlen (transitionRanges (cv_dfa s1))) in *.
  rewrite (u32_small T), (u32_small T') in Hset by lia. rewrite (u32_small (T' - T)) in Hset by lia.
  eapply owned_setTransitions; [by apply Ho1| | |exact Hset]; lia.
Qed.

(** Every result of the conversion. *)
Lemma convert_loop_grows closures s dfa :
  convert_loop (NS := NS) (AS := AS) nfa closures s = Some dfa -> larger (cv_dfa s) dfa /\
  (sizes_fit dfa -> owned (vlen (transitionRanges (cv_dfa s))) (cv_dfa s) -> owned (vlen (transitionRanges dfa)) dfa).
Proof.
  unfold convert_loop. intros Hc.
  set (L := fun d d' => larger d d' /\ (sizes_fit d' -> owned (vlen (transitionRanges d)) d -> owned (vlen (transitionRanges d')) d')).
  assert (Htrans : forall d1 d2 d3, L d1 d2 -> L d2 d3 -> L d1 d3).
  { intros d1 d2 d3 [[Hl1 Hl1'] Ho1] [[Hl2 Hl2'] Ho2]. split; [split; lia|]. intros Hf Hown. apply Ho2; [done|]. apply Ho1; [|done].
    unfold sizes_fit in *. lia. }
  assert (Hgen : forall k s, match repeat_pow2 (convert_step (NS := NS) (AS := AS) nfa closures) k s with
                             | inl s' => L (cv_dfa s) (cv_dfa s') | inr r => forall d, r = Some d -> L (cv_dfa s) d end).
  { induction k as [|k IH]; intros s0; cbn [repeat_pow2].
    - unfold convert_step. destruct (process_set nfa closures s0) as [s1|] eqn:E; [|intros d; done].
      apply process_set_owned in E. destruct (unprocessedSets s1); [|exact E]. intros d [= <-]. exact E.
    - pose proof (IH s0) as IH0. destruct (repeat_pow2 _ k s0) as [s1|r]; [|done].
      specialize (IH s1). destruct (repeat_pow2 _ k s1) as [s2|r]; [by eapply Htrans|]. intros d Hd. eapply Htrans; [done|by apply IH]. }
  specialize (Hgen 32%nat s). destruct (repeat_pow2 _ 32 s) as [s'|r]; [done|]. subst r. by apply (Hgen dfa).
Qed.
End Owned.

Lemma convertNFA_owned {NS AS : Type} `{HashSet NS} `{HashSet AS} nfa dfa nfa' :
  convertNFA (NS := NS) (AS := AS) nfa = Some (dfa, nfa') -> sizes_fit dfa -> owned (vlen (transitionRanges dfa)) dfa.
Proof.
  unfold convertNFA. destruct (resolveEpsilonClosures nfa) as [[nfa1 closures]|]; [|done]. rewrite option_bind_Some.
  destruct (nfa_root nfa1) as [root|]; [|done]. rewrite option_bind_Some.
  destruct (extendSetWithClosure _ _ _) as [d|]; [|done]. rewrite option_bind_Some.
  destruct (translate nfa1 (mkDFA [] [] [] [] 0) d) as [[dfa1 u]|] eqn:E; [|done]. rewrite option_bind_Some.
  destruct (convert_loop _ _ _) as [dfa2|] eqn:Hc; [|done]. rewrite option_bind_Some. intros [= <- <-] Hf.
  destruct (convert_loop_grows nfa1 closures _ dfa2 Hc) as [Hl Ho]. cbn in Hl, Ho. apply Ho; [done|].
  destruct (translate_owned nfa1 _ d dfa1 u 0 E) as [Hl0 Ho0]. destruct Ho0 as [HT Hfl Ha Ht Hd].
  - by eapply larger_fits.
  - split; cbn; [lia|..]; intros i; intros; match goal with H : [].[_] = Some _ |- _ => apply vec_at_lt in H; cbn in H; lia end.
  - split; [lia|done|done| |done]. intros i n Hn. specialize (Ht i n Hn). lia.
Qed.

(** ** Converted DFAs can be minimized *)

Lemma convertNFA_minimizable (NS AS : Type) `{HashSetLaws NS} `{HashSetLaws AS} (nfa : NFA) (U : list Z) (K : Z) dfa nfa' :
  convertible NS AS nfa U K -> Forall (fun a => 0 <= a < 2 ^ 49) U -> 128 * K < 2 ^ 31 ->
  convertNFA (NS := NS) (AS := AS) nfa = Some (dfa, nfa') -> minimizable dfa /\ same_language nfa dfa.
Proof.
  intros Hc Hb HK He. destruct (convertNFA_full NS AS nfa U K Hc) as (dfa0 & He' & Hl & Hwf & Hr & Ha & _).
  rewrite He in He'. injection He' as <- ->. destruct (Hwf Hb) as [Hw Hn]. split; [|done].
  assert (Hfit : sizes_fit dfa) by (pose proof (cn_actions _ _ _ _ _ Hc); unfold sizes_fit; lia).
  apply (owned_minimizable (vlen (transitionRanges dfa))); [done|exact (convertNFA_owned nfa dfa _ He Hfit)|lia].
Qed.

(** ** Checking the hypotheses on a concrete DFA *)

Section Checker.
Variable dfa : DFA.

Definition disjointb (start len start' len' : Z) : bool :=
  (start + len <=? start') || (start' + len' <=? start) || (len <=? 0) || (len' <=? 0).

Definition in_nodesb (t : Z) : bool := (0 <=? t) && (t <? vlen (dfa_nodes dfa)).

Definition minimizable_nodeb (n : DFANode) : bool :=
  negb (isKilled n) && (0 <=? m_actionsLength n) &&
  match node_actions dfa n, node_transitions dfa n with
  | Some acts, Some ts =>
      forallb (fun a => (0 <=? a) && (a <? 2 ^ 49)) acts && sorted_fromb 0 ts && forallb (fun t => in_nodesb (snd t)) ts
  | _, _ => false
  end.

Definition separateb (ij : Z * Z) : bool :=
  match (dfa_nodes dfa).[fst ij], (dfa_nodes dfa).[snd ij] with
  | Some n, Some n' =>
      (fst ij =? snd ij) ||
      disjointb (m_transitionsStart n) (m_transitionsLength n) (m_transitionsStart n') (m_transitionsLength n') &&
      disjointb (m_actionsStart n) (m_actionsLength n) (m_actionsStart n') (m_actionsLength n')
  | _, _ => false
  end.

Definition minimizableb : bool :=
  let indices := seqZ 0 (vlen (dfa_nodes dfa)) in
  in_nodesb (dfa_root dfa) && forallb minimizable_nodeb (dfa_nodes dfa)
  && forallb separateb (List.list_prod indices indices) && (128 * vlen (dfa_nodes dfa) <? 2 ^ 31).

Lemma disjointb_sound start len start' len' : disjointb start len start' len' = true -> disjoint start len start' len'.
Proof. unfold disjointb, disjoint. rewrite !orb_true_iff, !Z.leb_le. lia. Qed.

Lemma in_nodesb_spec t : in_nodesb t = true -> 0 <= t < vlen (dfa_nodes dfa).
Proof. unfold in_nodesb. intros Ht. bprop. lia. Qed.

Lemma minimizableb_sound : minimizableb = true -> minimizable dfa.
Proof.
  unfold minimizableb. intros Hm. bprop. rename H0 into Hsmall, H1 into Hsep, H into Hroot, H2 into Hnodes. rewrite forallb_forall in Hnodes, Hsep.
  assert (Hn : forall i n, (dfa_nodes dfa).[i] = Some n -> minimizable_nodeb n = true).
  { intros i n Hi%vec_at_elem. by apply Hnodes, list_elem_of_In. }
  assert (Hlive : forall i n, (dfa_nodes dfa).[i] = Some n -> isKilled n = false).
  { intros i n Hi. specialize (Hn i n Hi). unfold minimizable_nodeb in Hn. by bprop. }
  assert (Htarget : forall t, in_nodesb t = true -> live_target dfa t).
  { intros t Ht%in_nodesb_spec. destruct (vec_at_is_Some _ _ Ht) as [n Hi]. exists n. split; [done|by eapply Hlive]. }
  assert (Hpair : forall i j n n', (dfa_nodes dfa).[i] = Some n -> (dfa_nodes dfa).[j] = Some n' -> i <> j ->
    disjoint (m_transitionsStart n) (m_transitionsLength n) (m_transitionsStart n') (m_transitionsLength n') /\
    disjoint (m_actionsStart n) (m_actionsLength n) (m_actionsStart n') (m_actionsLength n')).
  { intros i j n n' Hi Hj Hij. pose proof (vec_at_lt _ _ _ Hi). pose proof (vec_at_lt _ _ _ Hj).
    specialize (Hsep (i, j)). unfold separateb in Hsep. cbn in Hsep. rewrite Hi, Hj, (proj2 (Z.eqb_neq i j) Hij) in Hsep.
    ospecialize (Hsep _); [apply in_prod_iff; split; apply list_elem_of_In, elem_of_seqZ; lia|]. cbn in Hsep. bprop.
    split; by apply disjointb_sound. }
  split.
  - split; [by apply Htarget|]. intros i n Hi _. specialize (Hn i n Hi). unfold minimizable_nodeb in Hn. bprop.
    destruct (node_actions dfa n) as [acts|] eqn:Ea; [|done]. destruct (node_transitions dfa n) as [ts|] eqn:Et; [|done]. bprop.
    split; [exists acts|exists ts]; split_and!; try done.
    + apply Forall_forall. intros a Ha%list_elem_of_In. rewrite forallb_forall in *.
      match goal with H : forall x, _ -> (0 <=? x) && _ = true |- _ => specialize (H a Ha) end. bprop. lia.
    + by apply sorted_fromb_sound.
    + apply Forall_forall. intros t Ht%list_elem_of_In. apply Htarget.
      match goal with H : forallb (fun t => in_nodesb _) _ = true |- _ => rewrite forallb_forall in H; by apply H end.
  - done.
  - intros i n Hi. specialize (Hn i n Hi). unfold minimizable_nodeb in Hn. by bprop.
  - intros i j n n' Hi Hj Hij. by apply (Hpair i j).
  - intros i j n n' Hi Hj Hij. by apply (Hpair i j).
  - done.
Qed.
End Checker.

(** ** The theorems *)

(** C36: on every DFA whose nodes own their slices and of which none is killed,
    [minimize] returns, whatever the order of the hash map of final states; the
    result is well formed and has, after every text, the actions the original
    DFA has. *)
Theorem minimize_correct dfa order :
  minimizable dfa -> (forall l, order l ≡ₚ l) ->
  exists dfa', minimize order dfa = Some dfa' /\ wf_dfa dfa' /\
    forall w, dfa_output dfa' (dfa_root dfa') w = dfa_output dfa (dfa_root dfa) w.
Proof.
  intros Hmz Ho. destruct (minimize_reduced dfa order Hmz Ho) as (rep & dfa' & Hm & Hreps & Hred). exists dfa'. split; [done|].
  split; [by apply (reduced_wf dfa rep)|]. intros w. by apply (reduced_language dfa rep).
Qed.

(** C37: the result is minimal: two nodes that were not killed and that no text
    tells apart are the same node. *)
Theorem minimize_minimal dfa order dfa' x y :
  minimizable dfa -> (forall l, order l ≡ₚ l) -> minimize order dfa = Some dfa' ->
  live_target dfa' x -> live_target dfa' y -> (forall w, dfa_output dfa' x w = dfa_output dfa' y w) -> x = y.
Proof.
  intros Hmz Ho Hm. destruct (minimize_reduced dfa order Hmz Ho) as (rep & dfa2 & Hm2 & Hreps & Hred). rewrite Hm in Hm2. injection Hm2 as <-.
  by apply (reduced_minimal dfa rep).
Qed.

(** Converting an NFA and minimizing the result: both steps return, and the
    minimized DFA has after every text exactly the actions of the NFA nodes the
    text leads to, through characters and epsilon transitions, from the root. *)
Theorem convert_minimize_correct (NS AS : Type) `{HashSetLaws NS} `{HashSetLaws AS} (nfa : NFA) (U : list Z) (K : Z) order :
  convertible NS AS nfa U K -> Forall (fun a => 0 <= a < 2 ^ 49) U -> 128 * K < 2 ^ 31 -> (forall l, order l ≡ₚ l) ->
  exists dfa nfa' dfa', convertNFA (NS := NS) (AS := AS) nfa = Some (dfa, nfa') /\ minimize order dfa = Some dfa' /\ wf_dfa dfa' /\
    same_language nfa dfa'.
Proof.
  intros Hc Hb HK Ho. destruct (convertNFA_full NS AS nfa U K Hc) as (dfa & He & _).
  destruct (convertNFA_minimizable NS AS nfa U K dfa _ Hc Hb HK He) as [Hmz Hl].
  destruct (minimize_reduced dfa order Hmz Ho) as (rep & dfa' & Hm & Hreps & Hred). exists dfa, (without_epsilons nfa), dfa'.
  split; [done|]. split; [done|]. split; [by apply (reduced_wf dfa rep)|]. intros w a.
  by rewrite <- (Hl w a), !accepts_output, (reduced_language dfa rep dfa' Hmz Hreps Hred).
Qed.

(** The partition keeps its well-formedness.  Marking any elements of a
    partition without marks and refining it returns; the result is again well
    formed and without marks (elements and positions are inverse vectors, the
    sets are the contiguous pieces the element map names, at most one per
    element), and two elements share a set exactly when they did before and
    both or none were marked. *)
Theorem partition_split n p l :
  quiet n p -> n < 2 ^ 31 -> NoDup l -> (forall x, x ∈ l -> 0 <= x < n) ->
  exists p1 p2, foldM markElementInCurrentGeneration p l = Some p1 /\
    refineGeneration (fun _ (u : unit) _ => Some u) p1 tt = Some (p2, tt) /\ quiet n p2 /\ vlen (m_sets p2) <= n /\
    forall x y, 0 <= x < n -> 0 <= y < n ->
      (setIndexOf p2 x = setIndexOf p2 y <-> setIndexOf p x = setIndexOf p y /\ (x ∈ l <-> y ∈ l)).
Proof.
  intros [Hwf Hms Hlist] Hn Hnd Hl. pose proof (unmarked n p Hwf Hms) as Hno.
  destruct (mark_all_spec n p l Hwf Hn) as (p1 & Hp1 & Hwf1 & Hms1 & Hmap1 & _ & Hmk1); [by rewrite Hlist|done|auto|].
  destruct (refineGeneration_spec (fun _ (u : unit) _ => Some u) (fun _ _ => True) n Hn) with (p := p1) (st := tt)
    as (p2 & [] & Hp2 & Hq2 & Hrf & _); try done; [intros p0 s p' o st _ _ _; destruct o; [by exists st|done]|].
  exists p1, p2. split; [done|]. split; [done|]. split; [done|]. split; [apply sets_bound, Hq2|]. intros x y Hx Hy. unfold setIndexOf.
  rewrite (rf_same _ _ _ _ Hrf x y Hx Hy). unfold alike. rewrite Hmap1, (Hmk1 x Hx), (Hmk1 y Hy).
  pose proof (Hno x). pose proof (Hno y). tauto.
Qed.

(** C38: the main loop uses every set of transitions.  From the partitions of a
    DFA it returns within one turn per transition of the table; then no set of
    transitions is left, and nodes of one set move, on every character, into
    one set, or both do not move. *)
Theorem splitByUniqueTransitions_exhausts dfa g :
  minimizable dfa -> createFullGraphPartition dfa = Some g ->
  exists g', splitByUniqueTransitions g = Some g' /\
    m_nextTransitionSetToProcess g' = vlen (m_sets (m_transitionPartition g')) /\
    forall x y, 0 <= x < vlen (dfa_nodes dfa) -> 0 <= y < vlen (dfa_nodes dfa) ->
      setIndexOf (m_nodePartition g') x = setIndexOf (m_nodePartition g') y -> forall c,
      match dfa_step dfa x c, dfa_step dfa y c with
      | Some x', Some y' => setIndexOf (m_nodePartition g') x' = setIndexOf (m_nodePartition g') y'
      | None, None => True
      | _, _ => False
      end.
Proof.
  intros Hmz Hg. destruct (transitions_of dfa Hmz) as (tss & Hnodes & Hsorted & Htargets). pose proof (Forall2_length _ _ _ Hnodes) as Hlen.
  destruct (createFullGraphPartition_spec dfa tss Hnodes Hsorted Htargets) as (G & on & g0 & Hg0 & HG & Hcons); [rewrite <- Hlen; apply (mz_small _ Hmz)|].
  rewrite Hg in Hg0. injection Hg0 as <-. pose proof (nodes_range dfa tss Hnodes G on HG) as Hrange.
  assert (Hn : 0 < nodes_count).
  { destruct (wf_root _ (mz_wf _ Hmz)) as (n & Hn & _). apply vec_at_lt, Hrange in Hn. lia. }
  destruct (constructed_settled dfa G g Hcons Hn) as [Hst Hused].
  destruct (split_loop_spec (equivalent dfa) (nodes_small dfa Hmz tss G on Hnodes HG) (proj2 (go_transitions _ _ _ HG)))
    with (fuel := length (m_flattenedTransitions g)) (g := g) as (g' & Hg' & Hst' & Hstable & Hlast & _); try done.
  - intros x y t Hx Hy HR Ht Hsrc. by apply (equivalent_transition dfa Hmz tss Hnodes Htargets G on HG x y t).
  - intros x y HR w. symmetry. apply HR.
  - rewrite (cs_next _ _ Hcons). lia.
  - rewrite (cs_next _ _ Hcons), (rp_length g (st_represents _ _ Hst)). lia.
  - exists g'. split; [done|]. split; [done|]. intros x y Hx%Hrange Hy%Hrange E c. unfold setIndexOf in *.
    pose proof (fun x y => stable_step dfa tss Hnodes G on HG g' x y c) as Hstep. destruct (dfa_step dfa x c) as [x'|] eqn:Ex.
    + destruct (Hstep x y x' (st_represents _ _ Hst') Hstable Hx Hy E Ex) as (y' & -> & _ & _ & ?). done.
    + destruct (dfa_step dfa y c) as [y'|] eqn:Ey; [|done].
      destruct (Hstep y x y' (st_represents _ _ Hst') Hstable Hy Hx (eq_sym E) Ey) as (x' & ? & _). congruence.
Qed.

(** ** A sample *)

Module MinimizeExample.
Import InsertionOrder.

(** The root moves on "a" and on "b" to "z" to two nodes that both accept after
    an "x". *)
Definition sample : DFA :=
  mkDFA [mkDFANode 0 0 0 2 0; mkDFANode 0 2 0 1 0; mkDFANode 0 3 0 1 0; mkDFANode 0 4 1 0 0; mkDFANode 1 4 1 0 0] [5; 5]
    [mkCharRange 97 97; mkCharRange 98 122; mkCharRange 120 120; mkCharRange 120 120] [1; 2; 3; 4] 0.

Definition sample_minimized : DFA :=
  mkDFA [mkDFANode 0 0 0 2 0; mkDFANode 0 2 0 1 0; mkDFANode 0 0 0 0 1; mkDFANode 0 4 1 0 0; mkDFANode 0 0 0 0 1] [5; 2 ^ 64 - 1]
    [mkCharRange 97 97; mkCharRange 98 122; mkCharRange 120 120; mkCharRange (-1) (-1)] [1; 1; 3; uint32_max] 0.

Lemma sample_minimizable : minimizable sample.
Proof. apply minimizableb_sound. by vm_compute. Qed.

Lemma minimize_correct_witness :
  exists dfa', minimize id sample = Some dfa' /\ wf_dfa dfa' /\
    forall w, dfa_output dfa' (dfa_root dfa') w = dfa_output sample (dfa_root sample) w.
Proof. apply (minimize_correct sample id sample_minimizable). intros l. reflexivity. Defined.

Lemma minimize_minimal_witness :
  minimize id sample = Some sample_minimized /\ live_target sample_minimized 1 /\ 1 = 1.
Proof.
  assert (Hl : live_target sample_minimized 1) by (exists (mkDFANode 0 2 0 1 0); split; reflexivity).
  assert (E : minimize id sample = Some sample_minimized) by (vm_compute; reflexivity). split; [exact E|]. split; [exact Hl|].
  apply (minimize_minimal sample id sample_minimized 1 1 sample_minimizable); [intros l; reflexivity|exact E|exact Hl|exact Hl|intros w; reflexivity].
Defined.

Lemma convert_minimize_correct_witness :
  exists dfa nfa' dfa', convertNFA (NS := OrderedSet) (AS := OrderedSet) ConvertExample.sample_nfa = Some (dfa, nfa') /\
    minimize (@rev _) dfa = Some dfa' /\ wf_dfa dfa' /\ same_language ConvertExample.sample_nfa dfa'.
Proof.
  apply (convert_minimize_correct OrderedSet OrderedSet ConvertExample.sample_nfa [7] 16 (@rev _) ConvertExample.sample_convertible).
  - apply List.Forall_cons; [lia|apply List.Forall_nil].
  - lia.
  - intros l. symmetry. apply Permutation_rev.
Defined.

Lemma partition_split_witness :
  exists p1 p2, foldM markElementInCurrentGeneration (initialize 5) [3; 1] = Some p1 /\
    refineGeneration (fun _ (u : unit) _ => Some u) p1 tt = Some (p2, tt) /\ quiet 5 p2 /\ vlen (m_sets p2) <= 5 /\
    forall x y, 0 <= x < 5 -> 0 <= y < 5 ->
      (setIndexOf p2 x = setIndexOf p2 y <-> setIndexOf (initialize 5) x = setIndexOf (initialize 5) y /\ (x ∈ [3; 1] <-> y ∈ [3; 1])).
Proof.
  apply (partition_split 5 (initialize 5) [3; 1]).
  - destruct (initialize_wf 5) as (Hwf & Hms & _); [lia|]. by split.
  - lia.
  - apply (bool_decide_eq_true_1 _). by vm_compute.
  - intros x Hx. apply elem_of_cons in Hx as [->|Hx]; [lia|]. apply list_elem_of_singleton in Hx as ->. lia.
Defined.

Lemma splitByUniqueTransitions_exhausts_witness :
  exists g g', createFullGraphPartition sample = Some g /\ splitByUniqueTransitions g = Some g' /\
    m_nextTransitionSetToProcess g' = vlen (m_sets (m_transitionPartition g')).
Proof.
  destruct (createFullGraphPartition sample) as [g|] eqn:E; [|vm_compute in E; discriminate].
  destruct (splitByUniqueTransitions_exhausts sample g sample_minimizable E) as (g' & H1 & H2 & _).
  exists g, g'. exact (conj eq_refl (conj H1 H2)).
Defined.
End MinimizeExample.
