(* ===== verification/Combiner.v ===== *)
(** * Combining DFAs (DFACombiner.h, DFACombiner.cpp)

    Small DFAs are merged two at a time into the DFA of the pairs of their
    nodes, until they are large enough to be worth a bytecode of their own.  A
    pair of node indices is packed into a 64-bit signature; a half with all bits
    set stands for a DFA that cannot move any more. *)

From stdpp Require Import gmap.
From S2P Require Import Prelude DFA RangeList HashSet NFAToDFA Minimizer.

(** ** Signatures *)

Definition invalidNodeIndex : Z := 4294967295.

Definition signatureForIndices (aIndex bIndex : Z) : Z := Z.lor (u64 (Z.shiftl aIndex 32)) bIndex.
Definition extractIndexA (signature : Z) : Z := u32 (Z.shiftr signature 32).
Definition extractIndexB (signature : Z) : Z := u32 signature.

Inductive WhichDFA := A | B.

Definition setHalfSignature (whichDFA : WhichDFA) (signature value : Z) : Z :=
  let shiftAmount := match whichDFA with A => 32 | B => 0 end in
  let mask := u64 (Z.shiftl 4294967295 (32 - shiftAmount)) in
  Z.lor (Z.land signature mask) (u64 (Z.shiftl value shiftAmount)).

Definition TargetConverter (whichDFA : WhichDFA) : DataConverter Z Z := {|
  convert target := setHalfSignature whichDFA 18446744073709551615 target;
  extend_data destination target := setHalfSignature whichDFA destination target
|}.

(** ** Merging two DFAs *)

(** [DFAMerger]: the output, the node of every signature and the stack of nodes without transitions. *)
Record DFAMerger := mkMerger {
  m_output : DFA;
  m_nodeMapping : gmap Z Z;
  m_unprocessedNodes : list Z
}.

Section Merger.
Context {AS : Type} `{HashSet AS}.
Variables (m_dfaA m_dfaB : DFA).

Definition newMerger : DFAMerger := mkMerger (mkDFA [] [] [] [] 0) ∅ [].

(** The loop over the actions of a node of one of the DFAs. *)
Definition add_node_actions (dfa : DFA) (actions : AS) (index : Z) : option AS :=
  if negb (index =? invalidNodeIndex) then
    node ← (dfa_nodes dfa).[index];
    let actionsStart := m_actionsStart node in
    let actionsEnd := u32 (actionsStart + m_actionsLength node) in
    acts ← mapM (fun i => (dfa_actions dfa).[i]) (seqZ actionsStart (actionsEnd - actionsStart));
    Some (hs_add_all actions acts)
  else Some actions.

(** [DFANode::setActions] on the last node. *)
Definition setLastActions (nodes : list DFANode) (start length_ : Z) : option (list DFANode) :=
  n ← nodes.[vlen nodes - 1];
  vec_set nodes (vlen nodes - 1) (mkDFANode start (m_transitionsStart n) (u16 length_) (m_transitionsLength n) (m_flags n)).

Definition getOrCreateCombinedNode (m : DFAMerger) (newNodeSignature : Z) : option (DFAMerger * Z) :=
  match m_nodeMapping m !! newNodeSignature with
  | Some index => Some (m, index)
  | None =>
      let nodes := dfa_nodes (m_output m) ++ [emptyDFANode] in
      let newNodeIndex := u32 (vlen nodes - 1) in
      actions ← add_node_actions m_dfaA hs_empty (extractIndexA newNodeSignature);
      actions ← add_node_actions m_dfaB actions (extractIndexB newNodeSignature);
      let actionsStart := u32 (vlen (dfa_actions (m_output m))) in
      let outputActions := dfa_actions (m_output m) ++ hs_iter actions in
      let actionsEnd := u32 (vlen outputActions) in
      nodes ← setLastActions nodes actionsStart (u32 (actionsEnd - actionsStart));
      Some (mkMerger (mkDFA nodes outputActions (transitionRanges (m_output m)) (transitionDestinations (m_output m)) (dfa_root (m_output m)))
              (<[newNodeSignature := newNodeIndex]> (m_nodeMapping m)) (newNodeSignature :: m_unprocessedNodes m), newNodeIndex)
  end.

(** The transitions of one of the nodes join the combined ones. *)
Definition extend_transitions (whichDFA : WhichDFA) (dfa : DFA) (combinedTransitions : list (MutableRange Z)) (index : Z)
    : option (list (MutableRange Z)) :=
  if negb (index =? invalidNodeIndex) then
    node ← (dfa_nodes dfa).[index];
    transitions ← node_transitions dfa node;
    extend (H := TargetConverter whichDFA) combinedTransitions transitions
  else Some combinedTransitions.

(** The loop over the combined transitions. *)
Fixpoint append_transitions (m : DFAMerger) (ranges : list (CharRange * Z)) : option DFAMerger :=
  match ranges with
  | [] => Some m
  | (r, data) :: ranges =>
      '(m, targetNodeId) ← getOrCreateCombinedNode m data;
      append_transitions (mkMerger (append_transition (m_output m) r targetNodeId) (m_nodeMapping m) (m_unprocessedNodes m)) ranges
  end.

(** One turn of the loop of [merge]. *)
Definition merge_step (m : DFAMerger) (unprocessedNode : Z) (unprocessedNodes : list Z) : option DFAMerger :=
  combinedTransitions ← extend_transitions A m_dfaA [] (extractIndexA unprocessedNode);
  combinedTransitions ← extend_transitions B m_dfaB combinedTransitions (extractIndexB unprocessedNode);
  ranges ← range_list combinedTransitions;
  let transitionsStart := u32 (vlen (transitionRanges (m_output m))) in
  m ← append_transitions (mkMerger (m_output m) (m_nodeMapping m) unprocessedNodes) ranges;
  let transitionsEnd := u32 (vlen (transitionRanges (m_output m))) in
  let transitionsLength := u32 (transitionsEnd - transitionsStart) in
  let sourceNodeId := default 0 (m_nodeMapping m !! unprocessedNode) in
  output ← setTransitions (m_output m) sourceNodeId transitionsStart transitionsLength;
  Some (mkMerger output (m_nodeMapping m) (m_unprocessedNodes m)).

Fixpoint merge_loop (fuel : nat) (m : DFAMerger) : option DFAMerger :=
  match m_unprocessedNodes m with
  | [] => Some m
  | unprocessedNode :: unprocessedNodes =>
      match fuel with
      | O => None
      | S fuel => m ← merge_step m unprocessedNode unprocessedNodes; merge_loop fuel m
      end
  end.

(** Every turn gives transitions to a node, and there is a node for every pair at most. *)
Definition merge (m : DFAMerger) : option DFA :=
  if negb (bool_decide (m_nodeMapping m = ∅)) then Some (m_output m) else
  '(m, _) ← getOrCreateCombinedNode m (signatureForIndices (dfa_root m_dfaA) (dfa_root m_dfaB));
  m ← merge_loop ((length (dfa_nodes m_dfaA) + 1) * (length (dfa_nodes m_dfaB) + 1)) m;
  Some (m_output m).
End Merger.

(** ** The combiner *)

Section DFACombiner.
Context {AS : Type} `{HashSet AS}.
(** The order in which the minimizer's hash map is iterated. *)
Variable iteration_order : list (list Z * list Z) -> list (list Z * list Z).

Definition addDFA (m_dfas : list DFA) (dfa : DFA) : option (list DFA) :=
  dfa ← minimize iteration_order dfa;
  Some (m_dfas ++ [dfa]).

(** The first loop, from the last DFA to the first: what it leaves, and the calls of the handler. *)
Definition deliver_large (minimumSize : Z) (m_dfas : list DFA) : list DFA * list DFA :=
  foldr (fun dfa s => if minimumSize <? graphSize dfa then (fst s, snd s ++ [dfa]) else (dfa :: fst s, snd s)) ([], []) m_dfas.

(** The second loop; the stack of DFAs has its last one on top. *)
Fixpoint combine_pairs (fuel : nat) (minimumSize : Z) (m_dfas : list DFA) : option (list DFA) :=
  match fuel, m_dfas with
  | _, [] => Some []
  | _, [dfa] => Some [dfa]
  | O, _ => None
  | S fuel, a :: b :: m_dfas =>
      c ← merge (AS := AS) a b newMerger;
      c ← (if (minimumSize <? graphSize c) || bool_decide (m_dfas = []) then minimize iteration_order c else Some c);
      if minimumSize <? graphSize c then
        delivered ← combine_pairs fuel minimumSize m_dfas;
        Some (c :: delivered)
      else combine_pairs fuel minimumSize (c :: m_dfas)
  end.

(** The DFAs the handler is called with, in order. *)
Definition combineDFAs (minimumSize : Z) (m_dfas : list DFA) : option (list DFA) :=
  let '(m_dfas, delivered) := deliver_large minimumSize m_dfas in
  combined ← combine_pairs (length m_dfas) minimumSize (rev m_dfas);
  Some (delivered ++ combined).
End DFACombiner.
