(* ===== verification/MergeCorrect.v ===== *)
(** * Merging two DFAs

    The invariant of [DFAMerger::merge]: the output has one node for every pair
    reached so far, with the actions of both nodes of the pair, and a node that
    was processed moves to the nodes of the pairs its characters lead to. *)

From stdpp Require Import gmap relations.
From S2P Require Import Prelude DFA RangeList RangeListCorrect HashSet NFAToDFA Minimizer Combiner NFA NFACorrect SubsetCorrect ConvertCorrect SingularRanges SplitNodes MinimizeClaims.

(** * Signatures and the ranges of a pair of nodes

    A signature packs two optional nodes; merging the transitions of both gives
    every character the signature of the two nodes it leads to. *)

(** ** Halves *)

Definition is_half (x : Z) : Prop := 0 <= x < 2 ^ 32.

(** The number with these halves. *)
Definition word64 (a b : Z) : Z := a * 2 ^ 32 + b.

Lemma word64_div a b : is_half b -> word64 a b / 2 ^ 32 = a.
Proof. unfold word64, is_half. intros Hb. symmetry. apply (Z.div_unique _ _ _ b); lia. Qed.

Lemma word64_mod a b : is_half b -> word64 a b mod 2 ^ 32 = b.
Proof. unfold word64, is_half. intros Hb. symmetry. apply (Z.mod_unique _ _ a); lia. Qed.

Lemma word64_inj a b a' b' : is_half b -> is_half b' -> word64 a b = word64 a' b' -> a = a' /\ b = b'.
Proof.
  intros Hb Hb' E. split; [rewrite <- (word64_div a b), <- (word64_div a' b') by done|rewrite <- (word64_mod a b), <- (word64_mod a' b') by done]; by rewrite E.
Qed.

Lemma testbit_word64 a b i : is_half b -> 0 <= i -> Z.testbit (word64 a b) i = if i <? 32 then Z.testbit b i else Z.testbit a (i - 32).
Proof.
  intros Hb Hi. case_bool.
  - rewrite <- (Z.mod_pow2_bits_low _ 32), word64_mod by (done || lia). done.
  - rewrite <- (word64_div a b) at 2 by done. rewrite Z.div_pow2_bits by lia. f_equal. lia.
Qed.

Lemma half_high b i : is_half b -> 32 <= i -> Z.testbit b i = false.
Proof. intros Hb Hi. rewrite <- (Z.mod_small b (2 ^ 32)) by done. apply Z.mod_pow2_bits_high. lia. Qed.

(** Joining a high and a low half. *)
Lemma word64_lor a b : is_half a -> is_half b -> Z.lor (word64 a 0) b = word64 a b.
Proof.
  intros Ha Hb. apply Z.bits_inj'. intros i Hi. rewrite Z.lor_spec, !testbit_word64 by (done || lia || by split). case_bool.
  - by rewrite Z.bits_0.
  - rewrite (half_high b) by (done || lia). apply orb_false_r.
Qed.

Lemma shiftl_half a : is_half a -> u64 (Z.shiftl a 32) = word64 a 0.
Proof. unfold is_half, word64. intros Ha. rewrite Z.shiftl_mul_pow2, uwrap_small by lia. lia. Qed.

Lemma signature_word a b : is_half a -> is_half b -> signatureForIndices a b = word64 a b.
Proof. intros Ha Hb. unfold signatureForIndices. by rewrite shiftl_half, word64_lor. Qed.

Lemma extractA_word a b : is_half a -> is_half b -> extractIndexA (word64 a b) = a.
Proof. intros Ha Hb. unfold extractIndexA. rewrite Z.shiftr_div_pow2, word64_div by (done || lia). by apply u32_small. Qed.

Lemma extractB_word a b : is_half b -> extractIndexB (word64 a b) = b.
Proof. apply word64_mod. Qed.

(** The mask of a half keeps the other one. *)
Lemma setHalf_A a b t : is_half b -> is_half t -> setHalfSignature A (word64 a b) t = word64 t b.
Proof.
  intros Hb Ht. unfold setHalfSignature. change (32 - 32) with 0. change (u64 (Z.shiftl 4294967295 0)) with (Z.ones 32).
  rewrite Z.land_ones, word64_mod, shiftl_half by (done || lia). rewrite Z.lor_comm. by apply word64_lor.
Qed.

Lemma setHalf_B a b t : is_half a -> is_half b -> is_half t -> setHalfSignature B (word64 a b) t = word64 a t.
Proof.
  intros Ha Hb Ht. unfold setHalfSignature. change (32 - 0) with 32. rewrite shiftl_half by (split; done). rewrite Z.shiftl_0_r.
  rewrite (uwrap_small 64 t) by (unfold is_half in *; lia).
  assert (Z.land (word64 a b) (word64 4294967295 0) = word64 a 0) as ->; [|by apply word64_lor].
  apply Z.bits_inj'. intros i Hi. rewrite Z.land_spec, !testbit_word64 by (done || lia). case_bool.
  - rewrite Z.bits_0. apply andb_false_r.
  - change 4294967295 with (Z.ones 32). destruct (Z.ltb_spec (i - 32) 32).
    + rewrite Z.ones_spec_low by lia. apply andb_true_r.
    + by rewrite (half_high a) by (done || lia).
Qed.

(** ** Signatures of pairs *)

(** A node of each DFA, or none where it cannot move any more. *)
Abbreviation pair_ := (option Z * option Z)%type.

Definition half (o : option Z) : Z := default invalidNodeIndex o.
Definition signature (p : pair_) : Z := word64 (half (fst p)) (half (snd p)).

Definition small_node (o : option Z) : Prop := forall x, o = Some x -> 0 <= x < invalidNodeIndex.

Lemma half_small o : small_node o -> is_half (half o).
Proof. unfold small_node, is_half, half, invalidNodeIndex. destruct o as [x|]; cbn; [|done]. intros Hx. specialize (Hx x eq_refl). lia. Qed.

Lemma half_inj o o' : small_node o -> small_node o' -> half o = half o' -> o = o'.
Proof.
  unfold small_node, half. destruct o as [x|], o' as [y|]; cbn; intros Hx Hy E; try done.
  - by subst.
  - specialize (Hx x eq_refl). lia.
  - specialize (Hy y eq_refl). lia.
Qed.

Definition small_pair (p : pair_) : Prop := small_node (fst p) /\ small_node (snd p).

Lemma signature_inj p q : small_pair p -> small_pair q -> signature p = signature q -> p = q.
Proof.
  intros [Hp1 Hp2] [Hq1 Hq2] E. destruct p as [a b], q as [a' b'].
  apply word64_inj in E as [E1 E2]; [|by apply half_small|by apply half_small].
  f_equal; by apply half_inj.
Qed.

Lemma extractA_signature p : small_pair p -> extractIndexA (signature p) = half (fst p).
Proof. intros [H1 H2]. apply extractA_word; by apply half_small. Qed.

Lemma extractB_signature p : small_pair p -> extractIndexB (signature p) = half (snd p).
Proof. intros [H1 H2]. apply extractB_word. by apply half_small. Qed.

(** The index of a half is invalid exactly when there is no node. *)
Lemma half_valid o : small_node o -> (half o =? invalidNodeIndex) = match o with Some _ => false | None => true end.
Proof. unfold half. destruct o as [x|]; cbn; [|done]. intros Hx. specialize (Hx x eq_refl). apply Z.eqb_neq. lia. Qed.

(** No signature where neither DFA moves. *)
Definition pair_signature (p : pair_) : option Z := match p with (None, None) => None | _ => Some (signature p) end.

(** ** The merged transitions *)

Lemma extend_transitions_spec w dfa v es o :
  wf_ranges v es -> small_node o ->
  (forall x, o = Some x -> exists n ts, (dfa_nodes dfa).[x] = Some n /\ node_transitions dfa n = Some ts /\ sorted_from 0 ts) ->
  exists v' es', extend_transitions w dfa v (half o) = Some v' /\ wf_ranges v' es' /\
    forall c, ts_step es' c = pmerge (H := TargetConverter w) (ts_step es c) (x ← o; dfa_step dfa x c).
Proof.
  intros Hv Ho Hn. unfold extend_transitions. rewrite (half_valid o Ho). destruct o as [x|]; cbn [negb].
  - destruct (Hn x eq_refl) as (n & ts & En & Et & Hs). change (half (Some x)) with x. rewrite En, option_bind_Some, Et, option_bind_Some.
    destruct (extend_spec (H := TargetConverter w) v es ts Hv Hs) as (v' & es' & He & Hv' & Hc). exists v', es'. split; [done|]. split; [done|].
    intros c. rewrite Hc. f_equal. unfold dfa_step. rewrite option_bind_Some. by rewrite En, option_bind_Some, Et.
  - exists v, es. split; [done|]. split; [done|]. intros c. cbn. by destruct (ts_step es c).
Qed.

Section Combined.
Variables dfaA dfaB : DFA.

(** The pair a character leads to. *)
Definition pair_step (p : pair_) (c : Z) : pair_ := (x ← fst p; dfa_step dfaA x c, x ← snd p; dfa_step dfaB x c).

Lemma combined_spec p :
  small_pair p -> (forall c, small_pair (pair_step p c)) ->
  (forall x, fst p = Some x -> exists n ts, (dfa_nodes dfaA).[x] = Some n /\ node_transitions dfaA n = Some ts /\ sorted_from 0 ts) ->
  (forall x, snd p = Some x -> exists n ts, (dfa_nodes dfaB).[x] = Some n /\ node_transitions dfaB n = Some ts /\ sorted_from 0 ts) ->
  exists v v' es, extend_transitions A dfaA [] (half (fst p)) = Some v /\ extend_transitions B dfaB v (half (snd p)) = Some v' /\
    range_list v' = Some es /\ sorted_from 0 es /\ forall c, ts_step es c = pair_signature (pair_step p c).
Proof.
  intros [HA HB] Hsmall HnA HnB.
  destruct (extend_transitions_spec A dfaA [] [] (fst p)) as (v & es1 & Hv & Hw & Hc1); [split; [done|by left]|done|done|].
  destruct (extend_transitions_spec B dfaB v es1 (snd p) Hw HB HnB) as (v' & es & Hv' & Hw' & Hc). exists v, v', es.
  split; [done|]. split; [done|]. split; [by apply range_list_wf|]. split; [apply Hw'|]. intros c. rewrite Hc, Hc1.
  destruct (Hsmall c) as [S1 S2]. unfold pair_step in *. cbn [fst snd] in *. apply half_small in S1, S2.
  destruct (x ← fst p; dfa_step dfaA x c) as [x|], (x ← snd p; dfa_step dfaB x c) as [y|]; cbn [pmerge ts_step convert extend_data pair_signature TargetConverter];
    change 18446744073709551615 with (word64 invalidNodeIndex invalidNodeIndex); try done;
    unfold signature; cbn [fst snd half default] in *.
  all: assert (is_half invalidNodeIndex) by (unfold is_half, invalidNodeIndex; lia).
  - rewrite setHalf_A, setHalf_B by done. done.
  - rewrite setHalf_A by done. done.
  - rewrite setHalf_B by done. done.
Qed.
End Combined.

(** ** What the merger asks of a DFA *)

(** Well formed, its slices within the vectors, its actions among [U]. *)
Record mergeable (U : list Z) (dfa : DFA) : Prop := {
  mg_wf : wf_dfa dfa;
  mg_slices : forall i n, (dfa_nodes dfa).[i] = Some n -> isKilled n = false ->
    0 <= m_actionsStart n /\ 0 <= m_actionsLength n /\ m_actionsStart n + m_actionsLength n < 2 ^ 32;
  mg_actions : forall i a, live_target dfa i -> dfa_accepts dfa i a -> a ∈ U;
  mg_small : vlen (dfa_nodes dfa) < 2 ^ 31
}.

(** The indices of the nodes that are not killed. *)
Fixpoint live_from (i : Z) (nodes : list DFANode) : list Z :=
  match nodes with
  | [] => []
  | n :: nodes => if isKilled n then live_from (i + 1) nodes else i :: live_from (i + 1) nodes
  end.

Lemma live_from_length nodes : forall i, length (live_from i nodes) = length (filter (fun n => isKilled n = false) nodes).
Proof.
  induction nodes as [|n nodes IH]; intros i; [done|]. cbn [live_from]. rewrite filter_cons. destruct (isKilled n).
  - by rewrite decide_False, IH.
  - rewrite decide_True by done. cbn. by rewrite IH.
Qed.

Lemma elem_of_live_from nodes x : forall i (k : nat) n, nodes !! k = Some n -> isKilled n = false -> x = i + Z.of_nat k -> x ∈ live_from i nodes.
Proof.
  induction nodes as [|m nodes IH]; intros i [|k] n Hk Hn Hx; try done; cbn [live_from].
  - injection Hk as ->. rewrite Hn. replace x with i by lia. left.
  - assert (Hin : x ∈ live_from (i + 1) nodes) by (apply (IH (i + 1) k n Hk Hn); lia). destruct (isKilled m); [done|by right].
Qed.

Lemma graphSize_count U dfa : mergeable U dfa -> graphSize dfa = vlen (live_from 0 (dfa_nodes dfa)).
Proof.
  intros Hm. rewrite live_from_length. unfold graphSize. apply u32_small. pose proof (mg_small _ _ Hm). pose proof (length_filter (fun n => isKilled n = false) (dfa_nodes dfa)). lia.
Qed.

Definition live_node (dfa : DFA) (o : option Z) : Prop := forall x, o = Some x -> live_target dfa x.
Definition node_accepts (dfa : DFA) (o : option Z) (a : Z) : Prop := exists x, o = Some x /\ dfa_accepts dfa x a.

Section OneDFA.
Context (U : list Z) (dfa : DFA).
Hypothesis Hdfa : mergeable U dfa.

Lemma live_range x : live_target dfa x -> 0 <= x < vlen (dfa_nodes dfa).
Proof. intros (n & Hn & _). by eapply vec_at_lt. Qed.

Lemma live_small o : vlen (dfa_nodes dfa) < 2 ^ 31 -> live_node dfa o -> small_node o.
Proof. intros Hn Ho x Hx. specialize (live_range x (Ho x Hx)). unfold invalidNodeIndex. lia. Qed.

Lemma live_transitions x :
  live_target dfa x -> exists n ts, (dfa_nodes dfa).[x] = Some n /\ node_transitions dfa n = Some ts /\ sorted_from 0 ts.
Proof.
  intros (n & Hn & Hk). destruct (wf_trans _ _ (wf_nodes _ (mg_wf _ _ Hdfa) x n Hn Hk)) as (ts & Hts & Hs & _). by exists n, ts.
Qed.

Lemma live_step o c : live_node dfa o -> live_node dfa (x ← o; dfa_step dfa x c).
Proof.
  intros Ho y Hy. destruct o as [x|]; [|done]. rewrite option_bind_Some in Hy. destruct (Ho x eq_refl) as (n & Hn & Hk).
  unfold dfa_step in Hy. rewrite Hn, option_bind_Some in Hy.
  destruct (wf_trans _ _ (wf_nodes _ (mg_wf _ _ Hdfa) x n Hn Hk)) as (ts & Hts & _ & Hl). rewrite Hts, option_bind_Some in Hy.
  apply ts_step_elem in Hy as (r & Hr & _). rewrite Forall_forall in Hl. exact (Hl _ Hr).
Qed.

Lemma add_node_actions_spec `{HashSetLaws AS} (acts : AS) o :
  Forall (hs_key (T := AS)) U -> live_node dfa o -> small_node o ->
  exists acts', add_node_actions dfa acts (half o) = Some acts' /\
    forall a, a ∈ hs_iter acts' <-> a ∈ hs_iter acts \/ node_accepts dfa o a.
Proof.
  intros HU Ho Hsm. unfold add_node_actions. rewrite (half_valid o Hsm). destruct o as [x|]; cbn [negb].
  - change (half (Some x)) with x. destruct (Ho x eq_refl) as (n & Hn & Hk). rewrite Hn, option_bind_Some.
    destruct (mg_slices _ _ Hdfa x n Hn Hk) as (Hs & Hl & He). rewrite u32_small by lia.
    replace (m_actionsStart n + m_actionsLength n - m_actionsStart n) with (m_actionsLength n) by lia.
    destruct (wf_acts _ _ (wf_nodes _ (mg_wf _ _ Hdfa) x n Hn Hk)) as (l & Hl' & _). unfold node_actions in Hl'. rewrite Hl', option_bind_Some.
    eexists. split; [reflexivity|]. intros a.
    assert (Hacc : forall a, node_accepts dfa (Some x) a <-> a ∈ l).
    { intros b. unfold node_accepts, dfa_accepts. split.
      - intros (y & [= <-] & n' & l' & Hn' & Ha' & Hin). unfold node_actions in Ha'. congruence.
      - intros Hin. exists x. split; [done|]. by exists n, l. }
    rewrite Hacc, elem_of_hs_add_all; [tauto|]. apply Forall_forall. intros b Hb. rewrite Forall_forall in HU. apply HU.
    apply (mg_actions _ _ Hdfa x); [by apply Ho|]. apply Hacc in Hb as (y & [= <-] & Hb). done.
  - exists acts. split; [done|]. intros a. split; [by left|]. intros [?|(x & ? & _)]; done.
Qed.

Lemma node_accepts_in o a : live_node dfa o -> node_accepts dfa o a -> a ∈ U.
Proof. intros Ho (x & Hx & Ha). apply (mg_actions _ _ Hdfa x); [by apply Ho|done]. Qed.

Lemma live_accepts_small x a : live_target dfa x -> dfa_accepts dfa x a -> 0 <= a < 2 ^ 49.
Proof.
  intros (n & Hn & Hk) (n' & acts & Hn' & Ha & Hin). rewrite Hn in Hn'. injection Hn' as <-.
  destruct (wf_acts _ _ (wf_nodes _ (mg_wf _ _ Hdfa) x n Hn Hk)) as (acts' & Ha' & Hall). rewrite Ha in Ha'. injection Ha' as <-.
  rewrite Forall_forall in Hall. by apply Hall.
Qed.
End OneDFA.

(** ** Growing DFAs *)

Record dfa_grows (dfa dfa' : DFA) : Prop := {
  dg_nodes : exists w, dfa_nodes dfa' = dfa_nodes dfa ++ w;
  dg_acts : exists w, dfa_actions dfa' = dfa_actions dfa ++ w;
  dg_ranges : exists w, transitionRanges dfa' = transitionRanges dfa ++ w;
  dg_dests : exists w, transitionDestinations dfa' = transitionDestinations dfa ++ w
}.

#[export] Instance dfa_grows_preorder : PreOrder dfa_grows.
Proof.
  split.
  - intros d. split; exists []; by rewrite app_nil_r.
  - intros d1 d2 d3 [[w1 W1] [a1 A1] [r1 R1] [t1 T1]] [[w2 W2] [a2 A2] [r2 R2] [t2 T2]]. split; eexists.
    + rewrite W2, W1, <- (assoc_L (++)). reflexivity.
    + rewrite A2, A1, <- (assoc_L (++)). reflexivity.
    + rewrite R2, R1, <- (assoc_L (++)). reflexivity.
    + rewrite T2, T1, <- (assoc_L (++)). reflexivity.
Qed.

Lemma append_transition_grows dfa r t : dfa_grows dfa (append_transition dfa r t).
Proof. split; cbn; first [exists []; by rewrite app_nil_r|by eexists]. Qed.

Lemma setLastActions_snoc nodes n start len :
  setLastActions (nodes ++ [n]) start len = Some (nodes ++ [mkDFANode start (m_transitionsStart n) (u16 len) (m_transitionsLength n) (m_flags n)]).
Proof.
  unfold setLastActions. rewrite length_app. cbn [length]. replace (Z.of_nat (length nodes + 1) - 1) with (vlen nodes) by lia.
  rewrite vec_at_snoc, option_bind_Some, vec_set_Some by (rewrite length_app; cbn; lia). rewrite Nat2Z.id.
  by rewrite insert_app_r_alt, Nat.sub_diag by lia.
Qed.

(** ** The invariant *)

Section Merge.
Context {AS : Type} `{HashSetLaws AS} (dfaA dfaB : DFA) (U : list Z).
Hypothesis HA : mergeable U dfaA.
Hypothesis HB : mergeable U dfaB.
Hypothesis HU : Forall (hs_key (T := AS)) U.
Hypothesis HUlen : vlen U <= 65535.

(** There is one node for every pair of nodes that are not killed, one of them being none. *)
Definition pairs_count : Z := (graphSize dfaA + 1) * (graphSize dfaB + 1).
Hypothesis Hsmall : 128 * pairs_count < 2 ^ 31.
Hypothesis Hfit : pairs_count * vlen U < 2 ^ 32.

Abbreviation step := (pair_step dfaA dfaB).

Definition live_pair (p : pair_) : Prop := live_node dfaA (fst p) /\ live_node dfaB (snd p).
(** One of the DFAs still moves. *)
Definition valid_pair (p : pair_) : Prop := live_pair p /\ p <> (None, None).
Definition pair_accepts (p : pair_) (a : Z) : Prop := node_accepts dfaA (fst p) a \/ node_accepts dfaB (snd p) a.

Lemma live_pair_small p : live_pair p -> small_pair p.
Proof. intros [H1' H2']. split; [apply (live_small dfaA)|apply (live_small dfaB)]; done || by eapply mg_small. Qed.

Lemma valid_small p : valid_pair p -> small_pair p.
Proof. intros [Hp _]. by apply live_pair_small. Qed.

Lemma live_pair_step p c : live_pair p -> live_pair (step p c).
Proof. intros [H1' H2']. split; [apply (live_step U dfaA)|apply (live_step U dfaB)]; done. Qed.

Lemma pair_accepts_in p a : valid_pair p -> pair_accepts p a -> a ∈ U.
Proof. intros [[H1' H2'] _] [Ha|Ha]; [eapply (node_accepts_in U dfaA)|eapply (node_accepts_in U dfaB)]; done. Qed.

Definition node_options (dfa : DFA) : list (option Z) := None :: map Some (live_from 0 (dfa_nodes dfa)).

Lemma live_options dfa o : live_node dfa o -> o ∈ node_options dfa.
Proof.
  intros Ho. destruct o as [x|]; [right|by left]. apply list_elem_of_fmap. exists x. split; [done|].
  destruct (Ho x eq_refl) as (n & [Hx Hn]%vec_at_Some & Hk). apply (elem_of_live_from _ _ 0 (Z.to_nat x) n Hn Hk). lia.
Qed.

Lemma pairs_bound ps : NoDup ps -> Forall valid_pair ps -> vlen ps < pairs_count.
Proof.
  intros Hnd Hv. rewrite Forall_forall in Hv. assert (Hsub : (None, None) :: ps ⊆+ List.list_prod (node_options dfaA) (node_options dfaB)).
  { apply NoDup_submseteq; [apply NoDup_cons; split; [|done]; by intros [_ ?]%Hv|]. intros [a b] Hp. apply list_elem_of_In, in_prod_iff.
    apply elem_of_cons in Hp as [[= -> ->]|[[Ha Hb] _]%Hv]; (split; apply list_elem_of_In; [|]; by first [left|apply live_options]). }
  apply submseteq_length in Hsub. rewrite List.length_prod in Hsub. unfold node_options in Hsub. cbn [length] in Hsub.
  rewrite !length_map in Hsub. unfold pairs_count. rewrite (graphSize_count U dfaA HA), (graphSize_count U dfaB HB). lia.
Qed.

Record merger_inv (T : Z) (m : DFAMerger) (ps : list pair_) : Prop := {
  mi_length : length ps = length (dfa_nodes (m_output m));
  mi_nodup : NoDup ps;
  mi_valid : Forall valid_pair ps;
  mi_mapping : forall p i, valid_pair p -> m_nodeMapping m !! signature p = Some i <-> ps.[i] = Some p;
  mi_nodes : forall i p, ps.[i] = Some p -> exists n acts, (dfa_nodes (m_output m)).[i] = Some n /\
    node_actions (m_output m) n = Some acts /\ forall a, a ∈ acts <-> pair_accepts p a;
  mi_acts : vlen (dfa_actions (m_output m)) <= vlen U * vlen ps;
  mi_owned : owned T (m_output m);
  mi_root : dfa_root (m_output m) = 0
}.

Lemma merger_bound T m ps : merger_inv T m ps -> vlen ps < pairs_count.
Proof. intros Hm. apply pairs_bound; apply Hm. Qed.

(** What a turn adds. *)
Record merger_grows (m m' : DFAMerger) (new : list pair_) : Prop := {
  gr_output : dfa_grows (m_output m) (m_output m');
  gr_unprocessed : m_unprocessedNodes m' = rev (map signature new) ++ m_unprocessedNodes m
}.

Lemma merger_grows_refl m : merger_grows m m [].
Proof. split; [reflexivity|done]. Qed.

Lemma merger_grows_trans m1 m2 m3 n1 n2 : merger_grows m1 m2 n1 -> merger_grows m2 m3 n2 -> merger_grows m1 m3 (n1 ++ n2).
Proof.
  intros [O1 U1] [O2 U2]. split; [by etransitivity|]. by rewrite U2, U1, map_app, rev_app_distr, (assoc_L (++)).
Qed.

(** ** Creating a node *)

(** The output with a node for the actions [acts]. *)
Definition with_node (dfa : DFA) (acts : list Z) : DFA :=
  mkDFA (dfa_nodes dfa ++ [mkDFANode (vlen (dfa_actions dfa)) 0 (vlen acts) 0 0]) (dfa_actions dfa ++ acts) (transitionRanges dfa)
    (transitionDestinations dfa) (dfa_root dfa).

Lemma with_node_grows dfa acts : dfa_grows dfa (with_node dfa acts).
Proof. split; cbn; first [exists []; by rewrite app_nil_r|by eexists]. Qed.

Lemma pair_actions_spec p :
  valid_pair p ->
  exists actsA acts : AS, add_node_actions dfaA hs_empty (half (fst p)) = Some actsA /\
    add_node_actions dfaB actsA (half (snd p)) = Some acts /\ (forall a, a ∈ hs_iter acts <-> pair_accepts p a) /\ vlen (hs_iter acts) <= vlen U.
Proof.
  intros Hp. pose proof (valid_small p Hp) as [Hs1 Hs2]. destruct (proj1 Hp) as [Hp1 Hp2].
  destruct (add_node_actions_spec U dfaA HA (hs_empty : AS) (fst p) HU Hp1 Hs1) as (actsA & EA & HinA).
  destruct (add_node_actions_spec U dfaB HB actsA (snd p) HU Hp2 Hs2) as (acts & EB & HinB).
  exists actsA, acts. split; [done|]. split; [done|].
  assert (Ha : forall a, a ∈ hs_iter acts <-> pair_accepts p a).
  { intros a. rewrite HinB, HinA. pose proof (elem_of_hs_empty (T := AS) a). unfold pair_accepts. tauto. }
  split; [done|]. apply Nat2Z.inj_le, submseteq_length, NoDup_submseteq; [apply hs_iter_nodup|].
  intros a Hin. apply Ha in Hin. by eapply (pair_accepts_in p).
Qed.

Lemma create_node m T ps p :
  merger_inv T m ps -> valid_pair p -> m_nodeMapping m !! signature p = None ->
  exists acts, (forall a, a ∈ acts <-> pair_accepts p a) /\ vlen acts <= vlen U /\
    getOrCreateCombinedNode (AS := AS) dfaA dfaB m (signature p) =
    Some (mkMerger (with_node (m_output m) acts) (<[signature p := vlen ps]> (m_nodeMapping m)) (signature p :: m_unprocessedNodes m), vlen ps).
Proof.
  intros Hm Hp Hnone. destruct (pair_actions_spec p Hp) as (actsA & acts & EA & EB & Ha & Hl).
  exists (hs_iter acts). split; [done|]. split; [done|]. unfold getOrCreateCombinedNode. rewrite Hnone.
  pose proof (valid_small p Hp) as Hs. rewrite (extractA_signature p Hs), (extractB_signature p Hs), EA, option_bind_Some, EB, option_bind_Some.
  pose proof (merger_bound T m ps Hm) as Hb. pose proof (mi_acts _ _ _ Hm) as Hacts. pose proof (mi_length _ _ _ Hm) as Hlen.
  assert (vlen (dfa_actions (m_output m)) < 2 ^ 32) by nia.
  assert (Hsz : vlen (dfa_actions (m_output m)) + vlen (hs_iter acts) < 2 ^ 32).
  { assert (Hnew : vlen (ps ++ [p]) < pairs_count).
    { apply pairs_bound; [|apply Forall_app; split; [apply Hm|by constructor]]. apply NoDup_app. split_and!; [apply Hm| |apply NoDup_singleton].
      intros q Hq ->%list_elem_of_singleton. apply list_elem_of_lookup in Hq as [i Hi].
      rewrite <- (vec_at_nat ps i) in Hi. apply (mi_mapping _ _ _ Hm p _ Hp) in Hi. congruence. }
    rewrite length_app in Hnew. cbn in Hnew. nia. }
  rewrite setLastActions_snoc, option_bind_Some, !length_app. cbn [length]. rewrite (u32_small (vlen (dfa_actions (m_output m)))) by lia.
  rewrite !(u32_small (Z.of_nat (length (dfa_actions _) + _))) by lia. rewrite (u32_small (_ - _)), uwrap_small by lia.
  replace (Z.of_nat (length (dfa_actions (m_output m)) + length (hs_iter acts)) - vlen (dfa_actions (m_output m))) with (vlen (hs_iter acts)) by lia.
  replace (Z.of_nat (length (dfa_nodes (m_output m)) + 1) - 1) with (vlen ps) by lia.
  rewrite (u32_small (vlen ps)) by lia. done.
Qed.

Lemma created_inv m T ps p acts :
  merger_inv T m ps -> valid_pair p -> m_nodeMapping m !! signature p = None -> (forall a, a ∈ acts <-> pair_accepts p a) -> vlen acts <= vlen U ->
  merger_inv T (mkMerger (with_node (m_output m) acts) (<[signature p := vlen ps]> (m_nodeMapping m)) (signature p :: m_unprocessedNodes m)) (ps ++ [p]).
Proof.
  intros Hm Hp Hnone Ha Hl. pose proof Hm as [Hlen Hnd Hv Hmap Hnodes Hacts Ho Hr]. split; cbn [m_output m_nodeMapping with_node dfa_nodes dfa_actions dfa_root].
  - by rewrite !length_app, Hlen.
  - apply NoDup_app. split_and!; [done| |apply NoDup_singleton]. intros q [i Hi]%list_elem_of_lookup ->%list_elem_of_singleton.
    rewrite <- (vec_at_nat ps i) in Hi. apply (Hmap p _ Hp) in Hi. congruence.
  - apply Forall_app. split; [done|by constructor].
  - intros q i Hq. destruct (decide (signature p = signature q)) as [E|Hne].
    + apply signature_inj in E as <-; [|by apply valid_small|by apply valid_small]. rewrite lookup_insert_eq. split.
      * intros [= <-]. apply vec_at_snoc.
      * intros [Hi|[-> _]]%vec_at_snoc_inv; [|done]. apply (Hmap p _ Hp) in Hi. congruence.
    + rewrite lookup_insert_ne, (Hmap q i Hq) by done. split; [apply vec_at_app_Some|]. by intros [Hi|[_ ->]]%vec_at_snoc_inv.
  - intros i q [Hi|[-> ->]]%vec_at_snoc_inv.
    + destruct (Hnodes i q Hi) as (n & l & Hn & Hl' & Hin). exists n, l. split; [by apply vec_at_app_Some|]. split; [|done].
      eapply node_actions_grow; [|exact Hl']. by eexists.
    + exists (mkDFANode (vlen (dfa_actions (m_output m))) 0 (vlen acts) 0 0), acts. rewrite Hlen. split; [apply vec_at_snoc|]. split; [|done].
      unfold node_actions. cbn. pose proof (mapM_seqZ_snoc (dfa_actions (m_output m)) acts []) as Hs. by rewrite app_nil_r in Hs.
  - rewrite !length_app. cbn. nia.
  - by apply owned_add_node.
  - done.
Qed.

Lemma getOrCreateCombinedNode_spec m T ps p :
  merger_inv T m ps -> valid_pair p ->
  exists m' i new, getOrCreateCombinedNode (AS := AS) dfaA dfaB m (signature p) = Some (m', i) /\ merger_inv T m' (ps ++ new) /\
    merger_grows m m' new /\ (ps ++ new).[i] = Some p /\ transitionRanges (m_output m') = transitionRanges (m_output m) /\
    transitionDestinations (m_output m') = transitionDestinations (m_output m).
Proof.
  intros Hm Hp. destruct (m_nodeMapping m !! signature p) as [i|] eqn:E.
  - exists m, i, []. unfold getOrCreateCombinedNode. rewrite E, app_nil_r. apply (mi_mapping _ _ _ Hm p i Hp) in E.
    split_and!; done || apply merger_grows_refl.
  - destruct (create_node m T ps p Hm Hp E) as (acts & Ha & Hl & ->). eexists _, _, [p]. split; [reflexivity|].
    split; [by apply created_inv|]. split; [|split; [apply vec_at_snoc|done]]. split; [apply with_node_grows|done].
Qed.

(** ** The transitions of a pair *)

Definition with_transition_to (m : DFAMerger) (r : CharRange) (t : Z) : DFAMerger :=
  mkMerger (append_transition (m_output m) r t) (m_nodeMapping m) (m_unprocessedNodes m).

Lemma with_transition_to_inv T m ps r t : merger_inv T m ps -> merger_inv T (with_transition_to m r t) ps /\ merger_grows m (with_transition_to m r t) [].
Proof.
  intros [H1' H2' H3' H4' H5' H6' H7' H8']. split; [|split; [apply append_transition_grows|done]].
  split; cbn; try done. by apply owned_append_transition.
Qed.

Lemma append_transitions_spec T es : forall m ps,
  merger_inv T m ps -> Forall (fun e => exists p, valid_pair p /\ snd e = signature p) es ->
  exists m' new tgts, append_transitions (AS := AS) dfaA dfaB m es = Some m' /\ merger_inv T m' (ps ++ new) /\ merger_grows m m' new /\
    transitionRanges (m_output m') = transitionRanges (m_output m) ++ map fst es /\
    transitionDestinations (m_output m') = transitionDestinations (m_output m) ++ tgts /\
    Forall2 (fun e t => exists p, valid_pair p /\ snd e = signature p /\ (ps ++ new).[t] = Some p) es tgts.
Proof.
  induction es as [|[r d] es IH]; intros m ps Hm Hes; cbn [append_transitions].
  { exists m, [], []. rewrite !app_nil_r. split_and!; [done|done|apply merger_grows_refl|done|done|constructor]. }
  apply Forall_cons in Hes as [(p & Hp & Ed) Hes]. cbn in Ed. subst d.
  destruct (getOrCreateCombinedNode_spec m T ps p Hm Hp) as (m1 & t & n1 & -> & Hm1 & Hg1 & Ht & Hr1 & Hd1). rewrite option_bind_Some.
  fold (with_transition_to m1 r t). destruct (with_transition_to_inv T m1 _ r t Hm1) as [Hm2 Hg2].
  destruct (IH _ _ Hm2 Hes) as (m3 & n3 & tgts & -> & Hm3 & Hg3 & Hr3 & Hd3 & Hall). rewrite <- (assoc_L (++)) in Hm3, Hall.
  exists m3, (n1 ++ n3), (t :: tgts). split; [done|]. split; [done|].
  split; [eapply merger_grows_trans; [done|]; change n3 with ([] ++ n3); by eapply merger_grows_trans|]. split; [|split].
  - rewrite Hr3. cbn. by rewrite Hr1, <- (assoc_L (++)).
  - rewrite Hd3. cbn. by rewrite Hd1, <- (assoc_L (++)).
  - constructor; [|done]. exists p. split; [done|]. split; [done|]. rewrite (assoc_L (++)). by apply vec_at_app_Some.
Qed.

(** The node of a pair that was processed moves to the nodes of the next pairs. *)
Definition processed_pair (dfa : DFA) (ps : list pair_) (p : pair_) : Prop :=
  exists i n ts, ps.[i] = Some p /\ (dfa_nodes dfa).[i] = Some n /\ node_transitions dfa n = Some ts /\ sorted_from 0 ts /\
    Forall (fun t => exists q, ps.[snd t] = Some q) ts /\
    forall c, match ts_step ts c with Some t => ps.[t] = Some (step p c) | None => step p c = (None, None) end.

Lemma processed_grow dfa dfa' ps new p : dfa_grows dfa dfa' -> processed_pair dfa ps p -> processed_pair dfa' (ps ++ new) p.
Proof.
  intros [[w Hn] _ Hr Hd] (i & n & ts & Hi & Hnode & Hts & Hs & Hall & Hc). exists i, n, ts. rewrite Hn.
  split; [by apply vec_at_app_Some|]. split; [by apply vec_at_app_Some|]. split; [by eapply node_transitions_grow|]. split; [done|]. split.
  - eapply Forall_impl; [exact Hall|]. intros t (q & Hq). exists q. by apply vec_at_app_Some.
  - intros c. specialize (Hc c). destruct (ts_step ts c); [by apply vec_at_app_Some|done].
Qed.

Lemma setTransitions_at dfa index n start len :
  (dfa_nodes dfa).[index] = Some n -> 0 <= len < 256 ->
  exists nodes, setTransitions dfa index start len =
      Some (mkDFA nodes (dfa_actions dfa) (transitionRanges dfa) (transitionDestinations dfa) (dfa_root dfa)) /\
    length nodes = length (dfa_nodes dfa) /\
    forall i, nodes.[i] = if decide (index = i) then Some (mkDFANode (m_actionsStart n) start (m_actionsLength n) len (m_flags n)) else (dfa_nodes dfa).[i].
Proof.
  intros Hn Hl. unfold setTransitions. rewrite Hn, option_bind_Some, (uwrap_small 8) by lia.
  destruct (vec_set _ _ _) as [nodes|] eqn:Hset; [|rewrite vec_set_Some in Hset by (by eapply vec_at_lt); done]. rewrite option_bind_Some.
  exists nodes. split; [done|]. split; [by eapply vec_set_length|]. intros i. by apply vec_at_set.
Qed.

Lemma combined_pairs p es :
  valid_pair p -> sorted_from 0 es -> (forall c, ts_step es c = pair_signature (step p c)) ->
  Forall (fun e => exists q, valid_pair q /\ snd e = signature q) es.
Proof.
  intros Hp Hs Hc. apply Forall_forall. intros [r d] Hin. exists (step p (range_first r)). specialize (Hc (range_first r)).
  rewrite (ts_step_first _ _ _ _ Hs Hin) in Hc. pose proof (live_pair_step p (range_first r) (proj1 Hp)) as Hl.
  destruct (step p (range_first r)) as [[a|] [b|]]; done || (injection Hc as ->; by split; [split|]).
Qed.

(** The transitions just written. *)
Lemma written_pair dfa ps p i n (es : list (CharRange * Z)) tgts R T :
  valid_pair p -> ps.[i] = Some p -> sorted_from 0 es -> (forall c, ts_step es c = pair_signature (step p c)) ->
  Forall2 (fun e t => exists q, valid_pair q /\ snd e = signature q /\ ps.[t] = Some q) es tgts ->
  (dfa_nodes dfa).[i] = Some (mkDFANode (m_actionsStart n) (vlen R) (m_actionsLength n) (vlen es) (m_flags n)) ->
  transitionRanges dfa = R ++ map fst es -> transitionDestinations dfa = T ++ tgts -> length R = length T -> processed_pair dfa ps p.
Proof.
  intros Hp Hi Hs Hc Hall Hn HR HT Hl. pose proof (Forall2_length _ _ _ Hall) as Hlen2.
  eexists i, _, (List.combine (map fst es) tgts). split; [done|]. split; [exact Hn|]. split; [|split; [by apply sorted_combine|split]].
  - unfold node_transitions. cbn. rewrite <- (length_map fst es). eapply iterator_slice; [done|done|done|]. by rewrite length_map.
  - clear Hc Hs Hn HR HT Hlen2. induction Hall as [|e t es tgts (q & _ & _ & Hq) Hall IH]; constructor; eauto.
  - intros c. pose proof (ts_step_combine _ _ _ c Hall) as Hst. specialize (Hc c).
    destruct (ts_step (List.combine (map fst es) tgts) c) as [t|].
    + destruct Hst as (r & d & Hd & q & Hq & E & Ht). cbn in E. rewrite Ht. f_equal. rewrite Hd in Hc. subst d.
      pose proof (live_pair_step p c (proj1 Hp)) as Hv. destruct (step p c) as [oa ob]. apply signature_inj; [by apply valid_small|by apply live_pair_small|].
      destruct oa, ob; done || by injection Hc.
    + rewrite Hst in Hc. by destruct (step p c) as [[a|] [b|]].
Qed.

(** ** A turn of the loop *)

Definition root_pair : pair_ := (Some (dfa_root dfaA), Some (dfa_root dfaB)).

Record loop_inv (m : DFAMerger) (ps un dn : list pair_) : Prop := {
  li_inv : merger_inv (vlen (transitionRanges (m_output m))) m ps;
  li_unprocessed : m_unprocessedNodes m = map signature un;
  li_split : un ++ dn ≡ₚ ps;
  li_done : Forall (processed_pair (m_output m) ps) dn;
  li_len : length (transitionRanges (m_output m)) = length (transitionDestinations (m_output m));
  li_size : vlen (transitionRanges (m_output m)) <= 128 * vlen dn;
  li_first : ps.[0] = Some root_pair
}.

(** Only the transitions of the node at [i] change. *)
Lemma setTransitions_inv T T' m ps i n nodes start len :
  merger_inv T m ps -> (dfa_nodes (m_output m)).[i] = Some n -> length nodes = length (dfa_nodes (m_output m)) ->
  (forall j, nodes.[j] = if decide (i = j) then Some (mkDFANode (m_actionsStart n) start (m_actionsLength n) len (m_flags n)) else (dfa_nodes (m_output m)).[j]) ->
  let dfa := mkDFA nodes (dfa_actions (m_output m)) (transitionRanges (m_output m)) (transitionDestinations (m_output m)) (dfa_root (m_output m)) in
  owned T' dfa -> merger_inv T' (mkMerger dfa (m_nodeMapping m) (m_unprocessedNodes m)) ps.
Proof.
  intros [Hlen Hnd Hv Hmap Hnodes Hacts Ho Hr] Hn Hl Hat dfa Ho'. split; cbn; try done; [by rewrite Hl|].
  intros j p Hj. destruct (Hnodes j p Hj) as (n' & acts & Hn' & Ha & Hin). rewrite Hat. destruct (decide (i = j)) as [<-|]; [|by exists n', acts].
  eexists _, acts. split; [reflexivity|]. rewrite Hn in Hn'. injection Hn' as <-. done.
Qed.

Lemma merge_step_spec m ps p un dn :
  loop_inv m ps (p :: un) dn ->
  exists m' new, merge_step (AS := AS) dfaA dfaB m (signature p) (map signature un) = Some m' /\ loop_inv m' (ps ++ new) (rev new ++ un) (p :: dn).
Proof.
  intros [Hm Hun Hsp Hdn Hl Hsz Hfirst].
  assert (Hin : p ∈ ps) by (rewrite <- Hsp; by left). pose proof (mi_valid _ _ _ Hm) as Hvalid. rewrite Forall_forall in Hvalid.
  pose proof (Hvalid p Hin) as Hp. pose proof (valid_small p Hp) as Hs.
  destruct (combined_spec dfaA dfaB p Hs) as (v & v' & es & EA & EB & Er & Hsort & Hc).
  { intros c. by apply live_pair_small, live_pair_step, Hp. } { intros x Hx. apply (live_transitions U dfaA HA), Hp, Hx. }
  { intros x Hx. apply (live_transitions U dfaB HB), Hp, Hx. }
  unfold merge_step. rewrite (extractA_signature p Hs), (extractB_signature p Hs), EA, option_bind_Some, EB, option_bind_Some, Er, option_bind_Some.
  set (T := vlen (transitionRanges (m_output m))) in *.
  assert (Hm0 : merger_inv T (mkMerger (m_output m) (m_nodeMapping m) (map signature un)) ps) by (destruct Hm; split; done).
  destruct (append_transitions_spec T es _ _ Hm0 (combined_pairs p es Hp Hsort Hc)) as (m1 & new & tgts & -> & Hm1 & Hg & Hr1 & Hd1 & Hall).
  rewrite option_bind_Some. cbn [m_output] in *. pose proof (sorted_length _ _ Hsort ltac:(lia)) as Hes.
  assert (Hroom : vlen dn < pairs_count).
  { pose proof (merger_bound _ _ _ Hm) as Hb. apply Permutation_length in Hsp. rewrite length_app in Hsp. cbn in Hsp. lia. }
  rewrite Hr1, length_app, length_map. fold T. rewrite (u32_small T) by (unfold T; lia).
  rewrite (u32_small (Z.of_nat _)) by (unfold T in *; lia). rewrite (u32_small (Z.of_nat _ - _)) by (unfold T in *; lia). set (len := Z.of_nat _ - _).
  assert (len = vlen es) as -> by (unfold len, T; lia). apply list_elem_of_lookup in Hin as [k Hk]. rewrite <- (vec_at_nat ps k) in Hk. set (i := Z.of_nat k) in *.
  assert (Hi : (ps ++ new).[i] = Some p) by by apply vec_at_app_Some. pose proof Hi as Hmi. apply (mi_mapping _ _ _ Hm1 p i Hp) in Hmi.
  rewrite Hmi. cbn [default]. destruct (mi_nodes _ _ _ Hm1 i p Hi) as (n & _ & Hn & _).
  destruct (setTransitions_at (m_output m1) i n T (vlen es) Hn) as (nodes & Hset & Hnl & Hat); [lia|].
  change (id i) with i. rewrite Hset, option_bind_Some. eexists _, new. split; [reflexivity|].
  assert (Hend : T + vlen es <= vlen (transitionRanges (m_output m1))) by (rewrite Hr1, length_app, length_map; unfold T; lia).
  pose proof (owned_setTransitions _ _ _ _ _ (mi_owned _ _ _ Hm1) (Nat2Z.is_nonneg _) Hend Hset) as Hown.
  pose proof (Forall2_length _ _ _ Hall) as Hlt.
  split; cbn [m_output m_unprocessedNodes].
  - by apply (setTransitions_inv T _ m1 (ps ++ new) i n nodes T (vlen es)).
  - rewrite (gr_unprocessed _ _ _ Hg). cbn. by rewrite map_app, map_rev.
  - rewrite <- Hsp, <- (Permutation_rev new), (Permutation_app_comm ((p :: un) ++ dn) new), <- (assoc_L (++)).
    apply Permutation_app_head. symmetry. apply Permutation_middle.
  - constructor.
    + eapply (written_pair _ _ p i n es tgts (transitionRanges (m_output m)) (transitionDestinations (m_output m))); cbn; try done. rewrite Hat. by case_decide.
    + rewrite Forall_forall in Hdn |- *. intros q Hq.
      destruct (processed_grow _ _ ps new q (gr_output _ _ _ Hg) (Hdn q Hq)) as (j & nj & ts & Hj & Hnj & Hrest). exists j, nj, ts. split; [done|].
      split; [cbn|exact Hrest]. rewrite Hat, decide_False; [done|]. intros E. subst j.
      assert (q = p) as -> by congruence. pose proof (mi_nodup _ _ _ Hm) as Hnd. rewrite <- Hsp in Hnd. apply NoDup_cons in Hnd as [Hni _].
      apply Hni, elem_of_app. by right.
  - cbn. rewrite Hr1, Hd1, !length_app, length_map. lia.
  - cbn. rewrite Hr1, !length_app, length_map. cbn. unfold T in Hsz. lia.
  - by apply vec_at_app_Some.
Qed.

(** ** The whole loop *)

Definition finished_merge (m : DFAMerger) : Prop := exists ps dn, loop_inv m ps [] dn.

Lemma merge_loop_spec fuel : forall m ps un dn,
  loop_inv m ps un dn -> pairs_count <= Z.of_nat fuel + vlen dn ->
  exists m', merge_loop (AS := AS) dfaA dfaB fuel m = Some m' /\ finished_merge m'.
Proof.
  induction fuel as [|fuel IH]; intros m ps [|p un] dn Hi Hf; cbn [merge_loop]; rewrite (li_unprocessed _ _ _ _ Hi); cbn [map];
    try (exists m; split; [done|by exists ps, dn]).
  - pose proof (merger_bound _ _ _ (li_inv _ _ _ _ Hi)) as Hb. pose proof (Permutation_length (li_split _ _ _ _ Hi)) as Hl.
    rewrite length_app in Hl. cbn in Hl. lia.
  - destruct (merge_step_spec m ps p un dn Hi) as (m1 & new & -> & Hi1). rewrite option_bind_Some. apply (IH _ _ _ _ Hi1). cbn. lia.
Qed.

Lemma root_valid : valid_pair root_pair.
Proof. split; [|done]. split; intros x [= <-]; [apply (mg_wf _ _ HA)|apply (mg_wf _ _ HB)]. Qed.

Lemma new_inv : merger_inv 0 newMerger [].
Proof.
  assert (Hnil : forall {X} i, ([] : list X).[i] = None) by (intros X i; unfold vec_at; by case_bool).
  split; cbn; try done.
  - constructor.
  - intros p i _. by rewrite Hnil.
  - intros i p. by rewrite Hnil.
  - lia.
  - split; cbn; intros *; rewrite ?Hnil; done || lia.
Qed.

Lemma merge_spec : exists m, merge (AS := AS) dfaA dfaB newMerger = Some (m_output m) /\ finished_merge m.
Proof.
  pose proof new_inv as H0'.
  pose proof root_valid as Hr. pose proof (valid_small _ Hr) as [Hs1 Hs2]. apply half_small in Hs1, Hs2.
  unfold merge. rewrite signature_word by done. change (word64 _ _) with (signature root_pair).
  rewrite bool_decide_eq_true_2 by done. cbn [negb].
  destruct (create_node newMerger 0 [] root_pair H0' Hr eq_refl) as (acts & Ha & Hl & ->). rewrite option_bind_Some.
  pose proof (created_inv newMerger 0 [] root_pair acts H0' Hr eq_refl Ha Hl) as H1'.
  edestruct (merge_loop_spec ((length (dfa_nodes dfaA) + 1) * (length (dfa_nodes dfaB) + 1))) as (m & Hm & Hfin).
  3: { rewrite Hm, option_bind_Some. by exists m. }
  - split; [exact H1'|by instantiate (1 := [root_pair])|by instantiate (1 := [])| | | |]; done.
  - unfold pairs_count. rewrite (graphSize_count U dfaA HA), (graphSize_count U dfaB HB), !live_from_length. cbn [length].
    pose proof (length_filter (fun n => isKilled n = false) (dfa_nodes dfaA)). pose proof (length_filter (fun n => isKilled n = false) (dfa_nodes dfaB)). nia.
Qed.

(** ** The result *)

Lemma pair_run w : forall p, foldl step p w = (x ← fst p; dfa_run dfaA x w, x ← snd p; dfa_run dfaB x w).
Proof.
  induction w as [|c w IH]; intros [a b]; cbn [foldl].
  - by destruct a, b.
  - rewrite IH. unfold pair_step. cbn [fst snd]. destruct a, b; cbn [mbind option_bind dfa_run]; done.
Qed.

Lemma merged_run m ps dn w :
  loop_inv m ps [] dn -> forall i p, ps.[i] = Some p ->
  match dfa_run (m_output m) i w with Some t => ps.[t] = Some (foldl step p w) | None => foldl step p w = (None, None) end.
Proof.
  intros Hi. pose proof Hi as [Hm _ Hsp Hdn _ _ _]. cbn in Hsp. rewrite Hsp, Forall_forall in Hdn.
  induction w as [|c w IH]; intros i p Hp; [done|]. cbn [dfa_run foldl].
  destruct (Hdn p) as (j & n & ts & Hj & Hn & Hts & _ & _ & Hc); [by eapply vec_at_elem|].
  assert (j = i) as ->.
  { apply (mi_mapping _ _ _ Hm p) in Hj, Hp; [congruence| |]; eapply (Forall_forall valid_pair ps); try apply (mi_valid _ _ _ Hm); by eapply vec_at_elem. }
  unfold dfa_step. rewrite Hn, option_bind_Some, Hts, option_bind_Some. specialize (Hc c). destruct (ts_step ts c) as [t|].
  - rewrite option_bind_Some. by apply IH.
  - cbn [mbind option_bind]. rewrite Hc, pair_run. done.
Qed.

Lemma merged_node m ps dn i p : loop_inv m ps [] dn -> ps.[i] = Some p -> forall a, dfa_accepts (m_output m) i a <-> pair_accepts p a.
Proof.
  intros Hi Hp a. destruct (mi_nodes _ _ _ (li_inv _ _ _ _ Hi) i p Hp) as (n & acts & Hn & Ha & Hin). rewrite <- Hin. unfold dfa_accepts. split.
  - intros (n' & acts' & Hn' & Ha' & Hin'). congruence.
  - intros Hin'. by exists n, acts.
Qed.

(** After every text, the actions of both DFAs. *)
Lemma merged_language m w a :
  finished_merge m ->
  (exists t, dfa_run (m_output m) (dfa_root (m_output m)) w = Some t /\ dfa_accepts (m_output m) t a) <->
  (exists t, dfa_run dfaA (dfa_root dfaA) w = Some t /\ dfa_accepts dfaA t a) \/ (exists t, dfa_run dfaB (dfa_root dfaB) w = Some t /\ dfa_accepts dfaB t a).
Proof.
  intros (ps & dn & Hi). rewrite (mi_root _ _ _ (li_inv _ _ _ _ Hi)).
  pose proof (merged_run m ps dn w Hi 0 root_pair (li_first _ _ _ _ Hi)) as Hrun. rewrite pair_run in Hrun. cbn [root_pair fst snd mbind option_bind] in Hrun.
  assert (Heq : (exists t, dfa_run (m_output m) 0 w = Some t /\ dfa_accepts (m_output m) t a) <->
    pair_accepts (dfa_run dfaA (dfa_root dfaA) w, dfa_run dfaB (dfa_root dfaB) w) a); [|exact Heq].
  destruct (dfa_run (m_output m) 0 w) as [t|].
  - rewrite <- (merged_node m ps dn t _ Hi Hrun a). split; [by intros (t' & [= <-] & Ht)|]. intros Ht. by exists t.
  - injection Hrun as -> ->. split; [by intros (t & ? & _)|]. intros [(x & ? & _)|(x & ? & _)]; done.
Qed.

Lemma merged_target m ps dn i p : loop_inv m ps [] dn -> ps.[i] = Some p -> live_target (m_output m) i.
Proof.
  intros Hi Hp. destruct (mi_nodes _ _ _ (li_inv _ _ _ _ Hi) i p Hp) as (n & _ & Hn & _). exists n. split; [done|].
  unfold isKilled. by rewrite (ow_flags _ _ (mi_owned _ _ _ (li_inv _ _ _ _ Hi)) i n Hn).
Qed.

Lemma merged_pair m ps dn i n : loop_inv m ps [] dn -> (dfa_nodes (m_output m)).[i] = Some n -> exists p, ps.[i] = Some p /\ valid_pair p.
Proof.
  intros Hi Hn. pose proof (li_inv _ _ _ _ Hi) as Hm. destruct (vec_at_is_Some ps i) as [p Hp].
  { rewrite (mi_length _ _ _ Hm). by eapply vec_at_lt. }
  exists p. split; [done|]. eapply (Forall_forall valid_pair ps); [apply (mi_valid _ _ _ Hm)|by eapply vec_at_elem].
Qed.

Lemma merged_wf m : finished_merge m -> wf_dfa (m_output m).
Proof.
  intros (ps & dn & Hi). pose proof Hi as [Hm _ Hsp Hdn _ _ Hfirst]. cbn in Hsp. rewrite Hsp, Forall_forall in Hdn. split.
  - rewrite (mi_root _ _ _ Hm). by eapply merged_target.
  - intros i n Hn _. destruct (merged_pair m ps dn i n Hi Hn) as (p & Hp & Hv). split.
    + destruct (mi_nodes _ _ _ Hm i p Hp) as (n' & acts & Hn' & Ha & Hin). rewrite Hn in Hn'. injection Hn' as <-. exists acts. split; [done|].
      apply Forall_forall. intros a Hina. apply Hin in Hina as [(x & Hx & Hax)|(x & Hx & Hax)].
      * eapply (live_accepts_small U dfaA HA); [|exact Hax]. by apply Hv.
      * eapply (live_accepts_small U dfaB HB); [|exact Hax]. by apply Hv.
    + destruct (Hdn p) as (j & n' & ts & Hj & Hn' & Hts & Hs & Hall & _); [by eapply vec_at_elem|].
      apply (mi_mapping _ _ _ Hm p _ Hv) in Hj, Hp. assert (j = i) as -> by congruence. rewrite Hn in Hn'. injection Hn' as <-.
      exists ts. split; [done|]. split; [done|]. eapply Forall_impl; [exact Hall|]. intros t (q & Hq). by eapply merged_target.
Qed.

Lemma merged_sizes m : finished_merge m -> vlen (dfa_nodes (m_output m)) < pairs_count.
Proof. intros (ps & dn & Hi). rewrite <- (mi_length _ _ _ (li_inv _ _ _ _ Hi)). apply (merger_bound _ _ _ (li_inv _ _ _ _ Hi)). Qed.

Lemma merged_minimizable m : finished_merge m -> minimizable (m_output m).
Proof.
  intros Hf. pose proof (merged_sizes m Hf). pose proof (merged_wf m Hf). destruct Hf as (ps & dn & Hi).
  eapply owned_minimizable; [done|apply (mi_owned _ _ _ (li_inv _ _ _ _ Hi))|lia].
Qed.

(** The output can be merged again. *)
Lemma merged_mergeable m : finished_merge m -> mergeable U (m_output m).
Proof.
  intros Hf. pose proof (merged_wf m Hf) as Hwf. pose proof (merged_sizes m Hf) as Hsz. destruct Hf as (ps & dn & Hi). pose proof (li_inv _ _ _ _ Hi) as Hm. split.
  - done.
  - intros i n Hn _. destruct (ow_actions _ _ (mi_owned _ _ _ Hm) i n Hn) as (H1' & H2' & H3'). split; [done|]. split; [done|].
    pose proof (mi_acts _ _ _ Hm). pose proof (merger_bound _ _ _ Hm). nia.
  - intros i a (n & Hn & _) Ha. destruct (merged_pair m ps dn i n Hi Hn) as (p & Hp & Hv).
    apply (merged_node m ps dn i p Hi Hp) in Ha. by eapply pair_accepts_in.
  - lia.
Qed.
End Merge.
