(* ===== verification/CombineClaims.v ===== *)
(** * What the combiner guarantees

    The theorems on [DFAMerger::merge] and on [DFACombiner], with a checker for
    their hypotheses and sample DFAs. *)

From stdpp Require Import relations gmap.
From S2P Require Import Prelude DFA HashSet NFAToDFA ConvertCorrect Minimizer SplitNodes MinimizeCorrect MinimizeClaims Combiner MergeCorrect PartitionCorrect SingularRanges.

(** * Combining a list of DFAs

    The DFAs the combiner delivers report together, after every text, the
    actions of the DFAs that were added. *)

(** The DFA has the action after reading the text. *)
Definition reports (dfa : DFA) (w : list Z) (a : Z) : Prop := exists acts, dfa_output dfa (dfa_root dfa) w = Some acts /\ a ∈ acts.

(** No text tells two nodes apart. *)
Definition minimal (dfa : DFA) : Prop :=
  forall x y, live_target dfa x -> live_target dfa y -> (forall w, dfa_output dfa x w = dfa_output dfa y w) -> x = y.

Definition any_reports (dfas : list DFA) (w : list Z) (a : Z) : Prop := exists dfa, dfa ∈ dfas /\ reports dfa w a.

Lemma any_reports_cons dfa dfas w a : any_reports (dfa :: dfas) w a <-> reports dfa w a \/ any_reports dfas w a.
Proof. unfold any_reports. setoid_rewrite elem_of_cons. naive_solver. Qed.

Lemma any_reports_app l1 l2 w a : any_reports (l1 ++ l2) w a <-> any_reports l1 w a \/ any_reports l2 w a.
Proof. unfold any_reports. setoid_rewrite elem_of_app. naive_solver. Qed.

#[export] Instance any_reports_perm : Proper ((≡ₚ) ==> (=) ==> (=) ==> iff) any_reports.
Proof. intros l1 l2 Hl w _ <- a _ <-. unfold any_reports. by setoid_rewrite Hl. Qed.

(** The pairs of nodes of two DFAs, one of them being none, fit the integers of the merger. *)
Definition fits (U : list Z) (a b : DFA) : Prop := 128 * pairs_count a b < 2 ^ 31 /\ pairs_count a b * vlen U < 2 ^ 32.

(** Among the DFAs with at most [N] nodes that are not killed any two do. *)
Definition bounded (U : list Z) (N : Z) : Prop := 128 * ((N + 1) * (N + 1)) < 2 ^ 31 /\ (N + 1) * (N + 1) * vlen U < 2 ^ 32.

Lemma graphSize_nonneg dfa : 0 <= graphSize dfa.
Proof. unfold graphSize, u32, uwrap. apply Z.mod_pos_bound. lia. Qed.

Lemma bounded_fits U N a b : bounded U N -> graphSize a <= N -> graphSize b <= N -> fits U a b.
Proof.
  intros [H1 H2] Ha Hb. pose proof (graphSize_nonneg a). pose proof (graphSize_nonneg b).
  assert (Hp : pairs_count a b <= (N + 1) * (N + 1)) by (unfold pairs_count; nia). unfold fits. nia.
Qed.

Section Combine.
Context {AS : Type} `{HashSetLaws AS} (U : list Z) (order : list (list Z * list Z) -> list (list Z * list Z)) (minimumSize : Z).
Hypothesis HU : Forall (hs_key (T := AS)) U.
Hypothesis HUlen : vlen U <= 65535.
Hypothesis Horder : forall l, order l ≡ₚ l.
Hypothesis Hbounded : bounded U minimumSize.

Lemma minimized dfa :
  minimizable dfa -> mergeable U dfa ->
  exists dfa', minimize order dfa = Some dfa' /\ mergeable U dfa' /\ minimal dfa' /\
    forall w a, reports dfa' w a <-> reports dfa w a.
Proof.
  intros Hmz Hmg. destruct (minimize_reduced dfa order Hmz Horder) as (rep & dfa' & Hm & Hreps & Hred). exists dfa'.
  pose proof (live_kept dfa rep dfa' Hred) as Hkept. split; [done|]. split; [split|split].
  - by apply (reduced_wf dfa rep).
  - intros i n Hn Hk. destruct (Hkept i n Hn Hk) as (_ & _ & Hn'). by apply (mg_slices _ _ Hmg i).
  - intros i a (n & Hn & Hk) (n' & acts & Hn' & Ha & Hin). rewrite Hn in Hn'. injection Hn' as <-.
    destruct (Hkept i n Hn Hk) as (_ & Er & Hn'). destruct (rd_kept _ _ _ Hred i n Hn' Er) as (_ & Ea & _).
    apply (mg_actions _ _ Hmg i); [by exists n|]. exists n, acts. rewrite <- Ea. done.
  - rewrite (rd_length _ _ _ Hred). apply (mg_small _ _ Hmg).
  - intros x y Hx Hy He. by apply (reduced_minimal dfa rep dfa').
  - intros w a. unfold reports. by rewrite (reduced_language dfa rep dfa' Hmz Hreps Hred).
Qed.

Lemma merged_reports a b :
  mergeable U a -> mergeable U b -> fits U a b ->
  exists c, merge (AS := AS) a b newMerger = Some c /\ minimizable c /\ mergeable U c /\ vlen (dfa_nodes c) < pairs_count a b /\
    forall w x, reports c w x <-> reports a w x \/ reports b w x.
Proof.
  intros Ha Hb [Hs Hf].
  destruct (merge_spec a b U Ha Hb HU HUlen Hs Hf) as (m & Hm & Hfin). exists (m_output m). split; [done|].
  split; [by apply (merged_minimizable a b U)|]. split; [by apply (merged_mergeable a b U)|].
  split; [pose proof (merged_sizes a b U Ha Hb m Hfin); lia|]. intros w x. unfold reports. rewrite <- !accepts_output. by apply (merged_language a b U).
Qed.

(** ** The second loop *)

Definition large (dfa : DFA) : Prop := minimumSize < graphSize dfa.

(** Two DFAs are merged; the result is minimized when it is delivered or the last. *)
Definition merge_turn (a b : DFA) (m_dfas : list DFA) : option DFA :=
  c ← merge (AS := AS) a b newMerger;
  if (minimumSize <? graphSize c) || bool_decide (m_dfas = []) then minimize order c else Some c.

Lemma combine_pairs_cons fuel a b m_dfas :
  combine_pairs (AS := AS) order (S fuel) minimumSize (a :: b :: m_dfas) =
  (c ← merge_turn a b m_dfas;
   if minimumSize <? graphSize c then delivered ← combine_pairs (AS := AS) order fuel minimumSize m_dfas; Some (c :: delivered)
   else combine_pairs (AS := AS) order fuel minimumSize (c :: m_dfas)).
Proof. cbn [combine_pairs]. unfold merge_turn. by destruct (merge a b newMerger). Qed.

Lemma merge_turn_spec a b m_dfas :
  mergeable U a -> mergeable U b -> fits U a b ->
  exists c, merge_turn a b m_dfas = Some c /\ mergeable U c /\ (large c \/ m_dfas = [] -> minimal c) /\
    forall w x, reports c w x <-> reports a w x \/ reports b w x.
Proof.
  intros Ha Hb Hf. destruct (merged_reports a b Ha Hb Hf) as (c & Hc & Hmz & Hmg & Hsz & Hr). unfold merge_turn. rewrite Hc, option_bind_Some.
  destruct ((minimumSize <? graphSize c) || bool_decide (m_dfas = [])) eqn:Ecase.
  - destruct (minimized c Hmz Hmg) as (c' & Hc' & Hmg' & Hmin & Hr'). exists c'. split; [done|]. split; [done|]. split; [done|].
    intros w x. by rewrite Hr', Hr.
  - exists c. split; [done|]. split; [done|]. split; [|done]. apply orb_false_iff in Ecase as [Hl%Z.ltb_ge Hne%bool_decide_eq_false].
    unfold large. intros [?|?]; [lia|done].
Qed.

(** Every DFA but the first is minimal; the first is when it is alone. *)
Definition stack_minimal (m_dfas : list DFA) : Prop := Forall minimal (tail m_dfas) /\ (tail m_dfas = [] -> Forall minimal m_dfas).

Record delivers (m_dfas out : list DFA) : Prop := {
  dl_mergeable : Forall (mergeable U) out;
  dl_minimal : Forall minimal out;
  dl_large : Forall large (removelast out);
  dl_reports : forall w a, any_reports out w a <-> any_reports m_dfas w a
}.

Lemma combine_pairs_spec fuel : forall m_dfas,
  Forall (mergeable U) m_dfas -> stack_minimal m_dfas -> Forall (fun dfa => graphSize dfa <= minimumSize) m_dfas -> (length m_dfas <= fuel)%nat ->
  exists out, combine_pairs (AS := AS) order fuel minimumSize m_dfas = Some out /\ delivers m_dfas out.
Proof.
  induction fuel as [|fuel IH]; intros [|a [|b rest]] Hmg [Hmin Hone] Hf Hfuel; cbn [length] in Hfuel; try lia.
  1,2: by exists []. { exists [a]. split; [done|]. split; [done|by apply Hone|constructor|done]. }
  apply Forall_cons in Hmg as [Ha [Hb Hrest]%Forall_cons]. cbn [tail] in Hmin. apply Forall_cons in Hmin as [_ Hmin].
  apply Forall_cons in Hf as [Hfa [Hfb Hf]%Forall_cons].
  destruct (merge_turn_spec a b rest Ha Hb) as (c & Hc & Hcm & Hcmin & Hr); [by apply (bounded_fits U minimumSize)|].
  rewrite combine_pairs_cons, Hc, option_bind_Some.
  assert (Hreps : forall out w x, (any_reports out w x <-> reports c w x \/ any_reports rest w x) <-> (any_reports out w x <-> any_reports (a :: b :: rest) w x)).
  { intros out w x. rewrite !any_reports_cons, Hr. tauto. }
  destruct (Z.ltb_spec minimumSize (graphSize c)) as [Hl|Hl].
  - destruct (IH rest) as (out & -> & [Hom Homin Hol Hor]); [done| |done|lia|].
    + split; [by destruct Hmin|]. by intros _.
    + rewrite option_bind_Some. eexists. split; [reflexivity|]. split; [by constructor|constructor; [by apply Hcmin; left|done]| |].
      * destruct out; [constructor|]. by constructor.
      * intros w x. apply Hreps. by rewrite any_reports_cons, Hor.
  - destruct (IH (c :: rest)) as (out & -> & [Hom Homin Hol Hor]); [by constructor| |by constructor|cbn; lia|].
    + split; [done|]. cbn. intros ->. constructor; [by apply Hcmin; right|done].
    + exists out. split; [done|]. split; try done. intros w x. apply Hreps. by rewrite Hor, any_reports_cons.
Qed.

(** ** The first loop *)

Lemma deliver_large_spec m_dfas :
  deliver_large minimumSize m_dfas =
    (filter (fun dfa => (minimumSize <? graphSize dfa) = false) m_dfas, rev (filter (fun dfa => (minimumSize <? graphSize dfa) = true) m_dfas)).
Proof.
  unfold deliver_large. induction m_dfas as [|d l IH]; [done|]. cbn [foldr]. rewrite IH. cbn [fst snd].
  rewrite !filter_cons. destruct (minimumSize <? graphSize d).
  - by rewrite decide_False, decide_True by done.
  - by rewrite decide_True, decide_False by done.
Qed.

Lemma split_large m_dfas :
  exists smalls larges, deliver_large minimumSize m_dfas = (smalls, larges) /\ larges ++ rev smalls ≡ₚ m_dfas /\ Forall large larges /\ Forall (fun dfa => graphSize dfa <= minimumSize) smalls.
Proof.
  rewrite deliver_large_spec. eexists _, _. split; [reflexivity|]. split; [|split].
  - rewrite <- !Permutation_rev. induction m_dfas as [|d l IH]; [done|]. rewrite !filter_cons. destruct (minimumSize <? graphSize d).
    + rewrite decide_True, decide_False by done. cbn. by rewrite IH.
    + rewrite decide_False, decide_True by done. by rewrite <- Permutation_middle, IH.
  - apply Forall_forall. intros d Hd. rewrite <- Permutation_rev in Hd. apply list_elem_of_filter in Hd as [Hd _]. bprop. done.
  - apply Forall_forall. intros d Hd. apply list_elem_of_filter in Hd as [Hd _]. bprop. lia.
Qed.

Lemma removelast_Forall {X} (P : X -> Prop) l : Forall P l -> Forall P (removelast l).
Proof. induction 1 as [|x l Hx Hl IH]; cbn; [constructor|]. destruct l; by constructor. Qed.

Lemma combineDFAs_spec m_dfas :
  Forall (mergeable U) m_dfas -> Forall minimal m_dfas ->
  exists out, combineDFAs (AS := AS) order minimumSize m_dfas = Some out /\ delivers m_dfas out.
Proof.
  intros Hmg Hmin. destruct (split_large m_dfas) as (smalls & larges & E & Hp & Hl & Hsm). unfold combineDFAs. rewrite E.
  rewrite <- Hp in Hmg, Hmin. apply Forall_app in Hmg as [Hmg1 Hmg2], Hmin as [Hmin1 Hmin2].
  destruct (combine_pairs_spec (length smalls) (rev smalls)) as (out & -> & [Hom Homin Hol Hor]); [done| | |by rewrite length_rev|].
  - split; [destruct Hmin2; [constructor|done]|done].
  - eapply Forall_forall. intros d Hd. rewrite <- Permutation_rev in Hd. rewrite Forall_forall in Hsm. by apply Hsm.
  - rewrite option_bind_Some. eexists. split; [reflexivity|]. split.
    + by apply Forall_app.
    + by apply Forall_app.
    + destruct out; [rewrite app_nil_r; by apply removelast_Forall|]. rewrite removelast_app by done. by apply Forall_app.
    + intros w a. by rewrite <- Hp, !any_reports_app, Hor.
Qed.
End Combine.

(** ** Adding DFAs *)

Lemma addDFAs_spec U order added : forall m_dfas,
  (forall l, order l ≡ₚ l) -> Forall minimizable added -> Forall (mergeable U) added ->
  exists new, foldM (addDFA order) m_dfas added = Some (m_dfas ++ new) /\ Forall (mergeable U) new /\ Forall minimal new /\
    forall w a, any_reports new w a <-> any_reports added w a.
Proof.
  induction added as [|d added IH]; intros m_dfas Ho Hmz Hmg.
  - exists []. rewrite foldM_nil, app_nil_r. done.
  - apply Forall_cons in Hmz as [Hd Hmz], Hmg as [Hdm Hmg]. destruct (minimized U order Ho d Hd Hdm) as (d' & Hm & Hg & Hmin & Hr).
    destruct (IH (m_dfas ++ [d']) Ho Hmz Hmg) as (new & Hf & Hgs & Hmins & Hrs). exists (d' :: new).
    assert (Ha : addDFA order m_dfas d = Some (m_dfas ++ [d'])) by (unfold addDFA; by rewrite Hm).
    rewrite foldM_cons, Ha, option_bind_Some, Hf, <- (assoc_L (++)). split; [done|].
    split; [by constructor|]. split; [by constructor|]. intros w a. by rewrite !any_reports_cons, Hr, Hrs.
Qed.

(** ** Checking the hypotheses on a concrete DFA *)

Definition mergeable_nodeb (U : list Z) (dfa : DFA) (n : DFANode) : bool :=
  (0 <=? m_actionsStart n) && (0 <=? m_actionsLength n) && (m_actionsStart n + m_actionsLength n <? 2 ^ 32) &&
  match node_actions dfa n with Some acts => forallb (fun a => bool_decide (a ∈ U)) acts | None => true end.

Lemma mergeableb_sound U dfa : minimizableb dfa = true -> forallb (mergeable_nodeb U dfa) (dfa_nodes dfa) = true -> minimizable dfa /\ mergeable U dfa.
Proof.
  intros Hmz%minimizableb_sound Hall. split; [done|]. rewrite forallb_forall in Hall.
  assert (Hn : forall i n, (dfa_nodes dfa).[i] = Some n -> mergeable_nodeb U dfa n = true) by (intros i n Hi%vec_at_elem; by apply Hall, list_elem_of_In).
  unfold mergeable_nodeb in Hn. split.
  - apply Hmz.
  - intros i n Hi _. specialize (Hn i n Hi). bprop. lia.
  - intros i a _ (n & acts & Hi & Ha & Hin). specialize (Hn i n Hi). rewrite Ha in Hn. bprop.
    match goal with H : forallb _ acts = true |- _ => rewrite forallb_forall in H; specialize (H a (proj1 (list_elem_of_In _ _) Hin)); by apply bool_decide_eq_true in H end.
  - pose proof (mz_small _ Hmz). lia.
Qed.

(** ** The theorems *)

(** Merging two well-formed DFAs returns, within one turn of its loop for
    every pair of their nodes.  The result is well formed, has fewer nodes than
    there are pairs of nodes that are not killed (a half may be missing), and
    has after every text exactly the actions that one of the two DFAs has. *)
Theorem merge_correct (AS : Type) `{HashSetLaws AS} (U : list Z) a b :
  Forall (hs_key (T := AS)) U -> vlen U <= 65535 -> mergeable U a -> mergeable U b -> fits U a b ->
  exists c, merge (AS := AS) a b newMerger = Some c /\ wf_dfa c /\
    vlen (dfa_nodes c) < (graphSize a + 1) * (graphSize b + 1) /\
    forall w x, reports c w x <-> reports a w x \/ reports b w x.
Proof.
  intros HU Hl Ha Hb Hf. destruct (merged_reports U HU Hl a b Ha Hb Hf) as (c & Hc & _ & Hm & Hsz & Hr). exists c.
  split; [done|]. split; [apply Hm|]. split; [exact Hsz|done].
Qed.

(** C39: adding any number of DFAs and combining them returns: only pairs of
    DFAs that are not larger than the minimum are ever merged.  The DFAs the handler is called
    with are well formed and minimal, all but the last have more nodes than the
    minimum, and together they have, after every text, exactly the actions that
    one of the added DFAs has. *)
Theorem combineDFAs_correct (AS : Type) `{HashSetLaws AS} (U : list Z) order minimumSize added :
  Forall (hs_key (T := AS)) U -> vlen U <= 65535 -> (forall l, order l ≡ₚ l) ->
  Forall minimizable added -> Forall (mergeable U) added -> bounded U minimumSize ->
  exists m_dfas out, foldM (addDFA order) [] added = Some m_dfas /\ combineDFAs (AS := AS) order minimumSize m_dfas = Some out /\
    Forall wf_dfa out /\ Forall minimal out /\ Forall (fun dfa => minimumSize < graphSize dfa) (removelast out) /\
    forall w a, any_reports out w a <-> any_reports added w a.
Proof.
  intros HU Hl Ho Hmz Hmg Hf. destruct (addDFAs_spec U order added [] Ho Hmz Hmg) as (new & Hnew & Hg & Hmin & Hr).
  destruct (combineDFAs_spec U order minimumSize HU Hl Ho Hf new Hg Hmin) as (out & Hout & [Hom Homin Hol Hor]).
  exists new, out. split; [exact Hnew|]. split; [done|]. split; [eapply Forall_impl; [exact Hom|]; apply mg_wf|]. split; [done|]. split; [done|].
  intros w a. by rewrite Hor, Hr.
Qed.

(** ** Samples *)

Module CombineExample.
Import InsertionOrder.

(** One character or another leads to a node with an action. *)
Definition word (c a : Z) : DFA := mkDFA [mkDFANode 0 0 0 1 0; mkDFANode 0 1 1 0 0] [a] [mkCharRange c c] [1] 0.
Definition upto_z (c a : Z) : DFA := mkDFA [mkDFANode 0 0 0 1 0; mkDFANode 0 1 1 1 0] [a] [mkCharRange c 122; mkCharRange 33 99] [1; 0] 0.

Definition samples : list DFA := [word 97 1; upto_z 98 2; word 97 3].

(** The pair of the roots, and the three pairs its characters lead to. *)
Example merge_sample :
  merge (AS := OrderedSet) (word 97 1) (upto_z 97 2) newMerger =
  Some (mkDFA [mkDFANode 0 0 0 2 0; mkDFANode 0 4 2 1 0; mkDFANode 2 2 1 1 0; mkDFANode 3 3 0 1 0] [1; 2; 2]
    [mkCharRange 97 97; mkCharRange 98 122; mkCharRange 33 99; mkCharRange 97 122; mkCharRange 33 99] [1; 2; 3; 2; 3] 0).
Proof. vm_compute. reflexivity. Qed.

Example combine_sample :
  (fun out => map graphSize out) <$> (m_dfas ← foldM (addDFA id) [] samples; combineDFAs (AS := OrderedSet) id 3 m_dfas) = Some [4; 2].
Proof. vm_compute. reflexivity. Qed.

Lemma samples_ok : Forall minimizable samples /\ Forall (mergeable [1; 2; 3]) samples.
Proof.
  assert (Hall : Forall (fun dfa => minimizable dfa /\ mergeable [1; 2; 3] dfa) samples).
  { repeat (apply List.Forall_cons; [apply mergeableb_sound; vm_compute; reflexivity|]). apply List.Forall_nil. }
  split; (eapply Forall_impl; [exact Hall|]; intros dfa [Hd1 Hd2]; assumption).
Qed.

Lemma merge_correct_witness :
  exists c, merge (AS := OrderedSet) (word 97 1) (upto_z 97 2) newMerger = Some c /\ wf_dfa c /\
    vlen (dfa_nodes c) < (2 + 1) * (2 + 1) /\ forall w x, reports c w x <-> reports (word 97 1) w x \/ reports (upto_z 97 2) w x.
Proof.
  apply (merge_correct OrderedSet [1; 2] (word 97 1) (upto_z 97 2)).
  - repeat (apply List.Forall_cons; [split; vm_compute; congruence|]). apply List.Forall_nil.
  - vm_compute. congruence.
  - apply mergeableb_sound; vm_compute; reflexivity.
  - apply mergeableb_sound; vm_compute; reflexivity.
  - split; vm_compute; reflexivity.
Defined.

Lemma combineDFAs_correct_witness :
  exists m_dfas out, foldM (addDFA id) [] samples = Some m_dfas /\ combineDFAs (AS := OrderedSet) id 3 m_dfas = Some out /\
    Forall wf_dfa out /\ Forall minimal out /\ Forall (fun dfa => 3 < graphSize dfa) (removelast out) /\
    forall w a, any_reports out w a <-> any_reports samples w a.
Proof.
  apply (combineDFAs_correct OrderedSet [1; 2; 3] id 3 samples).
  - repeat (apply List.Forall_cons; [split; vm_compute; congruence|]). apply List.Forall_nil.
  - vm_compute. congruence.
  - intros l. reflexivity.
  - exact (proj1 samples_ok).
  - exact (proj2 samples_ok).
  - split; vm_compute; reflexivity.
Defined.
End CombineExample.
