(* ===== verification/Yarr.v ===== *)
(** * The regular expression parser (yarr/YarrParser.h)

    The parser reads a pattern and reports what it finds to a delegate.  It
    calls the delegate through an interface, so it is modelled for any type of
    delegates; a call may abort ([None]).

    The parser's position is the part of the pattern that is left: saving and
    restoring the position is keeping it.  A read past the end is an abort. *)

From S2P Require Import Prelude DFA.

(** ** Characters (wtf/ASCIICType.h) *)

Definition isASCIIDigit (c : Z) : bool := (48 <=? c) && (c <=? 57).
Definition isASCIIAlphanumeric (c : Z) : bool := isASCIIDigit c || isASCIIAlpha c.
Definition isASCIIHexDigit (c : Z) : bool := isASCIIDigit c || ((97 <=? Z.lor c 32) && (Z.lor c 32 <=? 102)).
Definition isASCIIOctalDigit (c : Z) : bool := (48 <=? c) && (c <=? 55).
Definition toASCIIHexValue (c : Z) : Z := if c <? 65 then c - 48 else Z.land (c - 65 + 10) 15.

(** ** The interface of delegates *)

Inductive BuiltInCharacterClassID := DigitClassID | SpaceClassID | WordClassID | NewlineClassID.

Class Delegate (D : Type) := {
  assertionBOL : D -> option D;
  assertionEOL : D -> option D;
  assertionWordBoundary : D -> bool -> option D;
  atomPatternCharacter : D -> Z -> option D;
  atomBuiltInCharacterClass : D -> BuiltInCharacterClassID -> bool -> option D;
  atomCharacterClassBegin : D -> bool -> option D;
  atomCharacterClassAtom : D -> Z -> option D;
  atomCharacterClassRange : D -> Z -> Z -> option D;
  atomCharacterClassBuiltIn : D -> BuiltInCharacterClassID -> bool -> option D;
  atomCharacterClassEnd : D -> option D;
  atomParenthesesSubpatternBegin : D -> bool -> option D;
  atomParentheticalAssertionBegin : D -> bool -> option D;
  atomParenthesesEnd : D -> option D;
  atomBackReference : D -> Z -> option D;
  quantifyAtom : D -> Z -> Z -> bool -> option D;
  disjunction : D -> option D
}.

Definition quantifyInfinite : Z := uint32_max.

Inductive ErrorCode :=
| NoError
| PatternTooLarge
| QuantifierOutOfOrder
| QuantifierWithoutAtom
| QuantifierTooLarge
| MissingParentheses
| ParenthesesUnmatched
| ParenthesesTypeInvalid
| CharacterClassUnmatched
| CharacterClassOutOfOrder
| EscapeUnterminated.

#[export] Instance ErrorCode_eq_dec : EqDecision ErrorCode.
Proof. solve_decision. Defined.

(** ** Reading the pattern *)

Definition tryConsume (ch : Z) (rest : list Z) : bool * list Z :=
  match rest with
  | c :: rest' => if c =? ch then (true, rest') else (false, rest)
  | [] => (false, rest)
  end.

Definition peekIsDigit (rest : list Z) : bool := match rest with c :: _ => isASCIIDigit c | [] => false end.

(** The loop of [consumeNumber] stops before a digit that would overflow. *)
Fixpoint number_loop (n : Z) (rest : list Z) : Z * list Z :=
  match rest with
  | c :: rest' =>
      if isASCIIDigit c then
        let newValue := u32 (n * 10 + (c - 48)) in
        if n <=? newValue then number_loop newValue rest' else (n, rest)
      else (n, rest)
  | [] => (n, rest)
  end.

Definition consumeNumber (rest : list Z) : option (Z * list Z) :=
  match rest with
  | c :: rest => Some (number_loop (u32 (c - 48)) rest)
  | [] => None
  end.

Fixpoint octal_loop (n : Z) (rest : list Z) : Z * list Z :=
  match rest with
  | c :: rest' => if (n <? 32) && isASCIIOctalDigit c then octal_loop (n * 8 + (c - 48)) rest' else (n, rest)
  | [] => (n, rest)
  end.

Definition consumeOctal (rest : list Z) : option (Z * list Z) :=
  match rest with
  | c :: rest => Some (octal_loop (u32 (c - 48)) rest)
  | [] => None
  end.

(** Without [count] hexadecimal digits the position is restored by the caller. *)
Fixpoint hex_loop (count : nat) (n : Z) (rest : list Z) : option (Z * list Z) :=
  match count with
  | O => Some (n, rest)
  | S count =>
      match rest with
      | c :: rest => if isASCIIHexDigit c then hex_loop count (Z.lor (Z.shiftl n 4) (toASCIIHexValue c)) rest else None
      | [] => None
      end
  end.

Definition tryConsumeHex (count : nat) (rest : list Z) : Z * list Z := default (-1, rest) (hex_loop count 0 rest).

(** ** Escapes *)

(** What [parseEscape] needs of a delegate. *)
Record EscapeDelegate (E : Type) := {
  ed_atomPatternCharacter : E -> Z -> option E;
  ed_atomBuiltInCharacterClass : E -> BuiltInCharacterClassID -> bool -> option E;
  ed_assertionWordBoundary : E -> bool -> option E;
  ed_atomBackReference : E -> Z -> option E
}.
Arguments ed_atomPatternCharacter {E}.
Arguments ed_atomBuiltInCharacterClass {E}.
Arguments ed_assertionWordBoundary {E}.
Arguments ed_atomBackReference {E}.

Section Escape.
Context {E : Type} (ed : EscapeDelegate E) (inCharacterClass : bool) (m_backReferenceLimit : Z).

(** The result of an escape: the delegate, the rest, an error, and if the token was an atom. *)
Definition escape_result : Type := E * list Z * ErrorCode * bool.

Definition escape_atom (e : option E) (rest : list Z) : option escape_result := e ← e; Some (e, rest, NoError, true).

Definition escape_character (delegate : E) (ch : Z) (rest : list Z) : option escape_result :=
  escape_atom (ed_atomPatternCharacter ed delegate ch) rest.

Definition escape_class (delegate : E) (id : BuiltInCharacterClassID) (invert : bool) (rest : list Z) : option escape_result :=
  escape_atom (ed_atomBuiltInCharacterClass ed delegate id invert) rest.

Definition escape_boundary (delegate : E) (invert : bool) (rest : list Z) : option escape_result :=
  e ← ed_assertionWordBoundary ed delegate invert; Some (e, rest, NoError, false).

Definition escape_octal (delegate : E) (rest : list Z) : option escape_result :=
  '(n, rest) ← consumeOctal rest; escape_character delegate n rest.

(** Digits from 1 to 9, [first] being the next one: a back reference, or else an octal escape. *)
Definition escape_decimal (delegate : E) (first : Z) (rest : list Z) : option escape_result :=
  '(backReference, after) ← consumeNumber rest;
  if negb inCharacterClass && (backReference <=? m_backReferenceLimit)
  then escape_atom (ed_atomBackReference ed delegate backReference) after
  else if 56 <=? first then escape_character delegate 92 rest
  else escape_octal delegate rest.

(** After the letter c. *)
Definition escape_control (delegate : E) (state rest : list Z) : option escape_result :=
  match rest with
  | control :: rest =>
      if (if inCharacterClass then isASCIIAlphanumeric control || (control =? 95) else isASCIIAlpha control)
      then escape_character delegate (Z.land control 31) rest
      else escape_character delegate 92 state
  | [] => escape_character delegate 92 state
  end.

Definition escape_hex (delegate : E) (count : nat) (letter : Z) (rest : list Z) : option escape_result :=
  let '(x, rest) := tryConsumeHex count rest in
  escape_character delegate (if x =? -1 then letter else x) rest.

(** [parseEscape], with the backslash consumed. *)
Definition parseEscape (delegate : E) (rest : list Z) : option escape_result :=
  match rest with
  | [] => Some (delegate, [], EscapeUnterminated, false)
  | c :: after =>
      if c =? 98 then if inCharacterClass then escape_character delegate 8 after else escape_boundary delegate false after
      else if c =? 66 then if inCharacterClass then escape_character delegate 66 after else escape_boundary delegate true after
      else if c =? 100 then escape_class delegate DigitClassID false after
      else if c =? 115 then escape_class delegate SpaceClassID false after
      else if c =? 119 then escape_class delegate WordClassID false after
      else if c =? 68 then escape_class delegate DigitClassID true after
      else if c =? 83 then escape_class delegate SpaceClassID true after
      else if c =? 87 then escape_class delegate WordClassID true after
      else if (49 <=? c) && (c <=? 57) then escape_decimal delegate c rest
      else if c =? 48 then escape_octal delegate rest
      else if c =? 102 then escape_character delegate 12 after
      else if c =? 110 then escape_character delegate 10 after
      else if c =? 114 then escape_character delegate 13 after
      else if c =? 116 then escape_character delegate 9 after
      else if c =? 118 then escape_character delegate 11 after
      else if c =? 99 then escape_control delegate rest after
      else if c =? 120 then escape_hex delegate 2 120 after
      else if c =? 117 then escape_hex delegate 4 117 after
      else escape_character delegate c after
  end.
End Escape.

(** ** Character classes *)

Inductive CharacterClassConstructionState :=
| ClassEmpty
| CachedCharacter
| CachedCharacterHyphen
| AfterCharacterClass
| AfterCharacterClassHyphen.

Section Parser.
Context {D : Type} `{Delegate D}.

(** The delegate and the error code are references to the parser's. *)
Record CharacterClassParserDelegate := mkClass {
  cc_delegate : D;
  cc_err : ErrorCode;
  cc_state : CharacterClassConstructionState;
  m_character : Z
}.

Definition with_class_state (s : CharacterClassParserDelegate) (d : D) (state : CharacterClassConstructionState) : CharacterClassParserDelegate :=
  mkClass d (cc_err s) state (m_character s).

Definition cacheCharacter (s : CharacterClassParserDelegate) (d : D) (ch : Z) : CharacterClassParserDelegate :=
  mkClass d (cc_err s) CachedCharacter ch.

Definition class_atomPatternCharacter (s : CharacterClassParserDelegate) (ch : Z) (hyphenIsRange : bool) : option CharacterClassParserDelegate :=
  match cc_state s with
  | AfterCharacterClass =>
      if hyphenIsRange && (ch =? 45) then d ← atomCharacterClassAtom (cc_delegate s) 45; Some (with_class_state s d AfterCharacterClassHyphen)
      else Some (cacheCharacter s (cc_delegate s) ch)
  | ClassEmpty => Some (cacheCharacter s (cc_delegate s) ch)
  | CachedCharacter =>
      if hyphenIsRange && (ch =? 45) then Some (with_class_state s (cc_delegate s) CachedCharacterHyphen)
      else d ← atomCharacterClassAtom (cc_delegate s) (m_character s); Some (cacheCharacter s d ch)
  | CachedCharacterHyphen =>
      if ch <? m_character s then Some (mkClass (cc_delegate s) CharacterClassOutOfOrder (cc_state s) (m_character s))
      else d ← atomCharacterClassRange (cc_delegate s) (m_character s) ch; Some (with_class_state s d ClassEmpty)
  | AfterCharacterClassHyphen => d ← atomCharacterClassAtom (cc_delegate s) ch; Some (with_class_state s d ClassEmpty)
  end.

Definition class_atomBuiltInCharacterClass (s : CharacterClassParserDelegate) (classID : BuiltInCharacterClassID) (invert : bool)
    : option CharacterClassParserDelegate :=
  match cc_state s with
  | CachedCharacter =>
      d ← atomCharacterClassAtom (cc_delegate s) (m_character s);
      d ← atomCharacterClassBuiltIn d classID invert;
      Some (with_class_state s d AfterCharacterClass)
  | ClassEmpty | AfterCharacterClass =>
      d ← atomCharacterClassBuiltIn (cc_delegate s) classID invert;
      Some (with_class_state s d AfterCharacterClass)
  | CachedCharacterHyphen =>
      d ← atomCharacterClassAtom (cc_delegate s) (m_character s);
      d ← atomCharacterClassAtom d 45;
      d ← atomCharacterClassBuiltIn d classID invert;
      Some (with_class_state s d ClassEmpty)
  | AfterCharacterClassHyphen =>
      d ← atomCharacterClassBuiltIn (cc_delegate s) classID invert;
      Some (with_class_state s d ClassEmpty)
  end.

(** [end]: the character that was kept back. *)
Definition class_end (s : CharacterClassParserDelegate) : option D :=
  d ← match cc_state s with
      | CachedCharacter => atomCharacterClassAtom (cc_delegate s) (m_character s)
      | CachedCharacterHyphen => d ← atomCharacterClassAtom (cc_delegate s) (m_character s); atomCharacterClassAtom d 45
      | _ => Some (cc_delegate s)
      end;
  atomCharacterClassEnd d.

(** [RELEASE_ASSERT_NOT_REACHED] for what has no meaning in a class. *)
Definition classEscapes : EscapeDelegate CharacterClassParserDelegate := {|
  ed_atomPatternCharacter s ch := class_atomPatternCharacter s ch false;
  ed_atomBuiltInCharacterClass := class_atomBuiltInCharacterClass;
  ed_assertionWordBoundary _ _ := None;
  ed_atomBackReference _ _ := None
|}.

Definition atomEscapes : EscapeDelegate D := {|
  ed_atomPatternCharacter := atomPatternCharacter;
  ed_atomBuiltInCharacterClass := atomBuiltInCharacterClass;
  ed_assertionWordBoundary := assertionWordBoundary;
  ed_atomBackReference := atomBackReference
|}.

(** ** The parser *)

(** The members that change. *)
Record Parser := mkParser {
  m_delegate : D;
  m_err : ErrorCode;
  m_rest : list Z;
  m_parenthesesNestingDepth : Z
}.

Definition at_rest (p : Parser) (d : D) (rest : list Z) : Parser := mkParser d (m_err p) rest (m_parenthesesNestingDepth p).
Definition with_err (p : Parser) (err : ErrorCode) : Parser := mkParser (m_delegate p) err (m_rest p) (m_parenthesesNestingDepth p).

Variable m_backReferenceLimit : Z.

(** The loop of [parseCharacterClass]: every turn consumes a character. *)
Fixpoint class_loop (fuel : nat) (p : Parser) (s : CharacterClassParserDelegate) (rest : list Z) : option Parser :=
  match fuel with
  | O => None
  | S fuel =>
      match rest with
      | [] => Some (mkParser (cc_delegate s) CharacterClassUnmatched [] (m_parenthesesNestingDepth p))
      | c :: rest =>
          if c =? 93 then d ← class_end s; Some (at_rest p d rest)
          else
            '(s, rest) ← (if c =? 92 then '(s, rest, err, _) ← parseEscape classEscapes true m_backReferenceLimit s rest;
                                          Some (if decide (err = NoError) then s else mkClass (cc_delegate s) err (cc_state s) (m_character s), rest)
                          else s ← class_atomPatternCharacter s c true; Some (s, rest));
            if decide (cc_err s = NoError) then class_loop fuel p s rest
            else Some (mkParser (cc_delegate s) (cc_err s) rest (m_parenthesesNestingDepth p))
      end
  end.

(** After the opening bracket. *)
Definition parseCharacterClass (p : Parser) (rest : list Z) : option Parser :=
  let '(invert, rest) := tryConsume 94 rest in
  d ← atomCharacterClassBegin (m_delegate p) invert;
  class_loop (S (length rest)) p (mkClass d NoError ClassEmpty 0) rest.

(** After the opening parenthesis. *)
Definition parseParenthesesBegin (p : Parser) (rest : list Z) : option Parser :=
  let '(special, rest) := tryConsume 63 rest in
  if special : bool then
    match rest with
    | [] => Some (mkParser (m_delegate p) ParenthesesTypeInvalid [] (m_parenthesesNestingDepth p))
    | c :: rest =>
        '(d, err) ← (if c =? 58 then d ← atomParenthesesSubpatternBegin (m_delegate p) false; Some (d, m_err p)
                     else if c =? 61 then d ← atomParentheticalAssertionBegin (m_delegate p) false; Some (d, m_err p)
                     else if c =? 33 then d ← atomParentheticalAssertionBegin (m_delegate p) true; Some (d, m_err p)
                     else Some (m_delegate p, ParenthesesTypeInvalid));
        Some (mkParser d err rest (u32 (m_parenthesesNestingDepth p + 1)))
    end
  else
    d ← atomParenthesesSubpatternBegin (m_delegate p) true;
    Some (mkParser d (m_err p) rest (u32 (m_parenthesesNestingDepth p + 1))).

Definition parseParenthesesEnd (p : Parser) (rest : list Z) : option Parser :=
  let depth := u32 (m_parenthesesNestingDepth p - 1) in
  if 0 <? m_parenthesesNestingDepth p then d ← atomParenthesesEnd (m_delegate p); Some (mkParser d (m_err p) rest depth)
  else Some (mkParser (m_delegate p) ParenthesesUnmatched rest depth).

Definition parseQuantifier (p : Parser) (rest : list Z) (lastTokenWasAnAtom : bool) (min max : Z) : option Parser :=
  if min =? uint32_max then Some (with_err (at_rest p (m_delegate p) rest) QuantifierTooLarge)
  else if lastTokenWasAnAtom then
    let '(lazy, rest) := tryConsume 63 rest in
    d ← quantifyAtom (m_delegate p) min max (negb lazy); Some (at_rest p d rest)
  else Some (with_err (at_rest p (m_delegate p) rest) QuantifierWithoutAtom).

(** After an opening brace: a quantifier, or [None] if the brace is a character. *)
Definition braces (rest : list Z) : option (Z * Z * list Z) :=
  if peekIsDigit rest then
    '(min, rest) ← consumeNumber rest;
    let '(comma, rest) := tryConsume 44 rest in
    '(max, rest) ← (if comma : bool then (if peekIsDigit rest then consumeNumber rest else Some (quantifyInfinite, rest)) else Some (min, rest));
    let '(closed, rest) := tryConsume 125 rest in
    if closed : bool then Some (min, max, rest) else None
  else None.

(** One token: the parser after it and if it was an atom. *)
Definition parse_token (p : Parser) (c : Z) (rest : list Z) (lastTokenWasAnAtom : bool) : option (Parser * bool) :=
  let character := d ← atomPatternCharacter (m_delegate p) c; Some (at_rest p d rest, true) in
  if c =? 124 then d ← disjunction (m_delegate p); Some (at_rest p d rest, false)
  else if c =? 40 then p ← parseParenthesesBegin p rest; Some (p, false)
  else if c =? 41 then p ← parseParenthesesEnd p rest; Some (p, true)
  else if c =? 94 then d ← assertionBOL (m_delegate p); Some (at_rest p d rest, false)
  else if c =? 36 then d ← assertionEOL (m_delegate p); Some (at_rest p d rest, false)
  else if c =? 46 then d ← atomBuiltInCharacterClass (m_delegate p) NewlineClassID true; Some (at_rest p d rest, true)
  else if c =? 91 then p ← parseCharacterClass p rest; Some (p, true)
  else if c =? 92 then
    '(d, rest, err, atom) ← parseEscape atomEscapes false m_backReferenceLimit (m_delegate p) rest;
    Some (mkParser d err rest (m_parenthesesNestingDepth p), atom)
  else if c =? 42 then p ← parseQuantifier p rest lastTokenWasAnAtom 0 quantifyInfinite; Some (p, false)
  else if c =? 43 then p ← parseQuantifier p rest lastTokenWasAnAtom 1 quantifyInfinite; Some (p, false)
  else if c =? 63 then p ← parseQuantifier p rest lastTokenWasAnAtom 0 1; Some (p, false)
  else if c =? 123 then
    match braces rest with
    | Some (min, max, rest) =>
        if min <=? max then p ← parseQuantifier p rest lastTokenWasAnAtom min max; Some (p, false)
        else Some (with_err (at_rest p (m_delegate p) rest) QuantifierOutOfOrder, false)
    | None => character
    end
  else character.

(** [parseTokens]: every token consumes a character. *)
Fixpoint parse_tokens (fuel : nat) (p : Parser) (lastTokenWasAnAtom : bool) : option Parser :=
  match fuel with
  | O => None
  | S fuel =>
      match m_rest p with
      | [] => Some (if 0 <? m_parenthesesNestingDepth p then with_err p MissingParentheses else p)
      | c :: rest =>
          '(p, atom) ← parse_token p c rest lastTokenWasAnAtom;
          if decide (m_err p = NoError) then parse_tokens fuel p atom else Some p
      end
  end.

Definition MAX_PATTERN_SIZE : Z := 1024 * 1024.

(** [Yarr::parse]: the delegate after the calls, and the error. *)
Definition parse (delegate : D) (pattern : list Z) : option (D * ErrorCode) :=
  if MAX_PATTERN_SIZE <? vlen pattern then Some (delegate, PatternTooLarge) else
  p ← parse_tokens (S (length pattern)) (mkParser delegate NoError pattern 0) false;
  Some (m_delegate p, m_err p).
End Parser.
Arguments CharacterClassParserDelegate : clear implicits.
Arguments Parser : clear implicits.
