(* ===== verification/CombinedURLFilters.v ===== *)
(** * The prefix tree of patterns (CombinedURLFilters.h/.cpp, CombinedFiltersAlphabet.h/.cpp)

    Patterns are sequences of terms; they are kept in a tree that shares common
    prefixes.  Vertices are allocated objects that other objects point to, so
    the tree is a heap: the address of a vertex is its position, the root is at
    zero, and an edge holds a pointer to an interned term and the address of
    its child.  Terms are interned, so equal terms have equal pointers. *)

From stdpp Require Import gmap.
From S2P Require Import Prelude Bits DFA RangeList HashSet NFA Term.

(** ** Data *)

(** An edge; its term is a null pointer once the edge is marked for deletion. *)
Record PrefixTreeEdge := mkEdge { e_term : option Z; e_child : Z }.

Definition PrefixTreeEdges : Type := list PrefixTreeEdge.

Record CombinedURLFilters := mkFilters {
  m_alphabet : list Term;
  m_vertices : list PrefixTreeEdges;
  m_actions : gmap Z (list Z)
}.

Definition m_prefixTreeRoot : Z := 0.

Definition newFilters : CombinedURLFilters := mkFilters [] [[]] ∅.

Definition filters_isEmpty (f : CombinedURLFilters) : option bool :=
  edges ← (m_vertices f).[m_prefixTreeRoot];
  Some (bool_decide (edges = [])).

(** ** Interned terms *)

(** The first position with the property. *)
Fixpoint find_index {A} (p : A -> bool) (l : list A) : option Z :=
  match l with
  | [] => None
  | x :: l => if p x then Some 0 else i ← find_index p l; Some (i + 1)
  end.

(** [CombinedFiltersAlphabet::interned]: the unique copy of a term. *)
Definition interned (alphabet : list Term) (term : Term) : list Term * Z :=
  match find_index (fun t => term_equal t term) alphabet with
  | Some pointer => (alphabet, pointer)
  | None => (alphabet ++ [term], vlen alphabet)
  end.

(** ** Adding patterns *)

Definition edge_has_term (f : CombinedURLFilters) (term : Term) (edge : PrefixTreeEdge) : bool :=
  match e_term edge ≫= fun pointer => (m_alphabet f).[pointer] with
  | Some t => term_equal t term
  | None => false
  end.

(** One term: the child of the edge with the term, which is created if there is none. *)
Definition extend_prefix (f : CombinedURLFilters) (lastPrefixTree : Z) (term : Term) : option (CombinedURLFilters * Z) :=
  edges ← (m_vertices f).[lastPrefixTree];
  match List.find (edge_has_term f term) edges with
  | Some edge => Some (f, e_child edge)
  | None =>
      let '(alphabet, pointer) := interned (m_alphabet f) term in
      let child := vlen (m_vertices f) in
      vertices ← vec_set (m_vertices f ++ [[]]) lastPrefixTree (edges ++ [mkEdge (Some pointer) child]);
      Some (mkFilters alphabet vertices (m_actions f), child)
  end.

Fixpoint extend_pattern (f : CombinedURLFilters) (lastPrefixTree : Z) (pattern : list Term) : option (CombinedURLFilters * Z) :=
  match pattern with
  | [] => Some (f, lastPrefixTree)
  | term :: pattern => '(f, lastPrefixTree) ← extend_prefix f lastPrefixTree term; extend_pattern f lastPrefixTree pattern
  end.

Definition addPattern (f : CombinedURLFilters) (actionId : Z) (pattern : list Term) : option CombinedURLFilters :=
  if bool_decide (pattern = []) then Some f else
  '(f, lastPrefixTree) ← extend_pattern f m_prefixTreeRoot pattern;
  let actions := default [] (m_actions f !! lastPrefixTree) in
  let actions := if bool_decide (actionId ∈ actions) then actions else actions ++ [actionId] in
  Some (mkFilters (m_alphabet f) (m_vertices f) (<[lastPrefixTree := actions]> (m_actions f))).

(** ** Domains *)

(** The characters of a domain as terms.  The constructor of the term takes a
    [char], so the 16-bit character is narrowed to its low byte; a byte from 128,
    signed or not, is no ASCII character when it is widened again. *)
Definition domain_terms (domain : list Z) : option (list Term) := mapM (fun c => characterTerm (u8 c) true) domain.

(** A domain that starts with a star also stands for its subdomains. *)
Definition addDomain (f : CombinedURLFilters) (actionId : Z) (domain : list Z) : option CombinedURLFilters :=
  match domain with
  | c :: rest =>
      if c =? 42 then
        dot ← universalTransition;
        dotCharacter ← characterTerm 46 true;
        terms ← domain_terms rest;
        endOfLine ← endOfLineAssertionTerm;
        f ← addPattern f actionId ([quantify dot ZeroOrMore; dotCharacter] ++ terms ++ [endOfLine]);
        addPattern f actionId (terms ++ [endOfLine])
      else
        terms ← domain_terms domain;
        endOfLine ← endOfLineAssertionTerm;
        addPattern f actionId (terms ++ [endOfLine])
  | [] =>
      endOfLine ← endOfLineAssertionTerm;
      addPattern f actionId [endOfLine]
  end.
