(* ===== verification/URLFilterParser.v ===== *)
(** * The parser of URL filters (URLFilterParser.h, URLFilterParser.cpp)

    A delegate of the regular expression parser.  It builds a list of terms
    from the calls, accepts only the part of the syntax the automata support,
    simplifies the terms and adds them to the prefix tree. *)

From stdpp Require Import gmap.
From S2P Require Import Prelude Bits DFA RangeList HashSet NFA Term Yarr CombinedURLFilters.

Inductive ParseStatus :=
| Ok
| MatchesEverything
| NonASCII
| UnsupportedCharacterClass
| BackReference
| MisplacedStartOfLine
| WordBoundary
| AtomCharacter
| Group
| Disjunction
| MisplacedEndOfLine
| EmptyPattern
| YarrError
| InvalidQuantifier.

#[export] Instance ParseStatus_eq_dec : EqDecision ParseStatus.
Proof. solve_decision. Defined.

(** The open groups are a stack with the innermost one first. *)
Record PatternParser := mkPatternParser {
  m_patternIsCaseSensitive : bool;
  m_openGroups : list Term;
  m_sunkTerms : list Term;
  m_floatingTerm : Term;
  m_hasBeginningOfLineAssertion : bool;
  m_hasProcessedEndOfLineAssertion : bool;
  m_parseStatus : ParseStatus
}.

Definition newPatternParser (patternIsCaseSensitive : bool) : PatternParser :=
  mkPatternParser patternIsCaseSensitive [] [] (EmptyTerm One) false false Ok.

(** ** Errors *)

Definition hasError (p : PatternParser) : bool := negb (bool_decide (m_parseStatus p = Ok)).

Definition fail (p : PatternParser) (reason : ParseStatus) : PatternParser :=
  if hasError p then p else
  mkPatternParser (m_patternIsCaseSensitive p) (m_openGroups p) (m_sunkTerms p) (m_floatingTerm p) (m_hasBeginningOfLineAssertion p)
    (m_hasProcessedEndOfLineAssertion p) reason.

Definition with_floating (p : PatternParser) (term : Term) : PatternParser :=
  mkPatternParser (m_patternIsCaseSensitive p) (m_openGroups p) (m_sunkTerms p) term (m_hasBeginningOfLineAssertion p)
    (m_hasProcessedEndOfLineAssertion p) (m_parseStatus p).

Definition with_groups (p : PatternParser) (groups : list Term) : PatternParser :=
  mkPatternParser (m_patternIsCaseSensitive p) groups (m_sunkTerms p) (m_floatingTerm p) (m_hasBeginningOfLineAssertion p)
    (m_hasProcessedEndOfLineAssertion p) (m_parseStatus p).

Definition with_sunk (p : PatternParser) (terms : list Term) : PatternParser :=
  mkPatternParser (m_patternIsCaseSensitive p) (m_openGroups p) terms (m_floatingTerm p) (m_hasBeginningOfLineAssertion p)
    (m_hasProcessedEndOfLineAssertion p) (m_parseStatus p).

Definition with_lines (p : PatternParser) (beginning end_ : bool) : PatternParser :=
  mkPatternParser (m_patternIsCaseSensitive p) (m_openGroups p) (m_sunkTerms p) (m_floatingTerm p) beginning end_ (m_parseStatus p).

(** ** Sinking the floating term *)

Definition sinkFloatingTermIfNecessary (p : PatternParser) : PatternParser :=
  if negb (isValid (m_floatingTerm p)) then p else
  if m_hasProcessedEndOfLineAssertion p then with_floating (fail p MisplacedEndOfLine) (EmptyTerm One) else
  let p := if isEndOfLineAssertion (m_floatingTerm p) then with_lines p (m_hasBeginningOfLineAssertion p) true else p in
  match m_openGroups p with
  | group :: groups => with_floating (with_groups p (extendGroupSubpattern group (m_floatingTerm p) :: groups)) (EmptyTerm One)
  | [] => with_floating (with_sunk p (m_sunkTerms p ++ [m_floatingTerm p])) (EmptyTerm One)
  end.

(** ** The calls of the regular expression parser *)

(** A call that does nothing after an error. *)
Definition unless_error (p : PatternParser) (call : PatternParser -> option PatternParser) : option PatternParser :=
  if hasError p then Some p else call p.

Definition pp_atomPatternCharacter (p : PatternParser) (character : Z) : option PatternParser :=
  unless_error p (fun p =>
    if negb (isASCII character) then Some (fail p NonASCII) else
    let p := sinkFloatingTermIfNecessary p in
    term ← characterTerm character (m_patternIsCaseSensitive p);
    Some (with_floating p term)).

Definition pp_atomBuiltInCharacterClass (p : PatternParser) (id : BuiltInCharacterClassID) (inverted : bool) : option PatternParser :=
  unless_error p (fun p =>
    let p := sinkFloatingTermIfNecessary p in
    match id, inverted with
    | NewlineClassID, true => term ← universalTransition; Some (with_floating p term)
    | _, _ => Some (fail p UnsupportedCharacterClass)
    end).

Definition pp_quantifyAtom (p : PatternParser) (minimum maximum : Z) (greedy : bool) : option PatternParser :=
  unless_error p (fun p =>
    if (minimum =? 0) && (maximum =? 1) then Some (with_floating p (quantify (m_floatingTerm p) ZeroOrOne))
    else if (minimum =? 0) && (maximum =? quantifyInfinite) then Some (with_floating p (quantify (m_floatingTerm p) ZeroOrMore))
    else if (minimum =? 1) && (maximum =? quantifyInfinite) then Some (with_floating p (quantify (m_floatingTerm p) OneOrMore))
    else Some (fail p InvalidQuantifier)).

Definition pp_assertionBOL (p : PatternParser) : option PatternParser :=
  unless_error p (fun p =>
    if isValid (m_floatingTerm p) || negb (bool_decide (m_sunkTerms p = [])) || negb (bool_decide (m_openGroups p = []))
    then Some (fail p MisplacedStartOfLine)
    else Some (with_lines p true (m_hasProcessedEndOfLineAssertion p))).

Definition pp_assertionEOL (p : PatternParser) : option PatternParser :=
  unless_error p (fun p =>
    let p := sinkFloatingTermIfNecessary p in
    term ← endOfLineAssertionTerm;
    Some (with_floating p term)).

Definition pp_atomCharacterClassBegin (p : PatternParser) (inverted : bool) : option PatternParser :=
  unless_error p (fun p =>
    let p := sinkFloatingTermIfNecessary p in
    Some (with_floating p (characterSetTerm inverted))).

Definition pp_atomCharacterClassAtom (p : PatternParser) (character : Z) : option PatternParser :=
  unless_error p (fun p =>
    term ← addCharacter (m_floatingTerm p) character (m_patternIsCaseSensitive p);
    Some (with_floating p term)).

Definition pp_atomCharacterClassRange (p : PatternParser) (a b : Z) : option PatternParser :=
  unless_error p (fun p =>
    term ← foldl (fun term i => term ← term; addCharacter term (u16 i) (m_patternIsCaseSensitive p)) (Some (m_floatingTerm p)) (seqZ a (b - a + 1));
    Some (with_floating p term)).

Definition pp_atomParenthesesSubpatternBegin (p : PatternParser) (capture : bool) : option PatternParser :=
  unless_error p (fun p =>
    let p := sinkFloatingTermIfNecessary p in
    Some (with_groups p (groupTerm :: m_openGroups p))).

Definition pp_atomParenthesesEnd (p : PatternParser) : option PatternParser :=
  unless_error p (fun p =>
    let p := sinkFloatingTermIfNecessary p in
    match m_openGroups p with
    | group :: groups => Some (with_floating (with_groups p groups) group)
    | [] => None
    end).

#[export] Instance pattern_parser_delegate : Delegate PatternParser := {|
  assertionBOL := pp_assertionBOL;
  assertionEOL := pp_assertionEOL;
  assertionWordBoundary p _ := Some (fail p WordBoundary);
  atomPatternCharacter := pp_atomPatternCharacter;
  atomBuiltInCharacterClass := pp_atomBuiltInCharacterClass;
  atomCharacterClassBegin := pp_atomCharacterClassBegin;
  atomCharacterClassAtom := pp_atomCharacterClassAtom;
  atomCharacterClassRange := pp_atomCharacterClassRange;
  atomCharacterClassBuiltIn p _ _ := Some (fail p AtomCharacter);
  atomCharacterClassEnd p := Some p;
  atomParenthesesSubpatternBegin := pp_atomParenthesesSubpatternBegin;
  atomParentheticalAssertionBegin p _ := Some (fail p Group);
  atomParenthesesEnd := pp_atomParenthesesEnd;
  atomBackReference p _ := Some (fail p BackReference);
  quantifyAtom := pp_quantifyAtom;
  disjunction p := Some (fail p Disjunction)
|}.

(** ** Simplification *)

Definition canonicalDotStar : option Term := t ← universalTransition; Some (quantify t ZeroOrMore).

(** Every term like ".*" becomes the canonical one; repeated ones are removed. *)
Fixpoint canonicalize (dotStar : Term) (isAfterDotStar : bool) (terms : list Term) : list Term :=
  match terms with
  | [] => []
  | term :: terms =>
      if isKnownToMatchAnyString term then
        if isAfterDotStar then canonicalize dotStar true terms
        else dotStar :: canonicalize dotStar true terms
      else term :: canonicalize dotStar false terms
  end.

(** ".*" and an end-of-line assertion after something else. *)
Definition remove_trailing_dot_star (terms : list Term) : option (list Term) :=
  last ← terms.[vlen terms - 1];
  if (2 <? vlen terms) && isEndOfLineAssertion last then
    previous ← terms.[vlen terms - 2];
    Some (if isKnownToMatchAnyString previous then take (length terms - 2) terms else terms)
  else Some terms.

(** Terms at the end that may match nothing; [reversed] has the last one first. *)
Fixpoint remove_irrelevant (reversed : list Term) : list Term :=
  match reversed with
  | [] => []
  | term :: rest => if matchesAtLeastOneCharacter term then reversed else remove_irrelevant rest
  end.

Definition simplifySunkTerms (terms : list Term) (hasBeginningOfLineAssertion : bool) : option (list Term) :=
  if bool_decide (terms = []) then Some terms else
  dotStar ← canonicalDotStar;
  let terms := canonicalize dotStar false terms in
  first ← terms.[0];
  let terms := if negb hasBeginningOfLineAssertion && negb (isKnownToMatchAnyString first) then dotStar :: terms else terms in
  terms ← remove_trailing_dot_star terms;
  last ← terms.[vlen terms - 1];
  Some (if isEndOfLineAssertion last then terms else rev (remove_irrelevant (rev terms))).

(** ** The whole pattern *)

(** [PatternParser::finalize]; named apart from the finalization of a builder. *)
Definition finalizePattern (p : PatternParser) (patternId : Z) (filters : CombinedURLFilters) : option (PatternParser * CombinedURLFilters) :=
  if hasError p then Some (p, filters) else
  let p := sinkFloatingTermIfNecessary p in
  terms ← simplifySunkTerms (m_sunkTerms p) (m_hasBeginningOfLineAssertion p);
  let p := with_sunk p terms in
  if forallb (fun term => negb (matchesAtLeastOneCharacter term)) terms then Some (fail p MatchesEverything, filters)
  else filters ← CombinedURLFilters.addPattern filters patternId terms; Some (p, filters).

(** [URLFilterParser::addPattern]. *)
Definition addURLFilter (filters : CombinedURLFilters) (pattern : list Z) (patternIsCaseSensitive : bool) (patternId : Z)
    : option (CombinedURLFilters * ParseStatus) :=
  if negb (forallb isASCII pattern) then Some (filters, NonASCII)
  else if bool_decide (pattern = []) then Some (filters, EmptyPattern)
  else
    '(p, error) ← Yarr.parse 0 (newPatternParser patternIsCaseSensitive) pattern;
    if bool_decide (error = NoError) then
      '(p, filters) ← finalizePattern p patternId filters;
      Some (filters, m_parseStatus p)
    else Some (filters, YarrError).
