(* ===== verification/PrefixTree.v ===== *)
(** * What a prefix tree of patterns stands for

    The tree is a heap of vertices.  The invariant says that it is a tree whose
    children are allocated after their parents, with interned terms; a path
    from the root is a sequence of terms.  Adding a pattern adds exactly that
    pattern with its action. *)

From stdpp Require Import gmap.
From S2P Require Import Prelude Bits DFA RangeList HashSet NFA Term TermLanguage CombinedURLFilters.

(** ** Equality of terms *)

Lemma cs_equal_spec cs cs' : cs_equal cs cs' = true <-> cs = cs'.
Proof.
  unfold cs_equal. rewrite !andb_true_iff, eqb_true_iff, !Z.eqb_eq. destruct cs, cs'; cbn. split; [intros [[-> ->] ->]; done|by intros [= -> -> ->]].
Qed.

Lemma term_equal_spec t : forall t', term_equal t t' = true <-> t = t'.
Proof.
  induction t as [q|q cs|q ts IH] using Term_ind'; intros [q'|q' cs'|q' ts']; cbn [term_equal]; try (by split; intros).
  - rewrite bool_decide_eq_true. split; [by intros ->|congruence].
  - rewrite andb_true_iff, bool_decide_eq_true, cs_equal_spec. split; [by intros [-> ->]|by intros [= -> ->]].
  - rewrite andb_true_iff, bool_decide_eq_true.
    assert (Hv : forall ts', (fix vectors_equal (a b : list Term) : bool :=
        match a, b with [], [] => true | x :: a, y :: b => term_equal x y && vectors_equal a b | _, _ => false end) ts ts' = true <-> ts = ts').
    { clear ts'. induction IH as [|t ts Ht _ IH]; intros [|t' ts']; try (by split; intros).
      rewrite andb_true_iff, Ht, IH. split; [by intros [-> ->]|by intros [= -> ->]]. }
    rewrite Hv. split; [by intros [-> ->]|by intros [= -> ->]].
Qed.

(** ** Interned terms *)

Lemma find_index_Some {A} (p : A -> bool) l : forall i, find_index p l = Some i -> exists x, l.[i] = Some x /\ p x = true.
Proof.
  induction l as [|y l IH]; intros i; cbn [find_index]; [done|]. destruct (p y) eqn:Ep; [intros [= <-]; by exists y|].
  destruct (find_index p l) as [j|] eqn:Ej; [|done]. rewrite option_bind_Some. intros [= <-]. destruct (IH j eq_refl) as (x & Hx & Hp).
  exists x. split; [|done]. pose proof (vec_at_lt _ _ _ Hx). apply vec_at_Some in Hx as [_ Hx]. apply vec_at_Some. split; [lia|].
  by replace (Z.to_nat (j + 1)) with (S (Z.to_nat j)) by lia.
Qed.

Lemma interned_spec alphabet term alphabet' pointer :
  interned alphabet term = (alphabet', pointer) -> alphabet'.[pointer] = Some term /\ exists l, alphabet' = alphabet ++ l.
Proof.
  unfold interned. destruct (find_index _ alphabet) as [i|] eqn:E; intros [= <- <-].
  - apply find_index_Some in E as (x & Hx & Hp). apply term_equal_spec in Hp as ->. split; [done|]. exists []. by rewrite app_nil_r.
  - split; [apply vec_at_snoc|by eexists].
Qed.

Lemma vec_at_prefix {A} (v l : list A) i x : v.[i] = Some x -> (v ++ l).[i] = Some x.
Proof. intros Hx. pose proof (vec_at_lt _ _ _ Hx). by rewrite vec_at_app_l by lia. Qed.

(** ** Edges and paths *)

(** An edge that is not marked for deletion. *)
Definition tree_edge (f : CombinedURLFilters) (u : Z) (t : Term) (c : Z) : Prop :=
  exists edges e pointer, (m_vertices f).[u] = Some edges /\ e ∈ edges /\ e_term e = Some pointer /\ (m_alphabet f).[pointer] = Some t /\ e_child e = c.

Inductive tree_path (f : CombinedURLFilters) : Z -> list Term -> Z -> Prop :=
| path_nil v : tree_path f v [] v
| path_cons u t c ts v : tree_edge f u t c -> tree_path f c ts v -> tree_path f u (t :: ts) v.

(** The pattern leads to a vertex with the action. *)
Definition has_pattern (f : CombinedURLFilters) (ts : list Term) (a : Z) : Prop :=
  exists v actions, tree_path f m_prefixTreeRoot ts v /\ m_actions f !! v = Some actions /\ a ∈ actions.

Record wf_tree (f : CombinedURLFilters) : Prop := {
  wt_root : 0 < vlen (m_vertices f);
  wt_edges u edges e : (m_vertices f).[u] = Some edges -> e ∈ edges -> u < e_child e < vlen (m_vertices f);
  wt_terms u edges e : (m_vertices f).[u] = Some edges -> e ∈ edges -> exists pointer t, e_term e = Some pointer /\ (m_alphabet f).[pointer] = Some t;
  wt_parent u t c u' t' : tree_edge f u t c -> tree_edge f u' t' c -> u = u' /\ t = t';
  wt_actions v actions : m_actions f !! v = Some actions -> 0 <= v < vlen (m_vertices f) /\ NoDup actions
}.

Lemma tree_edge_range f u t c : wf_tree f -> tree_edge f u t c -> 0 <= u < c /\ c < vlen (m_vertices f).
Proof.
  intros Hf (edges & e & ptr & Hu & He & _ & _ & <-). pose proof (vec_at_lt _ _ _ Hu). pose proof (wt_edges f Hf _ _ _ Hu He). lia.
Qed.

Lemma tree_path_snoc f u ts t c v : tree_path f u ts v -> tree_edge f v t c -> tree_path f u (ts ++ [t]) c.
Proof. induction 1; intros He; cbn; econstructor; eauto. constructor. Qed.

Lemma tree_path_app f u ts v : tree_path f u ts v -> forall ts' w, tree_path f v ts' w -> tree_path f u (ts ++ ts') w.
Proof. induction 1; intros ts' w Hw; cbn; [done|]. econstructor; eauto. Qed.

Lemma tree_path_snoc_inv f u ts t c : tree_path f u (ts ++ [t]) c -> exists v, tree_path f u ts v /\ tree_edge f v t c.
Proof.
  revert u. induction ts as [|t' ts IH]; intros u Hp; inversion Hp as [|? ? d ? ? He Hp']; subst.
  - inversion Hp'; subst. exists u. split; [constructor|done].
  - apply IH in Hp' as (v & Hv & He'). exists v. split; [by econstructor|done].
Qed.

Lemma path_le f u ts v : wf_tree f -> tree_path f u ts v -> u <= v.
Proof. intros Hf. induction 1 as [|u t c ts v He Hp IH]; [lia|]. pose proof (tree_edge_range f u t c Hf He). lia. Qed.

Lemma path_range f ts v : wf_tree f -> tree_path f m_prefixTreeRoot ts v -> 0 <= v < vlen (m_vertices f).
Proof.
  intros Hf. destruct ts as [|t ts _] using rev_ind; intros Hp.
  - inversion Hp; subst. pose proof (wt_root f Hf). unfold m_prefixTreeRoot. lia.
  - apply tree_path_snoc_inv in Hp as (u & _ & He). pose proof (tree_edge_range f u t v Hf He). lia.
Qed.

(** A vertex is reached by one pattern only. *)
Lemma path_unique f ts : forall ts' v, wf_tree f -> tree_path f m_prefixTreeRoot ts v -> tree_path f m_prefixTreeRoot ts' v -> ts = ts'.
Proof.
  induction ts as [|t ts IH] using rev_ind; intros ts' v Hf Hp Hp'.
  - inversion Hp; subst. destruct ts' as [|t' ts' _] using rev_ind; [done|]. apply tree_path_snoc_inv in Hp' as (u & _ & He).
    pose proof (tree_edge_range _ _ _ _ Hf He). unfold m_prefixTreeRoot in *. lia.
  - apply tree_path_snoc_inv in Hp as (u & Hu & He). destruct ts' as [|t' ts' _] using rev_ind.
    + inversion Hp'; subst. pose proof (tree_edge_range _ _ _ _ Hf He). unfold m_prefixTreeRoot in *. lia.
    + apply tree_path_snoc_inv in Hp' as (u' & Hu' & He'). destruct (wt_parent f Hf _ _ _ _ _ He He') as [<- <-]. f_equal. by eapply IH.
Qed.

Lemma wf_newFilters : wf_tree newFilters.
Proof.
  assert (Hnil : forall u edges e, (m_vertices newFilters).[u] = Some edges -> e ∉ edges).
  { intros u edges e Hu. cbn in Hu. pose proof (vec_at_lt _ _ _ Hu). cbn in *. assert (u = 0) as -> by lia. injection Hu as <-. apply not_elem_of_nil. }
  split.
  - cbn. lia.
  - intros u edges e Hu He. by apply (Hnil u edges) in He.
  - intros u edges e Hu He. by apply (Hnil u edges) in He.
  - intros u t c u' t' (edges & e & _ & Hu & He & _). by apply (Hnil u edges) in He.
  - intros v actions. cbn. by rewrite lookup_empty.
Qed.

(** ** Extending the tree *)

(** [f'] has the vertices, edges and actions of [f], and perhaps more. *)
Record tree_le (f f' : CombinedURLFilters) : Prop := {
  tl_actions : m_actions f' = m_actions f;
  tl_length : vlen (m_vertices f) <= vlen (m_vertices f');
  tl_edge u t c : tree_edge f u t c -> tree_edge f' u t c;
  tl_new u t c : tree_edge f' u t c -> tree_edge f u t c \/ vlen (m_vertices f) <= c
}.

#[export] Instance tree_le_preorder : PreOrder tree_le.
Proof.
  split.
  - intros f. split; auto. lia.
  - intros f g h [A1 L1 E1 N1] [A2 L2 E2 N2]. split; [congruence|lia|auto|]. intros u t c [He|He]%N2; [|right; lia]. auto.
Qed.

Lemma find_edge f term edges e :
  List.find (edge_has_term f term) edges = Some e -> e ∈ edges /\ exists pointer, e_term e = Some pointer /\ (m_alphabet f).[pointer] = Some term.
Proof.
  intros [Hin Hh]%List.find_some. split; [by apply list_elem_of_In|]. unfold edge_has_term in Hh. destruct (e_term e) as [ptr|] eqn:Ep; [|done].
  cbn in Hh. destruct ((m_alphabet f).[ptr]) as [t|] eqn:Et; [|done]. apply term_equal_spec in Hh as ->. by exists ptr.
Qed.

Lemma extend_prefix_spec f v term :
  wf_tree f -> 0 <= v < vlen (m_vertices f) ->
  exists f' c, extend_prefix f v term = Some (f', c) /\ wf_tree f' /\ tree_le f f' /\ tree_edge f' v term c
    /\ (vlen (m_vertices f) <= c -> forall u t d, tree_edge f' u t d -> tree_edge f u t d \/ (u = v /\ t = term /\ d = c)) /\ 0 <= c < vlen (m_vertices f').
Proof.
  intros Hf Hv. destruct (vec_at_is_Some (m_vertices f) v Hv) as (edges & Hedges). unfold extend_prefix. rewrite Hedges, option_bind_Some.
  destruct (List.find (edge_has_term f term) edges) as [e|] eqn:Ef.
  - apply find_edge in Ef as (Hin & ptr & Hp & Ht). pose proof (wt_edges f Hf _ _ _ Hedges Hin). exists f, (e_child e). split; [done|].
    split; [done|]. split; [done|]. split; [by exists edges, e, ptr|]. split; [|lia]. intros Hl. exfalso. lia.
  - destruct (interned (m_alphabet f) term) as [alphabet ptr] eqn:Ei. apply interned_spec in Ei as [Hptr (l & ->)].
    destruct (vec_set (m_vertices f ++ [[]]) v (edges ++ [mkEdge (Some ptr) (vlen (m_vertices f))])) as [vs|] eqn:Es.
    2: { rewrite vec_set_Some in Es; [done|]. rewrite length_app; cbn; lia. }
    rewrite option_bind_Some. set (c := vlen (m_vertices f)) in *. set (f' := mkFilters _ vs _).
    assert (Hlen : vlen vs = c + 1) by (rewrite (vec_set_length _ _ _ _ Es), length_app; cbn; lia).
    assert (Hold : forall u es, (m_vertices f).[u] = Some es -> u <> v -> vs.[u] = Some es).
    { intros u es Hu Hne. rewrite (vec_at_set _ _ _ u _ Es). destruct (decide (v = u)); [congruence|by apply vec_at_prefix]. }
    assert (Hnew : forall u es e, vs.[u] = Some es -> e ∈ es -> (exists es', (m_vertices f).[u] = Some es' /\ e ∈ es') \/ (u = v /\ e = mkEdge (Some ptr) c)).
    { intros u es e Hu He. rewrite (vec_at_set _ _ _ u _ Es) in Hu. destruct (decide (v = u)) as [<-|].
      - injection Hu as <-. apply elem_of_app in He as [He|He%list_elem_of_singleton]; [left; by exists edges|by right].
      - pose proof (vec_at_lt _ _ _ Hu) as Hlt. rewrite length_app in Hlt. cbn in Hlt. destruct (decide (u = c)) as [->|].
        + unfold c in Hu. rewrite vec_at_snoc in Hu. injection Hu as <-. by apply not_elem_of_nil in He.
        + rewrite vec_at_app_l in Hu by (unfold c in *; lia). left. by exists es. }
    assert (Hle : forall u t d, tree_edge f u t d -> tree_edge f' u t d).
    { intros u t d (es & e & p & Hu & He & Hp & Ht & <-). destruct (decide (u = v)) as [->|Hne].
      - exists (edges ++ [mkEdge (Some ptr) c]), e, p. split; [cbn; rewrite (vec_at_set _ _ _ v _ Es); by rewrite decide_True|].
        rewrite Hedges in Hu. injection Hu as <-. split; [apply elem_of_app; by left|]. split; [done|]. split; [by apply vec_at_prefix|done].
      - exists es, e, p. split; [by apply Hold|]. split; [done|]. split; [done|]. split; [by apply vec_at_prefix|done]. }
    assert (Hcases : forall u t d, tree_edge f' u t d -> tree_edge f u t d \/ (u = v /\ t = term /\ d = c)).
    { intros u t d (es & e & p & Hu & He & Hp & Ht & <-). destruct (Hnew u es e Hu He) as [(es' & Hes' & Hin)|[-> ->]].
      - left. destruct (wt_terms f Hf u es' e Hes' Hin) as (p' & t' & Hp' & Ht'). rewrite Hp in Hp'. injection Hp' as <-.
        exists es', e, p. split; [done|]. split; [done|]. split; [done|]. split; [|done]. rewrite Ht'. cbn in Ht. rewrite (vec_at_prefix _ _ _ _ Ht') in Ht. done.
      - right. cbn in Hp. injection Hp as <-. cbn in Ht. rewrite Hptr in Ht. injection Ht as <-. done. }
    assert (Hedge : tree_edge f' v term c).
    { exists (edges ++ [mkEdge (Some ptr) c]), (mkEdge (Some ptr) c), ptr. split; [cbn; rewrite (vec_at_set _ _ _ v _ Es); by rewrite decide_True|].
      split; [apply elem_of_app; right; by apply list_elem_of_singleton|]. done. }
    exists f', c. split; [done|]. split; [|split; [|split; [done|split; [intros _; exact Hcases|cbn; lia]]]].
    + split.
      * cbn. lia.
      * intros u es e Hu He. cbn. rewrite Hlen. destruct (Hnew u es e Hu He) as [(es' & Hes' & Hin)|[-> ->]]; [|cbn; lia].
        pose proof (wt_edges f Hf _ _ _ Hes' Hin). lia.
      * intros u es e Hu He. destruct (Hnew u es e Hu He) as [(es' & Hes' & Hin)|[-> ->]]; [|by exists ptr, term].
        destruct (wt_terms f Hf _ _ _ Hes' Hin) as (p & t & Hp & Ht). exists p, t. split; [done|by apply vec_at_prefix].
      * intros u t d u' t' H1 H2. destruct (Hcases _ _ _ H1) as [E1|(-> & -> & ->)], (Hcases _ _ _ H2) as [E2|(-> & -> & Hd)].
        -- by eapply wt_parent.
        -- subst d. pose proof (tree_edge_range _ _ _ _ Hf E1). lia.
        -- pose proof (tree_edge_range _ _ _ _ Hf E2). lia.
        -- done.
      * intros w acts Hw. cbn in *. rewrite Hlen. destruct (wt_actions f Hf w acts Hw). split; [lia|done].
    + split; [done|cbn; lia|done|]. intros u t d He. destruct (Hcases _ _ _ He) as [?|(_ & _ & ->)]; [by left|right; lia].
Qed.

Lemma path_mono f f' u ts v : tree_le f f' -> tree_path f u ts v -> tree_path f' u ts v.
Proof. intros Hle. induction 1; econstructor; eauto. by apply (tl_edge f f' Hle). Qed.

(** Paths to the old vertices are old. *)
Lemma path_old f f' u ts v : wf_tree f' -> tree_le f f' -> tree_path f' u ts v -> v < vlen (m_vertices f) -> tree_path f u ts v.
Proof.
  intros Hf' Hle. induction 1 as [|u t c ts v He Hp IH]; intros Hv; [constructor|]. econstructor; [|by apply IH].
  pose proof (path_le _ _ _ _ Hf' Hp). destruct (tl_new _ _ Hle _ _ _ He) as [?|]; [done|lia].
Qed.

Lemma extend_pattern_spec pattern : forall f v,
  wf_tree f -> 0 <= v < vlen (m_vertices f) ->
  exists f' w, extend_pattern f v pattern = Some (f', w) /\ wf_tree f' /\ tree_le f f' /\ tree_path f' v pattern w /\ 0 <= w < vlen (m_vertices f').
Proof.
  induction pattern as [|t pattern IH]; intros f v Hf Hv; cbn [extend_pattern].
  { exists f, v. split; [done|]. split; [done|]. split; [done|]. split; [constructor|done]. }
  destruct (extend_prefix_spec f v t Hf Hv) as (f1 & c & -> & Hf1 & Hle1 & He1 & _ & Hc). rewrite option_bind_Some.
  destruct (IH f1 c Hf1 Hc) as (f2 & w & -> & Hf2 & Hle2 & Hp2 & Hw). exists f2, w. split; [done|]. split; [done|]. split; [by etrans|].
  split; [|done]. econstructor; [|exact Hp2]. by apply (tl_edge _ _ Hle2).
Qed.

(** Adding a pattern: the action is added to that pattern and nothing else changes. *)
Lemma addPattern_spec f id pattern :
  wf_tree f -> pattern <> [] ->
  exists f', addPattern f id pattern = Some f' /\ wf_tree f' /\
    forall ts a, has_pattern f' ts a <-> has_pattern f ts a \/ (ts = pattern /\ a = id).
Proof.
  intros Hf Hne. unfold addPattern. rewrite bool_decide_eq_false_2 by done.
  destruct (extend_pattern_spec pattern f m_prefixTreeRoot Hf) as (f1 & v & -> & Hf1 & Hle & Hp & Hv); [pose proof (wt_root f Hf); unfold m_prefixTreeRoot; lia|].
  rewrite option_bind_Some. cbv zeta. set (old := default [] (m_actions f1 !! v)). set (new := if bool_decide (id ∈ old) then old else old ++ [id]).
  eexists. split; [reflexivity|]. set (f2 := mkFilters _ _ (<[v:=new]> _)).
  assert (Hedge : forall u t c, tree_edge f2 u t c <-> tree_edge f1 u t c) by done.
  assert (Hpath : forall u ts w, tree_path f2 u ts w <-> tree_path f1 u ts w).
  { intros u ts w. split; induction 1; econstructor; eauto. }
  assert (Hnew : forall a, a ∈ new <-> a ∈ old \/ a = id).
  { intros a. unfold new. case_bool_decide as Hin; [|rewrite elem_of_app, list_elem_of_singleton; done]. split; [by left|]. by intros [?| ->]. }
  assert (Hold : forall a, a ∈ old <-> exists acts, m_actions f !! v = Some acts /\ a ∈ acts).
  { intros a. unfold old. rewrite (tl_actions _ _ Hle). destruct (m_actions f !! v) as [acts|]; cbn; [|split; [by intros ?%not_elem_of_nil|by intros (? & [=] & _)]].
    split; [intros Ha; by exists acts|]. by intros (? & [= <-] & Ha). }
  split.
  - split; try apply Hf1. intros w acts Hw. cbn in Hw. destruct (decide (w = v)) as [->|Hwv].
    + rewrite lookup_insert_eq in Hw. injection Hw as <-. split; [done|]. assert (NoDup old).
      { unfold old. destruct (m_actions f1 !! v) as [acts|] eqn:E; [by destruct (wt_actions f1 Hf1 _ _ E)|constructor]. }
      unfold new. case_bool_decide; [done|]. apply NoDup_app. split; [done|]. split; [|apply NoDup_singleton]. intros x Hx ->%list_elem_of_singleton. done.
    + rewrite lookup_insert_ne in Hw by done. by apply (wt_actions f1 Hf1).
  - intros ts a. unfold has_pattern. split.
    + intros (w & acts & Hw%Hpath & Hacts & Ha). cbn in Hacts. destruct (decide (w = v)) as [->|Hwv].
      * rewrite lookup_insert_eq in Hacts. injection Hacts as <-. assert (ts = pattern) as -> by by eapply path_unique.
        apply Hnew in Ha as [Ha| ->]; [|by right]. left. apply Hold in Ha as (acts & Hacts & Ha). exists v, acts. split; [|done].
        eapply path_old; try done. apply (wt_actions f Hf _ _ Hacts).
      * rewrite lookup_insert_ne in Hacts by done. rewrite (tl_actions _ _ Hle) in Hacts. left. exists w, acts. split; [|done].
        eapply path_old; try done. apply (wt_actions f Hf _ _ Hacts).
    + intros [(w & acts & Hw & Hacts & Ha)|[-> ->]].
      * apply (path_mono _ _ _ _ _ Hle) in Hw. destruct (decide (w = v)) as [->|Hwv].
        -- exists v, new. split; [by apply Hpath|]. split; [cbn; by rewrite lookup_insert_eq|]. apply Hnew. left. apply Hold. by exists acts.
        -- exists w, acts. split; [by apply Hpath|]. split; [|done]. cbn. rewrite lookup_insert_ne by done. by rewrite (tl_actions _ _ Hle).
      * exists v, new. split; [by apply Hpath|]. split; [cbn; by rewrite lookup_insert_eq|]. apply Hnew. by right.
Qed.

(** ** What holds of all terms and actions *)

(** The interned terms, the actions; the root has none. *)
Record tree_holds (P : Term -> Prop) (Q : Z -> Prop) (f : CombinedURLFilters) : Prop := {
  th_wf : wf_tree f;
  th_terms : Forall P (m_alphabet f);
  th_root : m_actions f !! m_prefixTreeRoot = None;
  th_actions v : Forall Q (default [] (m_actions f !! v))
}.

Lemma newFilters_holds P Q : tree_holds P Q newFilters.
Proof. split; [exact wf_newFilters|constructor|done|]. intros v. cbn. by rewrite lookup_empty. Qed.

Lemma tree_holds_edge P Q f u t c : tree_holds P Q f -> tree_edge f u t c -> P t.
Proof. intros Hf (es & e & p & _ & _ & _ & [_ Ht]%vec_at_Some & _). eapply Forall_lookup_1; [apply (th_terms _ _ _ Hf)|exact Ht]. Qed.

Lemma tree_holds_pattern P Q f ts a : tree_holds P Q f -> has_pattern f ts a -> Q a.
Proof. intros Hf (v & acts & _ & Hv & Ha). pose proof (th_actions _ _ _ Hf v) as Hq. rewrite Hv in Hq. cbn in Hq. rewrite Forall_forall in Hq. by apply Hq. Qed.

Lemma extend_pattern_terms P pattern : forall f v f' w,
  Forall P (m_alphabet f) -> Forall P pattern -> extend_pattern f v pattern = Some (f', w) -> Forall P (m_alphabet f').
Proof.
  induction pattern as [|t pattern IH]; intros f v f' w Hf Hp He; cbn [extend_pattern] in He; [by injection He as <- _|].
  apply Forall_cons in Hp as [Ht Hp]. destruct (extend_prefix f v t) as [[f1 c]|] eqn:E; [|done]. rewrite option_bind_Some in He. eapply IH; [|done|exact He]. clear IH He.
  unfold extend_prefix in E. destruct ((m_vertices f).[v]) as [edges|]; [|done]. rewrite option_bind_Some in E.
  destruct (List.find _ edges); [by injection E as <- _|]. unfold interned in E.
  destruct (find_index _ _) as [i|]; [destruct (vec_set (m_vertices f ++ [[]]) _ _); [by injection E as <- _|done]|].
  destruct (vec_set (m_vertices f ++ [[]]) _ _); [|done]. injection E as <- _. cbn. apply Forall_app. by split; [|constructor].
Qed.

Lemma addPattern_holds P Q f id pattern f' :
  tree_holds P Q f -> Forall P pattern -> pattern <> [] -> Q id -> addPattern f id pattern = Some f' -> tree_holds P Q f'.
Proof.
  intros [Hf Ht Hr Ha] Hp Hne Hid. destruct (addPattern_spec f id pattern Hf Hne) as (f2 & Hadd & Hf2 & _). rewrite Hadd. intros [= <-]. unfold addPattern in Hadd.
  rewrite bool_decide_eq_false_2 in Hadd by done.
  destruct (extend_pattern_spec pattern f m_prefixTreeRoot Hf) as (f1 & v & He & Hf1 & Hle & Hpath & Hv); [pose proof (wt_root f Hf); unfold m_prefixTreeRoot; lia|].
  rewrite He, option_bind_Some in Hadd. injection Hadd as <-. pose proof (extend_pattern_terms P pattern _ _ _ _ Ht Hp He) as Ht1.
  assert (Hroot : v <> m_prefixTreeRoot).
  { intros ->. apply Hne, (path_unique f1 pattern [] m_prefixTreeRoot Hf1 Hpath). constructor. }
  split; cbn [m_alphabet m_actions].
  - done.
  - done.
  - rewrite lookup_insert_ne by done. by rewrite (tl_actions _ _ Hle).
  - intros w. rewrite (tl_actions _ _ Hle). destruct (decide (w = v)) as [->|Hwv]; [|by rewrite lookup_insert_ne].
    rewrite lookup_insert_eq. match goal with |- Forall _ (default [] (Some ?l)) => change (Forall Q l) end. specialize (Ha v). match goal with |- Forall _ (if ?b then _ else _) => destruct b end; [done|]. apply Forall_app. by split; [|constructor].
Qed.
