(* ===== verification/YarrCorrect.v ===== *)
(** * The regular expression parser returns

    For every delegate that keeps an invariant, the parser terminates, never
    reads past the end of the pattern and calls the delegate with balanced
    parentheses.  The fuel of its loops is the length of what is left. *)

From S2P Require Import Prelude Bits DFA Yarr.

(** ** Numbers in escapes *)

Lemma lor_bound k a b : 0 <= k -> 0 <= a < 2 ^ k -> 0 <= b < 2 ^ k -> 0 <= Z.lor a b < 2 ^ k.
Proof.
  intros Hk Ha Hb. split; [apply Z.lor_nonneg; lia|]. destruct (decide (Z.lor a b = 0)) as [->|Hne]; [lia|].
  apply Z.log2_lt_pow2; [pose proof (proj2 (Z.lor_nonneg a b)); lia|]. rewrite Z.log2_lor by lia.
  destruct (decide (k = 0)) as [->|]; [change (2 ^ 0) with 1 in *; assert (a = 0) by lia; assert (b = 0) by lia; by subst|].
  assert (Hlog : forall x, 0 <= x < 2 ^ k -> Z.log2 x < k).
  { intros x Hx. destruct (decide (x = 0)) as [->|]; [cbn; lia|]. apply Z.log2_lt_pow2; lia. }
  apply Z.max_lub_lt; by apply Hlog.
Qed.

Lemma hex_value c : 0 <= c -> isASCIIHexDigit c = true -> 0 <= toASCIIHexValue c < 2 ^ 4.
Proof.
  intros Hc Hx. unfold toASCIIHexValue. destruct (Z.ltb_spec c 65).
  - assert (Hall : forallb (fun c => negb (isASCIIHexDigit c) || ((48 <=? c) && (c <? 64))) (seqZ 0 65) = true) by by vm_compute.
    rewrite forallb_forall in Hall. assert (Hin : c ∈ seqZ 0 65) by (apply elem_of_seqZ; lia). specialize (Hall c (proj1 (list_elem_of_In _ _) Hin)).
    rewrite Hx in Hall. cbn in Hall. bprop. lia.
  - change 15 with (Z.ones 4). rewrite Z.land_ones by lia. by apply Z.mod_pos_bound.
Qed.

(** The digits of hexadecimal numbers, and their values. *)
Definition hex_digit (c d : Z) : Prop := (48 <= c <= 57 /\ d = c - 48) \/ (65 <= c <= 70 /\ d = c - 55) \/ (97 <= c <= 102 /\ d = c - 87).

Lemma hex_digit_value c d : hex_digit c d -> isASCIIHexDigit c = true /\ toASCIIHexValue c = d /\ 0 <= d < 16.
Proof.
  intros Hd. assert (Hall : forallb (fun c => isASCIIHexDigit c && (toASCIIHexValue c =? (if c <=? 57 then c - 48 else if c <=? 70 then c - 55 else c - 87))) (seqZ 48 10 ++ seqZ 65 6 ++ seqZ 97 6) = true) by by vm_compute.
  rewrite forallb_forall in Hall. specialize (Hall c). setoid_rewrite <- list_elem_of_In in Hall. rewrite !elem_of_app, !elem_of_seqZ in Hall. unfold hex_digit in Hd.
  specialize (Hall ltac:(lia)). apply andb_true_iff in Hall as [Hh Hv%Z.eqb_eq]. split; [done|]. rewrite Hv. destruct (Z.leb_spec c 57), (Z.leb_spec c 70); lia.
Qed.

(** Four digits are read as the number they write. *)
Lemma tryConsumeHex_digits c1 c2 c3 c4 d1 d2 d3 d4 rest :
  hex_digit c1 d1 -> hex_digit c2 d2 -> hex_digit c3 d3 -> hex_digit c4 d4 ->
  tryConsumeHex 4 (c1 :: c2 :: c3 :: c4 :: rest) = (d1 * 4096 + d2 * 256 + d3 * 16 + d4, rest).
Proof.
  intros (H1 & V1 & B1)%hex_digit_value (H2 & V2 & B2)%hex_digit_value (H3 & V3 & B3)%hex_digit_value (H4 & V4 & B4)%hex_digit_value.
  unfold tryConsumeHex. cbn [hex_loop]. rewrite H1, H2, H3, H4, V1, V2, V3, V4. cbn [default]. rewrite !lor_add by lia. change (2 ^ 4) with 16. unfold id. f_equal. lia.
Qed.

Lemma hex_loop_bound count : forall k n rest m rest',
  0 <= k -> 0 <= n < 2 ^ (4 * k) -> Forall (fun c => 0 <= c) rest -> hex_loop count n rest = Some (m, rest') ->
  0 <= m < 2 ^ (4 * (k + Z.of_nat count)) /\ exists pre, rest = pre ++ rest'.
Proof.
  induction count as [|count IH]; intros k n rest m rest' Hk Hn Hr; cbn [hex_loop].
  { intros [= <- <-]. rewrite Z.add_0_r. split; [done|by exists []]. }
  destruct rest as [|c rest]; [done|]. apply Forall_cons in Hr as [Hc Hr]. destruct (isASCIIHexDigit c) eqn:Hx; [|done]. intros Hl.
  apply (IH (k + 1)) in Hl as [Hm (pre & ->)]; [|lia| |done].
  - split; [|by exists (c :: pre)]. replace (k + Z.of_nat (S count)) with (k + 1 + Z.of_nat count) by lia. done.
  - pose proof (hex_value c Hc Hx) as Hv. replace (4 * (k + 1)) with (4 * k + 4) by lia.
    assert (2 ^ 4 <= 2 ^ (4 * k + 4)) by (apply Z.pow_le_mono_r; lia).
    apply lor_bound; [lia| |lia]. rewrite Z.shiftl_mul_pow2 by lia. rewrite Z.pow_add_r by lia. lia.
Qed.

Lemma octal_loop_bound rest : forall n m rest',
  0 <= n < 256 -> octal_loop n rest = (m, rest') -> 0 <= m < 256 /\ exists pre, rest = pre ++ rest'.
Proof.
  induction rest as [|c rest IH]; intros n m rest' Hn; cbn [octal_loop]; [intros [= <- <-]; split; [done|by exists []]|].
  destruct (Z.ltb_spec n 32), (isASCIIOctalDigit c) eqn:Ho; cbn [andb]; try (intros [= <- <-]; split; [done|by exists []]).
  unfold isASCIIOctalDigit in Ho. bprop. intros Hl. apply IH in Hl as [Hm (pre & ->)]; [|lia]. split; [done|by exists (c :: pre)].
Qed.

Lemma number_loop_suffix rest : forall n m rest', number_loop n rest = (m, rest') -> exists pre, rest = pre ++ rest'.
Proof.
  induction rest as [|c rest IH]; intros n m rest'; cbn [number_loop]; [intros [= <- <-]; by exists []|].
  destruct (isASCIIDigit c); [|intros [= <- <-]; by exists []]. destruct (n <=? _); [|intros [= <- <-]; by exists []].
  intros (pre & ->)%IH. by exists (c :: pre).
Qed.

(** ** Patterns without numeric escapes *)

Definition numeric_escape (c : Z) : bool := (c =? 120) || (c =? 117) || ((48 <=? c) && (c <=? 57)).

(** No backslash is followed by x, u or a digit. *)
Fixpoint plain_escapes (rest : list Z) : bool :=
  match rest with
  | [] => true
  | c :: rest => match rest with d :: _ => negb ((c =? 92) && numeric_escape d) | [] => true end && plain_escapes rest
  end.

Lemma plain_escapes_suffix pre rest : plain_escapes (pre ++ rest) = true -> plain_escapes rest = true.
Proof. induction pre as [|c pre IH]; [done|]. cbn [app plain_escapes]. intros Hp. bprop. auto. Qed.

(** What a pattern may hold so that characters in classes satisfy [P]: plain
    escapes of such characters, or any escapes when [P] holds of all 16-bit units. *)
Definition class_safe (P : Z -> Prop) (rest : list Z) : Prop :=
  Forall (fun c => 0 <= c < 2 ^ 16 /\ P c) rest /\ (plain_escapes rest = true \/ forall c, 0 <= c < 2 ^ 16 -> P c).

Lemma class_safe_suffix P pre rest : class_safe P (pre ++ rest) -> class_safe P rest.
Proof. intros [[_ Hf]%Forall_app Hp]. split; [done|]. destruct Hp as [Hp|?]; [left; by eapply plain_escapes_suffix|by right]. Qed.

Lemma class_safe_tail P c rest : class_safe P (c :: rest) -> class_safe P rest.
Proof. apply (class_safe_suffix P [c]). Qed.

(** ** Escapes *)

Section Escape.
Context {E : Type} (ed : EscapeDelegate E) (inCharacterClass : bool) (limit : Z) (P : Z -> Prop) (J : E -> Prop).
Hypothesis HP : forall c, 0 <= c < 128 -> P c.
Hypothesis Hchar : forall e ch, J e -> 0 <= ch < 2 ^ 16 -> P ch -> exists e', ed_atomPatternCharacter ed e ch = Some e' /\ J e'.
Hypothesis Hclass : forall e id invert, J e -> exists e', ed_atomBuiltInCharacterClass ed e id invert = Some e' /\ J e'.
Hypothesis Hboundary : inCharacterClass = false -> forall e invert, J e -> exists e', ed_assertionWordBoundary ed e invert = Some e' /\ J e'.
Hypothesis Hback : inCharacterClass = false -> forall e n, J e -> exists e', ed_atomBackReference ed e n = Some e' /\ J e'.

Definition escape_ok (rest : list Z) (r : option (escape_result (E := E))) : Prop :=
  exists e' rest' err atom, r = Some (e', rest', err, atom) /\ J e' /\ exists pre, rest = pre ++ rest'.

Lemma escape_ok_weaken pre rest r : escape_ok rest r -> escape_ok (pre ++ rest) r.
Proof. intros (e' & rest' & err & atom & -> & HJ & pre' & ->). exists e', rest', err, atom. split; [done|]. split; [done|]. exists (pre ++ pre'). by rewrite (assoc_L (++)). Qed.

Lemma escape_character_ok e ch rest : J e -> 0 <= ch < 2 ^ 16 -> P ch -> escape_ok rest (escape_character ed e ch rest).
Proof.
  intros HJ Hc Hp. destruct (Hchar e ch HJ Hc Hp) as (e' & He & HJ'). unfold escape_character, escape_atom. rewrite He.
  exists e', rest, NoError, true. split; [done|]. split; [done|by exists []].
Qed.

Lemma escape_small e ch rest : J e -> 0 <= ch < 128 -> escape_ok rest (escape_character ed e ch rest).
Proof. intros HJ Hc. apply escape_character_ok; [done|lia|auto]. Qed.

Lemma escape_class_ok e id invert rest : J e -> escape_ok rest (escape_class ed e id invert rest).
Proof.
  intros HJ. destruct (Hclass e id invert HJ) as (e' & He & HJ'). unfold escape_class, escape_atom. rewrite He.
  exists e', rest, NoError, true. split; [done|]. split; [done|by exists []].
Qed.

Lemma escape_boundary_ok e invert rest : inCharacterClass = false -> J e -> escape_ok rest (escape_boundary ed e invert rest).
Proof.
  intros Hc HJ. destruct (Hboundary Hc e invert HJ) as (e' & He & HJ'). unfold escape_boundary. rewrite He.
  exists e', rest, NoError, false. split; [done|]. split; [done|by exists []].
Qed.

Lemma escape_octal_ok e c rest :
  J e -> 48 <= c <= 57 -> (forall c, 0 <= c < 2 ^ 16 -> P c) -> escape_ok (c :: rest) (escape_octal ed e (c :: rest)).
Proof.
  intros HJ Hc Hall. unfold escape_octal, consumeOctal. rewrite option_bind_Some, u32_small by lia.
  destruct (octal_loop (c - 48) rest) as [n rest'] eqn:Hl. apply octal_loop_bound in Hl as [Hn (pre & ->)]; [|lia].
  rewrite app_comm_cons. apply escape_ok_weaken, escape_character_ok; [done|lia|apply Hall; lia].
Qed.

Lemma escape_decimal_ok e c rest :
  J e -> 48 <= c <= 57 -> (forall c, 0 <= c < 2 ^ 16 -> P c) -> escape_ok (c :: rest) (escape_decimal ed inCharacterClass limit e c (c :: rest)).
Proof.
  intros HJ Hc Hall. unfold escape_decimal, consumeNumber. rewrite option_bind_Some.
  destruct (number_loop _ rest) as [n rest'] eqn:Hl. apply number_loop_suffix in Hl as (pre & ->).
  destruct (negb inCharacterClass && (n <=? limit)) eqn:Hb.
  - bprop. destruct (Hback ltac:(done) e n HJ) as (e' & He & HJ'). unfold escape_atom. rewrite He, option_bind_Some.
    exists e', rest', NoError, true. split; [done|]. split; [done|]. by exists (c :: pre).
  - destruct (56 <=? c); [apply escape_small; [done|lia]|by apply escape_octal_ok].
Qed.

Lemma escape_control_ok e rest : J e -> escape_ok (99 :: rest) (escape_control ed inCharacterClass e (99 :: rest) rest).
Proof.
  intros HJ. assert (H92 : escape_ok (99 :: rest) (escape_character ed e 92 (99 :: rest))) by (apply escape_small; [done|lia]).
  unfold escape_control. destruct rest as [|d rest]; [done|]. destruct (if inCharacterClass then _ else _); [|done].
  change (99 :: d :: rest) with ([99; d] ++ rest). apply escape_ok_weaken, escape_small; [done|].
  change 31 with (Z.ones 5). rewrite Z.land_ones by lia. pose proof (Z.mod_pos_bound d (2 ^ 5)). lia.
Qed.

Lemma escape_hex_ok e count letter rest :
  J e -> Forall (fun c => 0 <= c) rest -> (forall c, 0 <= c < 2 ^ 16 -> P c) -> (count <= 4)%nat -> 0 <= letter < 128 ->
  escape_ok rest (escape_hex ed e count letter rest).
Proof.
  intros HJ Hr Hall Hcount Hlet. unfold escape_hex, tryConsumeHex. destruct (hex_loop count 0 rest) as [[n rest']|] eqn:Hl; cbn [default].
  - apply (hex_loop_bound count 0) in Hl as [Hn (pre & ->)]; [|lia|lia|done]. change (id (n, rest')) with (n, rest'). cbn beta iota.
    assert (2 ^ (4 * (0 + Z.of_nat count)) <= 2 ^ 16) by (apply Z.pow_le_mono_r; lia).
    destruct (Z.eqb_spec n (-1)); [lia|]. apply escape_ok_weaken, escape_character_ok; [done|lia|apply Hall; lia].
  - by apply escape_small.
Qed.

Ltac escape_head := match goal with |- escape_ok _ (if ?a =? ?b then _ else _) => destruct (Z.eqb_spec a b) as [->|] end.

Lemma parseEscape_ok e rest : J e -> class_safe P (92 :: rest) -> escape_ok rest (parseEscape ed inCharacterClass limit e rest).
Proof.
  intros HJ [Hf Hp]. apply Forall_cons in Hf as [_ Hf]. unfold parseEscape. destruct rest as [|c rest].
  { exists e, [], EscapeUnterminated, false. split; [done|]. split; [done|by exists []]. }
  assert (Hw : forall r, escape_ok rest r -> escape_ok (c :: rest) r) by (intros r Hr; by apply (escape_ok_weaken [c])).
  assert (Hn : numeric_escape c = true -> forall c, 0 <= c < 2 ^ 16 -> P c).
  { intros Hx. destruct Hp as [Hp|]; [|done]. cbn [plain_escapes] in Hp. by rewrite Hx in Hp. }
  apply Forall_cons in Hf as [[Hc HPc] Hf]. assert (Hf' : Forall (fun c => 0 <= c) rest) by (eapply Forall_impl; [exact Hf|]; cbn; lia).
  do 2 (escape_head; [destruct (Bool.bool_dec inCharacterClass true) as [Ei|Ei%not_true_is_false]; rewrite Ei; [apply Hw, escape_small; [done|lia]|apply Hw, escape_boundary_ok; done]|]).
  do 6 (escape_head; [apply Hw, escape_class_ok; done|]).
  destruct ((49 <=? c) && (c <=? 57)) eqn:Ed; [|clear Ed].
  { assert (Hx : numeric_escape c = true) by (unfold numeric_escape; bprop; apply orb_true_iff; right; apply andb_true_iff; lia).
    bprop. apply escape_decimal_ok; [done|lia|by apply Hn]. }
  escape_head; [apply escape_octal_ok; [done|lia|by apply Hn]|].
  do 5 (escape_head; [apply Hw, escape_small; [done|lia]|]).
  escape_head; [by apply escape_control_ok|].
  do 2 (escape_head; [apply Hw, escape_hex_ok; try done; try lia; by apply Hn|]).
  apply Hw, escape_character_ok; done.
Qed.
End Escape.

(** ** What a delegate promises *)

(** The call returns and leads from depth [n] to depth [n']. *)
Definition keeps {D} (I : Z -> D -> Prop) (n n' : Z) (call : D -> option D) : Prop := forall d, I n d -> exists d', call d = Some d' /\ I n' d'.

(** Calls keep the invariant [I], which knows the number of open parentheses,
    as long as the characters of classes satisfy [P]. *)
Class DelegateLaws (D : Type) `{Delegate D} (I : Z -> D -> Prop) (P : Z -> Prop) := {
  dl_ascii c : 0 <= c < 128 -> P c;
  dl_BOL n : keeps I n n assertionBOL;
  dl_EOL n : keeps I n n assertionEOL;
  dl_wordBoundary n b : keeps I n n (fun d => assertionWordBoundary d b);
  dl_character n c : 0 <= c < 2 ^ 16 -> keeps I n n (fun d => atomPatternCharacter d c);
  dl_class n id b : keeps I n n (fun d => atomBuiltInCharacterClass d id b);
  dl_classBegin n b : keeps I n n (fun d => atomCharacterClassBegin d b);
  dl_classAtom n c : 0 <= c < 2 ^ 16 -> P c -> keeps I n n (fun d => atomCharacterClassAtom d c);
  dl_classRange n a b : 0 <= a <= b -> b < 2 ^ 16 -> P a -> P b -> keeps I n n (fun d => atomCharacterClassRange d a b);
  dl_classBuiltIn n id b : keeps I n n (fun d => atomCharacterClassBuiltIn d id b);
  dl_classEnd n : keeps I n n atomCharacterClassEnd;
  dl_begin n b : 0 <= n -> keeps I n (n + 1) (fun d => atomParenthesesSubpatternBegin d b);
  dl_assertion n b : 0 <= n -> keeps I n (n + 1) (fun d => atomParentheticalAssertionBegin d b);
  dl_end n : 0 < n -> keeps I n (n - 1) atomParenthesesEnd;
  dl_back n k : keeps I n n (fun d => atomBackReference d k);
  dl_quantify n min max b : keeps I n n (fun d => quantifyAtom d min max b);
  dl_disjunction n : keeps I n n disjunction
}.

Section Parser.
Context {D : Type} (I : Z -> D -> Prop) (P : Z -> Prop) `{DelegateLaws D I P} (limit : Z).

(** A class under construction. *)
Record class_ok (n : Z) (s : CharacterClassParserDelegate D) : Prop := {
  co_inv : I n (cc_delegate s);
  co_cached : match cc_state s with CachedCharacter | CachedCharacterHyphen => 0 <= m_character s < 2 ^ 16 /\ P (m_character s) | _ => True end
}.

Lemma class_character_ok n s ch b :
  class_ok n s -> 0 <= ch < 2 ^ 16 -> P ch -> exists s', class_atomPatternCharacter s ch b = Some s' /\ class_ok n s'.
Proof.
  intros [Hi Hc] Hch HP. assert (H45 : P 45) by (apply (dl_ascii (I := I)); lia). unfold class_atomPatternCharacter. destruct s as [d err st c]. cbn in *.
  destruct st; cbn.
  - eexists. split; [reflexivity|]. by split.
  - destruct Hc as [Hc HPc]. destruct (b && (ch =? 45)); [eexists; split; [reflexivity|by split]|].
    destruct (dl_classAtom n c Hc HPc d Hi) as (d' & -> & Hi'). rewrite option_bind_Some. eexists. split; [reflexivity|]. by split.
  - destruct Hc as [Hc HPc]. destruct (Z.ltb_spec ch c); [eexists; split; [reflexivity|by split]|].
    destruct (dl_classRange n c ch ltac:(lia) ltac:(lia) HPc HP d Hi) as (d' & -> & Hi'). rewrite option_bind_Some. eexists. split; [reflexivity|]. by split.
  - destruct (b && (ch =? 45)); [|eexists; split; [reflexivity|by split]].
    destruct (dl_classAtom n 45 ltac:(lia) H45 d Hi) as (d' & -> & Hi'). rewrite option_bind_Some. eexists. split; [reflexivity|]. by split.
  - destruct (dl_classAtom n ch Hch HP d Hi) as (d' & -> & Hi'). rewrite option_bind_Some. eexists. split; [reflexivity|]. by split.
Qed.

Lemma class_builtin_ok n s id invert : class_ok n s -> exists s', class_atomBuiltInCharacterClass s id invert = Some s' /\ class_ok n s'.
Proof.
  intros [Hi Hc]. assert (H45 : P 45) by (apply (dl_ascii (I := I)); lia). unfold class_atomBuiltInCharacterClass. destruct s as [d err st c]. cbn in *.
  assert (Hb : forall d, I n d -> exists d', atomCharacterClassBuiltIn d id invert = Some d' /\ I n d') by apply dl_classBuiltIn.
  destruct st; cbn.
  - destruct (Hb d Hi) as (d' & -> & Hi'). eexists. split; [reflexivity|]. by split.
  - destruct Hc as [Hc HPc]. destruct (dl_classAtom n c Hc HPc d Hi) as (d1 & -> & Hi1). rewrite option_bind_Some.
    destruct (Hb d1 Hi1) as (d' & -> & Hi'). eexists. split; [reflexivity|]. by split.
  - destruct Hc as [Hc HPc]. destruct (dl_classAtom n c Hc HPc d Hi) as (d1 & -> & Hi1). rewrite option_bind_Some.
    destruct (dl_classAtom n 45 ltac:(lia) H45 d1 Hi1) as (d2 & -> & Hi2). rewrite option_bind_Some.
    destruct (Hb d2 Hi2) as (d' & -> & Hi'). eexists. split; [reflexivity|]. by split.
  - destruct (Hb d Hi) as (d' & -> & Hi'). eexists. split; [reflexivity|]. by split.
  - destruct (Hb d Hi) as (d' & -> & Hi'). eexists. split; [reflexivity|]. by split.
Qed.

Lemma class_end_ok n s : class_ok n s -> exists d, class_end s = Some d /\ I n d.
Proof.
  intros [Hi Hc]. assert (H45 : P 45) by (apply (dl_ascii (I := I)); lia). unfold class_end. destruct s as [d err st c]. cbn in *.
  assert (He : forall d, I n d -> exists d', atomCharacterClassEnd d = Some d' /\ I n d') by apply dl_classEnd.
  destruct st; cbn; try by apply He.
  - destruct Hc as [Hc HPc]. destruct (dl_classAtom n c Hc HPc d Hi) as (d1 & -> & Hi1). by apply He.
  - destruct Hc as [Hc HPc]. destruct (dl_classAtom n c Hc HPc d Hi) as (d1 & -> & Hi1). rewrite option_bind_Some.
    destruct (dl_classAtom n 45 ltac:(lia) H45 d1 Hi1) as (d2 & -> & Hi2). by apply He.
Qed.

(** The parser after a token that started at [rest]. *)
Definition token_ok (p : Parser D) (rest : list Z) (p' : Parser D) : Prop :=
  (exists pre, rest = pre ++ m_rest p') /\
  (m_err p' = NoError -> I (m_parenthesesNestingDepth p') (m_delegate p') /\
     0 <= m_parenthesesNestingDepth p' <= m_parenthesesNestingDepth p + 1).

Lemma class_loop_ok fuel p : forall s rest,
  class_ok (m_parenthesesNestingDepth p) s -> class_safe P rest -> (length rest < fuel)%nat -> 0 <= m_parenthesesNestingDepth p ->
  m_err p = NoError ->
  exists p', class_loop limit fuel p s rest = Some p' /\ token_ok p rest p'.
Proof.
  induction fuel as [|fuel IH]; intros s rest Hs Hsafe Hf Hdepth Herr; [lia|]. cbn [class_loop]. destruct rest as [|c rest].
  { eexists. split; [reflexivity|]. split; [by exists []|done]. }
  cbn [length] in Hf. destruct (Z.eqb_spec c 93) as [->|].
  { destruct (class_end_ok _ s Hs) as (d & -> & Hd). eexists. split; [reflexivity|]. split; [by exists [93]|]. intros _. cbn. split; [done|lia]. }
  assert (Hstep : exists s' rest', (if c =? 92 then '(s, rest, err, _) ← parseEscape classEscapes true limit s rest;
      Some (if decide (err = NoError) then s else mkClass (cc_delegate s) err (cc_state s) (m_character s), rest)
      else s ← class_atomPatternCharacter s c true; Some (s, rest)) = Some (s', rest') /\ class_ok (m_parenthesesNestingDepth p) s' /\ exists pre, rest = pre ++ rest').
  { destruct (Z.eqb_spec c 92) as [->|].
    - destruct (parseEscape_ok (classEscapes (D := D)) true limit P (class_ok (m_parenthesesNestingDepth p))) with (e := s) (rest := rest)
        as (s' & rest' & err & atom & -> & Hs' & Hpre); try done.
      + apply (dl_ascii (I := I)).
      + intros e ch He Hch HPc. by apply class_character_ok.
      + intros e id inv He. by apply class_builtin_ok.
      + rewrite option_bind_Some. eexists _, rest'. split; [reflexivity|]. split; [|done]. destruct (decide (err = NoError)); [done|]. destruct Hs'. by split.
    - destruct Hsafe as [Hfa _]. apply Forall_cons in Hfa as [[Hc HPc] _].
      destruct (class_character_ok _ s c true Hs Hc HPc) as (s' & -> & Hs'). rewrite option_bind_Some. exists s', rest. split; [done|]. split; [done|by exists []]. }
  destruct Hstep as (s' & rest' & -> & Hs' & pre & ->). rewrite option_bind_Some. destruct (decide (cc_err s' = NoError)) as [|Hne].
  - destruct (IH s' rest' Hs') as (p' & -> & [(pre' & ->) Hok]); [|rewrite length_app in Hf; lia|done|done|].
    + apply (class_safe_tail P c) in Hsafe. by eapply class_safe_suffix.
    + exists p'. split; [done|]. split; [|done]. exists (c :: pre ++ pre'). by rewrite <- app_comm_cons, (assoc_L (++)).
  - eexists. split; [reflexivity|]. split; [by exists (c :: pre)|]. cbn. by intros ?.
Qed.

Lemma tryConsume_suffix ch rest b rest' : tryConsume ch rest = (b, rest') -> exists pre, rest = pre ++ rest'.
Proof. destruct rest as [|c rest]; cbn; [intros [= _ <-]; by exists []|]. destruct (c =? ch); intros [= _ <-]; [by exists [c]|by exists []]. Qed.

Lemma token_ok_weaken p pre rest p' : token_ok p rest p' -> token_ok p (pre ++ rest) p'.
Proof. intros [(pre' & ->) Hi]. split; [|done]. exists (pre ++ pre'). by rewrite (assoc_L (++)). Qed.

(** A call that keeps the depth. *)
Lemma token_call p d rest : I (m_parenthesesNestingDepth p) d -> 0 <= m_parenthesesNestingDepth p -> token_ok p rest (at_rest p d rest).
Proof. intros Hd Hn. split; [by exists []|]. intros _. cbn. split; [done|lia]. Qed.

Lemma token_error p p' rest : (exists pre, rest = pre ++ m_rest p') -> m_err p' <> NoError -> token_ok p rest p'.
Proof. intros Hp Hne. split; [done|]. by intros ?. Qed.

Section Token.
Variable p : Parser D.
Hypothesis Hi : I (m_parenthesesNestingDepth p) (m_delegate p).
Hypothesis Hdepth : 0 <= m_parenthesesNestingDepth p < 2 ^ 32 - 1.
Hypothesis Herr : m_err p = NoError.

Lemma parseCharacterClass_ok rest : class_safe P rest -> exists p', parseCharacterClass limit p rest = Some p' /\ token_ok p rest p'.
Proof.
  intros Hsafe. unfold parseCharacterClass. destruct (tryConsume 94 rest) as [invert rest'] eqn:Ht. apply tryConsume_suffix in Ht as (pre & ->).
  destruct (dl_classBegin _ invert _ Hi) as (d & -> & Hd). rewrite option_bind_Some.
  destruct (class_loop_ok (S (length rest')) p (mkClass d NoError ClassEmpty 0) rest') as (p' & Hl & Hok); try done; try lia.
  - by eapply class_safe_suffix.
  - exists p'. split; [exact Hl|by apply token_ok_weaken].
Qed.

Lemma parseParenthesesBegin_ok rest : exists p', parseParenthesesBegin p rest = Some p' /\ token_ok p rest p'.
Proof.
  unfold parseParenthesesBegin. destruct (tryConsume 63 rest) as [special rest'] eqn:Ht. apply tryConsume_suffix in Ht as (pre & ->). rewrite u32_small by lia.
  assert (Hopen : forall d r, I (m_parenthesesNestingDepth p + 1) d -> token_ok p r (mkParser d (m_err p) r (m_parenthesesNestingDepth p + 1))).
  { intros d r Hd. split; [by exists []|]. intros _. cbn. split; [done|lia]. }
  destruct special.
  - destruct rest' as [|c rest']; [eexists; split; [reflexivity|]; apply token_error; [by exists pre|done]|].
    assert (Hw : forall p', token_ok p rest' p' -> token_ok p (pre ++ c :: rest') p') by (intros p' Hp'; by apply token_ok_weaken, (token_ok_weaken p [c])).
    destruct (c =? 58); [|destruct (c =? 61); [|destruct (c =? 33)]].
    + destruct (dl_begin _ false (proj1 Hdepth) _ Hi) as (d & -> & Hd). rewrite !option_bind_Some. eexists. split; [reflexivity|]. by apply Hw, Hopen.
    + destruct (dl_assertion _ false (proj1 Hdepth) _ Hi) as (d & -> & Hd). rewrite !option_bind_Some. eexists. split; [reflexivity|]. by apply Hw, Hopen.
    + destruct (dl_assertion _ true (proj1 Hdepth) _ Hi) as (d & -> & Hd). rewrite !option_bind_Some. eexists. split; [reflexivity|]. by apply Hw, Hopen.
    + rewrite !option_bind_Some. eexists. split; [reflexivity|]. apply token_error; [|done]. cbn. exists (pre ++ [c]). by rewrite <- (assoc_L (++)).
  - destruct (dl_begin _ true (proj1 Hdepth) _ Hi) as (d & -> & Hd). rewrite !option_bind_Some. eexists. split; [reflexivity|]. by apply token_ok_weaken, Hopen.
Qed.

Lemma parseParenthesesEnd_ok rest : exists p', parseParenthesesEnd p rest = Some p' /\ token_ok p rest p'.
Proof.
  unfold parseParenthesesEnd. destruct (Z.ltb_spec 0 (m_parenthesesNestingDepth p)) as [Hpos|].
  - destruct (dl_end _ Hpos _ Hi) as (d & -> & Hd). rewrite option_bind_Some, u32_small by lia. eexists. split; [reflexivity|].
    split; [by exists []|]. intros _. cbn. split; [done|lia].
  - eexists. split; [reflexivity|]. apply token_error; [by exists []|done].
Qed.

Lemma parseQuantifier_ok rest last min max : exists p', parseQuantifier p rest last min max = Some p' /\ token_ok p rest p'.
Proof.
  unfold parseQuantifier. destruct (min =? uint32_max); [eexists; split; [reflexivity|]; apply token_error; [by exists []|done]|].
  destruct last; [|eexists; split; [reflexivity|]; apply token_error; [by exists []|done]].
  destruct (tryConsume 63 rest) as [lazy rest'] eqn:Ht. apply tryConsume_suffix in Ht as (pre & ->).
  destruct (dl_quantify _ min max (negb lazy) _ Hi) as (d & -> & Hd). rewrite option_bind_Some. eexists. split; [reflexivity|].
  apply token_ok_weaken, token_call; [done|lia].
Qed.

Lemma consumeNumber_suffix rest n rest' : consumeNumber rest = Some (n, rest') -> exists pre, rest = pre ++ rest'.
Proof. destruct rest as [|c rest]; cbn; [done|]. intros [= Hl]. apply number_loop_suffix in Hl as (pre & ->). by exists (c :: pre). Qed.

Lemma braces_suffix rest min max rest' : braces rest = Some (min, max, rest') -> exists pre, rest = pre ++ rest'.
Proof.
  unfold braces. destruct (peekIsDigit rest); [|done]. destruct (consumeNumber rest) as [[n r1]|] eqn:E1; [|done]. rewrite option_bind_Some.
  apply consumeNumber_suffix in E1 as (p1 & ->). destruct (tryConsume 44 r1) as [comma r2] eqn:E2. apply tryConsume_suffix in E2 as (p2 & ->).
  assert (Hmax : forall x, (if comma then if peekIsDigit r2 then consumeNumber r2 else Some (quantifyInfinite, r2) else Some (n, r2)) = Some x -> exists p3, r2 = p3 ++ snd x).
  { intros [m r3]. destruct comma; [destruct (peekIsDigit r2)|]; [apply consumeNumber_suffix|intros [= _ <-]; by exists []|intros [= _ <-]; by exists []]. }
  destruct (if comma then _ else _) as [[m r3]|]; [|done]. destruct (Hmax _ eq_refl) as (p3 & ->). cbn [snd]. rewrite option_bind_Some.
  destruct (tryConsume 125 r3) as [closed r4] eqn:E4. apply tryConsume_suffix in E4 as (p4 & ->). destruct closed; [|done]. intros [= <- <- <-].
  exists (p1 ++ p2 ++ p3 ++ p4). by rewrite <- !(assoc_L (++)).
Qed.

Ltac token_head := match goal with |- exists _ _, (if ?a =? ?b then _ else _) = _ /\ _ => destruct (a =? b) end.

Lemma parse_token_ok c rest last : class_safe P (c :: rest) -> exists p' atom, parse_token limit p c rest last = Some (p', atom) /\ token_ok p rest p'.
Proof.
  intros Hsafe. pose proof (class_safe_tail _ _ _ Hsafe) as Hsafe'. pose proof Hsafe as [[[Hc _] _]%Forall_cons _]. unfold parse_token.
  assert (Hn : 0 <= m_parenthesesNestingDepth p) by lia.
  assert (Hcall : forall (call : D -> option D) (b : bool), keeps I (m_parenthesesNestingDepth p) (m_parenthesesNestingDepth p) call ->
    exists p' atom, (d ← call (m_delegate p); Some (at_rest p d rest, b)) = Some (p', atom) /\ token_ok p rest p').
  { intros call b Hk. destruct (Hk _ Hi) as (d & -> & Hd). rewrite option_bind_Some. eexists _, _. split; [reflexivity|]. by apply token_call. }
  assert (Hsub : forall (q : option (Parser D)) (b : bool) r, (exists p', q = Some p' /\ token_ok p r p') -> (exists pre, rest = pre ++ r) ->
    exists p' atom, (p' ← q; Some (p', b)) = Some (p', atom) /\ token_ok p rest p').
  { intros q b r (p' & -> & Hp') (pre & ->). rewrite option_bind_Some. eexists _, _. split; [reflexivity|]. by apply token_ok_weaken. }
  assert (Hself : exists pre, rest = pre ++ rest) by by exists [].
  set (character := d ← atomPatternCharacter (m_delegate p) c; _).
  assert (Hchar : exists p' atom, character = Some (p', atom) /\ token_ok p rest p') by apply (Hcall _ _ (dl_character _ c Hc)).
  token_head; [apply (Hcall disjunction), dl_disjunction|].
  token_head; [by apply (Hsub _ _ rest); [apply parseParenthesesBegin_ok|]|].
  token_head; [by apply (Hsub _ _ rest); [apply parseParenthesesEnd_ok|]|].
  token_head; [apply (Hcall assertionBOL), dl_BOL|]. token_head; [apply (Hcall assertionEOL), dl_EOL|].
  token_head; [apply (Hcall (fun d => atomBuiltInCharacterClass d NewlineClassID true)), dl_class|].
  token_head; [by apply (Hsub _ _ rest); [by apply parseCharacterClass_ok|]|].
  destruct (Z.eqb_spec c 92) as [->|].
  { destruct (parseEscape_ok (atomEscapes (D := D)) false limit P (I (m_parenthesesNestingDepth p))) with (e := m_delegate p) (rest := rest)
      as (d & rest' & err & atom & -> & Hd & Hpre); try done.
    - apply (dl_ascii (I := I)).
    - intros e ch He Hch _. by apply dl_character.
    - intros e id inv He. by apply dl_class.
    - intros _ e inv He. by apply dl_wordBoundary.
    - intros _ e k He. by apply dl_back.
    - rewrite option_bind_Some. eexists _, _. split; [reflexivity|]. split; [exact Hpre|]. intros _. cbn. split; [done|lia]. }
  do 3 (token_head; [by apply (Hsub _ _ rest); [apply parseQuantifier_ok|]|]).
  token_head; [|done]. destruct (braces rest) as [[[min max] rest']|] eqn:Eb; [|done]. apply braces_suffix in Eb as Hpre.
  destruct (min <=? max); [by apply (Hsub _ _ rest'); [apply parseQuantifier_ok|]|].
  eexists _, _. split; [reflexivity|]. apply token_error; [exact Hpre|done].
Qed.
End Token.

Lemma parse_tokens_ok fuel : forall p last,
  I (m_parenthesesNestingDepth p) (m_delegate p) -> 0 <= m_parenthesesNestingDepth p -> m_parenthesesNestingDepth p + vlen (m_rest p) < 2 ^ 32 - 1 ->
  m_err p = NoError -> class_safe P (m_rest p) -> (length (m_rest p) < fuel)%nat ->
  exists p', parse_tokens limit fuel p last = Some p' /\ (m_err p' = NoError -> I 0 (m_delegate p')).
Proof.
  induction fuel as [|fuel IH]; intros p last Hi Hn Hb Herr Hsafe Hf; [lia|]. cbn [parse_tokens]. destruct (m_rest p) as [|c rest] eqn:Er.
  - destruct (Z.ltb_spec 0 (m_parenthesesNestingDepth p)); [by eexists|]. exists p. split; [done|]. intros _.
    assert (m_parenthesesNestingDepth p = 0) as <- by lia. done.
  - cbn [length] in Hb, Hf. destruct (parse_token_ok p Hi ltac:(lia) Herr c rest last Hsafe) as (p' & atom & -> & (pre & Hpre) & Hok). rewrite option_bind_Some.
    destruct (decide (m_err p' = NoError)) as [He|]; [|exists p'; split; [done|]; by intros ?]. destruct (Hok He) as [Hi' Hn'].
    assert (Hlen : (length (m_rest p') <= length rest)%nat) by (rewrite Hpre, length_app; lia).
    apply IH; try done; try lia. apply class_safe_tail in Hsafe. rewrite Hpre in Hsafe. by eapply class_safe_suffix.
Qed.

(** The parser returns; without an error all parentheses are closed. *)
Lemma parse_ok d pattern :
  I 0 d -> class_safe P pattern -> exists d' err, parse limit d pattern = Some (d', err) /\ (err = NoError -> I 0 d').
Proof.
  intros Hi Hsafe. unfold parse, MAX_PATTERN_SIZE. destruct (Z.ltb_spec (1024 * 1024) (vlen pattern)); [by eexists _, _|].
  destruct (parse_tokens_ok (S (length pattern)) (mkParser d NoError pattern 0) false) as (p' & -> & Hp'); try done; cbn [m_rest m_parenthesesNestingDepth]; try lia.
  rewrite option_bind_Some. eexists _, _. split; [reflexivity|]. done.
Qed.
End Parser.
