(* ===== verification/FilterSyntax.v ===== *)
(** * The syntax of URL filters and what it means

    The part of the regular expressions that URL filters support, as a tree:
    how it is written and which URLs it matches.  It is the reference for the
    parser. *)

From S2P Require Import Prelude Bits DFA RangeList HashSet NFA Term TermLanguage.

Inductive class_item :=
| Single (c : Z)
| Between (a b : Z).

Inductive atom :=
| AChar (c : Z)
| ADot
| AClass (inverted : bool) (items : list class_item)
| AGroup (terms : list (atom * AtomQuantifier)).

Abbreviation quantified_atom := (atom * AtomQuantifier)%type.

Record filter := mkFilter { f_beginning : bool; f_terms : list quantified_atom; f_end : bool }.

(** Induction with the terms of a group. *)
Lemma atom_ind' (P : atom -> Prop) :
  (forall c, P (AChar c)) -> P ADot -> (forall inverted items, P (AClass inverted items)) ->
  (forall terms, Forall (fun t => P (fst t)) terms -> P (AGroup terms)) -> forall a, P a.
Proof.
  intros Hc Hd Hs Hg. fix IH 1. intros [c| |inverted items|terms]; [apply Hc|apply Hd|apply Hs|apply Hg].
  induction terms as [|[a q] terms IHt]; constructor; [apply IH|exact IHt].
Qed.

(** ** Writing *)

Definition special (c : Z) : bool := existsb (Z.eqb c) [94; 36; 92; 46; 42; 43; 63; 40; 41; 91; 93; 123; 125; 124].
Definition special_in_class (c : Z) : bool := existsb (Z.eqb c) [93; 92; 94; 45].

Definition print_char (c : Z) : list Z := if special c then [92; c] else [c].
Definition print_class_char (c : Z) : list Z := if special_in_class c then [92; c] else [c].

Definition print_item (item : class_item) : list Z :=
  match item with
  | Single c => print_class_char c
  | Between a b => print_class_char a ++ [45] ++ print_class_char b
  end.

Definition print_quantifier (q : AtomQuantifier) : list Z :=
  match q with One => [] | ZeroOrOne => [63] | ZeroOrMore => [42] | OneOrMore => [43] end.

Fixpoint print_atom (a : atom) : list Z :=
  match a with
  | AChar c => print_char c
  | ADot => [46]
  | AClass inverted items => [91] ++ (if inverted then [94] else []) ++ concat (map print_item items) ++ [93]
  | AGroup terms => [40] ++ concat (map (fun t => print_atom (fst t) ++ print_quantifier (snd t)) terms) ++ [41]
  end.

Definition print_term (t : quantified_atom) : list Z := print_atom (fst t) ++ print_quantifier (snd t).
Definition print_terms (ts : list quantified_atom) : list Z := concat (map print_term ts).

Definition print_filter (r : filter) : list Z :=
  (if f_beginning r then [94] else []) ++ print_terms (f_terms r) ++ (if f_end r then [36] else []).

(** ** Well-formed filters: ASCII characters, the terminator excluded *)

Definition item_ok (item : class_item) : Prop :=
  match item with
  | Single c => text_char c
  | Between a b => text_char a /\ text_char b /\ a <= b
  end.

Fixpoint atom_ok (a : atom) : Prop :=
  match a with
  | AChar c => text_char c
  | ADot => True
  | AClass _ items => Forall item_ok items
  | AGroup terms => foldr (fun t others => atom_ok (fst t) /\ others) True terms
  end.

Definition filter_ok (r : filter) : Prop := Forall (fun t => atom_ok (fst t)) (f_terms r).

(** No group is empty. *)
Fixpoint solid_atom (a : atom) : Prop :=
  match a with
  | AGroup terms => terms <> [] /\ foldr (fun t others => solid_atom (fst t) /\ others) True terms
  | _ => True
  end.

Definition solid_filter (r : filter) : Prop := Forall (fun t => solid_atom (fst t)) (f_terms r).

(** ** Meaning *)

Section Meaning.
Variable isCaseSensitive : bool.

(** The characters a character stands for. *)
Definition folded (c d : Z) : Prop :=
  d = c \/ (isCaseSensitive = false /\ isASCIIAlpha c = true /\ (d = toASCIIUpper c \/ d = toASCIILower c)).

Definition item_has (item : class_item) (d : Z) : Prop :=
  match item with
  | Single c => folded c d
  | Between a b => exists c, a <= c <= b /\ folded c d
  end.

Definition class_has (items : list class_item) (d : Z) : Prop := Exists (fun item => item_has item d) items.

Fixpoint atom_matches (a : atom) : lang :=
  match a with
  | AChar c => fun w => exists d, w = [d] /\ folded c d
  | ADot => fun w => exists d, w = [d] /\ text_char d
  | AClass inverted items => fun w => exists d, w = [d] /\ text_char d /\ (if inverted then ~ class_has items d else class_has items d)
  | AGroup terms => lang_sequence (map (fun t => lang_quantified (snd t) (atom_matches (fst t))) terms)
  end.

Definition qatom_matches (t : quantified_atom) : lang := lang_quantified (snd t) (atom_matches (fst t)).

(** A URL is matched somewhere; the end of the URL is the terminator. *)
Definition filter_matches (r : filter) (url : list Z) : Prop :=
  exists before text after, url ++ [0] = before ++ text ++ after /\ (f_beginning r = true -> before = [])
    /\ lang_sequence (map qatom_matches (f_terms r) ++ (if f_end r then [fun w => w = [0]] else [])) text.
End Meaning.
