(* ===== verification/FilterParserCorrect.v ===== *)
(** * The URL filter parser keeps its promises

    The delegate of the regular expression parser never aborts as long as the
    characters in classes are ASCII, and its stack of groups is as deep as the
    parentheses. *)

From stdpp Require Import gmap.
From S2P Require Import Prelude Bits DFA RangeList HashSet NFA Term TermLanguage FilterSyntax CombinedURLFilters PrefixTree Yarr YarrCorrect URLFilterParser.

(** ** Building terms from ASCII characters *)

Definition ascii (c : Z) : Prop := 0 <= c < 128.

Lemma isASCII_spec c : 0 <= c -> isASCII c = true <-> c < 128.
Proof.
  intros Hc. unfold isASCII. rewrite Z.eqb_eq. change (Z.lnot 127) with (Z.lnot (Z.ones 7)). rewrite <- Z.ldiff_land, Z.ldiff_ones_r by lia.
  rewrite Z.shiftl_mul_pow2, Z.shiftr_div_pow2 by lia. change (2 ^ 7) with 128. pose proof (Z.div_mod c 128 ltac:(lia)). pose proof (Z.mod_pos_bound c 128 ltac:(lia)).
  split; intros; nia.
Qed.

Lemma case_range c : ascii c -> ascii (toASCIIUpper c) /\ ascii (toASCIILower c).
Proof.
  intros Hc. assert (Hall : forallb (fun c => (0 <=? toASCIIUpper c) && (toASCIIUpper c <? 128) && ((0 <=? toASCIILower c) && (toASCIILower c <? 128))) (seqZ 0 128) = true)
    by by vm_compute.
  rewrite forallb_forall in Hall. assert (Hin : c ∈ seqZ 0 128) by (unfold ascii in Hc; apply elem_of_seqZ; lia).
  specialize (Hall c (proj1 (list_elem_of_In _ _) Hin)). bprop. unfold ascii. lia.
Qed.

Lemma case_cases c : ascii c -> isASCIIAlpha c = true -> c = toASCIIUpper c \/ c = toASCIILower c.
Proof.
  intros Hc Ha. assert (Hall : forallb (fun c => negb (isASCIIAlpha c) || (c =? toASCIIUpper c) || (c =? toASCIILower c)) (seqZ 0 128) = true) by by vm_compute.
  rewrite forallb_forall in Hall. assert (Hin : c ∈ seqZ 0 128) by (unfold ascii in Hc; apply elem_of_seqZ; lia).
  specialize (Hall c (proj1 (list_elem_of_In _ _) Hin)). rewrite Ha in Hall. cbn in Hall. apply orb_true_iff in Hall as [Hall|Hall]; bprop; auto.
Qed.

Lemma addCharacter_spec q cs c b :
  ascii c -> exists cs', addCharacter (CharacterSetTerm q cs) c b = Some (CharacterSetTerm q cs') /\ m_inverted cs' = m_inverted cs /\
    forall d, ascii d -> cs_bit cs' d = true <-> folded b c d \/ cs_bit cs d = true.
Proof.
  intros Hc. cbn [addCharacter]. destruct (b || negb (isASCIIAlpha c)) eqn:E.
  - destruct (cs_set_spec cs c Hc) as (cs' & -> & Hi & Hb). exists cs'. split; [done|]. split; [done|]. intros d Hd.
    rewrite (Hb d Hd), orb_true_iff, Z.eqb_eq. unfold folded. destruct b; cbn in E; [intuition congruence|]. bprop. intuition congruence.
  - bprop. subst b. destruct (case_range c Hc) as [Hu Hl]. destruct (cs_set_spec cs _ Hu) as (cs1 & -> & Hi1 & Hb1). rewrite option_bind_Some.
    destruct (cs_set_spec cs1 _ Hl) as (cs2 & -> & Hi2 & Hb2). exists cs2. split; [done|]. split; [congruence|]. intros d Hd.
    rewrite (Hb2 d Hd), (Hb1 d Hd), !orb_true_iff, !Z.eqb_eq. unfold folded. destruct (case_cases c Hc) as [Ec|Ec]; [done| |]; intuition congruence.
Qed.

Lemma addCharacter_returns t c b : ascii c -> exists t', addCharacter t c b = Some t'.
Proof. intros Hc. destruct t as [q|q cs|q ts]; [by eexists| |by eexists]. destruct (addCharacter_spec q cs c b Hc) as (cs' & -> & _). by eexists. Qed.

Lemma characterTerm_returns c b : ascii c -> exists t, characterTerm c b = Some t.
Proof. apply addCharacter_returns. Qed.

(** ** The laws of the delegate *)

(** Without an error the open groups are the open parentheses. *)
Definition groups_match (n : Z) (p : PatternParser) : Prop := hasError p = true \/ vlen (m_openGroups p) = n.

Lemma fail_error p reason : reason <> Ok -> hasError (fail p reason) = true.
Proof. intros Hr. unfold fail. destruct (hasError p) eqn:E; [done|]. unfold hasError. cbn. by rewrite bool_decide_eq_false_2. Qed.

Lemma sink_groups n p : groups_match n p -> groups_match n (sinkFloatingTermIfNecessary p).
Proof.
  intros Hp. unfold sinkFloatingTermIfNecessary. destruct (isValid (m_floatingTerm p)); cbn [negb]; [|done].
  destruct (m_hasProcessedEndOfLineAssertion p); [left; apply (fail_error p MisplacedEndOfLine); done|].
  destruct (isEndOfLineAssertion (m_floatingTerm p)); cbn [with_lines m_openGroups]; destruct (m_openGroups p) eqn:Eg; destruct Hp as [Hp|Hp];
    try (by left); right; cbn in *; rewrite ?Eg in *; done.
Qed.

Lemma unless_error_keeps n n' call :
  (forall p, hasError p = false -> vlen (m_openGroups p) = n -> exists p', call p = Some p' /\ groups_match n' p') ->
  keeps groups_match n n' (fun p => unless_error p call).
Proof.
  intros Hcall p Hp. unfold unless_error. destruct (hasError p) eqn:E; [exists p; split; [done|by left]|].
  destruct Hp as [Hp|Hp]; [congruence|]. by apply Hcall.
Qed.

Lemma fail_keeps n n' reason : reason <> Ok -> keeps groups_match n n' (fun p => Some (fail p reason)).
Proof. intros Hr p _. eexists. split; [reflexivity|]. left. by apply fail_error. Qed.

(** Replacing the floating term after sinking it. *)
Lemma float_keeps n p t : groups_match n p -> groups_match n (with_floating p t).
Proof. intros [Hp|Hp]; [by left|by right]. Qed.

Lemma universal_some : exists t, universalTransition = Some t.
Proof. eexists. vm_compute. reflexivity. Qed.

Lemma eol_some : exists t, endOfLineAssertionTerm = Some t.
Proof. eexists. vm_compute. reflexivity. Qed.

Lemma range_returns b l : Forall ascii l -> forall t, exists t', foldl (fun term i => term ← term; addCharacter term (u16 i) b) (Some t) l = Some t'.
Proof.
  induction 1 as [|c l Hc Hl IH]; intros t; [by exists t|]. cbn [foldl]. rewrite option_bind_Some, uwrap_small by (unfold ascii in Hc; lia).
  destruct (addCharacter_returns t c b Hc) as (t' & ->). apply IH.
Qed.

#[export] Instance pattern_parser_laws : DelegateLaws PatternParser groups_match ascii.
Proof.
  assert (Hm : forall n p, hasError p = false -> vlen (m_openGroups p) = n -> groups_match n (sinkFloatingTermIfNecessary p))
    by (intros n p _ Hp; apply sink_groups; by right).
  split.
  - done.
  - intros n. apply unless_error_keeps. intros p He Hp. destruct (_ || _); eexists; (split; [reflexivity|]); [left; by apply fail_error|by right].
  - intros n. apply unless_error_keeps. intros p He Hp. destruct eol_some as [t ->]. eexists. split; [reflexivity|]. by apply float_keeps, Hm.
  - intros n b. by apply fail_keeps.
  - intros n c Hc. apply unless_error_keeps. intros p He Hp. destruct (isASCII c) eqn:Ea; cbn [negb]; [|eexists; split; [reflexivity|]; left; by apply fail_error].
    apply isASCII_spec in Ea; [|lia]. destruct (characterTerm_returns c (m_patternIsCaseSensitive (sinkFloatingTermIfNecessary p))) as (t & ->); [split; lia|].
    eexists. split; [reflexivity|]. by apply float_keeps, Hm.
  - intros n id b. apply unless_error_keeps. intros p He Hp. destruct universal_some as [t ->].
    destruct id, b; eexists; (split; [reflexivity|]); try (left; by apply fail_error). by apply float_keeps, Hm.
  - intros n b. apply unless_error_keeps. intros p He Hp. eexists. split; [reflexivity|]. by apply float_keeps, Hm.
  - intros n c _ Hc. apply unless_error_keeps. intros p He Hp. destruct (addCharacter_returns (m_floatingTerm p) c (m_patternIsCaseSensitive p) Hc) as (t & ->).
    eexists. split; [reflexivity|]. by right.
  - intros n a b Hab _ Ha Hb. apply unless_error_keeps. intros p He Hp.
    destruct (range_returns (m_patternIsCaseSensitive p) (seqZ a (b - a + 1))) with (t := m_floatingTerm p) as (t & ->).
    { apply Forall_forall. intros c Hc%elem_of_seqZ. unfold ascii in *. lia. }
    eexists. split; [reflexivity|]. by right.
  - intros n id b. by apply fail_keeps.
  - intros n p Hp. eexists. split; [reflexivity|done].
  - intros n b _. apply unless_error_keeps. intros p He Hp. eexists. split; [reflexivity|]. destruct (Hm n p He Hp) as [Hs|Hs]; [by left|right; cbn in *; lia].
  - intros n b _. by apply fail_keeps.
  - intros n Hn. apply unless_error_keeps. intros p He Hp. destruct (m_openGroups (sinkFloatingTermIfNecessary p)) as [|g gs] eqn:Eg.
    + exfalso. assert (Hlen : length (m_openGroups (sinkFloatingTermIfNecessary p)) = length (m_openGroups p)).
      { unfold sinkFloatingTermIfNecessary. destruct (negb _); [done|]. destruct (m_hasProcessedEndOfLineAssertion p).
        - unfold fail. by destruct (hasError p).
        - destruct (isEndOfLineAssertion _); cbn [with_lines m_openGroups]; destruct (m_openGroups p) eqn:E; cbn; by rewrite ?E. }
      rewrite Eg in Hlen. cbn in Hlen. lia.
    + cbv zeta. rewrite Eg. eexists. split; [reflexivity|]. destruct (Hm n p He Hp) as [Hs|Hs]; [by left|right]. rewrite Eg in Hs. cbn in *. lia.
  - intros n k. by apply fail_keeps.
  - intros n min max b. apply unless_error_keeps. intros p He Hp.
    destruct (_ && _); [|destruct (_ && _); [|destruct (_ && _)]]; eexists; (split; [reflexivity|]); try (by right). left. by apply fail_error.
  - intros n. by apply fail_keeps.
Qed.

(** ** Finalization *)

Lemma canonicalDotStar_some : exists t, canonicalDotStar = Some t.
Proof. unfold canonicalDotStar. destruct universal_some as [t ->]. by eexists. Qed.

Lemma canonicalize_nonempty dotStar terms : terms <> [] -> canonicalize dotStar false terms <> [].
Proof. destruct terms as [|t terms]; [done|]. intros _. cbn [canonicalize]. by destruct (isKnownToMatchAnyString t). Qed.

Lemma last_some {A} (l : list A) : l <> [] -> exists x, l.[vlen l - 1] = Some x.
Proof. intros Hl. apply vec_at_is_Some. destruct l; [done|]. cbn [length]. lia. Qed.

Lemma remove_trailing_some terms : terms <> [] -> exists terms', remove_trailing_dot_star terms = Some terms' /\ terms' <> [].
Proof.
  intros Hne. unfold remove_trailing_dot_star. destruct (last_some terms Hne) as [t ->]. rewrite option_bind_Some.
  destruct (Z.ltb_spec 2 (vlen terms)); cbn [andb]; [|by exists terms]. destruct (isEndOfLineAssertion t); [|by exists terms].
  destruct (vec_at_is_Some terms (vlen terms - 2)) as [u ->]; [lia|]. rewrite option_bind_Some.
  destruct (isKnownToMatchAnyString u); [|by exists terms]. eexists. split; [reflexivity|]. intros E%(f_equal length). rewrite length_take in E. cbn in E. lia.
Qed.

Lemma simplifySunkTerms_some terms b : exists terms', simplifySunkTerms terms b = Some terms'.
Proof.
  unfold simplifySunkTerms. case_bool_decide as Hne; [by eexists|]. destruct canonicalDotStar_some as [dotStar ->]. rewrite option_bind_Some. cbv zeta.
  pose proof (canonicalize_nonempty dotStar terms Hne) as Hc. destruct (canonicalize dotStar false terms) as [|t ts]; [done|].
  change ((t :: ts).[0]) with (Some t). rewrite option_bind_Some.
  destruct (remove_trailing_some (if negb b && negb (isKnownToMatchAnyString t) then dotStar :: t :: ts else t :: ts)) as (ts' & -> & Hts'); [by destruct (_ && _)|].
  rewrite option_bind_Some. destruct (last_some ts' Hts') as [u ->]. rewrite option_bind_Some. by eexists.
Qed.

(** [f'] has one more pattern than [f], with the action [id]. *)
Definition adds_one (f f' : CombinedURLFilters) (id : Z) : Prop :=
  exists ts, ts <> [] /\ forall ts' a, has_pattern f' ts' a <-> has_pattern f ts' a \/ (ts' = ts /\ a = id).

Lemma finalizePattern_returns p id f :
  wf_tree f -> exists p' f', finalizePattern p id f = Some (p', f') /\ wf_tree f'
    /\ (m_parseStatus p' = Ok -> adds_one f f' id) /\ (m_parseStatus p' = MatchesEverything -> f' = f).
Proof.
  intros Hf. unfold finalizePattern. destruct (hasError p) eqn:He.
  { exists p, f. split; [done|]. split; [done|]. split; [|done]. intros Hok. unfold hasError in He. by rewrite Hok in He. }
  destruct (simplifySunkTerms_some (m_sunkTerms (sinkFloatingTermIfNecessary p)) (m_hasBeginningOfLineAssertion (sinkFloatingTermIfNecessary p))) as [ts ->].
  rewrite option_bind_Some. destruct (forallb _ ts) eqn:Hall.
  { eexists _, f. split; [reflexivity|]. split; [done|]. split; [|done]. intros Hok. exfalso.
    assert (Hfail : hasError (fail (with_sunk (sinkFloatingTermIfNecessary p) ts) MatchesEverything) = true) by by apply fail_error.
    unfold hasError in Hfail. by rewrite Hok in Hfail. }
  assert (Hne : ts <> []) by (intros ->; done). destruct (addPattern_spec f id ts Hf Hne) as (f' & -> & Hf' & Hp). rewrite option_bind_Some.
  eexists _, f'. split; [reflexivity|]. split; [done|]. split; [intros _; by exists ts|]. intros Hm. exfalso. revert Hm. cbn [with_sunk m_parseStatus].
  unfold hasError in He. apply negb_false_iff, bool_decide_eq_true in He. unfold sinkFloatingTermIfNecessary. destruct (negb _); [by rewrite He|].
  destruct (m_hasProcessedEndOfLineAssertion p); [unfold fail, hasError; rewrite He; by rewrite bool_decide_eq_true_2|].
  destruct (isEndOfLineAssertion _); cbn [with_lines m_openGroups]; destruct (m_openGroups p); cbn; by rewrite He.
Qed.

(** ** The whole parser *)

Lemma pattern_safe pattern : Forall (fun c => 0 <= c < 2 ^ 16) pattern -> forallb isASCII pattern = true -> plain_escapes pattern = true -> class_safe ascii pattern.
Proof.
  intros Hc Ha Hp. split; [|by left]. rewrite forallb_forall in Ha. apply Forall_forall. intros c Hin. rewrite Forall_forall in Hc.
  specialize (Hc c Hin). split; [done|]. split; [lia|]. apply isASCII_spec; [lia|]. by apply Ha, list_elem_of_In.
Qed.

(** Every pattern without numeric escapes is parsed: the parser ends with a
    status and a tree, and adds a pattern if the status says so. *)
Lemma addURLFilter_spec f pattern isCaseSensitive id :
  wf_tree f -> Forall (fun c => 0 <= c < 2 ^ 16) pattern -> plain_escapes pattern = true ->
  exists f' status, addURLFilter f pattern isCaseSensitive id = Some (f', status) /\ wf_tree f'
    /\ (status = Ok -> adds_one f f' id) /\ (status = MatchesEverything -> f' = f).
Proof.
  intros Hf Hc Hp. unfold addURLFilter. destruct (forallb isASCII pattern) eqn:Ha; cbn [negb]; [|by exists f, NonASCII].
  case_bool_decide; [by exists f, EmptyPattern|].
  destruct (parse_ok groups_match ascii 0 (newPatternParser isCaseSensitive) pattern) as (p & err & -> & _); [by right|by apply pattern_safe|].
  rewrite option_bind_Some. case_bool_decide; [|by exists f, YarrError].
  destruct (finalizePattern_returns p id f Hf) as (p' & f' & -> & Hf' & Hok & Hall). rewrite option_bind_Some. by exists f', (m_parseStatus p').
Qed.
