(* ===== verification/FilterRun.v ===== *)
(** * Parsing a written filter

    Running the regular expression parser on a filter that was written from
    its syntax tree leads to one call of the delegate after the other, and the
    URL filter parser collects terms that match what the tree matches. *)

From stdpp Require Import gmap.
From S2P Require Import Prelude Bits DFA RangeList HashSet NFA Term TermLanguage FilterSyntax CombinedURLFilters PrefixTree Yarr YarrCorrect URLFilterParser FilterParserCorrect.

(** ** Character classes *)

Section Class.
Context {D : Type} `{Delegate D}.

Definition item_call (d : D) (item : class_item) : option D :=
  match item with
  | Single c => atomCharacterClassAtom d c
  | Between a b => atomCharacterClassRange d a b
  end.

Fixpoint item_calls (d : D) (items : list class_item) : option D :=
  match items with
  | [] => Some d
  | item :: items => d ← item_call d item; item_calls d items
  end.

Lemma item_calls_app l : forall d l', item_calls d (l ++ l') = (d ← item_calls d l; item_calls d l').
Proof. induction l as [|i l IHl]; intros d l'; [done|]. cbn [app item_calls]. destruct (item_call d i); [|done]. by rewrite !option_bind_Some. Qed.

(** A class between two items: a single character may be kept back. *)
Definition between_items (s : CharacterClassParserDelegate D) : Prop :=
  cc_err s = NoError /\ match cc_state s with ClassEmpty | CachedCharacter => True | _ => False end.

Definition kept_back (s : CharacterClassParserDelegate D) : list class_item :=
  match cc_state s with CachedCharacter => [Single (m_character s)] | _ => [] end.

Lemma special_in_class_cases c : special_in_class c = true -> c = 93 \/ c = 92 \/ c = 94 \/ c = 45.
Proof. unfold special_in_class. cbn [existsb]. rewrite !orb_true_iff, !Z.eqb_eq. naive_solver. Qed.

Lemma plain_in_class c : special_in_class c = false -> c <> 93 /\ c <> 92 /\ c <> 94 /\ c <> 45.
Proof. unfold special_in_class. cbn [existsb]. rewrite !orb_false_iff, !Z.eqb_neq. naive_solver. Qed.

(** One written character is one call. *)
Lemma class_loop_char fuel p (s : CharacterClassParserDelegate D) c rest :
  cc_err s = NoError ->
  class_loop 0 (S fuel) p s (print_class_char c ++ rest) =
  (s ← class_atomPatternCharacter s c false;
   if decide (cc_err s = NoError) then class_loop 0 fuel p s rest
   else Some (mkParser (cc_delegate s) (cc_err s) rest (m_parenthesesNestingDepth p))).
Proof.
  intros Herr. unfold print_class_char. destruct (special_in_class c) eqn:Es.
  - apply special_in_class_cases in Es. cbn [app class_loop]. change (92 =? 93) with false. change (92 =? 92) with true. cbn beta iota.
    assert (He : parseEscape classEscapes true 0 s (c :: rest) = escape_character classEscapes s c rest) by (destruct Es as [->|[->|[->| ->]]]; reflexivity).
    rewrite He. unfold escape_character, escape_atom. cbn [ed_atomPatternCharacter classEscapes].
    destruct (class_atomPatternCharacter s c false) as [s'|]; [|done]. rewrite !option_bind_Some. destruct (decide (NoError = NoError)); done.
  - apply plain_in_class in Es as (H1 & H2 & H3 & H4). cbn [app class_loop]. rewrite (proj2 (Z.eqb_neq c 93) H1), (proj2 (Z.eqb_neq c 92) H2).
    assert (He : class_atomPatternCharacter s c true = class_atomPatternCharacter s c false)
      by (unfold class_atomPatternCharacter; by rewrite (proj2 (Z.eqb_neq c 45) H4)).
    rewrite He. destruct (class_atomPatternCharacter s c false) as [s'|]; [|done]. by rewrite !option_bind_Some.
Qed.

Lemma print_class_char_pos c : (1 <= length (print_class_char c))%nat.
Proof. unfold print_class_char. destruct (special_in_class c); cbn; lia. Qed.

Lemma class_loop_items items : forall fuel p s rest,
  between_items s -> Forall item_ok items -> (length (concat (map print_item items)) < fuel)%nat ->
  class_loop 0 fuel p s (concat (map print_item items) ++ 93 :: rest) =
  (d ← item_calls (cc_delegate s) (kept_back s ++ items); d ← atomCharacterClassEnd d; Some (at_rest p d rest)).
Proof.
  assert (Hfirst : forall fuel p s c rest, between_items s ->
    class_loop 0 (S fuel) p s (print_class_char c ++ rest) =
    (d ← item_calls (cc_delegate s) (kept_back s); class_loop 0 fuel p (mkClass d NoError CachedCharacter c) rest)).
  { intros fuel p [d err st m] c rest [Herr Hst]. rewrite class_loop_char by done. cbn in Herr, Hst. subst err.
    unfold class_atomPatternCharacter, kept_back. cbn [cc_state cc_delegate m_character andb]. destruct st; try done; cbn [item_calls item_call].
    destruct (atomCharacterClassAtom d m) as [d'|]; [|done]. rewrite !option_bind_Some. done. }
  induction items as [|item items IH]; intros fuel p s rest Hs Hok Hf.
  - cbn [map concat app]. destruct fuel as [|fuel]; [cbn in Hf; lia|]. cbn [class_loop]. change (93 =? 93) with true. cbn beta iota.
    rewrite app_nil_r. destruct s as [d err st m], Hs as [Herr Hst]. cbn in Herr, Hst. subst err. unfold class_end, kept_back. cbn [cc_state cc_delegate m_character].
    destruct st; try done; cbn [item_calls item_call]. destruct (atomCharacterClassAtom d m); [|done]. by rewrite !option_bind_Some.
  - apply Forall_cons in Hok as [Hi Hok]. cbn [map concat] in Hf |- *. rewrite length_app in Hf. rewrite <- (assoc_L (++)).
    destruct item as [c|a b]; cbn [print_item] in Hf |- *.
    + pose proof (print_class_char_pos c). destruct fuel as [|fuel]; [lia|]. rewrite Hfirst by done.
      rewrite item_calls_app. destruct (item_calls (cc_delegate s) (kept_back s)) as [d|]; [|done]. rewrite !option_bind_Some.
      rewrite IH; [done|by split|done|lia].
    + destruct Hi as (Ha & Hb & Hab). pose proof (print_class_char_pos a). pose proof (print_class_char_pos b). rewrite !length_app in Hf. cbn [length] in Hf.
      destruct fuel as [|fuel]; [lia|]. rewrite <- (assoc_L (++) (print_class_char a)). rewrite Hfirst by done.
      rewrite item_calls_app. destruct (item_calls (cc_delegate s) (kept_back s)) as [d|]; [|done]. rewrite !option_bind_Some.
      destruct fuel as [|fuel]; [lia|]. rewrite <- (assoc_L (++)). cbn [app class_loop]. change (45 =? 93) with false. change (45 =? 92) with false. cbn beta iota.
      unfold class_atomPatternCharacter at 1. cbn [cc_state andb]. change (45 =? 45) with true. cbn beta iota. rewrite !option_bind_Some. cbn [cc_err with_class_state cc_delegate m_character].
      destruct (decide (NoError = NoError)); [|done]. destruct fuel as [|fuel]; [lia|]. rewrite class_loop_char by done.
      unfold class_atomPatternCharacter at 1. cbn [cc_state cc_delegate m_character with_class_state]. destruct (Z.ltb_spec b a); [lia|]. cbn [item_calls item_call].
      destruct (atomCharacterClassRange d a b) as [d'|]; [|done]. rewrite !option_bind_Some. cbn [cc_err]. destruct (decide (NoError = NoError)); [|done].
      rewrite IH; [done|by split|done|lia].
Qed.
End Class.

(** ** Character sets from classes *)

Lemma folded_ascii b c d : text_char c -> folded b c d -> text_char d.
Proof.
  intros Hc [->|(_ & _ & Hd)]; [done|].
  assert (Hall : forallb (fun c => (1 <=? toASCIIUpper c) && (toASCIIUpper c <? 128) && ((1 <=? toASCIILower c) && (toASCIILower c <? 128))) (seqZ 1 127) = true)
    by by vm_compute.
  rewrite forallb_forall in Hall. assert (Hin : c ∈ seqZ 1 127) by (unfold text_char in Hc; apply elem_of_seqZ; lia).
  specialize (Hall c (proj1 (list_elem_of_In _ _) Hin)). bprop. unfold text_char. destruct Hd as [->| ->]; lia.
Qed.

Lemma item_has_text b item d : item_ok item -> item_has b item d -> text_char d.
Proof. destruct item as [c|x y]; cbn; [apply folded_ascii|]. intros (Hx & Hy & _) (c & Hc & Hd). eapply folded_ascii; [|exact Hd]. unfold text_char in *. lia. Qed.

Lemma class_has_text b items d : Forall item_ok items -> class_has b items d -> text_char d.
Proof. intros Hok [item [Hin Hd]]%Exists_exists. rewrite Forall_forall in Hok. eapply item_has_text; [by apply Hok|done]. Qed.

Lemma add_range b l : Forall ascii l -> forall cs, exists cs',
  foldl (fun term i => term ← term; addCharacter term (u16 i) b) (Some (CharacterSetTerm One cs)) l = Some (CharacterSetTerm One cs')
  /\ m_inverted cs' = m_inverted cs /\ forall d, ascii d -> cs_bit cs' d = true <-> (exists c, c ∈ l /\ folded b c d) \/ cs_bit cs d = true.
Proof.
  induction 1 as [|c l Hc Hl IH]; intros cs.
  { exists cs. split; [done|]. split; [done|]. intros d _. split; [by right|]. intros [(c & []%not_elem_of_nil & _)|]; done. }
  cbn [foldl]. rewrite option_bind_Some, uwrap_small by (unfold ascii in Hc; lia).
  destruct (addCharacter_spec One cs c b Hc) as (cs1 & -> & Hi1 & Hb1). destruct (IH cs1) as (cs2 & -> & Hi2 & Hb2).
  exists cs2. split; [done|]. split; [congruence|]. intros d Hd. rewrite (Hb2 d Hd), (Hb1 d Hd). split.
  - intros [(c' & Hc' & Hf)|[Hf|Hold]]; [left; exists c'; split; [by right|done]|left; exists c; split; [by left|done]|by right].
  - intros [(c' & [->|Hc']%elem_of_cons & Hf)|Hold]; [by right; left|left; by exists c'|by right; right].
Qed.

Lemma text_ascii c : text_char c -> ascii c.
Proof. unfold text_char, ascii. lia. Qed.

Lemma item_call_spec p cs item :
  hasError p = false -> m_floatingTerm p = CharacterSetTerm One cs -> item_ok item ->
  exists cs', item_call p item = Some (with_floating p (CharacterSetTerm One cs')) /\ m_inverted cs' = m_inverted cs
    /\ forall d, ascii d -> cs_bit cs' d = true <-> item_has (m_patternIsCaseSensitive p) item d \/ cs_bit cs d = true.
Proof.
  intros He Hfl Hok. destruct item as [c|a b]; cbn [item_call].
  - cbn [atomCharacterClassAtom pattern_parser_delegate]. unfold pp_atomCharacterClassAtom, unless_error. rewrite He, Hfl.
    destruct (addCharacter_spec One cs c (m_patternIsCaseSensitive p) (text_ascii c Hok)) as (cs' & -> & Hi & Hb). by exists cs'.
  - destruct Hok as (Ha & Hb & Hab). cbn [atomCharacterClassRange pattern_parser_delegate]. unfold pp_atomCharacterClassRange, unless_error. rewrite He, Hfl.
    destruct (add_range (m_patternIsCaseSensitive p) (seqZ a (b - a + 1))) with (cs := cs) as (cs' & -> & Hi & Hbit).
    { apply Forall_forall. intros c Hc%elem_of_seqZ. unfold text_char, ascii in *. lia. }
    exists cs'. split; [done|]. split; [done|]. intros d Hd. rewrite (Hbit d Hd). cbn [item_has].
    assert (Hin : (exists c, c ∈ seqZ a (b - a + 1) /\ folded (m_patternIsCaseSensitive p) c d) <-> exists c, a <= c <= b /\ folded (m_patternIsCaseSensitive p) c d).
    { split; intros (c & Hc & Hf); exists c; (split; [|done]); [apply elem_of_seqZ in Hc; lia|apply elem_of_seqZ; lia]. }
    by rewrite Hin.
Qed.

Lemma item_calls_spec items : forall p cs,
  hasError p = false -> m_floatingTerm p = CharacterSetTerm One cs -> Forall item_ok items ->
  exists cs', item_calls p items = Some (with_floating p (CharacterSetTerm One cs')) /\ m_inverted cs' = m_inverted cs
    /\ forall d, ascii d -> cs_bit cs' d = true <-> class_has (m_patternIsCaseSensitive p) items d \/ cs_bit cs d = true.
Proof.
  induction items as [|item items IH]; intros p cs He Hfl Hok; cbn [item_calls].
  { exists cs. split; [destruct p; cbn in Hfl |- *; by subst|]. split; [done|]. intros d _. unfold class_has. rewrite Exists_nil. naive_solver. }
  apply Forall_cons in Hok as [Hi Hok]. destruct (item_call_spec p cs item He Hfl Hi) as (cs1 & -> & Hi1 & Hb1). rewrite option_bind_Some.
  destruct (IH (with_floating p (CharacterSetTerm One cs1)) cs1 He eq_refl Hok) as (cs2 & -> & Hi2 & Hb2). exists cs2. split; [done|]. split; [congruence|].
  intros d Hd. rewrite (Hb2 d Hd), (Hb1 d Hd). unfold class_has. rewrite Exists_cons. cbn [m_patternIsCaseSensitive with_floating]. naive_solver.
Qed.

(** ** Terms for atoms *)

(** No end-of-line assertion inside. *)
Fixpoint eol_free (t : Term) : Prop :=
  match t with
  | EmptyTerm _ => False
  | CharacterSetTerm _ cs => cs_bit cs 0 = false
  | GroupTerm _ terms => foldr (fun t others => eol_free t /\ others) True terms
  end.

Lemma eol_free_group q ts : eol_free (GroupTerm q ts) <-> Forall eol_free ts.
Proof. cbn [eol_free]. induction ts as [|t ts IH]; cbn [foldr]; [by split|]. by rewrite Forall_cons, IH. Qed.

Lemma eol_free_valid t : eol_free t -> isValid t = true /\ isEndOfLineAssertion t = false.
Proof. destruct t as [q|q cs|q ts]; cbn [eol_free isValid isEndOfLineAssertion]; [done| |done]. intros Hb. split; [done|]. rewrite cs_get_bit, Hb by lia. apply andb_false_r. Qed.

Record stands_for (b : bool) (x : quantified_atom) (t : Term) : Prop := {
  sf_quantifier : m_quantifier t = snd x;
  sf_lang w : atom_lang t w <-> atom_matches b (fst x) w;
  sf_free : eol_free t;
  sf_solid : solid_atom (fst x) -> no_empty_group t
}.

Lemma stands_for_term b x t w : stands_for b x t -> term_lang t w <-> qatom_matches b x w.
Proof.
  intros [Hq Hl _ _]. unfold term_lang, qatom_matches. rewrite Hq.
  assert (Hmono : forall L L' : lang, (forall w, L w -> L' w) -> lang_quantified (snd x) L w -> lang_quantified (snd x) L' w).
  { clear. intros L L' HL. assert (Hstar : forall w, lang_star L w -> lang_star L' w) by (induction 1; constructor; auto).
    destruct (snd x); cbn; [auto|intros [?|?]; auto|auto|]. intros (u & v & -> & Hu & Hv). exists u, v. auto. }
  split; apply Hmono; intros v; apply Hl.
Qed.

Lemma stands_for_sequence b xs ts : Forall2 (stands_for b) xs ts ->
  forall w, lang_sequence (map (fun t => lang_quantified (m_quantifier t) (atom_lang t)) ts) w <-> lang_sequence (map (qatom_matches b) xs) w.
Proof.
  induction 1 as [|x t xs ts Hx _ IH]; intros w; [done|]. cbn [map lang_sequence]. unfold lang_app.
  setoid_rewrite IH. by setoid_rewrite (stands_for_term b x t _ Hx).
Qed.

Lemma stands_for_group b xs ts : Forall2 (stands_for b) xs ts -> stands_for b (AGroup xs, One) (GroupTerm One ts).
Proof.
  intros Hx. split; [done| | |].
  - intros w. cbn [atom_lang atom_matches fst]. apply (stands_for_sequence b xs ts Hx).
  - apply eol_free_group. induction Hx as [|x t xs ts Hx _ IH]; constructor; [apply Hx|done].
  - cbn [fst solid_atom no_empty_group]. intros [Hne Hs]. split; [intros ->; by inversion Hx; subst|]. clear Hne.
    induction Hx as [|x t xs ts Hx _ IH]; [done|]. cbn [foldr] in *. destruct Hs as [Hs1 Hs2]. split; [by apply Hx|by apply IH].
Qed.

Lemma quantify_stands b a t q : stands_for b (a, One) t -> stands_for b (a, q) (quantify t q).
Proof. intros [Hq Hl Hf Hs]. destruct t as [q'|q' cs|q' ts]; cbn in *; by split. Qed.

Lemma bit_zero cs : (forall d, ascii d -> cs_bit cs d = true -> text_char d) -> cs_bit cs 0 = false.
Proof. intros Hb. destruct (cs_bit cs 0) eqn:E; [|done]. apply Hb in E; [unfold text_char in E; lia|unfold ascii; lia]. Qed.

Lemma empty_bit d : ascii d -> cs_bit emptyCharacterSet d = false.
Proof. intros _. unfold cs_bit, emptyCharacterSet. cbn [m_characters0 m_characters1]. destruct (_ =? 0); apply Z.testbit_0_l. Qed.

Lemma characterTerm_stands b c : text_char c -> exists t, characterTerm c b = Some t /\ stands_for b (AChar c, One) t.
Proof.
  intros Hc. destruct (addCharacter_spec One emptyCharacterSet c b (text_ascii c Hc)) as (cs & Hadd & Hi & Hb). exists (CharacterSetTerm One cs).
  split; [exact Hadd|]. assert (Hbit : forall d, ascii d -> cs_bit cs d = true <-> folded b c d).
  { intros d Hd. rewrite (Hb d Hd), empty_bit by done. naive_solver. }
  split; [done| | |done].
  - intros w. cbn [atom_lang atom_matches fst]. unfold cs_matches. rewrite Hi. cbn [m_inverted emptyCharacterSet]. split.
    + intros (d & -> & Hd & Hdb). exists d. split; [done|]. by apply Hbit.
    + intros (d & -> & Hd). pose proof (text_ascii d (folded_ascii b c d Hc Hd)) as Ha. exists d. split; [done|]. split; [exact Ha|]. by apply Hbit.
  - cbn [eol_free]. apply bit_zero. intros d Hd. rewrite Hbit by done. by apply folded_ascii.
Qed.

Lemma class_stands b inverted items cs :
  Forall item_ok items -> m_inverted cs = inverted -> (forall d, ascii d -> cs_bit cs d = true <-> class_has b items d) ->
  stands_for b (AClass inverted items, One) (CharacterSetTerm One cs).
Proof.
  intros Hok Hi Hbit. split; [done| | |done].
  - intros w. cbn [atom_lang atom_matches fst]. unfold cs_matches. rewrite Hi. destruct inverted.
    + split; intros (d & -> & Hd & Hn); exists d; (split; [done|]); (split; [exact Hd|]).
      * rewrite <- Hbit by (by apply text_ascii). by rewrite Hn.
      * apply not_true_is_false. rewrite Hbit by (by apply text_ascii). done.
    + split; intros (d & -> & Hd & Hn); exists d; (split; [done|]).
      * apply Hbit in Hn; [|done]. split; [by eapply class_has_text|done].
      * split; [by apply text_ascii|]. by apply Hbit; [apply text_ascii|].
  - cbn [eol_free]. apply bit_zero. intros d Hd. rewrite Hbit by done. by apply class_has_text.
Qed.

Definition universalSet : CharacterSet := mkCharacterSet false (2 ^ 64 - 2) (2 ^ 64 - 1).

Lemma universal_set : universalTransition = Some (CharacterSetTerm One universalSet).
Proof. vm_compute. reflexivity. Qed.

Lemma universal_bits : forallb (fun d => eqb (cs_bit universalSet d) (1 <=? d)) (seqZ 0 128) = true.
Proof. vm_compute. reflexivity. Qed.

Lemma universal_stands b : exists t, universalTransition = Some t /\ stands_for b (ADot, One) t.
Proof.
  eexists. split; [apply universal_set|]. assert (Hbit : forall d, ascii d -> cs_bit universalSet d = (1 <=? d)).
  { intros d Hd. pose proof universal_bits as Hall. rewrite forallb_forall in Hall. apply eqb_prop, Hall, list_elem_of_In, elem_of_seqZ. unfold ascii in Hd. lia. }
  split; [done| | |done].
  - intros w. cbn [atom_lang atom_matches fst]. unfold cs_matches. change (m_inverted universalSet) with false. split; intros (d & -> & Hd); exists d; (split; [done|]).
    + destruct Hd as [Hd Hb]. rewrite Hbit in Hb by done. apply Z.leb_le in Hb. unfold text_char. lia.
    + pose proof (text_ascii d Hd). split; [done|]. rewrite Hbit by done. apply Z.leb_le. unfold text_char in Hd. lia.
  - cbn [eol_free]. rewrite Hbit; [done|]. unfold ascii. lia.
Qed.

(** ** Tokens *)

Abbreviation at_token d rest n := (mkParser d NoError rest n).

Lemma special_cases c : special c = true -> c ∈ [94; 36; 92; 46; 42; 43; 63; 40; 41; 91; 93; 123; 125; 124].
Proof. unfold special. intros (x & Hx & ->%Z.eqb_eq)%existsb_exists. by apply list_elem_of_In. Qed.

Lemma parse_plain {D} `{Delegate D} p c rest last :
  special c = false -> parse_token 0 p c rest last = (d ← atomPatternCharacter (m_delegate p) c; Some (at_rest p d rest, true)).
Proof.
  unfold special. cbn [existsb]. rewrite !orb_false_iff. intros (H94 & H36 & H92 & H46 & H42 & H43 & H63 & H40 & H41 & H91 & H93 & H123 & H125 & H124 & _).
  unfold parse_token. by rewrite H124, H40, H41, H94, H36, H46, H91, H92, H42, H43, H63, H123.
Qed.

Lemma escape_special {E} (ed : EscapeDelegate E) e c rest : special c = true -> parseEscape ed false 0 e (c :: rest) = escape_character ed e c rest.
Proof. intros Hc%special_cases. repeat (apply elem_of_cons in Hc as [->|Hc]; [reflexivity|]). by apply not_elem_of_nil in Hc. Qed.

Lemma tokens_char {D} `{Delegate D} fuel d c rest n last :
  parse_tokens 0 (S fuel) (at_token d (print_char c ++ rest) n) last = (d ← atomPatternCharacter d c; parse_tokens 0 fuel (at_token d rest n) true).
Proof.
  unfold print_char. destruct (special c) eqn:Es; cbn [app parse_tokens m_rest].
  - unfold parse_token. cbn [m_delegate m_parenthesesNestingDepth]. change (92 =? 92) with true.
    repeat match goal with |- context [92 =? ?k] => change (92 =? k) with false end. cbn beta iota. rewrite escape_special by done.
    unfold escape_character, escape_atom. cbn [ed_atomPatternCharacter atomEscapes]. destruct (atomPatternCharacter d c) as [d'|]; [|done].
    rewrite !option_bind_Some. cbn [m_err]. by destruct (decide (NoError = NoError)).
  - rewrite parse_plain by done. cbn [m_delegate]. destruct (atomPatternCharacter d c) as [d'|]; [|done]. rewrite !option_bind_Some. cbn [at_rest m_err].
    by destruct (decide (NoError = NoError)).
Qed.

(** Decide the comparisons of known characters. *)
Ltac known_chars := repeat match goal with |- context [Z.pos ?a =? Z.pos ?b] => let v := eval compute in (Z.pos a =? Z.pos b) in change (Z.pos a =? Z.pos b) with v end; cbn beta iota.

Lemma tokens_dot {D} `{Delegate D} fuel d rest n last :
  parse_tokens 0 (S fuel) (at_token d (46 :: rest) n) last =
  (d ← atomBuiltInCharacterClass d NewlineClassID true; parse_tokens 0 fuel (at_token d rest n) true).
Proof.
  cbn [parse_tokens m_rest]. unfold parse_token. known_chars. cbn [m_delegate]. destruct (atomBuiltInCharacterClass d NewlineClassID true); [|done]. rewrite !option_bind_Some. cbn [at_rest m_err].
  by destruct (decide (NoError = NoError)).
Qed.

Lemma items_head items rest : forall rest', tryConsume 94 (concat (map print_item items) ++ 93 :: rest) = (true, rest') -> False.
Proof.
  assert (Hc : forall c l rest', tryConsume 94 (print_class_char c ++ l) = (true, rest') -> False).
  { intros c l rest'. unfold print_class_char. destruct (special_in_class c) eqn:Es; [done|]. apply plain_in_class in Es as (_ & _ & H94 & _).
    cbn. destruct (Z.eqb_spec c 94); [done|]. done. }
  intros rest'. destruct items as [|[c|a b] items]; cbn [map concat print_item]; [done| |]; rewrite <- !(assoc_L (++)); apply Hc.
Qed.

Lemma tokens_class {D} `{Delegate D} fuel d inverted items rest n last :
  Forall item_ok items ->
  parse_tokens 0 (S fuel) (at_token d (print_atom (AClass inverted items) ++ rest) n) last =
  (d ← atomCharacterClassBegin d inverted; d ← item_calls d items; d ← atomCharacterClassEnd d; parse_tokens 0 fuel (at_token d rest n) true).
Proof.
  intros Hok. cbn [print_atom]. rewrite <- !(assoc_L (++)). cbn [app parse_tokens m_rest]. unfold parse_token.
  known_chars.
  set (text := concat (map print_item items) ++ 93 :: rest).
  assert (Ht : tryConsume 94 ((if inverted then [94] else []) ++ text) = (inverted, text)).
  { destruct inverted; [done|]. cbn [app]. destruct (tryConsume 94 text) as [[] r] eqn:E; [by apply items_head in E|].
    unfold tryConsume in E. destruct text as [|c l]; [by injection E as <-|]. destruct (c =? 94); [done|by injection E as <-]. }
  unfold parseCharacterClass. rewrite Ht. cbn [m_delegate]. destruct (atomCharacterClassBegin d inverted) as [d1|]; [|done]. rewrite !option_bind_Some.
  unfold text. rewrite class_loop_items; [|by split|done|rewrite length_app; cbn; lia]. cbn [cc_delegate kept_back cc_state app].
  destruct (item_calls d1 items) as [d2|]; [|done]. rewrite !option_bind_Some. destruct (atomCharacterClassEnd d2) as [d3|]; [|done]. rewrite !option_bind_Some.
  cbn [at_rest m_err]. by destruct (decide (NoError = NoError)).
Qed.

(** The next character does not make a quantifier lazy or a group special. *)
Definition no_question (rest : list Z) : Prop := forall rest', rest <> 63 :: rest'.

Lemma tryConsume_question rest : no_question rest -> tryConsume 63 rest = (false, rest).
Proof. intros Hr. destruct rest as [|c rest]; [done|]. cbn. destruct (Z.eqb_spec c 63) as [->|]; [by destruct (Hr rest)|done]. Qed.

Lemma tokens_begin {D} `{Delegate D} fuel d rest n last :
  no_question rest -> 0 <= n < 2 ^ 32 - 1 ->
  parse_tokens 0 (S fuel) (at_token d (40 :: rest) n) last =
  (d ← atomParenthesesSubpatternBegin d true; parse_tokens 0 fuel (at_token d rest (n + 1)) false).
Proof.
  intros Hr Hn. cbn [parse_tokens m_rest]. unfold parse_token. known_chars. unfold parseParenthesesBegin. rewrite tryConsume_question by done. cbn [m_delegate m_parenthesesNestingDepth m_err]. rewrite u32_small by lia.
  destruct (atomParenthesesSubpatternBegin d true); [|done]. rewrite !option_bind_Some. cbn [m_err]. by destruct (decide (NoError = NoError)).
Qed.

Lemma tokens_end {D} `{Delegate D} fuel d rest n last :
  0 < n < 2 ^ 32 -> parse_tokens 0 (S fuel) (at_token d (41 :: rest) n) last =
  (d ← atomParenthesesEnd d; parse_tokens 0 fuel (at_token d rest (n - 1)) true).
Proof.
  intros Hn. cbn [parse_tokens m_rest]. unfold parse_token. known_chars. unfold parseParenthesesEnd. cbn [m_delegate m_parenthesesNestingDepth m_err]. rewrite u32_small by lia. destruct (Z.ltb_spec 0 n); [|lia].
  destruct (atomParenthesesEnd d); [|done]. rewrite !option_bind_Some. cbn [m_err]. by destruct (decide (NoError = NoError)).
Qed.

Definition quantifier_bounds (q : AtomQuantifier) : Z * Z :=
  match q with One => (1, 1) | ZeroOrOne => (0, 1) | ZeroOrMore => (0, quantifyInfinite) | OneOrMore => (1, quantifyInfinite) end.

Lemma tokens_quantifier {D} `{Delegate D} fuel d q rest n :
  no_question rest -> q <> One ->
  parse_tokens 0 (S fuel) (at_token d (print_quantifier q ++ rest) n) true =
  (d ← quantifyAtom d (fst (quantifier_bounds q)) (snd (quantifier_bounds q)) true; parse_tokens 0 fuel (at_token d rest n) false).
Proof.
  intros Hr Hq.
  assert (Hp : forall min max, 0 <= min <= 1 -> (p ← parseQuantifier (at_token d (print_quantifier q ++ rest) n) rest true min max; Some (p, false)) =
    (d ← quantifyAtom d min max true; Some (at_token d rest n, false))).
  { intros min max Hmin. unfold parseQuantifier. destruct (Z.eqb_spec min uint32_max) as [->|]; [unfold uint32_max in Hmin; lia|].
    rewrite tryConsume_question by done. cbn [m_delegate negb at_rest m_err m_parenthesesNestingDepth]. destruct (quantifyAtom d min max true); [|done]. by rewrite !option_bind_Some. }
  destruct q; [done| | |]; cbn [print_quantifier app quantifier_bounds fst snd] in Hp |- *; cbn [parse_tokens m_rest]; unfold parse_token;
    known_chars;
    rewrite Hp by lia; destruct (quantifyAtom d _ _ true); try done; rewrite !option_bind_Some; cbn [m_err]; by destruct (decide (NoError = NoError)).
Qed.

(** ** The state of the URL filter parser between terms *)

Definition is_group (t : Term) : Prop := match t with GroupTerm _ _ => True | _ => False end.

Record good (b : bool) (p : PatternParser) : Prop := {
  gd_status : m_parseStatus p = Ok;
  gd_end : m_hasProcessedEndOfLineAssertion p = false;
  gd_case : m_patternIsCaseSensitive p = b;
  gd_groups : Forall is_group (m_openGroups p);
  gd_floating : m_floatingTerm p = EmptyTerm One \/ eol_free (m_floatingTerm p)
}.

(** Terms added to the innermost group, or to the pattern. *)
Definition append_terms (p : PatternParser) (ts : list Term) : PatternParser :=
  match m_openGroups p with
  | [] => with_sunk p (m_sunkTerms p ++ ts)
  | GroupTerm q l :: groups => with_groups p (GroupTerm q (l ++ ts) :: groups)
  | _ => p
  end.

Lemma good_no_error b p : good b p -> hasError p = false.
Proof. intros [Hs _ _ _ _]. unfold hasError. rewrite Hs. by rewrite bool_decide_eq_true_2. Qed.

Lemma sink_settled p : m_floatingTerm p = EmptyTerm One -> sinkFloatingTermIfNecessary p = p.
Proof. intros Hf. unfold sinkFloatingTermIfNecessary. by rewrite Hf. Qed.

Lemma sink_float b p t :
  good b p -> m_floatingTerm p = EmptyTerm One -> eol_free t -> sinkFloatingTermIfNecessary (with_floating p t) = append_terms p [t].
Proof.
  intros [_ He _ Hg _] Hf Ht. apply eol_free_valid in Ht as [Hv Hn]. unfold sinkFloatingTermIfNecessary. cbn [m_floatingTerm with_floating m_hasProcessedEndOfLineAssertion].
  rewrite Hv, He, Hn. cbn [negb m_openGroups]. unfold append_terms. destruct p as [cs gs sunk fl bol eol st]. cbn in *. subst fl.
  destruct gs as [|g gs]; [done|]. apply Forall_cons in Hg as [Hg _]. by destruct g.
Qed.

Lemma append_good b p ts : good b p -> good b (append_terms p ts).
Proof.
  intros [Hs He Hc Hg Hf]. unfold append_terms. destruct (m_openGroups p) as [|[q|q cs|q l] gs] eqn:E;
    [split; try done; cbn; rewrite E; constructor|by apply Forall_cons in Hg as [[] _]|by apply Forall_cons in Hg as [[] _]|].
  split; try done. cbn. apply Forall_cons in Hg as [_ Hg]. by constructor.
Qed.

Lemma append_floating p ts : m_floatingTerm (append_terms p ts) = m_floatingTerm p.
Proof. unfold append_terms. by destruct (m_openGroups p) as [|[] ?]. Qed.

Lemma append_app b p l l' : good b p -> append_terms (append_terms p l) l' = append_terms p (l ++ l').
Proof.
  intros Hp. pose proof (gd_groups b p Hp) as Hg. unfold append_terms. destruct p as [cs gs sunk fl bol eol st]. cbn in *.
  destruct gs as [|g gs]; cbn; [by rewrite <- (assoc_L (++))|]. apply Forall_cons in Hg as [Hg _]. destruct g; try done. cbn. by rewrite <- (assoc_L (++)).
Qed.

Lemma append_nil b p : good b p -> append_terms p [] = p.
Proof.
  intros Hp. pose proof (gd_groups b p Hp) as Hg. unfold append_terms. destruct p as [cs gs sunk fl bol eol st]. cbn in *.
  destruct gs as [|g gs]; [by rewrite app_nil_r|]. apply Forall_cons in Hg as [Hg _]. destruct g; try done. by rewrite app_nil_r.
Qed.

Lemma sink_good b p : good b p -> good b (sinkFloatingTermIfNecessary p) /\ m_floatingTerm (sinkFloatingTermIfNecessary p) = EmptyTerm One.
Proof.
  intros Hp. pose proof Hp as [Hs He Hc Hg [Hf|Hf]]; [by rewrite sink_settled|].
  set (p0 := with_floating p (EmptyTerm One)). assert (Hp0 : good b p0) by (split; try done; by left).
  assert (Hpe : p = with_floating p0 (m_floatingTerm p)) by by destruct p. rewrite Hpe, (sink_float b) by done.
  split; [by apply append_good|]. by rewrite append_floating.
Qed.

Lemma good_float b p t : good b p -> eol_free t -> good b (with_floating p t).
Proof. intros [Hs He Hc Hg _] Ht. split; try done. by right. Qed.

(** ** Running the parser on atoms and terms *)

Section Run.
Variable b : bool.

(** Parsing [text], with a rest as described by [Q], in the state [p] leads to the state [p']. *)
Definition runs (Q : list Z -> Prop) (p : PatternParser) (text : list Z) (n : Z) (p' : PatternParser) (atom : option bool) : Prop :=
  forall fuel rest last, (length text <= fuel)%nat -> Q rest -> exists fuel' last', (fuel <= fuel' + length text)%nat /\
    (match atom with Some a => last' = a | None => True end) /\
    parse_tokens 0 fuel (at_token p (text ++ rest) n) last = parse_tokens 0 fuel' (at_token p' rest n) last'.

Abbreviation any_rest := (fun _ : list Z => True).

Definition runs_atom (a : atom) : Prop :=
  atom_ok a -> forall p n, good b p -> 0 <= n -> n + vlen (print_atom a) < 2 ^ 32 - 1 ->
  exists t, stands_for b (a, One) t /\ runs any_rest p (print_atom a) n (with_floating (sinkFloatingTermIfNecessary p) t) (Some true).

Lemma one_token p text n p' :
  (forall fuel rest last, parse_tokens 0 (S fuel) (at_token p (text ++ rest) n) last = parse_tokens 0 fuel (at_token p' rest n) true) ->
  text <> [] -> runs any_rest p text n p' (Some true).
Proof.
  intros Ht Hne fuel rest last Hf _. assert (1 <= length text)%nat by (destruct text; [done|cbn; lia]). destruct fuel as [|fuel]; [lia|].
  exists fuel, true. split; [lia|]. split; [done|]. by apply Ht.
Qed.

Lemma runs_char c : runs_atom (AChar c).
Proof.
  intros Hc p n Hp Hn Hlen. destruct (characterTerm_stands b c Hc) as (t & Ht & Hst). exists t. split; [done|]. apply one_token; [|cbn; unfold print_char; by destruct (special c)].
  intros fuel rest last. cbn [print_atom]. rewrite tokens_char. cbn [atomPatternCharacter pattern_parser_delegate]. unfold pp_atomPatternCharacter, unless_error.
  rewrite (good_no_error b p Hp). rewrite (proj2 (isASCII_spec c ltac:(cbn in Hc; unfold text_char in Hc; lia)) ltac:(cbn in Hc; unfold text_char in Hc; lia)). cbn [negb].
  destruct (sink_good b p Hp) as [Hs _]. rewrite (gd_case b _ Hs), Ht. by rewrite !option_bind_Some.
Qed.

Lemma runs_dot : runs_atom ADot.
Proof.
  intros _ p n Hp Hn Hlen. destruct (universal_stands b) as (t & Ht & Hst). exists t. split; [done|]. apply one_token; [|done].
  intros fuel rest last. cbn [print_atom app]. rewrite tokens_dot. cbn [atomBuiltInCharacterClass pattern_parser_delegate]. unfold pp_atomBuiltInCharacterClass, unless_error.
  by rewrite (good_no_error b p Hp), Ht.
Qed.

Lemma runs_class inverted items : runs_atom (AClass inverted items).
Proof.
  intros Hok p n Hp Hn Hlen. cbn in Hok. destruct (sink_good b p Hp) as [Hs Hfl].
  set (cs0 := if inverted then cs_invert emptyCharacterSet else emptyCharacterSet). set (p1 := with_floating (sinkFloatingTermIfNecessary p) (CharacterSetTerm One cs0)).
  assert (Hinv : m_inverted cs0 = inverted) by by destruct inverted.
  assert (Hbit0 : forall d, ascii d -> cs_bit cs0 d = false) by (intros d Hd; rewrite <- (empty_bit d Hd); by destruct inverted).
  assert (He1 : hasError p1 = false) by exact (good_no_error b _ Hs).
  destruct (item_calls_spec items p1 cs0 He1 eq_refl Hok) as (cs & Hcalls & Hi & Hbit). exists (CharacterSetTerm One cs). split.
  - apply class_stands; [done|congruence|]. intros d Hd. rewrite (Hbit d Hd), (Hbit0 d Hd). replace (m_patternIsCaseSensitive p1) with b by (symmetry; exact (gd_case b _ Hs)). naive_solver.
  - apply one_token; [|done]. intros fuel rest last. rewrite tokens_class by done. cbn [atomCharacterClassBegin pattern_parser_delegate].
    unfold pp_atomCharacterClassBegin, unless_error. rewrite (good_no_error b p Hp), option_bind_Some. change (with_floating _ (characterSetTerm inverted)) with p1.
    rewrite Hcalls, option_bind_Some. cbn [atomCharacterClassEnd pattern_parser_delegate]. by rewrite option_bind_Some.
Qed.

Lemma print_atom_head a l : no_question (print_atom a ++ l).
Proof.
  intros l'. destruct a as [c| |inverted items|ts]; cbn [print_atom app]; try done. unfold print_char. destruct (special c) eqn:Es; cbn; [done|].
  intros [= -> _]. by vm_compute in Es.
Qed.

Lemma print_terms_head ts l : no_question l -> no_question (print_terms ts ++ l).
Proof. intros Hl. destruct ts as [|[a q] ts]; [done|]. unfold print_terms, print_term. cbn [map concat fst]. rewrite <- !(assoc_L (++)). apply print_atom_head. Qed.

(** An atom and its quantifier. *)
Lemma runs_term a q p n :
  runs_atom a -> atom_ok a -> good b p -> 0 <= n -> n + vlen (print_term (a, q)) < 2 ^ 32 - 1 ->
  exists t, stands_for b (a, q) t /\ runs no_question p (print_term (a, q)) n (with_floating (sinkFloatingTermIfNecessary p) t) None.
Proof.
  intros Ha Hok Hp Hn Hlen. unfold print_term in *. cbn [fst snd] in *. rewrite length_app in Hlen.
  destruct (Ha Hok p n Hp Hn ltac:(lia)) as (t & Ht & Hrun). exists (quantify t q). split; [by apply quantify_stands|].
  intros fuel rest last Hf Hr. rewrite length_app in Hf. rewrite <- (assoc_L (++)), length_app.
  destruct (Hrun fuel (print_quantifier q ++ rest) last ltac:(lia) I) as (fuel1 & last1 & Hf1 & -> & ->).
  destruct (decide (q = One)) as [->|Hq].
  - exists fuel1, true. split; [cbn; lia|]. split; [done|]. cbn [print_quantifier app]. assert (Hqt : quantify t One = t).
    { destruct Ht as [Hq _ _ _]. destruct t as [q|q cs|q ts]; cbn in Hq |- *; by subst. }
    by rewrite Hqt.
  - assert (Hlq : length (print_quantifier q) = 1%nat) by by destruct q. destruct fuel1 as [|fuel1]; [lia|]. exists fuel1, false. split; [lia|]. split; [done|].
    rewrite tokens_quantifier by done. cbn [quantifyAtom pattern_parser_delegate]. unfold pp_quantifyAtom, unless_error.
    destruct (sink_good b p Hp) as [Hs _]. rewrite (good_no_error b _ (good_float b _ t Hs (sf_free _ _ _ Ht))). destruct q; done.
Qed.

(** A sequence of terms. *)
Lemma runs_terms ts : Forall (fun t => runs_atom (fst t)) ts -> Forall (fun t => atom_ok (fst t)) ts ->
  forall p n, good b p -> 0 <= n -> n + vlen (print_terms ts) < 2 ^ 32 - 1 ->
  exists p' tts, Forall2 (stands_for b) ts tts /\ good b p' /\ sinkFloatingTermIfNecessary p' = append_terms (sinkFloatingTermIfNecessary p) tts
    /\ runs no_question p (print_terms ts) n p' None.
Proof.
  induction 1 as [|[a q] ts Ha _ IH]; intros Hok p n Hp Hn Hlen.
  { exists p, []. split; [constructor|]. split; [done|]. split; [symmetry; eapply append_nil; by apply sink_good|]. intros fuel rest last Hf Hr. exists fuel, last. split; [lia|]. done. }
  apply Forall_cons in Hok as [Hao Hok]. unfold print_terms in *. cbn [map concat] in *. rewrite length_app in Hlen.
  destruct (runs_term a q p n Ha Hao Hp Hn ltac:(lia)) as (t & Ht & Hrun). destruct (sink_good b p Hp) as [Hs Hfl].
  set (p1 := with_floating (sinkFloatingTermIfNecessary p) t) in *.
  assert (Hp1 : good b p1) by (apply good_float; [done|apply Ht]).
  assert (Hsink : sinkFloatingTermIfNecessary p1 = append_terms (sinkFloatingTermIfNecessary p) [t]) by (apply (sink_float b); [done|done|apply Ht]).
  destruct (IH Hok p1 n Hp1 Hn ltac:(lia)) as (p' & tts & Htts & Hp' & Hsink' & Hrun'). exists p', (t :: tts). split; [by constructor|]. split; [done|]. split.
  - by rewrite Hsink', Hsink, (append_app b).
  - intros fuel rest last Hf Hr. rewrite length_app in Hf. rewrite <- (assoc_L (++)), length_app.
    destruct (Hrun fuel (concat (map print_term ts) ++ rest) last ltac:(lia) (print_terms_head ts rest Hr)) as (fuel1 & last1 & Hf1 & _ & ->).
    destruct (Hrun' fuel1 rest last1 ltac:(lia) Hr) as (fuel2 & last2 & Hf2 & _ & ->). exists fuel2, last2. split; [lia|]. done.
Qed.

Lemma runs_group ts : Forall (fun t => runs_atom (fst t)) ts -> runs_atom (AGroup ts).
Proof.
  intros Ha Hok p n Hp Hn Hlen. change (print_atom (AGroup ts)) with ([40] ++ print_terms ts ++ [41]) in *. rewrite !length_app in Hlen. cbn [length] in Hlen.
  assert (Hoks : Forall (fun t => atom_ok (fst t)) ts).
  { clear -Hok. cbn [atom_ok] in Hok. induction ts as [|t ts IH]; [done|]. cbn [foldr] in Hok. destruct Hok. constructor; auto. }
  destruct (sink_good b p Hp) as [Hs Hfl]. set (s := sinkFloatingTermIfNecessary p) in *. set (p1 := with_groups s (groupTerm :: m_openGroups s)).
  assert (Hp1 : good b p1) by (destruct Hs as [? ? ? ? ?]; split; try done; cbn; by constructor).
  destruct (runs_terms ts Ha Hoks p1 (n + 1) Hp1 ltac:(lia) ltac:(lia)) as (p2 & tts & Htts & Hp2 & Hsink & Hrun). exists (GroupTerm One tts).
  split; [by apply stands_for_group|]. rewrite (sink_settled p1) in Hsink by exact Hfl.
  intros fuel rest last Hf _. rewrite !length_app in Hf. rewrite !length_app. cbn [length] in Hf |- *. destruct fuel as [|fuel]; [lia|].
  rewrite <- !(assoc_L (++)). cbn [app]. assert (Hq : no_question (41 :: rest)) by by intros ?.
  rewrite tokens_begin by (try lia; by apply print_terms_head). cbn [atomParenthesesSubpatternBegin pattern_parser_delegate].
  unfold pp_atomParenthesesSubpatternBegin, unless_error. rewrite (good_no_error b p Hp), option_bind_Some. cbv zeta. fold s. fold p1.
  destruct (Hrun fuel (41 :: rest) false ltac:(lia) Hq) as (fuel1 & last1 & Hf1 & _ & ->). destruct fuel1 as [|fuel1]; [lia|].
  exists fuel1, true. split; [lia|]. split; [done|]. rewrite tokens_end by lia. cbn [atomParenthesesEnd pattern_parser_delegate]. unfold pp_atomParenthesesEnd, unless_error.
  rewrite (good_no_error b p2 Hp2), Hsink. unfold append_terms, p1, groupTerm. cbn [m_openGroups with_groups app]. rewrite option_bind_Some.
  replace (n + 1 - 1) with n by lia. done.
Qed.

Lemma runs_all a : runs_atom a.
Proof. induction a using atom_ind'; [apply runs_char|apply runs_dot|apply runs_class|by apply runs_group]. Qed.
End Run.

(** ** A whole filter *)

Definition endTerm : Term := CharacterSetTerm One (mkCharacterSet false 1 0).

Lemma endTerm_spec : endOfLineAssertionTerm = Some endTerm /\ isEndOfLineAssertion endTerm = true /\ isValid endTerm = true.
Proof. split; [|split]; vm_compute; reflexivity. Qed.

Lemma parse_tokens_done {D} `{Delegate D} fuel (d : D) last : (0 < fuel)%nat -> parse_tokens 0 fuel (at_token d [] 0) last = Some (at_token d [] 0).
Proof. intros Hf. destruct fuel as [|fuel]; [lia|]. done. Qed.

Lemma tokens_beginning {D} `{Delegate D} fuel d rest n last :
  parse_tokens 0 (S fuel) (at_token d (94 :: rest) n) last = (d ← assertionBOL d; parse_tokens 0 fuel (at_token d rest n) false).
Proof.
  cbn [parse_tokens m_rest]. unfold parse_token. known_chars. cbn [m_delegate]. destruct (assertionBOL d); [|done]. rewrite !option_bind_Some. cbn [at_rest m_err].
  by destruct (decide (NoError = NoError)).
Qed.

Lemma tokens_end_of_line {D} `{Delegate D} fuel d rest n last :
  parse_tokens 0 (S fuel) (at_token d (36 :: rest) n) last = (d ← assertionEOL d; parse_tokens 0 fuel (at_token d rest n) false).
Proof.
  cbn [parse_tokens m_rest]. unfold parse_token. known_chars. cbn [m_delegate]. destruct (assertionEOL d); [|done]. rewrite !option_bind_Some. cbn [at_rest m_err].
  by destruct (decide (NoError = NoError)).
Qed.

(** Parsing a written filter collects its terms. *)
Lemma parse_filter b r :
  filter_ok r -> vlen (print_filter r) <= MAX_PATTERN_SIZE ->
  exists p tts, Yarr.parse 0 (newPatternParser b) (print_filter r) = Some (p, NoError) /\ Forall2 (stands_for b) (f_terms r) tts
    /\ hasError p = false /\ m_parseStatus (sinkFloatingTermIfNecessary p) = Ok
    /\ m_sunkTerms (sinkFloatingTermIfNecessary p) = tts ++ (if f_end r then [endTerm] else [])
    /\ m_hasBeginningOfLineAssertion (sinkFloatingTermIfNecessary p) = f_beginning r.
Proof.
  intros Hok Hlen. unfold Yarr.parse. destruct (Z.ltb_spec MAX_PATTERN_SIZE (vlen (print_filter r))); [lia|].
  destruct r as [beg ts end_]. unfold print_filter, filter_ok, MAX_PATTERN_SIZE in *. cbn [f_beginning f_terms f_end] in *.
  set (p0 := with_lines (newPatternParser b) beg false). assert (Hp0 : good b p0) by (split; try done; by left).
  set (tail := if end_ then [36] else []).
  set (fuel := S (length (print_terms ts ++ tail))).
  assert (Hbeg : parse_tokens 0 (S (length ((if beg then [94] else []) ++ print_terms ts ++ tail)))
      (at_token (newPatternParser b) ((if beg then [94] else []) ++ print_terms ts ++ tail) 0) false = parse_tokens 0 fuel (at_token p0 (print_terms ts ++ tail) 0) false).
  { destruct beg; [|done]. cbn [app length]. by rewrite tokens_beginning. }
  rewrite Hbeg. rewrite !length_app in Hlen.
  destruct (runs_terms b ts) with (p := p0) (n := 0) as (p1 & tts & Htts & Hp1 & Hsink & Hrun); try done; try lia.
  { apply Forall_forall. intros t _. apply runs_all. }
  assert (Hq : no_question tail) by (unfold tail; intros ?; by destruct end_).
  destruct (Hrun fuel tail false) as (fuel1 & last1 & Hf1 & _ & ->); [unfold fuel; rewrite length_app; lia|done|].
  assert (Hf1' : (length tail < fuel1)%nat) by (unfold fuel in Hf1; rewrite length_app in Hf1; lia).
  rewrite (sink_settled p0) in Hsink by done. destruct (sink_good b p1 Hp1) as [Hs1 _]. unfold tail in *. destruct end_.
  - destruct fuel1 as [|fuel1]; [cbn in Hf1'; lia|]. rewrite tokens_end_of_line. cbn [assertionEOL pattern_parser_delegate]. unfold pp_assertionEOL, unless_error.
    rewrite (good_no_error b p1 Hp1). destruct endTerm_spec as (-> & Heol & Hval). rewrite option_bind_Some. cbv zeta. rewrite ?option_bind_Some.
    rewrite parse_tokens_done by (cbn in Hf1'; lia). rewrite option_bind_Some. cbn [m_delegate m_err]. rewrite Hsink. eexists _, tts. split; [reflexivity|]. split; [done|].
    split; [done|]. unfold sinkFloatingTermIfNecessary. cbn [m_floatingTerm with_floating]. rewrite Hval, Heol. done.
  - rewrite parse_tokens_done by lia. rewrite option_bind_Some. cbn [m_delegate m_err]. exists p1, tts. split; [done|]. split; [done|].
    split; [by apply (good_no_error b)|]. rewrite Hsink. cbn. by rewrite app_nil_r.
Qed.
