(* ===== verification/FilterSimplify.v ===== *)
(** * Simplifying the terms of a filter

    What the automata look for is a beginning of the URL, with its terminator,
    that the terms match.  The simplification of the terms keeps what is found,
    and adds the freedom to start anywhere. *)

From stdpp Require Import gmap.
From S2P Require Import Prelude Bits DFA RangeList HashSet NFA Term TermLanguage FilterSyntax CombinedURLFilters PrefixTree Yarr YarrCorrect URLFilterParser FilterParserCorrect FilterRun.

(** The terms match a beginning of the URL. *)
Definition found (ts : list Term) (url : list Z) : Prop := exists w x, url ++ [0] = w ++ x /\ seq_lang ts w.

Abbreviation text w := (Forall text_char w).

(** ** The languages of terms without assertions *)

Lemma quantified_text q (L : lang) : (forall w, L w -> text w) -> forall w, lang_quantified q L w -> text w.
Proof.
  intros HL. assert (Hstar : forall w, lang_star L w -> text w) by (induction 1; [constructor|apply Forall_app; auto]).
  intros w. destruct q; cbn; [auto|intros [?| ->]; [auto|constructor]|auto|]. intros (u & v & -> & Hu & Hv). apply Forall_app. auto.
Qed.

Lemma eol_free_text t : eol_free t -> forall w, term_lang t w -> text w.
Proof.
  intros Hf w Hw. apply (quantified_text _ _) in Hw; [done|]. clear w Hw. induction t as [q|q cs|q ts IH] using Term_ind'; [done| |].
  - cbn [eol_free atom_lang] in *. intros w (c & -> & Hc). apply Forall_singleton. unfold cs_matches, text_char in *. destruct (m_inverted cs); [lia|].
    destruct Hc as [Hc Hb]. destruct (decide (c = 0)) as [->|]; [congruence|lia].
  - apply eol_free_group in Hf. cbn [atom_lang]. induction IH as [|t ts Ht _ IHts]; [by intros w ->|]. apply Forall_cons in Hf as [Hft Hf].
    intros w (u & v & -> & Hu & Hv). apply Forall_app. split; [|by apply IHts]. eapply quantified_text; [|exact Hu]. by apply Ht.
Qed.

Lemma seq_lang_text ts w : Forall eol_free ts -> seq_lang ts w -> text w.
Proof.
  intros Hf. revert w. induction Hf as [|t ts Ht _ IH]; intros w; [by intros ->|]. intros (u & v & -> & Hu & Hv). apply Forall_app.
  split; [by eapply eol_free_text|by apply IH].
Qed.

Lemma nullable t : eol_free t -> matchesAtLeastOneCharacter t = false -> term_lang t [].
Proof.
  induction t as [q|q cs|q ts IH] using Term_ind'; intros Hf Hm; [done| |].
  - destruct (eol_free_valid _ Hf) as [_ He]. cbn [matchesAtLeastOneCharacter m_quantifier] in Hm. rewrite He in Hm. unfold term_lang. cbn [m_quantifier].
    destruct q; try done; [by right|constructor].
  - assert (Hseq : existsb matchesAtLeastOneCharacter ts = false -> atom_lang (GroupTerm q ts) []).
    { apply eol_free_group in Hf. clear Hm. cbn [atom_lang]. induction IH as [|t ts Ht _ IHts]; [done|]. cbn [existsb]. intros [H1 H2]%orb_false_iff.
      apply Forall_cons in Hf as [Hft Hf]. exists [], []. split; [done|]. split; [by apply Ht|by apply IHts]. }
    cbn [matchesAtLeastOneCharacter m_quantifier isEndOfLineAssertion] in Hm. unfold term_lang. cbn [m_quantifier].
    destruct q; [by apply Hseq|by right|constructor|]. exists [], []. split; [done|]. split; [by apply Hseq|constructor].
Qed.

Lemma endTerm_lang w : term_lang endTerm w <-> w = [0].
Proof.
  unfold term_lang. cbn [endTerm m_quantifier lang_quantified atom_lang]. unfold cs_matches. cbn [m_inverted]. split.
  - intros (c & -> & Hc & Hb). assert (Hall : forallb (fun c => implb (cs_bit (mkCharacterSet false 1 0) c) (c =? 0)) (seqZ 0 128) = true) by by vm_compute.
    rewrite forallb_forall in Hall. specialize (Hall c). rewrite Hb in Hall. cbn [implb] in Hall. assert (Hin : c ∈ seqZ 0 128) by (apply elem_of_seqZ; lia).
    apply list_elem_of_In, Hall, Z.eqb_eq in Hin. by subst.
  - intros ->. exists 0. split; [done|]. split; [lia|by vm_compute].
Qed.

Definition dotStarTerm : Term := CharacterSetTerm ZeroOrMore universalSet.

Lemma dotStar_spec : canonicalDotStar = Some dotStarTerm /\ eol_free dotStarTerm /\ isKnownToMatchAnyString dotStarTerm = true.
Proof. split; [unfold canonicalDotStar; by rewrite universal_set|]. split; vm_compute; reflexivity. Qed.

Lemma known_lang t w : eol_free t -> isKnownToMatchAnyString t = true -> term_lang t w <-> text w.
Proof. intros Hf Hk. split; [by apply eol_free_text|by apply isKnownToMatchAnyString_sound]. Qed.

Lemma dotStar_lang w : term_lang dotStarTerm w <-> text w.
Proof. destruct dotStar_spec as (_ & Hf & Hk). by apply known_lang. Qed.

(** ** Canonical terms *)

Lemma text_text (M : lang) w : lang_app (fun w => text w) (lang_app (fun w => text w) M) w <-> lang_app (fun w => text w) M w.
Proof.
  split.
  - intros (u & v & -> & Hu & u' & v' & -> & Hu' & Hv). exists (u ++ u'), v'. split; [by rewrite (assoc_L (++))|]. split; [by apply Forall_app|done].
  - intros (u & v & -> & Hu & Hv). exists u, v. split; [done|]. split; [done|]. exists [], v. split; [done|]. split; [constructor|done].
Qed.

Lemma lang_app_iff (L L' M M' : lang) w : (forall w, L w <-> L' w) -> (forall w, M w <-> M' w) -> lang_app L M w <-> lang_app L' M' w.
Proof. intros HL HM. unfold lang_app. setoid_rewrite HL. by setoid_rewrite HM. Qed.

Lemma canonicalize_lang ts : Forall eol_free ts -> forall w,
  (seq_lang (canonicalize dotStarTerm false ts) w <-> seq_lang ts w)
  /\ (lang_app (fun w => text w) (seq_lang (canonicalize dotStarTerm true ts)) w <-> lang_app (fun w => text w) (seq_lang ts) w).
Proof.
  induction 1 as [|t ts Ht _ IH]; intros w; [done|]. cbn [canonicalize].
  destruct (isKnownToMatchAnyString t) eqn:Hk; unfold seq_lang in *; cbn [map lang_sequence] in *.
  - assert (Hl : forall w, lang_app (term_lang dotStarTerm) (lang_sequence (map term_lang (canonicalize dotStarTerm true ts))) w <-> lang_app (term_lang t) (lang_sequence (map term_lang ts)) w).
    { intros v. transitivity (lang_app (fun w => text w) (lang_sequence (map term_lang (canonicalize dotStarTerm true ts))) v).
      - apply lang_app_iff; [apply dotStar_lang|done].
      - rewrite (proj2 (IH v)). apply lang_app_iff; [|done]. intros u. by rewrite known_lang. }
    split; [apply Hl|]. rewrite (proj2 (IH w)). rewrite <- text_text. apply lang_app_iff; [done|]. intros v. apply lang_app_iff; [|done]. intros u. by rewrite known_lang.
  - split; [|apply lang_app_iff; [done|]; intros v]; apply lang_app_iff; try done; intros u; apply IH.
Qed.

Lemma canonicalize_free ts b : Forall eol_free ts -> Forall eol_free (canonicalize dotStarTerm b ts).
Proof.
  intros Hf. revert b. induction Hf as [|t ts Ht _ IH]; intros b; cbn [canonicalize]; [done|].
  destruct (isKnownToMatchAnyString t); [destruct b|]; repeat constructor; try done; try apply IH.
Qed.

Lemma canonicalize_end ts : forall b, canonicalize dotStarTerm b (ts ++ [endTerm]) = canonicalize dotStarTerm b ts ++ [endTerm].
Proof.
  induction ts as [|t ts IH]; intros b; cbn [app canonicalize].
  - assert (Hk : isKnownToMatchAnyString endTerm = false) by (vm_compute; reflexivity). by rewrite Hk.
  - destruct (isKnownToMatchAnyString t); [destruct b|]; cbn [app]; by rewrite IH.
Qed.

(** ** Finding *)

(** A beginning of a URL with its terminator is text, or everything. *)
Lemma prefix_cases url u x : text url -> url ++ [0] = u ++ x -> text u \/ x = [].
Proof.
  intros Ht Heq. destruct x as [|c x _] using rev_ind; [by right|left]. rewrite (assoc_L (++)) in Heq. apply app_inj_tail in Heq as [-> _].
  by apply Forall_app in Ht as [? _].
Qed.

(** The text before a match may be skipped by a leading term that matches any text. *)
Lemma skip_before (M : lang) url :
  text url -> (exists u v x, url ++ [0] = u ++ v ++ x /\ M v) <-> exists w x, url ++ [0] = w ++ x /\ lang_app (fun w => text w) M w.
Proof.
  intros Ht. split.
  - intros (u & v & x & Heq & Hv). destruct (prefix_cases url u (v ++ x) Ht Heq) as [Hu|Hn].
    + exists (u ++ v), x. rewrite <- (assoc_L (++)). split; [done|]. by exists u, v.
    + apply app_eq_nil in Hn as [-> ->]. exists [], (url ++ [0]). split; [done|]. exists [], []. split; [done|]. split; [constructor|done].
  - intros (w & x & Heq & u & v & -> & Hu & Hv). exists u, v, x. rewrite (assoc_L (++)). done.
Qed.

Lemma found_snoc ts t url : term_lang t [] -> found (ts ++ [t]) url <-> found ts url.
Proof.
  intros Hn. unfold found. setoid_rewrite seq_lang_app. split.
  - intros (w & x & Heq & u & v & -> & Hu & _). exists u, (v ++ x). by rewrite (assoc_L (++)).
  - intros (w & x & Heq & Hw). exists w, x. split; [done|]. exists w, []. split; [by rewrite app_nil_r|]. split; [done|]. exists [], []. done.
Qed.

Lemma found_irrelevant ts url : Forall eol_free ts -> found (rev (remove_irrelevant (rev ts))) url <-> found ts url.
Proof.
  induction ts as [|t ts IH] using rev_ind; intros Hf; [done|]. apply Forall_app in Hf as [Hf [Ht _]%Forall_cons]. rewrite rev_app_distr. cbn [rev app remove_irrelevant].
  destruct (matchesAtLeastOneCharacter t) eqn:Hm; [cbn [rev]; by rewrite rev_involutive|]. rewrite IH by done. symmetry. apply found_snoc. by apply nullable.
Qed.

(** Any text and the end of the URL follow every match. *)
Lemma found_trailing ts t url :
  text url -> Forall eol_free ts -> eol_free t -> isKnownToMatchAnyString t = true -> found (ts ++ [t; endTerm]) url <-> found ts url.
Proof.
  intros Ht Hf Hft Hk. unfold found. setoid_rewrite seq_lang_app. split.
  - intros (w & x & Heq & u & v & -> & Hu & _). exists u, (v ++ x). by rewrite (assoc_L (++)).
  - intros (w & x & Heq & Hw). pose proof (seq_lang_text ts w Hf Hw) as Hwt. destruct x as [|c x _] using rev_ind.
    + exfalso. rewrite app_nil_r in Heq. rewrite <- Heq in Hwt. apply Forall_app in Hwt as [_ [H0 _]%Forall_cons]. unfold text_char in H0. lia.
    + rewrite (assoc_L (++)) in Heq. apply app_inj_tail in Heq as [-> <-]. apply Forall_app in Ht as [_ Hx]. exists ((w ++ x) ++ [0]), []. rewrite app_nil_r. split; [done|].
      exists w, (x ++ [0]). split; [by rewrite (assoc_L (++))|]. split; [done|]. exists x, [0]. split; [done|]. split; [by apply known_lang|].
      exists [0], []. split; [done|]. split; [by apply endTerm_lang|done].
Qed.

(** ** The whole simplification *)

Lemma free_not_end t : eol_free t -> isEndOfLineAssertion t = false.
Proof. intros Hf. by apply eol_free_valid. Qed.

Lemma last_free ts : Forall eol_free ts -> ts <> [] -> exists t, ts.[vlen ts - 1] = Some t /\ eol_free t.
Proof.
  intros Hf Hne. destruct (last_some ts Hne) as [t Ht]. exists t. split; [done|]. apply vec_at_Some in Ht as [_ Ht]. rewrite Forall_forall in Hf. apply Hf.
  by eapply list_elem_of_lookup_2.
Qed.

(** The terms before the last steps: those of the filter in canonical form, with a leading ".*". *)
Definition with_leading (beginning : bool) (terms : list Term) : list Term :=
  match terms with
  | first :: _ => if negb beginning && negb (isKnownToMatchAnyString first) then dotStarTerm :: terms else terms
  | [] => []
  end.

(** A leading term that matches any text stands for the freedom to start anywhere. *)
Lemma leading_found beginning terms (M : lang) url :
  text url -> terms <> [] -> Forall (fun t => eol_free t \/ t = endTerm) terms -> (forall w, seq_lang terms w <-> M w) ->
  found (with_leading beginning terms) url <-> exists u v x, url ++ [0] = u ++ v ++ x /\ (beginning = true -> u = []) /\ M v.
Proof.
  intros Ht Hne Hf HM. assert (Hbeg : found terms url <-> exists u v x, url ++ [0] = u ++ v ++ x /\ u = [] /\ M v).
  { unfold found. setoid_rewrite HM. split; [intros (w & x & Heq & Hw); by exists [], w, x|]. intros (u & v & x & Heq & -> & Hv). by exists v, x. }
  destruct terms as [|t ts]; [done|]. cbn [with_leading]. destruct beginning; cbn [negb andb].
  { rewrite Hbeg. split; intros (u & v & x & Heq & Hu & Hv); exists u, v, x; auto. }
  transitivity (exists u v x, url ++ [0] = u ++ v ++ x /\ M v); [|split; intros (u & v & x & Heq & Hv); exists u, v, x; naive_solver]. rewrite skip_before by done.
  destruct (isKnownToMatchAnyString t) eqn:Hk; cbn [negb].
  - unfold found. apply Forall_cons in Hf as [[Hft| ->] _]; [|by vm_compute in Hk].
    assert (Hiff : forall w, seq_lang (t :: ts) w <-> lang_app (fun w => text w) M w).
    { intros w. transitivity (lang_app (fun w => text w) (seq_lang (t :: ts)) w); [|by apply lang_app_iff]. change (seq_lang (t :: ts)) with (lang_app (term_lang t) (seq_lang ts)).
      transitivity (lang_app (fun w => text w) (seq_lang ts) w); [apply lang_app_iff; [intros; by apply known_lang|done]|].
      rewrite <- text_text. apply lang_app_iff; [done|]. intros v. apply lang_app_iff; [|done]. intros u. by rewrite known_lang. }
    by setoid_rewrite Hiff.
  - unfold found. assert (Hiff : forall w, seq_lang (dotStarTerm :: t :: ts) w <-> lang_app (fun w => text w) M w).
    { intros w. apply lang_app_iff; [apply dotStar_lang|apply HM]. }
    by setoid_rewrite Hiff.
Qed.

Lemma trailing_free ts : Forall eol_free ts -> ts <> [] -> remove_trailing_dot_star ts = Some ts.
Proof.
  intros Hf Hne. unfold remove_trailing_dot_star. destruct (last_free ts Hf Hne) as (t & -> & Ht). rewrite option_bind_Some, (free_not_end t Ht). by rewrite andb_false_r.
Qed.

Lemma trailing_end ts :
  remove_trailing_dot_star (ts ++ [endTerm]) = Some (ts ++ [endTerm])
  \/ exists pre t, ts = pre ++ [t] /\ pre <> [] /\ isKnownToMatchAnyString t = true /\ remove_trailing_dot_star (ts ++ [endTerm]) = Some pre.
Proof.
  unfold remove_trailing_dot_star. rewrite length_app. cbn [length]. replace (Z.of_nat (length ts + 1) - 1) with (vlen ts) by lia. rewrite vec_at_snoc, option_bind_Some.
  assert (He : isEndOfLineAssertion endTerm = true) by (vm_compute; reflexivity). rewrite He.
  destruct (Z.ltb_spec 2 (Z.of_nat (length ts + 1))); cbn [andb]; [|by left].
  destruct ts as [|t ts _] using rev_ind; [cbn in *; lia|]. rewrite length_app in *. cbn [length] in *.
  replace (Z.of_nat (length ts + 1 + 1) - 2) with (vlen ts) by lia. rewrite <- (assoc_L (++)). cbn [app].
  assert (Ht : (ts ++ [t; endTerm]).[vlen ts] = Some t).
  { change [t; endTerm] with ([t] ++ [endTerm]). rewrite (assoc_L (++)). apply vec_at_prefix, vec_at_snoc. }
  rewrite Ht, option_bind_Some. destruct (isKnownToMatchAnyString t) eqn:Hk; [right|by left]. exists ts, t. split; [done|]. split; [intros ->; cbn in *; lia|]. split; [done|].
  replace (length ts + 1 + 1 - 2)%nat with (length ts) by lia. by rewrite take_app_length.
Qed.

Lemma found_all_nullable ts url : Forall eol_free ts -> forallb (fun t => negb (matchesAtLeastOneCharacter t)) ts = true -> seq_lang ts [] /\ found ts url.
Proof.
  intros Hf Hn. assert (Hs : seq_lang ts []).
  { induction Hf as [|t ts Ht _ IH]; [done|]. cbn [forallb] in Hn. bprop. exists [], []. split; [done|]. split; [by apply nullable|]. by apply IH. }
  split; [done|]. by exists [], (url ++ [0]).
Qed.

Section Simplify.
Variables (tts : list Term) (beginning end_ : bool) (url : list Z).
Hypothesis Hfree : Forall eol_free tts.
Hypothesis Ht : text url.

Abbreviation ending := (if end_ then [endTerm] else []).

(** The terms before trailing ones are removed. *)
Definition leading_terms : list Term := with_leading beginning (canonicalize dotStarTerm false (tts ++ ending)).

Lemma canonicalize_ending : canonicalize dotStarTerm false (tts ++ ending) = canonicalize dotStarTerm false tts ++ ending.
Proof. destruct end_; [apply canonicalize_end|by rewrite !app_nil_r]. Qed.

Lemma leading_form : tts ++ ending <> [] ->
  exists ts2, leading_terms = ts2 ++ ending /\ Forall eol_free ts2 /\ ts2 ++ ending <> []
    /\ (beginning = false -> exists t ts, ts2 = t :: ts /\ isKnownToMatchAnyString t = true).
Proof.
  intros Hne. unfold leading_terms. pose proof (canonicalize_free tts false Hfree) as Hc. pose proof (canonicalize_nonempty dotStarTerm _ Hne) as Hcne.
  destruct dotStar_spec as (_ & Hdf & Hdk).
  assert (Hlead : forall first rest, with_leading beginning (first :: rest) = (if negb beginning && negb (isKnownToMatchAnyString first) then [dotStarTerm] else []) ++ first :: rest)
    by (intros first rest; cbn; by destruct (_ && _)).
  rewrite canonicalize_ending in *. destruct (canonicalize dotStarTerm false tts ++ ending) as [|first rest] eqn:Ec; [done|]. rewrite Hlead, <- Ec.
  eexists. split; [by rewrite (assoc_L (++))|]. split; [apply Forall_app; split; [|done]; destruct (_ && _); [by constructor|done]|].
  split; [rewrite <- (assoc_L (++)), Ec; by destruct (_ && _)|].
  intros ->. cbn [negb andb]. destruct (isKnownToMatchAnyString first) eqn:Hk; cbn [negb app]; [|by exists dotStarTerm, (canonicalize dotStarTerm false tts)].
  destruct (canonicalize dotStarTerm false tts) as [|t ts]; cbn [app] in Ec; [|injection Ec as -> _; by exists first, ts].
  destruct end_; [|done]. injection Ec as <- _. by vm_compute in Hk.
Qed.

Lemma leading_terms_found : tts ++ ending <> [] ->
  found leading_terms url <-> exists u v x, url ++ [0] = u ++ v ++ x /\ (beginning = true -> u = []) /\ seq_lang (tts ++ ending) v.
Proof.
  intros Hne. apply leading_found; [done|by apply canonicalize_nonempty| |].
  - rewrite canonicalize_ending. apply Forall_app. split; [eapply Forall_impl; [by apply canonicalize_free|]; by left|]. destruct end_; constructor; auto.
  - intros w. rewrite canonicalize_ending, !seq_lang_app. apply lang_app_iff; [|done]. intros v. by apply canonicalize_lang.
Qed.

(** What remains of the leading terms. *)
Lemma simplify_form : tts ++ ending <> [] ->
  simplifySunkTerms (tts ++ ending) beginning =
  (terms ← remove_trailing_dot_star leading_terms; last ← terms.[vlen terms - 1];
   Some (if isEndOfLineAssertion last then terms else rev (remove_irrelevant (rev terms)))).
Proof.
  intros Hne. unfold simplifySunkTerms. rewrite bool_decide_eq_false_2 by done. destruct dotStar_spec as (-> & _ & _). rewrite option_bind_Some. unfold leading_terms.
  pose proof (canonicalize_nonempty dotStarTerm _ Hne) as Hcne. destruct (canonicalize dotStarTerm false (tts ++ ending)) as [|first rest]; [done|]. done.
Qed.

Lemma irrelevant_simplified ts : Forall eol_free ts -> ts <> [] ->
  (last ← ts.[vlen ts - 1]; Some (if isEndOfLineAssertion last then ts else rev (remove_irrelevant (rev ts)))) = Some (rev (remove_irrelevant (rev ts))).
Proof. intros Hf Hne. destruct (last_free ts Hf Hne) as (t & -> & Hft). by rewrite option_bind_Some, (free_not_end t Hft). Qed.

Lemma irrelevant_free ts : Forall eol_free ts -> Forall eol_free (rev (remove_irrelevant (rev ts))).
Proof.
  intros Hf. apply List.Forall_rev in Hf. apply List.Forall_rev. revert Hf. generalize (rev ts). clear.
  induction l as [|t l IH]; [done|]. cbn [remove_irrelevant]. destruct (matchesAtLeastOneCharacter t); [done|]. intros [_ Hl]%Forall_cons. auto.
Qed.

(** The simplified terms are found exactly where the filter's terms match, and
    when none of them needs a character, they are found everywhere - unless the
    filter is bound to both ends of the URL, which may be empty then. *)
Lemma simplify_spec ts :
  simplifySunkTerms (tts ++ ending) beginning = Some ts ->
  (found ts url <-> exists u v x, url ++ [0] = u ++ v ++ x /\ (beginning = true -> u = []) /\ seq_lang (tts ++ ending) v)
  /\ (forallb (fun t => negb (matchesAtLeastOneCharacter t)) ts = true -> beginning = false \/ end_ = false \/ url = [] -> found ts url).
Proof.
  destruct (decide (tts ++ ending = [])) as [Hnil|Hne].
  { rewrite Hnil. intros [= <-]. assert (Hf : found [] url) by by exists [], (url ++ [0]). split; [|done]. split; [|done]. intros _. by exists [], [], (url ++ [0]). }
  rewrite simplify_form by done. rewrite <- leading_terms_found by done. destruct (leading_form Hne) as (ts2 & -> & Hf2 & Hne2 & Hlead).
  assert (Hfin : forall ts', Forall eol_free ts' -> ts' <> [] -> (last ← ts'.[vlen ts' - 1]; Some (if isEndOfLineAssertion last then ts' else rev (remove_irrelevant (rev ts')))) = Some ts ->
    (found ts url <-> found ts' url) /\ (forallb (fun t => negb (matchesAtLeastOneCharacter t)) ts = true -> found ts url)).
  { intros ts' Hf' Hne'. rewrite irrelevant_simplified by done. intros [= <-]. split; [by apply found_irrelevant|]. intros Hn. by apply found_all_nullable; [apply irrelevant_free|]. }
  destruct end_.
  - destruct (trailing_end ts2) as [-> |(pre & t & -> & Hpre & Hk & ->)]; rewrite option_bind_Some.
    + replace (vlen (ts2 ++ [endTerm]) - 1) with (vlen ts2) by (rewrite length_app; cbn; lia). rewrite vec_at_snoc, option_bind_Some.
      assert (He : isEndOfLineAssertion endTerm = true) by (vm_compute; reflexivity). rewrite He. intros [= <-]. split; [done|].
      intros Hn [Hb|[|Hurl]]; [|done|].
      2: { rewrite forallb_app in Hn. bprop. destruct (found_all_nullable ts2 url) as [Hs _]; [done|done|]. rewrite Hurl. exists [0], []. split; [done|].
           apply seq_lang_app. exists [], [0]. split; [done|]. split; [done|]. exists [0], []. split; [done|]. split; [by apply endTerm_lang|done]. }
      destruct (Hlead Hb) as (t & ts3 & -> & Hk). rewrite forallb_app in Hn. cbn [forallb] in Hn. apply Forall_cons in Hf2 as [Hft Hf3]. bprop.
      destruct (found_all_nullable ts3 url) as [Hs _]; [done|done|]. exists (url ++ [0]), []. split; [by rewrite app_nil_r|]. apply seq_lang_app. exists url, [0]. split; [done|].
      split; [exists url, []; split; [by rewrite app_nil_r|]; split; [by apply known_lang|done]|]. exists [0], []. split; [done|]. split; [by apply endTerm_lang|done].
    + apply Forall_app in Hf2 as [Hfp [Hft _]%Forall_cons]. intros Hs. destruct (Hfin pre Hfp Hpre Hs) as [-> Hn]. split; [|intros; by apply Hn].
      rewrite <- (assoc_L (++)). symmetry. by apply found_trailing.
  - rewrite app_nil_r in *. rewrite trailing_free by done. rewrite option_bind_Some. intros Hs. destruct (Hfin ts2 Hf2 Hne2 Hs) as [-> Hn]. split; [done|]. intros; by apply Hn.
Qed.
End Simplify.

(** The simplified terms are terms of the filter, or ".*". *)
Lemma simplify_keeps (P : Term -> Prop) terms beginning ts :
  P dotStarTerm -> Forall P terms -> simplifySunkTerms terms beginning = Some ts -> Forall P ts.
Proof.
  intros Hd Hp. assert (Hcan : forall b, Forall P (canonicalize dotStarTerm b terms)).
  { induction Hp as [|t l Ht _ IH]; intros b; cbn [canonicalize]; [constructor|]. destruct (isKnownToMatchAnyString t); [destruct b|]; repeat constructor; try done; apply IH. }
  assert (Hirr : forall l, Forall P l -> Forall P (rev (remove_irrelevant (rev l)))).
  { intros l Hl. apply List.Forall_rev in Hl. apply List.Forall_rev. revert Hl. generalize (rev l). clear. induction l as [|t l IH]; [done|]. cbn [remove_irrelevant].
    destruct (matchesAtLeastOneCharacter t); [done|]. intros [_ Hl]%Forall_cons. auto. }
  unfold simplifySunkTerms. case_bool_decide; [by intros [= <-]|]. destruct dotStar_spec as (-> & _ & _). rewrite option_bind_Some.
  destruct ((canonicalize dotStarTerm false terms).[0]) as [first|]; [|done]. rewrite option_bind_Some. set (lead := if negb beginning && _ then _ else _).
  assert (Hlead : Forall P lead) by (unfold lead; destruct (_ && _); [by constructor|done]). unfold remove_trailing_dot_star.
  destruct (lead.[vlen lead - 1]) as [last|]; [|done]. rewrite option_bind_Some.
  set (cut := if (2 <? vlen lead) && _ then _ else _). assert (Hcut : forall l, cut = Some l -> Forall P l).
  { unfold cut. clearbody lead. destruct (_ && _); [|by intros l [= <-]]. destruct (lead.[vlen lead - 2]) as [previous|]; [|done]. intros l [= <-].
    destruct (isKnownToMatchAnyString previous); [by apply Forall_take|done]. }
  destruct cut as [l|]; [|done]. rewrite option_bind_Some. specialize (Hcut l eq_refl). destruct (l.[vlen l - 1]) as [end_|]; [|done]. intros [= <-].
  destruct (isEndOfLineAssertion end_); [done|by apply Hirr].
Qed.

(** * Adding a written filter to the tree

    What the URL filter parser does with a filter of the supported syntax: it
    adds the simplified terms, or it says that they match everything. *)

(** ** Written filters are ASCII *)

Abbreviation ascii_text l := (Forall ascii l).

Ltac ascii_list := repeat (apply List.Forall_nil || apply List.Forall_cons); unfold ascii in *; lia.

Lemma print_char_ascii c : text_char c -> ascii_text (print_char c) /\ ascii_text (print_class_char c).
Proof. intros Hc%text_ascii. unfold print_char, print_class_char. destruct (special c), (special_in_class c); split; ascii_list. Qed.

Lemma print_atom_ascii a : atom_ok a -> ascii_text (print_atom a).
Proof.
  induction a as [c| |inverted items|ts IH] using atom_ind'; intros Hok; cbn [print_atom].
  - by apply print_char_ascii.
  - ascii_list.
  - apply Forall_app. split; [ascii_list|]. apply Forall_app. split; [destruct inverted; ascii_list|].
    apply Forall_app. split; [|ascii_list]. cbn [atom_ok] in Hok. induction Hok as [|item items Hi _ IHi]; [constructor|]. cbn [map concat].
    apply Forall_app. split; [|done]. destruct item as [c|x y]; cbn [print_item item_ok] in *; [by apply print_char_ascii|]. destruct Hi as (Hx & Hy & _).
    apply Forall_app. split; [by apply print_char_ascii|]. apply Forall_app. split; [ascii_list|by apply print_char_ascii].
  - apply Forall_app. split; [ascii_list|]. apply Forall_app. split; [|ascii_list]. cbn [atom_ok] in Hok.
    induction IH as [|[a q] ts Ha _ IHt]; [constructor|]. cbn [foldr map concat fst snd] in *. destruct Hok as [Hao Hok]. apply Forall_app. split; [|by apply IHt].
    apply Forall_app. split; [by apply Ha|]. destruct q; ascii_list.
Qed.

Lemma print_terms_ascii ts : Forall (fun t => atom_ok (fst t)) ts -> ascii_text (print_terms ts).
Proof.
  induction 1 as [|[a q] ts Ha _ IH]; [constructor|]. unfold print_terms, print_term. cbn [map concat fst snd]. apply Forall_app. split; [|exact IH].
  apply Forall_app. split; [by apply print_atom_ascii|]. destruct q; ascii_list.
Qed.

Lemma print_filter_ascii r : filter_ok r -> forallb isASCII (print_filter r) = true.
Proof.
  intros Hok. assert (Ha : ascii_text (print_filter r)).
  { unfold print_filter. apply Forall_app. split; [destruct (f_beginning r); ascii_list|]. apply Forall_app. split; [by apply print_terms_ascii|]. destruct (f_end r); ascii_list. }
  apply forallb_forall. intros c Hc%list_elem_of_In. rewrite Forall_forall in Ha. apply Ha in Hc. unfold ascii in Hc. apply isASCII_spec; lia.
Qed.

(** ** The meaning of the collected terms *)

Lemma filter_matches_seq b r tts url :
  Forall2 (stands_for b) (f_terms r) tts ->
  filter_matches b r url <-> exists u v x, url ++ [0] = u ++ v ++ x /\ (f_beginning r = true -> u = []) /\ seq_lang (tts ++ (if f_end r then [endTerm] else [])) v.
Proof.
  intros Hs. unfold filter_matches. assert (Hl : forall v, lang_sequence (map (qatom_matches b) (f_terms r) ++ (if f_end r then [fun w => w = [0]] else [])) v
    <-> seq_lang (tts ++ (if f_end r then [endTerm] else [])) v).
  { induction Hs as [|x t xs ts Hx _ IH]; intros v.
    - destruct (f_end r); [|done]. cbn [map app]. unfold seq_lang. cbn [map lang_sequence]. apply lang_app_iff; [|done]. intros w. by rewrite endTerm_lang.
    - cbn [map app]. unfold seq_lang in *. cbn [map lang_sequence]. apply lang_app_iff; [|exact IH]. intros w. symmetry. by apply stands_for_term. }
  by setoid_rewrite Hl.
Qed.

Lemma stands_for_free b xs ts : Forall2 (stands_for b) xs ts -> Forall eol_free ts.
Proof. induction 1 as [|x t xs ts Hx _ IH]; constructor; [apply Hx|done]. Qed.

(** ** Simplified terms *)

Lemma eol_free_pure t : eol_free t -> eol_pure t.
Proof.
  induction t as [q|q cs|q ts IH] using Term_ind'; intros Hf; [done| |].
  - cbn [eol_free eol_pure] in *. congruence.
  - apply eol_free_group in Hf. cbn [eol_pure]. induction IH as [|t ts Ht _ IHts]; [done|]. apply Forall_cons in Hf as [Hft Hf]. split; [by apply Ht|by apply IHts].
Qed.

Lemma endTerm_pure : eol_pure endTerm.
Proof. cbn [eol_pure endTerm]. intros _. split; vm_compute; reflexivity. Qed.

(** Terms of which one needs a character do not match the empty text. *)
Lemma needs_text ts : Forall eol_pure ts -> forallb (fun t => negb (matchesAtLeastOneCharacter t)) ts = false -> ~ seq_lang ts [].
Proof.
  induction 1 as [|t ts Ht _ IH]; [done|]. cbn [forallb]. intros Hm (u & v & Heq & Hu & Hv). symmetry in Heq. apply app_eq_nil in Heq as [-> ->].
  apply andb_false_iff in Hm as [Hm%negb_false_iff|Hm]; [|by apply IH]. destruct (matchesAtLeastOneCharacter_sound t Ht Hm [] Hu) as (c & Hc & _). by apply not_elem_of_nil in Hc.
Qed.

(** ** The parser *)

Section Added.
Variables (f : CombinedURLFilters) (r : filter) (b : bool) (id : Z).

Record added (ts : list Term) : Prop := {
  ad_terms : ts <> [];
  ad_text : ~ seq_lang ts [];
  ad_solid : solid_filter r -> Forall no_empty_group ts;
  ad_found url : Forall text_char url -> found ts url <-> filter_matches b r url
}.

Lemma addURLFilter_added :
  wf_tree f -> filter_ok r -> print_filter r <> [] -> vlen (print_filter r) <= MAX_PATTERN_SIZE ->
  (exists f' ts, addURLFilter f (print_filter r) b id = Some (f', Ok) /\ addPattern f id ts = Some f' /\ added ts)
  \/ (addURLFilter f (print_filter r) b id = Some (f, MatchesEverything)
      /\ forall url, Forall text_char url -> f_beginning r = false \/ f_end r = false \/ url = [] -> filter_matches b r url).
Proof.
  intros Hf Hok Hne Hlen. unfold addURLFilter. rewrite print_filter_ascii by done. cbn [negb]. rewrite bool_decide_eq_false_2 by done.
  destruct (parse_filter b r Hok Hlen) as (p & tts & -> & Htts & He & Hst & Hsunk & Hbeg). rewrite option_bind_Some, bool_decide_eq_true_2 by done.
  unfold finalizePattern. rewrite He, Hsunk, Hbeg. pose proof (stands_for_free b _ _ Htts) as Hfree.
  destruct (simplifySunkTerms_some (tts ++ (if f_end r then [endTerm] else [])) (f_beginning r)) as [ts Hts]. rewrite Hts, option_bind_Some.
  assert (Hspec := fun url Ht => simplify_spec tts (f_beginning r) (f_end r) url Hfree Ht ts Hts).
  destruct (forallb _ ts) eqn:Hall.
  - right. rewrite option_bind_Some. split.
    + unfold fail, hasError. cbn [with_sunk m_parseStatus]. by rewrite Hst, bool_decide_eq_true_2.
    + intros url Ht Hb. destruct (Hspec url Ht) as [Hiff Hev]. apply (filter_matches_seq b r tts url Htts), Hiff. by apply Hev.
  - left. assert (Hnt : ts <> []) by (intros ->; done). destruct (addPattern_spec f id ts Hf Hnt) as (f' & Hadd & _). rewrite Hadd, !option_bind_Some.
    exists f', ts. split; [cbn [with_sunk m_parseStatus]; by rewrite Hst|]. split; [done|]. split.
    + done.
    + apply needs_text; [|done]. eapply simplify_keeps; [|  |exact Hts]; [apply eol_free_pure; by destruct dotStar_spec as (_ & ? & _)|]. apply Forall_app. split.
      * eapply Forall_impl; [exact Hfree|]. apply eol_free_pure.
      * destruct (f_end r); constructor; [apply endTerm_pure|constructor].
    + intros Hs. eapply simplify_keeps; [done| |exact Hts]. apply Forall_app. split; [|destruct (f_end r); repeat constructor].
      clear -Htts Hs. unfold solid_filter in Hs. induction Htts as [|x t xs ts Hx _ IH]; [constructor|]. apply Forall_cons in Hs as [Hs1 Hs]. constructor; [by apply Hx|by apply IH].
    + intros url Ht. rewrite (filter_matches_seq b r tts url Htts). apply (Hspec url Ht).
Qed.
End Added.
