(* ===== verification/FilterClaims.v ===== *)
(** * What is guaranteed for URL filters and their parsers *)

From stdpp Require Import gmap.
From S2P Require Import Prelude Bits DFA RangeList HashSet NFA Term TermLanguage FilterSyntax CombinedURLFilters PrefixTree Yarr YarrCorrect URLFilterParser FilterParserCorrect FilterRun FilterSimplify.

(** ** Theorems *)

(** C18: parsing a written filter is understanding it: for a filter of the
    supported syntax, the parser either adds one pattern to the tree, whose
    terms are found in exactly the URLs that the filter matches, or says that
    it matches everything - which it does, unless it is bound to both ends of
    the URL; then it matches the empty URL at least. *)
Theorem addURLFilter_correct (f : CombinedURLFilters) (r : filter) (b : bool) (id : Z) :
  wf_tree f -> filter_ok r -> print_filter r <> [] -> vlen (print_filter r) <= MAX_PATTERN_SIZE ->
  (exists f' ts, addURLFilter f (print_filter r) b id = Some (f', Ok) /\ wf_tree f'
     /\ (forall ts' a, has_pattern f' ts' a <-> has_pattern f ts' a \/ (ts' = ts /\ a = id))
     /\ forall url, Forall text_char url -> found ts url <-> filter_matches b r url)
  \/ (addURLFilter f (print_filter r) b id = Some (f, MatchesEverything)
      /\ forall url, Forall text_char url -> f_beginning r = false \/ f_end r = false \/ url = [] -> filter_matches b r url).
Proof.
  intros Hf Hok Hne Hlen. destruct (addURLFilter_added f r b id Hf Hok Hne Hlen) as [(f' & ts & He & Hadd & [Hnt _ _ Hfound])|Hm]; [left|by right].
  destruct (addPattern_spec f id ts Hf Hnt) as (f2 & Hadd2 & Hf2 & Hp). rewrite Hadd in Hadd2. injection Hadd2 as <-. by exists f', ts.
Qed.

(** C20: the regular expression parser terminates on every pattern and never
    reads past its end, for every delegate that keeps its promises: it returns
    an error or it has closed all the parentheses it has opened. *)
Theorem yarr_parse_returns (D : Type) (I : Z -> D -> Prop) (P : Z -> Prop) `{DelegateLaws D I P} (backReferenceLimit : Z) (delegate : D) (pattern : list Z) :
  I 0 delegate -> class_safe P pattern ->
  exists delegate' error, Yarr.parse backReferenceLimit delegate pattern = Some (delegate', error) /\ (error = NoError -> I 0 delegate').
Proof. exact (parse_ok I P backReferenceLimit delegate pattern). Qed.

(** C19: every pattern without numeric escapes gets a status: the URL filter
    parser does not abort on it, keeps the tree well formed, adds exactly one
    pattern with the given action if the status is [Ok] and nothing if the
    pattern matches everything. *)
Theorem addURLFilter_returns (f : CombinedURLFilters) (pattern : list Z) (isCaseSensitive : bool) (id : Z) :
  wf_tree f -> Forall (fun c => 0 <= c < 2 ^ 16) pattern -> plain_escapes pattern = true ->
  exists f' status, addURLFilter f pattern isCaseSensitive id = Some (f', status) /\ wf_tree f'
    /\ (status = Ok -> adds_one f f' id) /\ (status = MatchesEverything -> f' = f).
Proof. apply addURLFilter_spec. Qed.

(** Adding a pattern to the tree of prefixes keeps it a tree and adds
    exactly that pattern with its action; patterns that share a prefix share
    its vertices but no pattern gets an action of another. *)
Theorem addPattern_correct (f : CombinedURLFilters) (id : Z) (pattern : list Term) :
  wf_tree f -> pattern <> [] ->
  exists f', addPattern f id pattern = Some f' /\ wf_tree f' /\
    forall ts a, has_pattern f' ts a <-> has_pattern f ts a \/ (ts = pattern /\ a = id).
Proof. apply addPattern_spec. Qed.

(** ** Filters bound to both ends *)

(** "^a?$". *)
Definition optional_a : filter := mkFilter true [(AChar 97, ZeroOrOne)] true.

Lemma optional_a_text v : lang_sequence (map (qatom_matches true) (f_terms optional_a) ++ [fun w => w = [0]]) v -> v = [0] \/ v = [97; 0].
Proof.
  intros (u & w & -> & Hu & w1 & w2 & -> & -> & ->). unfold qatom_matches in Hu. cbn in Hu. destruct Hu as [(d & -> & [->|[? _]])| ->]; [by right|done|by left].
Qed.

(** C21: the exception is real: "^a?$" is said to match everything, and so its
    action is given to every URL, but it does not match "b". *)
Theorem bound_filter_matches_everything :
  addURLFilter newFilters (print_filter optional_a) true 7 = Some (newFilters, MatchesEverything) /\ ~ filter_matches true optional_a [98].
Proof.
  split; [vm_compute; reflexivity|]. intros (u & v & x & Heq & Hu & Hv). specialize (Hu eq_refl). subst u. cbn [f_end optional_a] in Hv.
  apply optional_a_text in Hv as [->| ->]; done.
Qed.

(** ** Characters beyond ASCII *)

(** A class with one character, written by four hexadecimal digits, and more text. *)
Definition class_of_escape (inverted : bool) (c1 c2 c3 c4 : Z) (tail : list Z) : list Z :=
  91 :: (if inverted then [94] else []) ++ 92 :: 117 :: c1 :: c2 :: c3 :: c4 :: 93 :: tail.

(** The set of characters has no room for it. *)
Lemma addCharacter_aborts q cs c b : 128 <= c -> addCharacter (CharacterSetTerm q cs) c b = None.
Proof.
  intros Hc. cbn [addCharacter]. assert (isASCIIAlpha c = false) as ->.
  { unfold isASCIIAlpha. pose proof (Z.log2_lor c 32 ltac:(lia) ltac:(lia)). pose proof (Z.log2_le_mono 128 c Hc). change (Z.log2 128) with 7 in *.
    destruct (Z.leb_spec (Z.lor c 32) 122) as [Hle|]; [|by rewrite andb_false_r]. apply Z.log2_le_mono in Hle. change (Z.log2 122) with 6 in Hle. lia. }
  rewrite orb_true_r. unfold cs_set.
  destruct (Z.ltb_spec c 128); [lia|]. by rewrite andb_false_r.
Qed.

(** The class begins, the escape is kept back, and the bracket adds it. *)
Lemma class_of_escape_parse b inverted c1 c2 c3 c4 d1 d2 d3 d4 tail :
  hex_digit c1 d1 -> hex_digit c2 d2 -> hex_digit c3 d3 -> hex_digit c4 d4 -> 128 <= d1 * 4096 + d2 * 256 + d3 * 16 + d4 ->
  vlen (class_of_escape inverted c1 c2 c3 c4 tail) <= MAX_PATTERN_SIZE ->
  Yarr.parse 0 (newPatternParser b) (class_of_escape inverted c1 c2 c3 c4 tail) = None.
Proof.
  intros H1 H2 H3 H4 Hu Hlen. pose proof (tryConsumeHex_digits c1 c2 c3 c4 d1 d2 d3 d4 (93 :: tail) H1 H2 H3 H4) as Hx. set (u := d1 * 4096 + d2 * 256 + d3 * 16 + d4) in *.
  unfold Yarr.parse. destruct (Z.ltb_spec MAX_PATTERN_SIZE (vlen (class_of_escape inverted c1 c2 c3 c4 tail))); [lia|].
  assert (Hescape : forall d, parseEscape (E := CharacterClassParserDelegate PatternParser) classEscapes true 0 (mkClass d NoError ClassEmpty 0) (117 :: c1 :: c2 :: c3 :: c4 :: 93 :: tail)
      = Some (mkClass d NoError CachedCharacter u, 93 :: tail, NoError, true)).
  { intros d. unfold parseEscape. cbn [Z.eqb Z.leb Z.compare Pos.eqb Pos.compare Pos.compare_cont andb]. unfold escape_hex. rewrite Hx. destruct (Z.eqb_spec u (-1)); [lia|done]. }
  unfold class_of_escape at 2. cbn [parse_tokens m_rest]. unfold parse_token. cbn [Z.eqb Pos.eqb]. unfold parseCharacterClass.
  set (rest := 92 :: 117 :: _) in *. set (p := mkParser _ _ _ _).
  assert (Hloop : forall n q cs, class_loop 0 (S (S n)) p (mkClass (with_floating (newPatternParser b) (CharacterSetTerm q cs)) NoError ClassEmpty 0) rest = None).
  { intros n q cs. unfold rest. cbn [class_loop]. cbn [Z.eqb Pos.eqb]. rewrite Hescape, !option_bind_Some. rewrite (decide_True (P := NoError = NoError)) by done. cbn [cc_err]. rewrite decide_True by done. unfold class_end. cbn -[addCharacter u]. unfold pp_atomCharacterClassAtom, unless_error. cbn -[addCharacter u]. by rewrite addCharacter_aborts. }
  assert (tryConsume 94 ((if inverted then [94] else []) ++ rest) = (inverted, rest)) as -> by by destruct inverted.
  change (atomCharacterClassBegin (m_delegate p) inverted) with (Some (with_floating (newPatternParser b) (characterSetTerm inverted))). rewrite option_bind_Some.
  change (S (length rest)) with (S (S (length (117 :: c1 :: c2 :: c3 :: c4 :: 93 :: tail)))). unfold characterSetTerm. by rewrite Hloop.
Qed.

(** C22: a class with a character beyond ASCII that is written by four
    hexadecimal digits, such as "[\u1234]", aborts the compiler: for every
    code unit from 128, however its digits are written, in a class or an
    inverted class, and with any ASCII text after it.  The text is ASCII, so it
    is not refused, and the set of characters asserts that the character is. *)
Theorem class_escape_aborts (f : CombinedURLFilters) (b : bool) (id : Z) (inverted : bool) (c1 c2 c3 c4 d1 d2 d3 d4 : Z) (tail : list Z) :
  hex_digit c1 d1 -> hex_digit c2 d2 -> hex_digit c3 d3 -> hex_digit c4 d4 -> 128 <= d1 * 4096 + d2 * 256 + d3 * 16 + d4 ->
  Forall ascii tail -> vlen (class_of_escape inverted c1 c2 c3 c4 tail) <= MAX_PATTERN_SIZE ->
  addURLFilter f (class_of_escape inverted c1 c2 c3 c4 tail) b id = None.
Proof.
  intros H1 H2 H3 H4 Hu Ht Hlen. unfold addURLFilter.
  assert (Hall : forallb isASCII (class_of_escape inverted c1 c2 c3 c4 tail) = true).
  { apply forallb_forall. intros c Hin%list_elem_of_In. rewrite Forall_forall in Ht. unfold class_of_escape, hex_digit, ascii in *. assert (0 <= c < 128); [|apply isASCII_spec; lia].
    destruct inverted; cbn [app] in Hin; repeat (apply elem_of_cons in Hin as [->|Hin]; [lia|]); by apply Ht. }
  rewrite Hall, bool_decide_eq_false_2 by done. cbn [negb]. by rewrite (class_of_escape_parse b inverted c1 c2 c3 c4 d1 d2 d3 d4).
Qed.

(** The inverted set without the character zero is taken for the end of the line: "[^\0]a". *)
Example inverted_zero_is_end : snd <$> addURLFilter newFilters [91; 94; 92; 48; 93; 97; 97] true 7 = Some MisplacedEndOfLine.
Proof. vm_compute. reflexivity. Qed.

(** ** Witnesses *)

(** "a[b-d]*(.x)+". *)
Definition sample_filter : filter := mkFilter false [(AChar 97, One); (AClass false [Between 98 100], ZeroOrMore); (AGroup [(ADot, One); (AChar 120, One)], OneOrMore)] false.

Lemma sample_filter_ok : filter_ok sample_filter.
Proof.
  unfold filter_ok. cbn [f_terms sample_filter]. repeat (apply List.Forall_nil || apply List.Forall_cons); cbn; unfold text_char; repeat split; lia.
Qed.

Lemma addURLFilter_correct_witness :
  (exists f' ts, addURLFilter newFilters (print_filter sample_filter) false 3 = Some (f', Ok) /\ wf_tree f'
     /\ (forall ts' a, has_pattern f' ts' a <-> has_pattern newFilters ts' a \/ (ts' = ts /\ a = 3))
     /\ forall url, Forall text_char url -> found ts url <-> filter_matches false sample_filter url)
  \/ (addURLFilter newFilters (print_filter sample_filter) false 3 = Some (newFilters, MatchesEverything)
      /\ forall url, Forall text_char url -> f_beginning sample_filter = false \/ f_end sample_filter = false \/ url = [] -> filter_matches false sample_filter url).
Proof.
  apply (addURLFilter_correct newFilters sample_filter false 3).
  - exact wf_newFilters.
  - exact sample_filter_ok.
  - vm_compute. congruence.
  - vm_compute. congruence.
Defined.

(** "[^\u00fF]x". *)
Lemma class_escape_aborts_witness : addURLFilter newFilters [91; 94; 92; 117; 48; 48; 102; 70; 93; 120] false 7 = None.
Proof.
  apply (class_escape_aborts newFilters false 7 true 48 48 102 70 0 0 15 15 [120]); unfold hex_digit.
  1-5: lia.
  - apply List.Forall_cons; [unfold ascii; lia|apply List.Forall_nil].
  - vm_compute. congruence.
Defined.

(** "a(b]". *)
Definition open_group : list Z := [97; 40; 98; 93].

Lemma open_group_safe : class_safe ascii open_group.
Proof. split; [|left; vm_compute; reflexivity]. repeat (apply List.Forall_nil || apply List.Forall_cons); unfold ascii; lia. Qed.

Lemma yarr_parse_returns_witness :
  exists p error, Yarr.parse 0 (newPatternParser true) open_group = Some (p, error) /\ (error = NoError -> groups_match 0 p).
Proof.
  apply (yarr_parse_returns PatternParser groups_match ascii 0 (newPatternParser true) open_group).
  - right. reflexivity.
  - exact open_group_safe.
Defined.

Lemma addURLFilter_returns_witness :
  exists f' status, addURLFilter newFilters open_group true 5 = Some (f', status) /\ wf_tree f'
    /\ (status = Ok -> adds_one newFilters f' 5) /\ (status = MatchesEverything -> f' = newFilters).
Proof.
  apply (addURLFilter_returns newFilters open_group true 5).
  - exact wf_newFilters.
  - repeat (apply List.Forall_nil || apply List.Forall_cons); lia.
  - vm_compute. reflexivity.
Defined.

Lemma addPattern_correct_witness :
  exists f', addPattern newFilters 4 [endTerm] = Some f' /\ wf_tree f' /\
    forall ts a, has_pattern f' ts a <-> has_pattern newFilters ts a \/ (ts = [endTerm] /\ a = 4).
Proof.
  apply (addPattern_correct newFilters 4 [endTerm]).
  - exact wf_newFilters.
  - congruence.
Defined.
