(* ===== verification/ProcessNFAs.v ===== *)
(** * From the prefix tree to NFAs (CombinedURLFilters.cpp, processNFAs)

    The tree is consumed: every round draws the path to a vertex after a
    quantified term, then all the subtrees of fixed length below it, and deletes
    what it has drawn.  Ends of patterns that carry the same actions share their
    nodes through a tree of reversed suffixes.

    The stack of active subtrees is a vector that moves its elements when it
    grows, so its capacity is part of the state. *)

From stdpp Require Import gmap sorting.
From S2P Require Import Prelude Bits DFA RangeList HashSet NFA Term CombinedURLFilters.

(** ** Vectors that grow (wtf/Vector.h) *)

Definition expandCapacity (capacity newMinCapacity : Z) : Z := Z.max newMinCapacity (Z.max 16 (capacity + capacity / 4 + 1)).

(** ** The tree of reversed suffixes *)

Record ReverseSuffixTreeVertex := mkReverseVertex { rs_edges : list (Z * Z); rs_nodeId : Z }.

(** The key of a list of actions is the sorted list. *)
Definition HashableActionList (actions : list Z) : list Z := merge_sort Z.le actions.

(** The roots are addresses of vertices. *)
Record ReverseSuffixTrees := mkReverseTrees { rs_vertices : list ReverseSuffixTreeVertex; rs_roots : gmap (list Z) Z }.

Definition newReverseTrees : ReverseSuffixTrees := mkReverseTrees [] ∅.

Section Process.
Context {NS AS : Type} `{HashSet NS} `{HashSet AS}.
Abbreviation builder := (NodeBuilder NS AS).

Record ActiveSubtree := mkActive { as_vertex : Z; as_nfaNode : builder; as_edgeIndex : Z }.

Definition with_node (a : ActiveSubtree) (b : builder) : ActiveSubtree := mkActive (as_vertex a) b (as_edgeIndex a).
Definition with_index (a : ActiveSubtree) (i : Z) : ActiveSubtree := mkActive (as_vertex a) (as_nfaNode a) i.

(** Moving an element moves its builder. *)
Definition moveActive (a : ActiveSubtree) : ActiveSubtree := with_node a (moveConstruct (as_nfaNode a)).

(** What the functions below change. *)
Record Subtrees := mkSubtrees {
  s_nfa : NFA;
  s_vertices : list PrefixTreeEdges;
  s_stack : list ActiveSubtree;
  s_capacity : Z;
  s_reverse : ReverseSuffixTrees;
  s_nfaTooBig : bool
}.

Definition with_nfa (s : Subtrees) (nfa : NFA) : Subtrees := mkSubtrees nfa (s_vertices s) (s_stack s) (s_capacity s) (s_reverse s) (s_nfaTooBig s).
Definition with_vertices (s : Subtrees) (v : list PrefixTreeEdges) : Subtrees := mkSubtrees (s_nfa s) v (s_stack s) (s_capacity s) (s_reverse s) (s_nfaTooBig s).
Definition with_stack (s : Subtrees) (stack : list ActiveSubtree) : Subtrees := mkSubtrees (s_nfa s) (s_vertices s) stack (s_capacity s) (s_reverse s) (s_nfaTooBig s).
Definition with_reverse (s : Subtrees) (r : ReverseSuffixTrees) : Subtrees := mkSubtrees (s_nfa s) (s_vertices s) (s_stack s) (s_capacity s) r (s_nfaTooBig s).

(** [Vector::append]: a full vector is first moved to a larger buffer. *)
Definition stack_append (s : Subtrees) (a : ActiveSubtree) : Subtrees :=
  if vlen (s_stack s) =? s_capacity s
  then mkSubtrees (s_nfa s) (s_vertices s) (map moveActive (s_stack s) ++ [moveActive a]) (expandCapacity (s_capacity s) (vlen (s_stack s) + 1)) (s_reverse s) (s_nfaTooBig s)
  else with_stack s (s_stack s ++ [moveActive a]).

(** The tables of the filters, which do not change here. *)
Variables (alphabet : list Term) (actions : gmap Z (list Z)).

Definition actions_get (vertex : Z) : list Z := default [] (actions !! vertex).

(** A null pointer to a term is not dereferenced. *)
Definition edge_term (edge : PrefixTreeEdge) : option Term := pointer ← e_term edge; alphabet.[pointer].

(** The edge an active subtree is at. *)
Definition active_edge (vertices : list PrefixTreeEdges) (a : ActiveSubtree) : option PrefixTreeEdge :=
  edges ← vertices.[as_vertex a]; edges.[as_edgeIndex a].

(** ** Nodes that cannot be shared *)

(** The nearest element below position [i] that has a node. *)
Fixpoint find_generated (stack : list ActiveSubtree) (i : nat) : option nat :=
  match i with
  | O => None
  | S i => a ← stack !! i; if m_isValid (as_nfaNode a) then Some i else find_generated stack i
  end.

(** The nodes at [stackIndex] and the [count - 1] positions after it. *)
Fixpoint generate_infix (count : nat) (stackIndex : Z) (s : Subtrees) : option Subtrees :=
  match count with
  | O => Some s
  | S count =>
      source ← (s_stack s).[stackIndex - 1];
      edge ← active_edge (s_vertices s) source;
      term ← edge_term edge;
      destination ← (s_stack s).[stackIndex];
      '(nfa, sourceNode, newNode) ← generateGraphWithActions term (s_nfa s) (as_nfaNode source) (actions_get (as_vertex destination));
      '(nfa, destinationNode) ← moveAssign nfa (as_nfaNode destination) newNode;
      stack ← vec_set (s_stack s) (stackIndex - 1) (with_node source sourceNode);
      stack ← vec_set stack stackIndex (with_node destination destinationNode);
      generate_infix count (stackIndex + 1) (with_stack (with_nfa s nfa) stack)
  end.

(** The loop over the stack from the position below [i] down. *)
Fixpoint infix_loop (i : nat) (s : Subtrees) : option Subtrees :=
  match i with
  | O => Some s
  | S i =>
      activeSubtree ← s_stack s !! i;
      if m_isValid (as_nfaNode activeSubtree) then Some s
      else if bool_decide (i = 0%nat) then None
      else
        edges ← (s_vertices s).[as_vertex activeSubtree];
        let hasActionInsideTree := bool_decide (is_Some (actions !! as_vertex activeSubtree)) in
        let hasSingleOutcome := vlen edges =? 1 in
        if hasActionInsideTree || negb hasSingleOutcome then
          beginning ← find_generated (s_stack s) i;
          generate_infix (i - beginning) (Z.of_nat beginning + 1) s
        else infix_loop i s
  end.

Definition generateInfixUnsuitableForReverseSuffixTree (s : Subtrees) : option Subtrees := infix_loop (length (s_stack s) - 1) s.

(** ** Shared suffixes *)

(** [Vector::shrink] destroys the elements at the end. *)
Fixpoint destroy_all (nfa : NFA) (removed : list ActiveSubtree) : option NFA :=
  match removed with
  | [] => Some nfa
  | a :: removed => nfa ← destroyBuilder nfa (as_nfaNode a); destroy_all nfa removed
  end.

Definition stack_shrink (s : Subtrees) (size : nat) : option Subtrees :=
  nfa ← destroy_all (s_nfa s) (drop size (s_stack s));
  Some (with_stack (with_nfa s nfa) (take size (s_stack s))).

(** A vertex of the reverse tree below [active], for the term at [pointer]. *)
Definition reverse_step (s : Subtrees) (active destinationNodeId pointer : Z) (term : Term) : option (Subtrees * Z) :=
  vertex ← (rs_vertices (s_reverse s)).[active];
  match List.find (fun edge => fst edge =? pointer) (rs_edges vertex) with
  | Some (_, child) => Some (s, child)
  | None =>
      let '(nfa, newNode) := newBuilder (NS := NS) (AS := AS) (s_nfa s) in
      '(nfa, newNode) ← generateGraph term nfa newNode destinationNodeId;
      let newVertex := vlen (rs_vertices (s_reverse s)) in
      vertices ← vec_set (rs_vertices (s_reverse s)) active (mkReverseVertex (rs_edges vertex ++ [(pointer, newVertex)]) (rs_nodeId vertex));
      nfa ← destroyBuilder nfa newNode;
      Some (with_reverse (with_nfa s nfa) (mkReverseTrees (vertices ++ [mkReverseVertex [] (m_nodeId newNode)]) (rs_roots (s_reverse s))), newVertex)
  end.

(** The loop down the stack, at [stackPosition]. *)
Fixpoint suffix_loop (stackPosition : nat) (s : Subtrees) (active destinationNodeId : Z) : option Subtrees :=
  source ← s_stack s !! stackPosition;
  edge ← active_edge (s_vertices s) source;
  pointer ← e_term edge;
  term ← alphabet.[pointer];
  if m_isValid (as_nfaNode source) then
    s ← stack_shrink s (S stackPosition);
    '(nfa, node) ← generateGraph term (s_nfa s) (as_nfaNode source) destinationNodeId;
    stack ← vec_set (s_stack s) (Z.of_nat stackPosition) (with_node source node);
    Some (with_stack (with_nfa s nfa) stack)
  else
    '(s, active) ← reverse_step s active destinationNodeId pointer term;
    vertex ← (rs_vertices (s_reverse s)).[active];
    vertices ← vec_set (s_vertices s) (as_vertex source) [];
    match stackPosition with
    | S stackPosition => suffix_loop stackPosition (with_vertices s vertices) active (rs_nodeId vertex)
    | O => None
    end.

Definition generateSuffixWithReverseSuffixTree (s : Subtrees) : option Subtrees :=
  leafSubtree ← (s_stack s).[vlen (s_stack s) - 1];
  let actionList := actions_get (as_vertex leafSubtree) in
  let key := HashableActionList actionList in
  '(s, root) ← (match rs_roots (s_reverse s) !! key with
                | Some root => Some (s, root)
                | None =>
                    let '(nfa, newNode) := newBuilder (NS := NS) (AS := AS) (s_nfa s) in
                    let newNode := setActions newNode actionList in
                    nfa ← destroyBuilder nfa newNode;
                    let root := vlen (rs_vertices (s_reverse s)) in
                    Some (with_reverse (with_nfa s nfa)
                            (mkReverseTrees (rs_vertices (s_reverse s) ++ [mkReverseVertex [] (m_nodeId newNode)]) (<[key := root]> (rs_roots (s_reverse s)))), root)
                end);
  vertex ← (rs_vertices (s_reverse s)).[root];
  suffix_loop (length (s_stack s) - 2) s root (rs_nodeId vertex).

(** ** The subtrees of fixed length *)

Variable maxNFASize : Z.

Definition set_last (stack : list ActiveSubtree) (a : ActiveSubtree) : option (list ActiveSubtree) := vec_set stack (vlen stack - 1) a.

(** The end of a vertex: its processed leaves are removed. *)
Definition remove_marked (edges : PrefixTreeEdges) : PrefixTreeEdges := List.filter (fun e => bool_decide (is_Some (e_term e))) edges.

(** Back in the parent: a child without edges is marked for deletion. *)
Definition mark_and_advance (s : Subtrees) : option Subtrees :=
  match s_stack s with
  | [] => Some s
  | _ =>
      activeSubtree ← (s_stack s).[vlen (s_stack s) - 1];
      edges ← (s_vertices s).[as_vertex activeSubtree];
      edge ← edges.[as_edgeIndex activeSubtree];
      childEdges ← (s_vertices s).[e_child edge];
      vertices ← (if bool_decide (childEdges = [])
                  then edges ← vec_set edges (as_edgeIndex activeSubtree) (mkEdge None (e_child edge)); vec_set (s_vertices s) (as_vertex activeSubtree) edges
                  else Some (s_vertices s));
      stack ← set_last (s_stack s) (with_index activeSubtree (u32 (as_edgeIndex activeSubtree + 1)));
      Some (with_stack (with_vertices s vertices) stack)
  end.

(** One turn of the loop while the stack is not empty. *)
Definition subtree_step (s : Subtrees) : option Subtrees :=
  top ← (s_stack s).[vlen (s_stack s) - 1];
  edges ← (s_vertices s).[as_vertex top];
  if as_edgeIndex top <? vlen edges then
    edge ← edges.[as_edgeIndex top];
    if s_nfaTooBig s then
      stack ← set_last (s_stack s) (with_index top (u32 (vlen edges))); Some (with_stack s stack)
    else
      term ← edge_term edge;
      if negb (hasFixedLength term) then
        stack ← set_last (s_stack s) (with_index top (u32 (as_edgeIndex top + 1))); Some (with_stack s stack)
      else Some (stack_append s (mkActive (e_child edge) (moveConstruct defaultBuilder) 0))
  else
    let isLeaf := bool_decide (edges = []) in
    vertices ← vec_set (s_vertices s) (as_vertex top) (remove_marked edges);
    let s := with_vertices s vertices in
    s ← (if isLeaf then
           s ← generateInfixUnsuitableForReverseSuffixTree s;
           s ← generateSuffixWithReverseSuffixTree s;
           Some (if maxNFASize <? vlen (nfa_nodes (s_nfa s)) then mkSubtrees (s_nfa s) (s_vertices s) (s_stack s) (s_capacity s) (s_reverse s) true else s)
         else stack_shrink s (length (s_stack s) - 1));
    mark_and_advance s.

Fixpoint subtree_loop (fuel : nat) (s : Subtrees) : option Subtrees :=
  match s_stack s with
  | [] => Some s
  | _ => match fuel with O => None | S fuel => s ← subtree_step s; subtree_loop fuel s end
  end.

(** Turns needed for a subtree: an edge is skipped, or entered and left. *)
Fixpoint turns (depth : nat) (vertices : list PrefixTreeEdges) (vertex : Z) : nat :=
  match depth with
  | O => 2%nat
  | S depth => (2 + foldr (fun e n => 1 + turns depth vertices (e_child e) + n) 0 (default [] (vertices.[vertex])))%nat
  end.

(** The NFA, the tree and the builder of the subtree's root, which is only moved to the stack if there is an edge. *)
Definition generateNFAForSubtree (nfa : NFA) (subtreeRoot : builder) (root : Z) (vertices : list PrefixTreeEdges)
    : option (NFA * list PrefixTreeEdges * builder) :=
  edges ← vertices.[root];
  if bool_decide (edges = []) then Some (nfa, vertices, subtreeRoot)
  else
    let s := stack_append (mkSubtrees nfa vertices [] 0 newReverseTrees false) (mkActive root (moveConstruct subtreeRoot) 0) in
    s ← subtree_loop (turns (length vertices) vertices root) s;
    Some (s_nfa s, s_vertices s, movedFrom subtreeRoot).

(** ** The rounds *)

Definition last_edge (vertices : list PrefixTreeEdges) (vertex : Z) : option PrefixTreeEdge :=
  edges ← vertices.[vertex]; edges.[vlen edges - 1].

(** Along the last edges to a leaf; the vertices, the root first. *)
Fixpoint traverse (fuel : nat) (vertices : list PrefixTreeEdges) (vertex : Z) : option (list Z) :=
  match fuel with
  | O => None
  | S fuel =>
      edges ← vertices.[vertex];
      if bool_decide (edges = []) then Some [vertex]
      else edge ← edges.[vlen edges - 1]; stack ← traverse fuel vertices (e_child edge); Some (vertex :: stack)
  end.

(** Back to the vertex after the last quantified term; the stack is reversed. *)
Fixpoint find_prefix_root (vertices : list PrefixTreeEdges) (reversed : list Z) : option (list Z) :=
  match reversed with
  | _ :: ((parent :: _) as rest) =>
      edge ← last_edge vertices parent;
      term ← edge_term edge;
      if negb (hasFixedLength term) then Some reversed else find_prefix_root vertices rest
  | _ => Some reversed
  end.

(** The terms on the stack with the actions of the children. *)
Definition prefix_edges (vertices : list PrefixTreeEdges) (stack : list Z) : option (list (Term * list Z)) :=
  mapM (fun vertex => edge ← last_edge vertices vertex; term ← edge_term edge; Some (term, actions_get (e_child edge))) (removelast stack).

(** The nodes along these terms. *)
Fixpoint generate_prefix (edges : list (Term * list Z)) (nfa : NFA) (lastNode : builder)
    : option (NFA * builder) :=
  match edges with
  | [] => Some (nfa, lastNode)
  | (term, actions) :: edges =>
      '(nfa, lastNode, newNode) ← generateGraphWithActions term nfa lastNode actions;
      '(nfa, lastNode) ← moveAssign nfa lastNode newNode;
      generate_prefix edges nfa lastNode
  end.

(** Processed leaves at the end of the stack; the stack is reversed. *)
Fixpoint clean_up (vertices : list PrefixTreeEdges) (reversed : list Z) : option (list PrefixTreeEdges) :=
  match reversed with
  | vertex :: ((parent :: _) as rest) =>
      edges ← vertices.[vertex];
      if bool_decide (edges = []) then
        parentEdges ← vertices.[parent];
        if bool_decide (parentEdges = []) then None else
        vertices ← vec_set vertices parent (removelast parentEdges);
        clean_up vertices rest
      else Some vertices
  | _ => Some vertices
  end.

(** One round: [None] inside if there is nothing left, or the NFA and the tree. *)
Definition process_round (vertices : list PrefixTreeEdges) : option (option (NFA * list PrefixTreeEdges)) :=
  stack ← traverse (S (length vertices)) vertices m_prefixTreeRoot;
  if bool_decide (length stack = 1%nat) then Some None else
  reversed ← find_prefix_root vertices (rev stack);
  let stack := rev reversed in
  subtree ← last stack;
  let '(nfa, lastNode) := newBuilder (NS := NS) (AS := AS) emptyNFA in
  edges ← prefix_edges vertices stack;
  '(nfa, lastNode) ← generate_prefix edges nfa lastNode;
  '(nfa, vertices, lastNode) ← generateNFAForSubtree nfa lastNode subtree vertices;
  nfa ← destroyBuilder nfa lastNode;
  vertices ← clean_up vertices reversed;
  Some (Some (nfa, vertices)).

Fixpoint process_rounds (fuel : nat) (vertices : list PrefixTreeEdges) : option (list PrefixTreeEdges * list NFA) :=
  match fuel with
  | O => None
  | S fuel =>
      round ← process_round vertices;
      match round with
      | None => Some (vertices, [])
      | Some (nfa, vertices) => '(vertices, nfas) ← process_rounds fuel vertices; Some (vertices, nfa :: nfas)
      end
  end.
End Process.

Definition total_edges (vertices : list PrefixTreeEdges) : nat := foldr (fun edges n => length edges + n)%nat 0%nat vertices.

(** The tree that is left and the NFAs given to the handler, in order; every round deletes an edge. *)
Definition processNFAs {NS AS : Type} `{HashSet NS} `{HashSet AS} (f : CombinedURLFilters) (maxNFASize : Z) : option (CombinedURLFilters * list NFA) :=
  '(vertices, nfas) ← process_rounds (NS := NS) (AS := AS) (m_alphabet f) (m_actions f) maxNFASize (S (total_edges (m_vertices f))) (m_vertices f);
  Some (mkFilters (m_alphabet f) vertices (m_actions f), nfas).
