(* ===== verification/TreeHeap.v ===== *)
(** * The prefix tree while it is consumed

    Edges are marked, removed and cleared, never added.  Weights of vertices
    count what is below them; they bound the turns of the loops and the nodes
    that are drawn. *)

From stdpp Require Import gmap.
From S2P Require Import Prelude Bits DFA RangeList HashSet NFA Term TermLanguage CombinedURLFilters PrefixTree ProcessNFAs.

(** ** Smaller heaps *)

(** The same child, the same term or a mark. *)
Definition edge_le (e' e : PrefixTreeEdge) : Prop := e_child e' = e_child e /\ (e_term e' = e_term e \/ e_term e' = None).

Inductive trimmed : PrefixTreeEdges -> PrefixTreeEdges -> Prop :=
| trimmed_nil : trimmed [] []
| trimmed_drop es' e es : trimmed es' es -> trimmed es' (e :: es)
| trimmed_keep e' es' e es : edge_le e' e -> trimmed es' es -> trimmed (e' :: es') (e :: es).

#[export] Instance edge_le_preorder : PreOrder edge_le.
Proof.
  split; [by split; [|left]|]. intros x y z [H1 H2] [H3 H4]. split; [congruence|]. destruct H2 as [-> |]; [|by right]. destruct H4; [left|right]; congruence.
Qed.

Lemma trimmed_refl es : trimmed es es.
Proof. induction es; [constructor|by apply trimmed_keep]. Qed.

Lemma trimmed_trans es1 es2 es3 : trimmed es1 es2 -> trimmed es2 es3 -> trimmed es1 es3.
Proof.
  intros H1 H2. revert es1 H1. induction H2 as [|es2 e es3 _ IH|e2 es2 e es3 He _ IH]; intros es1 H1; [done|constructor; auto|].
  inversion H1; subst; [constructor; auto|]. apply trimmed_keep; [by etrans|auto].
Qed.

Lemma trimmed_clear es : trimmed [] es.
Proof. induction es; constructor; auto. Qed.

Lemma trimmed_filter p es : trimmed (List.filter p es) es.
Proof. induction es as [|e es IH]; cbn; [constructor|]. destruct (p e); [by apply trimmed_keep|by constructor]. Qed.

Lemma trimmed_insert es k e e' : es !! k = Some e -> edge_le e' e -> trimmed (<[k := e']> es) es.
Proof.
  revert k. induction es as [|x es IH]; intros [|k]; cbn; [done|done| |].
  - intros [= ->] He. apply trimmed_keep; [done|apply trimmed_refl].
  - intros Hk He. apply trimmed_keep; [done|by apply IH].
Qed.

Lemma trimmed_in es' es e' : trimmed es' es -> e' ∈ es' -> exists e, e ∈ es /\ edge_le e' e.
Proof.
  induction 1 as [|es' e es _ IH|e0' es' e0 es He _ IH]; intros Hin; [by apply not_elem_of_nil in Hin| |].
  - destruct (IH Hin) as (x & Hx & Hle). exists x. split; [by right|done].
  - apply elem_of_cons in Hin as [->|Hin]; [exists e0; split; [by left|done]|]. destruct (IH Hin) as (x & Hx & Hle). exists x. split; [by right|done].
Qed.

Lemma trimmed_length es' es : trimmed es' es -> (length es' <= length es)%nat.
Proof. induction 1; cbn; lia. Qed.

Definition heap_le (h' h : list PrefixTreeEdges) : Prop := Forall2 trimmed h' h.

#[export] Instance heap_le_preorder : PreOrder heap_le.
Proof.
  split.
  - intros h. induction h; constructor; [apply trimmed_refl|done].
  - intros h1 h2 h3 H12. revert h3. induction H12 as [|x y h1 h2 Hxy _ IH]; intros h3 H23; inversion H23; subst; constructor; [by eapply trimmed_trans|by apply IH].
Qed.

Lemma heap_le_set h h' u es es' : h.[u] = Some es -> trimmed es' es -> vec_set h u es' = Some h' -> heap_le h' h.
Proof.
  intros Hu Ht [Hr ->]%vec_set_inv. apply vec_at_Some in Hu as [_ Hu]. apply Forall2_same_length_lookup. split; [by rewrite length_insert|].
  intros i x y Hx Hy. destruct (decide (i = Z.to_nat u)) as [->|Hne].
  - rewrite list_lookup_insert_eq in Hx by lia. injection Hx as <-. rewrite Hu in Hy. by injection Hy as <-.
  - rewrite list_lookup_insert_ne in Hx by done. rewrite Hx in Hy. injection Hy as <-. apply trimmed_refl.
Qed.

Lemma heap_le_at h' h u es' : heap_le h' h -> h'.[u] = Some es' -> exists es, h.[u] = Some es /\ trimmed es' es.
Proof.
  intros Hle Hu. apply vec_at_Some in Hu as [H0 Hu]. destruct (Forall2_lookup_l _ _ _ _ _ Hle Hu) as (es & Hes & Ht). exists es. split; [by apply vec_at_Some|done].
Qed.

Lemma heap_le_length h' h : heap_le h' h -> length h' = length h.
Proof. apply Forall2_length. Qed.

(** ** Weights *)

Section Weights.
Variables (vw : nat) (ew : PrefixTreeEdge -> nat).
Hypothesis Hew : forall e' e, edge_le e' e -> (ew e' <= ew e)%nat.

Fixpoint weigh (depth : nat) (h : list PrefixTreeEdges) (v : Z) : nat :=
  match depth with
  | O => vw
  | S depth => (vw + foldr (fun e n => ew e + weigh depth h (e_child e) + n) 0 (default [] (h.[v])))%nat
  end.

(** The weight of a list of edges. *)
Definition edges_weight (depth : nat) (h : list PrefixTreeEdges) (es : PrefixTreeEdges) : nat :=
  foldr (fun e n => ew e + weigh depth h (e_child e) + n)%nat 0%nat es.

Definition children_ok (h : list PrefixTreeEdges) : Prop := forall u es e, h.[u] = Some es -> e ∈ es -> u < e_child e < vlen h.

Lemma edges_weight_ext d1 d2 h1 h2 es :
  (forall e, e ∈ es -> weigh d1 h1 (e_child e) = weigh d2 h2 (e_child e)) -> edges_weight d1 h1 es = edges_weight d2 h2 es.
Proof.
  induction es as [|e es IH]; intros He; [done|]. cbn. rewrite (He e) by by left. f_equal. apply IH. intros x Hx. apply He. by right.
Qed.

(** Enough depth is enough. *)
Lemma weigh_depth h : children_ok h -> forall n d1 d2 v, (Z.to_nat (vlen h - v) <= n)%nat -> 0 <= v ->
  (Z.to_nat (vlen h - v) <= d1)%nat -> (Z.to_nat (vlen h - v) <= d2)%nat -> weigh d1 h v = weigh d2 h v.
Proof.
  intros Hc. induction n as [|n IH]; intros d1 d2 v Hn Hv H1 H2.
  - assert (Ha : h.[v] = None). { destruct (h.[v]) as [es|] eqn:E; [|done]. apply vec_at_lt in E. lia. }
    destruct d1, d2; cbn; rewrite ?Ha; cbn; lia.
  - destruct (h.[v]) as [es|] eqn:E; [|destruct d1, d2; cbn; rewrite ?E; cbn; lia]. pose proof (vec_at_lt _ _ _ E) as Hlt.
    destruct d1 as [|d1]; [lia|]. destruct d2 as [|d2]; [lia|]. cbn. rewrite E. cbn. f_equal. apply edges_weight_ext.
    intros e He. specialize (Hc v es e E He). apply IH; lia.
Qed.

Definition wt (h : list PrefixTreeEdges) (v : Z) : nat := weigh (length h) h v.
Definition ews (h : list PrefixTreeEdges) (es : PrefixTreeEdges) : nat := edges_weight (length h) h es.

Lemma wt_unfold h v es : children_ok h -> h.[v] = Some es -> wt h v = (vw + ews h es)%nat.
Proof.
  intros Hc E. pose proof (vec_at_lt _ _ _ E) as Hlt. unfold wt, ews. destruct (length h) as [|d] eqn:El; [lia|]. cbn [weigh]. rewrite E. cbn [default]. f_equal.
  apply edges_weight_ext. intros e He. pose proof (Hc v es e E He). apply (weigh_depth h Hc (length h)); lia.
Qed.

Lemma ews_app h es1 es2 : ews h (es1 ++ es2) = (ews h es1 + ews h es2)%nat.
Proof. unfold ews, edges_weight. induction es1 as [|e es1 IH]; cbn; [done|]. rewrite IH. lia. Qed.

Lemma ews_cons h e es : ews h (e :: es) = (ew e + wt h (e_child e) + ews h es)%nat.
Proof. done. Qed.

Lemma weigh_le h' h : heap_le h' h -> forall d v, (weigh d h' v <= weigh d h v)%nat.
Proof.
  intros Hle. induction d as [|d IH]; intros v; [done|]. cbn. apply Nat.add_le_mono_l. destruct (h'.[v]) as [es'|] eqn:E'; [|cbn; lia].
  destruct (heap_le_at _ _ _ _ Hle E') as (es & -> & Ht). cbn. clear E'. induction Ht as [|es' e es _ IHt|e' es' e es He _ IHt]; cbn; [lia|lia|].
  pose proof (Hew _ _ He). destruct He as [-> _]. specialize (IH (e_child e)). lia.
Qed.

Lemma wt_le h' h v : heap_le h' h -> (wt h' v <= wt h v)%nat.
Proof. intros Hle. unfold wt. rewrite (heap_le_length _ _ Hle). by apply weigh_le. Qed.

Lemma ews_le h' h es' es : heap_le h' h -> trimmed es' es -> (ews h' es' <= ews h es)%nat.
Proof.
  intros Hle. induction 1 as [|es' e es _ IHt|e' es' e es He _ IHt]; [done|rewrite ews_cons; lia|]. rewrite !ews_cons. pose proof (Hew _ _ He).
  destruct He as [-> _]. pose proof (wt_le h' h (e_child e) Hle). lia.
Qed.
End Weights.

Lemma children_le h' h : heap_le h' h -> children_ok h -> children_ok h'.
Proof.
  intros Hle Hc u es' e' Hu He. destruct (heap_le_at _ _ _ _ Hle Hu) as (es & Hes & Ht). destruct (trimmed_in _ _ _ Ht He) as (e & Hin & [-> _]).
  rewrite (heap_le_length _ _ Hle). by eapply Hc.
Qed.

Lemma turns_weigh d h v : turns d h v = weigh 2 (fun _ => 1%nat) d h v.
Proof.
  revert v. induction d as [|d IH]; intros v; [done|]. cbn [turns weigh]. generalize (default [] (h.[v])). induction l as [|e l IHl]; [done|].
  cbn [foldr]. rewrite IH. lia.
Qed.

(** ** Edges that are not marked *)

Definition live_edges (h : list PrefixTreeEdges) : nat := foldr (fun es n => length (remove_marked es) + n)%nat 0%nat h.

Definition unmarked (es : PrefixTreeEdges) : Prop := Forall (fun e => is_Some (e_term e)) es.

Lemma remove_marked_unmarked es : unmarked (remove_marked es).
Proof. apply Forall_forall. intros e He. apply list_elem_of_In, filter_In in He as [_ He]. by apply bool_decide_eq_true in He. Qed.

Lemma remove_marked_id es : unmarked es -> remove_marked es = es.
Proof. unfold remove_marked. induction 1 as [|e es He _ IH]; [done|]. cbn. rewrite bool_decide_eq_true_2 by done. by rewrite IH. Qed.

Lemma remove_marked_in es e : e ∈ remove_marked es <-> e ∈ es /\ is_Some (e_term e).
Proof. unfold remove_marked. rewrite !list_elem_of_In, filter_In, bool_decide_eq_true. done. Qed.

Lemma remove_marked_nil es : remove_marked es = [] -> forall e, e ∈ es -> e_term e = None.
Proof.
  intros Hes e He. destruct (e_term e) as [p|] eqn:Ep; [|done]. exfalso. apply (not_elem_of_nil e). rewrite <- Hes. apply remove_marked_in. split; [done|by eexists].
Qed.

Lemma trimmed_live es' es : trimmed es' es -> (length (remove_marked es') <= length (remove_marked es))%nat.
Proof.
  unfold remove_marked. induction 1 as [|es' e es _ IH|e' es' e es [_ He] _ IH]; cbn; [done|case_bool_decide; cbn; lia|].
  destruct He as [-> | ->]; [case_bool_decide; cbn; lia|]. rewrite bool_decide_eq_false_2 by apply is_Some_None. case_bool_decide; cbn; lia.
Qed.

Lemma live_edges_le h' h : heap_le h' h -> (live_edges h' <= live_edges h)%nat.
Proof. unfold live_edges. induction 1 as [|es' es h' h Ht _ IH]; cbn; [done|]. apply trimmed_live in Ht. lia. Qed.

Lemma live_edges_lt h u es es' h' :
  h.[u] = Some es -> (length (remove_marked es') < length (remove_marked es))%nat -> vec_set h u es' = Some h' -> (live_edges h' < live_edges h)%nat.
Proof.
  intros [_ Hu]%vec_at_Some Hlt [_ ->]%vec_set_inv. revert Hu. generalize (Z.to_nat u). unfold live_edges. induction h as [|x h IH]; intros [|n]; cbn; try done.
  - intros [= ->]. lia.
  - intros Hn. apply Nat.add_lt_mono_l. exact (IH n Hn).
Qed.

(** Marking an edge. *)
Lemma mark_live es k e c es' : es.[k] = Some e -> is_Some (e_term e) -> vec_set es k (mkEdge None c) = Some es' -> (length (remove_marked es') < length (remove_marked es))%nat.
Proof.
  intros [_ Hk]%vec_at_Some He [_ ->]%vec_set_inv. revert Hk. generalize (Z.to_nat k). unfold remove_marked. induction es as [|x es IH]; intros [|n]; cbn; try done.
  - intros [= ->]. rewrite (bool_decide_eq_true_2 (is_Some (e_term e))) by done. cbn. lia.
  - intros Hn. case_bool_decide; cbn; [apply -> Nat.succ_lt_mono|]; exact (IH n Hn).
Qed.

Lemma unmarked_live h : (forall u es, h.[u] = Some es -> unmarked es) -> live_edges h = total_edges h.
Proof.
  intros Hu. assert (Hall : Forall unmarked h).
  { apply Forall_lookup. intros i es Hi. apply (Hu (Z.of_nat i)). by rewrite vec_at_nat. }
  unfold live_edges, total_edges. clear Hu. induction Hall as [|es h Hes _ IH]; [done|]. cbn. by rewrite IH, (remove_marked_id es Hes).
Qed.
