(* ===== verification/Skeleton.v ===== *)
(** * NFAs under construction

    While an NFA is drawn, some of its nodes are still held by builders.  What
    has been drawn is a skeleton: nodes, and jumps from node to node that read
    the texts of a term.  Drawing a term adds a jump, whatever nodes and edges
    the term needs inside. *)

From S2P Require Import Prelude Bits DFA RangeList RangeListCorrect HashSet NFA NFACorrect NFAToDFA SubsetCorrect Term TermLanguage Fragments TermGraph.

(** ** Adding a fragment to a graph *)

Section Jump.
Variables (n n' s d : Z) (G E : graph) (S : out_edges) (L : lang).
Hypothesis HG : forall i l j, G i l j -> i < n /\ j < n.
Hypothesis HF : fragment n n' d S E L.
Hypothesis Hs : s < n.
Hypothesis Hd : d < n.

Definition with_fragment : graph := fun i l j => G i l j \/ (i = s /\ S l j) \/ E i l j.

(** Edges of the old graph and jumps over the fragment. *)
Inductive jpath : Z -> list Z -> Z -> Prop :=
| jpath_nil i : jpath i [] i
| jpath_step i l k w j : G i l k -> jpath k w j -> jpath i (cons_opt l w) j
| jpath_jump u w j : L u -> jpath d w j -> jpath s (u ++ w) j.

Lemma fragment_paths i w j :
  gpath with_fragment i w j -> j < n ->
  (i < n -> jpath i w j) /\ (n <= i < n' -> exists u v, w = u ++ v /\ gpath E i u d /\ jpath d v j).
Proof.
  pose proof HF as [HR HD HS HI HL]. induction 1 as [i|i l k w j He _ IH]; intros Hj; [split; [constructor|lia]|].
  destruct (IH Hj) as [IHo IHi]. destruct He as [He|[[-> He]|He]].
  - pose proof (HG _ _ _ He) as [Hi Hk]. split; [|lia]. intros _. eapply jpath_step; [exact He|auto].
  - split; [|lia]. intros _. pose proof (HS _ _ He) as [->|Hk].
    + change (cons_opt l w) with (cons_opt l ([] ++ w)). rewrite <- cons_opt_app. apply jpath_jump; [|auto]. apply HL. exists l, d, []. split; [done|]. split; [constructor|done].
    + destruct (IHi Hk) as (u & v & -> & Hu & Hv). rewrite <- cons_opt_app. apply jpath_jump; [|done]. apply HL. by exists l, k, u.
  - pose proof (HI _ _ _ He) as [Hi Hk]. split; [lia|]. intros _. destruct Hk as [->|Hk].
    + exists (cons_opt l []), w. rewrite cons_opt_app. split; [done|]. split; [eapply gpath_step; [exact He|constructor]|auto].
    + destruct (IHi Hk) as (u & v & -> & Hu & Hv). exists (cons_opt l u), v. rewrite cons_opt_app. split; [done|]. split; [by eapply gpath_step|done].
Qed.

Lemma jpath_fragment i w j : jpath i w j -> gpath with_fragment i w j.
Proof.
  pose proof HF as [HR HD HS HI HL]. induction 1 as [i|i l k w j He _ IH|u w j Hu _ IH]; [constructor|eapply gpath_step; [by left|done]|].
  apply HL in Hu as (l & k & v & He & Hv & ->). eapply gpath_app; [|exact IH]. eapply gpath_step; [right; left; done|]. eapply gpath_mono; [|exact Hv]. by right; right.
Qed.
End Jump.

(** ** Skeletons *)

Definition jumps : Type := Z -> Term -> Z -> Prop.

Inductive kpath (J : jumps) : Z -> list Z -> Z -> Prop :=
| kpath_nil i : kpath J i [] i
| kpath_jump i t k u w j : J i t k -> term_lang t u -> kpath J k w j -> kpath J i (u ++ w) j.

Lemma kpath_app J i u k w j : kpath J i u k -> kpath J k w j -> kpath J i (u ++ w) j.
Proof. induction 1; intros; cbn; [done|]. rewrite <- (assoc_L (++)). eapply kpath_jump; eauto. Qed.

Lemma kpath_mono (J J' : jumps) i w j : (forall i t j, J i t j -> J' i t j) -> kpath J i w j -> kpath J' i w j.
Proof. intros HJ. induction 1; [constructor|eapply kpath_jump; eauto]. Qed.

Lemma kpath_one (J : jumps) i t k u : J i t k -> term_lang t u -> kpath J i u k.
Proof. intros HJ Hu. rewrite <- (app_nil_r u). eapply kpath_jump; [done|done|constructor]. Qed.

Record skeleton := mkSkeleton { sk_node : Z -> Prop; sk_jump : jumps; sk_acc : Z -> Z -> Prop }.

Definition add_node (sk : skeleton) (n : Z) : skeleton := mkSkeleton (fun i => sk_node sk i \/ i = n) (sk_jump sk) (sk_acc sk).
Definition add_jump (sk : skeleton) (s : Z) (t : Term) (d : Z) : skeleton :=
  mkSkeleton (sk_node sk) (fun i t' j => sk_jump sk i t' j \/ (i = s /\ t' = t /\ j = d)) (sk_acc sk).
Definition add_actions (sk : skeleton) (n : Z) (acts : list Z) : skeleton :=
  mkSkeleton (sk_node sk) (sk_jump sk) (fun i a => sk_acc sk i a \/ (i = n /\ a ∈ acts)).

(** One more jump: the paths of the graph with the fragment. *)
Section NewJump.
Variables (n n' s d : Z) (G E : graph) (S : out_edges) (t : Term) (V : Z -> Prop) (J : jumps).
Hypothesis HG : forall i l j, G i l j -> i < n /\ j < n.
Hypothesis HF : fragment n n' d S E (term_lang t).
Hypothesis HV : forall i, V i -> i < n.
Hypothesis Hs : V s.
Hypothesis Hd : V d.
Hypothesis HJ : forall i t j, J i t j -> V i /\ V j.
Hypothesis HP : forall i j w, V i -> V j -> gpath G i w j <-> kpath J i w j.

Abbreviation J' := (fun i t' j => J i t' j \/ (i = s /\ t' = t /\ j = d)).

Lemma jpath_kpath i w j :
  jpath s d G (term_lang t) i w j -> V j -> gpath G i w j \/ exists u v x, w = u ++ v ++ x /\ gpath G i u s /\ term_lang t v /\ kpath J' d x j.
Proof.
  induction 1 as [i|i l k w j He _ IH|u w j Hu _ IH]; intros Hj; [left; constructor| |].
  - destruct (IH Hj) as [Hp|(u & v & x & -> & Hu & Hv & Hx)]; [left; by eapply gpath_step|right].
    exists (cons_opt l u), v, x. rewrite cons_opt_app. split; [done|]. split; [by eapply gpath_step|done].
  - right. exists [], u, w. split; [done|]. split; [constructor|]. split; [done|]. destruct (IH Hj) as [Hp|(u' & v & x & -> & Hu' & Hv & Hx)].
    + apply HP in Hp; [|done|done]. eapply kpath_mono; [|exact Hp]. by left.
    + apply HP in Hu'; [|done|done]. eapply kpath_app; [eapply kpath_mono; [|exact Hu']; by left|]. eapply kpath_jump; [by right|done|done].
Qed.

Lemma new_jump_paths i j w : V i -> V j -> gpath (with_fragment s G E S) i w j <-> kpath J' i w j.
Proof.
  intros Hi Hj. split.
  - intros Hp. destruct (fragment_paths n n' s d G E S (term_lang t) HG HF (HV s Hs) (HV d Hd) i w j Hp (HV j Hj)) as [Hjp _].
    destruct (jpath_kpath i w j (Hjp (HV i Hi)) Hj) as [Hg|(u & v & x & -> & Hu & Hv & Hx)].
    + apply HP in Hg; [|done|done]. eapply kpath_mono; [|exact Hg]. by left.
    + apply HP in Hu; [|done|done]. eapply kpath_app; [eapply kpath_mono; [|exact Hu]; by left|]. eapply kpath_jump; [by right|done|done].
  - clear Hi. induction 1 as [i|i t' k u w j Hjmp Hu _ IH]; [constructor|]. eapply gpath_app; [|by apply IH]. destruct Hjmp as [Hjmp|(-> & -> & ->)].
    + destruct (HJ _ _ _ Hjmp) as [Hi Hk]. eapply gpath_mono; [|apply HP; [exact Hi|exact Hk|by eapply kpath_one]]. by left.
    + apply (jpath_fragment n n' s d G E S (term_lang t) HF). rewrite <- (app_nil_r u). apply jpath_jump; [done|constructor].
Qed.
End NewJump.

(** ** The bench: an NFA, the builders at work and the skeleton they have drawn *)

Section Bench.
Context {NS AS : Type} `{HashSetLaws NS} `{HashSetLaws AS}.
Abbreviation builder := (NodeBuilder NS AS).

(** The builders are live and have nodes of their own. *)
Record builders_ok (nfa : NFA) (B : list builder) : Prop := {
  bo_wf : Forall wf_builder B;
  bo_range : Forall (fun b => 0 <= m_nodeId b < nnodes nfa) B;
  bo_distinct : NoDup (map m_nodeId B)
}.

(** The edges and actions that are drawn or wait in builders. *)
Definition tedge (nfa : NFA) (B : list builder) (i : Z) (l : option Z) (j : Z) : Prop :=
  edge nfa i l j \/ exists b, b ∈ B /\ m_nodeId b = i /\ bedge b l j.

Definition tacc (nfa : NFA) (B : list builder) (i a : Z) : Prop := accepts nfa i a \/ exists b, b ∈ B /\ m_nodeId b = i /\ baccepts b a.

Record bench (nfa : NFA) (B : list builder) (sk : skeleton) : Prop := {
  bn_wf : wf_nfa nfa;
  bn_target i l j : tedge nfa B i l j -> 0 <= j < nnodes nfa;
  bn_open b : b ∈ B -> sk_node sk (m_nodeId b) /\ (forall l j, ~ edge nfa (m_nodeId b) l j) /\ forall a, ~ accepts nfa (m_nodeId b) a;
  bn_node i : sk_node sk i -> 0 <= i < nnodes nfa;
  bn_jump i t j : sk_jump sk i t j -> sk_node sk i /\ sk_node sk j;
  bn_path i j w : sk_node sk i -> sk_node sk j -> gpath (tedge nfa B) i w j <-> kpath (sk_jump sk) i w j;
  bn_acc i a : tacc nfa B i a <-> sk_acc sk i a;
  bn_acc_node i a : sk_acc sk i a -> sk_node sk i
}.

Lemma builders_perm nfa B B' : B ≡ₚ B' -> builders_ok nfa B -> builders_ok nfa B'.
Proof. intros Hp [Hw Hr Hd]. split; [by rewrite <- Hp|by rewrite <- Hp|]. by rewrite <- (Permutation_map m_nodeId Hp). Qed.

Lemma bench_perm nfa B B' sk : B ≡ₚ B' -> bench nfa B sk -> bench nfa B' sk.
Proof.
  intros Hp [Hwf Ht Ho Hn Hj Hpa Ha Han].
  assert (Hin : forall b, b ∈ B' <-> b ∈ B) by (intros b; by rewrite Hp). assert (He : forall i l j, tedge nfa B' i l j <-> tedge nfa B i l j).
  { intros i l j. unfold tedge. by setoid_rewrite Hin. }
  split; try done.
  - intros i l j Hx%He. by eapply Ht.
  - intros b Hb%Hin. by apply Ho.
  - intros i j w Hi Hj'. rewrite <- Hpa by done. by apply gpath_ext.
  - intros i a. rewrite <- Ha. unfold tacc. by setoid_rewrite Hin.
Qed.

Lemma builders_le nfa nfa' B : nnodes nfa <= nnodes nfa' -> builders_ok nfa B -> builders_ok nfa' B.
Proof. intros Hn [Hw Hr Hd]. split; try done. eapply Forall_impl; [exact Hr|]. cbn. lia. Qed.

Lemma tedge_source nfa B i l j : builders_ok nfa B -> tedge nfa B i l j -> 0 <= i < nnodes nfa.
Proof.
  intros [_ Hr _] [He|(b & Hb & <- & _)]; [by apply edge_source in He|]. rewrite Forall_forall in Hr. by apply Hr.
Qed.

(** A new node with a builder. *)
Lemma bench_new nfa B :
  builders_ok nfa B -> room (NS := NS) nfa 1 ->
  let '(nfa', b) := newBuilder (NS := NS) (AS := AS) nfa in
  builders_ok nfa' (b :: B) /\ m_nodeId b = nnodes nfa /\ nnodes nfa' = nnodes nfa + 1 /\ nfa_le nfa nfa'
  /\ (forall l j, ~ bedge b l j) /\ forall sk, bench nfa B sk -> bench nfa' (b :: B) (add_node sk (nnodes nfa)).
Proof.
  intros HB Hroom. pose proof (newBuilder_any nfa Hroom (AS := AS)) as HA. destruct (newBuilder (NS := NS) (AS := AS) nfa) as [nfa' b].
  destruct HA as (Hb & Hid & Hn & Hle & Hno & Hnoa & Hsem & Hnone & Hnonea). pose proof HB as [Hw Hr Hd].
  split; [|split; [done|split; [done|split; [done|split; [done|]]]]].
  { split; [by constructor|constructor; [lia|]; eapply Forall_impl; [exact Hr|]; cbn; lia|]. cbn. constructor; [|done].
    rewrite list_elem_of_fmap. intros (b' & Heq & Hb'). rewrite Forall_forall in Hr. apply Hr in Hb'. lia. }
  intros sk [Hwf Ht Ho Hnd Hj Hp Ha Han]. destruct (Hsem Hwf) as [Hwf' Hsame].
  assert (He : forall i l j, tedge nfa' (b :: B) i l j <-> tedge nfa B i l j).
  { intros i l j. unfold tedge. split.
    - intros [He|(b' & Hb' & Hi & He)].
      + left. pose proof (edge_source _ _ _ _ He) as Hi. destruct (decide (i = nnodes nfa)) as [->|]; [by apply Hnone in He|].
        rewrite <- (same_node_edge nfa nfa'); [done|]. apply Hsame. lia.
      + apply elem_of_cons in Hb' as [->|Hb']; [by apply Hno in He|]. right. by exists b'.
    - intros [He|(b' & Hb' & Hi & He)]; [left|right; exists b'; split; [by right|done]].
      rewrite (same_node_edge nfa nfa'); [done|]. apply Hsame. by apply edge_source in He. }
  assert (Hacc : forall i a, tacc nfa' (b :: B) i a <-> tacc nfa B i a).
  { intros i a. unfold tacc. split.
    - intros [Hx|(b' & Hb' & Hi & Hx)].
      + left. pose proof (accepts_node _ _ _ Hx) as Hi. destruct (decide (i = nnodes nfa)) as [->|]; [by apply Hnonea in Hx|].
        rewrite <- (same_node_accepts nfa nfa'); [done|]. apply Hsame. lia.
      + apply elem_of_cons in Hb' as [->|Hb']; [by apply Hnoa in Hx|]. right. by exists b'.
    - intros [Hx|(b' & Hb' & Hi & Hx)]; [left|right; exists b'; split; [by right|done]].
      rewrite (same_node_accepts nfa nfa'); [done|]. apply Hsame. by apply accepts_node in Hx. }
  assert (Hnew : forall i l j, tedge nfa B i l j -> i <> nnodes nfa /\ j <> nnodes nfa).
  { intros i l j Hx. pose proof (tedge_source _ _ _ _ _ HB Hx). apply Ht in Hx. lia. }
  assert (Hfrom : forall i w j, gpath (tedge nfa B) i w j -> i = nnodes nfa \/ j = nnodes nfa -> w = [] /\ i = j).
  { induction 1 as [|i l k w j Hx Hk IH]; [done|]. intros [Hi|Hj']; [by destruct (Hnew _ _ _ Hx)|]. destruct (IH (or_intror Hj')) as [_ ->]. destruct (Hnew _ _ _ Hx) as [_ []]. congruence. }
  assert (Hkfrom : forall i w j, kpath (sk_jump sk) i w j -> i = nnodes nfa \/ j = nnodes nfa -> w = [] /\ i = j).
  { induction 1 as [|i t k u w j Hx Hu Hk IH]; [done|]. destruct (Hj _ _ _ Hx) as [Hi%Hnd Hk'%Hnd]. intros [->|Hj']; [lia|].
    destruct (IH (or_intror Hj')) as [_ ->]. lia. }
  split.
  - done.
  - intros i l j Hx%He. apply Ht in Hx. lia.
  - intros b' [->|Hb']%elem_of_cons; [rewrite Hid; split; [by right|done]|]. destruct (Ho b' Hb') as (Hsk & Hne & Hna).
    rewrite Forall_forall in Hr. pose proof (Hr b' Hb') as Hrb. split; [by left|]. split.
    + intros l j. by rewrite (same_node_edge nfa nfa') by (apply Hsame; lia).
    + intros a. by rewrite (same_node_accepts nfa nfa') by (apply Hsame; lia).
  - intros i [Hi| ->]; [apply Hnd in Hi; lia|]. lia.
  - intros i t j [Hi Hj']%Hj. split; by left.
  - intros i j w Hi Hj'. rewrite (gpath_ext _ (tedge nfa B)) by done. destruct Hi as [Hi| ->], Hj' as [Hj'| ->]; [by apply Hp| | |].
    all: split; intros Hx; [apply Hfrom in Hx|apply Hkfrom in Hx]; auto; destruct Hx as [-> Heq]; rewrite <- ?Heq, ?Heq; constructor.
  - intros i a. by rewrite Hacc, Ha.
  - intros i a Hx. left. by eapply Han.
Qed.

(** Drawing a term from a builder to a node. *)
Lemma bench_draw nfa B1 b B2 t d :
  builders_ok nfa (B1 ++ b :: B2) -> 0 <= d < nnodes nfa -> room (NS := NS) nfa (term_nodes t) ->
  exists nfa' b', generateGraph t nfa b d = Some (nfa', b') /\ m_nodeId b' = m_nodeId b /\ builders_ok nfa' (B1 ++ b' :: B2)
    /\ nnodes nfa' = nnodes nfa + term_nodes t /\ nfa_le nfa nfa'
    /\ forall sk, nfa_small nfa' -> bench nfa (B1 ++ b :: B2) sk -> sk_node sk d -> bench nfa' (B1 ++ b' :: B2) (add_jump sk (m_nodeId b) t d).
Proof.
  intros HB Hd Hroom. pose proof HB as [Hw Hr Hdis]. destruct (draws_term (NS := NS) (AS := AS) t) as [Hc Hg].
  assert (Hb : wf_builder b /\ 0 <= m_nodeId b < nnodes nfa).
  { apply Forall_app in Hw as [_ [Hw _]%Forall_cons]. apply Forall_app in Hr as [_ [Hr _]%Forall_cons]. done. }
  destruct Hb as [Hb Hid]. destruct (Hg nfa b d Hb Hid Hd Hroom) as (nfa' & b' & -> & Hb' & Hid' & Hacc' & Hn & Hle & Hsem).
  exists nfa', b'. split; [done|]. split; [done|]. split; [|split; [done|split; [done|]]].
  { split.
    - apply Forall_app in Hw as [Hw1 [_ Hw2]%Forall_cons]. apply Forall_app. split; [done|by constructor].
    - assert (Hr' : Forall (fun b => 0 <= m_nodeId b < nnodes nfa') (B1 ++ b :: B2)) by (eapply Forall_impl; [exact Hr|]; cbn; lia).
      apply Forall_app in Hr' as [Hr1 [Hrb Hr2]%Forall_cons]. apply Forall_app. split; [done|constructor; [lia|done]].
    - rewrite map_app in *. cbn in *. by rewrite Hid'. }
  intros sk Hs [Hwf Ht Ho Hnd Hj Hp Ha Han] Hskd. destruct (Hsem Hs Hwf) as [Hwf' Hsame (S & E & HF & HI & HBe)].
  set (B := B1 ++ b :: B2) in *. set (B' := B1 ++ b' :: B2).
  assert (HinB : forall c, c ∈ B <-> c = b \/ c ∈ B1 ++ B2) by (intros c; unfold B; rewrite !elem_of_app, elem_of_cons; tauto).
  assert (HinB' : forall c, c ∈ B' <-> c = b' \/ c ∈ B1 ++ B2) by (intros c; unfold B'; rewrite !elem_of_app, elem_of_cons; tauto).
  assert (Hopen : sk_node sk (m_nodeId b) /\ (forall l j, ~ edge nfa (m_nodeId b) l j) /\ forall a, ~ accepts nfa (m_nodeId b) a) by (apply Ho, HinB; by left).
  destruct Hopen as (Hskb & Hneb & Hnab).
  assert (HG : forall i l j, tedge nfa B i l j -> i < nnodes nfa /\ j < nnodes nfa).
  { intros i l j Hx. pose proof (tedge_source _ _ _ _ _ HB Hx). apply Ht in Hx. lia. }
  assert (He : forall i l j, tedge nfa' B' i l j <-> with_fragment (m_nodeId b) (tedge nfa B) E S i l j).
  { intros i l j. unfold tedge, with_fragment. setoid_rewrite HinB. setoid_rewrite HinB'. pose proof HF as [_ _ _ HFI _]. split.
    - intros [Hx|(c & [->|Hc'] & Hi & Hx)].
      + pose proof (edge_source _ _ _ _ Hx) as Hi. destruct (decide (i < nnodes nfa)).
        * left. left. rewrite <- (same_node_edge nfa nfa'); [done|]. apply Hsame. lia.
        * right. right. by apply HI; [lia|].
      + apply HBe in Hx as [Hx|Hx]; [left; right; exists b; rewrite <- Hid'; auto|]. right. left. split; [congruence|done].
      + left. right. exists c. auto.
    - intros [[Hx|(c & [->|Hc'] & Hi & Hx)]|[[-> Hx]|Hx]].
      + left. rewrite (same_node_edge nfa nfa'); [done|]. apply Hsame. by apply edge_source in Hx.
      + right. exists b'. split; [by left|]. split; [congruence|]. apply HBe. by left.
      + right. exists c. auto.
      + right. exists b'. split; [by left|]. split; [done|]. apply HBe. by right.
      + left. pose proof (HFI _ _ _ Hx) as [Hi _]. by apply HI. }
  assert (Hold : forall i, sk_node sk i -> i < nnodes nfa) by (intros i Hi%Hnd; lia).
  split.
  - done.
  - intros i l j Hx%He. destruct Hx as [Hx|[[_ Hx]|Hx]]; [apply Ht in Hx; lia| |].
    + apply (fr_src _ _ _ _ _ _ HF) in Hx as [->|?]; lia.
    + apply (fr_int _ _ _ _ _ _ HF) in Hx as [_ [->|?]]; lia.
  - intros c Hc'%HinB'. assert (Hcase : exists c0, c0 ∈ B /\ m_nodeId c0 = m_nodeId c).
    { destruct Hc' as [->|Hc']; [exists b; split; [apply HinB; by left|done]|exists c; split; [apply HinB; by right|done]]. }
    destruct Hcase as (c0 & Hc0 & <-). destruct (Ho c0 Hc0) as (Hsk & Hne & Hna). pose proof (Hnd _ Hsk) as Hrange. split; [done|]. split.
    + intros l j. by rewrite (same_node_edge nfa nfa') by (apply Hsame; lia).
    + intros a. by rewrite (same_node_accepts nfa nfa') by (apply Hsame; lia).
  - intros i Hi%Hnd. lia.
  - intros i t' j [Hx%Hj|(-> & -> & ->)]; [done|]. done.
  - intros i j w Hi Hj'. rewrite (gpath_ext _ _ _ _ _ He). by apply (new_jump_paths (nnodes nfa) (nnodes nfa') (m_nodeId b) d (tedge nfa B) E S t (sk_node sk) (sk_jump sk)).
  - intros i a. cbn. rewrite <- Ha. unfold tacc. setoid_rewrite HinB. setoid_rewrite HinB'. split.
    + intros [Hx|(c & [->|Hc'] & Hi & Hx)]; [|right; exists b; split; [by left|]; split; [congruence|by apply Hacc']|right; exists c; auto].
      left. pose proof (accepts_node _ _ _ Hx) as Hi. destruct (decide (i < nnodes nfa)); [|by apply HI in Hx; [|lia]].
      rewrite <- (same_node_accepts nfa nfa'); [done|]. apply Hsame. lia.
    + intros [Hx|(c & [->|Hc'] & Hi & Hx)]; [|right; exists b'; split; [by left|]; split; [congruence|by apply Hacc']|right; exists c; auto].
      left. rewrite (same_node_accepts nfa nfa'); [done|]. apply Hsame. by apply accepts_node in Hx.
  - intros i a. cbn. apply Han.
Qed.

(** Finishing a node. *)
Lemma bench_destroy nfa B1 b B2 :
  builders_ok nfa (B1 ++ b :: B2) ->
  exists nfa', destroyBuilder nfa b = Some nfa' /\ builders_ok nfa' (B1 ++ B2) /\ nnodes nfa' = nnodes nfa /\ nfa_le nfa nfa'
    /\ forall sk, nfa_small nfa' -> bench nfa (B1 ++ b :: B2) sk -> bench nfa' (B1 ++ B2) sk.
Proof.
  intros HB. pose proof HB as [Hw Hr Hdis]. apply Forall_app in Hw as [Hw1 [Hb Hw2]%Forall_cons]. apply Forall_app in Hr as [Hr1 [Hid Hr2]%Forall_cons].
  destruct (destroyBuilder_any nfa b Hb Hid) as (nfa' & -> & Hn & Hle & Hsem). exists nfa'. split; [done|]. rewrite map_app in Hdis. cbn in Hdis.
  pose proof Hdis as (Hd1 & Hd12 & Hd2)%NoDup_app. apply NoDup_cons in Hd2 as [Hnb Hd2]. split; [|split; [done|split; [done|]]].
  { split; [by apply Forall_app|rewrite Hn; by apply Forall_app|]. rewrite map_app. apply NoDup_app. split; [done|]. split; [|done]. intros x Hx Hx2. apply (Hd12 x Hx). by right. }
  intros sk Hs [Hwf Ht Ho Hnd Hj Hp Ha Han]. destruct (Hsem Hs Hwf) as (Hwf' & Hsame & Hedge & Hacc). set (B := B1 ++ b :: B2) in *.
  assert (HinB : forall c, c ∈ B <-> c = b \/ c ∈ B1 ++ B2) by (intros c; unfold B; rewrite !elem_of_app, elem_of_cons; tauto).
  assert (Hother : forall c, c ∈ B1 ++ B2 -> m_nodeId c <> m_nodeId b).
  { intros c Hc Heq. apply elem_of_app in Hc as [Hc|Hc]; [apply (Hd12 (m_nodeId c)); [by apply list_elem_of_fmap_2|rewrite Heq; by left]|].
    apply Hnb. rewrite <- Heq. by apply list_elem_of_fmap_2. }
  destruct (Ho b ltac:(apply HinB; by left)) as (Hskb & Hneb & Hnab).
  assert (He : forall i l j, tedge nfa' (B1 ++ B2) i l j <-> tedge nfa B i l j).
  { intros i l j. unfold tedge. setoid_rewrite HinB. destruct (decide (i = m_nodeId b)) as [->|Hne].
    - rewrite Hedge. split.
      + intros [Hx|(c & Hc & Hi & _)]; [right; exists b; auto|by apply Hother in Hc].
      + intros [Hx|(c & [->|Hc] & Hi & Hx)]; [by apply Hneb in Hx|by left|by apply Hother in Hc].
    - split.
      + intros [Hx|(c & Hc & Hi & Hx)]; [|right; exists c; auto]. left. rewrite <- (same_node_edge nfa nfa'); [done|]. apply Hsame; [|done].
        apply edge_source in Hx. lia.
      + intros [Hx|(c & [->|Hc] & Hi & Hx)]; [|congruence|right; exists c; auto]. left. rewrite (same_node_edge nfa nfa'); [done|]. apply Hsame; [|done].
        by apply edge_source in Hx. }
  assert (Hacc' : forall i a, tacc nfa' (B1 ++ B2) i a <-> tacc nfa B i a).
  { intros i a. unfold tacc. setoid_rewrite HinB. destruct (decide (i = m_nodeId b)) as [->|Hne].
    - rewrite Hacc. split.
      + intros [Hx|(c & Hc & Hi & _)]; [right; exists b; auto|by apply Hother in Hc].
      + intros [Hx|(c & [->|Hc] & Hi & Hx)]; [by apply Hnab in Hx|by left|by apply Hother in Hc].
    - split.
      + intros [Hx|(c & Hc & Hi & Hx)]; [|right; exists c; auto]. left. rewrite <- (same_node_accepts nfa nfa'); [done|]. apply Hsame; [|done].
        apply accepts_node in Hx. lia.
      + intros [Hx|(c & [->|Hc] & Hi & Hx)]; [|congruence|right; exists c; auto]. left. rewrite (same_node_accepts nfa nfa'); [done|]. apply Hsame; [|done].
        by apply accepts_node in Hx. }
  split.
  - done.
  - intros i l j Hx%He. rewrite Hn. by eapply Ht.
  - intros c Hc. destruct (Ho c ltac:(apply HinB; by right)) as (Hsk & Hne & Hna). pose proof (Hnd _ Hsk). split; [done|]. split.
    + intros l j. rewrite (same_node_edge nfa nfa'); [done|]. apply Hsame; [done|by apply Hother].
    + intros a. rewrite (same_node_accepts nfa nfa'); [done|]. apply Hsame; [done|by apply Hother].
  - intros i Hi%Hnd. lia.
  - done.
  - intros i j w Hi Hj'. rewrite (gpath_ext _ _ _ _ _ He). by apply Hp.
  - intros i a. by rewrite Hacc'.
  - done.
Qed.

(** Adding actions to a node. *)
Lemma bench_actions nfa B1 b B2 acts :
  builders_ok nfa (B1 ++ b :: B2) -> Forall (hs_key (T := AS)) acts ->
  builders_ok nfa (B1 ++ setActions b acts :: B2)
  /\ forall sk, bench nfa (B1 ++ b :: B2) sk -> bench nfa (B1 ++ setActions b acts :: B2) (add_actions sk (m_nodeId b) acts).
Proof.
  intros [Hw Hr Hdis] Hacts. apply Forall_app in Hw as [Hw1 [Hb Hw2]%Forall_cons]. apply Forall_app in Hr as [Hr1 [Hid Hr2]%Forall_cons].
  destruct (setActions_spec b acts Hb Hacts) as (Hb' & Hid' & He & Ha'). set (b' := setActions b acts) in *. split.
  { split; [apply Forall_app; split; [done|by constructor]|apply Forall_app; split; [done|constructor; [lia|done]]|]. rewrite map_app in *. cbn [map] in *. by rewrite Hid'. }
  intros sk [Hwf Ht Ho Hnd Hj Hp Ha Han].
  assert (HinB : forall c, c ∈ B1 ++ b :: B2 <-> c = b \/ c ∈ B1 ++ B2) by (intros c; rewrite !elem_of_app, elem_of_cons; tauto).
  assert (HinB' : forall c, c ∈ B1 ++ b' :: B2 <-> c = b' \/ c ∈ B1 ++ B2) by (intros c; rewrite !elem_of_app, elem_of_cons; tauto).
  assert (Hted : forall i l j, tedge nfa (B1 ++ b' :: B2) i l j <-> tedge nfa (B1 ++ b :: B2) i l j).
  { intros i l j. unfold tedge. setoid_rewrite HinB. setoid_rewrite HinB'. split; intros [Hx|(c & [->|Hc] & Hi & Hx)]; auto.
    - right. exists b. split; [by left|]. split; [congruence|by apply He].
    - right. exists c. auto.
    - right. exists b'. split; [by left|]. split; [congruence|by apply He].
    - right. exists c. auto. }
  split.
  - done.
  - intros i l j Hx%Hted. by eapply Ht.
  - intros c [->|Hc]%HinB'; [rewrite Hid'; apply Ho, HinB; by left|apply Ho, HinB; by right].
  - done.
  - done.
  - intros i j w Hi Hj'. rewrite (gpath_ext _ _ _ _ _ Hted). by apply Hp.
  - intros i a. cbn. rewrite <- Ha. unfold tacc. setoid_rewrite HinB. setoid_rewrite HinB'. split.
    + intros [Hx|(c & [->|Hc] & Hi & Hx)]; [by left; left| |left; right; exists c; auto]. apply Ha' in Hx as [Hx|Hx]; [right; split; [congruence|done]|].
      left. right. exists b. split; [by left|]. split; [congruence|done].
    + intros [[Hx|(c & [->|Hc] & Hi & Hx)]|[-> Hx]]; [by left| |right; exists c; auto|].
      * right. exists b'. split; [by left|]. split; [congruence|]. apply Ha'. by right.
      * right. exists b'. split; [by left|]. split; [done|]. apply Ha'. by left.
  - intros i a [Hx|[-> _]]; [by eapply Han|]. apply (Ho b), HinB. by left.
Qed.

(** A term to a new node with actions. *)
Lemma bench_new_end nfa B1 b B2 t acts :
  builders_ok nfa (B1 ++ b :: B2) -> room (NS := NS) nfa (term_nodes t + 1) -> Forall (hs_key (T := AS)) acts ->
  exists nfa' b' e, generateGraphWithActions t nfa b acts = Some (nfa', b', e) /\ m_nodeId b' = m_nodeId b /\ m_nodeId e = nnodes nfa
    /\ builders_ok nfa' (B1 ++ b' :: B2 ++ [e]) /\ m_epsilonTransitionTargets e = hs_empty
    /\ nnodes nfa' = nnodes nfa + (term_nodes t + 1) /\ nfa_le nfa nfa'
    /\ (exists nfa0, generateGraph t nfa0 b (nnodes nfa) = Some (nfa', b'))
    /\ forall sk, nfa_small nfa' -> bench nfa (B1 ++ b :: B2) sk ->
         bench nfa' (B1 ++ b' :: B2 ++ [e]) (add_actions (add_jump (add_node sk (nnodes nfa)) (m_nodeId b) t (nnodes nfa)) (nnodes nfa) acts).
Proof.
  intros HB Hroom Hacts. pose proof (term_nodes_nonneg t) as Hc. unfold generateGraphWithActions, to_new_end.
  pose proof (bench_new nfa (B1 ++ b :: B2) HB (room_le nfa (term_nodes t + 1) 1 ltac:(lia) Hroom)) as HA.
  assert (Heps : m_epsilonTransitionTargets (snd (newBuilder (NS := NS) (AS := AS) nfa)) = hs_empty) by done.
  destruct (newBuilder (NS := NS) (AS := AS) nfa) as [nfa1 e]. cbn [snd] in Heps. destruct HA as (HB1 & Hide & Hn1 & Hle1 & _ & Hsem1).
  destruct (bench_draw nfa1 (e :: B1) b B2 t (m_nodeId e) HB1) as (nfa2 & b2 & Hgen & Hid2 & HB2 & Hn2 & Hle2 & Hsem2); [lia|unfold room in *; lia|].
  rewrite Hgen, option_bind_Some. destruct (bench_actions nfa2 [] e (B1 ++ b2 :: B2) acts HB2 Hacts) as [HB3 Hsem3].
  assert (Hperm : setActions e acts :: B1 ++ b2 :: B2 ≡ₚ B1 ++ b2 :: B2 ++ [setActions e acts]).
  { rewrite Permutation_cons_append. by rewrite <- (assoc_L (++)). }
  exists nfa2, b2, (setActions e acts). split; [done|]. split; [done|]. split; [done|]. split; [by eapply builders_perm|]. split; [done|]. split; [lia|].
  split; [by etrans|]. split; [exists nfa1; by rewrite <- Hide|]. intros sk Hs Hbn. eapply bench_perm; [exact Hperm|].
  specialize (Hsem1 sk Hbn). specialize (Hsem2 _ Hs Hsem1). rewrite Hide in *. specialize (Hsem3 _ (Hsem2 (or_intror eq_refl))). by rewrite ?Hide in Hsem3.
Qed.
End Bench.

(** ** Terms that do not need epsilon transitions from their source *)

Section Epsilons.
Context {NS AS : Type} `{HashSet NS} `{HashSet AS}.
Abbreviation builder := (NodeBuilder NS AS).

Definition keeps_epsilons (g : generator NS AS) : Prop :=
  forall nfa b d nfa' b', g nfa b d = Some (nfa', b') -> m_epsilonTransitionTargets b' = m_epsilonTransitionTargets b.

Lemma runs_keep_epsilons fuel in_set : forall i (b : builder) d b', runs_loop fuel in_set i b d = Some b' -> m_epsilonTransitionTargets b' = m_epsilonTransitionTargets b.
Proof.
  induction fuel as [|fuel IH]; intros i b d b'; cbn [runs_loop]; [done|]. destruct (_ =? 128); [by intros [= <-]|].
  destruct (addTransition b _ _ d) as [b1|] eqn:Ea; [|done]. rewrite option_bind_Some. intros Hr. apply IH in Hr as ->.
  unfold addTransition in Ea. destruct (extend _ _) as [v|]; [|done]. rewrite option_bind_Some in Ea. by injection Ea as <-.
Qed.

Lemma group_keeps_epsilons gs : gs <> [] -> Forall keeps_epsilons gs -> keeps_epsilons (generateGroup gs).
Proof.
  intros Hne Hg nfa b d nfa' b'. destruct gs as [|g [|g' gs]]; [done|apply Forall_cons in Hg as [Hg _]; apply Hg|]. apply Forall_cons in Hg as [Hg _]. cbn [generateGroup].
  unfold to_new_end. destruct (newBuilder nfa) as [nfa1 e]. destruct (g nfa1 b (m_nodeId e)) as [[nfa2 b2]|] eqn:Eg; [|done]. rewrite !option_bind_Some.
  destruct (chain_terms _ _ _ _); [|done]. rewrite option_bind_Some. intros [= _ <-]. by eapply Hg.
Qed.

Lemma fixed_keeps_epsilons t : hasFixedLength t = true -> no_empty_group t -> keeps_epsilons (generateGraph (NS := NS) (AS := AS) t).
Proof.
  induction t as [q|q cs|q ts IH] using Term_ind'; [done| |].
  - cbn [hasFixedLength]. intros ->%bool_decide_eq_true _ nfa b d nfa' b'. cbn. unfold generateCharacterSet.
    destruct (if negb (m_inverted cs) then _ else _) as [b1|] eqn:Er; [|done]. rewrite option_bind_Some. intros [= _ <-].
    destruct (negb (m_inverted cs)); by eapply runs_keep_epsilons.
  - cbn [hasFixedLength no_empty_group]. destruct (decide (q = One)) as [->|]; [|done]. intros Hf [Hne Hn]. cbn.
    apply group_keeps_epsilons; [by destruct ts|]. clear Hne. induction IH as [|t ts Ht _ IHts]; cbn in *; constructor; bprop; destruct Hn; [by apply Ht|by apply IHts].
Qed.

Lemma moveConstruct_same (b : builder) : m_epsilonTransitionTargets b = hs_empty -> moveConstruct b = b.
Proof. destruct b. cbn. by intros ->. Qed.
End Epsilons.
