(* ===== verification/SubtreeSemantics.v ===== *)
(** * What the nodes of a drawn subtree stand for

    A node of the skeleton stands for a vertex of the prefix tree, or for a
    suffix of patterns together with the actions at its end.  Every jump keeps
    to the tree, so nothing else is accepted; what has been removed from the
    tree is accepted. *)

From stdpp Require Import gmap.
From S2P Require Import Prelude Bits DFA RangeList RangeListCorrect HashSet NFA NFACorrect NFAToDFA SubsetCorrect Term TermLanguage Fragments TermGraph CombinedURLFilters PrefixTree ProcessNFAs TreeHeap Skeleton.

(** What a node stands for. *)
Inductive nkind :=
| Fwd (v : Z)
| Bwd (ts : list Term) (A : list Z).

Abbreviation kinds := (Z -> option nkind).

Definition add_kind (kd : kinds) (n : Z) (k : nkind) : kinds := fun i => if decide (i = n) then Some k else kd i.

Section Semantics.
Context {NS AS : Type} `{HashSetLaws NS} `{HashSetLaws AS}.
Variables (alphabet : list Term) (actions : gmap Z (list Z)) (h0 : list PrefixTreeEdges).

Abbreviation tree hp := (mkFilters alphabet hp actions).
Abbreviation acts v := (actions_get actions v).
Abbreviation active := (@ActiveSubtree NS AS).

Hypothesis Hwf0 : wf_tree (tree h0).

(** Every text that leads to the vertex in the tree leads to the node, and the node has its actions. *)
Definition reaches (sk : skeleton) (i v : Z) : Prop :=
  (forall ts w, tree_path (tree h0) m_prefixTreeRoot ts v -> seq_lang ts w -> kpath (sk_jump sk) 0 w i) /\ forall a, a ∈ acts v -> sk_acc sk i a.

(** From the node, the suffix leads to the actions. *)
Definition ends (sk : skeleton) (i : Z) (ts : list Term) (A : list Z) : Prop :=
  forall w a, seq_lang ts w -> a ∈ A -> exists j, kpath (sk_jump sk) i w j /\ sk_acc sk j a.

(** The pattern that ends at the vertex is accepted. *)
Definition covered (sk : skeleton) (u : Z) : Prop :=
  forall ts w a, tree_path (tree h0) m_prefixTreeRoot ts u -> seq_lang ts w -> a ∈ acts u -> exists j, kpath (sk_jump sk) 0 w j /\ sk_acc sk j a.

(** Jumps keep to the tree. *)
Definition jump_typed (kd : kinds) (i : Z) (t : Term) (j : Z) : Prop :=
  (exists v c, kd i = Some (Fwd v) /\ kd j = Some (Fwd c) /\ tree_edge (tree h0) v t c)
  \/ (exists v ts A u, kd i = Some (Fwd v) /\ kd j = Some (Bwd ts A) /\ tree_path (tree h0) v (t :: ts) u /\ forall a, a ∈ A -> a ∈ acts u)
  \/ (exists ts A, kd i = Some (Bwd (t :: ts) A) /\ kd j = Some (Bwd ts A)).

Definition acc_typed (kd : kinds) (i a : Z) : Prop :=
  (exists v, kd i = Some (Fwd v) /\ a ∈ acts v) \/ exists A, kd i = Some (Bwd [] A) /\ a ∈ A.

Record rev_sem (rev : ReverseSuffixTrees) (sk : skeleton) (kd : kinds) : Prop := {
  rv_vertex x rv : (rs_vertices rev).[x] = Some rv -> exists ts A, kd (rs_nodeId rv) = Some (Bwd ts A) /\ ends sk (rs_nodeId rv) ts A
    /\ forall p y, (p, y) ∈ rs_edges rv -> exists rv' t, (rs_vertices rev).[y] = Some rv' /\ alphabet.[p] = Some t /\ kd (rs_nodeId rv') = Some (Bwd (t :: ts) A);
  rv_root key x : rs_roots rev !! key = Some x -> exists rv A, (rs_vertices rev).[x] = Some rv /\ kd (rs_nodeId rv) = Some (Bwd [] A) /\ forall a, a ∈ A <-> a ∈ key
}.

Record sem (nfa : NFA) (left : Z -> Prop) (gen : list active) (rev : ReverseSuffixTrees) (sk : skeleton) (kd : kinds) : Prop := {
  se_bench : bench nfa (map as_nfaNode gen) sk;
  se_kind i : sk_node sk i <-> is_Some (kd i);
  se_jump i t j : sk_jump sk i t j -> jump_typed kd i t j;
  se_acc i a : sk_acc sk i a -> acc_typed kd i a;
  se_start : kd 0 = Some (Fwd m_prefixTreeRoot);
  se_gen g : g ∈ gen -> kd (m_nodeId (as_nfaNode g)) = Some (Fwd (as_vertex g)) /\ reaches sk (m_nodeId (as_nfaNode g)) (as_vertex g);
  se_rev : rev_sem rev sk kd;
  se_comp ts u : tree_path (tree h0) m_prefixTreeRoot ts u -> left u \/ covered sk u
}.

(** ** Growing skeletons *)

Record grows (sk : skeleton) (kd : kinds) (sk' : skeleton) (kd' : kinds) : Prop := {
  gr_jump i t j : sk_jump sk i t j -> sk_jump sk' i t j;
  gr_acc i a : sk_acc sk i a -> sk_acc sk' i a;
  gr_kind i k : kd i = Some k -> kd' i = Some k
}.

Section Grows.
Variables (sk sk' : skeleton) (kd kd' : kinds).
Hypothesis Hg : grows sk kd sk' kd'.

Lemma grows_path i w j : kpath (sk_jump sk) i w j -> kpath (sk_jump sk') i w j.
Proof. apply kpath_mono. apply Hg. Qed.

Lemma grows_reaches i v : reaches sk i v -> reaches sk' i v.
Proof. intros [Hr Ha]. split; [intros ts w Hp Hw; by eapply grows_path, Hr|]. intros a Hin. by apply (gr_acc _ _ _ _ Hg), Ha. Qed.

Lemma grows_ends i ts A : ends sk i ts A -> ends sk' i ts A.
Proof. intros He w a Hw Ha. destruct (He w a Hw Ha) as (j & Hp & Hj). exists j. split; [by apply grows_path|by apply (gr_acc _ _ _ _ Hg)]. Qed.

Lemma grows_covered u : covered sk u -> covered sk' u.
Proof. intros Hc ts w a Hp Hw Ha. destruct (Hc ts w a Hp Hw Ha) as (j & Hj & Hacc). exists j. split; [by apply grows_path|by apply (gr_acc _ _ _ _ Hg)]. Qed.

Lemma grows_jump i t j : jump_typed kd i t j -> jump_typed kd' i t j.
Proof.
  pose proof (gr_kind _ _ _ _ Hg) as Hk. intros [(v & c & Hx1 & Hx2 & Hx3)|[(v & ts & A & u & Hx1 & Hx2 & Hx3)|(ts & A & Hx1 & Hx2)]].
  - left. exists v, c. auto.
  - right. left. exists v, ts, A, u. auto.
  - right. right. exists ts, A. auto.
Qed.

Lemma grows_acc i a : acc_typed kd i a -> acc_typed kd' i a.
Proof. pose proof (gr_kind _ _ _ _ Hg) as Hk. intros [(v & Hx1 & Hx2)|(A & Hx1 & Hx2)]; [left; exists v|right; exists A]; auto. Qed.

Lemma grows_rev rev : rev_sem rev sk kd -> rev_sem rev sk' kd'.
Proof.
  pose proof (gr_kind _ _ _ _ Hg) as Hk. intros [Hv Hr]. split.
  - intros x rv Hx. destruct (Hv x rv Hx) as (ts & A & Hkd & Hends & Hedges). exists ts, A. split; [by apply Hk|]. split; [by apply grows_ends|].
    intros p y Hpy. destruct (Hedges p y Hpy) as (rv' & t & Hx1 & Hx2 & Hx3). exists rv', t. auto.
  - intros key x Hx. destruct (Hr key x Hx) as (rv & A & Hx1 & Hx2 & Hx3). exists rv, A. auto.
Qed.
End Grows.

Lemma add_kind_same kd n k : add_kind kd n k n = Some k.
Proof. unfold add_kind. by rewrite decide_True. Qed.

Lemma add_kind_other kd n k i : i <> n -> add_kind kd n k i = kd i.
Proof. intros Hi. unfold add_kind. by rewrite decide_False. Qed.

(** ** Soundness: what is accepted is in the tree *)

Lemma kpath_fwd (sk : skeleton) kd i w j :
  (forall i t j, sk_jump sk i t j -> jump_typed kd i t j) -> kpath (sk_jump sk) i w j -> forall a, sk_acc sk j a -> acc_typed kd j a ->
  (forall v, kd i = Some (Fwd v) -> exists ts u, tree_path (tree h0) v ts u /\ seq_lang ts w /\ a ∈ acts u)
  /\ (forall ts A, kd i = Some (Bwd ts A) -> seq_lang ts w /\ a ∈ A).
Proof.
  intros Hj Hp a Hacc Hty. induction Hp as [i|i t k u w j Hjmp Hu _ IH].
  - destruct Hty as [(v & Hk & Ha)|(A & Hk & Ha)]; (split; [intros v'|intros ts A']); rewrite Hk; try done.
    + intros [= <-]. exists [], v. split; [constructor|]. done.
    + intros [= <- <-]. done.
  - destruct (IH Hacc Hty) as [IHf IHb]. destruct (Hj _ _ _ Hjmp) as [(v & c & Hx1 & Hx2 & Hx3)|[(v & ts & A & x & Hx1 & Hx2 & Hx3 & Hx4)|(ts & A & Hx1 & Hx2)]]; rewrite Hx1;
      (split; [intros v'|intros ts' A']); try done.
    + intros [= <-]. destruct (IHf c Hx2) as (ts & x & Hp & Hw & Ha). exists (t :: ts), x. split; [by econstructor|]. split; [by exists u, w|done].
    + intros [= <-]. destruct (IHb ts A Hx2) as [Hw Ha]. exists (t :: ts), x. split; [done|]. split; [by exists u, w|auto].
    + intros [= <- <-]. destruct (IHb ts A Hx2) as [Hw Ha]. split; [by exists u, w|done].
Qed.

Lemma sem_sound nfa left rev sk kd :
  sem nfa left [] rev sk kd -> forall w a, (exists j, leads_to nfa w j /\ accepts nfa j a) -> exists ts u, tree_path (tree h0) m_prefixTreeRoot ts u /\ seq_lang ts w /\ a ∈ acts u.
Proof.
  intros [Hb Hk Hj Ha Hs _ _ _] w a (j & Hl & Hacc). cbn [map] in Hb.
  assert (Hska : sk_acc sk j a) by (apply (bn_acc _ _ _ Hb); by left). pose proof (bn_acc_node _ _ _ Hb _ _ Hska) as Hskj.
  assert (Hsk0 : sk_node sk 0) by (apply Hk; by eexists).
  assert (Hp : kpath (sk_jump sk) 0 w j).
  { apply (bn_path _ _ _ Hb); [done|done|]. unfold leads_to in Hl. apply nfa_path_gpath in Hl. eapply gpath_mono; [|exact Hl]. by left. }
  destruct (kpath_fwd sk kd 0 w j Hj Hp a Hska (Ha _ _ Hska)) as [Hf _]. by apply Hf.
Qed.

(** Completeness: what is gone from the tree is accepted. *)
Lemma sem_complete nfa left rev sk kd :
  sem nfa left [] rev sk kd -> forall ts u w a, tree_path (tree h0) m_prefixTreeRoot ts u -> seq_lang ts w -> a ∈ acts u ->
  left u \/ exists j, leads_to nfa w j /\ accepts nfa j a.
Proof.
  intros [Hb Hk _ _ Hs _ _ Hc] ts u w a Hp Hw Ha. destruct (Hc ts u Hp) as [?|Hcov]; [by left|right]. destruct (Hcov ts w a Hp Hw Ha) as (j & Hj & Hacc).
  cbn [map] in Hb. exists j. assert (Hnob : forall x : NodeBuilder NS AS, x ∉ []) by (intros; apply not_elem_of_nil). split.
  - unfold leads_to. apply nfa_path_gpath. apply (bn_path _ _ _ Hb) in Hj; [|apply Hk; by eexists|by eapply (bn_acc_node _ _ _ Hb)].
    eapply gpath_mono; [|exact Hj]. intros i l k [He|(b & Hin & _)]; [done|by apply Hnob in Hin].
  - apply (bn_acc _ _ _ Hb) in Hacc as [Hx|(b & Hin & _)]; [done|by apply Hnob in Hin].
Qed.

(** ** Drawing *)

(** The skeleton and the kinds with a new node. *)
Lemma sem_fresh nfa left gen rev sk kd : sem nfa left gen rev sk kd -> kd (nnodes nfa) = None.
Proof.
  intros [Hb Hk _ _ _ _ _ _]. destruct (kd (nnodes nfa)) eqn:E; [|done]. assert (Hn : sk_node sk (nnodes nfa)) by (apply Hk; by eexists).
  apply (bn_node _ _ _ Hb) in Hn. lia.
Qed.

Lemma grows_fresh sk kd sk' n k :
  kd n = None -> (forall i t j, sk_jump sk i t j -> sk_jump sk' i t j) -> (forall i a, sk_acc sk i a -> sk_acc sk' i a) -> grows sk kd sk' (add_kind kd n k).
Proof. intros Hn Hj Ha. split; [done|done|]. intros i k' Hk. rewrite add_kind_other; [done|]. intros ->. congruence. Qed.

Lemma kind_added kd n k i (P : Z -> Prop) : (forall i, P i <-> is_Some (kd i)) -> P i \/ i = n <-> is_Some (add_kind kd n k i).
Proof.
  intros HP. unfold add_kind. destruct (decide (i = n)) as [->|]; [split; [by eexists|by right]|]. rewrite <- HP. split; [by intros [?|?]|by left].
Qed.

Lemma path_to_child v t c ts : tree_edge (tree h0) v t c -> tree_path (tree h0) m_prefixTreeRoot ts c ->
  exists ts', ts = ts' ++ [t] /\ tree_path (tree h0) m_prefixTreeRoot ts' v.
Proof.
  intros He Hp. destruct ts as [|t' ts _] using rev_ind.
  - exfalso. inversion Hp; subst. pose proof (tree_edge_range _ _ _ _ Hwf0 He). unfold m_prefixTreeRoot in *. lia.
  - apply tree_path_snoc_inv in Hp as (v' & Hp & He'). destruct (wt_parent _ Hwf0 _ _ _ _ _ He He') as [-> ->]. by exists ts.
Qed.

(** A node for a child, from the node of its parent. *)
Lemma sem_infix nfa left gen g d t rev :
  builders_ok nfa (map as_nfaNode (gen ++ [g])) -> room (NS := NS) nfa (term_nodes t + 1) -> Forall (hs_key (T := AS)) (acts (as_vertex d)) ->
  tree_edge (tree h0) (as_vertex g) t (as_vertex d) ->
  exists nfa' b' e, generateGraphWithActions t nfa (as_nfaNode g) (acts (as_vertex d)) = Some (nfa', b', e)
    /\ builders_ok nfa' (map as_nfaNode (gen ++ [with_node g b'; with_node d e])) /\ m_epsilonTransitionTargets e = hs_empty
    /\ (exists nfa0 dest, generateGraph t nfa0 (as_nfaNode g) dest = Some (nfa', b'))
    /\ nnodes nfa' = nnodes nfa + (term_nodes t + 1) /\ nfa_le nfa nfa'
    /\ forall sk kd, nfa_small nfa' -> sem nfa left (gen ++ [g]) rev sk kd -> exists sk' kd', sem nfa' left (gen ++ [with_node g b'; with_node d e]) rev sk' kd'.
Proof.
  intros HB Hroom Hkeys He. rewrite !map_app in *. cbn [map] in *.
  destruct (bench_new_end nfa _ _ [] t (acts (as_vertex d)) HB Hroom Hkeys) as (nfa' & b' & e & Hgen & Hid & Hide & HB' & Heps & Hn & Hle & [nfa0 Hg0] & Hsem).
  exists nfa', b', e. split; [done|]. rewrite map_app. cbn [map as_nfaNode with_node]. split; [done|]. split; [done|]. split; [by eexists _, _|]. split; [done|]. split; [done|].
  intros sk kd Hs Hse. pose proof (sem_fresh _ _ _ _ _ _ Hse) as Hfresh. pose proof Hse as [Hb Hk Hj Ha Hst Hgen' Hrev Hcomp]. rewrite map_app in Hb. cbn [map] in Hb.
  set (n := nnodes nfa) in *. pose proof (Hsem sk Hs Hb) as Hb'. set (sk' := add_actions _ _ _) in Hb'. exists sk', (add_kind kd n (Fwd (as_vertex d))).
  assert (Hgr : grows sk kd sk' (add_kind kd n (Fwd (as_vertex d)))) by (apply grows_fresh; [done| |]; intros; by left).
  destruct (Hgen' g) as [Hkg Hrg]; [apply elem_of_app; right; by left|].
  split.
  - rewrite map_app. exact Hb'.
  - intros i. by apply kind_added.
  - intros i t' j [Hx|(-> & -> & ->)]; [eapply grows_jump; [done|by apply Hj]|]. left. exists (as_vertex g), (as_vertex d). split; [by apply (gr_kind _ _ _ _ Hgr)|].
    split; [apply add_kind_same|done].
  - intros i a [Hx|[-> Hx]]; [eapply grows_acc; [done|by apply Ha]|]. left. exists (as_vertex d). split; [apply add_kind_same|done].
  - by apply (gr_kind _ _ _ _ Hgr).
  - intros x [Hx|Hx]%elem_of_app.
    + destruct (Hgen' x) as [Hkx Hrx]; [apply elem_of_app; by left|]. split; [by apply (gr_kind _ _ _ _ Hgr)|by eapply grows_reaches].
    + apply elem_of_cons in Hx as [->|Hx%list_elem_of_singleton]; [|subst x]; cbn [as_nfaNode with_node as_vertex].
      * rewrite Hid. split; [by apply (gr_kind _ _ _ _ Hgr)|by eapply grows_reaches].
      * rewrite Hide. split; [apply add_kind_same|]. split; [|intros a Hin; by right]. intros ts w Hp Hw.
        destruct (path_to_child _ _ _ _ He Hp) as (ts' & -> & Hp'). apply seq_lang_app in Hw as (w1 & w2 & -> & Hw1 & Hw2).
        assert (Hw2' : term_lang t w2) by (destruct Hw2 as (u & v & -> & Hu & ->); by rewrite app_nil_r).
        eapply kpath_app; [by eapply grows_path, Hrg|]. eapply kpath_one; [|exact Hw2']. by right.
  - by eapply grows_rev.
  - intros ts u Hp. destruct (Hcomp ts u Hp) as [?|Hcv]; [by left|right; by eapply grows_covered].
Qed.

(** The end of a suffix: a node with the actions. *)
Lemma sem_new_root nfa left gen rev A :
  builders_ok nfa (map as_nfaNode gen) -> room (NS := NS) nfa 1 -> Forall (hs_key (T := AS)) A ->
  exists nfa2, destroyBuilder (fst (newBuilder (NS := NS) (AS := AS) nfa)) (setActions (snd (newBuilder (NS := NS) (AS := AS) nfa)) A) = Some nfa2
    /\ m_nodeId (setActions (snd (newBuilder (NS := NS) (AS := AS) nfa)) A) = nnodes nfa
    /\ builders_ok nfa2 (map as_nfaNode gen) /\ nnodes nfa2 = nnodes nfa + 1 /\ nfa_le nfa nfa2
    /\ forall sk kd, nfa_small nfa2 -> sem nfa left gen rev sk kd ->
         exists sk' kd', sem nfa2 left gen (mkReverseTrees (rs_vertices rev ++ [mkReverseVertex [] (nnodes nfa)]) (<[HashableActionList A := vlen (rs_vertices rev)]> (rs_roots rev))) sk' kd'.
Proof.
  intros HB Hroom HA. pose proof (bench_new nfa _ HB Hroom) as Hnew. destruct (newBuilder (NS := NS) (AS := AS) nfa) as [nfa1 e]. cbn [fst snd].
  destruct Hnew as (HB1 & Hide & Hn1 & Hle1 & _ & Hsem1). destruct (bench_actions nfa1 [] e _ A HB1 HA) as [HB2 Hsem2].
  destruct (bench_destroy nfa1 [] (setActions e A) _ HB2) as (nfa2 & Hd & HB3 & Hn2 & Hle2 & Hsem3). exists nfa2. split; [exact Hd|]. split; [done|]. split; [done|].
  split; [lia|]. split; [by etrans|]. intros sk kd Hs Hse. pose proof (sem_fresh _ _ _ _ _ _ Hse) as Hfresh. pose proof Hse as [Hb Hk Hj Ha Hst Hgen Hrev Hcomp].
  set (n := nnodes nfa) in *. set (rev' := mkReverseTrees _ _). pose proof (Hsem3 _ Hs (Hsem2 _ (Hsem1 sk Hb))) as Hb'. cbn [app] in Hb'. rewrite Hide in Hb'.
  set (sk' := add_actions _ _ _) in Hb'. exists sk', (add_kind kd n (Bwd [] A)).
  assert (Hgr : grows sk kd sk' (add_kind kd n (Bwd [] A))) by (apply grows_fresh; [done| |]; intros; [done|by left]).
  assert (Hold : forall x rv, (rs_vertices rev).[x] = Some rv -> (rs_vertices rev').[x] = Some rv) by (intros; by apply vec_at_prefix).
  split.
  - exact Hb'.
  - intros i. by apply kind_added.
  - intros i t' j Hx. eapply grows_jump; [done|by apply Hj].
  - intros i a [Hx|[-> Hx]]; [eapply grows_acc; [done|by apply Ha]|]. right. exists A. split; [apply add_kind_same|done].
  - by apply (gr_kind _ _ _ _ Hgr).
  - intros x Hx. destruct (Hgen x Hx) as [Hkx Hrx]. split; [by apply (gr_kind _ _ _ _ Hgr)|by eapply grows_reaches].
  - destruct (grows_rev _ _ _ _ Hgr rev Hrev) as [Hv Hr]. split.
    + intros x rv Hx. pose proof (vec_at_lt _ _ _ Hx) as Hlt. cbn [rs_vertices rev'] in Hx, Hlt. rewrite length_app in Hlt. cbn in Hlt.
      destruct (decide (x = vlen (rs_vertices rev))) as [->|].
      * rewrite vec_at_snoc in Hx. injection Hx as <-. cbn [rs_nodeId rs_edges]. exists [], A. split; [apply add_kind_same|]. split; [|by intros p y ?%not_elem_of_nil].
        intros w a -> Hin. exists n. split; [constructor|by right].
      * rewrite vec_at_app_l in Hx by lia. destruct (Hv x rv Hx) as (ts & A' & Hx1 & Hx2 & Hx3). exists ts, A'. split; [done|]. split; [done|].
        intros p y Hpy. destruct (Hx3 p y Hpy) as (rv' & t & Hx4 & Hx5). exists rv', t. split; [by apply Hold|done].
    + intros key x. cbn [rs_roots rev']. destruct (decide (key = HashableActionList A)) as [->|].
      * rewrite lookup_insert_eq. intros [= <-]. eexists _, A. split; [apply vec_at_snoc|]. split; [apply add_kind_same|]. intros a. unfold HashableActionList. by rewrite (merge_sort_Permutation Z.le A).
      * rewrite lookup_insert_ne by done. intros Hx. destruct (Hr key x Hx) as (rv & A' & Hx1 & Hx2). exists rv, A'. split; [by apply Hold|done].
  - intros ts u Hp. destruct (Hcomp ts u Hp) as [?|Hcv]; [by left|right; by eapply grows_covered].
Qed.

(** A suffix that is one term longer. *)
Lemma sem_new_suffix nfa left gen rev x rv p t :
  builders_ok nfa (map as_nfaNode gen) -> room (NS := NS) nfa (term_nodes t + 1) -> 0 <= rs_nodeId rv < nnodes nfa ->
  (rs_vertices rev).[x] = Some rv -> alphabet.[p] = Some t ->
  exists nfa2 b2 nfa3, generateGraph t (fst (newBuilder (NS := NS) (AS := AS) nfa)) (snd (newBuilder (NS := NS) (AS := AS) nfa)) (rs_nodeId rv) = Some (nfa2, b2)
    /\ m_nodeId b2 = nnodes nfa /\ destroyBuilder nfa2 b2 = Some nfa3
    /\ builders_ok nfa3 (map as_nfaNode gen) /\ nnodes nfa3 = nnodes nfa + (term_nodes t + 1) /\ nfa_le nfa nfa3
    /\ forall vs, vec_set (rs_vertices rev) x (mkReverseVertex (rs_edges rv ++ [(p, vlen (rs_vertices rev))]) (rs_nodeId rv)) = Some vs ->
       forall sk kd ts A, nfa_small nfa3 -> sem nfa left gen rev sk kd -> kd (rs_nodeId rv) = Some (Bwd ts A) ->
         exists sk' kd', sem nfa3 left gen (mkReverseTrees (vs ++ [mkReverseVertex [] (nnodes nfa)]) (rs_roots rev)) sk' kd' /\ kd' (nnodes nfa) = Some (Bwd (t :: ts) A).
Proof.
  intros HB Hroom Hrange Hx Hp. pose proof (term_nodes_nonneg t) as Hc. pose proof (bench_new nfa _ HB (room_le nfa (term_nodes t + 1) 1 ltac:(lia) Hroom)) as Hnew.
  destruct (newBuilder (NS := NS) (AS := AS) nfa) as [nfa1 e]. cbn [fst snd]. destruct Hnew as (HB1 & Hide & Hn1 & Hle1 & _ & Hsem1).
  destruct (bench_draw nfa1 [] e _ t (rs_nodeId rv) HB1) as (nfa2 & b2 & Hg & Hid2 & HB2 & Hn2 & Hle2 & Hsem2); [lia|unfold room in *; lia|].
  destruct (bench_destroy nfa2 [] b2 _ HB2) as (nfa3 & Hd & HB3 & Hn3 & Hle3 & Hsem3). exists nfa2, b2, nfa3. split; [done|]. split; [congruence|]. split; [done|].
  split; [done|]. split; [lia|]. split; [by do 2 (etrans; [eassumption|])|]. intros vs Hvs sk kd ts A Hs Hse Hkd.
  pose proof (sem_fresh _ _ _ _ _ _ Hse) as Hfresh. pose proof Hse as [Hb Hk Hj Ha Hst Hgen Hrev Hcomp]. set (n := nnodes nfa) in *.
  assert (Hs2 : nfa_small nfa2) by by eapply nfa_le_small.
  assert (Hskd : sk_node (add_node sk n) (rs_nodeId rv)) by (left; apply Hk; by eexists).
  pose proof (Hsem3 _ Hs (Hsem2 _ Hs2 (Hsem1 sk Hb) Hskd)) as Hb'. cbn [app] in Hb'. rewrite Hide in Hb'. set (sk' := add_jump _ _ _ _) in Hb'.
  exists sk', (add_kind kd n (Bwd (t :: ts) A)). split; [|apply add_kind_same].
  assert (Hgr : grows sk kd sk' (add_kind kd n (Bwd (t :: ts) A))) by (apply grows_fresh; [done| |]; intros; [by left|done]).
  destruct (grows_rev _ _ _ _ Hgr rev Hrev) as [Hv Hr]. set (rev' := mkReverseTrees _ _).
  assert (Hlen : length vs = length (rs_vertices rev)) by by eapply vec_set_length.
  assert (Hold : forall y ry, (rs_vertices rev).[y] = Some ry -> exists ry', (rs_vertices rev').[y] = Some ry' /\ rs_nodeId ry' = rs_nodeId ry).
  { intros y ry Hy. pose proof (vec_at_lt _ _ _ Hy). cbn. rewrite vec_at_app_l by (rewrite Hlen; lia). rewrite (vec_at_set _ _ _ y _ Hvs).
    destruct (decide (x = y)) as [->|]; [|by exists ry]. eexists. split; [reflexivity|]. rewrite Hx in Hy. by injection Hy as <-. }
  assert (Hnewv : (rs_vertices rev').[vlen (rs_vertices rev)] = Some (mkReverseVertex [] n)) by (cbn; rewrite <- Hlen; apply vec_at_snoc).
  assert (Hends : ends sk' n (t :: ts) A).
  { intros w a (u & v & -> & Hu & Hv') Hin. destruct (Hv x rv Hx) as (ts0 & A0 & Hk0 & He0 & _). rewrite (gr_kind _ _ _ _ Hgr _ _ Hkd) in Hk0. injection Hk0 as <- <-.
    destruct (He0 v a Hv' Hin) as (j & Hpj & Haj). exists j. split; [|done]. eapply kpath_jump; [by right|done|done]. }
  split.
  - exact Hb'.
  - intros i. by apply kind_added.
  - intros i t' j [Hx'|(-> & -> & ->)]; [eapply grows_jump; [done|by apply Hj]|]. right. right. exists ts, A. split; [apply add_kind_same|by apply (gr_kind _ _ _ _ Hgr)].
  - intros i a Hx'. eapply grows_acc; [done|by apply Ha].
  - by apply (gr_kind _ _ _ _ Hgr).
  - intros y Hy. destruct (Hgen y Hy) as [Hky Hry]. split; [by apply (gr_kind _ _ _ _ Hgr)|by eapply grows_reaches].
  - split.
    + intros y ry Hy. destruct (decide (y = vlen (rs_vertices rev))) as [->|Hyn].
      { rewrite Hnewv in Hy. injection Hy as <-. cbn [rs_nodeId rs_edges]. exists (t :: ts), A. split; [apply add_kind_same|]. split; [done|]. by intros ? ? ?%not_elem_of_nil. }
      pose proof (vec_at_lt _ _ _ Hy) as Hlt. cbn [rs_vertices rev'] in Hy, Hlt. rewrite length_app, Hlen in Hlt. cbn in Hlt. rewrite vec_at_app_l in Hy by lia.
      rewrite (vec_at_set _ _ _ y _ Hvs) in Hy. destruct (decide (x = y)) as [->|Hxy].
      * injection Hy as <-. cbn [rs_nodeId rs_edges]. destruct (Hv y rv Hx) as (ts0 & A0 & Hk0 & He0 & Hed0). exists ts0, A0. split; [done|]. split; [done|].
        intros p' z [Hz|Hz]%elem_of_app.
        -- destruct (Hed0 p' z Hz) as (rz & tz & Hx1 & Hx2 & Hx3). destruct (Hold z rz Hx1) as (rz' & Hz1 & Hz2). exists rz', tz. rewrite Hz2. done.
        -- apply list_elem_of_singleton in Hz. injection Hz as -> ->. exists (mkReverseVertex [] n), t. split; [done|]. split; [done|].
           rewrite (gr_kind _ _ _ _ Hgr _ _ Hkd) in Hk0. injection Hk0 as <- <-. apply add_kind_same.
      * destruct (Hv y ry Hy) as (ts0 & A0 & Hk0 & He0 & Hed0). exists ts0, A0. split; [done|]. split; [done|]. intros p' z Hz.
        destruct (Hed0 p' z Hz) as (rz & tz & Hx1 & Hx2 & Hx3). destruct (Hold z rz Hx1) as (rz' & Hz1 & Hz2). exists rz', tz. rewrite Hz2. done.
    + intros key y Hy. destruct (Hr key y Hy) as (ry & A' & Hx1 & Hx2 & Hx3). destruct (Hold y ry Hx1) as (ry' & Hz1 & Hz2). exists ry', A'. rewrite Hz2. done.
  - intros us u Hpu. destruct (Hcomp us u Hpu) as [?|Hcv]; [by left|right; by eapply grows_covered].
Qed.

(** The last term of fixed length, from the forward to the backward tree. *)
Lemma sem_link nfa left gen g rev t d :
  builders_ok nfa (map as_nfaNode (gen ++ [g])) -> room (NS := NS) nfa (term_nodes t) -> 0 <= d < nnodes nfa ->
  exists nfa' b', generateGraph t nfa (as_nfaNode g) d = Some (nfa', b') /\ builders_ok nfa' (map as_nfaNode (gen ++ [with_node g b']))
    /\ nnodes nfa' = nnodes nfa + term_nodes t /\ nfa_le nfa nfa'
    /\ forall sk kd pts ts A u, nfa_small nfa' -> sem nfa left (gen ++ [g]) rev sk kd -> (exists y rv, (rs_vertices rev).[y] = Some rv /\ rs_nodeId rv = d) -> kd d = Some (Bwd ts A) -> (forall a, a ∈ A <-> a ∈ acts u) ->
         tree_path (tree h0) m_prefixTreeRoot pts (as_vertex g) -> tree_path (tree h0) (as_vertex g) (t :: ts) u ->
         exists sk', sem nfa' left (gen ++ [with_node g b']) rev sk' kd /\ covered sk' u.
Proof.
  intros HB Hroom Hd. rewrite map_app in *. cbn [map] in *.
  destruct (bench_draw nfa _ _ [] t d HB Hd Hroom) as (nfa' & b' & Hg & Hid & HB' & Hn & Hle & Hsem). exists nfa', b'. split; [done|]. rewrite map_app. cbn [map as_nfaNode with_node].
  split; [done|]. split; [done|]. split; [done|]. intros sk kd pts ts A u Hs Hse (y & rv & Hrv & Hrvd) Hkd HA Hpts Hpath.
  pose proof Hse as [Hb Hk Hj Ha Hst Hgen Hrev Hcomp]. rewrite map_app in Hb. cbn [map] in Hb. assert (Hskd : sk_node sk d) by (apply Hk; by eexists).
  pose proof (Hsem sk Hs Hb Hskd) as Hb'. set (sk' := add_jump _ _ _ _) in Hb'. exists sk'.
  assert (Hgr : grows sk kd sk' kd) by (split; [by left|done|done]).
  destruct (Hgen g) as [Hkg Hrg]; [apply elem_of_app; right; by left|]. split.
  - split.
    + rewrite map_app. exact Hb'.
    + exact Hk.
    + intros i t' j [Hx|(-> & -> & ->)]; [by apply Hj|]. right. left. exists (as_vertex g), ts, A, u. split; [done|]. split; [done|]. split; [done|]. intros a. by rewrite HA.
    + exact Ha.
    + done.
    + intros x [Hx|Hx%list_elem_of_singleton]%elem_of_app.
      * destruct (Hgen x) as [Hkx Hrx]; [apply elem_of_app; by left|]. split; [done|by eapply grows_reaches].
      * subst x. cbn [as_nfaNode with_node as_vertex]. rewrite Hid. split; [done|by eapply grows_reaches].
    + by eapply grows_rev.
    + intros us x Hpx. destruct (Hcomp us x Hpx) as [?|Hcv]; [by left|right; by eapply grows_covered].
  - intros us w a Hus Hw Hin. pose proof (tree_path_app _ _ _ _ Hpts _ _ Hpath) as Hfull. assert (us = pts ++ t :: ts) as -> by by eapply path_unique.
    apply seq_lang_app in Hw as (w1 & w2 & -> & Hw1 & (v1 & v2 & -> & Hv1 & Hv2)).
    destruct (rv_vertex _ _ _ Hrev y rv Hrv) as (ts0 & A0 & Hk0 & He0 & _). rewrite Hrvd, Hkd in Hk0. injection Hk0 as <- <-. rewrite Hrvd in He0.
    destruct (He0 v2 a Hv2 (proj2 (HA a) Hin)) as (j & Hpj & Haj). exists j. split; [|done].
    eapply kpath_app; [eapply grows_path; [exact Hgr|]; exact (proj1 Hrg pts w1 Hpts Hw1)|]. eapply kpath_jump; [right; split; [reflexivity|split; reflexivity]|exact Hv1|exact (grows_path _ _ _ _ Hgr _ _ _ Hpj)].
Qed.

(** Finishing the node of the last active subtree. *)
Lemma sem_finish nfa left gen g rev :
  builders_ok nfa (map as_nfaNode (gen ++ [g])) ->
  exists nfa', destroyBuilder nfa (as_nfaNode g) = Some nfa' /\ builders_ok nfa' (map as_nfaNode gen) /\ nnodes nfa' = nnodes nfa /\ nfa_le nfa nfa'
    /\ forall sk kd, nfa_small nfa' -> sem nfa left (gen ++ [g]) rev sk kd -> sem nfa' left gen rev sk kd.
Proof.
  intros HB. rewrite map_app in HB. cbn [map] in HB. destruct (bench_destroy nfa _ _ [] HB) as (nfa' & Hd & HB' & Hn & Hle & Hsem). rewrite app_nil_r in HB'.
  exists nfa'. split; [done|]. split; [done|]. split; [done|]. split; [done|]. intros sk kd Hs [Hb Hk Hj Ha Hst Hgen Hrev Hcomp]. rewrite map_app in Hb. cbn [map] in Hb.
  pose proof (Hsem sk Hs Hb) as Hb'. rewrite app_nil_r in Hb'. split; try done. intros x Hx. apply Hgen. apply elem_of_app. by left.
Qed.

(** What is no longer left must be covered. *)
Lemma sem_left nfa left left' gen rev sk kd :
  sem nfa left gen rev sk kd -> (forall ts u, tree_path (tree h0) m_prefixTreeRoot ts u -> left u -> left' u \/ covered sk u) -> sem nfa left' gen rev sk kd.
Proof.
  intros [Hb Hk Hj Ha Hst Hgen Hrev Hcomp] Hh. split; try done. intros ts u Hp. destruct (Hcomp ts u Hp) as [Hp'|]; [by eapply Hh|by right].
Qed.

(** Nodes, indices and the like do not matter. *)
Lemma sem_same nfa left gen gen' rev sk kd :
  map as_nfaNode gen' = map as_nfaNode gen -> map as_vertex gen' = map as_vertex gen -> sem nfa left gen rev sk kd -> sem nfa left gen' rev sk kd.
Proof.
  intros Hn Hv [Hb Hk Hj Ha Hst Hgen Hrev Hcomp]. split; try done; [by rewrite Hn|]. intros g Hg.
  apply list_elem_of_lookup in Hg as [i Hi].
  assert (Hi1 : as_nfaNode <$> gen !! i = Some (as_nfaNode g)).
  { rewrite <- list_lookup_fmap. change (as_nfaNode <$> gen) with (map as_nfaNode gen). rewrite <- Hn. by apply list_lookup_fmap_Some_2. }
  assert (Hi2 : as_vertex <$> gen !! i = Some (as_vertex g)).
  { rewrite <- list_lookup_fmap. change (as_vertex <$> gen) with (map as_vertex gen). rewrite <- Hv. by apply list_lookup_fmap_Some_2. }
  destruct (gen !! i) as [g'|] eqn:Eg; [|done]. cbn in Hi1, Hi2. injection Hi1 as <-. injection Hi2 as <-.
  apply Hgen. by eapply list_elem_of_lookup_2.
Qed.

Lemma sem_perm nfa left gen gen' rev sk kd : gen ≡ₚ gen' -> sem nfa left gen rev sk kd -> sem nfa left gen' rev sk kd.
Proof.
  intros Hp [Hb Hk Hj Ha Hst Hgen Hrev Hcomp]. split; try done; [eapply bench_perm; [|exact Hb]; by apply Permutation_map|]. intros g Hg. apply Hgen. by rewrite Hp.
Qed.

(** The first node. *)
Lemma sem_start nfa b left :
  newBuilder (NS := NS) (AS := AS) emptyNFA = (nfa, b) -> room (NS := NS) emptyNFA 1 -> actions !! m_prefixTreeRoot = None -> (forall u, left u) ->
  builders_ok nfa [b] /\ nnodes nfa = 1 /\ exists sk kd, sem nfa left [mkActive m_prefixTreeRoot b 0] newReverseTrees sk kd.
Proof.
  intros Hnew Hroom Hacts Hleft. set (sk0 := mkSkeleton (fun _ => False) (fun _ _ _ => False) (fun _ _ => False)).
  assert (Hb0 : builders_ok emptyNFA (@nil (NodeBuilder NS AS))) by (split; constructor). pose proof (bench_new emptyNFA [] Hb0 Hroom) as HA. rewrite Hnew in HA.
  destruct HA as (HB & Hid & Hn & _ & _ & Hsem). change (nnodes emptyNFA) with 0 in *.
  assert (Hne : forall i l j, ~ edge emptyNFA i l j) by (intros i l j He; apply edge_source in He; cbn in He; lia).
  assert (Hbench : bench emptyNFA (@nil (NodeBuilder NS AS)) sk0).
  { split; try done; try (cbn; lia).
    - split; cbn; lia.
    - intros i l j [He|(c & Hc & _)]; [by apply Hne in He|by apply not_elem_of_nil in Hc].
    - intros c Hc. by apply not_elem_of_nil in Hc.
    - intros i a. split; [|done]. intros [He|(c & Hc & _)]; [apply accepts_node in He; cbn in He; lia|by apply not_elem_of_nil in Hc]. }
  split; [done|]. split; [done|]. exists (add_node sk0 0), (fun i => if decide (i = 0) then Some (Fwd m_prefixTreeRoot) else None). pose proof (Hsem _ Hbench) as Hb. split; try done.
  - intros i. cbn. destruct (decide (i = 0)) as [->|]; [split; [by eexists|by right]|]. split; [by intros [?|?]|by intros [? ?]].
  - intros g ->%list_elem_of_singleton. cbn [as_nfaNode as_vertex]. rewrite Hid, decide_True by done. split; [done|]. split.
    + intros ts w Hp Hw. assert (ts = []) as -> by (eapply path_unique; [exact Hwf0|exact Hp|constructor]). cbn in Hw. rewrite Hw. constructor.
    + intros a Ha. unfold actions_get in Ha. rewrite Hacts in Ha. by apply not_elem_of_nil in Ha.
  - split.
    + intros x rv Hx. apply vec_at_lt in Hx. cbn in Hx. lia.
    + intros key x Hx. change (rs_roots newReverseTrees) with (∅ : gmap (list Z) Z) in Hx. by rewrite lookup_empty in Hx.
  - intros ts u _. by left.
Qed.
End Semantics.
