(* ===== verification/SubtreeDrawing.v ===== *)
(** * Drawing the subtrees of fixed length

    The stack of active subtrees starts with subtrees that have a node, and
    goes on with subtrees that do not have one yet.  Here the two functions
    that draw the path to a leaf: the nodes that cannot be shared, and the
    suffix that can. *)

From stdpp Require Import gmap.
From S2P Require Import Prelude Bits DFA RangeList RangeListCorrect HashSet NFA NFACorrect NFAToDFA SubsetCorrect Term TermLanguage Fragments TermGraph CombinedURLFilters PrefixTree ProcessNFAs TreeHeap Skeleton SubtreeSemantics.

(** ** The middle of a vector *)

Lemma vec_at_mid {A} (l : list A) x l' : (l ++ x :: l').[vlen l] = Some x.
Proof. rewrite <- (Z.add_0_r (vlen l)). by rewrite vec_at_app_r. Qed.

Lemma vec_at_mid' {A} (l : list A) x l' i : i = vlen l -> (l ++ x :: l').[i] = Some x.
Proof. intros ->. apply vec_at_mid. Qed.

Lemma vec_set_mid {A} (l : list A) x l' y : vec_set (l ++ x :: l') (vlen l) y = Some (l ++ y :: l').
Proof. rewrite vec_set_Some by (rewrite length_app; cbn; lia). rewrite Nat2Z.id. f_equal. rewrite insert_app_r_alt by lia. by rewrite Nat.sub_diag. Qed.

Lemma vec_set_mid' {A} (l : list A) x l' y i : i = vlen l -> vec_set (l ++ x :: l') i y = Some (l ++ y :: l').
Proof. intros ->. apply vec_set_mid. Qed.

Lemma list_snoc_middle {A} (l : list A) x l' : l ++ x :: l' = (l ++ [x]) ++ l'.
Proof. by rewrite <- (assoc_L (++)). Qed.

Section Drawing.
Context {NS AS : Type} `{HashSetLaws NS} `{HashSetLaws AS}.
Variables (alphabet : list Term) (actions : gmap Z (list Z)) (h0 : list PrefixTreeEdges).

Abbreviation tree hp := (mkFilters alphabet hp actions).
Abbreviation acts v := (actions_get actions v).
Abbreviation active := (@ActiveSubtree NS AS).
Abbreviation sem := (sem alphabet actions h0).
Abbreviation covered := (covered alphabet actions h0).

Hypothesis Hwf0 : wf_tree (tree h0).
Hypothesis Hkeys : forall v, Forall (hs_key (T := AS)) (acts v).
Hypothesis Hgroups : forall u t c, tree_edge (tree h0) u t c -> hasFixedLength t = true -> no_empty_group t.

(** ** Frames *)

Definition same_frame (f g : active) : Prop := as_vertex f = as_vertex g /\ as_edgeIndex f = as_edgeIndex g.

#[global] Instance same_frame_equivalence : Equivalence same_frame.
Proof. split; [done|intros f g [Hx Hy]; by split|intros f g k [Hx1 Hy1] [Hx2 Hy2]; split; congruence]. Qed.

(** The active edge is there, of fixed length, and leads to the vertex. *)
Definition enters (h : list PrefixTreeEdges) (f : active) (p : Z) (t : Term) (c : Z) : Prop :=
  exists e, active_edge h f = Some e /\ e_term e = Some p /\ alphabet.[p] = Some t /\ hasFixedLength t = true /\ e_child e = c.

Definition linked (h : list PrefixTreeEdges) (f g : active) : Prop := exists p t, enters h f p t (as_vertex g).

Fixpoint chain (h : list PrefixTreeEdges) (l : list active) : Prop :=
  match l with
  | f :: ((g :: _) as l) => linked h f g /\ chain h l
  | _ => True
  end.

Lemma chain_app h l1 f l2 : chain h (l1 ++ f :: l2) <-> chain h (l1 ++ [f]) /\ chain h (f :: l2).
Proof. induction l1 as [|g [|g' l1] IH]; cbn in *; [destruct l2; tauto|destruct l2; tauto|]. rewrite IH. tauto. Qed.

Lemma enters_same h f g p t c : same_frame f g -> enters h f p t c -> enters h g p t c.
Proof. intros [Hv Hi] (e & He & Hr). exists e. split; [|done]. unfold active_edge in *. by rewrite <- Hv, <- Hi. Qed.

Lemma linked_same h f f' g g' : same_frame f f' -> as_vertex g = as_vertex g' -> linked h f g -> linked h f' g'.
Proof. intros Hf Hv (p & t & He). exists p, t. rewrite <- Hv. by eapply enters_same. Qed.

Lemma chain_same h l l' : Forall2 same_frame l l' -> chain h l -> chain h l'.
Proof.
  induction 1 as [|f f' l l' Hf Hl IH]; [done|]. destruct Hl as [|g g' l l' Hg Hl]; [done|]. cbn. intros [Hx Hy]. split; [eapply linked_same; [done|apply Hg|done]|by apply IH].
Qed.

Lemma enters_edge h f p t c : heap_le h h0 -> enters h f p t c -> tree_edge (tree h0) (as_vertex f) t c.
Proof.
  intros Hle (e & He & Hp & Ht & _ & <-). unfold active_edge in He. destruct (h.[as_vertex f]) as [es|] eqn:Eh; [|done]. rewrite option_bind_Some in He.
  destruct (heap_le_at _ _ _ _ Hle Eh) as (es0 & Hes0 & Htr). apply vec_at_Some in He as [_ He%list_elem_of_lookup_2].
  destruct (trimmed_in _ _ _ Htr He) as (e0 & Hin & Hc & [Hte|Hte]); [|congruence]. exists es0, e0, p. rewrite <- Hte, <- Hc. done.
Qed.

Lemma chain_init h l l' : chain h (l ++ l') -> chain h l.
Proof.
  induction l as [|f l IH]; [done|]. destruct l as [|g l]; [done|]. cbn [app chain]. intros [Hx Hy]. split; [done|by apply IH].
Qed.

Lemma chain_tail h l l' : chain h (l ++ l') -> chain h l'.
Proof. induction l as [|f l IH]; [done|]. cbn. intros Hc. apply IH. destruct (l ++ l'); [done|apply Hc]. Qed.

Lemma chain_last h l g inv f : chain h (l ++ g :: inv ++ [f]) -> linked h (default g (last inv)) f.
Proof.
  intros Hc%chain_tail. destruct inv as [|y inv _] using rev_ind; [by destruct Hc|]. rewrite last_snoc. cbn [default].
  rewrite <- (assoc_L (++)) in Hc. apply (chain_tail h (g :: inv)) in Hc. by destruct Hc.
Qed.

(** Changes elsewhere do not matter. *)
Lemma enters_heap h h' f p t c : h'.[as_vertex f] = h.[as_vertex f] -> enters h f p t c -> enters h' f p t c.
Proof. intros Hh (e & He & Hr). exists e. split; [|done]. unfold active_edge in *. by rewrite Hh. Qed.

Lemma chain_heap h h' l f : Forall (fun g => h'.[as_vertex g] = h.[as_vertex g]) l -> chain h (l ++ [f]) -> chain h' (l ++ [f]).
Proof.
  induction 1 as [|g l Hg Hl IH]; [done|]. destruct l as [|g' l]; cbn [app chain] in *; intros [(p & t & Hx) Hy]; (split; [exists p, t; by eapply enters_heap|]); [done|by apply IH].
Qed.

(** Vertices grow along the stack. *)
Lemma chain_increasing h l f : heap_le h h0 -> chain h (l ++ [f]) -> Forall (fun g => as_vertex g < as_vertex f) l.
Proof.
  intros Hle. induction l as [|g l IH]; [done|]. destruct l as [|g' l]; cbn [app chain] in *.
  - intros [(p & t & Hx) _]. apply (enters_edge _ _ _ _ _ Hle), (tree_edge_range _ _ _ _ Hwf0) in Hx. constructor; [lia|done].
  - intros [(p & t & Hx) Hy]. apply (enters_edge _ _ _ _ _ Hle), (tree_edge_range _ _ _ _ Hwf0) in Hx. specialize (IH Hy). constructor; [|done].
    apply Forall_cons in IH as [IH _]. lia.
Qed.

(** ** Costs in nodes *)

Definition ecost (e : PrefixTreeEdge) : nat := match edge_term alphabet e with Some t => Z.to_nat (term_nodes t + 1) | None => 0 end.

Lemma ecost_le e' e : edge_le e' e -> (ecost e' <= ecost e)%nat.
Proof. intros [_ He]. unfold ecost, edge_term. destruct He as [-> | ->]; cbn; lia. Qed.

(** The cost of the active edge. *)
Definition acost (h : list PrefixTreeEdges) (f : active) : Z := match active_edge h f with Some e => Z.of_nat (ecost e) | None => 0 end.

Definition acosts (h : list PrefixTreeEdges) (l : list active) : Z := foldr (fun f n => acost h f + n) 0 l.

Lemma acost_enters h f p t c : enters h f p t c -> acost h f = term_nodes t + 1.
Proof.
  intros (e & He & Hp & Ht & _). unfold acost, ecost, edge_term. rewrite He, Hp. cbn. rewrite Ht. pose proof (term_nodes_nonneg t). lia.
Qed.

Lemma acost_same h f g : same_frame f g -> acost h f = acost h g.
Proof. intros [Hv Hi]. unfold acost, active_edge. by rewrite Hv, Hi. Qed.

Lemma acosts_app h l l' : acosts h (l ++ l') = acosts h l + acosts h l'.
Proof. unfold acosts. induction l as [|f l IH]; cbn; [done|]. rewrite IH. lia. Qed.

Lemma acosts_same h l l' : Forall2 same_frame l l' -> acosts h l = acosts h l'.
Proof. induction 1 as [|f f' l l' Hf _ IH]; [done|]. cbn. unfold acosts in IH. rewrite IH. f_equal. by apply acost_same. Qed.

Lemma acosts_nonneg h l : 0 <= acosts h l.
Proof. induction l as [|f l IH]; cbn in *; [done|]. unfold acosts, acost in *. destruct (active_edge h f); lia. Qed.

Lemma acosts_heap h h' l : Forall (fun g => h'.[as_vertex g] = h.[as_vertex g]) l -> acosts h' l = acosts h l.
Proof. induction 1 as [|f l Hf _ IH]; [done|]. cbn. unfold acosts in IH. rewrite IH. unfold acost, active_edge. by rewrite Hf. Qed.

(** ** What has been drawn *)

Definition live_frame (f : active) : Prop := m_isValid (as_nfaNode f) = true /\ m_epsilonTransitionTargets (as_nfaNode f) = hs_empty.
Definition pending_frame (f : active) : Prop := as_nfaNode f = defaultBuilder.

(** Room for [cost] more nodes; the sets that are left and the skeleton have the property [Q]. *)
Record drawn (nfa : NFA) (left : Z -> Prop) (gen : list active) (rev : ReverseSuffixTrees) (cost : Z) (Q : skeleton -> kinds -> Prop) : Prop := {
  dr_builders : builders_ok nfa (map as_nfaNode gen);
  dr_live : Forall live_frame gen;
  dr_room : room (NS := NS) nfa cost;
  dr_rev : Forall (fun rv => 0 <= rs_nodeId rv < nnodes nfa /\ Forall (fun e => 0 <= snd e < vlen (rs_vertices rev)) (rs_edges rv)) (rs_vertices rev);
  dr_roots : map_Forall (fun _ x => 0 <= x < vlen (rs_vertices rev)) (rs_roots rev);
  dr_sem : nfa_small nfa -> exists sk kd, sem nfa left gen rev sk kd /\ Q sk kd
}.

Definition anything (_ : skeleton) (_ : kinds) : Prop := True.

Lemma drawn_weaken nfa left gen rev cost cost' (Q Q' : skeleton -> kinds -> Prop) :
  (forall sk kd, Q sk kd -> Q' sk kd) -> 0 <= cost' <= cost -> drawn nfa left gen rev cost Q -> drawn nfa left gen rev cost' Q'.
Proof.
  intros HQ Hc [Hb Hl Hr Hv Ht Hs]. split; try done; [by eapply room_le|]. intros Hsm. destruct (Hs Hsm) as (sk & kd & Hx & Hq). exists sk, kd. auto.
Qed.

Lemma rev_ranges_le nfa nfa' rev : nnodes nfa <= nnodes nfa' ->
  Forall (fun rv => 0 <= rs_nodeId rv < nnodes nfa /\ Forall (fun e => 0 <= snd e < vlen (rs_vertices rev)) (rs_edges rv)) (rs_vertices rev) ->
  Forall (fun rv => 0 <= rs_nodeId rv < nnodes nfa' /\ Forall (fun e => 0 <= snd e < vlen (rs_vertices rev)) (rs_edges rv)) (rs_vertices rev).
Proof. intros Hn Hv. eapply Forall_impl; [exact Hv|]. intros rv [Hx Hy]. split; [lia|done]. Qed.

Lemma live_frame_keeps (f : active) t nfa dest nfa' b' :
  live_frame f -> wf_builder b' -> hasFixedLength t = true -> no_empty_group t -> generateGraph t nfa (as_nfaNode f) dest = Some (nfa', b') -> live_frame (with_node f b').
Proof. intros [Hv He] Hb Hf Hg Hgen. split; [apply Hb|]. cbn. by rewrite (fixed_keeps_epsilons t Hf Hg _ _ _ _ _ Hgen). Qed.

(** ** Nodes that cannot be shared *)

Lemma draw_infix nfa left gen g d p t rev cost h :
  heap_le h h0 -> enters h g p t (as_vertex d) -> 0 <= cost -> drawn nfa left (gen ++ [g]) rev (acost h g + cost) anything ->
  exists nfa' b' e, generateGraphWithActions t nfa (as_nfaNode g) (acts (as_vertex d)) = Some (nfa', b', e)
    /\ drawn nfa' left (gen ++ [with_node g b'; with_node d e]) rev cost anything.
Proof.
  intros Hle Hen Hcost [Hb Hl Hr Hv Ht Hs]. pose proof (enters_edge _ _ _ _ _ Hle Hen) as Hedge. rewrite (acost_enters _ _ _ _ _ Hen) in Hr.
  pose proof (term_nodes_nonneg t) as Hn. destruct (sem_infix alphabet actions h0 Hwf0 nfa left gen g d t rev Hb) as (nfa' & b' & e & Hgen & HB & Heps & (nfa0 & dest & Hg0) & Hnn & Hnle & Hsem); [unfold room in *; lia|apply Hkeys|done|].
  exists nfa', b', e. split; [done|]. pose proof Hen as (_ & _ & _ & _ & Hfix & _). apply Forall_app in Hl as [Hl1 [Hlg _]%Forall_cons].
  assert (HBw : wf_builder b' /\ wf_builder e).
  { pose proof (bo_wf _ _ HB) as Hw. rewrite map_app in Hw. apply Forall_app in Hw as [_ [Hw1 [Hw2 _]%Forall_cons]%Forall_cons]. done. }
  split; [done| |unfold room in *; lia|eapply rev_ranges_le; [|done]; lia|done|].
  - apply Forall_app. split; [done|]. constructor; [eapply live_frame_keeps; [done|apply HBw|done|by eapply Hgroups|done]|]. constructor; [|done].
    split; [apply HBw|done].
  - intros Hsm. destruct (Hs ltac:(by eapply nfa_le_small)) as (sk & kd & Hse & _). destruct (Hsem sk kd Hsm Hse) as (sk' & kd' & Hse'). by exists sk', kd'.
Qed.

Lemma generate_infix_spec h left rev R inv2 capacity tooBig : forall inv1 gen g nfa,
  heap_le h h0 -> chain h (g :: inv1) -> Forall pending_frame inv1 -> 0 <= R -> drawn nfa left (gen ++ [g]) rev (acosts h (removelast (g :: inv1)) + R) anything ->
  exists nfa' gen', generate_infix alphabet actions (length inv1) (vlen gen + 1) (mkSubtrees nfa h (gen ++ g :: inv1 ++ inv2) capacity rev tooBig)
      = Some (mkSubtrees nfa' h (gen' ++ inv2) capacity rev tooBig)
    /\ Forall2 same_frame gen' (gen ++ g :: inv1) /\ drawn nfa' left gen' rev R anything.
Proof.
  induction inv1 as [|d inv1 IH]; intros gen g nfa Hle Hch Hp HR Hd; cbn [generate_infix length].
  { exists nfa, (gen ++ [g]). rewrite <- (assoc_L (++)). split; [done|]. split; [|done]. reflexivity. }
  destruct Hch as [(p & t & Hen) Hch]. apply Forall_cons in Hp as [Hpd Hp]. change (removelast (g :: d :: inv1)) with (g :: removelast (d :: inv1)) in Hd. cbn [acosts foldr] in Hd.
  fold (acosts h (removelast (d :: inv1))) in Hd. pose proof (acosts_nonneg h (removelast (d :: inv1))) as Hnn.
  destruct (draw_infix nfa left gen g d p t rev (acosts h (removelast (d :: inv1)) + R) h Hle Hen) as (nfa' & b' & e & Hgen & Hd'); [lia|by rewrite Z.add_assoc|].
  pose proof Hen as (ed & Hae & Het & Hal & _). change ((d :: inv1) ++ inv2) with (d :: inv1 ++ inv2). cbn [s_stack s_vertices s_nfa]. rewrite Z.add_simpl_r, vec_at_mid, option_bind_Some, Hae, option_bind_Some.
  unfold edge_term. rewrite Het, option_bind_Some, Hal, option_bind_Some.
  rewrite (list_snoc_middle gen), vec_at_mid', option_bind_Some, Hgen, option_bind_Some by (rewrite length_app; cbn; lia). cbn [as_nfaNode with_node].
  unfold moveAssign, destroyBuilder. rewrite Hpd. cbn [m_finalized defaultBuilder]. rewrite !option_bind_Some.
  rewrite <- (list_snoc_middle gen), vec_set_mid, option_bind_Some, (list_snoc_middle gen (with_node g b')), vec_set_mid', option_bind_Some by (rewrite length_app; cbn; lia).
  destruct (IH (gen ++ [with_node g b']) (with_node d e) nfa' Hle) as (nfa2 & gen2 & Hrun & Hsame & Hd2); [|done|done| |].
  - eapply chain_same; [|exact Hch]. constructor; [done|reflexivity].
  - rewrite <- (assoc_L (++)). cbn [app]. eapply drawn_weaken; [done| |exact Hd']. pose proof (acosts_nonneg h (removelast (with_node d e :: inv1))). split; [lia|].
    apply Z.eq_le_incl. f_equal. apply acosts_same. destruct inv1; cbn; [done|]. constructor; [done|reflexivity].
  - exists nfa2, gen2. split; [|split; [|done]].
    + rewrite <- Hrun. unfold with_stack, with_nfa. cbn [s_nfa s_vertices s_stack s_capacity s_reverse s_nfaTooBig]. rewrite length_app. cbn [length].
      replace (vlen gen + 1 + 1) with (Z.of_nat (length gen + 1) + 1) by lia. by rewrite <- (assoc_L (++)).
    + etrans; [exact Hsame|]. rewrite <- (assoc_L (++)). cbn [app]. apply Forall2_app; [reflexivity|]. constructor; [done|]. constructor; [done|reflexivity].
Qed.

Lemma find_generated_spec (gen : list active) g l : m_isValid (as_nfaNode g) = true -> Forall pending_frame l ->
  forall j, (j <= length l)%nat -> find_generated (gen ++ g :: l) (length gen + S j) = Some (length gen).
Proof.
  intros Hg Hl. induction j as [|j IH]; intros Hj; rewrite Nat.add_succ_r; cbn [find_generated].
  - rewrite lookup_app_r by lia. replace (length gen + 0 - length gen)%nat with 0%nat by lia. cbn. rewrite Hg. f_equal. lia.
  - rewrite lookup_app_r by lia. replace (length gen + S j - length gen)%nat with (S j) by lia. change ((g :: l) !! S j) with (l !! j).
    destruct (lookup_lt_is_Some_2 l j) as [f Hf]; [lia|]. rewrite Hf, option_bind_Some. rewrite Forall_lookup in Hl. rewrite (Hl _ _ Hf). cbn. apply IH. lia.
Qed.

(** A vertex with one edge and no actions. *)
Definition plain (h : list PrefixTreeEdges) (f : active) : Prop := actions !! as_vertex f = None /\ exists e, h.[as_vertex f] = Some [e].

Lemma infix_loop_spec h left rev capacity tooBig gen g : forall inv1 inv2 nfa R,
  heap_le h h0 -> chain h (g :: inv1) -> Forall pending_frame (inv1 ++ inv2) -> Forall (fun f => is_Some (h.[as_vertex f])) inv1 -> 0 <= R ->
  drawn nfa left (gen ++ [g]) rev (acosts h (g :: inv1) + R) anything ->
  exists nfa' gen' g' i1 i2, inv1 = i1 ++ i2
    /\ infix_loop alphabet actions (length gen + S (length inv1)) (mkSubtrees nfa h (gen ++ g :: inv1 ++ inv2) capacity rev tooBig)
       = Some (mkSubtrees nfa' h (gen' ++ g' :: i2 ++ inv2) capacity rev tooBig)
    /\ Forall2 same_frame (gen' ++ [g']) (gen ++ g :: i1) /\ Forall (plain h) i2 /\ drawn nfa' left (gen' ++ [g']) rev (acosts h (g' :: i2) + R) anything.
Proof.
  induction inv1 as [|f inv1 IH] using rev_ind; intros inv2 nfa R Hle Hch Hp His HR Hd.
  - exists nfa, gen, g, [], []. split; [done|]. split; [|by split; [|split]]. cbn [length app]. rewrite Nat.add_succ_r, Nat.add_0_r. cbn [infix_loop s_stack].
    rewrite list_lookup_middle by done. cbn. pose proof (dr_live _ _ _ _ _ _ Hd) as Hlv. apply Forall_app in Hlv as [_ [[Hv _] _]%Forall_cons]. by rewrite Hv.
  - rewrite <- (assoc_L (++)) in *. cbn [app] in *. rewrite length_app, Nat.add_1_r, Nat.add_succ_r. cbn [infix_loop s_stack s_vertices].
    assert (Hlook : (gen ++ g :: inv1 ++ f :: inv2) !! (length gen + S (length inv1))%nat = Some f).
    { rewrite lookup_app_r by lia. replace (length gen + S (length inv1) - length gen)%nat with (S (length inv1)) by lia. by apply (list_lookup_middle inv1). }
    rewrite Hlook, option_bind_Some. pose proof Hp as Hp'. apply Forall_app in Hp' as [_ [Hpf _]%Forall_cons]. unfold pending_frame in Hpf. rewrite Hpf. cbn [m_isValid defaultBuilder].
    rewrite bool_decide_eq_false_2 by lia. apply Forall_app in His as [His [[es Hes] _]%Forall_cons]. rewrite Hes, option_bind_Some.
    pose proof (acosts_nonneg h [f]) as Hnf. assert (Hcost : acosts h (g :: inv1 ++ [f]) + R = acosts h (g :: inv1) + (acosts h [f] + R)).
    { change (g :: inv1 ++ [f]) with ((g :: inv1) ++ [f]). rewrite acosts_app. lia. }
    rewrite Hcost in Hd. destruct (bool_decide (is_Some (actions !! as_vertex f)) || negb (vlen es =? 1)) eqn:Eplain.
    + assert (Hf : find_generated (gen ++ g :: inv1 ++ f :: inv2) (length gen + S (length inv1)) = Some (length gen)).
      { apply find_generated_spec; [|done|rewrite length_app; cbn; lia]. pose proof (dr_live _ _ _ _ _ _ Hd) as Hlv. by apply Forall_app in Hlv as [_ [[Hv _] _]%Forall_cons]. }
      rewrite Hf, option_bind_Some. replace (length gen + S (length inv1) - length gen)%nat with (length (inv1 ++ [f])) by (rewrite length_app; cbn; lia).
      destruct (generate_infix_spec h left rev (acosts h [f] + R) inv2 capacity tooBig (inv1 ++ [f]) gen g nfa Hle Hch) as (nfa' & gen' & Hrun & Hsame & Hd').
      { apply Forall_app in Hp as [Hp1 [Hp2 _]%Forall_cons]. apply Forall_app. split; [done|by constructor]. }
      { lia. }
      { change (g :: inv1 ++ [f]) with ((g :: inv1) ++ [f]). by rewrite removelast_last. }
      pose proof Hsame as Hsame'. change (gen ++ g :: inv1 ++ [f]) with (gen ++ (g :: inv1) ++ [f]) in Hsame'. rewrite (assoc_L (++)) in Hsame'.
      apply Forall2_app_inv_r in Hsame' as (gen1 & gl & Hs1 & Hs2 & ->). inversion Hs2 as [|g' ? ? ? Hg' Hnil]; subst. inversion Hnil; subst.
      exists nfa', gen1, g', (inv1 ++ [f]), []. split; [by rewrite app_nil_r|]. split; [|split; [done|split; [done|]]].
      * rewrite <- (assoc_L (++)) in Hrun. cbn [app] in Hrun. rewrite <- (assoc_L (++)) in Hrun. exact Hrun.
      * replace (acosts h [g']) with (acosts h [f]); [done|]. apply acosts_same. by constructor.
    + bprop. destruct (IH (f :: inv2) nfa (acosts h [f] + R) Hle) as (nfa' & gen' & g' & i1 & i2 & -> & Hrun & Hsame & Hpl & Hd'); try done; [|lia|].
      { change (g :: inv1 ++ [f]) with ((g :: inv1) ++ [f]) in Hch. destruct inv1 as [|x inv1 _] using rev_ind; [done|].
        rewrite app_comm_cons, <- (assoc_L (++)) in Hch. cbn [app] in Hch. rewrite app_comm_cons in Hch. apply chain_app in Hch as [Hch _]. done. }
      exists nfa', gen', g', i1, (i2 ++ [f]). split; [by rewrite (assoc_L (++))|]. split; [|split; [done|split]].
      * rewrite <- (assoc_L (++) i2). exact Hrun.
      * apply Forall_app. split; [done|]. constructor; [|done]. split; [|].
        -- match goal with Hb : bool_decide _ = false |- _ => apply bool_decide_eq_false in Hb; by apply eq_None_not_Some end.
        -- destruct es as [|e [|e' es]]; cbn in *; try lia. by exists e.
      * change (g' :: i2 ++ [f]) with ((g' :: i2) ++ [f]). rewrite acosts_app, <- Z.add_assoc. done.
Qed.

(** ** Shared suffixes *)

(** The node stands for a suffix that leads to the actions of the vertex. *)
Definition suffix_node (n : Z) (ts : list Term) (u : Z) (sk : skeleton) (kd : kinds) : Prop :=
  exists A, kd n = Some (Bwd ts A) /\ forall a, a ∈ A <-> a ∈ acts u.

Lemma reverse_step_spec nfa left gen h (stack : list active) capacity rev tooBig R x rv p t ts u :
  (rs_vertices rev).[x] = Some rv -> alphabet.[p] = Some t -> 0 <= R -> drawn nfa left gen rev (term_nodes t + 1 + R) (suffix_node (rs_nodeId rv) ts u) ->
  exists nfa' rev' y rv', reverse_step (mkSubtrees nfa h stack capacity rev tooBig) x (rs_nodeId rv) p t = Some (mkSubtrees nfa' h stack capacity rev' tooBig, y)
    /\ (rs_vertices rev').[y] = Some rv' /\ drawn nfa' left gen rev' R (suffix_node (rs_nodeId rv') (t :: ts) u).
Proof.
  intros Hx Hp HR Hd. pose proof Hd as [Hb Hl Hr Hv Ht Hs]. pose proof (term_nodes_nonneg t) as Hn. unfold reverse_step. cbn [s_reverse s_nfa]. rewrite Hx, option_bind_Some.
  pose proof (Forall_lookup_1 _ _ _ _ Hv (proj2 (proj1 (vec_at_Some _ _ _) Hx))) as [Hid Hed]. destruct (List.find _ _) as [[q y]|] eqn:Ef.
  - apply find_some in Ef as [Hin Heq]. cbn in Heq. apply Z.eqb_eq in Heq as ->. apply list_elem_of_In in Hin. rewrite Forall_forall in Hed. pose proof (Hed _ Hin) as Hy. cbn in Hy.
    destruct (vec_at_is_Some _ _ Hy) as [rv' Hrv']. exists nfa, rev, y, rv'. split; [done|]. split; [done|].
    split; try done; [eapply room_le; [|done]; lia|]. intros Hsm. destruct (Hs Hsm) as (sk & kd & Hse & A & HkA & HA). exists sk, kd. split; [done|]. exists A. split; [|done].
    destruct (rv_vertex _ _ _ _ (se_rev _ _ _ _ _ _ _ _ _ Hse) x rv Hx) as (ts0 & A0 & Hk0 & _ & He0). rewrite HkA in Hk0. injection Hk0 as <- <-.
    destruct (He0 p y Hin) as (rv1 & t1 & Hx1 & Hx2 & Hx3). rewrite Hrv' in Hx1. injection Hx1 as <-. rewrite Hp in Hx2. by injection Hx2 as <-.
  - destruct (sem_new_suffix alphabet actions h0 nfa left gen rev x rv p t Hb) as (nfa2 & b2 & nfa3 & Hg & Hid2 & Hde & HB & Hn3 & Hle3 & Hsem); [unfold room in *; lia|done|done|done|].
    destruct (newBuilder (NS := NS) (AS := AS) nfa) as [nfa1 e] eqn:En. cbn [fst snd] in Hg. rewrite Hg, option_bind_Some.
    pose proof (vec_at_lt _ _ _ Hx) as Hlt. set (rvx := mkReverseVertex (rs_edges rv ++ [(p, vlen (rs_vertices rev))]) (rs_nodeId rv)). assert (Hset : vec_set (rs_vertices rev) x rvx = Some (<[Z.to_nat x := rvx]> (rs_vertices rev))) by by apply vec_set_Some.
    rewrite Hset, option_bind_Some, Hde, option_bind_Some. unfold with_reverse, with_nfa. cbn [s_nfa s_vertices s_stack s_capacity s_reverse s_nfaTooBig].
    set (vs := <[_ := _]> _) in *. assert (Hlen : length vs = length (rs_vertices rev)) by apply length_insert.
    eexists nfa3, _, _, (mkReverseVertex [] (m_nodeId b2)). split; [done|]. split; [cbn; rewrite <- Hlen; apply vec_at_snoc|].
    split; try done; [unfold room in *; lia| | |].
    + cbn [rs_vertices]. rewrite length_app, Hlen. cbn [length]. apply Forall_app. split; [|constructor; [|done]; cbn; split; [lia|done]].
      unfold vs. apply Forall_insert.
      * eapply Forall_impl; [exact Hv|]. intros rv1 [Hx1 Hx2]. split; [lia|]. eapply Forall_impl; [exact Hx2|]. cbn. lia.
      * cbn. split; [lia|]. apply Forall_app. split; [eapply Forall_impl; [exact Hed|]; cbn; lia|]. constructor; [cbn; lia|done].
    + cbn. intros k y Hy. rewrite length_app, Hlen. apply Ht in Hy. cbn in *. lia.
    + intros Hsm. destruct (Hs ltac:(by eapply nfa_le_small)) as (sk & kd & Hse & A & HkA & HA).
      destruct (Hsem vs Hset sk kd ts A Hsm Hse HkA) as (sk' & kd' & Hse' & Hk'). exists sk', kd'. rewrite Hid2. split; [done|]. cbn. by exists A.
Qed.

Lemma destroy_pending nfa l : Forall pending_frame l -> destroy_all nfa l = Some nfa.
Proof. induction 1 as [|f l Hf _ IH]; [done|]. cbn. unfold pending_frame in Hf. by rewrite Hf. Qed.

Lemma draw_link nfa left gen g rev h p t c ts u pts rv x R :
  heap_le h h0 -> enters h g p t c -> tree_path (tree h0) c ts u -> tree_path (tree h0) m_prefixTreeRoot pts (as_vertex g) -> (rs_vertices rev).[x] = Some rv -> 0 <= R ->
  drawn nfa left (gen ++ [g]) rev (acost h g - 1 + R) (suffix_node (rs_nodeId rv) ts u) ->
  exists nfa' b', generateGraph t nfa (as_nfaNode g) (rs_nodeId rv) = Some (nfa', b') /\ drawn nfa' left (gen ++ [with_node g b']) rev R (fun sk kd => covered sk u).
Proof.
  intros Hle Hen Hts Hpts Hx HR [Hb Hl Hr Hv Ht Hs]. pose proof (enters_edge _ _ _ _ _ Hle Hen) as Hedge. rewrite (acost_enters _ _ _ _ _ Hen) in Hr.
  pose proof (term_nodes_nonneg t) as Hn. pose proof (Forall_lookup_1 _ _ _ _ Hv (proj2 (proj1 (vec_at_Some _ _ _) Hx))) as [Hid _].
  destruct (sem_link alphabet actions h0 Hwf0 nfa left gen g rev t (rs_nodeId rv) Hb) as (nfa' & b' & Hgen & HB & Hnn & Hnle & Hsem); [unfold room in *; lia|done|].
  exists nfa', b'. split; [done|]. pose proof Hen as (_ & _ & _ & _ & Hfix & _). apply Forall_app in Hl as [Hl1 [Hlg _]%Forall_cons].
  assert (HBw : wf_builder b') by (pose proof (bo_wf _ _ HB) as Hw; rewrite map_app in Hw; by apply Forall_app in Hw as [_ [Hw1 _]%Forall_cons]).
  split; [done| |unfold room in *; lia|eapply rev_ranges_le; [|done]; lia|done|].
  - apply Forall_app. split; [done|]. constructor; [|done]. eapply live_frame_keeps; [done|done|done|by eapply Hgroups|done].
  - intros Hsm. destruct (Hs ltac:(by eapply nfa_le_small)) as (sk & kd & Hse & A & HkA & HA).
    destruct (Hsem sk kd pts ts A u Hsm Hse) as (sk' & Hse' & Hcov); [by exists x, rv|done|done|done|by econstructor|]. by exists sk', kd.
Qed.

Lemma suffix_loop_unfold n (s : @Subtrees NS AS) x d : suffix_loop alphabet n s x d =
  (source ← s_stack s !! n;
   edge ← active_edge (s_vertices s) source;
   pointer ← e_term edge;
   term ← alphabet.[pointer];
   if m_isValid (as_nfaNode source) then
     s ← stack_shrink s (S n);
     '(nfa, node) ← generateGraph term (s_nfa s) (as_nfaNode source) d;
     stack ← vec_set (s_stack s) (Z.of_nat n) (with_node source node);
     Some (with_stack (with_nfa s nfa) stack)
   else
     '(s, x) ← reverse_step s x d pointer term;
     vertex ← (rs_vertices (s_reverse s)).[x];
     vertices ← vec_set (s_vertices s) (as_vertex source) [];
     match n with
     | S n => suffix_loop alphabet n (with_vertices s vertices) x (rs_nodeId vertex)
     | O => None
     end).
Proof. by destruct n. Qed.

Lemma suffix_loop_spec left capacity tooBig gen g u pts : forall inv rest h nfa rev R x rv ts c p t,
  heap_le h h0 -> chain h (gen ++ g :: inv) -> Forall pending_frame (inv ++ rest) -> enters h (default g (last inv)) p t c -> tree_path (tree h0) c ts u ->
  tree_path (tree h0) m_prefixTreeRoot pts (as_vertex g) -> (rs_vertices rev).[x] = Some rv -> 0 <= R ->
  drawn nfa left (gen ++ [g]) rev (acosts h (g :: inv) - 1 + R) (suffix_node (rs_nodeId rv) ts u) ->
  exists nfa' h' g' rev', suffix_loop alphabet (length gen + length inv) (mkSubtrees nfa h (gen ++ g :: inv ++ rest) capacity rev tooBig) x (rs_nodeId rv)
      = Some (mkSubtrees nfa' h' (gen ++ [g']) capacity rev' tooBig)
    /\ same_frame g' g /\ heap_le h' h /\ (forall v, h'.[v] = if decide (v ∈ map as_vertex inv) then Some [] else h.[v])
    /\ drawn nfa' left (gen ++ [g']) rev' R (fun sk kd => covered sk u).
Proof.
  induction inv as [|f inv IH] using rev_ind; intros rest h nfa rev R x rv ts c p t Hle Hch Hp Hen Hts Hpts Hx HR Hd.
  - cbn [last default from_option] in Hen. cbn [length app acosts foldr] in *. rewrite Nat.add_0_r, suffix_loop_unfold. pose proof Hen as (e & He & Het & Hal & _).
    cbn [s_stack s_vertices]. rewrite list_lookup_middle, option_bind_Some, He, option_bind_Some, Het, option_bind_Some, Hal, option_bind_Some by done.
    pose proof (dr_live _ _ _ _ _ _ Hd) as Hlv. apply Forall_app in Hlv as [_ [[Hv _] _]%Forall_cons]. rewrite Hv. unfold stack_shrink. cbn [s_stack s_nfa].
    rewrite (list_snoc_middle gen), drop_app_length', take_app_length', destroy_pending, !option_bind_Some by (rewrite ?length_app; cbn; try lia; done).
    cbn [s_stack s_nfa with_stack with_nfa]. replace (acost h g + 0 - 1 + R) with (acost h g - 1 + R) in Hd by lia.
    destruct (draw_link nfa left gen g rev h p t c ts u pts rv x R Hle Hen Hts Hpts Hx HR Hd) as (nfa' & b' & Hg & Hd').
    rewrite Hg, option_bind_Some, vec_set_mid, option_bind_Some. exists nfa', h, (with_node g b'), rev. split; [done|]. split; [done|]. split; [done|]. split; [|done].
    intros v. cbn. by rewrite decide_False by apply not_elem_of_nil.
  - rewrite last_snoc in Hen. cbn [default from_option id] in Hen. change (id f) with f in Hen. pose proof Hen as (e & He & Het & Hal & _).
    rewrite <- (assoc_L (++)) in *. cbn [app] in *. rewrite length_app, Nat.add_1_r, Nat.add_succ_r, suffix_loop_unfold. cbn [s_stack s_vertices].
    assert (Hlook : (gen ++ g :: inv ++ f :: rest) !! S (length gen + length inv)%nat = Some f).
    { rewrite lookup_app_r by lia. replace (S (length gen + length inv) - length gen)%nat with (S (length inv)) by lia. by apply (list_lookup_middle inv). }
    rewrite Hlook, option_bind_Some, He, option_bind_Some, Het, option_bind_Some, Hal, option_bind_Some.
    pose proof Hp as Hp'. apply Forall_app in Hp' as [_ [Hpf _]%Forall_cons]. unfold pending_frame in Hpf. rewrite Hpf. cbn [m_isValid defaultBuilder].
    assert (Hcost : acosts h (g :: inv ++ [f]) - 1 + R = term_nodes t + 1 + (acosts h (g :: inv) - 1 + R)).
    { change (g :: inv ++ [f]) with ((g :: inv) ++ [f]). rewrite acosts_app. cbn [acosts foldr]. rewrite (acost_enters _ _ _ _ _ Hen). lia. }
    rewrite Hcost in Hd. assert (Hge : 1 <= acosts h (g :: inv)).
    { cbn [acosts foldr]. fold (acosts h inv). pose proof (acosts_nonneg h inv). assert (1 <= acost h g); [|lia].
      destruct inv as [|y inv]; destruct (chain_tail _ _ _ Hch) as [(p' & t' & Hen') _]; rewrite (acost_enters _ _ _ _ _ Hen'); pose proof (term_nodes_nonneg t'); lia. }
    destruct (reverse_step_spec nfa left (gen ++ [g]) h (gen ++ g :: inv ++ f :: rest) capacity rev tooBig (acosts h (g :: inv) - 1 + R) x rv p t ts u Hx Hal ltac:(lia) Hd) as (nfa1 & rev1 & y & rv1 & Hstep & Hy & Hd1).
    rewrite Hstep, option_bind_Some. cbn [s_reverse s_vertices]. rewrite Hy, option_bind_Some.
    assert (Hfv : exists es, h.[as_vertex f] = Some es) by (unfold active_edge in He; destruct (h.[as_vertex f]) as [es|]; [by exists es|done]). destruct Hfv as [es Hes].
    destruct (vec_set h (as_vertex f) []) as [h1|] eqn:Eset; [|rewrite vec_set_Some in Eset by (by eapply vec_at_lt); done]. rewrite option_bind_Some.
    pose proof (heap_le_set _ _ _ _ _ Hes (trimmed_clear es) Eset) as Hle1.
    assert (Hch0 : chain h ((gen ++ g :: inv) ++ [f])) by (rewrite <- (assoc_L (++)); exact Hch). pose proof (chain_increasing _ _ _ Hle Hch0) as Hinc.
    assert (Hsame : Forall (fun k => h1.[as_vertex k] = h.[as_vertex k]) (gen ++ g :: inv)).
    { eapply Forall_impl; [exact Hinc|]. intros k Hk. cbn in Hk. rewrite (vec_at_set _ _ _ _ _ Eset). by rewrite decide_False by lia. }
    destruct (chain_last _ _ _ _ _ Hch) as (p' & t' & Hen'). assert (Hlast : default g (last inv) ∈ gen ++ g :: inv).
    { apply elem_of_app. right. destruct inv as [|k inv _] using rev_ind; [by left|]. rewrite last_snoc. right. apply elem_of_app. right. by left. }
    rewrite Forall_forall in Hsame. destruct (IH (f :: rest) h1 nfa1 rev1 R y rv1 (t :: ts) (as_vertex f) p' t') as (nfa' & h' & g' & rev' & Hrun & Hsf & Hle' & Hh' & Hd'); try done.
    + by etrans.
    + apply (chain_init _ _ [f]). eapply chain_heap; [|exact Hch0]. by apply Forall_forall.
    + eapply enters_heap; [|done]. by apply Hsame.
    + econstructor; [by eapply enters_edge|done].
    + rewrite (acosts_heap h h1); [done|]. apply Forall_forall. intros k Hk. apply Hsame, elem_of_app. by right.
    + exists nfa', h', g', rev'. split; [exact Hrun|]. split; [done|]. split; [by etrans|]. split; [|done]. intros v. rewrite Hh', (vec_at_set _ _ _ _ _ Eset), map_app.
      destruct (decide (v ∈ map as_vertex inv)) as [Hin|Hin]; [by rewrite decide_True by (apply elem_of_app; by left)|]. destruct (decide (as_vertex f = v)) as [<-|Hne].
      * rewrite decide_True; [done|]. apply elem_of_app. right. by left.
      * rewrite decide_False; [done|]. intros [?|Hx'%list_elem_of_singleton]%elem_of_app; [done|congruence].
Qed.

Lemma key_elements a A : a ∈ HashableActionList A <-> a ∈ A.
Proof. unfold HashableActionList. by rewrite (merge_sort_Permutation Z.le A). Qed.

(** The node of the actions at the end. *)
Lemma draw_root nfa left gen rev R u :
  0 <= R -> drawn nfa left gen rev (1 + R) anything ->
  (exists x rv, rs_roots rev !! HashableActionList (acts u) = Some x /\ (rs_vertices rev).[x] = Some rv /\ drawn nfa left gen rev R (suffix_node (rs_nodeId rv) [] u))
  \/ (rs_roots rev !! HashableActionList (acts u) = None /\ exists nfa2,
        destroyBuilder (fst (newBuilder (NS := NS) (AS := AS) nfa)) (setActions (snd (newBuilder (NS := NS) (AS := AS) nfa)) (acts u)) = Some nfa2
        /\ m_nodeId (setActions (snd (newBuilder (NS := NS) (AS := AS) nfa)) (acts u)) = nnodes nfa
        /\ drawn nfa2 left gen (mkReverseTrees (rs_vertices rev ++ [mkReverseVertex [] (nnodes nfa)]) (<[HashableActionList (acts u) := vlen (rs_vertices rev)]> (rs_roots rev))) R
             (suffix_node (nnodes nfa) [] u)).
Proof.
  intros HR [Hb Hl Hr Hv Ht Hs]. destruct (rs_roots rev !! HashableActionList (acts u)) as [x|] eqn:Ex; [left|right].
  - destruct (vec_at_is_Some (rs_vertices rev) x) as [rv Hrv]; [by eapply Ht|]. exists x, rv. split; [done|]. split; [done|].
    split; try done; [eapply room_le; [|done]; lia|]. intros Hsm. destruct (Hs Hsm) as (sk & kd & Hse & _). exists sk, kd. split; [done|].
    destruct (rv_root _ _ _ _ (se_rev _ _ _ _ _ _ _ _ _ Hse) _ _ Ex) as (rv' & A & Hx1 & Hx2 & Hx3). rewrite Hrv in Hx1. injection Hx1 as <-. exists A. split; [done|].
    intros a. by rewrite Hx3, key_elements.
  - split; [done|]. destruct (sem_new_root alphabet actions h0 nfa left gen rev (acts u) Hb) as (nfa2 & Hde & Hid & HB & Hn2 & Hle2 & Hsem); [unfold room in *; lia|apply Hkeys|].
    exists nfa2. split; [done|]. split; [done|]. split; try done; [unfold room in *; lia| | |].
    + cbn [rs_vertices]. rewrite length_app. cbn [length]. apply Forall_app. split; [|constructor; [cbn; split; [lia|done]|done]].
      eapply Forall_impl; [exact Hv|]. intros rv1 [Hx1 Hx2]. split; [lia|]. eapply Forall_impl; [exact Hx2|]. cbn. lia.
    + cbn. rewrite length_app. cbn [length]. intros k y. rewrite lookup_insert_Some. intros [[_ <-]|[_ Hy]]; [lia|]. apply Ht in Hy. cbn in Hy. lia.
    + intros Hsm. destruct (Hs ltac:(by eapply nfa_le_small)) as (sk & kd & Hse & _). destruct (Hsem sk kd Hsm Hse) as (sk' & kd' & Hse'). exists sk', kd'. split; [done|].
      destruct (rv_root _ _ _ _ (se_rev _ _ _ _ _ _ _ _ _ Hse') (HashableActionList (acts u)) (vlen (rs_vertices rev))) as (rv' & A & Hx1 & Hx2 & Hx3); [apply lookup_insert_eq|].
      cbn [rs_vertices] in Hx1. rewrite vec_at_snoc in Hx1. injection Hx1 as <-. exists A. split; [done|]. intros a. by rewrite Hx3, key_elements.
Qed.

Lemma generateSuffix_spec nfa left gen g inv leaf h capacity rev tooBig pts R :
  heap_le h h0 -> chain h (gen ++ g :: inv ++ [leaf]) -> Forall pending_frame (inv ++ [leaf]) -> tree_path (tree h0) m_prefixTreeRoot pts (as_vertex g) -> 0 <= R ->
  drawn nfa left (gen ++ [g]) rev (acosts h (g :: inv) + R) anything ->
  exists nfa' h' g' rev', generateSuffixWithReverseSuffixTree alphabet actions (mkSubtrees nfa h (gen ++ g :: inv ++ [leaf]) capacity rev tooBig)
      = Some (mkSubtrees nfa' h' (gen ++ [g']) capacity rev' tooBig)
    /\ same_frame g' g /\ heap_le h' h /\ (forall v, h'.[v] = if decide (v ∈ map as_vertex inv) then Some [] else h.[v])
    /\ drawn nfa' left (gen ++ [g']) rev' R (fun sk kd => covered sk (as_vertex leaf)).
Proof.
  intros Hle Hch Hp Hpts HR Hd. destruct (chain_last _ _ _ _ _ Hch) as (p & t & Hen).
  assert (Hch' : chain h (gen ++ g :: inv)) by (apply (chain_init _ _ [leaf]); rewrite <- (assoc_L (++)); exact Hch).
  assert (Hge : 1 <= acosts h (g :: inv)).
  { cbn [acosts foldr]. fold (acosts h inv). pose proof (acosts_nonneg h inv). assert (1 <= acost h g); [|lia].
    destruct inv as [|y inv]; destruct (chain_tail _ _ _ Hch) as [(p' & t' & Hen') _]; rewrite (acost_enters _ _ _ _ _ Hen'); pose proof (term_nodes_nonneg t'); lia. }
  unfold generateSuffixWithReverseSuffixTree. cbn [s_stack s_reverse s_nfa]. change (g :: inv ++ [leaf]) with ((g :: inv) ++ [leaf]). rewrite (assoc_L (++)).
  rewrite vec_at_mid', option_bind_Some by (rewrite (length_app _ [leaf]); cbn; lia).
  assert (Hpos : (length ((gen ++ g :: inv) ++ [leaf]) - 2 = length gen + length inv)%nat) by (rewrite !length_app; cbn; lia).
  replace (acosts h (g :: inv) + R) with (1 + (acosts h (g :: inv) - 1 + R)) in Hd by lia.
  destruct (draw_root _ _ _ _ (acosts h (g :: inv) - 1 + R) (as_vertex leaf) ltac:(lia) Hd) as [(x & rv & Hroot & Hx & Hd1)|(Hroot & nfa2 & Hde & Hid & Hd1)].
  - rewrite Hroot, option_bind_Some. cbn [s_reverse s_stack]. rewrite Hx, option_bind_Some, Hpos, <- (assoc_L (++)). cbn [app].
    eapply suffix_loop_spec; try done. constructor.
  - rewrite Hroot. destruct (newBuilder (NS := NS) (AS := AS) nfa) as [nfa1 e] eqn:En. cbn [fst snd] in Hde, Hid. rewrite Hde, !option_bind_Some. unfold with_reverse, with_nfa.
    cbn [s_reverse s_stack s_nfa s_vertices s_capacity s_nfaTooBig rs_vertices]. rewrite vec_at_snoc, option_bind_Some, Hpos, <- (assoc_L (++)), Hid. cbn [app].
    eapply (suffix_loop_spec left capacity tooBig gen g (as_vertex leaf) pts inv [leaf] h nfa2 _ R (vlen (rs_vertices rev)) (mkReverseVertex [] (nnodes nfa))); try done; [constructor|]. apply vec_at_snoc.
Qed.
End Drawing.
