(* ===== verification/SubtreeLoop.v ===== *)
(** * The loop over the subtrees of fixed length

    The invariant of [generateNFAForSubtree]: the stack is a path of the tree,
    edges are only marked where the loop has passed, what has disappeared from
    the tree is drawn, and there is room and fuel for the rest. *)

From stdpp Require Import gmap.
From S2P Require Import Prelude Bits DFA RangeList RangeListCorrect HashSet NFA NFACorrect NFAToDFA SubsetCorrect Term TermLanguage Fragments TermGraph CombinedURLFilters PrefixTree ProcessNFAs TreeHeap Skeleton SubtreeSemantics SubtreeDrawing.

Section Loop.
Context {NS AS : Type} `{HashSetLaws NS} `{HashSetLaws AS}.
Variables (alphabet : list Term) (actions : gmap Z (list Z)) (h0 : list PrefixTreeEdges) (maxNFASize : Z).

Abbreviation tree hp := (mkFilters alphabet hp actions).
Abbreviation acts v := (actions_get actions v).
Abbreviation active := (@ActiveSubtree NS AS).
Abbreviation sem := (sem alphabet actions h0).
Abbreviation covered := (covered alphabet actions h0).
Abbreviation chain := (chain (NS := NS) (AS := AS) alphabet).
Abbreviation enters := (enters (NS := NS) (AS := AS) alphabet).
Abbreviation linked := (linked (NS := NS) (AS := AS) alphabet).
Abbreviation acosts := (acosts (NS := NS) (AS := AS) alphabet).
Abbreviation drawn := (drawn (NS := NS) (AS := AS) alphabet actions h0).
Abbreviation ecost := (ecost alphabet).

Implicit Types (h : list PrefixTreeEdges) (es : PrefixTreeEdges).

Hypothesis Hwf0 : wf_tree (tree h0).
Hypothesis Hkeys : forall v, Forall (hs_key (T := AS)) (acts v).
Hypothesis Hgroups : forall u t c, tree_edge (tree h0) u t c -> hasFixedLength t = true -> no_empty_group t.
Hypothesis Hsizes : Forall (fun es => vlen es < 2 ^ 32) h0.

(** The root of the subtree, and the vertices on the way to it. *)
Variables (root : Z) (rts : list Term) (prefix : list Z).
Hypothesis Hroot : tree_path (tree h0) m_prefixTreeRoot rts root.

(** The vertices that are left in the tree. *)
Definition left_in (h : list PrefixTreeEdges) (u : Z) : Prop := u ∉ prefix /\ exists ts, tree_path (tree h) m_prefixTreeRoot ts u.

(** ** The stack *)

Definition in_range (h : list PrefixTreeEdges) (f : active) : Prop := exists es, h.[as_vertex f] = Some es /\ 0 <= as_edgeIndex f <= vlen es.

(** Marked edges are behind the position of a subtree that has a node. *)
Definition marks_behind (h : list PrefixTreeEdges) (gen : list active) : Prop :=
  forall u es j e, h.[u] = Some es -> es.[j] = Some e -> e_term e = None -> exists g, g ∈ gen /\ as_vertex g = u /\ j < as_edgeIndex g.

Record stack_ok (h : list PrefixTreeEdges) (gen : list active) (g : active) (inv : list active) : Prop := {
  st_heap : heap_le h h0;
  st_above u : u < root -> h.[u] = h0.[u];
  st_first : head (map as_vertex (gen ++ [g])) = Some root;
  st_chain : chain h (gen ++ g :: inv);
  st_range : Forall (in_range h) (gen ++ g :: inv);
  st_gen : Forall (fun f => h.[as_vertex f] <> Some []) (gen ++ [g]);
  st_marks : marks_behind h (gen ++ [g]);
  st_pending : Forall pending_frame inv
}.

Lemma heap_size h u es : heap_le h h0 -> h.[u] = Some es -> vlen es < 2 ^ 32.
Proof.
  intros Hle Hu. destruct (heap_le_at _ _ _ _ Hle Hu) as (es0 & [_ He]%vec_at_Some & Ht). apply trimmed_length in Ht. pose proof (Forall_lookup_1 _ _ _ _ Hsizes He) as Hx. cbn in Hx. lia.
Qed.

Lemma children_ok_0 : children_ok h0.
Proof. intros u es e. apply (wt_edges _ Hwf0). Qed.

(** The vertices of the stack are in the tree. *)
Lemma chain_path h f l g : heap_le h h0 -> chain h (f :: l ++ [g]) -> exists ts, tree_path (tree h0) (as_vertex f) ts (as_vertex g).
Proof.
  intros Hle. revert f. induction l as [|k l IH]; intros f; cbn [app].
  - intros [(p & t & Hen) _]. exists [t]. econstructor; [by eapply enters_edge|constructor].
  - intros [(p & t & Hen) Hc]. destruct (IH k Hc) as [ts Hts]. exists (t :: ts). econstructor; [by eapply enters_edge|done].
Qed.

Lemma stack_path h gen g inv f : stack_ok h gen g inv -> f ∈ gen ++ g :: inv -> exists ts, tree_path (tree h0) root ts (as_vertex f).
Proof.
  intros [Hle _ Hfirst Hch _ _ _ _] Hf. apply list_elem_of_split in Hf as (l1 & l2 & Hl). rewrite Hl in Hch.
  assert (Hhead : head (map as_vertex (l1 ++ [f])) = Some root).
  { rewrite <- Hfirst. destruct gen, l1; cbn in *; injection Hl; intros; by subst. }
  change (f :: l2) with ([f] ++ l2) in Hch. rewrite (assoc_L (++)) in Hch. apply chain_init in Hch. destruct l1 as [|k l1]; cbn in Hhead; injection Hhead as Hhead; rewrite <- Hhead; [by exists []; constructor|]. by eapply chain_path.
Qed.

Lemma stack_vertex_ge h gen g inv f : stack_ok h gen g inv -> f ∈ gen ++ g :: inv -> root <= as_vertex f.
Proof. intros Hst Hf. destruct (stack_path _ _ _ _ _ Hst Hf) as [ts Hts]. by apply (path_le _ _ _ _ Hwf0) in Hts. Qed.

(** ** The position at the top *)

Definition top (g : active) (inv : list active) : active := default g (last inv).
Definition low (gen : list active) (g : active) (inv : list active) : list active := gen ++ removelast (g :: inv).

Definition set_top (g : active) (inv : list active) (k : Z) : active * list active :=
  match last inv with
  | None => (with_index g k, [])
  | Some f => (g, removelast inv ++ [with_index f k])
  end.

Lemma low_top gen g inv : gen ++ g :: inv = low gen g inv ++ [top g inv].
Proof.
  unfold low, top. rewrite <- (assoc_L (++)). f_equal. destruct inv as [|f inv _] using rev_ind; [done|]. rewrite last_snoc. change (g :: inv ++ [f]) with ((g :: inv) ++ [f]).
  by rewrite removelast_last.
Qed.

Lemma top_snoc g inv f : top g (inv ++ [f]) = f.
Proof. unfold top. by rewrite last_snoc. Qed.

Lemma low_snoc gen g inv f : low gen g (inv ++ [f]) = gen ++ g :: inv.
Proof. unfold low. change (g :: inv ++ [f]) with ((g :: inv) ++ [f]). by rewrite removelast_last. Qed.

Lemma set_top_snoc g inv f k : set_top g (inv ++ [f]) k = (g, inv ++ [with_index f k]).
Proof. unfold set_top. by rewrite last_snoc, removelast_last. Qed.

Lemma set_top_stack gen g inv k : gen ++ fst (set_top g inv k) :: snd (set_top g inv k) = low gen g inv ++ [with_index (top g inv) k].
Proof.
  unfold low. rewrite <- (assoc_L (++)). f_equal. destruct inv as [|f inv _] using rev_ind; [done|]. rewrite set_top_snoc, top_snoc. cbn [fst snd].
  change (g :: inv ++ [f]) with ((g :: inv) ++ [f]). by rewrite removelast_last.
Qed.

Lemma set_top_low gen g inv k : low gen (fst (set_top g inv k)) (snd (set_top g inv k)) = low gen g inv.
Proof. destruct inv as [|f inv _] using rev_ind; [done|]. rewrite set_top_snoc. cbn [fst snd]. by rewrite !low_snoc. Qed.

Lemma set_top_top g inv k : top (fst (set_top g inv k)) (snd (set_top g inv k)) = with_index (top g inv) k.
Proof. destruct inv as [|f inv _] using rev_ind; [done|]. rewrite set_top_snoc. cbn [fst snd]. by rewrite !top_snoc. Qed.

(** The same nodes and vertices. *)
Lemma set_top_gen gen g inv k :
  map as_nfaNode (gen ++ [fst (set_top g inv k)]) = map as_nfaNode (gen ++ [g]) /\ map as_vertex (gen ++ [fst (set_top g inv k)]) = map as_vertex (gen ++ [g]).
Proof. rewrite !map_app. destruct inv as [|f inv _] using rev_ind; [done|]. by rewrite set_top_snoc. Qed.

Lemma drawn_same nfa lf gen gen' rev cost Q :
  map as_nfaNode gen' = map as_nfaNode gen -> map as_vertex gen' = map as_vertex gen -> drawn nfa lf gen rev cost Q -> drawn nfa lf gen' rev cost Q.
Proof.
  intros Hn Hv [Hb Hl Hr Hrv Ht Hs]. split; try done.
  - by rewrite Hn.
  - assert (Hl' : Forall (fun b : NodeBuilder NS AS => m_isValid b = true /\ m_epsilonTransitionTargets b = hs_empty) (map as_nfaNode gen')) by (rewrite Hn; by apply Forall_fmap).
    by apply Forall_fmap in Hl'.
  - intros Hsm. destruct (Hs Hsm) as (sk & kd & Hse & Hq). exists sk, kd. split; [by eapply sem_same|done].
Qed.

(** Moving the position at the top forward. *)
Lemma stack_ok_set_top h gen g inv k es :
  stack_ok h gen g inv -> h.[as_vertex (top g inv)] = Some es -> as_edgeIndex (top g inv) <= k <= vlen es ->
  stack_ok h gen (fst (set_top g inv k)) (snd (set_top g inv k)).
Proof.
  intros [Hle Hab Hfi Hch Hra Hge Hma Hpe] Hes Hk. pose proof (proj2 (set_top_gen gen g inv k)) as Hv. split; try done.
  - by rewrite Hv.
  - rewrite set_top_stack. rewrite low_top in Hch. destruct (low gen g inv) as [|x l _] using rev_ind; [done|]. rewrite <- (assoc_L (++)) in Hch |- *. cbn [app] in *.
    apply chain_app. apply chain_app in Hch as [Hc1 [Hc2 _]]. split; [done|]. split; [|done]. eapply linked_same; [| |exact Hc2]; done.
  - rewrite set_top_stack. rewrite low_top in Hra. apply Forall_app in Hra as [Hr1 [Hr2 _]%Forall_cons]. apply Forall_app. split; [done|]. constructor; [|done].
    exists es. destruct Hr2 as (es' & Hes' & Hr2). cbn. rewrite Hes in Hes'. injection Hes' as <-. split; [done|lia].
  - assert (Hg' : Forall (fun v => h.[v] <> Some []) (map as_vertex (gen ++ [fst (set_top g inv k)]))) by (rewrite Hv; apply Forall_fmap; exact Hge). exact (proj1 (Forall_fmap as_vertex _ _) Hg').
  - intros u es' j e Hu Hj He. destruct (Hma u es' j e Hu Hj He) as (x & Hx & Hxu & Hxj). apply elem_of_app in Hx as [Hx|Hx%list_elem_of_singleton].
    + exists x. split; [apply elem_of_app; by left|done].
    + subst x. exists (fst (set_top g inv k)). split; [apply elem_of_app; right; by left|]. destruct inv as [|f inv _] using rev_ind; [|by rewrite set_top_snoc].
      cbn in *. split; [done|lia].
  - destruct inv as [|f inv _] using rev_ind; [done|]. rewrite set_top_snoc. cbn [snd]. apply Forall_app in Hpe as [Hp1 [Hp2 _]%Forall_cons]. apply Forall_app. split; [done|by constructor].
Qed.

Lemma set_last_top gen g inv k (l := gen ++ fst (set_top g inv k) :: snd (set_top g inv k)) : set_last (gen ++ g :: inv) (with_index (top g inv) k) = Some l.
Proof. unfold l, set_last. rewrite set_top_stack, low_top. rewrite vec_set_mid'; [done|]. rewrite length_app. cbn. lia. Qed.

Lemma stack_top gen g inv : (gen ++ g :: inv).[vlen (gen ++ g :: inv) - 1] = Some (top g inv).
Proof. rewrite low_top, vec_at_mid'; [done|]. rewrite length_app. cbn. lia. Qed.

(** ** The work that is left *)

Section Weight.
Variables (vw : nat) (ew : PrefixTreeEdge -> nat) (c : nat).
Hypothesis Hew : forall e' e, edge_le e' e -> (ew e' <= ew e)%nat.

Definition rest (h : list PrefixTreeEdges) (f : active) (d : nat) : nat := ews vw ew h0 (drop (Z.to_nat (as_edgeIndex f) + d) (default [] (h.[as_vertex f]))).
Definition lower (h : list PrefixTreeEdges) (l : list active) : nat := foldr (fun f n => c + rest h f 1 + n)%nat 0%nat l.
Definition weight (h : list PrefixTreeEdges) (l : list active) (t : active) : nat := (lower h l + (c + rest h t 0))%nat.

Lemma lower_app h l l' : lower h (l ++ l') = (lower h l + lower h l')%nat.
Proof. unfold lower. induction l as [|f l IH]; cbn; [done|]. rewrite IH. lia. Qed.

Lemma lower_same h l l' : Forall2 same_frame l l' -> lower h l = lower h l'.
Proof. induction 1 as [|f f' l l' [Hv Hi] _ IH]; [done|]. cbn. unfold lower in IH. rewrite IH. unfold rest. by rewrite Hv, Hi. Qed.

Lemma lower_heap h h' l : Forall (fun f => h'.[as_vertex f] = h.[as_vertex f]) l -> lower h' l = lower h l.
Proof. induction 1 as [|f l Hf _ IH]; [done|]. cbn. unfold lower in IH. rewrite IH. unfold rest. by rewrite Hf. Qed.

Lemma ews_drop es k e : es.[k] = Some e -> ews vw ew h0 (drop (Z.to_nat k) es) = (ew e + wt vw ew h0 (e_child e) + ews vw ew h0 (drop (Z.to_nat k + 1) es))%nat.
Proof. intros [_ Hk]%vec_at_Some. rewrite (drop_S es e _ Hk), ews_cons. by rewrite Nat.add_1_r. Qed.

Lemma ews_drop_le es n m : (n <= m)%nat -> (ews vw ew h0 (drop m es) <= ews vw ew h0 (drop n es))%nat.
Proof.
  intros Hnm. replace m with (n + (m - n))%nat by lia. rewrite <- drop_drop. rewrite <- (take_drop (m - n) (drop n es)) at 2. rewrite ews_app. lia.
Qed.

(** Entering a child. *)
Lemma weight_push h l t es e n :
  heap_le h h0 -> h.[as_vertex t] = Some es -> es.[as_edgeIndex t] = Some e -> as_vertex n = e_child e -> as_edgeIndex n = 0 ->
  (weight h (l ++ [t]) n + ew e + vw <= weight h l t + c)%nat.
Proof.
  intros Hle Hes He Hn Hi. unfold weight. rewrite lower_app. cbn [lower foldr]. unfold rest. rewrite Hn, Hi, Hes. cbn [default from_option id Z.to_nat Nat.add]. change (id es) with es. rewrite drop_0.
  rewrite !Nat.add_0_r, (ews_drop es _ e He). assert (Hw : (ews vw ew h0 (default [] h.[e_child e]) + vw <= wt vw ew h0 (e_child e))%nat); [|lia].
  destruct (heap_le_at _ _ _ _ Hle Hes) as (es0 & Hes0 & Ht). apply vec_at_Some in He as [_ He%list_elem_of_lookup_2]. destruct (trimmed_in _ _ _ Ht He) as (e0 & He0 & Hc & _).
  pose proof (children_ok_0 _ _ _ Hes0 He0) as Hr. rewrite Hc. destruct (vec_at_is_Some h0 (e_child e0)) as [ec0 Hec0]; [pose proof (vec_at_lt _ _ _ Hes0); lia|].
  rewrite (wt_unfold vw ew h0 _ ec0 children_ok_0 Hec0). destruct (h.[e_child e0]) as [ec|] eqn:Eec; cbn [default from_option]; [change (id ec) with ec|cbn; lia].
  destruct (heap_le_at _ _ _ _ Hle Eec) as (ec1 & Hec1 & Ht1). rewrite Hec0 in Hec1. injection Hec1 as <-. pose proof (ews_le vw ew Hew h0 h0 ec ec0 ltac:(done) Ht1). lia.
Qed.

(** Passing an edge. *)
Lemma weight_set h l t es e k :
  h.[as_vertex t] = Some es -> es.[as_edgeIndex t] = Some e -> as_edgeIndex t < k -> (weight h l (with_index t k) + ew e <= weight h l t)%nat.
Proof.
  intros Hes He Hk. unfold weight, rest. cbn [as_vertex as_edgeIndex with_index]. rewrite Hes, !Nat.add_0_r. cbn [default from_option]. change (id es) with es.
  rewrite (ews_drop es _ e He). pose proof (vec_at_lt _ _ _ He). pose proof (ews_drop_le es (Z.to_nat (as_edgeIndex t) + 1) (Z.to_nat k) ltac:(lia)). lia.
Qed.

(** Back to a subtree below. *)
Lemma weight_pop h h' l l' f f' m t :
  Forall2 same_frame l' l -> as_vertex f' = as_vertex f -> as_edgeIndex f' = as_edgeIndex f + 1 -> 0 <= as_edgeIndex f ->
  Forall (fun f => h'.[as_vertex f] = h.[as_vertex f]) l' ->
  drop (Z.to_nat (as_edgeIndex f) + 1) (default [] (h'.[as_vertex f])) = drop (Z.to_nat (as_edgeIndex f) + 1) (default [] (h.[as_vertex f])) ->
  (weight h' l' f' + c <= weight h (l ++ f :: m) t)%nat.
Proof.
  intros Hl Hv Hi Hpos Hh Hd. unfold weight. rewrite lower_app, (lower_heap h h' l' Hh), (lower_same _ _ _ Hl). cbn [lower foldr]. assert (rest h' f' 0 = rest h f 1); [|lia].
  unfold rest. rewrite Hv, Hi, <- Hd. f_equal. f_equal. lia.
Qed.
End Weight.

Abbreviation room_weight := (weight 0 ecost 0).
Abbreviation fuel_weight := (weight 2 (fun _ => 1%nat) 1).

(** ** Progress: some leaf is reached *)

Inductive to_leaf : Z -> Prop :=
| to_leaf_here v : h0.[v] = Some [] -> to_leaf v
| to_leaf_step v es e p t : h0.[v] = Some es -> e ∈ es -> e_term e = Some p -> alphabet.[p] = Some t -> hasFixedLength t = true -> to_leaf (e_child e) -> to_leaf v.

(** A leaf is ahead, by an edge from position [k] on. *)
Definition ahead (v k : Z) : Prop :=
  exists es, h0.[v] = Some es /\ (es = [] \/ exists j e p t, k <= j /\ es.[j] = Some e /\ e_term e = Some p /\ alphabet.[p] = Some t /\ hasFixedLength t = true /\ to_leaf (e_child e)).

Lemma to_leaf_ahead v : to_leaf v -> ahead v 0.
Proof.
  intros [v' Hv|v' es e p t Hv He Hp Ht Hf Hl]; [exists []; auto|]. exists es. split; [done|]. right. apply list_elem_of_lookup in He as [j Hj]. exists (Z.of_nat j), e, p, t.
  rewrite vec_at_nat. split; [lia|done].
Qed.

Definition progress (s : @Subtrees NS AS) (l : list active) (t : active) : Prop :=
  (s_nfaTooBig s = false /\ s_vertices s = h0 /\ (ahead (as_vertex t) (as_edgeIndex t) \/ exists f, f ∈ l /\ ahead (as_vertex f) (as_edgeIndex f + 1)))
  \/ (live_edges (s_vertices s) < live_edges h0)%nat.

(** ** The invariant *)

Record state_ok (s : @Subtrees NS AS) (gen : list active) (g : active) (inv : list active) : Prop := {
  so_stack : s_stack s = gen ++ g :: inv;
  so_ok : stack_ok (s_vertices s) gen g inv;
  so_drawn : drawn (s_nfa s) (left_in (s_vertices s)) (gen ++ [g]) (s_reverse s) (acosts (s_vertices s) (removelast (g :: inv)) + Z.of_nat (room_weight (s_vertices s) (low gen g inv) (top g inv))) anything;
  so_progress : progress s (low gen g inv) (top g inv)
}.

(** The end of the loop. *)
Record done_ok (s : @Subtrees NS AS) : Prop := {
  do_stack : s_stack s = [];
  do_heap : heap_le (s_vertices s) h0;
  do_above u : u < root -> (s_vertices s).[u] = h0.[u];
  do_marks u es : (s_vertices s).[u] = Some es -> unmarked es;
  do_drawn : drawn (s_nfa s) (left_in (s_vertices s)) [] (s_reverse s) 0 anything;
  do_progress : (live_edges (s_vertices s) < live_edges h0)%nat
}.

Definition step_result (n : nat) (s : @Subtrees NS AS) : Prop :=
  (exists gen g inv, state_ok s gen g inv /\ (fuel_weight (s_vertices s) (low gen g inv) (top g inv) < n)%nat) \/ done_ok s.

Lemma set_top_removelast g inv k : removelast (fst (set_top g inv k) :: snd (set_top g inv k)) = removelast (g :: inv).
Proof. apply (app_inv_head (A := active) []). exact (set_top_low [] g inv k). Qed.

(** Passing edges at the top. *)
Lemma step_pass s gen g inv es e k :
  state_ok s gen g inv -> (s_vertices s).[as_vertex (top g inv)] = Some es -> es.[as_edgeIndex (top g inv)] = Some e -> as_edgeIndex (top g inv) < k <= vlen es ->
  (s_nfaTooBig s = true \/ (k = as_edgeIndex (top g inv) + 1 /\ forall t, edge_term alphabet e = Some t -> hasFixedLength t = false)) ->
  exists stack, set_last (s_stack s) (with_index (top g inv) k) = Some stack /\ step_result (fuel_weight (s_vertices s) (low gen g inv) (top g inv)) (with_stack s stack).
Proof.
  intros [Hs Hok Hdr Hpr] Hes He Hk Hcase. rewrite Hs, set_last_top. eexists. split; [done|]. left. exists gen, (fst (set_top g inv k)), (snd (set_top g inv k)).
  rewrite set_top_low, set_top_top. cbn [s_vertices with_stack]. split.
  - split; cbn [s_stack s_vertices s_nfa s_reverse with_stack].
    + done.
    + eapply stack_ok_set_top; [done|done|lia].
    + rewrite set_top_low, set_top_top, set_top_removelast. destruct (set_top_gen gen g inv k) as [Hn Hv]. eapply drawn_same; [done|done|]. eapply drawn_weaken; [done| |exact Hdr].
      pose proof (acosts_nonneg alphabet (s_vertices s) (removelast (g :: inv))). pose proof (weight_set 0 ecost 0 (s_vertices s) (low gen g inv) (top g inv) es e k Hes He ltac:(lia)). lia.
    + rewrite set_top_low, set_top_top. destruct Hpr as [(Hbig & Hh & Ha)|Hlive]; [left|by right]. split; [done|]. split; [done|]. destruct Ha as [Ha|Ha]; [left|by right].
      destruct Hcase as [?|[-> Hnf]]; [congruence|]. cbn [as_vertex as_edgeIndex with_index]. destruct Ha as (es' & Hes' & Ha). exists es'. split; [done|].
      rewrite Hh in Hes. rewrite Hes in Hes'. injection Hes' as <-. destruct Ha as [->|(j & e' & p & t & Hj & He' & Hp & Ht & Hf & Hl)]; [by left|right].
      exists j, e', p, t. split; [|done]. destruct (decide (j = as_edgeIndex (top g inv))) as [->|]; [|lia]. rewrite He in He'. injection He' as <-.
      rewrite (Hnf t) in Hf; [done|]. unfold edge_term. rewrite Hp. exact Ht.
  - pose proof (weight_set 2 (fun _ => 1%nat) 1 (s_vertices s) (low gen g inv) (top g inv) es e k Hes He ltac:(lia)) as Hw. cbn beta in Hw. lia.
Qed.

Lemma move_live (l : list active) : Forall live_frame l -> map moveActive l = l.
Proof. induction 1 as [|f l [_ Hf] _ IH]; [done|]. cbn. rewrite IH. f_equal. unfold moveActive. rewrite moveConstruct_same by done. by destruct f. Qed.

Lemma move_pending (l : list active) : Forall pending_frame l -> map moveActive l = l.
Proof.
  induction 1 as [|f l Hf _ IH]; [done|]. cbn. rewrite IH. f_equal. unfold pending_frame in Hf. unfold moveActive. rewrite Hf, moveConstruct_same by done. destruct f. cbn in *. by subst.
Qed.

Lemma stack_append_spec s (l : list active) f :
  s_stack s = l -> map moveActive (l ++ [f]) = l ++ [f] ->
  exists capacity, stack_append s f = mkSubtrees (s_nfa s) (s_vertices s) (l ++ [f]) capacity (s_reverse s) (s_nfaTooBig s).
Proof.
  intros Hs Hm. unfold stack_append. rewrite Hs. rewrite map_app in Hm. apply app_inj_2 in Hm as [Hm1 Hm2]; [|done]. cbn [map] in Hm2. rewrite Hm1. injection Hm2 as Hm2. rewrite Hm2.
  destruct (_ =? _); by eexists.
Qed.

Lemma acosts_push h g inv f : acosts h (removelast (g :: inv ++ [f])) = acosts h (removelast (g :: inv)) + acosts h [top g inv].
Proof.
  change (g :: inv ++ [f]) with ((g :: inv) ++ [f]). rewrite removelast_last, <- acosts_app. f_equal. exact (low_top [] g inv).
Qed.

(** Entering a child. *)
Lemma step_push s gen g inv es e p t :
  state_ok s gen g inv -> (s_vertices s).[as_vertex (top g inv)] = Some es -> es.[as_edgeIndex (top g inv)] = Some e -> e_term e = Some p -> alphabet.[p] = Some t -> hasFixedLength t = true ->
  step_result (fuel_weight (s_vertices s) (low gen g inv) (top g inv)) (stack_append s (mkActive (e_child e) (moveConstruct defaultBuilder) 0)).
Proof.
  intros [Hs Hok Hdr Hpr] Hes He Hp Ht Hf. set (n := mkActive (e_child e) (moveConstruct defaultBuilder) 0). assert (Hn : pending_frame n) by done.
  destruct (stack_append_spec s (gen ++ g :: inv) n Hs) as [cap Happ].
  { pose proof (dr_live _ _ _ _ _ _ _ _ _ Hdr) as Hl. rewrite (list_snoc_middle gen), <- (assoc_L (++)), map_app, (move_live _ Hl). f_equal. apply move_pending.
    apply Forall_app. split; [apply (st_pending _ _ _ _ Hok)|by constructor]. }
  rewrite Happ. left. exists gen, g, (inv ++ [n]). pose proof Hok as [Hle Hab Hfi Hch Hra Hge Hma Hpe].
  assert (Hen : enters (s_vertices s) (top g inv) p t (e_child e)) by (exists e; unfold active_edge; by rewrite Hes, option_bind_Some).
  assert (Hedge : tree_edge (tree h0) (as_vertex (top g inv)) t (e_child e)) by by eapply enters_edge. pose proof (tree_edge_range _ _ _ _ Hwf0 Hedge) as Hrg. cbn [m_vertices] in Hrg.
  assert (Hlk : exists ec, (s_vertices s).[e_child e] = Some ec) by (apply vec_at_is_Some; rewrite (heap_le_length _ _ Hle); lia). destruct Hlk as [ec Hec].
  assert (Hw : forall vw ew c, (forall e' e, edge_le e' e -> (ew e' <= ew e)%nat) -> (weight vw ew c (s_vertices s) (gen ++ g :: inv) n + ew e + vw <= weight vw ew c (s_vertices s) (low gen g inv) (top g inv) + c)%nat).
  { intros vw ew c Hew. rewrite low_top. by eapply weight_push. }
  rewrite low_snoc, top_snoc. cbn [s_vertices]. split.
  - split; cbn [s_stack s_vertices s_nfa s_reverse].
    + by rewrite <- (assoc_L (++)).
    + split; try done.
      * change (g :: inv ++ [n]) with ((g :: inv) ++ [n]). rewrite (assoc_L (++)), (low_top gen g inv), <- (assoc_L (++)). cbn [app]. apply chain_app. rewrite <- low_top. split; [done|]. split; [|done]. by exists p, t.
      * change (g :: inv ++ [n]) with ((g :: inv) ++ [n]). rewrite (assoc_L (++)). apply Forall_app. split; [done|]. constructor; [|done]. exists ec. cbn. split; [done|lia].
      * apply Forall_app. split; [done|by constructor].
    + rewrite low_snoc, top_snoc, acosts_push. eapply drawn_weaken; [done| |exact Hdr]. pose proof (acosts_nonneg alphabet (s_vertices s) (removelast (g :: inv))).
      specialize (Hw 0%nat ecost 0%nat (ecost_le alphabet)). cbn [acosts foldr]. rewrite (acost_enters _ _ _ _ _ _ Hen). pose proof (term_nodes_nonneg t).
      assert (ecost e = Z.to_nat (term_nodes t + 1)) as Hce by (unfold ecost, edge_term; rewrite Hp, option_bind_Some, Ht; done). lia.
    + rewrite low_snoc, top_snoc. destruct Hpr as [(Hbig & Hh & Ha)|Hlive]; [left|by right]. cbn [s_nfaTooBig s_vertices]. split; [done|]. split; [done|].
      destruct Ha as [(es' & Hes' & Ha)|(f & Hin & Ha)].
      * rewrite Hh in Hes. rewrite Hes in Hes'. injection Hes' as <-. destruct Ha as [->|(j & e' & p' & t' & Hj & He' & Hp' & Ht' & Hf' & Hl)]; [by apply vec_at_lt in He; cbn in He; lia|].
        destruct (decide (j = as_edgeIndex (top g inv))) as [->|Hne].
        -- left. rewrite He in He'. injection He' as <-. by apply to_leaf_ahead.
        -- right. exists (top g inv). split; [rewrite low_top; apply elem_of_app; right; by left|]. exists es. split; [done|]. right. exists j, e', p', t'. split; [lia|done].
      * right. exists f. split; [rewrite low_top; apply elem_of_app; by left|done].
  - specialize (Hw 2%nat (fun _ => 1%nat) 1%nat ltac:(done)). cbn beta in Hw. lia.
Qed.

(** ** What disappears from the tree *)

Lemma tree_path_mono h h' u ts v : (forall u t c, tree_edge (tree h) u t c -> tree_edge (tree h') u t c) -> tree_path (tree h) u ts v -> tree_path (tree h') u ts v.
Proof. intros He. induction 1; [constructor|]. econstructor; eauto. Qed.

Lemma tree_path_change h h' (gone : list Z) :
  (forall v t u, tree_edge (tree h) v t u -> v ∉ gone -> tree_edge (tree h') v t u \/ u ∈ gone) -> (forall v t u, tree_edge (tree h) v t u -> v ∈ gone -> u ∈ gone) ->
  forall ts u, tree_path (tree h) m_prefixTreeRoot ts u -> tree_path (tree h') m_prefixTreeRoot ts u \/ u ∈ gone.
Proof.
  intros Hout Hin ts. induction ts as [|t ts IH] using rev_ind; intros u Hp; [inversion Hp; subst; left; constructor|].
  apply tree_path_snoc_inv in Hp as (v & Hp & He). destruct (decide (v ∈ gone)) as [Hv|Hv]; [right; by eapply Hin|]. destruct (IH v Hp) as [Hp'|]; [|done].
  destruct (Hout _ _ _ He Hv) as [He'|]; [|by right]. left. by eapply tree_path_snoc.
Qed.

Lemma left_change h h' (gone : list Z) :
  (forall v t u, tree_edge (tree h) v t u -> v ∉ gone -> tree_edge (tree h') v t u \/ u ∈ gone) -> (forall v t u, tree_edge (tree h) v t u -> v ∈ gone -> u ∈ gone) ->
  forall u, left_in h u -> left_in h' u \/ u ∈ gone.
Proof.
  intros Hout Hin u [Hu [ts Hp]]. destruct (tree_path_change h h' gone Hout Hin ts u Hp) as [Hp'|]; [left|by right]. split; [done|by exists ts].
Qed.

Lemma drawn_left nfa lf lf' gen rev cost Q :
  (forall sk kd ts u, Q sk kd -> tree_path (tree h0) m_prefixTreeRoot ts u -> lf u -> lf' u \/ covered sk u) -> drawn nfa lf gen rev cost Q -> drawn nfa lf' gen rev cost anything.
Proof.
  intros Hl [Hb Hlv Hr Hrv Ht Hs]. split; try done. intros Hsm. destruct (Hs Hsm) as (sk & kd & Hse & Hq). exists sk, kd. split; [|done]. eapply sem_left; [exact Hse|].
  intros ts u Hp Hu. by eapply Hl.
Qed.

(** Marked edges are not edges. *)
Lemma remove_marked_edges h h' v0 es v t u :
  h.[v0] = Some es -> vec_set h v0 (remove_marked es) = Some h' -> tree_edge (tree h) v t u -> tree_edge (tree h') v t u.
Proof.
  intros Hes Hset (es' & e & p & Hv & He & Hp & Ht & Hc). cbn [m_vertices m_alphabet] in *. pose proof (vec_at_set _ _ _ v _ Hset) as Hat. destruct (decide (v0 = v)) as [<-|Hne].
  - rewrite Hes in Hv. injection Hv as <-. exists (remove_marked es), e, p. split; [done|]. split; [|done]. apply remove_marked_in. split; [done|by eexists].
  - exists es', e, p. cbn [m_vertices]. by rewrite Hat.
Qed.

(** Marking the edge to a child without edges. *)
Lemma left_mark h h' v es k e es' :
  h.[v] = Some es -> es.[k] = Some e -> vec_set es k (mkEdge None (e_child e)) = Some es' -> vec_set h v es' = Some h' -> h.[e_child e] = Some [] ->
  forall u, left_in h u -> left_in h' u \/ u ∈ [e_child e].
Proof.
  intros Hes He Hset Hh Hchild. apply left_change.
  - intros w t u (es1 & e1 & p & Hw & He1 & Hp & Ht & Hc) _. cbn [m_vertices m_alphabet] in *. pose proof (vec_at_set _ _ _ w _ Hh) as Hat. destruct (decide (v = w)) as [<-|Hne].
    + rewrite Hes in Hw. injection Hw as <-. apply list_elem_of_lookup in He1 as [j Hj]. pose proof (vec_at_set _ _ _ (Z.of_nat j) _ Hset) as Hat2. destruct (decide (k = Z.of_nat j)) as [->|Hne].
      * right. rewrite vec_at_nat, Hj in He. injection He as <-. rewrite <- Hc. by left.
      * left. exists es', e1, p. split; [done|]. split; [|done]. rewrite !vec_at_nat in Hat2. rewrite Hj in Hat2. by eapply list_elem_of_lookup_2.
    + left. exists es1, e1, p. cbn [m_vertices]. by rewrite Hat.
  - intros w t u (es1 & e1 & p & Hw & He1 & _) ->%list_elem_of_singleton. cbn in Hw. rewrite Hchild in Hw. injection Hw as <-. by apply not_elem_of_nil in He1.
Qed.

(** ** Back in the parent *)

(** The result of [mark_and_advance] on the tree. *)
Definition marked (h : list PrefixTreeEdges) (f : active) (h' : list PrefixTreeEdges) : Prop :=
  exists es e ec, h.[as_vertex f] = Some es /\ es.[as_edgeIndex f] = Some e /\ h.[e_child e] = Some ec
    /\ ((ec <> [] /\ h' = h) \/ (ec = [] /\ exists es', vec_set es (as_edgeIndex f) (mkEdge None (e_child e)) = Some es' /\ vec_set h (as_vertex f) es' = Some h')).

Lemma mark_and_advance_spec (s : @Subtrees NS AS) l f g :
  s_stack s = l ++ [f] -> heap_le (s_vertices s) h0 -> in_range (s_vertices s) f -> linked (s_vertices s) f g ->
  exists h', marked (s_vertices s) f h' /\ mark_and_advance s = Some (with_stack (with_vertices s h') (l ++ [with_index f (as_edgeIndex f + 1)])).
Proof.
  intros Hs Hle (es & Hes & Hk) (p & t & Hen). pose proof (enters_edge alphabet actions h0 _ _ _ _ _ Hle Hen) as Hedge. pose proof Hen as (e & He & Hp & Ht & Hf & Hc).
  unfold active_edge in He. rewrite Hes, option_bind_Some in He. pose proof (tree_edge_range _ _ _ _ Hwf0 Hedge) as Hrg. cbn [m_vertices] in Hrg. rewrite <- Hc in Hrg.
  destruct (vec_at_is_Some (s_vertices s) (e_child e)) as [ec Hec]; [rewrite (heap_le_length _ _ Hle); lia|]. pose proof (heap_size _ _ _ Hle Hes) as Hsz. pose proof (vec_at_lt _ _ _ He) as Hlt.
  unfold mark_and_advance. assert (Hne : s_stack s <> []) by (rewrite Hs; by destruct l).
  assert (Hun : forall A (x y : A), match s_stack s with [] => x | _ => y end = y) by (intros; by destruct (s_stack s)). rewrite Hun, Hs.
  rewrite vec_at_mid' by (rewrite length_app; cbn; lia). rewrite option_bind_Some, Hes, option_bind_Some, He, option_bind_Some, Hec, option_bind_Some, u32_small by lia. unfold set_last.
  destruct (decide (ec = [])) as [Eb|Eb].
  - rewrite bool_decide_eq_true_2 by done. destruct (vec_set es (as_edgeIndex f) (mkEdge None (e_child e))) as [es'|] eqn:E1; [|by rewrite vec_set_Some in E1].
    rewrite option_bind_Some. destruct (vec_set (s_vertices s) (as_vertex f) es') as [h'|] eqn:E2; [|rewrite vec_set_Some in E2 by (by eapply vec_at_lt); done].
    rewrite option_bind_Some, vec_set_mid', option_bind_Some by (rewrite length_app; cbn; lia). exists h'. split; [|done]. exists es, e, ec. split; [done|]. split; [done|]. split; [done|].
    right. split; [done|]. by exists es'.
  - rewrite bool_decide_eq_false_2 by done. rewrite option_bind_Some, vec_set_mid', option_bind_Some by (rewrite length_app; cbn; lia). exists (s_vertices s). split; [|by destruct s].
    exists es, e, ec. split; [done|]. split; [done|]. split; [done|]. by left.
Qed.

Lemma marked_heap h f h' : 0 <= as_edgeIndex f -> marked h f h' ->
  heap_le h' h /\ (forall u, u <> as_vertex f -> h'.[u] = h.[u])
  /\ drop (Z.to_nat (as_edgeIndex f) + 1) (default [] (h'.[as_vertex f])) = drop (Z.to_nat (as_edgeIndex f) + 1) (default [] (h.[as_vertex f])).
Proof.
  intros Hpos (es & e & ec & Hes & He & _ & [[_ ->]|(_ & es' & Hset & Hh)]); [done|]. pose proof (vec_set_inv _ _ _ _ Hset) as [_ ->].
  split; [eapply heap_le_set; [exact Hes| |exact Hh]; eapply trimmed_insert; [by apply vec_at_Some in He as [_ He]|split; [done|by right]]|]. split.
  - intros u Hu. rewrite (vec_at_set _ _ _ _ _ Hh). by rewrite decide_False.
  - rewrite (vec_at_set _ _ _ _ _ Hh), decide_True, Hes by done. cbn [default from_option]. change (id ?x) with x. apply drop_insert_lt. lia.
Qed.

Lemma left_marked h f h' g : linked h f g -> marked h f h' -> forall u, left_in h u -> left_in h' u \/ u = as_vertex g.
Proof.
  intros (p & t & e' & He' & _ & _ & _ & Hc) (es & e & ec & Hes & He & Hec & Hcase) u Hu. unfold active_edge in He'. rewrite Hes, option_bind_Some, He in He'. injection He' as <-.
  destruct Hcase as [[_ ->]|(-> & es' & Hset & Hh)]; [by left|]. destruct (left_mark _ _ _ _ _ _ _ Hes He Hset Hh Hec u Hu) as [?|Hx%list_elem_of_singleton]; [by left|right; congruence].
Qed.

(** Marking at the top. *)
Lemma stack_ok_mark h gen g h' : stack_ok h gen g [] -> marked h g h' -> stack_ok h' gen (with_index g (as_edgeIndex g + 1)) [].
Proof.
  intros Hok (es & e & ec & Hes & He & Hec & Hcase). pose proof (vec_at_lt _ _ _ He) as Hlt.
  pose proof (stack_ok_set_top h gen g [] (as_edgeIndex g + 1) es Hok Hes ltac:(cbn; lia)) as Hok1. cbn [set_top last fst snd] in Hok1. destruct Hcase as [[_ ->]|(_ & es' & Hset & Hh)]; [done|].
  pose proof Hok1 as [Hle Hab Hfi Hch Hra Hge Hma Hpe]. pose proof (vec_set_length _ _ _ _ Hset) as Hlen. pose proof (vec_set_inv _ _ _ _ Hset) as [_ Hins].
  pose proof (chain_increasing alphabet actions h0 Hwf0 _ _ _ Hle Hch) as Hinc.
  assert (Hat : forall u, h'.[u] = if decide (as_vertex g = u) then Some es' else h.[u]) by (intros u; apply (vec_at_set _ _ _ _ _ Hh)).
  assert (Hsame : Forall (fun f => h'.[as_vertex f] = h.[as_vertex f]) gen).
  { eapply Forall_impl; [exact Hinc|]. intros f Hf. cbn in Hf. rewrite Hat, decide_False; [done|lia]. }
  assert (Htrim : trimmed es' es) by (rewrite Hins; eapply trimmed_insert; [by apply vec_at_Some in He as [_ He]|split; [done|by right]]).
  split; try done.
  - etrans; [exact (heap_le_set _ _ _ _ _ Hes Htrim Hh)|done].
  - intros u Hu. rewrite Hat, decide_False; [by apply Hab|]. pose proof (stack_vertex_ge _ _ _ _ g Hok ltac:(apply elem_of_app; right; by left)). lia.
  - by eapply chain_heap.
  - apply Forall_app in Hra as [Hr1 [Hr2 _]%Forall_cons]. apply Forall_app. split.
    + rewrite Forall_forall in *. intros f Hf. destruct (Hr1 f Hf) as (ef & Hef & Hk). exists ef. by rewrite Hsame.
    + constructor; [|done]. exists es'. cbn. rewrite Hat, decide_True by done. rewrite Hlen. split; [done|lia].
  - apply Forall_app in Hge as [Hg1 Hg2]. apply Forall_app. split.
    + rewrite Forall_forall in *. intros f Hf. rewrite Hsame by done. by apply Hg1.
    + constructor; [|done]. cbn. rewrite Hat, decide_True by done. intros [= ->]. cbn in Hlen. lia.
  - intros u eu j e0 Hu Hj He0. rewrite Hat in Hu. destruct (decide (as_vertex g = u)) as [<-|Hne]; [|by eapply Hma]. injection Hu as <-.
    rewrite (vec_at_set _ _ _ j _ Hset) in Hj. destruct (decide (as_edgeIndex g = j)) as [<-|Hne]; [|by eapply Hma].
    exists (with_index g (as_edgeIndex g + 1)). split; [apply elem_of_app; right; by left|]. cbn. split; [done|lia].
Qed.

Lemma vec_set_same {A} (l : list A) i x : l.[i] = Some x -> vec_set l i x = Some l.
Proof. intros Hi. pose proof (vec_at_lt _ _ _ Hi). rewrite vec_set_Some by done. apply vec_at_Some in Hi as [_ Hi]. by rewrite list_insert_id. Qed.

(** There are no marks after the part of the stack that has nodes. *)
Lemma pending_unmarked h gen g inv f es : stack_ok h gen g (inv ++ [f]) -> h.[as_vertex f] = Some es -> unmarked es.
Proof.
  intros [Hle _ _ Hch _ _ Hma _] Hes. change (g :: inv ++ [f]) with ((g :: inv) ++ [f]) in Hch. rewrite (assoc_L (++)) in Hch.
  pose proof (chain_increasing alphabet actions h0 Hwf0 _ _ _ Hle Hch) as Hinc. apply Forall_lookup. intros j e Hj. destruct (e_term e) as [p|] eqn:Ep; [by eexists|exfalso].
  rewrite <- vec_at_nat in Hj. destruct (Hma _ _ _ _ Hes Hj Ep) as (x & Hx & Hv & _). rewrite Forall_forall in Hinc.
  assert (x ∈ gen ++ g :: inv) as Hx' by (rewrite list_snoc_middle; apply elem_of_app; by left). specialize (Hinc x Hx'). lia.
Qed.

Lemma stack_ok_init h gen g inv f : stack_ok h gen g (inv ++ [f]) -> stack_ok h gen g inv.
Proof.
  intros [Hle Hab Hfi Hch Hra Hge Hma Hpe]. change (g :: inv ++ [f]) with ((g :: inv) ++ [f]) in *. rewrite (assoc_L (++)) in *. split; try done.
  - by apply chain_init in Hch.
  - by apply Forall_app in Hra as [Hra _].
  - by apply Forall_app in Hpe as [Hpe _].
Qed.

Lemma not_ahead v es k : h0.[v] = Some es -> es <> [] -> vlen es <= k -> ~ ahead v k.
Proof.
  intros Hes Hne Hk (es' & Hes' & Ha). rewrite Hes in Hes'. injection Hes' as <-. destruct Ha as [?|(j & e & p & t & Hj & He & _)]; [done|]. apply vec_at_lt in He. lia.
Qed.

(** Leaving a subtree that has no node. *)
Lemma step_pop_pending s gen g inv f es :
  state_ok s gen g (inv ++ [f]) -> (s_vertices s).[as_vertex f] = Some es -> es <> [] -> vlen es <= as_edgeIndex f ->
  exists s', (vertices ← vec_set (s_vertices s) (as_vertex f) (remove_marked es); s1 ← stack_shrink (with_vertices s vertices) (length (s_stack s) - 1); mark_and_advance s1) = Some s'
    /\ step_result (fuel_weight (s_vertices s) (low gen g (inv ++ [f])) (top g (inv ++ [f]))) s'.
Proof.
  intros [Hs Hok Hdr Hpr] Hes Hne Hidx. rewrite low_snoc, top_snoc in *. pose proof (stack_ok_init _ _ _ _ _ Hok) as Hok1. pose proof (pending_unmarked _ _ _ _ _ _ Hok Hes) as Hun.
  rewrite (remove_marked_id es Hun), (vec_set_same _ _ _ Hes), option_bind_Some. pose proof (st_chain _ _ _ _ Hok) as Hch. pose proof (chain_last _ _ _ _ _ _ Hch) as Hlk.
  pose proof (st_pending _ _ _ _ Hok) as Hpe. apply Forall_app in Hpe as [Hpe Hpf].
  assert (Hshrink : stack_shrink (with_vertices s (s_vertices s)) (length (s_stack s) - 1) = Some (mkSubtrees (s_nfa s) (s_vertices s) (gen ++ g :: inv) (s_capacity s) (s_reverse s) (s_nfaTooBig s))).
  { unfold stack_shrink. cbn [s_stack s_nfa with_vertices]. rewrite Hs. change (g :: inv ++ [f]) with ((g :: inv) ++ [f]). rewrite (assoc_L (++)).
    rewrite drop_app_length', take_app_length' by (rewrite (length_app _ [f]); cbn; lia). by rewrite destroy_pending, option_bind_Some. }
  rewrite Hshrink, option_bind_Some. set (s1 := mkSubtrees _ _ _ _ _ _). pose proof (st_range _ _ _ _ Hok1) as Hra. rewrite low_top in Hra. apply Forall_app in Hra as [_ [Hra _]%Forall_cons].
  destruct (mark_and_advance_spec s1 (low gen g inv) (top g inv) f) as (h' & Hm & Hrun); [apply low_top|apply (st_heap _ _ _ _ Hok)|done|done|]. rewrite Hrun. eexists. split; [done|].
  destruct Hm as (es1 & e & ec & Hes1 & He & Hec & Hcase). cbn [s_vertices s1] in *.
  assert (Hchild : e_child e = as_vertex f). { destruct Hlk as (p & t & e' & He' & _ & _ & _ & Hc). fold (top g inv) in He'. unfold active_edge in He'. rewrite Hes1, option_bind_Some, He in He'. by injection He' as <-. }
  rewrite Hchild, Hes in Hec. injection Hec as <-. destruct Hcase as [[_ ->]|[? _]]; [|done]. pose proof (vec_at_lt _ _ _ He) as Hlt. set (k := as_edgeIndex (top g inv) + 1) in *.
  assert (Hw : forall vw ew c, (weight vw ew c (s_vertices s) (low gen g inv) (with_index (top g inv) k) + c <= weight vw ew c (s_vertices s) (gen ++ g :: inv) f)%nat).
  { intros vw ew c. rewrite low_top. apply weight_pop; [reflexivity|done|done|lia|by apply Forall_forall|done]. }
  left. exists gen, (fst (set_top g inv k)), (snd (set_top g inv k)). rewrite set_top_low, set_top_top. cbn [s_vertices with_stack with_vertices]. split.
  - split; cbn [s_stack s_vertices s_nfa s_reverse with_stack with_vertices s1].
    + by rewrite set_top_stack.
    + eapply stack_ok_set_top; [done|done|]. unfold k. lia.
    + rewrite set_top_low, set_top_top, set_top_removelast. destruct (set_top_gen gen g inv k) as [Hn Hv]. eapply drawn_same; [done|done|]. eapply drawn_weaken; [done| |exact Hdr].
      specialize (Hw 0%nat ecost 0%nat). rewrite acosts_push. pose proof (acosts_nonneg alphabet (s_vertices s) (removelast (g :: inv))). pose proof (acosts_nonneg alphabet (s_vertices s) [top g inv]). lia.
    + rewrite set_top_low, set_top_top. destruct Hpr as [(Hbig & Hh & Ha)|Hlive]; [left|by right]. cbn [s_nfaTooBig s_vertices]. split; [done|]. split; [done|].
      destruct Ha as [Ha|(x & Hx & Ha)]; [rewrite Hh in Hes; by apply (not_ahead _ _ _ Hes Hne Hidx) in Ha|]. rewrite low_top in Hx. apply elem_of_app in Hx as [Hx|Hx%list_elem_of_singleton]; [right; by exists x|].
      subst x. by left.
  - specialize (Hw 2%nat (fun _ => 1%nat) 1%nat). lia.
Qed.

(** Finishing the node of the last subtree. *)
Lemma drawn_finish nfa lf gen g rev cost :
  drawn nfa lf (gen ++ [g]) rev cost anything -> exists nfa', destroyBuilder nfa (as_nfaNode g) = Some nfa' /\ drawn nfa' lf gen rev cost (fun sk kd => covered sk (as_vertex g)).
Proof.
  intros [Hb Hl Hr Hrv Ht Hs]. destruct (sem_finish alphabet actions h0 nfa lf gen g rev Hb) as (nfa' & Hd & HB & Hn & Hle & Hsem). exists nfa'. split; [done|].
  split; [done|by apply Forall_app in Hl as [Hl _]|unfold room in *; lia|eapply rev_ranges_le; [|done]; lia|done|]. intros Hsm.
  destruct (Hs ltac:(by eapply nfa_le_small)) as (sk & kd & Hse & _). exists sk, kd. split; [by apply Hsem|].
  destruct (se_gen _ _ _ _ _ _ _ _ _ Hse g) as [_ [Hre Ha]]; [apply elem_of_app; right; by left|]. intros ts w a Hp Hw Hin. eexists. split; [by eapply Hre|by apply Ha].
Qed.

Lemma unmarked_h0 u es : h0.[u] = Some es -> unmarked es.
Proof. intros Hu. apply Forall_forall. intros e He. destruct (wt_terms _ Hwf0 _ _ _ Hu He) as (p & t & -> & _). by eexists. Qed.

(** Removing the marks of the last subtree. *)
Lemma clean_top h gen g es h1 :
  stack_ok h gen g [] -> h.[as_vertex g] = Some es -> vec_set h (as_vertex g) (remove_marked es) = Some h1 ->
  heap_le h1 h /\ (forall u, u < root -> h1.[u] = h0.[u]) /\ marks_behind h1 gen /\ Forall (fun f => h1.[as_vertex f] = h.[as_vertex f]) gen.
Proof.
  intros Hok Hes Hset. pose proof Hok as [Hle Hab Hfi Hch Hra Hge Hma Hpe]. pose proof (chain_increasing alphabet actions h0 Hwf0 _ _ _ Hle Hch) as Hinc.
  assert (Hat : forall u, h1.[u] = if decide (as_vertex g = u) then Some (remove_marked es) else h.[u]) by (intros u; apply (vec_at_set _ _ _ _ _ Hset)).
  split; [exact (heap_le_set _ _ _ _ _ Hes (trimmed_filter _ es) Hset)|]. split; [|split].
  - intros u Hu. rewrite Hat, decide_False; [by apply Hab|]. pose proof (stack_vertex_ge _ _ _ _ g Hok ltac:(apply elem_of_app; right; by left)). lia.
  - intros u eu j e Hu Hj He. rewrite Hat in Hu. destruct (decide (as_vertex g = u)) as [<-|Hne].
    + injection Hu as <-. pose proof (remove_marked_unmarked es) as Hx. apply vec_at_Some in Hj as [_ Hj]. pose proof (Forall_lookup_1 _ _ _ _ Hx Hj) as [p Hp]. congruence.
    + destruct (Hma u eu j e Hu Hj He) as (x & [Hx|Hx%list_elem_of_singleton]%elem_of_app & Hxu & Hxj); [by exists x|]. by subst x.
  - eapply Forall_impl; [exact Hinc|]. intros f Hf. cbn in Hf. rewrite Hat, decide_False; [done|lia].
Qed.

(** Leaving a subtree that has a node. *)
Lemma step_pop_node s gen g es :
  state_ok s gen g [] -> (s_vertices s).[as_vertex g] = Some es -> es <> [] -> vlen es <= as_edgeIndex g ->
  exists s', (vertices ← vec_set (s_vertices s) (as_vertex g) (remove_marked es); s1 ← stack_shrink (with_vertices s vertices) (length (s_stack s) - 1); mark_and_advance s1) = Some s'
    /\ step_result (fuel_weight (s_vertices s) (low gen g []) (top g [])) s'.
Proof.
  intros [Hs Hok Hdr Hpr] Hes Hne Hidx. unfold low, top in *. cbn [removelast last default from_option] in *. rewrite app_nil_r in *. pose proof (vec_at_lt _ _ _ Hes) as Hlt.
  destruct (vec_set (s_vertices s) (as_vertex g) (remove_marked es)) as [h1|] eqn:Eset; [|by rewrite vec_set_Some in Eset]. rewrite option_bind_Some.
  destruct (clean_top _ _ _ _ _ Hok Hes Eset) as (Hle1 & Hab1 & Hma1 & Hsame1). pose proof Hok as [Hle Hab Hfi Hch Hra Hge Hma Hpe].
  cbn [acosts foldr] in Hdr. rewrite Z.add_0_l in Hdr. destruct (drawn_finish _ _ _ _ _ _ Hdr) as (nfa' & Hde & Hdr1).
  assert (Hshrink : stack_shrink (with_vertices s h1) (length (s_stack s) - 1) = Some (mkSubtrees nfa' h1 gen (s_capacity s) (s_reverse s) (s_nfaTooBig s))).
  { unfold stack_shrink. cbn [s_stack s_nfa with_vertices]. rewrite Hs, drop_app_length', take_app_length' by (rewrite length_app; cbn; lia). cbn [destroy_all]. by rewrite Hde. }
  rewrite Hshrink, option_bind_Some. assert (Hpr1 : (s_nfaTooBig s = false /\ h1 = h0 /\ remove_marked es = es /\ exists f, f ∈ gen /\ ahead (as_vertex f) (as_edgeIndex f + 1)) \/ (live_edges h1 < live_edges h0)%nat).
  { destruct Hpr as [(Hbig & Hh & Ha)|Hlive]; [left|right; apply live_edges_le in Hle1; lia]. split; [done|]. rewrite Hh in Hes. split.
    - rewrite Hh, (remove_marked_id es (unmarked_h0 _ _ Hes)), (vec_set_same _ _ _ Hes) in Eset. by injection Eset as <-.
    - split; [by apply remove_marked_id, (unmarked_h0 _ _ Hes)|]. destruct Ha as [Ha|Ha]; [by apply (not_ahead _ _ _ Hes Hne Hidx) in Ha|done]. }
  assert (Hleft1 : forall u, left_in (s_vertices s) u -> left_in h1 u).
  { intros u [Hu [ts Hp]]. split; [done|]. exists ts. eapply tree_path_mono; [|exact Hp]. intros v t c He. by eapply remove_marked_edges. }
  destruct gen as [|g1 gen _] using rev_ind.
  - eexists. split; [done|]. right. split; cbn [s_stack s_vertices s_nfa s_reverse]; try done.
    + by etrans.
    + intros u eu Hu. apply Forall_lookup. intros j e Hj. destruct (e_term e) as [p|] eqn:Ep; [by eexists|exfalso]. rewrite <- vec_at_nat in Hj.
      destruct (Hma1 _ _ _ _ Hu Hj Ep) as (x & Hx & _). by apply not_elem_of_nil in Hx.
    + eapply drawn_left; [|eapply drawn_weaken; [done| |exact Hdr1]; lia]. intros sk kd ts u _ _ Hu. left. by apply Hleft1.
    + destruct Hpr1 as [(_ & _ & _ & f & Hf & _)|]; [by apply not_elem_of_nil in Hf|done].
  - rewrite <- (assoc_L (++)) in Hch. cbn [app] in Hch. rewrite Forall_forall in Hsame1. assert (Hg1 : h1.[as_vertex g1] = (s_vertices s).[as_vertex g1]) by (apply Hsame1, elem_of_app; right; by left).
    assert (Hok1 : stack_ok h1 gen g1 []).
    { split; try done.
      - by etrans.
      - rewrite <- Hfi. by destruct gen.
      - eapply chain_heap; [|apply (chain_init _ _ _ [g]); by rewrite <- (assoc_L (++))]. apply Forall_forall. intros f Hf. apply Hsame1, elem_of_app. by left.
      - apply Forall_app in Hra as [Hra _]. rewrite Forall_forall in *. intros f Hf. destruct (Hra f Hf) as (ef & Hef & Hkf). exists ef. by rewrite Hsame1.
      - apply Forall_app in Hge as [Hge _]. rewrite Forall_forall in *. intros f Hf. rewrite Hsame1 by done. by apply Hge. }
    assert (Hlk : linked h1 g1 g). { apply (chain_tail _ _ gen) in Hch as [(p & t & Hen) _]. exists p, t. by eapply enters_heap. }
    pose proof (st_range _ _ _ _ Hok1) as Hr1. apply Forall_app in Hr1 as [_ [Hr1 _]%Forall_cons]. destruct (Hr1) as (e1 & He1 & Hk1).
    destruct (mark_and_advance_spec (mkSubtrees nfa' h1 (gen ++ [g1]) (s_capacity s) (s_reverse s) (s_nfaTooBig s)) gen g1 g) as (h' & Hm & Hrun); [done|apply (st_heap _ _ _ _ Hok1)|done|done|].
    rewrite Hrun. eexists. split; [done|]. cbn [s_vertices] in Hm. destruct (marked_heap _ _ _ (proj1 Hk1) Hm) as (Hle' & Hat' & Hdrop').
    pose proof (chain_increasing alphabet actions h0 Hwf0 _ _ _ (st_heap _ _ _ _ Hok1) (st_chain _ _ _ _ Hok1)) as Hinc.
    assert (Hw : forall vw ew c, (weight vw ew c h' gen (with_index g1 (as_edgeIndex g1 + 1)) + c <= weight vw ew c (s_vertices s) (gen ++ [g1]) g)%nat).
    { intros vw ew c. apply weight_pop; [reflexivity|done|done|lia| |by rewrite Hdrop', Hg1]. rewrite Forall_forall in *. intros f Hf. specialize (Hinc f Hf). cbn in Hinc.
      rewrite Hat' by lia. apply Hsame1, elem_of_app. by left. }
    left. exists gen, (with_index g1 (as_edgeIndex g1 + 1)), []. unfold low, top. cbn [removelast last default from_option s_vertices with_stack with_vertices]. rewrite app_nil_r. split.
    + split; cbn [s_stack s_vertices s_nfa s_reverse with_stack with_vertices].
      * done.
      * by eapply stack_ok_mark.
      * unfold low, top. cbn [removelast last default from_option acosts foldr]. rewrite app_nil_r. apply (drawn_same _ _ (gen ++ [g1])); [by rewrite !map_app|by rewrite !map_app|].
        eapply drawn_left; [|eapply drawn_weaken; [done| |exact Hdr1]]; [|specialize (Hw 0%nat ecost 0%nat); lia]. intros sk kd ts u Hcov _ Hu. apply Hleft1 in Hu.
        destruct (left_marked _ _ _ _ Hlk Hm u Hu) as [?| ->]; [by left|by right].
      * unfold low, top. cbn [removelast last default from_option]. rewrite app_nil_r. destruct Hpr1 as [(Hbig & Hh1 & Hrm & f & Hf & Ha)|Hlive]; [|right; cbn [s_vertices with_stack with_vertices]; apply live_edges_le in Hle'; lia].
        left. cbn [s_nfaTooBig s_vertices with_stack with_vertices]. split; [done|]. split.
        -- destruct Hm as (es2 & e & ec & Hes2 & He & Hec & [[_ ->]|(-> & _)]); [done|]. exfalso. destruct Hlk as (p & t & e' & He' & _ & _ & _ & Hc).
           unfold active_edge in He'. rewrite Hes2, option_bind_Some, He in He'. injection He' as <-. rewrite Hc, (vec_at_set _ _ _ _ _ Eset), decide_True in Hec by done. injection Hec as Hec. congruence.
        -- apply elem_of_app in Hf as [Hf|Hf%list_elem_of_singleton]; [right; by exists f|subst f; by left].
    + specialize (Hw 2%nat (fun _ => 1%nat) 1%nat). lia.
Qed.

(** ** A leaf *)

(** Drawing the path to a leaf: some pending subtrees get nodes, the others are plain and are cleared. *)
Lemma leaf_drawn nfa h gen g inv f capacity rev tooBig R :
  stack_ok h gen g (inv ++ [f]) -> 0 <= R -> drawn nfa (left_in h) (gen ++ [g]) rev (acosts h (g :: inv) + R) anything ->
  exists nfa' h' gen' g' rev' i1 i2, inv = i1 ++ i2
    /\ (s1 ← generateInfixUnsuitableForReverseSuffixTree alphabet actions (mkSubtrees nfa h (gen ++ g :: inv ++ [f]) capacity rev tooBig);
        generateSuffixWithReverseSuffixTree alphabet actions s1) = Some (mkSubtrees nfa' h' (gen' ++ [g']) capacity rev' tooBig)
    /\ Forall2 same_frame (gen' ++ [g']) (gen ++ g :: i1) /\ Forall (plain actions h) i2 /\ heap_le h' h
    /\ (forall v, h'.[v] = if decide (v ∈ map as_vertex i2) then Some [] else h.[v])
    /\ drawn nfa' (left_in h) (gen' ++ [g']) rev' R (fun sk kd => covered sk (as_vertex f)).
Proof.
  intros Hok HR Hd. pose proof Hok as [Hle Hab Hfi Hch Hra Hge Hma Hpe]. unfold generateInfixUnsuitableForReverseSuffixTree. cbn [s_stack].
  replace (length (gen ++ g :: inv ++ [f]) - 1)%nat with (length gen + S (length inv))%nat by (rewrite length_app; cbn; rewrite length_app; cbn; lia).
  destruct (infix_loop_spec alphabet actions h0 Hwf0 Hkeys Hgroups h (left_in h) rev capacity tooBig gen g inv [f] nfa R Hle) as (nfa1 & gen1 & g1 & i1 & i2 & -> & Hrun & Hsame & Hpl & Hd1); try done.
  { apply (chain_tail _ _ gen). apply (chain_init _ _ _ [f]). by rewrite <- (assoc_L (++)). }
  { rewrite list_snoc_middle in Hra. apply Forall_app in Hra as [_ Hra]. apply Forall_app in Hra as [Hra _]. eapply Forall_impl; [exact Hra|]. intros x (es & Hes & _). by exists es. }
  rewrite Hrun, option_bind_Some. assert (Hsame' : Forall2 same_frame (gen1 ++ g1 :: i2 ++ [f]) (gen ++ g :: (i1 ++ i2) ++ [f])).
  { rewrite (list_snoc_middle gen1), <- (assoc_L (++) i1), app_comm_cons, (assoc_L (++) gen). apply Forall2_app; [done|reflexivity]. }
  assert (Hsym : Forall2 same_frame (gen ++ g :: (i1 ++ i2) ++ [f]) (gen1 ++ g1 :: i2 ++ [f])) by by symmetry.
  assert (Hg1 : exists x, x ∈ gen ++ g :: (i1 ++ i2) ++ [f] /\ as_vertex x = as_vertex g1).
  { apply Forall2_app_inv_l in Hsame' as (l1 & l2 & _ & Hl2 & ->). inversion Hl2 as [|? x ? ? [Hx _] _]; subst. exists x. split; [apply elem_of_app; right; by left|done]. }
  destruct Hg1 as (x & Hx & Hxv). destruct (stack_path _ _ _ _ _ Hok Hx) as [ts Hts]. rewrite Hxv in Hts.
  destruct (generateSuffix_spec alphabet actions h0 Hwf0 Hkeys Hgroups nfa1 (left_in h) gen1 g1 i2 f h capacity rev tooBig (rts ++ ts) R Hle) as (nfa2 & h2 & g2 & rev2 & Hrun2 & Hsf & Hle2 & Hat & Hd2); try done.
  { by eapply chain_same. }
  { rewrite <- (assoc_L (++)) in Hpe. by apply Forall_app in Hpe as [_ Hpe]. }
  { by eapply tree_path_app. }
  exists nfa2, h2, gen1, g2, rev2, i1, i2. split; [done|]. split; [done|]. split; [|done]. etrans; [|exact Hsame]. apply Forall2_app; [reflexivity|]. by constructor.
Qed.

(** The plain path to the leaf leads nowhere else. *)
Lemma plain_path h l f : Forall (plain actions h) l -> chain h (l ++ [f]) -> h.[as_vertex f] = Some [] ->
  forall v t u, tree_edge (tree h) v t u -> v ∈ map as_vertex (l ++ [f]) -> u ∈ map as_vertex (l ++ [f]).
Proof.
  intros Hpl Hch Hf v t u (es & e & p & Hv & He & _ & _ & Hc) Hin. cbn [m_vertices] in Hv. induction l as [|x l IH].
  - apply list_elem_of_singleton in Hin. subst v. rewrite Hf in Hv. injection Hv as <-. by apply not_elem_of_nil in He.
  - apply Forall_cons in Hpl as [[_ [e0 Hx]] Hpl]. cbn [app map] in *. apply elem_of_cons in Hin as [->|Hin].
    + rewrite Hx in Hv. injection Hv as <-. apply list_elem_of_singleton in He. subst e0. right.
      destruct (l ++ [f]) as [|y l'] eqn:El; [by destruct l|]. destruct Hch as [(p' & t' & e' & He' & _ & _ & _ & Hc') _]. unfold active_edge in He'. rewrite Hx, option_bind_Some in He'.
      apply vec_at_Some in He' as [_ He'%list_elem_of_lookup_2]. apply list_elem_of_singleton in He'. subst e'. cbn. rewrite <- Hc, Hc'. by left.
    + right. apply IH; [done| |done]. destruct (l ++ [f]); [done|apply Hch].
Qed.

Lemma chain_lt h l1 l2 x y : heap_le h h0 -> chain h (l1 ++ l2) -> x ∈ l1 -> y ∈ l2 -> as_vertex x < as_vertex y.
Proof.
  intros Hle Hch Hx Hy. apply list_elem_of_split in Hy as (a & b & ->). rewrite (list_snoc_middle a), !(assoc_L (++)) in Hch. apply chain_init in Hch.
  pose proof (chain_increasing alphabet actions h0 Hwf0 _ _ _ Hle Hch) as Hinc. rewrite Forall_forall in Hinc. apply Hinc, elem_of_app. by left.
Qed.

Lemma chain_active h l f x : chain h (l ++ [f]) -> x ∈ l -> exists e, active_edge h x = Some e.
Proof.
  intros Hch Hx. apply list_elem_of_split in Hx as (a & b & ->). rewrite <- (assoc_L (++)) in Hch. apply chain_tail in Hch. cbn in Hch.
  destruct (b ++ [f]) as [|y l'] eqn:El; [by destruct b|]. destruct Hch as [(p & t & e & He & _) _]. by exists e.
Qed.

Lemma same_frames_vertex (l l' : list active) : Forall2 same_frame l l' -> map as_vertex l = map as_vertex l'.
Proof. induction 1 as [|x y l l' [Hv _] _ IH]; [done|]. cbn. by rewrite Hv, IH. Qed.

Lemma same_frames_in (l l' : list active) x : Forall2 same_frame l l' -> x ∈ l' -> exists y, y ∈ l /\ same_frame y x.
Proof. intros Hl [i Hi]%list_elem_of_lookup. destruct (Forall2_lookup_r _ _ _ _ _ Hl Hi) as (y & Hy & Hs). exists y. split; [by eapply list_elem_of_lookup_2|done]. Qed.

(** The stack after a leaf is drawn. *)
Lemma leaf_stack h gen g i1 i2 f gen' g' h' :
  stack_ok h gen g ((i1 ++ i2) ++ [f]) -> Forall2 same_frame (gen' ++ [g']) (gen ++ g :: i1) -> heap_le h' h ->
  (forall v, h'.[v] = if decide (v ∈ map as_vertex i2) then Some [] else h.[v]) ->
  stack_ok h' gen' g' [] /\ chain h (gen' ++ g' :: i2 ++ [f]) /\ Forall (fun x => h'.[as_vertex x] = h.[as_vertex x]) (gen' ++ [g']).
Proof.
  intros Hok Hsame Hle' Hat. pose proof Hok as [Hle Hab Hfi Hch Hra Hge Hma Hpe].
  assert (Hall : Forall2 same_frame (gen' ++ g' :: i2 ++ [f]) (gen ++ g :: (i1 ++ i2) ++ [f])).
  { rewrite (list_snoc_middle gen'), <- (assoc_L (++) i1), app_comm_cons, (assoc_L (++) gen). apply Forall2_app; [done|reflexivity]. }
  assert (Hch' : chain h (gen' ++ g' :: i2 ++ [f])) by (eapply chain_same; [by symmetry|exact Hch]).
  assert (Hkeep : Forall (fun x => h'.[as_vertex x] = h.[as_vertex x]) (gen' ++ [g'])).
  { apply Forall_forall. intros x Hx. rewrite Hat, decide_False; [done|]. intros (y & Hxy & Hy)%list_elem_of_fmap. rewrite list_snoc_middle in Hch'.
    pose proof (chain_lt _ _ _ x y Hle Hch' Hx ltac:(apply elem_of_app; by left)). lia. }
  split; [|done]. rewrite (list_snoc_middle gen') in Hch'. assert (Hfront : forall x, x ∈ gen' ++ [g'] -> exists y, y ∈ gen ++ g :: i1 /\ same_frame x y).
  { intros x Hx. destruct (same_frames_in _ _ x (symmetry Hsame) Hx) as (y & Hy & Hs). exists y. split; [done|by symmetry]. }
  split; try done.
  - by etrans.
  - intros u Hu. rewrite Hat, decide_False; [by apply Hab|]. intros (y & -> & Hy)%list_elem_of_fmap. assert (Hyin : y ∈ gen ++ g :: (i1 ++ i2) ++ [f]) by set_solver.
    pose proof (stack_vertex_ge _ _ _ _ y Hok Hyin). lia.
  - rewrite (same_frames_vertex _ _ Hsame). rewrite <- Hfi. by destruct gen.
  - apply (chain_init _ _ (gen' ++ [g'])) in Hch'. apply Forall_app in Hkeep as [Hkeep _]. by eapply chain_heap.
  - apply Forall_forall. intros x Hx. rewrite Forall_forall in Hkeep. specialize (Hkeep x Hx). destruct (Hfront x Hx) as (y & Hy & Hv & Hi). rewrite Forall_forall in Hra.
    destruct (Hra y ltac:(set_solver)) as (es & Hes & Hk). exists es. by rewrite Hkeep, Hv, Hi.
  - apply Forall_forall. intros x Hx. rewrite Forall_forall in Hkeep. rewrite (Hkeep x Hx). rewrite (assoc_L (++)) in Hch'. destruct (chain_active _ _ _ x Hch') as [e He]; [set_solver|].
    intros Hnil. unfold active_edge in He. rewrite Hnil, option_bind_Some in He. by apply vec_at_lt in He; cbn in He; lia.
  - intros u es j e Hu Hj He. rewrite Hat in Hu. destruct (decide (u ∈ map as_vertex i2)); [injection Hu as <-; by apply vec_at_lt in Hj; cbn in Hj; lia|].
    destruct (Hma u es j e Hu Hj He) as (x & Hx & Hxu & Hxj). destruct (same_frames_in _ _ x Hsame) as (y & Hy & Hv & Hi); [set_solver|]. exists y. rewrite Hv, Hi. done.
Qed.

(** What the drawing of a leaf and the mark take from the tree. *)
Lemma left_leaf h gen' g' i2 f h' h'' :
  Forall (plain actions h) i2 -> chain h (gen' ++ g' :: i2 ++ [f]) -> h.[as_vertex f] = Some [] -> Forall (fun x => h'.[as_vertex x] = h.[as_vertex x]) (gen' ++ [g']) ->
  (forall v, h'.[v] = if decide (v ∈ map as_vertex i2) then Some [] else h.[v]) -> marked h' g' h'' ->
  (live_edges h'' < live_edges h')%nat /\ forall u, left_in h u -> left_in h'' u \/ u ∈ map as_vertex (i2 ++ [f]).
Proof.
  intros Hpl Hch Hf Hkeep Hat Hm. pose proof (chain_tail _ _ _ _ Hch) as Hch2. assert (Hhd : exists y, linked h' g' y /\ y ∈ i2 ++ [f] /\ h'.[as_vertex y] = Some []).
  { destruct (i2 ++ [f]) as [|y l] eqn:El; [by destruct i2|]. exists y. cbn in Hch2. destruct Hch2 as [(p & t & Hen) _]. split; [|split; [by left|]].
    - exists p, t. eapply enters_heap; [|done]. apply Forall_app in Hkeep as [_ [Hk _]%Forall_cons]. done.
    - rewrite Hat. destruct (decide _) as [|Hn]; [done|]. destruct i2 as [|z i2]; cbn in El; injection El as <- _; [done|]. destruct Hn. by left. }
  destruct Hhd as (y & Hlk & Hy & Hye). split.
  - destruct Hm as (es & e & ec & Hes & He & Hec & Hcase). destruct Hlk as (p & t & e' & He' & Hp & _ & _ & Hc). unfold active_edge in He'. rewrite Hes, option_bind_Some, He in He'. injection He' as <-.
    rewrite Hc, Hye in Hec. injection Hec as <-. destruct Hcase as [[? _]|(_ & es' & Hset & Hh)]; [done|]. eapply live_edges_lt; [exact Hes| |exact Hh]. eapply mark_live; [exact He|by eexists|exact Hset].
  - intros u Hu. assert (Hg : left_in h' u \/ u ∈ map as_vertex (i2 ++ [f])).
    { revert u Hu. apply left_change.
      - intros v t u (es & e & p & Hv & Hrest) Hn. left. exists es, e, p. split; [|done]. cbn [m_vertices] in *. rewrite Hat, decide_False; [done|]. intros Hin. apply Hn. rewrite map_app. apply elem_of_app. by left.
      - apply plain_path; [done| |done]. by apply (chain_tail _ _ [g']) in Hch2. }
    destruct Hg as [Hg|]; [|by right]. destruct (left_marked _ _ _ _ Hlk Hm u Hg) as [?| ->]; [by left|right]. by apply list_elem_of_fmap_2.
Qed.

Lemma step_leaf s gen g inv f :
  state_ok s gen g (inv ++ [f]) -> (s_vertices s).[as_vertex f] = Some [] ->
  exists s', (vertices ← vec_set (s_vertices s) (as_vertex f) (remove_marked []);
              s1 ← (s1 ← generateInfixUnsuitableForReverseSuffixTree alphabet actions (with_vertices s vertices);
                    s1 ← generateSuffixWithReverseSuffixTree alphabet actions s1;
                    Some (if maxNFASize <? vlen (nfa_nodes (s_nfa s1)) then mkSubtrees (s_nfa s1) (s_vertices s1) (s_stack s1) (s_capacity s1) (s_reverse s1) true else s1));
              mark_and_advance s1) = Some s'
    /\ step_result (fuel_weight (s_vertices s) (low gen g (inv ++ [f])) (top g (inv ++ [f]))) s'.
Proof.
  intros [Hs Hok Hdr Hpr] Hes. rewrite low_snoc, top_snoc in *. change (remove_marked []) with (@nil PrefixTreeEdge). rewrite (vec_set_same _ _ _ Hes), option_bind_Some.
  assert (Hnw : with_vertices s (s_vertices s) = mkSubtrees (s_nfa s) (s_vertices s) (gen ++ g :: inv ++ [f]) (s_capacity s) (s_reverse s) (s_nfaTooBig s)) by (rewrite <- Hs; done). rewrite Hnw.
  set (h := s_vertices s) in *. change (removelast (g :: inv ++ [f])) with (removelast ((g :: inv) ++ [f])) in Hdr. rewrite removelast_last in Hdr.
  destruct (leaf_drawn (s_nfa s) h gen g inv f (s_capacity s) (s_reverse s) (s_nfaTooBig s) _ Hok ltac:(apply Nat2Z.is_nonneg) Hdr) as (nfa' & h' & gen' & g' & rev' & i1 & i2 & -> & Hrun & Hsame & Hpl & Hle' & Hat & Hd').
  destruct (leaf_stack _ _ _ _ _ _ _ _ _ Hok Hsame Hle' Hat) as (Hok' & Hch' & Hkeep).
  destruct (generateInfixUnsuitableForReverseSuffixTree _ _ _) as [s1|] eqn:E1; [|done]. rewrite option_bind_Some in Hrun |- *. rewrite Hrun, !option_bind_Some. cbn [s_nfa s_vertices s_stack s_capacity s_reverse].
  set (big := if maxNFASize <? vlen (nfa_nodes nfa') then true else s_nfaTooBig s).
  assert (Hbig : (if maxNFASize <? vlen (nfa_nodes nfa') then mkSubtrees nfa' h' (gen' ++ [g']) (s_capacity s) rev' true else mkSubtrees nfa' h' (gen' ++ [g']) (s_capacity s) rev' (s_nfaTooBig s))
    = mkSubtrees nfa' h' (gen' ++ [g']) (s_capacity s) rev' big) by (unfold big; by destruct (maxNFASize <? _)). rewrite Hbig. clear Hbig.
  assert (Hlk : exists y, linked h' g' y).
  { apply (chain_tail _ _ gen') in Hch' as Hc. destruct (i2 ++ [f]) as [|y l] eqn:El; [by destruct i2|]. destruct Hc as [(p & t & Hen) _]. exists y, p, t. eapply enters_heap; [|done].
    apply Forall_app in Hkeep as [_ [Hk _]%Forall_cons]. done. }
  destruct Hlk as [y Hlk]. pose proof (st_range _ _ _ _ Hok') as Hr. apply Forall_app in Hr as [_ [Hr _]%Forall_cons]. pose proof Hr as (e1 & He1 & Hk1).
  destruct (mark_and_advance_spec (mkSubtrees nfa' h' (gen' ++ [g']) (s_capacity s) rev' big) gen' g' y) as (h'' & Hm & Hrun2); [done|apply (st_heap _ _ _ _ Hok')|done|done|].
  rewrite Hrun2. eexists. split; [done|]. cbn [s_vertices] in Hm. destruct (marked_heap _ _ _ (proj1 Hk1) Hm) as (Hle'' & Hat'' & Hdrop'').
  destruct (left_leaf _ _ _ _ _ _ _ Hpl Hch' Hes Hkeep Hat Hm) as [Hlive Hleft].
  assert (Hw : forall vw ew c, (weight vw ew c h'' gen' (with_index g' (as_edgeIndex g' + 1)) + c <= weight vw ew c h (gen ++ g :: i1 ++ i2) f)%nat).
  { intros vw ew c. rewrite app_comm_cons, (assoc_L (++)). apply Forall2_app_inv_l in Hsame as (l & lx & Hl & Hx & Hlx). inversion Hx as [|? x ? ? [Hv Hi] Hnil]; subst. inversion Hnil; subst.
    rewrite Hlx, <- (assoc_L (++)). cbn [app]. apply Forall_app in Hkeep as [Hkeep [Hkg _]%Forall_cons].
    apply weight_pop; [done|done|cbn; lia|lia| |by rewrite <- Hv, <- Hi, Hdrop'', Hkg].
    pose proof (chain_increasing alphabet actions h0 Hwf0 _ _ _ (st_heap _ _ _ _ Hok') (st_chain _ _ _ _ Hok')) as Hinc. rewrite Forall_forall in *. intros z Hz. specialize (Hinc z Hz). cbn in Hinc.
    rewrite Hat'' by lia. by apply Hkeep. }
  left. exists gen', (with_index g' (as_edgeIndex g' + 1)), []. unfold low, top. cbn [removelast last default from_option s_vertices with_stack with_vertices]. rewrite app_nil_r. split.
  - split; cbn [s_stack s_vertices s_nfa s_reverse with_stack with_vertices].
    + done.
    + by eapply stack_ok_mark.
    + unfold low, top. cbn [removelast last default from_option acosts foldr]. rewrite app_nil_r. apply (drawn_same _ _ (gen' ++ [g'])); [by rewrite !map_app|by rewrite !map_app|].
      eapply drawn_left; [|eapply drawn_weaken; [done| |exact Hd']]; [|specialize (Hw 0%nat ecost 0%nat); lia]. intros sk kd ts u Hcov _ Hu. cbn beta in Hcov.
      destruct (Hleft u Hu) as [?|Hgone]; [by left|right]. rewrite map_app in Hgone. apply elem_of_app in Hgone as [Hgone|Hgone%list_elem_of_singleton]; [|by subst u].
      apply list_elem_of_fmap in Hgone as (x & -> & Hx). rewrite Forall_forall in Hpl. destruct (Hpl x Hx) as [Hnone _]. intros ts' w a _ _ Ha. unfold actions_get in Ha. rewrite Hnone in Ha. by apply not_elem_of_nil in Ha.
    + right. cbn [s_vertices with_stack with_vertices]. pose proof (live_edges_le _ _ (st_heap _ _ _ _ Hok')). lia.
  - specialize (Hw 2%nat (fun _ => 1%nat) 1%nat). lia.
Qed.

(** ** The loop *)

(** The edge at the top is not marked. *)
Lemma top_edge h gen g inv es e :
  stack_ok h gen g inv -> h.[as_vertex (top g inv)] = Some es -> es.[as_edgeIndex (top g inv)] = Some e -> exists p t, e_term e = Some p /\ alphabet.[p] = Some t.
Proof.
  intros [Hle Hab Hfi Hch Hra Hge Hma Hpe] Hes He. destruct (e_term e) as [p|] eqn:Ep.
  - destruct (heap_le_at _ _ _ _ Hle Hes) as (es0 & Hes0 & Ht). apply vec_at_Some in He as [_ He%list_elem_of_lookup_2]. destruct (trimmed_in _ _ _ Ht He) as (e0 & He0 & _ & [Hx|Hx]); [|congruence].
    destruct (wt_terms _ Hwf0 _ _ _ Hes0 He0) as (p0 & t & Hp0 & Ht0). exists p, t. split; [done|]. cbn in Ht0. congruence.
  - exfalso. destruct (Hma _ _ _ _ Hes He Ep) as (x & Hx & Hv & Hi). assert (Hin : x ∈ gen ++ g :: inv) by set_solver. rewrite low_top in Hin, Hch.
    apply elem_of_app in Hin as [Hin|Hin%list_elem_of_singleton]; [|subst x; lia]. pose proof (chain_increasing alphabet actions h0 Hwf0 _ _ _ Hle Hch) as Hinc.
    rewrite Forall_forall in Hinc. specialize (Hinc x Hin). lia.
Qed.

Lemma subtree_step_spec s gen g inv :
  state_ok s gen g inv -> exists s', subtree_step alphabet actions maxNFASize s = Some s' /\ step_result (fuel_weight (s_vertices s) (low gen g inv) (top g inv)) s'.
Proof.
  intros Hst. pose proof Hst as [Hs Hok _ _]. unfold subtree_step. assert (Htop : (s_stack s).[vlen (s_stack s) - 1] = Some (top g inv)) by (rewrite Hs; apply stack_top).
  rewrite Htop, option_bind_Some. pose proof (st_range _ _ _ _ Hok) as Hra. rewrite low_top in Hra. apply Forall_app in Hra as [_ [(es & Hes & Hk) _]%Forall_cons].
  rewrite Hes, option_bind_Some. pose proof (heap_size _ _ _ (st_heap _ _ _ _ Hok) Hes) as Hsz. destruct (Z.ltb_spec (as_edgeIndex (top g inv)) (vlen es)) as [Hlt|Hge].
  - destruct (vec_at_is_Some es (as_edgeIndex (top g inv))) as [e He]; [lia|]. rewrite He, option_bind_Some. destruct (s_nfaTooBig s) eqn:Ebig.
    + rewrite u32_small by lia. destruct (step_pass s gen g inv es e (vlen es) Hst Hes He) as (stack & Hset & Hres); [lia|by left|]. rewrite Hset, option_bind_Some. by eexists.
    + destruct (top_edge _ _ _ _ _ _ Hok Hes He) as (p & t & Hp & Ht). assert (Het : edge_term alphabet e = Some t) by (unfold edge_term; by rewrite Hp). rewrite Het, option_bind_Some.
      destruct (hasFixedLength t) eqn:Ef; cbn [negb].
      * eexists. split; [done|]. by eapply step_push.
      * rewrite u32_small by lia. destruct (step_pass s gen g inv es e (as_edgeIndex (top g inv) + 1) Hst Hes He) as (stack & Hset & Hres); [lia| |].
        { right. split; [done|]. intros t'. rewrite Het. by intros [= <-]. }
        rewrite Hset, option_bind_Some. by eexists.
  - destruct (decide (es = [])) as [->|Hne].
    + destruct inv as [|f inv _] using rev_ind.
      { exfalso. pose proof (st_gen _ _ _ _ Hok) as Hge'. apply Forall_app in Hge' as [_ [Hg' _]%Forall_cons]. by apply Hg'. }
      rewrite top_snoc in *. destruct (step_leaf s gen g inv f Hst Hes) as (s' & Hrun & Hres). exists s'. rewrite top_snoc in Hres. split; [|done]. rewrite <- Hrun.
      destruct (vec_set _ _ _); [|done]. rewrite !option_bind_Some. by rewrite bool_decide_eq_true_2.
    + assert (Hpop : exists s', (vertices ← vec_set (s_vertices s) (as_vertex (top g inv)) (remove_marked es); s1 ← stack_shrink (with_vertices s vertices) (length (s_stack s) - 1); mark_and_advance s1) = Some s'
        /\ step_result (fuel_weight (s_vertices s) (low gen g inv) (top g inv)) s').
      { destruct inv as [|f inv _] using rev_ind; [by apply step_pop_node|]. rewrite top_snoc in *. destruct (step_pop_pending s gen g inv f es Hst Hes Hne Hge) as (s' & Hrun & Hres). exists s'.
        rewrite top_snoc in Hres. by split. }
      destruct Hpop as (s' & Hrun & Hres). exists s'. split; [|done]. rewrite <- Hrun. destruct (vec_set _ _ _); [|done]. rewrite !option_bind_Some. by rewrite bool_decide_eq_false_2.
Qed.

Lemma subtree_loop_spec fuel : forall s, step_result (S fuel) s -> exists s', subtree_loop alphabet actions maxNFASize fuel s = Some s' /\ done_ok s'.
Proof.
  induction fuel as [|fuel IH]; intros s [(gen & g & inv & Hst & Hw)|Hd].
  - unfold weight in Hw. lia.
  - exists s. cbn. rewrite (do_stack _ Hd). done.
  - destruct (subtree_step_spec _ _ _ _ Hst) as (s' & Hstep & Hres). cbn [subtree_loop]. rewrite Hstep, option_bind_Some.
    assert (Hun : forall A (x y : A), match s_stack s with [] => x | _ => y end = y) by (intros A x y; rewrite (so_stack _ _ _ _ Hst); by destruct gen). rewrite Hun. apply IH.
    destruct Hres as [(gen' & g' & inv' & Hst' & Hw')|]; [left|by right]. exists gen', g', inv'. split; [done|lia].
  - exists s. cbn. rewrite (do_stack _ Hd). done.
Qed.
End Loop.
