(* ===== verification/ProcessCorrect.v ===== *)
(** * The NFAs of a prefix tree

    Every round of [processNFAs] takes something from the tree, and what it
    takes is what its NFA accepts; so all the rounds together accept what the
    tree stood for. *)

From stdpp Require Import gmap.
From S2P Require Import Prelude Bits DFA RangeList RangeListCorrect HashSet NFA NFACorrect NFAToDFA SubsetCorrect Term TermLanguage Fragments TermGraph CombinedURLFilters PrefixTree ProcessNFAs TreeHeap Skeleton SubtreeSemantics SubtreeDrawing SubtreeLoop.

Section Round.
Context {NS AS : Type} `{HashSetLaws NS} `{HashSetLaws AS}.
Variables (alphabet : list Term) (actions : gmap Z (list Z)) (maxNFASize : Z) (h0 : list PrefixTreeEdges).

Abbreviation tree hp := (mkFilters alphabet hp actions).
Abbreviation acts v := (actions_get actions v).
Abbreviation active := (@ActiveSubtree NS AS).
Abbreviation covered := (covered alphabet actions h0).
Abbreviation drawn := (drawn (NS := NS) (AS := AS) alphabet actions h0).
Abbreviation ecost := (ecost alphabet).
Abbreviation node_weight := (wt 0 ecost).

Implicit Types (h : list PrefixTreeEdges) (es : PrefixTreeEdges).

Hypothesis Hwf0 : wf_tree (tree h0).
Hypothesis Hkeys : forall v, Forall (hs_key (T := AS)) (acts v).
Hypothesis Hgroups : forall u t c, tree_edge (tree h0) u t c -> hasFixedLength t = true -> no_empty_group t.
Hypothesis Hsizes : Forall (fun es => vlen es < 2 ^ 32) h0.

(** ** The subtree *)

Lemma generateNFAForSubtree_spec nfa (b : NodeBuilder NS AS) root rts prefix es cost :
  tree_path (tree h0) m_prefixTreeRoot rts root -> h0.[root] = Some es -> es <> [] -> to_leaf alphabet h0 root -> Z.of_nat (node_weight h0 root) <= cost ->
  drawn nfa (left_in alphabet actions prefix h0) [mkActive root b 0] newReverseTrees cost anything ->
  exists s : @Subtrees NS AS, generateNFAForSubtree alphabet actions maxNFASize nfa b root h0 = Some (s_nfa s, s_vertices s, movedFrom b)
    /\ done_ok alphabet actions h0 root prefix s.
Proof.
  intros Hroot Hes Hne Hleaf Hcost Hd. unfold generateNFAForSubtree. rewrite Hes, option_bind_Some, bool_decide_eq_false_2 by done.
  pose proof (dr_live _ _ _ _ _ _ _ _ _ Hd) as [[Hv Heps] _]%Forall_cons. cbn in Heps. unfold stack_append. cbn [s_stack length s_capacity s_nfa s_vertices s_reverse s_nfaTooBig map app]. change (Z.of_nat 0 =? 0) with true. cbv iota.
  unfold moveActive. cbn [as_nfaNode]. rewrite (moveConstruct_same b Heps), (moveConstruct_same b Heps). unfold with_node. cbn [as_vertex as_edgeIndex].
  set (g := mkActive root b 0) in *. set (s0 := mkSubtrees _ _ _ _ _ _). pose proof (children_ok_0 alphabet actions h0 Hwf0) as Hch.
  assert (Hst : state_ok alphabet actions h0 root prefix s0 [] g []).
  { split; cbn [s_stack s_vertices s_nfa s_reverse s0].
    - done.
    - split; try done.
      + constructor; [|done]. exists es. cbn. split; [done|lia].
      + constructor; [|done]. cbn. congruence.
      + intros u eu j e Hu Hj He. exfalso. apply vec_at_Some in Hj as [_ Hj%list_elem_of_lookup_2]. destruct (wt_terms _ Hwf0 _ _ _ Hu Hj) as (p & t & Hp & _). congruence.
    - unfold low, top. cbn. eapply drawn_weaken; [done| |exact Hd]. unfold weight, rest. cbn [lower foldr as_edgeIndex as_vertex g Z.to_nat Nat.add]. rewrite Hes. cbn [default from_option]. change (id es) with es.
      rewrite drop_0. rewrite (wt_unfold 0 ecost h0 root es Hch Hes) in Hcost. lia.
    - left. split; [done|]. split; [done|]. left. by apply to_leaf_ahead. }
  destruct (subtree_loop_spec alphabet actions h0 maxNFASize Hwf0 Hkeys Hgroups Hsizes root rts prefix Hroot (turns (length h0) h0 root) s0) as (s & Hrun & Hdone).
  { left. exists [], g, []. split; [done|]. unfold low, top, weight, rest. cbn [lower foldr as_edgeIndex as_vertex g Z.to_nat Nat.add removelast app last default from_option s_vertices s0]. rewrite Hes.
    cbn [default from_option]. change (id es) with es. rewrite drop_0, turns_weigh. change (weigh 2 (fun _ => 1%nat) (length h0) h0 root) with (wt 2 (fun _ => 1%nat) h0 root).
    rewrite (wt_unfold 2 _ h0 root es Hch Hes). lia. }
  rewrite Hrun, option_bind_Some. by exists s.
Qed.

(** ** The prefix *)

(** The path of last edges. *)
Fixpoint last_path (h : list PrefixTreeEdges) (l : list Z) : Prop :=
  match l with
  | v :: ((w :: _) as l) => (exists e t, last_edge h v = Some e /\ edge_term alphabet e = Some t /\ e_child e = w) /\ last_path h l
  | _ => True
  end.

Lemma last_edge_in h v e : last_edge h v = Some e -> exists es, h.[v] = Some es /\ es.[vlen es - 1] = Some e.
Proof. unfold last_edge. destruct (h.[v]) as [es|]; [|done]. rewrite option_bind_Some. intros He. by exists es. Qed.

Lemma last_edge_tree h v e t : last_edge h v = Some e -> edge_term alphabet e = Some t -> tree_edge (tree h) v t (e_child e).
Proof.
  intros (es & Hes & He)%last_edge_in Ht. unfold edge_term in Ht. destruct (e_term e) as [p|] eqn:Ep; [|done]. rewrite option_bind_Some in Ht.
  apply vec_at_Some in He as [_ He%list_elem_of_lookup_2]. by exists es, e, p.
Qed.

Lemma last_edge_weight h v e : children_ok h -> last_edge h v = Some e -> (ecost e + node_weight h (e_child e) <= node_weight h v)%nat.
Proof.
  intros Hc (es & Hes & He)%last_edge_in. rewrite (wt_unfold 0 ecost h v es Hc Hes). apply vec_at_Some in He as [_ He]. rewrite <- (take_drop_middle es _ e He). rewrite ews_app, ews_cons. lia.
Qed.

(** One term of the prefix. *)
Lemma draw_prefix_term nfa lf (g d : active) t rev R :
  tree_edge (tree h0) (as_vertex g) t (as_vertex d) -> 0 <= R -> drawn nfa lf [g] rev (term_nodes t + 1 + R) anything ->
  exists nfa1 b1 e nfa2, generateGraphWithActions t nfa (as_nfaNode g) (acts (as_vertex d)) = Some (nfa1, b1, e) /\ moveAssign nfa1 b1 e = Some (nfa2, e)
    /\ drawn nfa2 (fun u => lf u /\ u <> as_vertex g) [with_node d e] rev R anything.
Proof.
  intros Hedge HR [Hb Hl Hr Hrv Ht Hs]. pose proof (term_nodes_nonneg t) as Hn.
  destruct (sem_infix alphabet actions h0 Hwf0 nfa lf [] g d t rev Hb) as (nfa1 & b1 & e & Hgen & HB & Heps & _ & Hn1 & Hle1 & Hsem); [unfold room in *; lia|apply Hkeys|done|].
  assert (Hp : [with_node g b1; with_node d e] ≡ₚ [with_node d e; with_node g b1]) by apply Permutation_swap.
  assert (HB' : builders_ok nfa1 (map as_nfaNode ([with_node d e] ++ [with_node g b1]))) by (eapply builders_perm; [|exact HB]; by apply Permutation_map).
  destruct (sem_finish alphabet actions h0 nfa1 lf [with_node d e] (with_node g b1) rev HB') as (nfa2 & Hde & HB2 & Hn2 & Hle2 & Hsem2). cbn [as_nfaNode with_node] in Hde.
  exists nfa1, b1, e, nfa2. split; [done|]. split; [unfold moveAssign; by rewrite Hde|].
  split; [done| |unfold room in *; lia|eapply rev_ranges_le; [|done]; lia|done|].
  - constructor; [|done]. split; [|done]. pose proof (bo_wf _ _ HB2) as [Hw _]%Forall_cons. apply Hw.
  - intros Hsm. assert (Hsm1 : nfa_small nfa1) by by eapply nfa_le_small. destruct (Hs ltac:(by eapply nfa_le_small)) as (sk & kd & Hse & _). destruct (Hsem sk kd Hsm1 Hse) as (sk' & kd' & Hse').
    pose proof (sem_perm _ _ _ _ _ _ _ _ _ _ Hp Hse') as Hse2. exists sk', kd'. split; [|done]. eapply sem_left; [by apply Hsem2|]. intros ts u Hpu Hu. cbn beta.
    destruct (decide (u = as_vertex g)) as [->|Hne]; [right|by left].
    destruct (se_gen _ _ _ _ _ _ _ _ _ Hse2 (with_node g b1)) as [_ [Hre Ha]]; [right; by left|]. intros ts' w a Hp' Hw Hin. eexists. split; [by eapply Hre|by apply Ha].
Qed.

Lemma draw_prefix l : forall v nfa b lf,
  last_path h0 (v :: l) -> drawn nfa lf [mkActive v b 0] newReverseTrees (Z.of_nat (node_weight h0 v)) anything ->
  exists edges nfa' b' lf', prefix_edges alphabet actions h0 (v :: l) = Some edges /\ generate_prefix edges nfa b = Some (nfa', b')
    /\ (forall u, lf' u <-> lf u /\ u ∉ removelast (v :: l))
    /\ drawn nfa' lf' [mkActive (default v (last l)) b' 0] newReverseTrees (Z.of_nat (node_weight h0 (default v (last l)))) anything.
Proof.
  pose proof (children_ok_0 alphabet actions h0 Hwf0) as Hc. induction l as [|w l IH]; intros v nfa b lf Hp Hd.
  - exists [], nfa, b, lf. split; [done|]. split; [done|]. split; [|done]. intros u. cbn. split; [intros Hu; split; [done|apply not_elem_of_nil]|by intros [? _]].
  - destruct Hp as [(e & t & He & Ht & Hw) Hp]. subst w. pose proof (last_edge_weight h0 v e Hc He) as Hwt. pose proof (last_edge_tree h0 v e t He Ht) as Hedge.
    assert (Hce : ecost e = Z.to_nat (term_nodes t + 1)) by (unfold SubtreeDrawing.ecost; by rewrite Ht). pose proof (term_nodes_nonneg t) as Hnn.
    destruct (draw_prefix_term nfa lf (mkActive v b 0) (mkActive (e_child e) defaultBuilder 0) t newReverseTrees (Z.of_nat (node_weight h0 (e_child e))) Hedge) as (nfa1 & b1 & e1 & nfa2 & Hgen & Hmove & Hd2); [lia| |].
    { eapply drawn_weaken; [done| |exact Hd]. lia. }
    destruct (IH (e_child e) nfa2 e1 _ Hp Hd2) as (edges & nfa' & b' & lf' & Hedges & Hrun & Hlf & Hd'). exists ((t, acts (e_child e)) :: edges), nfa', b', lf'. split; [|split; [|split]].
    + unfold prefix_edges in *. change (removelast (v :: e_child e :: l)) with (v :: removelast (e_child e :: l)). cbn [mapM]. rewrite He, option_bind_Some, Ht, !option_bind_Some.
      rewrite Hedges. done.
    + cbn [generate_prefix]. cbn [as_nfaNode as_vertex] in Hgen. rewrite Hgen, option_bind_Some, Hmove, option_bind_Some. done.
    + intros u. rewrite Hlf. change (removelast (v :: e_child e :: l)) with (v :: removelast (e_child e :: l)). rewrite not_elem_of_cons. cbn. tauto.
    + rewrite last_cons. destruct (last l); done.
Qed.

(** ** The way to a leaf and back *)

Lemma tree_edge_le h u t c : heap_le h h0 -> tree_edge (tree h) u t c -> tree_edge (tree h0) u t c.
Proof.
  intros Hle (es & e & p & Hu & He & Hp & Ht & Hc). cbn [m_vertices m_alphabet] in *. destruct (heap_le_at _ _ _ _ Hle Hu) as (es0 & Hes0 & Htr).
  destruct (trimmed_in _ _ _ Htr He) as (e0 & Hin & Hc0 & [Hte|Hte]); [|congruence]. exists es0, e0, p. rewrite <- Hte, <- Hc0. done.
Qed.

Lemma last_path_end h l v w : last_path h (l ++ [v; w]) <-> last_path h (l ++ [v]) /\ exists e t, last_edge h v = Some e /\ edge_term alphabet e = Some t /\ e_child e = w.
Proof. induction l as [|x [|y l] IH]; cbn in *; [tauto|tauto|]. rewrite IH. tauto. Qed.

Lemma last_path_init h l l' : last_path h (l ++ l') -> last_path h l.
Proof. induction l as [|x [|y l] IH]; [done|done|]. cbn [app last_path]. intros [Hx Hy]. split; [done|by apply IH]. Qed.

Lemma last_path_lt h l y : heap_le h h0 -> last_path h (l ++ [y]) -> Forall (fun x => x < y) l.
Proof.
  intros Hle. revert y. induction l as [|x l IH] using rev_ind; intros y Hp; [done|]. rewrite <- (assoc_L (++)) in Hp. apply last_path_end in Hp as [Hp (e & t & He & Ht & <-)].
  apply (last_edge_tree _ _ _ _ He), (tree_edge_le _ _ _ _ Hle), (tree_edge_range _ _ _ _ Hwf0) in Ht. specialize (IH x Hp). apply Forall_app. split; [|constructor; [lia|done]].
  eapply Forall_impl; [exact IH|]. cbn. lia.
Qed.

Lemma last_path_heap h h' l y : Forall (fun x => h'.[x] = h.[x]) l -> last_path h (l ++ [y]) -> last_path h' (l ++ [y]).
Proof.
  intros Hh. revert y. induction l as [|x l IH] using rev_ind; intros y Hp; [done|]. apply Forall_app in Hh as [Hh [Hx _]%Forall_cons]. rewrite <- (assoc_L (++)) in *.
  apply last_path_end in Hp as [Hp (e & t & He & Hr)]. apply last_path_end. split; [by apply IH|]. exists e, t. unfold last_edge in *. by rewrite Hx.
Qed.

Lemma last_path_tree l : forall v, last_path h0 (v :: l) -> exists ts, tree_path (tree h0) v ts (default v (last l)).
Proof.
  induction l as [|w l IH]; intros v Hp; [exists []; constructor|]. destruct Hp as [(e & t & He & Ht & <-) Hp]. destruct (IH _ Hp) as [ts Hts]. exists (t :: ts). rewrite last_cons.
  econstructor; [by apply last_edge_tree|]. destruct (last l); done.
Qed.

Lemma traverse_spec fuel : forall v, 0 <= v < vlen h0 -> (Z.to_nat (vlen h0 - v) < fuel)%nat ->
  exists l, traverse fuel h0 v = Some (v :: l) /\ last_path h0 (v :: l) /\ h0.[default v (last l)] = Some [].
Proof.
  induction fuel as [|fuel IH]; intros v Hv Hf; [lia|]. cbn [traverse]. destruct (vec_at_is_Some h0 v Hv) as [es Hes]. rewrite Hes, option_bind_Some. destruct (decide (es = [])) as [->|Hne].
  - rewrite bool_decide_eq_true_2 by done. by exists [].
  - rewrite bool_decide_eq_false_2 by done. destruct (vec_at_is_Some es (vlen es - 1)) as [e He]; [destruct es; [done|cbn; lia]|]. rewrite He, option_bind_Some.
    assert (Hlast : last_edge h0 v = Some e) by (unfold last_edge; by rewrite Hes). apply vec_at_Some in He as [_ He%list_elem_of_lookup_2]. destruct (wt_terms _ Hwf0 _ _ _ Hes He) as (p & t & Hp & Ht).
    pose proof (wt_edges _ Hwf0 _ _ _ Hes He) as Hr. cbn in Hr, Ht. destruct (IH (e_child e)) as (l & Hrun & Hpath & Hleaf); [lia|lia|]. rewrite Hrun, option_bind_Some.
    exists (e_child e :: l). split; [done|]. split.
    + split; [|done]. exists e, t. split; [done|]. split; [unfold edge_term; by rewrite Hp|done].
    + rewrite last_cons. destruct (last l); done.
Qed.

Lemma find_prefix_root_spec r : forall x, last_path h0 (rev (x :: r)) -> to_leaf alphabet h0 x ->
  exists r1 y r2, x :: r = r1 ++ y :: r2 /\ find_prefix_root alphabet h0 (x :: r) = Some (y :: r2) /\ to_leaf alphabet h0 y.
Proof.
  induction r as [|parent r IH]; intros x Hp Hx; [by exists [], x, []|]. cbn [rev] in Hp. rewrite <- (assoc_L (++)) in Hp. apply last_path_end in Hp as [Hp (e & t & He & Ht & Hc)].
  change (find_prefix_root alphabet h0 (x :: parent :: r)) with (edge ← last_edge h0 parent; term ← edge_term alphabet edge; if negb (hasFixedLength term) then Some (x :: parent :: r) else find_prefix_root alphabet h0 (parent :: r)).
  rewrite He, option_bind_Some, Ht, option_bind_Some. destruct (hasFixedLength t) eqn:Ef; cbn [negb]; [|by exists [], x, (parent :: r)].
  assert (Hparent : to_leaf alphabet h0 parent).
  { apply last_edge_in in He as (es & Hes & [_ He%list_elem_of_lookup_2]%vec_at_Some). unfold edge_term in Ht. destruct (e_term e) as [p|] eqn:Ep; [|done]. rewrite <- Hc in Hx. by eapply to_leaf_step. }
  destruct (IH parent Hp Hparent) as (r1 & y & r2 & Hr & Hrun & Hy). exists (x :: r1), y, r2. rewrite Hr. split; [done|]. split; [|done]. rewrite <- Hrun. by rewrite Hr.
Qed.

Definition all_unmarked h : Prop := forall u es, h.[u] = Some es -> unmarked es.

Lemma trimmed_removelast es : trimmed (removelast es) es.
Proof. induction es as [|e [|e' es] IH]; [constructor|apply trimmed_clear|]. change (removelast (e :: e' :: es)) with (e :: removelast (e' :: es)). by apply trimmed_keep. Qed.

Lemma removelast_unmarked es : unmarked es -> es <> [] -> unmarked (removelast es) /\ (length (remove_marked (removelast es)) < length (remove_marked es))%nat.
Proof.
  intros Hu Hne. destruct es as [|e es _] using rev_ind; [done|]. rewrite removelast_last. pose proof Hu as Hu'. apply Forall_app in Hu' as [Hu' _]. split; [done|].
  rewrite !remove_marked_id, length_app by done. cbn. lia.
Qed.

Lemma set_unmarked h u es h' : all_unmarked h -> unmarked es -> vec_set h u es = Some h' -> all_unmarked h'.
Proof. intros Hu Hes Hset v ev Hv. rewrite (vec_at_set _ _ _ _ _ Hset) in Hv. destruct (decide (u = v)); [by injection Hv as <-|by eapply Hu]. Qed.

(** Removing the last edge, to a vertex without edges. *)
Lemma remove_last_edge h v es e h' :
  h.[v] = Some es -> es.[vlen es - 1] = Some e -> h.[e_child e] = Some [] -> vec_set h v (removelast es) = Some h' ->
  forall ts u, tree_path (tree h) m_prefixTreeRoot ts u -> tree_path (tree h') m_prefixTreeRoot ts u \/ u ∈ [e_child e].
Proof.
  intros Hes He Hchild Hset. apply tree_path_change.
  - intros w t u (es1 & e1 & p & Hw & He1 & Hp & Ht & Hc) _. cbn [m_vertices m_alphabet] in *. pose proof (vec_at_set _ _ _ w _ Hset) as Hat. destruct (decide (v = w)) as [<-|Hne].
    + rewrite Hes in Hw. injection Hw as <-. destruct es as [|x es _] using rev_ind; [by apply not_elem_of_nil in He1|]. rewrite removelast_last in Hat.
      rewrite vec_at_mid' in He by (rewrite length_app; cbn; lia). injection He as ->. apply elem_of_app in He1 as [He1|He1%list_elem_of_singleton].
      * left. by exists es, e1, p.
      * right. subst e1. rewrite <- Hc. by left.
    + left. exists es1, e1, p. cbn [m_vertices]. by rewrite Hat.
  - intros w t u (es1 & e1 & p & Hw & He1 & _) ->%list_elem_of_singleton. cbn in Hw. rewrite Hchild in Hw. injection Hw as <-. by apply not_elem_of_nil in He1.
Qed.

Lemma clean_up_spec r : forall y h, heap_le h h0 -> all_unmarked h -> last_path h (rev (y :: r)) -> 0 <= y < vlen h0 ->
  exists h', clean_up h (y :: r) = Some h' /\ heap_le h' h /\ all_unmarked h' /\ (forall ts u, tree_path (tree h) m_prefixTreeRoot ts u -> tree_path (tree h') m_prefixTreeRoot ts u \/ u ∈ y :: r)
    /\ (h.[y] = Some [] -> r <> [] -> (live_edges h' < live_edges h)%nat).
Proof.
  induction r as [|parent r IH]; intros y h Hle Hun Hp Hy.
  { exists h. split; [done|]. split; [done|]. split; [done|]. split; [by left|done]. }
  cbn [rev] in Hp. rewrite <- (assoc_L (++)) in Hp. apply last_path_end in Hp as [Hp (e & t & He & Ht & Hc)]. pose proof (last_edge_in _ _ _ He) as (pes & Hpes & Hpe).
  change (clean_up h (y :: parent :: r)) with (edges ← h.[y]; if bool_decide (edges = []) then parentEdges ← h.[parent]; if bool_decide (parentEdges = []) then None else vertices ← vec_set h parent (removelast parentEdges); clean_up vertices (parent :: r) else Some h).
  destruct (vec_at_is_Some h y) as [es Hes]; [by rewrite (heap_le_length _ _ Hle)|]. rewrite Hes, option_bind_Some. destruct (decide (es = [])) as [->|Hne].
  2: { rewrite bool_decide_eq_false_2 by done. exists h. split; [done|]. split; [done|]. split; [done|]. split; [by left|]. congruence. }
  rewrite bool_decide_eq_true_2, Hpes, option_bind_Some by done. pose proof (vec_at_lt _ _ _ Hpe) as Hlt. assert (Hne : pes <> []) by (intros ->; cbn in Hlt; lia). rewrite bool_decide_eq_false_2 by done.
  pose proof (vec_at_lt _ _ _ Hpes) as Hrange. destruct (vec_set h parent (removelast pes)) as [h1|] eqn:Eset; [|by rewrite vec_set_Some in Eset]. rewrite option_bind_Some.
  pose proof (heap_le_set _ _ _ _ _ Hpes (trimmed_removelast pes) Eset) as Hle1. destruct (removelast_unmarked pes (Hun _ _ Hpes) Hne) as [Hum Hlen]. pose proof (last_path_lt _ _ _ Hle Hp) as Hinc.
  assert (Hp1 : last_path h1 (rev (parent :: r))).
  { cbn [rev]. eapply last_path_heap; [|exact Hp]. eapply Forall_impl; [exact Hinc|]. intros x Hx. cbn in Hx. rewrite (vec_at_set _ _ _ _ _ Eset), decide_False; [done|lia]. }
  destruct (IH parent h1 ltac:(by etrans) (set_unmarked _ _ _ _ Hun Hum Eset) Hp1) as (h' & Hrun & Hle' & Hun' & Hpath & _); [rewrite <- (heap_le_length _ _ Hle); lia|].
  exists h'. split; [done|]. split; [by etrans|]. split; [done|]. split.
  - intros ts u Hu. rewrite <- Hc in Hes. destruct (remove_last_edge _ _ _ _ _ Hpes Hpe Hes Eset ts u Hu) as [Hu1|Hu1%list_elem_of_singleton]; [|right; rewrite Hu1, Hc; by left].
    destruct (Hpath ts u Hu1) as [?|?]; [by left|right; by right].
  - intros _ _. pose proof (live_edges_lt _ _ _ _ _ Hpes Hlen Eset). pose proof (live_edges_le _ _ Hle'). lia.
Qed.

(** ** A round *)

(** The NFA accepts what has left the tree, and nothing that was not in it. *)
Record takes (nfa : NFA) (h : list PrefixTreeEdges) : Prop := {
  tk_wf : wf_nfa nfa;
  tk_live : live_nfa nfa;
  tk_nodes : 0 < vlen (nfa_nodes nfa);
  tk_sound w a : (exists j, leads_to nfa w j /\ accepts nfa j a) -> exists ts u, tree_path (tree h0) m_prefixTreeRoot ts u /\ seq_lang ts w /\ a ∈ acts u;
  tk_complete ts u w a : tree_path (tree h0) m_prefixTreeRoot ts u -> seq_lang ts w -> a ∈ acts u -> tree_path (tree h) m_prefixTreeRoot ts u \/ exists j, leads_to nfa w j /\ accepts nfa j a
}.

Lemma drawn_takes nfa lf rev cost h :
  drawn nfa lf [] rev cost anything -> (forall ts u, tree_path (tree h0) m_prefixTreeRoot ts u -> lf u -> tree_path (tree h) m_prefixTreeRoot ts u) -> nfa_small nfa -> takes nfa h.
Proof.
  intros Hd Hlf Hs. destruct (dr_sem _ _ _ _ _ _ _ _ _ Hd Hs) as (sk & kd & Hse & _). pose proof (se_bench _ _ _ _ _ _ _ _ _ Hse) as Hb. split.
  - apply (bn_wf _ _ _ Hb).
  - intros i l j He. apply (bn_target _ _ _ Hb i l j). by left.
  - assert (Hn : sk_node sk 0) by (apply (se_kind _ _ _ _ _ _ _ _ _ Hse); rewrite (se_start _ _ _ _ _ _ _ _ _ Hse); by eexists). apply (bn_node _ _ _ Hb) in Hn. lia.
  - by apply (sem_sound _ _ _ _ _ _ _ _ Hse).
  - intros ts u w a Hp Hw Ha. destruct (sem_complete _ _ _ _ _ _ _ _ Hse ts u w a Hp Hw Ha) as [Hl|?]; [left; by apply Hlf|by right].
Qed.

Lemma left_after prefix h h' : heap_le h h0 -> (forall ts u, tree_path (tree h) m_prefixTreeRoot ts u -> tree_path (tree h') m_prefixTreeRoot ts u \/ u ∈ prefix) ->
  forall ts u, tree_path (tree h0) m_prefixTreeRoot ts u -> left_in alphabet actions prefix h u -> tree_path (tree h') m_prefixTreeRoot ts u.
Proof.
  intros Hle Hh ts u Hp [Hu [ts' Hp']]. assert (Hp0 : tree_path (tree h0) m_prefixTreeRoot ts' u) by (eapply tree_path_mono; [|exact Hp']; intros; by eapply tree_edge_le).
  assert (ts = ts') as <- by by eapply path_unique. destruct (Hh ts u Hp'); done.
Qed.

(** Subtrees that have a node are drawn. *)
Lemma drawn_cover nfa lf gen (g : active) rev cost : drawn nfa lf gen rev cost anything -> g ∈ gen -> drawn nfa lf gen rev cost (fun sk kd => covered sk (as_vertex g)).
Proof.
  intros [Hb Hl Hr Hrv Ht Hs] Hg. split; try done. intros Hsm. destruct (Hs Hsm) as (sk & kd & Hse & _). exists sk, kd. split; [done|].
  destruct (se_gen _ _ _ _ _ _ _ _ _ Hse g Hg) as [_ [Hre Ha]]. intros ts w a Hp Hw Hin. eexists. split; [by eapply Hre|by apply Ha].
Qed.

(** What the code does once the NFA has the prefix. *)
Lemma finish_round nfa b y r :
  last_path h0 (rev (y :: r)) -> head (rev (y :: r)) = Some m_prefixTreeRoot -> to_leaf alphabet h0 y -> h0.[m_prefixTreeRoot] <> Some [] ->
  drawn nfa (left_in alphabet actions (y :: r) h0) [mkActive y b 0] newReverseTrees (Z.of_nat (node_weight h0 y)) anything ->
  exists nfa' h', ('(nfa, vertices, lastNode) ← generateNFAForSubtree alphabet actions maxNFASize nfa b y h0; nfa ← destroyBuilder nfa lastNode; vertices ← clean_up vertices (y :: r); Some (Some (nfa, vertices))) = Some (Some (nfa', h'))
    /\ heap_le h' h0 /\ all_unmarked h' /\ (live_edges h' < live_edges h0)%nat /\ (nfa_small nfa' -> takes nfa' h').
Proof.
  intros Hp Hhead Hleaf Hne0 Hd. assert (Hun0 : all_unmarked h0) by (intros u es; apply (unmarked_h0 alphabet actions h0 Hwf0)).
  assert (Hts : exists ts, tree_path (tree h0) m_prefixTreeRoot ts y).
  { destruct (rev (y :: r)) as [|v l] eqn:Er; [done|]. injection Hhead as ->. destruct (last_path_tree l _ Hp) as [ts Hts]. exists ts.
    assert (Hl : last (rev (y :: r)) = Some y) by (cbn; apply last_snoc). rewrite Er, last_cons in Hl. destruct (last l); cbn in *; by injection Hl as <-. }
  destruct Hts as [ts Hts]. pose proof (path_range _ _ _ Hwf0 Hts) as Hy. cbn [m_vertices] in Hy. destruct (vec_at_is_Some h0 y Hy) as [es Hes]. destruct (decide (es = [])) as [->|Hne].
  - unfold generateNFAForSubtree. rewrite Hes, option_bind_Some, bool_decide_eq_true_2, option_bind_Some by done.
    destruct (drawn_finish alphabet actions h0 nfa _ [] (mkActive y b 0) _ _ Hd) as (nfa' & Hde & Hd'). cbn [as_nfaNode] in Hde. rewrite Hde, option_bind_Some.
    destruct (clean_up_spec r y h0) as (h' & Hrun & Hle & Hun & Hpath & Hlive); [done|done|done|done|]. rewrite Hrun, option_bind_Some. exists nfa', h'. split; [done|]. split; [done|]. split; [done|].
    split; [apply Hlive; [done|]; intros ->; cbn [rev app head] in Hhead; injection Hhead as ->; by apply Hne0|]. eapply drawn_takes; [eapply drawn_weaken; [done| |exact Hd']; split; [reflexivity|apply Nat2Z.is_nonneg]|]. by apply left_after.
  - destruct (generateNFAForSubtree_spec nfa b y ts (y :: r) es (Z.of_nat (node_weight h0 y)) Hts Hes Hne Hleaf ltac:(done) Hd) as (s & Hrun & [_ Hle Hab Hma Hdr Hpr]). rewrite Hrun, option_bind_Some.
    change (destroyBuilder (s_nfa s) (movedFrom b)) with (Some (s_nfa s)). rewrite option_bind_Some.
    destruct (clean_up_spec r y (s_vertices s)) as (h' & Hrun' & Hle' & Hun & Hpath & _); [done|exact Hma| |done|].
    { cbn [rev] in *. eapply last_path_heap; [|exact Hp]. pose proof (last_path_lt h0 _ _ ltac:(reflexivity) Hp) as Hinc. eapply Forall_impl; [exact Hinc|]. intros x Hx. by apply Hab. }
    rewrite Hrun', option_bind_Some. exists (s_nfa s), h'. split; [done|]. split; [by etrans|]. split; [done|]. split; [apply live_edges_le in Hle'; lia|].
    eapply drawn_takes; [exact Hdr|]. by apply left_after.
Qed.

Hypothesis Hnoroot : actions !! m_prefixTreeRoot = None.
Hypothesis Hroom : room (NS := NS) emptyNFA (Z.of_nat (node_weight h0 m_prefixTreeRoot) + 1).

Lemma process_round_spec :
  (h0.[m_prefixTreeRoot] = Some [] /\ process_round (NS := NS) (AS := AS) alphabet actions maxNFASize h0 = Some None)
  \/ exists nfa h, process_round (NS := NS) (AS := AS) alphabet actions maxNFASize h0 = Some (Some (nfa, h))
       /\ heap_le h h0 /\ all_unmarked h /\ (live_edges h < live_edges h0)%nat /\ (nfa_small nfa -> takes nfa h).
Proof.
  assert (H00 : 0 <= m_prefixTreeRoot < vlen h0) by (pose proof (wt_root _ Hwf0) as Hr; cbn in Hr; unfold m_prefixTreeRoot; lia). unfold process_round.
  destruct (traverse_spec (S (length h0)) m_prefixTreeRoot H00) as (l & Htr & Hp & Hleaf); [lia|]. rewrite Htr, option_bind_Some. destruct (decide (l = [])) as [->|Hne].
  { left. split; [done|]. by rewrite bool_decide_eq_true_2. }
  right. rewrite bool_decide_eq_false_2 by (destruct l; cbn; [done|lia]). assert (Hne0 : h0.[m_prefixTreeRoot] <> Some []).
  { destruct l as [|w l]; [done|]. destruct Hp as [(e & t & He & _) _]. apply last_edge_in in He as (es & Hes & He). rewrite Hes. intros [= ->]. apply vec_at_lt in He. cbn in He. lia. }
  destruct (rev (m_prefixTreeRoot :: l)) as [|x r] eqn:Er; [by apply (f_equal (@length Z)) in Er; rewrite length_rev in Er|].
  assert (Hfull : rev (x :: r) = m_prefixTreeRoot :: l) by (rewrite <- Er; apply rev_involutive).
  destruct (find_prefix_root_spec r x) as (r1 & y & r2 & Hsplit & Hfind & Hty).
  { by rewrite Hfull. }
  { apply to_leaf_here. assert (Hl : last (rev (x :: r)) = Some x) by (cbn; apply last_snoc). rewrite Hfull, last_cons in Hl. destruct (last l); cbn in *; injection Hl as <-; done. }
  rewrite Hfind, option_bind_Some. rewrite Hsplit, rev_app_distr in Hfull. assert (Hpy : last_path h0 (rev (y :: r2))) by (apply (last_path_init _ _ (rev r1)); by rewrite Hfull).
  assert (Hhead : head (rev (y :: r2)) = Some m_prefixTreeRoot). { cbn [rev] in *. destruct (rev r2); cbn in *; by injection Hfull as ->. }
  assert (Hlast : last (rev (y :: r2)) = Some y) by (cbn; apply last_snoc). rewrite Hlast, option_bind_Some.
  destruct (newBuilder (NS := NS) (AS := AS) emptyNFA) as [nfa0 b0] eqn:En.
  destruct (sem_start alphabet actions h0 Hwf0 nfa0 b0 (fun _ => True) En) as (HB0 & Hn0 & sk0 & kd0 & Hse0); [eapply room_le; [|exact Hroom]; lia|done|done|].
  assert (Hd0 : drawn nfa0 (fun _ => True) [mkActive m_prefixTreeRoot b0 0] newReverseTrees (Z.of_nat (node_weight h0 m_prefixTreeRoot)) anything).
  { split; try done.
    - constructor; [|done]. injection En as _ <-. done.
    - unfold room in *. rewrite Hn0. cbn in Hroom. lia.
    - intros _. by exists sk0, kd0. }
  destruct (rev (y :: r2)) as [|v l'] eqn:Erev; [done|]. injection Hhead as ->.
  destruct (draw_prefix l' _ nfa0 b0 _ Hpy Hd0) as (edges & nfa1 & b1 & lf & Hedges & Hgen & Hlf & Hd1). rewrite Hedges, option_bind_Some, Hgen, option_bind_Some.
  assert (Hdef : default m_prefixTreeRoot (last l') = y). { rewrite last_cons in Hlast. destruct (last l'); cbn in *; by injection Hlast as <-. } rewrite Hdef in Hd1.
  assert (Hprefix : removelast (m_prefixTreeRoot :: l') = rev r2). { rewrite <- Erev. cbn. by rewrite removelast_last. }
  apply finish_round; try done; [by rewrite Erev|by rewrite Erev|]. eapply drawn_left; [|apply (drawn_cover _ _ _ (mkActive y b1 0) _ _ Hd1); by left].
  intros sk kd ts u Hcov Hpu Hu. cbn in Hcov. destruct (decide (u = y)) as [->|Hney]; [by right|left]. split; [|by exists ts]. apply Hlf in Hu as [_ Hu]. rewrite Hprefix in Hu.
  intros [?|Hin]%elem_of_cons; [done|]. apply Hu. apply list_elem_of_In, in_rev. rewrite rev_involutive. by apply list_elem_of_In.
Qed.
End Round.

(** ** All the rounds *)

Section Rounds.
Context {NS AS : Type} `{HashSetLaws NS} `{HashSetLaws AS}.
Variables (alphabet : list Term) (actions : gmap Z (list Z)) (maxNFASize : Z) (h0 : list PrefixTreeEdges).

Abbreviation tree hp := (mkFilters alphabet hp actions).
Abbreviation acts v := (actions_get actions v).
Abbreviation node_weight := (wt 0 (ecost alphabet)).

Implicit Types (h : list PrefixTreeEdges) (es : PrefixTreeEdges).

Hypothesis Hwf0 : wf_tree (tree h0).
Hypothesis Hkeys : forall v, Forall (hs_key (T := AS)) (acts v).
Hypothesis Hgroups : forall u t c, tree_edge (tree h0) u t c -> hasFixedLength t = true -> no_empty_group t.
Hypothesis Hsizes : Forall (fun es => vlen es < 2 ^ 32) h0.
Hypothesis Hnoroot : actions !! m_prefixTreeRoot = None.
Hypothesis Hroom : room (NS := NS) emptyNFA (Z.of_nat (node_weight h0 m_prefixTreeRoot) + 1).

Lemma wf_tree_le h : heap_le h h0 -> all_unmarked h -> wf_tree (tree h).
Proof.
  intros Hle Hun. pose proof (heap_le_length _ _ Hle) as Hlen. split; cbn [m_vertices m_alphabet m_actions].
  - pose proof (wt_root _ Hwf0) as Hr. cbn in Hr. by rewrite Hlen.
  - exact (children_le _ _ Hle (wt_edges _ Hwf0)).
  - intros u es e Hu He. pose proof (Hun u es Hu) as Hes. unfold unmarked in Hes. rewrite Forall_forall in Hes. destruct (Hes e He) as [p Hp]. destruct (heap_le_at _ _ _ _ Hle Hu) as (es0 & Hes0 & Ht).
    destruct (trimmed_in _ _ _ Ht He) as (e0 & He0 & _ & [Hx|Hx]); [|congruence]. destruct (wt_terms _ Hwf0 _ _ _ Hes0 He0) as (p0 & t & Hp0 & Ht0). exists p0, t. cbn in Ht0. split; [congruence|done].
  - intros u t c u' t' He He'. eapply (wt_parent _ Hwf0); by eapply tree_edge_le.
  - intros v a Hv. rewrite Hlen. by apply (wt_actions _ Hwf0).
Qed.

Lemma sizes_le h : heap_le h h0 -> Forall (fun es => vlen es < 2 ^ 32) h.
Proof.
  intros Hle. apply Forall_lookup. intros i es Hi. destruct (Forall2_lookup_l _ _ _ _ _ Hle Hi) as (es0 & Hes0 & Ht). apply trimmed_length in Ht.
  pose proof (Forall_lookup_1 _ _ _ _ Hsizes Hes0) as Hx. cbn in Hx. lia.
Qed.

(** Text [w] leads to the action in the NFA. *)
Record rounds_ok h (h' : list PrefixTreeEdges) (nfas : list NFA) : Prop := {
  ro_nfas : Forall (fun nfa => wf_nfa nfa /\ live_nfa nfa /\ 0 < vlen (nfa_nodes nfa)) nfas;
  ro_sound nfa w a : nfa ∈ nfas -> nfa_accepts nfa w a -> exists ts u, tree_path (tree h) m_prefixTreeRoot ts u /\ seq_lang ts w /\ a ∈ acts u;
  ro_complete ts u w a : tree_path (tree h) m_prefixTreeRoot ts u -> seq_lang ts w -> a ∈ acts u ->
    tree_path (tree h') m_prefixTreeRoot ts u \/ exists nfa, nfa ∈ nfas /\ nfa_accepts nfa w a
}.

Lemma process_rounds_spec fuel : forall h, heap_le h h0 -> all_unmarked h -> (live_edges h < fuel)%nat ->
  exists h' nfas, process_rounds (NS := NS) (AS := AS) alphabet actions maxNFASize fuel h = Some (h', nfas) /\ h'.[m_prefixTreeRoot] = Some [] /\ heap_le h' h
    /\ (Forall nfa_small nfas -> rounds_ok h h' nfas).
Proof.
  induction fuel as [|fuel IH]; intros h Hle Hun Hf; [lia|]. cbn [process_rounds].
  destruct (process_round_spec (NS := NS) (AS := AS) alphabet actions maxNFASize h) as [[Hr Hrun]|(nfa & h1 & Hrun & Hle1 & Hun1 & Hlive & Hsem)].
  - by apply wf_tree_le.
  - exact Hkeys.
  - intros u t c He. apply (Hgroups u t c). by eapply tree_edge_le.
  - by apply sizes_le.
  - done.
  - eapply room_le; [|exact Hroom]. pose proof (wt_le 0 (ecost alphabet) (ecost_le alphabet) h h0 m_prefixTreeRoot Hle). lia.
  - rewrite Hrun, option_bind_Some. exists h, []. split; [done|]. split; [done|]. split; [done|]. intros _. split; [constructor|by intros ? ? ? ?%not_elem_of_nil|by left].
  - rewrite Hrun, option_bind_Some. destruct (IH h1) as (h' & nfas & Hrun' & Hr' & Hle' & Hsem'); [by etrans|done|lia|]. rewrite Hrun', option_bind_Some.
    exists h', (nfa :: nfas). split; [done|]. split; [done|]. split; [by etrans|]. intros [Hs Hss]%Forall_cons. destruct (Hsem Hs) as [Hx1 Hx2 Hx3 Hso Hco]. destruct (Hsem' Hss) as [Hok Hso' Hco'].
    split.
    + by constructor.
    + intros x w a [->|Hin]%elem_of_cons Hacc; [by apply Hso|]. destruct (Hso' x w a Hin Hacc) as (ts & u & Hp & Hr2). exists ts, u. split; [|done]. eapply tree_path_mono; [|exact Hp]. intros; by eapply tree_edge_le.
    + intros ts u w a Hp Hw Ha. destruct (Hco ts u w a Hp Hw Ha) as [Hp1|Hacc]; [|right; exists nfa; split; [by left|done]].
      destruct (Hco' ts u w a Hp1 Hw Ha) as [?|(x & Hx & Hacc)]; [by left|right; exists x; split; [by right|done]].
Qed.
End Rounds.

(** ** The filters *)

Section Filters.
Context {NS AS : Type} `{HashSetLaws NS} `{HashSetLaws AS}.

(** Nodes that are needed at most. *)
Definition tree_nodes (f : CombinedURLFilters) : Z := Z.of_nat (wt 0 (ecost (m_alphabet f)) (m_vertices f) m_prefixTreeRoot) + 1.

(** What the code relies on: a tree, numbers that fit, and no empty group outside quantified terms. *)
Record filters_ready (f : CombinedURLFilters) : Prop := {
  fr_tree : wf_tree f;
  fr_root : m_actions f !! m_prefixTreeRoot = None;
  fr_keys v : Forall (hs_key (T := AS)) (default [] (m_actions f !! v));
  fr_groups u t c : tree_edge f u t c -> hasFixedLength t = true -> no_empty_group t;
  fr_sizes : Forall (fun es => vlen es < 2 ^ 32) (m_vertices f);
  fr_room : tree_nodes f <= hs_bound (T := NS) /\ tree_nodes f < 2 ^ 32
}.

Lemma processNFAs_spec f maxNFASize :
  filters_ready f ->
  exists f' nfas, processNFAs (NS := NS) (AS := AS) f maxNFASize = Some (f', nfas) /\ filters_isEmpty f' = Some true
    /\ (Forall nfa_small nfas ->
        Forall (fun nfa => wf_nfa nfa /\ live_nfa nfa /\ 0 < vlen (nfa_nodes nfa)) nfas
        /\ forall w a, (exists nfa, nfa ∈ nfas /\ nfa_accepts nfa w a) <-> exists ts, has_pattern f ts a /\ seq_lang ts w).
Proof.
  intros [Hwf Hroot Hkeys Hgroups Hsizes [Hr1 Hr2]]. destruct f as [alphabet h0 actions]. cbn [m_alphabet m_vertices m_actions] in *. unfold processNFAs. cbn [m_alphabet m_vertices m_actions].
  assert (Hun : all_unmarked h0) by (intros u es; apply (unmarked_h0 alphabet actions h0 Hwf)).
  destruct (process_rounds_spec (NS := NS) (AS := AS) alphabet actions maxNFASize h0 Hwf Hkeys Hgroups Hsizes Hroot) with (fuel := S (total_edges h0)) (h := h0) as (h' & nfas & Hrun & Hr' & Hle' & Hsem).
  { unfold tree_nodes in *. cbn [m_alphabet m_vertices] in *. split; [lia|]. cbn. lia. }
  { done. }
  { done. }
  { rewrite (unmarked_live h0) by done. lia. }
  rewrite Hrun, option_bind_Some. exists (mkFilters alphabet h' actions), nfas. split; [done|]. split; [unfold filters_isEmpty; cbn [m_vertices]; rewrite Hr'; done|].
  intros Hs. destruct (Hsem Hs) as [Hok Hso Hco]. split; [done|]. intros w a. split.
  - intros (nfa & Hin & Hacc). destruct (Hso nfa w a Hin Hacc) as (ts & u & Hp & Hw & Ha). exists ts. split; [|done]. unfold actions_get in Ha. destruct (actions !! u) as [l|] eqn:El; [|by apply not_elem_of_nil in Ha].
    by exists u, l.
  - intros (ts & (u & l & Hp & Hl & Ha) & Hw). cbn in Hl. destruct (Hco ts u w a Hp Hw) as [Hp'|(nfa & Hx)]; [unfold actions_get; by rewrite Hl| |by exists nfa].
    exfalso. inversion Hp' as [|? t c ts' ? He Hp2]; subst; [by rewrite Hroot in Hl|]. destruct He as (es & e & p & Hes & He & _). cbn [m_vertices] in Hes. rewrite Hr' in Hes. injection Hes as <-. by apply not_elem_of_nil in He.
Qed.
End Filters.
