(* ===== verification/ProcessClaims.v ===== *)
(** * What is guaranteed for the NFAs of the filters *)

From stdpp Require Import gmap relations.
From S2P Require Import Prelude Bits DFA RangeList RangeListCorrect HashSet NFA NFACorrect NFAToDFA SubsetCorrect Term TermLanguage CombinedURLFilters PrefixTree Yarr URLFilterParser ProcessNFAs TreeHeap Skeleton SubtreeSemantics SubtreeDrawing SubtreeLoop ProcessCorrect.

(** C23: if no term of fixed length of the tree has an empty group (the filter
    "^a()b" has one, and loses its pattern), no pattern is empty, and the
    vertices, actions and nodes fit the 32-bit integers and the hash tables
    ([filters_ready]), then the loop over the prefix tree terminates and leaves
    it empty; and if the NFAs it hands out fit their 32-bit indices, all the
    patterns of the tree are in them: together they accept an action after a
    text exactly if a pattern with that action matches the text.  Splitting the
    tree at quantified terms and at the limit of the size, sharing suffixes that
    end in the same actions and deleting vertices on the way lose no pattern and
    add none. *)
Theorem processNFAs_correct (NS AS : Type) `{HashSetLaws NS} `{HashSetLaws AS} (f : CombinedURLFilters) (maxNFASize : Z) :
  filters_ready (NS := NS) (AS := AS) f ->
  exists f' nfas, processNFAs (NS := NS) (AS := AS) f maxNFASize = Some (f', nfas) /\ filters_isEmpty f' = Some true
    /\ (Forall nfa_small nfas ->
        Forall (fun nfa => wf_nfa nfa /\ live_nfa nfa /\ 0 < vlen (nfa_nodes nfa)) nfas
        /\ forall w a, (exists nfa, nfa ∈ nfas /\ nfa_accepts nfa w a) <-> exists ts, has_pattern f ts a /\ seq_lang ts w).
Proof. apply processNFAs_spec. Qed.

(** ** Samples *)

Module ProcessExample.
Import InsertionOrder.

Definition char_term (c : Z) : Term := default groupTerm (characterTerm c true).

Definition add_pattern (f : CombinedURLFilters) (pattern : list Term) (id : Z) : CombinedURLFilters := default newFilters (addPattern f id pattern).

(** "ab", "ac", "a*bc", "dc" and "da*" share prefixes and suffixes. *)
Definition shared_filters : CombinedURLFilters :=
  let a := char_term 97 in let b := char_term 98 in let c := char_term 99 in let d := char_term 100 in let star := quantify (char_term 97) ZeroOrMore in
  add_pattern (add_pattern (add_pattern (add_pattern (add_pattern newFilters [a; b] 1) [a; c] 2) [star; b; c] 1) [d; c] 2) [d; star] 3.

Lemma add_pattern_wf f pattern id : wf_tree f -> pattern <> [] -> wf_tree (add_pattern f pattern id).
Proof. intros Hf Hp. unfold add_pattern. destruct (addPattern_spec f id pattern Hf Hp) as (f' & -> & Hf' & _). done. Qed.

Lemma shared_filters_wf : wf_tree shared_filters.
Proof. unfold shared_filters. cbv zeta. repeat (apply add_pattern_wf; [|done]). exact wf_newFilters. Qed.

(** Facts about the tables of filters that can be computed. *)
Lemma keys_computed f :
  bool_decide (map_Forall (fun _ l => Forall (fun a => 0 <= a < 2 ^ 32 - 2) l) (m_actions f)) = true -> forall v, Forall (hs_key (T := OrderedSet)) (default [] (m_actions f !! v)).
Proof.
  intros Hb%bool_decide_eq_true v. destruct (m_actions f !! v) as [l|] eqn:E; [|constructor]. exact (Hb v l E).
Qed.

Lemma groups_computed f (P : Term -> Prop) : Forall P (m_alphabet f) -> forall u t c, tree_edge f u t c -> P t.
Proof. intros Hf u t c (es & e & p & _ & _ & _ & [_ Ht]%vec_at_Some & _). by eapply Forall_lookup_1. Qed.

Lemma sizes_computed f : forallb (fun es => vlen es <? 2 ^ 32) (m_vertices f) = true -> Forall (fun es => vlen es < 2 ^ 32) (m_vertices f).
Proof. intros Hs. apply Forall_forall. intros es Hes. rewrite forallb_forall in Hs. apply Z.ltb_lt, Hs. by apply list_elem_of_In. Qed.

Lemma shared_filters_ready : filters_ready (NS := OrderedSet) (AS := OrderedSet) shared_filters.
Proof.
  split.
  - exact shared_filters_wf.
  - vm_compute. reflexivity.
  - apply keys_computed. vm_compute. reflexivity.
  - intros u t c He _. revert He. apply (groups_computed shared_filters no_empty_group). assert (Ha : m_alphabet shared_filters = [char_term 97; char_term 98; char_term 99; quantify (char_term 97) ZeroOrMore; char_term 100]) by (vm_compute; reflexivity).
    rewrite Ha. repeat (apply List.Forall_cons; [exact I|]). apply List.Forall_nil.
  - apply sizes_computed. vm_compute. reflexivity.
  - vm_compute. split; [congruence|reflexivity].
Qed.

Lemma processNFAs_correct_witness :
  exists f' nfas, processNFAs (NS := OrderedSet) (AS := OrderedSet) shared_filters 4 = Some (f', nfas) /\ filters_isEmpty f' = Some true
    /\ (Forall nfa_small nfas ->
        Forall (fun nfa => wf_nfa nfa /\ live_nfa nfa /\ 0 < vlen (nfa_nodes nfa)) nfas
        /\ forall w a, (exists nfa, nfa ∈ nfas /\ nfa_accepts nfa w a) <-> exists ts, has_pattern shared_filters ts a /\ seq_lang ts w).
Proof. apply (processNFAs_correct OrderedSet OrderedSet shared_filters 4). exact shared_filters_ready. Defined.

(** ** An empty group *)

Definition parse_filter_text (f : CombinedURLFilters) (pattern : list Z) (id : Z) : CombinedURLFilters := default newFilters (fst <$> addURLFilter f pattern true id).

(** "^a()b" and "^a" with twenty "x". *)
Definition empty_group_text : list Z := [94; 97; 40; 41; 98].
Definition long_text : list Z := [94; 97] ++ repeat 120 20.
Definition group_filters : CombinedURLFilters := parse_filter_text (parse_filter_text newFilters empty_group_text 1) long_text 2.

Definition lost_nfa : NFA := Eval vm_compute in match processNFAs (NS := OrderedSet) (AS := OrderedSet) group_filters 75000 with Some (_, [nfa]) => nfa | _ => emptyNFA end.

Definition only_nfa (f : CombinedURLFilters) : option NFA := '(_, nfas) ← processNFAs (NS := OrderedSet) (AS := OrderedSet) f 75000; match nfas with [nfa] => Some nfa | _ => None end.

Lemma lost_nfa_step i c j rs : transitionsForNode lost_nfa i = Some rs -> edge lost_nfa i (Some c) j -> exists ts, ts_step rs c = Some ts /\ j ∈ ts.
Proof. intros Hrs (rs' & ts & Hrs' & Hts & Hj). rewrite Hrs in Hrs'. injection Hrs' as <-. by exists ts. Qed.

Lemma lost_nfa_no_epsilon i j : ~ eps lost_nfa i j.
Proof.
  intros (ts & Hts & Hj). unfold epsilonTargets in Hts. destruct ((nfa_nodes lost_nfa).[i]) as [n|]; [|done]. rewrite option_bind_Some in Hts. unfold slice in Hts.
  change (epsilonTransitionsTargets lost_nfa) with (@nil Z) in Hts. apply mapM_Some_1 in Hts. destruct Hts as [|x y l k Hx _]; [by apply not_elem_of_nil in Hj|].
  apply vec_at_lt in Hx. cbn in Hx. lia.
Qed.

Lemma lost_nfa_rejects a : ~ nfa_accepts lost_nfa [97; 98] a.
Proof.
  intros (j & Hl & _). unfold leads_to in Hl. change [97; 98] with ([97] ++ [98]) in Hl. apply path_snoc_inv in Hl as (k & k' & Hk & Hb & _).
  change [97] with ([] ++ [97]) in Hk. apply path_snoc_inv in Hk as (i & i' & Hi & Ha & Hr). apply path_nil_inv in Hi. inversion Hi as [|? x ? Hx]; subst; [|by apply lost_nfa_no_epsilon in Hx].
  inversion Hr as [|? x ? Hx]; subst; [|by apply lost_nfa_no_epsilon in Hx].
  assert (E0 : transitionsForNode lost_nfa 0 = Some [(mkCharRange 97 97, [1])]) by (vm_compute; reflexivity).
  destruct (lost_nfa_step _ _ _ _ E0 Ha) as (ts & Hts & Hin). vm_compute in Hts. injection Hts as <-. apply list_elem_of_singleton in Hin as ->.
  assert (E1 : transitionsForNode lost_nfa 1 = Some [(mkCharRange 120 120, [23])]) by (vm_compute; reflexivity).
  destruct (lost_nfa_step _ _ _ _ E1 Hb) as (ts & Hts & _). vm_compute in Hts. discriminate Hts.
Qed.

Lemma edge_computed f u k p t c : ((m_vertices f).[u] ≫= fun es => es.[k]) = Some (mkEdge (Some p) c) -> (m_alphabet f).[p] = Some t -> tree_edge f u t c.
Proof.
  intros He Ht. destruct ((m_vertices f).[u]) as [es|] eqn:Es; [|done]. rewrite option_bind_Some in He. apply vec_at_Some in He as [_ He%list_elem_of_lookup_2].
  by exists es, (mkEdge (Some p) c), p.
Qed.

(** The terms of "^a()b". *)
Definition empty_group_terms : list Term := [char_term 97; groupTerm; char_term 98].

Lemma empty_group_in_tree : has_pattern group_filters empty_group_terms 1.
Proof.
  exists 3, [1]. split; [|split; [vm_compute; reflexivity|by left]].
  apply (path_cons _ _ _ 1); [apply (edge_computed _ _ 0 0); vm_compute; reflexivity|].
  apply (path_cons _ _ _ 2); [apply (edge_computed _ _ 0 1); vm_compute; reflexivity|].
  apply (path_cons _ _ _ 3); [apply (edge_computed _ _ 0 2); vm_compute; reflexivity|]. constructor.
Qed.

Lemma empty_group_matches : seq_lang empty_group_terms [97; 98].
Proof.
  exists [97], [98]. split; [done|]. split; [exists 97; split; [done|]; (split; [lia|vm_compute; reflexivity])|]. exists [], [98]. split; [done|]. split; [done|].
  exists [98], []. split; [done|]. split; [|done]. exists 98. split; [done|]. (split; [lia|vm_compute; reflexivity]).
Qed.
End ProcessExample.

(** C24: the condition on groups is needed: with the filters "^a()b" and "^a"
    followed by twenty "x", the first pattern matches "ab" and is in the tree,
    but the only NFA does not accept "ab".  The stack of subtrees is moved
    while the node after "a" waits for its edges, and the epsilon transition of
    the empty group is lost. *)
Theorem empty_group_lost :
  (exists ts, has_pattern ProcessExample.group_filters ts 1 /\ seq_lang ts [97; 98])
  /\ ProcessExample.only_nfa ProcessExample.group_filters = Some ProcessExample.lost_nfa /\ ~ nfa_accepts ProcessExample.lost_nfa [97; 98] 1.
Proof.
  split; [exists ProcessExample.empty_group_terms; split; [apply ProcessExample.empty_group_in_tree|apply ProcessExample.empty_group_matches]|].
  split; [vm_compute; reflexivity|apply ProcessExample.lost_nfa_rejects].
Qed.
