(* ===== verification/RuleListCompiler.v ===== *)
(** * Compiling a list of rules (ContentExtensionCompiler.h/.cpp, ContentExtensionError.h)

    The rules of an extension are sorted into rules without and with domains;
    their filters go into prefix trees, their NFAs become DFAs, of which the
    small ones are combined, and the bytecode of the DFAs is handed to a client.
    What the client is told is a list of calls.

    A hash map is iterated in an order that is a parameter: [iteration_order]
    for the map of selectors, [state_order] for the map of final states. *)

From stdpp Require Import gmap.
From S2P Require Import Prelude DFA Bytecode BytecodeCompiler HashSet NFA NFAToDFA Term Actions Minimizer Combiner CombinedURLFilters Yarr URLFilterParser ProcessNFAs.

(** ** Errors and the client *)

Inductive ContentExtensionError :=
| JSONInvalid
| JSONTopLevelStructureNotAnObject
| JSONTopLevelStructureNotAnArray
| JSONInvalidObjectInTopLevelArray
| JSONInvalidRule
| JSONContainsNoRules
| JSONInvalidTrigger
| JSONInvalidURLFilterInTrigger
| JSONInvalidTriggerFlagsArray
| JSONInvalidObjectInTriggerFlagsArray
| JSONInvalidStringInTriggerFlagsArray
| JSONInvalidDomainList
| JSONDomainNotLowerCaseASCII
| JSONUnlessAndIfDomain
| JSONTooManyRules
| JSONInvalidAction
| JSONInvalidActionType
| JSONInvalidCSSDisplayNoneActionType
| JSONInvalidRegex.

Inductive client_call :=
| WriteActions (actions : list Z)
| WriteFiltersWithoutDomainsBytecode (bytecode : list Z)
| WriteFiltersWithDomainsBytecode (bytecode : list Z)
| WriteDomainFiltersBytecode (bytecode : list Z)
| Finalize.

Definition maxNFASize : Z := 75000.
Definition smallDFASize : Z := 100.

Section RuleListCompiler.
Context `{Host} {NS AS : Type} `{HashSet NS} `{HashSet AS}.
Variable iteration_order : PendingMap -> PendingMap.
Variable state_order : list (list Z * list Z) -> list (list Z * list Z).

(** ** Universal actions *)

Definition addUniversalActionsToDFA (dfa : DFA) (universalActions : AS) : option DFA :=
  if bool_decide (hs_iter universalActions = []) then Some dfa else
  root ← (dfa_nodes dfa).[dfa_root dfa];
  let actionsStart := u32 (vlen (dfa_actions dfa)) in
  let actions := dfa_actions dfa ++ hs_iter universalActions in
  let actionsEnd := u32 (vlen actions) in
  let actionsLength := u32 (actionsEnd - actionsStart) in
  if actionsLength <? 65535 then
    nodes ← vec_set (dfa_nodes dfa) (dfa_root dfa)
              (mkDFANode actionsStart (m_transitionsStart root) (u16 actionsLength) (m_transitionsLength root) (m_flags root));
    Some (mkDFA nodes actions (transitionRanges dfa) (transitionDestinations dfa) (dfa_root dfa))
  else None.

(** ** The rules *)

(** The sets and trees the rules are sorted into. *)
Record rule_groups := mkGroups {
  universalActionsWithoutDomains : AS;
  universalActionsWithDomains : AS;
  filtersWithoutDomains : CombinedURLFilters;
  filtersWithDomains : CombinedURLFilters;
  domainFilters : CombinedURLFilters
}.

Definition newGroups : rule_groups := mkGroups hs_empty hs_empty newFilters newFilters newFilters.

(** A filter that matches everything makes its action universal. *)
Definition add_filter (filters : CombinedURLFilters) (universalActions : AS) (t : Trigger) (actionLocationAndFlags : Z)
    : option (CombinedURLFilters * AS * ParseStatus) :=
  '(filters, status) ← addURLFilter filters (characters (urlFilter t)) (urlFilterIsCaseSensitive t) actionLocationAndFlags;
  Some (if bool_decide (status = MatchesEverything) then (filters, hs_add universalActions actionLocationAndFlags, Ok)
        else (filters, universalActions, status)).

Definition add_domains (filters : CombinedURLFilters) (actionLocationAndFlags : Z) (ds : list WString) : option CombinedURLFilters :=
  foldM (fun filters domain => addDomain filters actionLocationAndFlags (characters domain)) filters ds.

(** The body of the loop over the rules; it is left if the status is not [Ok]. *)
Definition add_rule (g : rule_groups) (rule : ContentExtensionRule) (actionLocation : Z) : option (rule_groups * ParseStatus) :=
  let t := trigger rule in
  let actionLocationAndFlags := Z.lor (Z.shiftl (trigger_flags t) 32) actionLocation in
  if bool_decide (domains t = []) then
    '(filters, universal, status) ← add_filter (filtersWithoutDomains g) (universalActionsWithoutDomains g) t actionLocationAndFlags;
    Some (mkGroups universal (universalActionsWithDomains g) filters (filtersWithDomains g) (domainFilters g), status)
  else
    let actionLocationAndFlags :=
      if bool_decide (domainCondition t = IfDomain) then Z.lor actionLocationAndFlags IfDomainFlag else actionLocationAndFlags in
    '(filters, universal, status) ← add_filter (filtersWithDomains g) (universalActionsWithDomains g) t actionLocationAndFlags;
    if bool_decide (status = Ok) then
      filtersOfDomains ← add_domains (domainFilters g) actionLocationAndFlags (domains t);
      Some (mkGroups (universalActionsWithoutDomains g) universal (filtersWithoutDomains g) filters filtersOfDomains, Ok)
    else Some (mkGroups (universalActionsWithoutDomains g) universal (filtersWithoutDomains g) filters (domainFilters g), status).

Fixpoint add_rules (g : rule_groups) (ruleIndex : Z) (actionLocations : list Z) (parsedRuleList : list ContentExtensionRule)
    : option (rule_groups * ParseStatus) :=
  match parsedRuleList with
  | [] => Some (g, Ok)
  | rule :: parsedRuleList =>
      actionLocation ← actionLocations.[ruleIndex];
      '(g, status) ← add_rule g rule actionLocation;
      if bool_decide (status = Ok) then add_rules g (ruleIndex + 1) actionLocations parsedRuleList else Some (g, status)
  end.

(** ** From filters to bytecode *)

(** The variables of the two handlers: whether a DFA was compiled, what was written. *)
Record lowering := mkLowering { firstNFASeen : bool; written : list (list Z) }.

Definition lowerDFAToBytecode (universalActions : AS) (l : lowering) (dfa : DFA) : option lowering :=
  dfa ← (if negb (firstNFASeen l) then addUniversalActionsToDFA dfa universalActions else Some dfa);
  bytecode ← compile dfa [];
  Some (mkLowering true (written l ++ [bytecode])).

(** The handler of an NFA; the small DFAs are kept for the combiner. *)
Definition lower_nfa (universalActions : AS) (s : lowering * list DFA) (nfa : NFA) : option (lowering * list DFA) :=
  let '(l, smallDFAs) := s in
  '(dfa, _) ← convertNFA (NS := NS) (AS := AS) nfa;
  if graphSize dfa <? smallDFASize then
    smallDFAs ← addDFA state_order smallDFAs dfa;
    Some (l, smallDFAs)
  else
    dfa ← minimize state_order dfa;
    l ← lowerDFAToBytecode universalActions l dfa;
    Some (l, smallDFAs).

(** The interpreter expects at least one DFA. *)
Definition lower_dummy (universalActions : AS) (l : lowering) : option (list (list Z)) :=
  if negb (firstNFASeen l) then
    dummyDFA ← addUniversalActionsToDFA DFA_empty universalActions;
    bytecode ← compile dummyDFA [];
    Some (written l ++ [bytecode])
  else Some (written l).

Definition lower_filters (filters : CombinedURLFilters) (universalActions : AS) : option (list (list Z)) :=
  '(_, nfas) ← processNFAs (NS := NS) (AS := AS) filters maxNFASize;
  '(l, smallDFAs) ← foldM (lower_nfa universalActions) (mkLowering false [], []) nfas;
  dfas ← combineDFAs (AS := AS) state_order smallDFASize smallDFAs;
  l ← foldM (lowerDFAToBytecode universalActions) l dfas;
  lower_dummy universalActions l.

Definition lower_filtersWithoutDomains (g : rule_groups) : option (list client_call) :=
  bytecodes ← lower_filters (filtersWithoutDomains g) (universalActionsWithoutDomains g);
  Some (map WriteFiltersWithoutDomainsBytecode bytecodes).

Definition lower_filtersWithDomains (g : rule_groups) : option (list client_call) :=
  bytecodes ← lower_filters (filtersWithDomains g) (universalActionsWithDomains g);
  Some (map WriteFiltersWithDomainsBytecode bytecodes).

(** The DFAs of domains are compiled as they are. *)
Definition lower_domain (nfa : NFA) : option (list Z) :=
  '(dfa, _) ← convertNFA (NS := NS) (AS := AS) nfa;
  compile dfa [].

Definition lower_domainFilters (g : rule_groups) : option (list client_call) :=
  '(_, nfas) ← processNFAs (NS := NS) (AS := AS) (domainFilters g) maxNFASize;
  bytecodes ← mapM lower_domain nfas;
  Some (map WriteDomainFiltersBytecode bytecodes).

(** ** The whole list: the calls of the client, and the error *)

(** [compileRuleList] after the rules have been parsed. *)
Definition compileParsedRules (parsedRuleList : list ContentExtensionRule) : option (list client_call * option ContentExtensionError) :=
  '(actions, actionLocations) ← serializeActions iteration_order parsedRuleList;
  '(g, status) ← add_rules newGroups 0 actionLocations parsedRuleList;
  if bool_decide (status = Ok) then
    withoutDomains ← lower_filtersWithoutDomains g;
    withDomains ← lower_filtersWithDomains g;
    ofDomains ← lower_domainFilters g;
    Some (WriteActions actions :: withoutDomains ++ withDomains ++ ofDomains ++ [Finalize], None)
  else Some ([WriteActions actions], Some JSONInvalidRegex).
End RuleListCompiler.
