(* ===== verification/LoweringCorrect.v ===== *)
(** * From filters to bytecode

    The DFAs that are compiled for a tree of filters report together the actions
    of the patterns of the tree; the universal actions are on the root of the
    first of them. *)

From stdpp Require Import relations gmap.
From S2P Require Import Prelude DFA Bytecode BytecodeCompiler BytecodeInterpreter CompilerCorrect CompileLayout InterpreterSteps BytecodeCorrect BytecodeClaims HashSet NFA NFACorrect NFAToDFA SubsetCorrect ConvertCorrect MinimizeClaims ConvertClaims Term TermLanguage Minimizer PartitionCorrect SplitNodes MinimizeCorrect SingularRanges Combiner MergeCorrect CombineClaims CombinedURLFilters PrefixTree FilterSimplify ProcessNFAs SubtreeLoop ProcessCorrect RuleListCompiler.

(** ** Texts and the nodes they visit *)

Lemma dfa_trace_run dfa : forall s i j, j ∈ dfa_trace dfa i s <-> exists w v, s = w ++ v /\ w <> [] /\ dfa_run dfa i w = Some j.
Proof.
  induction s as [|c s IH]; intros i j; cbn [dfa_trace].
  - split; [by intros ?%not_elem_of_nil|]. intros (w & v & Hs & Hw & _). by destruct w.
  - destruct (dfa_step dfa i c) as [t|] eqn:Et.
    + rewrite elem_of_cons, IH. split.
      * intros [->|(w & v & -> & Hw & Hr)].
        -- exists [c], s. cbn. by rewrite Et.
        -- exists (c :: w), v. cbn [dfa_run]. by rewrite Et, option_bind_Some.
      * intros ([|c' w] & v & Hs & Hw & Hr); [done|]. injection Hs as <- ->. cbn [dfa_run] in Hr. rewrite Et, option_bind_Some in Hr.
        destruct w as [|c' w]; [left; cbn in Hr; congruence|right]. by exists (c' :: w), v.
    + split; [by intros ?%not_elem_of_nil|]. intros ([|c' w] & v & Hs & Hw & Hr); [done|]. injection Hs as <- ->. cbn [dfa_run] in Hr. by rewrite Et in Hr.
Qed.

Lemma actions_at_accepts dfa i a : a ∈ actions_at dfa i <-> dfa_accepts dfa i a.
Proof.
  unfold actions_at, dfa_accepts. destruct ((dfa_nodes dfa).[i]) as [n|]; [|cbn; rewrite elem_of_nil; naive_solver].
  rewrite option_bind_Some. destruct (node_actions dfa n) as [acts|] eqn:Ea; cbn [default from_option]; [|rewrite elem_of_nil; naive_solver].
  change (id acts) with acts. naive_solver.
Qed.

Lemma dfa_run_live dfa : wf_dfa dfa -> forall w i j, live_target dfa i -> dfa_run dfa i w = Some j -> live_target dfa j.
Proof.
  intros Hwf. induction w as [|c w IH]; intros i j Hi Hr; cbn [dfa_run] in Hr; [by injection Hr as <-|].
  destruct (dfa_step dfa i c) as [t|] eqn:Et; [|done]. rewrite option_bind_Some in Hr. apply (IH t); [|done]. clear IH Hr.
  destruct Hi as (n & Hn & Hk). unfold dfa_step in Et. rewrite Hn, option_bind_Some in Et.
  destruct (wf_trans _ _ (wf_nodes _ Hwf _ _ Hn Hk)) as (ts & Hts & _ & Hl). rewrite Hts, option_bind_Some in Et.
  apply ts_step_elem in Et as (r & Hr & _). rewrite Forall_forall in Hl. exact (Hl _ Hr).
Qed.

Lemma reports_run dfa w a : reports dfa w a <-> exists i, dfa_run dfa (dfa_root dfa) w = Some i /\ a ∈ actions_at dfa i.
Proof. unfold reports. rewrite <- accepts_output. by setoid_rewrite actions_at_accepts. Qed.

(** A text that starts at the beginning of the URL, terminator included. *)
Definition prefix_reports (dfa : DFA) (url : list Z) (a : Z) : Prop := exists w v, url ++ [0] = w ++ v /\ reports dfa w a.

(** A DFA without actions on its root. *)
Definition quiet_root (dfa : DFA) : Prop := forall a, ~ reports dfa [] a.

Lemma quiet_contributes first dfa url a : quiet_root dfa -> contributes first dfa url a <-> prefix_reports dfa url a.
Proof.
  intros Hq. assert (Hroot : a ∉ actions_at dfa (dfa_root dfa)) by (intros Hin; apply (Hq a), reports_run; by exists (dfa_root dfa)).
  unfold contributes, prefix_reports. split.
  - intros [(i & (w & v & Hs & _ & Hr)%dfa_trace_run & _ & Ha)|[Ha _]]; [|done]. exists w, v. split; [done|]. apply reports_run. by exists i.
  - intros (w & v & Hs & (i & Hr & Ha)%reports_run). left. exists i. split; [|split; [by intros ->|done]]. apply dfa_trace_run. exists w, v. split; [done|].
    split; [|done]. intros ->. cbn in Hr. injection Hr as <-. done.
Qed.

(** ** Universal actions *)

Section Universal.
Context {AS : Type} `{HashSetLaws AS}.

(** The root has other actions, all else is as before. *)
Record root_actions (dfa dfa' : DFA) (acts : list Z) : Prop := {
  ra_root : dfa_root dfa' = dfa_root dfa;
  ra_step : forall i c, dfa_step dfa' i c = dfa_step dfa i c;
  ra_at_root : actions_at dfa' (dfa_root dfa) = acts;
  ra_at : forall i, live_target dfa i -> i <> dfa_root dfa -> actions_at dfa' i = actions_at dfa i
}.

Lemma root_actions_run dfa dfa' acts : root_actions dfa dfa' acts -> forall w i, dfa_run dfa' i w = dfa_run dfa i w.
Proof. intros [_ Hs _ _]. induction w as [|c w IH]; intros i; cbn [dfa_run]; [done|]. rewrite Hs. by destruct (dfa_step dfa i c); cbn. Qed.

Lemma root_contributes first dfa dfa' acts url a :
  wf_dfa dfa -> root_actions dfa dfa' acts -> quiet_root dfa ->
  contributes first dfa' url a <-> prefix_reports dfa url a \/ (a ∈ acts /\ (first = true -> has_flags a = true)).
Proof.
  intros Hwf Hr Hq. rewrite <- (quiet_contributes true dfa url a Hq). assert (Hroot : a ∉ actions_at dfa (dfa_root dfa)) by (intros Hin; apply (Hq a), reports_run; by exists (dfa_root dfa)).
  pose proof (root_actions_run _ _ _ Hr) as Hrun. destruct Hr as [Hd Hs Ha Hat]. unfold contributes. rewrite Hd, Ha.
  assert (Htr : forall i, i ∈ dfa_trace dfa' (dfa_root dfa) (url ++ [0]) <-> i ∈ dfa_trace dfa (dfa_root dfa) (url ++ [0])) by (intros i; rewrite !dfa_trace_run; by setoid_rewrite Hrun).
  assert (Hl : forall i, i ∈ dfa_trace dfa (dfa_root dfa) (url ++ [0]) -> live_target dfa i) by (intros i (w & v & _ & _ & Hr)%dfa_trace_run; by eapply dfa_run_live; [|apply Hwf|]).
  setoid_rewrite Htr. split.
  - intros [(i & Hi & Hne & Hin)|Hu]; [left; left; exists i; rewrite <- Hat by auto; done|by right].
  - intros [[(i & Hi & Hne & Hin)|[Hin _]]|Hu]; [left; exists i; rewrite Hat by auto; done|done|by right].
Qed.

Lemma node_actions_more dfa actions more nodes n :
  dfa_actions dfa = actions -> is_Some (node_actions dfa n) -> node_actions (mkDFA nodes (actions ++ more) (transitionRanges dfa) (transitionDestinations dfa) (dfa_root dfa)) n = node_actions dfa n.
Proof. intros <- [acts Ha]. rewrite Ha. eapply node_actions_grow; [|exact Ha]. by eexists. Qed.

Lemma addUniversalActionsToDFA_spec dfa (us : AS) :
  wf_dfa dfa -> Forall (fun a => 0 <= a < 2 ^ 49) (hs_iter us) -> vlen (hs_iter us) < 65535 -> vlen (dfa_actions dfa) + vlen (hs_iter us) < 2 ^ 32 -> quiet_root dfa ->
  exists dfa', addUniversalActionsToDFA dfa us = Some dfa' /\ wf_dfa dfa' /\ root_actions dfa dfa' (hs_iter us).
Proof.
  intros Hwf Hus Hlen Hsize Hq. unfold addUniversalActionsToDFA. destruct (wf_root _ Hwf) as (root & Hroot & Hk). case_bool_decide as Hnil.
  { exists dfa. split; [done|]. split; [done|]. split; try done. rewrite Hnil. destruct (actions_at dfa (dfa_root dfa)) as [|a l] eqn:E; [done|].
    exfalso. apply (Hq a), reports_run. exists (dfa_root dfa). split; [done|]. rewrite E. by left. }
  rewrite Hroot, option_bind_Some, length_app. rewrite (u32_small (vlen (dfa_actions dfa))), (u32_small (Z.of_nat _)), (u32_small (_ - _)) by lia. replace (Z.of_nat (length (dfa_actions dfa) + length (hs_iter us)) - vlen (dfa_actions dfa)) with (vlen (hs_iter us)) by lia.
  rewrite (proj2 (Z.ltb_lt _ _)) by lia. rewrite (uwrap_small 16) by lia. set (root' := mkDFANode _ _ _ _ _).
  pose proof (vec_at_lt _ _ _ Hroot) as Hr. destruct (vec_set (dfa_nodes dfa) (dfa_root dfa) root') as [nodes|] eqn:Hset; [|by rewrite vec_set_Some in Hset].
  rewrite option_bind_Some. set (dfa' := mkDFA nodes _ _ _ _). pose proof (fun j => vec_at_set _ _ _ j _ Hset) as Hat.
  assert (Hra : node_actions dfa' root' = Some (hs_iter us)).
  { unfold node_actions. cbn. pose proof (mapM_seqZ_snoc (dfa_actions dfa) (hs_iter us) []) as Hm. by rewrite app_nil_r in Hm. }
  assert (Hrt : node_transitions dfa' root' = node_transitions dfa root) by done.
  assert (Hnt : forall n, node_transitions dfa' n = node_transitions dfa n) by done.
  exists dfa'. split; [done|]. split; [split|split].
  - exists root'. cbn [dfa_nodes dfa_root dfa']. rewrite Hat, decide_True by done. split; [done|exact Hk].
  - intros i n Hn Hkn. cbn [dfa_nodes dfa'] in Hn. rewrite Hat in Hn.
    assert (Hlt : forall t, live_target dfa t -> live_target dfa' t).
    { intros t (m & Hm & Hkm). unfold live_target. cbn [dfa_nodes dfa']. rewrite Hat. destruct (decide (dfa_root dfa = t)); [|by exists m]. exists root'. split; [done|exact Hk]. }
    destruct (decide (dfa_root dfa = i)) as [Hi|Hi].
    + injection Hn as <-. split; [by exists (hs_iter us)|]. rewrite Hrt. destruct (wf_trans _ _ (wf_nodes _ Hwf _ _ Hroot Hk)) as (ts & Hts & Hso & Hall). exists ts.
      split; [done|]. split; [done|]. eapply Forall_impl; [exact Hall|]. intros t. apply Hlt.
    + destruct (wf_nodes _ Hwf _ _ Hn Hkn) as [(acts & Ha & Hb) (ts & Hts & Hso & Hall)]. split.
      * exists acts. split; [|done]. rewrite <- Ha. apply node_actions_more; [done|by eexists].
      * exists ts. rewrite Hnt. split; [done|]. split; [done|]. eapply Forall_impl; [exact Hall|]. intros t. apply Hlt.
  - done.
  - intros i c. unfold dfa_step. cbn [dfa_nodes dfa']. rewrite Hat. case_decide as Hi; [|done]. subst i. by rewrite Hroot.
  - unfold actions_at. cbn [dfa_nodes dfa' dfa_root]. rewrite Hat, decide_True, option_bind_Some, Hra by done. done.
  - intros i (n & Hn & Hkn) Hi. unfold actions_at. cbn [dfa_nodes dfa']. rewrite Hat, decide_False, Hn, !option_bind_Some by done.
    f_equal. destruct (wf_acts _ _ (wf_nodes _ Hwf _ _ Hn Hkn)) as (acts & Ha & _). apply node_actions_more; [done|by eexists].
Qed.
End Universal.

(** ** The DFAs of a tree of filters *)

(** What the conversion of an NFA stores fits 32 bits, for [n] actions. *)
Definition nfa_affordable (NS : Type) `{HashSet NS} (n : Z) (nfa : NFA) : Prop :=
  nfa_small nfa /\ vlen (nfa_nodes nfa) <= hs_bound (T := NS)
  /\ exists K, state_sets_bounded nfa K /\ 128 * K < 2 ^ 31 /\ K * n < 2 ^ 32.

Section Lowering.
Context `{Host} {NS AS : Type} `{HashSetLaws NS} `{HashSetLaws AS} (U : list Z) (order : list (list Z * list Z) -> list (list Z * list Z)).
Hypothesis HU : Forall (hs_key (T := AS)) U.
Hypothesis HUbits : Forall (fun a => 0 <= a < 2 ^ 49) U.
Hypothesis HUlen : vlen U < 65535.
Hypothesis Horder : forall l, order l ≡ₚ l.


Definition nfa_ready (nfa : NFA) : Prop :=
  (wf_nfa nfa /\ live_nfa nfa /\ 0 < vlen (nfa_nodes nfa)) /\ nfa_affordable NS (vlen U) nfa /\ forall w a, nfa_accepts nfa w a -> a ∈ U.

Lemma converted nfa :
  nfa_ready nfa ->
  exists dfa nfa', convertNFA (NS := NS) (AS := AS) nfa = Some (dfa, nfa') /\ minimizable dfa /\ mergeable U dfa
    /\ forall w a, reports dfa w a <-> nfa_accepts nfa w a.
Proof.
  intros ((Hwf & Hlive & Hroot) & (_ & Hkeys & K & HK & HK1 & HK2) & Hin). assert (Hc : convertible NS AS nfa U K) by (split; done || lia).
  destruct (convertNFA_full NS AS nfa U K Hc) as (dfa & He & Hl & Hw & Hr & Ha & Hacc). exists dfa, (without_epsilons nfa). destruct (Hw HUbits) as [Hwfd Hn].
  destruct (convertNFA_minimizable NS AS nfa U K dfa _ Hc HUbits HK1 He) as [Hmz _]. split; [done|]. split; [done|].
  assert (Ho : owned (vlen (transitionRanges dfa)) dfa) by (apply (convertNFA_owned nfa dfa _ He); unfold sizes_fit; lia). split.
  - split; [done| |intros i a _; apply Hacc|lia]. intros i n Hi _. pose proof (ow_actions _ _ Ho i n Hi). lia.
  - intros w a. unfold reports. rewrite <- accepts_output. apply Hl.
Qed.

(** The large and the small DFAs of the handler, minimized. *)
Fixpoint sorted_dfas (nfas : list NFA) : option (list DFA * list DFA) :=
  match nfas with
  | [] => Some ([], [])
  | nfa :: nfas =>
      '(dfa, _) ← convertNFA (NS := NS) (AS := AS) nfa;
      minimized ← minimize order dfa;
      '(larges, smalls) ← sorted_dfas nfas;
      Some (if graphSize dfa <? smallDFASize then (larges, minimized :: smalls) else (minimized :: larges, smalls))
  end.

Lemma sorted_dfas_spec nfas :
  Forall nfa_ready nfas ->
  exists larges smalls, sorted_dfas nfas = Some (larges, smalls) /\ Forall (mergeable U) (larges ++ smalls) /\ Forall minimal smalls
    /\ forall w a, any_reports (larges ++ smalls) w a <-> exists nfa, nfa ∈ nfas /\ nfa_accepts nfa w a.
Proof.
  induction 1 as [|nfa nfas Hn _ (larges & smalls & Hs & Hm & Hmin & Hr)]; cbn [sorted_dfas].
  { exists [], []. split; [done|]. split; [constructor|]. split; [constructor|]. intros w a. unfold any_reports. cbn. setoid_rewrite elem_of_nil. naive_solver. }
  destruct (converted nfa Hn) as (dfa & nfa' & Hc & Hmz & Hmg & Hl). destruct (minimized U order Horder dfa Hmz Hmg) as (d & Hd & Hdm & Hdmin & Hdr).
  rewrite Hc, option_bind_Some, Hd, option_bind_Some, Hs, option_bind_Some.
  assert (Hall : forall w a, any_reports (d :: larges ++ smalls) w a <-> exists nfa0, nfa0 ∈ nfa :: nfas /\ nfa_accepts nfa0 w a).
  { intros w a. rewrite any_reports_cons, Hr, Hdr, Hl. setoid_rewrite elem_of_cons. naive_solver. }
  destruct (graphSize dfa <? smallDFASize).
  - exists larges, (d :: smalls). split; [done|]. rewrite <- Permutation_middle. split; [by constructor|]. split; [by constructor|].
    intros w a. by rewrite <- Permutation_middle.
  - exists (d :: larges), smalls. split; [done|]. split; [by constructor|]. done.
Qed.

Definition delivered_dfas (f : CombinedURLFilters) : option (list DFA) :=
  '(_, nfas) ← processNFAs (NS := NS) (AS := AS) f maxNFASize;
  '(larges, smalls) ← sorted_dfas nfas;
  combined ← combineDFAs (AS := AS) order smallDFASize smalls;
  Some (larges ++ combined).

(** The first DFA gets the universal actions; there is one. *)
Definition put_universal (us : AS) (dfas : list DFA) : option (list DFA) :=
  match dfas with
  | [] => dfa ← addUniversalActionsToDFA DFA_empty us; Some [dfa]
  | dfa :: dfas => dfa ← addUniversalActionsToDFA dfa us; Some (dfa :: dfas)
  end.

(** ** The code follows *)

Abbreviation compiles := (Forall2 (fun dfa bc => compile dfa [] = Some bc)).

Lemma lower_dfas us dfas bcs : compiles dfas bcs -> forall w, foldM (lowerDFAToBytecode us) (mkLowering true w) dfas = Some (mkLowering true (w ++ bcs)).
Proof.
  induction 1 as [|dfa bc dfas bcs Hc _ IH]; intros w; [by rewrite foldM_nil, app_nil_r|]. rewrite foldM_cons. unfold lowerDFAToBytecode at 2. cbn [firstNFASeen negb written].
  rewrite option_bind_Some, Hc, !option_bind_Some, IH. by rewrite <- (assoc_L (++)).
Qed.

Lemma lower_nfas us nfas : forall l l' m larges smalls,
  sorted_dfas nfas = Some (larges, smalls) -> foldM (lowerDFAToBytecode us) l larges = Some l' ->
  foldM (lower_nfa (NS := NS) order us) (l, m) nfas = Some (l', m ++ smalls).
Proof.
  induction nfas as [|nfa nfas IH]; intros l l' m larges smalls Hs Hl; cbn [sorted_dfas] in Hs.
  { injection Hs as <- <-. rewrite foldM_nil in *. injection Hl as <-. by rewrite app_nil_r. }
  rewrite foldM_cons. unfold lower_nfa at 2. destruct (convertNFA nfa) as [[dfa nfa']|]; [|done]. cbn [mbind option_bind] in Hs |- *.
  unfold addDFA. destruct (minimize order dfa) as [d|]; [|done]. cbn [mbind option_bind] in Hs |- *. destruct (sorted_dfas nfas) as [[larges' smalls']|]; [|done]. cbn [mbind option_bind] in Hs.
  destruct (graphSize dfa <? smallDFASize); injection Hs as <- <-.
  - cbn [mbind option_bind]. rewrite (IH _ _ _ _ _ eq_refl Hl). by rewrite <- (assoc_L (++)).
  - rewrite foldM_cons in Hl. destruct (lowerDFAToBytecode us l d) as [l1|]; [|done]. cbn [mbind option_bind] in Hl |- *. by apply (IH _ _ _ larges').
Qed.

(** All the DFAs in one go. *)
Lemma lower_all us dfas dfas' bcs :
  put_universal us dfas = Some dfas' -> compiles dfas' bcs ->
  exists l, foldM (lowerDFAToBytecode us) (mkLowering false []) dfas = Some l /\ lower_dummy us l = Some bcs.
Proof.
  destruct dfas as [|d dfas]; cbn [put_universal]; intros Hput Hbcs.
  - destruct (addUniversalActionsToDFA DFA_empty us) as [d|] eqn:Ed; [|done]. injection Hput as <-. inversion Hbcs as [|? bc ? ? Hc Hnil]; subst. inversion Hnil; subst.
    eexists. split; [reflexivity|]. unfold lower_dummy. cbn [firstNFASeen negb written]. by rewrite Ed, option_bind_Some, Hc.
  - destruct (addUniversalActionsToDFA d us) as [d'|] eqn:Ed; [|done]. injection Hput as <-. inversion Hbcs as [|? bc ? bcs' Hc Hrest]; subst.
    eexists. rewrite foldM_cons. unfold lowerDFAToBytecode at 2. cbn [firstNFASeen negb written]. rewrite Ed, option_bind_Some, Hc, !option_bind_Some.
    split; [by apply lower_dfas|]. done.
Qed.

Lemma lower_filters_compiles f us dfas dfas' bcs :
  delivered_dfas f = Some dfas -> put_universal us dfas = Some dfas' -> compiles dfas' bcs -> lower_filters (NS := NS) order f us = Some bcs.
Proof.
  unfold delivered_dfas, lower_filters. destruct (processNFAs f maxNFASize) as [[f' nfas]|]; [|done]. rewrite !option_bind_Some.
  destruct (sorted_dfas nfas) as [[larges smalls]|] eqn:Es; [|done]. rewrite option_bind_Some. destruct (combineDFAs order smallDFASize smalls) as [combined|] eqn:Ec; [|done].
  rewrite option_bind_Some. intros [= <-] Hput Hbcs. destruct (lower_all us _ _ _ Hput Hbcs) as (l & Hl & Hd). rewrite foldM_app in Hl.
  destruct (foldM _ _ larges) as [l1|] eqn:El; [|done]. rewrite option_bind_Some in Hl. rewrite (lower_nfas us nfas _ _ [] _ _ Es El), option_bind_Some.
  cbn [app]. rewrite Ec, option_bind_Some, Hl, option_bind_Some. done.
Qed.

(** ** Together *)

(** What is left of [compilable] to ask of a well-formed DFA. *)
Record encodable (dfa : DFA) : Prop := {
  en_nodes : vlen (dfa_nodes dfa) < uint32_max;
  en_size : exists size, worst_case_size dfa = Some size /\ size < 2 ^ 30
}.

Lemma encodable_compiles dfa : wf_dfa dfa -> encodable dfa -> compilable dfa /\ exists bc, compile dfa [] = Some bc.
Proof.
  intros Hwf [Hn (size & Hs & Hb)]. split; [split; eauto|]. destruct (mapM (node_worst dfa) (dfa_nodes dfa)) as [ws|] eqn:Hws; unfold worst_case_size in Hs; rewrite Hws in Hs; [|done].
  rewrite option_bind_Some in Hs. injection Hs as <-. destruct (compile_layout dfa ws Hwf Hn Hws Hb) as (bc & offs & code & Hc & _). by exists bc.
Qed.

(** The tree and the universal actions can be compiled. *)
Record lowerable (f : CombinedURLFilters) (us : AS) : Prop := {
  lo_ready : filters_ready (NS := NS) (AS := AS) f;
  lo_text : forall ts a, has_pattern f ts a -> ~ seq_lang ts [];
  lo_actions : forall ts a, has_pattern f ts a -> a ∈ U;
  lo_universal : forall a, a ∈ hs_iter us -> a ∈ U;
  lo_nfas : forall f' nfas, processNFAs (NS := NS) (AS := AS) f maxNFASize = Some (f', nfas) -> Forall (nfa_affordable NS (vlen U)) nfas;
  lo_room : forall dfas, delivered_dfas f = Some dfas -> Forall (fun dfa => vlen (dfa_actions dfa) + vlen (hs_iter us) < 2 ^ 32) dfas;
  lo_code : forall dfas dfas', delivered_dfas f = Some dfas -> put_universal us dfas = Some dfas' -> Forall encodable dfas'
}.

(** The DFAs that are compiled for the filters keep the terminator. *)
Definition filters_keep_terminator (f : CombinedURLFilters) (us : AS) : Prop :=
  forall dfas dfas', delivered_dfas f = Some dfas -> put_universal us dfas = Some dfas' -> Forall terminator_kept dfas'.

Lemma nfas_ready f (f' : CombinedURLFilters) nfas :
  (forall ts a, has_pattern f ts a -> a ∈ U) -> Forall (nfa_affordable NS (vlen U)) nfas ->
  (Forall nfa_small nfas -> Forall (fun nfa => wf_nfa nfa /\ live_nfa nfa /\ 0 < vlen (nfa_nodes nfa)) nfas
     /\ forall w a, (exists nfa, nfa ∈ nfas /\ nfa_accepts nfa w a) <-> exists ts, has_pattern f ts a /\ seq_lang ts w) ->
  Forall nfa_ready nfas /\ forall w a, (exists nfa, nfa ∈ nfas /\ nfa_accepts nfa w a) <-> exists ts, has_pattern f ts a /\ seq_lang ts w.
Proof.
  intros Hacts Hnfas Hsem. destruct Hsem as [Hok Hl]; [by eapply Forall_impl; [exact Hnfas|]; intros nfa [? _]|]. split; [|done].
  apply Forall_forall. intros nfa Hn. rewrite Forall_forall in Hok, Hnfas. split; [by apply Hok|]. split; [by apply Hnfas|]. intros w a Ha.
  destruct (proj1 (Hl w a)) as (ts & Hts & _); [by exists nfa|]. by apply (Hacts ts).
Qed.

Lemma delivered_spec f us :
  lowerable f us ->
  exists dfas, delivered_dfas f = Some dfas /\ Forall wf_dfa dfas /\ Forall quiet_root dfas
    /\ forall w a, any_reports dfas w a <-> exists ts, has_pattern f ts a /\ seq_lang ts w.
Proof.
  intros [Hready Htext Hacts Hus Hnfas _ _]. unfold delivered_dfas. destruct (processNFAs_spec f maxNFASize Hready) as (f' & nfas & Hp & _ & Hsem).
  destruct (nfas_ready f f' nfas Hacts (Hnfas _ _ Hp) Hsem) as [Hrd Hl].
  destruct (sorted_dfas_spec nfas Hrd) as (larges & smalls & Hs & Hm & Hmin & Hr). apply Forall_app in Hm as [Hm1 Hm2].
  destruct (combineDFAs_spec (AS := AS) U order smallDFASize HU ltac:(lia) Horder) with (m_dfas := smalls) as (out & Hout & [Hom Homin _ Hor]); [|done|done|].
  { unfold bounded, smallDFASize. lia. }
  assert (Hall : forall w a, any_reports (larges ++ out) w a <-> exists ts, has_pattern f ts a /\ seq_lang ts w).
  { intros w a. rewrite <- Hl, <- Hr, !any_reports_app. by rewrite Hor. }
  rewrite Hp, option_bind_Some, Hs, option_bind_Some, Hout, option_bind_Some. exists (larges ++ out). split; [done|]. split; [|split; [|done]].
  - assert (Hm : Forall (mergeable U) (larges ++ out)) by by apply Forall_app. eapply Forall_impl; [exact Hm|]. intros d. apply mg_wf.
  - apply Forall_forall. intros d Hd a Ha. destruct (proj1 (Hall [] a)) as (ts & Hts & Hnil); [by exists d|]. by apply (Htext ts a).
Qed.

(** The universal actions and the patterns found at the start of the URL; [found] speaks of its terms. *)
Lemma put_universal_spec f us dfas :
  lowerable f us -> delivered_dfas f = Some dfas -> Forall wf_dfa dfas -> Forall quiet_root dfas ->
  exists first rest, put_universal us dfas = Some (first :: rest) /\ Forall wf_dfa (first :: rest)
    /\ actions_at first (dfa_root first) = hs_iter us
    /\ forall url a, (exists k dfa, (first :: rest) !! k = Some dfa /\ contributes (k =? 0)%nat dfa url a)
        <-> (exists dfa, dfa ∈ dfas /\ prefix_reports dfa url a) \/ (a ∈ hs_iter us /\ has_flags a = true).
Proof.
  intros [_ _ _ Hus _ Hroom _] Hd Hwf Hq. specialize (Hroom dfas Hd).
  assert (Hbits : Forall (fun a => 0 <= a < 2 ^ 49) (hs_iter us)) by (apply Forall_forall; intros a Ha; rewrite Forall_forall in HUbits; auto).
  assert (Hlen : vlen (hs_iter us) < 65535).
  { assert (Hsub : hs_iter us ⊆+ U) by (apply NoDup_submseteq; [apply hs_iter_nodup|auto]). apply submseteq_length in Hsub. lia. }
  pose (main := default DFA_empty (head dfas)). assert (Hmain : wf_dfa main /\ quiet_root main /\ vlen (dfa_actions main) + vlen (hs_iter us) < 2 ^ 32).
  { destruct dfas as [|d dfas]; cbn.
    - split; [|split; [|lia]]; [split|].
      + by exists emptyDFANode.
      + intros i n Hn _. apply vec_at_elem, list_elem_of_singleton in Hn as ->. split; [by exists []|]. by exists [].
      + intros a (acts & Ha & Hin). vm_compute in Ha. injection Ha as <-. by apply not_elem_of_nil in Hin.
    - apply Forall_cons in Hwf as [? _], Hq as [? _], Hroom as [? _]. done. }
  destruct Hmain as (Hmw & Hmq & Hmr). destruct (addUniversalActionsToDFA_spec main us Hmw Hbits Hlen Hmr Hmq) as (first & Hadd & Hfw & Hra).
  exists first, (tail dfas). split; [destruct dfas; cbn in *; by rewrite Hadd|]. split; [constructor; [done|]; destruct Hwf; [constructor|done]|].
  split; [rewrite (ra_root _ _ _ Hra); apply (ra_at_root _ _ _ Hra)|]. intros url a. pose proof (root_contributes true main first (hs_iter us) url a Hmw Hra Hmq) as Hc.
  assert (Hrest : (exists k dfa, tail dfas !! k = Some dfa /\ contributes false dfa url a) <-> exists dfa, dfa ∈ tail dfas /\ prefix_reports dfa url a).
  { assert (Hqt : Forall quiet_root (tail dfas)) by (destruct Hq; [constructor|done]). rewrite Forall_forall in Hqt. split.
    - intros (k & dfa & Hk%list_elem_of_lookup_2 & Hcd). exists dfa. split; [done|]. by apply (quiet_contributes false dfa url a (Hqt dfa Hk)).
    - intros (dfa & Hin & Hp). pose proof Hin as [k Hk]%list_elem_of_lookup. exists k, dfa. split; [done|]. by apply (quiet_contributes false dfa url a (Hqt dfa Hin)). }
  assert (Hsplit : (exists dfa, dfa ∈ dfas /\ prefix_reports dfa url a) <-> prefix_reports main url a \/ exists dfa, dfa ∈ tail dfas /\ prefix_reports dfa url a).
  { destruct dfas as [|d dfas]; cbn [tail head default main]; [|setoid_rewrite elem_of_cons; naive_solver]. setoid_rewrite elem_of_nil. split; [naive_solver|].
    intros [(w & v & _ & (i & Hr & Ha)%reports_run)|?]; [|naive_solver]. exfalso. destruct w as [|c w]; [cbn in Hr; injection Hr as <-; by apply not_elem_of_nil in Ha|].
    cbn in Hr. done. }
  rewrite Hsplit, <- Hrest. split.
  - intros ([|k] & dfa & Hk & Hcd); [|left; right; by exists k, dfa]. cbn in Hk. injection Hk as <-. cbn [Nat.eqb] in Hcd. apply Hc in Hcd. naive_solver.
  - intros [[Hp|(k & dfa & Hk & Hcd)]|Hu]; [exists 0%nat, first|by exists (S k), dfa|exists 0%nat, first]; (split; [done|]; apply Hc; naive_solver).
Qed.
(** What the interpreter returns for the bytecode of some filters and universal actions. *)
Definition answers (f : CombinedURLFilters) (us : AS) (bytecode : list Z) : Prop :=
  (forall doms url flags, Forall (fun c => 1 <= c <= 127) url -> vlen url + 2 < 2 ^ 31 ->
     exists A, interpret bytecode doms url flags = Some A
       /\ forall x, x ∈ A <-> applies doms flags x = true /\ ((exists ts, has_pattern f ts x /\ found ts url) \/ (x ∈ hs_iter us /\ has_flags x = true)))
  /\ forall doms, exists A, actionsMatchingEverything bytecode doms = Some A
       /\ forall x, x ∈ A <-> x ∈ hs_iter us /\ has_flags x = false /\ applies doms 0 x = true.

Lemma reports_found f dfas url x :
  (forall w a, any_reports dfas w a <-> exists ts, has_pattern f ts a /\ seq_lang ts w) ->
  (exists dfa, dfa ∈ dfas /\ prefix_reports dfa url x) <-> exists ts, has_pattern f ts x /\ found ts url.
Proof.
  intros Hl. unfold prefix_reports, found. split.
  - intros (d & Hin & w & v & Hw & Hr). destruct (proj1 (Hl w x)) as (ts & Hts & Hlang); [by exists d|]. exists ts. split; [done|]. by exists w, v.
  - intros (ts & Hts & w & v & Hw & Hlang). destruct (proj2 (Hl w x)) as (d & Hin & Hr); [by exists ts|]. exists d. split; [done|]. by exists w, v.
Qed.

Lemma encodable_all dfas : Forall wf_dfa dfas -> Forall encodable dfas -> Forall compilable dfas /\ exists bcs, compiles dfas bcs.
Proof.
  intros Hw He. induction Hw as [|d dfas Hd _ IH]; [split; [constructor|by exists []]|]. apply Forall_cons in He as [Hed He].
  destruct (encodable_compiles d Hd Hed) as [Hc (bc & Hbc)]. destruct (IH He) as [Hcs (bcs & Hbcs)]. split; [by constructor|]. exists (bc :: bcs). by constructor.
Qed.

Lemma lower_filters_spec f us :
  lowerable f us -> exists bcs, lower_filters (NS := NS) order f us = Some bcs /\ (filters_keep_terminator f us -> vlen (concat bcs) < 2 ^ 31 -> answers f us (concat bcs)).
Proof.
  intros Hlo. destruct (delivered_spec f us Hlo) as (dfas & Hd & Hwf & Hq & Hl). destruct (put_universal_spec f us dfas Hlo Hd Hwf Hq) as (first & rest & Hput & Hpw & Hroot & Hc).
  destruct (encodable_all _ Hpw (lo_code _ _ Hlo _ _ Hd Hput)) as [Hcomp (bcs & Hbcs)]. exists bcs. split; [by eapply lower_filters_compiles|]. intros Hkeep Hsize. specialize (Hkeep _ _ Hd Hput). split.
  - intros doms url flags Hurl Hlen. eexists. split; [by apply (interpret_compiled doms url flags Hurl Hlen (first :: rest))|]. intros x. rewrite elem_of_interpret_result, Hc.
    by rewrite (reports_found f dfas url x Hl).
  - intros doms. apply Forall_cons in Hcomp as [Hfirst _]. eexists. split; [by apply (actionsMatchingEverything_compiled doms [] 0 first rest bcs)|].
    intros x. rewrite elem_of_run_flagless, elem_of_empty, Hroot. tauto.
Qed.

(** ** The filters of the domains *)

Record domain_lowerable (f : CombinedURLFilters) : Prop := {
  dlo_ready : filters_ready (NS := NS) (AS := AS) f;
  dlo_text : forall ts a, has_pattern f ts a -> ~ seq_lang ts [];
  dlo_actions : forall ts a, has_pattern f ts a -> a ∈ U;
  dlo_nfas : forall f' nfas, processNFAs (NS := NS) (AS := AS) f maxNFASize = Some (f', nfas) -> Forall (nfa_affordable NS (vlen U)) nfas;
  dlo_code : forall f' nfas dfas, processNFAs (NS := NS) (AS := AS) f maxNFASize = Some (f', nfas) ->
    Forall2 (fun nfa dfa => fst <$> convertNFA (NS := NS) (AS := AS) nfa = Some dfa) nfas dfas -> Forall encodable dfas
}.

Definition domains_keep_terminator (f : CombinedURLFilters) : Prop :=
  forall f' nfas dfas, processNFAs (NS := NS) (AS := AS) f maxNFASize = Some (f', nfas) ->
    Forall2 (fun nfa dfa => fst <$> convertNFA (NS := NS) (AS := AS) nfa = Some dfa) nfas dfas -> Forall terminator_kept dfas.

Lemma lower_domains_spec f :
  domain_lowerable f ->
  exists f' nfas bcs, processNFAs (NS := NS) (AS := AS) f maxNFASize = Some (f', nfas) /\ mapM (lower_domain (NS := NS) (AS := AS)) nfas = Some bcs
    /\ (domains_keep_terminator f -> vlen (concat bcs) < 2 ^ 31 -> forall url flags, Forall (fun c => 1 <= c <= 127) url -> vlen url + 2 < 2 ^ 31 ->
        exists A, interpret (concat bcs) None url flags = Some A
          /\ forall x, x ∈ A <-> applies None flags x = true /\ exists ts, has_pattern f ts x /\ found ts url).
Proof.
  intros [Hready Htext Hacts Hnfas Hcode]. destruct (processNFAs_spec f maxNFASize Hready) as (f' & nfas & Hp & _ & Hsem).
  destruct (nfas_ready f f' nfas Hacts (Hnfas _ _ Hp) Hsem) as [Hrd Hl]. specialize (Hcode f' nfas).
  assert (Hdfas : exists dfas, Forall2 (fun nfa dfa => fst <$> convertNFA (NS := NS) (AS := AS) nfa = Some dfa) nfas dfas /\ Forall wf_dfa dfas
    /\ forall w a, any_reports dfas w a <-> exists nfa, nfa ∈ nfas /\ nfa_accepts nfa w a).
  { clear Hp Hsem Hl Hcode Hnfas. induction Hrd as [|nfa nfas Hn _ (dfas & Hd & Hw & Hr)]; [exists []; split; [constructor|split; [constructor|]]; intros w a; unfold any_reports; setoid_rewrite elem_of_nil; naive_solver|].
    destruct (converted nfa Hn) as (dfa & nfa' & Hc & _ & Hmg & Hl). exists (dfa :: dfas). split; [constructor; [by rewrite Hc|done]|]. split; [constructor; [apply Hmg|done]|].
    intros w a. rewrite any_reports_cons, Hr, Hl. setoid_rewrite elem_of_cons. naive_solver. }
  destruct Hdfas as (dfas & Hd & Hw & Hr). assert (Hall : forall w a, any_reports dfas w a <-> exists ts, has_pattern f ts a /\ seq_lang ts w) by (intros w a; by rewrite Hr, Hl).
  assert (Hq : Forall quiet_root dfas).
  { apply Forall_forall. intros d Hin a Ha. destruct (proj1 (Hall [] a)) as (ts & Hts & Hnil); [by exists d|]. by apply (Htext ts a). }
  destruct (encodable_all dfas Hw (Hcode dfas Hp Hd)) as [Hcomp (bcs & Hbcs)]. exists f', nfas, bcs. split; [done|]. split.
  - clear Hcomp Hrd Hl Hr Hw Hall Hq Hcode Hp Hsem Hnfas. revert bcs Hbcs. induction Hd as [|nfa dfa nfas dfas Hc _ IH]; intros bcs Hbcs; inversion Hbcs as [|? bc ? bcs' Hbc Hrest]; subst; [done|]. cbn [mapM].
    assert (Hlow : lower_domain (NS := NS) (AS := AS) nfa = Some bc) by (unfold lower_domain; destruct (convertNFA nfa) as [[d n]|]; [|done]; injection Hc as ->; exact Hbc).
    by rewrite Hlow, (IH bcs' Hrest).
  - intros Hkeep Hsize url flags Hurl Hlen. specialize (Hkeep f' nfas dfas Hp Hd). eexists. split; [by apply (interpret_compiled None url flags Hurl Hlen dfas)|]. intros x. rewrite elem_of_interpret_result, <- (reports_found f dfas url x Hall).
    rewrite Forall_forall in Hq. split; (intros [Happ Hx]; split; [done|]).
    + destruct Hx as (k & d & Hk%list_elem_of_lookup_2 & Hcd). exists d. split; [done|]. by apply (quiet_contributes _ d url x (Hq d Hk)) in Hcd.
    + destruct Hx as (d & Hin & Hcd). pose proof Hin as [k Hk]%list_elem_of_lookup. exists k, d. split; [done|]. by apply (quiet_contributes _ d url x (Hq d Hin)).
Qed.
End Lowering.
