(* ===== verification/RulesCorrect.v ===== *)
(** * Sorting rules into filters

    After the loop over the rules the trees and the sets of universal actions
    hold, for every URL, exactly the actions of the rules whose filter matches
    it, and the tree of the domains the actions of the rules for a host. *)

From stdpp Require Import gmap.
From S2P Require Import Prelude Bits DFA Bytecode HashSet NFA Term TermLanguage FilterSyntax Actions Minimizer PartitionCorrect CombinedURLFilters PrefixTree Yarr URLFilterParser FilterRun FilterSimplify RuleListCompiler.

(** ** What rules mean *)

(** A domain that starts with a star stands for itself and its subdomains. *)
Definition domain_matches (domain host : list Z) : Prop :=
  match domain with
  | 42 :: rest => host = rest \/ exists sub, host = sub ++ [46] ++ rest
  | _ => host = domain
  end.

(** The text of the rule's filter is that of a filter of the supported syntax,
    of characters from 1 to 127, with no empty group, which would lose the
    pattern, and if it is bound to both ends of the URL it does not match the
    empty URL, or it would be taken to match everything; the flags have 16 bits
    and the domains are ASCII text. *)
Record written (r : ContentExtensionRule) (flt : filter) : Prop := {
  wr_text : characters (urlFilter (trigger r)) = print_filter flt;
  wr_ok : filter_ok flt;
  wr_solid : solid_filter flt;
  wr_nonempty : print_filter flt <> [];
  wr_short : vlen (print_filter flt) <= MAX_PATTERN_SIZE;
  wr_ends : f_beginning flt = true -> f_end flt = true -> ~ filter_matches (urlFilterIsCaseSensitive (trigger r)) flt [];
  wr_flags : 0 <= trigger_flags (trigger r) < 2 ^ 16;
  wr_domains : Forall (fun d => text (characters d)) (domains (trigger r))
}.

(** The action of a rule: its location, flags and condition. *)
Definition rule_action (r : ContentExtensionRule) (location : Z) : Z :=
  let a := Z.lor (Z.shiftl (trigger_flags (trigger r)) 32) location in
  if bool_decide (domains (trigger r) = []) then a
  else if bool_decide (domainCondition (trigger r) = IfDomain) then Z.lor a IfDomainFlag else a.

(** A rule with its filter and its location. *)
Record entry := mkEntry { en_rule : ContentExtensionRule; en_filter : filter; en_location : Z }.

Definition en_action (e : entry) : Z := rule_action (en_rule e) (en_location e).
Definition en_matches (e : entry) (url : list Z) : Prop := filter_matches (urlFilterIsCaseSensitive (trigger (en_rule e))) (en_filter e) url.
Definition en_domains (e : entry) : list WString := domains (trigger (en_rule e)).
Definition en_host (e : entry) (host : list Z) : Prop := exists d, d ∈ en_domains e /\ domain_matches (characters d) host.

(** The actions of the entries with a property. *)
Definition actions_of (es : list entry) (P : entry -> Prop) (a : Z) : Prop := exists e, e ∈ es /\ P e /\ a = en_action e.

(** ** Groups of filters *)

Section Groups.
Context {AS : Type} `{HashSetLaws AS} (U : list Z).
Hypothesis HU : Forall (hs_key (T := AS)) U.

(** A tree and universal actions that give every URL the actions of [M]. *)
Record group (f : CombinedURLFilters) (us : list Z) (M : list Z -> Z -> Prop) : Prop := {
  gr_tree : tree_holds no_empty_group (fun a => a ∈ U) f;
  gr_text ts a : has_pattern f ts a -> ~ seq_lang ts [];
  gr_universal a : a ∈ us -> a ∈ U;
  gr_found url a : text url -> (exists ts, has_pattern f ts a /\ found ts url) \/ a ∈ us <-> M url a
}.

Lemma group_iff f us M M' : (forall url a, text url -> M url a <-> M' url a) -> group f us M -> group f us M'.
Proof. intros HM [Ht Hx Hu Hf]. split; try done. intros url a Hurl. by rewrite <- HM, <- Hf. Qed.

Lemma group_new : group newFilters [] (fun _ _ => False).
Proof.
  assert (Hno : forall ts a, ~ has_pattern newFilters ts a) by (intros ts a (v & acts & _ & Hv & _); cbn in Hv; by rewrite lookup_empty in Hv).
  split; [apply newFilters_holds|..].
  - intros ts a Hp. by apply Hno in Hp.
  - intros a Ha. by apply not_elem_of_nil in Ha.
  - intros url a _. split; [|done]. intros [(ts & Hp & _)|Ha]; [by apply Hno in Hp|by apply not_elem_of_nil in Ha].
Qed.

Lemma group_pattern f us M id ts f' :
  group f us M -> id ∈ U -> Forall no_empty_group ts -> ts <> [] -> ~ seq_lang ts [] -> addPattern f id ts = Some f' ->
  group f' us (fun url a => M url a \/ (a = id /\ found ts url)).
Proof.
  intros [Ht Hx Hu Hf] Hid Hg Hne Hnil Hadd. destruct (addPattern_spec f id ts (th_wf _ _ _ Ht) Hne) as (f2 & Hadd2 & _ & Hp). rewrite Hadd in Hadd2. injection Hadd2 as <-. split.
  - by eapply (addPattern_holds no_empty_group).
  - intros ts' a [Ha|[-> ->]]%Hp; [by apply (Hx ts' a)|done].
  - done.
  - intros url a Hurl. rewrite <- Hf by done. setoid_rewrite Hp. naive_solver.
Qed.

Lemma group_add_universal f (us : AS) M id :
  group f (hs_iter us) M -> id ∈ U -> group f (hs_iter (hs_add us id)) (fun url a => M url a \/ a = id).
Proof.
  intros [Ht Hx Hu Hf] Hid. assert (Hk : hs_key (T := AS) id) by (rewrite Forall_forall in HU; by apply HU). split; try done.
  - intros a [->|Ha]%(hs_iter_add _ _ _ Hk); [done|by apply Hu].
  - intros url a Hurl. rewrite <- Hf by done. rewrite (hs_iter_add _ _ _ Hk). tauto.
Qed.

(** ** One filter *)

Lemma add_filter_spec f (us : AS) M r flt id :
  group f (hs_iter us) M -> written r flt -> id ∈ U ->
  exists f' us', add_filter f us (trigger r) id = Some (f', us', Ok)
    /\ group f' (hs_iter us') (fun url a => M url a \/ (a = id /\ filter_matches (urlFilterIsCaseSensitive (trigger r)) flt url)).
Proof.
  intros Hg [Htext Hok Hsolid Hne Hshort Hends _ _] Hid. unfold add_filter. rewrite Htext. set (b := urlFilterIsCaseSensitive (trigger r)) in *.
  destruct (addURLFilter_added f flt b id (th_wf _ _ _ (gr_tree _ _ _ Hg)) Hok Hne Hshort) as [(f' & ts & -> & Hadd & [Hts Hnil Hs Hfound])|[-> Hall]]; rewrite option_bind_Some.
  - rewrite bool_decide_eq_false_2 by done. exists f', us. split; [done|].
    eapply group_iff; [|by eapply group_pattern; [|done|by apply Hs|..]]. intros url a Hurl. cbn. by rewrite Hfound.
  - rewrite bool_decide_eq_true_2 by done. exists f, (hs_add us id). split; [done|]. eapply group_iff; [|by apply group_add_universal]. intros url a Hurl. cbn.
    assert (Hm : filter_matches b flt url); [|naive_solver]. apply Hall; [done|]. destruct (f_beginning flt); [|by left]. destruct (f_end flt); [|by right; left].
    exfalso. apply Hends; [done|done|]. apply Hall; [constructor|]. by right; right.
Qed.

(** ** One domain *)

Lemma characterTerm_exact c : text_char c -> exists t, characterTerm c true = Some t /\ no_empty_group t /\ forall w, term_lang t w <-> w = [c].
Proof.
  intros Hc. destruct (characterTerm_stands true c Hc) as (t & Ht & Hs). exists t. split; [done|]. split; [by apply (sf_solid _ _ _ Hs)|]. intros w.
  rewrite (stands_for_term true _ _ _ Hs). unfold qatom_matches. cbn. split; [intros (d & -> & [->|[? _]]); done|]. intros ->. exists c. split; [done|by left].
Qed.

Lemma domain_terms_spec d : text d -> exists ts, domain_terms d = Some ts /\ Forall no_empty_group ts /\ forall w, seq_lang ts w <-> w = d.
Proof.
  unfold domain_terms. induction 1 as [|c d Hc _ (ts & Hts & Hg & Hl)]; [by exists []|]. destruct (characterTerm_exact c Hc) as (t & Ht & Htg & Htl).
  exists (t :: ts). cbn [mapM]. assert (u8 c = c) as -> by (unfold text_char in Hc; unfold uwrap; apply Z.mod_small; lia). rewrite Ht, option_bind_Some, Hts, option_bind_Some. split; [done|]. split; [by constructor|]. intros w. split.
  - intros (u & v & -> & ->%Htl & ->%Hl). done.
  - intros ->. exists [c], d. split; [done|]. split; [by apply Htl|by apply Hl].
Qed.

(** The terminator ends the text. *)
Lemma text_end host d x : text host -> text d -> host ++ [0] = d ++ 0 :: x -> host = d.
Proof.
  intros Hh. revert d. induction Hh as [|c host Hc _ IH]; intros d Hd Heq.
  - destruct d as [|c d]; [done|]. apply Forall_cons in Hd as [Hc _]. injection Heq as <- _. unfold text_char in Hc. lia.
  - destruct d as [|c' d]; [injection Heq as -> _; unfold text_char in Hc; lia|]. apply Forall_cons in Hd as [_ Hd]. injection Heq as -> Heq. f_equal. by apply IH.
Qed.

Lemma found_end ts (L : list Z -> Prop) host :
  (forall w, seq_lang ts w <-> L w) -> (forall w, L w -> text w) -> text host -> found (ts ++ [endTerm]) host <-> L host.
Proof.
  intros HL Htext Hh. unfold found. setoid_rewrite seq_lang_app. split.
  - intros (w & x & Heq & u & v & -> & Hu%HL & (v1 & v2 & -> & ->%endTerm_lang & ->)). rewrite <- (assoc_L (++)) in Heq. apply text_end in Heq; [by subst|done|by apply Htext].
  - intros Hl. exists (host ++ [0]), []. split; [by rewrite app_nil_r|]. exists host, [0]. split; [done|]. split; [by apply HL|]. exists [0], []. split; [done|]. split; [by apply endTerm_lang|done].
Qed.

Lemma not_empty_end ts : ~ seq_lang (ts ++ [endTerm]) [].
Proof.
  intros (u & v & Heq & _ & (v1 & v2 & -> & ->%endTerm_lang & ->))%seq_lang_app. by destruct u.
Qed.

Lemma snoc_not_nil (ts : list Term) t : ts ++ [t] <> [].
Proof. by destruct ts. Qed.

Lemma addDomain_spec f M id d :
  group f [] M -> id ∈ U -> text d ->
  exists f', addDomain f id d = Some f' /\ group f' [] (fun host a => M host a \/ (a = id /\ domain_matches d host)).
Proof.
  intros Hg Hid Hd. destruct endTerm_spec as (Hend & _ & _).
  assert (Hone : forall f M d, group f [] M -> text d -> exists f', (terms ← domain_terms d; endOfLine ← endOfLineAssertionTerm; addPattern f id (terms ++ [endOfLine])) = Some f'
    /\ group f' [] (fun host a => M host a \/ (a = id /\ host = d))).
  { clear f M d Hg Hd. intros f M d Hg Hd. destruct (domain_terms_spec d Hd) as (ts & -> & Hts & Hl). rewrite option_bind_Some, Hend, option_bind_Some.
    destruct (addPattern_spec f id (ts ++ [endTerm]) (th_wf _ _ _ (gr_tree _ _ _ Hg)) (snoc_not_nil _ _)) as (f' & Hadd & _). exists f'. split; [done|].
    eapply group_iff; [|eapply group_pattern; [exact Hg|done| |apply snoc_not_nil|apply not_empty_end|exact Hadd]]; [|apply Forall_app; split; [done|by constructor]].
    intros host a Hh. cbn. by rewrite (found_end ts (fun w => w = d)) by (done || naive_solver). }
  destruct d as [|c d]; [exact (Hone f M [] Hg Hd)|]. unfold addDomain. destruct (Z.eqb_spec c 42) as [->|Hc].
  2: { destruct (Hone f M (c :: d) Hg Hd) as (f' & He & Hg'). exists f'. split; [exact He|]. eapply group_iff; [|exact Hg']. intros host a _. unfold domain_matches.
       assert (Hsame : match c with 42 => host = d \/ (exists sub, host = sub ++ [46] ++ d) | _ => host = c :: d end <-> host = c :: d) by (destruct c as [|p|p]; try done; repeat (destruct p as [p|p|]; try done)).
       by rewrite <- Hsame. }
  apply Forall_cons in Hd as [_ Hd]. destruct (universal_stands true) as (dot & Hdot & Hsd). rewrite Hdot, option_bind_Some.
  destruct (characterTerm_exact 46) as (dc & -> & Hdcg & Hdcl); [unfold text_char; lia|]. rewrite option_bind_Some.
  destruct (domain_terms_spec d Hd) as (ts & Hts & Htg & Htl). rewrite Hts, option_bind_Some, Hend, option_bind_Some.
  assert (Hstar : forall w, term_lang (quantify dot ZeroOrMore) w <-> text w).
  { rewrite universal_set in Hdot. injection Hdot as <-. intros w. apply dotStar_lang. }
  set (sub := [quantify dot ZeroOrMore; dc] ++ ts). replace ([quantify dot ZeroOrMore; dc] ++ ts ++ [endTerm]) with (sub ++ [endTerm]) by (unfold sub; by rewrite <- (assoc_L (++))).
  assert (Hsub : forall w, seq_lang sub w <-> exists u, text u /\ w = u ++ [46] ++ d).
  { intros w. split.
    - intros (u & v & -> & Hu%Hstar & u' & v' & -> & ->%Hdcl & ->%Htl). by exists u.
    - intros (u & Hu & ->). exists u, ([46] ++ d). split; [done|]. split; [by apply Hstar|]. exists [46], d. split; [done|]. split; [by apply Hdcl|by apply Htl]. }
  destruct (addPattern_spec f id (sub ++ [endTerm]) (th_wf _ _ _ (gr_tree _ _ _ Hg)) (snoc_not_nil _ _)) as (f1 & Hadd & _). rewrite Hadd, option_bind_Some.
  assert (Hg1 : group f1 [] (fun host a => M host a \/ (a = id /\ exists s, text s /\ host = s ++ [46] ++ d))).
  { eapply group_iff; [|eapply group_pattern; [exact Hg|done| |apply snoc_not_nil|apply not_empty_end|exact Hadd]].
    - intros host a Hh. cbn beta. rewrite (found_end sub (fun w => exists u, text u /\ w = u ++ [46] ++ d)); [done|done| |done].
      intros w (u & Hu & ->). apply Forall_app. split; [done|]. constructor; [unfold text_char; lia|done].
    - apply Forall_app. split; [|by constructor]. repeat constructor; try done. apply (sf_solid true (ADot, ZeroOrMore)); [|done]. by apply quantify_stands. }
  destruct (Hone f1 _ d Hg1 Hd) as (f' & He & Hg'). rewrite Hts, option_bind_Some, Hend, option_bind_Some in He. exists f'. split; [done|].
  eapply group_iff; [|exact Hg']. intros host a Hh. cbn. split; [|intros [?|[-> [->|(s & ->)]]]; [tauto|tauto|]].
  - intros [[?|[-> (s & _ & ->)]]|[-> ->]]; [by left|right; split; [done|right; by exists s]|right; split; [done|by left]].
  - left. right. split; [done|]. exists s. by apply Forall_app in Hh as [? _].
Qed.

Lemma add_domains_spec id ds : forall f M,
  group f [] M -> id ∈ U -> Forall (fun d => text (characters d)) ds ->
  exists f', add_domains f id ds = Some f' /\ group f' [] (fun host a => M host a \/ (a = id /\ exists d, d ∈ ds /\ domain_matches (characters d) host)).
Proof.
  unfold add_domains. induction ds as [|d ds IH]; intros f M Hg Hid Hd.
  - exists f. split; [done|]. eapply group_iff; [|exact Hg]. intros host a _. setoid_rewrite elem_of_nil. naive_solver.
  - apply Forall_cons in Hd as [Hd Hds]. destruct (addDomain_spec f M id (characters d) Hg Hid Hd) as (f1 & He & Hg1). rewrite foldM_cons, He, option_bind_Some.
    destruct (IH f1 _ Hg1 Hid Hds) as (f' & He' & Hg'). exists f'. split; [done|]. eapply group_iff; [|exact Hg']. intros host a _. cbn. setoid_rewrite elem_of_cons. naive_solver.
Qed.

(** ** The loop over the rules *)

Record groups_ok (g : rule_groups (AS := AS)) (es : list entry) : Prop := {
  go_without : group (filtersWithoutDomains g) (hs_iter (universalActionsWithoutDomains g))
    (fun url => actions_of es (fun e => en_domains e = [] /\ en_matches e url));
  go_with : group (filtersWithDomains g) (hs_iter (universalActionsWithDomains g))
    (fun url => actions_of es (fun e => en_domains e <> [] /\ en_matches e url));
  go_domains : group (domainFilters g) [] (fun host => actions_of es (fun e => en_host e host))
}.

Lemma actions_of_snoc es e P a : actions_of (es ++ [e]) P a <-> actions_of es P a \/ (P e /\ a = en_action e).
Proof. unfold actions_of. setoid_rewrite elem_of_app. setoid_rewrite list_elem_of_singleton. naive_solver. Qed.

Lemma groups_new : groups_ok newGroups [].
Proof.
  assert (Hno : forall P a, False <-> actions_of [] P a) by (intros P a; split; [done|]; by intros (e & ?%not_elem_of_nil & _)).
  split; cbn; rewrite ?hs_iter_empty; (eapply group_iff; [|apply group_new]); intros; apply Hno.
Qed.

Lemma add_rule_spec g es e :
  groups_ok g es -> written (en_rule e) (en_filter e) -> en_action e ∈ U ->
  exists g', add_rule g (en_rule e) (en_location e) = Some (g', Ok) /\ groups_ok g' (es ++ [e]).
Proof.
  intros [Hwo Hwi Hdo] Hw. unfold add_rule, en_action, rule_action. cbv zeta. set (a := Z.lor _ (en_location e)). fold (en_domains e). case_bool_decide as Hnil; intros Hid.
  - destruct (add_filter_spec _ _ _ (en_rule e) (en_filter e) a Hwo Hw Hid) as (f' & us' & -> & Hg). rewrite option_bind_Some. eexists. split; [reflexivity|].
    assert (Ha : en_action e = a) by (unfold en_action, rule_action; fold (en_domains e); by rewrite bool_decide_eq_true_2).
    split; cbn; (eapply group_iff; [|eassumption]); intros url x _; cbn; rewrite actions_of_snoc, Ha; unfold en_matches, en_host; rewrite ?Hnil; [naive_solver|naive_solver|].
    setoid_rewrite elem_of_nil. naive_solver.
  - set (id := if bool_decide (domainCondition _ = IfDomain) then _ else _) in *.
    destruct (add_filter_spec _ _ _ (en_rule e) (en_filter e) id Hwi Hw Hid) as (f' & us' & -> & Hg). rewrite option_bind_Some, bool_decide_eq_true_2 by done.
    destruct (add_domains_spec id (en_domains e) _ _ Hdo Hid (wr_domains _ _ Hw)) as (fd & -> & Hgd). rewrite option_bind_Some. eexists. split; [reflexivity|].
    assert (Ha : en_action e = id) by (unfold en_action, rule_action; fold (en_domains e); by rewrite bool_decide_eq_false_2).
    split; cbn; (eapply group_iff; [|eassumption]); intros url x _; cbn; rewrite actions_of_snoc, Ha; unfold en_matches, en_host; naive_solver.
Qed.

Lemma add_rules_spec es : forall g done k locs,
  groups_ok g done -> Forall (fun e => written (en_rule e) (en_filter e) /\ en_action e ∈ U) es ->
  (forall (i : nat) e, es !! i = Some e -> locs.[k + Z.of_nat i] = Some (en_location e)) ->
  exists g', add_rules g k locs (map en_rule es) = Some (g', Ok) /\ groups_ok g' (done ++ es).
Proof.
  induction es as [|e es IH]; intros g done k locs Hg Hes Hl; cbn [map add_rules]; [exists g; by rewrite app_nil_r|].
  apply Forall_cons in Hes as [[Hw Ha] Hes]. pose proof (Hl 0%nat e eq_refl) as H0'. rewrite Z.add_0_r in H0'. rewrite H0', option_bind_Some.
  destruct (add_rule_spec g done e Hg Hw Ha) as (g1 & -> & Hg1). rewrite option_bind_Some, bool_decide_eq_true_2 by done.
  destruct (IH g1 (done ++ [e]) (k + 1) locs Hg1 Hes) as (g' & -> & Hg').
  - intros i e' Hi. rewrite <- (Hl (S i) e' Hi). f_equal. lia.
  - exists g'. split; [done|]. by rewrite <- (assoc_L (++)) in Hg'.
Qed.
End Groups.
