(* ===== verification/RuleListCorrect.v ===== *)
(** * The compiled rules answer for the rules

    The bytecode of a rule list, run on a URL and a host, returns exactly the
    actions of the rules whose filter, flags and domains accept the load. *)

From stdpp Require Import relations gmap.
From S2P Require Import Prelude Bits DFA Bytecode BytecodeCompiler BytecodeInterpreter InterpreterSteps BytecodeCorrect BytecodeClaims HashSet NFA NFACorrect NFAToDFA SubsetCorrect Term TermLanguage FilterSyntax Actions ActionsCorrect SerializeCorrect SerializeInvariant SerializeClaims ContentExtension Minimizer CombinedURLFilters PrefixTree Yarr URLFilterParser FilterRun FilterSimplify ProcessNFAs ProcessCorrect RuleListCompiler LoweringCorrect RulesCorrect.

(** ** The bits of an action *)

Section Bits.
Variable e : entry.
Hypothesis Hflags : 0 <= trigger_flags (trigger (en_rule e)) < 2 ^ 16.
Hypothesis Hloc : 0 <= en_location e < 2 ^ 32.

(** The condition bit. *)
Definition en_if (e : entry) : bool := negb (bool_decide (en_domains e = [])) && bool_decide (domainCondition (trigger (en_rule e)) = IfDomain).

Lemma en_action_sum : en_action e = Z.b2z (en_if e) * 2 ^ 48 + trigger_flags (trigger (en_rule e)) * 2 ^ 32 + en_location e.
Proof.
  unfold en_action, rule_action, en_if. fold (en_domains e). cbv zeta. rewrite lor_add by lia. set (s := _ * 2 ^ 32 + _).
  assert (Es : s = trigger_flags (trigger (en_rule e)) * 2 ^ 32 + en_location e) by done. clearbody s. assert (Hif : Z.lor s IfDomainFlag = 2 ^ 48 + s).
  { rewrite Z.lor_comm. change IfDomainFlag with (Z.shiftl 1 48). rewrite lor_add by lia. lia. }
  destruct (bool_decide (en_domains e = [])); cbn [negb andb Z.b2z]; [lia|]. destruct (bool_decide (domainCondition _ = IfDomain)); cbn [Z.b2z]; lia.
Qed.

Lemma en_action_range : 0 <= en_action e < 2 ^ 49.
Proof. rewrite en_action_sum. destruct (en_if e); cbn [Z.b2z]; lia. Qed.

Lemma en_action_location : u32 (en_action e) = en_location e.
Proof.
  rewrite en_action_sum. unfold uwrap. replace (_ + _ + _) with (en_location e + (Z.b2z (en_if e) * 2 ^ 16 + trigger_flags (trigger (en_rule e))) * 2 ^ 32) by lia.
  rewrite Z.mod_add by lia. by apply Z.mod_small.
Qed.

Lemma en_action_flags : u16 (Z.shiftr (en_action e) 32) = trigger_flags (trigger (en_rule e)).
Proof.
  rewrite en_action_sum, Z.shiftr_div_pow2 by lia. replace (_ + _ + _) with (en_location e + (Z.b2z (en_if e) * 2 ^ 16 + trigger_flags (trigger (en_rule e))) * 2 ^ 32) by lia.
  rewrite Z.div_add, (Z.div_small (en_location e)) by lia. unfold uwrap. rewrite Z.add_0_l, Z.add_comm, Z.mod_add by lia. by apply Z.mod_small.
Qed.

Lemma en_action_if : negb (Z.land (en_action e) IfDomainFlag =? 0) = en_if e.
Proof.
  change IfDomainFlag with (Z.shiftl 1 48). rewrite land_bit by lia. rewrite en_action_sum. rewrite Z.testbit_odd, Z.shiftr_div_pow2 by lia.
  replace (_ + _ + _) with ((trigger_flags (trigger (en_rule e)) * 2 ^ 32 + en_location e) + Z.b2z (en_if e) * 2 ^ 48) by lia.
  rewrite Z.div_add, Z.div_small by lia. by destruct (en_if e).
Qed.
End Bits.

(** ** Flags *)

(** The load type and the resource type of the load are among those of the trigger, if it names any. *)
Definition types_match (triggerFlags flags : Z) : Prop :=
  (Z.land triggerFlags LoadTypeMask <> 0 -> Z.land (Z.land triggerFlags LoadTypeMask) flags <> 0)
  /\ (Z.land triggerFlags ResourceTypeMask <> 0 -> Z.land (Z.land triggerFlags ResourceTypeMask) flags <> 0).

Definition en_load (e : entry) (flags : Z) : Prop := types_match (trigger_flags (trigger (en_rule e))) flags.

Lemma flags_match_types a flags : flags_match a flags = true <-> types_match (u16 (Z.shiftr a 32)) flags.
Proof.
  unfold flags_match, types_match. set (f := u16 _). cbv zeta. rewrite andb_true_iff.
  assert (Hone : forall m, (if negb (Z.land f m =? 0) then negb (Z.land (Z.land f m) flags =? 0) else true) = true <-> (Z.land f m <> 0 -> Z.land (Z.land f m) flags <> 0)).
  { intros m. destruct (Z.eqb_spec (Z.land f m) 0); cbn [negb]; [naive_solver|]. rewrite negb_true_iff, Z.eqb_neq. naive_solver. }
  by rewrite !Hone.
Qed.

(** A request for all types is accepted by every trigger. *)
Lemma all_types_match f : types_match f allLoadTypesAndResourceTypes.
Proof.
  unfold types_match, allLoadTypesAndResourceTypes. split; intros Hf; rewrite <- Z.land_assoc; [change (Z.land LoadTypeMask _) with LoadTypeMask|change (Z.land ResourceTypeMask _) with ResourceTypeMask]; done.
Qed.

(** ** Compiling *)

Section Compile.
Context `{Host} {NS AS : Type} `{HashSetLaws NS} `{HashSetLaws AS}.
Variable iteration_order : PendingMap -> PendingMap.
Variable state_order : list (list Z * list Z) -> list (list Z * list Z).
Hypothesis iteration_order_perm : forall m, iteration_order m ≡ₚ m.
Hypothesis state_order_perm : forall l, state_order l ≡ₚ l.
Hypothesis Hkeys : 2 ^ 49 <= hs_bound (T := AS).

(** What the compiler stores for the filters fits its integers, and the code of every DFA is short enough for its jumps. *)
Record tree_affordable (n : Z) (f : CombinedURLFilters) : Prop := {
  ta_sizes : Forall (fun es => vlen es < 2 ^ 32) (m_vertices f);
  ta_room : tree_nodes f <= hs_bound (T := NS) /\ tree_nodes f < 2 ^ 32;
  ta_nfas : forall f' nfas, processNFAs (NS := NS) (AS := AS) f maxNFASize = Some (f', nfas) -> Forall (nfa_affordable NS n) nfas
}.

Record affordable (n : Z) (f : CombinedURLFilters) (us : AS) : Prop := {
  af_tree : tree_affordable n f;
  af_room : forall dfas, delivered_dfas (NS := NS) (AS := AS) state_order f = Some dfas -> Forall (fun dfa => vlen (dfa_actions dfa) + vlen (hs_iter us) < 2 ^ 32) dfas;
  af_code : forall dfas dfas', delivered_dfas (NS := NS) (AS := AS) state_order f = Some dfas -> put_universal us dfas = Some dfas' -> Forall encodable dfas'
}.

Record domains_affordable (n : Z) (f : CombinedURLFilters) : Prop := {
  da_tree : tree_affordable n f;
  da_code : forall f' nfas dfas, processNFAs (NS := NS) (AS := AS) f maxNFASize = Some (f', nfas) ->
    Forall2 (fun nfa dfa => fst <$> convertNFA (NS := NS) (AS := AS) nfa = Some dfa) nfas dfas -> Forall encodable dfas
}.

Record rules_affordable (rules : list ContentExtensionRule) : Prop := {
  rf_count : vlen rules < 65535;
  rf_actions : forall actions locs, serializeActions iteration_order rules = Some (actions, locs) -> vlen actions < 2 ^ 32;
  rf_groups : forall actions locs (g : rule_groups (AS := AS)), serializeActions iteration_order rules = Some (actions, locs) ->
    add_rules newGroups 0 locs rules = Some (g, Ok) ->
    affordable (vlen rules) (filtersWithoutDomains g) (universalActionsWithoutDomains g)
    /\ affordable (vlen rules) (filtersWithDomains g) (universalActionsWithDomains g)
    /\ domains_affordable (vlen rules) (domainFilters g)
}.

(** The DFAs that are compiled for the three groups of filters keep the
    terminator of the URL.  This is no bound: a list of rules can break it. *)
Definition rules_keep_terminator (rules : list ContentExtensionRule) : Prop :=
  forall actions locs (g : rule_groups (AS := AS)), serializeActions iteration_order rules = Some (actions, locs) ->
    add_rules newGroups 0 locs rules = Some (g, Ok) ->
    filters_keep_terminator (NS := NS) (AS := AS) state_order (filtersWithoutDomains g) (universalActionsWithoutDomains g)
    /\ filters_keep_terminator (NS := NS) (AS := AS) state_order (filtersWithDomains g) (universalActionsWithDomains g)
    /\ domains_keep_terminator (NS := NS) (AS := AS) (domainFilters g).

Lemma group_ready U f us M :
  group U f us M -> Forall (hs_key (T := AS)) U -> tree_affordable (vlen U) f -> filters_ready (NS := NS) (AS := AS) f.
Proof.
  intros [Ht _ _ _] HU [Hs Hr _]. rewrite Forall_forall in HU. split.
  - apply (th_wf _ _ _ Ht).
  - apply (th_root _ _ _ Ht).
  - intros v. eapply Forall_impl; [apply (th_actions _ _ _ Ht)|]. exact HU.
  - intros u t c Hedge _. by eapply tree_holds_edge.
  - done.
  - done.
Qed.

Lemma group_lowerable U f (us : AS) M :
  group U f (hs_iter us) M -> Forall (hs_key (T := AS)) U -> affordable (vlen U) f us -> lowerable (NS := NS) U state_order f us.
Proof.
  intros Hg HU [Ht Hroom Hcode]. split.
  - by eapply group_ready.
  - apply (gr_text _ _ _ _ Hg).
  - intros ts a. apply (tree_holds_pattern _ _ _ _ _ (gr_tree _ _ _ _ Hg)).
  - apply (gr_universal _ _ _ _ Hg).
  - apply (ta_nfas _ _ Ht).
  - done.
  - done.
Qed.

Lemma group_domain_lowerable U f M :
  group U f [] M -> Forall (hs_key (T := AS)) U -> domains_affordable (vlen U) f -> domain_lowerable (NS := NS) (AS := AS) U f.
Proof.
  intros Hg HU [Ht Hcode]. split.
  - by eapply group_ready.
  - apply (gr_text _ _ _ _ Hg).
  - intros ts a. apply (tree_holds_pattern _ _ _ _ _ (gr_tree _ _ _ _ Hg)).
  - apply (ta_nfas _ _ Ht).
  - done.
Qed.

(** ** Rules with their locations *)

Lemma entries_of rules flts : Forall2 written rules flts -> forall locs, length locs = length rules ->
  exists es, map en_rule es = rules /\ map en_filter es = flts /\ map en_location es = locs /\ Forall (fun e => written (en_rule e) (en_filter e)) es.
Proof.
  induction 1 as [|r flt rules flts Hw _ IH]; intros [|l locs] Hl; try done; [by exists []|]. destruct (IH locs) as (es & <- & <- & <- & Hes); [by injection Hl|].
  exists (mkEntry r flt l :: es). split; [done|]. split; [done|]. split; [done|]. by constructor.
Qed.

Lemma locations_in rules actions locs :
  Forall serializable rules -> serializeActions iteration_order rules = Some (actions, locs) -> vlen actions < 2 ^ 32 ->
  length locs = length rules /\ Forall (fun l => 0 <= l < vlen actions) locs.
Proof.
  intros Hser Hs Hsize. destruct (serializeActions_serialized iteration_order iteration_order_perm rules Hser) as (a & l & E & Hz). rewrite Hs in E. injection E as <- <-. specialize (Hz Hsize).
  split; [apply (sz_length _ _ _ _ Hz)|]. apply Forall_lookup. intros i l Hl. destruct (lookup_lt_is_Some_2 rules i) as [r Hr]; [rewrite <- (sz_length _ _ _ _ Hz); by eapply lookup_lt_Some|].
  assert (Hp : placed closes actions rules i r l).
  { apply (sz_placed _ _ _ _ Hz i r l Hr Hl). intros [_ Hle]. apply lookup_lt_Some in Hr. lia. }
  unfold placed in Hp. case_decide; [destruct Hp as (sel & Hp & _)|]; apply holds_stored, stored_lt in Hp; cbn [length] in Hp; try lia.
  rewrite selector_bytes_length in Hp. destruct (is8Bit sel); lia.
Qed.

(** Two entries with domains have different locations. *)
Lemma entries_distinct es actions :
  Forall serializable (map en_rule es) -> serializeActions iteration_order (map en_rule es) = Some (actions, map en_location es) -> vlen actions < 2 ^ 32 ->
  forall e e', e ∈ es -> e' ∈ es -> en_domains e <> [] -> en_domains e' <> [] -> en_location e = en_location e' -> e = e'.
Proof.
  intros Hser Hs Hsize e e' [i Hi]%list_elem_of_lookup [j Hj]%list_elem_of_lookup Hd Hd' Heq.
  assert (Hw : forall k f, es !! k = Some f -> en_domains f <> [] -> with_domains (map en_rule es) k).
  { intros k f Hk Hf. exists (en_rule f). split; [by rewrite list_lookup_fmap, Hk|done]. }
  assert (Hloc : forall k f, es !! k = Some f -> map en_location es !! k = Some (en_location f)) by (intros k f Hk; by rewrite list_lookup_fmap, Hk).
  destruct (lt_eq_lt_dec i j) as [[Hlt| ->]|Hlt]; [|congruence|].
  - pose proof (serializeActions_distinct iteration_order iteration_order_perm _ _ _ i j _ _ Hser Hs Hsize Hlt (Hw _ _ Hi Hd) (Hw _ _ Hj Hd') (Hloc _ _ Hi) (Hloc _ _ Hj)). lia.
  - pose proof (serializeActions_distinct iteration_order iteration_order_perm _ _ _ j i _ _ Hser Hs Hsize Hlt (Hw _ _ Hj Hd') (Hw _ _ Hi Hd) (Hloc _ _ Hj) (Hloc _ _ Hi)). lia.
Qed.

(** ** What the bytecode answers *)

(** The rules without domains: their actions for a load are found by the interpreter or match everything. *)
Definition answers_without (es : list entry) (bytecode : list Z) : Prop :=
  forall url flags, text url -> vlen url + 2 < 2 ^ 31 ->
  exists A M, interpret bytecode None url flags = Some A /\ actionsMatchingEverything bytecode None = Some M
    /\ forall x, x ∈ A \/ x ∈ M <-> actions_of es (fun e => en_domains e = [] /\ en_matches e url /\ en_load e flags) x.

(** The host is as the condition of the rule asks. *)
Definition en_condition (e : entry) (host : list Z) : Prop :=
  if bool_decide (domainCondition (trigger (en_rule e)) = IfDomain) then en_host e host else ~ en_host e host.

(** The rules with domains: the actions of the host are found first, and exclude others. *)
Definition answers_with (es : list entry) (bytecode domainBytecode : list Z) : Prop :=
  forall url host flags, text url -> vlen url + 2 < 2 ^ 31 -> text host -> vlen host + 2 < 2 ^ 31 ->
  exists D B V, interpret domainBytecode None host allLoadTypesAndResourceTypes = Some D
    /\ interpretWithDomains bytecode url flags D = Some B /\ actionsMatchingEverything bytecode None = Some V
    /\ forall x, x ∈ B \/ (x ∈ V /\ matchesDomain x D = true)
         <-> actions_of es (fun e => en_domains e <> [] /\ en_matches e url /\ en_load e flags /\ en_condition e host) x.

Lemma text_url url : text url -> Forall (fun c => 1 <= c <= 127) url.
Proof. intros Hu. eapply Forall_impl; [exact Hu|]. unfold text_char. lia. Qed.

Section Answers.
Variable es : list entry.
Hypothesis Hflags : Forall (fun e => 0 <= trigger_flags (trigger (en_rule e)) < 2 ^ 16) es.
Hypothesis Hlocs : Forall (fun e => 0 <= en_location e < 2 ^ 32) es.

Lemma flagless_matches a flags : has_flags a = false -> flags_match a flags = true.
Proof.
  intros Hf. apply flags_match_types. assert (Hz : u16 (Z.shiftr a 32) = 0).
  { unfold has_flags in Hf. apply negb_false_iff, Z.eqb_eq in Hf. rewrite ActionFlagMask_shift in Hf. unfold uwrap. rewrite <- Z.land_ones by lia.
    apply (f_equal (fun z => Z.shiftr z 32)) in Hf. by rewrite Z.shiftr_land, Z.shiftr_shiftl_l, Z.sub_diag, Z.shiftl_0_r, Z.shiftr_0_l in Hf. }
  rewrite Hz. unfold types_match. by rewrite !Z.land_0_l.
Qed.

(** Universal actions with and without flags. *)
Lemma interpreted_or_universal doms flags P us x :
  (applies doms flags x = true /\ (P \/ (x ∈ us /\ has_flags x = true))) \/ ((x ∈ (us : list Z) /\ has_flags x = false) /\ applies doms flags x = true)
  <-> applies doms flags x = true /\ (P \/ x ∈ us).
Proof. destruct (has_flags x); naive_solver. Qed.

Lemma en_action_matches e flags : e ∈ es -> flags_match (en_action e) flags = true <-> en_load e flags.
Proof.
  intros He. rewrite Forall_forall in Hflags, Hlocs. unfold en_load. by rewrite flags_match_types, en_action_flags by auto.
Qed.

Lemma group_answers_without U f (us : AS) bytecode :
  group U f (hs_iter us) (fun url => actions_of es (fun e => en_domains e = [] /\ en_matches e url)) -> answers f us bytecode ->
  answers_without es bytecode.
Proof.
  intros Hg [Hrun Hall] url flags Hurl Hlen. destruct (Hrun None url flags (text_url _ Hurl) Hlen) as (A & HA & HxA). destruct (Hall None) as (M & HM & HxM).
  exists A, M. split; [done|]. split; [done|]. intros x. rewrite HxA, HxM.
  assert (Hz : x ∈ hs_iter us /\ has_flags x = false /\ applies None 0 x = true <-> (x ∈ hs_iter us /\ has_flags x = false) /\ applies None flags x = true).
  { unfold applies. rewrite !andb_true_r. split; [intros (? & Hf & _)|intros ((? & Hf) & _)]; rewrite flagless_matches by done; naive_solver. }
  rewrite Hz, interpreted_or_universal, (gr_found _ _ _ _ Hg url x Hurl). unfold applies, actions_of. rewrite andb_true_r. split.
  - intros [Hm (e & He & [Hd He'] & ->)]. exists e. by rewrite <- (en_action_matches e flags He).
  - intros (e & He & (Hd & He' & Hld) & ->). split; [by apply en_action_matches|]. by exists e.
Qed.

(** The condition of an action whose location belongs to one rule. *)
Lemma en_action_condition D host e :
  (forall e e', e ∈ es -> e' ∈ es -> en_domains e <> [] -> en_domains e' <> [] -> en_location e = en_location e' -> e = e') ->
  (forall x, x ∈ D <-> actions_of es (fun e => en_host e host) x) ->
  e ∈ es -> en_domains e <> [] -> matchesDomain (en_action e) D = true <-> en_condition e host.
Proof.
  intros Hone HD He Hd. assert (Hin : en_action e ∈ D <-> en_host e host).
  { rewrite HD. split; [|intros Hh; by exists e]. intros (e' & He' & Hh & Heq). assert (Hd' : en_domains e' <> []) by (destruct Hh as (d & Hd' & _); by destruct (en_domains e'); [apply not_elem_of_nil in Hd'|]).
    pose proof Hlocs as Hl. pose proof Hflags as Hf. rewrite Forall_forall in Hl, Hf. rewrite (Hone e e' He He' Hd Hd'); [done|]. rewrite <- !en_action_location by auto. congruence. }
  rewrite Forall_forall in Hflags, Hlocs. unfold matchesDomain. cbv zeta. rewrite en_action_if by auto. unfold en_if, en_condition. rewrite (bool_decide_eq_false_2 (en_domains e = [])) by done. cbn [negb andb].
  destruct (bool_decide (domainCondition _ = IfDomain)); case_bool_decide; cbn; naive_solver.
Qed.

Lemma group_answers_with U f (us : AS) bytecode domainBytecode :
  (forall e e', e ∈ es -> e' ∈ es -> en_domains e <> [] -> en_domains e' <> [] -> en_location e = en_location e' -> e = e') ->
  group U f (hs_iter us) (fun url => actions_of es (fun e => en_domains e <> [] /\ en_matches e url)) -> answers f us bytecode ->
  (forall host, text host -> vlen host + 2 < 2 ^ 31 ->
     exists D, interpret domainBytecode None host allLoadTypesAndResourceTypes = Some D /\ forall x, x ∈ D <-> actions_of es (fun e => en_host e host) x) ->
  answers_with es bytecode domainBytecode.
Proof.
  intros Hone Hg [Hrun Hall] Hdom url host flags Hurl Hlen Hh Hhl. destruct (Hdom host Hh Hhl) as (D & HD & HxD).
  destruct (Hrun (Some D) url flags (text_url _ Hurl) Hlen) as (B & HB & HxB). destruct (Hall None) as (V & HV & HxV). exists D, B, V. split; [done|]. split; [done|]. split; [done|]. intros x. rewrite HxB, HxV.
  assert (Hz : (x ∈ hs_iter us /\ has_flags x = false /\ applies None 0 x = true) /\ matchesDomain x D = true <-> (x ∈ hs_iter us /\ has_flags x = false) /\ applies (Some D) flags x = true).
  { unfold applies. rewrite andb_true_r. split; [intros ((? & Hf & _) & ?)|intros ((? & Hf) & Hm)]; rewrite flagless_matches in * by done; naive_solver. }
  rewrite Hz, interpreted_or_universal, (gr_found _ _ _ _ Hg url x Hurl). unfold applies, actions_of. rewrite andb_true_iff. split.
  - intros [[Hm Hd] (e & He & [Hne He'] & ->)]. exists e. rewrite <- (en_action_matches e flags He), <- (en_action_condition D host e Hone HxD He Hne). done.
  - intros (e & He & (Hne & He' & Hld & Hc) & ->). split; [|by exists e]. split; [by apply en_action_matches|]. by apply (en_action_condition D host e).
Qed.
End Answers.

(** ** The whole list *)

(** The calls of a client for a rule list that compiles. *)
Definition calls (actions : list Z) (bw bd bs : list (list Z)) : list client_call :=
  WriteActions actions :: map WriteFiltersWithoutDomainsBytecode bw ++ map WriteFiltersWithDomainsBytecode bd ++ map WriteDomainFiltersBytecode bs ++ [Finalize].

(** The entries are the rules with their filters and the locations of their actions. *)
Record entries_for (rules : list ContentExtensionRule) (flts : list filter) (actions : list Z) (es : list entry) : Prop := {
  ef_rules : map en_rule es = rules;
  ef_filters : map en_filter es = flts;
  ef_locations : serializeActions iteration_order rules = Some (actions, map en_location es)
}.

Lemma compileParsedRules_spec rules flts :
  Forall serializable rules -> Forall2 written rules flts -> rules_affordable rules ->
  exists actions es bw bd bs, entries_for rules flts actions es
    /\ compileParsedRules (NS := NS) (AS := AS) iteration_order state_order rules = Some (calls actions bw bd bs, None)
    /\ (rules_keep_terminator rules -> vlen (concat bw) < 2 ^ 31 -> answers_without es (concat bw))
    /\ (rules_keep_terminator rules -> vlen (concat bd) < 2 ^ 31 -> vlen (concat bs) < 2 ^ 31 -> answers_with es (concat bd) (concat bs)).
Proof.
  intros Hser Hw [Hcount Hsize Hgroups].
  destruct (serializeActions_serialized iteration_order iteration_order_perm rules Hser) as (actions & locs & Hs & _). specialize (Hsize actions locs Hs).
  destruct (locations_in rules actions locs Hser Hs Hsize) as [Hll Hlr]. destruct (entries_of rules flts Hw locs Hll) as (es & Er & Ef & El & Hes). subst rules flts locs.
  assert (Hlocs : Forall (fun e => 0 <= en_location e < 2 ^ 32) es).
  { rewrite Forall_map in Hlr. eapply Forall_impl; [exact Hlr|]. cbn. lia. }
  assert (Hflags : Forall (fun e => 0 <= trigger_flags (trigger (en_rule e)) < 2 ^ 16) es) by (eapply Forall_impl; [exact Hes|]; intros e He; apply (wr_flags _ _ He)).
  set (U := map en_action es). assert (Hlen : vlen U = vlen (map en_rule es)) by (unfold U; by rewrite !length_map).
  assert (Hbits : Forall (fun a => 0 <= a < 2 ^ 49) U).
  { unfold U. apply Forall_map, Forall_forall. intros e He. rewrite Forall_forall in Hflags, Hlocs. apply en_action_range; auto. }
  assert (HU : Forall (hs_key (T := AS)) U) by (eapply Forall_impl; [exact Hbits|]; intros a Ha; cbn in Ha; unfold hs_key; lia).
  destruct (add_rules_spec U HU es newGroups [] 0 (map en_location es)) as (g & Hadd & [Hwo Hwi Hdo]); [apply groups_new|..].
  { apply Forall_forall. intros e He. rewrite Forall_forall in Hes. split; [by apply Hes|]. by apply list_elem_of_fmap_2. }
  { intros i e Hi. apply vec_at_Some. rewrite Z.add_0_l, Nat2Z.id, list_lookup_fmap, Hi. split; [lia|done]. }
  destruct (Hgroups _ _ _ Hs Hadd) as (Haw & Had & Has). rewrite <- Hlen in *. cbn [app] in *.
  destruct (lower_filters_spec (NS := NS) U state_order HU Hbits Hcount state_order_perm _ _ (group_lowerable U _ _ _ Hwo HU Haw)) as (bw & Hbw & Hansw).
  destruct (lower_filters_spec (NS := NS) U state_order HU Hbits Hcount state_order_perm _ _ (group_lowerable U _ _ _ Hwi HU Had)) as (bd & Hbd & Hansd).
  destruct (lower_domains_spec (NS := NS) U HU Hbits Hcount _ (group_domain_lowerable U _ _ Hdo HU Has)) as (f' & nfas & bs & Hp & Hbs & Hanss).
  exists actions, es, bw, bd, bs. split; [done|]. split; [|split].
  - unfold compileParsedRules. rewrite Hs, option_bind_Some, Hadd, option_bind_Some, bool_decide_eq_true_2 by done.
    unfold lower_filtersWithoutDomains, lower_filtersWithDomains, lower_domainFilters. by rewrite Hbw, Hbd, Hp, option_bind_Some, Hbs.
  - intros Hkeep Hb. destruct (Hkeep _ _ _ Hs Hadd) as (Hkw & _ & _). by eapply group_answers_without; [..|apply Hansw].
  - intros Hkeep Hb Hb'. destruct (Hkeep _ _ _ Hs Hadd) as (_ & Hkd & Hks). eapply group_answers_with; [done|done|by eapply entries_distinct|exact Hwi|by apply Hansd|].
    intros host Hh Hhl. destruct (Hanss Hks Hb' host allLoadTypesAndResourceTypes (text_url _ Hh) Hhl) as (D & HD & HxD). exists D. split; [done|]. intros x. rewrite HxD, <- (gr_found _ _ _ _ Hdo host x Hh).
    assert (Hm : applies None allLoadTypesAndResourceTypes x = true) by (unfold applies; rewrite andb_true_r; apply flags_match_types, all_types_match). rewrite elem_of_nil. naive_solver.
Qed.
End Compile.
