(* ===== verification/RuleListClaims.v ===== *)
(** * Claims: compiling a list of rules

    The bytecode answers for the rules; a filter that is not accepted stops
    the compilation. *)

From stdpp Require Import relations gmap.
From S2P Require Import Prelude DFA Bytecode BytecodeCompiler BytecodeInterpreter BytecodeCorrect BytecodeClaims HashSet NFA NFACorrect NFAToDFA SubsetCorrect ConvertClaims Term TermLanguage FilterSyntax Actions ContentExtension SerializeCorrect Minimizer CombinedURLFilters Yarr URLFilterParser ProcessNFAs ProcessCorrect RuleListCompiler LoweringCorrect RulesCorrect RuleListCorrect Bits SerializeClaims PartitionCorrect PrefixTree YarrCorrect FilterParserCorrect FilterRun FilterSimplify.

(** * Rule lists that fit, by evaluation

    Whether what the compiler stores for a list of rules fits its integers can
    be computed; an NFA of [n] nodes has at most [2 ^ n] sets of states.  So can
    whether the DFAs of the rules keep the terminator. *)

(** ** A hash set of 64-bit numbers, in the order of their insertion *)

Record WideSet := mkWideSet { members : list Z }.

#[export] Instance wide_set : HashSet WideSet := {
  hs_empty := mkWideSet [];
  hs_add s k := if decide (k ∈ members s) then s else mkWideSet (members s ++ [k]);
  hs_iter s := remove_dups (members s);
  hs_bound := 2 ^ 64 - 2
}.

#[export] Instance wide_set_laws : HashSetLaws WideSet.
Proof.
  split; [done|intros s; apply NoDup_remove_dups|].
  intros s k x _. cbn. rewrite !elem_of_remove_dups. case_decide; [naive_solver|]. cbn. rewrite elem_of_app, list_elem_of_singleton. tauto.
Qed.

(** ** DFAs and NFAs *)

Lemma compilableb_encodable dfa : compilableb dfa = true -> encodable dfa.
Proof. intros [Hwf Hn Hs]%compilableb_sound. by split. Qed.

Definition nfa_smallb (nfa : NFA) : bool :=
  (vlen (nfa_nodes nfa) <? 2 ^ 32) && (vlen (nfa_transitions nfa) <? 2 ^ 32) && (vlen (nfa_targets nfa) <? 2 ^ 32)
  && (vlen (epsilonTransitionsTargets nfa) <? 2 ^ 32) && (vlen (nfa_actions nfa) <? 2 ^ 32).

Section Check.
Context `{Host} {NS AS : Type} `{HashSetLaws NS} `{HashSetLaws AS}.
Variable iteration_order : PendingMap -> PendingMap.
Variable state_order : list (list Z * list Z) -> list (list Z * list Z).

Definition nfa_affordableb (n : Z) (nfa : NFA) : bool :=
  nfa_smallb nfa && nfa_okb nfa && (0 <? vlen (nfa_nodes nfa)) && (vlen (nfa_nodes nfa) <=? hs_bound (T := NS))
  && (128 * 2 ^ vlen (nfa_nodes nfa) <? 2 ^ 31) && (2 ^ vlen (nfa_nodes nfa) * n <? 2 ^ 32).

Lemma nfa_affordableb_sound n nfa : nfa_affordableb n nfa = true -> nfa_affordable NS n nfa.
Proof.
  unfold nfa_affordableb, nfa_smallb. intros Hb. bprop. match goal with Hk : nfa_okb nfa = true |- _ => apply nfa_okb_sound in Hk as [_ Hlive] end.
  split; [by split|]. split; [done|]. exists (2 ^ vlen (nfa_nodes nfa)). split; [by apply state_sets_pow2|]. done.
Qed.

(** ** Trees *)

Definition tree_affordableb (n : Z) (f : CombinedURLFilters) : bool :=
  forallb (fun es => vlen es <? 2 ^ 32) (m_vertices f) && (tree_nodes f <=? hs_bound (T := NS)) && (tree_nodes f <? 2 ^ 32)
  && match processNFAs (NS := NS) (AS := AS) f maxNFASize with Some (_, nfas) => forallb (nfa_affordableb n) nfas | None => true end.

Lemma tree_affordableb_sound n f : tree_affordableb n f = true -> tree_affordable (NS := NS) (AS := AS) n f.
Proof.
  unfold tree_affordableb. intros Hb. bprop. split; [|done|].
  - apply Forall_forall. intros es Hin%list_elem_of_In. match goal with Hf : forallb _ (m_vertices f) = true |- _ => rewrite forallb_forall in Hf; specialize (Hf es Hin) end. bprop. done.
  - intros f' nfas E. match goal with Hm : match processNFAs _ _ with _ => _ end = true |- _ => rewrite E, forallb_forall in Hm; rename Hm into Hall end.
    apply Forall_forall. intros nfa Hin%list_elem_of_In. by apply nfa_affordableb_sound, Hall.
Qed.

Definition affordableb (n : Z) (f : CombinedURLFilters) (us : AS) : bool :=
  tree_affordableb n f
  && match delivered_dfas (NS := NS) (AS := AS) state_order f with
     | Some dfas =>
         forallb (fun dfa => vlen (dfa_actions dfa) + vlen (hs_iter us) <? 2 ^ 32) dfas
         && match put_universal us dfas with Some dfas' => forallb compilableb dfas' | None => true end
     | None => true
     end.

Lemma affordableb_sound n f us : affordableb n f us = true -> affordable (NS := NS) state_order n f us.
Proof.
  unfold affordableb. rewrite andb_true_iff. intros [Ht Hd]. split; [by apply tree_affordableb_sound|..].
  - intros dfas E. rewrite E, andb_true_iff in Hd. destruct Hd as [Hd _]. rewrite forallb_forall in Hd. apply Forall_forall. intros dfa Hin%list_elem_of_In. specialize (Hd dfa Hin). by bprop.
  - intros dfas dfas' E E'. rewrite E, E', andb_true_iff in Hd. destruct Hd as [_ Hd]. rewrite forallb_forall in Hd. apply Forall_forall. intros dfa Hin%list_elem_of_In. by apply compilableb_encodable, Hd.
Qed.

Definition domains_affordableb (n : Z) (f : CombinedURLFilters) : bool :=
  tree_affordableb n f
  && match processNFAs (NS := NS) (AS := AS) f maxNFASize with
     | Some (_, nfas) => forallb (fun nfa => match convertNFA (NS := NS) (AS := AS) nfa with Some (dfa, _) => compilableb dfa | None => true end) nfas
     | None => true
     end.

Lemma domains_affordableb_sound n f : domains_affordableb n f = true -> domains_affordable (NS := NS) (AS := AS) n f.
Proof.
  unfold domains_affordableb. rewrite andb_true_iff. intros [Ht Hd]. split; [by apply tree_affordableb_sound|].
  intros f' nfas dfas E Hc. rewrite E, forallb_forall in Hd. clear E. induction Hc as [|nfa dfa nfas dfas Hn _ IH]; constructor.
  - specialize (Hd nfa (or_introl eq_refl)). destruct (convertNFA nfa) as [[d nfa']|]; [|done]. injection Hn as ->. by apply compilableb_encodable.
  - apply IH. intros n' Hin. apply Hd. by right.
Qed.

(** ** Rules *)

Definition rules_affordableb (rules : list ContentExtensionRule) : bool :=
  (vlen rules <? 65535)
  && match serializeActions iteration_order rules with
     | Some (actions, locs) =>
         (vlen actions <? 2 ^ 32)
         && match add_rules (AS := AS) newGroups 0 locs rules with
            | Some (g, Ok) =>
                affordableb (vlen rules) (filtersWithoutDomains g) (universalActionsWithoutDomains g)
                && affordableb (vlen rules) (filtersWithDomains g) (universalActionsWithDomains g)
                && domains_affordableb (vlen rules) (domainFilters g)
            | _ => true
            end
     | None => true
     end.

Lemma rules_affordableb_sound rules : rules_affordableb rules = true -> rules_affordable (NS := NS) (AS := AS) iteration_order state_order rules.
Proof.
  unfold rules_affordableb. rewrite andb_true_iff. intros [Hc Hs]. split; [by bprop| |].
  - intros actions locs E. rewrite E, andb_true_iff in Hs. destruct Hs as [Hs _]. by bprop.
  - intros actions locs g E Ea. rewrite E, Ea, !andb_true_iff in Hs. destruct Hs as (_ & [Hw Hd] & Hm). split; [by apply affordableb_sound|]. split; [by apply affordableb_sound|by apply domains_affordableb_sound].
Qed.

(** ** The terminator *)

Definition filters_keep_terminatorb (f : CombinedURLFilters) (us : AS) : bool :=
  match delivered_dfas (NS := NS) (AS := AS) state_order f ≫= put_universal us with
  | Some dfas => forallb terminator_keptb dfas
  | None => true
  end.

Lemma filters_keep_terminatorb_sound f us : filters_keep_terminatorb f us = true -> filters_keep_terminator (NS := NS) state_order f us.
Proof.
  unfold filters_keep_terminatorb. intros Hk dfas dfas' E E'. rewrite E, option_bind_Some, E', forallb_forall in Hk.
  apply Forall_forall. intros dfa Hin%list_elem_of_In. by apply terminator_keptb_sound, Hk.
Qed.

Definition domains_keep_terminatorb (f : CombinedURLFilters) : bool :=
  match processNFAs (NS := NS) (AS := AS) f maxNFASize with
  | Some (_, nfas) => forallb (fun nfa => match convertNFA (NS := NS) (AS := AS) nfa with Some (dfa, _) => terminator_keptb dfa | None => true end) nfas
  | None => true
  end.

Lemma domains_keep_terminatorb_sound f : domains_keep_terminatorb f = true -> domains_keep_terminator (NS := NS) (AS := AS) f.
Proof.
  unfold domains_keep_terminatorb. intros Hd f' nfas dfas E Hc. rewrite E, forallb_forall in Hd. clear E. induction Hc as [|nfa dfa nfas dfas Hn _ IH]; constructor.
  - specialize (Hd nfa (or_introl eq_refl)). destruct (convertNFA nfa) as [[d nfa']|]; [|done]. injection Hn as ->. by apply terminator_keptb_sound.
  - apply IH. intros n' Hin. apply Hd. by right.
Qed.

Definition rules_keep_terminatorb (rules : list ContentExtensionRule) : bool :=
  match '(_, locs) ← serializeActions iteration_order rules; add_rules (AS := AS) newGroups 0 locs rules with
  | Some (g, Ok) =>
      filters_keep_terminatorb (filtersWithoutDomains g) (universalActionsWithoutDomains g)
      && filters_keep_terminatorb (filtersWithDomains g) (universalActionsWithDomains g)
      && domains_keep_terminatorb (domainFilters g)
  | _ => true
  end.

Lemma rules_keep_terminatorb_sound rules :
  rules_keep_terminatorb rules = true -> rules_keep_terminator (NS := NS) (AS := AS) iteration_order state_order rules.
Proof.
  unfold rules_keep_terminatorb. intros Hk actions locs g E Ea. rewrite E, option_bind_Some, Ea, !andb_true_iff in Hk. destruct Hk as [[Hw Hd] Hm].
  split; [by apply filters_keep_terminatorb_sound|]. split; [by apply filters_keep_terminatorb_sound|by apply domains_keep_terminatorb_sound].
Qed.
End Check.

(** ** Rules with a filter that is not accepted *)

(** The filter is parsed without aborting, and the domains are texts. *)
Record parsable (r : ContentExtensionRule) : Prop := {
  pa_units : Forall (fun c => 0 <= c < 2 ^ 16) (characters (urlFilter (trigger r)));
  pa_escapes : plain_escapes (characters (urlFilter (trigger r))) = true;
  pa_domains : Forall (fun d => text (characters d)) (domains (trigger r))
}.

(** What the filter parser says about the filter of a rule. *)
Definition filter_status (r : ContentExtensionRule) : option ParseStatus :=
  snd <$> addURLFilter newFilters (characters (urlFilter (trigger r))) (urlFilterIsCaseSensitive (trigger r)) 0.

Definition rejected (r : ContentExtensionRule) : Prop :=
  exists status, filter_status r = Some status /\ status <> Ok /\ status <> MatchesEverything.

(** The status does not depend on the filters that are there. *)
Lemma finalizePattern_status p id id' f f' :
  wf_tree f -> wf_tree f' -> fst <$> finalizePattern p id f = fst <$> finalizePattern p id' f'.
Proof.
  intros Hf Hf'. unfold finalizePattern. destruct (hasError p); [done|].
  destruct (simplifySunkTerms_some (m_sunkTerms (sinkFloatingTermIfNecessary p)) (m_hasBeginningOfLineAssertion (sinkFloatingTermIfNecessary p))) as [ts ->].
  rewrite !option_bind_Some. destruct (forallb _ ts) eqn:Hall; [done|]. assert (Hne : ts <> []) by (intros ->; done).
  destruct (addPattern_spec f id ts Hf Hne) as (f1 & -> & _). destruct (addPattern_spec f' id' ts Hf' Hne) as (f2 & -> & _). done.
Qed.

Lemma addURLFilter_status f f' pattern b id id' :
  wf_tree f -> wf_tree f' -> snd <$> addURLFilter f pattern b id = snd <$> addURLFilter f' pattern b id'.
Proof.
  intros Hf Hf'. unfold addURLFilter. destruct (negb _); [done|]. case_bool_decide; [done|]. destruct (Yarr.parse _ _ pattern) as [[p error]|]; [|done]. rewrite !option_bind_Some.
  case_bool_decide; [|done]. pose proof (finalizePattern_status p id id' f f' Hf Hf') as Hs.
  destruct (finalizePattern p id f) as [[p1 f1]|], (finalizePattern p id' f') as [[p2 f2]|]; try done. injection Hs as ->. done.
Qed.

Lemma addDomain_total f id d : wf_tree f -> text d -> exists f', addDomain f id d = Some f' /\ wf_tree f'.
Proof.
  intros Hf Hd. assert (Hone : forall f ts, wf_tree f -> exists f', addPattern f id (ts ++ [endTerm]) = Some f' /\ wf_tree f').
  { intros f0 ts Hf0. destruct (addPattern_spec f0 id (ts ++ [endTerm]) Hf0 (snoc_not_nil _ _)) as (f' & -> & Hf' & _). by exists f'. }
  destruct endTerm_spec as (Hend & _ & _). unfold addDomain. rewrite Hend. destruct d as [|c d]; [exact (Hone f [] Hf)|].
  destruct (domain_terms_spec (c :: d) Hd) as (ts & -> & _). apply Forall_cons in Hd as [_ Hd]. destruct (domain_terms_spec d Hd) as (ts' & -> & _). rewrite !option_bind_Some.
  case_match; [|by apply Hone]. destruct (universal_stands true) as (dot & -> & _). destruct (characterTerm_exact 46) as (dc & -> & _); [unfold text_char; lia|]. rewrite !option_bind_Some, (assoc_L (++)).
  destruct (Hone f ([quantify dot ZeroOrMore; dc] ++ ts') Hf) as (f1 & -> & Hf1). rewrite option_bind_Some. by apply Hone.
Qed.

Lemma add_domains_total id ds : forall f, wf_tree f -> Forall (fun d => text (characters d)) ds -> exists f', add_domains f id ds = Some f' /\ wf_tree f'.
Proof.
  unfold add_domains. induction ds as [|d ds IH]; intros f Hf Hd; [by exists f|]. apply Forall_cons in Hd as [Hd Hds].
  destruct (addDomain_total f id (characters d) Hf Hd) as (f1 & He & Hf1). rewrite foldM_cons, He, option_bind_Some. by apply IH.
Qed.

Section Rejected.
Context {AS : Type} `{HashSet AS}.

Record groups_wf (g : rule_groups (AS := AS)) : Prop := {
  gw_without : wf_tree (filtersWithoutDomains g);
  gw_with : wf_tree (filtersWithDomains g);
  gw_domains : wf_tree (domainFilters g)
}.

Lemma add_filter_total f (us : AS) r id :
  wf_tree f -> parsable r -> exists f' us' status, add_filter f us (trigger r) id = Some (f', us', status) /\ wf_tree f' /\ (rejected r -> status <> Ok).
Proof.
  intros Hf [Hu He _]. unfold add_filter. destruct (addURLFilter_spec f _ (urlFilterIsCaseSensitive (trigger r)) id Hf Hu He) as (f' & status & Ha & Hf' & _).
  assert (Hst : filter_status r = Some status) by (unfold filter_status; rewrite (addURLFilter_status newFilters f _ _ 0 id wf_newFilters Hf); by rewrite Ha).
  rewrite Ha, option_bind_Some. case_bool_decide as Hm.
  - exists f', (hs_add us id), Ok. split; [done|]. split; [done|]. intros (s & Hs & _ & Hn). congruence.
  - exists f', us, status. split; [done|]. split; [done|]. intros (s & Hs & Hn & _). congruence.
Qed.

Lemma add_rule_total (g : rule_groups (AS := AS)) r location :
  groups_wf g -> parsable r -> exists g' status, add_rule g r location = Some (g', status) /\ groups_wf g' /\ (rejected r -> status <> Ok).
Proof.
  intros [Hw Hi Hd] Hp. unfold add_rule. cbv zeta. case_bool_decide.
  - destruct (add_filter_total (filtersWithoutDomains g) (universalActionsWithoutDomains g) r (Z.lor (Z.shiftl (trigger_flags (trigger r)) 32) location) Hw Hp) as (f' & us' & status & -> & Hf' & Hr).
    rewrite option_bind_Some. eexists _, status. split; [reflexivity|]. by split.
  - set (id := if bool_decide (domainCondition _ = IfDomain) then _ else _).
    destruct (add_filter_total (filtersWithDomains g) (universalActionsWithDomains g) r id Hi Hp) as (f' & us' & status & -> & Hf' & Hr). rewrite option_bind_Some. case_bool_decide as Hok.
    + destruct (add_domains_total id (domains (trigger r)) (domainFilters g) Hd (pa_domains _ Hp)) as (fd & -> & Hfd). rewrite option_bind_Some. eexists _, Ok. split; [reflexivity|]. subst. by split.
    + eexists _, status. split; [reflexivity|]. by split.
Qed.

Lemma add_rules_rejected rules : forall (g : rule_groups (AS := AS)) k locs,
  groups_wf g -> Forall parsable rules -> Exists rejected rules -> 0 <= k -> k + vlen rules <= vlen locs ->
  exists g' status, add_rules g k locs rules = Some (g', status) /\ status <> Ok.
Proof.
  induction rules as [|r rules IH]; intros g k locs Hg Hp Hr Hk Hl; [by apply Exists_nil in Hr|]. apply Forall_cons in Hp as [Hp Hps]. cbn [add_rules]. cbn [length] in Hl.
  destruct (vec_at_is_Some locs k) as [l ->]; [lia|]. rewrite option_bind_Some. destruct (add_rule_total g r l Hg Hp) as (g' & status & -> & Hg' & Hrej). rewrite option_bind_Some.
  case_bool_decide as Hok; [|by exists g', status]. apply (IH g' (k + 1)); [done|done| |lia|lia]. apply Exists_cons in Hr as [Hr|Hr]; [|done]. by destruct (Hrej Hr).
Qed.
End Rejected.

(** ** The theorems *)

Section Claims.
Context `{Host} {NS AS : Type} `{HashSetLaws NS} `{HashSetLaws AS}.
Variable iteration_order : PendingMap -> PendingMap.
Variable state_order : list (list Z * list Z) -> list (list Z * list Z).
Hypothesis iteration_order_perm : forall m, iteration_order m ≡ₚ m.
Hypothesis state_order_perm : forall l, state_order l ≡ₚ l.

(** C2: a list of rules whose filters are written in the supported syntax,
    without empty groups, and do not match the empty URL if they are bound to
    both ends ([written]), and whose automata fit the integers and hash tables of the
    compiler ([rules_affordable], sizes only) compiles: the client is given the
    actions, the bytecode of the three groups of filters, in this order, and is
    told to finish.  If moreover the DFAs of the groups keep the terminator of
    the URL ([rules_keep_terminator]; not every list does), the bytecode answers
    for the rules: on a URL and load flags the interpreter, together with the
    actions that match everything, gives exactly the actions of the rules
    without domains whose filter and types accept the load; and with the
    actions it gives for a host, exactly those of the rules with domains whose
    condition also accepts the host. *)
Theorem compileParsedRules_correct (rules : list ContentExtensionRule) (flts : list filter) :
  2 ^ 49 <= hs_bound (T := AS) -> Forall serializable rules -> Forall2 written rules flts ->
  rules_affordable (NS := NS) (AS := AS) iteration_order state_order rules ->
  exists actions es bw bd bs, entries_for iteration_order rules flts actions es
    /\ compileParsedRules (NS := NS) (AS := AS) iteration_order state_order rules = Some (calls actions bw bd bs, None)
    /\ (rules_keep_terminator (NS := NS) (AS := AS) iteration_order state_order rules -> vlen (concat bw) < 2 ^ 31 -> answers_without es (concat bw))
    /\ (rules_keep_terminator (NS := NS) (AS := AS) iteration_order state_order rules -> vlen (concat bd) < 2 ^ 31 -> vlen (concat bs) < 2 ^ 31 -> answers_with es (concat bd) (concat bs)).
Proof. intros Hkeys. by apply compileParsedRules_spec. Qed.

(** C7: if the filter of some rule is not accepted, and no filter aborts the
    parser, the compilation ends with the error for an invalid regular
    expression; the client has been given the actions, but no bytecode, and
    is not told to finish. *)
Theorem compileParsedRules_rejects (rules : list ContentExtensionRule) :
  Forall serializable rules -> Forall parsable rules -> Exists rejected rules ->
  (forall actions locs, serializeActions iteration_order rules = Some (actions, locs) -> vlen actions < 2 ^ 32) ->
  exists actions, compileParsedRules (NS := NS) (AS := AS) iteration_order state_order rules = Some ([WriteActions actions], Some JSONInvalidRegex)
    /\ exists locs, serializeActions iteration_order rules = Some (actions, locs).
Proof.
  intros Hser Hp Hr Hsize. destruct (serializeActions_serialized iteration_order iteration_order_perm rules Hser) as (actions & locs & Hs & _). specialize (Hsize actions locs Hs).
  destruct (locations_in iteration_order iteration_order_perm rules actions locs Hser Hs Hsize) as [Hl _].
  destruct (add_rules_rejected (AS := AS) rules newGroups 0 locs) as (g & status & Hadd & Hst); [by split; apply wf_newFilters|done|done|done|lia|].
  exists actions. split; [|by exists locs]. unfold compileParsedRules. rewrite Hs, option_bind_Some, Hadd, option_bind_Some. by rewrite bool_decide_eq_false_2.
Qed.
End Claims.

(** ** Witnesses *)

Module RuleListExample.

Definition host : Host := {| host_big_endian := false |}.

Definition str (cs : list Z) : WString := mkWString true cs.

(** "ab" blocks; "^a" on "*x" ignores; ".*" blocks cookies. *)
Definition rules : list ContentExtensionRule := [
  mkRule (mkTrigger (str [97; 98]) false 0 [] NoDomain) (mkAction BlockLoad uint32_max emptyWString);
  mkRule (mkTrigger (str [94; 97]) true 0 [str [42; 120]] IfDomain) (mkAction IgnorePreviousRules uint32_max emptyWString);
  mkRule (mkTrigger (str [46; 42]) true 2 [] NoDomain) (mkAction BlockCookies uint32_max emptyWString)].

Definition filters : list filter := [
  mkFilter false [(AChar 97, One); (AChar 98, One)] false;
  mkFilter true [(AChar 97, One)] false;
  mkFilter false [(ADot, ZeroOrMore)] false].

Lemma same_order {A} (l : list A) : (fun l => l) l ≡ₚ l.
Proof. done. Qed.

Lemma list_serializable : Forall serializable rules.
Proof. unfold serializable. repeat (apply Forall_cons; split; [cbn; set_solver|]). apply Forall_nil. done. Qed.

Lemma rules_written : Forall2 written rules filters.
Proof.
  repeat (apply List.Forall2_cons || apply List.Forall2_nil); (split; [reflexivity|..]); cbn; try done; try lia;
    repeat (apply List.Forall_cons || apply List.Forall_nil); cbn; unfold text_char; repeat split; try lia.
  all: repeat (apply List.Forall_cons || apply List.Forall_nil); lia.
Qed.

Lemma rules_fit : rules_affordable (H := host) (NS := WideSet) (AS := WideSet) (fun m => m) (fun m => m) rules.
Proof. apply rules_affordableb_sound. by vm_compute. Qed.

Lemma rules_kept : rules_keep_terminator (H := host) (NS := WideSet) (AS := WideSet) (fun m => m) (fun m => m) rules.
Proof. apply rules_keep_terminatorb_sound. by vm_compute. Qed.

(** The rules keep the terminator, so the answers are theirs. *)
Lemma compileParsedRules_correct_witness :
  exists actions es bw bd bs, entries_for (H := host) (fun m => m) rules filters actions es
    /\ compileParsedRules (H := host) (NS := WideSet) (AS := WideSet) (fun m => m) (fun m => m) rules = Some (calls actions bw bd bs, None)
    /\ (vlen (concat bw) < 2 ^ 31 -> answers_without (H := host) es (concat bw))
    /\ (vlen (concat bd) < 2 ^ 31 -> vlen (concat bs) < 2 ^ 31 -> answers_with (H := host) es (concat bd) (concat bs)).
Proof.
  destruct (compileParsedRules_correct (H := host) (NS := WideSet) (AS := WideSet) (fun m => m) (fun m => m) same_order same_order rules filters) as (actions & es & bw & bd & bs & He & Hc & Hw & Hd).
  - cbn. lia.
  - exact list_serializable.
  - exact rules_written.
  - exact rules_fit.
  - exists actions, es, bw, bd, bs. split; [exact He|]. split; [exact Hc|]. split; [exact (Hw rules_kept)|exact (Hd rules_kept)].
Defined.

(** "^a$" and "^a." block. *)
Definition lost_rules : list ContentExtensionRule := [
  mkRule (mkTrigger (str [94; 97; 36]) true 0 [] NoDomain) (mkAction BlockLoad uint32_max emptyWString);
  mkRule (mkTrigger (str [94; 97; 46]) true 0 [] NoDomain) (mkAction BlockLoad uint32_max emptyWString)].

Definition lost_filters : list filter := [
  mkFilter true [(AChar 97, One)] true;
  mkFilter true [(AChar 97, One); (ADot, One)] false].

Lemma lost_matches : filter_matches true (mkFilter true [(AChar 97, One)] true) [97].
Proof.
  exists [], [97; 0], []. split; [done|]. split; [done|]. cbn. exists [97], [0]. split; [done|]. split; [exists 97; split; [done|by left]|].
  exists [0], []. done.
Qed.

Lemma lost_written : Forall2 written lost_rules lost_filters.
Proof.
  repeat (apply List.Forall2_cons || apply List.Forall2_nil); (split; [reflexivity|..]); cbn; try done; try lia;
    repeat (apply List.Forall_cons || apply List.Forall_nil); cbn; unfold text_char; repeat split; try lia.
  intros _ _ (before & text & after & Ht & Hb & Hl). rewrite (Hb eq_refl) in Ht. cbn in Hl, Ht.
  destruct Hl as (u & v & -> & (d & -> & Hd) & w & w' & -> & -> & _). destruct before; done.
Qed.

Lemma lost_fit : rules_affordable (H := host) (NS := WideSet) (AS := WideSet) (fun m => m) (fun m => m) lost_rules.
Proof. apply rules_affordableb_sound. by vm_compute. Qed.

(** C40: the two rules that block "^a$" and "^a." are written in the supported
    syntax and fit every size, and the list compiles; "^a$" matches the URL
    "a", and the types of its rule accept every load.  But the bytecode gives no
    action on the URL "a", by the interpreter or among the actions that match
    everything: the rules share their action, so the node after "a" is left for
    the same node on the terminator and on every other character, and the
    terminator is lost to the fallback.  On "ab" the action is found. *)
Theorem terminator_rule_lost :
  Forall serializable lost_rules /\ Forall2 written lost_rules lost_filters
  /\ rules_affordable (H := host) (NS := WideSet) (AS := WideSet) (fun m => m) (fun m => m) lost_rules
  /\ exists actions es bw bd bs e, entries_for (H := host) (fun m => m) lost_rules lost_filters actions es
       /\ compileParsedRules (H := host) (NS := WideSet) (AS := WideSet) (fun m => m) (fun m => m) lost_rules = Some (calls actions bw bd bs, None)
       /\ es !! 0%nat = Some e /\ en_domains e = [] /\ en_matches e [97] /\ (forall flags, en_load e flags)
       /\ interpret (H := host) (concat bw) None [97] 0 = Some ∅ /\ actionsMatchingEverything (H := host) (concat bw) None = Some ∅
       /\ interpret (H := host) (concat bw) None [97; 98] 0 = Some {[en_action e]}.
Proof.
  split; [unfold serializable; repeat (apply Forall_cons; split; [cbn; set_solver|]); by apply Forall_nil|]. split; [exact lost_written|]. split; [exact lost_fit|].
  set (es := zip_with (fun r flt => mkEntry r flt 0) lost_rules lost_filters). exists [0], es,
    [[16; 0; 0; 0; 17; 97; 4; 10; 27; 2; 6; 0; 0; 0; 0; 10]], [[5; 0; 0; 0; 10]], [], (mkEntry (mkRule (mkTrigger (str [94; 97; 36]) true 0 [] NoDomain) (mkAction BlockLoad uint32_max emptyWString)) (mkFilter true [(AChar 97, One)] true) 0).
  split; [by split; vm_compute|]. split; [by vm_compute|]. split; [done|]. split; [done|]. split; [exact lost_matches|]. split; [done|].
  split_and!; by vm_compute.
Qed.

(** "a(" is not a regular expression. *)
Definition bad_rules : list ContentExtensionRule := rules ++ [mkRule (mkTrigger (str [97; 40]) false 0 [] NoDomain) (mkAction BlockLoad uint32_max emptyWString)].

Lemma bad_list_serializable : Forall serializable bad_rules.
Proof. unfold serializable. repeat (apply Forall_cons; split; [cbn; set_solver|]). apply Forall_nil. done. Qed.

Lemma compileParsedRules_rejects_witness :
  exists actions, compileParsedRules (H := host) (NS := WideSet) (AS := WideSet) (fun m => m) (fun m => m) bad_rules = Some ([WriteActions actions], Some JSONInvalidRegex)
    /\ exists locs, serializeActions (H := host) (fun m => m) bad_rules = Some (actions, locs).
Proof.
  apply (compileParsedRules_rejects (H := host) (NS := WideSet) (AS := WideSet) (fun m => m) (fun m => m) same_order bad_rules).
  - exact bad_list_serializable.
  - repeat (apply List.Forall_cons || apply List.Forall_nil); (split; [|vm_compute; reflexivity|]); cbn;
      repeat (apply List.Forall_cons || apply List.Forall_nil); unfold text_char; lia.
  - do 3 apply Exists_cons_tl. apply Exists_cons_hd. exists YarrError. split; [vm_compute; reflexivity|done].
  - intros actions locs Hs. vm_compute in Hs. injection Hs as <- _. vm_compute. reflexivity.
Defined.
End RuleListExample.
