(* ===== verification/LiteralParser.v ===== *)
(** * The JSON parser of JavaScriptCore (runtime/LiteralParser.h/.cpp, JSONParse of runtime/JSONObject.cpp)

    A lexer, and a parser with explicit stacks of states, objects and property
    names, in the mode [StrictJSON], in which rule lists are parsed.  The lexer's
    position is the text that is left; a token carries what the parser reads of
    it.  Error messages are left out.

    [None] is an abort, or too little fuel; an empty [JSValue] is [Some None]. *)

From stdpp Require Import gmap.
From S2P Require Import Prelude DFA Yarr.

(** ** Values *)

(** A number is the integer the lexer computed itself, or the double that [parseDouble] reads in the text. *)
Inductive Number :=
| SmallInteger (negative : bool) (magnitude : Z)
| ParsedDouble (text : list Z).

(** Values of JSON; the properties of an object by name. *)
Inductive JSValue :=
| JSNull
| JSBoolean (b : bool)
| JSNumber (n : Number)
| JSString (s : list Z)
| JSArray (l : list JSValue)
| JSObject (properties : list (list Z * JSValue)).

(** [putDirect]: an earlier value of the property is replaced. *)
Fixpoint putDirect (properties : list (list Z * JSValue)) (name : list Z) (value : JSValue) : list (list Z * JSValue) :=
  match properties with
  | [] => [(name, value)]
  | (n, v) :: properties => if bool_decide (n = name) then (n, value) :: properties else (n, v) :: putDirect properties name value
  end.

(** ** Tokens *)

Inductive TokenType :=
| TokLBracket | TokRBracket | TokLBrace | TokRBrace
| TokString | TokIdentifier | TokNumber | TokColon
| TokLParen | TokRParen | TokComma | TokTrue | TokFalse
| TokNull | TokEnd | TokDot | TokAssign | TokSemi | TokError.

#[export] Instance TokenType_eq_dec : EqDecision TokenType.
Proof. solve_decision. Defined.

(** The string of a string, the number of a number. *)
Record LiteralParserToken := mkToken { token_type : TokenType; stringToken : list Z; numberToken : Number }.

Definition plainToken (type : TokenType) : LiteralParserToken := mkToken type [] (SmallInteger false 0).

Record Lexer := mkLexer { m_ptr : list Z; m_currentToken : LiteralParserToken }.

(** ** The lexer *)

Definition isJSONWhiteSpace (c : Z) : bool := (c =? 32) || (c =? 9) || (c =? 10) || (c =? 13).

(** The loops that advance over characters of a kind: what was read and what is left. *)
Fixpoint span (f : Z -> bool) (ptr : list Z) : list Z * list Z :=
  match ptr with
  | c :: rest => if f c then let '(run, rest) := span f rest in (c :: run, rest) else ([], ptr)
  | [] => ([], [])
  end.

Definition isSafeStringCharacter (terminator c : Z) : bool := (32 <=? c) && negb (c =? 92) && negb (c =? terminator).

Definition convertHex (c1 c2 : Z) : Z := u8 (Z.lor (Z.shiftl (toASCIIHexValue c1) 4) (toASCIIHexValue c2)).
Definition convertUnicode (c1 c2 c3 c4 : Z) : Z := u16 (Z.lor (Z.shiftl (convertHex c1 c2) 8) (convertHex c3 c4)).

(** The escapes of one letter. *)
Definition simple_escapes : list (Z * Z) := [(34, 34); (92, 92); (47, 47); (98, 8); (102, 12); (110, 10); (114, 13); (116, 9)].

(** The character an escape stands for, and what is left after it. *)
Definition lexEscape (ptr : list Z) : option (Z * list Z) :=
  match ptr with
  | [] => None
  | c :: rest =>
      match List.find (fun e => fst e =? c) simple_escapes with
      | Some (_, character) => Some (character, rest)
      | None =>
          if c =? 117 then
            match rest with
            | c1 :: c2 :: c3 :: c4 :: rest =>
                if isASCIIHexDigit c1 && isASCIIHexDigit c2 && isASCIIHexDigit c3 && isASCIIHexDigit c4
                then Some (convertUnicode c1 c2 c3 c4, rest) else None
            | _ => None
            end
          else None
      end
  end.

(** The loop of [lexString]; [builder] and the last run when it is left, or an error. *)
Inductive string_end := StringEnds (builder run rest : list Z) | StringError (rest : list Z).

Fixpoint string_loop (fuel : nat) (terminator : Z) (builder ptr : list Z) : option string_end :=
  match fuel with
  | O => None
  | S fuel =>
      let '(run, rest) := span (isSafeStringCharacter terminator) ptr in
      let builder := if bool_decide (builder = []) then builder else builder ++ run in
      match rest with
      | [] => Some (StringEnds builder run rest)
      | c :: after =>
          if c =? 92 then
            let builder := if bool_decide (builder = []) then builder ++ run else builder in
            match lexEscape after with
            | None => Some (StringError after)
            | Some (character, rest) =>
                let builder := builder ++ [character] in
                match rest with
                | [] => Some (StringEnds builder run rest)
                | c :: _ => if c =? terminator then Some (StringEnds builder run rest) else string_loop fuel terminator builder rest
                end
            end
          else if negb (bool_decide (run = [])) && negb (c =? terminator) then string_loop fuel terminator builder rest
          else Some (StringEnds builder run rest)
      end
  end.

Definition lexString (terminator : Z) (ptr : list Z) : option Lexer :=
  e ← string_loop (S (length ptr)) terminator [] ptr;
  Some match e with
       | StringError rest => mkLexer rest (plainToken TokError)
       | StringEnds builder run rest =>
           match rest with
           | c :: rest =>
               if c =? terminator
               then mkLexer rest (mkToken TokString (if bool_decide (builder = []) then run else builder) (SmallInteger false 0))
               else mkLexer (c :: rest) (plainToken TokError)
           | [] => mkLexer [] (plainToken TokError)
           end
       end.

Definition lexIdentifier (wide : bool) (ptr : list Z) : Lexer :=
  let '(name, rest) := span (fun c => isASCIIAlphanumeric c || (c =? 95) || (c =? 36) || (wide && ((c =? 8204) || (c =? 8205)))) ptr in
  mkLexer rest (mkToken TokIdentifier name (SmallInteger false 0)).

(** The part of [lexNumber] for the integer: the digits, and what is left. *)
Definition lex_int (ptr : list Z) : option (list Z * list Z) :=
  match ptr with
  | c :: rest =>
      if c =? 48 then Some ([c], rest)
      else if (49 <=? c) && (c <=? 57) then let '(digits, rest) := span isASCIIDigit rest in Some (c :: digits, rest) else None
  | [] => None
  end.

(** At least one digit. *)
Definition lex_digits (ptr : list Z) : option (list Z * list Z) :=
  match ptr with
  | c :: rest => if isASCIIDigit c then let '(digits, rest) := span isASCIIDigit rest in Some (c :: digits, rest) else None
  | [] => None
  end.

Definition isExponent (c : Z) : bool := (c =? 101) || (c =? 69).

Definition decimal_value (digits : list Z) : Z := foldl (fun result digit => result * 10 + digit - 48) 0 digits.

Definition numberOf (n : Number) (rest : list Z) : Lexer := mkLexer rest (mkToken TokNumber [] n).

(** The exponent, then the text is read as a double. *)
Definition lexExponent (text ptr : list Z) : Lexer :=
  match ptr with
  | c :: rest =>
      if isExponent c then
        let '(sign, rest) := match rest with d :: rest' => if (d =? 45) || (d =? 43) then ([d], rest') else ([], rest) | [] => ([], rest) end in
        match lex_digits rest with
        | Some (digits, rest) => numberOf (ParsedDouble (text ++ [c] ++ sign ++ digits)) rest
        | None => mkLexer rest (plainToken TokError)
        end
      else numberOf (ParsedDouble text) ptr
  | [] => numberOf (ParsedDouble text) ptr
  end.

Definition lexNumber (ptr : list Z) : Lexer :=
  let '(sign, rest) := match ptr with c :: rest => if c =? 45 then ([c], rest) else ([], ptr) | [] => ([], ptr) end in
  match lex_int rest with
  | None => mkLexer rest (plainToken TokError)
  | Some (digits, rest) =>
      match rest with
      | [] => lexExponent (sign ++ digits) rest
      | c :: after =>
          if c =? 46 then
            match lex_digits after with
            | Some (fraction, rest) => lexExponent (sign ++ digits ++ [c] ++ fraction) rest
            | None => mkLexer after (plainToken TokError)
            end
          else if negb (isExponent c) && (vlen (sign ++ digits) <? 10)
          then numberOf (SmallInteger (negb (bool_decide (sign = []))) (decimal_value digits)) rest
          else lexExponent (sign ++ digits) rest
      end
  end.

(** The tokens of one character. *)
Definition punctuation : list (Z * TokenType) :=
  [(91, TokLBracket); (93, TokRBracket); (40, TokLParen); (41, TokRParen); (123, TokLBrace); (125, TokRBrace); (44, TokComma); (58, TokColon)].

(** The tokens of one character that other modes use. *)
Definition other_punctuation : list (Z * TokenType) := [(46, TokDot); (61, TokAssign); (59, TokSemi)].

Definition word_true : list Z := [116; 114; 117; 101].
Definition word_false : list Z := [102; 97; 108; 115; 101].
Definition word_null : list Z := [110; 117; 108; 108].

(** What is left of the text if it starts with the word. *)
Fixpoint after_word (word ptr : list Z) : option (list Z) :=
  match word, ptr with
  | [], _ => Some ptr
  | c :: word, d :: ptr => if c =? d then after_word word ptr else None
  | _, [] => None
  end.

Definition keyword (ptr : list Z) : option Lexer :=
  match after_word word_true ptr, after_word word_false ptr, after_word word_null ptr with
  | Some rest, _, _ => Some (mkLexer rest (plainToken TokTrue))
  | _, Some rest, _ => Some (mkLexer rest (plainToken TokFalse))
  | _, _, Some rest => Some (mkLexer rest (plainToken TokNull))
  | _, _, _ => None
  end.

(** [lex]: skip white space, then look at one character; a single quote is an
    error in this mode.  The type that is returned differs from that of the
    token for a semicolon only, and is compared with other types only. *)
Definition lex (wide : bool) (ptr : list Z) : option Lexer :=
  let '(_, ptr) := span isJSONWhiteSpace ptr in
  match ptr with
  | [] => Some (mkLexer [] (plainToken TokEnd))
  | c :: rest =>
      match List.find (fun t => fst t =? c) punctuation with
      | Some (_, type) => Some (mkLexer rest (plainToken type))
      | None =>
          if c =? 34 then lexString 34 rest else
          match keyword ptr with
          | Some l => Some l
          | None =>
              if (c =? 45) || isASCIIDigit c then Some (lexNumber ptr) else
              match List.find (fun t => fst t =? c) other_punctuation with
              | Some (_, type) => Some (mkLexer rest (plainToken type))
              | None =>
                  if isASCIIAlpha c || (c =? 95) || (c =? 36) then Some (lexIdentifier wide ptr)
                  else Some (mkLexer ptr (plainToken TokError))
              end
          end
      end
  end.

Definition next (wide : bool) (l : Lexer) : option Lexer := lex wide (m_ptr l).

(** ** Property names *)

(** The caches of names, by their first character. *)
Record Identifiers := mkIdentifiers { m_shortIdentifiers : gmap Z (list Z); m_recentIdentifiers : gmap Z (list Z) }.

Definition MaximumCachableCharacter : Z := 128.

Definition makeIdentifier (ids : Identifiers) (cs : list Z) : list Z * Identifiers :=
  match cs with
  | [] => ([], ids)
  | c :: _ =>
      if MaximumCachableCharacter <=? c then (cs, ids)
      else if vlen cs =? 1 then
        match m_shortIdentifiers ids !! c with
        | Some name => (name, ids)
        | None => (cs, mkIdentifiers (<[c := cs]> (m_shortIdentifiers ids)) (m_recentIdentifiers ids))
        end
      else
        let cached := match m_recentIdentifiers ids !! c with Some name => bool_decide (name = cs) | None => false end in
        if cached then (default cs (m_recentIdentifiers ids !! c), ids)
        else (cs, mkIdentifiers (m_shortIdentifiers ids) (<[c := cs]> (m_recentIdentifiers ids)))
  end.

(** ** The parser *)

Inductive ParserState :=
| StartParseObject | StartParseArray | StartParseExpression
| DoParseObjectStartExpression | DoParseObjectEndExpression
| DoParseArrayStartExpression | DoParseArrayEndExpression.

(** The variables of [parse]; the last element of a stack is its head. *)
Record ParseVariables := mkParser {
  m_lexer : Lexer;
  identifiers : Identifiers;
  objectStack : list JSValue;
  lastValue : JSValue;
  stateStack : list ParserState;
  identifierStack : list (list Z)
}.

(** What a state does: [goto] another one, [break], or [return JSValue()]. *)
Inductive state_result := Goto (state : ParserState) (p : ParseVariables) | Break (p : ParseVariables) | ReturnEmpty (l : Lexer).

Definition currentType (p : ParseVariables) : TokenType := token_type (m_currentToken (m_lexer p)).

Definition with_lexer (p : ParseVariables) (l : Lexer) : ParseVariables := mkParser l (identifiers p) (objectStack p) (lastValue p) (stateStack p) (identifierStack p).
Definition with_value (p : ParseVariables) (v : JSValue) : ParseVariables := mkParser (m_lexer p) (identifiers p) (objectStack p) v (stateStack p) (identifierStack p).
Definition push_object (p : ParseVariables) (o : JSValue) : ParseVariables := mkParser (m_lexer p) (identifiers p) (o :: objectStack p) (lastValue p) (stateStack p) (identifierStack p).
Definition push_state (p : ParseVariables) (s : ParserState) : ParseVariables := mkParser (m_lexer p) (identifiers p) (objectStack p) (lastValue p) (s :: stateStack p) (identifierStack p).

(** A value has been read: its last token is passed. *)
Definition pass (wide : bool) (p : ParseVariables) (v : JSValue) : option state_result :=
  l ← next wide (m_lexer p);
  Some (Break (with_value (with_lexer p l) v)).

(** An array or object is complete: it is the last value. *)
Definition pop_object (wide : bool) (p : ParseVariables) : option state_result :=
  l ← next wide (m_lexer p);
  match objectStack p with
  | o :: objects => Some (Break (mkParser l (identifiers p) objects o (stateStack p) (identifierStack p)))
  | [] => None
  end.

(** After the name of a property: a colon, then the value. *)
Definition start_property (wide : bool) (p : ParseVariables) : option state_result :=
  let name := stringToken (m_currentToken (m_lexer p)) in
  l ← next wide (m_lexer p);
  if bool_decide (token_type (m_currentToken l) = TokColon) then
    l ← next wide l;
    let '(name, ids) := makeIdentifier (identifiers p) name in
    Some (Goto StartParseExpression
            (mkParser l ids (objectStack p) (lastValue p) (DoParseObjectEndExpression :: stateStack p) (name :: identifierStack p)))
  else Some (ReturnEmpty l).

Definition parse_state (wide : bool) (state : ParserState) (p : ParseVariables) : option state_result :=
  match state with
  | StartParseArray => Some (Goto DoParseArrayStartExpression (push_object p (JSArray [])))
  | DoParseArrayStartExpression =>
      let lastToken := currentType p in
      l ← next wide (m_lexer p);
      if bool_decide (token_type (m_currentToken l) = TokRBracket) then
        if bool_decide (lastToken = TokComma) then Some (ReturnEmpty l) else pop_object wide (with_lexer p l)
      else Some (Goto StartParseExpression (push_state (with_lexer p l) DoParseArrayEndExpression))
  | DoParseArrayEndExpression =>
      match objectStack p with
      | JSArray elements :: objects =>
          let p := mkParser (m_lexer p) (identifiers p) (JSArray (elements ++ [lastValue p]) :: objects) (lastValue p) (stateStack p) (identifierStack p) in
          if bool_decide (currentType p = TokComma) then Some (Goto DoParseArrayStartExpression p)
          else if bool_decide (currentType p = TokRBracket) then pop_object wide p
          else Some (ReturnEmpty (m_lexer p))
      | _ => None
      end
  | StartParseObject =>
      let p := push_object p (JSObject []) in
      l ← next wide (m_lexer p);
      let p := with_lexer p l in
      if bool_decide (currentType p = TokString) then start_property wide p
      else if bool_decide (currentType p = TokRBrace) then pop_object wide p
      else Some (ReturnEmpty l)
  | DoParseObjectStartExpression =>
      l ← next wide (m_lexer p);
      let p := with_lexer p l in
      if bool_decide (currentType p = TokString) then start_property wide p else Some (ReturnEmpty l)
  | DoParseObjectEndExpression =>
      match objectStack p, identifierStack p with
      | JSObject properties :: objects, ident :: identifiersLeft =>
          let p := mkParser (m_lexer p) (identifiers p) (JSObject (putDirect properties ident (lastValue p)) :: objects) (lastValue p) (stateStack p) identifiersLeft in
          if bool_decide (currentType p = TokComma) then Some (Goto DoParseObjectStartExpression p)
          else if bool_decide (currentType p = TokRBrace) then pop_object wide p
          else Some (ReturnEmpty (m_lexer p))
      | _, _ => None
      end
  | StartParseExpression =>
      match currentType p with
      | TokLBracket => Some (Goto StartParseArray p)
      | TokLBrace => Some (Goto StartParseObject p)
      | TokString =>
          let '(name, ids) := makeIdentifier (identifiers p) (stringToken (m_currentToken (m_lexer p))) in
          pass wide (mkParser (m_lexer p) ids (objectStack p) (lastValue p) (stateStack p) (identifierStack p)) (JSString name)
      | TokNumber => pass wide p (JSNumber (numberToken (m_currentToken (m_lexer p))))
      | TokNull => pass wide p JSNull
      | TokTrue => pass wide p (JSBoolean true)
      | TokFalse => pass wide p (JSBoolean false)
      | _ => Some (ReturnEmpty (m_lexer p))
      end
  end.

(** The loop: after a [break] the next state comes from the stack. *)
Fixpoint parse_loop (fuel : nat) (wide : bool) (state : ParserState) (p : ParseVariables) : option (Lexer * option JSValue) :=
  match fuel with
  | O => None
  | S fuel =>
      r ← parse_state wide state p;
      match r with
      | Goto state p => parse_loop fuel wide state p
      | ReturnEmpty l => Some (l, None)
      | Break p =>
          match stateStack p with
          | [] => Some (m_lexer p, Some (lastValue p))
          | state :: states =>
              parse_loop fuel wide state (mkParser (m_lexer p) (identifiers p) (objectStack p) (lastValue p) states (identifierStack p))
          end
      end
  end.

Definition newParser (l : Lexer) : ParseVariables := mkParser l (mkIdentifiers ∅ ∅) [] JSNull [] [].

(** [tryLiteralParse]. *)
Definition tryLiteralParse (fuel : nat) (wide : bool) (text : list Z) : option (option JSValue) :=
  l ← lex wide text;
  '(l, result) ← parse_loop fuel wide StartParseExpression (newParser l);
  l ← (if bool_decide (token_type (m_currentToken l) = TokSemi) then next wide l else Some l);
  Some (if bool_decide (token_type (m_currentToken l) = TokEnd) then result else None).

(** A token is passed in at most six rounds. *)
Definition parse_fuel (text : list Z) : nat := 6 * length text + 8.

(** [JSONParse]: the instance of the parser for the width of the string. *)
Definition JSONParse (is8Bit : bool) (text : list Z) : option (option JSValue) := tryLiteralParse (parse_fuel text) (negb is8Bit) text.
