(* ===== verification/LiteralParserCorrect.v ===== *)
(** * The JSON parser returns

    The lexer goes forward, the stacks of the parser fit together, and every
    round leaves less to do; so the parser ends on every text. *)

From stdpp Require Import gmap.
From S2P Require Import Prelude DFA Yarr LiteralParser.

(** ** The lexer goes forward *)

Lemma span_app f ptr : let '(run, rest) := span f ptr in ptr = run ++ rest /\ forallb f run = true /\ match rest with c :: _ => f c = false | [] => True end.
Proof.
  induction ptr as [|c ptr IH]; cbn [span]; [done|]. destruct (f c) eqn:Hc; [|done]. destruct (span f ptr) as [run rest]. destruct IH as (-> & Hall & Hr). cbn. by rewrite Hc.
Qed.

Lemma span_run f run rest : forallb f run = true -> match rest with c :: _ => f c = false | [] => True end -> span f (run ++ rest) = (run, rest).
Proof.
  intros Hrun Hr. induction run as [|c run IH]; cbn [app].
  - destruct rest as [|c rest]; [done|]. cbn. by rewrite Hr.
  - cbn in Hrun. apply andb_true_iff in Hrun as [Hc Hrun]. cbn [span]. by rewrite Hc, IH.
Qed.

Lemma span_skip f run rest : forallb f run = true -> snd (span f (run ++ rest)) = snd (span f rest).
Proof.
  intros Hrun. induction run as [|c run IH]; cbn [app]; [done|]. cbn in Hrun. apply andb_true_iff in Hrun as [Hc Hrun]. cbn [span]. rewrite Hc.
  rewrite <- IH by done. by destruct (span f (run ++ rest)).
Qed.

Definition live (t : TokenType) : bool := match t with TokEnd | TokError => false | _ => true end.

(** Characters the parser may still have to pass: those that are left, and the current token. *)
Definition todo (l : Lexer) : nat := length (m_ptr l) + (if live (token_type (m_currentToken l)) then 1 else 0).

Lemma lexEscape_length ptr c rest : lexEscape ptr = Some (c, rest) -> (length rest < length ptr)%nat.
Proof.
  unfold lexEscape. destruct ptr as [|d ptr]; [done|]. destruct (List.find _ _) as [[? ?]|]; [intros [= _ <-]; cbn; lia|]. destruct (d =? 117); [|done].
  destruct ptr as [|c1 [|c2 [|c3 [|c4 ptr]]]]; try done. destruct (_ && _); [|done]. intros [= _ <-]. cbn. lia.
Qed.

Definition end_rest (e : string_end) : list Z := match e with StringEnds _ _ rest | StringError rest => rest end.

Lemma string_loop_returns terminator : forall fuel builder ptr, (length ptr < fuel)%nat ->
  exists e, string_loop fuel terminator builder ptr = Some e /\ (length (end_rest e) <= length ptr)%nat.
Proof.
  induction fuel as [|fuel IH]; intros builder ptr Hf; [lia|]. cbn [string_loop]. pose proof (span_app (isSafeStringCharacter terminator) ptr) as Hs.
  destruct (span _ ptr) as [run rest]. destruct Hs as (-> & _ & _). rewrite length_app in *. set (b := if bool_decide (builder = []) then _ else _). clearbody b.
  destruct rest as [|c after]; [eexists; split; [done|]; cbn; lia|]. cbn [length] in *. destruct (c =? 92).
  - destruct (lexEscape after) as [[d rest]|] eqn:He; [|eexists; split; [done|]; cbn; lia]. apply lexEscape_length in He. cbv zeta.
    set (b' := _ ++ [d]). clearbody b'. destruct rest as [|c' rest]; [eexists; split; [done|]; cbn; lia|]. cbn [length] in *. destruct (c' =? terminator); [eexists; split; [done|]; cbn; lia|].
    destruct (IH b' (c' :: rest)) as (e & -> & Hl); [cbn; lia|]. exists e. split; [done|]. cbn in Hl. lia.
  - destruct (negb (bool_decide (run = [])) && _) eqn:Hr; [|eexists; split; [done|]; cbn; lia]. apply andb_true_iff in Hr as [Hr _].
    assert (Hne : run <> []) by (intros ->; done). destruct run as [|x run]; [done|]. cbn [length] in *. destruct (IH b (c :: after)) as (e & -> & Hl); [cbn; lia|]. exists e. split; [done|]. cbn in Hl. lia.
Qed.

Lemma lexString_returns terminator ptr : exists l, lexString terminator ptr = Some l /\ (todo l <= length ptr)%nat.
Proof.
  unfold lexString. destruct (string_loop_returns terminator (S (length ptr)) [] ptr) as (e & -> & Hl); [lia|]. rewrite option_bind_Some. eexists. split; [done|].
  destruct e as [builder run rest|rest]; cbn [end_rest] in Hl; [|unfold todo; cbn; lia]. destruct rest as [|c rest]; [unfold todo; cbn; lia|]. cbn in Hl. destruct (c =? terminator); unfold todo; cbn; lia.
Qed.

Lemma span_length f ptr run rest : span f ptr = (run, rest) -> length ptr = (length run + length rest)%nat.
Proof. intros E. pose proof (span_app f ptr) as H. rewrite E in H. destruct H as (-> & _). apply length_app. Qed.

Lemma lex_digits_length ptr digits rest : lex_digits ptr = Some (digits, rest) -> (length rest < length ptr)%nat.
Proof.
  unfold lex_digits. destruct ptr as [|c ptr]; [done|]. destruct (isASCIIDigit c); [|done]. destruct (span isASCIIDigit ptr) as [ds r] eqn:E. apply span_length in E. intros [= _ <-]. cbn. lia.
Qed.

Lemma lex_int_length ptr digits rest : lex_int ptr = Some (digits, rest) -> (length rest < length ptr)%nat.
Proof.
  unfold lex_int. destruct ptr as [|c ptr]; [done|]. destruct (c =? 48); [intros [= _ <-]; cbn; lia|]. destruct (_ && _); [|done].
  destruct (span isASCIIDigit ptr) as [ds r] eqn:E. apply span_length in E. intros [= _ <-]. cbn. lia.
Qed.

Lemma lexExponent_length text ptr : (length (m_ptr (lexExponent text ptr)) <= length ptr)%nat.
Proof.
  unfold lexExponent. destruct ptr as [|c ptr]; [cbn; lia|]. destruct (isExponent c); [|cbn; lia].
  assert (Hs : exists sign rest, match ptr with d :: rest' => if (d =? 45) || (d =? 43) then ([d], rest') else ([], ptr) | [] => ([], ptr) end = (sign, rest) /\ (length rest <= length ptr)%nat).
  { destruct ptr as [|d ptr]; [by eexists _, _|]. destruct (_ || _); eexists _, _; (split; [done|]); cbn; lia. }
  destruct Hs as (sign & rest & -> & Hr). destruct (lex_digits rest) as [[digits rest']|] eqn:Ed; cbn; [apply lex_digits_length in Ed|]; lia.
Qed.

Lemma lexNumber_todo c ptr : ((c =? 45) || isASCIIDigit c) = true -> (todo (lexNumber (c :: ptr)) <= length (c :: ptr))%nat.
Proof.
  intros Hc. unfold lexNumber.
  assert (Hs : exists sign rest, (if c =? 45 then ([c], ptr) else ([], c :: ptr)) = (sign, rest) /\ (length rest <= length (c :: ptr))%nat).
  { destruct (c =? 45); eexists _, _; (split; [done|]); cbn; lia. }
  destruct Hs as (sign & rest & -> & Hr). cbn [length] in *. destruct (lex_int rest) as [[digits rest1]|] eqn:Ei; [|unfold todo; cbn; lia]. apply lex_int_length in Ei.
  assert (Hany : forall l, (length (m_ptr l) <= length rest1)%nat -> (todo l <= S (length ptr))%nat) by (intros l Hl; unfold todo; destruct (live _); lia).
  destruct rest1 as [|d after]; [apply Hany; apply lexExponent_length|]. destruct (d =? 46).
  - destruct (lex_digits after) as [[fraction rest2]|] eqn:Ed; [|apply Hany; cbn; lia]. apply lex_digits_length in Ed. apply Hany. etransitivity; [apply lexExponent_length|]. cbn. lia.
  - destruct (_ && _); [apply Hany; cbn; lia|]. apply Hany, lexExponent_length.
Qed.

Lemma after_word_length word : forall ptr rest, after_word word ptr = Some rest -> length ptr = (length word + length rest)%nat.
Proof.
  induction word as [|c word IH]; intros ptr rest; cbn [after_word]; [intros [= ->]; done|]. destruct ptr as [|d ptr]; [done|]. destruct (c =? d); [|done]. intros Hw%IH. cbn. lia.
Qed.

Lemma keyword_todo ptr l : keyword ptr = Some l -> (todo l <= length ptr)%nat.
Proof.
  unfold keyword. destruct (after_word word_true ptr) as [r|] eqn:E1; [intros [= <-]|destruct (after_word word_false ptr) as [r|] eqn:E2; [intros [= <-]|destruct (after_word word_null ptr) as [r|] eqn:E3; [intros [= <-]|done]]];
    [apply after_word_length in E1|apply after_word_length in E2|apply after_word_length in E3]; unfold todo; cbn in *; lia.
Qed.

Lemma lex_returns wide ptr : exists l, lex wide ptr = Some l /\ (todo l <= length ptr)%nat.
Proof.
  unfold lex. destruct (span isJSONWhiteSpace ptr) as [run rest] eqn:E. apply span_length in E. rewrite E.
  assert (Hle : forall l, (todo l <= length rest)%nat -> exists l', Some l = Some l' /\ (todo l' <= length run + length rest)%nat) by (intros l Hl; exists l; split; [done|lia]).
  destruct rest as [|c rest]; [apply Hle; cbn; lia|].
  destruct (List.find (fun t => fst t =? c) punctuation) as [[? type]|]; [apply Hle; unfold todo; cbn; destruct (live type); lia|].
  destruct (c =? 34); [destruct (lexString_returns 34 rest) as (l & -> & Hl); apply Hle; cbn; lia|].
  destruct (keyword (c :: rest)) as [l|] eqn:Ek; [apply Hle; by apply keyword_todo|]. destruct ((c =? 45) || isASCIIDigit c) eqn:Ed; [by apply Hle, lexNumber_todo|].
  destruct (List.find (fun t => fst t =? c) other_punctuation) as [[? type]|]; [apply Hle; unfold todo; cbn; destruct (live type); lia|].
  destruct (isASCIIAlpha c || (c =? 95) || (c =? 36)) eqn:Ea; [|apply Hle; unfold todo; cbn; lia]. apply Hle. unfold lexIdentifier.
  cbn [span]. assert (Hc : (isASCIIAlphanumeric c || (c =? 95) || (c =? 36)) = true).
  { unfold isASCIIAlphanumeric. destruct (isASCIIAlpha c); [by rewrite orb_true_r|]. cbn in Ea. by rewrite orb_false_r, <- orb_assoc, Ea, orb_true_r. }
  rewrite Hc. cbn [orb]. destruct (span _ rest) as [name r] eqn:Es. apply span_length in Es. unfold todo. cbn. lia.
Qed.

Lemma next_returns wide l : exists l', next wide l = Some l' /\ (todo l' <= length (m_ptr l))%nat.
Proof. apply lex_returns. Qed.

(** ** The stacks fit together *)

(** A waiting state has an array, or an object and a property name. *)
Inductive frames : list ParserState -> list JSValue -> list (list Z) -> Prop :=
| frames_nil : frames [] [] []
| frames_array states elements objects names : frames states objects names -> frames (DoParseArrayEndExpression :: states) (JSArray elements :: objects) names
| frames_object states properties objects name names : frames states objects names -> frames (DoParseObjectEndExpression :: states) (JSObject properties :: objects) (name :: names).

Definition current_live (p : ParseVariables) : Prop := live (currentType p) = true.

(** What holds when a state is entered. *)
Definition state_ok (state : ParserState) (p : ParseVariables) : Prop :=
  match state with
  | StartParseExpression => frames (stateStack p) (objectStack p) (identifierStack p)
  | StartParseArray | StartParseObject => frames (stateStack p) (objectStack p) (identifierStack p) /\ current_live p
  | DoParseArrayStartExpression => frames (DoParseArrayEndExpression :: stateStack p) (objectStack p) (identifierStack p) /\ current_live p
  | DoParseArrayEndExpression => frames (DoParseArrayEndExpression :: stateStack p) (objectStack p) (identifierStack p)
  | DoParseObjectStartExpression => (forall name, frames (DoParseObjectEndExpression :: stateStack p) (objectStack p) (name :: identifierStack p)) /\ current_live p
  | DoParseObjectEndExpression => frames (DoParseObjectEndExpression :: stateStack p) (objectStack p) (identifierStack p)
  end.

Definition state_weight (state : ParserState) : nat :=
  match state with
  | StartParseExpression => 2
  | StartParseArray | StartParseObject | DoParseArrayEndExpression | DoParseObjectEndExpression => 1
  | DoParseArrayStartExpression | DoParseObjectStartExpression => 0
  end.

Definition stack_weight (p : ParseVariables) : nat := 6 * todo (m_lexer p) + 2 * length (stateStack p).

(** What a state leads to: less to do. *)
Definition result_ok (n : nat) (r : state_result) : Prop :=
  match r with
  | Goto state p => state_ok state p /\ (stack_weight p + state_weight state < n)%nat
  | Break p => frames (stateStack p) (objectStack p) (identifierStack p) /\ (stack_weight p < n)%nat
  | ReturnEmpty _ => True
  end.

Lemma live_todo p : current_live p -> todo (m_lexer p) = S (length (m_ptr (m_lexer p))).
Proof. unfold current_live, currentType, todo. intros ->. lia. Qed.

Lemma next_live wide p : current_live p -> exists l, next wide (m_lexer p) = Some l /\ (S (todo l) <= todo (m_lexer p))%nat.
Proof. intros Hp%live_todo. destruct (next_returns wide (m_lexer p)) as (l & Hl & Ht). exists l. split; [done|lia]. Qed.

Lemma next_any wide l : exists l', next wide l = Some l' /\ (todo l' <= todo l)%nat.
Proof. destruct (next_returns wide l) as (l' & Hl & Ht). exists l'. split; [done|]. unfold todo at 2. lia. Qed.

Lemma pass_ok wide p v n :
  frames (stateStack p) (objectStack p) (identifierStack p) -> current_live p -> (stack_weight p <= n)%nat -> exists r, pass wide p v = Some r /\ result_ok n r.
Proof.
  intros Hf Hl Hn. unfold pass. destruct (next_live wide p Hl) as (l & -> & Ht). rewrite option_bind_Some. eexists. split; [done|]. cbn. split; [done|]. unfold stack_weight in *. cbn. lia.
Qed.

Lemma pop_object_ok wide p o objects n :
  objectStack p = o :: objects -> frames (stateStack p) objects (identifierStack p) -> (stack_weight p < n)%nat -> exists r, pop_object wide p = Some r /\ result_ok n r.
Proof.
  intros Ho Hf Hn. unfold pop_object. destruct (next_any wide (m_lexer p)) as (l & -> & Ht). rewrite option_bind_Some, Ho. eexists. split; [done|]. cbn. split; [done|]. unfold stack_weight in *. cbn. lia.
Qed.

Lemma start_property_ok wide p n :
  (forall name, frames (DoParseObjectEndExpression :: stateStack p) (objectStack p) (name :: identifierStack p)) -> (stack_weight p + 4 < n)%nat -> exists r, start_property wide p = Some r /\ result_ok n r.
Proof.
  intros Hf Hn. unfold start_property. destruct (next_any wide (m_lexer p)) as (l & -> & Ht). rewrite option_bind_Some. case_bool_decide; [|by eexists].
  destruct (next_any wide l) as (l' & -> & Ht'). rewrite option_bind_Some. destruct (makeIdentifier _ _) as [name ids]. eexists. split; [done|]. cbn. split; [apply Hf|]. unfold stack_weight in *. cbn. lia.
Qed.

Lemma frames_object_any states properties objects names : frames states objects names -> forall name, frames (DoParseObjectEndExpression :: states) (JSObject properties :: objects) (name :: names).
Proof. intros Hf name. by constructor. Qed.

Lemma step_ok wide state p : state_ok state p -> exists r, parse_state wide state p = Some r /\ result_ok (stack_weight p + state_weight state) r.
Proof.
  intros Hok. destruct state; cbn [state_ok parse_state state_weight] in *.
  - destruct Hok as [Hf Hl]. destruct (next_live wide p Hl) as (l & Hnext & Ht). cbv zeta. cbn [m_lexer push_object]. rewrite Hnext, option_bind_Some.
    assert (Hw : (stack_weight (with_lexer (push_object p (JSObject [])) l) + 6 <= stack_weight p)%nat) by (unfold stack_weight; cbn; lia). case_bool_decide.
    + apply start_property_ok; [by apply frames_object_any|lia].
    + case_bool_decide; [|by eexists]. eapply pop_object_ok; [reflexivity|done|lia].
  - destruct Hok as [Hf Hl]. eexists. split; [done|]. cbn. split; [by split; [constructor|]|]. unfold stack_weight. cbn. lia.
  - destruct (currentType p) eqn:Hc; try (by eexists); try (apply pass_ok; [done|by unfold current_live; rewrite Hc|lia]).
    + eexists. split; [done|]. cbn. split; [split; [done|by unfold current_live; rewrite Hc]|lia].
    + eexists. split; [done|]. cbn. split; [split; [done|by unfold current_live; rewrite Hc]|lia].
    + destruct (makeIdentifier _ _) as [name ids]. apply pass_ok; [done|unfold current_live, currentType in *; cbn; by rewrite Hc|unfold stack_weight; cbn; lia].
  - destruct Hok as [Hf Hl]. destruct (next_live wide p Hl) as (l & -> & Ht). rewrite option_bind_Some. cbv zeta. case_bool_decide; [|by eexists].
    apply start_property_ok; [done|]. unfold stack_weight. cbn. lia.
  - inversion Hok as [| |states properties objects name names Hf Eq1 Eq2 Eq3]; subst. cbv zeta. set (p' := mkParser _ _ _ _ _ _). assert (Hw : stack_weight p' = stack_weight p) by done.
    assert (Hcur : currentType p' = currentType p) by done. case_bool_decide as Hcomma.
    + eexists. split; [done|]. cbn [result_ok state_ok state_weight]. rewrite Hw. split; [|lia]. split; [by apply frames_object_any|]. unfold current_live. by rewrite Hcomma.
    + case_bool_decide as Hb; [|by eexists]. eapply pop_object_ok; [reflexivity|done|lia].
  - destruct Hok as [Hf Hl]. destruct (next_live wide p Hl) as (l & -> & Ht). rewrite option_bind_Some.
    assert (Hw : (stack_weight (with_lexer p l) + 6 <= stack_weight p)%nat) by (unfold stack_weight; cbn; lia). case_bool_decide.
    + case_bool_decide; [by eexists|]. inversion Hf as [|states elements objects names Hf' Eq1 Eq2 Eq3|]; subst. eapply pop_object_ok; [symmetry; exact Eq2|done|lia].
    + eexists. split; [done|]. cbn [result_ok state_ok state_weight]. split; [exact Hf|]. unfold stack_weight in *. cbn in *. lia.
  - inversion Hok as [|states elements objects names Hf Eq1 Eq2 Eq3|]; subst. cbv zeta. set (p' := mkParser _ _ _ _ _ _). assert (Hw : stack_weight p' = stack_weight p) by done.
    case_bool_decide as Hcomma.
    + eexists. split; [done|]. cbn [result_ok state_ok state_weight]. rewrite Hw. split; [|lia]. split; [by constructor|]. unfold current_live. by rewrite Hcomma.
    + case_bool_decide as Hb; [|by eexists]. eapply pop_object_ok; [reflexivity|done|lia].
Qed.

Lemma parse_loop_returns wide : forall fuel state p, state_ok state p -> (stack_weight p + state_weight state < fuel)%nat -> exists r, parse_loop fuel wide state p = Some r.
Proof.
  induction fuel as [|fuel IH]; intros state p Hok Hf; [lia|]. cbn [parse_loop]. destruct (step_ok wide state p Hok) as (r & -> & Hr). rewrite option_bind_Some.
  destruct r as [state' p'|p'|l]; cbn [result_ok] in Hr.
  - destruct Hr as [Hok' Hw]. apply IH; [done|lia].
  - destruct Hr as [Hfr Hw]. destruct (stateStack p') as [|state' states] eqn:Es; [by eexists|].
    apply IH; [inversion Hfr; subst; cbn; try (by constructor); congruence|]. unfold stack_weight in *. cbn. rewrite Es in Hw. cbn in Hw. inversion Hfr; subst; cbn; lia.
  - by eexists.
Qed.

(** The parser returns on every text. *)
Lemma JSONParse_total is8Bit text : exists result, JSONParse is8Bit text = Some result.
Proof.
  unfold JSONParse, tryLiteralParse. destruct (lex_returns (negb is8Bit) text) as (l & -> & Hl). rewrite option_bind_Some.
  destruct (parse_loop_returns (negb is8Bit) (parse_fuel text) StartParseExpression (newParser l)) as ([l' result] & ->).
  { cbn. constructor. }
  { unfold stack_weight, parse_fuel. cbn. lia. }
  rewrite option_bind_Some. case_bool_decide; [|by eexists]. destruct (next_any (negb is8Bit) l') as (l2 & -> & _). rewrite option_bind_Some. by eexists.
Qed.
