(* ===== verification/LiteralGrammar.v ===== *)
(** * JSON texts and their values

    The grammar of JSON: white space between tokens, strings with raw and
    escaped characters, numbers, arrays and objects, where a later property
    replaces an earlier one of the same name.  The parser reads every text of
    the grammar as the value it stands for. *)

From stdpp Require Import gmap.
From S2P Require Import Prelude Bits DFA Yarr YarrCorrect LiteralParser LiteralParserCorrect.

(** ** The grammar *)

Definition white (w : list Z) : Prop := forallb isJSONWhiteSpace w = true.

(** The characters of a string, and how they are written between the quotes. *)
Inductive string_text : list Z -> list Z -> Prop :=
| st_nil : string_text [] []
| st_raw c cs t : 32 <= c -> c <> 34 -> c <> 92 -> string_text cs t -> string_text (c :: cs) (c :: t)
| st_escape e c cs t : (e, c) ∈ simple_escapes -> string_text cs t -> string_text (c :: cs) (92 :: e :: t)
| st_unicode c1 c2 c3 c4 d1 d2 d3 d4 cs t :
    hex_digit c1 d1 -> hex_digit c2 d2 -> hex_digit c3 d3 -> hex_digit c4 d4 -> string_text cs t ->
    string_text (d1 * 4096 + d2 * 256 + d3 * 16 + d4 :: cs) (92 :: 117 :: c1 :: c2 :: c3 :: c4 :: t).

Definition digits_text (ds : list Z) : Prop := ds <> [] /\ forallb isASCIIDigit ds = true.

(** No leading zeroes. *)
Definition int_text (ds : list Z) : Prop := ds = [48] \/ exists c rest, ds = c :: rest /\ 49 <= c <= 57 /\ forallb isASCIIDigit rest = true.

Definition fraction_text (t : list Z) : Prop := t = [] \/ exists ds, t = 46 :: ds /\ digits_text ds.

Definition exponent_text (t : list Z) : Prop :=
  t = [] \/ exists e sign ds, t = e :: sign ++ ds /\ (e = 101 \/ e = 69) /\ sign ∈ [[]; [45]; [43]] /\ digits_text ds.

Definition minus (negative : bool) : list Z := if negative then [45] else [].

(** Short integers are computed, other numbers are read as doubles. *)
Inductive number_text : Number -> list Z -> Prop :=
| nt_small negative ds : int_text ds -> vlen (minus negative ++ ds) < 10 -> number_text (SmallInteger negative (decimal_value ds)) (minus negative ++ ds)
| nt_double negative ds fraction exponent :
    int_text ds -> fraction_text fraction -> exponent_text exponent -> fraction <> [] \/ exponent <> [] \/ 10 <= vlen (minus negative ++ ds) ->
    number_text (ParsedDouble (minus negative ++ ds ++ fraction ++ exponent)) (minus negative ++ ds ++ fraction ++ exponent).

(** A short integer at the end of the text is read as a double. *)
Definition last_number (n : Number) (t : list Z) : Prop := exists negative ds, int_text ds /\ vlen (minus negative ++ ds) < 10 /\ t = minus negative ++ ds /\ n = ParsedDouble t.

(** The object with these members, the later ones last. *)
Definition members_object (members : list (list Z * JSValue)) : list (list Z * JSValue) := foldl (fun o m => putDirect o (fst m) (snd m)) [] members.

Definition quoted (t : list Z) : list Z := 34 :: t ++ [34].

Inductive value_text : JSValue -> list Z -> Prop :=
| vt_null : value_text JSNull word_null
| vt_true : value_text (JSBoolean true) word_true
| vt_false : value_text (JSBoolean false) word_false
| vt_number n t : number_text n t -> value_text (JSNumber n) t
| vt_string cs t : string_text cs t -> value_text (JSString cs) (quoted t)
| vt_empty_array w : white w -> value_text (JSArray []) (91 :: w ++ [93])
| vt_array vs t : elements_text vs t -> value_text (JSArray vs) (91 :: t ++ [93])
| vt_empty_object w : white w -> value_text (JSObject []) (123 :: w ++ [125])
| vt_object ms t : members_text ms t -> value_text (JSObject (members_object ms)) (123 :: t ++ [125])
with elements_text : list JSValue -> list Z -> Prop :=
| et_one v w t w' : white w -> value_text v t -> white w' -> elements_text [v] (w ++ t ++ w')
| et_more v vs w t w' ts : white w -> value_text v t -> white w' -> elements_text vs ts -> elements_text (v :: vs) (w ++ t ++ w' ++ 44 :: ts)
with members_text : list (list Z * JSValue) -> list Z -> Prop :=
| mt_one name v w k w1 w2 t w3 : white w -> string_text name k -> white w1 -> white w2 -> value_text v t -> white w3 ->
    members_text [(name, v)] (w ++ quoted k ++ w1 ++ 58 :: w2 ++ t ++ w3)
| mt_more name v ms w k w1 w2 t w3 ts : white w -> string_text name k -> white w1 -> white w2 -> value_text v t -> white w3 -> members_text ms ts ->
    members_text ((name, v) :: ms) (w ++ quoted k ++ w1 ++ 58 :: w2 ++ t ++ w3 ++ 44 :: ts).

(** After the text of a value, at most a semicolon. *)
Definition ending (s : list Z) : Prop := s = [] \/ exists w, s = 59 :: w /\ white w.

Definition small_integer (v : JSValue) : bool := match v with JSNumber (SmallInteger _ _) => true | _ => false end.

(** The texts of a value. *)
Inductive document : JSValue -> list Z -> Prop :=
| doc_value v w t w' s : white w -> value_text v t -> white w' -> ending s -> (small_integer v = true -> w' ++ s <> []) -> document v (w ++ t ++ w' ++ s)
| doc_last n w t : white w -> last_number n t -> document (JSNumber n) (w ++ t).

Scheme value_text_mut := Induction for value_text Sort Prop
  with elements_text_mut := Induction for elements_text Sort Prop
  with members_text_mut := Induction for members_text Sort Prop.
Combined Scheme json_text_ind from value_text_mut, elements_text_mut, members_text_mut.

(** ** Lexing strings *)

Lemma convertUnicode_value c1 c2 c3 c4 d1 d2 d3 d4 :
  hex_digit c1 d1 -> hex_digit c2 d2 -> hex_digit c3 d3 -> hex_digit c4 d4 -> convertUnicode c1 c2 c3 c4 = d1 * 4096 + d2 * 256 + d3 * 16 + d4.
Proof.
  intros (_ & H1 & B1)%hex_digit_value (_ & H2 & B2)%hex_digit_value (_ & H3 & B3)%hex_digit_value (_ & H4 & B4)%hex_digit_value. unfold convertUnicode, convertHex. rewrite H1, H2, H3, H4.
  rewrite !(lor_add _ _ 4) by lia. rewrite !(uwrap_small 8) by lia. rewrite lor_add by lia. rewrite uwrap_small by lia. lia.
Qed.

Lemma simple_escape e c : (e, c) ∈ simple_escapes -> List.find (fun x => fst x =? e) simple_escapes = Some (e, c).
Proof. unfold simple_escapes. rewrite !elem_of_cons, elem_of_nil. intros Hin. destruct_or! Hin; try done; injection Hin as -> ->; done. Qed.

(** A string is a run of raw characters, then nothing or an escape. *)
Lemma string_text_run cs t : string_text cs t -> exists run cs' t',
  cs = run ++ cs' /\ t = run ++ t' /\ forallb (isSafeStringCharacter 34) run = true
  /\ ((cs' = [] /\ t' = []) \/ exists c e cs2 t2, cs' = c :: cs2 /\ t' = 92 :: e ++ t2 /\ (forall x, lexEscape (e ++ x) = Some (c, x)) /\ string_text cs2 t2).
Proof.
  induction 1 as [|c cs t Hc Hq Hb _ (run & cs' & t' & -> & -> & Hrun & Hend)|e c cs t He Hs _|c1 c2 c3 c4 d1 d2 d3 d4 cs t H1 H2 H3 H4 Hs _].
  - exists [], [], []. split; [done|]. split; [done|]. split; [done|]. by left.
  - exists (c :: run), cs', t'. split; [done|]. split; [done|]. split; [|done]. cbn. rewrite Hrun, andb_true_r. unfold isSafeStringCharacter. rewrite !andb_true_iff, !negb_true_iff, !Z.eqb_neq, Z.leb_le. lia.
  - exists [], (c :: cs), (92 :: e :: t). split; [done|]. split; [done|]. split; [done|]. right. exists c, [e], cs, t. split; [done|]. split; [done|]. split; [|done]. intros x. cbn [app]. unfold lexEscape. by rewrite (simple_escape e c He).
  - eexists [], _, (92 :: 117 :: c1 :: c2 :: c3 :: c4 :: t). split; [reflexivity|]. split; [done|]. split; [done|]. right. eexists _, [117; c1; c2; c3; c4], cs, t. split; [reflexivity|]. split; [done|]. split; [|done]. intros x. cbn [app]. unfold lexEscape. cbn [List.find simple_escapes].
    destruct (hex_digit_value _ _ H1) as (-> & _), (hex_digit_value _ _ H2) as (-> & _), (hex_digit_value _ _ H3) as (-> & _), (hex_digit_value _ _ H4) as (-> & _).
    cbn. by rewrite (convertUnicode_value _ _ _ _ _ _ _ _ H1 H2 H3 H4).
Qed.

Lemma quote_unsafe : isSafeStringCharacter 34 34 = false /\ isSafeStringCharacter 34 92 = false.
Proof. done. Qed.

Lemma string_loop_text rest : forall fuel cs t builder, string_text cs t -> (length t < fuel)%nat ->
  exists builder' run, string_loop fuel 34 builder (t ++ 34 :: rest) = Some (StringEnds builder' run (34 :: rest)) /\ (if bool_decide (builder' = []) then run else builder') = builder ++ cs.
Proof.
  induction fuel as [|fuel IH]; intros cs t builder Ht Hf; [lia|]. destruct (string_text_run cs t Ht) as (run & cs' & t' & -> & -> & Hrun & Hend). cbn [string_loop].
  rewrite <- (assoc_L (++)), (span_run _ run) by (done || (destruct Hend as [[_ ->]|(c & e & cs2 & t2 & _ & -> & _)]; apply quote_unsafe)). rewrite length_app in Hf.
  destruct Hend as [[-> ->]|(c & e & cs2 & t2 & -> & -> & He & Hs)]; cbn [app].
  - change (34 =? 92) with false. change (34 =? 34) with true. cbn [negb]. rewrite andb_false_r. cbv beta iota. eexists _, run. split; [reflexivity|]. rewrite app_nil_r.
    destruct (decide (builder = [])) as [->|Hb]; [by rewrite (bool_decide_eq_true_2 ([] = []))|]. rewrite (bool_decide_eq_false_2 (builder = [])) by done. rewrite bool_decide_eq_false_2; [done|]. by destruct builder.
  - change (92 =? 92) with true. cbv beta iota. rewrite <- (assoc_L (++)), He. cbv zeta.
    set (b := (if bool_decide (_ = []) then _ else _) ++ [c]). assert (Eb : b = builder ++ run ++ [c]).
    { unfold b. destruct (decide (builder = [])) as [->|Hb]; [by rewrite !(bool_decide_eq_true_2 ([] = []))|]. rewrite (bool_decide_eq_false_2 (builder = [])) by done.
      rewrite bool_decide_eq_false_2 by (by destruct builder). by rewrite <- (assoc_L (++)). }
    clearbody b. subst b. assert (Hnil : builder ++ run ++ [c] <> []) by (intros E; apply (f_equal length) in E; rewrite !length_app in E; cbn in E; lia).
    assert (Hcs : builder ++ run ++ c :: cs2 = (builder ++ run ++ [c]) ++ cs2) by (by rewrite <- !(assoc_L (++))). rewrite Hcs.
    destruct (t2 ++ 34 :: rest) as [|c' r] eqn:Er; [by destruct t2|]. destruct (Z.eqb_spec c' 34) as [->|Hq].
    + assert (Ht2 : t2 = []). { destruct t2 as [|x t2]; [done|]. injection Er as -> _. inversion Hs; subst; congruence. }
      subst t2. injection Er as <-. inversion Hs; subst. eexists _, run. split; [reflexivity|]. by rewrite bool_decide_eq_false_2, app_nil_r.
    + rewrite <- Er. cbn [length] in Hf. rewrite length_app in Hf. apply IH; [done|lia].
Qed.

Lemma lexString_text cs t rest : string_text cs t -> lexString 34 (t ++ 34 :: rest) = Some (mkLexer rest (mkToken TokString cs (SmallInteger false 0))).
Proof.
  intros Ht. unfold lexString. destruct (string_loop_text rest (S (length (t ++ 34 :: rest))) cs t [] Ht) as (b & run & -> & Hcs); [rewrite length_app; lia|]. rewrite option_bind_Some.
  cbv beta iota. change (34 =? 34) with true. cbv iota. cbn [app] in Hcs. by rewrite Hcs.
Qed.

(** ** Lexing numbers *)

(** What may follow a number. *)
Definition delimiter (c : Z) : bool := isJSONWhiteSpace c || (c =? 44) || (c =? 93) || (c =? 125) || (c =? 59).

Definition delimited (after : list Z) : Prop := match after with c :: _ => delimiter c = true | [] => True end.

Lemma delimiter_other c : delimiter c = true -> isASCIIDigit c = false /\ (c =? 46) = false /\ isExponent c = false.
Proof.
  unfold delimiter, isJSONWhiteSpace. rewrite !orb_true_iff, !Z.eqb_eq. intros Hc. assert (Hin : c ∈ [32; 9; 10; 13; 44; 93; 125; 59]) by (rewrite !elem_of_cons; tauto). revert c Hin Hc.
  assert (Hall : Forall (fun c => isASCIIDigit c = false /\ (c =? 46) = false /\ isExponent c = false) [32; 9; 10; 13; 44; 93; 125; 59]) by (repeat (apply List.Forall_cons; [by vm_compute|]); apply List.Forall_nil).
  rewrite Forall_forall in Hall. auto.
Qed.

(** A short integer does not end the text. *)
Definition number_ends (n : Number) (after : list Z) : Prop := delimited after /\ match n with SmallInteger _ _ => after <> [] | ParsedDouble _ => True end.

Lemma delimited_other after : delimited after -> match after with c :: _ => isASCIIDigit c = false /\ (c =? 46) = false /\ isExponent c = false | [] => True end.
Proof. destruct after as [|c after]; [done|]. apply delimiter_other. Qed.

Lemma lex_digits_text ds after : digits_text ds -> match after with c :: _ => isASCIIDigit c = false | [] => True end -> lex_digits (ds ++ after) = Some (ds, after).
Proof.
  intros [Hne Hds] Ha. destruct ds as [|d ds]; [done|]. cbn in Hds. apply andb_true_iff in Hds as [Hd Hds]. cbn [app lex_digits]. by rewrite Hd, span_run.
Qed.

Lemma digit_range c : 49 <= c <= 57 -> (c =? 48) = false /\ (49 <=? c) && (c <=? 57) = true /\ isASCIIDigit c = true /\ (c =? 45) = false.
Proof. intros Hc. unfold isASCIIDigit. rewrite !andb_true_iff, !Z.leb_le, !Z.eqb_neq. lia. Qed.

Lemma lex_int_text ds after : int_text ds -> match after with c :: _ => isASCIIDigit c = false | [] => True end -> lex_int (ds ++ after) = Some (ds, after).
Proof.
  intros [->|(c & rest & -> & Hc & Hr)] Ha; [done|]. cbn [app lex_int]. destruct (digit_range c Hc) as (-> & -> & _). by rewrite span_run.
Qed.

Lemma delimited_stops after : delimited after -> match after with c :: _ => isASCIIDigit c = false | [] => True end.
Proof. intros Ha%delimited_other. destruct after; [done|]. by destruct Ha. Qed.

Lemma lexExponent_text text t after : exponent_text t -> delimited after -> lexExponent text (t ++ after) = numberOf (ParsedDouble (text ++ t)) after.
Proof.
  intros Ht Ha. destruct Ht as [->|(e & sign & ds & -> & He & Hsign & Hds)].
  { rewrite app_nil_r. cbn [app]. apply delimited_other in Ha. unfold lexExponent. destruct after as [|a after]; [done|]. destruct Ha as (_ & _ & Hexp). by rewrite Hexp. }
  cbn [app]. unfold lexExponent. assert (Hee : isExponent e = true) by (destruct He as [->| ->]; done). rewrite Hee. rewrite <- (assoc_L (++)).
  assert (Hsplit : match sign ++ ds ++ after with d :: rest' => if (d =? 45) || (d =? 43) then ([d], rest') else ([], sign ++ ds ++ after) | [] => ([], sign ++ ds ++ after) end = (sign, ds ++ after)).
  { rewrite !elem_of_cons, elem_of_nil in Hsign. destruct_or! Hsign; try done; subst sign; [|done|done]. cbn [app]. destruct Hds as [Hne Hds]. destruct ds as [|d ds]; [done|]. cbn [app].
    cbn in Hds. apply andb_true_iff in Hds as [Hd _]. assert (Hno : ((d =? 45) || (d =? 43)) = false) by (unfold isASCIIDigit in Hd; rewrite andb_true_iff, !Z.leb_le in Hd; rewrite orb_false_iff, !Z.eqb_neq; lia). by rewrite Hno. }
  rewrite Hsplit. rewrite (lex_digits_text ds) by (done || by apply delimited_stops). done.
Qed.

Lemma int_not_minus ds : int_text ds -> exists d ds', ds = d :: ds' /\ (d =? 45) = false /\ ((d =? 45) || isASCIIDigit d) = true.
Proof.
  intros [->|(c & rest & -> & Hc & _)]; [by exists 48, []|]. exists c, rest. destruct (digit_range c Hc) as (_ & _ & -> & ->). done.
Qed.

(** After the sign and the digits of the integer. *)
Definition lex_rest (text : list Z) (small : Number) (rest : list Z) : Lexer :=
  match rest with
  | [] => lexExponent text rest
  | c :: after =>
      if c =? 46 then match lex_digits after with Some (fraction, rest) => lexExponent (text ++ [c] ++ fraction) rest | None => mkLexer after (plainToken TokError) end
      else if negb (isExponent c) && (vlen text <? 10) then numberOf small rest else lexExponent text rest
  end.

Lemma lexNumber_int negative ds rest : int_text ds -> match rest with c :: _ => isASCIIDigit c = false | [] => True end ->
  lexNumber (minus negative ++ ds ++ rest) = lex_rest (minus negative ++ ds) (SmallInteger negative (decimal_value ds)) rest.
Proof.
  intros Hds Hr. unfold lexNumber. assert (Hsplit : match (minus negative ++ ds ++ rest) with c :: r => if c =? 45 then ([c], r) else ([], minus negative ++ ds ++ rest) | [] => ([], minus negative ++ ds ++ rest) end = (minus negative, ds ++ rest)).
  { destruct negative; [done|]. destruct (int_not_minus ds Hds) as (d & ds' & -> & Hd & _). cbn [minus app]. by rewrite Hd. }
  rewrite Hsplit, (lex_int_text ds) by done. unfold lex_rest. destruct rest as [|c after]; [done|]. destruct (c =? 46); [destruct (lex_digits after) as [[fraction rest]|]; [|done]; by rewrite <- (assoc_L (++))|]. by destruct negative.
Qed.

Lemma lexNumber_text n t after : number_text n t -> number_ends n after -> lexNumber (t ++ after) = numberOf n after.
Proof.
  intros Hn [Ha Hend]. pose proof (delimited_other after Ha) as Ho. pose proof (delimited_stops after Ha) as Hstop. destruct Hn as [negative ds Hds Hlen|negative ds fraction exponent Hds Hf He Hlong]; rewrite <- !(assoc_L (++)).
  - rewrite lexNumber_int by done. destruct after as [|a after]; [done|]. destruct Ho as (_ & Hdot & Hexp). unfold lex_rest. rewrite Hdot, Hexp. cbn [negb andb]. by rewrite (proj2 (Z.ltb_lt _ _) Hlen).
  - destruct Hf as [->|(fds & -> & Hfds)]; cbn [app].
    + pose proof (lexExponent_text (minus negative ++ ds) exponent after He Ha) as Hx. rewrite <- (assoc_L (++)) in Hx. rewrite lexNumber_int; [|done|destruct He as [->|(e & sign & es & -> & [->| ->] & _)]; done]. unfold lex_rest. destruct He as [->|(e & sign & es & -> & He & _)]; cbn [app] in *.
      * destruct after as [|a after]; [done|]. destruct Ho as (_ & -> & ->). destruct Hlong as [?|[?|Hlong]]; [done|done|]. by rewrite (proj2 (Z.ltb_ge _ _) Hlong).
      * assert (Hee : (e =? 46) = false /\ isExponent e = true) by (destruct He as [->| ->]; done). destruct Hee as (-> & ->). cbn [negb andb]. done.
    + rewrite lexNumber_int by done. unfold lex_rest. change (46 =? 46) with true. cbv iota.
      rewrite (lex_digits_text fds) by (done || (destruct He as [->|(e & sign & es & -> & [->| ->] & _)]; done)). rewrite (lexExponent_text _ exponent after He Ha). by rewrite <- !(assoc_L (++)).
Qed.

Lemma lexNumber_last n t : last_number n t -> lexNumber t = numberOf n [].
Proof.
  intros (negative & ds & Hds & _ & -> & ->). rewrite <- (app_nil_r (minus negative ++ ds)) at 1. rewrite <- (assoc_L (++)), lexNumber_int by done. done.
Qed.

(** ** The first token of a text *)

Lemma lex_white wide w t : white w -> lex wide (w ++ t) = lex wide t.
Proof.
  intros Hw. unfold lex. pose proof (span_skip isJSONWhiteSpace w t Hw) as Hs. destruct (span isJSONWhiteSpace (w ++ t)) as [r1 p1], (span isJSONWhiteSpace t) as [r2 p2]. cbn in Hs. by subst.
Qed.

Lemma lex_nonwhite c rest : isJSONWhiteSpace c = false -> span isJSONWhiteSpace (c :: rest) = ([], c :: rest).
Proof. intros Hc. cbn [span]. by rewrite Hc. Qed.

Lemma lex_punctuation wide c type rest : (c, type) ∈ punctuation -> lex wide (c :: rest) = Some (mkLexer rest (plainToken type)).
Proof. unfold punctuation. rewrite !elem_of_cons, elem_of_nil. intros Hin. destruct_or! Hin; try done; injection Hin as -> ->; done. Qed.

Lemma lex_quoted wide cs t rest : string_text cs t -> lex wide (quoted t ++ rest) = Some (mkLexer rest (mkToken TokString cs (SmallInteger false 0))).
Proof.
  intros Ht. unfold quoted, lex. cbn [app]. rewrite lex_nonwhite by done. cbn [List.find punctuation fst]. cbv beta iota delta [Z.eqb Pos.eqb]. rewrite <- (assoc_L (++)). cbn [app]. by apply lexString_text.
Qed.

Lemma digits_not_other c : ((c =? 45) || isASCIIDigit c) = true ->
  isJSONWhiteSpace c = false /\ List.find (fun t => fst t =? c) punctuation = None /\ (c =? 34) = false /\ (116 =? c) = false /\ (102 =? c) = false /\ (110 =? c) = false.
Proof.
  intros Hc. assert (Hin : c ∈ 45 :: seqZ 48 10).
  { rewrite elem_of_cons, elem_of_seqZ. unfold isASCIIDigit in Hc. rewrite orb_true_iff, andb_true_iff, Z.eqb_eq, !Z.leb_le in Hc. lia. }
  assert (Hall : Forall (fun c => isJSONWhiteSpace c = false /\ List.find (fun t => fst t =? c) punctuation = None /\ (c =? 34) = false /\ (116 =? c) = false /\ (102 =? c) = false /\ (110 =? c) = false) (45 :: seqZ 48 10)).
  { change (seqZ 48 10) with [48; 49; 50; 51; 52; 53; 54; 55; 56; 57]. repeat (apply List.Forall_cons; [by vm_compute|]). apply List.Forall_nil. }
  rewrite Forall_forall in Hall. auto.
Qed.

Lemma lex_numeric wide negative ds rest : int_text ds -> lex wide (minus negative ++ ds ++ rest) = Some (lexNumber (minus negative ++ ds ++ rest)).
Proof.
  intros Hds. assert (Hhead : exists c r, minus negative ++ ds ++ rest = c :: r /\ ((c =? 45) || isASCIIDigit c) = true).
  { destruct negative; [by eexists _, _|]. destruct (int_not_minus ds Hds) as (d & ds' & -> & _ & Hd). by eexists _, _. }
  destruct Hhead as (c & r & -> & Hc). destruct (digits_not_other c Hc) as (Hw & Hp & Hq & H1 & H2 & H3). unfold lex. rewrite lex_nonwhite by done. rewrite Hp, Hq. unfold keyword, word_true, word_false, word_null. cbn [after_word]. by rewrite H1, H2, H3, Hc.
Qed.

Lemma lex_number wide n t after : number_text n t -> number_ends n after -> lex wide (t ++ after) = Some (numberOf n after).
Proof.
  intros Hn Ha. rewrite <- (lexNumber_text n t after Hn Ha). destruct Hn as [negative ds Hi _|negative ds fraction exponent Hi _ _ _]; rewrite <- !(assoc_L (++)); by apply lex_numeric.
Qed.

Lemma lex_last wide n t : last_number n t -> lex wide t = Some (numberOf n []).
Proof.
  intros Hn. rewrite <- (lexNumber_last n t Hn). destruct Hn as (negative & ds & Hi & _ & -> & _). rewrite <- (app_nil_r ds). by apply lex_numeric.
Qed.

(** ** Runs of the parser *)

Section Runs.
Variable wide : bool.

Definition pop_state (p : ParseVariables) (states : list ParserState) : ParseVariables := mkParser (m_lexer p) (identifiers p) (objectStack p) (lastValue p) states (identifierStack p).

(** The loop after a [break]. *)
Definition after_break (fuel : nat) (p : ParseVariables) : option (Lexer * option JSValue) :=
  match stateStack p with
  | [] => Some (m_lexer p, Some (lastValue p))
  | state :: states => parse_loop fuel wide state (pop_state p states)
  end.

(** From a state the parser comes to a [break]. *)
Definition runs (state : ParserState) (p p' : ParseVariables) : Prop := exists n, forall fuel, parse_loop (n + fuel) wide state p = after_break fuel p'.

Lemma runs_goto state p state1 p1 p' : parse_state wide state p = Some (Goto state1 p1) -> runs state1 p1 p' -> runs state p p'.
Proof. intros Hs (n & Hn). exists (S n). intros fuel. cbn [Nat.add parse_loop]. by rewrite Hs, option_bind_Some. Qed.

Lemma runs_break state p p' : parse_state wide state p = Some (Break p') -> runs state p p'.
Proof. intros Hs. exists 1%nat. intros fuel. cbn [Nat.add parse_loop]. by rewrite Hs, option_bind_Some. Qed.

Lemma runs_trans state p p1 state1 states p' : runs state p p1 -> stateStack p1 = state1 :: states -> runs state1 (pop_state p1 states) p' -> runs state p p'.
Proof.
  intros (n & Hn) Hs (m & Hm). exists (n + m)%nat. intros fuel. rewrite <- Nat.add_assoc, Hn. unfold after_break at 1. by rewrite Hs.
Qed.

(** ** Names *)

(** A cached name of one character is that character. *)
Definition names_ok (ids : Identifiers) : Prop := forall c name, m_shortIdentifiers ids !! c = Some name -> name = [c].

Lemma makeIdentifier_ok ids cs : names_ok ids -> exists ids', makeIdentifier ids cs = (cs, ids') /\ names_ok ids'.
Proof.
  intros Hok. unfold makeIdentifier. destruct cs as [|c cs]; [by exists ids|]. destruct (MaximumCachableCharacter <=? c); [by exists ids|]. destruct (Z.eqb_spec (vlen (c :: cs)) 1) as [Hl|Hl].
  - assert (Hcs : cs = []) by (destruct cs; [done|]; cbn in Hl; lia). subst cs. destruct (m_shortIdentifiers ids !! c) as [name|] eqn:E.
    + exists ids. by rewrite (Hok c name E).
    + eexists. split; [done|]. intros d name. cbn. rewrite lookup_insert. case_decide; [|apply Hok]. intros [= <-]. by subst.
  - destruct (m_recentIdentifiers ids !! c) as [name|]; [|by eexists]. case_bool_decide as Hn; [subst; by exists ids|]. by eexists.
Qed.

(** ** Values *)

(** A number is followed by a character that ends it. *)
Definition follows (v : JSValue) (after : list Z) : Prop := match v with JSNumber n => number_ends n after | _ => True end.

(** Reading a value: the parser goes from its first token to the token after it. *)
Definition reads (v : JSValue) (t : list Z) : Prop :=
  forall after p l, follows v after -> names_ok (identifiers p) -> lex wide (t ++ after) = Some l ->
  token_type (m_currentToken l) <> TokRBracket
  /\ exists l' ids, lex wide after = Some l' /\ names_ok ids
       /\ runs StartParseExpression (with_lexer p l) (mkParser l' ids (objectStack p) v (stateStack p) (identifierStack p)).

Definition reads_elements (vs : list JSValue) (t : list Z) : Prop :=
  forall after p elements objects, names_ok (identifiers p) -> objectStack p = JSArray elements :: objects -> m_ptr (m_lexer p) = t ++ 93 :: after ->
  exists l' ids, lex wide after = Some l' /\ names_ok ids
    /\ runs DoParseArrayStartExpression p (mkParser l' ids objects (JSArray (elements ++ vs)) (stateStack p) (identifierStack p)).

Definition put_members (properties : list (list Z * JSValue)) (ms : list (list Z * JSValue)) : list (list Z * JSValue) := foldl (fun o m => putDirect o (fst m) (snd m)) properties ms.

(** From the brace or comma before the first name. *)
Definition reads_members (ms : list (list Z * JSValue)) (t : list Z) : Prop :=
  forall after p properties objects, names_ok (identifiers p) -> objectStack p = JSObject properties :: objects ->
  exists l p1 l' ids, lex wide (t ++ 125 :: after) = Some l /\ token_type (m_currentToken l) = TokString
    /\ start_property wide (with_lexer p l) = Some (Goto StartParseExpression p1) /\ lex wide after = Some l' /\ names_ok ids
    /\ runs StartParseExpression p1 (mkParser l' ids objects (JSObject (put_members properties ms)) (stateStack p) (identifierStack p)).

Lemma lex_some ptr : exists l, lex wide ptr = Some l.
Proof. destruct (lex_returns wide ptr) as (l & Hl & _). by exists l. Qed.

(** Values of one token. *)
Lemma reads_token v t :
  (forall after, follows v after -> exists tok, lex wide (t ++ after) = Some (mkLexer after tok) /\ token_type tok <> TokRBracket
     /\ forall p, names_ok (identifiers p) -> exists ids, names_ok ids
       /\ parse_state wide StartParseExpression (with_lexer p (mkLexer after tok)) = pass wide (mkParser (mkLexer after tok) ids (objectStack p) (lastValue p) (stateStack p) (identifierStack p)) v) ->
  reads v t.
Proof.
  intros Htok after p l Hf Hn Hl. destruct (Htok after Hf) as (tok & Hlex & Hty & Hstep). rewrite Hlex in Hl. injection Hl as <-. split; [done|]. destruct (Hstep p Hn) as (ids & Hids & Hs).
  destruct (lex_some after) as [l' Hl']. exists l', ids. split; [done|]. split; [done|]. apply runs_break. rewrite Hs. unfold pass, next. cbn [m_lexer m_ptr]. by rewrite Hl', option_bind_Some.
Qed.

Lemma reads_word v t type :
  (forall after, lex wide (t ++ after) = Some (mkLexer after (plainToken type))) -> type <> TokRBracket ->
  (forall p, currentType p = type -> parse_state wide StartParseExpression p = pass wide p v) -> reads v t.
Proof.
  intros Hlex Hty Hstep. apply reads_token. intros after _. exists (plainToken type). split; [apply Hlex|]. split; [done|]. intros p Hn. exists (identifiers p). split; [done|]. by apply Hstep.
Qed.

Lemma reads_number n t : number_text n t -> reads (JSNumber n) t.
Proof.
  intros Hn. apply reads_token. intros after Hf. eexists. split; [by apply (lex_number wide n t after)|]. split; [done|]. intros p Hp. exists (identifiers p). by split.
Qed.

Lemma reads_string cs t : string_text cs t -> reads (JSString cs) (quoted t).
Proof.
  intros Ht. apply reads_token. intros after _. eexists. split; [by apply lex_quoted|]. split; [done|]. intros p Hp. destruct (makeIdentifier_ok (identifiers p) cs Hp) as (ids & Hid & Hids).
  exists ids. split; [done|]. cbn [parse_state]. unfold currentType. cbn [with_lexer m_lexer m_currentToken token_type stringToken identifiers]. by rewrite Hid.
Qed.

(** ** Arrays *)

Lemma white_delimited w c rest : white w -> delimiter c = true -> delimited (w ++ c :: rest).
Proof. intros Hw Hc. destruct w as [|d w]; [done|]. cbn in *. apply andb_true_iff in Hw as [Hd _]. unfold delimiter. by rewrite Hd. Qed.

Lemma white_follows v w c rest : white w -> delimiter c = true -> follows v (w ++ c :: rest).
Proof. intros Hw Hc. destruct v; try done. split; [by apply white_delimited|]. destruct n; [by destruct w|done]. Qed.

Lemma lex_token w c type rest : white w -> (c, type) ∈ punctuation -> lex wide (w ++ c :: rest) = Some (mkLexer rest (plainToken type)).
Proof. intros Hw Hc. by rewrite lex_white, (lex_punctuation wide c type). Qed.

Lemma in_punctuation : (91, TokLBracket) ∈ punctuation /\ (93, TokRBracket) ∈ punctuation /\ (123, TokLBrace) ∈ punctuation /\ (125, TokRBrace) ∈ punctuation /\ (44, TokComma) ∈ punctuation /\ (58, TokColon) ∈ punctuation.
Proof. unfold punctuation. rewrite !elem_of_cons. tauto. Qed.

(** The bracket that opens an array, and the brace that opens an object. *)
Lemma reads_open v c type state t close :
  (c, type) ∈ punctuation -> type <> TokRBracket ->
  (forall p, currentType p = type -> parse_state wide StartParseExpression p = Some (Goto state p)) ->
  (forall after p, names_ok (identifiers p) -> m_lexer p = mkLexer (t ++ close :: after) (plainToken type) -> exists l' ids, lex wide after = Some l' /\ names_ok ids
     /\ runs state p (mkParser l' ids (objectStack p) v (stateStack p) (identifierStack p))) ->
  reads v (c :: t ++ [close]).
Proof.
  intros Hc Hty Hstep Hrun after p l _ Hn Hl. cbn [app] in Hl. rewrite <- (assoc_L (++)) in Hl. rewrite (lex_punctuation wide c type) in Hl by done. injection Hl as <-. split; [done|].
  destruct (Hrun after (with_lexer p (mkLexer (t ++ close :: after) (plainToken type)))) as (l' & ids & Hl' & Hids & Hr); [done|done|]. exists l', ids. split; [done|]. split; [done|].
  eapply runs_goto; [by apply Hstep|]. exact Hr.
Qed.

Lemma reads_empty_array w : white w -> reads (JSArray []) (91 :: w ++ [93]).
Proof.
  intros Hw. destruct in_punctuation as (Ho & Hc & _). apply (reads_open _ 91 TokLBracket StartParseArray); [done|done|by intros p Hp; cbn [parse_state]; rewrite Hp|].
  intros after p Hn Hl. destruct (lex_some after) as [l' Hl']. exists l', (identifiers p). split; [done|]. split; [done|]. eapply runs_goto; [reflexivity|]. apply runs_break.
  cbn [parse_state]. unfold next. cbn [push_object m_lexer]. rewrite Hl. cbn [m_ptr]. rewrite (lex_token w 93 TokRBracket), option_bind_Some by done. cbn [m_currentToken token_type plainToken]. rewrite bool_decide_eq_true_2 by done.
  unfold currentType. cbn [push_object m_lexer]. rewrite Hl. cbn [m_currentToken token_type plainToken]. rewrite bool_decide_eq_false_2 by done. unfold pop_object, next. cbn [with_lexer m_lexer m_ptr push_object objectStack]. by rewrite Hl', option_bind_Some.
Qed.

Lemma reads_array vs t : reads_elements vs t -> reads (JSArray vs) (91 :: t ++ [93]).
Proof.
  intros He. destruct in_punctuation as (Ho & _). apply (reads_open _ 91 TokLBracket StartParseArray); [done|done|by intros p Hp; cbn [parse_state]; rewrite Hp|].
  intros after p Hn Hl. destruct (He after (push_object p (JSArray [])) [] (objectStack p)) as (l' & ids & Hl' & Hids & Hr); [done|done|by cbn; rewrite Hl|]. exists l', ids. split; [done|]. split; [done|].
  eapply runs_goto; [reflexivity|]. exact Hr.
Qed.

(** One element: from the bracket or comma before it to the state after it. *)
Lemma reads_element v w t w' close type rest p (Q : ParseVariables -> Prop) :
  reads v t -> white w -> white w' -> delimiter close = true -> (close, type) ∈ punctuation ->
  names_ok (identifiers p) -> m_ptr (m_lexer p) = w ++ t ++ w' ++ close :: rest ->
  (forall ids, names_ok ids -> exists p', Q p' /\ runs DoParseArrayEndExpression (mkParser (mkLexer rest (plainToken type)) ids (objectStack p) v (stateStack p) (identifierStack p)) p') ->
  exists p', Q p' /\ runs DoParseArrayStartExpression p p'.
Proof.
  intros Hv Hw Hw' Hd Hc Hn Hptr Hend. destruct (lex_some (t ++ w' ++ close :: rest)) as [l Hl].
  destruct (Hv (w' ++ close :: rest) (push_state p DoParseArrayEndExpression) l) as (Hty & l' & ids & Hl' & Hids & Hr); [by apply white_follows|done|done|].
  rewrite (lex_token w' close type rest Hw' Hc) in Hl'. injection Hl' as <-. destruct (Hend ids Hids) as (p' & HQ & Hr'). exists p'. split; [done|]. eapply runs_goto.
  { cbn [parse_state]. unfold next. rewrite Hptr, lex_white, Hl, option_bind_Some by done. rewrite bool_decide_eq_false_2 by done. reflexivity. }
  eapply runs_trans; [exact Hr|reflexivity|exact Hr'].
Qed.

(** The parser after an array or an object. *)
Definition ends_with (p : ParseVariables) (after : list Z) (objects : list JSValue) (v : JSValue) (p' : ParseVariables) : Prop :=
  exists l' ids, lex wide after = Some l' /\ names_ok ids /\ p' = mkParser l' ids objects v (stateStack p) (identifierStack p).

Lemma reads_one v w t w' : white w -> reads v t -> white w' -> reads_elements [v] (w ++ t ++ w').
Proof.
  intros Hw Hv Hw' after p elements objects Hn Ho Hptr. destruct in_punctuation as (_ & Hc & _). destruct (lex_some after) as [l' Hl'].
  destruct (reads_element v w t w' 93 TokRBracket after p (ends_with p after objects (JSArray (elements ++ [v])))) as (p' & (l2 & ids & Hl2 & Hids & ->) & Hr); try done.
  { by rewrite Hptr, <- !(assoc_L (++)). }
  - intros ids Hids. eexists. split; [by exists l', ids|]. apply runs_break. cbn [parse_state]. cbn [objectStack]. rewrite Ho. cbv zeta. unfold currentType. cbn [m_lexer m_currentToken token_type plainToken].
    rewrite bool_decide_eq_false_2, bool_decide_eq_true_2 by done. unfold pop_object, next. cbn [m_lexer m_ptr objectStack]. by rewrite Hl', option_bind_Some.
  - by exists l2, ids.
Qed.

Lemma reads_more v vs w t w' ts : white w -> reads v t -> white w' -> reads_elements vs ts -> reads_elements (v :: vs) (w ++ t ++ w' ++ 44 :: ts).
Proof.
  intros Hw Hv Hw' Hvs after p elements objects Hn Ho Hptr. destruct in_punctuation as (_ & _ & _ & _ & Hc & _).
  destruct (reads_element v w t w' 44 TokComma (ts ++ 93 :: after) p (ends_with p after objects (JSArray (elements ++ v :: vs)))) as (p' & (l2 & ids & Hl2 & Hids & ->) & Hr); try done.
  { by rewrite Hptr, <- !(assoc_L (++)). }
  - intros ids Hids. set (p2 := mkParser (mkLexer (ts ++ 93 :: after) (plainToken TokComma)) ids (JSArray (elements ++ [v]) :: objects) v (stateStack p) (identifierStack p)).
    destruct (Hvs after p2 (elements ++ [v]) objects) as (l' & ids' & Hl' & Hids' & Hr); [done|done|done|]. rewrite <- (assoc_L (++)) in Hr. eexists. split; [by exists l', ids'|].
    eapply runs_goto; [|exact Hr]. cbn [parse_state objectStack]. rewrite Ho. cbv zeta. unfold currentType. cbn [m_lexer m_currentToken token_type plainToken]. by rewrite bool_decide_eq_true_2.
  - by exists l2, ids.
Qed.

(** ** Objects *)

(** One member: from its name to the state after its value. *)
Lemma reads_member name k v w1 w2 t w3 close type rest p (Q : ParseVariables -> Prop) :
  string_text name k -> reads v t -> white w1 -> white w2 -> white w3 -> delimiter close = true -> (close, type) ∈ punctuation ->
  names_ok (identifiers p) -> m_lexer p = mkLexer (w1 ++ 58 :: w2 ++ t ++ w3 ++ close :: rest) (mkToken TokString name (SmallInteger false 0)) ->
  (forall ids, names_ok ids -> exists p', Q p' /\ runs DoParseObjectEndExpression (mkParser (mkLexer rest (plainToken type)) ids (objectStack p) v (stateStack p) (name :: identifierStack p)) p') ->
  exists p' p1, Q p' /\ start_property wide p = Some (Goto StartParseExpression p1) /\ runs StartParseExpression p1 p'.
Proof.
  intros Hk Hv Hw1 Hw2 Hw3 Hd Hc Hn Hl Hend. destruct in_punctuation as (_ & _ & _ & _ & _ & Hcolon). destruct (lex_some (t ++ w3 ++ close :: rest)) as [l Hlex].
  destruct (makeIdentifier_ok (identifiers p) name Hn) as (ids1 & Hid & Hids1).
  destruct (Hv (w3 ++ close :: rest) (mkParser (m_lexer p) ids1 (objectStack p) (lastValue p) (DoParseObjectEndExpression :: stateStack p) (name :: identifierStack p)) l) as (_ & l' & ids & Hl' & Hids & Hr); [by apply white_follows|done|done|].
  rewrite (lex_token w3 close type rest Hw3 Hc) in Hl'. injection Hl' as <-. destruct (Hend ids Hids) as (p' & HQ & Hr'). eexists p', _. split; [done|]. split.
  - unfold start_property, next. rewrite Hl. cbn [m_ptr m_currentToken stringToken]. rewrite (lex_token w1 58 TokColon _ Hw1 Hcolon), option_bind_Some. cbn [m_currentToken token_type plainToken m_ptr].
    rewrite bool_decide_eq_true_2, lex_white, Hlex, option_bind_Some, Hid by done. reflexivity.
  - eapply runs_trans; [exact Hr|reflexivity|exact Hr'].
Qed.

(** What the end of a member does. *)
Lemma object_end_brace properties objects l ids v name states names l' :
  token_type (m_currentToken l) = TokRBrace -> next wide l = Some l' ->
  parse_state wide DoParseObjectEndExpression (mkParser l ids (JSObject properties :: objects) v states (name :: names))
  = Some (Break (mkParser l' ids objects (JSObject (putDirect properties name v)) states names)).
Proof.
  intros Hl Hn. cbn [parse_state objectStack identifierStack]. cbv zeta. unfold currentType. cbn [m_lexer]. rewrite Hl, bool_decide_eq_false_2, bool_decide_eq_true_2 by done. unfold pop_object. cbn [m_lexer objectStack]. by rewrite Hn, option_bind_Some.
Qed.

Lemma object_end_comma properties objects l ids v name states names :
  token_type (m_currentToken l) = TokComma ->
  parse_state wide DoParseObjectEndExpression (mkParser l ids (JSObject properties :: objects) v states (name :: names))
  = Some (Goto DoParseObjectStartExpression (mkParser l ids (JSObject (putDirect properties name v) :: objects) v states names)).
Proof. intros Hl. cbn [parse_state objectStack identifierStack]. cbv zeta. unfold currentType. cbn [m_lexer]. by rewrite Hl, bool_decide_eq_true_2. Qed.

Lemma reads_empty_object w : white w -> reads (JSObject []) (123 :: w ++ [125]).
Proof.
  intros Hw. destruct in_punctuation as (_ & _ & Ho & Hc & _). apply (reads_open _ 123 TokLBrace StartParseObject); [done|done|by intros p Hp; cbn [parse_state]; rewrite Hp|].
  intros after p Hn Hl. destruct (lex_some after) as [l' Hl']. exists l', (identifiers p). split; [done|]. split; [done|]. apply runs_break.
  cbn [parse_state]. cbv zeta. unfold next. cbn [push_object m_lexer]. rewrite Hl. cbn [m_ptr]. rewrite (lex_token w 125 TokRBrace), option_bind_Some by done. unfold currentType. cbn [with_lexer m_lexer m_currentToken token_type plainToken].
  rewrite bool_decide_eq_false_2, bool_decide_eq_true_2 by done. unfold pop_object, next. cbn [with_lexer m_lexer m_ptr push_object objectStack]. by rewrite Hl', option_bind_Some.
Qed.

Lemma reads_last name v w k w1 w2 t w3 :
  white w -> string_text name k -> white w1 -> white w2 -> reads v t -> white w3 -> reads_members [(name, v)] (w ++ quoted k ++ w1 ++ 58 :: w2 ++ t ++ w3).
Proof.
  intros Hw Hk Hw1 Hw2 Hv Hw3 after p properties objects Hn Ho. destruct in_punctuation as (_ & _ & _ & Hc & _). destruct (lex_some after) as [l' Hl'].
  set (l := mkLexer (w1 ++ 58 :: w2 ++ t ++ w3 ++ 125 :: after) (mkToken TokString name (SmallInteger false 0))).
  destruct (reads_member name k v w1 w2 t w3 125 TokRBrace after (with_lexer p l) (ends_with p after objects (JSObject (putDirect properties name v)))) as (p' & p1 & (l2 & ids & Hl2 & Hids & ->) & Hs & Hr); try done.
  { intros ids Hids. eexists. split; [by exists l', ids|]. apply runs_break. cbn [with_lexer objectStack stateStack identifierStack]. rewrite Ho. by apply object_end_brace. }
  exists l, p1, l2, ids. split; [|done]. rewrite <- !(assoc_L (++)), lex_white, (lex_quoted wide name k) by done. unfold l. cbn [app]. by rewrite <- !(assoc_L (++)).
Qed.

Lemma reads_next name v ms w k w1 w2 t w3 ts :
  white w -> string_text name k -> white w1 -> white w2 -> reads v t -> white w3 -> reads_members ms ts -> reads_members ((name, v) :: ms) (w ++ quoted k ++ w1 ++ 58 :: w2 ++ t ++ w3 ++ 44 :: ts).
Proof.
  intros Hw Hk Hw1 Hw2 Hv Hw3 Hms after p properties objects Hn Ho. destruct in_punctuation as (_ & _ & _ & _ & Hc & _).
  set (l := mkLexer (w1 ++ 58 :: w2 ++ t ++ w3 ++ 44 :: ts ++ 125 :: after) (mkToken TokString name (SmallInteger false 0))).
  destruct (reads_member name k v w1 w2 t w3 44 TokComma (ts ++ 125 :: after) (with_lexer p l) (ends_with p after objects (JSObject (put_members properties ((name, v) :: ms))))) as (p' & p1 & (l2 & ids & Hl2 & Hids & ->) & Hs & Hr); try done.
  { intros ids Hids. cbn [with_lexer objectStack stateStack identifierStack]. rewrite Ho.
    set (p2 := mkParser (mkLexer (ts ++ 125 :: after) (plainToken TokComma)) ids (JSObject (putDirect properties name v) :: objects) v (stateStack p) (identifierStack p)).
    destruct (Hms after p2 (putDirect properties name v) objects) as (l3 & p3 & l' & ids' & Hl3 & Hty & Hs & Hl' & Hids' & Hr); [done|done|]. eexists. split; [by exists l', ids'|].
    eapply runs_goto; [by apply object_end_comma|]. eapply runs_goto; [|exact Hr]. cbn [parse_state]. unfold next. cbn [m_lexer m_ptr]. rewrite Hl3, option_bind_Some. cbv zeta. unfold currentType. cbn [with_lexer m_lexer]. rewrite Hty, bool_decide_eq_true_2 by done. exact Hs. }
  exists l, p1, l2, ids. split; [|done]. rewrite <- !(assoc_L (++)), lex_white, (lex_quoted wide name k) by done. unfold l. cbn [app]. by rewrite <- !(assoc_L (++)).
Qed.

Lemma reads_object ms t : reads_members ms t -> reads (JSObject (members_object ms)) (123 :: t ++ [125]).
Proof.
  intros Hms. destruct in_punctuation as (_ & _ & Ho & _). apply (reads_open _ 123 TokLBrace StartParseObject); [done|done|by intros p Hp; cbn [parse_state]; rewrite Hp|].
  intros after p Hn Hl. destruct (Hms after (push_object p (JSObject [])) [] (objectStack p)) as (l & p1 & l' & ids & Hlex & Hty & Hs & Hl' & Hids & Hr); [done|done|]. exists l', ids. split; [done|]. split; [done|].
  eapply runs_goto; [|exact Hr]. cbn [parse_state]. cbv zeta. unfold next. cbn [push_object m_lexer]. rewrite Hl. cbn [m_ptr]. rewrite Hlex, option_bind_Some. unfold currentType. cbn [with_lexer m_lexer]. rewrite Hty, bool_decide_eq_true_2 by done. exact Hs.
Qed.

(** ** All values *)

Lemma value_text_reads : (forall v t, value_text v t -> reads v t) /\ (forall vs t, elements_text vs t -> reads_elements vs t) /\ (forall ms t, members_text ms t -> reads_members ms t).
Proof.
  apply json_text_ind; intros.
  - by apply (reads_word _ _ TokNull); [|done|intros p Hp; cbn [parse_state]; rewrite Hp].
  - by apply (reads_word _ _ TokTrue); [|done|intros p Hp; cbn [parse_state]; rewrite Hp].
  - by apply (reads_word _ _ TokFalse); [|done|intros p Hp; cbn [parse_state]; rewrite Hp].
  - by apply reads_number.
  - by apply reads_string.
  - by apply reads_empty_array.
  - by apply reads_array.
  - by apply reads_empty_object.
  - by apply reads_object.
  - by apply reads_one.
  - by apply reads_more.
  - by apply reads_last.
  - by apply reads_next.
Qed.

(** ** Texts *)

Lemma parse_loop_more fuel : forall k state p r, parse_loop fuel wide state p = Some r -> parse_loop (fuel + k) wide state p = Some r.
Proof.
  induction fuel as [|fuel IH]; intros k state p r; [done|]. cbn [parse_loop Nat.add]. destruct (parse_state wide state p) as [[state1 p1|p1|l]|]; [|..|done]; rewrite !option_bind_Some; [apply IH| |done].
  destruct (stateStack p1) as [|state1 states]; [done|]. apply IH.
Qed.

End Runs.

(** The result, from the token after the value. *)
Lemma JSONParse_runs is8Bit T l l' ids v :
  lex (negb is8Bit) T = Some l -> runs (negb is8Bit) StartParseExpression (newParser l) (mkParser l' ids [] v [] []) ->
  token_type (m_currentToken l') = TokEnd \/ (token_type (m_currentToken l') = TokSemi /\ exists l2, next (negb is8Bit) l' = Some l2 /\ token_type (m_currentToken l2) = TokEnd) ->
  JSONParse is8Bit T = Some (Some v).
Proof.
  set (wide := negb is8Bit). intros Hl (n & Hn) Hend. destruct (JSONParse_total is8Bit T) as [result Htotal]. rewrite Htotal. unfold JSONParse, tryLiteralParse in Htotal. fold wide in Htotal. rewrite Hl, option_bind_Some in Htotal.
  destruct (parse_loop (parse_fuel T) wide StartParseExpression (newParser l)) as [r|] eqn:Hrun; [|done]. apply (parse_loop_more wide _ n) in Hrun. rewrite Nat.add_comm in Hrun.
  rewrite Hn in Hrun. injection Hrun as <-. rewrite option_bind_Some in Htotal. cbn [m_lexer lastValue] in Htotal. destruct Hend as [Hend|(Hsemi & l2 & Hl2 & Hend)].
  - rewrite bool_decide_eq_false_2 in Htotal by (by rewrite Hend). rewrite option_bind_Some, bool_decide_eq_true_2 in Htotal by done. by injection Htotal as <-.
  - rewrite bool_decide_eq_true_2 in Htotal by done. rewrite Hl2, option_bind_Some, bool_decide_eq_true_2 in Htotal by done. by injection Htotal as <-.
Qed.

Lemma lex_end wide w : white w -> lex wide w = Some (mkLexer [] (plainToken TokEnd)).
Proof. intros Hw. by rewrite <- (app_nil_r w), lex_white. Qed.

Lemma names_ok_empty : names_ok (mkIdentifiers ∅ ∅).
Proof. intros c name. cbn. by rewrite lookup_empty. Qed.

(** A text of a value is read as that value. *)
Lemma JSONParse_document is8Bit v T : document v T -> JSONParse is8Bit T = Some (Some v).
Proof.
  destruct 1 as [v w t w' s Hw Ht Hw' Hs Hsmall|n w t Hw Ht].
  - destruct (lex_some (negb is8Bit) (t ++ w' ++ s)) as [l Hl]. destruct (value_text_reads (negb is8Bit)) as [Hreads _]. destruct (Hreads v t Ht (w' ++ s) (newParser l) l) as (_ & l' & ids & Hl' & _ & Hrun); [|apply names_ok_empty|done|].
    { destruct v; try done. split; [|destruct n; by apply Hsmall || done]. destruct w' as [|c w']; cbn in *; [destruct Hs as [->|(w2 & -> & _)]; done|]. apply andb_true_iff in Hw' as [Hc _]. unfold delimiter. by rewrite Hc. }
    apply (JSONParse_runs _ _ l l' ids); [by rewrite lex_white|exact Hrun|]. rewrite lex_white in Hl' by done. destruct Hs as [->|(w2 & -> & Hw2)]; injection Hl' as <-; [by left|]. right. split; [done|]. eexists. split; [by apply lex_end|done].
  - apply (JSONParse_runs _ _ (numberOf n []) (mkLexer [] (plainToken TokEnd)) (mkIdentifiers ∅ ∅)); [rewrite lex_white by done; by apply lex_last|by apply runs_break|by left].
Qed.
