(* ===== verification/LiteralSound.v ===== *)
(** * The JSON parser accepts nothing else

    A text that is read as a value is a text of that value, between white space
    and with at most a semicolon after it. *)

From stdpp Require Import gmap.
From S2P Require Import Prelude Bits DFA Yarr YarrCorrect LiteralParser LiteralParserCorrect LiteralGrammar.

(** ** Strings *)

Lemma hex_digit_sound c : isASCIIHexDigit c = true -> exists d, hex_digit c d.
Proof.
  intros Hc. unfold hex_digit. assert (Hr : 48 <= c <= 57 \/ 65 <= c <= 70 \/ 97 <= c <= 102); [|destruct_or! Hr; [exists (c - 48)|exists (c - 55)|exists (c - 87)]; lia].
  unfold isASCIIHexDigit, isASCIIDigit in Hc. rewrite orb_true_iff, !andb_true_iff, !Z.leb_le in Hc. destruct Hc as [Hc|[Hl Hu]]; [lia|].
  assert (Hnn : 0 <= c). { destruct (decide (0 <= c)); [done|]. assert (Z.lor c 32 < 0) by (apply Z.lor_neg; lia). lia. }
  assert (Hle : c <= Z.lor c 32). { assert (Hs : Z.lor c 32 = c + Z.ldiff 32 c). { rewrite Z.add_nocarry_lor by (apply Z.bits_inj_0; intros i; rewrite Z.land_spec, Z.ldiff_spec; by destruct (Z.testbit c i); rewrite ?andb_false_r). apply Z.bits_inj'. intros i _. rewrite !Z.lor_spec, Z.ldiff_spec. by destruct (Z.testbit c i), (Z.testbit 32 i). }
    assert (0 <= Z.ldiff 32 c) by (apply Z.ldiff_nonneg; lia). lia. }
  assert (Hall : forallb (fun c => negb ((97 <=? Z.lor c 32) && (Z.lor c 32 <=? 102)) || ((65 <=? c) && (c <=? 70)) || ((97 <=? c) && (c <=? 102))) (seqZ 0 103) = true) by by vm_compute.
  rewrite forallb_forall in Hall. specialize (Hall c (proj1 (list_elem_of_In _ _) (proj2 (elem_of_seqZ 0 103 c) ltac:(lia)))). rewrite !orb_true_iff, negb_true_iff, andb_false_iff, !andb_true_iff, !Z.leb_le, !Z.leb_gt in Hall. lia.
Qed.

Lemma lexEscape_sound ptr c rest : lexEscape ptr = Some (c, rest) -> exists e, ptr = e ++ rest /\ forall cs k, string_text cs k -> string_text (c :: cs) (92 :: e ++ k).
Proof.
  unfold lexEscape. destruct ptr as [|d ptr]; [done|]. destruct (List.find _ _) as [[e x]|] eqn:E.
  - intros [= -> ->]. apply List.find_some in E as [Hin Heq]. cbn in Heq. apply Z.eqb_eq in Heq as ->. exists [d]. split; [done|]. intros cs k Hk. cbn [app]. apply st_escape; [by apply list_elem_of_In|done].
  - destruct (Z.eqb_spec d 117) as [->|]; [|done]. destruct ptr as [|c1 [|c2 [|c3 [|c4 ptr]]]]; try done. destruct (_ && _) eqn:Eh; [|done]. rewrite !andb_true_iff in Eh. destruct Eh as [[[H1 H2] H3] H4]. intros [= <- ->].
    apply hex_digit_sound in H1 as [d1 H1], H2 as [d2 H2], H3 as [d3 H3], H4 as [d4 H4]. rewrite (convertUnicode_value _ _ _ _ _ _ _ _ H1 H2 H3 H4). exists [117; c1; c2; c3; c4]. split; [done|]. intros cs k Hk. by apply st_unicode.
Qed.

Lemma raw_text run cs k : forallb (isSafeStringCharacter 34) run = true -> string_text cs k -> string_text (run ++ cs) (run ++ k).
Proof.
  intros Hrun Hk. induction run as [|c run IH]; [done|]. cbn in Hrun. apply andb_true_iff in Hrun as [Hc Hrun]. unfold isSafeStringCharacter in Hc. rewrite !andb_true_iff, !negb_true_iff, !Z.eqb_neq, Z.leb_le in Hc. cbn [app]. apply st_raw; try lia. by apply IH.
Qed.

(** The builder, if it is used, has the runs. *)
Definition used (builder run : list Z) : list Z := if bool_decide (builder = []) then run else builder.

Lemma used_nonempty b run : b <> [] -> used b run = b.
Proof. intros Hb. unfold used. by rewrite bool_decide_eq_false_2. Qed.

Lemma string_loop_sound : forall fuel builder ptr builder' run rest, string_loop fuel 34 builder ptr = Some (StringEnds builder' run (34 :: rest)) ->
  exists cs k, ptr = k ++ 34 :: rest /\ string_text cs k /\ used builder' run = builder ++ cs.
Proof.
  induction fuel as [|fuel IH]; intros builder ptr builder' run rest; [done|]. cbn [string_loop]. pose proof (span_app (isSafeStringCharacter 34) ptr) as Hs. destruct (span _ ptr) as [r1 rest1]. destruct Hs as (-> & Hsafe & Hstop).
  set (b1 := if bool_decide (builder = []) then builder else builder ++ r1). assert (Hb1 : used b1 r1 = builder ++ r1).
  { unfold b1. case_bool_decide as E; [by subst|]. apply used_nonempty. by destruct builder. }
  assert (Hnil : string_text r1 r1) by (rewrite <- (app_nil_r r1); by apply raw_text; [|constructor]).
  destruct rest1 as [|c after]; [done|]. destruct (Z.eqb_spec c 92) as [->|Hc].
  - set (b2 := if bool_decide (b1 = []) then b1 ++ r1 else b1). assert (Hb2 : b2 = builder ++ r1).
    { unfold b2. rewrite <- Hb1. unfold used. case_bool_decide as E; [by rewrite E|done]. }
    clearbody b2. subst b2. destruct (lexEscape after) as [[ch rest2]|] eqn:Ee; [|done]. apply lexEscape_sound in Ee as (e & -> & He). cbv zeta. destruct rest2 as [|c2 rest2]; [done|].
    destruct (Z.eqb_spec c2 34) as [->|Hc2].
    + intros [= <- <- <-]. exists (r1 ++ [ch]), (r1 ++ 92 :: e). split; [rewrite <- (assoc_L (++)); cbn [app]; done|]. split.
      * apply raw_text; [done|]. specialize (He [] [] st_nil). by rewrite app_nil_r in He.
      * rewrite used_nonempty by (intros E; apply (f_equal length) in E; rewrite !length_app in E; cbn in E; lia). by rewrite <- !(assoc_L (++)).
    + intros Hl. apply IH in Hl as (cs & k & Hk & Ht & Hu). exists (r1 ++ ch :: cs), (r1 ++ 92 :: e ++ k). split.
      * rewrite Hk. rewrite <- (assoc_L (++)). cbn [app]. by rewrite <- (assoc_L (++)).
      * split; [apply raw_text; [done|]; by apply He|]. rewrite Hu. by rewrite <- !(assoc_L (++)).
  - destruct (negb (bool_decide (r1 = [])) && negb (c =? 34)) eqn:Ego.
    + intros Hl. apply andb_true_iff in Ego as [_ Hq%negb_true_iff%Z.eqb_neq]. exfalso. destruct fuel as [|fuel]; [done|]. cbn [string_loop] in Hl. cbn [span] in Hl. rewrite Hstop in Hl. rewrite (proj2 (Z.eqb_neq c 92)) in Hl by done.
      rewrite bool_decide_eq_true_2 in Hl by done. cbn [negb andb] in Hl. injection Hl as _ _ Hx _. done.
    + intros [= <- <- -> <-]. exists r1, r1. done.
Qed.

Lemma lexString_sound ptr l : lexString 34 ptr = Some l -> token_type (m_currentToken l) = TokError
  \/ exists k, ptr = k ++ 34 :: m_ptr l /\ string_text (stringToken (m_currentToken l)) k /\ token_type (m_currentToken l) = TokString.
Proof.
  unfold lexString. destruct (string_loop _ 34 [] ptr) as [e|] eqn:E; [|done]. rewrite option_bind_Some. intros [= <-]. destruct e as [b run [|c rest]|rest]; [by left| |by left]. destruct (Z.eqb_spec c 34) as [->|]; [|by left].
  right. apply string_loop_sound in E as (cs & k & Hk & Ht & Hu). exists k. split; [done|]. split; [|done]. cbn [m_currentToken stringToken]. unfold used in Hu. by rewrite Hu.
Qed.

(** ** Numbers *)

Lemma lex_digits_sound ptr ds rest : lex_digits ptr = Some (ds, rest) -> ptr = ds ++ rest /\ digits_text ds.
Proof.
  unfold lex_digits. destruct ptr as [|c ptr]; [done|]. destruct (isASCIIDigit c) eqn:Hc; [|done]. pose proof (span_app isASCIIDigit ptr) as Hs. destruct (span isASCIIDigit ptr) as [r1 r2]. destruct Hs as (-> & Hd & _).
  intros [= <- <-]. split; [done|]. split; [done|]. cbn. by rewrite Hc.
Qed.

Lemma lex_int_sound ptr ds rest : lex_int ptr = Some (ds, rest) -> ptr = ds ++ rest /\ int_text ds.
Proof.
  unfold lex_int. destruct ptr as [|c ptr]; [done|]. destruct (Z.eqb_spec c 48) as [->|]; [intros [= <- <-]; split; [done|by left]|]. destruct (_ && _) eqn:Hc; [|done]. rewrite andb_true_iff, !Z.leb_le in Hc.
  pose proof (span_app isASCIIDigit ptr) as Hs. destruct (span isASCIIDigit ptr) as [r1 r2]. destruct Hs as (-> & Hd & _). intros [= <- <-]. split; [done|]. right. by exists c, r1.
Qed.

Definition failed (l : Lexer) : Prop := token_type (m_currentToken l) = TokError.

Lemma lexExponent_sound text ptr : failed (lexExponent text ptr)
  \/ exists e rest, exponent_text e /\ ptr = e ++ rest /\ lexExponent text ptr = numberOf (ParsedDouble (text ++ e)) rest /\ (e = [] -> match rest with c :: _ => isExponent c = false | [] => True end).
Proof.
  assert (Hnone : exists e rest, exponent_text e /\ [] = e ++ rest /\ numberOf (ParsedDouble text) [] = numberOf (ParsedDouble (text ++ e)) rest /\ (e = [] -> match rest with c :: _ => isExponent c = false | [] => True end)).
  { exists [], []. rewrite !app_nil_r. split; [by left|done]. }
  unfold lexExponent. destruct ptr as [|c ptr]; [by right|]. destruct (isExponent c) eqn:Hc; [|right; exists [], (c :: ptr); rewrite app_nil_r; split; [by left|done]].
  assert (Hs : exists sign rest, match ptr with d :: rest' => if (d =? 45) || (d =? 43) then ([d], rest') else ([], ptr) | [] => ([], ptr) end = (sign, rest) /\ sign ∈ [[]; [45]; [43]] /\ ptr = sign ++ rest).
  { destruct ptr as [|d ptr]; [exists [], []; split; [done|]; split; [set_solver|done]|]. destruct ((d =? 45) || (d =? 43)) eqn:Hd.
    - rewrite orb_true_iff, !Z.eqb_eq in Hd. exists [d], ptr. split; [done|]. split; [destruct Hd as [->| ->]; set_solver|done].
    - exists [], (d :: ptr). split; [done|]. split; [set_solver|done]. }
  destruct Hs as (sign & rest & -> & Hsign & ->). destruct (lex_digits rest) as [[ds rest']|] eqn:Ed; [|by left]. apply lex_digits_sound in Ed as [-> Hds]. right. exists (c :: sign ++ ds), rest'.
  split; [right; exists c, sign, ds; split; [done|]; split; [|done]; unfold isExponent in Hc; rewrite orb_true_iff, !Z.eqb_eq in Hc; lia|]. split; [cbn [app]; by rewrite <- (assoc_L (++))|done].
Qed.

Lemma lexNumber_sound ptr : failed (lexNumber ptr)
  \/ exists n t rest, lexNumber ptr = numberOf n rest /\ ptr = t ++ rest /\ (number_text n t /\ (small_integer (JSNumber n) = true -> rest <> []) \/ last_number n t /\ rest = []).
Proof.
  unfold lexNumber. assert (Hs : exists negative rest, match ptr with c :: rest => if c =? 45 then ([c], rest) else ([], ptr) | [] => ([], ptr) end = (minus negative, rest) /\ ptr = minus negative ++ rest).
  { destruct ptr as [|c ptr]; [by exists false, []|]. destruct (Z.eqb_spec c 45) as [->|]; [by exists true, ptr|by exists false, (c :: ptr)]. }
  destruct Hs as (negative & rest & -> & ->). destruct (lex_int rest) as [[ds rest1]|] eqn:Ei; [|by left]. apply lex_int_sound in Ei as [-> Hds].
  assert (Hexp : forall fraction r, fraction_text fraction -> fraction <> [] \/ 10 <= vlen (minus negative ++ ds) \/ match r with c :: _ => isExponent c = true | [] => True end ->
    failed (lexExponent (minus negative ++ ds ++ fraction) r)
    \/ exists n t rest, lexExponent (minus negative ++ ds ++ fraction) r = numberOf n rest /\ minus negative ++ ds ++ fraction ++ r = t ++ rest /\ (number_text n t /\ (small_integer (JSNumber n) = true -> rest <> []) \/ last_number n t /\ rest = [])).
  { intros fraction r Hf Hwhy. destruct (lexExponent_sound (minus negative ++ ds ++ fraction) r) as [|(e & rest & He & -> & -> & Hend)]; [by left|]. right.
    eexists _, (minus negative ++ ds ++ fraction ++ e), rest. split; [reflexivity|]. split; [by rewrite <- !(assoc_L (++))|]. rewrite <- !(assoc_L (++)).
    destruct (decide (fraction <> [] \/ e <> [] \/ 10 <= vlen (minus negative ++ ds))) as [Hd|Hd]; [left; split; [by apply nt_double|done]|]. right.
    assert (fraction = []) by (destruct fraction; [done|]; destruct Hd; by left). assert (e = []) by (destruct e; [done|]; destruct Hd; right; by left). subst. cbn [app] in *. split.
    - exists negative, ds. rewrite !app_nil_r. split; [done|]. split; [|done]. destruct (decide (vlen (minus negative ++ ds) < 10)); [done|]. destruct Hd. right. right. lia.
    - destruct Hwhy as [?|[?|Hc]]; [done|destruct Hd; by right; right|]. destruct rest as [|c rest]; [done|]. specialize (Hend eq_refl). congruence. }
  destruct rest1 as [|c after].
  - specialize (Hexp [] [] (or_introl eq_refl) (or_intror (or_intror I))). by rewrite !app_nil_r in *.
  - destruct (Z.eqb_spec c 46) as [->|Hc].
    + destruct (lex_digits after) as [[fds rest]|] eqn:Ed; [|by left]. apply lex_digits_sound in Ed as [-> Hfds]. apply (Hexp (46 :: fds) rest); [right; by exists fds|by left].
    + destruct (negb (isExponent c) && _) eqn:Hsmall.
      * apply andb_true_iff in Hsmall as [_ Hlen%Z.ltb_lt]. right. eexists _, (minus negative ++ ds), (c :: after). split; [reflexivity|]. split; [by rewrite <- (assoc_L (++))|]. left.
        replace (negb (bool_decide (minus negative = []))) with negative by (by destruct negative). split; [by apply nt_small|done].
      * specialize (Hexp [] (c :: after) (or_introl eq_refl)). rewrite !app_nil_r in Hexp. apply Hexp. apply andb_false_iff in Hsmall as [He|Hlen%Z.ltb_ge]; [|by right; left]. right. right. by apply negb_false_iff in He.
Qed.

(** ** Tokens *)

(** The text of a token, before the text that is left. *)
Definition token_text (tok : LiteralParserToken) (rest t : list Z) : Prop :=
  match token_type tok with
  | TokLBracket => t = [91] | TokRBracket => t = [93] | TokLBrace => t = [123] | TokRBrace => t = [125]
  | TokLParen => t = [40] | TokRParen => t = [41] | TokComma => t = [44] | TokColon => t = [58]
  | TokDot => t = [46] | TokAssign => t = [61] | TokSemi => t = [59]
  | TokTrue => t = word_true | TokFalse => t = word_false | TokNull => t = word_null
  | TokString => exists k, t = quoted k /\ string_text (stringToken tok) k
  | TokNumber => number_text (numberToken tok) t /\ (small_integer (JSNumber (numberToken tok)) = true -> rest <> []) \/ last_number (numberToken tok) t /\ rest = []
  | TokEnd => t = [] /\ rest = []
  | TokIdentifier | TokError => True
  end.

(** No value has these tokens. *)
Definition foreign (type : TokenType) : bool := match type with TokIdentifier | TokError => true | _ => false end.

Lemma after_word_sound word : forall ptr rest, after_word word ptr = Some rest -> ptr = word ++ rest.
Proof.
  induction word as [|c word IH]; intros ptr rest; cbn [after_word app]; [by intros [= ->]|]. destruct ptr as [|d ptr]; [done|]. destruct (Z.eqb_spec c d) as [->|]; [|done]. by intros ->%IH.
Qed.

Lemma lex_sound wide ptr l : lex wide ptr = Some l -> foreign (token_type (m_currentToken l)) = true
  \/ exists w t, white w /\ ptr = w ++ t ++ m_ptr l /\ token_text (m_currentToken l) (m_ptr l) t.
Proof.
  unfold lex. pose proof (span_app isJSONWhiteSpace ptr) as Hs. destruct (span isJSONWhiteSpace ptr) as [w rest]. destruct Hs as (-> & Hw & _). destruct rest as [|c rest]; [intros [= <-]; right; by exists w, []|].
  assert (Hfind : forall table, table = punctuation \/ table = other_punctuation -> forall d type, List.find (fun t => fst t =? c) table = Some (d, type) -> token_text (plainToken type) rest [c]).
  { intros table Ht d type Hf. apply List.find_some in Hf as [Hin Hd]. cbn in Hd. apply Z.eqb_eq in Hd as ->. destruct Ht as [->| ->]; cbn in Hin; repeat (destruct Hin as [[= <- <-]|Hin]; [done|]); done. }
  destruct (List.find _ punctuation) as [[d type]|] eqn:E1; [intros [= <-]; right; exists w, [c]; split; [done|]; split; [done|]; by eapply Hfind; [left|]|].
  destruct (Z.eqb_spec c 34) as [->|_].
  { intros Hl%lexString_sound. destruct Hl as [Hl|(k & -> & Hk & Hty)]; [left; by rewrite Hl|]. right. exists w, (quoted k). split; [done|]. split; [unfold quoted; cbn [app]; by rewrite <- (assoc_L (++))|]. unfold token_text. rewrite Hty. by exists k. }
  destruct (keyword (c :: rest)) as [l1|] eqn:E2.
  { intros [= <-]. right. unfold keyword in E2. destruct (after_word word_true _) as [r|] eqn:W1; [injection E2 as <-; apply after_word_sound in W1; rewrite W1; by exists w, word_true|].
    destruct (after_word word_false _) as [r|] eqn:W2; [injection E2 as <-; apply after_word_sound in W2; rewrite W2; by exists w, word_false|].
    destruct (after_word word_null _) as [r|] eqn:W3; [injection E2 as <-; apply after_word_sound in W3; rewrite W3; by exists w, word_null|done]. }
  destruct (_ || _).
  { intros [= <-]. destruct (lexNumber_sound (c :: rest)) as [Hf|(n & t & r & -> & -> & Hn)]; [left; by rewrite Hf|]. right. by exists w, t. }
  destruct (List.find _ other_punctuation) as [[d type]|] eqn:E3; [intros [= <-]; right; exists w, [c]; split; [done|]; split; [done|]; by eapply Hfind; [right|]|].
  destruct (_ || _); intros [= <-]; left; [|done]. unfold lexIdentifier. by destruct (span _ _).
Qed.

(** Texts that are the same up to the grouping of their parts. *)
Ltac same_text := repeat first [progress rewrite <- !(assoc_L (++)) | progress cbn [app]]; reflexivity.

(** ** Prefixes of arrays and objects *)

(** The elements before the next one, with the comma after them. *)
Definition elements_before (vs : list JSValue) (t : list Z) : Prop := (vs = [] /\ t = []) \/ exists e, t = e ++ [44] /\ elements_text vs e.

Definition members_before (ms : list (list Z * JSValue)) (t : list Z) : Prop := (ms = [] /\ t = []) \/ exists e, t = e ++ [44] /\ members_text ms e.

Lemma elements_snoc vs e v w t w' : elements_text vs e -> white w -> value_text v t -> white w' -> elements_text (vs ++ [v]) (e ++ 44 :: w ++ t ++ w').
Proof.
  revert e. induction vs as [|v1 vs IH]; intros e He Hw Hv Hw'; inversion He as [? w1 t1 w2 H1 H2 H3|? ? w1 t1 w2 ts H1 H2 H3 Hts]; subst; rewrite <- ?(assoc_L (++)); cbn [app].
  - apply et_more; [done..|]. by apply et_one.
  - apply et_more; [done..|]. by apply IH.
Qed.

Lemma elements_next vs e v w t w' : elements_before vs e -> white w -> value_text v t -> white w' -> elements_text (vs ++ [v]) (e ++ w ++ t ++ w').
Proof. intros [[-> ->]|(e' & -> & He)] Hw Hv Hw'; [by apply (et_one v w t w')|]. rewrite <- (assoc_L (++)). cbn [app]. by apply elements_snoc. Qed.

Lemma members_snoc ms e name k v w w1 w2 t w3 : members_text ms e -> white w -> string_text name k -> white w1 -> white w2 -> value_text v t -> white w3 ->
  members_text (ms ++ [(name, v)]) (e ++ 44 :: w ++ quoted k ++ w1 ++ 58 :: w2 ++ t ++ w3).
Proof.
  revert e. induction ms as [|m1 ms IH]; intros e He Hw Hk Hw1 Hw2 Hv Hw3; inversion He; subst; rewrite <- ?(assoc_L (++)); cbn [app]; rewrite <- ?(assoc_L (++)); cbn [app]; rewrite <- ?(assoc_L (++)).
  - apply mt_more; [done..|]. by apply mt_one.
  - apply mt_more; [done..|]. by apply IH.
Qed.

Lemma members_next ms e name k v w w1 w2 t w3 : members_before ms e -> white w -> string_text name k -> white w1 -> white w2 -> value_text v t -> white w3 ->
  members_text (ms ++ [(name, v)]) (e ++ w ++ quoted k ++ w1 ++ 58 :: w2 ++ t ++ w3).
Proof. intros [[-> ->]|(e' & -> & He)] Hw Hk Hw1 Hw2 Hv Hw3; [by apply (mt_one name v w k w1 w2 t w3)|]. rewrite <- (assoc_L (++)). cbn [app]. by apply members_snoc. Qed.

Lemma members_object_snoc ms name v : members_object (ms ++ [(name, v)]) = putDirect (members_object ms) name v.
Proof. unfold members_object. by rewrite foldl_app. Qed.

(** ** What has been read *)

(** The text before the value that is read now, by the stacks. *)
Inductive context : list ParserState -> list JSValue -> list (list Z) -> list Z -> Prop :=
| context_nil : context [] [] [] []
| context_array states elements objects names before w e :
    context states objects names before -> white w -> elements_before elements e ->
    context (DoParseArrayEndExpression :: states) (JSArray elements :: objects) names (before ++ w ++ 91 :: e)
| context_object states ms objects name names before w e w1 k w2 :
    context states objects names before -> white w -> members_before ms e -> white w1 -> string_text name k -> white w2 ->
    context (DoParseObjectEndExpression :: states) (JSObject (members_object ms) :: objects) (name :: names) (before ++ w ++ 123 :: e ++ w1 ++ quoted k ++ w2 ++ [58]).

Section Text.
Variable wide : bool.
Variable T : list Z.

(** The lexer is at the first token after this text. *)
Definition at_token (before : list Z) (l : Lexer) : Prop :=
  foreign (token_type (m_currentToken l)) = true \/ exists w t, white w /\ T = before ++ w ++ t ++ m_ptr l /\ token_text (m_currentToken l) (m_ptr l) t.

Lemma lex_at before ptr l : T = before ++ ptr -> lex wide ptr = Some l -> at_token before l.
Proof. intros -> Hl%lex_sound. destruct Hl as [Hl|(w & t & Hw & -> & Ht)]; [by left|]. right. by exists w, t. Qed.

(** A punctuation token is its character. *)
Lemma at_token_type before l type c : at_token before l -> token_type (m_currentToken l) = type -> (c, type) ∈ punctuation -> exists w, white w /\ T = before ++ w ++ c :: m_ptr l.
Proof.
  intros Hat Hty Hin. unfold at_token, token_text in Hat. rewrite Hty in Hat. unfold punctuation in Hin. rewrite !elem_of_cons, elem_of_nil in Hin.
  destruct_or! Hin; try done; injection Hin as -> ->; destruct Hat as [?|(w & t & Hw & HT & Ht)]; try done; subst t; by exists w.
Qed.

(** A value has been read in its context. *)
Definition read_value (states : list ParserState) (p : ParseVariables) : Prop :=
  exists before w t, context states (objectStack p) (identifierStack p) before /\ white w /\ at_token (before ++ w ++ t) (m_lexer p)
    /\ (value_text (lastValue p) t /\ (small_integer (lastValue p) = true -> T <> before ++ w ++ t) \/ T = before ++ w ++ t /\ currentType p = TokEnd /\ exists n, lastValue p = JSNumber n /\ last_number n t).

Definition in_array (p : ParseVariables) : Prop :=
  exists before w elements e objects, objectStack p = JSArray elements :: objects /\ context (stateStack p) objects (identifierStack p) before /\ white w /\ T = before ++ w ++ 91 :: e ++ m_ptr (m_lexer p)
    /\ elements_before elements e /\ (currentType p <> TokComma -> elements = [] /\ e = []).

(** Before the name of a property. *)
Definition in_object (p : ParseVariables) (after_brace : list Z -> Prop) : Prop :=
  exists before w ms e objects, objectStack p = JSObject (members_object ms) :: objects /\ context (stateStack p) objects (identifierStack p) before /\ white w
    /\ members_before ms e /\ after_brace (before ++ w ++ 123 :: e) .

(** What holds when a state is entered. *)
Definition entered (state : ParserState) (p : ParseVariables) : Prop :=
  match state with
  | StartParseExpression => exists before, context (stateStack p) (objectStack p) (identifierStack p) before /\ at_token before (m_lexer p)
  | StartParseArray => exists before, context (stateStack p) (objectStack p) (identifierStack p) before /\ at_token before (m_lexer p) /\ currentType p = TokLBracket
  | StartParseObject => exists before, context (stateStack p) (objectStack p) (identifierStack p) before /\ at_token before (m_lexer p) /\ currentType p = TokLBrace
  | DoParseArrayStartExpression => in_array p
  | DoParseObjectStartExpression => in_object p (fun before => T = before ++ m_ptr (m_lexer p))
  | DoParseArrayEndExpression => read_value (DoParseArrayEndExpression :: stateStack p) p
  | DoParseObjectEndExpression => read_value (DoParseObjectEndExpression :: stateStack p) p
  end /\ names_ok (identifiers p).

Definition led_to (r : state_result) : Prop :=
  match r with
  | Goto state p => entered state p
  | Break p => read_value (stateStack p) p /\ names_ok (identifiers p)
  | ReturnEmpty _ => True
  end.

(** A value of one token. *)
Lemma pass_sound p v r :
  (exists before, context (stateStack p) (objectStack p) (identifierStack p) before /\ at_token before (m_lexer p)) -> names_ok (identifiers p) -> foreign (currentType p) = false ->
  (forall t, token_text (m_currentToken (m_lexer p)) (m_ptr (m_lexer p)) t -> value_text v t /\ (small_integer v = true -> m_ptr (m_lexer p) <> []) \/ m_ptr (m_lexer p) = [] /\ exists n, v = JSNumber n /\ last_number n t) ->
  pass wide p v = Some r -> led_to r.
Proof.
  intros (before & Hc & Hat) Hn Hty Hv. unfold pass. destruct (next wide (m_lexer p)) as [l|] eqn:Hl; [|done]. rewrite option_bind_Some. intros [= <-]. split; [|done].
  destruct Hat as [Hf|(w & t & Hw & HT & Ht)]; [unfold currentType in Hty; congruence|]. exists before, w, t. split; [done|]. split; [done|]. split.
  - apply (lex_at _ (m_ptr (m_lexer p))); [rewrite HT; same_text|done].
  - cbn [lastValue with_value with_lexer]. destruct (Hv t Ht) as [[Hval Hsmall]|[Hnil Hnum]].
    { left. split; [done|]. intros Hs HT'. apply (Hsmall Hs). rewrite HT in HT'. apply (f_equal length) in HT'. rewrite !length_app in HT'. apply length_zero_iff_nil. lia. }
     right. split; [by rewrite HT, Hnil, app_nil_r|]. split; [|done]. unfold next in Hl. rewrite Hnil in Hl. injection Hl as <-. done.
Qed.

(** An array or an object is complete. *)
Lemma pop_sound p before w t o objects r :
  objectStack p = o :: objects -> context (stateStack p) objects (identifierStack p) before -> white w -> value_text o t -> small_integer o = false -> T = before ++ w ++ t ++ m_ptr (m_lexer p) -> names_ok (identifiers p) ->
  pop_object wide p = Some r -> led_to r.
Proof.
  intros Ho Hc Hw Hv Hint HT Hn. unfold pop_object. destruct (next wide (m_lexer p)) as [l|] eqn:Hl; [|done]. rewrite option_bind_Some, Ho. intros [= <-]. split; [|done]. exists before, w, t. split; [done|]. split; [done|]. split; [|left; split; [done|]; cbn; by rewrite Hint].
  apply (lex_at _ (m_ptr (m_lexer p))); [rewrite HT; same_text|done].
Qed.

Lemma start_property_sound p r :
  in_object p (fun before => at_token before (m_lexer p)) -> names_ok (identifiers p) -> currentType p = TokString -> start_property wide p = Some r -> led_to r.
Proof.
  intros (before & w & ms & e & objects & Ho & Hc & Hw & He & Hat) Hn Hty. destruct Hat as [Hf|(w1 & t & Hw1 & HT & Ht)]; [unfold currentType in Hty; rewrite Hty in Hf; done|].
  unfold currentType in Hty. unfold token_text in Ht. rewrite Hty in Ht. destruct Ht as (k & -> & Hk). destruct (makeIdentifier_ok (identifiers p) (stringToken (m_currentToken (m_lexer p))) Hn) as (ids & Hid & Hids).
  unfold start_property. destruct (next wide (m_lexer p)) as [l|] eqn:Hl; [|done]. rewrite option_bind_Some. case_bool_decide as Hcolon; [|by intros [= <-]].
  destruct (next wide l) as [l2|] eqn:Hl2; [|done]. rewrite option_bind_Some, Hid. intros [= <-]. split; [|done]. cbn [stateStack objectStack identifierStack m_lexer]. rewrite Ho.
  apply (lex_at ((before ++ w ++ 123 :: e) ++ w1 ++ quoted k)) in Hl; [|rewrite HT; same_text]. destruct (at_token_type _ _ _ 58 Hl Hcolon) as (w2 & Hw2 & HT2); [set_solver|].
  exists (before ++ w ++ 123 :: e ++ w1 ++ quoted k ++ w2 ++ [58]). split; [by apply context_object|]. apply (lex_at _ (m_ptr l)); [|done]. rewrite HT2. same_text.
Qed.

Lemma context_array_inv states objects names before : context (DoParseArrayEndExpression :: states) objects names before ->
  exists elements objects' before' w e, objects = JSArray elements :: objects' /\ before = before' ++ w ++ 91 :: e /\ context states objects' names before' /\ white w /\ elements_before elements e.
Proof. inversion 1; subst. by eexists _, _, _, _, _. Qed.

Lemma context_object_inv states objects names before : context (DoParseObjectEndExpression :: states) objects names before ->
  exists ms objects' name names' before' w e w1 k w2, objects = JSObject (members_object ms) :: objects' /\ names = name :: names' /\ before = before' ++ w ++ 123 :: e ++ w1 ++ quoted k ++ w2 ++ [58]
    /\ context states objects' names' before' /\ white w /\ members_before ms e /\ white w1 /\ string_text name k /\ white w2.
Proof. inversion 1; subst. by eexists _, _, _, _, _, _, _, _, _, _. Qed.

(** A value that is followed by a token is a value of the grammar. *)
Lemma read_value_inv states p type c : read_value states p -> currentType p = type -> (c, type) ∈ punctuation ->
  exists before w t w', context states (objectStack p) (identifierStack p) before /\ white w /\ value_text (lastValue p) t /\ white w' /\ T = before ++ w ++ t ++ w' ++ c :: m_ptr (m_lexer p).
Proof.
  intros (before & w & t & Hc & Hw & Hat & Hv) Hty Hin. destruct (at_token_type _ _ _ c Hat Hty Hin) as (w' & Hw' & HT). exists before, w, t, w'. split; [done|]. split; [done|]. split; [|split; [done|rewrite HT; same_text]].
  destruct Hv as [[? _]|(_ & Hend & _)]; [done|]. rewrite Hend in Hty. subst type. unfold punctuation in Hin. set_solver.
Qed.

Lemma array_start_sound p r : in_array p -> names_ok (identifiers p) -> parse_state wide DoParseArrayStartExpression p = Some r -> led_to r.
Proof.
  intros (before & w & elements & e & objects & Ho & Hc & Hw & HT & He & Hfirst) Hn. cbn [parse_state]. cbv zeta. destruct (next wide (m_lexer p)) as [l|] eqn:Hl; [|done]. rewrite option_bind_Some.
  apply (lex_at (before ++ w ++ 91 :: e)) in Hl; [|rewrite HT; same_text]. case_bool_decide as Hclose.
  - case_bool_decide as Hcomma; [by intros [= <-]|]. destruct (Hfirst Hcomma) as [-> ->]. destruct (at_token_type _ _ _ 93 Hl Hclose) as (w' & Hw' & HT'); [set_solver|].
    apply (pop_sound _ before w (91 :: w' ++ [93]) (JSArray []) objects); try done; [by apply vt_empty_array|]. rewrite HT'. same_text.
  - intros [= <-]. split; [|done]. cbn. rewrite Ho. exists (before ++ w ++ 91 :: e). split; [by apply context_array|done].
Qed.

Lemma array_end_sound p r : read_value (DoParseArrayEndExpression :: stateStack p) p -> names_ok (identifiers p) -> parse_state wide DoParseArrayEndExpression p = Some r -> led_to r.
Proof.
  intros Hread Hn. cbn [parse_state]. destruct (objectStack p) as [|[| | | |elements|] objects] eqn:Ho; try done. cbv zeta. unfold currentType at 1 2. cbn [m_lexer]. fold (currentType p).
  assert (Hv : forall c type, currentType p = type -> (c, type) ∈ punctuation -> exists before w t, context (stateStack p) objects (identifierStack p) before /\ white w
    /\ elements_text (elements ++ [lastValue p]) t /\ T = before ++ w ++ 91 :: t ++ c :: m_ptr (m_lexer p)).
  { intros c type Hty Hin. destruct (read_value_inv _ _ _ c Hread Hty Hin) as (before & w & t & w' & Hc & Hw & Ht & Hw' & HT). rewrite Ho in Hc.
    destruct (context_array_inv _ _ _ _ Hc) as (els & objs & before' & w0 & e & [= <- <-] & -> & Hc' & Hw0 & He). exists before', w0, (e ++ w ++ t ++ w'). split; [done|]. split; [done|]. split; [by apply elements_next|].
    rewrite HT. same_text. }
  case_bool_decide as Hcomma.
  - destruct (Hv 44 _ Hcomma) as (before & w & t & Hc & Hw & Ht & HT); [set_solver|]. intros [= <-]. split; [|done]. exists before, w, (elements ++ [lastValue p]), (t ++ [44]), objects. split; [done|]. split; [done|]. split; [done|].
    split; [rewrite HT; same_text|]. split; [|unfold currentType; cbn; by intros Hne]. right. by exists t.
  - case_bool_decide as Hclose; [|by intros [= <-]]. destruct (Hv 93 _ Hclose) as (before & w & t & Hc & Hw & Ht & HT); [set_solver|].
    apply (pop_sound _ before w (91 :: t ++ [93]) (JSArray (elements ++ [lastValue p])) objects); try done; [by apply vt_array|]. cbn [m_lexer app]. rewrite HT; same_text.
Qed.

Lemma object_end_sound p r : read_value (DoParseObjectEndExpression :: stateStack p) p -> names_ok (identifiers p) -> parse_state wide DoParseObjectEndExpression p = Some r -> led_to r.
Proof.
  intros Hread Hn. cbn [parse_state]. destruct (objectStack p) as [|[| | | | |properties] objects] eqn:Ho; try done. destruct (identifierStack p) as [|ident names] eqn:Hi; [done|]. cbv zeta. unfold currentType at 1 2. cbn [m_lexer]. fold (currentType p).
  assert (Hv : forall c type, currentType p = type -> (c, type) ∈ punctuation -> exists before w ms t, context (stateStack p) objects names before /\ white w
    /\ members_text ms t /\ members_object ms = putDirect properties ident (lastValue p) /\ T = before ++ w ++ 123 :: t ++ c :: m_ptr (m_lexer p)).
  { intros c type Hty Hin. destruct (read_value_inv _ _ _ c Hread Hty Hin) as (before & w & t & w' & Hc & Hw & Ht & Hw' & HT). rewrite Ho, Hi in Hc.
    destruct (context_object_inv _ _ _ _ Hc) as (ms & objs & nm & nms & before' & w0 & e & w1 & k & w2 & [= -> <-] & [= <- <-] & -> & Hc' & Hw0 & He & Hw1 & Hk & Hw2).
    exists before', w0, (ms ++ [(ident, lastValue p)]), (e ++ w1 ++ quoted k ++ w2 ++ 58 :: w ++ t ++ w'). split; [done|]. split; [done|]. split; [by apply members_next|]. split; [apply members_object_snoc|].
    rewrite HT. same_text. }
  case_bool_decide as Hcomma.
  - destruct (Hv 44 _ Hcomma) as (before & w & ms & t & Hc & Hw & Ht & Hms & HT); [set_solver|]. intros [= <-]. split; [|done]. exists before, w, ms, (t ++ [44]), objects. cbn. rewrite Hms. split; [done|]. split; [done|]. split; [done|].
    split; [right; by exists t|]. rewrite HT. same_text.
  - case_bool_decide as Hclose; [|by intros [= <-]]. destruct (Hv 125 _ Hclose) as (before & w & ms & t & Hc & Hw & Ht & Hms & HT); [set_solver|]. rewrite <- Hms.
    apply (pop_sound _ before w (123 :: t ++ [125]) (JSObject (members_object ms)) objects); try done; [by apply vt_object|]. cbn [m_lexer app]. rewrite HT; same_text.
Qed.

Lemma expression_sound p r : entered StartParseExpression p -> parse_state wide StartParseExpression p = Some r -> led_to r.
Proof.
  intros [He Hn]. cbn [parse_state]. destruct (currentType p) eqn:Hty; try (by intros [= <-]).
  - intros [= <-]. split; [|done]. destruct He as (before & ? & ?). by exists before.
  - intros [= <-]. split; [|done]. destruct He as (before & ? & ?). by exists before.
  - destruct (makeIdentifier_ok (identifiers p) (stringToken (m_currentToken (m_lexer p))) Hn) as (ids & -> & Hids). apply pass_sound; [done|done|by unfold currentType in *; cbn; rewrite Hty|].
    cbn [m_lexer]. unfold token_text. unfold currentType in Hty. rewrite Hty. intros t (k & -> & Hk). left. split; [by apply vt_string|done].
  - apply pass_sound; [done|done|by rewrite Hty|]. unfold token_text. unfold currentType in Hty. rewrite Hty. intros t [[Ht Hs]|[Ht Hnil]]; [left; split; [by apply vt_number|done]|]. right. split; [done|]. by eexists.
  - apply pass_sound; [done|done|by rewrite Hty|]. unfold token_text. unfold currentType in Hty. rewrite Hty. intros t ->. left. split; [constructor|done].
  - apply pass_sound; [done|done|by rewrite Hty|]. unfold token_text. unfold currentType in Hty. rewrite Hty. intros t ->. left. split; [constructor|done].
  - apply pass_sound; [done|done|by rewrite Hty|]. unfold token_text. unfold currentType in Hty. rewrite Hty. intros t ->. left. split; [constructor|done].
Qed.

Lemma object_next p before w ms e objects r l :
  objectStack p = JSObject (members_object ms) :: objects -> context (stateStack p) objects (identifierStack p) before -> white w -> members_before ms e -> T = before ++ w ++ 123 :: e ++ m_ptr (m_lexer p) -> names_ok (identifiers p) ->
  next wide (m_lexer p) = Some l -> currentType (with_lexer p l) = TokString -> start_property wide (with_lexer p l) = Some r -> led_to r.
Proof.
  intros Ho Hc Hw He HT Hn Hl Hty. apply start_property_sound; [|done|done]. exists before, w, ms, e, objects. split; [done|]. split; [done|]. split; [done|]. split; [done|]. apply (lex_at _ (m_ptr (m_lexer p))); [rewrite HT; same_text|done].
Qed.

Lemma object_sound p r : entered StartParseObject p -> parse_state wide StartParseObject p = Some r -> led_to r.
Proof.
  intros [(before & Hc & Hat & Hty) Hn]. destruct (at_token_type _ _ _ 123 Hat Hty) as (w & Hw & HT); [set_solver|]. cbn [parse_state]. cbv zeta. destruct (next wide (m_lexer (push_object p (JSObject [])))) as [l|] eqn:Hl; [|done]. rewrite option_bind_Some.
  case_bool_decide as Hstring; [by apply (object_next (push_object p (JSObject [])) before w [] [] (objectStack p)); try done; left|]. case_bool_decide as Hclose; [|by intros [= <-]].
  apply (lex_at (before ++ w ++ [123])) in Hl; [|rewrite HT; same_text]. destruct (at_token_type _ _ _ 125 Hl Hclose) as (w' & Hw' & HT'); [set_solver|].
  apply (pop_sound _ before w (123 :: w' ++ [125]) (JSObject []) (objectStack p)); try done; [by apply vt_empty_object|]. rewrite HT'. same_text.
Qed.

Lemma step_sound state p r : entered state p -> parse_state wide state p = Some r -> led_to r.
Proof.
  intros He. destruct state.
  - by apply object_sound.
  - destruct He as [(before & Hc & Hat & Hty) Hn]. intros [= <-]. split; [|done]. destruct (at_token_type _ _ _ 91 Hat Hty) as (w & Hw & HT); [set_solver|]. exists before, w, [], [], (objectStack p).
    split; [done|]. split; [done|]. split; [done|]. split; [done|]. split; [by left|done].
  - by apply expression_sound.
  - destruct He as [(before & w & ms & e & objects & Ho & Hc & Hw & He & HT) Hn]. cbn [parse_state]. destruct (next wide (m_lexer p)) as [l|] eqn:Hl; [|done]. rewrite option_bind_Some. cbv zeta. case_bool_decide as Hty; [|by intros [= <-]].
    apply (object_next p before w ms e objects); try done. rewrite HT. same_text.
  - destruct He. by apply object_end_sound.
  - destruct He. by apply array_start_sound.
  - destruct He. by apply array_end_sound.
Qed.

Lemma context_nil_inv objects names before : context [] objects names before -> before = [].
Proof. by inversion 1. Qed.

Lemma parse_loop_sound fuel : forall state p l v, entered state p -> parse_loop fuel wide state p = Some (l, Some v) ->
  exists p', m_lexer p' = l /\ lastValue p' = v /\ read_value [] p'.
Proof.
  induction fuel as [|fuel IH]; intros state p l v He; [done|]. cbn [parse_loop]. destruct (parse_state wide state p) as [r|] eqn:Hs; [|done]. rewrite option_bind_Some. apply step_sound in Hs; [|done]. destruct r as [state' p'|p'|l']; [by apply IH| |done].
  destruct Hs as [Hread Hn]. destruct (stateStack p') as [|state' states] eqn:Est; [intros [= <- <-]; by exists p'|]. apply IH.
  destruct Hread as (before & w & t & Hc & Hrest). assert (Hstate : state' = DoParseArrayEndExpression \/ state' = DoParseObjectEndExpression) by (inversion Hc; auto). destruct Hstate as [-> | ->]; (split; [|done]); by exists before, w, t.
Qed.

(** The tokens that may end a text. *)
Lemma document_read p rest :
  read_value [] p -> currentType p = TokEnd /\ rest = [] \/ currentType p = TokSemi /\ m_ptr (m_lexer p) = rest /\ white rest -> document (lastValue p) T.
Proof.
  intros (before & w & t & Hc & Hw & Hat & Hv) Hty. apply context_nil_inv in Hc as ->. unfold currentType in Hty. unfold at_token, token_text in Hat.
  assert (HT : exists w' s, white w' /\ ending s /\ T = w ++ t ++ w' ++ s).
  { destruct Hty as [[Hty _]|(Hty & Hptr & Hrest)]; rewrite Hty in Hat; destruct Hat as [?|(w' & t' & Hw' & HT & Ht')]; try done; exists w'.
    - destruct Ht' as [-> Hp]. exists []. split; [done|]. split; [by left|]. rewrite HT, Hp. same_text.
    - exists (59 :: rest). subst t'. split; [done|]. split; [right; by exists rest|]. rewrite HT, Hptr. same_text. }
  destruct HT as (w' & s & Hw' & Hs & HT). destruct Hv as [[Hv Hsmall]|(HT' & _ & n & -> & Hn)]; [|rewrite HT'; by apply (doc_last n w t)]. rewrite HT. apply doc_value; try done.
  intros Hint Hnil. apply (Hsmall Hint). rewrite HT, Hnil. by rewrite !app_nil_r.
Qed.
End Text.

Lemma lex_end_inv wide ptr l : lex wide ptr = Some l -> token_type (m_currentToken l) = TokEnd -> white ptr.
Proof. intros Hl%lex_sound Hty. unfold token_text in Hl. rewrite Hty in Hl. destruct Hl as [?|(w & t & Hw & -> & -> & ->)]; [done|]. by rewrite app_nil_r. Qed.

(** A text that is read as a value is a text of that value. *)
Lemma JSONParse_sound is8Bit v T : JSONParse is8Bit T = Some (Some v) -> document v T.
Proof.
  unfold JSONParse, tryLiteralParse. set (wide := negb is8Bit). destruct (lex wide T) as [l|] eqn:Hl; [|done]. rewrite option_bind_Some. destruct (parse_loop _ wide _ _) as [[l' r]|] eqn:Hrun; [|done]. rewrite option_bind_Some.
  destruct r as [v'|]; [|destruct (if bool_decide _ then _ else _) as [l2|]; [|done]; rewrite option_bind_Some; by case_bool_decide].
  apply (parse_loop_sound wide T) in Hrun; [|split; [exists []; split; [constructor|]; by apply (lex_at wide T [] T)|apply names_ok_empty]]. destruct Hrun as (p & <- & <- & Hread).
  case_bool_decide as Hsemi.
  - destruct (next wide (m_lexer p)) as [l2|] eqn:Hl2; [|done]. rewrite option_bind_Some. case_bool_decide as Hend; [|done]. intros [= <-]. apply (document_read T p (m_ptr (m_lexer p))); [done|]. right. split; [done|]. split; [done|]. by eapply lex_end_inv.
  - rewrite option_bind_Some. case_bool_decide as Hend; [|done]. intros [= <-]. apply (document_read T p []); [done|]. by left.
Qed.
