(* ===== verification/RuleListParser.v ===== *)
(** * Reading rules from JSON (ContentExtensionParser.h/.cpp, ResourceLoadInfo.cpp)

    A list of rules is an array of objects.  The parser asks the values of JSON
    for their types and properties; only the names of types are converted to
    strings, as JavaScript converts any value.

    A function that can fail returns a value or an error code. *)

From Stdlib Require Import String Ascii.
From stdpp Require Import gmap.
From S2P Require Import Prelude DFA Actions HashSet NFA Minimizer Yarr URLFilterParser ContentExtension LiteralParser RuleListCompiler.

(** ** Results *)

Inductive result (A : Type) := Value (a : A) | Error (e : ContentExtensionError).
Arguments Value {A}.
Arguments Error {A}.

Definition result_bind {A B : Type} (r : result A) (f : A -> result B) : result B :=
  match r with Value a => f a | Error e => Error e end.

Notation "x ⇐ r ; k" := (result_bind r (fun x => k)) (at level 20, r at level 100, k at level 200, only parsing).

Notation "' pat ⇐ r ; k" := (result_bind r (fun x => match x with pat => k end)) (at level 20, pat pattern, r at level 100, k at level 200, only parsing).

(** ** Strings *)

(** The characters of a literal. *)
Definition literal (s : string) : list Z := map (fun a => Z.of_N (N_of_ascii a)) (list_ascii_of_string s).

(** Strings of JavaScript come from the table of atomic strings, in 8 bits if possible. *)
Definition create8BitIfPossible (cs : list Z) : WString := mkWString (forallb (fun c => Z.land c 65280 =? 0) cs) cs.

(** ** Values as objects *)

Definition isObject (v : JSValue) : bool := match v with JSArray _ | JSObject _ => true | _ => false end.
Definition isString (v : JSValue) : bool := match v with JSString _ => true | _ => false end.

Fixpoint property (properties : list (list Z * JSValue)) (name : list Z) : option JSValue :=
  match properties with
  | [] => None
  | (n, v) :: properties => if bool_decide (n = name) then Some v else property properties name
  end.

(** [get]: what is asked for is no property of a prototype, of an array or of a
    wrapped primitive; [None] is undefined. *)
Definition get (v : JSValue) (name : string) : option JSValue :=
  match v with JSObject properties => property properties (literal name) | _ => None end.

Section ToString.
(** How a number is written. *)
Variable numberToString : Number -> list Z.

(** The strings with a separator between them. *)
Fixpoint join_strings (strings : list (list Z)) : list Z :=
  match strings with
  | [] => []
  | [s] => s
  | s :: strings => s ++ [44] ++ join_strings strings
  end.

(** [toString]; [None] is an exception.  An object with a property "toString"
    has no default value, as no value of JSON is a function. *)
Fixpoint toString (v : JSValue) : option (list Z) :=
  match v with
  | JSNull => Some (literal "null")
  | JSBoolean b => Some (literal (if b then "true" else "false"))
  | JSNumber n => Some (numberToString n)
  | JSString s => Some s
  | JSArray l =>
      strings ← mapM (fun v => match v with JSNull => Some [] | _ => toString v end) l;
      Some (join_strings strings)
  | JSObject properties => match property properties (literal "toString") with Some _ => None | None => Some (literal "[object Object]") end
  end.

(** An exception leaves an empty string. *)
Definition toWTFString (v : JSValue) : WString := create8BitIfPossible (default [] (toString v)).

(** ** Types of loads *)

Definition resourceTypeNames : list (string * ResourceType) :=
  [("document"%string, Type_Document); ("image"%string, Type_Image); ("style-sheet"%string, Type_StyleSheet); ("script"%string, Type_Script);
   ("font"%string, Type_Font); ("raw"%string, Type_Raw); ("svg-document"%string, Type_SVGDocument); ("media"%string, Type_Media); ("popup"%string, Type_Popup)].

Definition loadTypeNames : list (string * LoadType) := [("first-party"%string, FirstParty); ("third-party"%string, ThirdParty)].

(** The first name that equals the string. *)
Definition named {T : Type} (names : list (string * T)) (name : WString) : option T :=
  snd <$> List.find (fun n => bool_decide (literal (fst n) = characters name)) names.

Definition readResourceType (name : WString) : Z := ResourceType_code (default Type_Invalid (named resourceTypeNames name)).
Definition readLoadType (name : WString) : Z := LoadType_code (default Load_Invalid (named loadTypeNames name)).

(** ** Triggers *)

Definition isASCIIUpper (c : Z) : bool := (65 <=? c) && (c <=? 90).

Definition containsOnlyASCIIWithNoUppercase (domain : WString) : bool := forallb (fun c => negb (negb (isASCII c) || isASCIIUpper c)) (characters domain).

Fixpoint domain_loop (vector : list WString) (array : list JSValue) : result (list WString) :=
  match array with
  | [] => Value vector
  | value :: array =>
      match value with
      | JSString s =>
          let domain := create8BitIfPossible s in
          if bool_decide (characters domain = []) then Error JSONInvalidDomainList
          else if negb (containsOnlyASCIIWithNoUppercase domain) then Error JSONDomainNotLowerCaseASCII
          else domain_loop (vector ++ [domain]) array
      | _ => Error JSONInvalidDomainList
      end
  end.

Definition getDomainList (object : JSValue) : result (list WString) :=
  match object with JSArray array => domain_loop [] array | _ => Error JSONInvalidDomainList end.

Fixpoint type_loop (stringToType : WString -> Z) (flags : Z) (array : list JSValue) : result Z :=
  match array with
  | [] => Value flags
  | value :: array =>
      let type := stringToType (toWTFString value) in
      if type =? 0 then Error JSONInvalidStringInTriggerFlagsArray else type_loop stringToType (Z.lor flags type) array
  end.

Definition getTypeFlags (typeValue : JSValue) (flags : Z) (stringToType : WString -> Z) : result Z :=
  if negb (isObject typeValue) then Value flags else
  match typeValue with JSArray array => type_loop stringToType flags array | _ => Error JSONInvalidTriggerFlagsArray end.

(** A property with types: an array, or nothing. *)
Definition load_types (triggerObject : JSValue) (name : string) (flags : Z) (stringToType : WString -> Z) : result Z :=
  match get triggerObject name with
  | Some value => if isObject value then getTypeFlags value flags stringToType else Error JSONInvalidTriggerFlagsArray
  | None => Value flags
  end.

(** A non-empty list of domains. *)
Definition load_domains (value : JSValue) : result (list WString) :=
  ds ⇐ getDomainList value;
  if bool_decide (ds = []) then Error JSONInvalidDomainList else Value ds.

Definition loadTrigger (ruleObject : JSValue) : result Trigger :=
  match get ruleObject "trigger" with
  | None => Error JSONInvalidTrigger
  | Some triggerObject =>
      if negb (isObject triggerObject) then Error JSONInvalidTrigger else
      match get triggerObject "url-filter" with
      | Some (JSString s) =>
          let filter := create8BitIfPossible s in
          if bool_decide (characters filter = []) then Error JSONInvalidURLFilterInTrigger else
          let isCaseSensitive := match get triggerObject "url-filter-is-case-sensitive" with Some (JSBoolean b) => b | _ => false end in
          flags ⇐ load_types triggerObject "resource-type" 0 readResourceType;
          flags ⇐ load_types triggerObject "load-type" flags readLoadType;
          '(ds, condition) ⇐ match get triggerObject "if-domain" with
                              | Some ifDomain => if isObject ifDomain then ds ⇐ load_domains ifDomain; Value (ds, IfDomain) else Error JSONInvalidDomainList
                              | None => Value ([], NoDomain)
                              end;
          match get triggerObject "unless-domain" with
          | Some unlessDomain =>
              if isObject unlessDomain then
                if negb (bool_decide (condition = NoDomain)) then Error JSONUnlessAndIfDomain else
                ds ⇐ load_domains unlessDomain;
                Value (mkTrigger filter isCaseSensitive flags ds UnlessDomain)
              else Error JSONInvalidDomainList
          | None => Value (mkTrigger filter isCaseSensitive flags ds condition)
          end
      | _ => Error JSONInvalidURLFilterInTrigger
      end
  end.

(** ** Actions and rules *)

Definition loadAction (ruleObject : JSValue) : result Action :=
  match get ruleObject "action" with
  | None => Error JSONInvalidAction
  | Some actionObject =>
      if negb (isObject actionObject) then Error JSONInvalidAction else
      match get actionObject "type" with
      | Some (JSString actionType) =>
          if bool_decide (actionType = literal "block") then Value (mkAction BlockLoad uint32_max emptyWString)
          else if bool_decide (actionType = literal "ignore-previous-rules") then Value (mkAction IgnorePreviousRules uint32_max emptyWString)
          else if bool_decide (actionType = literal "block-cookies") then Value (mkAction BlockCookies uint32_max emptyWString)
          else if bool_decide (actionType = literal "css-display-none") then
            match get actionObject "selector" with
            | Some (JSString selector) => Value (mkAction CSSDisplayNoneSelector uint32_max (create8BitIfPossible selector))
            | _ => Error JSONInvalidCSSDisplayNoneActionType
            end
          else Error JSONInvalidActionType
      | _ => Error JSONInvalidActionType
      end
  end.

Definition loadRule (ruleObject : JSValue) (ruleList : list ContentExtensionRule) : result (list ContentExtensionRule) :=
  trigger ⇐ loadTrigger ruleObject;
  action ⇐ loadAction ruleObject;
  Value (ruleList ++ [mkRule trigger action]).

Definition maxRuleCount : Z := 50000.

(** Null is no object and cannot be converted to one. *)
Fixpoint rule_loop (localRuleList : list ContentExtensionRule) (topLevelArray : list JSValue) : result (list ContentExtensionRule) :=
  match topLevelArray with
  | [] => Value localRuleList
  | JSNull :: _ => Error JSONInvalidRule
  | ruleObject :: topLevelArray =>
      localRuleList ⇐ loadRule ruleObject localRuleList;
      rule_loop localRuleList topLevelArray
  end.

(** What [loadEncodedRules] does with the result of [JSONParse]. *)
Definition loadDecodedRules (decodedRules : option JSValue) : result (list ContentExtensionRule) :=
  match decodedRules with
  | None => Error JSONInvalid
  | Some decodedRules =>
      if negb (isObject decodedRules) then Error JSONTopLevelStructureNotAnObject else
      match decodedRules with
      | JSArray topLevelArray =>
          if maxRuleCount <? vlen topLevelArray then Error JSONTooManyRules else rule_loop [] topLevelArray
      | _ => Error JSONTopLevelStructureNotAnArray
      end
  end.

Definition loadEncodedRules (rules : WString) : option (result (list ContentExtensionRule)) :=
  decodedRules ← JSONParse (is8Bit rules) (characters rules);
  Some (loadDecodedRules decodedRules).

Definition parseRuleList (rules : WString) : option (result (list ContentExtensionRule)) :=
  loaded ← loadEncodedRules rules;
  Some (ruleList ⇐ loaded; if bool_decide (ruleList = []) then Error JSONContainsNoRules else Value ruleList).

(** ** The compiler of rule lists *)

Section Compile.
Context `{Host} {NS AS : Type} `{HashSet NS} `{HashSet AS}.
Variable iteration_order : PendingMap -> PendingMap.
Variable state_order : list (list Z * list Z) -> list (list Z * list Z).

Definition compileRuleList (ruleList : WString) : option (list client_call * option ContentExtensionError) :=
  parsed ← parseRuleList ruleList;
  match parsed with
  | Error parserError => Some ([], Some parserError)
  | Value parsedRuleList => compileParsedRules (NS := NS) (AS := AS) iteration_order state_order parsedRuleList
  end.
End Compile.
End ToString.
