(* ===== verification/RuleTextClaims.v ===== *)
(** * Claims: rule lists as texts

    The JSON parser accepts the texts of its grammar.  What is read from a text
    are valid rules; valid rules have texts, and are read from each of them. *)

From Stdlib Require Import String.
From stdpp Require Import gmap.
From S2P Require Import Prelude DFA Actions HashSet NFA Minimizer SerializeCorrect SerializeClaims Yarr URLFilterParser ContentExtension LiteralParser LiteralParserCorrect LiteralGrammar LiteralSound RuleListCompiler RuleListParser.

(** ** Valid rules *)

(** The types that have names. *)
Definition readable_flags (flags : Z) : Prop := 0 <= flags < 4096 /\ Z.land flags 256 = 0.

Definition valid_domain (d : WString) : Prop := characters d <> [] /\ Forall (fun c => 0 <= c < 128 /\ ~ 65 <= c <= 90) (characters d).

Record valid_trigger (t : Trigger) : Prop := {
  vt_filter : characters (urlFilter t) <> [];
  vt_flags : readable_flags (trigger_flags t);
  vt_domains : Forall valid_domain (domains t);
  vt_condition : domains t = [] <-> domainCondition t = NoDomain
}.

Record valid_rule (r : ContentExtensionRule) : Prop := {
  vr_trigger : valid_trigger (trigger r);
  vr_serializable : serializable r;
  vr_action : action r = mkAction (action_type (action r)) uint32_max (stringArgument (action r));
  vr_selector : action_type (action r) <> CSSDisplayNoneSelector -> stringArgument (action r) = emptyWString
}.

(** ** Types *)

Lemma readable_lor a b : readable_flags a -> readable_flags b -> readable_flags (Z.lor a b).
Proof.
  intros [Ha Ha'] [Hb Hb']. split.
  - split; [apply Z.lor_nonneg; lia|]. change 4096 with (2 ^ 12) in *. destruct (decide (Z.lor a b = 0)) as [->|]; [lia|]. apply Z.log2_lt_pow2; [assert (0 <= Z.lor a b) by (apply Z.lor_nonneg; lia); lia|].
    rewrite Z.log2_lor by lia. apply Z.max_lub_lt; [destruct (decide (a = 0)) as [->|]; [done|]; apply Z.log2_lt_pow2; lia|destruct (decide (b = 0)) as [->|]; [done|]; apply Z.log2_lt_pow2; lia].
  - by rewrite Z.land_lor_distr_l, Ha', Hb'.
Qed.

Lemma named_in {T} (names : list (string * T)) name t : named names name = Some t -> exists s, (s, t) ∈ names /\ literal s = characters name.
Proof.
  unfold named. destruct (List.find _ names) as [[s t']|] eqn:E; [|done]. cbn. intros [= ->]. apply List.find_some in E as [Hin Heq]. exists s. split; [by apply list_elem_of_In|]. by apply bool_decide_eq_true in Heq.
Qed.

Lemma readResourceType_readable name : readable_flags (readResourceType name).
Proof.
  unfold readResourceType. destruct (named resourceTypeNames name) as [t|] eqn:E; [|by vm_compute]. apply named_in in E as (s & Hin & _). unfold resourceTypeNames in Hin. rewrite !elem_of_cons, elem_of_nil in Hin.
  cbn [default]. destruct_or! Hin; try done; injection Hin as _ ->; by vm_compute.
Qed.

Lemma readLoadType_readable name : readable_flags (readLoadType name).
Proof.
  unfold readLoadType. destruct (named loadTypeNames name) as [t|] eqn:E; [|by vm_compute]. apply named_in in E as (s & Hin & _). unfold loadTypeNames in Hin. rewrite !elem_of_cons, elem_of_nil in Hin.
  cbn [default]. destruct_or! Hin; try done; injection Hin as _ ->; by vm_compute.
Qed.

Section Valid.
Variable numberToString : Number -> list Z.

Lemma type_loop_readable f array : (forall name, readable_flags (f name)) -> forall flags flags', readable_flags flags -> type_loop numberToString f flags array = Value flags' -> readable_flags flags'.
Proof.
  intros Hf. induction array as [|v array IH]; intros flags flags' Hfl; cbn [type_loop]; [by intros [= <-]|]. destruct (_ =? 0); [done|]. apply IH. by apply readable_lor.
Qed.

Lemma load_types_readable v name f flags flags' : (forall name, readable_flags (f name)) -> readable_flags flags -> load_types numberToString v name flags f = Value flags' -> readable_flags flags'.
Proof.
  intros Hf Hfl. unfold load_types, getTypeFlags. destruct (get v name) as [value|]; [|by intros [= <-]]. destruct value; cbn [isObject negb]; try done. by apply type_loop_readable.
Qed.

(** ** Domains *)

Lemma isASCII_range c : isASCII c = true <-> 0 <= c < 128.
Proof.
  unfold isASCII. rewrite Z.eqb_eq. split.
  - intros Hc. assert (E : c = Z.land c 127). { apply Z.bits_inj'. intros i Hi. apply (f_equal (fun z => Z.testbit z i)) in Hc. rewrite Z.land_spec, Z.lnot_spec, Z.bits_0 in Hc by done. rewrite Z.land_spec. destruct (Z.testbit c i), (Z.testbit 127 i); done. }
    rewrite E. change 127 with (Z.ones 7). rewrite Z.land_ones by lia. apply Z.mod_pos_bound. lia.
  - intros Hc. assert (Hall : forallb (fun c => Z.land c (Z.lnot 127) =? 0) (seqZ 0 128) = true) by by vm_compute. rewrite forallb_forall in Hall. apply Z.eqb_eq, Hall, list_elem_of_In, elem_of_seqZ. lia.
Qed.

Lemma domain_loop_valid array : forall vector ds, Forall valid_domain vector -> domain_loop vector array = Value ds -> Forall valid_domain ds.
Proof.
  induction array as [|v array IH]; intros vector ds Hv; cbn [domain_loop]; [by intros [= <-]|]. destruct v as [| | |s| |]; try done. case_bool_decide as Hne; [done|].
  destruct (containsOnlyASCIIWithNoUppercase _) eqn:Ha; cbn [negb]; [|done]. apply IH. apply Forall_app. split; [done|]. constructor; [|constructor]. split; [done|].
  unfold containsOnlyASCIIWithNoUppercase in Ha. rewrite forallb_forall in Ha. apply Forall_forall. intros c Hc%list_elem_of_In. specialize (Ha c Hc).
  rewrite negb_true_iff, orb_false_iff, negb_false_iff in Ha. destruct Ha as [Ha%isASCII_range Hu]. split; [done|]. unfold isASCIIUpper in Hu. rewrite andb_false_iff, !Z.leb_gt in Hu. lia.
Qed.

Lemma load_domains_valid v ds : load_domains v = Value ds -> Forall valid_domain ds /\ ds <> [].
Proof.
  unfold load_domains, getDomainList. destruct v as [| | | |array|]; try done. destruct (domain_loop [] array) as [ds'|] eqn:E; [|done]. cbn. case_bool_decide; [done|]. intros [= <-]. split; [|done]. eapply domain_loop_valid; [|exact E]. constructor.
Qed.

(** ** Triggers, actions and rules *)

Lemma loadTrigger_valid v t : loadTrigger numberToString v = Value t -> valid_trigger t.
Proof.
  unfold loadTrigger. destruct (get v "trigger") as [o|]; [|done]. destruct (negb (isObject o)); [done|]. destruct (get o "url-filter") as [[| | |s| |]|]; try done. case_bool_decide as Hne; [done|]. cbv zeta.
  destruct (load_types _ _ "resource-type" _ _) as [f1|] eqn:E1; [|done]. cbn [result_bind]. destruct (load_types _ _ "load-type" _ _) as [f2|] eqn:E2; [|done]. cbn [result_bind].
  assert (Hf : readable_flags f2).
  { eapply load_types_readable; [apply readLoadType_readable| |exact E2]. eapply load_types_readable; [apply readResourceType_readable| |exact E1]. by vm_compute. }
  set (first := match get o "if-domain" with Some _ => _ | None => _ end).
  assert (Hfirst : forall ds condition, first = Value (ds, condition) -> Forall valid_domain ds /\ (ds = [] <-> condition = NoDomain)).
  { intros ds condition. unfold first. destruct (get o "if-domain") as [d|]; [|by intros [= <- <-]]. destruct (isObject d); [|done]. destruct (load_domains d) as [ds'|] eqn:Ed; [|done]. cbn. intros [= <- <-]. by apply load_domains_valid in Ed as [? ?]. }
  destruct first as [[ds condition]|]; [|done]. cbn [result_bind]. destruct (Hfirst ds condition eq_refl) as [Hds Hc]. destruct (get o "unless-domain") as [d|]; [|by intros [= <-]].
  destruct (isObject d); [|done]. destruct (negb _); [done|]. destruct (load_domains d) as [ds'|] eqn:Ed; [|done]. cbn [result_bind]. intros [= <-]. apply load_domains_valid in Ed as [? ?]. split; cbn; done.
Qed.

Lemma loadAction_valid v a t : loadAction v = Value a -> valid_trigger t -> valid_rule (mkRule t a).
Proof.
  unfold loadAction. destruct (get v "action") as [o|]; [|done]. destruct (negb (isObject o)); [done|]. destruct (get o "type") as [[| | |s| |]|]; try done.
  intros Ha Ht. repeat match type of Ha with (if ?b then _ else _) = _ => destruct b end; try done.
  4: destruct (get o "selector") as [[| | |sel| |]|]; try done.
  all: injection Ha as <-; split; cbn; try done; unfold serializable; cbn; set_solver.
Qed.

Lemma rule_loop_valid array : forall rules rules', Forall valid_rule rules -> rule_loop numberToString rules array = Value rules' -> Forall valid_rule rules' /\ vlen rules' = vlen rules + vlen array.
Proof.
  induction array as [|v array IH]; intros rules rules' Hr; cbn [rule_loop]; [intros [= <-]; split; [done|cbn; lia]|].
  assert (Hrest : (localRuleList ⇐ loadRule numberToString v rules; rule_loop numberToString localRuleList array) = Value rules' -> Forall valid_rule rules' /\ vlen rules' = vlen rules + vlen (v :: array)).
  { unfold loadRule. destruct (loadTrigger numberToString v) as [t|] eqn:Et; [|done]. cbn [result_bind]. destruct (loadAction v) as [a|] eqn:Ea; [|done]. cbn [result_bind]. intros Hl.
    apply IH in Hl; [|apply Forall_app; split; [done|]; constructor; [|constructor]; eapply loadAction_valid; [exact Ea|by eapply loadTrigger_valid]]. destruct Hl as [Hv Hlen]. split; [done|]. rewrite Hlen, length_app. cbn. lia. }
  destruct v; [done|exact Hrest..].
Qed.

Lemma parseRuleList_accepts text rules :
  parseRuleList numberToString text = Some (Value rules) -> rules <> [] /\ vlen rules <= maxRuleCount /\ Forall valid_rule rules.
Proof.
  unfold parseRuleList, loadEncodedRules. destruct (JSONParse _ _) as [v|]; [|done]. rewrite !option_bind_Some. intros [= Hv]. destruct v as [v|]; [|done]. cbn in Hv.
  destruct v as [| | | |array|]; try done. cbn in Hv. destruct (Z.ltb_spec maxRuleCount (vlen array)) as [|Hlen]; [done|]. destruct (rule_loop _ [] array) as [rules'|] eqn:El; [|done]. cbn in Hv.
  case_bool_decide; [done|]. injection Hv as <-. apply rule_loop_valid in El; [|constructor]. destruct El as [Hval Hn]. split; [done|]. split; [cbn in Hn; lia|done].
Qed.
End Valid.

(** ** The JSON of rules *)

(** The names of the types whose bit is set. *)
Definition set_names {T : Type} (names : list (string * T)) (code : T -> Z) (flags : Z) : list JSValue :=
  map (fun n => JSString (literal (fst n))) (List.filter (fun n => negb (Z.land flags (code (snd n)) =? 0)) names).

Definition optional_array (name : string) (l : list JSValue) : list (list Z * JSValue) := match l with [] => [] | _ => [(literal name, JSArray l)] end.

Definition optional_value (l : list JSValue) : option JSValue := match l with [] => None | _ => Some (JSArray l) end.

Definition encode_string (s : WString) : JSValue := JSString (characters s).

Definition encode_trigger (t : Trigger) : JSValue :=
  JSObject ([(literal "url-filter", encode_string (urlFilter t)); (literal "url-filter-is-case-sensitive", JSBoolean (urlFilterIsCaseSensitive t))]
    ++ optional_array "resource-type" (set_names resourceTypeNames ResourceType_code (trigger_flags t))
    ++ optional_array "load-type" (set_names loadTypeNames LoadType_code (trigger_flags t))
    ++ match domainCondition t with
       | NoDomain => []
       | IfDomain => [(literal "if-domain", JSArray (map encode_string (domains t)))]
       | UnlessDomain => [(literal "unless-domain", JSArray (map encode_string (domains t)))]
       end).

Definition action_name (type : ActionType) : string :=
  match type with BlockLoad => "block" | BlockCookies => "block-cookies" | IgnorePreviousRules => "ignore-previous-rules" | _ => "css-display-none" end.

Definition encode_action (a : Action) : JSValue :=
  JSObject ((literal "type", JSString (literal (action_name (action_type a))))
    :: if decide (action_type a = CSSDisplayNoneSelector) then [(literal "selector", encode_string (stringArgument a))] else []).

Definition encode_rule (r : ContentExtensionRule) : JSValue := JSObject [(literal "trigger", encode_trigger (trigger r)); (literal "action", encode_action (action r))].

Definition encode_rules (rules : list ContentExtensionRule) : JSValue := JSArray (map encode_rule rules).

(** Strings as the parser makes them. *)
Definition narrow (s : WString) : Prop := create8BitIfPossible (characters s) = s.

Record narrow_rule (r : ContentExtensionRule) : Prop := {
  nr_filter : narrow (urlFilter (trigger r));
  nr_domains : Forall narrow (domains (trigger r));
  nr_selector : narrow (stringArgument (action r))
}.

Section Read.
Variable numberToString : Number -> list Z.

Lemma read_all_flags flags : readable_flags flags ->
  exists r, type_loop numberToString readResourceType 0 (set_names resourceTypeNames ResourceType_code flags) = Value r
    /\ type_loop numberToString readLoadType r (set_names loadTypeNames LoadType_code flags) = Value flags.
Proof.
  intros [Hr Hm]. assert (Hall : forallb (fun flags => negb (Z.land flags 256 =? 0) || match type_loop numberToString readResourceType 0 (set_names resourceTypeNames ResourceType_code flags) with
    | Value r => match type_loop numberToString readLoadType r (set_names loadTypeNames LoadType_code flags) with Value f => f =? flags | _ => false end | _ => false end) (seqZ 0 4096) = true) by (vm_compute; reflexivity).
  rewrite forallb_forall in Hall. specialize (Hall flags (proj1 (list_elem_of_In _ _) (proj2 (elem_of_seqZ 0 4096 flags) ltac:(lia)))). rewrite Hm in Hall. cbn [Z.eqb negb orb] in Hall.
  destruct (type_loop _ readResourceType _ _) as [r|]; [|done]. exists r. split; [done|]. destruct (type_loop _ readLoadType _ _) as [f|]; [|done]. by apply Z.eqb_eq in Hall as ->.
Qed.

Lemma load_types_encoded v name l flags f : get v name = optional_value l -> load_types numberToString v name flags f = type_loop numberToString f flags l.
Proof. intros Hg. unfold load_types. rewrite Hg. by destruct l. Qed.

Lemma domain_loop_encoded ds : Forall valid_domain ds -> Forall narrow ds -> forall vector, domain_loop vector (map encode_string ds) = Value (vector ++ ds).
Proof.
  intros Hv Hn. revert Hn. induction Hv as [|d ds [Hne Hd] _ IH]; intros Hn vector; cbn [map domain_loop]; [by rewrite app_nil_r|]. apply Forall_cons in Hn as [Hd' Hn]. cbn [encode_string]. rewrite Hd'.
  rewrite bool_decide_eq_false_2 by done. assert (Hc : containsOnlyASCIIWithNoUppercase d = true).
  { unfold containsOnlyASCIIWithNoUppercase. rewrite forallb_forall. intros c Hc%list_elem_of_In. rewrite Forall_forall in Hd. destruct (Hd c Hc) as [Hr Hu]. rewrite negb_true_iff, orb_false_iff, negb_false_iff, isASCII_range. split; [done|].
    unfold isASCIIUpper. rewrite andb_false_iff, !Z.leb_gt. lia. }
  rewrite Hc. cbn [negb]. rewrite IH by done. by rewrite <- (assoc_L (++)).
Qed.

Lemma load_domains_encoded ds : Forall valid_domain ds -> Forall narrow ds -> ds <> [] -> load_domains (JSArray (map encode_string ds)) = Value ds.
Proof. intros Hv Hn Hne. unfold load_domains, getDomainList. rewrite domain_loop_encoded by done. cbn. by rewrite bool_decide_eq_false_2. Qed.

(** The properties of an encoded trigger. *)
Lemma get_encoded t :
  get (encode_trigger t) "url-filter" = Some (encode_string (urlFilter t))
  /\ get (encode_trigger t) "url-filter-is-case-sensitive" = Some (JSBoolean (urlFilterIsCaseSensitive t))
  /\ get (encode_trigger t) "resource-type" = optional_value (set_names resourceTypeNames ResourceType_code (trigger_flags t))
  /\ get (encode_trigger t) "load-type" = optional_value (set_names loadTypeNames LoadType_code (trigger_flags t))
  /\ get (encode_trigger t) "if-domain" = (if decide (domainCondition t = IfDomain) then Some (JSArray (map encode_string (domains t))) else None)
  /\ get (encode_trigger t) "unless-domain" = (if decide (domainCondition t = UnlessDomain) then Some (JSArray (map encode_string (domains t))) else None).
Proof.
  unfold encode_trigger. set (rs := set_names resourceTypeNames _ _). set (ls := set_names loadTypeNames _ _). clearbody rs ls. destruct rs as [|r rs], ls as [|l ls], (domainCondition t); cbn [optional_array app]; split_and!; reflexivity.
Qed.

Lemma loadTrigger_encoded r : valid_trigger (trigger r) -> narrow_rule r -> loadTrigger numberToString (encode_rule r) = Value (trigger r).
Proof.
  intros [Hne Hfl Hds Hc] [Hn Hnd _]. destruct (get_encoded (trigger r)) as (H1 & H2 & H3 & H4 & H5 & H6). destruct (read_all_flags _ Hfl) as (f & Hf1 & Hf2). unfold loadTrigger.
  change (get (encode_rule r) "trigger") with (Some (encode_trigger (trigger r))). cbv iota beta. change (negb (isObject (encode_trigger (trigger r)))) with false. cbv iota. rewrite H1. cbn [encode_string]. rewrite Hn, bool_decide_eq_false_2 by done. rewrite H2. cbv zeta.
  rewrite (load_types_encoded _ _ _ _ _ H3), Hf1. cbn [result_bind]. rewrite (load_types_encoded _ _ _ _ _ H4), Hf2. cbn [result_bind]. rewrite H5, H6. destruct (trigger r) as [filter sensitive flags ds condition]. cbn in *.
  destruct condition; cbn [result_bind isObject].
  - by rewrite (proj2 Hc eq_refl).
  - rewrite decide_True, decide_False by done. rewrite load_domains_encoded by (try done; intros ->; discriminate (proj1 Hc eq_refl)). done.
  - rewrite decide_False, decide_True by done. cbn. rewrite load_domains_encoded by (try done; intros ->; discriminate (proj1 Hc eq_refl)). done.
Qed.

Lemma loadAction_encoded r : valid_rule r -> narrow_rule r -> loadAction (encode_rule r) = Value (action r).
Proof.
  intros [_ Hs Ha Hsel] [_ _ Hn]. unfold loadAction. change (get (encode_rule r) "action") with (Some (encode_action (action r))). cbv iota beta. change (negb (isObject (encode_action (action r)))) with false. cbv iota.
  change (get (encode_action (action r)) "type") with (Some (JSString (literal (action_name (action_type (action r)))))). cbv iota beta. unfold serializable in Hs. rewrite !elem_of_cons, elem_of_nil in Hs.
  destruct r as [t [identifier type number argument]]. cbn [action action_type stringArgument] in *. injection Ha as -> ->.
  destruct_or! Hs; try done; subst type; cbn [action_name].
  1, 2, 4: rewrite Hsel by done; reflexivity.
  change (bool_decide (_ = literal "block")) with false. change (bool_decide (_ = literal "ignore-previous-rules")) with false. change (bool_decide (_ = literal "block-cookies")) with false. change (bool_decide (_ = literal "css-display-none")) with true.
  cbv iota. change (get _ "selector") with (Some (JSString (characters argument))). cbv iota beta. by rewrite Hn.
Qed.

Lemma rule_loop_encoded rules : Forall valid_rule rules -> Forall narrow_rule rules -> forall before, rule_loop numberToString before (map encode_rule rules) = Value (before ++ rules).
Proof.
  intros Hv. induction Hv as [|r rules Hr _ IH]; intros Hn before; cbn [map rule_loop]; [by rewrite app_nil_r|]. apply Forall_cons in Hn as [Hnr Hn]. unfold encode_rule at 1. fold (encode_rule r). cbv iota. unfold loadRule.
  rewrite loadTrigger_encoded by (try done; apply Hr). cbn [result_bind]. rewrite loadAction_encoded by done. cbn [result_bind]. rewrite IH by done. rewrite <- (assoc_L (++)). by destruct r.
Qed.

Lemma loadDecodedRules_encoded rules : Forall valid_rule rules -> Forall narrow_rule rules -> vlen rules <= maxRuleCount -> loadDecodedRules numberToString (Some (encode_rules rules)) = Value rules.
Proof. intros Hv Hn Hl. unfold loadDecodedRules, encode_rules. cbn [isObject negb]. rewrite (proj2 (Z.ltb_ge _ _)) by (rewrite length_map; done). by rewrite rule_loop_encoded. Qed.
End Read.

(** ** Errors *)

(** The errors for the text as a whole; the others are for a rule. *)
Definition text_error (e : ContentExtensionError) : bool :=
  match e with
  | JSONInvalid | JSONTopLevelStructureNotAnObject | JSONTopLevelStructureNotAnArray | JSONTooManyRules | JSONContainsNoRules => true
  | _ => false
  end.

(** The errors of a result are those of a rule. *)
Definition rule_errors {A : Type} (r : result A) : Prop := match r with Value _ => True | Error e => text_error e = false end.

Section Errors.
Variable numberToString : Number -> list Z.

Lemma result_bind_errors {A B} (r : result A) (f : A -> result B) : rule_errors r -> (forall a, rule_errors (f a)) -> rule_errors (result_bind r f).
Proof. intros Hr Hf. destruct r; [apply Hf|done]. Qed.

Lemma load_types_errors v name flags f : rule_errors (load_types numberToString v name flags f).
Proof.
  unfold load_types, getTypeFlags. destruct (get v name) as [value|]; [|done]. destruct value as [| | | |array|]; cbn [isObject negb]; try done.
  revert flags. induction array as [|x array IH]; intros flags; cbn [type_loop]; [done|]. destruct (_ =? 0); [done|]. apply IH.
Qed.

Lemma load_domains_errors v : rule_errors (load_domains v).
Proof.
  unfold load_domains. apply result_bind_errors; [|intros ds; by case_bool_decide]. unfold getDomainList. destruct v as [| | | |array|]; try done. generalize (@nil WString).
  induction array as [|x array IH]; intros vector; cbn [domain_loop]; [done|]. destruct x; try done. case_bool_decide; [done|]. destruct (negb _); [done|]. apply IH.
Qed.

Lemma loadTrigger_errors v : rule_errors (loadTrigger numberToString v).
Proof.
  unfold loadTrigger. destruct (get v "trigger") as [o|]; [|done]. destruct (negb (isObject o)); [done|]. destruct (get o "url-filter") as [[| | |s| |]|]; try done. case_bool_decide; [done|]. cbv zeta.
  apply result_bind_errors; [apply load_types_errors|intros f1]. apply result_bind_errors; [apply load_types_errors|intros f2]. apply result_bind_errors.
  - destruct (get o "if-domain") as [d|]; [|done]. destruct (isObject d); [|done]. by apply result_bind_errors; [apply load_domains_errors|].
  - intros [ds condition]. destruct (get o "unless-domain") as [d|]; [|done]. destruct (isObject d); [|done]. destruct (negb _); [done|]. by apply result_bind_errors; [apply load_domains_errors|].
Qed.

Lemma loadAction_errors v : rule_errors (loadAction v).
Proof.
  unfold loadAction. destruct (get v "action") as [o|]; [|done]. destruct (negb (isObject o)); [done|]. destruct (get o "type") as [[| | |s| |]|]; try done. repeat (case_bool_decide; [done|]). case_bool_decide; [|done].
  by destruct (get o "selector") as [[| | |sel| |]|].
Qed.

Lemma rule_loop_errors array : forall rules, rule_errors (rule_loop numberToString rules array).
Proof.
  induction array as [|v array IH]; intros rules; cbn [rule_loop]; [done|].
  assert (Hrest : rule_errors (localRuleList ⇐ loadRule numberToString v rules; rule_loop numberToString localRuleList array)).
  { apply result_bind_errors; [|done]. apply result_bind_errors; [apply loadTrigger_errors|intros t]. by apply result_bind_errors; [apply loadAction_errors|]. }
  by destruct v.
Qed.
End Errors.

(** ** Claims *)

Section Claims.
Variable numberToString : Number -> list Z.

(** C3: the JSON parser returns on every text, and it reads a text as a value
    exactly if the text is one of that value: by the grammar of JSON, with
    white space around it and at most a semicolon after it.  A short integer
    is computed, any other number is left to be read as a double, and so is a
    short integer that ends the text. *)
Theorem JSONParse_correct (is8Bit : bool) (text : list Z) :
  exists r, JSONParse is8Bit text = Some r /\ forall v, r = Some v <-> document v text.
Proof.
  destruct (JSONParse_total is8Bit text) as [r Hr]. exists r. split; [done|]. intros v. split.
  - intros ->. by eapply JSONParse_sound.
  - intros Hd%(JSONParse_document is8Bit). congruence.
Qed.

(** C5: what is accepted as a list of rules is one: it is not empty and not
    longer than the limit, and every rule is valid.  Its filter is not empty,
    its types are types that have names, its domains are non-empty lowercase
    ASCII, there are domains exactly if there is a domain condition, and its
    action can be serialized. *)
Theorem parseRuleList_valid (json : WString) (rules : list ContentExtensionRule) :
  parseRuleList numberToString json = Some (Value rules) -> rules <> [] /\ vlen rules <= maxRuleCount /\ Forall valid_rule rules.
Proof. apply parseRuleList_accepts. Qed.

(** C6: every text is answered, and the errors for the text as a whole say
    what is wrong with it: it is no JSON, its value is no object or array, or
    an object, or an array of more than the limit of rules, or an empty one. *)
Theorem parseRuleList_errors (json : WString) : exists r, parseRuleList numberToString json = Some r
  /\ (r = Error JSONInvalid <-> ~ exists v, document v (characters json))
  /\ (r = Error JSONTopLevelStructureNotAnObject <-> exists v, document v (characters json) /\ isObject v = false)
  /\ (r = Error JSONTopLevelStructureNotAnArray <-> exists ms, document (JSObject ms) (characters json))
  /\ (r = Error JSONTooManyRules <-> exists vs, document (JSArray vs) (characters json) /\ maxRuleCount < vlen vs)
  /\ (r = Error JSONContainsNoRules <-> document (JSArray []) (characters json)).
Proof.
  unfold parseRuleList, loadEncodedRules. destruct (JSONParse_total (is8Bit json) (characters json)) as [d Hd]. rewrite Hd, !option_bind_Some. eexists. split; [done|].
  destruct d as [v|].
  2: { assert (Hno : forall v, ~ document v (characters json)) by (intros v Hv%(JSONParse_document (is8Bit json)); congruence). cbn. naive_solver. }
  assert (Hv : forall v', document v' (characters json) <-> v' = v).
  { intros v'. split; [intros Hx%(JSONParse_document (is8Bit json)); congruence|]. intros ->. by eapply JSONParse_sound. }
  setoid_rewrite Hv. unfold loadDecodedRules. destruct v as [| | | |array|ms]; cbn [isObject negb result_bind]; try (clear; naive_solver).
  destruct (Z.ltb_spec maxRuleCount (vlen array)) as [Hmany|Hfew]; cbn [result_bind].
  - assert (array <> []) by (intros ->; cbn in Hmany; unfold maxRuleCount in Hmany; lia). clear Hd Hv. naive_solver.
  - pose proof (rule_loop_errors numberToString array []) as He. destruct (rule_loop numberToString [] array) as [rules|e] eqn:El; cbn [result_bind].
    + apply rule_loop_valid in El; [|constructor]. destruct El as [_ Hlen]. cbn in Hlen. clear Hd Hv He. case_bool_decide as Hnil.
      * assert (array = []) by (subst rules; destruct array; [done|]; cbn in Hlen; lia). clear Hlen. naive_solver lia.
      * assert (array <> []) by (intros ->; destruct rules; [done|]; cbn in Hlen; lia). clear Hlen. naive_solver lia.
    + assert (array <> []) by (intros ->; discriminate El). cbn in He. clear Hd Hv El. destruct e; try discriminate He; naive_solver lia.
Qed.

(** C4: valid rules are read from every text of their JSON value, whatever its
    white space and the way its strings are written: encoding rules and parsing
    them gives the same rules. *)
Theorem parseRuleList_roundtrip (is8Bit : bool) (text : list Z) (rules : list ContentExtensionRule) :
  rules <> [] -> vlen rules <= maxRuleCount -> Forall valid_rule rules -> Forall narrow_rule rules -> document (encode_rules rules) text ->
  parseRuleList numberToString (mkWString is8Bit text) = Some (Value rules).
Proof.
  intros Hne Hlen Hv Hn Hd. unfold parseRuleList, loadEncodedRules. cbn [Actions.is8Bit characters]. rewrite (JSONParse_document _ _ _ Hd), !option_bind_Some, loadDecodedRules_encoded by done. cbn [result_bind]. by rewrite bool_decide_eq_false_2.
Qed.
End Claims.

(** A text with single quotes for the double ones. *)
Definition json_text (s : string) : list Z := map (fun c => if c =? 39 then 34 else c) (literal s).

(** ** Witnesses *)

Module RuleTextExample.

Definition digits (n : Number) : list Z := [].

Definition str (s : string) : WString := mkWString true (literal s).

(** A rule that blocks images of two hosts, and a rule with a selector. *)
Definition rules : list ContentExtensionRule := [
  mkRule (mkTrigger (str "ads?") true (ResourceType_code Type_Image) [str "a.com"; str "*b"] UnlessDomain) (mkAction BlockLoad uint32_max emptyWString);
  mkRule (mkTrigger (str ".*") false 0 [] NoDomain) (mkAction CSSDisplayNoneSelector uint32_max (str "#x"))].

(** The properties in the order of the encoding, with an escape and white space. *)
Definition json : list Z := json_text
  "[ {'trigger':{'url-filter':'ads?','url-filter-is-case-sensitive':true,'resource-type':['image'],'unless-domain':['a.com', '*\u0062']},'action':{'type':'block'}} ,
  {'trigger':{'url-filter':'.*','url-filter-is-case-sensitive':false},'action':{'type':'css-display-none','selector':'#x'}}]".

Lemma rules_valid : Forall valid_rule rules.
Proof.
  repeat (apply List.Forall_cons; [|]); [..|apply List.Forall_nil]; (split; [split|..]); try done; cbn; try (by vm_compute); try (unfold serializable; cbn; set_solver).
  - repeat (apply List.Forall_cons; [split; [done|repeat (apply List.Forall_cons; [cbn; lia|]); apply List.Forall_nil]|]). apply List.Forall_nil.
Qed.

Lemma rules_narrow : Forall narrow_rule rules.
Proof. repeat (apply List.Forall_cons; [split; try done|]); [..|apply List.Forall_nil]; repeat (apply List.Forall_cons; [done|]); apply List.Forall_nil. Qed.

Lemma json_document : document (encode_rules rules) json.
Proof. apply (JSONParse_sound true). by vm_compute. Qed.

Lemma parseRuleList_valid_witness : rules <> [] /\ vlen rules <= maxRuleCount /\ Forall valid_rule rules.
Proof. apply (parseRuleList_valid digits (mkWString true json)). vm_compute. reflexivity. Defined.

Lemma parseRuleList_roundtrip_witness : parseRuleList digits (mkWString true json) = Some (Value rules).
Proof.
  apply (parseRuleList_roundtrip digits true json rules).
  - discriminate.
  - cbn. unfold maxRuleCount. lia.
  - exact rules_valid.
  - exact rules_narrow.
  - exact json_document.
Defined.
End RuleTextExample.
