(* ===== verification/LoadClaims.v ===== *)
(** * Claims: from rules to loads

    The whole way of a rule list: parsed, compiled, made an extension, asked for the
    actions of a load. *)

From Stdlib Require Import String.
From stdpp Require Import relations gmap.
From S2P Require Import Prelude Bits DFA Bytecode BytecodeCompiler BytecodeInterpreter HashSet NFA Term TermLanguage FilterSyntax Actions ActionsCorrect SerializeCorrect SerializeInvariant SerializeClaims Utf8 Utf8Correct ContentExtension ExtensionCorrect ExtensionClaims CombinedURLFilters FilterSimplify LiteralParser RuleListCompiler RulesCorrect RuleListCorrect RuleListClaims RuleListParser RuleTextClaims.

(** * A load and the rules

    What a load gets from an extension is decided by the rules the extension
    was compiled from: the rules that apply to the load and come after the last
    ignore-previous-rules rule that applies. *)

(** ** Rules in effect *)

Section Effect.
Variables (es : list entry) (url host : list Z) (flags : Z).

(** The filter matches the URL, the types are those of the load, and the host is as the condition asks. *)
Definition applies_to (e : entry) : Prop :=
  en_matches e url /\ en_load e flags /\ (en_domains e <> [] -> en_condition e host).

Definition en_type (e : entry) : ActionType := action_type (action (en_rule e)).

(** The rule applies, and every rule that applies and ignores previous rules comes before it. *)
Definition in_effect (i : nat) (e : entry) : Prop :=
  es !! i = Some e /\ en_type e <> IgnorePreviousRules /\ applies_to e
  /\ forall j e', es !! j = Some e' -> en_type e' = IgnorePreviousRules -> applies_to e' -> (j < i)%nat.
End Effect.

Section Load.
Context `{Host} {StyleSheet : Type}.
Variable parseString : WString -> option StyleSheet.
Variable iterate : gset Z -> list Z.
Hypothesis iterate_all : forall A x, x ∈ iterate A <-> x ∈ A.
Variable iteration_order : PendingMap -> PendingMap.
Hypothesis iteration_order_perm : forall m, iteration_order m ≡ₚ m.
Variables (rules : list ContentExtensionRule) (flts : list filter) (actions : list Z) (es : list entry).
Hypothesis Hser : Forall serializable rules.
Hypothesis Hwritten : Forall2 written rules flts.
Hypothesis Hselectors : Forall (fun r => wf_string (selector_of r)) rules.
Hypothesis Hentries : entries_for iteration_order rules flts actions es.
Hypothesis Hsize : vlen actions < 2 ^ 32.

Lemma entries_serialized : exists s, serialized closes (length rules) rules s /\ ss_actions s = actions /\ ss_locations s = map en_location es.
Proof.
  destruct (serializeActions_serialized iteration_order iteration_order_perm rules Hser) as (a & l & E & Hs). rewrite (ef_locations _ _ _ _ _ Hentries) in E. injection E as <- <-.
  eexists. split; [by apply Hs|]. done.
Qed.

Lemma entry_rule i e : es !! i = Some e -> rules !! i = Some (en_rule e) /\ map en_location es !! i = Some (en_location e).
Proof. intros Hi. rewrite <- (ef_rules _ _ _ _ _ Hentries), !list_lookup_fmap, Hi. done. Qed.

Lemma not_waiting i e : es !! i = Some e -> ~ waiting (length rules) i (en_rule e).
Proof. intros [Hr _]%entry_rule [_ Hle]. apply lookup_lt_Some in Hr. lia. Qed.

Lemma entry_located i e : es !! i = Some e -> located actions (en_location e) /\ deserializeType actions (vlen actions) (en_location e) = Some (en_type e).
Proof.
  intros Hi. destruct entries_serialized as (s & Hs & Ea & El). destruct (entry_rule i e Hi) as [Hr Hl].
  pose proof (sz_placed _ _ _ _ Hs i (en_rule e) (en_location e) Hr ltac:(by rewrite El) (not_waiting i e Hi)) as Hp. rewrite Ea in Hp. unfold placed in Hp.
  assert (Hit : exists it, item_ok it /\ item_wf it /\ holds actions (en_location e) (item_bytes it) /\ item_type it = en_type e).
  { unfold en_type. case_decide as Ht.
    - destruct Hp as (sel & Hh & Hsel). exists (SelectorItem sel). rewrite Ht. split; [done|]. split; [|done]. by eapply stored_selector_wf.
    - exists (SimpleItem (action_type (action (en_rule e)))). split; [|done]. pose proof (Forall_lookup_1 _ _ _ _ Hser Hr) as Hsr. unfold serializable in Hsr.
      cbn [item_ok]. rewrite !elem_of_cons, elem_of_nil in Hsr. rewrite !elem_of_cons. tauto. }
  destruct Hit as (it & Hok & Hwf & Hh & <-). split; [by exists it|]. by apply (deserialize_item actions Hsize).
Qed.

Lemma entry_order i j e e' :
  (i < j)%nat -> es !! i = Some e -> es !! j = Some e' -> (en_type e = IgnorePreviousRules <-> en_type e' <> IgnorePreviousRules) -> en_location e < en_location e'.
Proof.
  intros Hij Hi Hj Hne. destruct entries_serialized as (s & Hs & _ & El). destruct (entry_rule i e Hi) as [Hri Hli]. destruct (entry_rule j e' Hj) as [Hrj Hlj].
  eapply (sz_order _ _ _ _ Hs i j); rewrite ?El; eauto using not_waiting. unfold is_ignore. fold (en_type e) (en_type e'). do 2 case_bool_decide; intuition congruence.
Qed.

Lemma entry_action e : e ∈ es -> u32 (en_action e) = en_location e.
Proof.
  intros He. destruct (locations_in iteration_order iteration_order_perm rules actions _ Hser (ef_locations _ _ _ _ _ Hentries) Hsize) as [_ Hl]. rewrite Forall_map, Forall_forall in Hl. specialize (Hl e He). cbn in Hl.
  apply en_action_location; [|lia]. apply list_elem_of_lookup in He as [i Hi]. destruct (entry_rule i e Hi) as [Hr _].
  destruct (Forall2_lookup_l _ _ _ _ _ Hwritten Hr) as (flt & _ & Hw). apply (wr_flags _ _ Hw).
Qed.

(** ** Locations that are matched *)

Section Matched.
Variables (url host : list Z) (flags : Z) (A W D B V : gset Z).
Abbreviation L := (map u32 (iterate A) ++ map u32 (iterate B) ++ map u32 (iterate W) ++ matching_universal D (iterate V)).
Hypothesis Hwithout : forall x, x ∈ A \/ x ∈ W <-> actions_of es (fun e => en_domains e = [] /\ en_matches e url /\ en_load e flags) x.
Hypothesis Hwith : forall x, x ∈ B \/ (x ∈ V /\ matchesDomain x D = true)
  <-> actions_of es (fun e => en_domains e <> [] /\ en_matches e url /\ en_load e flags /\ en_condition e host) x.

Lemma elem_of_iterated X l : l ∈ map u32 (iterate X) <-> exists x, x ∈ X /\ l = u32 x.
Proof. rewrite list_elem_of_In, in_map_iff. setoid_rewrite <- list_elem_of_In. setoid_rewrite iterate_all. naive_solver. Qed.

Lemma elem_of_matching l : l ∈ matching_universal D (iterate V) <-> exists x, (x ∈ V /\ matchesDomain x D = true) /\ l = u32 x.
Proof.
  unfold matching_universal. rewrite list_elem_of_In, in_map_iff. setoid_rewrite filter_In. setoid_rewrite <- list_elem_of_In. setoid_rewrite iterate_all. unfold matchesDomain. naive_solver.
Qed.

Lemma elem_of_matched l : l ∈ L <-> exists i e, es !! i = Some e /\ applies_to url host flags e /\ l = en_location e.
Proof.
  rewrite !elem_of_app, !elem_of_iterated, elem_of_matching. transitivity (exists x, ((x ∈ A \/ x ∈ W) \/ (x ∈ B \/ (x ∈ V /\ matchesDomain x D = true))) /\ l = u32 x); [naive_solver|].
  setoid_rewrite Hwithout. setoid_rewrite Hwith. unfold applies_to. split.
  - intros (x & [(e & He & Hp & ->)|(e & He & Hp & ->)] & ->); rewrite entry_action by done; apply list_elem_of_lookup in He as [i Hi]; exists i, e; naive_solver.
  - intros (i & e & Hi & (Hm & Hl & Hc) & ->). apply list_elem_of_lookup_2 in Hi as He. exists (en_action e). rewrite entry_action by done. split; [|done].
    destruct (decide (en_domains e = [])); [left|right]; exists e; naive_solver.
Qed.

Lemma matched_located : Forall (located actions) L.
Proof. apply Forall_forall. intros l (i & e & Hi & _ & ->)%elem_of_matched. by eapply entry_located. Qed.

(** The effective locations are those of the rules in effect. *)
Lemma effective_in_effect l : effective actions L l <-> exists i e, in_effect es url host flags i e /\ l = en_location e.
Proof.
  unfold effective, in_effect. rewrite elem_of_matched. split.
  - intros [(i & e & Hi & Ha & ->) Habove]. exists i, e. split; [|done]. split; [done|].
    assert (Hno : en_type e <> IgnorePreviousRules).
    { intros Ht. assert (en_location e < en_location e); [|lia]. apply Habove; [apply elem_of_matched; by exists i, e|]. unfold ignores_at. destruct (entry_located i e Hi) as [_ ->]. by rewrite Ht. }
    split; [done|]. split; [done|]. intros j e' Hj Ht' Ha'.
    assert (Hlt : en_location e' < en_location e).
    { apply Habove; [apply elem_of_matched; by exists j, e'|]. unfold ignores_at. destruct (entry_located j e' Hj) as [_ ->]. by rewrite Ht'. }
    destruct (lt_eq_lt_dec i j) as [[Hij| ->]|Hij]; [|congruence|done]. pose proof (entry_order i j e e' Hij Hi Hj ltac:(tauto)). lia.
  - intros (i & e & (Hi & Hno & Ha & Hlast) & ->). split; [by exists i, e|]. intros l' (j & e' & Hj & Ha' & ->)%elem_of_matched Hig.
    unfold ignores_at in Hig. destruct (entry_located j e' Hj) as [_ Ht']. rewrite Ht' in Hig. injection Hig as Hig. apply (entry_order j i); [|done|done|tauto]. by apply (Hlast j e').
Qed.
End Matched.

(** ** The extension *)

(** The selector at a location was moved into the style sheet of the extension. *)
Definition in_sheet (e : ContentExtension StyleSheet) (l : Z) : Prop :=
  exists W, actionsMatchingEverything (filtersWithoutDomainsBytecode (m_compiledExtension e)) None = Some W
    /\ l ∈ map u32 (iterate W) /\ l ∉ m_universalActionsWithoutDomains e.

(** The load gets the action, by itself or in the style sheet. *)
Definition delivers (e : ContentExtension StyleSheet) (acts : list Action) (l : Z) : Prop :=
  action_at (cc_actions (m_compiledExtension e)) (m_identifier e) l ∈ acts \/ (in_sheet e l /\ sheet_action e ∈ acts).

Variables bw bd bs : list Z.
Hypothesis Hbw : answers_without es bw.
Hypothesis Hbd : answers_with es bd bs.
Abbreviation c := (mkCompiled actions bw bd bs).

Lemma actions_itemized : itemized actions.
Proof. destruct entries_serialized as (s & Hs & <- & _). apply (sz_items _ _ _ _ Hs). Qed.

Lemma createExtension_compiled id : exists e, createExtension parseString iterate id c = Some e.
Proof.
  assert (Hlen : vlen ([] : list Z) + 2 < 2 ^ 31) by (cbn; lia). assert (Hnil : text []) by constructor.
  destruct (Hbw [] 0 Hnil Hlen) as (A & W & _ & HW & HA). destruct (Hbd [] [] 0 Hnil Hlen Hnil Hlen) as (D & B & V & _ & _ & HV & HB).
  unfold createExtension. cbn [filtersWithoutDomainsBytecode filtersWithDomainsBytecode]. rewrite HW, HV, !option_bind_Some.
  assert (Hl : Forall (located actions) (map u32 (iterate W))).
  { pose proof (matched_located [] [] 0 A W D B V HA HB) as Hl. rewrite !Forall_app in Hl. tauto. }
  destruct (compileGlobal_spec parseString c actions_itemized Hsize _ Hl) as (sheet & rest & -> & _). rewrite option_bind_Some. by eexists.
Qed.

Lemma load_spec (e : ContentExtension StyleSheet) url d host flags :
  extension_ok parseString iterate e -> m_compiledExtension e = c -> (forall d', m_cachedDomain e = Some d' -> wf_string d') ->
  text url -> vlen url + 2 < 2 ^ 31 -> wf_string d -> utf8 (Some d) = Some host -> text host -> vlen host + 2 < 2 ^ 31 ->
  exists e1 acts, actionsOfExtension iterate e url flags (Some d) [] = Some (e1, acts)
    /\ (forall l, l ∈ map en_location es -> delivers e acts l <-> exists i x, in_effect es url host flags i x /\ l = en_location x)
    /\ forall t, t = BlockLoad \/ t = BlockCookies -> (exists a, a ∈ acts /\ action_type a = t) <-> exists i x, in_effect es url host flags i x /\ en_type x = t.
Proof.
  intros Hok Hc Hcached Hurl Hul Hd Hhost Hh Hhl. destruct (Hbw url flags Hurl Hul) as (A & W & HA & HW & HxA). destruct (Hbd url host flags Hurl Hul Hh Hhl) as (D & B & V & HD & HB & HV & HxB).
  assert (Hp : exists e1, populateDomainCacheIfNeeded e (Some d) = Some e1).
  { unfold populateDomainCacheIfNeeded. destruct (same_domain _ _); [by eexists|]. rewrite Hhost, option_bind_Some, Hc. cbn [domainFiltersBytecode]. rewrite HD, option_bind_Some. by eexists. }
  destruct Hp as (e1 & Hp). destruct (populate_fresh parseString iterate e e1 d Hok Hp Hd Hcached) as (bytes & Hbytes & HD' & Hu). rewrite Hhost in Hbytes. injection Hbytes as <-.
  rewrite Hc in HD'. cbn [domainFiltersBytecode] in HD'. rewrite HD in HD'. injection HD' as ED. rewrite <- ED in Hu.
  assert (Hv : m_universalActionsWithDomains e = iterate V).
  { pose proof Hok as [(e0 & He0 & _ & _ & ->) _]. rewrite Hc in He0. unfold createExtension in He0. cbn [filtersWithoutDomainsBytecode filtersWithDomainsBytecode] in He0. rewrite HW, HV, !option_bind_Some in He0.
    destruct (compileGlobalDisplayNoneStyleSheet _ _ _) as [[sheet rest]|]; [|done]. rewrite option_bind_Some in He0. by injection He0 as <-. }
  rewrite Hv in Hu. pose proof (matched_located url host flags A W D B V HxA HxB) as Hl. pose proof (effective_in_effect url host flags A W D B V HxA HxB) as Heff.
  destruct (actionsOfExtension_spec parseString iterate e e1 url flags (Some d) A B W) as (acts & Hacts & Hdel & Honly & Hsel); rewrite ?Hc, ?Hu; cbn [cc_actions filtersWithoutDomainsBytecode filtersWithDomainsBytecode]; try done.
  { apply actions_itemized. }
  { by rewrite <- ED. }
  rewrite Hc, Hu in Hdel, Honly. rewrite Hc in Hsel. cbn [cc_actions] in Hdel, Honly, Hsel. exists e1, acts. split; [done|].
  assert (Hdeliver : forall i x, es !! i = Some x -> delivers e acts (en_location x) <-> exists i' x', in_effect es url host flags i' x' /\ en_location x = en_location x').
  { intros i x Hi. rewrite <- Heff, (Hdel (en_location x)) by by eapply entry_located. unfold delivers, in_sheet. rewrite Hc. cbn [cc_actions filtersWithoutDomainsBytecode]. rewrite HW. naive_solver. }
  split.
  - intros l (x & -> & [i Hi]%list_elem_of_lookup)%list_elem_of_fmap_1. by eapply Hdeliver.
  - intros t Ht. assert (Hat : forall i x, es !! i = Some x -> action_type (action_at actions (m_identifier e) (en_location x)) = en_type x).
    { intros i x Hi. destruct (entry_located i x Hi) as [Hloc Hty]. destruct (located_action actions (m_identifier e) Hsize _ Hloc) as (t' & s & _ & Ht' & -> & _). cbn. congruence. }
    split.
    + intros (a & Ha & Hta). destruct (Honly a Ha) as [->|(l & Hin & ->)]; [cbn in Hta; destruct Ht; congruence|]. destruct (proj1 (elem_of_matched url host flags A W D B V HxA HxB l) Hin) as (i & x & Hi & _ & ->).
      destruct (proj1 (Hdeliver i x Hi)) as (j & y & Hy & El); [left; by rewrite Hc|]. exists j, y. split; [done|]. destruct Hy as (Hj & _). rewrite <- (Hat j y Hj), <- El. done.
    + intros (i & x & Hx & Htx). pose proof Hx as (Hi & _). destruct (proj2 (Hdeliver i x Hi)) as [Ha|[(W' & HW' & Hin & Hn) _]]; [by exists i, x| |].
      * exists (action_at actions (m_identifier e) (en_location x)). rewrite Hc in Ha. split; [done|]. by rewrite (Hat i x Hi).
      * exfalso. rewrite Hc in HW'. cbn [filtersWithoutDomainsBytecode] in HW'. rewrite HW in HW'. injection HW' as <-. specialize (Hsel _ Hin Hn). unfold selects_at in Hsel. destruct (entry_located i x Hi) as [_ Hty].
        rewrite Hty in Hsel. injection Hsel as Hsel. destruct Ht; congruence.
Qed.
End Load.

Section Claims.
Context `{Host} {NS AS StyleSheet : Type} `{HashSetLaws NS} `{HashSetLaws AS}.
Variable parseString : WString -> option StyleSheet.
Variable iterate : gset Z -> list Z.
Hypothesis iterate_all : forall A x, x ∈ iterate A <-> x ∈ A.
Variable iteration_order : PendingMap -> PendingMap.
Variable state_order : list (list Z * list Z) -> list (list Z * list Z).
Hypothesis iteration_order_perm : forall m, iteration_order m ≡ₚ m.
Hypothesis state_order_perm : forall l, state_order l ≡ₚ l.

(** The same for rules that were parsed before. *)
Lemma compiled_rules_spec (rules : list ContentExtensionRule) (flts : list filter) :
  2 ^ 49 <= hs_bound (T := AS) -> Forall serializable rules -> Forall (fun r => wf_string (selector_of r)) rules ->
  Forall2 written rules flts -> rules_affordable (NS := NS) (AS := AS) iteration_order state_order rules ->
  exists actions es bw bd bs, entries_for iteration_order rules flts actions es
    /\ compileParsedRules (NS := NS) (AS := AS) iteration_order state_order rules = Some (calls actions bw bd bs, None)
    /\ (rules_keep_terminator (NS := NS) (AS := AS) iteration_order state_order rules -> vlen (concat bw) < 2 ^ 31 -> vlen (concat bd) < 2 ^ 31 -> vlen (concat bs) < 2 ^ 31 ->
        let c := mkCompiled actions (concat bw) (concat bd) (concat bs) in
        (forall id, exists e, createExtension parseString iterate id c = Some e)
        /\ forall (e : ContentExtension StyleSheet) url d host flags,
             extension_ok parseString iterate e -> m_compiledExtension e = c -> (forall d', m_cachedDomain e = Some d' -> wf_string d') ->
             text url -> vlen url + 2 < 2 ^ 31 -> wf_string d -> utf8 (Some d) = Some host -> text host -> vlen host + 2 < 2 ^ 31 ->
             exists e1 acts, actionsOfExtension iterate e url flags (Some d) [] = Some (e1, acts)
               /\ (forall l, l ∈ map en_location es -> delivers iterate e acts l <-> exists i x, in_effect es url host flags i x /\ l = en_location x)
               /\ forall t, t = BlockLoad \/ t = BlockCookies ->
                    (exists a, a ∈ acts /\ action_type a = t) <-> exists i x, in_effect es url host flags i x /\ en_type x = t).
Proof.
  intros Hkeys Hser Hsel Hw Hr. destruct (compileParsedRules_spec iteration_order state_order iteration_order_perm state_order_perm Hkeys rules flts Hser Hw Hr) as (actions & es & bw & bd & bs & Hes & Hc & Hwo & Hwi).
  exists actions, es, bw, bd, bs. split; [done|]. split; [done|]. intros Hkeep Hbw Hbd Hbs. cbv zeta. specialize (Hwo Hkeep Hbw). specialize (Hwi Hkeep Hbd Hbs).
  pose proof (rf_actions _ _ _ Hr _ _ (ef_locations _ _ _ _ _ Hes)) as Hsize. split.
  - intros id. by apply (createExtension_compiled parseString iterate iterate_all iteration_order iteration_order_perm rules flts actions es).
  - intros e url d host flags. by apply (load_spec parseString iterate iterate_all iteration_order iteration_order_perm rules flts actions es).
Qed.

(** C1: a text that the parser accepts as a list of rules, whose filters are
    written in the supported syntax, without empty groups, and do not match the
    empty URL if they are bound to both ends ([written]; a text whose filter is
    not accepted is rejected by the compiler), and whose automata fit the
    integers and hash tables ([rules_affordable], sizes only), compiles without
    error.  If the bytecode is smaller than 2^31 bytes and the compiled DFAs keep the terminator of the URL
    ([rules_keep_terminator]; "^a$" beside "^a." does not), it decides what a
    load gets the way the rules say.  An extension can be created from the calls
    of the client; asked for a load of a URL and a non-null domain, whatever it
    was asked before, it returns the action at the location of a rule, by itself
    or in the style sheet, exactly if a rule with that location is in effect:
    its filter matches the URL, its types are those of the load, its domain
    condition accepts the host, and no later rule that applies ignores it.  So
    the load is blocked, or its cookies are, exactly if such a rule says so. *)
Theorem compiled_rules_apply (numberToString : Number -> list Z) (json : WString) (rules : list ContentExtensionRule) (flts : list filter) :
  2 ^ 49 <= hs_bound (T := AS) -> parseRuleList numberToString json = Some (Value rules) -> Forall (fun r => wf_string (selector_of r)) rules ->
  Forall2 written rules flts -> rules_affordable (NS := NS) (AS := AS) iteration_order state_order rules ->
  exists actions es bw bd bs, entries_for iteration_order rules flts actions es
    /\ compileRuleList numberToString (NS := NS) (AS := AS) iteration_order state_order json = Some (calls actions bw bd bs, None)
    /\ (rules_keep_terminator (NS := NS) (AS := AS) iteration_order state_order rules -> vlen (concat bw) < 2 ^ 31 -> vlen (concat bd) < 2 ^ 31 -> vlen (concat bs) < 2 ^ 31 ->
        let c := mkCompiled actions (concat bw) (concat bd) (concat bs) in
        (forall id, exists e, createExtension parseString iterate id c = Some e)
        /\ forall (e : ContentExtension StyleSheet) url d host flags,
             extension_ok parseString iterate e -> m_compiledExtension e = c -> (forall d', m_cachedDomain e = Some d' -> wf_string d') ->
             text url -> vlen url + 2 < 2 ^ 31 -> wf_string d -> utf8 (Some d) = Some host -> text host -> vlen host + 2 < 2 ^ 31 ->
             exists e1 acts, actionsOfExtension iterate e url flags (Some d) [] = Some (e1, acts)
               /\ (forall l, l ∈ map en_location es -> delivers iterate e acts l <-> exists i x, in_effect es url host flags i x /\ l = en_location x)
               /\ forall t, t = BlockLoad \/ t = BlockCookies ->
                    (exists a, a ∈ acts /\ action_type a = t) <-> exists i x, in_effect es url host flags i x /\ en_type x = t).
Proof.
  intros Hkeys Hp Hsel Hw Hr. unfold compileRuleList. rewrite Hp, option_bind_Some. apply compiled_rules_spec; try done.
  apply parseRuleList_accepts in Hp as (_ & _ & Hvalid). eapply Forall_impl; [exact Hvalid|]. intros r Hv. apply Hv.
Qed.
End Claims.

(** ** Witness *)

Module LoadExample.
Import RuleListExample.

Definition parse (css : WString) : option WString := Some css.

Definition digits (n : Number) : list Z := [].

(** The rules as a text. *)
Definition json : WString := mkWString true (json_text
  "[{'trigger': {'url-filter': 'ab'}, 'action': {'type': 'block'}},
    {'trigger': {'url-filter': '^a', 'url-filter-is-case-sensitive': true, 'if-domain': ['*x']}, 'action': {'type': 'ignore-previous-rules'}},
    {'trigger': {'url-filter': '.*', 'url-filter-is-case-sensitive': true, 'resource-type': ['image']}, 'action': {'type': 'block-cookies'}}]").

Lemma elements_all (A : gset Z) x : x ∈ elements A <-> x ∈ A.
Proof. apply elem_of_elements. Qed.

Lemma list_wf : Forall (fun r => wf_string (selector_of r)) rules.
Proof. unfold wf_string. repeat (apply List.Forall_cons; [cbn; apply List.Forall_nil|]). apply List.Forall_nil. Qed.

Lemma compiled_rules_apply_witness :
  exists actions es bw bd bs, entries_for (H := host) (fun m => m) rules filters actions es
    /\ compileRuleList digits (H := host) (NS := WideSet) (AS := WideSet) (fun m => m) (fun m => m) json = Some (calls actions bw bd bs, None)
    /\ (vlen (concat bw) < 2 ^ 31 -> vlen (concat bd) < 2 ^ 31 -> vlen (concat bs) < 2 ^ 31 ->
        let c := mkCompiled actions (concat bw) (concat bd) (concat bs) in
        (forall id, exists e, createExtension (H := host) parse elements id c = Some e)
        /\ forall (e : ContentExtension WString) url d h flags,
             extension_ok (H := host) parse elements e -> m_compiledExtension e = c -> (forall d', m_cachedDomain e = Some d' -> wf_string d') ->
             text url -> vlen url + 2 < 2 ^ 31 -> wf_string d -> utf8 (Some d) = Some h -> text h -> vlen h + 2 < 2 ^ 31 ->
             exists e1 acts, actionsOfExtension (H := host) elements e url flags (Some d) [] = Some (e1, acts)
               /\ (forall l, l ∈ map en_location es -> delivers (H := host) elements e acts l <-> exists i x, in_effect es url h flags i x /\ l = en_location x)
               /\ forall t, t = BlockLoad \/ t = BlockCookies ->
                    (exists a, a ∈ acts /\ action_type a = t) <-> exists i x, in_effect es url h flags i x /\ en_type x = t).
Proof.
  destruct (compiled_rules_apply (H := host) (NS := WideSet) (AS := WideSet) parse elements elements_all (fun m => m) (fun m => m) same_order same_order digits json rules filters) as (actions & es & bw & bd & bs & He & Hc & Hl).
  - cbn. lia.
  - vm_compute. reflexivity.
  - exact list_wf.
  - exact rules_written.
  - exact rules_fit.
  - exists actions, es, bw, bd, bs. split; [exact He|]. split; [exact Hc|]. exact (Hl rules_kept).
Defined.
End LoadExample.
